(* ===== verification/_CoqProject ===== *)
-Q . S2P
Prelude.v
SkipCore.v
FlatCombining.v
History.v
FCSkipList.v
FCQueues.v
FCProtocol.v
ListCore.v
HostLists.v
LFQueue.v
LazyList.v
LFSkipList.v
AddrRoute.v
XbarLayer.v
EventQ.v
PacketQueue.v
Bridge.v
PimTask.v
Tlb.v
PimDma.v
PimVault.v
KernelDma.v
MatrixKernels.v
TreeKernels.v
GraphKernels.v
PimSkip.v
PimProtocol.v
PimSort.v
PimList.v
PimQueue.v
PimQueueMain.v
Handshake.v
PimApi.v
ByteMem.v
Coprocessor.v
AbstractMem.v
PimMemory.v
