(* ===== verification/Prelude.v ===== *)
(** * Brown-SMCSim: a verification development

    Brown-SMCSim simulates a processor-in-memory (PIM) system with gem5: a host with several
    cores, a stacked memory, and a small processor per vault of the memory.  The repository
    holds the simulator with its PIM device (src/SMC/GEM5/gem5) and the software that runs on
    the simulated system (src/SMC/SW): concurrent data structures for the host, their
    counterparts as kernels for the PIM processor, the user-level API, the driver and the
    resident code of the device.  This development models the program's own logic in these
    parts and proves it correct against abstract specifications.

    ** How the parts interact

    A host program collects the data of a task ([PIMTask], pim_task.cc), loads a kernel image
    and gives the ranges to the driver (pim_api.cc), which pins the pages and builds a table of
    slices of physical memory (pim.c).  The TLB of the device (ethz_tlb.cc) translates the
    accesses of the PIM processor with rules it refills from that table; the DMA engine
    (ethz_dma.cc) shares the TLB and moves data into the vector register of the device memory
    (ethz_pim_memory.cc), whose registers the host and the resident code use to start commands
    and to wait for them (resident.c, utils.h).  Packets travel between these modules through
    crossbars, bridges and the packet queues of ports, all driven by the events of one queue.  The data-structure benchmarks run either on
    the host only (flat combining, lock-free queues) or as host threads that write requests
    into slots of the vector register, which a kernel scans and serves (clean_skiplist.c,
    clean_linked_list.c).

    ** Files

    - Prelude.v (this file): outcomes of C++ code as the monads [result] ([UB] is undefined
      behaviour, [NoFuel] a loop cut by its bound) and [sim] ([Halt] is panic, exit or a failed
      assertion, [Wild] undefined behaviour), machine integers, arrays without initialiser,
      lemmas on lists and sets, tactics and the hint database [smc].
    - SkipCore.v: the search, link and unlink loops that four pieces of code share, against the
      interface [NodeMem]/[NodeMemLaws] of node storage.  ListCore.v: batches of requests in key
      order on a sorted list, against the same interface with allocation.
    - FlatCombining.v: slots, [enq_slot] and the combining loop of the flat-combining classes
      for any sequential object that satisfies the interface [SeqObj].
    - FCSkipList.v, FCQueues.v, HostLists.v: the host's skip list, partitioned skip list, queues
      and sorted list (multithread_fc_skiplist, multithread_fc_q,
      multithread_mainmem_linkedlist) as instances.
    - History.v: histories and linearizability.  FCProtocol.v: [fc_operation] run by concurrent
      threads, a step per shared access.  LFQueue.v: the lock-free queues of
      multithread_lockfree_queue, a step per shared access.  LazyList.v: the list with a lock
      per node and lazy removal (LazyLockList.h), a step per shared access.  LFSkipList.v: the
      lock-free skip list with marked links (LFSkipList.hh), a step per shared access, on top of
      the lemmas of LazyList.v for its bottom level.
    - AddrRoute.v: address ranges, the map of ranges and the address decoding of the crossbars
      (addr_range.hh, addr_range_map.hh, xbar.cc).  XbarLayer.v: the layers of a crossbar, with
      the timing requests, responses and retries of noncoherent_xbar.cc, on top of it.
    - EventQ.v: the event queue and the simulation loop of gem5 (eventq.cc, eventq_impl.hh,
      simulate.cc) and the interface [EventManager]/[EventManagerLaws], what the queue promises to a
      module that schedules an event, with the queue as its instance.  PacketQueue.v: the packet
      queue of a port (packet_queue.cc); Bridge.v: the bridge that also models the serial links
      between the host and the memory (bridge.cc); both are proved against that interface.
    - PimTask.v: data sets, page ranges, slice table.  Tlb.v: the TLB.  PimDma.v: the DMA engine.
    - ByteMem.v, Coprocessor.v, AbstractMem.v, PimMemory.v: byte memories, the floating-point
      coprocessor, the memory of the simulator with its exclusive monitor and atomic commands,
      and the registers of the device, which tie TLB, DMA engine, coprocessor and memory
      together.
    - PimVault.v: the allocator of a vault and the two node layouts.  PimSkip.v, PimSort.v,
      PimList.v: the kernels clean_skiplist.c and clean_linked_list.c.  PimProtocol.v: host
      threads and the skip-list kernel running at the same time.  PimQueue.v: the queue kernel
      clean_queue.c with the host's protocol for full and empty segments.  PimQueueMain.v: the
      main program of multithread_pim_queue around it, for one thread alone.
    - KernelDma.v: kernels as programs of memory accesses and DMA transfers, with an engine that moves
      words at any time, and the theorem that a kernel without races runs as if every transfer were
      complete at once; also with an engine that repeats moves or never makes some.  MatrixKernels.v (matrix_add.c, matrix_mult.c and the golden model of
      offload_matrix), TreeKernels.v (tree_search.c and the program offload_tree) and GraphKernels.v
      (the plain kernel of sgraph_bfs.c, the graphs of offload_sgraph) build on it.
    - PimApi.v: register and slot accessors of the API, kernel images.  Handshake.v: the
      start/completion protocol between host and resident code.

    Definitions have the names of the source where Rocq allows it; fields of C structs become
    fields of records, pointers become addresses in finite maps, [delete] removes the object, so
    that a use after free is [UB].  Statistics and messages are left out unless the code
    depends on them.

    ** What the theorems show

    - Linearizability: concurrent flat combining (skip list, queue), the lock-free linked queue,
      the lazy list, the lock-free skip list and the PIM skip list with its host threads are
      linearizable to a set of keys or a FIFO queue; the steps of the threads never dereference a
      wild pointer (with one exception in the lock-free skip list), and the locks of the lazy
      list never deadlock.  Conditions: in the lazy list no thread enters the allocator while another is
      inside it; in the lock-free skip list the words that the constructor leaves in the links of the tail have
      no bit of a mark.
    - Refinement of sequential specifications: combining passes, kernel rounds, list and queue
      operations compute the operations on sets and sequences, on every branch.
    - Address translation: from the data sets of a task to the physical address the memory sees,
      composed through task, driver, table and TLB, for plain accesses in atomic mode and tables without the overrun of
      the merging loop; the DMA engine moves exactly the requested
      bytes, unless a single last byte is left in a page, and is always confined to the vector register; atomic commands whose target is
      in the TLB are executed on the
      translated word; store-conditionals succeed exactly when the monitor has seen no store, which leaves out swaps and
      goes by the address of the request.
    - Crossbars: once the modules have announced their ranges every access is routed to the
      module that owns the address, through the cache of routes; under the port protocol no
      assertion of a layer fails, no waiting source is forgotten or starved, and a layer forwards
      one packet at a time.
    - Events and ports: the two-level list of the event queue is the list of pending events in the
      order of tick, priority and insertion, time never goes back, and global events run in the same
      order on every queue.  A packet queue sends its packets in the order of their ticks; a
      bridge is a pair of delay lines with bounded buffers that returns every response the way of
      its request; in both no assertion fails and no waiting packet or sender is forgotten.
    - Offloaded kernels: the double-buffered matrix addition has no race with its transfers, whatever moves the engine repeats or
      loses; if it returns it leaves the memory of the plain kernel, and it returns if the engine makes every
      move (the engine of PimDma.v can lose a request that overlaps another, and the kernel then waits); the tree search program
      builds a search tree and succeeds with both of its kernels; the breadth-first search finds
      the nodes that can be reached and, in one iteration, the lengths of the shortest paths.
    - Termination of the quicksort and of the combining and kernel loops; round trips of the
      information bits, slot accessors and kernel images; the handshake executes every command
      exactly once.
    - Where the code can fail, the failing behaviour is a theorem: lost wake-ups, a lost last
      byte of a DMA request, exhausted vault memory, a printing loop on an empty list, requests of
      the PIM queue served by a device that has changed its role, nodes lost to overlapping
      allocations, overlapping address ranges accepted by the map of ranges, a crossbar reported as
      drained while a source waits, a marked link followed by the clean-up of the lock-free skip
      list, an event of another thread that cannot be descheduled before it is merged, packets of a
      serial link that share its lanes, the end of a matrix that no transfer covers.

    ** Bounds and fuel

    Loops whose bound is not structural take fuel and return [NoFuel] without it.  The search
    loops get the number of live nodes plus one per level, the combining loop the number of slots
    plus one, quicksort the length of the segment; the theorems state results in [Ok], so that
    the fuel is shown to suffice.  The TLB, the DMA engine and the handshake are step functions;
    their theorems give the number of steps that serve a request, or quantify over all
    interleavings.  The loops over the event queue get the number of live events plus one and
    return [Wild] without fuel, so that the theorems, which state [Done], show that it suffices;
    [serviceEvents] and [sim_loop] are cut after a number of events, since events may schedule
    events for ever.  Ticks are unbounded.  Integers are integers modulo the width of the code: [u32] for the 32-bit
    [ulong_t] of host and PIM processor, [u64] for gem5's addresses; the theorems state the
    bounds under which nothing wraps.

    ** Not modelled

    gem5's processors, caches, coherence, DRAM timing, devices, statistics, checkpoints and
    configuration scripts, the threads and user interrupts of the simulation loop, the ideal-access variant of the crossbar (pim_xbar.cc), and the vendored code under
    gem5/ext; opening and mapping of the device by the API, file operations of the driver other
    than the allocating ioctl; the graph kernels other than the plain breadth-first search, the array
    kernel and their host programs; the
    partitions of the lock-free skip list; the queue kernel for a single device; boot code, shell
    scripts and scenarios.  Real time is left out in the software: where the code sleeps or polls,
    the model allows any interleaving. *)

From stdpp Require Export base list gmap sorting.
From Stdlib Require Export ZArith Lia.
Open Scope Z_scope.

Declare Scope smc_scope.
Delimit Scope smc_scope with smc.
Open Scope smc_scope.

(** ** Outcomes of C and C++ code

    [Ok a] is a normal result.  [UB] is undefined behaviour: the dereference of
    an address at which no live object is stored, an array index out of range,
    the read of a location never written.  [NoFuel] marks a loop that was cut
    by the fuel bound of its executable definition. *)
Inductive result (A : Type) : Type :=
| Ok (a : A)
| UB
| NoFuel.
Arguments Ok {A} a.
Arguments UB {A}.
Arguments NoFuel {A}.

#[export] Instance result_ret : MRet result := fun A a => Ok a.
#[export] Instance result_bind : MBind result := fun A B f x =>
  match x with Ok a => f a | UB => UB | NoFuel => NoFuel end.

(** An absent object or cell is undefined behaviour. *)
Definition of_opt {A} (o : option A) : result A :=
  match o with Some a => Ok a | None => UB end.

Definition is_ok {A} (r : result A) : bool :=
  match r with Ok _ => true | _ => false end.

Section result_lemmas.
Context {A B : Type}.
Implicit Types (x : result A) (f : A -> result B).

Lemma bind_Ok x f b :
  x ≫= f = Ok b <-> exists a, x = Ok a /\ f a = Ok b.
Proof.
  split.
  - destruct x; simpl; intros H; try discriminate; eauto.
  - intros (a & -> & H); exact H.
Qed.

Lemma bind_intro x f a b : x = Ok a -> f a = Ok b -> x ≫= f = Ok b.
Proof. intros -> H; exact H. Qed.

Lemma of_opt_Ok (o : option A) a : of_opt o = Ok a <-> o = Some a.
Proof. destruct o; simpl; split; congruence. Qed.

Lemma of_opt_Some (o : option A) a : o = Some a -> of_opt o = Ok a.
Proof. intros ->; reflexivity. Qed.

End result_lemmas.

(** Takes a run of the monad apart, one bind at a time. *)
Ltac run_inv :=
  repeat match goal with
  | H : _ ≫= _ = Ok _ |- _ =>
      let a := fresh "v" in let E := fresh "E" in
      apply bind_Ok in H as (a & E & H); cbn beta iota in H
  | H : of_opt _ = Ok _ |- _ => apply of_opt_Ok in H
  | H : Ok _ = Ok _ |- _ => injection H as H; try subst
  | H : UB = Ok _ |- _ => discriminate H
  | H : NoFuel = Ok _ |- _ => discriminate H
  | p : (_ * _)%type |- _ => destruct p
  end.

(** Executes one bind of the goal with an equation found by [tac]. *)
Ltac run_step tac := eapply bind_intro; [ tac | cbn beta iota ].

(** ** Outcomes of code that can stop the program

    [Done a] is a normal result.  [Halt] stops the program: [panic], [exit], a
    failed assertion.  [Wild] is undefined behaviour. *)
Inductive sim (A : Type) : Type :=
| Done (a : A)
| Halt
| Wild.
Arguments Done {A} a.
Arguments Halt {A}.
Arguments Wild {A}.

#[export] Instance sim_ret : MRet sim := fun A a => Done a.
#[export] Instance sim_bind : MBind sim := fun A B f x =>
  match x with Done a => f a | Halt => Halt | Wild => Wild end.

(** [assert (b)] *)
Definition check (b : bool) : sim unit := if b then Done tt else Halt.
(** An element of a vector; an index out of range is undefined. *)
Definition elem {A} (o : option A) : sim A :=
  match o with Some a => Done a | None => Wild end.

Lemma bind_Done {A B} (x : sim A) (f : A -> sim B) b :
  x ≫= f = Done b <-> exists a, x = Done a /\ f a = Done b.
Proof.
  split.
  - destruct x; simpl; intros H; try discriminate; eauto.
  - intros (a & -> & H); exact H.
Qed.

Lemma check_Done b : check b = Done tt <-> b = true.
Proof. by destruct b. Qed.

Lemma elem_Done {A} (o : option A) a : elem o = Done a <-> o = Some a.
Proof. destruct o; simpl; split; congruence. Qed.

(** Takes a run of [sim] apart, one bind at a time. *)
Ltac sim_inv :=
  repeat match goal with
  | H : _ ≫= _ = Done _ |- _ =>
      let a := fresh "v" in let E := fresh "E" in
      apply bind_Done in H as (a & E & H); cbn beta iota in H
  | H : check _ = Done ?u |- _ => destruct u; apply check_Done in H
  | H : elem _ = Done _ |- _ => apply elem_Done in H
  | H : Done _ = Done _ |- _ => injection H; clear H; intros; try subst
  | H : Halt = Done _ |- _ => discriminate H
  | H : Wild = Done _ |- _ => discriminate H
  | p : (_ * _)%type |- _ => destruct p
  end.

(** Continues a run of [sim] after the rewriting of its first operation. *)
Ltac sim_step := cbn [mbind sim_bind]; cbn beta iota.

(** ** Machine integers *)

(** [ulong_t], 32 bits wide on the simulated ARMv7 (app_utils.hh). *)
Definition u32_mod : Z := 2 ^ 32.
Definition u32 (z : Z) : Z := z mod u32_mod.
Definition u16 (z : Z) : Z := z mod 2 ^ 16.
Definition u8 (z : Z) : Z := z mod 2 ^ 8.
Definition is_u32 (z : Z) : Prop := 0 <= z < u32_mod.
(** [int]: two's complement, 32 bits. *)
Definition s32 (z : Z) : Z := (z + 2 ^ 31) mod u32_mod - 2 ^ 31.

Definition INT_MAX : Z := 2 ^ 31 - 1.
Definition UINT32_MAX : Z := 2 ^ 32 - 1.

Lemma u32_small z : is_u32 z -> u32 z = z.
Proof. intros H. apply Z.mod_small, H. Qed.

Lemma u32_range z : is_u32 (u32 z).
Proof. apply Z.mod_pos_bound; reflexivity. Qed.

Lemma s32_small z : - 2 ^ 31 <= z < 2 ^ 31 -> s32 z = z.
Proof.
  intros H. unfold s32. rewrite Z.mod_small; [lia|].
  unfold u32_mod. lia.
Qed.

Lemma s32_range z : - 2 ^ 31 <= s32 z < 2 ^ 31.
Proof.
  unfold s32, u32_mod.
  pose proof (Z.mod_pos_bound (z + 2 ^ 31) (2 ^ 32) ltac:(lia)). lia.
Qed.

(** ** Local arrays

    A C array declared without an initialiser: a cell is [None] until it is
    written; reading it earlier, and any access out of range, is [UB]. *)
Abbreviation arr := (list (option Z)).
Definition arr_new (n : nat) : arr := replicate n None.

Definition arr_get (a : arr) (i : nat) : result Z :=
  match a !! i with Some (Some v) => Ok v | _ => UB end.

Definition arr_set (a : arr) (i : nat) (v : Z) : result arr :=
  if decide (i < length a)%nat then Ok (<[i := Some v]> a) else UB.

Lemma arr_set_ok a i v :
  (i < length a)%nat -> arr_set a i v = Ok (<[i := Some v]> a).
Proof. intros H. unfold arr_set. by rewrite decide_True. Qed.

Lemma arr_get_set a i j v :
  (i < length a)%nat ->
  arr_get (<[i := Some v]> a) j = if decide (i = j) then Ok v else arr_get a j.
Proof.
  intros H. unfold arr_get. case_decide as E.
  - subst. by rewrite list_lookup_insert_eq.
  - by rewrite list_lookup_insert_ne.
Qed.

Lemma length_arr_new n : length (arr_new n) = n.
Proof. apply length_replicate. Qed.

(** ** Lists *)

(** The last element of [d :: l]. *)
Fixpoint last_or {A} (d : A) (l : list A) : A :=
  match l with [] => d | x :: l' => last_or x l' end.

(** The first element of [l ++ [d]]. *)
Definition head_or {A} (d : A) (l : list A) : A :=
  match l with [] => d | x :: _ => x end.

Lemma last_or_app {A} (d : A) l1 l2 :
  last_or d (l1 ++ l2) = last_or (last_or d l1) l2.
Proof. revert d; induction l1 as [|x l1 IH]; intros d; simpl; auto. Qed.

Lemma last_or_elem {A} (d : A) l : last_or d l = d \/ last_or d l ∈ l.
Proof.
  revert d; induction l as [|x l IH]; intros d; simpl; [by left|].
  right. destruct (IH x) as [->|H]; set_solver.
Qed.

Lemma head_or_elem {A} (d : A) l : head_or d l = d \/ head_or d l ∈ l.
Proof. destruct l; simpl; set_solver. Qed.

Lemma fmap_last_or {A B} (f : A -> B) d l :
  last_or (f d) (f <$> l) = f (last_or d l).
Proof. revert d; induction l as [|x l IH]; intros d; simpl; auto. Qed.

Lemma filter_all {A} (P : A -> Prop) `{!∀ x, Decision (P x)} (l : list A) :
  Forall P l -> filter P l = l.
Proof.
  induction 1 as [|x l Hx _ IH]; [done|]. rewrite filter_cons_True; congruence.
Qed.

Lemma filter_none {A} (P : A -> Prop) `{!∀ x, Decision (P x)} (l : list A) :
  Forall (fun x => ~ P x) l -> filter P l = [].
Proof.
  induction 1 as [|x l Hx _ IH]; [done|]. by rewrite filter_cons_False.
Qed.

Lemma StronglySorted_app_inv {A} (R : A -> A -> Prop) l1 l2 :
  StronglySorted R (l1 ++ l2) ->
  StronglySorted R l1 /\ StronglySorted R l2 /\
  forall x y, x ∈ l1 -> y ∈ l2 -> R x y.
Proof.
  induction l1 as [|a l1 IH]; simpl; intros H.
  - repeat split; [constructor|done|set_solver].
  - apply StronglySorted_inv in H as [H1 H2]. destruct (IH H1) as (S1 & S2 & HR).
    apply Forall_app in H2 as [F1 F2]. repeat split; [by constructor|done|].
    intros x y [->|Hx]%elem_of_cons Hy; [|by apply HR].
    rewrite Forall_forall in F2. by apply F2.
Qed.

Lemma StronglySorted_app_intro {A} (R : A -> A -> Prop) l1 l2 :
  StronglySorted R l1 -> StronglySorted R l2 ->
  (forall x y, x ∈ l1 -> y ∈ l2 -> R x y) ->
  StronglySorted R (l1 ++ l2).
Proof.
  induction 1 as [|a l1 Ha IH HF]; simpl; intros S2 HR; [done|].
  constructor; [apply IH; set_solver|].
  apply Forall_app; split; [done|]. apply Forall_forall; set_solver.
Qed.

(** A duplicate-free list of keys of a map is no longer than the map. *)
Lemma NoDup_dom_size {A} (h : gmap Z A) (l : list Z) :
  NoDup l -> (forall p, p ∈ l -> is_Some (h !! p)) -> (length l <= size h)%nat.
Proof.
  intros Hnd Hl. rewrite <- size_dom. rewrite <- (size_list_to_set (C := gset Z) l) by done.
  apply subseteq_size. intros p Hp. apply elem_of_dom, Hl. set_solver.
Qed.

Lemma size_add (k : Z) (X : gset Z) : k ∉ X -> size ({[k]} ∪ X) = S (size X).
Proof. intros H. rewrite size_union, size_singleton by set_solver. done. Qed.

Lemma size_del (k : Z) (X : gset Z) : k ∈ X -> S (size (X ∖ {[k]})) = size X.
Proof.
  intros H. rewrite <- (size_add k) by set_solver. f_equal.
  apply set_eq. intros x. destruct (decide (x = k)); set_solver.
Qed.

(** ** Allocation

    A concrete [new]: some nonzero address at which nothing is stored. *)
Definition next_free {N : Type} (h : gmap Z N) : Z := fresh ({[0]} ∪ dom h).

Lemma next_free_ok {N : Type} (h : gmap Z N) : next_free h <> 0 /\ h !! next_free h = None.
Proof.
  pose proof (is_fresh ({[0]} ∪ dom h : gset Z)) as Hf. fold (next_free h) in Hf.
  split; [set_solver|]. apply not_elem_of_dom. set_solver.
Qed.

(** ** Hints

    [auto with smc] bounds machine integers and runs; [autorewrite with smc] computes with
    arrays and last elements. *)
Create HintDb smc.
#[export] Hint Resolve u32_range s32_range bind_intro of_opt_Some last_or_elem head_or_elem : smc.
#[export] Hint Rewrite @length_arr_new @last_or_app @fmap_last_or : smc.
#[export] Hint Rewrite u32_small s32_small using (unfold is_u32, u32_mod; lia) : smc.
