(* ===== verification/SkipCore.v ===== *)
(** * The skip-list core shared by the host and the PIM implementations

    The flat-combining skip list (FCSkipList.hh), the PIM kernel
    (clean_skiplist.c), the PIM linked-list kernel (clean_linked_list.c, its
    initial insertions) and the host's [list_add] (utils.hh) run the same three
    loops: the search that fills [preds]/[succs] level by level, the loop that
    links a new node and the loop that unlinks a found one.  They differ only
    in how a node is stored.  This file states the loops and their correctness
    against an interface of node storage, [NodeMem] and [NodeMemLaws]; the
    component files give the instances. *)

From S2P Require Import Prelude.
Open Scope Z_scope.

(** ** The storage interface *)

(** What a node store offers: the [key], [top_level] and [next[]] fields of the
    node at an address.  [has_node m p] says that [p] is the address of a live
    node of [m]; [node_cap] is the length of [next] (MAX_LEVEL). *)
Class NodeMem (M : Type) := {
  node_cap : nat;
  rd_key : M -> Z -> result Z;
  rd_top : M -> Z -> result Z;
  rd_next : M -> Z -> nat -> result Z;
  wr_next : M -> Z -> nat -> Z -> result M;
  has_node : M -> Z -> Prop;
}.

(** What a client may rely on: a write to a field of a live node succeeds,
    changes that field only and keeps every node alive. *)
Class NodeMemLaws (M : Type) {NM : NodeMem M} : Prop := {
  wr_next_ok m p l v :
    has_node m p -> (l < node_cap)%nat -> exists m', wr_next m p l v = Ok m';
  wr_next_eq m p l v m' :
    has_node m p -> (l < node_cap)%nat -> wr_next m p l v = Ok m' ->
    rd_next m' p l = Ok v;
  wr_next_ne m p l v m' q k :
    has_node m p -> (l < node_cap)%nat -> wr_next m p l v = Ok m' ->
    has_node m q -> (k < node_cap)%nat -> (q, k) <> (p, l) ->
    rd_next m' q k = rd_next m q k;
  wr_next_hdr m p l v m' q :
    has_node m p -> (l < node_cap)%nat -> wr_next m p l v = Ok m' ->
    has_node m q ->
    has_node m' q /\ rd_key m' q = rd_key m q /\ rd_top m' q = rd_top m q;
  has_node_nonnull m p : has_node m p -> p <> 0;
}.

(** ** The loops *)

Section loops.
Context {M : Type} `{NM : NodeMem M}.

(** [while (param > curr->key) { prev = curr; curr = prev->next[level]; }] *)
Fixpoint walk (fuel : nat) (m : M) (level : nat) (param prev curr : Z)
  : result (Z * Z) :=
  match fuel with
  | O => NoFuel
  | S fuel' =>
      k ← rd_key m curr;
      if k <? param then
        nxt ← rd_next m curr level;
        walk fuel' m level param curr nxt
      else Ok (prev, curr)
  end.

(** The search: [n] is the number of levels left, the next one is [n - 1].
    [brk] is the condition under which the loop is left at the first match. *)
Fixpoint find_levels (fuel : nat) (m : M) (brk : bool) (param : Z) (n : nat)
    (prev found : Z) (preds succs : arr) : result (Z * arr * arr) :=
  match n with
  | O => Ok (found, preds, succs)
  | S level =>
      curr0 ← rd_next m prev level;
      '(prev', curr) ← walk fuel m level param prev curr0;
      k ← rd_key m curr;
      let hit := (found =? 0) && (param =? k) in
      let found' := if hit then curr else found in
      if hit && brk then Ok (found', preds, succs)
      else
        preds' ← arr_set preds level prev';
        succs' ← arr_set succs level curr;
        find_levels fuel m brk param level prev' found' preds' succs'
  end.

(** [new->next[l] = succs[l]; preds[l]->next[l] = new;] for the given levels. *)
Fixpoint link_levels (m : M) (new : Z) (preds succs : arr) (levels : list nat)
  : result M :=
  match levels with
  | [] => Ok m
  | l :: levels' =>
      s ← arr_get succs l;
      m1 ← wr_next m new l s;
      p ← arr_get preds l;
      m2 ← wr_next m1 p l new;
      link_levels m2 new preds succs levels'
  end.

(** [preds[l]->next[l] = found->next[l];] for the given levels. *)
Fixpoint unlink_levels (m : M) (found : Z) (preds : arr) (levels : list nat)
  : result M :=
  match levels with
  | [] => Ok m
  | l :: levels' =>
      x ← rd_next m found l;
      p ← arr_get preds l;
      m' ← wr_next m p l x;
      unlink_levels m' found preds levels'
  end.

(** ** Chains *)

(** Following [next[l]] from [h] visits [xs] and ends in [q]. *)
Fixpoint chain (m : M) (l : nat) (h : Z) (xs : list Z) (q : Z) : Prop :=
  match xs with
  | [] => rd_next m h l = Ok q
  | x :: xs' => rd_next m h l = Ok x /\ chain m l x xs' q
  end.

Definition chain_from (m : M) (l : nat) (xs : list Z) (q : Z) : Prop :=
  match xs with [] => True | x :: xs' => chain m l x xs' q end.

Lemma chain_app m l h A B q :
  chain m l h (A ++ B) q <->
  chain m l h A (head_or q B) /\ chain_from m l B q.
Proof.
  revert h; induction A as [|a A IH]; intros h; simpl.
  - destruct B; simpl; tauto.
  - rewrite IH. tauto.
Qed.

Lemma chain_skip m l h A B q :
  chain m l h (A ++ B) q -> chain m l (last_or h A) B q.
Proof.
  revert h; induction A as [|a A IH]; intros h; simpl; [done|].
  intros [_ H]. by apply IH.
Qed.

Lemma chain_last m l h A q : chain m l h A q -> rd_next m (last_or h A) l = Ok q.
Proof. intros H. rewrite <- (app_nil_r A) in H. by apply chain_skip in H. Qed.

Lemma chain_ext m m' l h A q :
  (forall p, p ∈ h :: A -> rd_next m' p l = rd_next m p l) ->
  chain m l h A q -> chain m' l h A q.
Proof.
  revert h; induction A as [|a A IH]; intros h He; simpl.
  - rewrite He; [done|set_solver].
  - intros [H1 H2]. split; [rewrite He; set_solver|].
    apply IH; [|done]. intros p Hp. apply He. set_solver.
Qed.

Lemma chain_from_ext m m' l A q :
  (forall p, p ∈ A -> rd_next m' p l = rd_next m p l) ->
  chain_from m l A q -> chain_from m' l A q.
Proof. destruct A; simpl; [done|]. intros. by eapply chain_ext. Qed.

(** Changing the last pointer of a chain changes its end. *)
Lemma chain_redirect m m' l h A q r :
  NoDup (h :: A) ->
  rd_next m' (last_or h A) l = Ok r ->
  (forall p, p ∈ h :: A -> p <> last_or h A -> rd_next m' p l = rd_next m p l) ->
  chain m l h A q -> chain m' l h A r.
Proof.
  revert h; induction A as [|a A IH]; intros h Hnd Hr He; simpl in *; [done|].
  intros [H1 H2]. apply NoDup_cons in Hnd as [Hh Hnd]. split.
  - rewrite He; [done|set_solver|].
    intros ->. destruct (last_or_elem a A); set_solver.
  - apply IH; auto. intros p Hp. apply He. set_solver.
Qed.

(** ** The abstract contents *)

(** A node of the list: its address, key and number of levels. *)
Record snode := SNode { s_ptr : Z; s_key : Z; s_top : nat }.

Definition at_level (l : nat) (ns : list snode) : list snode :=
  filter (fun s => (l < s_top s)%nat) ns.
Definition lows (param : Z) (ns : list snode) : list snode :=
  filter (fun s => s_key s < param) ns.
Definition highs (param : Z) (ns : list snode) : list snode :=
  filter (fun s => param <= s_key s) ns.

(** What the search stores at level [l], in closed form. *)
Definition pred_at (head : Z) (l : nat) (lo : list snode) : Z :=
  last_or head (s_ptr <$> at_level l lo).
Definition succ_at (tail : Z) (l : nat) (hi : list snode) : Z :=
  head_or tail (s_ptr <$> at_level l hi).
(** The node the search finds: the first of [hi] if its key is [param]. *)
Definition match_ptr (param : Z) (hi : list snode) : Z :=
  match hi with
  | f :: _ => if decide (s_key f = param) then s_ptr f else 0
  | [] => 0
  end.

(** The representation invariant: every level is the chain of the nodes that
    reach it, in strictly increasing key order between the two sentinels. *)
Record skip_inv (m : M) (head tail tkey : Z) (maxl : nat) (ns : list snode)
  : Prop := {
  si_chain l : (l < node_cap)%nat ->
    chain m l head (s_ptr <$> at_level l ns) tail;
  si_key : Forall (fun s => rd_key m (s_ptr s) = Ok (s_key s)) ns;
  si_top : Forall (fun s => rd_top m (s_ptr s) = Ok (Z.of_nat (s_top s))) ns;
  si_tail : rd_key m tail = Ok tkey;
  si_sorted : StronglySorted (fun a b => s_key a < s_key b) ns;
  si_bound : Forall (fun s => s_key s < tkey) ns;
  si_tops : Forall (fun s => (1 <= s_top s <= maxl)%nat) ns;
  si_nodup : NoDup (head :: tail :: (s_ptr <$> ns));
  si_nodes : Forall (has_node m) (head :: tail :: (s_ptr <$> ns));
  si_max : (maxl <= node_cap)%nat;
}.

(** The set of keys stored. *)
Definition skip_keys (ns : list snode) : list Z := s_key <$> ns.

Lemma at_level_app l xs ys : at_level l (xs ++ ys) = at_level l xs ++ at_level l ys.
Proof. apply filter_app. Qed.

Lemma at_level_elem l s ns : s ∈ at_level l ns <-> (l < s_top s)%nat /\ s ∈ ns.
Proof. unfold at_level. by rewrite list_elem_of_filter. Qed.

Lemma at_level_ptr l p ns : p ∈ s_ptr <$> at_level l ns -> p ∈ s_ptr <$> ns.
Proof. rewrite !list_elem_of_fmap. setoid_rewrite at_level_elem. naive_solver. Qed.

Lemma at_level_mono l k ns p :
  (l <= k)%nat -> p ∈ s_ptr <$> at_level k ns -> p ∈ s_ptr <$> at_level l ns.
Proof.
  rewrite !list_elem_of_fmap. setoid_rewrite at_level_elem.
  intros ? (s & -> & ? & ?). exists s. split; [done|]. split; [lia|done].
Qed.

Lemma NoDup_at_level l ns : NoDup (s_ptr <$> ns) -> NoDup (s_ptr <$> at_level l ns).
Proof.
  induction ns as [|s ns IH]; simpl; [done|].
  intros [Hs Hn]%NoDup_cons. unfold at_level. rewrite filter_cons.
  case_decide; [|by apply IH]. simpl. apply NoDup_cons. split; [|by apply IH].
  intros Hin. by apply at_level_ptr in Hin.
Qed.

(** A sorted list is its low part followed by its high part. *)
Lemma lows_highs param ns :
  StronglySorted (fun a b => s_key a < s_key b) ns ->
  ns = lows param ns ++ highs param ns.
Proof.
  induction 1 as [|s ns _ IH HF]; [done|]. unfold lows, highs.
  rewrite !filter_cons. destruct (decide (s_key s < param)).
  - rewrite (decide_False (P := param <= s_key s)) by lia. simpl. by f_equal.
  - rewrite (decide_True (P := param <= s_key s)) by lia.
    rewrite filter_none, filter_all; [done|..].
    + eapply Forall_impl; [exact HF|]. simpl. intros; lia.
    + eapply Forall_impl; [exact HF|]. simpl. intros; lia.
Qed.

Lemma lows_lt param ns : Forall (fun s => s_key s < param) (lows param ns).
Proof. apply Forall_forall. intros s [Hs _]%list_elem_of_filter. exact Hs. Qed.

Lemma highs_ge param ns : Forall (fun s => param <= s_key s) (highs param ns).
Proof. apply Forall_forall. intros s [Hs _]%list_elem_of_filter. exact Hs. Qed.

Lemma Forall_at_level (P : snode -> Prop) l ns : Forall P ns -> Forall P (at_level l ns).
Proof.
  rewrite !Forall_forall. intros H s [_ Hs]%at_level_elem. by apply H.
Qed.

(** ** The search *)

Lemma walk_spec m l param p xs ys tail tkey fuel :
  chain m l p (s_ptr <$> xs ++ ys) tail ->
  Forall (fun s => rd_key m (s_ptr s) = Ok (s_key s)) (xs ++ ys) ->
  rd_key m tail = Ok tkey -> param <= tkey ->
  Forall (fun s => s_key s < param) xs ->
  Forall (fun s => param <= s_key s) ys ->
  (length xs < fuel)%nat ->
  exists curr0, rd_next m p l = Ok curr0 /\
    walk fuel m l param p curr0 =
      Ok (last_or p (s_ptr <$> xs), head_or tail (s_ptr <$> ys)).
Proof.
  intros Hc Hk Ht Hle Hx Hy.
  revert p fuel Hc; induction xs as [|x xs IH]; intros p fuel Hc Hf; simpl in *.
  - destruct fuel as [|fuel]; [lia|]. destruct ys as [|y ys]; simpl in *.
    + exists tail. split; [done|]. rewrite Ht. simpl.
      destruct (Z.ltb_spec tkey param); [lia|done].
    + destruct Hc as [Hc _]. exists (s_ptr y). split; [done|].
      apply Forall_cons in Hk as [-> _]. apply Forall_cons in Hy as [Hy _]. simpl.
      destruct (Z.ltb_spec (s_key y) param); [lia|done].
  - destruct fuel as [|fuel]; [lia|]. destruct Hc as [Hc1 Hc2].
    apply Forall_cons in Hk as [Hkx Hk]. apply Forall_cons in Hx as [Hlt Hx].
    destruct (IH Hk Hx (s_ptr x) fuel Hc2 ltac:(lia)) as (c0 & Hn & Hw).
    exists (s_ptr x). split; [done|]. simpl. rewrite Hkx. simpl.
    destruct (Z.ltb_spec (s_key x) param); [|lia]. by rewrite Hn.
Qed.

Section search.
Context {NML : NodeMemLaws M}.
Context (m : M) (head tail tkey : Z) (maxl : nat) (ns : list snode).
Context (Hinv : skip_inv m head tail tkey maxl ns).
Context (param : Z).
Let lo := lows param ns.
Let hi := highs param ns.

Lemma inv_split : ns = lo ++ hi.
Proof. apply lows_highs, (si_sorted _ _ _ _ _ _ Hinv). Qed.

Lemma inv_chain l : (l < node_cap)%nat ->
  chain m l head ((s_ptr <$> at_level l lo) ++ (s_ptr <$> at_level l hi)) tail.
Proof.
  intros Hl. rewrite <- fmap_app, <- at_level_app, <- inv_split.
  by apply (si_chain _ _ _ _ _ _ Hinv).
Qed.

Lemma hi_first s hi' : hi = s :: hi' -> Forall (fun s' => s_key s < s_key s') hi'.
Proof.
  intros E. pose proof (si_sorted _ _ _ _ _ _ Hinv) as HS.
  rewrite inv_split, E in HS. apply StronglySorted_app_inv in HS as (_ & HS & _).
  by apply StronglySorted_inv in HS as [_ ?].
Qed.

Lemma hi_elem s : s ∈ hi -> s ∈ ns.
Proof. rewrite inv_split. set_solver. Qed.

Lemma lo_elem s : s ∈ lo -> s ∈ ns.
Proof. rewrite inv_split. set_solver. Qed.

Lemma succ_node l : has_node m (succ_at tail l hi).
Proof.
  pose proof (si_nodes _ _ _ _ _ _ Hinv) as HN. rewrite Forall_forall in HN.
  apply HN. unfold succ_at.
  destruct (head_or_elem tail (s_ptr <$> at_level l hi)) as [->|H]; [set_solver|].
  apply list_elem_of_fmap in H as (s & -> & [_ Hs]%at_level_elem).
  do 2 apply elem_of_cons; right. apply elem_of_cons; right.
  apply list_elem_of_fmap_2. by apply hi_elem.
Qed.

Lemma pred_elem l :
  pred_at head l lo = head \/ pred_at head l lo ∈ s_ptr <$> at_level l lo.
Proof. apply last_or_elem. Qed.

Lemma pred_node l : has_node m (pred_at head l lo).
Proof.
  pose proof (si_nodes _ _ _ _ _ _ Hinv) as HN. rewrite Forall_forall in HN.
  apply HN. destruct (pred_elem l) as [->|H]; [set_solver|].
  apply list_elem_of_fmap in H as (s & -> & [_ Hs]%at_level_elem).
  do 2 (apply elem_of_cons; right). apply list_elem_of_fmap_2. by apply lo_elem.
Qed.

Lemma match_ptr_zero : match_ptr param hi = 0 <-> param ∉ skip_keys ns.
Proof.
  unfold skip_keys. rewrite inv_split, fmap_app, elem_of_app.
  assert (Hlo : param ∉ s_key <$> lo).
  { intros (s & -> & [? _]%list_elem_of_filter)%list_elem_of_fmap. lia. }
  unfold match_ptr. destruct hi as [|f hi'] eqn:E; simpl; [set_solver|].
  pose proof (hi_first _ _ E) as HF. rewrite Forall_forall in HF.
  case_decide as Hk.
  - split; [|set_solver]. intros Hz. exfalso.
    apply (has_node_nonnull m (s_ptr f)); [|done].
    pose proof (si_nodes _ _ _ _ _ _ Hinv) as HN. rewrite Forall_forall in HN.
    apply HN. do 2 (apply elem_of_cons; right). apply list_elem_of_fmap_2, hi_elem.
    rewrite E. set_solver.
  - split; [|done]. intros _ [?|[?|(s & Hs & Hin)%list_elem_of_fmap]%elem_of_cons];
      [done|congruence|]. specialize (HF s Hin).
    pose proof (highs_ge param ns) as HG. fold hi in HG. rewrite E in HG.
    apply Forall_cons in HG as [? _]. lia.
Qed.

Context (Hparam : param < tkey).

Lemma level_walk l prev fuel :
  (l < node_cap)%nat -> (length ns < fuel)%nat ->
  prev = head \/ prev ∈ s_ptr <$> at_level l lo ->
  exists curr0, rd_next m prev l = Ok curr0 /\
    walk fuel m l param prev curr0 = Ok (pred_at head l lo, succ_at tail l hi).
Proof.
  intros Hl Hf Hprev.
  assert (exists A B, at_level l lo = A ++ B /\ prev = last_or head (s_ptr <$> A))
    as (A & B & HAB & ->).
  { destruct Hprev as [->|(s & -> & Hs)%list_elem_of_fmap].
    - by exists [], (at_level l lo).
    - apply list_elem_of_split in Hs as (A & B & ->).
      exists (A ++ [s]), B. rewrite <- app_assoc. split; [done|].
      rewrite fmap_app, last_or_app. done. }
  unfold pred_at. rewrite HAB, fmap_app, last_or_app. unfold succ_at.
  pose proof (inv_chain l Hl) as Hc.
  rewrite HAB, fmap_app, <- app_assoc in Hc. apply chain_skip in Hc.
  assert (HB : forall s, s ∈ B -> s ∈ lo).
  { intros s Hs. apply (at_level_elem l). rewrite HAB. set_solver. }
  eapply walk_spec with (tkey := tkey).
  - by rewrite fmap_app.
  - pose proof (si_key _ _ _ _ _ _ Hinv) as Hk. rewrite Forall_forall in Hk |- *.
    intros s Hs. apply Hk. rewrite inv_split. apply elem_of_app in Hs as [Hs|Hs].
    + apply elem_of_app; left; auto.
    + apply at_level_elem in Hs as [_ Hs]. apply elem_of_app; by right.
  - apply (si_tail _ _ _ _ _ _ Hinv).
  - lia.
  - pose proof (lows_lt param ns) as HF. rewrite Forall_forall in HF |- *. auto.
  - apply Forall_at_level, highs_ge.
  - apply (f_equal length) in HAB. rewrite length_app in HAB.
    pose proof (length_filter (fun s => (l < s_top s)%nat) lo).
    pose proof (length_filter (fun s => s_key s < param) ns).
    unfold at_level, lo, lows in *. lia.
Qed.

(** The successor at level [l] carries the key searched for exactly when the
    matching node reaches that level. *)
Lemma succ_key l :
  exists k, rd_key m (succ_at tail l hi) = Ok k /\
    (k = param -> succ_at tail l hi = match_ptr param hi) /\
    (l = 0%nat -> match_ptr param hi <> 0 -> k = param).
Proof.
  pose proof (si_key _ _ _ _ _ _ Hinv) as Hk. rewrite Forall_forall in Hk.
  pose proof (si_tops _ _ _ _ _ _ Hinv) as Htop. rewrite Forall_forall in Htop.
  destruct hi as [|f hi'] eqn:Ehi.
  { exists tkey. unfold succ_at, match_ptr; simpl. repeat split; try done.
    - apply (si_tail _ _ _ _ _ _ Hinv).
    - intros ->. lia. }
  pose proof (hi_first f hi' Ehi) as Hfirst. rewrite Forall_forall in Hfirst.
  assert (Hf : f ∈ ns) by (apply hi_elem; rewrite Ehi; set_solver).
  assert (Hge : param <= s_key f).
  { pose proof (highs_ge param ns) as HF. fold hi in HF. rewrite Ehi in HF.
    by apply Forall_cons in HF as [? _]. }
  unfold succ_at, match_ptr, at_level. rewrite filter_cons.
  destruct (decide (l < s_top f)%nat) as [Hlt|Hlt]; simpl.
  - exists (s_key f). rewrite Hk by done. repeat split; [|intros _]; case_decide; done.
  - fold (at_level l hi'). destruct (at_level l hi') as [|g hi''] eqn:Eg; simpl.
    + exists tkey. split; [apply (si_tail _ _ _ _ _ _ Hinv)|]. split; [lia|].
      intros ->. specialize (Htop f Hf). lia.
    + assert (g ∈ hi') by (apply (at_level_elem l); rewrite Eg; set_solver).
      exists (s_key g). split.
      { apply Hk, hi_elem. rewrite Ehi. set_solver. }
      specialize (Hfirst g ltac:(done)). split; [lia|].
      intros ->. specialize (Htop f Hf). lia.
Qed.

Lemma find_levels_spec fuel brk n prev found preds succs :
  (length ns < fuel)%nat -> (n <= node_cap)%nat ->
  (n <= length preds)%nat -> (n <= length succs)%nat ->
  prev = head \/ prev ∈ s_ptr <$> at_level n lo ->
  found = 0 \/ found = match_ptr param hi ->
  exists found' preds' succs',
    find_levels fuel m brk param n prev found preds succs
      = Ok (found', preds', succs') /\
    found' = match n with O => found | S _ => match_ptr param hi end /\
    (brk = false \/ found' = 0 ->
     (forall l, (l < n)%nat -> arr_get preds' l = Ok (pred_at head l lo)) /\
     (forall l, (l < n)%nat -> arr_get succs' l = Ok (succ_at tail l hi)) /\
     (forall l, (n <= l)%nat -> arr_get preds' l = arr_get preds l
                             /\ arr_get succs' l = arr_get succs l)).
Proof.
  intros Hf. revert prev found preds succs.
  induction n as [|l IH]; intros prev found preds succs Hn Hp Hs Hprev Hfound.
  { exists found, preds, succs. repeat split; intros; try done; lia. }
  destruct (level_walk l prev fuel ltac:(lia) Hf) as (c0 & Hc0 & Hw).
  { destruct Hprev as [->|Hprev]; [by left|right].
    eapply at_level_mono; [|exact Hprev]. lia. }
  destruct (succ_key l) as (k & Hk & Hk1 & Hk2).
  simpl find_levels. rewrite Hc0; simpl. rewrite Hw; simpl. rewrite Hk; simpl.
  set (hit := (found =? 0) && (param =? k)).
  assert (Hf' : (if hit then succ_at tail l hi else found) = 0 \/
                (if hit then succ_at tail l hi else found) = match_ptr param hi).
  { unfold hit. destruct ((found =? 0) && (param =? k)) eqn:E; [|done]. right.
    apply andb_true_iff in E as [_ ->%Z.eqb_eq]. auto. }
  destruct (hit && brk) eqn:Ebrk.
  - apply andb_true_iff in Ebrk as [Hh ->]. rewrite Hh in Hf' |- *.
    pose proof (has_node_nonnull m _ (succ_node l)).
    eexists _, _, _. split; [done|]. split; [naive_solver|]. naive_solver.
  - rewrite !arr_set_ok by lia. simpl.
    destruct (IH (pred_at head l lo) (if hit then succ_at tail l hi else found)
               (<[l:=Some (pred_at head l lo)]> preds)
               (<[l:=Some (succ_at tail l hi)]> succs))
      as (f' & p' & s' & Hrun & Hres & Harr); rewrite ?length_insert; try exact Hf'; try lia.
    + destruct (pred_elem l) as [->|H]; [by left|right; done].
    + exists f', p', s'. split; [done|]. split.
      { rewrite Hres. destruct l; [|done]. unfold hit in *.
        destruct (Z.eqb_spec found 0) as [->|]; simpl in *; [|naive_solver].
        destruct (Z.eqb_spec param k); simpl in *; [by apply Hk1|].
        destruct (decide (match_ptr param hi = 0)); [done|]. exfalso. naive_solver. }
      intros Hb. destruct (Harr Hb) as (HP & HS & HO). split_and!.
      * intros j Hj. destruct (decide (j = l)) as [->|]; [|apply HP; lia].
        rewrite (proj1 (HO l ltac:(lia))), arr_get_set by lia. by rewrite decide_True.
      * intros j Hj. destruct (decide (j = l)) as [->|]; [|apply HS; lia].
        rewrite (proj2 (HO l ltac:(lia))), arr_get_set by lia. by rewrite decide_True.
      * intros j Hj. destruct (HO j ltac:(lia)) as [-> ->].
        rewrite !arr_get_set by lia. by rewrite !decide_False by lia.
Qed.

End search.

(** ** Linking and unlinking *)

Section update.
Context {NML : NodeMemLaws M}.

(** [m'] keeps every node of [m], its key and its number of levels. *)
Definition same_hdr (m m' : M) : Prop :=
  forall q, has_node m q ->
    has_node m' q /\ rd_key m' q = rd_key m q /\ rd_top m' q = rd_top m q.

#[local] Instance same_hdr_preorder : PreOrder same_hdr.
Proof.
  split; [by intros m q H|]. intros m1 m2 m3 H12 H23 q Hq.
  destruct (H12 q Hq) as (Hq2 & <- & <-). by apply H23.
Qed.

Lemma wr_next_same_hdr m p l v m' :
  has_node m p -> (l < node_cap)%nat -> wr_next m p l v = Ok m' -> same_hdr m m'.
Proof. intros Hp Hl Hw q Hq. exact (wr_next_hdr _ _ _ _ _ _ Hp Hl Hw Hq). Qed.

Lemma wr_next_spec m p l v :
  has_node m p -> (l < node_cap)%nat ->
  exists m', wr_next m p l v = Ok m' /\ same_hdr m m' /\
    forall q k, has_node m q -> (k < node_cap)%nat ->
      rd_next m' q k = if decide (q = p /\ k = l) then Ok v else rd_next m q k.
Proof.
  intros Hp Hl. destruct (wr_next_ok m p l v Hp Hl) as [m' Hw]. exists m'.
  split; [done|]. split; [by eapply wr_next_same_hdr|]. intros q k Hq Hk.
  case_decide as E; [destruct E as [-> ->]; by eapply wr_next_eq|].
  apply (wr_next_ne m p l v m' q k Hp Hl Hw Hq Hk). intros [= -> ->]. by apply E.
Qed.

Lemma link_levels_spec m new preds succs levels (P S : nat -> Z) :
  NoDup levels -> has_node m new ->
  (forall l, l ∈ levels -> (l < node_cap)%nat /\ arr_get preds l = Ok (P l) /\
     arr_get succs l = Ok (S l) /\ has_node m (P l) /\ P l <> new) ->
  exists m', link_levels m new preds succs levels = Ok m' /\ same_hdr m m' /\
    forall q k, has_node m q -> (k < node_cap)%nat ->
      rd_next m' q k =
        if decide (k ∈ levels) then
          if decide (q = new) then Ok (S k)
          else if decide (q = P k) then Ok new else rd_next m q k
        else rd_next m q k.
Proof.
  revert m; induction levels as [|l levels IH]; intros m Hnd Hnew Hall; cbn [link_levels].
  { exists m. split; [done|]. split; [reflexivity|]. intros. by rewrite decide_False by set_solver. }
  apply NoDup_cons in Hnd as [Hl Hnd].
  destruct (Hall l ltac:(set_solver)) as (Hcap & HP & HS & HnP & Hne).
  rewrite HS; simpl.
  destruct (wr_next_spec m new l (S l) Hnew Hcap) as (m1 & Hw1 & Hh1 & Hr1).
  rewrite Hw1; simpl. rewrite HP; simpl.
  destruct (wr_next_spec m1 (P l) l new) as (m2 & Hw2 & Hh2 & Hr2);
    [by apply Hh1|done|]. rewrite Hw2; simpl.
  destruct (IH m2) as (m' & Hrun & Hh & Hr); [done|by apply Hh2, Hh1| |].
  { intros k Hk. destruct (Hall k ltac:(set_solver)) as (?&?&?&?&?).
    split_and!; auto. by apply Hh2, Hh1. }
  exists m'. split; [done|]. split; [by etrans; [etrans|]|].
  intros q k Hq Hk. rewrite Hr by (try apply Hh2, Hh1; done).
  rewrite Hr2 by (try apply Hh1; done). rewrite Hr1 by done.
  destruct (decide (k = l)) as [->|Hkl].
  - rewrite (decide_False (P := l ∈ levels)), (decide_True (P := l ∈ l :: levels))
      by (auto; apply elem_of_cons; by left).
    destruct (decide (q = P l)) as [->|]; [by rewrite decide_True, decide_False|].
    rewrite decide_False by tauto. by destruct (decide (q = new)) as [->|];
      [rewrite decide_True|rewrite decide_False by tauto].
  - rewrite (decide_False (P := q = P l /\ k = l)) by tauto.
    rewrite (decide_False (P := q = new /\ k = l)) by tauto.
    by rewrite (decide_ext (k ∈ l :: levels) (k ∈ levels)) by (rewrite elem_of_cons; tauto).
Qed.

Lemma unlink_levels_spec m found preds levels (P : nat -> Z) :
  NoDup levels -> has_node m found ->
  (forall l, l ∈ levels -> (l < node_cap)%nat /\ arr_get preds l = Ok (P l) /\
     has_node m (P l) /\ P l <> found /\ exists x, rd_next m found l = Ok x) ->
  exists m', unlink_levels m found preds levels = Ok m' /\ same_hdr m m' /\
    forall q k, has_node m q -> (k < node_cap)%nat ->
      rd_next m' q k =
        if decide (k ∈ levels /\ q = P k) then rd_next m found k
        else rd_next m q k.
Proof.
  revert m; induction levels as [|l levels IH]; intros m Hnd Hfn Hall; cbn [unlink_levels].
  { exists m. split; [done|]. split; [reflexivity|]. intros. by rewrite decide_False by set_solver. }
  apply NoDup_cons in Hnd as [Hl Hnd].
  destruct (Hall l ltac:(set_solver)) as (Hcap & HP & HnP & Hne & x & Hx).
  rewrite Hx; simpl. rewrite HP; simpl.
  destruct (wr_next_spec m (P l) l x HnP Hcap) as (m1 & Hw1 & Hh1 & Hr1).
  rewrite Hw1; simpl.
  assert (Hfr : forall k, (k < node_cap)%nat -> rd_next m1 found k = rd_next m found k).
  { intros k Hk. rewrite Hr1 by done. by rewrite decide_False by naive_solver. }
  destruct (IH m1) as (m' & Hrun & Hh & Hr); [done|by apply Hh1| |].
  { intros k Hk. destruct (Hall k ltac:(set_solver)) as (?&?&?&?&?).
    split_and!; auto; [by apply Hh1|]. by rewrite Hfr. }
  exists m'. split; [done|]. split; [by etrans|].
  intros q k Hq Hk. rewrite Hr by (try apply Hh1; done).
  rewrite Hfr, Hr1 by done.
  destruct (decide (k = l)) as [->|Hkl].
  - rewrite (decide_False (P := l ∈ levels /\ _)) by tauto.
    destruct (decide (q = P l)) as [->|]; [|by rewrite !decide_False by tauto].
    rewrite decide_True by auto. by rewrite decide_True by (rewrite elem_of_cons; auto).
  - rewrite (decide_False (P := q = P l /\ k = l)) by tauto.
    by rewrite (decide_ext (k ∈ l :: levels /\ q = P k) (k ∈ levels /\ q = P k))
      by (rewrite elem_of_cons; tauto).
Qed.

(** A property of the memory that writes to live nodes keep survives the loops. *)
Section preserve.
Context (Q : M -> Prop).
Context (HQ : forall m p l v m', has_node m p -> (l < node_cap)%nat ->
          wr_next m p l v = Ok m' -> Q m -> Q m').

Lemma link_levels_pres new preds succs levels : forall m m',
  link_levels m new preds succs levels = Ok m' -> has_node m new ->
  (forall l p, l ∈ levels -> arr_get preds l = Ok p -> (l < node_cap)%nat /\ has_node m p) ->
  Q m -> Q m'.
Proof.
  induction levels as [|l levels IH]; intros m m' Hrun Hnew Hp HQm; cbn [link_levels] in Hrun;
    [by injection Hrun as <-|].
  run_inv. destruct (Hp l v1 ltac:(set_solver) ltac:(done)) as [Hl Hv].
  pose proof (wr_next_same_hdr _ _ _ _ _ Hnew Hl E0) as H1. destruct (H1 v1 Hv) as [Hv' _].
  pose proof (wr_next_same_hdr _ _ _ _ _ Hv' Hl E2) as H2.
  apply (IH v2 m'); [done|by apply H2, H1| |].
  2: { apply (HQ v0 v1 l new); try done. by apply (HQ m new l v). }
  intros k p Hk Hg. destruct (Hp k p ltac:(set_solver) Hg). split; [done|]. by apply H2, H1.
Qed.

Lemma unlink_levels_pres found preds levels : forall m m',
  unlink_levels m found preds levels = Ok m' ->
  (forall l p, l ∈ levels -> arr_get preds l = Ok p -> (l < node_cap)%nat /\ has_node m p) ->
  Q m -> Q m'.
Proof.
  induction levels as [|l levels IH]; intros m m' Hrun Hp HQm; cbn [unlink_levels] in Hrun;
    [by injection Hrun as <-|].
  run_inv. destruct (Hp l v0 ltac:(set_solver) ltac:(done)) as [Hl Hv].
  pose proof (wr_next_same_hdr _ _ _ _ _ Hv Hl E1) as H1.
  apply (IH v1 m'); [done| |].
  2: { by apply (HQ m v0 l v). }
  intros k p Hk Hg. destruct (Hp k p ltac:(set_solver) Hg). split; [done|]. by apply H1.
Qed.
End preserve.

(** A memory that agrees on the nodes of the list keeps the invariant. *)
Lemma skip_inv_frame m m' head tail tkey maxl ns :
  skip_inv m head tail tkey maxl ns ->
  (forall q, q ∈ head :: tail :: (s_ptr <$> ns) ->
     has_node m' q /\ rd_key m' q = rd_key m q /\ rd_top m' q = rd_top m q /\
     forall k, (k < node_cap)%nat -> rd_next m' q k = rd_next m q k) ->
  skip_inv m' head tail tkey maxl ns.
Proof.
  intros [Hc Hk Ht Htl Hs Hb Htp Hnd Hn Hm] Hfr.
  assert (Hin : forall s, s ∈ ns -> s_ptr s ∈ head :: tail :: (s_ptr <$> ns)).
  { intros s Hin. do 2 (apply elem_of_cons; right). by apply list_elem_of_fmap_2. }
  rewrite Forall_forall in Hk. rewrite Forall_forall in Ht. split; try done.
  - intros l Hl. eapply chain_ext; [|by apply Hc]. intros p Hp.
    apply Hfr; [|done]. apply elem_of_cons in Hp as [->|Hp]; [set_solver|].
    apply at_level_ptr in Hp. set_solver.
  - apply Forall_forall. intros s Hs'. destruct (Hfr _ (Hin s Hs')) as (_ & -> & _). auto.
  - apply Forall_forall. intros s Hs'. destruct (Hfr _ (Hin s Hs')) as (_ & _ & -> & _). auto.
  - destruct (Hfr tail ltac:(set_solver)) as (_ & -> & _). done.
  - apply Forall_forall. intros q Hq. by apply Hfr.
Qed.

(** Rebuilding the invariant for a changed list [ns'] over a memory that kept
    the headers: the chains and the order are what remains to be shown. *)
Lemma skip_inv_intro m m' head tail tkey maxl ns ns' :
  skip_inv m head tail tkey maxl ns -> same_hdr m m' ->
  (forall s, s ∈ ns' -> s ∈ ns \/
     (has_node m (s_ptr s) /\ rd_key m (s_ptr s) = Ok (s_key s) /\
      rd_top m (s_ptr s) = Ok (Z.of_nat (s_top s)) /\
      s_key s < tkey /\ (1 <= s_top s <= maxl)%nat)) ->
  StronglySorted (fun a b => s_key a < s_key b) ns' ->
  NoDup (head :: tail :: (s_ptr <$> ns')) ->
  (forall l, (l < node_cap)%nat -> chain m' l head (s_ptr <$> at_level l ns') tail) ->
  skip_inv m' head tail tkey maxl ns'.
Proof.
  intros [_ Hk Ht Htl _ Hb Htp _ Hn Hm] Hh Hsrc Hs Hnd Hc.
  rewrite !Forall_cons in Hn. destruct Hn as (Hh1 & Hh2 & Hn). rewrite Forall_fmap in Hn.
  assert (Hall : forall s, s ∈ ns' -> has_node m (s_ptr s) /\
            rd_key m (s_ptr s) = Ok (s_key s) /\
            rd_top m (s_ptr s) = Ok (Z.of_nat (s_top s)) /\
            s_key s < tkey /\ (1 <= s_top s <= maxl)%nat).
  { intros s [Hin|H]%Hsrc; [|done].
    rewrite Forall_forall in Hk. rewrite Forall_forall in Ht. rewrite Forall_forall in Hb.
    rewrite Forall_forall in Htp. rewrite Forall_forall in Hn. split_and!; auto;
    [by apply (Hn s)|by apply Htp..]. }
  split; try done.
  - apply Forall_forall. intros s Hin. destruct (Hall s Hin) as (H1 & <- & _). by apply Hh.
  - apply Forall_forall. intros s Hin. destruct (Hall s Hin) as (H1 & _ & <- & _). by apply Hh.
  - rewrite <- Htl. by apply Hh.
  - apply Forall_forall. intros s Hin. by apply Hall.
  - apply Forall_forall. intros s Hin. by apply Hall.
  - rewrite !Forall_cons, Forall_fmap, Forall_forall. split_and!; [by apply Hh..|].
    intros s Hin. apply Hh. by apply Hall.
Qed.

Section change.
Context (m : M) (head tail tkey : Z) (maxl : nat) (ns : list snode).
Context (Hinv : skip_inv m head tail tkey maxl ns).
Context (param : Z).
Let lo := lows param ns.
Let hi := highs param ns.

Lemma inv_nodup_level l :
  NoDup (head :: (s_ptr <$> at_level l lo) ++ tail :: (s_ptr <$> at_level l hi)).
Proof.
  pose proof (si_nodup _ _ _ _ _ _ Hinv) as Hnd.
  rewrite (inv_split _ _ _ _ _ _ Hinv param) in Hnd. fold lo hi in Hnd.
  assert (Hp : NoDup (tail :: head :: (s_ptr <$> at_level l (lo ++ hi)))).
  { apply NoDup_cons in Hnd as [H1 [H2 H3]%NoDup_cons].
    apply NoDup_cons. split.
    - intros [->|H]%elem_of_cons; [set_solver|]. by apply at_level_ptr in H.
    - apply NoDup_cons. split; [|by apply NoDup_at_level].
      intros H%at_level_ptr. set_solver. }
  rewrite at_level_app, fmap_app in Hp.
  eapply NoDup_Permutation_proper; [|exact Hp]. rewrite Permutation_swap.
  constructor. by rewrite <- Permutation_middle.
Qed.

Lemma insert_sorted new top :
  param ∉ skip_keys ns ->
  StronglySorted (fun a b => s_key a < s_key b) (lo ++ SNode new param top :: hi).
Proof.
  intros Hfresh. pose proof (si_sorted _ _ _ _ _ _ Hinv) as HS.
  pose proof (inv_split _ _ _ _ _ _ Hinv param) as Hsplit. fold lo hi in Hsplit.
  pose proof (lows_lt param ns) as Hlo. fold lo in Hlo. rewrite Forall_forall in Hlo.
  assert (Hhi : forall s, s ∈ hi -> param < s_key s).
  { intros s Hs. pose proof (highs_ge param ns) as HG. rewrite Forall_forall in HG.
    specialize (HG s Hs). simpl in HG.
    destruct (decide (s_key s = param)) as [<-|]; [|lia].
    exfalso. apply Hfresh. apply list_elem_of_fmap_2. rewrite Hsplit. set_solver. }
  rewrite Hsplit in HS. apply StronglySorted_app_inv in HS as (H1 & H2 & H3).
  apply StronglySorted_app_intro; [done|constructor; [done|by apply Forall_forall]|].
  intros x y Hx [->|Hy]%elem_of_cons; simpl; auto.
Qed.

(** One level after the link loop. *)
Lemma insert_chain m' l new top :
  (l < node_cap)%nat -> new ∉ head :: tail :: (s_ptr <$> ns) ->
  (forall k, pred_at head k lo <> new) ->
  (forall q, q ∈ new :: head :: (s_ptr <$> ns) ->
     rd_next m' q l =
       if decide (l < top)%nat then
         if decide (q = new) then Ok (succ_at tail l hi)
         else if decide (q = pred_at head l lo) then Ok new else rd_next m q l
       else rd_next m q l) ->
  chain m' l head (s_ptr <$> at_level l (lo ++ SNode new param top :: hi)) tail.
Proof.
  intros Hl Hnin HPne Hr.
  pose proof (inv_split _ _ _ _ _ _ Hinv param) as Hsplit. fold lo hi in Hsplit.
  pose proof (inv_chain _ _ _ _ _ _ Hinv param l Hl) as Hc. fold lo hi in Hc.
  pose proof (inv_nodup_level l) as Hnd.
  assert (HA : forall q, q ∈ head :: (s_ptr <$> at_level l lo) -> q ∈ head :: (s_ptr <$> ns)).
  { intros q [->|Hq%at_level_ptr]%elem_of_cons; [set_solver|].
    rewrite Hsplit, fmap_app. set_solver. }
  assert (HB : forall q, q ∈ s_ptr <$> at_level l hi -> q ∈ head :: (s_ptr <$> ns)).
  { intros q Hq%at_level_ptr. rewrite Hsplit, fmap_app. set_solver. }
  assert (Hne : forall q, q ∈ head :: (s_ptr <$> ns) -> q <> new) by set_solver.
  apply chain_app in Hc as [Hc1 Hc2]. fold (succ_at tail l hi) in Hc1.
  rewrite at_level_app. unfold at_level at 2. rewrite filter_cons.
  fold (at_level l hi). simpl (s_top _).
  destruct (decide (l < top)%nat) as [Hlt|Hlt]; rewrite fmap_app; apply chain_app.
  - split; simpl.
    + eapply chain_redirect; [..|exact Hc1].
      * rewrite app_comm_cons in Hnd. by apply NoDup_app in Hnd as [? _].
      * fold (pred_at head l lo).
        assert (pred_at head l lo ∈ head :: (s_ptr <$> ns)).
        { apply HA. destruct (pred_elem head ns param l); set_solver. }
        rewrite Hr by set_solver. rewrite decide_False by auto. by rewrite decide_True.
      * intros q Hq Hqn. rewrite Hr by (apply HA in Hq; set_solver).
        rewrite !decide_False; auto.
    + apply (chain_app m' l new []). split; simpl.
      * rewrite Hr by set_solver. by rewrite decide_True.
      * eapply chain_from_ext; [|exact Hc2]. intros q Hq.
        rewrite Hr by (apply HB in Hq; set_solver). rewrite !decide_False; auto.
        intros ->. rewrite app_comm_cons in Hnd. apply NoDup_app in Hnd as (_ & Hd & _).
        apply (Hd (pred_at head l lo)); [|set_solver].
        destruct (pred_elem head ns param l); set_solver.
  - split.
    + eapply chain_ext; [|exact Hc1]. intros q Hq. apply Hr. apply HA in Hq. set_solver.
    + eapply chain_from_ext; [|exact Hc2]. intros q Hq. apply Hr. apply HB in Hq. set_solver.
Qed.

Lemma nodes_in q : q ∈ head :: tail :: (s_ptr <$> ns) -> has_node m q.
Proof. revert q. apply Forall_forall, (si_nodes _ _ _ _ _ _ Hinv). Qed.

(** [new] joins the list between its low and its high part. *)
Lemma skip_insert new top preds succs :
  param < tkey -> param ∉ skip_keys ns ->
  has_node m new -> new ∉ head :: tail :: (s_ptr <$> ns) ->
  rd_key m new = Ok param -> rd_top m new = Ok (Z.of_nat top) ->
  (1 <= top <= maxl)%nat ->
  (forall l, (l < top)%nat -> arr_get preds l = Ok (pred_at head l lo)) ->
  (forall l, (l < top)%nat -> arr_get succs l = Ok (succ_at tail l hi)) ->
  exists m', link_levels m new preds succs (seq 0 top) = Ok m' /\
    same_hdr m m' /\
    skip_inv m' head tail tkey maxl (lo ++ SNode new param top :: hi).
Proof.
  intros Hparam Hfresh Hnew Hnin Hkey Htop Hrange Hp Hs.
  pose proof (si_max _ _ _ _ _ _ Hinv) as Hmax.
  pose proof (inv_split _ _ _ _ _ _ Hinv param) as Hsplit. fold lo hi in Hsplit.
  assert (HPne : forall l, pred_at head l lo <> new).
  { intros l E. apply Hnin. rewrite <- E.
    destruct (pred_elem head ns param l) as [H|H]; fold lo in H.
    - rewrite H. apply elem_of_cons. by left.
    - apply at_level_ptr in H. rewrite Hsplit, fmap_app. set_solver. }
  destruct (link_levels_spec m new preds succs (seq 0 top)
              (fun l => pred_at head l lo) (fun l => succ_at tail l hi))
    as (m' & Hrun & Hh & Hr); [apply NoDup_seq|done| |].
  { intros l Hl%elem_of_seq. split_and!; [lia|apply Hp; lia|apply Hs; lia| |done].
    eapply pred_node; eauto. }
  exists m'. split; [done|]. split; [done|].
  apply (skip_inv_intro m m' head tail tkey maxl ns); [done..| | | |].
  - intros s [Hin|[->|Hin]%elem_of_cons]%elem_of_app; simpl.
    + left. rewrite Hsplit. set_solver.
    + right. split_and!; try done; lia.
    + left. rewrite Hsplit. set_solver.
  - by apply insert_sorted.
  - pose proof (si_nodup _ _ _ _ _ _ Hinv) as Hnd. rewrite Hsplit, fmap_app in Hnd.
    rewrite Hsplit, fmap_app in Hnin. rewrite fmap_app, fmap_cons.
    eapply NoDup_Permutation_proper;
      [symmetry; exact (Permutation_middle (head :: tail :: _) _ new)|].
    by apply NoDup_cons.
  - intros l Hl. apply insert_chain; [done|done|done|].
    intros q Hq. assert (has_node m q).
    { apply elem_of_cons in Hq as [->|Hq]; [done|]. apply nodes_in. set_solver. }
    rewrite Hr by done.
    by rewrite (decide_ext (l ∈ seq 0 top) (l < top)%nat) by (rewrite elem_of_seq; lia).
Qed.

(** One level after the unlink loop. *)
Lemma remove_chain m' l f hi' :
  (l < node_cap)%nat -> hi = f :: hi' ->
  (forall q, q ∈ head :: (s_ptr <$> ns) ->
     rd_next m' q l =
       if decide ((l < s_top f)%nat /\ q = pred_at head l lo)
       then rd_next m (s_ptr f) l else rd_next m q l) ->
  chain m' l head (s_ptr <$> at_level l (lo ++ hi')) tail.
Proof.
  intros Hl Ehi Hr.
  pose proof (inv_split _ _ _ _ _ _ Hinv param) as Hsplit. fold lo hi in Hsplit.
  pose proof (inv_chain _ _ _ _ _ _ Hinv param l Hl) as Hc. fold lo hi in Hc.
  pose proof (inv_nodup_level l) as Hnd.
  assert (HA : forall q, q ∈ head :: (s_ptr <$> at_level l lo) -> q ∈ head :: (s_ptr <$> ns)).
  { intros q [->|Hq%at_level_ptr]%elem_of_cons; [set_solver|].
    rewrite Hsplit, fmap_app. set_solver. }
  assert (HB : forall q, q ∈ s_ptr <$> at_level l hi' -> q ∈ head :: (s_ptr <$> ns)).
  { intros q Hq%at_level_ptr. rewrite Hsplit, fmap_app, Ehi. set_solver. }
  assert (HPA : pred_at head l lo ∈ head :: (s_ptr <$> at_level l lo)).
  { destruct (pred_elem head ns param l) as [E|E]; fold lo in E; [rewrite E|]; set_solver. }
  rewrite Ehi in Hc, Hnd. unfold at_level at 2 in Hc. unfold at_level at 2 in Hnd.
  rewrite filter_cons in Hc. rewrite filter_cons in Hnd. fold (at_level l hi') in Hc, Hnd.
  rewrite at_level_app, fmap_app. apply chain_app.
  destruct (decide (l < s_top f)%nat) as [Hlt|Hlt]; apply chain_app in Hc as [Hc1 Hc2].
  - simpl in Hc1, Hc2. apply (chain_app m l (s_ptr f) []) in Hc2 as [Hf Hc2].
    rewrite app_comm_cons in Hnd. apply NoDup_app in Hnd as (Hnd1 & Hdisj & _).
    split.
    + eapply chain_redirect; [exact Hnd1| |..|exact Hc1].
      * fold (pred_at head l lo). rewrite Hr by auto. by rewrite decide_True.
      * intros q Hq Hqn. rewrite Hr by auto. rewrite decide_False; [done|].
        by intros [_ ?].
    + eapply chain_from_ext; [|exact Hc2]. intros q Hq. rewrite Hr by auto.
      rewrite decide_False; [done|]. intros [_ ->].
      apply (Hdisj (pred_at head l lo)); [done|]. simpl. set_solver.
  - split.
    + eapply chain_ext; [|exact Hc1]. intros q Hq. rewrite Hr by auto.
      by rewrite decide_False by tauto.
    + eapply chain_from_ext; [|exact Hc2]. intros q Hq. rewrite Hr by auto.
      by rewrite decide_False by tauto.
Qed.

Lemma hi_head_facts f hi' :
  hi = f :: hi' -> f ∈ ns /\ (1 <= s_top f <= maxl)%nat /\ has_node m (s_ptr f) /\
  rd_top m (s_ptr f) = Ok (Z.of_nat (s_top f)) /\
  s_ptr f ∉ head :: tail :: (s_ptr <$> lo ++ hi').
Proof.
  intros Ehi. pose proof (inv_split _ _ _ _ _ _ Hinv param) as Hsplit. fold lo hi in Hsplit.
  assert (Hin : f ∈ ns) by (rewrite Hsplit, Ehi; set_solver).
  destruct Hinv as [_ _ Ht _ _ _ Htp Hnd Hn _].
  rewrite Forall_forall in Ht. rewrite Forall_forall in Htp. rewrite Forall_forall in Hn.
  split_and!; try done; [by apply Htp..| |by apply Ht|].
  - apply Hn. do 2 (apply elem_of_cons; right). by apply list_elem_of_fmap_2.
  - rewrite Hsplit, Ehi, fmap_app, fmap_cons in Hnd.
    eapply NoDup_Permutation_proper in Hnd;
      [|exact (Permutation_middle (head :: tail :: _) _ (s_ptr f))].
    apply NoDup_cons in Hnd as [Hnd _]. by rewrite fmap_app.
Qed.

(** The found node leaves the list. *)
Lemma skip_remove f hi' preds levels :
  hi = f :: hi' -> NoDup levels ->
  (forall l, l ∈ levels <-> (l < s_top f)%nat) ->
  (forall l, (l < s_top f)%nat -> arr_get preds l = Ok (pred_at head l lo)) ->
  exists m', unlink_levels m (s_ptr f) preds levels = Ok m' /\
    same_hdr m m' /\ skip_inv m' head tail tkey maxl (lo ++ hi').
Proof.
  intros Ehi Hlnd Hlv Hp.
  pose proof (si_max _ _ _ _ _ _ Hinv) as Hmax.
  pose proof (inv_split _ _ _ _ _ _ Hinv param) as Hsplit. fold lo hi in Hsplit.
  destruct (hi_head_facts f hi' Ehi) as (Hin & Hrange & Hnode & _ & Hnf).
  destruct (unlink_levels_spec m (s_ptr f) preds levels (fun l => pred_at head l lo))
    as (m' & Hrun & Hh & Hr); [done|done| |].
  { intros l Hl%Hlv. split_and!; [lia|by apply Hp|by eapply pred_node| |].
    - intros E. apply Hnf. rewrite <- E.
      destruct (pred_elem head ns param l) as [H|H]; fold lo in H; [rewrite H; set_solver|].
      apply at_level_ptr in H. rewrite fmap_app. set_solver.
    - pose proof (inv_chain _ _ _ _ _ _ Hinv param l ltac:(lia)) as Hc. fold lo hi in Hc.
      apply chain_app in Hc as [_ Hc]. rewrite Ehi in Hc. unfold at_level in Hc.
      rewrite filter_cons_True in Hc by done. simpl in Hc.
      apply (chain_app m l (s_ptr f) []) in Hc as [Hc _]. eauto. }
  exists m'. split; [done|]. split; [done|].
  pose proof (si_sorted _ _ _ _ _ _ Hinv) as HS.
  pose proof (si_nodup _ _ _ _ _ _ Hinv) as Hnd.
  rewrite Hsplit, Ehi in HS. apply StronglySorted_app_inv in HS as (S1 & S2 & S3).
  apply StronglySorted_inv in S2 as [S2 _].
  apply (skip_inv_intro m m' head tail tkey maxl ns); [done..| | | |].
  - intros s Hs. left. rewrite Hsplit, Ehi. set_solver.
  - apply StronglySorted_app_intro; [done|done|]. intros x y Hx Hy. apply S3; set_solver.
  - rewrite Hsplit, Ehi, fmap_app, fmap_cons in Hnd. rewrite fmap_app.
    eapply NoDup_Permutation_proper in Hnd;
      [|exact (Permutation_middle (head :: tail :: _) _ (s_ptr f))].
    by apply NoDup_cons in Hnd as [_ Hnd].
  - intros l Hl. apply (remove_chain m' l f hi'); [done|done|].
    intros q Hq. rewrite Hr by (try (apply nodes_in; set_solver); done).
    apply decide_ext. by rewrite Hlv.
Qed.

End change.
End update.

(** The search keeps the lengths of its arrays. *)
Lemma find_levels_length fuel m brk param n : forall prev found preds succs f p s,
  find_levels fuel m brk param n prev found preds succs = Ok (f, p, s) ->
  length p = length preds /\ length s = length succs.
Proof.
  induction n as [|n IH]; intros prev found preds succs f p s Hrun; cbn [find_levels] in Hrun;
    [by injection Hrun as <- <- <-|].
  run_inv. destruct (_ && brk); [by injection Hrun as <- <- <-|]. run_inv.
  apply IH in Hrun as [-> ->]. unfold arr_set in *. repeat case_decide; simplify_eq.
  by rewrite !length_insert.
Qed.

End loops.

(** ** The keys as a set, for the instances *)

Section keys.
Context {M : Type} `{NM : NodeMem M} {NML : NodeMemLaws M}.
Context (m : M) (head tail tkey : Z) (maxl : nat) (ns : list snode).
Context (Hinv : skip_inv m head tail tkey maxl ns).
Context (param : Z).

Definition skip_set (l : list snode) : gset Z := list_to_set (skip_keys l).

Lemma elem_of_skip_set k l : k ∈ skip_set l <-> k ∈ skip_keys l.
Proof. apply elem_of_list_to_set. Qed.

(** Either the key is absent and the search finds nothing, or it is the first
    node of the high part and the search finds that node. *)
Lemma match_ptr_cases :
  (param ∉ skip_set ns /\ match_ptr param (highs param ns) = 0) \/
  (exists f hi', highs param ns = f :: hi' /\ s_key f = param /\ s_ptr f <> 0 /\
     match_ptr param (highs param ns) = s_ptr f /\ param ∈ skip_set ns).
Proof.
  rewrite elem_of_skip_set.
  pose proof (match_ptr_zero m head tail tkey maxl ns Hinv param) as Hz.
  destruct (decide (match_ptr param (highs param ns) = 0)) as [E|E];
    [left; split; [apply Hz; exact E|done]|right].
  unfold match_ptr in *. destruct (highs param ns) as [|f hi'] eqn:Eh; [done|].
  case_decide as Ek; [|done]. exists f, hi'. split_and!; try done.
  rewrite elem_of_skip_set, <- Ek. apply list_elem_of_fmap_2.
  rewrite (lows_highs param ns), Eh; [set_solver|].
  apply (si_sorted _ _ _ _ _ _ Hinv).
Qed.

Lemma skip_set_split : skip_set ns = skip_set (lows param ns) ∪ skip_set (highs param ns).
Proof.
  unfold skip_set, skip_keys.
  rewrite (lows_highs param ns) at 1 by apply (si_sorted _ _ _ _ _ _ Hinv).
  by rewrite fmap_app, list_to_set_app_L.
Qed.

Lemma skip_set_insert p top :
  skip_set (lows param ns ++ SNode p param top :: highs param ns) = {[param]} ∪ skip_set ns.
Proof.
  rewrite skip_set_split. unfold skip_set, skip_keys.
  rewrite fmap_app, list_to_set_app_L. set_solver.
Qed.

Lemma skip_set_remove f hi' :
  highs param ns = f :: hi' -> s_key f = param ->
  skip_set (lows param ns ++ hi') = skip_set ns ∖ {[param]}.
Proof.
  intros Eh Ek. rewrite skip_set_split, Eh.
  assert (H1 : param ∉ skip_set (lows param ns)).
  { rewrite elem_of_skip_set. intros (s & -> & [? _]%list_elem_of_filter)%list_elem_of_fmap. lia. }
  assert (H2 : param ∉ skip_set hi').
  { rewrite elem_of_skip_set. intros (s & Es & Hs)%list_elem_of_fmap.
    pose proof (hi_first _ _ _ _ _ _ Hinv param f hi' Eh) as HF.
    rewrite Forall_forall in HF. specialize (HF s Hs). simpl in HF. lia. }
  unfold skip_set, skip_keys in *. rewrite fmap_app, list_to_set_app_L. simpl. set_solver.
Qed.

End keys.
