(* ===== verification/FlatCombining.v ===== *)
(** * Flat combining, shared by the host data structures

    FCSkipList.hh, FCQueue.hh, FCArrayQueue.hh, DoubleFCQueue.hh and
    DoubleFCArrayQueue.hh publish requests in [SlotInfo] records that are linked
    through [next_slot]; the thread that holds [combine_cas] runs
    [flat_combine], which walks the linked slots, executes the valid requests
    and unlinks slots that have not been used for a while.  The classes differ
    in the operation executed for a request.  This file models slots, slot
    enqueueing and the combining loop for an arbitrary operation [exec], and
    proves the loop correct against the interface [SeqObj] that states what the
    operation of a class promises. *)

From S2P Require Import Prelude.

(** ** Slots *)

(** [struct SlotInfo]; the [char] flags are kept as booleans, the pointer
    [next_slot] is an address, 0 for NULL. *)
Record SlotInfo := mkSlot {
  is_request_valid : bool;
  operation : Z;
  parameter : Z;
  ret_val : Z;
  op_timestamp : Z;
  is_slot_linked : bool;
  next_slot : Z;
}.

(** The constructor [SlotInfo()]. *)
Definition SlotInfo_new : SlotInfo := mkSlot false 0 0 0 0 false 0.

Definition set_request (s : SlotInfo) (op param : Z) : SlotInfo :=
  mkSlot true op param (ret_val s) (op_timestamp s) (is_slot_linked s) (next_slot s).
Definition set_answer (s : SlotInfo) (r ts : Z) : SlotInfo :=
  mkSlot false (operation s) (parameter s) r ts (is_slot_linked s) (next_slot s).
Definition set_linked (s : SlotInfo) (b : bool) : SlotInfo :=
  mkSlot (is_request_valid s) (operation s) (parameter s) (ret_val s)
         (op_timestamp s) b (next_slot s).
Definition set_next (s : SlotInfo) (p : Z) : SlotInfo :=
  mkSlot (is_request_valid s) (operation s) (parameter s) (ret_val s)
         (op_timestamp s) (is_slot_linked s) p.
Definition set_stamp (s : SlotInfo) (ts : Z) : SlotInfo :=
  mkSlot (is_request_valid s) (operation s) (parameter s) (ret_val s)
         ts (is_slot_linked s) (next_slot s).

(** #define UNUSED_SLOT_THRESHOLD of the queues and the skip list. *)
Definition UNUSED_SLOT_THRESHOLD : Z := 10.
Definition LOCKED_CAS : Z := 0xffff.

(** The members of a flat-combining class: the slots, [tail_slot],
    [operation_timestamp], [combine_cas] and the sequential object. *)
Record fc (St : Type) := mkFC {
  slots : gmap Z SlotInfo;
  tail_slot : Z;
  operation_timestamp : Z;
  combine_cas : Z;
  obj : St;
}.
Arguments mkFC {St}.
Arguments slots {St}.
Arguments tail_slot {St}.
Arguments operation_timestamp {St}.
Arguments combine_cas {St}.
Arguments obj {St}.

(** ** What the operation of a class promises

    [exec] runs one request on the concrete object: the part of [flat_combine]
    between reading the request and stamping the slot. *)
Class ObjOps (St : Type) := { exec : St -> Z -> Z -> result (St * Z) }.

(** [obj_ref a s] relates the concrete object to an abstract value; on a [legal]
    request [exec] returns, with the answer and the abstract value that
    [obj_spec] gives. *)
Class SeqObj (St A : Type) {OO : ObjOps St} := {
  obj_ref : A -> St -> Prop;
  obj_spec : A -> Z -> Z -> A * Z;
  legal : A -> Z -> Z -> Prop;
  exec_ok a s op param :
    obj_ref a s -> legal a op param ->
    exists s', exec s op param = Ok (s', (obj_spec a op param).2) /\
               obj_ref (obj_spec a op param).1 s';
}.

Section operations.
Context {St : Type} {OO : ObjOps St}.

Definition upd_slots (st : fc St) (sl : gmap Z SlotInfo) : fc St :=
  mkFC sl (tail_slot st) (operation_timestamp st) (combine_cas st) (obj st).

(** [enq_slot]: mark the slot linked, stamp it and push it at [tail_slot].  The
    queues do the push with a compare-and-swap that is retried until it
    succeeds, the skip list under [tail_slot_lock]; both leave this state. *)
Definition enq_slot (st : fc St) (i : Z) : result (fc St) :=
  s ← of_opt (slots st !! i);
  Ok (mkFC (<[i := set_next (set_stamp (set_linked s true) (operation_timestamp st))
                            (tail_slot st)]> (slots st))
           i (operation_timestamp st) (combine_cas st) (obj st)).

(** The [while (curr_slot != NULL)] loop of [flat_combine]. *)
Fixpoint combine_loop (fuel : nat) (threshold : Z) (st : fc St) (prev curr : Z)
  : result (fc St) :=
  match fuel with
  | O => NoFuel
  | S fuel' =>
      if curr =? 0 then Ok st
      else
        s ← of_opt (slots st !! curr);
        if is_request_valid s then
          '(o', r) ← exec (obj st) (operation s) (parameter s);
          let st' := mkFC (<[curr := set_answer s r (operation_timestamp st)]> (slots st))
                          (tail_slot st) (s32 (operation_timestamp st + 1))
                          (combine_cas st) o' in
          combine_loop fuel' threshold st' curr (next_slot s)
        else if negb (curr =? prev) &&
                (threshold <? s32 (operation_timestamp st - op_timestamp s)) then
          p ← of_opt (slots st !! prev);
          let st' := upd_slots st (<[curr := set_linked s false]>
                                   (<[prev := set_next p (next_slot s)]> (slots st))) in
          combine_loop fuel' threshold st' prev (next_slot s)
        else combine_loop fuel' threshold st curr (next_slot s)
  end.

(** [flat_combine]: the loop started at [tail_slot]. *)
Definition flat_combine (fuel : nat) (threshold : Z) (st : fc St) : result (fc St) :=
  combine_loop fuel threshold st (tail_slot st) (tail_slot st).

(** The guarded [enq_slot] calls of [fc_operation]. *)
Definition link_if_needed (st : fc St) (i : Z) : result (fc St) :=
  s ← of_opt (slots st !! i);
  if negb (is_slot_linked s) && is_request_valid s then enq_slot st i else Ok st.

Definition set_cas (st : fc St) (c : Z) : fc St :=
  mkFC (slots st) (tail_slot st) (operation_timestamp st) c (obj st).

(** [fc_operation] of a thread that runs alone: publish the request, link the
    slot if needed, take [combine_cas], combine, release, read the answer.  With
    [combine_cas] taken and nobody to serve the request the thread spins. *)
Definition fc_operation (fuel : nat) (threshold : Z) (st : fc St) (op param i : Z)
  : result (fc St * Z) :=
  s ← of_opt (slots st !! i);
  let st1 := upd_slots st (<[i := set_request s op param]> (slots st)) in
  st2 ← link_if_needed st1 i;
  if combine_cas st2 =? 0 then
    st3 ← link_if_needed (set_cas st2 LOCKED_CAS) i;
    st4 ← flat_combine fuel threshold st3;
    let st5 := set_cas st4 0 in
    s' ← of_opt (slots st5 !! i);
    Ok (st5, ret_val s')
  else NoFuel.

(** A thread that performs the requests [reqs] (operation, parameter, slot) one
    after the other. *)
Fixpoint fc_run (fuel : nat) (threshold : Z) (st : fc St) (reqs : list (Z * Z * Z))
  : result (fc St * list Z) :=
  match reqs with
  | [] => Ok (st, [])
  | (op, param, i) :: reqs' =>
      '(st1, r) ← fc_operation fuel threshold st op param i;
      '(st2, rs) ← fc_run fuel threshold st1 reqs';
      Ok (st2, r :: rs)
  end.

End operations.

(** ** The list of linked slots *)

Fixpoint slot_chain (sl : gmap Z SlotInfo) (p : Z) (ids : list Z) : Prop :=
  match ids with
  | [] => p = 0
  | i :: ids' => p = i /\ i <> 0 /\
      exists s, sl !! i = Some s /\ slot_chain sl (next_slot s) ids'
  end.

Section serve.
Context {A : Type} (spec : A -> Z -> Z -> A * Z) (leg : A -> Z -> Z -> Prop).

(** The answers of the valid requests among [ids], in the order of the list,
    and the abstract value they leave. *)
Fixpoint serve (a : A) (sl : gmap Z SlotInfo) (ids : list Z) : A * list (Z * Z) :=
  match ids with
  | [] => (a, [])
  | i :: ids' =>
      match sl !! i with
      | Some s =>
          if is_request_valid s then
            let '(a', r) := spec a (operation s) (parameter s) in
            let '(a'', l) := serve a' sl ids' in (a'', (i, r) :: l)
          else serve a sl ids'
      | None => serve a sl ids'
      end
  end.

(** Every request is legal where it is served. *)
Fixpoint serve_legal (a : A) (sl : gmap Z SlotInfo) (ids : list Z) : Prop :=
  match ids with
  | [] => True
  | i :: ids' =>
      match sl !! i with
      | Some s =>
          if is_request_valid s then
            leg a (operation s) (parameter s) /\
            serve_legal (spec a (operation s) (parameter s)).1 sl ids'
          else serve_legal a sl ids'
      | None => serve_legal a sl ids'
      end
  end.

(** The requests on the abstract value, and their answers. *)
Fixpoint spec_run (a : A) (reqs : list (Z * Z * Z)) : A * list Z :=
  match reqs with
  | [] => (a, [])
  | (op, param, _) :: reqs' =>
      let '(a', r) := spec a op param in
      let '(a'', rs) := spec_run a' reqs' in (a'', r :: rs)
  end.

Fixpoint legal_run (a : A) (reqs : list (Z * Z * Z)) : Prop :=
  match reqs with
  | [] => True
  | (op, param, _) :: reqs' => leg a op param /\ legal_run (spec a op param).1 reqs'
  end.

End serve.

Section combine.
Context {St A : Type} {OO : ObjOps St} {SO : SeqObj St A}.

(** What combining does to one slot [i] of the list. *)
Definition slot_post (ans : list (Z * Z)) (keep : bool) (i : Z) (s s' : SlotInfo) : Prop :=
  operation s' = operation s /\ parameter s' = parameter s /\
  is_request_valid s' = false /\
  (if is_request_valid s then (i, ret_val s') ∈ ans /\ keep = true
   else ret_val s' = ret_val s) /\
  is_slot_linked s' = (if keep then is_slot_linked s else false).

Lemma slot_chain_ext sl sl' p ids :
  (forall i, i ∈ ids -> sl' !! i = sl !! i) ->
  slot_chain sl p ids -> slot_chain sl' p ids.
Proof.
  revert p; induction ids as [|i ids IH]; intros p He; simpl; [done|].
  intros (-> & Hi & s & Hs & Hc). split; [done|]. split; [done|].
  exists s. rewrite He by set_solver. split; [done|]. apply IH; set_solver.
Qed.

Lemma serve_ext a sl sl' ids :
  (forall i, i ∈ ids -> sl' !! i = sl !! i) -> serve obj_spec a sl' ids = serve obj_spec a sl ids.
Proof.
  revert a; induction ids as [|i ids IH]; intros a He; simpl; [done|].
  rewrite He by set_solver. assert (forall a, serve obj_spec a sl' ids = serve obj_spec a sl ids) as HE.
  { intros a'. apply IH. set_solver. }
  destruct (sl !! i) as [s|]; [|done]. destruct (is_request_valid s); [|done].
  destruct (obj_spec _ _ _). by rewrite HE.
Qed.

Lemma serve_legal_ext a sl sl' ids :
  (forall i, i ∈ ids -> sl' !! i = sl !! i) ->
  serve_legal obj_spec legal a sl ids -> serve_legal obj_spec legal a sl' ids.
Proof.
  revert a; induction ids as [|i ids IH]; intros a He; simpl; [done|].
  rewrite He by set_solver. assert (forall a, serve_legal obj_spec legal a sl ids -> serve_legal obj_spec legal a sl' ids) as HE.
  { intros a'. apply IH. set_solver. }
  destruct (sl !! i) as [s|]; [|auto]. destruct (is_request_valid s); [|auto].
  intros [? ?]. auto.
Qed.

(** The effect of the loop on the state, entered at [curr] with the slots [ids]
    still to visit and left with the slots [ids'] of them linked. *)
Record combined (a : A) (st st' : fc St) (prev curr : Z) (ids ids' : list Z) : Prop := {
  cb_sub : ids' `sublist_of` ids;
  cb_obj : obj_ref (serve obj_spec a (slots st) ids).1 (obj st');
  cb_tail : tail_slot st' = tail_slot st;
  cb_cas : combine_cas st' = combine_cas st;
  cb_first : prev = curr -> slot_chain (slots st') curr ids';
  cb_prev p : prev ∉ ids -> slots st !! prev = Some p -> next_slot p = curr ->
    exists n, slots st' !! prev = Some (set_next p n) /\ slot_chain (slots st') n ids';
  cb_slots i : i ∈ ids -> exists s s', slots st !! i = Some s /\
    slots st' !! i = Some s' /\
    slot_post (serve obj_spec a (slots st) ids).2 (bool_decide (i ∈ ids')) i s s';
  cb_frame i : i ∉ ids -> i <> prev -> slots st' !! i = slots st !! i;
}.

Lemma set_next_id s : set_next s (next_slot s) = s.
Proof. by destruct s. Qed.

Lemma slot_post_mono ans ans' keep keep' i s s' :
  ans ⊆ ans' -> keep = keep' -> slot_post ans keep i s s' -> slot_post ans' keep' i s s'.
Proof.
  intros Hsub -> (? & ? & ? & Hv & ?). split_and!; try done.
  destruct (is_request_valid s); [|done]. destruct Hv. split; [by apply Hsub|done].
Qed.

Lemma bool_decide_elem_cons_ne (i j : Z) ids :
  j <> i -> bool_decide (j ∈ i :: ids) = bool_decide (j ∈ ids).
Proof. intros. apply bool_decide_ext. rewrite elem_of_cons. tauto. Qed.

(** A slot that stays in the list: the loop goes on with [st1], in which only
    slot [i] may have changed, to [s1]. *)
Lemma combined_keep a a1 st st1 st' prev i ids ids' s s1 :
  i ∉ ids -> i <> 0 -> slots st !! i = Some s ->
  slots st1 = <[i := s1]> (slots st) -> next_slot s1 = next_slot s ->
  tail_slot st1 = tail_slot st -> combine_cas st1 = combine_cas st ->
  (serve obj_spec a (slots st) (i :: ids)).1 = (serve obj_spec a1 (slots st) ids).1 ->
  (serve obj_spec a1 (slots st) ids).2 ⊆ (serve obj_spec a (slots st) (i :: ids)).2 ->
  (forall n, slot_post (serve obj_spec a (slots st) (i :: ids)).2 true i s (set_next s1 n)) ->
  combined a1 st1 st' i (next_slot s) ids ids' ->
  combined a st st' prev i (i :: ids) (i :: ids').
Proof.
  intros Hi Hi0 Hs Hst1 Hn Htl Hcas Hobj Hans Hpost [Csub Cobj Ctail Ccas _ Cprev Cslots Cframe].
  assert (Hsame : forall j, j ∈ ids -> slots st1 !! j = slots st !! j).
  { intros j Hj. rewrite Hst1, lookup_insert_ne; [done|]. set_solver. }
  assert (Hserve : serve obj_spec a1 (slots st1) ids = serve obj_spec a1 (slots st) ids) by by apply serve_ext.
  rewrite Hserve in Cobj. setoid_rewrite Hserve in Cslots.
  destruct (Cprev s1) as (n & Hn' & Hc); [done| |done|].
  { rewrite Hst1. apply lookup_insert_eq. }
  assert (Hchain : slot_chain (slots st') i (i :: ids')) by (simpl; eauto).
  split.
  - by apply sublist_skip.
  - by rewrite Hobj.
  - congruence.
  - congruence.
  - done.
  - intros p Hp Hpl <-. exists (next_slot p). rewrite set_next_id. split; [|done].
    rewrite Cframe by set_solver. rewrite Hst1, lookup_insert_ne by set_solver. done.
  - intros j [->|Hj]%elem_of_cons.
    + exists s, (set_next s1 n). split_and!; try done.
      rewrite bool_decide_true by set_solver. apply Hpost.
    + destruct (Cslots j Hj) as (t & t' & Ht & Ht' & Hp). rewrite Hsame in Ht by done.
      exists t, t'. split_and!; try done. eapply slot_post_mono; [done| |done].
      symmetry. apply bool_decide_elem_cons_ne. set_solver.
  - intros j Hj Hjp. rewrite Cframe by set_solver.
    rewrite Hst1, lookup_insert_ne by set_solver. done.
Qed.

(** A stale slot: the predecessor is linked past it. *)
Lemma combined_drop a st st' prev i ids ids' s p :
  i ∉ ids -> prev ∉ i :: ids -> slots st !! i = Some s -> is_request_valid s = false ->
  slots st !! prev = Some p ->
  combined a (upd_slots st (<[i := set_linked s false]>
               (<[prev := set_next p (next_slot s)]> (slots st)))) st'
           prev (next_slot s) ids ids' ->
  combined a st st' prev i (i :: ids) ids'.
Proof.
  intros Hi Hprev Hs Hv Hp [Csub Cobj Ctail Ccas _ Cprev Cslots Cframe].
  set (sl1 := <[i := _]> _) in *. simpl in *.
  assert (Hsame : forall j, j <> i -> j <> prev -> sl1 !! j = slots st !! j).
  { intros j ? ?. unfold sl1. by rewrite !lookup_insert_ne. }
  assert (Hserve : serve obj_spec a sl1 ids = serve obj_spec a (slots st) ids).
  { apply serve_ext. intros j Hj. apply Hsame; set_solver. }
  assert (Hserve' : serve obj_spec a (slots st) (i :: ids) = serve obj_spec a (slots st) ids).
  { simpl. by rewrite Hs, Hv. }
  rewrite Hserve in Cobj. setoid_rewrite Hserve in Cslots.
  assert (Hi' : i ∉ ids') by (intros ?; apply Hi; by eapply elem_of_sublist).
  split; rewrite ?Hserve'; try done.
  - by apply sublist_cons.
  - intros ->. set_solver.
  - intros q Hq Hql Hn. rewrite Hp in Hql. injection Hql as <-.
    destruct (Cprev (set_next p (next_slot s))) as (n & Hn' & Hc).
    + set_solver.
    + unfold sl1. rewrite lookup_insert_ne by set_solver. apply lookup_insert_eq.
    + done.
    + exists n. done.
  - intros j [->|Hj]%elem_of_cons.
    + exists s, (set_linked s false). split; [done|]. split.
      * rewrite Cframe by set_solver. apply lookup_insert_eq.
      * rewrite bool_decide_false by done. unfold slot_post. rewrite Hv. done.
    + destruct (Cslots j Hj) as (t & t' & Ht & Ht' & Hpost).
      rewrite Hsame in Ht by set_solver. eauto.
  - intros j Hj Hjp. rewrite Cframe by set_solver. apply Hsame; set_solver.
Qed.

Lemma combine_loop_spec threshold ids : forall a st prev curr fuel,
  slot_chain (slots st) curr ids -> NoDup ids ->
  (prev = curr \/ prev ∉ ids /\ is_Some (slots st !! prev)) ->
  (length ids < fuel)%nat ->
  obj_ref a (obj st) -> serve_legal obj_spec legal a (slots st) ids ->
  exists st' ids', combine_loop fuel threshold st prev curr = Ok st' /\
    combined a st st' prev curr ids ids'.
Proof.
  induction ids as [|i ids IH]; intros a st prev curr fuel Hc Hnd Hprev Hfuel Href Hleg;
    (destruct fuel as [|fuel]; [simpl in Hfuel; lia|]); simpl in Hc.
  { subst curr. exists st, []. split; [done|]. split; try done; simpl.
    - intros p _ Hp Hn. exists 0. rewrite <- Hn, set_next_id. done.
    - set_solver. }
  destruct Hc as (-> & Hi0 & s & Hs & Hc). apply NoDup_cons in Hnd as [Hi Hnd].
  simpl combine_loop. rewrite (proj2 (Z.eqb_neq i 0) Hi0), Hs. simpl.
  simpl in Hleg. rewrite Hs in Hleg. simpl in Hfuel.
  destruct (is_request_valid s) eqn:Hv.
  - destruct Hleg as [Hl1 Hl2].
    destruct (exec_ok a (obj st) (operation s) (parameter s) Href Hl1) as (o' & He & Href').
    rewrite He. simpl. set (st1 := mkFC _ _ _ _ o').
    destruct (IH (obj_spec a (operation s) (parameter s)).1 st1 i (next_slot s) fuel)
      as (st' & ids' & Hrun & Hcb); [|done| |lia|done| |].
    + eapply slot_chain_ext; [|done]. intros j Hj. apply lookup_insert_ne. set_solver.
    + right. split; [done|]. unfold st1; simpl. rewrite lookup_insert_eq. eauto.
    + eapply serve_legal_ext; [|exact Hl2]. intros j Hj. apply lookup_insert_ne. set_solver.
    + exists st', (i :: ids'). split; [done|].
      assert (Hsv : serve obj_spec a (slots st) (i :: ids) =
        let '(a2, l) := serve obj_spec (obj_spec a (operation s) (parameter s)).1 (slots st) ids in
        (a2, (i, (obj_spec a (operation s) (parameter s)).2) :: l)).
      { simpl. rewrite Hs, Hv. by destruct (obj_spec a _ _). }
      eapply combined_keep with (st1 := st1)
        (a1 := (obj_spec a (operation s) (parameter s)).1)
        (s1 := set_answer s (obj_spec a (operation s) (parameter s)).2 (operation_timestamp st));
        [done..| | | |exact Hcb];
        rewrite Hsv; destruct (serve obj_spec _ _ ids); simpl.
      * done.
      * set_solver.
      * intros n. unfold slot_post. rewrite Hv. simpl. split_and!; try done. set_solver.
  - destruct (negb (i =? prev) && _) eqn:Hst.
    + apply andb_true_iff in Hst as [Hne%negb_true_iff%Z.eqb_neq _].
      destruct Hprev as [->|[Hp [p Hpl]]]; [done|]. rewrite Hpl. simpl.
      set (st1 := upd_slots st _).
      destruct (IH a st1 prev (next_slot s) fuel) as (st' & ids' & Hrun & Hcb);
        [|done| |lia|done| |].
      * eapply slot_chain_ext; [|done]. intros j Hj. unfold st1; simpl.
        rewrite !lookup_insert_ne; set_solver.
      * right. split; [set_solver|]. unfold st1; simpl.
        rewrite lookup_insert_ne by done. rewrite lookup_insert_eq. eauto.
      * eapply serve_legal_ext; [|exact Hleg]. intros j Hj. unfold st1; simpl.
        rewrite !lookup_insert_ne; set_solver.
      * exists st', ids'. split; [done|]. eapply combined_drop; eauto.
    + destruct (IH a st i (next_slot s) fuel) as (st' & ids' & Hrun & Hcb); try done; [|lia|].
      { right. eauto. }
      exists st', (i :: ids'). split; [done|].
      eapply combined_keep with (s1 := s) (a1 := a); try done; simpl; rewrite ?Hs, ?Hv; try done.
      * by rewrite insert_id.
      * intros n. unfold slot_post. rewrite Hv. done.
Qed.

(** [flat_combine] on a well-formed slot list: it terminates, serves every valid
    request once and in list order, and leaves a well-formed list. *)
Lemma flat_combine_spec threshold a st ids fuel :
  slot_chain (slots st) (tail_slot st) ids -> NoDup ids -> (length ids < fuel)%nat ->
  obj_ref a (obj st) -> serve_legal obj_spec legal a (slots st) ids ->
  exists st' ids', flat_combine fuel threshold st = Ok st' /\
    combined a st st' (tail_slot st) (tail_slot st) ids ids'.
Proof. intros. apply combine_loop_spec; auto. Qed.

(** The same, as the classes use it. *)
Lemma flat_combine_served threshold a st ids fuel :
  slot_chain (slots st) (tail_slot st) ids -> NoDup ids -> (length ids < fuel)%nat ->
  obj_ref a (obj st) -> serve_legal obj_spec legal a (slots st) ids ->
  exists st' ids', flat_combine fuel threshold st = Ok st' /\
    obj_ref (serve obj_spec a (slots st) ids).1 (obj st') /\
    slot_chain (slots st') (tail_slot st') ids' /\ ids' `sublist_of` ids /\
    forall i, i ∈ ids -> exists s s', slots st !! i = Some s /\ slots st' !! i = Some s' /\
      slot_post (serve obj_spec a (slots st) ids).2 (bool_decide (i ∈ ids')) i s s'.
Proof.
  intros Hc Hnd Hf Href Hleg.
  destruct (flat_combine_spec threshold a st ids fuel Hc Hnd Hf Href Hleg)
    as (st' & ids' & Hrun & [Csub Cobj Ctail _ Cfirst _ Cslots _]).
  exists st', ids'. rewrite Ctail. auto.
Qed.

(** Between operations of a single thread: the lock is free, the flags of the
    slots say which of them are linked, and no request is pending. *)
Record quiet (st : fc St) (ids : list Z) : Prop := {
  qt_cas : combine_cas st = 0;
  qt_chain : slot_chain (slots st) (tail_slot st) ids;
  qt_nodup : NoDup ids;
  qt_flags i s : slots st !! i = Some s ->
    is_slot_linked s = bool_decide (i ∈ ids) /\ is_request_valid s = false;
}.

Lemma slot_chain_elem sl p ids i :
  slot_chain sl p ids -> i ∈ ids -> is_Some (sl !! i).
Proof.
  revert p; induction ids as [|j ids IH]; intros p; simpl; [set_solver|].
  intros (_ & _ & s & Hs & Hc) [->|Hi]%elem_of_cons; [eauto|by eapply IH].
Qed.

Lemma slot_chain_upd sl p ids i s s' :
  sl !! i = Some s -> next_slot s' = next_slot s ->
  slot_chain sl p ids -> slot_chain (<[i := s']> sl) p ids.
Proof.
  intros Hs Hn. revert p; induction ids as [|j ids IH]; intros p; simpl; [done|].
  intros (-> & Hj & t & Ht & Hc). split_and!; [done..|].
  destruct (decide (i = j)) as [->|Hne].
  - exists s'. rewrite lookup_insert_eq, Hn. simplify_eq. auto.
  - exists t. rewrite lookup_insert_ne by done. auto.
Qed.

(** Only slot [i] has a request: serving the list is serving that request. *)
Lemma serve_single a sl (ids : list Z) (i : Z) s :
  NoDup ids -> i ∈ ids -> sl !! i = Some s -> is_request_valid s = true ->
  (forall j t, j <> i -> sl !! j = Some t -> is_request_valid t = false) ->
  serve obj_spec a sl ids = ((obj_spec a (operation s) (parameter s)).1,
                    [(i, (obj_spec a (operation s) (parameter s)).2)]) /\
  (legal a (operation s) (parameter s) -> serve_legal obj_spec legal a sl ids).
Proof.
  intros Hnd Hi Hs Hv Hoth.
  assert (Hnone : forall ids a, i ∉ ids -> serve obj_spec a sl ids = (a, []) /\ serve_legal obj_spec legal a sl ids).
  { clear -Hoth. induction ids as [|j ids IH]; intros a Hi; simpl; [done|].
    apply not_elem_of_cons in Hi as [Hj Hi]. destruct (sl !! j) as [t|] eqn:Ht; [|by apply IH].
    rewrite (Hoth j t) by done. by apply IH. }
  induction ids as [|j ids IH]; [by apply elem_of_nil in Hi|].
  apply NoDup_cons in Hnd as [Hj Hnd]. simpl. destruct (decide (j = i)) as [->|Hne].
  - rewrite Hs, Hv. destruct (obj_spec a _ _) as [a' r] eqn:E. simpl.
    destruct (Hnone ids a' Hj) as [-> Hl]. auto.
  - apply elem_of_cons in Hi as [->|Hi]; [done|].
    destruct (sl !! j) as [t|] eqn:Ht; [|by apply IH]. rewrite (Hoth j t) by done. by apply IH.
Qed.

(** Publishing and linking the request leaves one pending request in a
    well-formed list; a second call of [link_if_needed] does nothing. *)
Lemma publish_spec st ids i s op param :
  quiet st ids -> i <> 0 -> slots st !! i = Some s ->
  exists st2 ids2 s2,
    link_if_needed (upd_slots st (<[i := set_request s op param]> (slots st))) i = Ok st2 /\
    slot_chain (slots st2) (tail_slot st2) ids2 /\ NoDup ids2 /\ i ∈ ids2 /\
    combine_cas st2 = 0 /\ obj st2 = obj st /\
    (length ids2 <= S (length ids))%nat /\
    slots st2 !! i = Some s2 /\ is_request_valid s2 = true /\
    operation s2 = op /\ parameter s2 = param /\ is_slot_linked s2 = true /\
    (forall j t, j <> i -> slots st2 !! j = Some t ->
       is_request_valid t = false /\ is_slot_linked t = bool_decide (j ∈ ids2)) /\
    (forall j, is_Some (slots st !! j) -> is_Some (slots st2 !! j)).
Proof.
  intros [Hcas Hch Hnd Hfl] Hi0 Hs. unfold link_if_needed. simpl.
  rewrite lookup_insert_eq. simpl. destruct (Hfl i s Hs) as [Hl Hv]. rewrite Hl.
  destruct (bool_decide_reflect (i ∈ ids)) as [Hin|Hout]; simpl.
  - do 2 eexists; exists (set_request s op param). split; [done|]. simpl. split_and!.
    + by apply slot_chain_upd with s.
    + done.
    + done.
    + done.
    + done.
    + lia.
    + apply lookup_insert_eq.
    + done.
    + done.
    + done.
    + by rewrite Hl.
    + intros j t Hj. rewrite lookup_insert_ne by done. intros Ht.
      destruct (Hfl j t Ht). done.
    + intros j Hj. destruct (decide (j = i)) as [->|];
        [rewrite lookup_insert_eq; eauto|by rewrite lookup_insert_ne].
  - unfold enq_slot. simpl. rewrite lookup_insert_eq. simpl.
    do 2 eexists; eexists. split; [done|]. simpl. rewrite insert_insert_eq. split_and!.
    + instantiate (1 := i :: ids). simpl. split_and!; [done..|].
      eexists. rewrite lookup_insert_eq. split; [done|]. simpl.
      eapply slot_chain_ext; [|exact Hch]. intros j Hj. apply lookup_insert_ne. set_solver.
    + by apply NoDup_cons.
    + set_solver.
    + done.
    + done.
    + simpl; lia.
    + apply lookup_insert_eq.
    + done.
    + done.
    + done.
    + done.
    + intros j t Hj. rewrite lookup_insert_ne by done. intros Ht.
      destruct (Hfl j t Ht) as [-> ->]. split; [done|]. apply bool_decide_ext. set_solver.
    + intros j Hj. destruct (decide (j = i)) as [->|];
        [rewrite lookup_insert_eq; eauto|by rewrite lookup_insert_ne].
Qed.

(** An operation of a thread that runs alone returns the answer of the
    sequential specification and leaves the structure quiet again. *)
Lemma fc_operation_alone fuel threshold a st ids i op param :
  quiet st ids -> i <> 0 -> is_Some (slots st !! i) -> (S (length ids) < fuel)%nat ->
  obj_ref a (obj st) -> legal a op param ->
  exists st' ids', fc_operation fuel threshold st op param i = Ok (st', (obj_spec a op param).2) /\
    quiet st' ids' /\ obj_ref (obj_spec a op param).1 (obj st') /\
    (length ids' <= S (length ids))%nat /\
    (forall j, is_Some (slots st !! j) -> is_Some (slots st' !! j)).
Proof.
  intros Hq Hi0 [s Hs] Hf Href Hleg.
  destruct (publish_spec st ids i s op param Hq Hi0 Hs) as
    (st2 & ids2 & s2 & Hpub & Hch & Hnd & Hin & Hcas & Hobj & Hlen & Hs2 & Hv & <- & <- & Hl & Hoth & Hdom).
  unfold fc_operation. rewrite Hs. simpl. rewrite Hpub. simpl. rewrite Hcas, Z.eqb_refl.
  assert (Hagain : link_if_needed (set_cas st2 LOCKED_CAS) i = Ok (set_cas st2 LOCKED_CAS)).
  { unfold link_if_needed. simpl. rewrite Hs2. simpl. by rewrite Hl. }
  rewrite Hagain. simpl.
  destruct (serve_single a (slots st2) ids2 i s2) as [Hserve Hsl]; try done.
  { intros j t Hj Ht. by destruct (Hoth j t Hj Ht). }
  destruct (flat_combine_spec threshold a (set_cas st2 LOCKED_CAS) ids2 fuel)
    as (st' & ids' & Hrun & [Csub Cobj Ctail _ Cfirst _ Cslots Cframe]); simpl; try done;
    [lia|by rewrite Hobj|by apply Hsl|].
  simpl in *. rewrite Hrun. simpl. rewrite Hserve in Cobj, Cslots. simpl in *.
  destruct (Cslots i Hin) as (t & t' & Ht & Ht' & Hpost). rewrite Hs2 in Ht. injection Ht as <-.
  destruct Hpost as (_ & _ & _ & Hans & _). rewrite Hv in Hans.
  destruct Hans as [[= Hr]%list_elem_of_singleton Hkeep].
  rewrite Ht'. simpl. rewrite Hr. eexists _, ids'. split; [done|].
  assert (Htl : tail_slot st2 ∈ ids2).
  { destruct ids2; [set_solver|]. destruct Hch as (-> & _). set_solver. }
  split; [|split; [done|split]].
  - split; simpl; [done| | |].
    + rewrite Ctail. by apply Cfirst.
    + by eapply sublist_NoDup.
    + intros j u Hu. destruct (decide (j ∈ ids2)) as [Hj|Hj].
      * destruct (Cslots j Hj) as (w & w' & Hw & Hw' & Hp). rewrite Hu in Hw'. injection Hw' as <-.
        destruct Hp as (_ & _ & -> & _ & ->). split; [|done].
        destruct (bool_decide_reflect (j ∈ ids')); [|done].
        destruct (decide (j = i)) as [->|Hji]; [by rewrite Hs2 in Hw; injection Hw as <-|].
        destruct (Hoth j w Hji Hw) as [_ ->]. by apply bool_decide_eq_true.
      * rewrite Cframe in Hu by (done || by intros ->).
        assert (j <> i) as Hji by by intros ->. destruct (Hoth j u Hji Hu) as [-> ->].
        split; [|done]. apply bool_decide_ext.
        split; [done|]. intros Hj'. by eapply elem_of_sublist.
  - apply sublist_length in Csub. lia.
  - intros j Hj%Hdom. simpl. destruct (decide (j ∈ ids2)) as [Hj2|Hj2].
    + destruct (Cslots j Hj2) as (w & w' & _ & -> & _). eauto.
    + rewrite Cframe; [done|done|by intros ->].
Qed.

Lemma fc_run_spec threshold reqs : forall fuel a st ids,
  quiet st ids -> obj_ref a (obj st) -> legal_run obj_spec legal a reqs ->
  (forall op param i, (op, param, i) ∈ reqs -> i <> 0 /\ is_Some (slots st !! i)) ->
  (length ids + length reqs < fuel)%nat ->
  exists st' ids', fc_run fuel threshold st reqs = Ok (st', (spec_run obj_spec a reqs).2) /\
    quiet st' ids' /\ obj_ref (spec_run obj_spec a reqs).1 (obj st').
Proof.
  induction reqs as [|[[op param] i] reqs IH]; intros fuel a st ids Hq Href Hleg Hsl Hf; simpl.
  { exists st, ids. done. }
  simpl in Hleg, Hf. destruct Hleg as [Hl1 Hl2]. destruct (Hsl op param i) as [Hi0 His]; [set_solver|].
  destruct (fc_operation_alone fuel threshold a st ids i op param) as
    (st1 & ids1 & Hrun & Hq1 & Href1 & Hlen & Hdom); try done; [lia|].
  destruct (IH fuel (obj_spec a op param).1 st1 ids1) as (st2 & ids2 & Hrun2 & Hq2 & Href2);
    try done; [|lia|].
  { intros op' param' i' Hin. destruct (Hsl op' param' i') as [? ?]; [set_solver|]. auto. }
  rewrite Hrun. simpl. rewrite Hrun2. simpl.
  destruct (obj_spec a op param) as [a' r]. simpl in *. destruct (spec_run obj_spec a' reqs).
  simpl in *. eauto.
Qed.

(** A structure whose slots are fresh ([SlotInfo()]) is quiet. *)
Lemma quiet_new (sl : gmap Z SlotInfo) ts o :
  map_Forall (fun _ s => s = SlotInfo_new) sl -> quiet (mkFC sl 0 ts 0 o) [].
Proof.
  intros Hsl. split; simpl; try done; [constructor|].
  intros i s Hs. by rewrite (Hsl i s Hs).
Qed.

End combine.

(** Evaluates [slot_chain] on a concrete map of slots. *)
Ltac slot_chain_eval :=
  cbn [slot_chain];
  repeat (split; [reflexivity|split; [done|eexists; split; [reflexivity|]]]); reflexivity.

Ltac NoDup_eval := apply (bool_decide_unpack _); vm_compute; exact I.
