(* ===== verification/History.v ===== *)
(** * Histories of concurrent objects

    A history lists the events of all threads, latest first: calls, returns, and
    the points at which a call takes effect.  A history is linearizable at these
    points if every thread's events are well formed ([status]) and the executed
    operations, in order, are a run of the sequential specification ([replay]).
    An operation that takes effect at a point it recognises only later leaves a
    mark there, which it turns into its point of effect ([confirm]). *)

From S2P Require Import Prelude.

Inductive event :=
  | Inv (t op param : Z) | Lin (t op param r : Z) | Ret (t r : Z) | Mark (t : Z).

#[export] Instance event_eq_dec : EqDecision event.
Proof. solve_decision. Defined.

(** What a history says about a thread: no call open, a call not yet executed,
    or a call executed with an answer that is not yet returned. *)
Inductive tstat := Out | Called (op param : Z) | Answered (r : Z).

Definition ev_thread (e : event) : Z :=
  match e with Inv t _ _ | Lin t _ _ _ | Ret t _ | Mark t => t end.

Definition tstat_step (e : event) (x : tstat) : option tstat :=
  match e, x with
  | Inv _ op param, Out => Some (Called op param)
  | Lin _ op param r, Called op' param' =>
      if decide (op = op' /\ param = param') then Some (Answered r) else None
  | Ret _ r, Answered r' => if decide (r = r') then Some Out else None
  | Mark _, Called op param => Some (Called op param)
  | _, _ => None
  end.

(** [None] if the events of [t] are not well formed: calls and returns alternate,
    every returned call was executed exactly once in between, and returned the
    answer of that execution. *)
Fixpoint status (t : Z) (tr : list event) : option tstat :=
  match tr with
  | [] => Some Out
  | e :: tr' => if decide (ev_thread e = t) then x ← status t tr'; tstat_step e x
                else status t tr'
  end.

Section replay.
Context {A : Type} (spec : A -> Z -> Z -> A * Z) (leg : A -> Z -> Z -> Prop).

(** The executions of a history, run on the abstract value [a]; [None] if an
    answer differs. *)
Fixpoint replay (a : A) (tr : list event) : option A :=
  match tr with
  | [] => Some a
  | Lin _ op param r :: tr' =>
      a' ← replay a tr';
      if decide ((spec a' op param).2 = r) then Some (spec a' op param).1 else None
  | _ :: tr' => replay a tr'
  end.

(** Every request was legal when it was executed. *)
Fixpoint legal_trace (a : A) (tr : list event) : Prop :=
  match tr with
  | [] => True
  | Lin _ op param _ :: tr' =>
      legal_trace a tr' /\ (forall a', replay a tr' = Some a' -> leg a' op param)
  | _ :: tr' => legal_trace a tr'
  end.
End replay.

Lemma status_called t tr op param :
  status t tr = Some (Called op param) -> Inv t op param ∈ tr.
Proof.
  induction tr as [|e tr IH]; simpl; [done|]. destruct (decide (ev_thread e = t)) as [<-|]; [|set_solver].
  destruct (status (ev_thread e) tr) as [x|]; [|done]. simpl.
  destruct e, x; simpl; repeat case_decide; intros; simplify_eq; set_solver.
Qed.

Lemma status_other t e tr : ev_thread e <> t -> status t (e :: tr) = status t tr.
Proof. intros. simpl. by rewrite decide_False. Qed.

Lemma status_own t e tr x : ev_thread e = t -> status t tr = Some x ->
  status t (e :: tr) = tstat_step e x.
Proof. intros He Hx. simpl. by rewrite decide_True, Hx by done. Qed.

Lemma status_inv t tr op param : status t tr = Some Out ->
  status t (Inv t op param :: tr) = Some (Called op param).
Proof. intros H. by erewrite status_own by done. Qed.

Lemma status_lin t tr op param r : status t tr = Some (Called op param) ->
  status t (Lin t op param r :: tr) = Some (Answered r).
Proof. intros H. erewrite status_own by done. simpl. by rewrite decide_True. Qed.

Lemma status_ret t tr r : status t tr = Some (Answered r) -> status t (Ret t r :: tr) = Some Out.
Proof. intros H. erewrite status_own by done. simpl. by rewrite decide_True. Qed.

Lemma status_mark t tr op param : status t tr = Some (Called op param) ->
  status t (Mark t :: tr) = Some (Called op param).
Proof. intros H. by erewrite status_own by done. Qed.

Lemma status_suffix t tr tr' : tr' `suffix_of` tr -> is_Some (status t tr) -> is_Some (status t tr').
Proof.
  intros [l ->]. induction l as [|e l IH]; simpl; [done|]. case_decide; [|done].
  intros [x Hx]. apply IH. destruct (status t (l ++ tr')); [eauto|done].
Qed.


(** A map that gives every thread of a list the same initial value. *)
Lemma lookup_threads {V} (ts : list Z) (v : V) t :
  (list_to_map ((fun t => (t, v)) <$> ts) : gmap Z V) !! t = (if decide (t ∈ ts) then Some v else None).
Proof.
  induction ts as [|u ts IH]; [done|]. rewrite fmap_cons, list_to_map_cons.
  destruct (decide (t = u)) as [->|Hne].
  - rewrite lookup_insert_eq, decide_True by set_solver. done.
  - rewrite lookup_insert_ne by done. rewrite IH. apply decide_ext. set_solver.
Qed.

(** ** Effects recognised later *)

Section confirm.
Context {A : Type} (spec : A -> Z -> Z -> A * Z) (a0 : A).

(** The latest mark of [t] becomes the point of effect of its call. *)
Fixpoint confirm (t op param r : Z) (tr : list event) : list event :=
  match tr with
  | [] => []
  | e :: tr' =>
      if decide (e = Mark t) then Lin t op param r :: tr' else e :: confirm t op param r tr'
  end.

(** [t] has left a mark, has had no event since, and the abstract value at the
    mark was [b]. *)
Definition marked (t : Z) (b : A) (tr : list event) : Prop :=
  exists tr2 tr1, tr = tr2 ++ Mark t :: tr1 /\ Forall (fun e => ev_thread e <> t) tr2 /\
    replay spec a0 tr1 = Some b.

Lemma replay_app tr2 tr1 :
  replay spec a0 (tr2 ++ tr1) = replay spec a0 tr1 ≫= fun b => replay spec b tr2.
Proof.
  induction tr2 as [|e tr2 IH]; simpl; [by destruct (replay spec a0 tr1)|].
  destruct e; rewrite IH; by destruct (replay spec a0 tr1).
Qed.

Lemma status_skip t tr2 tr1 :
  Forall (fun e => ev_thread e <> t) tr2 -> status t (tr2 ++ tr1) = status t tr1.
Proof.
  induction 1 as [|e tr2 He _ IH]; [done|]. simpl app. by rewrite status_other.
Qed.

Lemma status_replace t e e' tr2 tr1 :
  ev_thread e <> t -> ev_thread e' <> t ->
  status t (tr2 ++ e :: tr1) = status t (tr2 ++ e' :: tr1).
Proof.
  intros He He'. induction tr2 as [|x tr2 IH]; simpl app; [by rewrite !status_other|].
  simpl. by rewrite IH.
Qed.

Lemma confirm_at t op param r tr2 tr1 :
  Forall (fun e => ev_thread e <> t) tr2 ->
  confirm t op param r (tr2 ++ Mark t :: tr1) = tr2 ++ Lin t op param r :: tr1.
Proof.
  induction 1 as [|e tr2 He _ IH]; simpl; [by rewrite decide_True|].
  rewrite decide_False; [by rewrite IH|]. by intros ->.
Qed.

(** Confirming an operation that does not change the value it marked. *)
Lemma confirm_ok t op param r b tr :
  marked t b tr -> spec b op param = (b, r) ->
  status t tr = Some (Called op param) ->
  status t (confirm t op param r tr) = Some (Answered r) /\
  replay spec a0 (confirm t op param r tr) = replay spec a0 tr /\
  (forall t', t' <> t -> status t' (confirm t op param r tr) = status t' tr).
Proof.
  intros (tr2 & tr1 & -> & Hf & Hb) Hs Hst. rewrite confirm_at by done. split_and!.
  - rewrite status_skip in Hst |- * by done. simpl in *. rewrite decide_True in Hst |- * by done.
    destruct (status t tr1) as [x|]; [|done]. simpl in *. destruct x; try done.
    injection Hst as -> ->. by rewrite decide_True.
  - rewrite !replay_app. simpl. rewrite Hb. simpl. rewrite Hs. simpl. by rewrite decide_True.
  - intros t' Hne. symmetry. apply status_replace; simpl; congruence.
Qed.

Lemma confirm_replay t op param r b tr :
  marked t b tr -> spec b op param = (b, r) ->
  replay spec a0 (confirm t op param r tr) = replay spec a0 tr.
Proof.
  intros (tr2 & tr1 & -> & Hf & Hb) Hs. rewrite confirm_at by done.
  rewrite !replay_app. simpl. rewrite Hb. simpl. rewrite Hs. simpl. by rewrite decide_True.
Qed.

Lemma marked_step t b e tr : ev_thread e <> t -> marked t b tr -> marked t b (e :: tr).
Proof. intros He (tr2 & tr1 & -> & Hf & Hb). exists (e :: tr2), tr1. split; [done|]. by split; [constructor|]. Qed.

Lemma marked_new t b tr : replay spec a0 tr = Some b -> marked t b (Mark t :: tr).
Proof. intros Hb. by exists [], tr. Qed.

(** The mark of another thread survives a confirmation. *)
Lemma marked_confirm t t' b b' op param r tr :
  t' <> t -> marked t b tr -> marked t' b' tr -> spec b' op param = (b', r) ->
  marked t b (confirm t' op param r tr).
Proof.
  intros Hne (tr2 & tr1 & -> & Hf & Hb) Hm' Hs. revert Hm'.
  induction tr2 as [|e tr2 IH]; simpl; intros (u2 & u1 & Hu & Hfu & Hbu).
  - rewrite decide_False by congruence. destruct u2 as [|x u2]; simpl in Hu; [congruence|].
    injection Hu as <- ->. apply Forall_cons in Hfu as [_ Hfu].
    exists [], (confirm t' op param r (u2 ++ Mark t' :: u1)). split; [done|]. split; [done|].
    rewrite (confirm_replay t' op param r b'); try done. by exists u2, u1.
  - apply Forall_cons in Hf as [He Hf]. destruct (decide (e = Mark t')) as [->|Hne'].
    + exists (Lin t' op param r :: tr2), tr1. split; [done|]. split; [by constructor|done].
    + destruct u2 as [|x u2]; simpl in Hu; [congruence|]. injection Hu as <- Hu.
      apply Forall_cons in Hfu as [_ Hfu].
      destruct (IH Hf) as (v2 & v1 & Hv & Hfv & Hbv); [by exists u2, u1|].
      exists (e :: v2), v1. rewrite Hv. split; [done|]. by split; [constructor|].
Qed.
End confirm.
