(* ===== verification/FCSkipList.v ===== *)
(** * The flat-combining skip list of the host

    Models src/SMC/SW/HOST/app/multithread_fc_skiplist: FCSkipList.hh (the class
    [SkipList] with its constructors, [set_max_level], [randomLevel],
    [in_bounds] and the operation executed by [flat_combine]) and
    FCPartSkipList.hh (the partitioned list).  Nodes live in a heap of objects;
    [delete] removes one, so a dangling access is [UB]. *)

From S2P Require Import Prelude SkipCore FlatCombining.

Definition ADD_OP : Z := 1.
Definition CONTAINS_OP : Z := 2.
Definition REMOVE_OP : Z := 3.

Definition MAX_LEVEL : nat := 14.
#[local] Arguments replicate : simpl never.

(** [struct Node]; an entry of [next] is [None] until it is written. *)
Record Node := mkNode { key : Z; top_level : Z; next : list (option Z) }.

(** ** The heap of nodes as a node store *)

Section heap.
Implicit Types (h : gmap Z Node).

Definition heap_key h (p : Z) : result Z := n ← of_opt (h !! p); Ok (key n).
Definition heap_top h (p : Z) : result Z := n ← of_opt (h !! p); Ok (top_level n).
Definition heap_next h (p : Z) (l : nat) : result Z :=
  n ← of_opt (h !! p); arr_get (next n) l.
Definition heap_set_next h (p : Z) (l : nat) (v : Z) : result (gmap Z Node) :=
  n ← of_opt (h !! p);
  nx ← arr_set (next n) l v;
  Ok (<[p := mkNode (key n) (top_level n) nx]> h).
(** A node with at least [cap] link fields is stored at [p]. *)
Definition heap_has (cap : nat) h (p : Z) : Prop :=
  p <> 0 /\ exists n, h !! p = Some n /\ (cap <= length (next n))%nat.

End heap.

Definition heap_mem_at (cap : nat) : NodeMem (gmap Z Node) := {|
  node_cap := cap;
  rd_key := heap_key;
  rd_top := heap_top;
  rd_next := heap_next;
  wr_next := heap_set_next;
  has_node := heap_has cap;
|}.

#[export] Instance heap_mem : NodeMem (gmap Z Node) := heap_mem_at MAX_LEVEL.

Lemma heap_set_next_ok cap h p l v :
  heap_has cap h p -> (l < cap)%nat ->
  exists n, h !! p = Some n /\ (cap <= length (next n))%nat /\
    heap_set_next h p l v =
      Ok (<[p := mkNode (key n) (top_level n) (<[l := Some v]> (next n))]> h).
Proof.
  intros (_ & n & Hn & Hlen) Hl. exists n. split; [done|]. split; [done|].
  unfold heap_set_next. rewrite Hn. simpl. rewrite arr_set_ok by lia. done.
Qed.

Lemma heap_laws_at cap : NodeMemLaws (gmap Z Node) (NM := heap_mem_at cap).
Proof.
  split; simpl.
  - intros h p l v Hp Hl. destruct (heap_set_next_ok cap h p l v Hp Hl) as (n & _ & _ & ->). eauto.
  - intros h p l v h' Hp Hl Hw.
    destruct (heap_set_next_ok cap h p l v Hp Hl) as (n & Hn & Hlen & He).
    rewrite He in Hw. injection Hw as <-. unfold heap_next. rewrite lookup_insert_eq. simpl.
    rewrite arr_get_set by lia. by rewrite decide_True.
  - intros h p l v h' q k Hp Hl Hw Hq Hk Hne.
    destruct (heap_set_next_ok cap h p l v Hp Hl) as (n & Hn & Hlen & He).
    rewrite He in Hw. injection Hw as <-. unfold heap_next.
    destruct (decide (q = p)) as [->|]; [|by rewrite lookup_insert_ne].
    rewrite lookup_insert_eq, Hn. simpl. rewrite arr_get_set by lia.
    rewrite decide_False; [done|]. congruence.
  - intros h p l v h' q Hp Hl Hw Hq.
    destruct (heap_set_next_ok cap h p l v Hp Hl) as (n & Hn & Hlen & He).
    rewrite He in Hw. injection Hw as <-. unfold heap_has, heap_key, heap_top.
    destruct (decide (q = p)) as [->|]; [|by rewrite lookup_insert_ne].
    rewrite lookup_insert_eq, Hn. simpl. destruct Hp as [Hp _]. split_and!; try done.
    eexists. split; [done|]. simpl. by rewrite length_insert.
  - intros h p [? _]. done.
Qed.

#[export] Instance heap_laws : NodeMemLaws (gmap Z Node) := heap_laws_at MAX_LEVEL.

(** ** The class *)

(** The sequential part of class [SkipList]: the members [head_node],
    [max_level], [lbound], [ubound], the heap, and the state of the C library's
    [rand], a source of values and a position in it. *)
Record SkipList := mkSL {
  heap : gmap Z Node;
  head_node : Z;
  max_level : Z;
  lbound : Z;
  ubound : Z;
  rand_src : nat -> Z;
  rand_pos : nat;
}.

Definition set_heap (st : SkipList) (h : gmap Z Node) : SkipList :=
  mkSL h (head_node st) (max_level st) (lbound st) (ubound st) (rand_src st) (rand_pos st).

(** [for (i = 1; i < cap; i++) if (size < (1 << i)) { max_level = i; break; }]
    from [i] on, with [n] iterations left. *)
Fixpoint level_for (size : Z) (i : Z) (n : nat) (dflt : Z) : Z :=
  match n with
  | O => dflt
  | S n' => if size <? Z.shiftl 1 i then i else level_for size (i + 1) n' dflt
  end.

Definition set_max_level (initsize : Z) (st : SkipList) : SkipList :=
  mkSL (heap st) (head_node st) (level_for initsize 1 (MAX_LEVEL - 1) (max_level st))
       (lbound st) (ubound st) (rand_src st) (rand_pos st).

(** The two sentinels of the constructors: [head_node] points to the tail at
    every level.  The keys are [ulong_t], so INT_MIN becomes 2^31. *)
Definition sentinels (head tail : Z) : gmap Z Node :=
  <[head := mkNode (u32 (- 2 ^ 31)) (Z.of_nat MAX_LEVEL) (replicate MAX_LEVEL (Some tail))]>
  (<[tail := mkNode INT_MAX (Z.of_nat MAX_LEVEL) (replicate MAX_LEVEL (Some 0))]> ∅).

(** [SkipList(l, u)]: [None] is the [exit(1)] on inverted bounds; [ts] is the
    content of [operation_timestamp], which the constructor leaves as it is.
    [SkipList()] is this constructor at KEY_LOWER_BOUND and KEY_UPPER_BOUND. *)
Definition SkipList_new (new_addr : gmap Z Node -> Z) (l u : Z) (rnd : nat -> Z) (ts : Z)
  : option (fc SkipList) :=
  if u <? l then None
  else
    let tail := new_addr ∅ in
    let tn := mkNode INT_MAX (Z.of_nat MAX_LEVEL) (replicate MAX_LEVEL (Some 0)) in
    let head := new_addr {[tail := tn]} in
    let size := s32 (u32 (u - l + 1)) in
    Some (mkFC ∅ 0 ts 0
      (mkSL (sentinels head tail) head
            (level_for size 1 (MAX_LEVEL - 1) (Z.of_nat MAX_LEVEL)) l u rnd 0)).

Definition in_bounds (st : SkipList) (k : Z) : bool :=
  (lbound st <=? k) && (k <=? ubound st).

(** [while (((x >>= 1) & 1) != 0) ++level;] *)
Fixpoint level_loop (fuel : nat) (x level : Z) : result Z :=
  match fuel with
  | O => NoFuel
  | S fuel' =>
      let x' := Z.shiftr x 1 in
      if Z.land x' 1 =? 0 then Ok level else level_loop fuel' x' (level + 1)
  end.

(** The level drawn from one value [r] of [rand()]. *)
Definition level_of_rand (maxl r : Z) : result Z :=
  let x := Z.rem r (Z.shiftl 1 maxl) in
  if negb (Z.land x 0x80000001 =? 0) then Ok 1
  else
    level ← level_loop 32 x 2;
    Ok (if u32 (maxl - 1) <? level then u32 (maxl - 1) else level).

Definition randomLevel (st : SkipList) : result (SkipList * Z) :=
  level ← level_of_rand (max_level st) (rand_src st (rand_pos st));
  Ok (mkSL (heap st) (head_node st) (max_level st) (lbound st) (ubound st)
           (rand_src st) (S (rand_pos st)), level).

Section operation.
Context (new_addr : gmap Z Node -> Z).

(** The request executed inside [flat_combine].  [preds] and [succs] are local
    arrays; a request reads only entries it has written. *)
Definition exec_op (st : SkipList) (op param : Z) : result (SkipList * Z) :=
  let h := heap st in
  '(found, preds, succs) ←
    find_levels (S (size h)) h (op =? CONTAINS_OP) param (Z.to_nat (max_level st))
      (head_node st) 0 (arr_new MAX_LEVEL) (arr_new MAX_LEVEL);
  if op =? CONTAINS_OP then
    Ok (st, if found =? 0 then 0 else 1)
  else if op =? ADD_OP then
    if found =? 0 then
      '(st1, top) ← randomLevel st;
      let new := new_addr h in
      let h1 := <[new := mkNode param top (arr_new MAX_LEVEL)]> h in
      h2 ← link_levels h1 new preds succs (seq 0 (Z.to_nat top));
      Ok (set_heap st1 h2, 1)
    else Ok (st, 0)
  else
    if found =? 0 then Ok (st, 0)
    else
      top ← heap_top h found;
      h1 ← unlink_levels h found preds (seq 0 (Z.to_nat top));
      Ok (set_heap st (delete found h1), 1).

(** The methods of the class: the slots, [flat_combine] with the request above
    as its body, and [fc_operation]. *)
Definition SkipList_ops : ObjOps SkipList := {| exec := exec_op |}.
Definition SkipList_enq_slot (st : fc SkipList) (slot : Z) : result (fc SkipList) :=
  enq_slot st slot.
Definition SkipList_flat_combine (fuel : nat) (st : fc SkipList) : result (fc SkipList) :=
  flat_combine (OO := SkipList_ops) fuel UNUSED_SLOT_THRESHOLD st.
Definition SkipList_fc_operation (fuel : nat) (st : fc SkipList) (op param slot : Z)
  : result (fc SkipList * Z) :=
  fc_operation (OO := SkipList_ops) fuel UNUSED_SLOT_THRESHOLD st op param slot.

End operation.

(** [~SkipList]: delete the nodes of level 0, the sentinels included. *)
Fixpoint sl_destroy (fuel : nat) (h : gmap Z Node) (curr : Z) : result (gmap Z Node) :=
  match fuel with
  | O => NoFuel
  | S fuel' =>
      if curr =? 0 then Ok h
      else
        nxt ← heap_next h curr 0;
        sl_destroy fuel' (delete curr h) nxt
  end.
Definition SkipList_destroy (st : SkipList) : result (gmap Z Node) :=
  sl_destroy (S (size (heap st))) (heap st) (head_node st).

(** [print]: the keys of every level from the top one down; the walk of a level
    stops at the tail sentinel, whose [next] is NULL. *)
Fixpoint print_level (fuel : nat) (h : gmap Z Node) (level : nat) (curr : Z) : result (list Z) :=
  match fuel with
  | O => NoFuel
  | S fuel' =>
      nxt ← heap_next h curr level;
      if nxt =? 0 then Ok []
      else
        k ← heap_key h curr;
        rest ← print_level fuel' h level nxt;
        Ok (k :: rest)
  end.
Fixpoint print_levels (h : gmap Z Node) (head : Z) (n : nat) : result (list (list Z)) :=
  match n with
  | O => Ok []
  | S level =>
      curr ← heap_next h head level;
      ks ← print_level (S (size h)) h level curr;
      rest ← print_levels h head level;
      Ok (ks :: rest)
  end.
Definition SkipList_print (st : SkipList) : result (list (list Z)) :=
  print_levels (heap st) (head_node st) (Z.to_nat (max_level st)).

(** ** Levels *)

Lemma level_loop_spec f : forall x level,
  0 <= x < 2 ^ Z.of_nat (S f) ->
  exists lv, level_loop (S f) x level = Ok lv /\ level <= lv.
Proof.
  induction f as [|f IH]; intros x level Hx; simpl level_loop.
  - change (2 ^ Z.of_nat 1) with 2 in Hx. rewrite Z.shiftr_div_pow2 by lia.
    change (2 ^ 1) with 2. rewrite Z.div_small by lia. simpl. exists level. split; [done|lia].
  - destruct (Z.land (Z.shiftr x 1) 1 =? 0) eqn:E; [exists level; split; [done|lia]|].
    destruct (IH (Z.shiftr x 1) (level + 1)) as (lv & Hlv & Hle).
    + rewrite Z.shiftr_div_pow2 by lia. change (2 ^ 1) with 2.
      rewrite (Nat2Z.inj_succ (S f)), Z.pow_succ_r in Hx by lia.
      split; [apply Z.div_pos; lia|apply Z.div_lt_upper_bound; lia].
    + exists lv. split; [exact Hlv|lia].
Qed.

(** The level of a new node: terminates, and lies between 1 and [maxl - 1]. *)
Lemma level_of_rand_spec maxl r :
  2 <= maxl <= 31 -> 0 <= r ->
  exists lv, level_of_rand maxl r = Ok lv /\ 1 <= lv <= maxl - 1.
Proof.
  intros Hm Hr. unfold level_of_rand. rewrite Z.shiftl_1_l, Z.rem_mod_nonneg by lia.
  set (x := r mod 2 ^ maxl).
  assert (Hx : 0 <= x < 2 ^ 32).
  { pose proof (Z.mod_pos_bound r (2 ^ maxl) ltac:(lia)).
    pose proof (Z.pow_le_mono_r 2 maxl 32 ltac:(lia) ltac:(lia)). unfold x; lia. }
  destruct (negb _); [exists 1; split; [done|lia]|].
  destruct (level_loop_spec 31 x 2 Hx) as (lv & Hlv & Hle).
  rewrite Hlv. simpl. eexists. split; [done|].
  rewrite u32_small by (unfold is_u32, u32_mod; lia).
  destruct (Z.ltb_spec (maxl - 1) lv); lia.
Qed.

Lemma level_for_spec size i n dflt :
  1 <= i ->
  (level_for size i n dflt = dflt /\ forall j, i <= j < i + Z.of_nat n -> 2 ^ j <= size) \/
  (i <= level_for size i n dflt < i + Z.of_nat n /\
   size < 2 ^ level_for size i n dflt /\
   forall j, i <= j < level_for size i n dflt -> 2 ^ j <= size).
Proof.
  revert i; induction n as [|n IH]; intros i Hi; cbn [level_for].
  - left. split; [done|]. intros; lia.
  - rewrite Z.shiftl_1_l. destruct (Z.ltb_spec size (2 ^ i)).
    + right. split; [lia|]. split; [done|]. intros; lia.
    + destruct (IH (i + 1) ltac:(lia)) as [[-> HA]|(HA & HB & HC)].
      * left. split; [done|]. intros j Hj. destruct (decide (j = i)) as [->|]; [lia|].
        apply HA. lia.
      * right. split; [lia|]. split; [done|]. intros j Hj.
        destruct (decide (j = i)) as [->|]; [lia|]. apply HC. lia.
Qed.

#[local] Arguments level_for : simpl never.

(** ** Refinement: the skip list implements a set of keys *)

Definition set_spec (S : gset Z) (op param : Z) : gset Z * Z :=
  if op =? CONTAINS_OP then (S, if decide (param ∈ S) then 1 else 0)
  else if op =? ADD_OP then
    if decide (param ∈ S) then (S, 0) else ({[param]} ∪ S, 1)
  else
    if decide (param ∈ S) then (S ∖ {[param]}, 1) else (S, 0).

(** Keys below the sentinel's. *)
Definition set_legal (S : gset Z) (op param : Z) : Prop := 0 <= param < INT_MAX.

Definition sl_ref (S : gset Z) (st : SkipList) : Prop :=
  exists tail ns,
    skip_inv (heap st) (head_node st) tail INT_MAX (Z.to_nat (max_level st)) ns /\
    S = skip_set ns /\ 2 <= max_level st <= 14 /\ (forall i, 0 <= rand_src st i).

Lemma inv_fuel h head tail tkey maxl ns :
  skip_inv h head tail tkey maxl ns -> (length ns < S (size h))%nat.
Proof.
  intros Hinv. pose proof (si_nodup _ _ _ _ _ _ Hinv) as Hnd.
  do 2 apply NoDup_cons in Hnd as [_ Hnd].
  rewrite <- (length_fmap s_ptr ns). apply Nat.lt_succ_r, NoDup_dom_size; [done|].
  intros p Hp. pose proof (si_nodes _ _ _ _ _ _ Hinv) as Hn. rewrite Forall_forall in Hn.
  destruct (Hn p ltac:(set_solver)) as (_ & n & -> & _). eauto.
Qed.

Section refine.
Context (new_addr : gmap Z Node -> Z).
Context (new_addr_ok : forall h, new_addr h <> 0 /\ h !! new_addr h = None).

(** The search of [exec_op], on a list that satisfies the invariant. *)
Lemma exec_find st tail ns brk param :
  skip_inv (heap st) (head_node st) tail INT_MAX (Z.to_nat (max_level st)) ns ->
  1 <= max_level st <= 14 -> param < INT_MAX ->
  exists preds succs,
    find_levels (S (size (heap st))) (heap st) brk param (Z.to_nat (max_level st))
      (head_node st) 0 (arr_new MAX_LEVEL) (arr_new MAX_LEVEL)
    = Ok (match_ptr param (highs param ns), preds, succs) /\
    (brk = false \/ match_ptr param (highs param ns) = 0 ->
     (forall l, (l < Z.to_nat (max_level st))%nat ->
        arr_get preds l = Ok (pred_at (head_node st) l (lows param ns))) /\
     (forall l, (l < Z.to_nat (max_level st))%nat ->
        arr_get succs l = Ok (succ_at tail l (highs param ns)))).
Proof.
  intros Hinv Hm Hp.
  destruct (find_levels_spec (heap st) (head_node st) tail INT_MAX _ ns Hinv param Hp
    (S (size (heap st))) brk (Z.to_nat (max_level st)) (head_node st) 0
    (arr_new MAX_LEVEL) (arr_new MAX_LEVEL)) as (f & p & s & Hrun & Hf & Harr);
    rewrite ?length_arr_new; try (simpl; unfold MAX_LEVEL; lia); auto.
  { by eapply inv_fuel. }
  destruct (Z.to_nat (max_level st)) as [|n] eqn:En; [lia|]. subst f.
  exists p, s. split; [done|]. intros Hb. destruct (Harr Hb) as (HP & HS & _). done.
Qed.

(** A node allocated at a fresh address leaves the list as it is. *)
Lemma inv_alloc h head tail tkey maxl ns new n :
  skip_inv h head tail tkey maxl ns -> h !! new = None ->
  skip_inv (<[new := n]> h) head tail tkey maxl ns /\
  new ∉ head :: tail :: (s_ptr <$> ns).
Proof.
  intros Hinv Hnew. pose proof (si_nodes _ _ _ _ _ _ Hinv) as Hn. rewrite Forall_forall in Hn.
  assert (Hne : forall q, q ∈ head :: tail :: (s_ptr <$> ns) -> new <> q).
  { intros q Hq <-. destruct (Hn _ Hq) as (_ & ? & ? & _). congruence. }
  split; [|by intros H%Hne]. eapply skip_inv_frame; [done|]. intros q Hq.
  simpl. unfold heap_has, heap_key, heap_top, heap_next.
  rewrite lookup_insert_ne by auto. split_and!; try done; by apply Hn.
Qed.

(** A node that is not in the list can be deleted. *)
Lemma inv_delete h head tail tkey maxl ns p :
  skip_inv h head tail tkey maxl ns -> p ∉ head :: tail :: (s_ptr <$> ns) ->
  skip_inv (delete p h) head tail tkey maxl ns.
Proof.
  intros Hinv Hp. pose proof (si_nodes _ _ _ _ _ _ Hinv) as Hn. rewrite Forall_forall in Hn.
  eapply skip_inv_frame; [done|]. intros q Hq.
  simpl. unfold heap_has, heap_key, heap_top, heap_next.
  rewrite lookup_delete_ne by (intros ->; done). split_and!; try done; by apply Hn.
Qed.

Lemma exec_op_refines S st op param :
  sl_ref S st -> set_legal S op param ->
  exists st', exec_op new_addr st op param = Ok (st', (set_spec S op param).2) /\
              sl_ref (set_spec S op param).1 st'.
Proof.
  intros (tail & ns & Hinv & -> & Hm & Hrnd) [Hp0 Hp].
  destruct (exec_find st tail ns (op =? CONTAINS_OP) param Hinv ltac:(lia) Hp)
    as (preds & succs & Hfind & Harr).
  unfold exec_op. rewrite Hfind. cbn [mbind result_bind]. unfold set_spec.
  assert (Hsame : sl_ref (skip_set ns) st) by (exists tail, ns; auto).
  destruct (match_ptr_cases _ _ _ _ _ _ Hinv param)
    as [[Hnin Hz]|(f & hi' & Ehi & Hkf & Hnz & Hmf & Hin)].
  - rewrite Hz. rewrite Z.eqb_refl, !(decide_False (P := param ∈ _)) by done.
    destruct (op =? CONTAINS_OP); [eauto|]. destruct (op =? ADD_OP); [|eauto].
    destruct (Harr (or_intror Hz)) as [HP HS].
    destruct (level_of_rand_spec (max_level st) (rand_src st (rand_pos st)) ltac:(lia) (Hrnd _))
      as (lv & Hlv & Hb).
    unfold randomLevel. rewrite Hlv. simpl.
    destruct (new_addr_ok (heap st)) as [Hna Hnone].
    destruct (inv_alloc (heap st) _ _ _ _ _ (new_addr (heap st))
                (mkNode param lv (arr_new MAX_LEVEL)) Hinv Hnone) as [Hinv1 Hfresh].
    destruct (skip_insert _ _ _ _ _ _ Hinv1 param (new_addr (heap st))
                (Z.to_nat lv) preds succs) as (h2 & Hrun & _ & Hinv2).
    + done.
    + by rewrite <- elem_of_skip_set.
    + split; [done|]. eexists. split; [apply lookup_insert_eq|]. cbn [next]. by rewrite length_arr_new.
    + done.
    + simpl. unfold heap_key. by rewrite lookup_insert_eq.
    + simpl. unfold heap_top. rewrite lookup_insert_eq. simpl. f_equal. lia.
    + lia.
    + intros l Hl. apply HP. lia.
    + intros l Hl. apply HS. lia.
    + rewrite Hrun. simpl. eexists. split; [done|]. exists tail; eexists; simpl.
      split; [exact Hinv2|]. split; [|done]. symmetry. by eapply skip_set_insert.
  - rewrite Hmf. rewrite (proj2 (Z.eqb_neq _ 0) Hnz), !(decide_True (P := param ∈ _)) by done.
    destruct (op =? CONTAINS_OP) eqn:Eop; [eauto|]. destruct (op =? ADD_OP); [eauto|].
    destruct (Harr (or_introl eq_refl)) as [HP _].
    destruct (hi_head_facts _ _ _ _ _ _ Hinv param f hi' Ehi) as (_ & Hr & _ & Htop & Hnf).
    simpl in Htop. rewrite Htop. simpl.
    destruct (skip_remove _ _ _ _ _ _ Hinv param f hi' preds (seq 0 (s_top f)))
      as (h1 & Hrun & _ & Hinv1); [done|apply NoDup_seq| | |].
    + intros l. rewrite elem_of_seq. lia.
    + intros l Hl. apply HP. lia.
    + rewrite Nat2Z.id, Hrun. simpl. eexists. split; [done|]. exists tail; eexists; simpl.
      split; [by apply inv_delete|]. split; [|done]. symmetry. by eapply skip_set_remove.
Qed.

End refine.

(** What [exec_op] promises to [flat_combine]. *)
Program Definition sl_object (new_addr : gmap Z Node -> Z)
    (ok : forall h, new_addr h <> 0 /\ h !! new_addr h = None)
  : SeqObj SkipList (gset Z) (OO := SkipList_ops new_addr) := {|
  obj_ref := sl_ref;
  obj_spec := set_spec;
  legal := set_legal;
|}.
Next Obligation. intros new_addr ok S st op param. by apply exec_op_refines. Qed.

(** ** Constructors and [set_max_level] *)

Lemma sentinels_inv head tail maxl :
  head <> 0 -> tail <> 0 -> head <> tail -> (maxl <= MAX_LEVEL)%nat ->
  skip_inv (sentinels head tail) head tail INT_MAX maxl [].
Proof.
  intros Hh Ht Hne Hm. unfold sentinels.
  split; simpl; try (by constructor); try done.
  - intros l Hl. unfold heap_next. rewrite lookup_insert_eq. simpl. unfold arr_get.
    by rewrite (lookup_replicate_2 MAX_LEVEL).
  - unfold heap_key. rewrite lookup_insert_ne, lookup_insert_eq by done. done.
  - apply NoDup_cons. split; [set_solver|]. apply NoDup_singleton.
  - rewrite !Forall_cons. split_and!; [..|done]; split; try done; eexists.
    + rewrite lookup_insert_eq. done.
    + rewrite lookup_insert_ne, lookup_insert_eq by done. done.
Qed.

Lemma level_for_ge2 size n dflt : 2 <= size -> 2 <= dflt -> 2 <= level_for size 1 n dflt.
Proof.
  intros Hs Hd. destruct (level_for_spec size 1 n dflt ltac:(lia)) as [[-> _]|(H1 & H2 & _)].
  - done.
  - destruct (decide (level_for size 1 n dflt = 1)) as [E|]; [|lia].
    rewrite E in H2. lia.
Qed.

Lemma level_for_le size n dflt :
  dflt <= 1 + Z.of_nat n -> level_for size 1 n dflt <= 1 + Z.of_nat n.
Proof.
  intros Hd. destruct (level_for_spec size 1 n dflt ltac:(lia)) as [[-> _]|(H1 & _)]; lia.
Qed.

Lemma SkipList_new_ref new_addr l u rnd ts st :
  (forall h : gmap Z Node, new_addr h <> 0 /\ h !! new_addr h = None) ->
  (forall i, 0 <= rnd i) -> 0 <= l -> l < u < INT_MAX ->
  SkipList_new new_addr l u rnd ts = Some st ->
  sl_ref ∅ (obj st) /\ tail_slot st = 0 /\ slots st = ∅.
Proof.
  intros Hok Hr Hl Hu. unfold SkipList_new. destruct (Z.ltb_spec u l); [lia|].
  unfold INT_MAX in Hu. rewrite u32_small by (unfold is_u32, u32_mod; lia).
  rewrite s32_small by lia. cbv zeta.
  assert (Hlv : 2 <= level_for (u - l + 1) 1 (MAX_LEVEL - 1) (Z.of_nat MAX_LEVEL) <= 14).
  { split; [apply level_for_ge2; unfold MAX_LEVEL; lia|].
    apply (level_for_le _ (MAX_LEVEL - 1)). done. }
  revert Hlv. generalize (level_for (u - l + 1) 1 (MAX_LEVEL - 1) (Z.of_nat MAX_LEVEL)).
  intros lv Hlv [= <-]. split; [|done]. simpl.
  set (tail := new_addr ∅). set (head := new_addr _).
  exists tail, []. simpl. split_and!; try done; try lia.
  apply sentinels_inv; [apply Hok..| |unfold MAX_LEVEL; lia].
  intros E. destruct (Hok {[tail := mkNode INT_MAX (Z.of_nat MAX_LEVEL)
                                      (replicate MAX_LEVEL (Some 0))]}) as [_ Hn].
  fold head in Hn. rewrite E, lookup_singleton_eq in Hn. done.
Qed.

(** Growing or shrinking [max_level] keeps the list, as long as no node is
    higher than the new value. *)
Lemma set_max_level_ref S st initsize :
  sl_ref S st -> 2 <= initsize -> max_level st <= max_level (set_max_level initsize st) ->
  sl_ref S (set_max_level initsize st).
Proof.
  intros (tail & ns & Hinv & -> & Hm & Hr) Hi Hle. exists tail, ns.
  unfold set_max_level in *. cbn [max_level heap head_node rand_src] in *.
  assert (Hlv : 2 <= level_for initsize 1 (MAX_LEVEL - 1) (max_level st) <= 14).
  { split; [apply level_for_ge2; lia|].
    apply (level_for_le _ (MAX_LEVEL - 1)). unfold MAX_LEVEL. lia. }
  revert Hle Hlv. generalize (level_for initsize 1 (MAX_LEVEL - 1) (max_level st)).
  intros lv Hle Hlv. split_and!; try done; try lia.
  destruct Hinv as [Hc Hk Ht Htl HS Hb Htp Hnd Hn Hmx]. split; try done.
  - eapply Forall_impl; [exact Htp|]. simpl. intros; lia.
  - change (Z.to_nat lv <= 14)%nat. lia.
Qed.

(** ** The partitioned list *)

(** class [PartSkipList]: the partition size and the lists. *)
Record PartSkipList := mkPart {
  min_key : Z;
  max_key : Z;
  num_partitions : Z;
  partition_size : Z;
  parts : list (fc SkipList);
}.

Definition part_size (lo hi n : Z) : Z := u32 (hi - lo + 1) / n.
Definition part_lo (lo ps i : Z) : Z := u32 (ps * i + lo).
Definition part_hi (lo ps i : Z) : Z := u32 (ps * (i + 1) + lo - 1).

(** The constructor's loop over the partitions; [ts] and [rnd] give the initial
    contents of the members a [SkipList] does not initialise. *)
Definition PartSkipList_new (new_addr : gmap Z Node -> Z) (lo hi : Z) (n : nat)
    (rnd : nat -> nat -> Z) (ts : nat -> Z) : option PartSkipList :=
  let ps := part_size lo hi (Z.of_nat n) in
  ls ← mapM (fun i => SkipList_new new_addr (part_lo lo ps (Z.of_nat i))
                        (part_hi lo ps (Z.of_nat i)) (rnd i) (ts i)) (seq 0 n);
  Some (mkPart lo hi (Z.of_nat n) ps ls).

Definition Part_set_max_level (initsize : Z) (p : PartSkipList) : PartSkipList :=
  mkPart (min_key p) (max_key p) (num_partitions p) (partition_size p)
    ((fun st => mkFC (slots st) (tail_slot st) (operation_timestamp st) (combine_cas st)
                     (set_max_level initsize (obj st))) <$> parts p).

(** [fc_operation] of the partitioned list: [parts[part_id]->fc_operation(...)]. *)
Definition Part_fc_operation (new_addr : gmap Z Node -> Z) (fuel : nat) (p : PartSkipList)
    (op param : Z) (part_id : nat) (slot : Z) : result (PartSkipList * Z) :=
  st ← of_opt (parts p !! part_id);
  '(st', r) ← SkipList_fc_operation new_addr fuel st op param slot;
  Ok (mkPart (min_key p) (max_key p) (num_partitions p) (partition_size p)
             (<[part_id := st']> (parts p)), r).

(** The partition a key belongs to, as main.cc computes it. *)
Definition part_of (lo hi n k : Z) : Z := u32 (k - lo) / part_size lo hi n.

(** ** Properties *)

(** FCSkipList.hh implements a set under flat combining: [flat_combine] on a
    well-formed slot list returns, executes every valid request once and in list
    order with the answers of a set of keys (contains, add, remove), never
    touches a freed or absent node, and keeps the slot list and all levels of
    the skip list well formed. *)
Theorem skiplist_flat_combine_set (new_addr : gmap Z Node -> Z)
    (ok : forall h, new_addr h <> 0 /\ h !! new_addr h = None) S st ids fuel :
  slot_chain (slots st) (tail_slot st) ids -> NoDup ids -> (length ids < fuel)%nat ->
  sl_ref S (obj st) ->
  (forall i s, i ∈ ids -> slots st !! i = Some s -> 0 <= parameter s < INT_MAX) ->
  exists st' ids',
    SkipList_flat_combine new_addr fuel st = Ok st' /\
    sl_ref (serve set_spec S (slots st) ids).1 (obj st') /\
    slot_chain (slots st') (tail_slot st') ids' /\ ids' `sublist_of` ids /\
    forall i, i ∈ ids -> exists s s', slots st !! i = Some s /\ slots st' !! i = Some s' /\
      slot_post (serve set_spec S (slots st) ids).2 (bool_decide (i ∈ ids')) i s s'.
Proof.
  intros Hc Hnd Hf Href Hpar.
  apply (flat_combine_served (SO := sl_object new_addr ok) UNUSED_SLOT_THRESHOLD S st ids fuel); try done.
  clear -Hpar. revert S. induction ids as [|i ids IH]; intros S; simpl; [done|].
  assert (IH' : forall S, serve_legal set_spec set_legal S (slots st) ids).
  { apply IH. intros j s Hj. apply Hpar. set_solver. }
  destruct (slots st !! i) as [s|] eqn:E; [|done]. destruct (is_request_valid s); [|done].
  split; [|done]. eapply Hpar; [|exact E]. set_solver.
Qed.

(** A client's view of FCSkipList.hh: construct a list for the keys [l] to
    [u], give every thread a fresh slot, and perform any sequence of requests by
    [fc_operation]: every call returns, and the answers are those of a set of
    keys that starts empty. *)
Theorem skiplist_history_set (new_addr : gmap Z Node -> Z) l u rnd ts st slots0 reqs fuel :
  (forall h, new_addr h <> 0 /\ h !! new_addr h = None) ->
  (forall i, 0 <= rnd i) -> 0 <= l -> l < u < INT_MAX ->
  SkipList_new new_addr l u rnd ts = Some st ->
  map_Forall (fun _ s => s = SlotInfo_new) slots0 ->
  (forall op param i, (op, param, i) ∈ reqs ->
     0 <= param < INT_MAX /\ i <> 0 /\ is_Some (slots0 !! i)) ->
  (length reqs < fuel)%nat ->
  exists st', fc_run (OO := SkipList_ops new_addr) fuel UNUSED_SLOT_THRESHOLD
                (upd_slots st slots0) reqs = Ok (st', (spec_run set_spec ∅ reqs).2) /\
    sl_ref (spec_run set_spec ∅ reqs).1 (obj st').
Proof.
  intros ok Hr Hl Hu Hnew Hfresh Hreqs Hf.
  destruct (SkipList_new_ref new_addr l u rnd ts st ok Hr Hl Hu Hnew) as (Href & Htl & _).
  assert (Hcas : combine_cas st = 0).
  { unfold SkipList_new in Hnew. destruct (u <? l); by simplify_eq. }
  destruct (fc_run_spec (SO := sl_object new_addr ok) UNUSED_SLOT_THRESHOLD reqs fuel ∅
              (upd_slots st slots0) []) as (st' & ids' & Hrun & _ & Href'); try done.
  - destruct st; simpl in *; subst. by apply quiet_new.
  - simpl. clear -Hreqs. generalize (∅ : gset Z).
    induction reqs as [|[[op param] i] reqs IH]; intros S; simpl; [done|].
    split; [apply (Hreqs op param i); set_solver|]. apply IH. intros; apply (Hreqs op0); set_solver.
  - intros op param i Hin. destruct (Hreqs op param i Hin). done.
  - eauto.
Qed.

(** One request on the skip list: for every key below the tail sentinel's,
    the search, the linking of a node at a random level and the unlinking and
    deletion of a found node return and refine the operation on the set. *)
Theorem skiplist_request_refines (new_addr : gmap Z Node -> Z) S st op param :
  (forall h, new_addr h <> 0 /\ h !! new_addr h = None) ->
  sl_ref S st -> 0 <= param < INT_MAX ->
  exists st', exec_op new_addr st op param = Ok (st', (set_spec S op param).2) /\
              sl_ref (set_spec S op param).1 st'.
Proof. intros Hok Href Hp. by apply exec_op_refines. Qed.

(** The constructor builds an empty set with no linked slot, and
    [set_max_level] keeps the set when it does not lower [max_level]. *)
Theorem skiplist_new_empty (new_addr : gmap Z Node -> Z) l u rnd ts st initsize :
  (forall h, new_addr h <> 0 /\ h !! new_addr h = None) ->
  (forall i, 0 <= rnd i) -> 0 <= l -> l < u < INT_MAX ->
  SkipList_new new_addr l u rnd ts = Some st ->
  sl_ref ∅ (obj st) /\ slot_chain (slots st) (tail_slot st) [] /\
  (2 <= initsize -> max_level (obj st) <= max_level (set_max_level initsize (obj st)) ->
   sl_ref ∅ (set_max_level initsize (obj st))).
Proof.
  intros Hok Hr Hl Hu Hst.
  destruct (SkipList_new_ref new_addr l u rnd ts st Hok Hr Hl Hu Hst) as (Href & Ht & _).
  split; [done|]. split; [done|]. by apply set_max_level_ref.
Qed.

(** [randomLevel] terminates and returns a level between 1 and
    [max_level - 1], whatever [rand] returns. *)
Theorem randomLevel_bounds st :
  2 <= max_level st <= 14 -> 0 <= rand_src st (rand_pos st) ->
  exists st' lv, randomLevel st = Ok (st', lv) /\ 1 <= lv <= max_level st - 1 /\
    heap st' = heap st.
Proof.
  intros Hm Hr. destruct (level_of_rand_spec (max_level st) _ ltac:(lia) Hr) as (lv & Hlv & Hb).
  unfold randomLevel. rewrite Hlv. simpl. eauto.
Qed.

(** With [max_level] 1 (a list of at most one initial key), an even value of
    [rand] gives level 0: the add answers TRUE but links the node nowhere, and a
    contains that follows answers FALSE. *)
Theorem add_lost_at_level_one (new_addr : gmap Z Node -> Z) st tail ns param :
  (forall h, new_addr h <> 0 /\ h !! new_addr h = None) ->
  skip_inv (heap st) (head_node st) tail INT_MAX 1 ns -> max_level st = 1 ->
  0 <= rand_src st (rand_pos st) -> Z.even (rand_src st (rand_pos st)) = true ->
  0 <= param < INT_MAX -> param ∉ skip_keys ns ->
  exists st', exec_op new_addr st ADD_OP param = Ok (st', 1) /\
              exec_op new_addr st' CONTAINS_OP param = Ok (st', 0).
Proof.
  intros Hok Hinv Hm Hr He [Hp0 Hp] Hnin.
  assert (Hz : match_ptr param (highs param ns) = 0) by by apply (match_ptr_zero _ _ _ _ _ _ Hinv).
  replace 1%nat with (Z.to_nat (max_level st)) in Hinv by (rewrite Hm; done).
  destruct (exec_find st tail ns false param Hinv ltac:(lia) Hp) as (preds & succs & Hf & _).
  unfold exec_op at 1. change (ADD_OP =? CONTAINS_OP) with false. rewrite Hf. simpl. rewrite Hz. simpl.
  assert (Hlv : level_of_rand (max_level st) (rand_src st (rand_pos st)) = Ok 0).
  { unfold level_of_rand. rewrite Hm. change (Z.shiftl 1 1) with 2.
    rewrite Z.rem_mod_nonneg by lia. rewrite Zmod_even, He. done. }
  unfold randomLevel. rewrite Hlv. simpl. eexists. split; [done|].
  destruct (inv_alloc (heap st) _ _ _ _ _ (new_addr (heap st))
              (mkNode param 0 (arr_new MAX_LEVEL)) Hinv (proj2 (Hok _))) as [Hinv1 _].
  set (st1 := set_heap _ _).
  destruct (exec_find st1 tail ns true param Hinv1 ltac:(unfold st1; simpl; lia) Hp) as (p1 & s1 & Hf1 & _).
  unfold exec_op. change (CONTAINS_OP =? CONTAINS_OP) with true. rewrite Hf1. simpl. by rewrite Hz.
Qed.

(** The partitions tile the keys [lo], ..., [lo + n * size - 1]: such a key
    falls in the partition [part_of] names, within its bounds, and in no other. *)
Theorem partition_unique lo hi n k i :
  0 <= lo -> lo <= hi < INT_MAX -> 0 < n <= hi - lo + 1 ->
  lo <= k < lo + n * part_size lo hi n -> 0 <= i < n ->
  (part_lo lo (part_size lo hi n) i <= k <= part_hi lo (part_size lo hi n) i <->
   i = part_of lo hi n k).
Proof.
  unfold INT_MAX, part_of, part_lo, part_hi. intros Hlo Hhi Hn Hk Hi.
  set (ps := part_size lo hi n) in *.
  assert (Hps : 0 < ps /\ n * ps <= hi - lo + 1).
  { unfold ps, part_size. rewrite u32_small by (unfold is_u32, u32_mod; lia).
    split; [apply Z.div_str_pos; lia|]. apply Z.mul_div_le. lia. }
  assert (ps * i + ps <= n * ps) by nia.
  rewrite !u32_small by (unfold is_u32, u32_mod; nia).
  split; intros H'.
  - apply Z.div_unique_pos with (r := k - lo - ps * i); lia.
  - subst i. pose proof (Z.mul_div_le (k - lo) ps ltac:(lia)).
    pose proof (Z.mul_succ_div_gt (k - lo) ps ltac:(lia)). lia.
Qed.

(** Every key between the bounds has a partition exactly when the number of
    partitions divides the number of keys; otherwise the partition computed for
    the largest key is past the end of [parts]. *)
Theorem partition_covers_iff lo hi n :
  0 <= lo -> lo <= hi < INT_MAX -> 0 < n <= hi - lo + 1 ->
  ((forall k, lo <= k <= hi -> part_of lo hi n k < n) <-> (hi - lo + 1) mod n = 0).
Proof.
  unfold INT_MAX, part_of. intros Hlo Hhi Hn.
  set (ps := part_size lo hi n) in *.
  assert (Hps : ps = (hi - lo + 1) / n /\ 0 < ps).
  { unfold ps, part_size. rewrite u32_small by (unfold is_u32, u32_mod; lia).
    split; [done|]. apply Z.div_str_pos; lia. }
  pose proof (Z.div_mod (hi - lo + 1) n ltac:(lia)) as Hdm.
  pose proof (Z.mod_pos_bound (hi - lo + 1) n ltac:(lia)).
  destruct Hps as [Hps Hpos]. rewrite <- Hps in Hdm. split.
  - intros Hall. specialize (Hall hi ltac:(lia)).
    rewrite u32_small in Hall by (unfold is_u32, u32_mod; lia).
    pose proof (Z.mul_succ_div_gt (hi - lo) ps ltac:(lia)).
    destruct (decide ((hi - lo + 1) mod n = 0)); [done|nia].
  - intros Hz k Hk. rewrite u32_small by (unfold is_u32, u32_mod; lia).
    apply Z.div_lt_upper_bound; nia.
Qed.

(** ** Instances of the properties *)

(** A list for the keys 0 to 100; every value of [rand] is 6. *)
Definition demo_list : SkipList :=
  mkSL (sentinels 2 1) 2 7 0 100 (fun _ => 6) 0.

Lemma demo_list_ref : sl_ref ∅ demo_list.
Proof.
  exists 1, []. split; [apply sentinels_inv; unfold MAX_LEVEL; simpl; lia|]. done.
Qed.

Definition demo_requests : gmap Z SlotInfo :=
  <[1 := mkSlot true ADD_OP 30 0 0 true 2]>
  (<[2 := mkSlot true ADD_OP 20 0 0 true 3]>
  (<[3 := mkSlot true REMOVE_OP 30 0 0 true 4]>
  (<[4 := mkSlot true CONTAINS_OP 20 0 0 true 0]> ∅))).

Lemma skiplist_flat_combine_set_witness :
  exists st', SkipList_flat_combine next_free 5
      (mkFC demo_requests 1 0 LOCKED_CAS demo_list) = Ok st' /\ sl_ref {[20]} (obj st').
Proof.
  destruct (skiplist_flat_combine_set next_free next_free_ok ∅
              (mkFC demo_requests 1 0 LOCKED_CAS demo_list) [1; 2; 3; 4] 5)
    as (st' & ids' & Hrun & Href & _).
  - slot_chain_eval.
  - NoDup_eval.
  - simpl; lia.
  - exact demo_list_ref.
  - intros i s Hi Hs.
    repeat (apply elem_of_cons in Hi as [->|Hi];
      [vm_compute in Hs; injection Hs as <-; vm_compute; split; [discriminate|reflexivity]|]).
    by apply elem_of_nil in Hi.
  - exists st'. split; [exact Hrun|].
    replace ({[20]} : gset Z) with
      (serve set_spec (∅ : gset Z) demo_requests [1; 2; 3; 4]).1
      by (vm_compute; reflexivity).
    exact Href.
Defined.

Lemma skiplist_history_set_witness :
  match SkipList_new next_free 0 100 (fun _ => 6) 0 with
  | Some st =>
      exists st', fc_run (OO := SkipList_ops next_free) 5 UNUSED_SLOT_THRESHOLD
        (upd_slots st {[7 := SlotInfo_new]})
        [(ADD_OP, 30, 7); (ADD_OP, 30, 7); (CONTAINS_OP, 30, 7); (REMOVE_OP, 30, 7)]
      = Ok (st', [1; 0; 1; 1])
  | None => False
  end.
Proof.
  destruct (SkipList_new next_free 0 100 (fun _ => 6) 0) as [st|] eqn:E;
    [|vm_compute in E; discriminate E].
  destruct (skiplist_history_set next_free 0 100 (fun _ => 6) 0 st {[7 := SlotInfo_new]}
    [(ADD_OP, 30, 7); (ADD_OP, 30, 7); (CONTAINS_OP, 30, 7); (REMOVE_OP, 30, 7)] 5)
    as (st' & Hrun & _).
  - exact next_free_ok.
  - intros _. lia.
  - lia.
  - vm_compute. split; reflexivity.
  - exact E.
  - apply map_Forall_singleton. reflexivity.
  - intros op param i Hin.
    repeat (apply elem_of_cons in Hin as [[= -> -> ->]|Hin];
      [split; [vm_compute; split; [discriminate|reflexivity]|split; [discriminate|];
               exists SlotInfo_new; reflexivity]|]).
    by apply elem_of_nil in Hin.
  - simpl; lia.
  - exists st'. exact Hrun.
Defined.

Lemma skiplist_request_refines_witness :
  exists st', exec_op next_free demo_list ADD_OP 30 = Ok (st', 1) /\ sl_ref {[30]} st'.
Proof.
  destruct (skiplist_request_refines next_free ∅ demo_list ADD_OP 30)
    as (st' & Hrun & Href).
  - exact next_free_ok.
  - exact demo_list_ref.
  - vm_compute. split; [discriminate|reflexivity].
  - exists st'. split; [exact Hrun|].
    replace ({[30]} : gset Z) with (set_spec ∅ ADD_OP 30).1 by (vm_compute; reflexivity).
    exact Href.
Defined.

Lemma skiplist_new_empty_witness :
  match SkipList_new next_free 0 100 (fun _ => 6) 0 with
  | Some st => sl_ref ∅ (obj st)
  | None => False
  end.
Proof.
  destruct (SkipList_new next_free 0 100 (fun _ => 6) 0) as [st|] eqn:E;
    [|vm_compute in E; discriminate E].
  apply (skiplist_new_empty next_free 0 100 (fun _ => 6) 0 st 50 next_free_ok).
  - intros _. lia.
  - lia.
  - vm_compute. split; reflexivity.
  - exact E.
Defined.

Lemma randomLevel_bounds_witness :
  exists st' lv, randomLevel demo_list = Ok (st', lv) /\ 1 <= lv <= 6.
Proof.
  destruct (randomLevel_bounds demo_list) as (st' & lv & Hrun & Hb & _).
  - simpl; lia.
  - simpl; lia.
  - exists st', lv. split; [exact Hrun|exact Hb].
Defined.

Definition one_level_list : SkipList := mkSL (sentinels 2 1) 2 1 5 5 (fun _ => 6) 0.

Lemma add_lost_at_level_one_witness :
  exists st', exec_op next_free one_level_list ADD_OP 5 = Ok (st', 1) /\
              exec_op next_free st' CONTAINS_OP 5 = Ok (st', 0).
Proof.
  apply (add_lost_at_level_one next_free one_level_list 1 [] 5 next_free_ok).
  - apply sentinels_inv; unfold MAX_LEVEL; simpl; lia.
  - reflexivity.
  - simpl; lia.
  - reflexivity.
  - vm_compute. split; [discriminate|reflexivity].
  - apply not_elem_of_nil.
Defined.

Lemma partition_unique_witness :
  part_lo 0 (part_size 0 7 4) 1 <= 3 <= part_hi 0 (part_size 0 7 4) 1 <-> 1 = part_of 0 7 4 3.
Proof.
  apply (partition_unique 0 7 4 3 1);
    try (vm_compute; split; try discriminate; reflexivity); lia.
Defined.

Lemma partition_covers_iff_witness :
  ~ (forall k, 0 <= k <= 9 -> part_of 0 9 3 k < 3).
Proof.
  assert (Hn : (9 - 0 + 1) mod 3 <> 0) by (vm_compute; discriminate).
  intros H. apply Hn, (partition_covers_iff 0 9 3); [lia|vm_compute; split; [discriminate|reflexivity]|lia|].
  exact H.
Defined.
