(* ===== verification/FCQueues.v ===== *)
(** * The flat-combining queues of the host

    Models src/SMC/SW/HOST/app/multithread_fc_q: FCQueue.hh and
    FCArrayQueue.hh, whose single [flat_combine] executes pushes and pops, and
    DoubleFCQueue.hh and DoubleFCArrayQueue.hh, with one combiner for the
    enqueues and one for the dequeues.  The linked queues keep their nodes in a
    heap of objects, the array queues in a ring of MAX_INDEX cells. *)

From S2P Require Import Prelude FlatCombining.

Definition POP_OP : Z := 1.
Definition PUSH_OP : Z := 2.

(** ** Linked queue: nodes and operations *)

(** [struct QNode] *)
Record QNode := mkQ { q_next : Z; q_val : Z }.

(** The members [head_node], [tail_node], [q_size] and the heap. *)
Record lqueue := mkLQ {
  qheap : gmap Z QNode;
  q_head : Z;
  q_tail : Z;
  q_size : Z;
}.

(** [Queue::Queue()] *)
Definition Queue_new : lqueue := mkLQ ∅ 0 0 0.

Section linked.
Context (new_addr : gmap Z QNode -> Z).

(** The push branch: [new QNode(param)], linked behind [tail_node], or made the
    head if [q_size++ == 0]. *)
Definition q_push (st : lqueue) (param : Z) : result (lqueue * Z) :=
  let new := new_addr (qheap st) in
  let h1 := <[new := mkQ 0 param]> (qheap st) in
  if q_size st =? 0 then
    Ok (mkLQ h1 new new (u32 (q_size st + 1)), s32 param)
  else
    t ← of_opt (h1 !! q_tail st);
    Ok (mkLQ (<[q_tail st := mkQ new (q_val t)]> h1) (q_head st) new
             (u32 (q_size st + 1)), s32 param).

(** The pop branch of FCQueue.hh. *)
Definition q_pop (st : lqueue) : result (lqueue * Z) :=
  if q_size st =? 0 then Ok (st, 0)
  else
    n ← of_opt (qheap st !! q_head st);
    let size' := u32 (q_size st - 1) in
    Ok (mkLQ (delete (q_head st) (qheap st)) (q_next n)
             (if size' =? 0 then 0 else q_tail st) size', s32 (q_val n)).

(** The operation executed by [flat_combine] of FCQueue.hh. *)
Definition q_exec (st : lqueue) (op param : Z) : result (lqueue * Z) :=
  if op =? PUSH_OP then q_push st param else q_pop st.

(** The pop of DoubleFCQueue.hh: no test of [q_size], which it leaves as it is. *)
Definition dq_pop (st : lqueue) : result (lqueue * Z) :=
  n ← of_opt (qheap st !! q_head st);
  Ok (mkLQ (delete (q_head st) (qheap st)) (q_next n) (q_tail st) (q_size st),
      s32 (q_val n)).

End linked.

(** [Queue::~Queue()]: delete every node reachable from [head_node]. *)
Fixpoint q_destroy (fuel : nat) (h : gmap Z QNode) (curr : Z) : result (gmap Z QNode) :=
  match fuel with
  | O => NoFuel
  | S fuel' =>
      if curr =? 0 then Ok h
      else
        n ← of_opt (h !! curr);
        q_destroy fuel' (delete curr h) (q_next n)
  end.

(** [Queue::print()]: the values from [head_node] on. *)
Fixpoint q_print (fuel : nat) (h : gmap Z QNode) (curr : Z) : result (list Z) :=
  match fuel with
  | O => NoFuel
  | S fuel' =>
      if curr =? 0 then Ok []
      else
        n ← of_opt (h !! curr);
        rest ← q_print fuel' h (q_next n);
        Ok (q_val n :: rest)
  end.

(** ** Representation of a FIFO by linked nodes *)

(** The nodes [ps] (address and value) from [p] on. *)
Fixpoint qchain (h : gmap Z QNode) (p : Z) (ps : list (Z * Z)) (e : Z) : Prop :=
  match ps with
  | [] => p = e
  | (a, v) :: ps' => p = a /\ a <> 0 /\
      exists n, h !! a = Some n /\ q_val n = v /\ qchain h (q_next n) ps' e
  end.

Lemma qchain_app h p xs ys e :
  qchain h p (xs ++ ys) e <-> exists x, qchain h p xs x /\ qchain h x ys e.
Proof.
  revert p; induction xs as [|[a v] xs IH]; intros p; simpl.
  - naive_solver.
  - setoid_rewrite IH. naive_solver.
Qed.

Lemma qchain_ext h h' p ps e :
  (forall a, a ∈ ps.*1 -> h' !! a = h !! a) -> qchain h p ps e -> qchain h' p ps e.
Proof.
  revert p; induction ps as [|[a v] ps IH]; intros p He; simpl; [done|].
  intros (-> & Ha & n & Hn & Hv & Hc). split; [done|]. split; [done|].
  exists n. rewrite He by set_solver. split_and!; try done. apply IH; [|done].
  intros b Hb. apply He. set_solver.
Qed.

Lemma qchain_elem h p ps e a v : qchain h p ps e -> (a, v) ∈ ps ->
  a <> 0 /\ exists n, h !! a = Some n /\ q_val n = v.
Proof.
  revert p; induction ps as [|[b w] ps IH]; intros p; simpl; [set_solver|].
  intros (_ & Hb & n & Hn & Hv & Hc) [[= -> ->]|Hin]%elem_of_cons; [eauto|].
  by eapply IH.
Qed.

Lemma qchain_dom h p ps e a : qchain h p ps e -> a ∈ ps.*1 -> a <> 0 /\ is_Some (h !! a).
Proof.
  intros Hc ([b v] & -> & Hin)%list_elem_of_fmap. simpl.
  destruct (qchain_elem h p ps e b v Hc Hin) as (? & n & -> & _). eauto.
Qed.

(** A queue holding [vs]: the nodes are distinct, the last one is [q_tail]. *)
Definition lq_nodes (ps : list (Z * Z)) (st : lqueue) : Prop :=
  NoDup ps.*1 /\ qchain (qheap st) (q_head st) ps 0 /\
  q_tail st = last_or 0 ps.*1.

Definition lq_ref (vs : list Z) (st : lqueue) : Prop :=
  exists ps, vs = ps.*2 /\ lq_nodes ps st /\
    q_size st = Z.of_nat (length ps) /\ Z.of_nat (length ps) < u32_mod.

(** Linking a fresh node behind a nonempty chain. *)
Lemma qchain_snoc h p ps new v :
  NoDup ps.*1 -> qchain h p ps 0 -> ps <> [] -> new <> 0 -> new ∉ ps.*1 ->
  exists t, h !! last_or 0 ps.*1 = Some t /\
    qchain (<[last_or 0 ps.*1 := mkQ new (q_val t)]> (<[new := mkQ 0 v]> h)) p
           (ps ++ [(new, v)]) 0.
Proof.
  intros Hnd Hc Hne Hn0 Hnew.
  destruct (exists_last Hne) as (qs & [a w] & ->).
  rewrite fmap_app in *. simpl in *. rewrite last_or_app. simpl.
  apply NoDup_app in Hnd as (Hnd & Hd & _).
  apply qchain_app in Hc as (x & Hc1 & Hc2). simpl in Hc2.
  destruct Hc2 as (-> & Ha & t & Ht & Hv & Hnx). exists t. split; [done|].
  assert (Han : a <> new) by (intros ->; apply Hnew, elem_of_app; right; set_solver).
  rewrite <- app_assoc. apply qchain_app. exists a. split.
  - eapply qchain_ext; [|exact Hc1]. intros b Hb.
    assert (a <> b) by (intros ->; apply (Hd b Hb); set_solver).
    assert (new <> b) by (intros ->; apply Hnew, elem_of_app; by left). by rewrite !lookup_insert_ne.
  - simpl. split_and!; try done. eexists. rewrite lookup_insert_eq.
    split; [done|]. split; [done|]. simpl. split; [done|]. split; [done|].
    eexists. rewrite lookup_insert_ne by done. rewrite lookup_insert_eq. done.
Qed.

Section linked_ok.
Context (new_addr : gmap Z QNode -> Z).
Context (new_addr_ok : forall h, new_addr h <> 0 /\ h !! new_addr h = None).

(** A push, for any count that is 0 exactly when there are no nodes. *)
Lemma q_push_nodes ps st param :
  lq_nodes ps st -> (q_size st = 0 <-> ps = []) ->
  exists st' new, q_push new_addr st param = Ok (st', s32 param) /\
    lq_nodes (ps ++ [(new, param)]) st' /\ q_size st' = u32 (q_size st + 1).
Proof.
  intros (Hnd & Hc & Htl) Hsz. destruct (new_addr_ok (qheap st)) as [Hn0 Hnone].
  unfold q_push. set (new := new_addr (qheap st)) in *.
  assert (Hnew : new ∉ ps.*1).
  { intros Hin. destruct (qchain_dom _ _ _ _ _ Hc Hin) as (_ & n & ?). congruence. }
  destruct (Z.eqb_spec (q_size st) 0) as [Hz|Hz].
  - apply Hsz in Hz as ->. eexists _, new. split; [done|]. split; [|done].
    split_and!; simpl; [apply NoDup_singleton| |done].
    split_and!; try done. eexists. rewrite lookup_insert_eq. done.
  - assert (ps <> []) as Hne by tauto.
    destruct (qchain_snoc _ _ ps new param Hnd Hc Hne Hn0 Hnew) as (t & Ht & Hc').
    rewrite <- Htl in Ht, Hc'. rewrite lookup_insert_ne by congruence. rewrite Ht. simpl.
    eexists _, new. split; [done|]. split; [|done]. split_and!; simpl.
    + rewrite fmap_app. apply NoDup_app. split_and!; try done; [set_solver|apply NoDup_singleton].
    + done.
    + rewrite fmap_app, last_or_app. done.
Qed.

Lemma q_push_spec vs st param :
  lq_ref vs st -> Z.of_nat (length vs) + 1 < u32_mod ->
  exists st', q_push new_addr st param = Ok (st', s32 param) /\ lq_ref (vs ++ [param]) st'.
Proof.
  intros (ps & -> & Hn & Hsz & Hlt) Hl. rewrite length_fmap in Hl.
  destruct (q_push_nodes ps st param Hn) as (st' & new & Hrun & Hn' & Hsz').
  { rewrite Hsz. destruct ps; simpl; split; try done; lia. }
  exists st'. split; [done|]. exists (ps ++ [(new, param)]).
  rewrite fmap_app, length_app. simpl. split; [done|]. split; [done|].
  rewrite Hsz', Hsz, u32_small by (unfold is_u32; lia). split; lia.
Qed.

End linked_ok.

(** Removing the first node. *)
Lemma qchain_tail h a v ps :
  NoDup (a :: ps.*1) -> qchain h a ((a, v) :: ps) 0 ->
  exists n, h !! a = Some n /\ q_val n = v /\ qchain (delete a h) (q_next n) ps 0.
Proof.
  intros [Ha _]%NoDup_cons (_ & _ & n & Hn & Hv & Hc). exists n. split_and!; try done.
  eapply qchain_ext; [|exact Hc]. intros b Hb. apply lookup_delete_ne. set_solver.
Qed.

Lemma q_pop_spec vs st :
  lq_ref vs st ->
  exists st', q_pop st = Ok (st', match vs with [] => 0 | v :: _ => s32 v end) /\
              lq_ref (tail vs) st'.
Proof.
  intros (ps & -> & (Hnd & Hc & Htl) & Hsz & Hlt). unfold q_pop. rewrite Hsz.
  destruct ps as [|[a v] ps]; simpl.
  { eexists. split; [done|]. exists []. done. }
  simpl in Hnd. destruct Hc as (Hh & Hc). rewrite Hh in *.
  destruct (qchain_tail (qheap st) a v ps Hnd) as (n & Hn & Hv & Hc'); [done|].
  rewrite Hn. simpl. simpl length in *. rewrite Hv.
  replace (u32 _) with (Z.of_nat (length ps))
    by (rewrite u32_small; [lia|unfold is_u32; lia]).
  eexists. split; [done|]. exists ps. split; [done|]. split; [|split; [done|simpl; lia]].
  split_and!; simpl; [by apply NoDup_cons in Hnd as [_ ?]|done|].
  destruct ps as [|[b w] ps]; simpl in *; [done|]. done.
Qed.

(** ** Array queue: a ring of MAX_INDEX cells *)

Definition MAX_INDEX : Z := 1048576.
Definition NEXT_INDEX (x : Z) : Z := u32 (x + 1) mod MAX_INDEX.

(** [head_index], [tail_index] and [queue_array]; a cell is absent until it is
    written. *)
Record aqueue := mkAQ {
  head_index : Z;
  tail_index : Z;
  queue_array : gmap Z Z;
}.

Definition AQueue_new : aqueue := mkAQ 0 0 ∅.

Definition cell_set (a : gmap Z Z) (i v : Z) : result (gmap Z Z) :=
  if (0 <=? i) && (i <? MAX_INDEX) then Ok (<[i := v]> a) else UB.

(** [queue_array[tail_index] = param; tail_index = NEXT_INDEX(tail_index);] *)
Definition aq_push (st : aqueue) (param : Z) : result (aqueue * Z) :=
  a ← cell_set (queue_array st) (tail_index st) param;
  Ok (mkAQ (head_index st) (NEXT_INDEX (tail_index st)) a, s32 param).

(** [ret_val = queue_array[head_index]; head_index = NEXT_INDEX(head_index);] *)
Definition aq_pop (st : aqueue) : result (aqueue * Z) :=
  v ← of_opt (queue_array st !! head_index st);
  Ok (mkAQ (NEXT_INDEX (head_index st)) (tail_index st) (queue_array st), s32 v).

(** The operation executed by [flat_combine] of FCArrayQueue.hh. *)
Definition aq_exec (st : aqueue) (op param : Z) : result (aqueue * Z) :=
  if op =? PUSH_OP then aq_push st param else aq_pop st.

(** [Queue::print()]: the cells from [i] up to [tail_index]. *)
Fixpoint aq_print (fuel : nat) (st : aqueue) (i : Z) : result (list Z) :=
  match fuel with
  | O => NoFuel
  | S fuel' =>
      if i =? tail_index st then Ok []
      else
        v ← of_opt (queue_array st !! i);
        rest ← aq_print fuel' st (NEXT_INDEX i);
        Ok (v :: rest)
  end.

Definition aq_ref (vs : list Z) (st : aqueue) : Prop :=
  Z.of_nat (length vs) < MAX_INDEX /\ 0 <= head_index st < MAX_INDEX /\
  tail_index st = (head_index st + Z.of_nat (length vs)) mod MAX_INDEX /\
  forall i v, vs !! i = Some v ->
    queue_array st !! ((head_index st + Z.of_nat i) mod MAX_INDEX) = Some v.

Lemma NEXT_INDEX_mod x : 0 <= x -> NEXT_INDEX (x mod MAX_INDEX) = (x + 1) mod MAX_INDEX.
Proof.
  intros Hx. unfold NEXT_INDEX.
  pose proof (Z.mod_pos_bound x MAX_INDEX ltac:(reflexivity)).
  rewrite u32_small by (unfold is_u32, u32_mod, MAX_INDEX in *; lia).
  rewrite Zplus_mod_idemp_l. done.
Qed.

Lemma ring_inj h i j :
  0 <= i < MAX_INDEX -> 0 <= j < MAX_INDEX ->
  (h + i) mod MAX_INDEX = (h + j) mod MAX_INDEX -> i = j.
Proof.
  intros Hi Hj He. assert ((i - j) mod MAX_INDEX = 0) as Hm.
  { replace (i - j) with ((h + i) - (h + j)) by lia. rewrite Zminus_mod, He, Z.sub_diag. done. }
  apply Z.mod_divide in Hm; [|done]. destruct Hm as [k Hk]. unfold MAX_INDEX in *. nia.
Qed.

Lemma aq_push_spec vs st param :
  aq_ref vs st -> Z.of_nat (length vs) + 1 < MAX_INDEX ->
  exists st', aq_push st param = Ok (st', s32 param) /\ aq_ref (vs ++ [param]) st'.
Proof.
  intros (Hlen & Hh & Htl & Hcells) Hl. unfold aq_push, cell_set.
  pose proof (Z.mod_pos_bound (head_index st + Z.of_nat (length vs)) MAX_INDEX ltac:(reflexivity)).
  rewrite Htl. destruct (Z.leb_spec 0 ((head_index st + Z.of_nat (length vs)) mod MAX_INDEX)); [|lia].
  destruct (Z.ltb_spec ((head_index st + Z.of_nat (length vs)) mod MAX_INDEX) MAX_INDEX); [|lia].
  simpl. eexists. split; [done|]. split; [rewrite length_app; simpl; lia|].
  simpl. split; [done|]. split.
  { rewrite NEXT_INDEX_mod by lia. rewrite length_app. simpl. f_equal. lia. }
  intros i v Hi. apply lookup_app_Some in Hi as [Hi|[Hge Hi]].
  - pose proof (lookup_lt_Some _ _ _ Hi). rewrite lookup_insert_ne; [by apply Hcells|].
    intros E%ring_inj; lia.
  - apply list_lookup_singleton_Some in Hi as [Hi ->].
    replace i with (length vs) by lia. apply lookup_insert_eq.
Qed.

Lemma aq_pop_spec v vs st :
  aq_ref (v :: vs) st ->
  exists st', aq_pop st = Ok (st', s32 v) /\ aq_ref vs st'.
Proof.
  intros (Hlen & Hh & Htl & Hcells). unfold aq_pop.
  pose proof (Hcells 0%nat v eq_refl) as H0. rewrite Z.add_0_r, Z.mod_small in H0 by done.
  rewrite H0. simpl in *. eexists. split; [done|].
  assert (HN : NEXT_INDEX (head_index st) = (head_index st + 1) mod MAX_INDEX).
  { rewrite <- NEXT_INDEX_mod by lia. by rewrite (Z.mod_small _ _ Hh). }
  split; simpl; [lia|]. split; [rewrite HN; by apply Z.mod_pos_bound|].
  rewrite HN. split.
  { rewrite Htl, Zplus_mod_idemp_l. f_equal. lia. }
  intros i w Hi. rewrite Zplus_mod_idemp_l.
  replace (head_index st + 1 + Z.of_nat i) with (head_index st + Z.of_nat (S i)) by lia.
  by apply Hcells.
Qed.

(** ** The queues as sequential objects *)

Definition fifo_spec (vs : list Z) (op param : Z) : list Z * Z :=
  if op =? PUSH_OP then (vs ++ [param], s32 param)
  else (tail vs, match vs with [] => 0 | v :: _ => s32 v end).

Definition lq_legal (vs : list Z) (op param : Z) : Prop :=
  op = PUSH_OP -> Z.of_nat (length vs) + 1 < u32_mod.

(** FCQueue.hh: a pop of the empty queue answers 0. *)
Definition FCQueue_ops (new_addr : gmap Z QNode -> Z) : ObjOps lqueue :=
  {| exec := q_exec new_addr |}.

Program Definition lq_object (new_addr : gmap Z QNode -> Z)
    (ok : forall h, new_addr h <> 0 /\ h !! new_addr h = None)
  : SeqObj lqueue (list Z) (OO := FCQueue_ops new_addr) := {|
  obj_ref := lq_ref;
  obj_spec := fifo_spec;
  legal := lq_legal;
|}.
Next Obligation.
  intros new_addr ok vs st op param Href Hleg. unfold exec, FCQueue_ops, q_exec, fifo_spec.
  destruct (Z.eqb_spec op PUSH_OP) as [->|]; [by apply q_push_spec; auto|].
  by apply q_pop_spec.
Qed.

(** FCArrayQueue.hh: a push needs a free cell besides the one kept empty, a pop
    a nonempty queue. *)
Definition aq_legal (vs : list Z) (op param : Z) : Prop :=
  if op =? PUSH_OP then Z.of_nat (length vs) + 1 < MAX_INDEX else vs <> [].

Definition FCArrayQueue_ops : ObjOps aqueue := {| exec := aq_exec |}.

Program Definition aq_object : SeqObj aqueue (list Z) (OO := FCArrayQueue_ops) := {|
  obj_ref := aq_ref;
  obj_spec := fifo_spec;
  legal := aq_legal;
|}.
Next Obligation.
  intros vs st op param Href Hleg. unfold exec, FCArrayQueue_ops, aq_legal, aq_exec, fifo_spec in *.
  destruct (op =? PUSH_OP); [by apply aq_push_spec|].
  destruct vs as [|v vs]; [done|]. by apply aq_pop_spec.
Qed.

(** ** The queues with two combiners *)

(** DoubleFCQueue.hh and DoubleFCArrayQueue.hh: two slot lists, two locks, one
    object.  Each half, with the object, is a flat-combining instance. *)
Record dfc (St : Type) := mkD {
  enq_slots : gmap Z SlotInfo; enq_tail_slot : Z;
  enq_operation_timestamp : Z; enq_combine_cas : Z;
  deq_slots : gmap Z SlotInfo; deq_tail_slot : Z;
  deq_operation_timestamp : Z; deq_combine_cas : Z;
  d_obj : St;
}.
Arguments mkD {St}.
Arguments enq_slots {St}. Arguments enq_tail_slot {St}.
Arguments enq_operation_timestamp {St}. Arguments enq_combine_cas {St}.
Arguments deq_slots {St}. Arguments deq_tail_slot {St}.
Arguments deq_operation_timestamp {St}. Arguments deq_combine_cas {St}.
Arguments d_obj {St}.

Section double.
Context {St : Type} {OO : ObjOps St}.
Implicit Types (d : dfc St) (st : fc St).

Definition enq_half d : fc St :=
  mkFC (enq_slots d) (enq_tail_slot d) (enq_operation_timestamp d) (enq_combine_cas d) (d_obj d).
Definition deq_half d : fc St :=
  mkFC (deq_slots d) (deq_tail_slot d) (deq_operation_timestamp d) (deq_combine_cas d) (d_obj d).
Definition put_enq d st : dfc St :=
  mkD (slots st) (tail_slot st) (operation_timestamp st) (combine_cas st)
      (deq_slots d) (deq_tail_slot d) (deq_operation_timestamp d) (deq_combine_cas d) (obj st).
Definition put_deq d st : dfc St :=
  mkD (enq_slots d) (enq_tail_slot d) (enq_operation_timestamp d) (enq_combine_cas d)
      (slots st) (tail_slot st) (operation_timestamp st) (combine_cas st) (obj st).

Definition enq_enq_slot d (i : Z) : result (dfc St) :=
  st ← enq_slot (enq_half d) i; Ok (put_enq d st).
Definition enq_deq_slot d (i : Z) : result (dfc St) :=
  st ← enq_slot (deq_half d) i; Ok (put_deq d st).

(** The two combiners; [exec] executes an enqueue, respectively a dequeue. *)
Definition enq_flat_combine (fuel : nat) d : result (dfc St) :=
  st ← flat_combine fuel UNUSED_SLOT_THRESHOLD (enq_half d); Ok (put_enq d st).
Definition deq_flat_combine (fuel : nat) d : result (dfc St) :=
  st ← flat_combine fuel UNUSED_SLOT_THRESHOLD (deq_half d); Ok (put_deq d st).

Definition fc_push_operation (fuel : nat) d (param i : Z)
  : result (dfc St * Z) :=
  s ← of_opt (enq_slots d !! i);
  '(st, r) ← fc_operation fuel UNUSED_SLOT_THRESHOLD (enq_half d) (operation s) param i;
  Ok (put_enq d st, r).
Definition fc_pop_operation (fuel : nat) d (i : Z)
  : result (dfc St * Z) :=
  s ← of_opt (deq_slots d !! i);
  '(st, r) ← fc_operation fuel UNUSED_SLOT_THRESHOLD (deq_half d) (operation s) (parameter s) i;
  Ok (put_deq d st, r).

End double.

(** The operations of the two halves, as sequential objects. *)
Definition push_spec (vs : list Z) (_ param : Z) : list Z * Z := (vs ++ [param], s32 param).
Definition pop_spec (vs : list Z) (_ _ : Z) : list Z * Z :=
  (tail vs, match vs with [] => 0 | v :: _ => s32 v end).

Definition aq_push_ops : ObjOps aqueue := {| exec := fun st _ param => aq_push st param |}.
Definition aq_pop_ops : ObjOps aqueue := {| exec := fun st _ _ => aq_pop st |}.
Definition q_push_ops (new_addr : gmap Z QNode -> Z) : ObjOps lqueue :=
  {| exec := fun st _ param => q_push new_addr st param |}.
Definition dq_pop_ops : ObjOps lqueue := {| exec := fun st _ _ => dq_pop st |}.

Program Definition daq_enq : SeqObj aqueue (list Z) (OO := aq_push_ops) := {|
  obj_ref := aq_ref;
  obj_spec := push_spec;
  legal := fun vs _ _ => Z.of_nat (length vs) + 1 < MAX_INDEX;
|}.
Next Obligation. intros; simpl in *. by apply aq_push_spec. Qed.

Program Definition daq_deq : SeqObj aqueue (list Z) (OO := aq_pop_ops) := {|
  obj_ref := aq_ref;
  obj_spec := pop_spec;
  legal := fun vs _ _ => vs <> [];
|}.
Next Obligation.
  intros [|v vs] st op param Href Hleg; [done|]. by apply aq_pop_spec.
Qed.

(** DoubleFCQueue.hh: the abstract value is the contents and the number of
    pushes so far, which is what [q_size] counts. *)
Definition dlq_ref (a : list Z * Z) (st : lqueue) : Prop :=
  q_size st = a.2 /\ 0 <= a.2 < u32_mod /\ (a.2 = 0 <-> a.1 = []) /\
  exists ps, a.1 = ps.*2 /\ lq_nodes ps st.

Lemma dq_push_spec (new_addr : gmap Z QNode -> Z) vs n st param :
  (forall h, new_addr h <> 0 /\ h !! new_addr h = None) ->
  dlq_ref (vs, n) st -> n + 1 < u32_mod ->
  exists st', q_push new_addr st param = Ok (st', s32 param) /\
              dlq_ref (vs ++ [param], n + 1) st'.
Proof.
  intros Hok (Hsz & Hn & Hz & ps & Hvs & Hnodes) Hlt. simpl in *. subst vs.
  destruct (q_push_nodes new_addr Hok ps st param Hnodes) as (st' & new & Hrun & Hn' & Hsz').
  { rewrite Hsz, Hz. split; [apply fmap_nil_inv|by intros ->]. }
  exists st'. split; [done|]. rewrite Hsz, u32_small in Hsz' by (unfold is_u32; lia).
  split_and!; simpl; try lia.
  - split; [lia|]. destruct (ps.*2); done.
  - exists (ps ++ [(new, param)]). by rewrite fmap_app.
Qed.

Lemma dq_pop_spec v w vs n st :
  dlq_ref (v :: w :: vs, n) st ->
  exists st', dq_pop st = Ok (st', s32 v) /\ dlq_ref (w :: vs, n) st'.
Proof.
  intros (Hsz & Hn & Hz & ps & Hvs & Hnd & Hc & Htl). simpl in *.
  destruct ps as [|[a v'] ps]; [done|]. simpl in *. injection Hvs as <- Hvs.
  destruct Hc as (Hh & Hc). unfold dq_pop. rewrite Hh in *.
  destruct (qchain_tail (qheap st) a v ps Hnd) as (x & Hx & Hv & Hc'); [done|].
  rewrite Hx. simpl. rewrite Hv. eexists. split; [done|].
  split_and!; simpl; try done; try lia.
  - split; [intros E; by apply Hz in E|done].
  - exists ps. split; [done|]. split_and!; simpl; [by apply NoDup_cons in Hnd as [_ ?]|done|].
    destruct ps as [|[b y] ps]; [done|]. done.
Qed.

Program Definition dlq_enq (new_addr : gmap Z QNode -> Z)
    (ok : forall h, new_addr h <> 0 /\ h !! new_addr h = None)
  : SeqObj lqueue (list Z * Z) (OO := q_push_ops new_addr) := {|
  obj_ref := dlq_ref;
  obj_spec := fun a _ param => ((a.1 ++ [param], a.2 + 1), s32 param);
  legal := fun a _ _ => a.2 + 1 < u32_mod;
|}.
Next Obligation. intros new_addr ok [vs n] st op param. simpl. by apply dq_push_spec. Qed.

Program Definition dlq_deq : SeqObj lqueue (list Z * Z) (OO := dq_pop_ops) := {|
  obj_ref := dlq_ref;
  obj_spec := fun a _ _ => ((tail a.1, a.2), match a.1 with [] => 0 | v :: _ => s32 v end);
  legal := fun a _ _ => (2 <= length a.1)%nat;
|}.
Next Obligation.
  intros [[|v [|w vs]] n] st op param Href Hleg; simpl in *; try lia. by apply dq_pop_spec.
Qed.

(** ** The methods of the four classes

    [sl] holds the slots of the threads and [ts] the initial contents of the
    members [operation_timestamp], which no constructor sets. *)

Section classes.
Context (new_addr : gmap Z QNode -> Z).

Definition FCQueue_new (sl : gmap Z SlotInfo) (ts : Z) : fc lqueue := mkFC sl 0 ts 0 Queue_new.
Definition FCQueue_enq_slot (st : fc lqueue) (slot : Z) : result (fc lqueue) := enq_slot st slot.
Definition FCQueue_flat_combine (fuel : nat) (st : fc lqueue) : result (fc lqueue) :=
  flat_combine (OO := FCQueue_ops new_addr) fuel UNUSED_SLOT_THRESHOLD st.
Definition FCQueue_fc_operation (fuel : nat) (st : fc lqueue) (op param slot : Z)
  : result (fc lqueue * Z) :=
  fc_operation (OO := FCQueue_ops new_addr) fuel UNUSED_SLOT_THRESHOLD st op param slot.
Definition FCQueue_print (fuel : nat) (st : fc lqueue) : result (list Z) :=
  q_print fuel (qheap (obj st)) (q_head (obj st)).
Definition FCQueue_destroy (fuel : nat) (st : fc lqueue) : result (gmap Z QNode) :=
  q_destroy fuel (qheap (obj st)) (q_head (obj st)).

Definition FCArrayQueue_new (sl : gmap Z SlotInfo) (ts : Z) : fc aqueue :=
  mkFC sl 0 ts 0 AQueue_new.
Definition FCArrayQueue_enq_slot (st : fc aqueue) (slot : Z) : result (fc aqueue) :=
  enq_slot st slot.
Definition FCArrayQueue_flat_combine (fuel : nat) (st : fc aqueue) : result (fc aqueue) :=
  flat_combine (OO := FCArrayQueue_ops) fuel UNUSED_SLOT_THRESHOLD st.
Definition FCArrayQueue_fc_operation (fuel : nat) (st : fc aqueue) (op param slot : Z)
  : result (fc aqueue * Z) :=
  fc_operation (OO := FCArrayQueue_ops) fuel UNUSED_SLOT_THRESHOLD st op param slot.
Definition FCArrayQueue_print (fuel : nat) (st : fc aqueue) : result (list Z) :=
  aq_print fuel (obj st) (head_index (obj st)).

Definition DoubleFCQueue_new (esl dsl : gmap Z SlotInfo) (ets dts : Z) : dfc lqueue :=
  mkD esl 0 ets 0 dsl 0 dts 0 Queue_new.
Definition DoubleFCQueue_enq_enq_slot (d : dfc lqueue) (slot : Z) : result (dfc lqueue) :=
  enq_enq_slot d slot.
Definition DoubleFCQueue_enq_deq_slot (d : dfc lqueue) (slot : Z) : result (dfc lqueue) :=
  enq_deq_slot d slot.
Definition DoubleFCQueue_enq_flat_combine (fuel : nat) (d : dfc lqueue) : result (dfc lqueue) :=
  enq_flat_combine (OO := q_push_ops new_addr) fuel d.
Definition DoubleFCQueue_deq_flat_combine (fuel : nat) (d : dfc lqueue) : result (dfc lqueue) :=
  deq_flat_combine (OO := dq_pop_ops) fuel d.
Definition DoubleFCQueue_fc_push_operation (fuel : nat) (d : dfc lqueue) (param slot : Z)
  : result (dfc lqueue * Z) :=
  fc_push_operation (OO := q_push_ops new_addr) fuel d param slot.
Definition DoubleFCQueue_fc_pop_operation (fuel : nat) (d : dfc lqueue) (slot : Z)
  : result (dfc lqueue * Z) :=
  fc_pop_operation (OO := dq_pop_ops) fuel d slot.
Definition DoubleFCQueue_print (fuel : nat) (d : dfc lqueue) : result (list Z) :=
  q_print fuel (qheap (d_obj d)) (q_head (d_obj d)).
Definition DoubleFCQueue_destroy (fuel : nat) (d : dfc lqueue) : result (gmap Z QNode) :=
  q_destroy fuel (qheap (d_obj d)) (q_head (d_obj d)).

Definition DoubleFCArrayQueue_new (esl dsl : gmap Z SlotInfo) (ets dts : Z) : dfc aqueue :=
  mkD esl 0 ets 0 dsl 0 dts 0 AQueue_new.
Definition DoubleFCArrayQueue_enq_enq_slot (d : dfc aqueue) (slot : Z) : result (dfc aqueue) :=
  enq_enq_slot d slot.
Definition DoubleFCArrayQueue_enq_deq_slot (d : dfc aqueue) (slot : Z) : result (dfc aqueue) :=
  enq_deq_slot d slot.
Definition DoubleFCArrayQueue_enq_flat_combine (fuel : nat) (d : dfc aqueue)
  : result (dfc aqueue) := enq_flat_combine (OO := aq_push_ops) fuel d.
Definition DoubleFCArrayQueue_deq_flat_combine (fuel : nat) (d : dfc aqueue)
  : result (dfc aqueue) := deq_flat_combine (OO := aq_pop_ops) fuel d.
Definition DoubleFCArrayQueue_fc_push_operation (fuel : nat) (d : dfc aqueue) (param slot : Z)
  : result (dfc aqueue * Z) := fc_push_operation (OO := aq_push_ops) fuel d param slot.
Definition DoubleFCArrayQueue_fc_pop_operation (fuel : nat) (d : dfc aqueue) (slot : Z)
  : result (dfc aqueue * Z) := fc_pop_operation (OO := aq_pop_ops) fuel d slot.
Definition DoubleFCArrayQueue_print (fuel : nat) (d : dfc aqueue) : result (list Z) :=
  aq_print fuel (d_obj d) (head_index (d_obj d)).

End classes.

(** ** Printing and destruction *)

Lemma q_print_spec h p ps fuel :
  qchain h p ps 0 -> (length ps < fuel)%nat -> q_print fuel h p = Ok ps.*2.
Proof.
  revert p fuel; induction ps as [|[a v] ps IH]; intros p [|fuel] Hc Hf; simpl in *; try lia.
  - by subst p.
  - destruct Hc as (-> & Ha & n & Hn & Hv & Hc).
    rewrite (proj2 (Z.eqb_neq a 0) Ha), Hn. simpl. rewrite (IH _ _ Hc) by lia. by subst v.
Qed.

Lemma q_destroy_spec h p ps fuel :
  NoDup ps.*1 -> qchain h p ps 0 -> (length ps < fuel)%nat ->
  exists h', q_destroy fuel h p = Ok h' /\ (forall a, a ∈ ps.*1 -> h' !! a = None) /\
    forall a, a ∉ ps.*1 -> h' !! a = h !! a.
Proof.
  revert h p fuel; induction ps as [|[a v] ps IH]; intros h p [|fuel] Hnd Hc Hf; simpl in *; try lia.
  - subst p. exists h. split; [done|]. split; [set_solver|done].
  - destruct Hc as (-> & Ha & n & Hn & Hv & Hc). apply NoDup_cons in Hnd as [Hnin Hnd].
    rewrite (proj2 (Z.eqb_neq a 0) Ha), Hn. simpl.
    destruct (IH (delete a h) (q_next n) fuel Hnd) as (h' & Hrun & Hin & Hout); [|lia|].
    { eapply qchain_ext; [|exact Hc]. intros b Hb. apply lookup_delete_ne. by intros ->. }
    exists h'. split; [done|]. split.
    + intros b [->|Hb]%elem_of_cons; [|auto]. rewrite Hout by done. apply lookup_delete_eq.
    + intros b Hb. rewrite Hout by (intros ?; apply Hb, elem_of_cons; auto).
      apply lookup_delete_ne. intros ->. apply Hb, elem_of_cons. auto.
Qed.

Lemma aq_print_spec vs : forall st k fuel,
  0 <= k -> tail_index st = (k + Z.of_nat (length vs)) mod MAX_INDEX ->
  Z.of_nat (length vs) < MAX_INDEX ->
  (forall i v, vs !! i = Some v -> queue_array st !! ((k + Z.of_nat i) mod MAX_INDEX) = Some v) ->
  (length vs < fuel)%nat ->
  aq_print fuel st (k mod MAX_INDEX) = Ok vs.
Proof.
  induction vs as [|v vs IH]; intros st k [|fuel] Hk Ht Hl Hc Hf; simpl in *; try lia.
  - rewrite Ht, Z.add_0_r, Z.eqb_refl. done.
  - destruct (Z.eqb_spec (k mod MAX_INDEX) (tail_index st)) as [E|_].
    { rewrite Ht in E. rewrite <- (Z.add_0_r k) in E at 1. apply ring_inj in E; lia. }
    pose proof (Hc 0%nat v eq_refl) as H0. rewrite Z.add_0_r in H0. rewrite H0. simpl.
    rewrite NEXT_INDEX_mod by done. rewrite (IH st (k + 1) fuel); [done|lia| |lia| |lia].
    + rewrite Ht. f_equal. lia.
    + intros i w Hi. replace (k + 1 + Z.of_nat i) with (k + Z.of_nat (S i)) by lia. by apply Hc.
Qed.

(** ** Properties *)

(** FCQueue.hh implements a FIFO under flat combining: [flat_combine] on a
    well-formed slot list returns, executes every valid request once and in list
    order, answers a push with the pushed value and a pop with the oldest value
    (0 when empty), and keeps the linked nodes a representation of the queue. *)
Theorem fcqueue_flat_combine_fifo (new_addr : gmap Z QNode -> Z)
    (ok : forall h, new_addr h <> 0 /\ h !! new_addr h = None) vs st ids fuel :
  slot_chain (slots st) (tail_slot st) ids -> NoDup ids -> (length ids < fuel)%nat ->
  lq_ref vs (obj st) -> Z.of_nat (length vs + length ids) < u32_mod ->
  exists st' ids',
    FCQueue_flat_combine new_addr fuel st = Ok st' /\
    lq_ref (serve fifo_spec vs (slots st) ids).1 (obj st') /\
    slot_chain (slots st') (tail_slot st') ids' /\ ids' `sublist_of` ids /\
    forall i, i ∈ ids -> exists s s', slots st !! i = Some s /\ slots st' !! i = Some s' /\
      slot_post (serve fifo_spec vs (slots st) ids).2 (bool_decide (i ∈ ids')) i s s'.
Proof.
  intros Hc Hnd Hf Href Hlen.
  apply (flat_combine_served (SO := lq_object new_addr ok) UNUSED_SLOT_THRESHOLD vs st ids fuel);
    try done.
  clear -Hlen. revert vs Hlen. induction ids as [|i ids IH]; intros vs Hlen; simpl in *; [done|].
  destruct (slots st !! i) as [s|]; [|apply IH; lia].
  destruct (is_request_valid s); [|apply IH; lia]. split; [intros _; lia|].
  apply IH. unfold fifo_spec. destruct (_ =? _); simpl; [rewrite length_app; simpl; lia|].
  destruct vs; simpl in *; lia.
Qed.

(** The array queue and its requests, legal when they are served. *)
Definition aq_serve_legal (vs : list Z) (sl : gmap Z SlotInfo) (ids : list Z) : Prop :=
  serve_legal fifo_spec aq_legal vs sl ids.

(** FCArrayQueue.hh implements a FIFO of fewer than MAX_INDEX elements under
    flat combining, as long as no push fills the ring and no pop finds it
    empty. *)
Theorem fcarrayqueue_flat_combine_fifo vs st ids fuel :
  slot_chain (slots st) (tail_slot st) ids -> NoDup ids -> (length ids < fuel)%nat ->
  aq_ref vs (obj st) -> aq_serve_legal vs (slots st) ids ->
  exists st' ids',
    FCArrayQueue_flat_combine fuel st = Ok st' /\
    aq_ref (serve fifo_spec vs (slots st) ids).1 (obj st') /\
    slot_chain (slots st') (tail_slot st') ids' /\ ids' `sublist_of` ids /\
    forall i, i ∈ ids -> exists s s', slots st !! i = Some s /\ slots st' !! i = Some s' /\
      slot_post (serve fifo_spec vs (slots st) ids).2 (bool_decide (i ∈ ids')) i s s'.
Proof.
  intros Hc Hnd Hf Href Hleg.
  by apply (flat_combine_served (SO := aq_object) UNUSED_SLOT_THRESHOLD vs st ids fuel).
Qed.

(** A push into the array queue that holds MAX_INDEX - 1 elements succeeds
    and loses them: the indices meet, so the queue prints as empty. *)
Theorem arrayqueue_overflow_empties vs st param :
  aq_ref vs st -> Z.of_nat (length vs) + 1 = MAX_INDEX ->
  exists st', aq_push st param = Ok (st', s32 param) /\
    head_index st' = tail_index st' /\ aq_print 1 st' (head_index st') = Ok [].
Proof.
  intros (Hlen & Hh & Htl & Hcells) Hl. unfold aq_push, cell_set.
  pose proof (Z.mod_pos_bound (head_index st + Z.of_nat (length vs)) MAX_INDEX ltac:(reflexivity)).
  rewrite Htl. destruct (Z.leb_spec 0 ((head_index st + Z.of_nat (length vs)) mod MAX_INDEX)); [|lia].
  destruct (Z.ltb_spec ((head_index st + Z.of_nat (length vs)) mod MAX_INDEX) MAX_INDEX); [|lia].
  simpl. eexists. split; [done|]. simpl. rewrite NEXT_INDEX_mod by lia.
  replace (head_index st + Z.of_nat (length vs) + 1) with (head_index st + 1 * MAX_INDEX) by lia.
  rewrite Z.mod_add, Z.mod_small by done. by rewrite Z.eqb_refl.
Qed.

(** DoubleFCQueue.hh breaks when a dequeue takes the last element: [q_size]
    is not decremented and [tail_node] dangles, so the next enqueue writes
    through freed memory or, if the allocator reuses that address, leaves
    [head_node] NULL and the new element unreachable. *)
Theorem doublefcqueue_drain_breaks (new_addr : gmap Z QNode -> Z) v n st param :
  dlq_ref ([v], n) st ->
  exists st1, dq_pop st = Ok (st1, s32 v) /\
    (q_push new_addr st1 param = UB \/
     exists st2 r, q_push new_addr st1 param = Ok (st2, r) /\ q_head st2 = 0).
Proof.
  intros (Hsz & Hn & Hz & ps & Hvs & Hnd & Hc & Htl). simpl in *.
  destruct ps as [|[a w] [|]]; try done. injection Hvs as <-. simpl in *.
  destruct Hc as (Hh & Ha & x & Hx & Hv & Hc). unfold dq_pop. rewrite Hh, Hx. simpl.
  rewrite Hv. eexists. split; [done|]. unfold q_push. simpl. rewrite Hsz.
  destruct (Z.eqb_spec n 0) as [E|_]; [by apply Hz in E|].
  destruct (_ !! q_tail st) as [t|]; [right|by left]. simpl. eauto.
Qed.

(** The two combiners of DoubleFCQueue.hh, interleaved: [Some v] is an enqueue of
    [v] executed by one of them, [None] a dequeue executed by the other. *)
Fixpoint dq_steps (new_addr : gmap Z QNode -> Z) (st : lqueue) (ops : list (option Z))
  : result (lqueue * list Z) :=
  match ops with
  | [] => Ok (st, [])
  | Some v :: ops' =>
      '(st1, r) ← q_push new_addr st v;
      '(st2, rs) ← dq_steps new_addr st1 ops'; Ok (st2, r :: rs)
  | None :: ops' =>
      '(st1, r) ← dq_pop st;
      '(st2, rs) ← dq_steps new_addr st1 ops'; Ok (st2, r :: rs)
  end.

(** The same on the contents; [None] if a dequeue would leave fewer than one
    element behind, which is the case excluded by the comment in the code. *)
Fixpoint fifo_steps (vs : list Z) (ops : list (option Z)) : option (list Z * list Z) :=
  match ops with
  | [] => Some (vs, [])
  | Some v :: ops' => '(vs', rs) ← fifo_steps (vs ++ [v]) ops'; Some (vs', s32 v :: rs)
  | None :: ops' =>
      match vs with
      | v :: (_ :: _) as rest => '(vs', rs) ← fifo_steps (tail vs) ops'; Some (vs', s32 v :: rs)
      | _ => None
      end
  end.

(** DoubleFCQueue.hh: under every interleaving of the enqueues of one
    combiner with the dequeues of the other, as long as no dequeue takes the
    last element, the linked nodes implement a FIFO and the dequeues answer with
    the oldest values. *)
Theorem doublefcqueue_interleaving_fifo (new_addr : gmap Z QNode -> Z) ops vs n st vs' rs :
  (forall h, new_addr h <> 0 /\ h !! new_addr h = None) ->
  dlq_ref (vs, n) st -> n + Z.of_nat (length ops) < u32_mod ->
  fifo_steps vs ops = Some (vs', rs) ->
  exists st' n', dq_steps new_addr st ops = Ok (st', rs) /\ dlq_ref (vs', n') st'.
Proof.
  intros ok. revert vs n st vs' rs.
  induction ops as [|[v|] ops IH]; intros vs n st vs' rs Href Hn; simpl in *.
  - intros [= <- <-]. eauto.
  - intros Hf. apply bind_Some in Hf as ([vs1 rs1] & Hf & [= <- <-]).
    destruct (dq_push_spec new_addr vs n st v ok Href) as (st1 & Hrun & Href1); [lia|].
    destruct (IH _ _ st1 _ _ Href1 ltac:(lia) Hf) as (st2 & n2 & Hrun2 & Href2).
    exists st2, n2. rewrite Hrun. simpl. by rewrite Hrun2.
  - destruct vs as [|v [|w vs]]; try done. simpl. intros Hf.
    apply bind_Some in Hf as ([vs1 rs1] & Hf & [= <- <-]).
    destruct (dq_pop_spec v w vs n st Href) as (st1 & Hrun & Href1).
    destruct (IH _ _ st1 _ _ Href1 ltac:(lia) Hf) as (st2 & n2 & Hrun2 & Href2).
    exists st2, n2. rewrite Hrun. simpl. by rewrite Hrun2.
Qed.

(** [print] of both queues lists the elements in the order in which they
    will be popped. *)
Theorem queues_print_fifo vs :
  (forall st fuel, lq_ref vs st -> (length vs < fuel)%nat ->
     q_print fuel (qheap st) (q_head st) = Ok vs) /\
  (forall st fuel, aq_ref vs st -> (length vs < fuel)%nat ->
     aq_print fuel st (head_index st) = Ok vs).
Proof.
  split.
  - intros st fuel (ps & -> & (_ & Hc & _) & _) Hf. rewrite length_fmap in Hf.
    by apply q_print_spec.
  - intros st fuel (Hl & Hh & Ht & Hc) Hf. rewrite <- (Z.mod_small (head_index st) MAX_INDEX) by done.
    apply aq_print_spec; try done. lia.
Qed.

(** DoubleFCArrayQueue.hh: the two combiners, run one after the other on a
    queue with room, keep FIFO order: what the enqueue combiner appended is what
    later dequeues see behind the older elements. *)
Theorem doublearrayqueue_enq_deq_fifo vs d ids jds fuel :
  slot_chain (enq_slots d) (enq_tail_slot d) ids -> NoDup ids -> (length ids < fuel)%nat ->
  slot_chain (deq_slots d) (deq_tail_slot d) jds -> NoDup jds -> (length jds < fuel)%nat ->
  aq_ref vs (d_obj d) -> Z.of_nat (length vs + length ids) < MAX_INDEX ->
  (length jds <= length vs)%nat ->
  exists d1 d2,
    DoubleFCArrayQueue_enq_flat_combine fuel d = Ok d1 /\
    DoubleFCArrayQueue_deq_flat_combine fuel d1 = Ok d2 /\
    let vs1 := (serve push_spec vs (enq_slots d) ids).1 in
    aq_ref (serve pop_spec vs1 (deq_slots d) jds).1 (d_obj d2) /\
    vs `prefix_of` vs1.
Proof.
  intros Hc Hnd Hf Hc' Hnd' Hf' Href Hlen Hj.
  assert (Hpre : forall ids vs, vs `prefix_of` (serve push_spec vs (enq_slots d) ids).1).
  { clear. induction ids as [|i ids IH]; intros vs; simpl; [done|].
    destruct (enq_slots d !! i) as [s|]; [|done]. destruct (is_request_valid s); [|done].
    specialize (IH (vs ++ [parameter s])). destruct (serve _ _ _ ids) as [a l]. simpl in *.
    etrans; [|exact IH]. by apply prefix_app_r. }
  destruct (flat_combine_served (SO := daq_enq) UNUSED_SLOT_THRESHOLD vs (enq_half d) ids fuel)
    as (st1 & ids1 & Hrun1 & Href1 & _); try done.
  { clear -Hlen. revert vs Hlen. simpl enq_half. unfold enq_half; simpl.
    induction ids as [|i ids IH]; intros vs Hlen; simpl in *; [done|].
    destruct (enq_slots d !! i) as [s|]; [|apply IH; lia].
    destruct (is_request_valid s); [|apply IH; lia]. split; [lia|].
    apply IH. rewrite length_app. simpl. lia. }
  pose proof (prefix_length _ _ (Hpre ids vs)) as Hpl. simpl in Href1.
  set (vs1 := (serve push_spec vs (enq_slots d) ids).1) in *.
  destruct (flat_combine_served (SO := daq_deq) UNUSED_SLOT_THRESHOLD vs1
              (deq_half (put_enq d st1)) jds fuel)
    as (st2 & ids2 & Hrun2 & Href2 & _); try done.
  { simpl. assert (Hj' : (length jds <= length vs1)%nat) by lia.
    revert Hj'. generalize vs1. clear. unfold deq_half; simpl.
    induction jds as [|i jds IH]; intros vs Hj; simpl in *; [done|].
    destruct (deq_slots d !! i) as [s|]; [|apply IH; lia].
    destruct (is_request_valid s); [|apply IH; lia].
    destruct vs; simpl in *; [lia|]. split; [done|]. apply IH. lia. }
  exists (put_enq d st1), (put_deq (put_enq d st1) st2).
  unfold DoubleFCArrayQueue_enq_flat_combine, DoubleFCArrayQueue_deq_flat_combine,
    enq_flat_combine, deq_flat_combine. rewrite Hrun1. simpl. rewrite Hrun2. simpl.
  split_and!; try done. apply Hpre.
Qed.

(** ** Instances of the properties *)

Definition demo_slots : gmap Z SlotInfo :=
  <[1 := mkSlot true PUSH_OP 7 0 0 true 2]>
  (<[2 := mkSlot true PUSH_OP 8 0 0 true 3]>
  (<[3 := mkSlot true POP_OP 0 0 0 true 0]> ∅)).

Lemma Queue_new_ref : lq_ref [] Queue_new.
Proof. exists []. split_and!; try done. split_and!; try done. constructor. Qed.

Lemma AQueue_new_ref : aq_ref [] AQueue_new.
Proof. split_and!; try done. Qed.

Lemma fcqueue_flat_combine_fifo_witness :
  exists st', FCQueue_flat_combine next_free 4
      (mkFC demo_slots 1 0 LOCKED_CAS Queue_new) = Ok st' /\ lq_ref [8] (obj st').
Proof.
  destruct (fcqueue_flat_combine_fifo next_free next_free_ok []
              (mkFC demo_slots 1 0 LOCKED_CAS Queue_new) [1; 2; 3] 4)
    as (st' & ids' & Hrun & Href & _).
  - slot_chain_eval.
  - NoDup_eval.
  - simpl; lia.
  - exact Queue_new_ref.
  - reflexivity.
  - exists st'. split; [exact Hrun|exact Href].
Defined.

Lemma fcarrayqueue_flat_combine_fifo_witness :
  exists st', FCArrayQueue_flat_combine 4
      (mkFC demo_slots 1 0 LOCKED_CAS AQueue_new) = Ok st' /\ aq_ref [8] (obj st').
Proof.
  destruct (fcarrayqueue_flat_combine_fifo []
              (mkFC demo_slots 1 0 LOCKED_CAS AQueue_new) [1; 2; 3] 4)
    as (st' & ids' & Hrun & Href & _).
  - slot_chain_eval.
  - NoDup_eval.
  - simpl; lia.
  - exact AQueue_new_ref.
  - repeat split; simpl; try done.
  - exists st'. split; [exact Hrun|exact Href].
Defined.

(** A ring with [n] cells filled from index 0. *)
Fixpoint filled (n : nat) : gmap Z Z :=
  match n with O => ∅ | S n' => <[Z.of_nat n' := 5]> (filled n') end.

Lemma filled_lookup n i : (i < n)%nat -> filled n !! Z.of_nat i = Some 5.
Proof.
  induction n as [|n IH]; intros Hi; simpl; [lia|].
  destruct (decide (i = n)) as [->|]; [apply lookup_insert_eq|].
  rewrite lookup_insert_ne by lia. apply IH. lia.
Qed.

Definition ring_fill : nat := Z.to_nat (MAX_INDEX - 1).

Lemma full_ring_ref n :
  Z.of_nat n = MAX_INDEX - 1 ->
  aq_ref (replicate n 5) (mkAQ 0 (MAX_INDEX - 1) (filled n)).
Proof.
  intros Hn. unfold aq_ref. rewrite length_replicate, Hn.
  cbn [head_index tail_index queue_array].
  split_and!; try done. intros i v [-> Hi]%lookup_replicate.
  rewrite Z.add_0_l, Z.mod_small by (unfold MAX_INDEX in *; lia).
  by apply filled_lookup.
Qed.

Lemma ring_fill_eq : Z.of_nat ring_fill = MAX_INDEX - 1.
Proof. apply Z2Nat.id. vm_compute. discriminate. Qed.

Lemma arrayqueue_overflow_empties_witness :
  exists st', aq_push (mkAQ 0 (MAX_INDEX - 1) (filled ring_fill)) 9 = Ok (st', 9) /\
    aq_print 1 st' (head_index st') = Ok [].
Proof.
  destruct (arrayqueue_overflow_empties (replicate ring_fill 5)
              (mkAQ 0 (MAX_INDEX - 1) (filled ring_fill)) 9) as (st' & Hrun & _ & Hp).
  - exact (full_ring_ref _ ring_fill_eq).
  - rewrite length_replicate, ring_fill_eq. reflexivity.
  - exists st'. split; [exact Hrun|exact Hp].
Defined.

Definition one_node : lqueue := mkLQ (<[5 := mkQ 0 42]> ∅) 5 5 1.

Lemma doublefcqueue_drain_breaks_witness :
  exists st1, dq_pop one_node = Ok (st1, 42) /\
    (q_push next_free st1 3 = UB \/
     exists st2 r, q_push next_free st1 3 = Ok (st2, r) /\ q_head st2 = 0).
Proof.
  apply (doublefcqueue_drain_breaks next_free 42 1 one_node 3).
  split_and!; try done. exists [(5, 42)]. split_and!; try done.
  split_and!; [NoDup_eval| |reflexivity]. simpl. split_and!; try done.
  exists (mkQ 0 42). done.
Defined.

Lemma doublearrayqueue_enq_deq_fifo_witness :
  exists d1 d2,
    DoubleFCArrayQueue_enq_flat_combine 3
      (mkD (<[1 := mkSlot true 0 7 0 0 true 0]> ∅) 1 0 LOCKED_CAS
           (<[2 := mkSlot true 0 0 0 0 true 0]> ∅) 2 0 LOCKED_CAS
           (mkAQ 0 1 (<[0 := 6]> ∅))) = Ok d1 /\
    DoubleFCArrayQueue_deq_flat_combine 3 d1 = Ok d2 /\ aq_ref [7] (d_obj d2).
Proof.
  destruct (doublearrayqueue_enq_deq_fifo [6]
    (mkD (<[1 := mkSlot true 0 7 0 0 true 0]> ∅) 1 0 LOCKED_CAS
         (<[2 := mkSlot true 0 0 0 0 true 0]> ∅) 2 0 LOCKED_CAS
         (mkAQ 0 1 (<[0 := 6]> ∅))) [1] [2] 3) as (d1 & d2 & H1 & H2 & H3 & _).
  - slot_chain_eval.
  - NoDup_eval.
  - simpl; lia.
  - slot_chain_eval.
  - NoDup_eval.
  - simpl; lia.
  - split_and!; try done. intros [|[|i]] v [= <-]; reflexivity.
  - reflexivity.
  - simpl; lia.
  - exists d1, d2. split; [exact H1|]. split; [exact H2|exact H3].
Defined.

Lemma doublefcqueue_interleaving_fifo_witness :
  exists st' n', dq_steps next_free one_node [Some 7; None; Some 8; None] = Ok (st', [7; 42; 8; 7])
    /\ dlq_ref ([8], n') st'.
Proof.
  apply (doublefcqueue_interleaving_fifo next_free [Some 7; None; Some 8; None] [42] 1 one_node).
  - exact next_free_ok.
  - split_and!; try done. exists [(5, 42)]. split_and!; try done.
    split_and!; [NoDup_eval| |reflexivity]. simpl. split_and!; try done.
    exists (mkQ 0 42). done.
  - reflexivity.
  - reflexivity.
Defined.

Lemma queues_print_fifo_witness :
  q_print 2 (qheap one_node) (q_head one_node) = Ok [42] /\
  aq_print 2 (mkAQ 0 1 (<[0 := 42]> ∅)) 0 = Ok [42].
Proof.
  split.
  - apply (proj1 (queues_print_fifo [42]) one_node 2%nat); [|simpl; lia].
    exists [(5, 42)]. split_and!; try done. split_and!; [NoDup_eval| |reflexivity].
    simpl. split_and!; try done. exists (mkQ 0 42). done.
  - apply (proj2 (queues_print_fifo [42]) (mkAQ 0 1 (<[0 := 42]> ∅)) 2%nat); [|simpl; lia].
    split_and!; try done. intros [|[|i]] v [= <-]; reflexivity.
Defined.
