(* ===== verification/FCProtocol.v ===== *)
(** * Concurrent flat combining

    [fc_operation] of FCSkipList.hh and of the queues, run by any number of
    threads at the same time.  A thread is a program counter in the body of
    [fc_operation], [enq_slot] and [flat_combine]; a step of a thread is one
    access to shared memory, the body of a [tail_slot_lock] section or one
    request on the protected object.  The trace records invocations, the points
    where a combiner executes a request, and responses; the theorems say that
    every history is linearizable at those points, that the lock protects the
    object and that no step dereferences a wild pointer. *)

From S2P Require Import Prelude FlatCombining History FCSkipList FCQueues.

(** ** Threads *)

(** The three places of [fc_operation] that test [is_slot_linked]. *)
Inductive place := BeforeTry | AfterLock | InSpin.

(** Where a thread is; [prev] and [curr] are the locals of [flat_combine]. *)
Inductive pc :=
  | Idle | Publish
  | LinkA (c : place) | LinkB (c : place)
  | Enq1 (c : place) | Enq2 (c : place) | Enq3 (c : place)
  | Try | CombStart
  | Comb (prev curr : Z) | Exec (prev curr : Z)
  | Stamp (prev curr : Z) | Fin (prev curr : Z) | Bump (curr : Z) | Adv (curr : Z)
  | Unl1 (prev curr : Z) | Unl2 (prev curr : Z) | Unl3 (prev : Z)
  | Unlock | SpinV | SpinC | SpinEnd | Return.

(** The shared members of the class, the threads, and the history, latest event
    first.  The slot of a thread is named after the thread. *)
Record conc (St : Type) := mkC { sh : fc St; pcs : gmap Z pc; trace : list event }.
Arguments mkC {St}. Arguments sh {St}. Arguments pcs {St}. Arguments trace {St}.

Definition after (c : place) : pc :=
  match c with BeforeTry => Try | AfterLock => CombStart | InSpin => SpinV end.

Section steps.
Context {St : Type} {OO : ObjOps St} (threshold : Z).
Implicit Types (st : conc St).

Definition goto st (t : Z) (p : pc) : conc St := mkC (sh st) (<[t := p]> (pcs st)) (trace st).
Definition put st (i : Z) (s : SlotInfo) : conc St :=
  mkC (upd_slots (sh st) (<[i := s]> (slots (sh st)))) (pcs st) (trace st).
Definition put_cas st (c : Z) : conc St := mkC (set_cas (sh st) c) (pcs st) (trace st).
Definition put_time st (n : Z) : conc St :=
  mkC (mkFC (slots (sh st)) (tail_slot (sh st)) n (combine_cas (sh st)) (obj (sh st)))
      (pcs st) (trace st).
Definition log st (e : event) : conc St := mkC (sh st) (pcs st) (e :: trace st).

Definition set_valid (s : SlotInfo) (b : bool) : SlotInfo :=
  mkSlot b (operation s) (parameter s) (ret_val s) (op_timestamp s) (is_slot_linked s)
         (next_slot s).
Definition set_ret (s : SlotInfo) (r : Z) : SlotInfo :=
  mkSlot (is_request_valid s) (operation s) (parameter s) r (op_timestamp s)
         (is_slot_linked s) (next_slot s).

(** A call [fc_operation(t, op, param, slot)]: the request is written to the slot
    but not yet valid. *)
Definition invoke st (t op param : Z) : result (conc St) :=
  s ← of_opt (slots (sh st) !! t);
  Ok (goto (log (put st t (mkSlot (is_request_valid s) op param (ret_val s) (op_timestamp s)
                                  (is_slot_linked s) (next_slot s)))
                (Inv t op param)) t Publish).

(** One step of thread [t]. *)
Definition fc_step st (t : Z) : result (conc St) :=
  p ← of_opt (pcs st !! t);
  s ← of_opt (slots (sh st) !! t);
  match p with
  | Idle => NoFuel
  | Publish => Ok (goto (put st t (set_valid s true)) t (LinkA BeforeTry))
  | LinkA c =>
      Ok (goto st t (if is_slot_linked s then after c
                     else match c with InSpin => Enq1 c | _ => LinkB c end))
  | LinkB c => Ok (goto st t (if is_request_valid s then Enq1 c else after c))
  | Enq1 c => Ok (goto (put st t (set_linked s true)) t (Enq2 c))
  | Enq2 c => Ok (goto (put st t (set_stamp s (operation_timestamp (sh st)))) t (Enq3 c))
  | Enq3 c =>
      let f := sh st in
      Ok (mkC (mkFC (<[t := set_next s (tail_slot f)]> (slots f)) t
                    (operation_timestamp f) (combine_cas f) (obj f))
              (<[t := after c]> (pcs st)) (trace st))
  | Try =>
      if combine_cas (sh st) =? 0
      then Ok (goto (put_cas st LOCKED_CAS) t (LinkA AfterLock))
      else Ok (goto st t SpinV)
  | CombStart => Ok (goto st t (Comb (tail_slot (sh st)) (tail_slot (sh st))))
  | Comb prev curr =>
      if curr =? 0 then Ok (goto st t Unlock)
      else
        c ← of_opt (slots (sh st) !! curr);
        Ok (goto st t
          (if is_request_valid c then Exec prev curr
           else if negb (curr =? prev) &&
                   (threshold <? s32 (operation_timestamp (sh st) - op_timestamp c))
                then Unl1 prev curr else Adv curr))
  | Exec prev curr =>
      c ← of_opt (slots (sh st) !! curr);
      '(o', r) ← exec (obj (sh st)) (operation c) (parameter c);
      let f := sh st in
      Ok (mkC (mkFC (<[curr := set_ret c r]> (slots f)) (tail_slot f) (operation_timestamp f)
                    (combine_cas f) o')
              (<[t := Stamp prev curr]> (pcs st))
              (Lin curr (operation c) (parameter c) r :: trace st))
  | Stamp prev curr =>
      c ← of_opt (slots (sh st) !! curr);
      Ok (goto (put st curr (set_stamp c (operation_timestamp (sh st)))) t (Fin prev curr))
  | Fin prev curr =>
      c ← of_opt (slots (sh st) !! curr);
      Ok (goto (put st curr (set_valid c false)) t (Bump curr))
  | Bump curr =>
      Ok (goto (put_time st (s32 (operation_timestamp (sh st) + 1))) t (Adv curr))
  | Adv curr => c ← of_opt (slots (sh st) !! curr); Ok (goto st t (Comb curr (next_slot c)))
  | Unl1 prev curr =>
      pr ← of_opt (slots (sh st) !! prev);
      c ← of_opt (slots (sh st) !! curr);
      Ok (goto (put st prev (set_next pr (next_slot c))) t (Unl2 prev curr))
  | Unl2 prev curr =>
      c ← of_opt (slots (sh st) !! curr);
      Ok (goto (put st curr (set_linked c false)) t (Unl3 prev))
  | Unl3 prev => pr ← of_opt (slots (sh st) !! prev); Ok (goto st t (Comb prev (next_slot pr)))
  | Unlock => Ok (goto (put_cas st 0) t Return)
  | SpinV => Ok (goto st t (if is_request_valid s then SpinC else SpinEnd))
  | SpinC => Ok (goto st t (if combine_cas (sh st) =? 0 then SpinEnd else LinkA InSpin))
  | SpinEnd => Ok (goto st t (if is_request_valid s then Try else Return))
  | Return => Ok (goto (log st (Ret t (ret_val s))) t Idle)
  end.

Inductive step : conc St -> conc St -> Prop :=
  | step_invoke st st' t op param :
      pcs st !! t = Some Idle -> invoke st t op param = Ok st' -> step st st'
  | step_run st st' t : fc_step st t = Ok st' -> step st st'.

(** The threads [ts] with fresh slots, before any call. *)
Definition conc_init (ts : list Z) (stamp : Z) (o : St) : conc St :=
  mkC (mkFC (list_to_map ((fun t => (t, SlotInfo_new)) <$> ts)) 0 stamp 0 o)
      (list_to_map ((fun t => (t, Idle)) <$> ts)) [].

Definition reachable (ts : list Z) (stamp : Z) (o : St) : conc St -> Prop :=
  rtc step (conc_init ts stamp o).

End steps.

(** ** The invariant *)

Definition at_lock (c : place) : bool := match c with AfterLock => true | _ => false end.

(** Between taking and releasing [combine_cas]. *)
Definition cs (p : pc) : bool :=
  match p with
  | LinkA c | LinkB c | Enq1 c | Enq2 c | Enq3 c => at_lock c
  | CombStart | Comb _ _ | Exec _ _ | Stamp _ _ | Fin _ _ | Bump _ | Adv _ | Unl1 _ _ | Unl2 _ _ | Unl3 _
  | Unlock => true
  | _ => false
  end.

(** The slot is marked linked but not yet in the list. *)
Definition entering (p : pc) : bool := match p with Enq2 _ | Enq3 _ => true | _ => false end.
(** The owner has seen the slot unlinked. *)
Definition outside (p : pc) : bool :=
  match p with LinkB _ | Enq1 _ | Enq2 _ | Enq3 _ => true | _ => false end.
(** The owner's request is not pending. *)
Definition settled (p : pc) : bool :=
  match p with Idle | Publish | Unlock | Return => true | _ => false end.

(** The slot the lock holder has taken out of the list but not yet marked. *)
Definition leaving (h : option (Z * pc)) (i : Z) : bool :=
  match h with Some (_, Unl2 _ curr) => bool_decide (i = curr) | _ => false end.
(** The slot whose request the lock holder has executed but not yet cleared. *)
Definition executed (h : option (Z * pc)) (i : Z) : bool :=
  match h with Some (_, (Stamp _ curr | Fin _ curr)) => bool_decide (i = curr) | _ => false end.

Definition expected (h : option (Z * pc)) (p : pc) (t : Z) (s : SlotInfo) : tstat :=
  match p with
  | Idle => Out
  | Publish => Called (operation s) (parameter s)
  | _ => if is_request_valid s && negb (executed h t)
         then Called (operation s) (parameter s) else Answered (ret_val s)
  end.

Definition todo (sl : gmap Z SlotInfo) (t : Z) (l : list Z) : Prop :=
  forall s, sl !! t = Some s -> is_request_valid s = true -> t ∈ l.
Definition valid_at (sl : gmap Z SlotInfo) (i : Z) : Prop :=
  exists s, sl !! i = Some s /\ is_request_valid s = true.

(** Where the lock holder is in the list: its own request, if still pending, is
    ahead. *)
Definition position (sl : gmap Z SlotInfo) (ids : list Z) (t : Z) (p : pc) : Prop :=
  match p with
  | CombStart => todo sl t ids
  | Comb prev curr => exists pre suf, ids = pre ++ suf /\ curr = head_or 0 suf /\
      (prev = curr \/ exists pre', pre = pre' ++ [prev]) /\ todo sl t suf
  | Exec _ curr | Stamp _ curr | Fin _ curr => exists pre suf, ids = pre ++ curr :: suf /\
      todo sl t (curr :: suf) /\ valid_at sl curr
  | Bump curr | Adv curr => exists pre suf, ids = pre ++ curr :: suf /\ todo sl t suf
  | Unl1 prev curr => exists pre suf, ids = pre ++ prev :: curr :: suf /\ todo sl t suf
  | Unl2 prev _ | Unl3 prev => exists pre suf, ids = pre ++ prev :: suf /\ todo sl t suf
  | _ => True
  end.

Section invariant.
Context {St A : Type} {OO : ObjOps St} {SO : SeqObj St A} (threshold : Z).
Implicit Types (st : conc St) (ids : list Z) (h : option (Z * pc)).

(** [ids] are the linked slots, [h] the thread that holds the lock. *)
Record inv st ids h : Prop := {
  iv_dom t : is_Some (pcs st !! t) <-> is_Some (slots (sh st) !! t);
  iv_nz t : is_Some (pcs st !! t) -> t <> 0;
  iv_chain : slot_chain (slots (sh st)) (tail_slot (sh st)) ids;
  iv_nodup : NoDup ids;
  iv_cas : combine_cas (sh st) = match h with Some _ => LOCKED_CAS | None => 0 end;
  iv_cs t p : pcs st !! t = Some p -> cs p = true -> h = Some (t, p);
  iv_h t p : h = Some (t, p) -> pcs st !! t = Some p /\ cs p = true;
  iv_link i s p : slots (sh st) !! i = Some s -> pcs st !! i = Some p ->
    is_slot_linked s = bool_decide (i ∈ ids) || entering p || leaving h i;
  iv_out i p : pcs st !! i = Some p -> outside p = true -> i ∉ ids /\ leaving h i = false;
  iv_leave i : leaving h i = true -> i ∉ ids /\ is_Some (slots (sh st) !! i);
  iv_status t s p : slots (sh st) !! t = Some s -> pcs st !! t = Some p ->
    status t (trace st) = Some (expected h p t s);
  iv_settled t s p : slots (sh st) !! t = Some s -> pcs st !! t = Some p ->
    settled p = true -> is_request_valid s = false;
  iv_pos t p : h = Some (t, p) -> position (slots (sh st)) ids t p;
}.

Ltac lk H i j :=
  destruct (decide (i = j)) as [->|?];
  [rewrite lookup_insert_eq in H; simplify_eq|rewrite lookup_insert_ne in H by done].

(** The position of the lock holder is stable when slot [i] changes and its
    request does not become invalid or belongs to another thread. *)
Lemma position_upd sl ids t p i s s' :
  sl !! i = Some s ->
  (is_request_valid s = true -> is_request_valid s' = true) ->
  (i = t -> is_request_valid s' = is_request_valid s) ->
  position sl ids t p -> position (<[i := s']> sl) ids t p.
Proof.
  intros Hs Hmono Hown.
  assert (Htodo : forall l, todo sl t l -> todo (<[i := s']> sl) t l).
  { intros l Hl u Hu Hv. lk Hu i t; [|by eapply Hl]. eapply Hl; [exact Hs|]. by rewrite <- Hown. }
  assert (Hva : forall j, valid_at sl j -> valid_at (<[i := s']> sl) j).
  { intros j (u & Hu & Hv). destruct (decide (i = j)) as [->|].
    - exists s'. rewrite lookup_insert_eq. simplify_eq. auto.
    - exists u. by rewrite lookup_insert_ne. }
  destruct p; simpl; naive_solver.
Qed.

Lemma is_Some_insert {V} (m : gmap Z V) i j v w :
  m !! i = Some w -> is_Some (<[i := v]> m !! j) <-> is_Some (m !! j).
Proof.
  intros Hw. destruct (decide (i = j)) as [->|]; [rewrite lookup_insert_eq, Hw; split; eauto|].
  by rewrite lookup_insert_ne.
Qed.

(** A step of [t] that changes its program counter and its own slot only. *)
Lemma inv_own st ids h t p p' s s' :
  inv st ids h -> pcs st !! t = Some p -> slots (sh st) !! t = Some s ->
  next_slot s' = next_slot s -> cs p' = cs p ->
  (is_request_valid s = true -> is_request_valid s' = true) ->
  let h' := if cs p then Some (t, p') else h in
  (forall i, leaving h' i = leaving h i) -> (forall i, executed h' i = executed h i) ->
  is_slot_linked s' = bool_decide (t ∈ ids) || entering p' || leaving h t ->
  (outside p' = true -> t ∉ ids /\ leaving h t = false) ->
  expected h p' t s' = expected h p t s ->
  (settled p' = true -> is_request_valid s' = false) ->
  (cs p = true -> position (<[t := s']> (slots (sh st))) ids t p') ->
  inv (goto (put st t s') t p') ids h'.
Proof.
  intros [Idom Inz Ich Ind Icas Ics Ih Ilink Iout Ileave Ist Iset Ipos]
    Hp Hs Hn Hcs Hmono h' Hlv Hex Hlink Hout Hexp Hset Hpos.
  assert (Hexp' : forall q i u, expected h' q i u = expected h q i u).
  { intros q i u. unfold expected. by rewrite Hex. }
  split; simpl; [intros i|intros i|..|intros i q|intros i q|intros i u q|intros i q
    |intros i|intros i u q|intros i u q|intros i q].
  - rewrite !(is_Some_insert _ t i _ _ Hp), (is_Some_insert _ t i _ _ Hs). apply Idom.
  - rewrite (is_Some_insert _ t i _ _ Hp). apply Inz.
  - by apply slot_chain_upd with s.
  - done.
  - rewrite Icas. subst h'. destruct (cs p) eqn:E; [|done]. by rewrite (Ics t p Hp E).
  - intros Hi Hc. lk Hi t i; subst h'.
    + by rewrite <- Hcs, Hc.
    + destruct (cs p) eqn:E; [|by apply Ics]. pose proof (Ics _ _ Hp E). pose proof (Ics _ _ Hi Hc).
      simplify_eq.
  - subst h'. destruct (cs p) eqn:E.
    + intros [= <- <-]. rewrite lookup_insert_eq. by rewrite Hcs.
    + intros Hh. destruct (Ih i q Hh) as [Hi Hc]. rewrite lookup_insert_ne; [done|].
      intros ->. rewrite Hp in Hi. simplify_eq. congruence.
  - intros Hi Hq. rewrite Hlv. lk Hq t i; [rewrite lookup_insert_eq in Hi; by simplify_eq|].
    rewrite lookup_insert_ne in Hi by done. eauto.
  - intros Hq Ho. rewrite Hlv. lk Hq t i; eauto.
  - rewrite Hlv. intros Hi. rewrite (is_Some_insert _ t i _ _ Hs). auto.
  - intros Hi Hq. rewrite Hexp'. lk Hq t i.
    + rewrite lookup_insert_eq in Hi. simplify_eq. rewrite Hexp. eauto.
    + rewrite lookup_insert_ne in Hi by done. eauto.
  - intros Hi Hq. lk Hq t i; [rewrite lookup_insert_eq in Hi; simplify_eq; eauto|].
    rewrite lookup_insert_ne in Hi by done. eauto.
  - subst h'. destruct (cs p) eqn:E.
    + intros [= <- <-]. auto.
    + intros Hh. eapply position_upd; [done|done| |by apply Ipos].
      intros ->. destruct (Ih _ _ Hh) as [? ?]. simplify_eq. congruence.
Qed.

(** The same when the slot does not change. *)
Lemma inv_goto st ids h t p p' s :
  inv st ids h -> pcs st !! t = Some p -> slots (sh st) !! t = Some s ->
  cs p' = cs p -> entering p' = entering p ->
  let h' := if cs p then Some (t, p') else h in
  (forall i, leaving h' i = leaving h i) -> (forall i, executed h' i = executed h i) ->
  (outside p' = true -> t ∉ ids /\ leaving h t = false) ->
  expected h p' t s = expected h p t s ->
  (settled p' = true -> is_request_valid s = false) ->
  (cs p = true -> position (slots (sh st)) ids t p') ->
  inv (goto st t p') ids h'.
Proof.
  intros Hinv Hp Hs Hcs Hent h' Hlv Hex Hout Hexp Hset Hpos.
  replace (goto st t p') with (goto (put st t s) t p').
  - apply inv_own with (p := p) (s := s); try done; rewrite ?Hent; [eapply iv_link; eauto|].
    by rewrite insert_id.
  - unfold goto, put, upd_slots. destruct st as [[]]; simpl in *. by rewrite insert_id.
Qed.

(** The slots of a list, one at a time. *)
Lemma slot_chain_head sl p l : slot_chain sl p l -> p = head_or 0 l.
Proof. destruct l; [done|]. by intros (-> & _). Qed.

Lemma slot_chain_at sl p pre i suf :
  slot_chain sl p (pre ++ i :: suf) ->
  i <> 0 /\ exists s, sl !! i = Some s /\ next_slot s = head_or 0 suf.
Proof.
  revert p; induction pre as [|j pre IH]; intros p; simpl.
  - intros (_ & Hi & s & Hs & Hc). split; [done|]. exists s. split; [done|].
    by eapply slot_chain_head.
  - intros (_ & _ & s & _ & Hc). by eapply IH.
Qed.

Lemma slot_chain_unlink sl p pre prev curr suf pr c :
  NoDup (pre ++ prev :: curr :: suf) -> sl !! prev = Some pr -> sl !! curr = Some c ->
  slot_chain sl p (pre ++ prev :: curr :: suf) ->
  slot_chain (<[prev := set_next pr (next_slot c)]> sl) p (pre ++ prev :: suf).
Proof.
  intros Hnd Hp Hc. revert p; induction pre as [|j pre IH]; intros p; simpl.
  - intros (-> & Hi & s & Hs & _ & _ & c' & Hc' & Hch). split_and!; [done..|].
    eexists. rewrite lookup_insert_eq. split; [done|]. simpl. simplify_eq.
    eapply slot_chain_ext; [|exact Hch]. intros k Hk. apply lookup_insert_ne.
    apply NoDup_cons in Hnd as [? _]. set_solver.
  - intros (-> & Hj & s & Hs & Hch). apply NoDup_cons in Hnd as [Hn Hnd].
    split_and!; [done..|]. exists s. rewrite lookup_insert_ne by set_solver.
    split; [done|]. by apply IH.
Qed.

Lemma inv_enq3 st ids h t c s :
  inv st ids h -> pcs st !! t = Some (Enq3 c) -> slots (sh st) !! t = Some s ->
  exists h', inv (mkC (mkFC (<[t := set_next s (tail_slot (sh st))]> (slots (sh st))) t
                  (operation_timestamp (sh st)) (combine_cas (sh st)) (obj (sh st)))
            (<[t := after c]> (pcs st)) (trace st)) (t :: ids) h'.
Proof.
  intros [Idom Inz Ich Ind Icas Ics Ih Ilink Iout Ileave Ist Iset Ipos] Hp Hs.
  destruct (Iout t _ Hp eq_refl) as [Hnin Hnl].
  assert (Hlt : is_slot_linked s = true) by (rewrite (Ilink t s _ Hs Hp); simpl; by rewrite orb_true_r).
  set (h' := if at_lock c then Some (t, after c) else h).
  assert (Hlv : forall i, leaving h' i = leaving h i).
  { intros i. subst h'. destruct (at_lock c) eqn:E; [|done]. rewrite (Ics t _ Hp E). by destruct c. }
  assert (Hex : forall i, executed h' i = executed h i).
  { intros i. subst h'. destruct (at_lock c) eqn:E; [|done]. rewrite (Ics t _ Hp E). by destruct c. }
  assert (Hexp' : forall q i u, expected h' q i u = expected h q i u).
  { intros q i u. unfold expected. by rewrite Hex. }
  assert (Hnotset : outside (after c) = false /\ settled (after c) = false /\
    cs (after c) = at_lock c /\ entering (after c) = false) by by destruct c.
  destruct Hnotset as (Hno & Hns & Hca & Hne).
  exists h'. split; simpl; [intros i|intros i|..|intros i q|intros i q|intros i u q|intros i q
    |intros i|intros i u q|intros i u q|intros i q].
  - rewrite (is_Some_insert _ t i _ _ Hp), (is_Some_insert _ t i _ _ Hs). apply Idom.
  - rewrite (is_Some_insert _ t i _ _ Hp). apply Inz.
  - split_and!; [done|by apply Inz; eauto|]. eexists. rewrite lookup_insert_eq. split; [done|].
    simpl. eapply slot_chain_ext; [|exact Ich]. intros j Hj. apply lookup_insert_ne. set_solver.
  - by apply NoDup_cons.
  - rewrite Icas. subst h'. destruct (at_lock c) eqn:E; [|done]. by rewrite (Ics t _ Hp E).
  - intros Hi Hc. lk Hi t i; subst h'.
    + by rewrite <- Hca, Hc.
    + destruct (at_lock c) eqn:E; [|by apply Ics]. pose proof (Ics _ _ Hp E).
      pose proof (Ics _ _ Hi Hc). simplify_eq.
  - subst h'. destruct (at_lock c) eqn:E.
    + intros [= <- <-]. rewrite lookup_insert_eq. by rewrite Hca.
    + intros Hh. destruct (Ih i q Hh) as [Hi Hc]. rewrite lookup_insert_ne; [done|].
      intros ->. rewrite Hp in Hi. simplify_eq. simpl in Hc. congruence.
  - intros Hi Hq. rewrite Hlv. lk Hq t i.
    + rewrite lookup_insert_eq in Hi. simplify_eq. simpl. rewrite Hlt.
      rewrite bool_decide_true by set_solver. done.
    + rewrite lookup_insert_ne in Hi by done. rewrite (Ilink i u q Hi Hq). f_equal. f_equal.
      apply bool_decide_ext. set_solver.
  - intros Hq Ho. rewrite Hlv. lk Hq t i; [congruence|]. destruct (Iout i q Hq Ho). set_solver.
  - rewrite Hlv. intros Hi. rewrite (is_Some_insert _ t i _ _ Hs).
    destruct (Ileave i Hi). split; [|done]. intros [->|?]%elem_of_cons; [congruence|done].
  - intros Hi Hq. rewrite Hexp'. lk Hq t i.
    + rewrite lookup_insert_eq in Hi. simplify_eq. rewrite (Ist i s _ Hs Hp). by destruct c.
    + rewrite lookup_insert_ne in Hi by done. eauto.
  - intros Hi Hq. lk Hq t i; [congruence|]. rewrite lookup_insert_ne in Hi by done. eauto.
  - subst h'. destruct (at_lock c) eqn:E.
    + intros [= <- <-]. destruct c; try done. simpl. intros ? _ _. set_solver.
    + intros Hh. assert (Hne' : i <> t).
      { intros ->. destruct (Ih _ _ Hh) as [? Hc]. simplify_eq. simpl in Hc. congruence. }
      assert (Hpos : position (<[t := set_next s (tail_slot (sh st))]> (slots (sh st))) ids i q)
        by (eapply position_upd; eauto; congruence).
      destruct q; simpl in *; try done;
        [intros u Hu Hv; specialize (Hpos u Hu Hv); set_solver|..];
        destruct Hpos as (pre & suf & -> & Hpos); exists (t :: pre), suf; try done.
      destruct Hpos as (-> & Hpr & Htd). split_and!; try done.
      destruct Hpr as [?|[pre' ->]]; [by left|right]. by exists (t :: pre').
Qed.

Lemma inv_lock st ids h t s :
  inv st ids h -> pcs st !! t = Some Try -> slots (sh st) !! t = Some s ->
  combine_cas (sh st) = 0 ->
  inv (goto (put_cas st LOCKED_CAS) t (LinkA AfterLock)) ids (Some (t, LinkA AfterLock)).
Proof.
  intros [Idom Inz Ich Ind Icas Ics Ih Ilink Iout Ileave Ist Iset Ipos] Hp Hs Hc0.
  destruct h as [|]; [rewrite Hc0 in Icas; done|].
  split; simpl; [intros i|intros i|..|intros i q|intros i q|intros i u q|intros i q
    |intros i|intros i u q|intros i u q|intros i q]; try done.
  - rewrite (is_Some_insert _ t i _ _ Hp). apply Idom.
  - rewrite (is_Some_insert _ t i _ _ Hp). apply Inz.
  - intros Hi Hc. lk Hi t i; [done|]. specialize (Ics _ _ Hi Hc). done.
  - intros [= <- <-]. by rewrite lookup_insert_eq.
  - intros Hi Hq. lk Hq t i; [by erewrite (Ilink i) by eauto|by eapply Ilink].
  - intros Hq Ho. lk Hq t i; eauto.
  - intros Hi Hq. lk Hq t i; [by erewrite (Ist i) by eauto|by eapply Ist].
  - intros Hi Hq. lk Hq t i; [done|eauto].
  - by intros [= <- <-].
Qed.

Lemma inv_unlock st ids h t s :
  inv st ids h -> pcs st !! t = Some Unlock -> slots (sh st) !! t = Some s ->
  inv (goto (put_cas st 0) t Return) ids None.
Proof.
  intros [Idom Inz Ich Ind Icas Ics Ih Ilink Iout Ileave Ist Iset Ipos] Hp Hs.
  pose proof (Ics t _ Hp eq_refl) as ->.
  split; simpl; [intros i|intros i|..|intros i q|intros i q|intros i u q|intros i q
    |intros i|intros i u q|intros i u q|intros i q]; try done.
  - rewrite (is_Some_insert _ t i _ _ Hp). apply Idom.
  - rewrite (is_Some_insert _ t i _ _ Hp). apply Inz.
  - intros Hi Hc. lk Hi t i. pose proof (Ics _ _ Hi Hc). simplify_eq.
  - intros Hi Hq. lk Hq t i; [by erewrite (Ilink i) by eauto|by rewrite (Ilink i u _ Hi Hq)].
  - intros Hq Ho. lk Hq t i; eauto.
  - intros Hi Hq. lk Hq t i; [by erewrite (Ist i) by eauto|by rewrite (Ist i u _ Hi Hq)].
  - intros Hi Hq. lk Hq t i; eauto.
Qed.

Lemma inv_return st ids h t s :
  inv st ids h -> pcs st !! t = Some Return -> slots (sh st) !! t = Some s ->
  inv (goto (log st (Ret t (ret_val s))) t Idle) ids h.
Proof.
  intros Hinv Hp Hs. pose proof (iv_settled _ _ _ Hinv t s _ Hs Hp eq_refl) as Hv.
  pose proof (iv_status _ _ _ Hinv t s _ Hs Hp) as Hst. unfold expected in Hst. rewrite Hv in Hst.
  simpl in Hst. destruct Hinv as [Idom Inz Ich Ind Icas Ics Ih Ilink Iout Ileave Ist Iset Ipos].
  split; simpl; [intros i|intros i|..|intros i q|intros i q|intros i u q|intros i q
    |intros i|intros i u q|intros i u q|intros i q]; try done.
  - rewrite (is_Some_insert _ t i _ _ Hp). apply Idom.
  - rewrite (is_Some_insert _ t i _ _ Hp). apply Inz.
  - intros Hi Hc. lk Hi t i. eauto.
  - intros Hh. destruct (Ih i q Hh) as [Hi Hc]. rewrite lookup_insert_ne; [done|].
    intros ->. by simplify_eq.
  - intros Hi Hq. lk Hq t i; [by erewrite (Ilink i) by eauto|eauto].
  - intros Hq Ho. lk Hq t i; eauto.
  - eauto.
  - intros Hi Hq. case_decide as Hd.
    + subst i. rewrite lookup_insert_eq in Hq. simplify_eq. rewrite Hst. simpl. by case_decide.
    + rewrite lookup_insert_ne in Hq by done. eauto.
  - intros Hi Hq. lk Hq t i; eauto.
  - eauto.
Qed.

Lemma inv_invoke st ids h t op param st' :
  inv st ids h -> pcs st !! t = Some Idle -> invoke st t op param = Ok st' -> inv st' ids h.
Proof.
  intros Hinv Hp. unfold invoke. destruct (slots (sh st) !! t) as [s|] eqn:Hs; [|done]. simpl.
  intros [= <-]. pose proof (iv_settled _ _ _ Hinv t s _ Hs Hp eq_refl) as Hv.
  pose proof (iv_status _ _ _ Hinv t s _ Hs Hp) as Hst. simpl in Hst.
  destruct Hinv as [Idom Inz Ich Ind Icas Ics Ih Ilink Iout Ileave Ist Iset Ipos].
  set (s' := mkSlot _ _ _ _ _ _ _).
  assert (Hneh : forall i q, h = Some (i, q) -> i <> t).
  { intros i q Hh ->. destruct (Ih _ _ Hh). by simplify_eq. }
  split; simpl; [intros i|intros i|..|intros i q|intros i q|intros i u q|intros i q
    |intros i|intros i u q|intros i u q|intros i q]; try done.
  - rewrite (is_Some_insert _ t i _ _ Hp), (is_Some_insert _ t i _ _ Hs). apply Idom.
  - rewrite (is_Some_insert _ t i _ _ Hp). apply Inz.
  - by apply slot_chain_upd with s.
  - intros Hi Hc. lk Hi t i. eauto.
  - intros Hh. rewrite lookup_insert_ne by (intros ->; by eapply Hneh). eauto.
  - intros Hi Hq. lk Hq t i.
    + rewrite lookup_insert_eq in Hi. simplify_eq. simpl. by erewrite (Ilink i) by eauto.
    + rewrite lookup_insert_ne in Hi by done. eauto.
  - intros Hq Ho. lk Hq t i; eauto.
  - rewrite (is_Some_insert _ t i _ _ Hs). eauto.
  - intros Hi Hq. case_decide as Hd.
    + subst i. rewrite lookup_insert_eq in Hq. rewrite lookup_insert_eq in Hi.
      simplify_eq. by rewrite Hst.
    + rewrite lookup_insert_ne in Hq by done. rewrite lookup_insert_ne in Hi by done. eauto.
  - intros Hi Hq. lk Hq t i; [by rewrite lookup_insert_eq in Hi; simplify_eq|].
    rewrite lookup_insert_ne in Hi by done. eauto.
  - intros Hh. eapply position_upd; eauto.
Qed.

#[local] Arguments leaving : simpl never.
#[local] Arguments executed : simpl never.

(** A step of the lock holder [t] that changes slot [i] and keeps the list. *)
Lemma inv_holder st ids t p p' i s s' o ts tr :
  inv st ids (Some (t, p)) -> slots (sh st) !! i = Some s ->
  next_slot s' = next_slot s -> cs p' = true ->
  entering p = false -> entering p' = false -> outside p' = false -> settled p' = false ->
  (forall j, leaving (Some (t, p')) j = true -> leaving (Some (t, p)) j = true) ->
  (is_request_valid s' = true -> is_request_valid s = true) ->
  (forall q, pcs st !! i = Some q ->
     is_slot_linked s' = bool_decide (i ∈ ids) || entering q || leaving (Some (t, p')) i) ->
  (forall j, j <> i -> leaving (Some (t, p')) j = leaving (Some (t, p)) j) ->
  (forall j q u, <[t := p']> (pcs st) !! j = Some q -> <[i := s']> (slots (sh st)) !! j = Some u ->
     status j tr = Some (expected (Some (t, p')) q j u)) ->
  position (<[i := s']> (slots (sh st))) ids t p' ->
  inv (mkC (mkFC (<[i := s']> (slots (sh st))) (tail_slot (sh st)) ts (combine_cas (sh st)) o)
           (<[t := p']> (pcs st)) tr) ids (Some (t, p')).
Proof.
  intros [Idom Inz Ich Ind Icas Ics Ih Ilink Iout Ileave Ist Iset Ipos]
    Hs Hn Hcs He He' Ho' Hset Hlv Hval Hlink Hlv' Hst Hpos.
  destruct (Ih t p eq_refl) as [Hp Hc].
  split; simpl; [intros j|intros j|..|intros j q|intros j q|intros j u q|intros j q
    |intros j|intros j u q|intros j u q|intros j q]; try done.
  - rewrite (is_Some_insert _ t j _ _ Hp), (is_Some_insert _ i j _ _ Hs). apply Idom.
  - rewrite (is_Some_insert _ t j _ _ Hp). apply Inz.
  - by apply slot_chain_upd with s.
  - intros Hj Hcj. lk Hj t j; [done|]. pose proof (Ics _ _ Hj Hcj). simplify_eq.
  - intros [= <- <-]. by rewrite lookup_insert_eq.
  - intros Hj Hq. lk Hj i j.
    + lk Hq t j; [|by apply Hlink]. specialize (Hlink p Hp). rewrite He in Hlink. by rewrite He'.
    + rewrite Hlv' by done. lk Hq t j; [|by eapply Ilink].
      specialize (Ilink j u p Hj Hp). rewrite He in Ilink. by rewrite He'.
  - intros Hq Ho. lk Hq t j; [congruence|]. destruct (Iout j q Hq Ho) as [? Hl].
    split; [done|]. destruct (leaving (Some (t, p')) j) eqn:E; [|done].
    apply Hlv in E. congruence.
  - intros Hj. apply Hlv in Hj. rewrite (is_Some_insert _ i j _ _ Hs). eauto.
  - eauto.
  - intros Hj Hq Hset'. lk Hq t j; [congruence|]. lk Hj i j; [|eauto].
    destruct (is_request_valid u) eqn:E; [|done]. rewrite <- (Iset j s q Hs Hq Hset'). symmetry. auto.
  - by intros [= <- <-].
Qed.

Lemma expected_active h p t s : p <> Idle -> p <> Publish ->
  expected h p t s = if is_request_valid s && negb (executed h t)
                     then Called (operation s) (parameter s) else Answered (ret_val s).
Proof. by destruct p. Qed.

Lemma pending_active st ids h t s p :
  inv st ids h -> slots (sh st) !! t = Some s -> pcs st !! t = Some p ->
  is_request_valid s = true -> p <> Idle /\ p <> Publish.
Proof.
  intros Hinv Hs Hp Hv.
  split; intros ->; rewrite (iv_settled _ _ _ Hinv t s _ Hs Hp) in Hv; done.
Qed.

Lemma inv_exec st ids t prev curr c o' r :
  inv st ids (Some (t, Exec prev curr)) -> slots (sh st) !! curr = Some c ->
  status curr (trace st) = Some (Called (operation c) (parameter c)) /\
  inv (mkC (mkFC (<[curr := set_ret c r]> (slots (sh st))) (tail_slot (sh st))
                 (operation_timestamp (sh st)) (combine_cas (sh st)) o')
           (<[t := Stamp prev curr]> (pcs st))
           (Lin curr (operation c) (parameter c) r :: trace st)) ids (Some (t, Stamp prev curr)).
Proof.
  intros Hinv Hc. destruct (iv_pos _ _ _ Hinv t _ eq_refl) as (pre & suf & Hids & Htodo & c' & Hc' & Hv).
  simplify_eq. destruct (iv_h _ _ _ Hinv t _ eq_refl) as [Hp _].
  assert (Hq : is_Some (pcs st !! curr)) by (apply (iv_dom _ _ _ Hinv); eauto).
  destruct Hq as [q0 Hq0]. destruct (pending_active _ _ _ _ _ _ Hinv Hc Hq0 Hv) as [Hn1 Hn2].
  assert (Hst : status curr (trace st) = Some (Called (operation c) (parameter c))).
  { rewrite (iv_status _ _ _ Hinv curr c q0 Hc Hq0), expected_active by done.
    by rewrite Hv. }
  split; [done|]. apply inv_holder with (p := Exec prev curr) (s := c); try (unfold leaving; done).
  - intros q Hq. exact (iv_link _ _ _ Hinv curr c q Hc Hq).
  - intros j q u Hj Hu. destruct (decide (j = curr)) as [->|Hne].
    + rewrite lookup_insert_eq in Hu. injection Hu as <-.
      erewrite status_own; [|done|exact Hst]. simpl. rewrite decide_True by done.
      rewrite expected_active.
      * unfold executed. rewrite bool_decide_true by done. by rewrite andb_false_r.
      * lk Hj t curr; congruence.
      * lk Hj t curr; congruence.
    + rewrite status_other by done. rewrite lookup_insert_ne in Hu by done. lk Hj t j.
      * rewrite (iv_status _ _ _ Hinv j u _ Hu Hp), !expected_active by done.
        unfold executed. by rewrite bool_decide_false.
      * rewrite (iv_status _ _ _ Hinv j u _ Hu Hj). unfold expected, executed.
        by rewrite bool_decide_false.
  - simpl. exists pre, suf. split; [done|]. split.
    + intros u Hu Hvu. lk Hu curr t; [set_solver|eauto].
    + eexists. rewrite lookup_insert_eq. done.
Qed.

Lemma inv_stamp st ids t prev curr c :
  inv st ids (Some (t, Stamp prev curr)) -> slots (sh st) !! curr = Some c ->
  inv (goto (put st curr (set_stamp c (operation_timestamp (sh st)))) t (Fin prev curr)) ids
      (Some (t, Fin prev curr)).
Proof.
  intros Hinv Hc. destruct (iv_pos _ _ _ Hinv t _ eq_refl) as (pre & suf & Hids & Htodo & c' & Hc' & Hv).
  simplify_eq. destruct (iv_h _ _ _ Hinv t _ eq_refl) as [Hp _].
  unfold goto, put, upd_slots. cbn [sh pcs trace].
  apply inv_holder with (p := Stamp prev curr) (s := c); try (unfold leaving; done).
  - intros q Hq. exact (iv_link _ _ _ Hinv curr c q Hc Hq).
  - intros j q u Hj Hu. lk Hu curr j.
    + lk Hj t j; [rewrite (iv_status _ _ _ Hinv j c _ Hc Hp)|rewrite (iv_status _ _ _ Hinv j c _ Hc Hj)];
        done.
    + lk Hj t j; [by rewrite (iv_status _ _ _ Hinv j u _ Hu Hp)|].
      by rewrite (iv_status _ _ _ Hinv j u _ Hu Hj).
  - simpl. exists pre, suf. split; [done|]. split.
    + intros u Hu Hvu. lk Hu curr t; [set_solver|eauto].
    + eexists. rewrite lookup_insert_eq. done.
Qed.

Lemma inv_fin st ids t prev curr c :
  inv st ids (Some (t, Fin prev curr)) -> slots (sh st) !! curr = Some c ->
  inv (goto (put st curr (set_valid c false)) t (Bump curr)) ids (Some (t, Bump curr)).
Proof.
  intros Hinv Hc. destruct (iv_pos _ _ _ Hinv t _ eq_refl) as (pre & suf & Hids & Htodo & c' & Hc' & Hv).
  simplify_eq. destruct (iv_h _ _ _ Hinv t _ eq_refl) as [Hp _].
  assert (Hq : is_Some (pcs st !! curr)) by (apply (iv_dom _ _ _ Hinv); eauto).
  destruct Hq as [q0 Hq0]. destruct (pending_active _ _ _ _ _ _ Hinv Hc Hq0 Hv) as [Hn1 Hn2].
  unfold goto, put, upd_slots. cbn [sh pcs trace].
  apply inv_holder with (p := Fin prev curr) (s := c); try (unfold leaving; done).
  - intros q Hq. exact (iv_link _ _ _ Hinv curr c q Hc Hq).
  - intros j q u Hj Hu. destruct (decide (j = curr)) as [->|Hne].
    + rewrite lookup_insert_eq in Hu. injection Hu as <-.
      rewrite (iv_status _ _ _ Hinv curr c q0 Hc Hq0), !expected_active; try done.
      * unfold executed. rewrite bool_decide_true by done. by rewrite andb_false_r.
      * lk Hj t curr; congruence.
      * lk Hj t curr; congruence.
    + rewrite lookup_insert_ne in Hu by done. lk Hj t j.
      * rewrite (iv_status _ _ _ Hinv j u _ Hu Hp), !expected_active by done.
        unfold executed. by rewrite bool_decide_false.
      * rewrite (iv_status _ _ _ Hinv j u _ Hu Hj). unfold expected, executed.
        by rewrite bool_decide_false.
  - simpl. exists pre, suf. split; [done|]. intros u Hu Hvu. lk Hu curr t.
    specialize (Htodo u Hu Hvu). set_solver.
Qed.

Lemma inv_time st ids h n : inv st ids h -> inv (put_time st n) ids h.
Proof. intros []. split; done. Qed.

Lemma inv_unl2 st ids t prev curr c :
  inv st ids (Some (t, Unl2 prev curr)) -> slots (sh st) !! curr = Some c ->
  inv (goto (put st curr (set_linked c false)) t (Unl3 prev)) ids (Some (t, Unl3 prev)).
Proof.
  intros Hinv Hc. pose proof (iv_pos _ _ _ Hinv t _ eq_refl) as Hpos.
  destruct (iv_h _ _ _ Hinv t _ eq_refl) as [Hp _].
  assert (Hl : leaving (Some (t, Unl2 prev curr)) curr = true) by by apply bool_decide_true.
  destruct (iv_leave _ _ _ Hinv curr Hl) as [Hnin _].
  unfold goto, put, upd_slots. cbn [sh pcs trace].
  apply inv_holder with (p := Unl2 prev curr) (s := c); try (unfold leaving; done).
  - intros q Hq. simpl. rewrite bool_decide_false by done. simpl.
    destruct (entering q) eqn:E; [|done].
    destruct (iv_out _ _ _ Hinv curr q Hq) as [_ Hl']; [by destruct q|]. congruence.
  - intros j Hj. unfold leaving. by rewrite bool_decide_false.
  - intros j q u Hj Hu. lk Hu curr j.
    + lk Hj t j; [rewrite (iv_status _ _ _ Hinv j c _ Hc Hp)|rewrite (iv_status _ _ _ Hinv j c _ Hc Hj)];
        done.
    + lk Hj t j; [by rewrite (iv_status _ _ _ Hinv j u _ Hu Hp)|].
      by rewrite (iv_status _ _ _ Hinv j u _ Hu Hj).
  - destruct Hpos as (pre & suf & -> & Htodo). simpl. exists pre, suf. split; [done|].
    intros u Hu Hvu. lk Hu curr t; eauto.
Qed.

Lemma inv_unl1 st ids t prev curr pr c :
  inv st ids (Some (t, Unl1 prev curr)) ->
  slots (sh st) !! prev = Some pr -> slots (sh st) !! curr = Some c ->
  exists ids', inv (goto (put st prev (set_next pr (next_slot c))) t (Unl2 prev curr)) ids'
                   (Some (t, Unl2 prev curr)).
Proof.
  intros [Idom Inz Ich Ind Icas Ics Ih Ilink Iout Ileave Ist Iset Ipos] Hpr Hc.
  destruct (Ipos t _ eq_refl) as (pre & suf & -> & Htodo). destruct (Ih t _ eq_refl) as [Hp _].
  assert (Hmem : forall j, j ∈ pre ++ prev :: curr :: suf <-> j = curr \/ j ∈ pre ++ prev :: suf)
    by set_solver.
  assert (Hcn : curr ∉ pre ++ prev :: suf).
  { replace (pre ++ prev :: curr :: suf) with ((pre ++ [prev]) ++ curr :: suf) in Ind
      by (by rewrite <- app_assoc).
    apply NoDup_app in Ind as (_ & Hd & Hn%NoDup_cons). intros Hin.
    replace (pre ++ prev :: suf) with ((pre ++ [prev]) ++ suf) in Hin by (by rewrite <- app_assoc).
    apply elem_of_app in Hin as [Hin|Hin]; [|by destruct Hn]. eapply Hd; [exact Hin|set_solver]. }
  assert (Hsub : pre ++ prev :: suf `sublist_of` pre ++ prev :: curr :: suf).
  { apply sublist_app; [done|]. apply sublist_skip. by apply sublist_cons. }
  exists (pre ++ prev :: suf).
  split; simpl; [intros j|intros j|..|intros j q|intros j q|intros j u q|intros j q
    |intros j|intros j u q|intros j u q|intros j q]; try done.
  - rewrite (is_Some_insert _ t j _ _ Hp), (is_Some_insert _ prev j _ _ Hpr). apply Idom.
  - rewrite (is_Some_insert _ t j _ _ Hp). apply Inz.
  - by apply slot_chain_unlink with (curr := curr).
  - by eapply sublist_NoDup.
  - intros Hj Hcj. lk Hj t j; [done|]. pose proof (Ics _ _ Hj Hcj). simplify_eq.
  - intros [= <- <-]. by rewrite lookup_insert_eq.
  - intros Hj Hq.
    assert (exists u0 q0, slots (sh st) !! j = Some u0 /\ pcs st !! j = Some q0 /\
              is_slot_linked u0 = is_slot_linked u /\ entering q0 = entering q)
      as (u0 & q0 & Hu0 & Hq0 & <- & <-).
    { lk Hj prev j; lk Hq t j; eauto 10. }
    rewrite (Ilink j u0 q0 Hu0 Hq0). unfold leaving. rewrite orb_false_r.
    destruct (decide (j = curr)) as [->|Hne].
    + rewrite (bool_decide_true (curr ∈ _)) by set_solver. rewrite (bool_decide_true (curr = _)) by done.
      by rewrite orb_true_r.
    + rewrite (bool_decide_false (j = curr)) by done. rewrite orb_false_r. f_equal.
      apply bool_decide_ext. rewrite Hmem. naive_solver.
  - intros Hq Ho. lk Hq t j. destruct (Iout j q Hq Ho) as [Hj _]. rewrite Hmem in Hj.
    split; [tauto|]. apply bool_decide_false. tauto.
  - intros ->%bool_decide_eq_true. rewrite (is_Some_insert _ prev curr _ _ Hpr). eauto.
  - intros Hj Hq.
    assert (exists u0 q0, slots (sh st) !! j = Some u0 /\ pcs st !! j = Some q0 /\
              expected (Some (t, Unl1 prev curr)) q0 j u0 =
              expected (Some (t, Unl2 prev curr)) q j u) as (u0 & q0 & Hu0 & Hq0 & <-).
    { lk Hj prev j; lk Hq t j; eauto 10. }
    by apply Ist.
  - intros Hj Hq Hset. lk Hq t j. lk Hj prev j; eauto.
    simpl. by apply (Iset j pr q).
  - intros [= <- <-]. exists pre, suf. split; [done|].
    intros u Hu Hv. lk Hu prev t; eauto.
Qed.

(** A test of [is_slot_linked] by the owner. *)
Lemma linked_in st ids h t s p :
  inv st ids h -> slots (sh st) !! t = Some s -> pcs st !! t = Some p ->
  entering p = false -> leaving h t = false -> is_slot_linked s = true -> t ∈ ids.
Proof.
  intros Hinv Hs Hp He Hl Hlk. rewrite (iv_link _ _ _ Hinv t s p Hs Hp), He, Hl in Hlk.
  rewrite !orb_false_r in Hlk. by apply bool_decide_eq_true in Hlk.
Qed.

Lemma unlinked_out st ids h t s p :
  inv st ids h -> slots (sh st) !! t = Some s -> pcs st !! t = Some p ->
  is_slot_linked s = false -> t ∉ ids /\ leaving h t = false.
Proof.
  intros Hinv Hs Hp Hlk. rewrite (iv_link _ _ _ Hinv t s p Hs Hp) in Hlk.
  apply orb_false_iff in Hlk as [[Hb _]%orb_false_iff Hl].
  split; [by apply bool_decide_eq_false in Hb|done].
Qed.

(** The program counters that only read: the next one is determined by what the
    thread sees. *)
Lemma step_link st ids h t s c (b : bool) :
  inv st ids h -> slots (sh st) !! t = Some s ->
  (pcs st !! t = Some (LinkA c) /\
     b = is_slot_linked s \/
   pcs st !! t = Some (LinkB c) /\ is_request_valid s = false /\ b = true) ->
  exists h', inv (goto st t (if b then after c
                 else match c with InSpin => Enq1 c | _ => LinkB c end)) ids h'.
Proof.
  intros Hinv Hs [[Hp ->]|(Hp & Hv & ->)].
  - eexists. eapply inv_goto; try exact Hp; try exact Hs; try done.
    + by destruct (is_slot_linked s), c.
    + by destruct (is_slot_linked s), c.
    + intros i. simpl. destruct (at_lock c) eqn:E; [|done].
      rewrite (iv_cs _ _ _ Hinv t _ Hp E). by destruct (is_slot_linked s), c.
    + intros i. simpl. destruct (at_lock c) eqn:E; [|done].
      rewrite (iv_cs _ _ _ Hinv t _ Hp E). by destruct (is_slot_linked s), c.
    + destruct (is_slot_linked s) eqn:E; [by destruct c|]. intros _. by eapply unlinked_out.
    + by destruct (is_slot_linked s), c.
    + by destruct (is_slot_linked s), c.
    + intros Hc. destruct (is_slot_linked s) eqn:E; [|by destruct c].
      destruct c; try done. simpl. intros ? _ _. eapply linked_in; eauto.
      by rewrite (iv_cs _ _ _ Hinv t _ Hp eq_refl).
  - eexists. eapply inv_goto; try exact Hp; try exact Hs; try done.
    + by destruct c.
    + by destruct c.
    + intros i. simpl. destruct (at_lock c) eqn:E; [|done].
      rewrite (iv_cs _ _ _ Hinv t _ Hp E). by destruct c.
    + intros i. simpl. destruct (at_lock c) eqn:E; [|done].
      rewrite (iv_cs _ _ _ Hinv t _ Hp E). by destruct c.
    + by destruct c.
    + by destruct c.
    + intros Hc. destruct c; try done. simpl. intros u Hu Hvu. congruence.
Qed.

(** Steps of the lock holder that only move its position. *)
Lemma step_move st ids t p p' s :
  inv st ids (Some (t, p)) -> slots (sh st) !! t = Some s ->
  cs p' = true -> entering p = false -> entering p' = false -> outside p' = false ->
  p <> Idle -> p <> Publish -> p' <> Idle -> p' <> Publish ->
  (forall i, leaving (Some (t, p')) i = leaving (Some (t, p)) i) ->
  (forall i, executed (Some (t, p')) i = executed (Some (t, p)) i) ->
  (settled p' = true -> is_request_valid s = false) ->
  position (slots (sh st)) ids t p' -> inv (goto st t p') ids (Some (t, p')).
Proof.
  intros Hinv Hs Hcs' He He' Ho Hn1 Hn2 Hn3 Hn4 Hl Hx Hset Hpos.
  destruct (iv_h _ _ _ Hinv t p eq_refl) as [Hp Hcs].
  pose proof (inv_goto st ids _ t p p' s Hinv Hp Hs) as H. rewrite Hcs in H.
  apply H; try done; try congruence; by rewrite ?expected_active by done.
Qed.

Lemma inv_comb st ids t s prev curr st' :
  inv st ids (Some (t, Comb prev curr)) -> slots (sh st) !! t = Some s ->
  fc_step threshold st t = Ok st' -> exists h', inv st' ids h'.
Proof.
  intros Hinv Hs. destruct (iv_h _ _ _ Hinv t _ eq_refl) as [Hp _].
  unfold fc_step. rewrite Hp, Hs. simpl.
  destruct (iv_pos _ _ _ Hinv t _ eq_refl) as (pre & suf & Hids & Hcur & Hprev & Htodo).
  destruct (Z.eqb_spec curr 0) as [->|Hc0].
  { intros [= <-]. exists (Some (t, Unlock)). eapply step_move; try done.
    intros _. destruct (is_request_valid s) eqn:E; [|done].
    specialize (Htodo s Hs E). destruct suf as [|j suf]; [set_solver|].
    pose proof (iv_chain _ _ _ Hinv) as Hch. rewrite Hids in Hch.
    apply slot_chain_at in Hch as [? _]. simpl in Hcur. done. }
  destruct suf as [|j suf]; [by simpl in Hcur|]. simpl in Hcur. subst j.
  destruct (slots (sh st) !! curr) as [c|] eqn:Hc; [|done]. simpl. intros [= <-].
  destruct (is_request_valid c) eqn:Hv.
  { exists (Some (t, Exec prev curr)). eapply step_move; try done.
    simpl. exists pre, suf. split_and!; [done..|]. by exists c. }
  assert (Htodo' : todo (slots (sh st)) t suf).
  { intros u Hu Hvu. destruct (decide (t = curr)) as [->|]; [congruence|].
    specialize (Htodo u Hu Hvu). set_solver. }
  destruct (negb (curr =? prev) && _) eqn:Hst.
  - apply andb_true_iff in Hst as [Hne%negb_true_iff%Z.eqb_neq _].
    destruct Hprev as [->|[pre' ->]]; [done|].
    exists (Some (t, Unl1 prev curr)). eapply step_move; try done.
    simpl. exists pre', suf. split; [|done]. by rewrite Hids, <- app_assoc.
  - exists (Some (t, Adv curr)). eapply step_move; try done. simpl. eauto.
Qed.

Lemma inv_step st ids h t st' :
  inv st ids h -> fc_step threshold st t = Ok st' -> exists ids' h', inv st' ids' h'.
Proof.
  intros Hinv Hstep. pose proof Hstep as Hstep'. unfold fc_step in Hstep.
  destruct (pcs st !! t) as [p|] eqn:Hp; [|done]. simpl in Hstep.
  destruct (slots (sh st) !! t) as [s|] eqn:Hs; [|done]. simpl in Hstep.
  assert (Hh : cs p = true -> h = Some (t, p)) by by apply (iv_cs _ _ _ Hinv).
  destruct p; try done; try (specialize (Hh eq_refl); subst h).
  - injection Hstep as <-. exists ids. eexists. eapply inv_own; try exact Hp; try exact Hs; try done.
    + exact (iv_link _ _ _ Hinv t s _ Hs Hp).
    + simpl. destruct (executed h t) eqn:E; [|done].
      destruct h as [[t0 []]|]; try done; apply bool_decide_eq_true in E as ->;
      destruct (iv_pos _ _ _ Hinv t0 _ eq_refl) as (? & ? & _ & _ & u & Hu & Hv); simplify_eq;
      rewrite (iv_settled _ _ _ Hinv _ _ _ Hs Hp eq_refl) in Hv; done.
  - injection Hstep as <-. exists ids. eapply step_link; eauto.
  - injection Hstep as <-. exists ids. destruct (is_request_valid s) eqn:Hv.
    + destruct (iv_out _ _ _ Hinv t _ Hp eq_refl) as [Hni Hnl].
      eexists. eapply inv_goto; try exact Hp; try exact Hs; try done;
        intros i; simpl; destruct (at_lock c) eqn:E; try done; by rewrite Hh.
    + eapply (step_link st ids h t s c true); eauto.
  - injection Hstep as <-. exists ids.
    destruct (iv_out _ _ _ Hinv t _ Hp eq_refl) as [Hni Hnl].
    eexists. eapply inv_own; try exact Hp; try exact Hs; try done.
    + intros i; simpl; destruct (at_lock c) eqn:E; try done; by rewrite Hh.
    + intros i; simpl; destruct (at_lock c) eqn:E; try done; by rewrite Hh.
    + simpl. by rewrite orb_true_r.
  - injection Hstep as <-. exists ids.
    destruct (iv_out _ _ _ Hinv t _ Hp eq_refl) as [Hni Hnl].
    eexists. eapply inv_own; try exact Hp; try exact Hs; try done.
    + intros i; simpl; destruct (at_lock c) eqn:E; try done; by rewrite Hh.
    + intros i; simpl; destruct (at_lock c) eqn:E; try done; by rewrite Hh.
    + exact (iv_link _ _ _ Hinv t s _ Hs Hp).
  - injection Hstep as <-. exists (t :: ids). by eapply inv_enq3.
  - destruct (Z.eqb_spec (combine_cas (sh st)) 0); injection Hstep as <-; exists ids.
    + eexists. by eapply inv_lock.
    + exists h. eapply (inv_goto st ids h t Try SpinV s); done.
  - injection Hstep as <-. exists ids. eexists. eapply step_move; try done. simpl.
    exists [], ids. split_and!; try done; [|by left|].
    + eapply slot_chain_head, (iv_chain _ _ _ Hinv).
    + exact (iv_pos _ _ _ Hinv t _ eq_refl).
  - exists ids. by eapply inv_comb.
  - destruct (slots (sh st) !! curr) as [c|] eqn:Hc; [|done]. simpl in Hstep.
    destruct (exec _ _ _) as [[o' r]| |]; try done. injection Hstep as <-.
    exists ids. eexists. eapply inv_exec; eauto.
  - destruct (slots (sh st) !! curr) as [c|] eqn:Hc; [|done]. simpl in Hstep.
    injection Hstep as <-. exists ids. eexists. by eapply inv_stamp.
  - destruct (slots (sh st) !! curr) as [c|] eqn:Hc; [|done]. simpl in Hstep.
    injection Hstep as <-. exists ids. eexists. by eapply inv_fin.
  - injection Hstep as <-. exists ids. eexists.
    eapply step_move; [by apply inv_time|exact Hs|try done..].
    + exact (iv_pos _ _ _ Hinv t _ eq_refl).
  - destruct (slots (sh st) !! curr) as [c|] eqn:Hc; [|done]. simpl in Hstep.
    injection Hstep as <-. exists ids. eexists. eapply step_move; try done.
    destruct (iv_pos _ _ _ Hinv t _ eq_refl) as (pre & suf & -> & Htodo).
    pose proof (iv_chain _ _ _ Hinv) as Hch. apply slot_chain_at in Hch as (_ & c' & Hc' & Hn).
    simplify_eq. simpl. exists (pre ++ [curr]), suf. split_and!; try done; [by rewrite <- app_assoc|].
    right. eauto.
  - destruct (slots (sh st) !! prev) as [pr|] eqn:Hpr; [|done]. simpl in Hstep.
    destruct (slots (sh st) !! curr) as [c|] eqn:Hc; [|done]. simpl in Hstep.
    injection Hstep as <-. destruct (inv_unl1 st ids t prev curr pr c) as [ids' H]; eauto.
  - destruct (slots (sh st) !! curr) as [c|] eqn:Hc; [|done]. simpl in Hstep.
    injection Hstep as <-. exists ids. eexists. by eapply inv_unl2.
  - destruct (slots (sh st) !! prev) as [c|] eqn:Hc; [|done]. simpl in Hstep.
    injection Hstep as <-. exists ids. eexists. eapply step_move; try done.
    destruct (iv_pos _ _ _ Hinv t _ eq_refl) as (pre & suf & -> & Htodo).
    pose proof (iv_chain _ _ _ Hinv) as Hch. apply slot_chain_at in Hch as (_ & c' & Hc' & Hn).
    simplify_eq. simpl. exists (pre ++ [prev]), suf. split_and!; try done; [by rewrite <- app_assoc|].
    right. eauto.
  - injection Hstep as <-. exists ids. eexists. by eapply inv_unlock.
  - injection Hstep as <-. exists ids, h. 
    destruct (is_request_valid s) eqn:Hv; eapply (inv_goto st ids h t SpinV _ s); done.
  - injection Hstep as <-. exists ids, h.
    destruct (_ =? _); eapply (inv_goto st ids h t SpinC _ s); done.
  - injection Hstep as <-. exists ids, h.
    destruct (is_request_valid s) eqn:Hv; eapply (inv_goto st ids h t SpinEnd _ s); done.
  - injection Hstep as <-. exists ids, h. by apply inv_return.
Qed.

(** Only [Exec] changes the object; the other steps log at most a return. *)
Lemma fc_step_obj st t st' :
  fc_step threshold st t = Ok st' ->
  is_Some (pcs st' !! t) /\
  ((obj (sh st') = obj (sh st) /\
     (trace st' = trace st \/ exists r, trace st' = Ret t r :: trace st)) \/
  exists prev curr c o' r, pcs st !! t = Some (Exec prev curr) /\
     slots (sh st) !! curr = Some c /\
     exec (obj (sh st)) (operation c) (parameter c) = Ok (o', r) /\
     obj (sh st') = o' /\
     trace st' = Lin curr (operation c) (parameter c) r :: trace st).
Proof.
  unfold fc_step. destruct (pcs st !! t) as [p|]; [|done]. simpl.
  destruct (slots (sh st) !! t) as [s|]; [|done]. simpl.
  destruct p; simpl; try done;
    repeat match goal with
    | |- context [of_opt ?x] => destruct x eqn:?; simpl; [|done]
    | |- context [if ?b =? ?c then _ else _] => destruct (b =? c)
    end; try (intros [= <-]; simpl; rewrite lookup_insert_eq; split; [eauto|left]; eauto; fail).
  destruct (exec _ _ _) as [[o' r]| |] eqn:E; simpl; [|done..]. intros [= <-]. simpl.
  rewrite lookup_insert_eq. split; [eauto|right]. exists prev, curr. eauto 10.
Qed.

(** The invariant of reachable states, for an object that starts as [a0]. *)
Definition good (a0 : A) st : Prop :=
  exists ids h, inv st ids h /\ (forall t, is_Some (status t (trace st))) /\
    (legal_trace obj_spec legal a0 (trace st) ->
     exists a, replay obj_spec a0 (trace st) = Some a /\ obj_ref a (obj (sh st))).

(** Well-formedness of the history goes on: the threads of [st'] by its
    invariant, the others have no events. *)
Lemma status_next st st' ids' h' :
  inv st' ids' h' -> (forall t, is_Some (status t (trace st))) ->
  (trace st' = trace st \/
   exists e, trace st' = e :: trace st /\ is_Some (pcs st' !! ev_thread e)) ->
  forall t, is_Some (status t (trace st')).
Proof.
  intros Hinv Hst Htr t. destruct (pcs st' !! t) as [p|] eqn:Hp.
  - assert (Hs : is_Some (slots (sh st') !! t)) by (apply (iv_dom _ _ _ Hinv); eauto).
    destruct Hs as [s Hs]. rewrite (iv_status _ _ _ Hinv t s p Hs Hp). eauto.
  - destruct Htr as [->|(e & -> & He)]; [done|]. rewrite status_other; [done|].
    intros <-. rewrite Hp in He. by destruct He.
Qed.

Lemma good_step a0 st st' : good a0 st -> step threshold st st' -> good a0 st'.
Proof.
  intros (ids & h & Hinv & Hst & Hobj) Hstep.
  destruct Hstep as [st st' t op param Hp Hi|st st' t Hs].
  - pose proof (inv_invoke _ _ _ _ _ _ _ Hinv Hp Hi) as Hinv'. revert Hi. unfold invoke.
    destruct (slots (sh st) !! t); [|done]. intros [= <-].
    exists ids, h. split_and!; [done| |done]. eapply status_next; [done|exact Hst|]. right.
    eexists. split; [done|]. simpl. rewrite lookup_insert_eq. eauto.
  - destruct (inv_step st ids h t st' Hinv Hs) as (ids' & h' & Hinv').
    exists ids', h'. split; [done|].
    destruct (fc_step_obj st t st' Hs)
      as [Hdom [[Ho [Ht|[r Ht]]]|(prev & curr & c & o' & r & Hp & Hc & He & Ho & Ht)]].
    + split; [eapply status_next; eauto|]. by rewrite Ho, Ht.
    + split; [eapply status_next; eauto|]. by rewrite Ho, Ht.
    + split.
      * eapply status_next; [done|exact Hst|]. right. eexists. split; [exact Ht|]. simpl.
        apply (iv_dom _ _ _ Hinv'). revert Hs. unfold fc_step. rewrite Hp. simpl.
        destruct (slots (sh st) !! t); [|done]. simpl. rewrite Hc. simpl. rewrite He. simpl.
        intros [= <-]. simpl. rewrite lookup_insert_eq. eauto.
      * rewrite Ho, Ht. simpl. intros [Hl Hleg]. destruct (Hobj Hl) as (a & Ha & Href).
        destruct (exec_ok a _ _ _ Href (Hleg a Ha)) as (o'' & He' & Href').
        rewrite He in He'. simplify_eq. rewrite Ha. simpl. rewrite decide_True by done. eauto.
Qed.

Lemma good_init a0 ts stamp o : 0 ∉ ts -> obj_ref a0 o -> good a0 (conc_init ts stamp o).
Proof.
  intros H0 Href. exists [], None. split_and!; [|simpl; eauto|intros _; simpl; eauto].
  split; simpl; [intros i|intros i|..|intros i q|intros i q|intros i u q|intros i q
    |intros i|intros i u q|intros i u q|intros i q]; try done; rewrite ?lookup_threads.
  - case_decide; split; intros [? [=]]; eauto.
  - case_decide; [|intros [? ?]; done]. by intros _ ->.
  - constructor.
  - case_decide; by intros [= <-].
  - case_decide; [|done]. by intros [= <-] [= <-].
  - case_decide; by intros [= <-].
  - case_decide; [|done]. by intros [= <-] [= <-].
  - case_decide; [|done]. by intros [= <-] [= <-].
Qed.

Lemma reachable_good a0 ts stamp o st :
  0 ∉ ts -> obj_ref a0 o -> reachable threshold ts stamp o st -> good a0 st.
Proof.
  intros H0 Href Hr. pose proof (good_init a0 ts stamp o H0 Href) as Hg.
  unfold reachable in Hr. revert Hg. generalize (conc_init ts stamp o) Hr. clear.
  intros st0 Hr. induction Hr as [|x y z Hxy Hyz IH]; [done|].
  intros Hg. apply IH. by eapply good_step.
Qed.

Lemma good_mutex a0 st t1 t2 p1 p2 :
  good a0 st -> pcs st !! t1 = Some p1 -> pcs st !! t2 = Some p2 ->
  cs p1 = true -> cs p2 = true -> t1 = t2 /\ combine_cas (sh st) = LOCKED_CAS.
Proof.
  intros (ids & h & Hinv & _ & _) H1 H2 C1 C2.
  pose proof (iv_cs _ _ _ Hinv _ _ H1 C1) as ->. pose proof (iv_cs _ _ _ Hinv _ _ H2 C2).
  rewrite (iv_cas _ _ _ Hinv). by simplify_eq.
Qed.

(** A thread inside an operation can always take its next step, if the request
    it is about to execute, if any, is legal. *)
Lemma good_progress a0 st t p :
  good a0 st -> legal_trace obj_spec legal a0 (trace st) -> pcs st !! t = Some p -> p <> Idle ->
  (forall prev curr c a, p = Exec prev curr -> slots (sh st) !! curr = Some c ->
     status curr (trace st) = Some (Called (operation c) (parameter c)) ->
     replay obj_spec a0 (trace st) = Some a -> legal a (operation c) (parameter c)) ->
  exists st', fc_step threshold st t = Ok st'.
Proof.
  intros (ids & h & Hinv & _ & Hobj) Hlt Hp Hni Hleg. unfold fc_step. rewrite Hp. simpl.
  assert (Hs : is_Some (slots (sh st) !! t)) by (apply (iv_dom _ _ _ Hinv); eauto).
  destruct Hs as [s Hs]. rewrite Hs. simpl.
  assert (Hin : forall pre i suf, ids = pre ++ i :: suf -> is_Some (slots (sh st) !! i)).
  { intros pre i suf ->. eapply slot_chain_elem; [exact (iv_chain _ _ _ Hinv)|set_solver]. }
  assert (Hpos : cs p = true -> position (slots (sh st)) ids t p).
  { intros Hc. apply (iv_pos _ _ _ Hinv). by apply (iv_cs _ _ _ Hinv). }
  destruct p; try done; eauto; try (specialize (Hpos eq_refl); simpl in Hpos).
  - destruct (_ =? _); eauto.
  - destruct (Z.eqb_spec curr 0) as [|Hc0]; [eauto|].
    destruct Hpos as (pre & [|j suf] & Hids & -> & _); [done|]. simpl in *.
    destruct (Hin _ _ _ Hids) as [c ->]. simpl. eauto.
  - destruct Hpos as (pre & suf & Hids & _ & _). destruct (Hin _ _ _ Hids) as [c Hc]. rewrite Hc. simpl.
    destruct (Hobj Hlt) as (a & Ha & Href).
    pose proof (iv_cs _ _ _ Hinv _ _ Hp eq_refl) as ->.
    destruct (inv_exec st ids t prev curr c (obj (sh st)) 0 Hinv Hc) as [Hst _].
    destruct (exec_ok a _ _ _ Href (Hleg prev curr c a eq_refl Hc Hst Ha)) as (o' & -> & _).
    simpl. eauto.
  - destruct Hpos as (pre & suf & Hids & _ & _). destruct (Hin _ _ _ Hids) as [c ->]. simpl. eauto.
  - destruct Hpos as (pre & suf & Hids & _ & _). destruct (Hin _ _ _ Hids) as [c ->]. simpl. eauto.
  - destruct Hpos as (pre & suf & Hids & _). destruct (Hin _ _ _ Hids) as [c ->]. simpl. eauto.
  - destruct Hpos as (pre & suf & Hids & _). destruct (Hin _ _ _ Hids) as [pr ->]. simpl.
    destruct (Hin (pre ++ [prev]) curr suf) as [c ->]; [by rewrite <- app_assoc|]. simpl. eauto.
  - destruct (iv_leave _ _ _ Hinv curr) as [_ [c ->]]; [|simpl; eauto].
    rewrite (iv_cs _ _ _ Hinv _ _ Hp eq_refl). by apply bool_decide_true.
  - destruct Hpos as (pre & suf & Hids & _). destruct (Hin _ _ _ Hids) as [pr ->]. simpl. eauto.
Qed.
End invariant.

(** ** Schedules *)

(** Runs a schedule: [(t, Some (op, param))] is a call by thread [t], [(t, None)]
    a step of it. *)
Fixpoint run {St} {OO : ObjOps St} (threshold : Z) (sched : list (Z * option (Z * Z)))
    (st : conc St) : result (conc St) :=
  match sched with
  | [] => Ok st
  | (t, Some (op, param)) :: sched' =>
      p ← of_opt (pcs st !! t);
      match p with
      | Idle => st' ← invoke st t op param; run threshold sched' st'
      | _ => NoFuel
      end
  | (t, None) :: sched' => st' ← fc_step threshold st t; run threshold sched' st'
  end.

Lemma run_rtc {St} {OO : ObjOps St} threshold sched (st st' : conc St) :
  run threshold sched st = Ok st' -> rtc (step threshold) st st'.
Proof.
  revert st; induction sched as [|[t [[op param]|]] sched IH]; intros st; simpl.
  - by intros [= <-].
  - destruct (pcs st !! t) as [[]|] eqn:Hp; try done. simpl.
    destruct (invoke st t op param) as [st1| |] eqn:Hi; try done. simpl. intros Hr.
    eapply rtc_l; [by eapply step_invoke|]. auto.
  - destruct (fc_step threshold st t) as [st1| |] eqn:Hs; try done. simpl. intros Hr.
    eapply rtc_l; [by eapply step_run|]. auto.
Qed.

(** The keys of all calls of a history are below the sentinel's. *)
Definition keys_ok (tr : list event) : Prop :=
  forall t op param, Inv t op param ∈ tr -> 0 <= param < INT_MAX.

Lemma keys_legal S0 tr :
  (forall t, is_Some (status t tr)) -> keys_ok tr -> legal_trace set_spec set_legal S0 tr.
Proof.
  induction tr as [|e tr IH]; intros Hst Hk; [done|].
  assert (IH' : legal_trace set_spec set_legal S0 tr).
  { apply IH; [|intros t op param H; apply (Hk t op param); set_solver].
    intros t. eapply status_suffix; [|apply (Hst t)]. by apply suffix_cons_r. }
  destruct e as [| t op param r | |]; try done. simpl. split; [done|]. intros S _.
  destruct (Hst t) as [x Hx]. simpl in Hx.
  rewrite decide_True in Hx by done. destruct (status t tr) as [y|] eqn:Hy; [|done].
  simpl in Hx. destruct y; try done. case_decide as Hd; [|done]. destruct Hd as [<- <-].
  apply status_called in Hy. apply (Hk t op param). set_solver.
Qed.

(** A queue whose history is short cannot overflow [q_size]. *)
Lemma fifo_legal vs0 tr :
  Z.of_nat (length vs0 + length tr) < u32_mod -> legal_trace fifo_spec lq_legal vs0 tr.
Proof.
  assert (Hlen : forall tr vs, replay fifo_spec vs0 tr = Some vs ->
            (length vs <= length vs0 + length tr)%nat).
  { clear. induction tr as [|e tr IH]; intros vs; simpl; [intros [= <-]; lia|].
    destruct e as [| t op param r | |]; [intros H%IH; lia| |intros H%IH; lia..].
    destruct (replay fifo_spec vs0 tr) as [ws|]; [|done]. simpl. case_decide; [|done].
    intros [= <-]. specialize (IH ws eq_refl). unfold fifo_spec.
    destruct (_ =? _); simpl; [rewrite length_app; simpl; lia|]. destruct ws; simpl in *; lia. }
  induction tr as [|e tr IH]; intros Hl; [done|]. simpl in Hl.
  destruct e as [| t op param r | |]; [apply IH; lia| |apply IH; lia..].
  simpl. split; [apply IH; lia|]. intros vs Hvs _. specialize (Hlen _ _ Hvs). lia.
Qed.

(** ** Properties *)

(** C1: Concurrent flat combining on FCSkipList.hh is linearizable: in every
    reachable state of any number of threads, every thread's history consists of
    calls that are executed exactly once between call and return and return the
    answer of that execution, and the executions in their order are a history of
    a set of keys, whose value the list represents. *)
Theorem skiplist_linearizable (new_addr : gmap Z Node -> Z) S0 ts stamp o st :
  (forall h, new_addr h <> 0 /\ h !! new_addr h = None) ->
  0 ∉ ts -> sl_ref S0 o ->
  reachable (OO := SkipList_ops new_addr) UNUSED_SLOT_THRESHOLD ts stamp o st ->
  keys_ok (trace st) ->
  (forall t, is_Some (status t (trace st))) /\
  exists S, replay set_spec S0 (trace st) = Some S /\ sl_ref S (obj (sh st)).
Proof.
  intros ok H0 Href Hr Hk.
  destruct (reachable_good (SO := sl_object new_addr ok) _ S0 ts stamp o st H0 Href Hr)
    as (ids & h & _ & Hst & Hobj).
  split; [done|]. apply Hobj. by apply keys_legal.
Qed.

(** Concurrent flat combining on FCQueue.hh is linearizable with respect to
    a FIFO queue, as long as the history is shorter than the range of [q_size]. *)
Theorem fcqueue_linearizable (new_addr : gmap Z QNode -> Z) vs0 ts stamp o st :
  (forall h, new_addr h <> 0 /\ h !! new_addr h = None) ->
  0 ∉ ts -> lq_ref vs0 o ->
  reachable (OO := FCQueue_ops new_addr) UNUSED_SLOT_THRESHOLD ts stamp o st ->
  Z.of_nat (length vs0 + length (trace st)) < u32_mod ->
  (forall t, is_Some (status t (trace st))) /\
  exists vs, replay fifo_spec vs0 (trace st) = Some vs /\ lq_ref vs (obj (sh st)).
Proof.
  intros ok H0 Href Hr Hl.
  destruct (reachable_good (SO := lq_object new_addr ok) _ vs0 ts stamp o st H0 Href Hr)
    as (ids & h & _ & Hst & Hobj).
  split; [done|]. apply Hobj. by apply fifo_legal.
Qed.

(** [combine_cas] is a lock: two threads of the skip list that are between
    taking and releasing it are the same thread, so one thread at a time walks
    the slots and changes the list. *)
Theorem fc_mutual_exclusion (new_addr : gmap Z Node -> Z) S0 ts stamp o st t1 t2 p1 p2 :
  (forall h, new_addr h <> 0 /\ h !! new_addr h = None) ->
  0 ∉ ts -> sl_ref S0 o ->
  reachable (OO := SkipList_ops new_addr) UNUSED_SLOT_THRESHOLD ts stamp o st ->
  pcs st !! t1 = Some p1 -> pcs st !! t2 = Some p2 -> cs p1 = true -> cs p2 = true ->
  t1 = t2 /\ combine_cas (sh st) = LOCKED_CAS.
Proof.
  intros ok H0 Href Hr. apply (good_mutex (SO := sl_object new_addr ok) S0).
  by apply (reachable_good (SO := sl_object new_addr ok) UNUSED_SLOT_THRESHOLD S0 ts stamp o).
Qed.

(** No thread of a concurrent skip list gets stuck or touches a wild pointer:
    inside an operation, its next step is always defined, whatever the other
    threads did. *)
Theorem skiplist_threads_never_crash (new_addr : gmap Z Node -> Z) S0 ts stamp o st t p :
  (forall h, new_addr h <> 0 /\ h !! new_addr h = None) ->
  0 ∉ ts -> sl_ref S0 o ->
  reachable (OO := SkipList_ops new_addr) UNUSED_SLOT_THRESHOLD ts stamp o st ->
  keys_ok (trace st) -> pcs st !! t = Some p -> p <> Idle ->
  exists st', fc_step (OO := SkipList_ops new_addr) UNUSED_SLOT_THRESHOLD st t = Ok st'.
Proof.
  intros ok H0 Href Hr Hk Hp Hni.
  pose proof (reachable_good (SO := sl_object new_addr ok) _ S0 ts stamp o st H0 Href Hr) as Hg.
  apply (good_progress (SO := sl_object new_addr ok) _ S0 st t p); try done.
  - destruct Hg as (_ & _ & _ & Hst & _). by apply keys_legal.
  - intros prev curr c S _ _ Hst _. apply (Hk curr (operation c) (parameter c)).
    by apply status_called.
Qed.

(** ** Instances of the properties *)

Definition steps_of (t : Z) (n : nat) : list (Z * option (Z * Z)) := replicate n (t, None).

(** Thread 1 calls [add 30] and takes the lock; thread 2 calls [contains 30],
    links its slot and spins; thread 1 goes on combining. *)
Definition demo_schedule : list (Z * option (Z * Z)) :=
  (1, Some (ADD_OP, 30)) :: steps_of 1 7 ++ (2, Some (CONTAINS_OP, 30)) :: steps_of 2 8 ++
  steps_of 1 15.

Definition demo_run : result (conc SkipList) :=
  run (OO := SkipList_ops next_free) UNUSED_SLOT_THRESHOLD demo_schedule
      (conc_init [1; 2] 0 demo_list).

Definition demo_state : conc SkipList :=
  match demo_run with Ok st => st | _ => conc_init [1; 2] 0 demo_list end.

Lemma demo_reachable :
  reachable (OO := SkipList_ops next_free) UNUSED_SLOT_THRESHOLD [1; 2] 0 demo_list demo_state.
Proof. apply (run_rtc _ demo_schedule). vm_compute. reflexivity. Qed.

Lemma demo_trace : trace demo_state = [Lin 1 1 30 1; Lin 2 2 30 0; Inv 2 2 30; Inv 1 1 30].
Proof. vm_compute. reflexivity. Qed.

Lemma demo_keys : keys_ok (trace demo_state).
Proof.
  rewrite demo_trace. intros t op param Hin. assert (param = 30) as -> by set_solver.
  vm_compute. split; [discriminate|reflexivity].
Qed.

Lemma skiplist_linearizable_witness :
  trace demo_state = [Lin 1 1 30 1; Lin 2 2 30 0; Inv 2 2 30; Inv 1 1 30] /\
  exists S, replay set_spec ∅ (trace demo_state) = Some S /\ sl_ref S (obj (sh demo_state)).
Proof.
  split; [vm_compute; reflexivity|].
  apply (skiplist_linearizable next_free ∅ [1; 2] 0 demo_list demo_state).
  - exact next_free_ok.
  - set_solver.
  - exact demo_list_ref.
  - exact demo_reachable.
  - exact demo_keys.
Defined.

Lemma fc_mutual_exclusion_witness : 1 = 1 /\ combine_cas (sh demo_state) = LOCKED_CAS.
Proof.
  apply (fc_mutual_exclusion next_free ∅ [1; 2] 0 demo_list demo_state 1 1 Unlock Unlock).
  - exact next_free_ok.
  - set_solver.
  - exact demo_list_ref.
  - exact demo_reachable.
  - vm_compute; reflexivity.
  - vm_compute; reflexivity.
  - reflexivity.
  - reflexivity.
Defined.

Lemma skiplist_threads_never_crash_witness :
  exists st', fc_step (OO := SkipList_ops next_free) UNUSED_SLOT_THRESHOLD demo_state 2 = Ok st'.
Proof.
  apply (skiplist_threads_never_crash next_free ∅ [1; 2] 0 demo_list demo_state 2 SpinC).
  - exact next_free_ok.
  - set_solver.
  - exact demo_list_ref.
  - exact demo_reachable.
  - exact demo_keys.
  - vm_compute; reflexivity.
  - discriminate.
Defined.

(** Two threads push and pop on a queue; thread 2 combines for both. *)
Definition queue_schedule : list (Z * option (Z * Z)) :=
  (1, Some (PUSH_OP, 7)) :: steps_of 1 6 ++ (2, Some (POP_OP, 0)) :: steps_of 2 24.

Definition queue_run : result (conc lqueue) :=
  run (OO := FCQueue_ops next_free) UNUSED_SLOT_THRESHOLD queue_schedule
      (conc_init [1; 2] 0 Queue_new).
Definition queue_state : conc lqueue :=
  match queue_run with Ok st => st | _ => conc_init [1; 2] 0 Queue_new end.

Lemma fcqueue_linearizable_witness :
  exists vs, replay fifo_spec [] (trace queue_state) = Some vs /\ lq_ref vs (obj (sh queue_state)).
Proof.
  apply (fcqueue_linearizable next_free [] [1; 2] 0 Queue_new queue_state).
  - exact next_free_ok.
  - set_solver.
  - exact Queue_new_ref.
  - apply (run_rtc _ queue_schedule). vm_compute. reflexivity.
  - vm_compute. reflexivity.
Defined.
