(* ===== verification/ListCore.v ===== *)
(** * Sorted linked lists with a moving finger

    FCLinkedList.h on the host and clean_linked_list.c in the vault both serve a
    batch of requests in ascending key order in one traversal of a sorted list:
    the position [(prev, curr)] reached by one request is where the next one
    starts.  This file models one request and a batch over the storage interface
    of SkipCore.v (level 0 of a node) extended by allocation, and proves that a
    batch refines the operations on a set of keys. *)

From S2P Require Import Prelude SkipCore.

(** ** Allocation *)

(** [new_node m key next] allocates a node with the two fields set, and returns
    0 if no memory is left; [drop_node] gives a node back.  [mem_ok] is the
    allocator's own invariant, [room m n] says that [n] more nodes can be
    allocated, and [reclaims] that a dropped node can be allocated again. *)
Class NodeAlloc (M : Type) := {
  mem_ok : M -> Prop;
  room : M -> nat -> Prop;
  new_node : M -> Z -> Z -> result (M * Z);
  drop_node : M -> Z -> result M;
  reclaims : bool;
}.

(** The live nodes of [m] are live in [m'], with the same key and successor. *)
Definition keeps {M} `{NM : NodeMem M} (m m' : M) (P : Z -> Prop) : Prop :=
  forall q, has_node m q -> P q ->
    has_node m' q /\ rd_key m' q = rd_key m q /\ rd_next m' q 0 = rd_next m q 0.

Class NodeAllocLaws (M : Type) {NM : NodeMem M} {NA : NodeAlloc M} : Prop := {
  level_zero : (0 < node_cap)%nat;
  new_node_ok m k nx n : mem_ok m -> room m (S n) ->
    exists m' p, new_node m k nx = Ok (m', p) /\ p <> 0 /\ ~ has_node m p /\
      has_node m' p /\ rd_key m' p = Ok k /\ rd_next m' p 0 = Ok nx /\
      keeps m m' (fun _ => True) /\ mem_ok m' /\ room m' n;
  drop_node_ok m p n : mem_ok m -> has_node m p -> room m n ->
    exists m', drop_node m p = Ok m' /\ keeps m m' (fun q => q <> p) /\ mem_ok m' /\
      room m' (if reclaims then S n else n);
  wr_next_ok_mem m p v m' n : mem_ok m -> room m n -> has_node m p ->
    wr_next m p 0 v = Ok m' -> mem_ok m' /\ room m' n;
  room_le m n k : room m n -> (k <= n)%nat -> room m k;
}.

(** ** One request *)

Inductive lop := LContains | LAdd | LRemove.
#[export] Instance lop_eq_dec : EqDecision lop.
Proof. solve_decision. Defined.

Section ops.
Context {M : Type} `{NM : NodeMem M} `{NA : !NodeAlloc M}.

Definition finger_op (fuel : nat) (m : M) (op : lop) (param prev curr : Z)
  : result (M * Z * Z * Z) :=
  '(prev', curr') ← walk fuel m 0 param prev curr;
  k ← rd_key m curr';
  match op with
  | LContains => Ok (m, prev', curr', if k =? param then 1 else 0)
  | LAdd =>
      if k =? param then Ok (m, prev', curr', 0)
      else
        '(m1, new) ← new_node m param curr';
        if new =? 0 then Ok (m1, prev', curr', 0)
        else
          m2 ← wr_next m1 prev' 0 new;
          Ok (m2, prev', new, 1)
  | LRemove =>
      if k =? param then
        nx ← rd_next m curr' 0;
        m1 ← wr_next m prev' 0 nx;
        m2 ← drop_node m1 curr';
        nx' ← rd_next m2 prev' 0;
        Ok (m2, prev', nx', 1)
      else Ok (m, prev', curr', 0)
  end.

(** The requests [(op, param)] of a batch, in the order given; the answers. *)
Fixpoint finger_batch (fuel : nat) (m : M) (reqs : list (lop * Z)) (prev curr : Z)
  : result (M * list Z) :=
  match reqs with
  | [] => Ok (m, [])
  | (op, param) :: reqs' =>
      '(m1, prev1, curr1, r) ← finger_op fuel m op param prev curr;
      '(m2, rs) ← finger_batch fuel m1 reqs' prev1 curr1;
      Ok (m2, r :: rs)
  end.
End ops.

(** ** The specification: a set of keys *)

Definition lset_spec (S : gset Z) (op : lop) (param : Z) : gset Z * Z :=
  match op with
  | LContains => (S, if decide (param ∈ S) then 1 else 0)
  | LAdd => if decide (param ∈ S) then (S, 0) else ({[param]} ∪ S, 1)
  | LRemove => if decide (param ∈ S) then (S ∖ {[param]}, 1) else (S, 0)
  end.

Fixpoint lset_run (S : gset Z) (reqs : list (lop * Z)) : gset Z * list Z :=
  match reqs with
  | [] => (S, [])
  | (op, param) :: reqs' =>
      let '(S', r) := lset_spec S op param in
      let '(S'', rs) := lset_run S' reqs' in (S'', r :: rs)
  end.

(** The room that a request leaves of [n], on a store that reclaims nodes or not. *)
Definition room_after (rec : bool) (S : gset Z) (op : lop) (param : Z) (n : nat) : nat :=
  match op with
  | LContains => n
  | LAdd => if decide (param ∈ S) then n else pred n
  | LRemove => if decide (param ∈ S) then (if rec then Datatypes.S n else n) else n
  end.

Lemma room_after_le rec S op param n : (pred n <= room_after rec S op param n)%nat.
Proof. unfold room_after. destruct op; repeat case_decide; try destruct rec; lia. Qed.

(** ** Representation *)

Section rep.
Context {M : Type} `{NM : NodeMem M} `{NML : !NodeMemLaws M}.
Context `{NA : !NodeAlloc M} `{NAL : !NodeAllocLaws M}.

(** The list between the sentinels [head] and [tail], as addresses and keys. *)
Record lrep (m : M) (head tail hk tk : Z) (ns : list (Z * Z)) : Prop := {
  lr_chain : chain m 0 head ns.*1 tail;
  lr_keys : Forall (fun x => rd_key m x.1 = Ok x.2) ns;
  lr_head : rd_key m head = Ok hk;
  lr_tail : rd_key m tail = Ok tk;
  lr_sorted : StronglySorted (fun a b => a.2 < b.2) ns;
  lr_bounds : Forall (fun x => hk < x.2 < tk) ns;
  lr_nodup : NoDup (head :: tail :: ns.*1);
  lr_nodes : Forall (has_node m) (head :: tail :: ns.*1);
}.

(** The finger: before the first request at the head, later between two parts
    of the list, the first of them with keys below the next request's. *)
Definition finger (head tail param : Z) (ns : list (Z * Z)) (prev curr : Z) : Prop :=
  curr = head \/
  exists lo hi, ns = lo ++ hi /\ prev = last_or head lo.*1 /\ curr = head_or tail hi.*1 /\
    Forall (fun x => x.2 < param) lo.

Definition lset (ns : list (Z * Z)) : gset Z := list_to_set ns.*2.

Lemma walk_pairs m param tail tk hi : forall mid prev fuel,
  chain_from m 0 (mid ++ hi).*1 tail ->
  Forall (fun x => rd_key m x.1 = Ok x.2) (mid ++ hi) ->
  rd_key m tail = Ok tk -> param <= tk ->
  Forall (fun x => x.2 < param) mid -> Forall (fun x => param <= x.2) hi ->
  (length mid < fuel)%nat ->
  walk fuel m 0 param prev (head_or tail (mid ++ hi).*1) =
    Ok (last_or prev mid.*1, head_or tail hi.*1).
Proof.
  induction mid as [|[a k] mid IH]; intros prev [|fuel] Hc Hk Ht Hle Hm Hh Hf; simpl in *; try lia.
  - destruct hi as [|[b kb] hi]; simpl.
    + rewrite Ht. simpl. destruct (Z.ltb_spec tk param); [lia|done].
    + apply Forall_cons in Hk as [Hk _]. simpl in Hk. rewrite Hk. simpl.
      apply Forall_cons in Hh as [Hh _]. simpl in Hh. destruct (Z.ltb_spec kb param); [lia|done].
  - apply Forall_cons in Hk as [Hk1 Hk]. simpl in Hk1. rewrite Hk1. simpl.
    apply Forall_cons in Hm as [Hm1 Hm]. simpl in Hm1. destruct (Z.ltb_spec k param); [|lia].
    assert (Hn : rd_next m a 0 = Ok (head_or tail (mid ++ hi).*1) /\
                 chain_from m 0 (mid ++ hi).*1 tail).
    { revert Hc. clear. destruct (mid ++ hi) as [|[b kb] l]; simpl; [done|]. by intros []. }
    destruct Hn as [-> Hc']. simpl. apply IH; try done. lia.
Qed.

(** A sorted list splits at a key. *)
Lemma sorted_split (ns : list (Z * Z)) param :
  StronglySorted (fun a b => a.2 < b.2) ns ->
  exists lo hi, ns = lo ++ hi /\ Forall (fun x => x.2 < param) lo /\
    Forall (fun x => param <= x.2) hi.
Proof.
  induction 1 as [|x ns Hs IH Hx]; [by exists [], []|]. destruct IH as (lo & hi & -> & Hlo & Hhi).
  destruct (decide (x.2 < param)) as [Hlt|Hge].
  - exists (x :: lo), hi. split; [done|]. split; [by constructor|done].
  - exists [], (x :: lo ++ hi). split; [done|]. split; [constructor|]. constructor; [lia|].
    eapply Forall_impl; [exact Hx|]. simpl. lia.
Qed.

(** Wherever the finger is, the walk stops at the split point of the request. *)
Lemma walk_finger m head tail hk tk ns param prev curr fuel :
  lrep m head tail hk tk ns -> hk < param <= tk -> finger head tail param ns prev curr ->
  (S (length ns) < fuel)%nat ->
  exists lo hi, ns = lo ++ hi /\ Forall (fun x => x.2 < param) lo /\
    Forall (fun x => param <= x.2) hi /\
    walk fuel m 0 param prev curr = Ok (last_or head lo.*1, head_or tail hi.*1).
Proof.
  intros [Hc Hk Hh Ht Hs Hb Hnd Hn] Hp Hfin Hf.
  assert (Hgen : forall lo hi fuel', ns = lo ++ hi -> Forall (fun x => x.2 < param) lo ->
    (length ns < fuel')%nat -> exists lo' hi', ns = lo' ++ hi' /\ Forall (fun x => x.2 < param) lo' /\
    Forall (fun x => param <= x.2) hi' /\
    walk fuel' m 0 param (last_or head lo.*1) (head_or tail hi.*1) =
      Ok (last_or head lo'.*1, head_or tail hi'.*1)).
  { intros lo hi fuel' -> Hlo Hf'. apply StronglySorted_app_inv in Hs as (_ & Hs & _).
    destruct (sorted_split hi param Hs) as (mid & hi' & -> & Hmid & Hhi').
    exists (lo ++ mid), hi'. split; [by rewrite app_assoc|]. split; [by apply Forall_app|].
    split; [done|]. rewrite (walk_pairs m param tail tk hi' mid); try done; try lia.
    - by rewrite fmap_app, last_or_app.
    - rewrite fmap_app in Hc. by apply chain_app in Hc as [_ ?].
    - by apply Forall_app in Hk as [_ ?].
    - rewrite !length_app in Hf'. lia. }
  destruct Hfin as [->|(lo & hi & Hns & -> & -> & Hlo)]; [|by apply (Hgen lo hi); [| |lia]].
  destruct fuel as [|fuel]; [lia|]. simpl. rewrite Hh. simpl.
  destruct (Z.ltb_spec hk param); [|lia].
  assert (Hfirst : rd_next m head 0 = Ok (head_or tail ns.*1)).
  { destruct ns as [|[a k] ns]; simpl in *; [done|]. by destruct Hc. }
  rewrite Hfirst. simpl. apply (Hgen [] ns fuel); [done|constructor|lia].
Qed.

(** The set of keys. *)
Lemma elem_of_lset k ns : k ∈ lset ns <-> k ∈ ns.*2.
Proof. unfold lset. by rewrite elem_of_list_to_set. Qed.

(** The node the walk stops at has the requested key exactly when the key is in
    the set. *)
Lemma stop_key m head tail hk tk lo hi param :
  lrep m head tail hk tk (lo ++ hi) -> param < tk ->
  Forall (fun x => x.2 < param) lo -> Forall (fun x => param <= x.2) hi ->
  (exists a hi', hi = (a, param) :: hi' /\ rd_key m (head_or tail hi.*1) = Ok param /\
     param ∈ lset (lo ++ hi) /\ param ∉ lset (lo ++ hi')) \/
  (exists k, rd_key m (head_or tail hi.*1) = Ok k /\ k <> param /\ param ∉ lset (lo ++ hi) /\
     Forall (fun x => param < x.2) hi).
Proof.
  intros [Hc Hk Hh Ht Hs Hb Hnd Hn] Hp Hlo Hhi.
  apply StronglySorted_app_inv in Hs as (_ & Hs & _).
  assert (Hnlo : param ∉ lo.*2).
  { intros (x & -> & Hx)%list_elem_of_fmap. rewrite Forall_forall in Hlo. specialize (Hlo x Hx). lia. }
  destruct hi as [|[a k] hi].
  - right. exists tk. simpl. split_and!; try done; [lia|].
    rewrite elem_of_lset, fmap_app, elem_of_app. simpl. set_solver.
  - apply StronglySorted_inv in Hs as [_ Hlt]. apply Forall_cons in Hhi as [Hk0 Hhi]. simpl in Hk0.
    apply Forall_app in Hk as [_ Hk]. apply Forall_cons in Hk as [Hka _]. simpl in Hka.
    assert (Hnhi : param ∉ hi.*2).
    { intros (x & -> & Hx)%list_elem_of_fmap. rewrite Forall_forall in Hlt. specialize (Hlt x Hx).
      simpl in Hlt. lia. }
    destruct (decide (k = param)) as [->|Hne].
    + left. exists a, hi. simpl. split_and!; try done.
      * rewrite elem_of_lset, fmap_app, elem_of_app. set_solver.
      * rewrite elem_of_lset, fmap_app, elem_of_app. tauto.
    + right. exists k. simpl. split_and!; try done.
      * rewrite elem_of_lset, fmap_app, elem_of_app. simpl. rewrite elem_of_cons. naive_solver.
      * constructor; [simpl; lia|]. eapply Forall_impl; [exact Hlt|]. simpl. lia.
Qed.

(** ** Changing one link *)

Lemma wr_link m p v : has_node m p ->
  exists m', wr_next m p 0 v = Ok m' /\ keeps m m' (fun q => q <> p) /\
    has_node m' p /\ rd_key m' p = rd_key m p /\ rd_next m' p 0 = Ok v.
Proof.
  intros Hp. pose proof level_zero as H0. destruct (wr_next_ok m p 0 v Hp H0) as [m' Hm].
  exists m'. split; [done|]. split.
  - intros q Hq Hne. destruct (wr_next_hdr m p 0 v m' q Hp H0 Hm Hq) as (? & ? & _).
    split_and!; try done. apply (wr_next_ne m p 0 v m' q 0); try done. congruence.
  - destruct (wr_next_hdr m p 0 v m' p Hp H0 Hm Hp) as (? & ? & _). split_and!; try done.
    by apply (wr_next_eq m p 0 v m').
Qed.

(** The nodes of a represented list are distinct and live. *)
Lemma lrep_nodes m head tail hk tk ns q :
  lrep m head tail hk tk ns -> q ∈ head :: tail :: ns.*1 -> has_node m q.
Proof. intros H. apply Forall_forall, (lr_nodes _ _ _ _ _ _ H). Qed.

Lemma pred_in head tail (lo hi : list (Z * Z)) :
  last_or head lo.*1 ∈ head :: tail :: (lo ++ hi).*1.
Proof. destruct (last_or_elem head lo.*1) as [->|H]; rewrite ?fmap_app; set_solver. Qed.

Lemma pred_ne_succ head tail (lo hi : list (Z * Z)) q :
  NoDup (head :: tail :: (lo ++ hi).*1) -> q ∈ tail :: hi.*1 -> q <> last_or head lo.*1.
Proof.
  intros Hnd Hq Heq. rewrite fmap_app in Hnd. apply NoDup_cons in Hnd as [Hh Hnd].
  apply NoDup_cons in Hnd as [Ht Hnd]. apply NoDup_app in Hnd as (_ & Hd & _).
  destruct (last_or_elem head lo.*1) as [E|E]; rewrite <- Heq in E.
  - rewrite E in Hq. apply Hh, elem_of_cons. apply elem_of_cons in Hq as [Hq|Hq]; [by left|right].
    apply elem_of_app. by right.
  - apply elem_of_cons in Hq as [->|Hq]; [|by eapply Hd].
    apply Ht, elem_of_app. by left.
Qed.

(** Linking the new node [p] between the two parts. *)
Lemma lrep_insert m m1 m2 head tail hk tk lo hi p param :
  lrep m head tail hk tk (lo ++ hi) -> hk < param < tk ->
  Forall (fun x => x.2 < param) lo -> Forall (fun x => param < x.2) hi ->
  ~ has_node m p -> has_node m1 p -> rd_key m1 p = Ok param ->
  rd_next m1 p 0 = Ok (head_or tail hi.*1) -> keeps m m1 (fun _ => True) ->
  wr_next m1 (last_or head lo.*1) 0 p = Ok m2 ->
  lrep m2 head tail hk tk (lo ++ (p, param) :: hi).
Proof.
  intros Hrep Hb Hlo Hhi Hfresh Hp Hkp Hnp Hk1 Hw.
  assert (Hold : forall q, q ∈ head :: tail :: (lo ++ hi).*1 -> has_node m q)
    by (intros q; by eapply lrep_nodes).
  assert (Hpn : p ∉ head :: tail :: (lo ++ hi).*1) by (intros H; by apply Hfresh, Hold).
  set (pr := last_or head lo.*1) in *.
  assert (Hpr : has_node m1 pr) by (apply (Hk1 pr); [apply Hold, pred_in|done]).
  destruct (wr_link m1 pr p Hpr) as (m2' & Hw' & Hk2 & Hn2 & Hkey2 & Hnext2).
  rewrite Hw in Hw'. injection Hw' as <-.
  assert (Hsame : forall q, q ∈ head :: tail :: (lo ++ hi).*1 ->
            has_node m2 q /\ rd_key m2 q = rd_key m q).
  { intros q Hq. destruct (Hk1 q (Hold q Hq) I) as (H1 & H2 & _).
    destruct (decide (q = pr)) as [->|Hne]; [by rewrite Hkey2|].
    destruct (Hk2 q H1 Hne) as (? & -> & _). done. }
  assert (Hnext : forall q, q ∈ head :: tail :: (lo ++ hi).*1 -> q <> pr ->
            rd_next m2 q 0 = rd_next m q 0).
  { intros q Hq Hne. destruct (Hk1 q (Hold q Hq) I) as (H1 & _ & <-). by apply Hk2. }
  assert (Hppr : p <> pr) by (intros ->; apply Hpn, pred_in).
  destruct (Hk2 p Hp Hppr) as (Hp2 & Hkp2 & Hnp2).
  destruct Hrep as [Hc Hk Hh Ht Hs Hbo Hnd Hn].
  assert (Hnd' : NoDup (head :: lo.*1)).
  { apply NoDup_cons in Hnd as [Hh' Hnd]. apply NoDup_cons in Hnd as [_ Hnd].
    rewrite fmap_app in Hnd, Hh'. apply NoDup_app in Hnd as (Hnd & _ & _).
    apply NoDup_cons. split; [set_solver|done]. }
  apply Forall_app in Hk as [Hklo Hkhi]. apply Forall_app in Hbo as [Hblo Hbhi].
  assert (Hkeys : forall l, (forall x, x ∈ l -> x ∈ lo ++ hi) ->
    Forall (fun x => rd_key m x.1 = Ok x.2) l -> Forall (fun x => rd_key m2 x.1 = Ok x.2) l).
  { intros l Hl HF. rewrite Forall_forall in HF |- *. intros x Hx.
    destruct (Hsame x.1) as [_ ->]; [|by apply HF].
    do 2 (apply elem_of_cons; right). by apply list_elem_of_fmap_2, Hl. }
  split.
  - rewrite fmap_app in Hc |- *. rewrite fmap_cons. apply chain_app in Hc as [Hc1 Hc2].
    apply chain_app. split; simpl.
    + apply (chain_redirect m m2 0 head lo.*1 (head_or tail hi.*1)); try done.
      intros q Hq Hne. apply Hnext; [|done]. rewrite fmap_app. set_solver.
    + assert (Hfrom : chain_from m2 0 hi.*1 tail).
      { eapply chain_from_ext; [|exact Hc2]. intros q Hq. apply Hnext.
        - rewrite fmap_app. set_solver.
        - apply (pred_ne_succ head tail lo hi); [done|set_solver]. }
      rewrite Hnp in Hnp2. destruct (hi.*1); simpl in *; done.
  - apply Forall_app. split; [apply Hkeys; [set_solver|done]|].
    constructor; [simpl; by rewrite Hkp2|]. apply Hkeys; [set_solver|done].
  - destruct (Hsame head) as [_ ->]; [set_solver|done].
  - destruct (Hsame tail) as [_ ->]; [set_solver|done].
  - apply StronglySorted_app_inv in Hs as (S1 & S2 & HR). apply StronglySorted_app_intro; [done| |].
    + by constructor.
    + rewrite Forall_forall in Hlo. intros x y Hx [->|Hy]%elem_of_cons; [by apply Hlo|by apply HR].
  - apply Forall_app. split; [done|]. by constructor.
  - rewrite fmap_app, fmap_cons. rewrite fmap_app in Hnd, Hpn. simpl.
    assert (Hperm : head :: tail :: lo.*1 ++ p :: hi.*1 ≡ₚ p :: head :: tail :: lo.*1 ++ hi.*1).
    { trans (head :: tail :: p :: lo.*1 ++ hi.*1); [by rewrite <- Permutation_middle|].
      by rewrite (perm_swap p tail), (perm_swap p head). }
    rewrite Hperm. by apply NoDup_cons.
  - apply Forall_forall. intros q Hq. destruct (decide (q = p)) as [->|Hne]; [done|].
    apply Hsame. rewrite fmap_app, fmap_cons in Hq. rewrite fmap_app. set_solver.
Qed.

(** Unlinking and dropping the first node of the second part. *)
Lemma lrep_remove m m1 m2 head tail hk tk lo a k hi :
  lrep m head tail hk tk (lo ++ (a, k) :: hi) ->
  wr_next m (last_or head lo.*1) 0 (head_or tail hi.*1) = Ok m1 ->
  keeps m1 m2 (fun q => q <> a) ->
  lrep m2 head tail hk tk (lo ++ hi) /\
  rd_next m2 (last_or head lo.*1) 0 = Ok (head_or tail hi.*1).
Proof.
  intros Hrep Hw Hkeep. set (pr := last_or head lo.*1) in *.
  assert (Hold : forall q, q ∈ head :: tail :: (lo ++ (a, k) :: hi).*1 -> has_node m q)
    by (intros q; by eapply lrep_nodes).
  assert (Hpr : has_node m pr) by apply Hold, pred_in.
  destruct (wr_link m pr (head_or tail hi.*1) Hpr) as (m1' & Hw' & Hk1 & Hn1 & Hkey1 & Hnext1).
  rewrite Hw in Hw'. injection Hw' as <-.
  destruct Hrep as [Hc Hk Hh Ht Hs Hbo Hnd Hn].
  assert (Hperm : head :: tail :: (lo ++ (a, k) :: hi).*1 ≡ₚ a :: head :: tail :: (lo ++ hi).*1).
  { rewrite !fmap_app, fmap_cons. simpl.
    trans (head :: tail :: a :: lo.*1 ++ hi.*1); [by rewrite <- Permutation_middle|].
    by rewrite (perm_swap a tail), (perm_swap a head). }
  assert (Hin : forall q, q ∈ head :: tail :: (lo ++ hi).*1 ->
            q ∈ head :: tail :: (lo ++ (a, k) :: hi).*1 /\ q <> a).
  { intros q Hq. rewrite Hperm in Hnd |- *. apply NoDup_cons in Hnd as [Ha _].
    split; [by apply elem_of_cons; right|]. by intros ->. }
  assert (Hpra : pr <> a) by (apply Hin, pred_in).
  destruct (Hkeep pr Hn1 Hpra) as (Hn2 & Hkey2 & Hnext2).
  assert (Hsame : forall q, q ∈ head :: tail :: (lo ++ hi).*1 ->
            has_node m2 q /\ rd_key m2 q = rd_key m q).
  { intros q [Hq Hqa]%Hin. destruct (decide (q = pr)) as [->|Hne]; [by rewrite Hkey2, Hkey1|].
    destruct (Hk1 q (Hold q Hq) Hne) as (H1 & H2 & _).
    destruct (Hkeep q H1 Hqa) as (? & -> & _). done. }
  assert (Hnext : forall q, q ∈ head :: tail :: (lo ++ hi).*1 -> q <> pr ->
            rd_next m2 q 0 = rd_next m q 0).
  { intros q [Hq Hqa]%Hin Hne. destruct (Hk1 q (Hold q Hq) Hne) as (H1 & _ & <-).
    by apply Hkeep. }
  split; [|by rewrite Hnext2].
  assert (Hnd' : NoDup (head :: tail :: (lo ++ hi).*1)).
  { rewrite Hperm in Hnd. by apply NoDup_cons in Hnd as [_ ?]. }
  assert (Hnd2 : NoDup (head :: lo.*1)).
  { apply NoDup_cons in Hnd' as [Hh' Hnd']. apply NoDup_cons in Hnd' as [_ Hnd'].
    rewrite fmap_app in Hnd', Hh'. apply NoDup_app in Hnd' as (Hnd' & _ & _).
    apply NoDup_cons. split; [set_solver|done]. }
  split.
  - rewrite fmap_app in Hc |- *. rewrite fmap_cons in Hc. apply chain_app in Hc as [Hc1 Hc2].
    apply chain_app. split.
    + apply (chain_redirect m m2 0 head lo.*1 a); try done; [by fold pr; rewrite Hnext2|].
      intros q Hq Hne. apply Hnext; [|done]. rewrite fmap_app. set_solver.
    + simpl in Hc2. eapply chain_from_ext; [|instantiate (1 := m); by destruct (hi.*1); simpl in *; [|destruct Hc2]].
      intros q Hq. apply Hnext; [rewrite fmap_app; set_solver|].
      apply (pred_ne_succ head tail lo hi); [done|set_solver].
  - apply Forall_forall. intros x Hx. destruct (Hsame x.1) as [_ ->].
    { do 2 (apply elem_of_cons; right). by apply list_elem_of_fmap_2. }
    rewrite Forall_forall in Hk. apply Hk. set_solver.
  - destruct (Hsame head) as [_ ->]; [set_solver|done].
  - destruct (Hsame tail) as [_ ->]; [set_solver|done].
  - apply StronglySorted_app_inv in Hs as (S1 & S2 & HR).
    apply StronglySorted_inv in S2 as [S2 _]. apply StronglySorted_app_intro; [done..|].
    intros x y Hx Hy. apply HR; [done|set_solver].
  - apply Forall_app in Hbo as [? Hb2]. apply Forall_cons in Hb2 as [_ ?]. by apply Forall_app.
  - done.
  - apply Forall_forall. intros q Hq. by apply Hsame.
Qed.

(** ** One request refines the set operation *)

Lemma lset_insert lo hi p k : lset (lo ++ (p, k) :: hi) = {[k]} ∪ lset (lo ++ hi).
Proof.
  apply set_eq. intros x. rewrite elem_of_union, elem_of_singleton, !elem_of_lset, !fmap_app.
  rewrite fmap_cons, !elem_of_app, elem_of_cons. simpl. tauto.
Qed.

Lemma finger_op_spec fuel m head tail hk tk ns op param prev curr n :
  lrep m head tail hk tk ns -> mem_ok m -> room m n ->
  (op = LAdd -> param ∉ lset ns -> (0 < n)%nat) -> hk < param < tk ->
  finger head tail param ns prev curr -> (S (length ns) < fuel)%nat ->
  exists m' prev' curr' ns',
    finger_op fuel m op param prev curr = Ok (m', prev', curr', (lset_spec (lset ns) op param).2) /\
    lset ns' = (lset_spec (lset ns) op param).1 /\
    lrep m' head tail hk tk ns' /\ mem_ok m' /\
    room m' (room_after reclaims (lset ns) op param n) /\
    (forall param', param <= param' -> finger head tail param' ns' prev' curr') /\
    (length ns' <= S (length ns))%nat.
Proof.
  intros Hrep Hok Hroom Hsp Hb Hfin Hf.
  destruct (walk_finger m head tail hk tk ns param prev curr fuel) as
    (lo & hi & -> & Hlo & Hhi & Hwalk); try done; [lia|].
  assert (Hfing : forall hi' param', param <= param' ->
    finger head tail param' (lo ++ hi') (last_or head lo.*1) (head_or tail hi'.*1)).
  { intros hi' param' Hle. right. exists lo, hi'. split_and!; try done.
    eapply Forall_impl; [exact Hlo|]. simpl. lia. }
  unfold finger_op. rewrite Hwalk. simpl.
  destruct (stop_key m head tail hk tk lo hi param) as
    [(a & hi' & -> & Hkey & Hin & Hout)|(k & Hkey & Hne & Hout & Hgt)]; try done; [lia|..];
    rewrite Hkey; simpl.
  - rewrite Z.eqb_refl. unfold lset_spec, room_after. destruct op; rewrite ?decide_True by done; simpl.
    + do 4 eexists. split; [done|]. simpl. eauto 10.
    + do 4 eexists. split; [done|]. simpl. eauto 10.
    + assert (Hcur : rd_next m a 0 = Ok (head_or tail hi'.*1)).
      { pose proof (lr_chain _ _ _ _ _ _ Hrep) as Hc. rewrite fmap_app, fmap_cons in Hc.
        apply chain_app in Hc as [_ Hc]. simpl in Hc. destruct (hi'.*1); simpl in *; [done|].
        by destruct Hc. }
      rewrite Hcur. simpl.
      assert (Hprn : has_node m (last_or head lo.*1)) by (eapply lrep_nodes; [done|apply pred_in]).
      destruct (wr_link m (last_or head lo.*1) (head_or tail hi'.*1) Hprn)
        as (m1 & Hw & Hk1 & _). rewrite Hw. simpl.
      destruct (wr_next_ok_mem m _ _ m1 n Hok Hroom Hprn Hw) as [Hok1 Hroom1].
      assert (Ha : has_node m1 a).
      { apply Hk1.
        - eapply lrep_nodes; [done|]. rewrite fmap_app. simpl. set_solver.
        - apply (pred_ne_succ head tail lo ((a, param) :: hi')); [exact (lr_nodup _ _ _ _ _ _ Hrep)|].
          simpl. set_solver. }
      destruct (drop_node_ok m1 a n Hok1 Ha Hroom1) as (m2 & Hd & Hk2 & Hok2 & Hroom2).
      rewrite Hd. simpl.
      destruct (lrep_remove m m1 m2 head tail hk tk lo a param hi' Hrep Hw Hk2) as [Hrep2 Hnx].
      rewrite Hnx. simpl. do 4 eexists. split; [done|]. split_and!; try done.
      * rewrite lset_insert. set_solver.
      * intros param' Hle. by apply Hfing.
      * rewrite !length_app. simpl. lia.
  - destruct (Z.eqb_spec k param); [done|]. unfold lset_spec, room_after.
    destruct op; rewrite ?decide_False by done; simpl.
    + do 4 eexists. split; [done|]. simpl. eauto 10.
    + destruct (new_node_ok m param (head_or tail hi.*1) (pred n) Hok) as
        (m1 & p & Hnew & Hp0 & Hfr & Hp1 & Hkp & Hnp & Hk1 & Hok1 & Hroom1);
        [rewrite Nat.succ_pred_pos; [done|by apply Hsp]|].
      rewrite Hnew. simpl. destruct (Z.eqb_spec p 0); [done|].
      assert (Hprn : has_node m1 (last_or head lo.*1)).
      { apply Hk1; [|done]. eapply lrep_nodes; [done|apply pred_in]. }
      destruct (wr_link m1 (last_or head lo.*1) p Hprn) as (m2 & Hw & _). rewrite Hw. simpl.
      destruct (wr_next_ok_mem m1 _ _ m2 (pred n) Hok1 Hroom1 Hprn Hw) as [Hok2 Hroom2].
      do 4 eexists. split; [done|]. split_and!; try done.
      * apply lset_insert.
      * by apply (lrep_insert m m1 m2).
      * intros param' Hle. by apply (Hfing ((p, param) :: hi)).
      * rewrite !length_app. simpl. lia.
    + do 4 eexists. split; [done|]. simpl. eauto 10.
Qed.

(** A batch in ascending key order refines the set operations in that order. *)
Lemma finger_batch_spec reqs : forall fuel m head tail hk tk ns prev curr param,
  lrep m head tail hk tk ns -> mem_ok m -> room m (length reqs) ->
  StronglySorted Z.le (param :: reqs.*2) -> Forall (fun x => hk < x.2 < tk) reqs ->
  finger head tail param ns prev curr -> (S (length ns) + length reqs < fuel)%nat ->
  exists m' ns', finger_batch fuel m reqs prev curr = Ok (m', (lset_run (lset ns) reqs).2) /\
    lset ns' = (lset_run (lset ns) reqs).1 /\ lrep m' head tail hk tk ns' /\ mem_ok m' /\
    (length ns' <= length ns + length reqs)%nat.
Proof.
  induction reqs as [|[op p] reqs IH]; intros fuel m head tail hk tk ns prev curr param
    Hrep Hok Hroom Hs Hb Hfin Hf; simpl.
  { exists m, ns. split_and!; try done. lia. }
  apply StronglySorted_inv in Hs as [Hs Hle]. simpl in Hs, Hle, Hf, Hroom.
  apply Forall_cons in Hle as [Hle _]. apply Forall_cons in Hb as [Hb1 Hb].
  assert (Hfin' : finger head tail p ns prev curr).
  { destruct Hfin as [?|(lo & hi & ? & ? & ? & Hlo)]; [by left|right]. exists lo, hi.
    split_and!; try done. eapply Forall_impl; [exact Hlo|]. simpl. lia. }
  destruct (finger_op_spec fuel m head tail hk tk ns op p prev curr (S (length reqs))) as
    (m1 & prev1 & curr1 & ns1 & Hrun & Hset & Hrep1 & Hok1 & Hroom1 & Hfin1 & Hlen1); try done; [lia..|].
  eapply room_le in Hroom1; [|apply room_after_le].
  destruct (IH fuel m1 head tail hk tk ns1 prev1 curr1 p) as
    (m2 & ns2 & Hrun2 & Hset2 & Hrep2 & Hok2 & Hlen2); try done; [by apply Hfin1|lia|].
  exists m2, ns2. rewrite Hrun. simpl. rewrite Hrun2. simpl.
  destruct (lset_spec (lset ns) op p) as [S' r]. simpl in *. subst S'.
  destruct (lset_run (lset ns1) reqs). simpl in *. split_and!; try done. lia.
Qed.

(** The bottom level of a skip list is a sorted linked list. *)
Lemma skip_inv_lrep m head tail hk tk maxl ns :
  skip_inv m head tail tk maxl ns -> rd_key m head = Ok hk ->
  Forall (fun s => hk < s_key s) ns ->
  exists ps, lrep m head tail hk tk ps /\ lset ps = skip_set ns /\ ps.*1 = s_ptr <$> ns.
Proof.
  intros [Hc Hk Ht Htl Hs Hb Htp Hnd Hn Hm] Hh Hpos.
  assert (Hptr : ((fun s => (s_ptr s, s_key s)) <$> ns).*1 = s_ptr <$> ns).
  { rewrite <- list_fmap_compose. by apply list_fmap_ext. }
  exists ((fun s => (s_ptr s, s_key s)) <$> ns). split_and!; [|..|done].
  - split; rewrite ?Hptr; try done.
    + specialize (Hc 0%nat level_zero). unfold at_level in Hc. rewrite filter_all in Hc; [done|].
      eapply Forall_impl; [exact Htp|]. simpl. lia.
    + rewrite Forall_fmap. eapply Forall_impl; [exact Hk|]. done.
    + clear -Hs. induction Hs as [|s ns Hs IH HF]; simpl; constructor; [done|].
      rewrite Forall_fmap. eapply Forall_impl; [exact HF|]. done.
    + rewrite Forall_fmap. rewrite Forall_forall in Hb, Hpos |- *. intros s Hin. simpl.
      split; [by apply Hpos|by apply Hb].
  - unfold skip_set, lset, skip_keys. f_equal. rewrite <- list_fmap_compose. by apply list_fmap_ext.
Qed.
End rep.
