(* ===== verification/HostLists.v ===== *)
(** * Lists in host memory

    Models src/SMC/SW/HOST/app: the region allocator of app_utils.hh, the
    initial list that multithread_mainmem_linkedlist builds with [list_add]
    (utils.hh), and the flat-combining list of FCLinkedList.h, which collects the
    valid requests, sorts them and serves them in one traversal. *)

From S2P Require Import Prelude SkipCore FlatCombining FCSkipList ListCore.

(** ** The region allocator *)

(** The objects allocated so far, [region_aligned] and [region_end]. *)
Record hmem := mkH {
  hheap : gmap Z Node;
  region_aligned : Z;
  region_end : Z;
}.

(** [init_region]: [raw] is the address of [region_raw]; [None] is a failed
    assertion. *)
Definition init_region (raw PIM_HOST_OFFSET REQUIRED_MEM_SIZE SMC_BURST_SIZE_B : Z)
  : option hmem :=
  let ra := raw + PIM_HOST_OFFSET in
  let re := raw + (PIM_HOST_OFFSET + REQUIRED_MEM_SIZE + SMC_BURST_SIZE_B) in
  let md := ra mod SMC_BURST_SIZE_B in
  let ra' := if md =? 0 then ra else ra + SMC_BURST_SIZE_B - md in
  if (ra' mod SMC_BURST_SIZE_B =? 0) && (ra' <? re) && (PIM_HOST_OFFSET <=? ra')
  then Some (mkH ∅ ra' re) else None.

(** [allocate_region]: a bump of [region_aligned]; [UB] is a failed assertion. *)
Definition allocate_region (m : hmem) (size : Z) : result (hmem * Z) :=
  if (size <? 0xFFFFFFFF) && (region_aligned m + size <? region_end m)
  then Ok (mkH (hheap m) (region_aligned m + size) (region_end m), region_aligned m)
  else UB.

Definition put_node (m : hmem) (p : Z) (n : Node) : hmem :=
  mkH (<[p := n]> (hheap m)) (region_aligned m) (region_end m).

Definition hm_set_next (m : hmem) (p : Z) (l : nat) (v : Z) : result hmem :=
  h ← heap_set_next (hheap m) p l v; Ok (mkH h (region_aligned m) (region_end m)).

(** Nodes with [cap] links in the region; the view as [node_t] is [cap = 1]. *)
Definition hm_mem (cap : nat) : NodeMem hmem := {|
  node_cap := cap;
  rd_key m := heap_key (hheap m);
  rd_top m := heap_top (hheap m);
  rd_next m := heap_next (hheap m);
  wr_next := hm_set_next;
  has_node m := heap_has cap (hheap m);
|}.

Lemma hm_set_next_inv m p l v m' :
  hm_set_next m p l v = Ok m' ->
  heap_set_next (hheap m) p l v = Ok (hheap m') /\
  region_aligned m' = region_aligned m /\ region_end m' = region_end m.
Proof.
  unfold hm_set_next. destruct (heap_set_next _ p l v); try done. by intros [= <-].
Qed.

Lemma hm_laws cap : NodeMemLaws hmem (NM := hm_mem cap).
Proof.
  pose proof (heap_laws_at cap) as HL. split; simpl.
  - intros m p l v Hp Hl. unfold hm_set_next.
    destruct (wr_next_ok (NodeMemLaws := HL) (hheap m) p l v Hp Hl) as [h' Hh].
    simpl in Hh. rewrite Hh. eauto.
  - intros m p l v m' Hp Hl (Hw & _)%hm_set_next_inv.
    by apply (wr_next_eq (NodeMemLaws := HL) (hheap m) p l v).
  - intros m p l v m' q k Hp Hl (Hw & _)%hm_set_next_inv.
    by apply (wr_next_ne (NodeMemLaws := HL) (hheap m) p l v).
  - intros m p l v m' q Hp Hl (Hw & _)%hm_set_next_inv.
    by apply (wr_next_hdr (NodeMemLaws := HL) (hheap m) p l v).
  - intros m p [? _]. done.
Qed.

(** Addresses in use lie below [region_aligned]. *)
Definition region_ok (m : hmem) : Prop :=
  0 < region_aligned m /\ forall p n, hheap m !! p = Some n -> p < region_aligned m.

Lemma region_fresh m : region_ok m -> hheap m !! region_aligned m = None.
Proof.
  intros [_ H]. destruct (hheap m !! region_aligned m) as [n|] eqn:E; [|done].
  apply H in E. lia.
Qed.

(** ** The initial list: [list_add] and [list_print] of utils.hh *)

Section initial.
Context (MAX_LEVEL : nat).

(** sizeof(skiplist_node_t) with 4-byte words. *)
Definition skipnode_size : Z := 4 + 4 * Z.of_nat MAX_LEVEL + 4.

(** [main]: two sentinels in the region, linked at every level. *)
Definition make_sentinels (m : hmem) : result (hmem * Z * Z) :=
  '(m1, head) ← allocate_region m skipnode_size;
  '(m2, tail) ← allocate_region m1 skipnode_size;
  let m3 := put_node m2 head (mkNode 0 (Z.of_nat MAX_LEVEL) (replicate MAX_LEVEL (Some tail))) in
  let m4 := put_node m3 tail
              (mkNode UINT32_MAX (Z.of_nat MAX_LEVEL) (replicate MAX_LEVEL (Some 0))) in
  Ok (m4, head, tail).

Definition list_add (m : hmem) (start key new_level : Z) : result (hmem * Z) :=
  let NM := hm_mem MAX_LEVEL in
  '(found, preds, succs) ←
    find_levels (S (size (hheap m))) m true key MAX_LEVEL start 0
      (replicate MAX_LEVEL (Some 0)) (replicate MAX_LEVEL (Some 0));
  if negb (found =? 0) then Ok (m, 0)
  else
    '(m1, new) ← allocate_region m skipnode_size;
    let m2 := put_node m1 new (mkNode key new_level (arr_new MAX_LEVEL)) in
    m3 ← link_levels m2 new preds succs (seq 0 (Z.to_nat new_level));
    Ok (m3, 1).

(** [while (curr->next != 0) { print key; curr = curr->next; }] from the node
    after the head. *)
Fixpoint print_from (fuel : nat) (m : hmem) (curr : Z) : result (list Z) :=
  match fuel with
  | O => NoFuel
  | S fuel' =>
      nx ← heap_next (hheap m) curr 0;
      if nx =? 0 then Ok []
      else
        k ← heap_key (hheap m) curr;
        rest ← print_from fuel' m nx;
        Ok (k :: rest)
  end.
Definition list_print (m : hmem) (start : Z) : result (list Z) :=
  curr ← heap_next (hheap m) start 0; print_from (S (size (hheap m))) m curr.

(** The list [list_add] works on: a skip list of height MAX_LEVEL. *)
Definition host_list (m : hmem) (head tail : Z) (ns : list snode) : Prop :=
  skip_inv (NM := hm_mem MAX_LEVEL) m head tail UINT32_MAX MAX_LEVEL ns /\ region_ok m /\
  rd_key (NodeMem := hm_mem MAX_LEVEL) m head = Ok 0.

Lemma host_fuel m head tail ns : host_list m head tail ns -> (length ns < S (size (hheap m)))%nat.
Proof.
  intros [Hinv _]. pose proof (si_nodup _ _ _ _ _ _ Hinv) as Hnd.
  do 2 apply NoDup_cons in Hnd as [_ Hnd].
  rewrite <- (length_fmap s_ptr ns). apply Nat.lt_succ_r, NoDup_dom_size; [done|].
  intros p Hp. pose proof (si_nodes _ _ _ _ _ _ Hinv) as Hn. rewrite Forall_forall in Hn.
  destruct (Hn p ltac:(set_solver)) as (_ & n & -> & _). eauto.
Qed.

Lemma host_find m head tail ns key :
  host_list m head tail ns -> (0 < MAX_LEVEL)%nat -> key < UINT32_MAX ->
  exists preds succs,
    find_levels (NM := hm_mem MAX_LEVEL) (S (size (hheap m))) m true key MAX_LEVEL head 0
      (replicate MAX_LEVEL (Some 0)) (replicate MAX_LEVEL (Some 0))
    = Ok (match_ptr key (highs key ns), preds, succs) /\
    (match_ptr key (highs key ns) = 0 ->
     (forall l, (l < MAX_LEVEL)%nat -> arr_get preds l = Ok (pred_at head l (lows key ns))) /\
     (forall l, (l < MAX_LEVEL)%nat -> arr_get succs l = Ok (succ_at tail l (highs key ns)))).
Proof.
  intros Hl Hpos Hk. pose proof Hl as (Hinv & _).
  destruct (find_levels_spec (NML := hm_laws MAX_LEVEL) m head tail UINT32_MAX _ ns Hinv key Hk
    (S (size (hheap m))) true MAX_LEVEL head 0
    (replicate MAX_LEVEL (Some 0)) (replicate MAX_LEVEL (Some 0)))
    as (f & p & s & Hrun & Hf & Harr); rewrite ?length_replicate; auto.
  { by eapply host_fuel. }
  destruct MAX_LEVEL as [|n]; [lia|]. subst f. exists p, s. split; [done|].
  intros Hz. destruct (Harr (or_intror Hz)) as (HP & HS & _). done.
Qed.

(** A fresh object keeps the list. *)
Lemma host_alloc m head tail ns n size m1 p :
  host_list m head tail ns -> allocate_region m size = Ok (m1, p) -> 0 < size ->
  host_list (put_node m1 p n) head tail ns /\ p ∉ head :: tail :: (s_ptr <$> ns) /\ p <> 0 /\
  hheap (put_node m1 p n) !! p = Some n.
Proof.
  intros (Hinv & Hreg & Hk) Ha Hsz. unfold allocate_region in Ha.
  destruct (_ && _) in Ha; [|done]. injection Ha as <- <-. simpl.
  pose proof (region_fresh m Hreg) as Hfr.
  pose proof (si_nodes _ _ _ _ _ _ Hinv) as Hn. rewrite Forall_forall in Hn.
  assert (Hne : forall q, q ∈ head :: tail :: (s_ptr <$> ns) -> region_aligned m <> q).
  { intros q Hq <-. destruct (Hn _ Hq) as (_ & ? & ? & _). simpl in *. congruence. }
  destruct Hreg as [Hpos Hbelow].
  split; [|split; [by intros H%Hne|split; [lia|apply lookup_insert_eq]]].
  split; [|split].
  - eapply (skip_inv_frame (NML := hm_laws MAX_LEVEL)); [done|]. intros q Hq.
    simpl. unfold heap_has, heap_key, heap_top, heap_next.
    rewrite lookup_insert_ne by auto. split_and!; try done; by apply Hn.
  - split; simpl; [lia|]. intros q n'. destruct (decide (q = region_aligned m)) as [->|Hne'].
    + lia.
    + rewrite lookup_insert_ne by done. intros H%Hbelow. lia.
  - simpl in *. unfold heap_key in *. rewrite lookup_insert_ne by (apply Hne; set_solver). done.
Qed.

Lemma link_region (m : hmem) new preds succs levels m' :
  link_levels (NM := hm_mem MAX_LEVEL) m new preds succs levels = Ok m' ->
  region_aligned m' = region_aligned m /\ region_end m' = region_end m /\
  dom (hheap m') = dom (hheap m).
Proof.
  revert m; induction levels as [|l levels IH]; intros m; simpl; [by intros [= <-]|].
  destruct (arr_get succs l) as [s'| |]; try done. simpl.
  destruct (hm_set_next m new l s') as [m1| |] eqn:H1; try done. simpl.
  destruct (arr_get preds l) as [p'| |]; try done. simpl.
  destruct (hm_set_next m1 p' l new) as [m2| |] eqn:H2; try done. simpl. intros H.
  apply hm_set_next_inv in H1 as (D1 & E1 & F1). apply hm_set_next_inv in H2 as (D2 & E2 & F2).
  assert (Hdom : forall h p k v h', heap_set_next h p k v = Ok h' -> dom h' = dom h).
  { intros h p k v h'. unfold heap_set_next. destruct (h !! p) eqn:E; [|done]. simpl.
    destruct (arr_set _ _ _); try done. intros [= <-]. rewrite dom_insert_lookup_L; [done|eauto]. }
  destruct (IH _ H) as (A & B & C). rewrite A, B, C, (Hdom _ _ _ _ _ D2), (Hdom _ _ _ _ _ D1).
  split_and!; congruence.
Qed.

(** [list_add] inserts a key that is not there and reports it; it leaves the
    list alone otherwise. *)
Lemma list_add_refines m head tail ns key level :
  host_list m head tail ns -> 0 <= key < UINT32_MAX ->
  1 <= level <= Z.of_nat MAX_LEVEL -> skipnode_size < 0xFFFFFFFF ->
  region_aligned m + skipnode_size < region_end m ->
  exists m' ns', list_add m head key level =
      Ok (m', if decide (key ∈ skip_set ns) then 0 else 1) /\
    host_list m' head tail ns' /\ skip_set ns' = {[key]} ∪ skip_set ns.
Proof.
  intros Hl Hkey Hlev Hsz Hroom.
  destruct (host_find m head tail ns key Hl ltac:(lia) ltac:(lia)) as (preds & succs & Hfind & Harr).
  unfold list_add. rewrite Hfind. cbn [mbind result_bind]. pose proof Hl as (Hinv & _).
  destruct (match_ptr_cases (NML := hm_laws MAX_LEVEL) _ _ _ _ _ _ Hinv key)
    as [[Hnin Hz]|(f & hi' & Ehi & Hkf & Hnz & Hmf & Hin)].
  - rewrite Hz. rewrite decide_False by done. simpl negb. cbv iota.
    destruct (Harr Hz) as [HP HS].
    assert (Ha : allocate_region m skipnode_size =
      Ok (mkH (hheap m) (region_aligned m + skipnode_size) (region_end m), region_aligned m)).
    { unfold allocate_region. destruct (Z.ltb_spec skipnode_size 0xFFFFFFFF); [|lia].
      destruct (Z.ltb_spec (region_aligned m + skipnode_size) (region_end m)); [done|lia]. }
    rewrite Ha. cbn [mbind result_bind]. set (new := region_aligned m) in *.
    destruct (host_alloc m head tail ns (mkNode key level (arr_new MAX_LEVEL)) _ _ _ Hl Ha)
      as ((Hinv1 & Hreg1 & Hk1) & Hfresh & Hn0 & Hlook); [unfold skipnode_size; lia|].
    destruct (skip_insert (NML := hm_laws MAX_LEVEL) _ _ _ _ _ _ Hinv1 key new
                (Z.to_nat level) preds succs) as (m3 & Hrun & Hhdr & Hinv2).
    + lia.
    + by rewrite <- elem_of_skip_set.
    + split; [done|]. eexists. split; [exact Hlook|]. cbn [next]. by rewrite length_arr_new.
    + done.
    + simpl in *. unfold heap_key. by rewrite Hlook.
    + simpl in *. unfold heap_top. rewrite Hlook. simpl. by rewrite Z2Nat.id by lia.
    + lia.
    + intros l Hll. apply HP. lia.
    + intros l Hll. apply HS. lia.
    + rewrite Hrun. cbn [mbind result_bind]. exists m3. eexists. split; [done|].
      destruct (link_region _ _ _ _ _ _ Hrun) as (E1 & E2 & E3).
      split; [split; [exact Hinv2|split]|].
      * destruct Hreg1 as [Hp Hb]. split; [by rewrite E1|]. intros q n Hq.
        assert (Hq' : q ∈ dom (hheap m3)) by (apply elem_of_dom; eauto).
        rewrite E3 in Hq'. apply elem_of_dom in Hq' as [n' Hn']. rewrite E1. eauto.
      * rewrite <- Hk1. apply Hhdr. pose proof (si_nodes _ _ _ _ _ _ Hinv1) as Hn.
        by apply Forall_cons in Hn as [? _].
      * by apply (skip_set_insert (NML := hm_laws MAX_LEVEL) _ _ _ _ _ _ Hinv1).
  - rewrite Hmf. rewrite decide_True by done. rewrite (proj2 (Z.eqb_neq _ 0) Hnz). simpl.
    exists m, ns. split; [done|]. split; [done|]. set_solver.
Qed.
End initial.

(** ** FCLinkedList.h *)

(** The list as [node_t]: one link per node, 8 bytes each; removed nodes are not
    given back. *)
Definition node_size : Z := 8.
#[export] Instance list_mem : NodeMem hmem := hm_mem 1.
#[export] Instance list_laws : NodeMemLaws hmem := hm_laws 1.

#[export] Instance list_alloc : NodeAlloc hmem := {|
  mem_ok := region_ok;
  room m n := region_aligned m + Z.of_nat n * node_size < region_end m;
  new_node m k nx :=
    '(m1, p) ← allocate_region m node_size;
    Ok (put_node m1 p (mkNode k 0 [Some nx]), p);
  drop_node m p := Ok m;
  reclaims := false;
|}.

#[export] Instance list_alloc_laws : NodeAllocLaws hmem.
Proof.
  split; simpl.
  - lia.
  - intros m k nx n Hok Hroom. unfold node_size in *. unfold allocate_region.
    destruct (Z.ltb_spec 8 4294967295); [|lia].
    destruct (Z.ltb_spec (region_aligned m + 8) (region_end m)); [|lia]. simpl.
    pose proof (region_fresh m Hok) as Hfr. destruct Hok as [Hpos Hb].
    do 2 eexists. split; [done|]. simpl. split_and!.
    + lia.
    + intros (_ & n' & Hn & _). congruence.
    + split; [lia|]. eexists. rewrite lookup_insert_eq. split; [done|]. simpl. lia.
    + unfold heap_key. by rewrite lookup_insert_eq.
    + unfold heap_next. by rewrite lookup_insert_eq.
    + intros q Hq _. simpl in *. unfold heap_has, heap_key, heap_next in *.
      destruct Hq as (Hq0 & n' & Hn & Hl).
      rewrite lookup_insert_ne by (intros <-; congruence). split; [|done]. split; [done|]. eauto.
    + split; simpl; [lia|]. intros p n'. destruct (decide (p = region_aligned m)) as [->|Hne]; [lia|].
      rewrite lookup_insert_ne by done. intros H'%Hb. lia.
    + lia.
  - intros m p n Hok Hp Hr. exists m. split; [done|]. split; [|done]. intros q Hq _. done.
  - intros m p v m' n [Hpos Hb] Hr Hp Hw. pose proof Hw as Hw'. revert Hw'.
    unfold hm_set_next, heap_set_next. destruct (hheap m !! p) as [x|] eqn:Hx; [|done]. simpl.
    destruct (arr_set (next x) 0 v); try done. intros [= <-]. simpl.
    split; [split; simpl; [done|]|done]. intros q n'.
    destruct (decide (q = p)) as [->|]; [eauto|]. rewrite lookup_insert_ne by done. eauto.
  - intros m n k Hr Hk. unfold node_size in *. lia.
Qed.

Record llist := mkLL { lmem : hmem; ll_head : Z; ll_tail : Z }.

(** Operation codes of defs.hh. *)
Definition LL_ADD_OP : Z := 0x4000.
Definition LL_REMOVE_OP : Z := 0x2000.
Definition LL_CONTAINS_OP : Z := 0x6000.
Definition decode_op (op : Z) : lop :=
  if op =? LL_CONTAINS_OP then LContains else if op =? LL_ADD_OP then LAdd else LRemove.

Definition LL_UNUSED_SLOT_THRESHOLD : Z := 15.

(** [LinkedList(head, tail)] *)
Definition LinkedList_new (sl : gmap Z SlotInfo) (m : hmem) (head tail : Z) : fc llist :=
  mkFC sl 0 0 0 (mkLL m head tail).

(** [requests_compare] *)
Definition requests_compare (sl : gmap Z SlotInfo) (a b : Z) : bool :=
  match sl !! a, sl !! b with
  | Some x, Some y => parameter x <? parameter y
  | _, _ => false
  end.

Section combine_sort.
Context {St : Type}.

(** The first loop of [flat_combine_sort]: the valid requests, in list order;
    stale slots are unlinked. *)
Fixpoint collect_loop (fuel : nat) (threshold : Z) (st : fc St) (prev curr : Z)
  : result (fc St * list Z) :=
  match fuel with
  | O => NoFuel
  | S fuel' =>
      if curr =? 0 then Ok (st, [])
      else
        s ← of_opt (slots st !! curr);
        if is_request_valid s then
          '(st', rs) ← collect_loop fuel' threshold st curr (next_slot s);
          Ok (st', curr :: rs)
        else if negb (curr =? prev) &&
                (threshold <? s32 (operation_timestamp st - op_timestamp s)) then
          p ← of_opt (slots st !! prev);
          collect_loop fuel' threshold
            (upd_slots st (<[curr := set_linked s false]>
                           (<[prev := set_next p (next_slot s)]> (slots st)))) prev (next_slot s)
        else collect_loop fuel' threshold st curr (next_slot s)
  end.

(** The effect of the loop on the slots [ids] from [curr] on. *)
Record collected (st st' : fc St) (prev curr : Z) (ids ids' : list Z) : Prop := {
  cl_sub : ids' `sublist_of` ids;
  cl_rest : tail_slot st' = tail_slot st /\ operation_timestamp st' = operation_timestamp st /\
            combine_cas st' = combine_cas st /\ obj st' = obj st;
  cl_valid i s : i ∈ ids -> slots st !! i = Some s -> is_request_valid s = true -> i ∈ ids';
  cl_first : prev = curr -> slot_chain (slots st') curr ids';
  cl_prev p : prev ∉ ids -> slots st !! prev = Some p -> next_slot p = curr ->
    exists n, slots st' !! prev = Some (set_next p n) /\ slot_chain (slots st') n ids';
  cl_slots i s : i ∈ ids -> slots st !! i = Some s -> exists n,
    slots st' !! i = Some (set_linked (set_next s n)
                             (if bool_decide (i ∈ ids') then is_slot_linked s else false));
  cl_frame i : i ∉ ids -> i <> prev -> slots st' !! i = slots st !! i;
}.

Definition pending (sl : gmap Z SlotInfo) (i : Z) : bool :=
  match sl !! i with Some s => is_request_valid s | None => false end.

Lemma set_linked_id s : set_linked s (is_slot_linked s) = s.
Proof. by destruct s. Qed.

Lemma collected_keep st st' prev i ids ids' s :
  i ∉ ids -> i <> 0 -> slots st !! i = Some s ->
  collected st st' i (next_slot s) ids ids' -> collected st st' prev i (i :: ids) (i :: ids').
Proof.
  intros Hi Hi0 Hs [Csub Crest Cvalid _ Cprev Cslots Cframe].
  destruct (Cprev s Hi Hs eq_refl) as (n & Hn & Hc).
  assert (Hchain : slot_chain (slots st') i (i :: ids')) by (simpl; eauto).
  split; try done.
  - by apply sublist_skip.
  - intros j t [->|Hj]%elem_of_cons Ht Hv; set_solver.
  - intros p Hp Hpl <-. exists (next_slot p). rewrite set_next_id. split; [|done].
    rewrite Cframe by set_solver. done.
  - intros j t Hj Ht. destruct (decide (j = i)) as [->|Hne].
    + rewrite Hs in Ht. injection Ht as <-. exists n. rewrite Hn. f_equal.
      rewrite bool_decide_true by set_solver. by destruct s.
    + apply elem_of_cons in Hj as [->|Hj]; [done|]. destruct (Cslots j t Hj Ht) as [k Hk].
      exists k. rewrite Hk. by rewrite (bool_decide_elem_cons_ne i j ids').
  - intros j Hj Hjp. apply Cframe; set_solver.
Qed.

Lemma collected_drop st st' prev i ids ids' s p :
  i ∉ ids -> prev ∉ i :: ids -> slots st !! i = Some s -> is_request_valid s = false ->
  slots st !! prev = Some p ->
  collected (upd_slots st (<[i := set_linked s false]>
               (<[prev := set_next p (next_slot s)]> (slots st)))) st'
            prev (next_slot s) ids ids' ->
  collected st st' prev i (i :: ids) ids'.
Proof.
  intros Hi Hprev Hs Hv Hp [Csub Crest Cvalid _ Cprev Cslots Cframe].
  set (sl1 := <[i := _]> _) in *. simpl in *.
  assert (Hsame : forall j, j <> i -> j <> prev -> sl1 !! j = slots st !! j).
  { intros j ? ?. unfold sl1. by rewrite !lookup_insert_ne. }
  assert (Hi' : i ∉ ids') by (intros ?; apply Hi; by eapply elem_of_sublist).
  split; try done.
  - by apply sublist_cons.
  - intros j t [->|Hj]%elem_of_cons Ht Hv'; [congruence|].
    apply (Cvalid j t); [done| |done]. rewrite Hsame by set_solver. done.
  - intros ->. set_solver.
  - intros q Hq Hql Hn. rewrite Hp in Hql. injection Hql as <-.
    destruct (Cprev (set_next p (next_slot s))) as (n & Hn' & Hc).
    + set_solver.
    + unfold sl1. rewrite lookup_insert_ne by set_solver. apply lookup_insert_eq.
    + done.
    + exists n. done.
  - intros j t Hj Ht. destruct (decide (j = i)) as [->|Hne].
    + rewrite Hs in Ht. injection Ht as <-. exists (next_slot s). rewrite Cframe by set_solver.
      unfold sl1. rewrite lookup_insert_eq, bool_decide_false by done. by destruct s.
    + apply elem_of_cons in Hj as [->|Hj]; [done|]. apply (Cslots j t Hj).
      rewrite Hsame by set_solver. done.
  - intros j Hj Hjp. rewrite Cframe by set_solver. apply Hsame; set_solver.
Qed.

Lemma collect_loop_spec threshold ids : forall st prev curr fuel,
  slot_chain (slots st) curr ids -> NoDup ids ->
  (prev = curr \/ prev ∉ ids /\ is_Some (slots st !! prev)) -> (length ids < fuel)%nat ->
  exists st' ids', collect_loop fuel threshold st prev curr =
      Ok (st', List.filter (pending (slots st)) ids) /\
    collected st st' prev curr ids ids'.
Proof.
  induction ids as [|i ids IH]; intros st prev curr fuel Hc Hnd Hprev Hfuel;
    (destruct fuel as [|fuel]; [simpl in Hfuel; lia|]); simpl in Hc.
  { subst curr. exists st, []. split; [done|]. split; try done; simpl.
    - intros p _ Hp Hn. exists 0. rewrite <- Hn, set_next_id. done.
    - intros i s Hi. by apply elem_of_nil in Hi. }
  destruct Hc as (-> & Hi0 & s & Hs & Hc). apply NoDup_cons in Hnd as [Hi Hnd].
  simpl. rewrite (proj2 (Z.eqb_neq i 0) Hi0). unfold pending at 1. rewrite Hs. simpl.
  simpl in Hfuel. destruct (is_request_valid s) eqn:Hv.
  - destruct (IH st i (next_slot s) fuel) as (st' & ids' & Hrun & Hcl); try done; [|lia|].
    { right. eauto. }
    rewrite Hrun. simpl. exists st', (i :: ids'). split; [done|]. by eapply collected_keep.
  - destruct (negb (i =? prev) && _) eqn:Hst.
    + apply andb_true_iff in Hst as [Hne%negb_true_iff%Z.eqb_neq _].
      destruct Hprev as [->|[Hp [p Hpl]]]; [done|]. rewrite Hpl. simpl.
      set (st1 := upd_slots st _).
      apply not_elem_of_cons in Hp as [Hpi Hp].
      assert (Hst1 : forall j, j ∈ ids -> slots st1 !! j = slots st !! j).
      { intros j Hj. unfold st1; simpl. rewrite !lookup_insert_ne; [done|by intros ->..]. }
      destruct (IH st1 prev (next_slot s) fuel) as (st' & ids' & Hrun & Hcl); [|done| |lia|].
      * by eapply slot_chain_ext.
      * right. split; [done|]. unfold st1; simpl.
        rewrite lookup_insert_ne by done. rewrite lookup_insert_eq. eauto.
      * exists st', ids'. split; [|eapply collected_drop; eauto; by apply not_elem_of_cons].
        rewrite Hrun. f_equal. f_equal. apply filter_ext_in. intros j Hj. unfold pending.
        rewrite Hst1; [done|]. by apply list_elem_of_In.
    + destruct (IH st i (next_slot s) fuel) as (st' & ids' & Hrun & Hcl); try done; [|lia|].
      { right. eauto. }
      exists st', (i :: ids'). split; [done|]. by eapply collected_keep.
Qed.
End combine_sort.

(** The second loop: execute the sorted requests from one position of the list
    to the next. *)
Fixpoint exec_sorted (st : fc llist) (order : list Z) (prev curr : Z) : result (fc llist) :=
  match order with
  | [] => Ok st
  | i :: order' =>
      s ← of_opt (slots st !! i);
      let l := obj st in
      '(m', prev', curr', r) ←
        finger_op (3 + size (hheap (lmem l))) (lmem l) (decode_op (operation s)) (parameter s)
                  prev curr;
      exec_sorted (mkFC (<[i := set_answer s r (operation_timestamp st)]> (slots st))
                        (tail_slot st) (s32 (operation_timestamp st + 1)) (combine_cas st)
                        (mkLL m' (ll_head l) (ll_tail l))) order' prev' curr'
  end.

Section sorting.
(** [std::sort] with a comparison; what it guarantees for a comparison of keys. *)
Context (std_sort : (Z -> Z -> bool) -> list Z -> list Z).

Definition flat_combine_sort (fuel : nat) (st : fc llist) : result (fc llist) :=
  '(st1, requests) ← collect_loop fuel LL_UNUSED_SLOT_THRESHOLD st (tail_slot st) (tail_slot st);
  exec_sorted st1 (std_sort (requests_compare (slots st1)) requests) 0 (ll_head (obj st1)).

(** [fc_operation] of a thread that runs alone, as in FlatCombining.v. *)
Definition LinkedList_fc_operation (fuel : nat) (st : fc llist) (op param slot : Z)
  : result (fc llist * Z) :=
  s ← of_opt (slots st !! slot);
  let st1 := upd_slots st (<[slot := set_request s op param]> (slots st)) in
  st2 ← link_if_needed st1 slot;
  if combine_cas st2 =? 0 then
    st3 ← link_if_needed (set_cas st2 LOCKED_CAS) slot;
    st4 ← flat_combine_sort fuel st3;
    let st5 := set_cas st4 0 in
    s' ← of_opt (slots st5 !! slot);
    Ok (st5, ret_val s')
  else NoFuel.

Definition sort_ok : Prop :=
  forall (lt : Z -> Z -> bool) (k : Z -> Z) l,
    (forall a b, a ∈ l -> b ∈ l -> lt a b = (k a <? k b)) ->
    std_sort lt l ≡ₚ l /\ StronglySorted (fun a b => k a <= k b) (std_sort lt l).
End sorting.

(** The request in a slot. *)
Definition req_of (sl : gmap Z SlotInfo) (i : Z) : lop * Z :=
  match sl !! i with
  | Some s => (decode_op (operation s), parameter s)
  | None => (LContains, 0)
  end.

Lemma lrep_fuel (m : hmem) head tail hk tk ns :
  lrep m head tail hk tk ns -> (S (length ns) < 3 + size (hheap m))%nat.
Proof.
  intros [_ _ _ _ _ _ Hnd Hn]. do 2 apply NoDup_cons in Hnd as [_ Hnd].
  rewrite <- (length_fmap fst ns). assert (length ns.*1 <= size (hheap m))%nat; [|lia].
  apply NoDup_dom_size; [done|]. intros p Hp. rewrite Forall_forall in Hn.
  destruct (Hn p ltac:(set_solver)) as (_ & n & -> & _). eauto.
Qed.

(** [lrep] with the keys [0] and UINT32_MAX of the sentinels. *)
Definition list_ref (S : gset Z) (l : llist) : Prop :=
  exists ns, lrep (lmem l) (ll_head l) (ll_tail l) 0 UINT32_MAX ns /\ region_ok (lmem l) /\
    S = lset ns.

Lemma exec_sorted_spec order : forall st ns prev curr param,
  lrep (lmem (obj st)) (ll_head (obj st)) (ll_tail (obj st)) 0 UINT32_MAX ns ->
  region_ok (lmem (obj st)) -> room (lmem (obj st)) (length order) ->
  NoDup order -> (forall i, i ∈ order -> is_Some (slots st !! i)) ->
  StronglySorted Z.le (param :: (req_of (slots st) <$> order).*2) ->
  Forall (fun x => 0 < x.2 < UINT32_MAX) (req_of (slots st) <$> order) ->
  finger (ll_head (obj st)) (ll_tail (obj st)) param ns prev curr ->
  exists st', exec_sorted st order prev curr = Ok st' /\
    list_ref (lset_run (lset ns) (req_of (slots st) <$> order)).1 (obj st') /\
    tail_slot st' = tail_slot st /\ combine_cas st' = combine_cas st /\
    (forall j i, order !! j = Some i -> exists s r ts, slots st !! i = Some s /\
       (lset_run (lset ns) (req_of (slots st) <$> order)).2 !! j = Some r /\
       slots st' !! i = Some (set_answer s r ts)) /\
    (forall i, i ∉ order -> slots st' !! i = slots st !! i).
Proof.
  induction order as [|i order IH]; intros st ns prev curr param Hrep Hok Hroom Hnd Hsl Hs Hb Hfin.
  { exists st. split; [done|]. split; [by exists ns|]. done. }
  apply NoDup_cons in Hnd as [Hi Hnd].
  destruct (Hsl i) as [s Hslot]; [set_solver|]. cbn [exec_sorted]. rewrite Hslot.
  cbn [of_opt mbind result_bind].
  assert (Hreq : req_of (slots st) i = (decode_op (operation s), parameter s))
    by (unfold req_of; by rewrite Hslot).
  rewrite !fmap_cons, Hreq in Hs, Hb. apply StronglySorted_inv in Hs as [Hs Hle].
  apply Forall_cons in Hle as [Hle _]. apply Forall_cons in Hb as [Hb1 Hb]. simpl in Hle, Hb1.
  destruct (finger_op_spec (3 + size (hheap (lmem (obj st)))) (lmem (obj st)) (ll_head (obj st))
    (ll_tail (obj st)) 0 UINT32_MAX ns (decode_op (operation s)) (parameter s) prev curr
    (S (length order))) as (m1 & prev1 & curr1 & ns1 & Hrun & Hset & Hrep1 & Hok1 & Hroom1 & Hfin1 & _);
    try done.
  { lia. }
  { destruct Hfin as [?|(lo & hi & ? & ? & ? & Hlo)]; [by left|right]. exists lo, hi.
    split_and!; try done. eapply Forall_impl; [exact Hlo|]. simpl. lia. }
  { by eapply lrep_fuel. }
  eapply room_le in Hroom1; [|apply room_after_le].
  rewrite Hrun. cbn [mbind result_bind]. set (r := (lset_spec _ _ _).2) in *. set (st1 := mkFC _ _ _ _ _).
  assert (Hsame : req_of (slots st1) <$> order = req_of (slots st) <$> order).
  { apply list_fmap_ext. intros j k Hk. unfold req_of, st1. simpl.
    rewrite lookup_insert_ne; [done|]. intros ->. apply Hi. by eapply list_elem_of_lookup_2. }
  destruct (IH st1 ns1 prev1 curr1 (parameter s)) as
    (st' & Hrun' & Href' & Htl & Hcas & Hans & Hfr); try done; rewrite ?Hsame; try done.
  { intros j Hj. unfold st1. simpl. rewrite lookup_insert_ne by (by intros ->). apply Hsl. set_solver. }
  { by apply Hfin1. }
  exists st'. split; [done|].
  rewrite !fmap_cons, Hreq. rewrite Hsame in Href', Hans. cbn [lset_run].
  destruct (lset_spec (lset ns) _ _) as [S1 r1] eqn:E. simpl in *. subst S1 r.
  destruct (lset_run (lset ns1) _) as [S2 rs] eqn:E2. simpl in *.
  split; [done|]. split; [done|]. split; [done|]. split.
  - intros [|j] k Hjk; simpl in Hjk.
    + injection Hjk as <-. exists s, r1. eexists. split; [done|]. split; [done|].
      rewrite (Hfr i Hi). unfold st1. simpl. apply lookup_insert_eq.
    + destruct (Hans j k Hjk) as (u & r' & ts & Hu & Hr' & Hu').
      exists u, r', ts. split; [|done]. rewrite <- Hu. unfold st1. simpl. rewrite lookup_insert_ne; [done|].
      intros ->. apply Hi. by eapply list_elem_of_lookup_2.
  - intros k Hk. rewrite Hfr by set_solver. unfold st1. simpl. apply lookup_insert_ne. set_solver.
Qed.

Lemma slot_chain_next sl sl' p ids :
  (forall i s, i ∈ ids -> sl !! i = Some s ->
     exists s', sl' !! i = Some s' /\ next_slot s' = next_slot s) ->
  slot_chain sl p ids -> slot_chain sl' p ids.
Proof.
  revert p; induction ids as [|i ids IH]; intros p He; simpl; [done|].
  intros (-> & Hi & s & Hs & Hc). split_and!; [done..|].
  destruct (He i s) as (s' & Hs' & Hn); [set_solver|done|]. exists s'. split; [done|].
  rewrite Hn. apply IH; [|done]. intros j t Hj. apply He. set_solver.
Qed.

(** The list built by [list_add], seen as [node_t]s. *)
Lemma host_list_ref MAX_LEVEL m head tail ns :
  (1 <= MAX_LEVEL)%nat -> host_list MAX_LEVEL m head tail ns ->
  Forall (fun s => 0 < s_key s) ns -> list_ref (skip_set ns) (mkLL m head tail).
Proof.
  intros Hmax ([Hc Hk Ht Htl Hs Hb Htp Hnd Hn Hm] & Hreg & Hh) Hpos.
  assert (Hptr : ((fun s => (s_ptr s, s_key s)) <$> ns).*1 = s_ptr <$> ns).
  { rewrite <- list_fmap_compose. by apply list_fmap_ext. }
  exists ((fun s => (s_ptr s, s_key s)) <$> ns). split; [|split; [done|]].
  - split; simpl; rewrite ?Hptr; try done.
    + specialize (Hc 0%nat ltac:(simpl; lia)). unfold at_level in Hc. rewrite filter_all in Hc; [done|].
      eapply Forall_impl; [exact Htp|]. simpl. lia.
    + rewrite Forall_fmap. eapply Forall_impl; [exact Hk|]. done.
    + clear -Hs. induction Hs as [|s ns Hs IH HF]; simpl; constructor; [done|].
      rewrite Forall_fmap. eapply Forall_impl; [exact HF|]. done.
    + rewrite Forall_fmap. rewrite Forall_forall in Hb, Hpos |- *. intros s Hin. simpl.
      split; [by apply Hpos|by apply Hb].
    + eapply Forall_impl; [exact Hn|]. simpl. intros p (Hp0 & n & Hn' & Hl).
      split; [done|]. exists n. split; [done|]. simpl in *. lia.
  - unfold skip_set, lset, skip_keys. f_equal. rewrite <- list_fmap_compose. by apply list_fmap_ext.
Qed.

(** ** Properties *)

(** C8: FCLinkedList.h: [flat_combine_sort] returns, executes every valid request
    exactly once in an order that is ascending in the key, with the answers of a
    set of keys for that order, keeps the list sorted and linked, and leaves the
    slot list well formed.  [std::sort] may order equal keys in any way. *)
Theorem fclinkedlist_combine_sort_set std_sort S st ids fuel :
  sort_ok std_sort ->
  slot_chain (slots st) (tail_slot st) ids -> NoDup ids -> (length ids < fuel)%nat ->
  list_ref S (obj st) -> room (lmem (obj st)) (length ids) ->
  (forall i s, i ∈ ids -> slots st !! i = Some s -> is_request_valid s = true ->
     0 < parameter s < UINT32_MAX) ->
  exists st' order ids',
    flat_combine_sort std_sort fuel st = Ok st' /\
    order ≡ₚ List.filter (pending (slots st)) ids /\
    StronglySorted Z.le (req_of (slots st) <$> order).*2 /\
    list_ref (lset_run S (req_of (slots st) <$> order)).1 (obj st') /\
    (forall j i, order !! j = Some i -> exists s', slots st' !! i = Some s' /\
       is_request_valid s' = false /\
       (lset_run S (req_of (slots st) <$> order)).2 !! j = Some (ret_val s')) /\
    slot_chain (slots st') (tail_slot st') ids' /\ ids' `sublist_of` ids.
Proof.
  intros Hsort Hch Hnd Hf (ns & Hrep & Hok & ->) Hroom Hpar.
  destruct (collect_loop_spec LL_UNUSED_SLOT_THRESHOLD ids st (tail_slot st) (tail_slot st) fuel)
    as (st1 & ids' & Hrun & [Csub (Ct & Cts & Cc & Co) Cvalid Cfirst _ Cslots Cframe]); auto.
  specialize (Cfirst eq_refl).
  set (reqs := List.filter (pending (slots st)) ids) in *.
  assert (Hreqs : forall i, i ∈ reqs -> i ∈ ids /\ exists s s1, slots st !! i = Some s /\
     is_request_valid s = true /\ slots st1 !! i = Some s1 /\ operation s1 = operation s /\
     parameter s1 = parameter s).
  { intros i Hi. apply list_elem_of_In in Hi. apply filter_In in Hi as [Hi Hp].
    apply list_elem_of_In in Hi. unfold pending in Hp.
    destruct (slots st !! i) as [s|] eqn:Hs; [|done]. split; [done|].
    destruct (Cslots i s Hi Hs) as [n Hn]. exists s. eexists. split_and!; done. }
  assert (Hreq : forall i, i ∈ reqs -> req_of (slots st1) i = req_of (slots st) i).
  { intros i Hi. destruct (Hreqs i Hi) as (_ & s & s1 & Hs & _ & Hs1 & Ho & Hp).
    unfold req_of. by rewrite Hs, Hs1, Ho, Hp. }
  destruct (Hsort (requests_compare (slots st1)) (fun i => (req_of (slots st1) i).2) reqs)
    as [Hperm Hsorted].
  { intros a b Ha Hb. destruct (Hreqs a Ha) as (_ & s & s1 & _ & _ & Hs1 & _).
    destruct (Hreqs b Hb) as (_ & t & t1 & _ & _ & Ht1 & _).
    unfold requests_compare, req_of. by rewrite Hs1, Ht1. }
  set (order := std_sort _ _) in *.
  assert (Hin : forall i, i ∈ order -> i ∈ reqs) by (intros i; by rewrite Hperm).
  assert (Hfm : req_of (slots st1) <$> order = req_of (slots st) <$> order).
  { apply list_fmap_ext. intros j i Hj. apply Hreq, Hin. by eapply list_elem_of_lookup_2. }
  assert (Hnd' : NoDup order).
  { rewrite Hperm. apply NoDup_ListNoDup, List.NoDup_filter. by apply NoDup_ListNoDup. }
  assert (Hbnd : Forall (fun x => 0 < x.2 < UINT32_MAX) (req_of (slots st) <$> order)).
  { rewrite Forall_fmap, Forall_forall. intros i Hi%Hin. simpl.
    destruct (Hreqs i Hi) as (Hid & s & s1 & Hs & Hv & _). unfold req_of. rewrite Hs. simpl.
    by apply (Hpar i s). }
  assert (Hle : StronglySorted Z.le (req_of (slots st) <$> order).*2).
  { rewrite <- Hfm. clear -Hsorted. induction Hsorted as [|i l Hl IH HF]; simpl; constructor; [done|].
    rewrite !Forall_fmap. eapply Forall_impl; [exact HF|]. done. }
  assert (Hlen : (length order <= length ids)%nat).
  { rewrite Hperm. apply List.filter_length_le. }
  unfold flat_combine_sort. rewrite Hrun. cbn [mbind result_bind].
  destruct (exec_sorted_spec order st1 ns 0 (ll_head (obj st1)) 0) as
    (st' & Hrun' & Href' & Htl' & _ & Hans & Hfr); rewrite ?Co, ?Hfm; try done.
  - eapply room_le; [exact Hroom|lia].
  - intros i Hi%Hin. destruct (Hreqs i Hi) as (_ & s & s1 & _ & _ & Hs1 & _). eauto.
  - constructor; [done|]. rewrite Forall_fmap. eapply Forall_impl; [exact Hbnd|]. simpl. lia.
  - by left.
  - exists st', order, ids'. rewrite Co in Hrun'. rewrite Hfm in Href', Hans. split_and!; try done.
    + intros j i Hj. destruct (Hans j i Hj) as (s & r & ts & Hs & Hr & Hs').
      eexists. split; [exact Hs'|]. done.
    + rewrite Htl', Ct. eapply slot_chain_next; [|exact Cfirst]. intros i s Hi Hs.
      destruct (decide (i ∈ order)) as [Hio|Hio]; [|rewrite Hfr by done; eauto].
      apply list_elem_of_lookup_1 in Hio as [j Hj].
      destruct (Hans j i Hj) as (s0 & r & ts & Hs0 & _ & Hs').
      rewrite Hs in Hs0. injection Hs0 as <-. eauto.
Qed.

(** [list_add] builds the initial list: it inserts a key at its place on all
    levels below the drawn one and answers 1, or finds the key and answers 0; the
    result is a list the flat-combining class can work on. *)
Theorem list_add_set MAX_LEVEL m head tail ns key level :
  host_list MAX_LEVEL m head tail ns -> 0 <= key < UINT32_MAX ->
  1 <= level <= Z.of_nat MAX_LEVEL -> skipnode_size MAX_LEVEL < 0xFFFFFFFF ->
  region_aligned m + skipnode_size MAX_LEVEL < region_end m ->
  exists m' ns', list_add MAX_LEVEL m head key level =
      Ok (m', if decide (key ∈ skip_set ns) then 0 else 1) /\
    host_list MAX_LEVEL m' head tail ns' /\ skip_set ns' = {[key]} ∪ skip_set ns /\
    (Forall (fun s => 0 < s_key s) ns -> 0 < key ->
     list_ref ({[key]} ∪ skip_set ns) (mkLL m' head tail)).
Proof.
  intros Hl Hk Hlev Hsz Hroom.
  destruct (list_add_refines MAX_LEVEL m head tail ns key level) as (m' & ns' & Hrun & Hl' & Hset);
    try done.
  exists m', ns'. split_and!; try done. intros Hpos Hk0. rewrite <- Hset.
  apply (host_list_ref MAX_LEVEL); [lia|done|]. rewrite Forall_forall in Hpos |- *.
  intros s Hs. assert (Hin : s_key s ∈ skip_set ns').
  { apply elem_of_skip_set. by apply list_elem_of_fmap_2. }
  rewrite Hset in Hin. apply elem_of_union in Hin as [->%elem_of_singleton|Hin]; [done|].
  apply elem_of_skip_set, list_elem_of_fmap in Hin as (t & -> & Ht). by apply Hpos.
Qed.

(** [init_region] always finds an aligned start and leaves at least
    REQUIRED_MEM_SIZE bytes behind it, so allocations of that total size, in any
    number of pieces, stay inside the region. *)
Theorem init_region_bounds raw off req burst :
  0 <= raw -> 0 <= off -> 0 < burst -> 0 < req ->
  exists m, init_region raw off req burst = Some m /\
    region_aligned m mod burst = 0 /\ raw + off <= region_aligned m /\
    region_aligned m + req <= region_end m /\
    (forall size m' p, allocate_region m size = Ok (m', p) -> 0 <= size ->
       raw + off <= p /\ p + size < region_end m /\ region_aligned m' = p + size).
Proof.
  intros Hr Ho Hb Hq. unfold init_region.
  pose proof (Z.mod_pos_bound (raw + off) burst Hb) as Hm.
  set (ra := if _ =? 0 then _ else _).
  assert (Hra : ra mod burst = 0 /\ raw + off <= ra < raw + off + burst).
  { subst ra. destruct (Z.eqb_spec ((raw + off) mod burst) 0) as [E|E]; [lia|].
    split; [|lia].
    replace (raw + off + burst - (raw + off) mod burst)
      with (((raw + off) / burst + 1) * burst) by (pose proof (Z.div_mod (raw + off) burst); lia).
    apply Z.mod_mul. lia. }
  destruct Hra as [H0 Hra]. rewrite H0. simpl.
  destruct (Z.ltb_spec ra (raw + (off + req + burst))); [|lia].
  destruct (Z.leb_spec off ra); [|lia]. simpl. eexists. split; [done|]. simpl.
  split_and!; try lia. intros size m' p. unfold allocate_region. simpl.
  destruct (_ && _) eqn:E; [|done]. intros [= <- <-] Hsz. simpl.
  apply andb_true_iff in E as [_ E%Z.ltb_lt]. lia.
Qed.

(** ** Instances of the properties *)

(** A sorting function that [std::sort] may be. *)
Fixpoint ins_by (lt : Z -> Z -> bool) (a : Z) (l : list Z) : list Z :=
  match l with [] => [a] | b :: l' => if lt b a then b :: ins_by lt a l' else a :: l end.
Definition sort_by (lt : Z -> Z -> bool) (l : list Z) : list Z := foldr (ins_by lt) [] l.

Lemma ins_by_perm lt a l : ins_by lt a l ≡ₚ a :: l.
Proof.
  induction l as [|b l IH]; simpl; [done|]. destruct (lt b a); [|done].
  rewrite IH. apply perm_swap.
Qed.

Lemma ins_by_sorted lt (k : Z -> Z) a l :
  (forall x y, x ∈ a :: l -> y ∈ a :: l -> lt x y = (k x <? k y)) ->
  StronglySorted (fun x y => k x <= k y) l ->
  StronglySorted (fun x y => k x <= k y) (ins_by lt a l).
Proof.
  intros Hlt. induction 1 as [|b l Hs IH HF]; simpl; [repeat constructor|].
  rewrite Hlt by set_solver. destruct (Z.ltb_spec (k b) (k a)).
  - constructor; [apply IH; intros; apply Hlt; set_solver|].
    rewrite ins_by_perm. constructor; [lia|done].
  - constructor; [by constructor|]. constructor; [lia|].
    eapply Forall_impl; [exact HF|]. simpl. lia.
Qed.

Lemma sort_by_ok : sort_ok sort_by.
Proof.
  intros lt k l. induction l as [|a l IH]; intros Hlt; simpl; [split; [done|constructor]|].
  destruct IH as [Hp Hs]; [intros; apply Hlt; set_solver|]. split.
  - by rewrite ins_by_perm, Hp.
  - apply ins_by_sorted; [|done]. intros x y. rewrite Hp. apply Hlt.
Qed.

(** An empty list in a region from address 100 to 1000. *)
Definition demo_hmem : hmem :=
  mkH (<[100 := mkNode 0 2 [Some 116; Some 116]]> (<[116 := mkNode UINT32_MAX 2 [Some 0; Some 0]]> ∅))
      132 1000.

Lemma demo_host_list : host_list 2 demo_hmem 100 116 [].
Proof.
  split; [|split; [|reflexivity]].
  - split; simpl; try (by constructor); try done.
    + intros [|[|l]] Hl; [reflexivity|reflexivity|lia].
    + NoDup_eval.
    + rewrite !Forall_cons. split_and!; [..|done]; split; try done; eexists; split; reflexivity || (simpl; lia).
  - split; [reflexivity|]. intros p n Hp. simpl in *.
    apply lookup_insert_Some in Hp as [[<- _]|[_ Hp]]; [reflexivity|].
    apply lookup_insert_Some in Hp as [[<- _]|[_ Hp]]; [reflexivity|]. by rewrite lookup_empty in Hp.
Qed.

Definition ll_slots : gmap Z SlotInfo :=
  <[1 := mkSlot true LL_CONTAINS_OP 30 0 0 true 2]>
  (<[2 := mkSlot true LL_ADD_OP 30 0 0 true 3]>
  (<[3 := mkSlot true LL_ADD_OP 20 0 0 true 0]> ∅)).

Lemma fclinkedlist_combine_sort_set_witness :
  exists st' order, flat_combine_sort sort_by 4 (mkFC ll_slots 1 0 LOCKED_CAS (mkLL demo_hmem 100 116))
    = Ok st' /\ order ≡ₚ [1; 2; 3] /\
    list_ref (lset_run ∅ (req_of ll_slots <$> order)).1 (obj st').
Proof.
  destruct (fclinkedlist_combine_sort_set sort_by ∅
    (mkFC ll_slots 1 0 LOCKED_CAS (mkLL demo_hmem 100 116)) [1; 2; 3] 4)
    as (st' & order & ids' & Hrun & Hperm & _ & Href & _).
  - exact sort_by_ok.
  - slot_chain_eval.
  - NoDup_eval.
  - simpl; lia.
  - apply (host_list_ref 2 demo_hmem 100 116 []); [lia|exact demo_host_list|constructor].
  - vm_compute. reflexivity.
  - intros i s Hi Hs.
    repeat (apply elem_of_cons in Hi as [->|Hi];
      [vm_compute in Hs; injection Hs as <-; intros _; vm_compute; split; reflexivity|]).
    by apply elem_of_nil in Hi.
  - exists st', order. split; [exact Hrun|]. split; [exact Hperm|exact Href].
Defined.

Lemma list_add_set_witness :
  exists m' ns', list_add 2 demo_hmem 100 30 1 = Ok (m', 1) /\ host_list 2 m' 100 116 ns'.
Proof.
  destruct (list_add_set 2 demo_hmem 100 116 [] 30 1) as (m' & ns' & Hrun & Hl & _).
  - exact demo_host_list.
  - vm_compute. split; [discriminate|reflexivity].
  - vm_compute. split; discriminate.
  - vm_compute. reflexivity.
  - vm_compute. reflexivity.
  - exists m', ns'. split; [exact Hrun|exact Hl].
Defined.

Lemma init_region_bounds_witness :
  exists m, init_region 1000 256 4096 64 = Some m /\ region_aligned m + 4096 <= region_end m.
Proof.
  destruct (init_region_bounds 1000 256 4096 64) as (m & Hm & _ & _ & Hr & _); [lia..|].
  exists m. split; [exact Hm|exact Hr].
Defined.
