(* ===== verification/LFQueue.v ===== *)
(** * The lock-free queues of the host

    Models src/SMC/SW/HOST/app/multithread_lockfree_queue: the linked queue of
    LFQueue.h, a Michael-Scott queue whose nodes are never freed, and the array
    queue of LFArrayQueue.h, which reserves a cell with a compare-and-swap on an
    index before it uses the cell.  A step of a thread is one access to shared
    memory.  The linked queue is proved linearizable for any number of threads;
    for the array queue the file shows what its reservations guarantee and an
    execution in which a dequeue overtakes the enqueue that owns its cell. *)

From S2P Require Import Prelude History FCQueues.

(** ** LFQueue.h *)

Definition ENQ_OP : Z := 1.
Definition DEQ_OP : Z := 2.

(** Where a thread is in [enq] or [deq], with its locals: [n] is [new_node];
    [tl] the value of [tail] whose [next] was read. *)
Inductive mpc :=
  | MIdle
  | ENew (v : Z)
  | ELast (n v : Z)
  | ENextT (n v lst : Z)
  | ENextD (n v lst tl : Z)
  | EChk (n v lst tl next : Z)
  | ECas (n v lst : Z)
  | ESwing (n lst : Z)
  | EHelp (n v lst next : Z)
  | DFirst
  | DLast (first : Z)
  | DNext (first lst : Z)
  | DChk (first lst next : Z)
  | DHelp (lst next : Z)
  | DVal (first next : Z)
  | DCas (first next value : Z)
  | MRet (r : Z).

#[export] Instance mpc_eq_dec : EqDecision mpc.
Proof. solve_decision. Defined.

(** The members [head] and [tail], the nodes, the threads and the history. *)
Record msq := mkMS {
  ms_heap : gmap Z QNode;
  ms_head : Z;
  ms_tail : Z;
  ms_pcs : gmap Z mpc;
  ms_trace : list event;
}.

Definition ms_goto (st : msq) (t : Z) (p : mpc) : msq :=
  mkMS (ms_heap st) (ms_head st) (ms_tail st) (<[t := p]> (ms_pcs st)) (ms_trace st).
Definition ms_set_tail (st : msq) (p : Z) : msq :=
  mkMS (ms_heap st) (ms_head st) p (ms_pcs st) (ms_trace st).
Definition ms_set_head (st : msq) (p : Z) : msq :=
  mkMS (ms_heap st) p (ms_tail st) (ms_pcs st) (ms_trace st).
Definition ms_set_heap (st : msq) (h : gmap Z QNode) : msq :=
  mkMS h (ms_head st) (ms_tail st) (ms_pcs st) (ms_trace st).
Definition ms_set_trace (st : msq) (tr : list event) : msq :=
  mkMS (ms_heap st) (ms_head st) (ms_tail st) (ms_pcs st) tr.

(** [MyQueue()]: a sentinel node, which [head] and [tail] point to. *)
Definition ms_init (sentinel : Z) (ts : list Z) : msq :=
  mkMS {[sentinel := mkQ 0 0]} sentinel sentinel
       (list_to_map ((fun t => (t, MIdle)) <$> ts)) [].

Definition ms_invoke (st : msq) (t op v : Z) : msq :=
  ms_goto (ms_set_trace st (Inv t op v :: ms_trace st)) t
          (if op =? ENQ_OP then ENew v else DFirst).

Section steps.
Context (new_addr : gmap Z QNode -> Z).

(** One step of thread [t]. *)
Definition ms_step (st : msq) (t : Z) : result msq :=
  p ← of_opt (ms_pcs st !! t);
  match p with
  | MIdle => NoFuel
  | ENew v =>
      let n := new_addr (ms_heap st) in
      Ok (ms_goto (ms_set_heap st (<[n := mkQ 0 v]> (ms_heap st))) t (ELast n v))
  | ELast n v => Ok (ms_goto st t (ENextT n v (ms_tail st)))
  | ENextT n v last => Ok (ms_goto st t (ENextD n v last (ms_tail st)))
  | ENextD n v last tl =>
      nd ← of_opt (ms_heap st !! tl); Ok (ms_goto st t (EChk n v last tl (q_next nd)))
  | EChk n v last tl next =>
      Ok (ms_goto st t
        (if last =? ms_tail st then if next =? 0 then ECas n v last else EHelp n v last next
         else ELast n v))
  | ECas n v last =>
      nd ← of_opt (ms_heap st !! last);
      if q_next nd =? 0 then
        Ok (ms_goto (ms_set_trace (ms_set_heap st (<[last := mkQ n (q_val nd)]> (ms_heap st)))
                                  (Lin t ENQ_OP v 0 :: ms_trace st)) t (ESwing n last))
      else Ok (ms_goto st t (ELast n v))
  | ESwing n last =>
      Ok (ms_goto (if ms_tail st =? last then ms_set_tail st n else st) t (MRet 0))
  | EHelp n v last next =>
      Ok (ms_goto (if ms_tail st =? last then ms_set_tail st next else st) t (ELast n v))
  | DFirst => Ok (ms_goto st t (DLast (ms_head st)))
  | DLast first => Ok (ms_goto st t (DNext first (ms_tail st)))
  | DNext first last =>
      nd ← of_opt (ms_heap st !! first);
      (* the empty answer takes effect here, if the thread gives it later *)
      let st' := if (q_next nd =? 0) && (first =? ms_head st)
                 then ms_set_trace st (Mark t :: ms_trace st) else st in
      Ok (ms_goto st' t (DChk first last (q_next nd)))
  | DChk first last next =>
      if first =? ms_head st then
        if first =? last then
          if next =? 0
          then Ok (ms_goto (ms_set_trace st (confirm t DEQ_OP 0 0 (ms_trace st))) t (MRet 0))
          else Ok (ms_goto st t (DHelp last next))
        else Ok (ms_goto st t (DVal first next))
      else Ok (ms_goto st t DFirst)
  | DHelp last next =>
      Ok (ms_goto (if ms_tail st =? last then ms_set_tail st next else st) t DFirst)
  | DVal first next =>
      nd ← of_opt (ms_heap st !! next); Ok (ms_goto st t (DCas first next (q_val nd)))
  | DCas first next value =>
      if ms_head st =? first then
        Ok (ms_goto (ms_set_trace (ms_set_head st next) (Lin t DEQ_OP 0 value :: ms_trace st))
                    t (MRet value))
      else Ok (ms_goto st t DFirst)
  | MRet r => Ok (ms_goto (ms_set_trace st (Ret t r :: ms_trace st)) t MIdle)
  end.

(** A call of [enq] passes the value, a call of [deq] the parameter 0. *)
Inductive ms_next : msq -> msq -> Prop :=
  | ms_next_invoke st t op v :
      ms_pcs st !! t = Some MIdle -> op = ENQ_OP \/ op = DEQ_OP /\ v = 0 ->
      ms_next st (ms_invoke st t op v)
  | ms_next_run st st' t : ms_step st t = Ok st' -> ms_next st st'.

Definition ms_reachable (sentinel : Z) (ts : list Z) : msq -> Prop :=
  rtc ms_next (ms_init sentinel ts).
End steps.

(** [print]: the values behind the sentinel. *)
Definition ms_print (st : msq) : result (list Z) :=
  nd ← of_opt (ms_heap st !! ms_head st);
  q_print (S (size (ms_heap st))) (ms_heap st) (q_next nd).

(** The sequential queue; an empty [deq] answers 0. *)
Definition lf_spec (vs : list Z) (op param : Z) : list Z * Z :=
  if op =? ENQ_OP then (vs ++ [param], 0)
  else (tail vs, match vs with [] => 0 | v :: _ => v end).

(** ** The invariant *)

(** [all] is the list of the nodes ever linked, oldest first; [h] and [tl] are
    the positions of [head] and [tail] in it. *)
Definition val_of (hp : gmap Z QNode) (p : Z) : Z :=
  match hp !! p with Some nd => q_val nd | None => 0 end.

Definition nodes_ok (hp : gmap Z QNode) (all : list Z) : Prop :=
  NoDup all /\ forall i p, all !! i = Some p -> p <> 0 /\
    exists nd, hp !! p = Some nd /\ q_next nd = default 0 (all !! S i).

(** A node that is not linked yet. *)
Definition private (hp : gmap Z QNode) (all : list Z) (n v : Z) : Prop :=
  n <> 0 /\ n ∉ all /\ hp !! n = Some (mkQ 0 v).

Definition owned (p : mpc) : option Z :=
  match p with
  | ELast n _ | ENextT n _ _ | ENextD n _ _ _ | EChk n _ _ _ _ | ECas n _ _
  | EHelp n _ _ _ => Some n
  | _ => None
  end.

(** What a thread knows at its program counter. *)
Definition local (hp : gmap Z QNode) (all : list Z) (h tl : nat) (tr : list event)
    (t : Z) (p : mpc) : Prop :=
  match p with
  | MIdle => status t tr = Some Out
  | ENew v => status t tr = Some (Called ENQ_OP v)
  | ELast n v => status t tr = Some (Called ENQ_OP v) /\ private hp all n v
  | ENextT n v last => status t tr = Some (Called ENQ_OP v) /\ private hp all n v /\
      exists i, all !! i = Some last /\ (i <= tl)%nat
  | ENextD n v last tl' => status t tr = Some (Called ENQ_OP v) /\ private hp all n v /\
      exists i j, all !! i = Some last /\ all !! j = Some tl' /\ (i <= j <= tl)%nat
  | EChk n v last tl' next => status t tr = Some (Called ENQ_OP v) /\ private hp all n v /\
      exists i j, all !! i = Some last /\ all !! j = Some tl' /\ (i <= j <= tl)%nat /\
        (next = 0 \/ all !! S j = Some next)
  | ECas n v last => status t tr = Some (Called ENQ_OP v) /\ private hp all n v /\
      exists i, all !! i = Some last
  | ESwing n last => status t tr = Some (Answered 0) /\
      exists i, all !! i = Some last /\ all !! S i = Some n
  | EHelp n v last next => status t tr = Some (Called ENQ_OP v) /\ private hp all n v /\
      exists i, all !! i = Some last /\ all !! S i = Some next
  | DFirst => status t tr = Some (Called DEQ_OP 0)
  | DLast first => status t tr = Some (Called DEQ_OP 0) /\
      exists i, all !! i = Some first /\ (i <= h)%nat
  | DNext first last => status t tr = Some (Called DEQ_OP 0) /\
      exists i j, all !! i = Some first /\ all !! j = Some last /\ (i <= h)%nat /\ (i <= j <= tl)%nat
  | DChk first last next => status t tr = Some (Called DEQ_OP 0) /\
      exists i j, all !! i = Some first /\ all !! j = Some last /\ (i <= h)%nat /\
        (i <= j <= tl)%nat /\
        (next = 0 /\ i = j /\ ((i < h)%nat \/ marked lf_spec [] t [] tr) \/
         all !! S i = Some next)
  | DHelp last next => status t tr = Some (Called DEQ_OP 0) /\
      exists j, all !! j = Some last /\ all !! S j = Some next
  | DVal first next => status t tr = Some (Called DEQ_OP 0) /\
      exists i, all !! i = Some first /\ all !! S i = Some next /\ (S i <= tl)%nat
  | DCas first next value => status t tr = Some (Called DEQ_OP 0) /\
      exists i, all !! i = Some first /\ all !! S i = Some next /\ (S i <= tl)%nat /\
        value = val_of hp next
  | MRet r => status t tr = Some (Answered r)
  end.

Record minv (st : msq) (all : list Z) (h tl : nat) : Prop := {
  mi_nodes : nodes_ok (ms_heap st) all;
  mi_head : all !! h = Some (ms_head st);
  mi_tail : all !! tl = Some (ms_tail st);
  mi_le : (h <= tl)%nat;
  mi_replay : replay lf_spec [] (ms_trace st) =
              Some (val_of (ms_heap st) <$> drop (S h) all);
  mi_local t p : ms_pcs st !! t = Some p ->
    local (ms_heap st) all h tl (ms_trace st) t p;
  mi_owned t t' p p' n : ms_pcs st !! t = Some p -> ms_pcs st !! t' = Some p' ->
    owned p = Some n -> owned p' = Some n -> t = t';
  mi_status t : is_Some (status t (ms_trace st));
}.

Lemma local_status hp all h tl tr t p : local hp all h tl tr t p -> is_Some (status t tr).
Proof. destruct p; simpl; intros; destruct_and?; eauto. Qed.

(** What a thread knows stays true when the others go on. *)
Lemma local_mono hp hp' all all' h h' tl tl' tr tr' t p :
  local hp all h tl tr t p ->
  all `prefix_of` all' -> (h <= h')%nat -> (tl <= tl')%nat ->
  status t tr' = status t tr ->
  (marked lf_spec [] t [] tr -> marked lf_spec [] t [] tr') ->
  (forall n v, owned p = Some n -> private hp all n v -> private hp' all' n v) ->
  (forall q, q ∈ all -> val_of hp' q = val_of hp q) ->
  local hp' all' h' tl' tr' t p.
Proof.
  intros Hl Hpre Hh Htl Hst Hmk Hpr Hval.
  assert (Hlk : forall i x, all !! i = Some x -> all' !! i = Some x)
    by (intros; by eapply prefix_lookup_Some).
  destruct p; simpl in *; rewrite ?Hst; try done.
  - destruct Hl as [? ?]. auto.
  - destruct Hl as (? & ? & i & ? & ?). split_and!; auto. exists i. split; [auto|lia].
  - destruct Hl as (? & ? & i & j & ? & ? & ?). split_and!; auto. exists i, j. split_and!; auto; lia.
  - destruct Hl as (? & ? & i & j & ? & ? & ? & Hn). split_and!; auto. exists i, j.
    split_and!; auto; try lia. destruct Hn; auto.
  - destruct Hl as (? & ? & i & ?). split_and!; auto. eauto.
  - destruct Hl as (? & i & ? & ?). split_and!; auto. eauto.
  - destruct Hl as (? & ? & i & ? & ?). split_and!; auto. eauto.
  - destruct Hl as (? & i & ? & ?). split; auto. exists i. split; auto. lia.
  - destruct Hl as (? & i & j & ? & ? & ? & ?). split; auto. exists i, j. split_and!; auto; lia.
  - destruct Hl as (? & i & j & ? & ? & ? & ? & Hn). split; auto. exists i, j.
    split_and!; auto; try lia. destruct Hn as [(-> & -> & Hm)|Hn]; [left|right; auto].
    split_and!; try done. destruct Hm; [left; lia|right; auto].
  - destruct Hl as (? & j & ? & ?). split; eauto.
  - destruct Hl as (? & i & ? & ? & ?). split; [done|]. exists i. split_and!; auto. lia.
  - destruct Hl as (? & i & ? & Hn & ? & ->). split; [done|]. exists i. split_and!; auto; [lia|].
    symmetry. apply Hval. by eapply list_elem_of_lookup_2.
Qed.

(** A step of [t] from [p] to [p']. *)
Lemma minv_update st st' all all' h h' tl tl' t p p' :
  minv st all h tl -> ms_pcs st !! t = Some p -> ms_pcs st' = <[t := p']> (ms_pcs st) ->
  nodes_ok (ms_heap st') all' ->
  all' !! h' = Some (ms_head st') -> all' !! tl' = Some (ms_tail st') -> (h' <= tl')%nat ->
  replay lf_spec [] (ms_trace st') = Some (val_of (ms_heap st') <$> drop (S h') all') ->
  all `prefix_of` all' -> (h <= h')%nat -> (tl <= tl')%nat ->
  (forall t', t' <> t -> status t' (ms_trace st') = status t' (ms_trace st) /\
     (marked lf_spec [] t' [] (ms_trace st) -> marked lf_spec [] t' [] (ms_trace st'))) ->
  (forall t' q n v, t' <> t -> ms_pcs st !! t' = Some q -> owned q = Some n ->
     private (ms_heap st) all n v -> private (ms_heap st') all' n v) ->
  (forall q, q ∈ all -> val_of (ms_heap st') q = val_of (ms_heap st) q) ->
  local (ms_heap st') all' h' tl' (ms_trace st') t p' ->
  (forall n, owned p' = Some n -> owned p = Some n \/ ms_heap st !! n = None) ->
  minv st' all' h' tl'.
Proof.
  intros [In Ih It Ile Irep Iloc Iown Ist] Hp Hpcs Hn Hh Ht Hle Hrep Hpre Hh' Htl' Hoth Hpr Hval Hloc Hown.
  assert (Hlive : forall t' q n, ms_pcs st !! t' = Some q -> owned q = Some n ->
            is_Some (ms_heap st !! n)).
  { intros t' q n Hq Ho. specialize (Iloc t' q Hq). destruct q; simpl in *; try done; simplify_eq;
      destruct_and?; match goal with H : private _ _ _ _ |- _ => destruct H as (_ & _ & ->) end; eauto. }
  split; try done.
  - intros t' q Hq. rewrite Hpcs in Hq. destruct (decide (t' = t)) as [->|Hne].
    + rewrite lookup_insert_eq in Hq. by simplify_eq.
    + rewrite lookup_insert_ne in Hq by done. destruct (Hoth t' Hne) as [H1 H2].
      eapply local_mono; eauto.
  - intros t1 t2 p1 p2 n H1 H2 O1 O2. rewrite Hpcs in H1, H2.
    destruct (decide (t1 = t)) as [->|N1], (decide (t2 = t)) as [->|N2]; try done;
      rewrite ?lookup_insert_eq in H1; rewrite ?lookup_insert_ne in H1 by done;
      rewrite ?lookup_insert_eq in H2; rewrite ?lookup_insert_ne in H2 by done; simplify_eq; eauto.
    + destruct (Hown n O1) as [O|O]; [eauto|]. destruct (Hlive t2 p2 n H2 O2). congruence.
    + destruct (Hown n O2) as [O|O]; [eauto|]. destruct (Hlive t1 p1 n H1 O1). congruence.
  - intros t'. destruct (decide (t' = t)) as [->|Hne]; [by eapply local_status|].
    destruct (Hoth t' Hne) as [-> _]. apply Ist.
Qed.

(** A step that only moves the program counter. *)
Lemma minv_goto st all h tl t p p' :
  minv st all h tl -> ms_pcs st !! t = Some p ->
  local (ms_heap st) all h tl (ms_trace st) t p' ->
  (forall n, owned p' = Some n -> owned p = Some n) -> minv (ms_goto st t p') all h tl.
Proof.
  intros Hi Hp Hl Ho. pose proof Hi as [In Ih It Ile Irep Iloc Iown Ist].
  apply (minv_update st (ms_goto st t p') all all h h tl tl t p p'); simpl; auto.
Qed.

(** The tail moves from [last] to its successor, if it is still there. *)
Lemma minv_swing st all h tl t p p' last next i :
  minv st all h tl -> ms_pcs st !! t = Some p ->
  all !! i = Some last -> all !! S i = Some next ->
  (forall tl', (tl <= tl')%nat -> local (ms_heap st) all h tl' (ms_trace st) t p') ->
  (forall n, owned p' = Some n -> owned p = Some n) ->
  exists tl', minv (ms_goto (if ms_tail st =? last then ms_set_tail st next else st) t p') all h tl'.
Proof.
  intros Hi Hp Hl Hn Hloc Ho. destruct (Z.eqb_spec (ms_tail st) last) as [E|E].
  - exists (S tl). pose proof Hi as [[Hnd Hnodes] Ih It Ile Irep Iloc Iown Ist].
    assert (tl = i) as -> by (eapply NoDup_lookup; [done|exact It|by rewrite E]).
    apply (minv_update st (ms_goto (ms_set_tail st next) t p') all all h h i (S i) t p p');
      simpl; auto; try lia. by split.
  - exists tl. apply (minv_goto st all h tl t p); auto.
Qed.

Lemma nodes_last hp all i p nd :
  nodes_ok hp all -> all !! i = Some p -> hp !! p = Some nd -> q_next nd = 0 ->
  length all = S i.
Proof.
  intros [Hnd Hn] Hi Hp Hz. destruct (Hn i p Hi) as (_ & nd' & Hp' & Hnx). simplify_eq.
  destruct (all !! S i) as [q|] eqn:E; simpl in Hnx.
  - destruct (Hn _ _ E) as [? _]. congruence.
  - apply lookup_lt_Some in Hi. apply lookup_ge_None in E. lia.
Qed.

Lemma nodes_next hp all i p nd :
  nodes_ok hp all -> all !! i = Some p -> hp !! p = Some nd -> q_next nd <> 0 ->
  all !! S i = Some (q_next nd).
Proof.
  intros [Hnd Hn] Hi Hp Hz. destruct (Hn i p Hi) as (_ & nd' & Hp' & Hnx). simplify_eq.
  destruct (all !! S i) as [q|] eqn:E; simpl in Hnx; [congruence|done].
Qed.

#[local] Arguments status : simpl never.

Section proof.
Context (new_addr : gmap Z QNode -> Z).
Context (new_addr_ok : forall h, new_addr h <> 0 /\ h !! new_addr h = None).

Lemma minv_new st all h tl t v :
  minv st all h tl -> ms_pcs st !! t = Some (ENew v) ->
  minv (ms_goto (ms_set_heap st (<[new_addr (ms_heap st) := mkQ 0 v]> (ms_heap st))) t
                (ELast (new_addr (ms_heap st)) v)) all h tl.
Proof.
  intros Hi Hp. pose proof Hi as [[Hnd Hn] Ih It Ile Irep Iloc Iown Ist].
  destruct (new_addr_ok (ms_heap st)) as [Hn0 Hnone]. set (n := new_addr (ms_heap st)) in *.
  assert (Hnin : n ∉ all).
  { intros [i Hin]%list_elem_of_lookup_1. destruct (Hn i n Hin) as (_ & nd & Hnd' & _). congruence. }
  assert (Hval : forall q, q ∈ all -> val_of (<[n := mkQ 0 v]> (ms_heap st)) q = val_of (ms_heap st) q).
  { intros q Hq. unfold val_of. rewrite lookup_insert_ne by (by intros ->). done. }
  apply (minv_update st _ all all h h tl tl t (ENew v) (ELast n v)); simpl; auto.
  - split; [done|]. intros i p Hip. destruct (Hn i p Hip) as (H0 & nd & Hnd' & Hx). split; [done|].
    exists nd. rewrite lookup_insert_ne; [done|]. intros <-. congruence.
  - rewrite Irep. f_equal. apply list_fmap_ext. intros j q Hq. symmetry. apply Hval.
    rewrite lookup_drop in Hq. by eapply list_elem_of_lookup_2.
  - intros t' q m w Hne Hq Ho (H1 & H2 & H3). split_and!; try done.
    rewrite lookup_insert_ne; [done|]. intros <-. congruence.
  - split; [exact (Iloc t _ Hp)|]. split_and!; try done. apply lookup_insert_eq.
  - intros m [= <-]. by right.
Qed.

Lemma minv_link st all h tl t n v last nd :
  minv st all h tl -> ms_pcs st !! t = Some (ECas n v last) ->
  ms_heap st !! last = Some nd -> q_next nd = 0 ->
  minv (ms_goto (ms_set_trace (ms_set_heap st (<[last := mkQ n (q_val nd)]> (ms_heap st)))
                              (Lin t ENQ_OP v 0 :: ms_trace st)) t (ESwing n last))
       (all ++ [n]) h tl.
Proof.
  intros Hi Hp Hlast Hz. pose proof Hi as [[Hnd Hn] Ih It Ile Irep Iloc Iown Ist].
  destruct (Iloc t _ Hp) as (Hst & (Hn0 & Hnin & Hnode) & i & Hil).
  pose proof (nodes_last _ _ _ _ _ (conj Hnd Hn) Hil Hlast Hz) as Hlen.
  assert (Hnl : n <> last) by (intros ->; apply Hnin; by eapply list_elem_of_lookup_2).
  set (hp' := <[last := mkQ n (q_val nd)]> (ms_heap st)).
  assert (Hval : forall q, val_of hp' q = val_of (ms_heap st) q).
  { intros q. unfold val_of, hp'. destruct (decide (q = last)) as [->|].
    - by rewrite lookup_insert_eq, Hlast.
    - by rewrite lookup_insert_ne. }
  assert (Hpre : all `prefix_of` all ++ [n]) by by apply prefix_app_r.
  apply (minv_update st _ all (all ++ [n]) h h tl tl t (ECas n v last) (ESwing n last)); simpl; auto;
    fold hp'.
  - split; [apply NoDup_app; split_and!; [done|set_solver|apply NoDup_singleton]|].
    intros j p Hjp. apply lookup_app_Some in Hjp as [Hjp|[Hge Hjp]].
    + destruct (Hn j p Hjp) as (H0 & nd' & Hnd' & Hx). split; [done|].
      destruct (decide (p = last)) as [->|Hne].
      * assert (j = i) as -> by (eapply NoDup_lookup; eauto). eexists. unfold hp'.
        rewrite lookup_insert_eq. split; [done|]. simpl.
        rewrite lookup_app_r by lia. by rewrite Hlen, Nat.sub_diag.
      * exists nd'. unfold hp'. rewrite lookup_insert_ne by done. split; [done|]. rewrite Hx. f_equal.
        assert (j <> i) by (intros ->; congruence). apply lookup_lt_Some in Hjp.
        rewrite lookup_app_l by lia. done.
    + destruct (j - length all)%nat as [|k] eqn:E; [|by destruct k]. injection Hjp as <-.
      split; [done|]. exists (mkQ 0 v). unfold hp'. rewrite lookup_insert_ne by done. split; [done|].
      simpl. rewrite lookup_ge_None_2; [done|]. rewrite length_app. simpl. lia.
  - by eapply prefix_lookup_Some.
  - by eapply prefix_lookup_Some.
  - rewrite Irep. simpl. rewrite drop_app_le by (apply lookup_lt_Some in Ih; lia).
    rewrite fmap_app. simpl. f_equal. f_equal.
    + apply list_fmap_ext. intros; by rewrite Hval.
    + rewrite Hval. unfold val_of. by rewrite Hnode.
  - intros t' Hne. rewrite status_other by done. split; [done|]. by apply marked_step.
  - intros t' q m w Hne Hq Ho (H1 & H2 & H3).
    assert (m <> n) by (intros ->; apply Hne; eapply Iown; eauto).
    split_and!; [done|set_solver|]. unfold hp'. rewrite lookup_insert_ne; [done|].
    intros <-. apply H2. by eapply list_elem_of_lookup_2.
  - split; [by apply status_lin|].
    exists i. split; [by eapply prefix_lookup_Some|]. rewrite lookup_app_r by lia.
    by rewrite Hlen, Nat.sub_diag.
  - done.
Qed.

Lemma minv_deq st all h tl t first next value :
  minv st all h tl -> ms_pcs st !! t = Some (DCas first next value) -> ms_head st = first ->
  minv (ms_goto (ms_set_trace (ms_set_head st next) (Lin t DEQ_OP 0 value :: ms_trace st))
                t (MRet value)) all (S h) tl.
Proof.
  intros Hi Hp Hf. pose proof Hi as [[Hnd Hn] Ih It Ile Irep Iloc Iown Ist].
  destruct (Iloc t _ Hp) as (Hst & i & Hif & Hnx & Hle & Hv).
  assert (i = h) as -> by (eapply NoDup_lookup; [done|exact Hif|by rewrite <- Hf]).
  apply (minv_update st _ all all h (S h) tl tl t (DCas first next value) (MRet value)); simpl; auto.
  - by split.
  - rewrite Irep. simpl. rewrite (drop_S _ _ _ Hnx). simpl. rewrite <- Hv. by rewrite decide_True.
  - intros t' Hne. rewrite status_other by done. split; [done|]. by apply marked_step.
  - by apply status_lin.
Qed.

Lemma minv_step st all h tl t st' :
  minv st all h tl -> ms_step new_addr st t = Ok st' -> exists all' h' tl', minv st' all' h' tl'.
Proof.
  intros Hi. pose proof Hi as [[Hnd Hn] Ih It Ile Irep Iloc Iown Ist]. unfold ms_step.
  destruct (ms_pcs st !! t) as [p|] eqn:Hp; [|done]. simpl. specialize (Iloc t p Hp).
  destruct p; simpl in Iloc.
  - done.
  - intros [= <-]. exists all, h, tl. by apply minv_new.
  - intros [= <-]. exists all, h, tl. eapply minv_goto; eauto. destruct Iloc. split_and!; eauto.
  - intros [= <-]. exists all, h, tl. eapply minv_goto; eauto.
    destruct Iloc as (? & ? & i & ? & ?). split_and!; try done. exists i, tl. split_and!; try done; lia.
  - destruct (ms_heap st !! tl0) as [nd|] eqn:Ht; [|done]. simpl. intros [= <-].
    exists all, h, tl. eapply minv_goto; eauto.
    destruct Iloc as (? & ? & i & j & ? & ? & ?). split_and!; try done. exists i, j.
    split_and!; try done; try lia. destruct (decide (q_next nd = 0)); [by left|right].
    by eapply nodes_next.
  - intros [= <-]. exists all, h, tl. destruct Iloc as (? & ? & i & j & Hl & Hj & Hij & Hx).
    destruct (Z.eqb_spec lst (ms_tail st)) as [->|]; [|eapply minv_goto; eauto; by split].
    assert (i = tl) as -> by (eapply NoDup_lookup; eauto). assert (j = tl) as -> by lia.
    destruct (Z.eqb_spec next 0) as [->|]; eapply minv_goto; eauto; split_and!; eauto.
    destruct Hx; [done|]. eauto.
  - destruct (ms_heap st !! lst) as [nd|] eqn:Hl; [|done]. simpl.
    destruct (Z.eqb_spec (q_next nd) 0) as [Hz|].
    + intros [= <-]. exists (all ++ [n]), h, tl. by apply minv_link.
    + intros [= <-]. exists all, h, tl. eapply minv_goto; eauto. destruct Iloc as (? & ? & _). by split.
  - intros [= <-]. destruct Iloc as (? & i & Hl & Hx). exists all, h.
    eapply (minv_swing st all h tl t _ (MRet 0) lst n i); eauto; done.
  - intros [= <-]. destruct Iloc as (? & ? & i & Hl & Hx). exists all, h.
    eapply (minv_swing st all h tl t _ (ELast n v) lst next i); eauto. by split.
  - intros [= <-]. exists all, h, tl. eapply minv_goto; eauto; try done. split; eauto.
  - intros [= <-]. exists all, h, tl. eapply minv_goto; eauto; try done.
    destruct Iloc as (? & i & Hf & Hih). split; [done|]. exists i, tl. split_and!; try done; lia.
  - destruct (ms_heap st !! first) as [nd|] eqn:Hf; [|done]. simpl. intros [= <-].
    exists all, h, tl. destruct Iloc as (Hst & i & j & Hi1 & Hj & Hih & Hij).
    destruct (Z.eqb_spec (q_next nd) 0) as [Hz|Hz]; simpl.
    + pose proof (nodes_last _ _ _ _ _ (conj Hnd Hn) Hi1 Hf Hz) as Hlen.
      assert (i = j) as <- by (apply lookup_lt_Some in Hj; lia).
      destruct (Z.eqb_spec first (ms_head st)) as [Heq|Heq].
      * assert (i = h) as -> by (eapply NoDup_lookup; [done|exact Hi1|by rewrite Heq]).
        eapply (minv_update st _ all all h h tl tl t _ (DChk first lst (q_next nd))); simpl; eauto; try done.
        -- intros t' Hne. rewrite status_other by done. split; [done|]. by apply marked_step.
        -- split; [by apply status_mark|]. exists h, h. split_and!; try done; try lia.
           left. split_and!; try done. right. apply marked_new. rewrite Irep.
           rewrite drop_ge; [done|]. lia.
      * eapply minv_goto; eauto; try done. split; [done|]. exists i, i. split_and!; try done; try lia.
        left. split_and!; try done. left. assert (i <> h) by (intros ->; congruence). lia.
    + eapply minv_goto; eauto; try done. split; [done|]. exists i, j. split_and!; try done; try lia.
      right. by eapply nodes_next.
  - destruct Iloc as (Hst & i & j & Hi1 & Hj & Hih & Hij & Hx).
    destruct (Z.eqb_spec first (ms_head st)) as [Heq|Heq].
    + assert (i = h) as -> by (eapply NoDup_lookup; [done|exact Hi1|by rewrite Heq]).
      destruct (Z.eqb_spec first lst) as [<-|Hfl].
      * destruct (Z.eqb_spec next 0) as [->|Hnz]; intros [= <-].
        -- destruct Hx as [(_ & _ & [Hlt|Hm])|Hx]; [lia| |by destruct (Hn _ _ Hx)].
           destruct (confirm_ok lf_spec [] t DEQ_OP 0 0 [] (ms_trace st) Hm eq_refl Hst)
             as (C1 & C2 & C3).
           exists all, h, tl.
           eapply (minv_update st _ all all h h tl tl t _ (MRet 0)); simpl; eauto; try done.
           ++ by rewrite C2.
           ++ intros t' Hne. split; [by apply C3|]. intros Hm'.
              by eapply (marked_confirm _ _ t' t [] []).
        -- destruct Hx as [(? & _)|Hx]; [done|]. exists all, h, tl.
           eapply minv_goto; eauto; try done. split; [done|]. eauto.
      * intros [= <-]. exists all, h, tl. eapply minv_goto; eauto; try done.
        assert (h <> j) by (intros ->; congruence).
        destruct Hx as [(_ & ? & _)|Hx]; [done|]. split; [done|]. exists h. split_and!; try done. lia.
    + intros [= <-]. exists all, h, tl. by eapply minv_goto.
  - intros [= <-]. destruct Iloc as (? & j & Hl & Hx). exists all, h.
    eapply (minv_swing st all h tl t _ DFirst lst next j); eauto; done.
  - destruct (ms_heap st !! next) as [nd|] eqn:Hf; [|done]. simpl. intros [= <-].
    exists all, h, tl. eapply minv_goto; eauto; try done.
    destruct Iloc as (? & i & ? & ? & ?). split; [done|]. exists i. split_and!; try done.
    unfold val_of. by rewrite Hf.
  - destruct (Z.eqb_spec (ms_head st) first) as [Heq|]; intros [= <-].
    + exists all, (S h), tl. by eapply minv_deq.
    + exists all, h, tl. eapply minv_goto; eauto; try done. by destruct Iloc.
  - intros [= <-]. exists all, h, tl.
    eapply (minv_update st _ all all h h tl tl t _ MIdle); simpl; eauto; try done.
    + intros t' Hne. rewrite status_other by done. split; [done|]. by apply marked_step.
    + by apply status_ret.
Qed.

Lemma minv_invoke st all h tl t op v :
  minv st all h tl -> ms_pcs st !! t = Some MIdle -> op = ENQ_OP \/ op = DEQ_OP /\ v = 0 ->
  minv (ms_invoke st t op v) all h tl.
Proof.
  intros Hi Hp Hop. pose proof Hi as [Hn Ih It Ile Irep Iloc Iown Ist].
  pose proof (status_inv t _ op v (Iloc t _ Hp)) as Hst.
  assert (Ho : forall n, owned (if op =? ENQ_OP then ENew v else DFirst) = Some n ->
                 owned MIdle = Some n \/ ms_heap st !! n = None) by (by destruct (op =? ENQ_OP)).
  eapply (minv_update st _ all all h h tl tl t MIdle _); simpl; eauto; try done.
  - intros t' Hne. rewrite status_other by done. split; [done|]. by apply marked_step.
  - destruct Hop as [->|[-> ->]]; simpl; done.
Qed.

Lemma minv_init sentinel ts : sentinel <> 0 -> minv (ms_init sentinel ts) [sentinel] 0 0.
Proof.
  intros Hs. split; simpl; try done.
  - split; [apply NoDup_singleton|]. intros [|[|i]] p [= <-]. split; [done|].
    eexists. rewrite lookup_singleton_eq. done.
  - intros t p. rewrite lookup_threads. case_decide; [|done]. by intros [= <-].
  - intros t t' p p' n. rewrite !lookup_threads. case_decide; [|done]. by intros [= <-].
Qed.

Lemma ms_reachable_inv sentinel ts st :
  sentinel <> 0 -> ms_reachable new_addr sentinel ts st -> exists all h tl, minv st all h tl.
Proof.
  intros Hs Hr. pose proof (minv_init sentinel ts Hs) as Hi. unfold ms_reachable in Hr.
  assert (Hg : exists all h tl, minv (ms_init sentinel ts) all h tl) by eauto. clear Hi.
  revert Hg. generalize (ms_init sentinel ts) Hr. clear -new_addr_ok.
  intros st0 Hr. induction Hr as [|x y z Hxy Hyz IH]; [done|].
  intros (all & h & tl & Hi). apply IH. destruct Hxy as [st t op v Hp Hop|st st' t Hst].
  - exists all, h, tl. by apply minv_invoke.
  - by eapply minv_step.
Qed.

(** The values behind [head], by following [next]. *)
Lemma chain_contents hp all h :
  nodes_ok hp all ->
  qchain hp (default 0 (all !! h)) ((fun p => (p, val_of hp p)) <$> drop h all) 0.
Proof.
  intros [Hnd Hn]. remember (length all - h)%nat as k eqn:Hk. revert h Hk.
  induction k as [|k IH]; intros h Hk.
  - rewrite drop_ge by lia. rewrite lookup_ge_None_2 by lia. done.
  - destruct (all !! h) as [p|] eqn:E; [|apply lookup_ge_None in E; lia].
    rewrite (drop_S _ _ _ E). simpl. destruct (Hn h p E) as (H0 & nd & Hp & Hx).
    split_and!; try done. exists nd. split_and!; try done; [unfold val_of; by rewrite Hp|].
    rewrite Hx. apply IH. lia.
Qed.

Lemma ms_print_contents st all h tl :
  minv st all h tl -> ms_print st = Ok (val_of (ms_heap st) <$> drop (S h) all).
Proof.
  intros Hi. pose proof Hi as [[Hnd Hn] Ih It Ile Irep Iloc Iown Ist]. unfold ms_print.
  destruct (Hn h _ Ih) as (_ & nd & Hp & Hx). rewrite Hp.
  cbn [of_opt mbind result_bind]. rewrite Hx.
  rewrite (q_print_spec _ _ _ _ (chain_contents (ms_heap st) all (S h) (conj Hnd Hn))).
  - f_equal. rewrite <- list_fmap_compose. by apply list_fmap_ext.
  - rewrite length_fmap, length_drop. assert (length all <= size (ms_heap st))%nat; [|lia].
    rewrite <- size_dom, <- (size_list_to_set (C := gset Z) all) by done.
    apply subseteq_size. intros p Hin%elem_of_list_to_set. apply elem_of_dom.
    apply list_elem_of_lookup_1 in Hin as [i Hin]. destruct (Hn i p Hin) as (_ & nd' & -> & _). eauto.
Qed.

Lemma ms_progress st all h tl t p :
  minv st all h tl -> ms_pcs st !! t = Some p -> p <> MIdle ->
  exists st', ms_step new_addr st t = Ok st'.
Proof.
  intros [[Hnd Hn] Ih It Ile Irep Iloc Iown Ist] Hp Hni. unfold ms_step. rewrite Hp. simpl.
  specialize (Iloc t p Hp).
  assert (Hin : forall i q, all !! i = Some q -> exists nd, ms_heap st !! q = Some nd).
  { intros i q Hq. destruct (Hn i q Hq) as (_ & nd & Hnd' & _). eauto. }
  destruct p; simpl in Iloc; try done; eauto.
  - destruct Iloc as (_ & _ & i & j & _ & Hj & _). destruct (Hin j _ Hj) as [nd ->]. simpl. eauto.
  - destruct Iloc as (_ & _ & i & Hl). destruct (Hin i _ Hl) as [nd ->]. simpl.
    destruct (_ =? _); eauto.
  - destruct Iloc as (_ & i & j & Hf & _). destruct (Hin i _ Hf) as [nd ->]. simpl. eauto.
  - repeat destruct (_ =? _); eauto.
  - destruct Iloc as (_ & i & _ & Hx & _). destruct (Hin _ _ Hx) as [nd ->]. simpl. eauto.
  - destruct (_ =? _); eauto.
Qed.
End proof.

(** ** LFArrayQueue.h *)

(** Where a thread is: reading an index, swapping it, using the reserved cell. *)
Inductive apc :=
  | AIdle
  | ARead (v : Z) | ASwap (v i : Z) | AWrite (v i : Z)
  | BRead | BSwap (i : Z) | BTake (i : Z)
  | ADone (r : Z).

Definition LF_MAX_INDEX : Z := 2097152.
Definition LF_NEXT_INDEX (x : Z) : Z := u32 (x + 1) mod LF_MAX_INDEX.

(** The two indices, the cells written so far and the threads; [la_enqs] and
    [la_deqs] count the reservations and are read by no step. *)
Record lfa := mkLFA {
  la_head : Z;
  la_tail : Z;
  la_cells : gmap Z Z;
  la_pcs : gmap Z apc;
  la_enqs : Z;
  la_deqs : Z;
}.

Definition la_goto (st : lfa) (t : Z) (p : apc) : lfa :=
  mkLFA (la_head st) (la_tail st) (la_cells st) (<[t := p]> (la_pcs st)) (la_enqs st) (la_deqs st).

(** [MyQueue()] *)
Definition la_init (ts : list Z) : lfa :=
  mkLFA 0 0 ∅ (list_to_map ((fun t => (t, AIdle)) <$> ts)) 0 0.

(** One step of thread [t] in [enq] or [deq]; reading a cell that was never
    written is undefined. *)
Definition la_step (st : lfa) (t : Z) : result lfa :=
  p ← of_opt (la_pcs st !! t);
  match p with
  | AIdle | ADone _ => NoFuel
  | ARead v => Ok (la_goto st t (ASwap v (la_tail st)))
  | ASwap v i =>
      if la_tail st =? i
      then Ok (mkLFA (la_head st) (LF_NEXT_INDEX i) (la_cells st)
                     (<[t := AWrite v i]> (la_pcs st)) (la_enqs st + 1) (la_deqs st))
      else Ok (la_goto st t (ARead v))
  | AWrite v i =>
      Ok (mkLFA (la_head st) (la_tail st) (<[i := v]> (la_cells st))
                (<[t := ADone 0]> (la_pcs st)) (la_enqs st) (la_deqs st))
  | BRead => Ok (la_goto st t (BSwap (la_head st)))
  | BSwap i =>
      if la_head st =? i
      then Ok (mkLFA (LF_NEXT_INDEX i) (la_tail st) (la_cells st)
                     (<[t := BTake i]> (la_pcs st)) (la_enqs st) (la_deqs st + 1))
      else Ok (la_goto st t BRead)
  | BTake i => v ← of_opt (la_cells st !! i); Ok (la_goto st t (ADone v))
  end.

(** A thread that is not inside an operation calls [enq v] ([Some v]) or [deq]
    ([None]). *)
Definition la_call (st : lfa) (t : Z) (o : option Z) : lfa :=
  la_goto st t (match o with Some v => ARead v | None => BRead end).

Inductive la_next : lfa -> lfa -> Prop :=
  | la_next_call st t o :
      (la_pcs st !! t = Some AIdle \/ exists r, la_pcs st !! t = Some (ADone r)) ->
      la_next st (la_call st t o)
  | la_next_run st st' t : la_step st t = Ok st' -> la_next st st'.

(** [print]: the cells from [head_index] up to [tail_index]. *)
Fixpoint la_print (fuel : nat) (st : lfa) (i : Z) : result (list Z) :=
  match fuel with
  | O => NoFuel
  | S fuel' =>
      if i =? la_tail st then Ok []
      else
        v ← of_opt (la_cells st !! i);
        rest ← la_print fuel' st (LF_NEXT_INDEX i);
        Ok (v :: rest)
  end.

(** Reservations while the ring has not wrapped: every cell below [la_enqs] is
    written or held by exactly one enqueuer, and no two dequeuers hold a cell. *)
Record lainv (st : lfa) : Prop := {
  ai_count : 0 <= la_enqs st /\ 0 <= la_deqs st;
  ai_tail : la_tail st = la_enqs st mod LF_MAX_INDEX;
  ai_head : la_head st = la_deqs st mod LF_MAX_INDEX;
  ai_write t v i : la_enqs st <= LF_MAX_INDEX -> la_pcs st !! t = Some (AWrite v i) ->
    0 <= i < la_enqs st /\ la_cells st !! i = None;
  ai_writers t t' v v' i : la_enqs st <= LF_MAX_INDEX ->
    la_pcs st !! t = Some (AWrite v i) -> la_pcs st !! t' = Some (AWrite v' i) -> t = t';
  ai_cells i : la_enqs st <= LF_MAX_INDEX -> 0 <= i < la_enqs st ->
    is_Some (la_cells st !! i) \/ exists t v, la_pcs st !! t = Some (AWrite v i);
  ai_free i : la_enqs st <= LF_MAX_INDEX -> la_enqs st <= i -> la_cells st !! i = None;
  ai_take t i : la_deqs st <= LF_MAX_INDEX -> la_pcs st !! t = Some (BTake i) ->
    0 <= i < la_deqs st;
  ai_takers t t' i : la_deqs st <= LF_MAX_INDEX ->
    la_pcs st !! t = Some (BTake i) -> la_pcs st !! t' = Some (BTake i) -> t = t';
}.

Lemma LF_NEXT_mod k : 0 <= k -> LF_NEXT_INDEX (k mod LF_MAX_INDEX) = (k + 1) mod LF_MAX_INDEX.
Proof.
  intros Hk. unfold LF_NEXT_INDEX. pose proof (Z.mod_pos_bound k LF_MAX_INDEX ltac:(reflexivity)).
  unfold LF_MAX_INDEX in *. rewrite u32_small by (unfold is_u32, u32_mod; lia).
  rewrite Zplus_mod_idemp_l. done.
Qed.

(** A step of [t] to a program counter that holds no cell. *)
Lemma lainv_goto st t p p' :
  lainv st -> la_pcs st !! t = Some p ->
  (forall v i, p <> AWrite v i) -> (forall v i, p' <> AWrite v i) -> (forall i, p' <> BTake i) ->
  lainv (la_goto st t p').
Proof.
  intros [Hc Ht Hh Hw Hws Hce Hf Htk Htks] Hp Hn Hnw Hnb.
  assert (Hl : forall t' q, <[t := p']> (la_pcs st) !! t' = Some q ->
            (exists v i, q = AWrite v i) \/ (exists i, q = BTake i) -> la_pcs st !! t' = Some q).
  { intros t' q Hq Hk. destruct (decide (t' = t)) as [->|]; [|by rewrite lookup_insert_ne in Hq].
    rewrite lookup_insert_eq in Hq. simplify_eq. destruct Hk as [(v & i & ->)|(i & ->)];
      [by edestruct Hnw|by edestruct Hnb]. }
  split; simpl; try done.
  - intros t' v i Hle Hq. apply Hl in Hq; [|eauto]. eauto.
  - intros t1 t2 v1 v2 i Hle H1 H2. apply Hl in H1; [|eauto]. apply Hl in H2; [|eauto]. eauto.
  - intros i Hle Hi. destruct (Hce i Hle Hi) as [?|(t' & v & Hq)]; [by left|right].
    exists t', v. rewrite lookup_insert_ne; [done|]. intros <-. rewrite Hp in Hq. simplify_eq.
    by edestruct Hn.
  - intros t' i Hle Hq. apply Hl in Hq; [|eauto]. eauto.
  - intros t1 t2 i Hle H1 H2. apply Hl in H1; [|eauto]. apply Hl in H2; [|eauto]. eauto.
Qed.

Lemma lainv_step st t st' : lainv st -> la_step st t = Ok st' -> lainv st'.
Proof.
  intros Hi. pose proof Hi as [Hc Ht Hh Hw Hws Hce Hf Htk Htks]. unfold la_step.
  destruct (la_pcs st !! t) as [p|] eqn:Hp; [|done]. simpl. destruct p; try done.
  - intros [= <-]. by eapply lainv_goto.
  - destruct (Z.eqb_spec (la_tail st) i) as [E|]; [|intros [= <-]; by eapply lainv_goto].
    intros [= <-].
    assert (Hsmall : la_enqs st + 1 <= LF_MAX_INDEX -> i = la_enqs st).
    { intros Hle. rewrite <- E, Ht. apply Z.mod_small. lia. }
    split; simpl; try done.
    + lia.
    + rewrite <- E, Ht. apply LF_NEXT_mod. lia.
    + intros t' w j Hle Hq. destruct (decide (t' = t)) as [->|].
      * rewrite lookup_insert_eq in Hq. simplify_eq. rewrite Hsmall by lia.
        split; [lia|]. apply Hf; lia.
      * rewrite lookup_insert_ne in Hq by done. destruct (Hw t' w j); [lia|done|]. split; [lia|done].
    + intros t1 t2 v1 v2 j Hle H1 H2.
      assert (Hlt : forall t' w, t' <> t -> la_pcs st !! t' = Some (AWrite w j) -> j <> i).
      { intros t' w _ Hq. destruct (Hw t' w j) as [? _]; [lia|done|]. rewrite Hsmall by lia. lia. }
      destruct (decide (t1 = t)) as [->|N1], (decide (t2 = t)) as [->|N2]; try done;
        rewrite ?lookup_insert_eq in H1; rewrite ?lookup_insert_ne in H1 by done;
        rewrite ?lookup_insert_eq in H2; rewrite ?lookup_insert_ne in H2 by done; simplify_eq.
      * by destruct (Hlt t2 v2 N2 H2).
      * by destruct (Hlt t1 v1 N1 H1).
      * eapply Hws; eauto. lia.
    + intros j Hle Hj. destruct (decide (j = la_enqs st)) as [->|].
      * right. exists t, v. rewrite lookup_insert_eq, Hsmall by lia. done.
      * destruct (Hce j) as [?|(t' & w & Hq)]; [lia..|by left|right]. exists t', w.
        rewrite lookup_insert_ne; [done|]. intros <-. congruence.
    + intros j Hle Hj. apply Hf; lia.
    + intros t' j Hle Hq. destruct (decide (t' = t)) as [->|]; [by rewrite lookup_insert_eq in Hq|].
      rewrite lookup_insert_ne in Hq by done. eauto.
    + intros t1 t2 j Hle H1 H2.
      destruct (decide (t1 = t)) as [->|]; [by rewrite lookup_insert_eq in H1|].
      destruct (decide (t2 = t)) as [->|]; [by rewrite lookup_insert_eq in H2|].
      rewrite lookup_insert_ne in H1 by done. rewrite lookup_insert_ne in H2 by done. eauto.
  - intros [= <-].
    assert (Hl : forall t' q, <[t := ADone 0]> (la_pcs st) !! t' = Some q -> q <> ADone 0 ->
              t' <> t /\ la_pcs st !! t' = Some q).
    { intros t' q Hq Hne. destruct (decide (t' = t)) as [->|].
      - rewrite lookup_insert_eq in Hq. by simplify_eq.
      - by rewrite lookup_insert_ne in Hq. }
    split; simpl; try done.
    + intros t' w j Hle [Hne Hq]%Hl; [|done]. destruct (Hw t' w j Hle Hq). split; [done|].
      rewrite lookup_insert_ne; [done|]. intros ->. apply Hne. by eapply (Hws t' t).
    + intros t1 t2 v1 v2 j Hle [_ H1]%Hl [_ H2]%Hl; [|done..]. eauto.
    + intros j Hle Hj. destruct (decide (j = i)) as [->|]; [left; rewrite lookup_insert_eq; eauto|].
      destruct (Hce j Hle Hj) as [?|(t' & w & Hq)]; [left; by rewrite lookup_insert_ne|right].
      exists t', w. rewrite lookup_insert_ne; [done|]. intros <-. congruence.
    + intros j Hle Hj. destruct (Hw t v i Hle Hp). rewrite lookup_insert_ne by lia. eauto.
    + intros t' j Hle [_ Hq]%Hl; [|done]. eauto.
    + intros t1 t2 j Hle [_ H1]%Hl [_ H2]%Hl; [|done..]. eauto.
  - intros [= <-]. by eapply lainv_goto.
  - destruct (Z.eqb_spec (la_head st) i) as [E|]; [|intros [= <-]; by eapply lainv_goto].
    intros [= <-].
    assert (Hsmall : la_deqs st + 1 <= LF_MAX_INDEX -> i = la_deqs st).
    { intros Hle. rewrite <- E, Hh. apply Z.mod_small. lia. }
    assert (Hl : forall t' q, <[t := BTake i]> (la_pcs st) !! t' = Some q ->
              t' = t /\ q = BTake i \/ t' <> t /\ la_pcs st !! t' = Some q).
    { intros t' q Hq. destruct (decide (t' = t)) as [->|].
      - rewrite lookup_insert_eq in Hq. simplify_eq. by left.
      - rewrite lookup_insert_ne in Hq by done. by right. }
    split; simpl; try done.
    + lia.
    + rewrite <- E, Hh. apply LF_NEXT_mod. lia.
    + intros t' w j Hle [[_ ?]|[_ Hq]]%Hl; [done|]. eauto.
    + intros t1 t2 v1 v2 j Hle [[_ ?]|[_ H1]]%Hl [[_ ?]|[_ H2]]%Hl; try done. eauto.
    + intros j Hle Hj. destruct (Hce j Hle Hj) as [?|(t' & w & Hq)]; [by left|right].
      exists t', w. rewrite lookup_insert_ne; [done|]. intros <-. congruence.
    + intros t' j Hle [[_ ?]|[_ Hq]]%Hl; simplify_eq; [rewrite Hsmall by lia; lia|].
      destruct (Htk t' j); [lia|done|lia].
    + intros t1 t2 j Hle [[-> ?]|[N1 H1]]%Hl [[-> ?]|[N2 H2]]%Hl; simplify_eq; try done.
      * pose proof (Hsmall ltac:(lia)). pose proof (Htk t2 _ ltac:(lia) H2). lia.
      * pose proof (Hsmall ltac:(lia)). pose proof (Htk t1 _ ltac:(lia) H1). lia.
      * eapply Htks; eauto. lia.
  - destruct (la_cells st !! i); [|done]. simpl. intros [= <-]. by eapply lainv_goto.
Qed.

Lemma lainv_init ts : lainv (la_init ts).
Proof.
  assert (Hl : forall t q, la_pcs (la_init ts) !! t = Some q -> q = AIdle).
  { intros t q. simpl. rewrite lookup_threads. case_decide; [|done]. by intros [= <-]. }
  split; simpl in *; try done.
  - intros t v i _ ?%Hl. done.
  - intros t t' v v' i _ ?%Hl. done.
  - lia.
  - intros t i _ ?%Hl. done.
  - intros t t' i _ ?%Hl. done.
Qed.

Lemma la_reachable_inv ts st : rtc la_next (la_init ts) st -> lainv st.
Proof.
  intros Hr. pose proof (lainv_init ts) as Hi. revert Hi. generalize (la_init ts) Hr. clear.
  intros st0 Hr. induction Hr as [|x y z Hxy Hyz IH]; [done|]. intros Hi. apply IH.
  destruct Hxy as [st t o Hp|st st' t Hs]; [|by eapply lainv_step].
  assert (exists p, la_pcs st !! t = Some p /\ forall v i, p <> AWrite v i) as (p & Hp' & Hne)
    by (destruct Hp as [?|[r ?]]; eauto).
  eapply lainv_goto; eauto; by destruct o.
Qed.

(** ** Schedules *)

(** Runs a schedule: [(t, Some (op, v))] is a call by thread [t], [(t, None)] a
    step of it. *)
Fixpoint ms_run (new_addr : gmap Z QNode -> Z) (sched : list (Z * option (Z * Z)))
    (st : msq) : result msq :=
  match sched with
  | [] => Ok st
  | (t, Some (op, v)) :: sched' =>
      if decide (ms_pcs st !! t = Some MIdle /\ (op = ENQ_OP \/ op = DEQ_OP /\ v = 0))
      then ms_run new_addr sched' (ms_invoke st t op v) else NoFuel
  | (t, None) :: sched' => st' ← ms_step new_addr st t; ms_run new_addr sched' st'
  end.

Lemma ms_run_rtc new_addr sched st st' :
  ms_run new_addr sched st = Ok st' -> rtc (ms_next new_addr) st st'.
Proof.
  revert st; induction sched as [|[t [[op v]|]] sched IH]; intros st; simpl.
  - by intros [= <-].
  - case_decide as Hd; [|done]. intros Hr. destruct Hd.
    eapply rtc_l; [by apply ms_next_invoke|]. auto.
  - destruct (ms_step new_addr st t) as [st1| |] eqn:Hs; try done. simpl. intros Hr.
    eapply rtc_l; [by eapply ms_next_run|]. auto.
Qed.

Fixpoint la_run (sched : list (Z * option (option Z))) (st : lfa) : result lfa :=
  match sched with
  | [] => Ok st
  | (t, Some o) :: sched' =>
      match la_pcs st !! t with
      | Some (AIdle | ADone _) => la_run sched' (la_call st t o)
      | _ => NoFuel
      end
  | (t, None) :: sched' => st' ← la_step st t; la_run sched' st'
  end.

Lemma la_run_rtc sched st st' : la_run sched st = Ok st' -> rtc la_next st st'.
Proof.
  revert st; induction sched as [|[t [o|]] sched IH]; intros st; simpl.
  - by intros [= <-].
  - destruct (la_pcs st !! t) as [[]|] eqn:Hp; try done; intros Hr;
      (eapply rtc_l; [apply la_next_call|by apply IH]); eauto.
  - destruct (la_step st t) as [st1| |] eqn:Hs; try done. simpl. intros Hr.
    eapply rtc_l; [by eapply la_next_run|]. auto.
Qed.

(** ** Properties *)

(** C2: The queue of LFQueue.h is linearizable: in every reachable state of any
    number of threads, every thread's calls take effect exactly once between call
    and return and return the answer of that effect; the effects in their order
    are a history of a FIFO queue whose [deq] answers 0 when it is empty; and
    [print] lists exactly the contents of that queue. *)
Theorem msqueue_linearizable (new_addr : gmap Z QNode -> Z) sentinel ts st :
  (forall h, new_addr h <> 0 /\ h !! new_addr h = None) -> sentinel <> 0 ->
  ms_reachable new_addr sentinel ts st ->
  (forall t, is_Some (status t (ms_trace st))) /\
  exists vs, replay lf_spec [] (ms_trace st) = Some vs /\ ms_print st = Ok vs.
Proof.
  intros ok Hs Hr. destruct (ms_reachable_inv new_addr ok sentinel ts st Hs Hr) as (all & h & tl & Hi).
  split; [apply (mi_status _ _ _ _ Hi)|]. eexists. split; [apply (mi_replay _ _ _ _ Hi)|].
  by eapply ms_print_contents.
Qed.

(** No thread of the linked lock-free queue gets stuck or follows a wild
    pointer: inside [enq] and [deq] its next step is defined, whatever the other
    threads did. *)
Theorem msqueue_threads_never_crash (new_addr : gmap Z QNode -> Z) sentinel ts st t p :
  (forall h, new_addr h <> 0 /\ h !! new_addr h = None) -> sentinel <> 0 ->
  ms_reachable new_addr sentinel ts st -> ms_pcs st !! t = Some p -> p <> MIdle ->
  exists st', ms_step new_addr st t = Ok st'.
Proof.
  intros ok Hs Hr. destruct (ms_reachable_inv new_addr ok sentinel ts st Hs Hr) as (all & h & tl & Hi).
  by eapply ms_progress.
Qed.

(** The reservations of LFArrayQueue.h: as long as at most [MAX_INDEX]
    enqueues and dequeues took place, a cell is reserved by at most one enqueuer
    and taken by at most one dequeuer, its enqueuer finds it unwritten, and every
    reserved cell is written or still held by its enqueuer. *)
Theorem lfarray_reservations_unique ts st :
  rtc la_next (la_init ts) st ->
  la_enqs st <= LF_MAX_INDEX -> la_deqs st <= LF_MAX_INDEX ->
  (forall t t' v v' i, la_pcs st !! t = Some (AWrite v i) ->
     la_pcs st !! t' = Some (AWrite v' i) -> t = t') /\
  (forall t t' i, la_pcs st !! t = Some (BTake i) -> la_pcs st !! t' = Some (BTake i) -> t = t') /\
  (forall t v i, la_pcs st !! t = Some (AWrite v i) -> la_cells st !! i = None) /\
  (forall i, 0 <= i < la_enqs st ->
     is_Some (la_cells st !! i) \/ exists t v, la_pcs st !! t = Some (AWrite v i)).
Proof.
  intros Hr He Hd. destruct (la_reachable_inv ts st Hr). split_and!; eauto.
  intros t v i Hp. by edestruct ai_write0.
Qed.

(** In LFArrayQueue.h a dequeue can overtake the enqueue that reserved its
    cell: in a reachable state, thread 1 has reserved cell 0 for the value 7 and
    has not written it, and the next step of thread 2 reads the unwritten cell. *)
Theorem lfarray_early_read :
  exists st, rtc la_next (la_init [1; 2]) st /\
    la_pcs st !! 1 = Some (AWrite 7 0) /\ la_pcs st !! 2 = Some (BTake 0) /\
    la_step st 2 = UB.
Proof.
  pose (sched := [(1, Some (Some 7)); (1, None); (1, None); (2, Some None); (2, None); (2, None)]
                 : list (Z * option (option Z))).
  destruct (la_run sched (la_init [1; 2])) as [st| |] eqn:E; try (vm_compute in E; discriminate).
  exists st. split; [by eapply la_run_rtc|]. vm_compute in E. injection E as <-.
  split_and!; vm_compute; reflexivity.
Qed.

(** ** Instances of the properties *)

(** Thread 1 enqueues 5 and stops before it swings [tail]; thread 2 enqueues 6,
    helps and returns; thread 1 dequeues. *)
Definition ms_schedule : list (Z * option (Z * Z)) :=
  (1, Some (ENQ_OP, 5)) :: replicate 6 (1, None) ++ (2, Some (ENQ_OP, 6)) ::
  replicate 13 (2, None) ++ replicate 2 (1, None) ++ (1, Some (DEQ_OP, 0)) ::
  replicate 6 (1, None).

Definition ms_demo : msq :=
  match ms_run next_free ms_schedule (ms_init 8 [1; 2]) with Ok st => st | _ => ms_init 8 [] end.

Lemma ms_demo_reachable : ms_reachable next_free 8 [1; 2] ms_demo.
Proof. apply (ms_run_rtc _ ms_schedule). vm_compute. reflexivity. Qed.

Lemma msqueue_linearizable_witness :
  ms_print ms_demo = Ok [6] /\
  exists vs, replay lf_spec [] (ms_trace ms_demo) = Some vs /\ ms_print ms_demo = Ok vs.
Proof.
  split; [vm_compute; reflexivity|].
  apply (msqueue_linearizable next_free 8 [1; 2] ms_demo).
  - exact next_free_ok.
  - lia.
  - exact ms_demo_reachable.
Defined.

Lemma msqueue_threads_never_crash_witness :
  ms_pcs ms_demo !! 1 = Some (MRet 5) /\ exists st', ms_step next_free ms_demo 1 = Ok st'.
Proof.
  split; [vm_compute; reflexivity|].
  apply (msqueue_threads_never_crash next_free 8 [1; 2] ms_demo 1 (MRet 5)).
  - exact next_free_ok.
  - lia.
  - exact ms_demo_reachable.
  - vm_compute; reflexivity.
  - discriminate.
Defined.

Definition la_demo : lfa :=
  match la_run [(1, Some (Some 7)); (1, None); (1, None); (2, Some (Some 9)); (2, None); (2, None)]
               (la_init [1; 2]) with Ok st => st | _ => la_init [] end.

Lemma lfarray_reservations_unique_witness :
  la_pcs la_demo !! 2 = Some (AWrite 9 1) /\ la_cells la_demo !! 1 = None.
Proof.
  split; [vm_compute; reflexivity|].
  apply (lfarray_reservations_unique [1; 2] la_demo) with (t := 2) (v := 9).
  - eapply la_run_rtc with (sched := [(1, Some (Some 7)); (1, None); (1, None);
      (2, Some (Some 9)); (2, None); (2, None)]). vm_compute. reflexivity.
  - vm_compute. discriminate.
  - vm_compute. discriminate.
  - vm_compute. reflexivity.
Defined.
