(* ===== verification/LazyList.v ===== *)
(** * The list with lazy removal and a lock per node

    Models src/SMC/SW/HOST/app/multithread_mainmem_linkedlist/LazyLockList.h, and the allocator
    of app_utils.hh that it calls, at the level of single accesses to shared memory: [add] and
    [remove] search without locks, lock the two nodes they found and check them again; [remove]
    marks a node before it unlinks it; [contains] takes no lock at all.  The theorems show that
    the list is linearizable to a set for any number of threads, in the executions in which calls
    of [allocate_region] do not overlap (no thread reads region_aligned while another is about to write it; nothing else is
    restricted), that no thread then follows a wild pointer, and that overlapping calls of it lose a key. *)

From S2P Require Import Prelude History FlatCombining FCSkipList.

(** ** The list *)

(** node_t; the lock holds the thread that owns it. *)
Record lnode := mkL { lkey : Z; lmarked : bool; llock : option Z; lnext : Z }.
(** Memory of the region that was not written yet. *)
Definition zero_node : lnode := mkL 0 false None 0.

Definition set_lock (nd : lnode) (o : option Z) : lnode := mkL (lkey nd) (lmarked nd) o (lnext nd).
Definition set_mark (nd : lnode) : lnode := mkL (lkey nd) true (llock nd) (lnext nd).
Definition set_lnext (nd : lnode) (p : Z) : lnode := mkL (lkey nd) (lmarked nd) (llock nd) p.
Definition set_lkey (nd : lnode) (k : Z) : lnode := mkL k (lmarked nd) (llock nd) (lnext nd).

(** Where a thread is: C in [contains], A and R in [add] and [remove], S in the part that these
    two have in common. *)
Inductive lpc :=
  | LIdle
  | CKey (x curr : Z) | CNext (x curr : Z) | CEq (x curr : Z) | CChk (x curr : Z)
  | SStart (op x : Z)
  | SKey (op x prev curr : Z) | SNext (op x prev curr : Z)
  | SLock1 (op x prev curr : Z) | SLock2 (op x prev curr : Z)
  | SVal1 (op x prev curr : Z) | SVal2 (op x prev curr : Z) | SVal3 (op x prev curr : Z)
  | SDec (op x prev curr : Z)
  | SFail2 (op x prev curr : Z) | SFail1 (op x prev : Z)
  | ARead (x prev curr : Z) | ATmp (x prev curr n : Z) | AInc (x prev curr n tmp : Z)
  | AKey (x prev curr n : Z) | ANext (x prev curr n : Z) | AInit (x prev curr n : Z) | ALink (x prev curr n : Z)
  | RMark (x prev curr : Z) | RRead (x prev curr : Z) | RLink (x prev curr nx : Z)
  | Un2 (prev curr r : Z) | Un1 (prev r : Z)
  | LRet (r : Z).

#[export] Instance lpc_eq_dec : EqDecision lpc.
Proof. solve_decision. Defined.

Record lz := mkLz {
  lz_heap : gmap Z lnode;
  lz_region : Z;
  lz_pcs : gmap Z lpc;
  lz_trace : list event;
}.

Definition lz_goto (st : lz) (t : Z) (p : lpc) : lz :=
  mkLz (lz_heap st) (lz_region st) (<[t := p]> (lz_pcs st)) (lz_trace st).
Definition lz_put (st : lz) (a : Z) (nd : lnode) : lz :=
  mkLz (<[a := nd]> (lz_heap st)) (lz_region st) (lz_pcs st) (lz_trace st).
Definition lz_set_region (st : lz) (r : Z) : lz := mkLz (lz_heap st) r (lz_pcs st) (lz_trace st).
Definition lz_record (st : lz) (es : list event) : lz :=
  mkLz (lz_heap st) (lz_region st) (lz_pcs st) (es ++ lz_trace st).
Definition lz_set_trace (st : lz) (tr : list event) : lz := mkLz (lz_heap st) (lz_region st) (lz_pcs st) tr.

(** The key a thread is looking for in [contains]. *)
Definition contains_of (p : lpc) : option (Z * Z) :=
  match p with CKey x c | CNext x c | CEq x c | CChk x c => Some (x, c) | _ => None end.
Definition seekers (pcs : gmap Z lpc) (x : Z) : list Z :=
  (filter (fun tp => fst <$> contains_of tp.2 = Some x) (map_to_list pcs)).*1.

Section steps.
Context (head : Z) (sizeof_node region_end : Z).

(** A call; a [contains] may turn out to take effect here. *)
Definition lz_invoke (st : lz) (t op x : Z) : lz :=
  let st' := lz_record st [Inv t op x] in
  if op =? CONTAINS_OP then lz_goto (lz_record st' [Mark t]) t (CKey x head)
  else lz_goto st' t (SStart op x).

(** [pthread_mutex_lock] waits while the lock is held. *)
Definition lock_step (st : lz) (t a : Z) (p : lpc) : result lz :=
  nd ← of_opt (lz_heap st !! a);
  match llock nd with
  | None => Ok (lz_goto (lz_put st a (set_lock nd (Some t))) t p)
  | Some _ => NoFuel
  end.
Definition unlock_step (st : lz) (t a : Z) (p : lpc) : result lz :=
  nd ← of_opt (lz_heap st !! a); Ok (lz_goto (lz_put st a (set_lock nd None)) t p).

(** One step of thread [t]. *)
Definition lz_step (st : lz) (t : Z) : result lz :=
  p ← of_opt (lz_pcs st !! t);
  match p with
  | LIdle => NoFuel
  | CKey x curr =>
      nd ← of_opt (lz_heap st !! curr);
      Ok (lz_goto st t (if lkey nd <? x then CNext x curr else CEq x curr))
  | CNext x curr => nd ← of_opt (lz_heap st !! curr); Ok (lz_goto st t (CKey x (lnext nd)))
  | CEq x curr =>
      nd ← of_opt (lz_heap st !! curr);
      if lkey nd =? x then Ok (lz_goto st t (CChk x curr))
      else Ok (lz_goto (lz_set_trace st (confirm t CONTAINS_OP x 0 (lz_trace st))) t (LRet 0))
  | CChk x curr =>
      nd ← of_opt (lz_heap st !! curr);
      if lmarked nd
      then Ok (lz_goto (lz_set_trace st (confirm t CONTAINS_OP x 0 (lz_trace st))) t (LRet 0))
      else Ok (lz_goto (lz_record st [Lin t CONTAINS_OP x 1]) t (LRet 1))
  | SStart op x => nd ← of_opt (lz_heap st !! head); Ok (lz_goto st t (SKey op x head (lnext nd)))
  | SKey op x prev curr =>
      nd ← of_opt (lz_heap st !! curr);
      Ok (lz_goto st t (if lkey nd <? x then SNext op x prev curr else SLock1 op x prev curr))
  | SNext op x prev curr =>
      nd ← of_opt (lz_heap st !! curr); Ok (lz_goto st t (SKey op x curr (lnext nd)))
  | SLock1 op x prev curr => lock_step st t prev (SLock2 op x prev curr)
  | SLock2 op x prev curr => lock_step st t curr (SVal1 op x prev curr)
  | SVal1 op x prev curr =>
      nd ← of_opt (lz_heap st !! prev);
      Ok (lz_goto st t (if lmarked nd then SFail2 op x prev curr else SVal2 op x prev curr))
  | SVal2 op x prev curr =>
      nd ← of_opt (lz_heap st !! curr);
      Ok (lz_goto st t (if lmarked nd then SFail2 op x prev curr else SVal3 op x prev curr))
  | SVal3 op x prev curr =>
      nd ← of_opt (lz_heap st !! prev);
      Ok (lz_goto st t (if lnext nd =? curr then SDec op x prev curr else SFail2 op x prev curr))
  | SDec op x prev curr =>
      nd ← of_opt (lz_heap st !! curr);
      let found := lkey nd =? x in
      if op =? ADD_OP then
        if found then Ok (lz_goto (lz_record st [Lin t ADD_OP x 0]) t (Un2 prev curr 0))
        else Ok (lz_goto st t (ARead x prev curr))
      else
        if found then Ok (lz_goto st t (RMark x prev curr))
        else Ok (lz_goto (lz_record st [Lin t REMOVE_OP x 0]) t (Un2 prev curr 0))
  | SFail2 op x prev curr => unlock_step st t curr (SFail1 op x prev)
  | SFail1 op x prev => unlock_step st t prev (SStart op x)
  | ARead x prev curr =>
      if lz_region st + sizeof_node <? region_end
      then Ok (lz_goto st t (ATmp x prev curr (lz_region st))) else UB
  | ATmp x prev curr n => Ok (lz_goto st t (AInc x prev curr n (lz_region st)))
  | AInc x prev curr n tmp =>
      Ok (lz_goto (lz_set_region st (tmp + sizeof_node)) t (AKey x prev curr n))
  | AKey x prev curr n =>
      Ok (lz_goto (lz_put st n (set_lkey (default zero_node (lz_heap st !! n)) x)) t (ANext x prev curr n))
  | ANext x prev curr n =>
      nd ← of_opt (lz_heap st !! n);
      Ok (lz_goto (lz_put st n (set_lnext nd curr)) t (AInit x prev curr n))
  | AInit x prev curr n =>
      nd ← of_opt (lz_heap st !! n);
      Ok (lz_goto (lz_put st n (set_lock nd None)) t (ALink x prev curr n))
  | ALink x prev curr n =>
      nd ← of_opt (lz_heap st !! prev);
      Ok (lz_goto (lz_record (lz_put st prev (set_lnext nd n)) [Lin t ADD_OP x 1]) t (Un2 prev curr 1))
  | RMark x prev curr =>
      nd ← of_opt (lz_heap st !! curr);
      (* the threads that are looking for [x] may turn out to answer from here *)
      Ok (lz_goto (lz_record (lz_put st curr (set_mark nd))
                             ((Mark <$> seekers (lz_pcs st) x) ++ [Lin t REMOVE_OP x 1])) t (RRead x prev curr))
  | RRead x prev curr => nd ← of_opt (lz_heap st !! curr); Ok (lz_goto st t (RLink x prev curr (lnext nd)))
  | RLink x prev curr nx =>
      nd ← of_opt (lz_heap st !! prev);
      Ok (lz_goto (lz_put st prev (set_lnext nd nx)) t (Un2 prev curr 1))
  | Un2 prev curr r => unlock_step st t curr (Un1 prev r)
  | Un1 prev r => unlock_step st t prev (LRet r)
  | LRet r => Ok (lz_goto (lz_record st [Ret t r]) t LIdle)
  end.

(** A thread inside [allocate_region], between its read and its write of [region_aligned]. *)
Definition allocating (p : lpc) : bool := match p with ATmp _ _ _ _ | AInc _ _ _ _ _ => true | _ => false end.
(** If [t] is about to call [allocate_region], no thread is inside it; the other threads are free to move. *)
Definition enters (p : lpc) : bool := match p with ARead _ _ _ => true | _ => false end.
Definition calm (st : lz) (t : Z) : Prop :=
  forall p, lz_pcs st !! t = Some p -> enters p = true -> forall t' p', lz_pcs st !! t' = Some p' -> allocating p' = false.

(** [serial] asks for the executions in which calls of [allocate_region] do not overlap: a thread waits with its call while another is between the read and the write of
    region_aligned, and all other steps of all threads interleave freely. *)
Inductive lz_next (legal : Z -> Prop) (serial : bool) : lz -> lz -> Prop :=
  | lz_next_invoke st t op x :
      lz_pcs st !! t = Some LIdle -> op = CONTAINS_OP \/ op = ADD_OP \/ op = REMOVE_OP -> legal x ->
      lz_next legal serial st (lz_invoke st t op x)
  | lz_next_run st st' t :
      lz_step st t = Ok st' -> (serial = true -> calm st t) -> lz_next legal serial st st'.
End steps.

(** The destructor: unlinks the marked nodes of the list. *)
Fixpoint destroy_loop (fuel : nat) (h : gmap Z lnode) (prev curr : Z) : result (gmap Z lnode) :=
  match fuel with
  | O => NoFuel
  | S fuel' =>
      nd ← of_opt (h !! curr);
      if lnext nd =? 0 then Ok h
      else
        h' ← (if lmarked nd then np ← of_opt (h !! prev); Ok (<[prev := set_lnext np (lnext nd)]> h) else Ok h);
        nd' ← of_opt (h' !! curr);
        destroy_loop fuel' h' curr (lnext nd')
  end.
Definition lazy_destroy (fuel : nat) (h : gmap Z lnode) (head : Z) : result (gmap Z lnode) :=
  nd ← of_opt (h !! head); destroy_loop fuel h head (lnext nd).

(** ** The shape of the memory *)

Definition keyof (h : gmap Z lnode) (p : Z) : Z := from_option lkey 0 (h !! p).
Definition marked_node (h : gmap Z lnode) (p : Z) : bool := from_option lmarked false (h !! p).
Definition next_of (h : gmap Z lnode) (p : Z) : Z := from_option lnext 0 (h !! p).
Definition owner (h : gmap Z lnode) (p : Z) : option Z := h !! p ≫= llock.

(** [b] can be reached from [a] along the links; what the last node has for its link does not matter. *)
Definition edge (h : gmap Z lnode) (a b : Z) : Prop := is_Some (h !! a) /\ next_of h a = b /\ keyof h a < keyof h b.
Definition reach (h : gmap Z lnode) : Z -> Z -> Prop := rtc (edge h).

(** The nodes of a list are linked one to the next. *)
Fixpoint links (h : gmap Z lnode) (ch : list Z) : Prop :=
  match ch with
  | [] => True
  | p :: l => match l with [] => True | q :: _ => next_of h p = q end /\ links h l
  end.

(** [ch] are the nodes linked between the sentinels, both included, [pub] those that were ever
    linked, [K] the keys in the list. *)
Record shape (head tail : Z) (h : gmap Z lnode) (region : Z) (ch : list Z) (pub : gset Z) (K : gset Z) : Prop := {
  sh_head : ch !! 0%nat = Some head;
  sh_tail : last ch = Some tail;
  sh_next : links h ch;
  sh_sorted : StronglySorted (fun p q => keyof h p < keyof h q) ch;
  sh_sub p : p ∈ ch -> p ∈ pub;
  sh_node p : p ∈ pub -> is_Some (h !! p);
  sh_up p : p ∈ pub -> p <> tail -> next_of h p ∈ pub /\ keyof h p < keyof h (next_of h p);
  sh_out p : p ∈ pub -> p ∉ ch -> marked_node h p = true;
  sh_ends : marked_node h head = false /\ marked_node h tail = false;
  sh_null : h !! 0 = None /\ 0 < region;
  sh_region p : is_Some (h !! p) -> 0 < p < region;
  sh_set x : x ∈ K <-> exists p, p ∈ ch /\ p <> head /\ p <> tail /\ marked_node h p = false /\ keyof h p = x;
}.

(** A key between those of the sentinels. *)
Definition key_ok (head tail : Z) (h : gmap Z lnode) (x : Z) : Prop := keyof h head < x < keyof h tail.

Section shape.
Context (head tail : Z).

Lemma sorted_lookup h ch i j p q : StronglySorted (fun p q => keyof h p < keyof h q) ch ->
  ch !! i = Some p -> ch !! j = Some q -> (i < j)%nat -> keyof h p < keyof h q.
Proof.
  intros Hs Hi Hj Hij. revert i j Hi Hj Hij. induction Hs as [|a l Hs IH Ha]; intros i j Hi Hj Hij; [done|].
  destruct j as [|j]; [lia|]. destruct i as [|i]; simpl in *.
  - injection Hi as <-. rewrite Forall_forall in Ha. apply Ha. by eapply list_elem_of_lookup_2.
  - apply (IH i j); [done|done|lia].
Qed.

Lemma links_app h l1 p l2 : links h (l1 ++ p :: l2) <-> links h (l1 ++ [p]) /\ links h (p :: l2).
Proof.
  induction l1 as [|a l1 IH]; [cbn; naive_solver|]. cbn [app links]. rewrite IH. destruct l1; cbn [app]; naive_solver.
Qed.

Lemma links_frame h h' l z : (forall p, p ∈ l -> next_of h' p = next_of h p) -> links h (l ++ [z]) -> links h' (l ++ [z]).
Proof.
  induction l as [|a l IH]; intros He H; [done|]. destruct H as [H1 H2]. split; [|apply IH; [|done]; intros p Hp; apply He; by right].
  rewrite (He a) by left. destruct l; exact H1.
Qed.

Lemma links_ext h h' l : (forall p, p ∈ l -> next_of h' p = next_of h p) -> links h l -> links h' l.
Proof.
  intros He H. destruct l as [|z l] using rev_ind; [done|]. apply (links_frame h); [|done]. intros p Hp. apply He. set_solver.
Qed.

(** Keys identify the linked nodes, and order them. *)
Lemma sorted_key h ch p q : StronglySorted (fun p q => keyof h p < keyof h q) ch ->
  p ∈ ch -> q ∈ ch -> keyof h p = keyof h q -> p = q.
Proof.
  intros Hs [i Hi]%list_elem_of_lookup_1 [j Hj]%list_elem_of_lookup_1 He.
  destruct (lt_eq_lt_dec i j) as [[E|E]|E]; [|congruence|].
  - pose proof (sorted_lookup _ _ _ _ _ _ Hs Hi Hj E). lia.
  - pose proof (sorted_lookup _ _ _ _ _ _ Hs Hj Hi E). lia.
Qed.

Lemma sorted_NoDup h ch : StronglySorted (fun p q => keyof h p < keyof h q) ch -> NoDup ch.
Proof.
  intros Hs. apply NoDup_alt. intros i j p Hi Hj. destruct (lt_eq_lt_dec i j) as [[E|E]|E]; [|done|].
  - pose proof (sorted_lookup _ _ _ _ _ _ Hs Hi Hj E). lia.
  - pose proof (sorted_lookup _ _ _ _ _ _ Hs Hj Hi E). lia.
Qed.

(** An unmarked node and the node it is linked to are neighbours in the list. *)
Lemma shape_pair h region ch pub K prev curr : shape head tail h region ch pub K ->
  prev ∈ pub -> marked_node h prev = false -> next_of h prev = curr -> keyof h prev < keyof h tail ->
  exists l1 l2, ch = l1 ++ prev :: curr :: l2.
Proof.
  intros Hsh Hp Hm Hn Hk. destruct (decide (prev ∈ ch)) as [Hin|Hin]; [|by rewrite (sh_out _ _ _ _ _ _ _ Hsh prev Hp Hin) in Hm].
  apply list_elem_of_split in Hin as (l1 & l2 & ->). exists l1. destruct l2 as [|q l2].
  - pose proof (sh_tail _ _ _ _ _ _ _ Hsh) as Ht. rewrite last_snoc in Ht. injection Ht as ->. lia.
  - exists l2. pose proof (sh_next _ _ _ _ _ _ _ Hsh) as Hl. apply links_app in Hl as [_ [Hl _]]. congruence.
Qed.

(** ** Reachability *)

(** Keys grow along the links. *)
Lemma reach_key h a b : reach h a b -> a = b \/ keyof h a < keyof h b.
Proof. induction 1 as [|a c b (_ & _ & Hk) _ [->|IH]]; [by left|by right|right; lia]. Qed.

(** Every linked node can be reached from the head. *)
Lemma reach_chain h region ch pub K n : shape head tail h region ch pub K -> n ∈ ch -> reach h head n.
Proof.
  intros Hsh Hn. pose proof (sh_head _ _ _ _ _ _ _ Hsh) as Hh. pose proof (sh_next _ _ _ _ _ _ _ Hsh) as Hl. pose proof (sh_sorted _ _ _ _ _ _ _ Hsh) as Ho.
  assert (Hs : forall p, p ∈ ch -> is_Some (h !! p)) by (intros p Hp; apply (sh_node _ _ _ _ _ _ _ Hsh), (sh_sub _ _ _ _ _ _ _ Hsh), Hp).
  clear Hsh. destruct ch as [|a ch]; [done|]. injection Hh as <-. revert a Hn Hl Ho Hs. induction ch as [|b ch IH]; intros a Hn [Hl1 Hl2] [Ho1 Ho2]%StronglySorted_inv Hs.
  - apply list_elem_of_singleton in Hn as ->. apply rtc_refl.
  - apply Forall_cons in Ho2 as [Ho2 _]. apply elem_of_cons in Hn as [->|Hn]; [apply rtc_refl|]. eapply rtc_l; [split; [apply Hs; left|split; [exact Hl1|exact Ho2]]|].
    apply IH; [done|done|done|]. intros p Hp. apply Hs. by right.
Qed.

Lemma keyof_insert h a nd p : keyof (<[a := nd]> h) p = if decide (p = a) then lkey nd else keyof h p.
Proof. unfold keyof. case_decide; [subst; by rewrite lookup_insert_eq|by rewrite lookup_insert_ne]. Qed.
Lemma marked_insert h a nd p : marked_node (<[a := nd]> h) p = if decide (p = a) then lmarked nd else marked_node h p.
Proof. unfold marked_node. case_decide; [subst; by rewrite lookup_insert_eq|by rewrite lookup_insert_ne]. Qed.
Lemma next_insert h a nd p : next_of (<[a := nd]> h) p = if decide (p = a) then lnext nd else next_of h p.
Proof. unfold next_of. case_decide; [subst; by rewrite lookup_insert_eq|by rewrite lookup_insert_ne]. Qed.
Lemma owner_insert h a nd p : owner (<[a := nd]> h) p = if decide (p = a) then llock nd else owner h p.
Proof. unfold owner. case_decide; [subst; by rewrite lookup_insert_eq|by rewrite lookup_insert_ne]. Qed.
Lemma some_insert (h : gmap Z lnode) a nd p : is_Some (h !! p) -> is_Some (<[a := nd]> h !! p).
Proof. intros H. destruct (decide (p = a)) as [->|]; [rewrite lookup_insert_eq; eauto|by rewrite lookup_insert_ne]. Qed.

(** A write that leaves the links of the published nodes alone, an insertion, a removal. *)
Lemma sorted_last h ch q : StronglySorted (fun p q => keyof h p < keyof h q) ch -> last ch = Some tail -> q ∈ ch -> keyof h q <= keyof h tail.
Proof.
  intros Hs Hl [i Hi]%list_elem_of_lookup_1. rewrite last_lookup in Hl. pose proof (lookup_lt_Some _ _ _ Hi). destruct (decide (i = pred (length ch))) as [->|Hne]; [by simplify_eq|].
  pose proof (sorted_lookup _ _ _ _ _ _ Hs Hi Hl ltac:(lia)). lia.
Qed.

Lemma reach_pub h h' region ch pub K p q : shape head tail h region ch pub K ->
  (forall a, a ∈ pub -> is_Some (h' !! a) /\ keyof h' a = keyof h a /\ next_of h' a = next_of h a) ->
  p ∈ pub -> q ∈ ch -> reach h p q -> reach h' p q.
Proof.
  intros Hsh Hsame Hp Hq Hr. pose proof (sorted_last _ _ _ (sh_sorted _ _ _ _ _ _ _ Hsh) (sh_tail _ _ _ _ _ _ _ Hsh) Hq) as Hle. revert Hp.
  induction Hr as [|a c b (Hx & Hn & Hk) Hr IH]; intros Hp; [apply rtc_refl|]. assert (Hne : a <> tail).
  { intros ->. destruct (reach_key _ _ _ Hr) as [->|]; lia. }
  destruct (sh_up _ _ _ _ _ _ _ Hsh a Hp Hne) as [Hpc _]. rewrite Hn in Hpc. destruct (Hsame a Hp) as (Hs & Ek & En), (Hsame c Hpc) as (_ & Ec & _).
  eapply rtc_l; [|by apply IH]. split; [done|]. by rewrite En, Ek, Ec.
Qed.

Lemma reach_link h prev curr n np p q : h !! prev = Some np -> lnext np = curr -> is_Some (h !! n) -> next_of h n = curr -> keyof h prev < keyof h n < keyof h curr ->
  reach h p q -> reach (<[prev := set_lnext np n]> h) p q.
Proof.
  intros Hp Hc Hn Hnn Hkn. assert (Hne : n <> prev) by (intros ->; lia). assert (Ek : forall a, keyof (<[prev := set_lnext np n]> h) a = keyof h a).
  { intros a. rewrite keyof_insert. case_decide; [subst; unfold keyof; by rewrite Hp|done]. }
  induction 1 as [|u v w (Hu & Hv & Hk) _ IH]; [apply rtc_refl|]. destruct (decide (u = prev)) as [->|E].
  - assert (v = curr) as -> by (unfold next_of in Hv; rewrite Hp in Hv; cbn in Hv; congruence).
    apply (rtc_l _ _ n); [|apply (rtc_l _ _ curr); [|exact IH]]; (split; [by apply some_insert|]); rewrite next_insert, !Ek.
    + rewrite decide_True by done. cbn. split; [done|lia].
    + rewrite decide_False by done. split; [done|lia].
  - eapply rtc_l; [|exact IH]. split; [by apply some_insert|]. by rewrite next_insert, decide_False, !Ek.
Qed.

Lemma reach_unlink h prev curr nx np p q : h !! prev = Some np -> lnext np = curr -> is_Some (h !! curr) -> next_of h curr = nx ->
  curr <> prev -> q <> curr -> reach h p q -> reach (<[prev := set_lnext np nx]> h) p q.
Proof.
  intros Hp Hc Hs Hn Hne Hq. assert (Ek : forall a, keyof (<[prev := set_lnext np nx]> h) a = keyof h a).
  { intros a. rewrite keyof_insert. case_decide; [subst; unfold keyof; by rewrite Hp|done]. }
  induction 1 as [|u v w (Hu & Hv & Hk) Hr IH]; [apply rtc_refl|]. destruct (decide (u = prev)) as [->|E].
  - assert (v = curr) as -> by (unfold next_of in Hv; rewrite Hp in Hv; cbn in Hv; congruence).
    specialize (IH Hq). inversion IH as [|? z ? (_ & Hz & Hkz) Hr']; subst; [done|]. rewrite !Ek in Hkz. rewrite next_insert, decide_False in Hkz by done.
    eapply rtc_l; [|exact Hr']. rewrite next_insert, decide_False by done. split; [by apply some_insert|]. rewrite next_insert, decide_True, !Ek by done. cbn. split; [done|lia].
  - eapply rtc_l; [|exact (IH Hq)]. split; [by apply some_insert|]. by rewrite next_insert, decide_False, !Ek.
Qed.
End shape.

(** ** Changes of the shape *)

Section changes.
Context (head tail : Z).

(** The published nodes keep keys, marks and links. *)
Lemma shape_ext h h' r r' ch pub K : shape head tail h r ch pub K ->
  (forall p, p ∈ pub -> is_Some (h' !! p) /\ keyof h' p = keyof h p /\ marked_node h' p = marked_node h p /\ next_of h' p = next_of h p) ->
  (forall p, is_Some (h' !! p) -> 0 < p < r') -> h' !! 0 = None -> 0 < r' ->
  shape head tail h' r' ch pub K.
Proof.
  intros [Hh Ht Hn Hs Hsub Hnode Hup Hout He Hnull Hr Hset] Hsame Hr' H0 Hr0.
  assert (Hhd : head ∈ pub) by (apply Hsub; by eapply list_elem_of_lookup_2).
  assert (Htl : tail ∈ pub) by (apply Hsub; rewrite last_lookup in Ht; by eapply list_elem_of_lookup_2).
  assert (HF : Forall (fun p => p ∈ pub) ch) by (by apply Forall_forall). split; try done.
  - apply (links_ext h); [|done]. intros p Hp. by destruct (Hsame p) as (_ & _ & _ & ->); [apply Hsub|].
  - clear Hn Hh Ht Hset Hout. induction Hs as [|a l Hs IH Ha]; [constructor|]. apply Forall_cons in HF as [Hpa HF]. constructor.
    + apply IH; [|done]. intros p Hp. apply Hsub. by right.
    + rewrite Forall_forall in Ha, HF |- *. intros b Hb. destruct (Hsame a Hpa) as (_ & -> & _). destruct (Hsame b) as (_ & -> & _); auto.
  - intros p Hp. by destruct (Hsame p Hp).
  - intros p Hp Hne. destruct (Hup p Hp Hne) as [H1 H2]. destruct (Hsame p Hp) as (_ & -> & _ & ->). split; [done|].
    by destruct (Hsame _ H1) as (_ & -> & _).
  - intros p Hp Hnin. destruct (Hsame p Hp) as (_ & _ & -> & _). auto.
  - destruct (Hsame _ Hhd) as (_ & _ & -> & _), (Hsame _ Htl) as (_ & _ & -> & _). done.
  - intros x. rewrite Hset. split; intros (p & H1 & H2 & H3 & H4 & H5); exists p; destruct (Hsame p) as (_ & E1 & E2 & _); auto;
      rewrite E1, E2 in *; done.
Qed.

(** The sentinels and the two nodes of a pair are published. *)
Lemma shape_published h r ch pub K : shape head tail h r ch pub K -> head ∈ pub /\ tail ∈ pub.
Proof.
  intros Hs. split; apply (sh_sub _ _ _ _ _ _ _ Hs).
  - eapply list_elem_of_lookup_2. apply (sh_head _ _ _ _ _ _ _ Hs).
  - pose proof (sh_tail _ _ _ _ _ _ _ Hs) as Ht. rewrite last_lookup in Ht. by eapply list_elem_of_lookup_2.
Qed.

Lemma sorted_pair h l1 l2 prev curr : StronglySorted (fun p q => keyof h p < keyof h q) (l1 ++ prev :: curr :: l2) ->
  Forall (fun p => keyof h p <= keyof h prev) (l1 ++ [prev]) /\ Forall (fun p => keyof h curr <= keyof h p) (curr :: l2).
Proof.
  intros Hs. apply StronglySorted_app_inv in Hs as (_ & Hs2 & Hx). inversion_clear Hs2 as [|? ? Hs3 _]. inversion_clear Hs3 as [|? ? _ Hc].
  split.
  - apply Forall_app. split; [|by repeat constructor]. apply Forall_forall. intros p Hp. enough (keyof h p < keyof h prev) by lia.
    apply Hx; [done|by left].
  - constructor; [lia|]. rewrite Forall_forall in Hc |- *. intros p Hp. specialize (Hc p Hp). lia.
Qed.

(** Redirecting the link of [prev] leaves keys, marks and the domain alone. *)
Lemma relink_same h prev np q : h !! prev = Some np -> let h' := <[prev := set_lnext np q]> h in
  (forall p, keyof h' p = keyof h p) /\ (forall p, marked_node h' p = marked_node h p) /\
  (forall p, is_Some (h' !! p) <-> is_Some (h !! p)) /\ next_of h' prev = q /\ (forall p, p <> prev -> next_of h' p = next_of h p).
Proof.
  intros Hp h'. unfold h'. split_and!.
  - intros p. rewrite keyof_insert. case_decide; [|done]. subst. unfold keyof. by rewrite Hp.
  - intros p. rewrite marked_insert. case_decide; [|done]. subst. unfold marked_node. by rewrite Hp.
  - intros p. destruct (decide (p = prev)) as [->|]; [rewrite lookup_insert_eq, Hp; naive_solver|by rewrite lookup_insert_ne].
  - by rewrite next_insert, decide_True.
  - intros p Hne. by rewrite next_insert, decide_False.
Qed.

Lemma sorted_ext h h' l : (forall p, keyof h' p = keyof h p) -> StronglySorted (fun p q => keyof h p < keyof h q) l ->
  StronglySorted (fun p q => keyof h' p < keyof h' q) l.
Proof.
  intros He Hs. induction Hs as [|a l Hs IH Ha]; constructor; [done|]. eapply Forall_impl; [exact Ha|]. cbn. intros p. by rewrite !He.
Qed.

Lemma pair_tail h l1 l2 prev curr : StronglySorted (fun p q => keyof h p < keyof h q) (l1 ++ prev :: curr :: l2) ->
  last (l1 ++ prev :: curr :: l2) = Some tail -> prev <> tail.
Proof.
  intros Hs Ht ->. replace (l1 ++ tail :: curr :: l2) with ((l1 ++ [tail]) ++ curr :: l2) in Ht by (by rewrite <- app_assoc).
  rewrite last_app in Ht. destruct (last (curr :: l2)) as [z|] eqn:E; [|by apply last_None in E]. injection Ht as ->.
  apply sorted_NoDup, NoDup_app in Hs as (_ & _ & Hd). apply NoDup_cons in Hd as [Hd _]. apply Hd.
  rewrite last_lookup in E. by eapply list_elem_of_lookup_2.
Qed.

Lemma elem_between (l1 l2 : list Z) (a b c p : Z) : p ∈ l1 ++ a :: b :: c :: l2 <-> p = b \/ p ∈ l1 ++ a :: c :: l2.
Proof. rewrite !elem_of_app, !elem_of_cons. tauto. Qed.

(** A new node between two neighbours. *)
Lemma shape_insert h r l1 l2 prev curr n np nd pub K :
  shape head tail h r (l1 ++ prev :: curr :: l2) pub K -> h !! prev = Some np -> h !! n = Some nd ->
  n ∉ pub -> lmarked nd = false -> lnext nd = curr -> keyof h prev < lkey nd < keyof h curr ->
  shape head tail (<[prev := set_lnext np n]> h) r (l1 ++ prev :: n :: curr :: l2) ({[n]} ∪ pub) ({[lkey nd]} ∪ K).
Proof.
  intros Hshape Hp Hnd Hnew Hm Hx Hk. destruct (shape_published _ _ _ _ _ Hshape) as [Hhp Htp].
  destruct Hshape as [Hh Ht Hn Hs Hsub Hnode Hup Hout He Hnull Hr Hset].
  assert (Hpp : prev ∈ pub) by (apply Hsub; set_solver). assert (Hcp : curr ∈ pub) by (apply Hsub; set_solver).
  assert (Hne : n <> prev) by (by intros ->). assert (Hkey : keyof h n = lkey nd) by (unfold keyof; by rewrite Hnd).
  assert (Hmk : marked_node h n = false) by (unfold marked_node; by rewrite Hnd).
  assert (Hnn : next_of h n = curr) by (unfold next_of; by rewrite Hnd).
  destruct (relink_same h prev np n Hp) as (Ek & Em & Es & En & En'). set (h' := <[prev := set_lnext np n]> h) in *.
  assert (Hpt : prev <> tail) by (by eapply pair_tail).
  split.
  - by destruct l1.
  - rewrite last_app in Ht |- *. cbn in *. by destruct l2.
  - apply links_app in Hn as [Hn1 Hn2]. destruct Hn2 as [_ Hn2]. apply links_app. split.
    + apply (links_frame h); [|done]. intros p Hpin. apply En'. intros ->.
      pose proof (sorted_NoDup _ _ Hs) as Hd. apply NoDup_app in Hd as (_ & Hd & _). apply (Hd prev Hpin). by left.
    + split; [exact En|]. split; [by rewrite En' by done|]. apply (links_ext h); [|done]. intros p Hpin. apply En'. intros ->.
      pose proof (sorted_NoDup _ _ Hs) as Hd. apply NoDup_app in Hd as (_ & _ & Hd). by apply NoDup_cons in Hd as [Hd _].
  - apply (sorted_ext h); [done|]. destruct (sorted_pair _ _ _ _ _ Hs) as [H1 H2].
    replace (l1 ++ prev :: n :: curr :: l2) with ((l1 ++ [prev]) ++ n :: curr :: l2) by (by rewrite <- app_assoc).
    replace (l1 ++ prev :: curr :: l2) with ((l1 ++ [prev]) ++ curr :: l2) in Hs by (by rewrite <- app_assoc).
    apply StronglySorted_app_inv in Hs as (Hs1 & Hs2 & Hs3). rewrite Forall_forall in H1, H2.
    apply StronglySorted_app_intro; [done| |].
    + constructor; [done|]. apply Forall_forall. intros p Hpin. specialize (H2 p Hpin). lia.
    + intros p q Hpin [->|Hq]%elem_of_cons; [specialize (H1 p Hpin); lia|]. by apply Hs3.
  - intros p [->|Hpin]%elem_between; [set_solver|]. by apply elem_of_union_r, Hsub.
  - intros p [->%elem_of_singleton|Hpin]%elem_of_union; apply Es; eauto.
  - intros p [->%elem_of_singleton|Hpin]%elem_of_union Hpt'.
    + rewrite En', !Ek, Hnn by done. split; [set_solver|lia].
    + rewrite !Ek. destruct (decide (p = prev)) as [->|Hpe]; [rewrite En; split; [set_solver|lia]|].
      rewrite En' by done. destruct (Hup p Hpin Hpt') as [H1 H2]. split; [set_solver|]. exact H2.
  - intros p [->%elem_of_singleton|Hpin]%elem_of_union Hnin; [exfalso; apply Hnin, elem_between; by left|].
    rewrite Em. apply Hout; [done|]. intros Hin. apply Hnin, elem_between. by right.
  - by rewrite !Em.
  - split; [|apply Hnull]. destruct (h' !! 0) eqn:E; [|done].
    assert (is_Some (h !! 0)) as [? ?] by (apply Es; eauto). destruct Hnull as [? _]. congruence.
  - intros p Hps. apply Hr. by apply Es.
  - intros x. rewrite elem_of_union, elem_of_singleton, Hset. split.
    + intros [->|(p & H1 & H2)].
      * exists n. rewrite Em, Ek. split_and!; try done; [apply elem_between; by left|by intros ->|by intros ->].
      * exists p. rewrite Em, Ek. split; [apply elem_between; by right|done].
    + intros (p & H1 & H2 & H3 & H4 & H5). rewrite Em, Ek in *. apply elem_between in H1 as [->|H1]; [left; congruence|right].
      by exists p.
Qed.

(** A node becomes marked. *)
Lemma shape_mark h r ch pub K curr nc : shape head tail h r ch pub K -> h !! curr = Some nc -> curr ∈ ch ->
  curr <> head -> curr <> tail -> shape head tail (<[curr := set_mark nc]> h) r ch pub (K ∖ {[lkey nc]}).
Proof.
  intros [Hh Ht Hn Hs Hsub Hnode Hup Hout He Hnull Hr Hset] Hc Hin Hch Hct. set (h' := <[curr := set_mark nc]> h).
  assert (Ek : forall p, keyof h' p = keyof h p).
  { intros p. unfold h'. rewrite keyof_insert. case_decide; [|done]. subst. unfold keyof. by rewrite Hc. }
  assert (En : forall p, next_of h' p = next_of h p).
  { intros p. unfold h'. rewrite next_insert. case_decide; [|done]. subst. unfold next_of. by rewrite Hc. }
  assert (Em : forall p, p <> curr -> marked_node h' p = marked_node h p) by (intros p Hp; unfold h'; by rewrite marked_insert, decide_False).
  assert (Emc : marked_node h' curr = true) by (unfold h'; by rewrite marked_insert, decide_True).
  assert (Es : forall p, is_Some (h' !! p) <-> is_Some (h !! p)).
  { intros p. unfold h'. destruct (decide (p = curr)) as [->|]; [rewrite lookup_insert_eq, Hc; naive_solver|by rewrite lookup_insert_ne]. }
  assert (Hkc : keyof h curr = lkey nc) by (unfold keyof; by rewrite Hc). split; try done.
  - by apply (links_ext h).
  - by apply (sorted_ext h).
  - intros p Hp. apply Es. auto.
  - intros p Hp Hpt. rewrite En, !Ek. auto.
  - intros p Hp Hnin. rewrite Em by (by intros ->). auto.
  - by rewrite !Em by done.
  - split; [|apply Hnull]. unfold h'. rewrite lookup_insert_ne; [apply Hnull|]. intros ->. destruct Hnull as [? _]. congruence.
  - intros p Hps. by apply Hr, Es.
  - intros x. rewrite elem_of_difference, elem_of_singleton, Hset. split.
    + intros [(p & H1 & H2 & H3 & H4 & H5) Hx]. exists p. rewrite Ek, Em; [done|]. intros ->. congruence.
    + intros (p & H1 & H2 & H3 & H4 & H5). rewrite Ek in H5. assert (p <> curr) by (intros ->; congruence). rewrite Em in H4 by done.
      split; [by exists p|]. intros ->. assert (p = curr) by (apply (sorted_key h ch); [done|done|done|congruence]). done.
Qed.

(** A marked node leaves the list. *)
Lemma shape_unlink h r l1 l2 prev curr nx np pub K :
  shape head tail h r (l1 ++ prev :: curr :: nx :: l2) pub K -> h !! prev = Some np -> marked_node h curr = true ->
  shape head tail (<[prev := set_lnext np nx]> h) r (l1 ++ prev :: nx :: l2) pub K.
Proof.
  intros Hshape Hp Hm. destruct (shape_published _ _ _ _ _ Hshape) as [Hhp Htp].
  destruct Hshape as [Hh Ht Hn Hs Hsub Hnode Hup Hout He Hnull Hr Hset].
  assert (Hpp : prev ∈ pub) by (apply Hsub; set_solver).
  assert (Hnp : nx ∈ pub) by (apply Hsub, elem_of_app; right; right; right; left).
  destruct (relink_same h prev np nx Hp) as (Ek & Em & Es & En & En'). set (h' := <[prev := set_lnext np nx]> h) in *.
  assert (Hpt : prev <> tail) by (by eapply pair_tail). pose proof (sorted_NoDup _ _ Hs) as Hd. apply NoDup_app in Hd as (_ & Hd1 & Hd2).
  apply NoDup_cons in Hd2 as [Hd2 _]. assert (Hlt : keyof h prev < keyof h nx).
  { apply (sorted_lookup h _ (length l1) (length l1 + 2) prev nx Hs); [by rewrite lookup_app_r, Nat.sub_diag by lia| |lia].
    rewrite lookup_app_r by lia. by replace (length l1 + 2 - length l1)%nat with 2%nat by lia. }
  split.
  - by destruct l1.
  - rewrite last_app in Ht |- *. cbn in *. by destruct l2.
  - apply links_app in Hn as [Hn1 (_ & _ & Hn2)]. apply links_app. split.
    + apply (links_frame h); [|done]. intros p Hpin. apply En'. intros ->. apply (Hd1 prev Hpin). by left.
    + split; [exact En|]. apply (links_ext h); [|done]. intros p Hpin. apply En'. intros ->. apply Hd2. by right.
  - apply (sorted_ext h); [done|]. apply StronglySorted_app_inv in Hs as (Hs1 & Hs2 & Hs3). apply StronglySorted_app_intro; [done| |].
    + inversion_clear Hs2 as [|? ? Hs4 Ha]. inversion_clear Hs4 as [|? ? Hs5 _]. constructor; [done|]. by inversion_clear Ha.
    + intros p q Hpin Hq. apply Hs3; [done|]. apply elem_of_cons in Hq as [->|Hq]; [by left|]. by do 2 right.
  - intros p Hpin. apply Hsub, elem_between. by right.
  - intros p Hpin. apply Es. auto.
  - intros p Hpin Hpt'. rewrite !Ek. destruct (decide (p = prev)) as [->|]; [by rewrite En|]. rewrite En' by done. auto.
  - intros p Hpin Hnin. rewrite Em. destruct (decide (p = curr)) as [->|]; [done|]. apply Hout; [done|]. intros [->|Hin]%elem_between; done.
  - by rewrite !Em.
  - split; [|apply Hnull]. destruct (h' !! 0) eqn:E; [|done].
    assert (is_Some (h !! 0)) as [? ?] by (apply Es; eauto). destruct Hnull as [? _]. congruence.
  - intros p Hps. by apply Hr, Es.
  - intros x. rewrite Hset. split; intros (p & H1 & H2 & H3 & H4 & H5); exists p; rewrite ?Em, ?Ek in *.
    + apply elem_between in H1 as [->|H1]; [congruence|done].
    + split; [|done]. apply elem_between. by right.
Qed.
End changes.

#[local] Arguments status : simpl never.

(** ** Marks left for other threads *)

Lemma marks_status t l tr op x : status t tr = Some (Called op x) -> status t ((Mark <$> l) ++ tr) = Some (Called op x).
Proof.
  intros H. induction l as [|u l IH]; [done|]. cbn [fmap list_fmap app]. destruct (decide (u = t)) as [->|]; [by apply status_mark|].
  by rewrite status_other.
Qed.

Lemma marks_other t l tr : t ∉ l -> status t ((Mark <$> l) ++ tr) = status t tr.
Proof. induction l as [|u l IH]; intros H; [done|]. apply not_elem_of_cons in H as [H1 H2]. cbn [fmap list_fmap app]. rewrite status_other; [auto|cbn; congruence]. Qed.

Lemma marks_replay {A} (spec : A -> Z -> Z -> A * Z) a l tr : replay spec a ((Mark <$> l) ++ tr) = replay spec a tr.
Proof. by induction l. Qed.

Lemma marks_marked {A} (spec : A -> Z -> Z -> A * Z) a t b l tr : t ∈ l -> replay spec a tr = Some b ->
  marked spec a t b ((Mark <$> l) ++ tr).
Proof.
  intros Hin Hb. apply list_elem_of_split_l in Hin as (l1 & l2 & -> & Hnin). rewrite fmap_app, fmap_cons, <- app_assoc.
  exists (Mark <$> l1), ((Mark <$> l2) ++ tr). split; [done|]. split; [|by rewrite marks_replay].
  apply Forall_fmap, Forall_forall. intros u Hu. cbn. by intros ->.
Qed.

Lemma marks_keep {A} (spec : A -> Z -> Z -> A * Z) a t b l tr : t ∉ l -> marked spec a t b tr -> marked spec a t b ((Mark <$> l) ++ tr).
Proof.
  intros Hnin Hm. induction l as [|u l IH]; [done|]. apply not_elem_of_cons in Hnin as [H1 H2]. cbn [fmap list_fmap app].
  apply marked_step; [cbn; congruence|auto].
Qed.

Lemma elem_of_seekers pcs x t : t ∈ seekers pcs x <-> exists p c, pcs !! t = Some p /\ contains_of p = Some (x, c).
Proof.
  unfold seekers. rewrite list_elem_of_fmap. split.
  - intros ([u p] & -> & H). apply list_elem_of_filter in H as [H1 H2]. apply elem_of_map_to_list in H2. cbn in *.
    destruct (contains_of p) as [[y c]|] eqn:E; [|done]. injection H1 as ->. by exists p, c.
  - intros (p & c & H1 & H2). exists (t, p). split; [done|]. apply list_elem_of_filter. cbn. rewrite H2. split; [done|].
    by apply elem_of_map_to_list.
Qed.

(** ** What a thread knows *)

(** The locks a thread holds, and the node it has allocated and not linked yet. *)
Definition holds (p : lpc) : list Z :=
  match p with
  | SLock2 _ _ prev _ | SFail1 _ _ prev | Un1 prev _ => [prev]
  | SVal1 _ _ prev curr | SVal2 _ _ prev curr | SVal3 _ _ prev curr | SDec _ _ prev curr | SFail2 _ _ prev curr
  | ARead _ prev curr | ATmp _ prev curr _ | AInc _ prev curr _ _ | AKey _ prev curr _ | ANext _ prev curr _
  | AInit _ prev curr _ | ALink _ prev curr _ | RMark _ prev curr | RRead _ prev curr | RLink _ prev curr _
  | Un2 prev curr _ => [prev; curr]
  | _ => []
  end.
Definition new_node_of (p : lpc) : option Z :=
  match p with AKey _ _ _ n | ANext _ _ _ n | AInit _ _ _ n | ALink _ _ _ n => Some n | _ => None end.

Section invariant.
Context (head tail : Z) (K0 : gset Z) (hk tk : Z).

(** Where the search of a thread is. *)
Definition searching (h : gmap Z lnode) (pub : gset Z) (x prev curr : Z) : Prop :=
  key_ok head tail h x /\ prev ∈ pub /\ curr ∈ pub /\ keyof h prev < x /\ keyof h prev < keyof h curr.
Definition found (h : gmap Z lnode) (pub : gset Z) (x prev curr : Z) : Prop :=
  searching h pub x prev curr /\ x <= keyof h curr.
(** The two nodes are locked and neighbours in the list. *)
Definition valid_pair (h : gmap Z lnode) (prev curr : Z) : Prop :=
  marked_node h prev = false /\ marked_node h curr = false /\ next_of h prev = curr.

(** A [contains] that may answer 0 has left a mark where its key was absent; otherwise the node
    with the key is in the list and can be reached from where it is. *)
Definition seeking (h : gmap Z lnode) (ch : list Z) (tr : list event) (t x curr : Z) : Prop :=
  (exists b, marked set_spec K0 t b tr /\ x ∉ b) \/
  exists n, n ∈ ch /\ keyof h n = x /\ marked_node h n = false /\ reach h curr n.

Definition lz_local (h : gmap Z lnode) (region : Z) (ch : list Z) (pub : gset Z) (tr : list event) (t : Z) (p : lpc) : Prop :=
  match p with
  | LIdle => status t tr = Some Out
  | CKey x curr | CNext x curr | CEq x curr | CChk x curr =>
      status t tr = Some (Called CONTAINS_OP x) /\ key_ok head tail h x /\ curr ∈ pub /\ seeking h ch tr t x curr /\
      match p with CNext _ _ => keyof h curr < x | CEq _ _ => x <= keyof h curr | CChk _ _ => keyof h curr = x | _ => True end
  | SStart op x | SFail1 op x _ =>
      status t tr = Some (Called op x) /\ key_ok head tail h x /\ (op = ADD_OP \/ op = REMOVE_OP)
  | SKey op x prev curr | SNext op x prev curr =>
      status t tr = Some (Called op x) /\ (op = ADD_OP \/ op = REMOVE_OP) /\ searching h pub x prev curr /\
      match p with SNext _ _ _ _ => keyof h curr < x | _ => True end
  | SLock1 op x prev curr | SLock2 op x prev curr | SVal1 op x prev curr | SVal2 op x prev curr | SVal3 op x prev curr
  | SDec op x prev curr | SFail2 op x prev curr =>
      status t tr = Some (Called op x) /\ (op = ADD_OP \/ op = REMOVE_OP) /\ found h pub x prev curr /\
      match p with
      | SVal2 _ _ _ _ => marked_node h prev = false
      | SVal3 _ _ _ _ => marked_node h prev = false /\ marked_node h curr = false
      | SDec _ _ _ _ => valid_pair h prev curr
      | _ => True
      end
  | ARead x prev curr | ATmp x prev curr _ | AInc x prev curr _ _ | AKey x prev curr _ | ANext x prev curr _
  | AInit x prev curr _ | ALink x prev curr _ =>
      status t tr = Some (Called ADD_OP x) /\ found h pub x prev curr /\ keyof h curr <> x /\ valid_pair h prev curr /\
      match p with
      | ATmp _ _ _ n => n = region
      | AInc _ _ _ n tmp => n = region /\ tmp = region
      | AKey _ _ _ n => n < region /\ n ∉ pub /\ h !! n = None /\ 0 < n
      | ANext _ _ _ n => n < region /\ n ∉ pub /\ exists nd, h !! n = Some nd /\ lkey nd = x /\ lmarked nd = false /\ llock nd = None
      | AInit _ _ _ n | ALink _ _ _ n =>
          n < region /\ n ∉ pub /\ exists nd, h !! n = Some nd /\ lkey nd = x /\ lmarked nd = false /\ llock nd = None /\ lnext nd = curr
      | _ => True
      end
  | RMark x prev curr =>
      status t tr = Some (Called REMOVE_OP x) /\ found h pub x prev curr /\ keyof h curr = x /\ valid_pair h prev curr
  | RRead x prev curr | RLink x prev curr _ =>
      status t tr = Some (Answered 1) /\ found h pub x prev curr /\ keyof h curr = x /\ marked_node h prev = false /\
      marked_node h curr = true /\ next_of h prev = curr /\
      match p with RLink _ _ _ nx => next_of h curr = nx | _ => True end
  | Un2 prev curr r => status t tr = Some (Answered r) /\ prev <> curr
  | Un1 _ r | LRet r => status t tr = Some (Answered r)
  end.

Record linv (st : lz) (ch : list Z) (pub K : gset Z) : Prop := {
  li_shape : shape head tail (lz_heap st) (lz_region st) ch pub K;
  li_replay : replay set_spec K0 (lz_trace st) = Some K;
  li_local t p : lz_pcs st !! t = Some p -> lz_local (lz_heap st) (lz_region st) ch pub (lz_trace st) t p;
  li_locks t p a : lz_pcs st !! t = Some p -> a ∈ holds p -> a ∈ pub /\ owner (lz_heap st) a = Some t;
  li_new t t' p p' n : lz_pcs st !! t = Some p -> lz_pcs st !! t' = Some p' ->
    new_node_of p = Some n -> new_node_of p' = Some n -> t = t';
  li_alloc t t' p p' : lz_pcs st !! t = Some p -> lz_pcs st !! t' = Some p' -> allocating p = true -> allocating p' = true -> t = t';
  li_status t : is_Some (status t (lz_trace st));
  li_keys : keyof (lz_heap st) head = hk /\ keyof (lz_heap st) tail = tk;
}.

Lemma lz_local_status h r ch pub tr t p : lz_local h r ch pub tr t p -> is_Some (status t tr).
Proof. destruct p; cbn; intros H; try (apply proj1 in H); eauto. Qed.

(** What a thread knows stays true while the others go on. *)
Lemma lz_local_mono h h' r r' ch ch' pub pub' tr tr' t p :
  lz_local h r ch pub tr t p -> (allocating p = true -> r' = r) -> head ∈ pub -> tail ∈ pub -> pub ⊆ pub' ->
  (forall q, q ∈ pub -> keyof h' q = keyof h q) -> (forall a, a ∈ holds p -> h' !! a = h !! a) ->
  (forall n, new_node_of p = Some n -> h' !! n = h !! n /\ n ∉ pub') -> r <= r' -> status t tr' = status t tr ->
  (forall x curr, contains_of p = Some (x, curr) -> curr ∈ pub -> status t tr = Some (Called CONTAINS_OP x) ->
     seeking h ch tr t x curr -> seeking h' ch' tr' t x curr) ->
  lz_local h' r' ch' pub' tr' t p.
Proof.
  intros Hl Ha Hh Ht Hsub Hkey Hheld Hnew Hr Hst Hseek.
  assert (Hok : forall x, key_ok head tail h x -> key_ok head tail h' x) by (intros x; unfold key_ok; by rewrite !Hkey).
  assert (Hsr : forall x prev curr, searching h pub x prev curr -> searching h' pub' x prev curr).
  { intros x prev curr (H1 & H2 & H3 & H4). unfold searching. rewrite !Hkey by done. split_and!; auto; by apply Hsub || apply H4. }
  assert (Hf : forall x prev curr, found h pub x prev curr -> found h' pub' x prev curr).
  { intros x prev curr [H1 H2]. split; [auto|]. destruct H1 as (_ & _ & H1 & _). by rewrite Hkey. }
  assert (Hm : forall a, a ∈ holds p -> marked_node h' a = marked_node h a /\ next_of h' a = next_of h a)
    by (intros a Hin; unfold marked_node, next_of; by rewrite Hheld).
  assert (Hv : forall prev curr, prev ∈ holds p -> curr ∈ holds p -> valid_pair h prev curr -> valid_pair h' prev curr).
  { intros prev curr H1 H2. unfold valid_pair. destruct (Hm _ H1) as [-> ->], (Hm _ H2) as [-> _]. done. }
  assert (Hc : forall x prev curr, found h pub x prev curr -> keyof h' curr = keyof h curr)
    by (intros x prev curr ((_ & _ & H & _) & _); auto).
  destruct p; try done; cbn [lz_local allocating holds new_node_of contains_of] in *; rewrite ?Hst; try done.
  all: try (destruct Hl as (H1 & H2 & H3 & H4 & H5); split_and!; eauto; rewrite ?Hkey by done; done).
  all: try (destruct Hl as (H1 & H2 & H3); by auto).
  all: try (destruct Hl as (H1 & H2 & H3 & H4); split_and!; auto; fail).
  - destruct Hl as (H1 & H2 & H3 & H4). pose proof H3 as (_ & _ & H5 & _). rewrite Hkey by done. split_and!; auto.
  - destruct Hl as (H1 & H2 & H3 & H4). destruct (Hm prev) as [-> _]; [left|]. split_and!; auto.
  - destruct Hl as (H1 & H2 & H3 & H4 & H5). destruct (Hm prev) as [-> _]; [left|]. destruct (Hm curr) as [-> _]; [right; left|]. split_and!; auto.
  - destruct Hl as (H1 & H2 & H3 & H4). split_and!; auto. apply Hv; [left|right; left|done].
  - destruct Hl as (H1 & H2 & H3 & H4 & _). rewrite (Hc _ _ _ H2). split_and!; auto. apply Hv; [left|right; left|done].
  - destruct Hl as (H1 & H2 & H3 & H4 & ->). rewrite (Hc _ _ _ H2), (Ha eq_refl). split_and!; auto. apply Hv; [left|right; left|done].
  - destruct Hl as (H1 & H2 & H3 & H4 & -> & ->). rewrite (Hc _ _ _ H2), (Ha eq_refl). split_and!; auto. apply Hv; [left|right; left|done].
  - destruct Hl as (H1 & H2 & H3 & H4 & H5 & H6 & H7). destruct (Hnew n) as [-> ?]; [done|]. rewrite (Hc _ _ _ H2). split_and!; auto; try lia; [apply Hv; [left|right; left|done]|apply H7..].
  - destruct Hl as (H1 & H2 & H3 & H4 & H5 & H6 & H7). destruct (Hnew n) as [-> ?]; [done|]. rewrite (Hc _ _ _ H2). split_and!; auto; try lia. apply Hv; [left|right; left|done].
  - destruct Hl as (H1 & H2 & H3 & H4 & H5 & H6 & H7). destruct (Hnew n) as [-> ?]; [done|]. rewrite (Hc _ _ _ H2). split_and!; auto; try lia. apply Hv; [left|right; left|done].
  - destruct Hl as (H1 & H2 & H3 & H4 & H5 & H6 & H7). destruct (Hnew n) as [-> ?]; [done|]. rewrite (Hc _ _ _ H2). split_and!; auto; try lia. apply Hv; [left|right; left|done].
  - destruct Hl as (H1 & H2 & H3 & H4). rewrite (Hc _ _ _ H2). split_and!; auto. apply Hv; [left|right; left|done].
  - destruct Hl as (H1 & H2 & H3 & H4 & H5 & H6 & H7). rewrite (Hc _ _ _ H2). destruct (Hm prev) as [-> ->]; [left|]. destruct (Hm curr) as [-> _]; [right; left|].
    split_and!; auto.
  - destruct Hl as (H1 & H2 & H3 & H4 & H5 & H6 & H7). rewrite (Hc _ _ _ H2). destruct (Hm prev) as [-> ->]; [left|]. destruct (Hm curr) as [-> ->]; [right; left|].
    split_and!; auto.
Qed.

(** A step of [t] from [p] to [p']. *)
Lemma linv_update st st' ch ch' pub pub' K K' t p p' :
  linv st ch pub K -> calm st t -> lz_pcs st !! t = Some p -> lz_pcs st' = <[t := p']> (lz_pcs st) ->
  shape head tail (lz_heap st') (lz_region st') ch' pub' K' -> replay set_spec K0 (lz_trace st') = Some K' ->
  pub ⊆ pub' -> lz_region st <= lz_region st' ->
  (forall q, q ∈ pub -> keyof (lz_heap st') q = keyof (lz_heap st) q) ->
  (forall a t', t' <> t -> owner (lz_heap st) a = Some t' -> lz_heap st' !! a = lz_heap st !! a) ->
  (forall t' q n, t' <> t -> lz_pcs st !! t' = Some q -> new_node_of q = Some n -> lz_heap st' !! n = lz_heap st !! n /\ n ∉ pub') ->
  (forall t', t' <> t -> status t' (lz_trace st') = status t' (lz_trace st)) ->
  (forall t' q x curr, t' <> t -> lz_pcs st !! t' = Some q -> contains_of q = Some (x, curr) -> curr ∈ pub ->
     status t' (lz_trace st) = Some (Called CONTAINS_OP x) ->
     seeking (lz_heap st) ch (lz_trace st) t' x curr -> seeking (lz_heap st') ch' (lz_trace st') t' x curr) ->
  lz_local (lz_heap st') (lz_region st') ch' pub' (lz_trace st') t p' ->
  (forall a, a ∈ holds p' -> a ∈ pub' /\ owner (lz_heap st') a = Some t) ->
  (forall n, new_node_of p' = Some n -> new_node_of p = Some n \/ lz_region st <= n) ->
  (allocating p' = true -> allocating p = true \/ enters p = true) -> (lz_region st' = lz_region st \/ allocating p = true) ->
  linv st' ch' pub' K'.
Proof.
  intros [Ish Irep Iloc Ilk Inew Ial Ist Ikeys] Hcalm Hp Hpcs Hsh Hrep Hsub Hreg Hkey Hlk Hnw Hst Hsk Hloc Hh Hn Hal Hrs.
  destruct (shape_published _ _ _ _ _ _ _ Ish) as [Hhp Htp].
  assert (Hbound : forall t' q n, lz_pcs st !! t' = Some q -> new_node_of q = Some n -> n < lz_region st).
  { intros t' q n Hq Ho. specialize (Iloc t' q Hq). destruct q; try done; injection Ho as ->; destruct Iloc as (_ & _ & _ & _ & ? & _); done. }
  assert (Hpc : forall t' q, lz_pcs st' !! t' = Some q -> t' = t /\ q = p' \/ t' <> t /\ lz_pcs st !! t' = Some q).
  { intros t' q. rewrite Hpcs. destruct (decide (t' = t)) as [->|]; [rewrite lookup_insert_eq|rewrite lookup_insert_ne by done]; naive_solver. }
  split; try done.
  - intros t' q [[-> ->]|[Hne Hq]]%Hpc; [done|]. eapply lz_local_mono; [by apply Iloc| |done|done|done|done| | |done|by apply Hst|].
    + intros E. destruct Hrs as [Hrs|Hrs]; [done|]. by destruct Hne; apply (Ial t' t q p).
    + intros a Ha. eapply Hlk; [done|]. by apply (Ilk t' q).
    + intros n Ho. by apply (Hnw t' q).
    + intros x curr Ho Hc Hs. by apply (Hsk t' q).
  - intros t' q a [[-> ->]|[Hne Hq]]%Hpc Ha; [auto|]. unfold owner. rewrite (Hlk a t' Hne); [|by apply (Ilk t' q)].
    destruct (Ilk t' q a Hq Ha). auto.
  - intros t1 t2 p1 p2 n [[-> ->]|[N1 H1]]%Hpc [[-> ->]|[N2 H2]]%Hpc O1 O2; [done| | |by apply (Inew t1 t2 p1 p2 n)].
    + destruct (Hn n O1) as [O|O]; [by apply (Inew t t2 p p2 n)|]. pose proof (Hbound t2 p2 n H2 O2). lia.
    + destruct (Hn n O2) as [O|O]; [by apply (Inew t1 t p1 p n)|]. pose proof (Hbound t1 p1 n H1 O1). lia.
  - assert (Hone : forall t' q, t' <> t -> lz_pcs st !! t' = Some q -> allocating q = true -> allocating p' = true -> False).
    { intros t' q Hne Hq Hb [Ha|Ha]%Hal; [by apply Hne, (Ial t' t q p)|]. by rewrite (Hcalm p Hp Ha t' q Hq) in Hb. }
    intros t1 t2 p1 p2 [[-> ->]|[N1 H1]]%Hpc [[-> ->]|[N2 H2]]%Hpc A1 A2; [done|by destruct (Hone t2 p2)|by destruct (Hone t1 p1)|by apply (Ial t1 t2 p1 p2)].
  - intros t'. destruct (decide (t' = t)) as [->|Hne]; [by eapply lz_local_status|]. rewrite Hst by done. apply Ist.
  - by rewrite !Hkey by done.
Qed.

Lemma new_private st ch pub K t q n : linv st ch pub K -> lz_pcs st !! t = Some q -> new_node_of q = Some n -> n ∉ pub /\ n < lz_region st.
Proof.
  intros Hi Hq Ho. pose proof (li_local _ _ _ _ Hi t q Hq) as Hl.
  destruct q; try done; injection Ho as ->; by destruct Hl as (_ & _ & _ & _ & ? & ? & _).
Qed.

(** A step that moves the program counter. *)
Lemma linv_goto st ch pub K t p p' : linv st ch pub K -> calm st t -> lz_pcs st !! t = Some p ->
  lz_local (lz_heap st) (lz_region st) ch pub (lz_trace st) t p' ->
  (forall a, a ∈ holds p' -> a ∈ holds p) -> new_node_of p' = None -> (allocating p' = true -> allocating p = true \/ enters p = true) -> linv (lz_goto st t p') ch pub K.
Proof.
  intros Hi Hc Hp Hl Hh Hn Hal. pose proof Hi as [Ish Irep Iloc Ilk Inew _ Ist].
  apply (linv_update st _ ch ch pub pub K K t p p'); try done; cbn.
  - intros t' q n Hne Hq Ho. split; [done|]. by eapply new_private.
  - intros a Ha. by apply (Ilk t p), Hh.
  - intros n. by rewrite Hn.
  - by left.
Qed.

Lemma seeking_step h ch tr t x curr e : ev_thread e <> t -> seeking h ch tr t x curr -> seeking h ch (e :: tr) t x curr.
Proof. intros He [(b & H1 & H2)|H]; [left|by right]. exists b. split; [by apply marked_step|done]. Qed.

(** The same with an event of [t]. *)
Lemma linv_event st ch pub K K' t p p' e : linv st ch pub K -> calm st t -> lz_pcs st !! t = Some p -> ev_thread e = t ->
  replay set_spec K0 (e :: lz_trace st) = Some K' -> K' = K ->
  lz_local (lz_heap st) (lz_region st) ch pub (e :: lz_trace st) t p' ->
  (forall a, a ∈ holds p' -> a ∈ holds p) -> new_node_of p' = None -> allocating p' = false -> linv (lz_goto (lz_record st [e]) t p') ch pub K.
Proof.
  intros Hi Hc Hp He Hr -> Hl Hh Hn Hal. pose proof Hi as [Ish Irep Iloc Ilk Inew _ Ist].
  apply (linv_update st _ ch ch pub pub K K t p p'); try done; cbn.
  - intros t' q n Hne Hq Ho. split; [done|]. by eapply new_private.
  - intros t' Hne. apply status_other. congruence.
  - intros t' q x curr Hne Hq Ho _ _. apply seeking_step. congruence.
  - intros a Ha. by apply (Ilk t p), Hh.
  - intros n. by rewrite Hn.
  - by rewrite Hal.
  - by left.
Qed.

(** A write to [a] that leaves key, mark and link alone if the node is published. *)
Lemma linv_put st ch pub K t p p' a nd' : linv st ch pub K -> calm st t -> lz_pcs st !! t = Some p ->
  0 < a < lz_region st -> (a ∈ pub -> exists nd, lz_heap st !! a = Some nd /\ lkey nd' = lkey nd /\ lmarked nd' = lmarked nd /\ lnext nd' = lnext nd) ->
  (forall t', owner (lz_heap st) a = Some t' -> t' = t) ->
  (forall t' q, lz_pcs st !! t' = Some q -> new_node_of q = Some a -> t' = t) ->
  lz_local (<[a := nd']> (lz_heap st)) (lz_region st) ch pub (lz_trace st) t p' ->
  (forall b, b ∈ holds p' -> b ∈ pub /\ owner (<[a := nd']> (lz_heap st)) b = Some t) ->
  (forall n, new_node_of p' = Some n -> new_node_of p = Some n) -> allocating p' = false ->
  linv (lz_goto (lz_put st a nd') t p') ch pub K.
Proof.
  intros Hi Hc Hp Ha Hsame Hown Hnw Hl Hh Hn Hal. pose proof Hi as [Ish Irep Iloc Ilk Inew _ Ist].
  assert (Hpub : forall q, q ∈ pub -> is_Some (<[a := nd']> (lz_heap st) !! q) /\ keyof (<[a := nd']> (lz_heap st)) q = keyof (lz_heap st) q /\
    marked_node (<[a := nd']> (lz_heap st)) q = marked_node (lz_heap st) q /\ next_of (<[a := nd']> (lz_heap st)) q = next_of (lz_heap st) q).
  { intros q Hq. rewrite keyof_insert, marked_insert, next_insert. split; [by apply some_insert, (sh_node _ _ _ _ _ _ _ Ish)|].
    destruct (decide (q = a)) as [->|]; [|done]. destruct (Hsame Hq) as (nd & E & H1 & H2 & H3). unfold keyof, marked_node, next_of. by rewrite E. }
  apply (linv_update st _ ch ch pub pub K K t p p'); try done; cbn.
  - apply (shape_ext _ _ (lz_heap st) _ (lz_region st)); [done|done| | |].
    + intros q Hq. destruct (decide (q = a)) as [->|]; [lia|]. rewrite lookup_insert_ne in Hq by done. by apply (sh_region _ _ _ _ _ _ _ Ish).
    + rewrite lookup_insert_ne by lia. apply (sh_null _ _ _ _ _ _ _ Ish).
    + lia.
  - intros q Hq. by apply Hpub.
  - intros b t' Hne Ho. apply lookup_insert_ne. intros ->. by apply Hne, Hown.
  - intros t' q n Hne Hq Ho. split; [|by eapply new_private]. apply lookup_insert_ne. intros ->. by apply Hne, (Hnw t' q).
  - intros t' q x curr Hne Hq Ho Hcp _ [H|(n & H1 & H2 & H3 & H4)]; [by left|right]. exists n.
    assert (Hnp : n ∈ pub) by (by apply (sh_sub _ _ _ _ _ _ _ Ish)). destruct (Hpub n Hnp) as (_ & -> & -> & _). split_and!; try done.
    eapply reach_pub; [done| |done|done|done]. intros b Hb. by destruct (Hpub b Hb) as (? & ? & _ & ?).
  - intros n Hm. left. auto.
  - by rewrite Hal.
  - by left.
Qed.

(** Published nodes are not the new node of a thread. *)
Lemma pub_range st ch pub K a : linv st ch pub K -> a ∈ pub ->
  0 < a < lz_region st /\ forall t q, lz_pcs st !! t = Some q -> new_node_of q <> Some a.
Proof.
  intros Hi Ha. pose proof (li_shape _ _ _ _ Hi) as Hs. split.
  - by apply (sh_region _ _ _ _ _ _ _ Hs), (sh_node _ _ _ _ _ _ _ Hs).
  - intros t q Hq Ho. by destruct (new_private _ _ _ _ _ _ _ Hi Hq Ho).
Qed.

(** Taking and releasing a lock: [a] is free, or held by [t]. *)
Lemma linv_lock st ch pub K t p p' a nd o : linv st ch pub K -> calm st t -> lz_pcs st !! t = Some p ->
  a ∈ pub -> lz_heap st !! a = Some nd -> llock nd = None \/ llock nd = Some t ->
  lz_local (lz_heap st) (lz_region st) ch pub (lz_trace st) t p' -> allocating p' = false -> new_node_of p' = None ->
  contains_of p' = None ->
  (forall b, b ∈ holds p' -> b = a /\ o = Some t \/ b <> a /\ b ∈ holds p) ->
  linv (lz_goto (lz_put st a (set_lock nd o)) t p') ch pub K.
Proof.
  intros Hi Hc Hp Ha Hnd Hfree Hl Hal Hn Hco Hh. pose proof Hi as [Ish Irep Iloc Ilk Inew _ Ist].
  destruct (pub_range _ _ _ _ _ Hi Ha) as [Hr Hnw]. destruct (shape_published _ _ _ _ _ _ _ Ish) as [Hhp Htp].
  assert (Hm : forall q, keyof (<[a := set_lock nd o]> (lz_heap st)) q = keyof (lz_heap st) q /\
    marked_node (<[a := set_lock nd o]> (lz_heap st)) q = marked_node (lz_heap st) q /\
    next_of (<[a := set_lock nd o]> (lz_heap st)) q = next_of (lz_heap st) q).
  { intros q. rewrite keyof_insert, marked_insert, next_insert. case_decide; [|done]. subst. unfold keyof, marked_node, next_of. by rewrite Hnd. }
  assert (Hk : forall q, keyof (<[a := set_lock nd o]> (lz_heap st)) q = keyof (lz_heap st) q) by (intros q; by destruct (Hm q)).
  assert (Hk2 : forall q, marked_node (<[a := set_lock nd o]> (lz_heap st)) q = marked_node (lz_heap st) q) by (intros q; by destruct (Hm q) as (_ & ? & _)).
  assert (Hk3 : forall q, next_of (<[a := set_lock nd o]> (lz_heap st)) q = next_of (lz_heap st) q) by (intros q; by destruct (Hm q) as (_ & _ & ?)).
  apply (linv_put st ch pub K t p p' a (set_lock nd o)); try done.
  - intros _. by exists nd.
  - intros t' Ho. unfold owner in Ho. rewrite Hnd in Ho. cbn in Ho. destruct Hfree; congruence.
  - intros t' q Hq Ho. by destruct (Hnw t' q Hq).
  - destruct p'; try done; cbn [lz_local] in *; unfold found, searching, valid_pair, key_ok in *; rewrite ?Hk, ?Hk2, ?Hk3; done.
  - intros b Hb. rewrite owner_insert. destruct (Hh b Hb) as [[-> ->]|[Hne Hb']]; [by rewrite decide_True|]. rewrite decide_False by done.
    by apply (Ilk t p).
  - intros n. by rewrite Hn.
Qed.

(** Keys of a pair of neighbours. *)
Lemma pair_absent h r l1 l2 prev curr pub K x : shape head tail h r (l1 ++ prev :: curr :: l2) pub K ->
  keyof h prev < x < keyof h curr -> x ∉ K.
Proof.
  intros Hs Hx Hin. apply (sh_set _ _ _ _ _ _ _ Hs) in Hin as (p & Hp & _ & _ & _ & Hk).
  destruct (sorted_pair _ _ _ _ _ (sh_sorted _ _ _ _ _ _ _ Hs)) as [H1 H2]. rewrite Forall_forall in H1, H2.
  replace (l1 ++ prev :: curr :: l2) with ((l1 ++ [prev]) ++ curr :: l2) in Hp by (by rewrite <- app_assoc).
  apply elem_of_app in Hp as [Hp|Hp]; [specialize (H1 p Hp)|specialize (H2 p Hp)]; lia.
Qed.

Lemma unmarked_present h r ch pub K p x : shape head tail h r ch pub K -> key_ok head tail h x ->
  p ∈ pub -> marked_node h p = false -> keyof h p = x -> x ∈ K /\ p ∈ ch /\ p <> head /\ p <> tail.
Proof.
  intros Hs Hk Hp Hm Hx. assert (Hin : p ∈ ch).
  { destruct (decide (p ∈ ch)); [done|]. by rewrite (sh_out _ _ _ _ _ _ _ Hs p) in Hm. }
  assert (p <> head /\ p <> tail) by (unfold key_ok in Hk; split; intros ->; lia). split; [|done].
  apply (sh_set _ _ _ _ _ _ _ Hs). destruct H. by exists p.
Qed.

Lemma pair_in st ch pub K x prev curr : linv st ch pub K -> found (lz_heap st) pub x prev curr ->
  marked_node (lz_heap st) prev = false -> next_of (lz_heap st) prev = curr -> exists l1 l2, ch = l1 ++ prev :: curr :: l2.
Proof.
  intros Hi ((Hk & Hp & Hc & Hx & _) & _) Hm Hn. eapply shape_pair; [by apply (li_shape _ _ _ _ Hi)|done|done|done|].
  unfold key_ok in Hk. lia.
Qed.

Lemma linv_link st ch pub K t x prev curr n np : linv st ch pub K -> calm st t -> lz_pcs st !! t = Some (ALink x prev curr n) ->
  lz_heap st !! prev = Some np ->
  exists ch', linv (lz_goto (lz_record (lz_put st prev (set_lnext np n)) [Lin t ADD_OP x 1]) t (Un2 prev curr 1)) ch' ({[n]} ∪ pub) ({[x]} ∪ K).
Proof.
  intros Hi Hc Hp Hnp. pose proof Hi as [Ish Irep Iloc Ilk Inew _ Ist].
  destruct (Iloc t _ Hp) as (Hst & Hf & Hne & (Hm1 & Hm2 & Hnx) & Hnr & Hnew & nd & Hnd & Hk & Hmk & _ & Hln).
  destruct (pair_in _ _ _ _ _ _ _ Hi Hf Hm1 Hnx) as (l1 & l2 & ->). pose proof Hf as ((Hok & Hpp & Hcp & Hx1 & Hx2) & Hx3).
  assert (Hnprev : n <> prev) by (by intros ->). assert (Hlp : lnext np = curr) by (unfold next_of in Hnx; by rewrite Hnp in Hnx).
  destruct (relink_same (lz_heap st) prev np n Hnp) as (Ek & Em & Es & En & En').
  assert (Hins := shape_insert head tail (lz_heap st) (lz_region st) l1 l2 prev curr n np nd pub K Ish Hnp Hnd Hnew Hmk Hln ltac:(lia)).
  rewrite Hk in Hins. assert (Hown : owner (lz_heap st) prev = Some t) by (apply (Ilk t _ _ Hp); left).
  exists (l1 ++ prev :: n :: curr :: l2). eapply (linv_update st); [exact Hi|exact Hc|exact Hp|reflexivity|exact Hins|..]; cbn.
  - rewrite Irep. cbn. unfold set_spec. cbn. rewrite (decide_False (P := x ∈ K)); [done|]. apply (pair_absent _ _ _ _ _ _ _ _ _ Ish). lia.
  - set_solver.
  - lia.
  - intros q _. apply Ek.
  - intros a t' Hne' Ho. apply lookup_insert_ne. intros ->. congruence.
  - intros t' q m Hne' Hq Ho. destruct (new_private _ _ _ _ _ _ _ Hi Hq Ho) as [Hmp _]. split.
    + apply lookup_insert_ne. by intros ->.
    + apply not_elem_of_union. split; [|done]. apply not_elem_of_singleton. intros ->. apply Hne'. by eapply (Inew t' t q).
  - intros t' Hne'. apply status_other. cbn. congruence.
  - intros t' q y c Hne' Hq Ho Hcp' _ [(b & H1 & H2)|(m & H1 & H2 & H3 & H4)]; [left|right].
    + exists b. split; [|done]. apply marked_step; [cbn; congruence|done].
    + exists m. rewrite Ek, Em. split; [apply elem_between; by right|]. split; [done|]. split; [done|].
      apply (reach_link _ _ curr); [done|done|by exists nd|unfold next_of; by rewrite Hnd| |done]. assert (keyof (lz_heap st) n = x) as -> by (unfold keyof; by rewrite Hnd). lia.
  - split; [by apply status_lin|]. intros ->. lia.
  - intros a Ha. destruct (Ilk t _ a Hp Ha) as [Hap Hao]. split; [set_solver|]. rewrite owner_insert. case_decide; [|done]. subst. cbn. unfold owner in Hown. by rewrite Hnp in Hown.
  - done.
  - done.
  - by left.
Qed.

Lemma linv_mark st ch pub K t x prev curr nc : linv st ch pub K -> calm st t -> lz_pcs st !! t = Some (RMark x prev curr) ->
  lz_heap st !! curr = Some nc ->
  linv (lz_goto (lz_record (lz_put st curr (set_mark nc)) ((Mark <$> seekers (lz_pcs st) x) ++ [Lin t REMOVE_OP x 1])) t (RRead x prev curr))
       ch pub (K ∖ {[x]}).
Proof.
  intros Hi Hc Hp Hnc. pose proof Hi as [Ish Irep Iloc Ilk Inew _ Ist].
  destruct (Iloc t _ Hp) as (Hst & Hf & Hk & (Hm1 & Hm2 & Hnx)). pose proof Hf as ((Hok & Hpp & Hcp & Hx1 & Hx2) & Hx3).
  destruct (unmarked_present _ _ _ _ _ _ _ Ish Hok Hcp Hm2 Hk) as (HxK & Hcin & Hch & Hct).
  assert (Hkn : lkey nc = x) by (unfold keyof in Hk; by rewrite Hnc in Hk).
  assert (Hsm := shape_mark head tail (lz_heap st) (lz_region st) ch pub K curr nc Ish Hnc Hcin Hch Hct). rewrite Hkn in Hsm.
  set (h' := <[curr := set_mark nc]> (lz_heap st)) in *.
  assert (Ek : forall p, keyof h' p = keyof (lz_heap st) p).
  { intros p. unfold h'. rewrite keyof_insert. case_decide; [|done]. subst p. cbn. lia. }
  assert (En : forall p, next_of h' p = next_of (lz_heap st) p).
  { intros p. unfold h'. rewrite next_insert. case_decide; [|done]. subst p. unfold next_of. by rewrite Hnc. }
  assert (Em : forall p, p <> curr -> marked_node h' p = marked_node (lz_heap st) p) by (intros p Hpc; unfold h'; by rewrite marked_insert, decide_False).
  assert (Hown : owner (lz_heap st) curr = Some t) by (apply (Ilk t _ _ Hp); right; left).
  assert (Hts : t ∉ seekers (lz_pcs st) x) by (intros (q & c & Hq & Ho)%elem_of_seekers; rewrite Hp in Hq; injection Hq as <-; done).
  assert (Hrep : replay set_spec K0 (Lin t REMOVE_OP x 1 :: lz_trace st) = Some (K ∖ {[x]})).
  { cbn. rewrite Irep. cbn. unfold set_spec. cbn. by rewrite (decide_True (P := x ∈ K)) by done. }
  eapply (linv_update st); [exact Hi|exact Hc|exact Hp|reflexivity|exact Hsm|..]; cbn; rewrite <- ?app_assoc; cbn [app]; fold h'.
  - by rewrite marks_replay.
  - done.
  - lia.
  - intros q _. apply Ek.
  - intros a t' Hne' Ho. apply lookup_insert_ne. intros ->. congruence.
  - intros t' q m Hne' Hq Ho. destruct (new_private _ _ _ _ _ _ _ Hi Hq Ho) as [Hmp _]. split; [|done].
    apply lookup_insert_ne. by intros ->.
  - intros t' Hne'. destruct (decide (t' ∈ seekers (lz_pcs st) x)) as [Hin|Hin].
    + apply elem_of_seekers in Hin as (q & c & Hq & Ho). pose proof (Iloc t' q Hq) as Hl.
      assert (Hs' : status t' (lz_trace st) = Some (Called CONTAINS_OP x)) by (destruct q; try done; injection Ho as -> ->; by destruct Hl).
      rewrite Hs'. apply marks_status. by rewrite status_other.
    + rewrite marks_other by done. apply status_other. cbn. congruence.
  - intros t' q y c Hne' Hq Ho Hcp' Hs' Hsk. destruct (decide (y = x)) as [->|Hyx].
    + left. exists (K ∖ {[x]}). split; [|set_solver]. apply marks_marked; [apply elem_of_seekers; by exists q, c|done].
    + assert (Hnin : t' ∉ seekers (lz_pcs st) x) by (intros (q' & c' & Hq' & Ho')%elem_of_seekers; congruence).
      destruct Hsk as [(b & H1 & H2)|(m & H1 & H2 & H3 & H4)]; [left|right].
      * exists b. split; [|done]. apply marks_keep; [done|]. apply marked_step; [cbn; congruence|done].
      * exists m. rewrite Ek, Em by (intros ->; congruence). split_and!; try done. eapply reach_pub; [exact Ish| |done| |done].
        -- intros a Ha. split; [|split; [apply Ek|apply En]]. apply some_insert. by apply (sh_node _ _ _ _ _ _ _ Ish).
        -- done.
  - split; [rewrite marks_other by done; by apply status_lin|]. unfold found, searching, key_ok. rewrite !Ek, En.
    split_and!; try done; try apply Hok; [|unfold h'; by rewrite marked_insert, decide_True].
    rewrite Em; [done|]. intros ->. lia.
  - intros a Ha. destruct (Ilk t _ a Hp Ha) as [Hap Hao]. split; [done|]. unfold h'. rewrite owner_insert. case_decide; [|done]. subst a. cbn. unfold owner in Hown. by rewrite Hnc in Hown.
  - done.
  - done.
  - by left.
Qed.

Lemma linv_unlink st ch pub K t x prev curr nx np : linv st ch pub K -> calm st t -> lz_pcs st !! t = Some (RLink x prev curr nx) ->
  lz_heap st !! prev = Some np ->
  exists ch', linv (lz_goto (lz_put st prev (set_lnext np nx)) t (Un2 prev curr 1)) ch' pub K.
Proof.
  intros Hi Hc Hp Hnp. pose proof Hi as [Ish Irep Iloc Ilk Inew _ Ist].
  destruct (Iloc t _ Hp) as (Hst & Hf & Hk & Hm1 & Hm2 & Hpn & Hnx). pose proof Hf as ((Hok & Hpp & Hcp & Hx1 & Hx2) & Hx3).
  destruct (pair_in _ _ _ _ _ _ _ Hi Hf Hm1 Hpn) as (l1 & l2 & ->).
  destruct l2 as [|y l2].
  { pose proof (sh_tail _ _ _ _ _ _ _ Ish) as Ht. rewrite last_app in Ht. injection Ht as Ht. rewrite <- Ht in Hok. unfold key_ok in Hok. lia. }
  assert (y = nx) as ->.
  { pose proof (sh_next _ _ _ _ _ _ _ Ish) as Hl. apply links_app in Hl as [_ (_ & Hl & _)]. congruence. }
  destruct (relink_same (lz_heap st) prev np nx Hnp) as (Ek & Em & Es & En & En').
  assert (Hown : owner (lz_heap st) prev = Some t) by (apply (Ilk t _ _ Hp); left).
  assert (Hlp : lnext np = curr) by (unfold next_of in Hpn; by rewrite Hnp in Hpn).
  exists (l1 ++ prev :: nx :: l2).
  eapply (linv_update st); [exact Hi|exact Hc|exact Hp|reflexivity|by apply (shape_unlink _ _ _ _ _ _ _ curr)|..]; cbn; try done.
  - intros a t' Hne' Ho. apply lookup_insert_ne. intros ->. congruence.
  - intros t' q m Hne' Hq Ho. destruct (new_private _ _ _ _ _ _ _ Hi Hq Ho) as [Hmp _]. split; [|done]. apply lookup_insert_ne. by intros ->.
  - intros t' q y c Hne' Hq Ho Hcp' _ [H|(m & H1 & H2 & H3 & H4)]; [by left|right]. assert (Hmc : m <> curr) by (intros ->; congruence).
    exists m. rewrite Ek, Em. apply elem_between in H1 as [->|H1]; [done|]. split_and!; try done.
    apply (reach_unlink _ _ curr); [done|done|by apply (sh_node _ _ _ _ _ _ _ Ish)|done| |done|done]. intros ->. lia.
  - split; [done|]. intros ->. lia.
  - intros a Ha. destruct (Ilk t _ a Hp Ha) as [Hap Hao]. split; [done|]. rewrite owner_insert. case_decide; [|done]. subst. cbn. unfold owner in Hown. by rewrite Hnp in Hown.
  - by left.
Qed.

(** A write to the new node of [t]. *)
Lemma linv_private st ch pub K t x prev curr n p p' nd' : linv st ch pub K -> calm st t -> lz_pcs st !! t = Some p ->
  new_node_of p = Some n -> new_node_of p' = Some n -> 0 < n -> holds p = [prev; curr] -> holds p' = [prev; curr] ->
  prev ∈ pub -> curr ∈ pub -> (forall t', from_option llock None (lz_heap st !! n) <> Some t') ->
  (lz_local (lz_heap st) (lz_region st) ch pub (lz_trace st) t (ARead x prev curr) ->
   lz_local (<[n := nd']> (lz_heap st)) (lz_region st) ch pub (lz_trace st) t p') ->
  lz_local (lz_heap st) (lz_region st) ch pub (lz_trace st) t (ARead x prev curr) ->
  linv (lz_goto (lz_put st n nd') t p') ch pub K.
Proof.
  intros Hi Hc Hp Ho Ho' Hn0 Hh Hh' Hpp Hcp Hfree Hl Hl0. pose proof Hi as [Ish Irep Iloc Ilk Inew _ Ist].
  destruct (new_private _ _ _ _ _ _ _ Hi Hp Ho) as [Hnp Hnr].
  apply (linv_put st ch pub K t p p' n nd'); try done; [intros t' Hw|intros t' q Hq Hoq; by eapply (Inew t' t)|auto| | |by destruct p'].
  - exfalso. apply (Hfree t'). unfold owner in Hw. destruct (lz_heap st !! n); done.
  - intros b Hb. rewrite Hh', <- Hh in Hb. destruct (Ilk t p b Hp Hb) as [Hbp Hbo]. split; [done|].
    rewrite owner_insert, decide_False; [done|]. by intros ->.
  - intros m Hm. congruence.
Qed.

(** The answer 0 of a [contains] takes effect at its mark. *)
Lemma linv_confirm st ch pub K t p x b : linv st ch pub K -> calm st t -> lz_pcs st !! t = Some p ->
  status t (lz_trace st) = Some (Called CONTAINS_OP x) -> marked set_spec K0 t b (lz_trace st) -> x ∉ b ->
  linv (lz_goto (lz_set_trace st (confirm t CONTAINS_OP x 0 (lz_trace st))) t (LRet 0)) ch pub K.
Proof.
  intros Hi Hc Hp Hs Hm Hx. pose proof Hi as [Ish Irep Iloc Ilk Inew _ Ist].
  assert (Hspec : set_spec b CONTAINS_OP x = (b, 0)) by (unfold set_spec; cbn; by rewrite (decide_False (P := x ∈ b))).
  destruct (confirm_ok set_spec K0 t CONTAINS_OP x 0 b (lz_trace st) Hm Hspec Hs) as (C1 & C2 & C3).
  apply (linv_update st _ ch ch pub pub K K t p (LRet 0)); try done; cbn.
  - by rewrite C2.
  - intros t' q n Hne Hq Ho. split; [done|]. by eapply new_private.
  - intros t' q y c Hne Hq Ho _ _ [(b' & H1 & H2)|H]; [left|by right]. exists b'. split; [|done].
    by apply (marked_confirm _ _ t' t b' b).
  - intros a Ha. by apply elem_of_nil in Ha.
  - by left.
Qed.

(** The knowledge about the two nodes does not depend on the new one. *)
Lemma aread_insert h r ch pub tr t x prev curr n nd' : n ∉ pub -> head ∈ pub -> tail ∈ pub -> prev ∈ pub -> curr ∈ pub ->
  lz_local h r ch pub tr t (ARead x prev curr) -> lz_local (<[n := nd']> h) r ch pub tr t (ARead x prev curr).
Proof.
  intros Hn Hh Ht Hp Hc. assert (Hne : forall q, q ∈ pub -> q <> n) by (by intros q Hq ->).
  cbn. unfold found, searching, valid_pair, key_ok. rewrite !keyof_insert, !marked_insert, next_insert, !decide_False by auto. done.
Qed.

(** The steps of [contains]. *)
Lemma linv_contains sz re st ch pub K t st' p x curr : linv st ch pub K -> calm st t -> lz_pcs st !! t = Some p ->
  contains_of p = Some (x, curr) -> lz_step head sz re st t = Ok st' -> linv st' ch pub K.
Proof.
  intros Hi Hc Hp Ho. pose proof Hi as [Ish Irep Iloc Ilk Inew _ Ist]. specialize (Iloc t p Hp).
  assert (Hl : status t (lz_trace st) = Some (Called CONTAINS_OP x) /\ key_ok head tail (lz_heap st) x /\ curr ∈ pub /\
    seeking (lz_heap st) ch (lz_trace st) t x curr) by (destruct p; try done; injection Ho as -> ->; by destruct Iloc as (? & ? & ? & ? & _)).
  destruct Hl as (Hst & Hok & Hcp & Hsk). destruct (sh_node _ _ _ _ _ _ _ Ish curr Hcp) as [nd Hnd].
  assert (Hkey : keyof (lz_heap st) curr = lkey nd) by (unfold keyof; by rewrite Hnd).
  assert (Hreach : forall n, n ∈ ch -> keyof (lz_heap st) n = x -> reach (lz_heap st) curr n -> curr = n \/ lkey nd < x).
  { intros n Hn Hkn Hr. destruct (reach_key _ _ _ Hr) as [?|?]; [by left|right; lia]. }
  unfold lz_step. rewrite Hp. cbn [of_opt mbind result_bind].
  destruct p; try done; injection Ho as -> ->; cbn [lz_local] in Iloc; rewrite Hnd; cbn [of_opt mbind result_bind].
  - intros [= <-]. apply (linv_goto st ch pub K t (CKey x curr)); try done; destruct (Z.ltb_spec (lkey nd) x); try done; cbn;
      rewrite Hkey; split_and!; try done; lia.
  - intros [= <-]. destruct Iloc as (_ & _ & _ & _ & Hlt).
    assert (Hct : curr <> tail) by (unfold key_ok in Hok; intros ->; lia).
    destruct (sh_up _ _ _ _ _ _ _ Ish curr Hcp Hct) as [Hnp _]. assert (Hn : next_of (lz_heap st) curr = lnext nd) by (unfold next_of; by rewrite Hnd).
    rewrite Hn in Hnp. apply (linv_goto st ch pub K t (CNext x curr)); try done. cbn. split_and!; try done.
    destruct Hsk as [H|(n & H1 & H2 & H3 & H4)]; [by left|right]. exists n. split_and!; try done.
    inversion H4 as [|? z ? (_ & Hz & _) Hr]; subst; [lia|]. by rewrite Hn in Hr.
  - destruct Iloc as (_ & _ & _ & _ & Hge). destruct (Z.eqb_spec (lkey nd) x) as [E|E]; intros [= <-].
    + apply (linv_goto st ch pub K t (CEq x curr)); try done. cbn. rewrite Hkey. by split_and!.
    + destruct Hsk as [(b & H1 & H2)|(n & H1 & H2 & H3 & H4)]; [by eapply linv_confirm|]. exfalso.
      destruct (Hreach n H1 H2 H4) as [->|?]; lia.
  - destruct Iloc as (_ & _ & _ & _ & Heq). assert (Hm : marked_node (lz_heap st) curr = lmarked nd) by (unfold marked_node; by rewrite Hnd).
    destruct (lmarked nd) eqn:Emk; intros [= <-].
    + destruct Hsk as [(b & H1 & H2)|(n & H1 & H2 & H3 & H4)]; [by eapply linv_confirm|]. exfalso.
      destruct (Hreach n H1 H2 H4) as [->|?]; [congruence|lia].
    + destruct (unmarked_present _ _ _ _ _ _ _ Ish Hok Hcp Hm Heq) as (HxK & _).
      apply (linv_event st ch pub K K t (CChk x curr)); try done; [|by apply status_lin].
      cbn. rewrite Irep. cbn. unfold set_spec. cbn. by rewrite (decide_True (P := x ∈ K)).
Qed.

Lemma owned_lock h a t nd : owner h a = Some t -> h !! a = Some nd -> llock nd = Some t.
Proof. unfold owner. intros Ho Hn. by rewrite Hn in Ho. Qed.

(** The search and the locks. *)
Lemma linv_search sz re st ch pub K t st' op x prev curr p : linv st ch pub K -> calm st t -> lz_pcs st !! t = Some p ->
  p = SKey op x prev curr \/ p = SNext op x prev curr \/ p = SLock1 op x prev curr \/ p = SLock2 op x prev curr \/
  p = SVal1 op x prev curr \/ p = SVal2 op x prev curr \/ p = SVal3 op x prev curr \/ p = SFail2 op x prev curr ->
  lz_step head sz re st t = Ok st' -> linv st' ch pub K.
Proof.
  intros Hi Hc Hp Hcase. pose proof Hi as [Ish Irep Iloc Ilk Inew _ Ist]. pose proof (Iloc t p Hp) as Hl.
  assert (Hs : status t (lz_trace st) = Some (Called op x) /\ (op = ADD_OP \/ op = REMOVE_OP) /\ searching (lz_heap st) pub x prev curr)
    by (destruct Hcase as [->|[->|[->|[->|[->|[->|[->| ->]]]]]]]; cbn in Hl; unfold found in Hl; naive_solver).
  destruct Hs as (Hst & Hop & Hsr). pose proof Hsr as (Hok & Hpp & Hcp & Hx1 & Hx2).
  destruct (sh_node _ _ _ _ _ _ _ Ish prev Hpp) as [np Hnp]. destruct (sh_node _ _ _ _ _ _ _ Ish curr Hcp) as [nc Hnc].
  assert (Hkc : keyof (lz_heap st) curr = lkey nc) by (unfold keyof; by rewrite Hnc).
  assert (Hmp : marked_node (lz_heap st) prev = lmarked np /\ next_of (lz_heap st) prev = lnext np) by (unfold marked_node, next_of; by rewrite Hnp).
  assert (Hmc : marked_node (lz_heap st) curr = lmarked nc /\ next_of (lz_heap st) curr = lnext nc) by (unfold marked_node, next_of; by rewrite Hnc).
  destruct Hmp as [Hmp Hnxp], Hmc as [Hmc Hnxc]. assert (Hpc : prev <> curr) by (intros ->; lia).
  unfold lz_step, lock_step, unlock_step. rewrite Hp. cbn [of_opt mbind result_bind].
  destruct Hcase as [->|[->|[->|[->|[->|[->|[->| ->]]]]]]]; cbn [lz_local] in Hl; rewrite ?Hnp, ?Hnc; cbn [of_opt mbind result_bind].
  - intros [= <-]. apply (linv_goto st ch pub K t (SKey op x prev curr)); try done; destruct (Z.ltb_spec (lkey nc) x); try done; cbn; unfold found; rewrite ?Hkc;
      split_and!; try done; lia.
  - intros [= <-]. destruct Hl as (_ & _ & _ & Hlt). assert (Hct : curr <> tail) by (unfold key_ok in Hok; intros ->; lia).
    destruct (sh_up _ _ _ _ _ _ _ Ish curr Hcp Hct) as [Hnp' Hk']. rewrite Hnxc in *.
    apply (linv_goto st ch pub K t (SNext op x prev curr)); done.
  - destruct (llock np) eqn:El; [done|]. intros [= <-]. apply (linv_lock st ch pub K t (SLock1 op x prev curr)); try done; [by left|].
    intros b ->%list_elem_of_singleton. by left.
  - destruct (llock nc) eqn:El; [done|]. intros [= <-]. apply (linv_lock st ch pub K t (SLock2 op x prev curr)); try done; [by left|].
    intros b [->|Hb]%elem_of_cons; [right; split; [done|left]|left]. by apply list_elem_of_singleton in Hb as ->.
  - intros [= <-]. apply (linv_goto st ch pub K t (SVal1 op x prev curr)); try done; destruct (lmarked np) eqn:E; try done; cbn; by destruct Hl as (_ & _ & ? & _).
  - intros [= <-]. apply (linv_goto st ch pub K t (SVal2 op x prev curr)); try done; destruct (lmarked nc) eqn:E; try done; cbn; by destruct Hl as (_ & _ & ? & ?).
  - intros [= <-]. apply (linv_goto st ch pub K t (SVal3 op x prev curr)); try done; destruct (Z.eqb_spec (lnext np) curr); try done; cbn;
      destruct Hl as (_ & _ & ? & ? & ?); unfold valid_pair; rewrite ?Hnxp; by split_and!.
  - intros [= <-]. apply (linv_lock st ch pub K t (SFail2 op x prev curr)); try done.
    + right. eapply owned_lock; [|exact Hnc]. apply (Ilk t _ _ Hp). right. left.
    + intros b ->%list_elem_of_singleton. right. split; [done|left].
Qed.

(** The end of [allocate_region]. *)
Lemma linv_inc st ch pub K t x prev curr sz : linv st ch pub K -> calm st t -> 0 < sz ->
  lz_pcs st !! t = Some (AInc x prev curr (lz_region st) (lz_region st)) ->
  linv (lz_goto (lz_set_region st (lz_region st + sz)) t (AKey x prev curr (lz_region st))) ch pub K.
Proof.
  intros Hi Hc Hsz Hp. pose proof Hi as [Ish Irep Iloc Ilk Inew _ Ist]. destruct (Iloc t _ Hp) as (Hst & Hf & Hne & Hv & _).
  destruct (sh_null _ _ _ _ _ _ _ Ish) as [H0 Hr0].
  assert (Hnone : lz_heap st !! lz_region st = None).
  { destruct (lz_heap st !! lz_region st) eqn:E; [|done]. pose proof (sh_region _ _ _ _ _ _ _ Ish (lz_region st) ltac:(eauto)). lia. }
  eapply (linv_update st); [exact Hi|exact Hc|exact Hp|reflexivity|..]; cbn; try done.
  - apply (shape_ext _ _ (lz_heap st) _ (lz_region st)); [done| | |done|lia].
    + intros p Hpp. split; [by apply (sh_node _ _ _ _ _ _ _ Ish)|done].
    + intros p Hpp. pose proof (sh_region _ _ _ _ _ _ _ Ish p Hpp). lia.
  - lia.
  - intros t' q n Hne' Hq Ho. split; [done|]. by eapply new_private.
  - split_and!; try done; [lia|]. intros Hin. destruct (sh_node _ _ _ _ _ _ _ Ish _ Hin). congruence.
  - intros a Ha. by apply (Ilk t _ a Hp).
  - intros n [= <-]. right. lia.
  - by right.
Qed.

(** A new node is allocated and written. *)
Definition adding (p : lpc) : bool :=
  match p with ARead _ _ _ | ATmp _ _ _ _ | AInc _ _ _ _ _ | AKey _ _ _ _ | ANext _ _ _ _ | AInit _ _ _ _ => true | _ => false end.

Lemma linv_add sz re st ch pub K t st' p : linv st ch pub K -> calm st t -> 0 < sz -> lz_pcs st !! t = Some p -> adding p = true ->
  lz_step head sz re st t = Ok st' -> linv st' ch pub K.
Proof.
  intros Hi Hc Hsz Hp Had Hstep. pose proof Hi as [Ish Irep Iloc Ilk Inew _ Ist]. unfold lz_step in Hstep. rewrite Hp in Hstep.
  cbn [of_opt mbind result_bind] in Hstep. pose proof (Iloc t p Hp) as Hl. destruct (shape_published _ _ _ _ _ _ _ Ish) as [Hhp Htp].
  destruct p; try done; cbn [lz_local] in Hl.
  - destruct (_ <? _); [|done]. injection Hstep as <-. apply (linv_goto st ch pub K t (ARead x prev curr)); try done; [|by right].
    cbn. destruct Hl as (? & ? & ? & ? & _). by split_and!.
  - injection Hstep as <-. apply (linv_goto st ch pub K t (ATmp x prev curr n)); try done; [|by left].
    cbn. destruct Hl as (? & ? & ? & ? & ->). by split_and!.
  - injection Hstep as <-. destruct Hl as (Hst & Hf & Hne & Hv & -> & ->). by apply linv_inc.
  - injection Hstep as <-. destruct Hl as (Hst & Hf & Hne & Hv & H1 & H2 & H3 & H4). pose proof Hf as ((Hok & Hpp & Hcp & _) & _).
    rewrite H3. cbn [default]. assert (Ha : lz_local (lz_heap st) (lz_region st) ch pub (lz_trace st) t (ARead x prev curr)) by (by split_and!).
    apply (linv_private st ch pub K t x prev curr n (AKey x prev curr n)); try done; [by rewrite H3|]. intros _.
    destruct (aread_insert _ _ _ _ _ _ _ _ _ n (set_lkey zero_node x) H2 Hhp Htp Hpp Hcp Ha) as (? & ? & ? & ? & _).
    cbn. split_and!; try done. rewrite lookup_insert_eq. eauto.
  - destruct Hl as (Hst & Hf & Hne & Hv & H1 & H2 & nd & Hnd & E1 & E2 & E3). pose proof Hf as ((Hok & Hpp & Hcp & _) & _).
    rewrite Hnd in Hstep. injection Hstep as <-. pose proof (sh_region _ _ _ _ _ _ _ Ish n ltac:(eauto)) as Hn0.
    assert (Ha : lz_local (lz_heap st) (lz_region st) ch pub (lz_trace st) t (ARead x prev curr)) by (by split_and!).
    apply (linv_private st ch pub K t x prev curr n (ANext x prev curr n)); try done; [lia|by rewrite Hnd; cbn; rewrite E3|]. intros _.
    destruct (aread_insert _ _ _ _ _ _ _ _ _ n (set_lnext nd curr) H2 Hhp Htp Hpp Hcp Ha) as (? & ? & ? & ? & _).
    cbn. split_and!; try done. rewrite lookup_insert_eq. eauto 10.
  - destruct Hl as (Hst & Hf & Hne & Hv & H1 & H2 & nd & Hnd & E1 & E2 & E3 & E4). pose proof Hf as ((Hok & Hpp & Hcp & _) & _).
    rewrite Hnd in Hstep. injection Hstep as <-. pose proof (sh_region _ _ _ _ _ _ _ Ish n ltac:(eauto)) as Hn0.
    assert (Ha : lz_local (lz_heap st) (lz_region st) ch pub (lz_trace st) t (ARead x prev curr)) by (by split_and!).
    apply (linv_private st ch pub K t x prev curr n (AInit x prev curr n)); try done; [lia|by rewrite Hnd; cbn; rewrite E3|]. intros _.
    destruct (aread_insert _ _ _ _ _ _ _ _ _ n (set_lock nd None) H2 Hhp Htp Hpp Hcp Ha) as (? & ? & ? & ? & _).
    cbn. split_and!; try done. rewrite lookup_insert_eq. eauto 10.
Qed.

(** The other steps. *)
Lemma linv_step sz re st ch pub K t st' : linv st ch pub K -> calm st t -> 0 < sz -> lz_step head sz re st t = Ok st' ->
  exists ch' pub' K', linv st' ch' pub' K'.
Proof.
  intros Hi Hc Hsz. pose proof Hi as [Ish Irep Iloc Ilk Inew _ Ist]. intros Hstep. pose proof Hstep as Hstep'. unfold lz_step in Hstep.
  destruct (lz_pcs st !! t) as [p|] eqn:Hp; [|done]. cbn [of_opt mbind result_bind] in Hstep. pose proof (Iloc t p Hp) as Hl.
  destruct (shape_published _ _ _ _ _ _ _ Ish) as [Hhp Htp].
  destruct p; cbn [lz_local] in Hl; unfold unlock_step in Hstep; try done.
  all: try (exists ch, pub, K; by eapply linv_contains).
  all: try (exists ch, pub, K; by eapply linv_add).
  all: try (exists ch, pub, K; eapply linv_search; [done|done|done| |done]; tauto).
  - destruct (sh_node _ _ _ _ _ _ _ Ish head Hhp) as [nd Hnd]. rewrite Hnd in Hstep. injection Hstep as <-. exists ch, pub, K.
    destruct Hl as (Hst & Hok & Hop). assert (Hht : head <> tail) by (unfold key_ok in Hok; intros ->; lia).
    destruct (sh_up _ _ _ _ _ _ _ Ish head Hhp Hht) as [H1 H2]. unfold next_of in H1, H2. rewrite Hnd in H1, H2. cbn in H1, H2.
    apply (linv_goto st ch pub K t (SStart op x)); try done. cbn. unfold searching. split_and!; try done; apply Hok.
  - destruct Hl as (Hst & Hop & Hf & Hv). pose proof Hf as ((Hok & Hpp & Hcp & Hx1 & Hx2) & Hx3).
    destruct (sh_node _ _ _ _ _ _ _ Ish curr Hcp) as [nc Hnc]. rewrite Hnc in Hstep. cbn [of_opt mbind result_bind] in Hstep.
    assert (Hkc : keyof (lz_heap st) curr = lkey nc) by (unfold keyof; by rewrite Hnc). exists ch, pub, K.
    pose proof Hv as (Hm1 & Hm2 & Hnx). destruct (pair_in _ _ _ _ _ _ _ Hi Hf Hm1 Hnx) as (l1 & l2 & Hch).
    destruct (Z.eqb_spec (lkey nc) x) as [E|E].
    + destruct (unmarked_present _ _ _ _ _ _ x Ish Hok Hcp Hm2 ltac:(lia)) as (HxK & _).
      destruct Hop as [-> | ->]; cbn in Hstep; injection Hstep as <-.
      * apply (linv_event st ch pub K K t (SDec ADD_OP x prev curr)); try done; [|split; [by apply status_lin|intros ->; lia]].
        cbn. rewrite Irep. cbn. unfold set_spec. cbn. by rewrite (decide_True (P := x ∈ K)).
      * apply (linv_goto st ch pub K t (SDec REMOVE_OP x prev curr)); try done. cbn. split_and!; try done. lia.
    + assert (HxK : x ∉ K) by (subst ch; apply (pair_absent _ _ _ _ _ _ _ _ _ Ish); lia).
      destruct Hop as [-> | ->]; cbn in Hstep; injection Hstep as <-.
      * apply (linv_goto st ch pub K t (SDec ADD_OP x prev curr)); try done. cbn. split_and!; try done. lia.
      * apply (linv_event st ch pub K K t (SDec REMOVE_OP x prev curr)); try done; [|split; [by apply status_lin|intros ->; lia]].
        cbn. rewrite Irep. cbn. unfold set_spec. cbn. by rewrite (decide_False (P := x ∈ K)).
  - destruct Hl as (Hst & Hok & Hop). destruct (Ilk t _ prev Hp) as [Hpp Ho]; [left|]. destruct (sh_node _ _ _ _ _ _ _ Ish prev Hpp) as [np Hnp].
    rewrite Hnp in Hstep. injection Hstep as <-. exists ch, pub, K. apply (linv_lock st ch pub K t (SFail1 op x prev)); try done.
    + right. by eapply owned_lock.
    + intros b Hb. by apply elem_of_nil in Hb.
  - destruct Hl as (Hst & Hf & _). pose proof Hf as ((Hok & Hpp & Hcp & _) & _). destruct (sh_node _ _ _ _ _ _ _ Ish prev Hpp) as [np Hnp].
    rewrite Hnp in Hstep. injection Hstep as <-. destruct (linv_link _ _ _ _ _ _ _ _ _ _ Hi Hc Hp Hnp) as [ch' H]. eauto.
  - destruct Hl as (Hst & Hf & _). pose proof Hf as ((Hok & Hpp & Hcp & _) & _). destruct (sh_node _ _ _ _ _ _ _ Ish curr Hcp) as [nc Hnc].
    rewrite Hnc in Hstep. injection Hstep as <-. pose proof (linv_mark _ _ _ _ _ _ _ _ _ Hi Hc Hp Hnc). eauto.
  - destruct Hl as (Hst & Hf & Hk & Hm1 & Hm2 & Hn & _). pose proof Hf as ((Hok & Hpp & Hcp & _) & _). destruct (sh_node _ _ _ _ _ _ _ Ish curr Hcp) as [nc Hnc].
    rewrite Hnc in Hstep. injection Hstep as <-. exists ch, pub, K. apply (linv_goto st ch pub K t (RRead x prev curr)); try done.
    cbn. split_and!; try done. unfold next_of. by rewrite Hnc.
  - destruct Hl as (Hst & Hf & _). pose proof Hf as ((Hok & Hpp & Hcp & _) & _). destruct (sh_node _ _ _ _ _ _ _ Ish prev Hpp) as [np Hnp].
    rewrite Hnp in Hstep. injection Hstep as <-. destruct (linv_unlink _ _ _ _ _ _ _ _ _ _ Hi Hc Hp Hnp) as [ch' H]. eauto.
  - destruct Hl as [Hst Hpc]. destruct (Ilk t _ curr Hp) as [Hcp Ho]; [right; left|]. destruct (sh_node _ _ _ _ _ _ _ Ish curr Hcp) as [nc Hnc].
    rewrite Hnc in Hstep. injection Hstep as <-. exists ch, pub, K. apply (linv_lock st ch pub K t (Un2 prev curr r)); try done.
    + right. by eapply owned_lock.
    + intros b ->%list_elem_of_singleton. right. split; [done|left].
  - destruct (Ilk t _ prev Hp) as [Hpp Ho]; [left|]. destruct (sh_node _ _ _ _ _ _ _ Ish prev Hpp) as [np Hnp].
    rewrite Hnp in Hstep. injection Hstep as <-. exists ch, pub, K. apply (linv_lock st ch pub K t (Un1 prev r)); try done.
    + right. by eapply owned_lock.
    + intros b Hb. by apply elem_of_nil in Hb.
  - injection Hstep as <-. exists ch, pub, K. apply (linv_event st ch pub K K t (LRet r)); try done. by apply status_ret.
Qed.

Lemma linv_invoke st ch pub K t op x : linv st ch pub K -> lz_pcs st !! t = Some LIdle ->
  op = CONTAINS_OP \/ op = ADD_OP \/ op = REMOVE_OP -> hk < x < tk -> linv (lz_invoke head st t op x) ch pub K.
Proof.
  intros Hi Hp Hop Hx. assert (Hc : calm st t) by (intros q Hq; rewrite Hp in Hq; by injection Hq as <-). pose proof Hi as [Ish Irep Iloc Ilk Inew _ Ist [Ikh Ikt]].
  pose proof (status_inv t _ op x (Iloc t _ Hp)) as Hst. destruct (shape_published _ _ _ _ _ _ _ Ish) as [Hhp Htp].
  assert (Hok : key_ok head tail (lz_heap st) x) by (unfold key_ok; lia). unfold lz_invoke. destruct Hop as [->|Hop].
  - cbn. apply (linv_update st _ ch ch pub pub K K t LIdle (CKey x head)); try done; cbn.
    + intros t' q n Hne Hq Ho. split; [done|]. by eapply new_private.
    + intros t' Hne. by rewrite !status_other by (cbn; congruence).
    + intros t' q y c Hne Hq Ho _ _ H. by apply seeking_step, seeking_step; [cbn; congruence|cbn; congruence|].
    + split; [by apply status_mark|]. split; [done|]. split; [done|]. split; [|done]. destruct (decide (x ∈ K)) as [Hin|Hin]; [right|left].
      * apply (sh_set _ _ _ _ _ _ _ Ish) in Hin as (n & H1 & _ & _ & H2 & H3). exists n. split_and!; try done. by eapply reach_chain.
      * exists K. split; [|done]. by apply marked_new.
    + intros a Ha. by apply elem_of_nil in Ha.
    + by left.
  - assert (op =? CONTAINS_OP = false) as -> by (destruct Hop as [-> | ->]; done).
    apply (linv_event st ch pub K K t LIdle); try done.
Qed.

(** The list that the threads start with: unmarked nodes between the sentinels, no call open. *)
Definition lz_initial (st : lz) : Prop :=
  (exists ch, shape head tail (lz_heap st) (lz_region st) ch (list_to_set ch) K0) /\
  (forall t p, lz_pcs st !! t = Some p -> p = LIdle) /\ lz_trace st = [] /\
  keyof (lz_heap st) head = hk /\ keyof (lz_heap st) tail = tk.

Lemma linv_reachable sz re st0 st : lz_initial st0 -> 0 < sz ->
  rtc (lz_next head sz re (fun x => hk < x < tk) true) st0 st -> exists ch pub K, linv st ch pub K.
Proof.
  intros ((ch & Hsh) & Hidle & Htr & Hk) Hsz Hr. assert (H0 : exists ch pub K, linv st0 ch pub K).
  { exists ch, (list_to_set ch), K0. split; rewrite ?Htr; try done.
    - intros t p ->%Hidle. done.
    - intros t p a ->%Hidle Ha. by apply elem_of_nil in Ha.
    - intros t t' p p' n ->%Hidle _ ?. done.
    - intros t t' p p' ->%Hidle _ ?. done. }
  clear Hidle Htr Hk ch Hsh. induction Hr as [|st0 st1 st2 Hstep _ IH]; [done|]. apply IH. destruct H0 as (ch & pub & K & Hi).
  destruct Hstep as [st0 t op x Hp Hop Hx|st0 st1 t Hs Hc].
  - exists ch, pub, K. by apply linv_invoke.
  - by eapply linv_step; eauto.
Qed.

(** A thread inside a call waits for a lock or makes a step, unless the region is used up. *)
Lemma linv_progress sz re st ch pub K t p : linv st ch pub K -> lz_pcs st !! t = Some p -> lz_step head sz re st t = UB ->
  exists x prev curr, p = ARead x prev curr /\ re <= lz_region st + sz.
Proof.
  intros Hi Hp. pose proof Hi as [Ish _ Iloc Ilk _ _ _ _]. specialize (Iloc t p Hp).
  destruct (shape_published _ _ _ _ _ _ _ Ish) as [Hhp Htp].
  assert (Hn : forall a, a ∈ pub -> exists nd, lz_heap st !! a = Some nd) by (intros a Ha; by destruct (sh_node _ _ _ _ _ _ _ Ish a Ha); eauto).
  assert (Hheld : forall a, a ∈ holds p -> exists nd, lz_heap st !! a = Some nd) by (intros a Ha; by apply Hn, (Ilk t p)).
  unfold lz_step, lock_step, unlock_step. rewrite Hp. cbn [of_opt mbind result_bind].
  destruct p; cbn [lz_local holds] in *; unfold found, searching in *; destruct_and?; try done.
  all: try (destruct (Hn curr) as [nd ->]; [done|]; cbn; repeat case_match; done).
  all: try (destruct (Hn prev) as [nd ->]; [done|]; cbn; repeat case_match; done).
  all: try (destruct (Hheld curr) as [nd ->]; [by right; left|]; cbn; repeat case_match; done).
  all: try (destruct (Hheld prev) as [nd ->]; [by left|]; cbn; repeat case_match; done).
  1: destruct (Hn head Hhp) as [nd ->]; done.
  1: case_match eqn:E; [done|]; apply Z.ltb_ge in E; eauto.
  all: match goal with H : exists _, _ /\ _ |- _ => destruct H as (nd & -> & _); done end.
Qed.
End invariant.

(** ** Locks and their holders *)

(** A lock that is held is held by a thread that will release it. *)
Definition owner_ok (st : lz) : Prop :=
  forall a t, owner (lz_heap st) a = Some t -> exists p, lz_pcs st !! t = Some p /\ a ∈ holds p.

(** A step takes no lock of another thread away and gives none to another thread. *)
Lemma owner_ok_update st st' t p p' : owner_ok st -> lz_pcs st !! t = Some p -> lz_pcs st' = <[t := p']> (lz_pcs st) ->
  (forall a t', owner (lz_heap st') a = Some t' -> t' = t /\ a ∈ holds p' \/
     owner (lz_heap st) a = Some t' /\ (a ∈ holds p -> a ∈ holds p')) -> owner_ok st'.
Proof.
  intros Ho Hp Hpcs Hl a t' Ha. rewrite Hpcs. destruct (Hl a t' Ha) as [[-> Hin]|[Hw Hin]].
  - exists p'. by rewrite lookup_insert_eq.
  - destruct (Ho a t' Hw) as (q & Hq & Hqa). destruct (decide (t' = t)) as [->|Hne].
    + exists p'. rewrite lookup_insert_eq. split; [done|]. rewrite Hp in Hq. injection Hq as <-. auto.
    + exists q. by rewrite lookup_insert_ne.
Qed.

Lemma owner_ok_goto st st' t p p' : owner_ok st -> lz_pcs st !! t = Some p -> lz_pcs st' = <[t := p']> (lz_pcs st) ->
  (forall a, owner (lz_heap st') a = owner (lz_heap st) a) -> (forall a, a ∈ holds p -> a ∈ holds p') -> owner_ok st'.
Proof. intros Ho Hp Hpcs Hs Hh. apply (owner_ok_update st st' t p p'); try done. intros a t' Ha. right. rewrite <- Hs. auto. Qed.

Lemma owner_same h a nd nd' b : h !! a = Some nd -> llock nd' = llock nd -> owner (<[a := nd']> h) b = owner h b.
Proof. intros Ha Hl. rewrite owner_insert. case_decide; [|done]. subst. unfold owner. by rewrite Ha. Qed.

Lemma owner_ok_step head sz re st t st' : owner_ok st -> lz_step head sz re st t = Ok st' -> owner_ok st'.
Proof.
  intros Ho. unfold lz_step, lock_step, unlock_step. destruct (lz_pcs st !! t) as [p|] eqn:Hp; [|done]. cbn [of_opt mbind result_bind].
  destruct p; cbn [of_opt mbind result_bind]; try done;
    repeat match goal with |- context [of_opt ?x] => destruct x as [nd|] eqn:?; cbn [of_opt mbind result_bind]; [|done] end.
  all: repeat match goal with |- context [if ?b then _ else _] => destruct b | |- context [match llock ?n with _ => _ end] => destruct (llock n) eqn:? end.
  all: try done; intros [= <-].
  all: try (eapply owner_ok_goto; [exact Ho|exact Hp|reflexivity|done|done]).
  all: try (eapply owner_ok_goto; [exact Ho|exact Hp|reflexivity|intros b; by eapply owner_same|done]).
  all: eapply owner_ok_update; [exact Ho|exact Hp|reflexivity|]; cbn; intros b t' Hb; rewrite owner_insert in Hb; case_decide; subst; cbn in *.
  all: try (injection Hb as <-; left; split; [done|]; by repeat (left || right)).
  all: try (right; split; [done|]; rewrite ?elem_of_cons; tauto).
  all: try done.
  right. split; [|done]. unfold owner. by destruct (lz_heap st !! n).
Qed.

Lemma owner_ok_reachable head sz re legal serial st0 st : (forall a, owner (lz_heap st0) a = None) ->
  rtc (lz_next head sz re legal serial) st0 st -> owner_ok st.
Proof.
  intros H0 Hr. assert (Ho : owner_ok st0) by (intros a t Ha; by rewrite H0 in Ha). clear H0.
  induction Hr as [|st0 st1 st2 Hs _ IH]; [done|]. apply IH. destruct Hs as [st0 t op x Hp _ _|st0 st1 t Hs _].
  - unfold lz_invoke. destruct (op =? CONTAINS_OP); by eapply (owner_ok_goto st0).
  - by eapply owner_ok_step.
Qed.

(** The lock that a thread waits for. *)
Definition waits_for (p : lpc) : option Z :=
  match p with SLock1 _ _ prev _ => Some prev | SLock2 _ _ _ curr => Some curr | _ => None end.

Lemma step_waits head sz re st t p : lz_pcs st !! t = Some p -> p <> LIdle -> lz_step head sz re st t = NoFuel ->
  exists a t', waits_for p = Some a /\ owner (lz_heap st) a = Some t'.
Proof.
  intros Hp Hne. unfold lz_step, lock_step, unlock_step. rewrite Hp. cbn [of_opt mbind result_bind].
  destruct p; cbn [of_opt mbind result_bind]; try done;
    repeat match goal with |- context [of_opt ?x] => destruct x as [nd|] eqn:E; cbn [of_opt mbind result_bind]; [|done] end;
    try (repeat case_match; done).
  - destruct (llock nd) eqn:El; [|done]. intros _. exists prev, z. unfold owner. by rewrite E.
  - destruct (llock nd) eqn:El; [|done]. intros _. exists curr, z. unfold owner. by rewrite E.
Qed.

#[local] Instance nofuel_dec {A} (r : result A) : Decision (r = NoFuel).
Proof. destruct r; [right|right|left]; done. Defined.

(** Locks are taken in the order of the keys, so a chain of waiting threads ends. *)
Lemma lock_chain head tail K0 hk tk sz re st ch pub K : linv head tail K0 hk tk st ch pub K -> owner_ok st ->
  forall n a t, size (filter (fun q => keyof (lz_heap st) a < keyof (lz_heap st) q) pub) = n -> owner (lz_heap st) a = Some t ->
  exists t' p, lz_pcs st !! t' = Some p /\ p <> LIdle /\ lz_step head sz re st t' <> NoFuel.
Proof.
  intros Hi Ho n. induction n as [n IH] using lt_wf_ind. intros a t Hn Ha. destruct (Ho a t Ha) as (p & Hp & Hin).
  destruct (decide (lz_step head sz re st t = NoFuel)) as [Hs|Hs].
  2:{ exists t, p. split; [done|]. split; [|done]. intros ->. by apply elem_of_nil in Hin. }
  destruct (step_waits head sz re st t p Hp) as (b & t' & Hw & Hb); [intros ->; by apply elem_of_nil in Hin|done|].
  destruct p; try done; [by apply elem_of_nil in Hin|]. injection Hw as ->. apply list_elem_of_singleton in Hin as ->.
  destruct (li_local _ _ _ _ _ _ _ _ _ Hi t _ Hp) as (_ & _ & ((_ & _ & Hc & _ & Hlt) & _) & _).
  eapply (IH (size (filter (fun q => keyof (lz_heap st) b < keyof (lz_heap st) q) pub))); [|reflexivity|exact Hb]. subst n.
  apply subset_size. split; [intros q; rewrite !elem_of_filter; intros [? ?]; split; [lia|done]|]. intros Hsub.
  specialize (Hsub b). rewrite !elem_of_filter in Hsub. destruct Hsub; [done|lia].
Qed.

(** ** Executions *)

(** A schedule: calls, and numbers of steps of threads. *)
Inductive action := Call (t op x : Z) | Run (t : Z) (n : nat).

Fixpoint run_thread (head sz re : Z) (st : lz) (t : Z) (n : nat) : result lz :=
  match n with O => Ok st | S n' => st' ← lz_step head sz re st t; run_thread head sz re st' t n' end.
Definition lz_act (head sz re : Z) (st : lz) (a : action) : result lz :=
  match a with
  | Call t op x => if decide (lz_pcs st !! t = Some LIdle) then Ok (lz_invoke head st t op x) else UB
  | Run t n => run_thread head sz re st t n
  end.
Fixpoint lz_run (head sz re : Z) (st : lz) (l : list action) : result lz :=
  match l with [] => Ok st | a :: l' => st' ← lz_act head sz re st a; lz_run head sz re st' l' end.

Definition legal_action (legal : Z -> Prop) (a : action) : Prop :=
  match a with Call _ op x => (op = CONTAINS_OP \/ op = ADD_OP \/ op = REMOVE_OP) /\ legal x | Run _ _ => True end.

Lemma run_thread_rtc legal head sz re t n : forall st st', run_thread head sz re st t n = Ok st' ->
  rtc (lz_next head sz re legal false) st st'.
Proof.
  induction n as [|n IH]; intros st st' H; cbn in H; [injection H as <-; apply rtc_refl|].
  apply bind_Ok in H as (st1 & H1 & H2). eapply rtc_l; [by eapply lz_next_run|auto].
Qed.

Lemma lz_run_rtc legal head sz re l : forall st st', Forall (legal_action legal) l -> lz_run head sz re st l = Ok st' ->
  rtc (lz_next head sz re legal false) st st'.
Proof.
  induction l as [|a l IH]; intros st st' Hf H; cbn in H; [injection H as <-; apply rtc_refl|].
  apply Forall_cons in Hf as [Ha Hf]. apply bind_Ok in H as (st1 & H1 & H2). transitivity st1; [|auto].
  destruct a as [t op x|t n]; cbn in *; [|by eapply run_thread_rtc]. case_decide; [|done]. injection H1 as <-.
  destruct Ha. by apply rtc_once, lz_next_invoke.
Qed.

(** A serial schedule of one thread. *)
Definition calmb (st : lz) (t : Z) : bool :=
  negb (from_option enters false (lz_pcs st !! t)) || forallb (fun tp => negb (allocating tp.2)) (map_to_list (lz_pcs st)).

Lemma calmb_calm st t : calmb st t = true -> calm st t.
Proof.
  intros H p Hp Ha t' p' Hp'. unfold calmb in H. rewrite Hp in H. cbn in H. rewrite Ha in H. cbn [negb orb] in H. rewrite forallb_forall in H.
  apply elem_of_map_to_list, list_elem_of_In in Hp'. specialize (H _ Hp'). cbn in H. by apply negb_true_iff in H.
Qed.

Fixpoint run_serial (head sz re : Z) (st : lz) (t : Z) (n : nat) : result lz :=
  match n with
  | O => Ok st
  | S n' => if calmb st t then st' ← lz_step head sz re st t; run_serial head sz re st' t n' else UB
  end.

Lemma run_serial_rtc legal head sz re t n : forall st st', run_serial head sz re st t n = Ok st' ->
  rtc (lz_next head sz re legal true) st st'.
Proof.
  induction n as [|n IH]; intros st st' H; cbn in H; [injection H as <-; apply rtc_refl|]. destruct (calmb st t) eqn:Ec; [|done].
  apply bind_Ok in H as (st1 & H1 & H2). eapply rtc_l; [|by apply IH]. eapply lz_next_run; [done|]. intros _. by apply calmb_calm.
Qed.

(** ** Properties *)

(** C3: The list with lazy removal is linearizable.  For any number of threads and in every execution
    of [add], [remove] and [contains], with keys between those of the sentinels, in which no thread enters allocate_region while
    another is inside it (all other steps of all threads interleave freely), the calls
    and returns are well formed, and the operations in the order of their points of effect are a
    run of a set of keys: the unmarked nodes linked between the sentinels are that set. *)
Theorem lazylist_linearizable head tail K0 hk tk sz re st0 st : lz_initial head tail K0 hk tk st0 -> 0 < sz ->
  rtc (lz_next head sz re (fun x => hk < x < tk) true) st0 st ->
  (forall t, is_Some (status t (lz_trace st))) /\
  exists K ch, replay set_spec K0 (lz_trace st) = Some K /\ links (lz_heap st) ch /\ ch !! 0%nat = Some head /\ last ch = Some tail /\
    StronglySorted (fun p q => keyof (lz_heap st) p < keyof (lz_heap st) q) ch /\
    forall x, x ∈ K <-> exists p, p ∈ ch /\ p <> head /\ p <> tail /\ marked_node (lz_heap st) p = false /\ keyof (lz_heap st) p = x.
Proof.
  intros Hi Hsz Hr. destruct (linv_reachable _ _ _ _ _ _ _ _ _ Hi Hsz Hr) as (ch & pub & K & Hv). pose proof Hv as [Hs Hrep _ _ _ _ Hst _].
  split; [done|]. exists K, ch. destruct Hs. by split_and!.
Qed.

(** A thread of the list with lazy removal never follows a wild pointer: in these
    executions the next step of a thread is a wait for a lock or defined, unless it has to allocate a
    node and the region is used up. *)
Theorem lazylist_never_crashes head tail K0 hk tk sz re st0 st t p : lz_initial head tail K0 hk tk st0 -> 0 < sz ->
  rtc (lz_next head sz re (fun x => hk < x < tk) true) st0 st -> lz_pcs st !! t = Some p -> lz_step head sz re st t = UB ->
  exists x prev curr, p = ARead x prev curr /\ re <= lz_region st + sz.
Proof.
  intros Hi Hsz Hr Hp Hu. destruct (linv_reachable _ _ _ _ _ _ _ _ _ Hi Hsz Hr) as (ch & pub & K & Hv).
  by eapply linv_progress.
Qed.

(** C30: The list with lazy removal does not deadlock.  If no lock is held at the start, then in every
    state of the executions in which no thread enters allocate_region while another is inside it, and in which a call is open,
    some thread inside a call is not waiting for a lock: locks are
    taken in the order of the keys, and a thread that holds one releases it. *)
Theorem lazylist_deadlock_free head tail K0 hk tk sz re st0 st t p : lz_initial head tail K0 hk tk st0 -> 0 < sz ->
  (forall a, owner (lz_heap st0) a = None) ->
  rtc (lz_next head sz re (fun x => hk < x < tk) true) st0 st -> lz_pcs st !! t = Some p -> p <> LIdle ->
  exists t' p', lz_pcs st !! t' = Some p' /\ p' <> LIdle /\ lz_step head sz re st t' <> NoFuel.
Proof.
  intros Hi Hsz H0 Hr Hp Hne. destruct (linv_reachable _ _ _ _ _ _ _ _ _ Hi Hsz Hr) as (ch & pub & K & Hv).
  pose proof (owner_ok_reachable _ _ _ _ _ _ _ H0 Hr) as Ho. destruct (decide (lz_step head sz re st t = NoFuel)) as [Hs|Hs]; [|by exists t, p].
  destruct (step_waits head sz re st t p Hp Hne Hs) as (a & t' & _ & Ha). by eapply lock_chain.
Qed.

(** A list with the keys 20 and 30 in nodes of four bytes, and four threads. *)
Definition ex_lazy : lz :=
  mkLz (list_to_map [(4, mkL 0 false None 8); (8, mkL 20 false None 12); (12, mkL 30 false None 16); (16, mkL 100 false None 0)])
       20 (list_to_map [(1, LIdle); (2, LIdle); (3, LIdle)]) [].

(** Two adds in different parts of the list allocate at the same time. *)
Definition overlapping : list action :=
  [Call 1 ADD_OP 10; Call 2 ADD_OP 40; Run 1 8; Run 2 12; Run 1 1; Run 2 1; Run 1 2; Run 2 2;
   Run 1 3; Run 2 3; Run 1 1; Run 2 1; Run 1 3; Run 2 3; Call 3 CONTAINS_OP 10; Run 3 5].

(** Overlapping calls of allocate_region lose keys.  It reads region_aligned and writes it back without
    a lock, and [add] calls it while it holds only the locks of its two neighbours: two adds
    can be given the same node.  Both answer 1; then contains(10) answers 0 although 10 was
    added and never removed. *)
Theorem lazylist_overlap_loses_key :
  exists st, rtc (lz_next 4 4 1000 (fun x => 0 < x < 100) false) ex_lazy st /\
    exists es, lz_trace st = Ret 3 0 :: es /\ Ret 1 1 ∈ es /\ Ret 2 1 ∈ es /\ Inv 3 CONTAINS_OP 10 ∈ es /\
      Inv 1 ADD_OP 10 ∈ es /\ Inv 2 ADD_OP 40 ∈ es /\ forall t x, Inv t REMOVE_OP x ∉ es.
Proof.
  destruct (lz_run 4 4 1000 ex_lazy overlapping) as [st| |] eqn:E; [|by vm_compute in E..].
  exists st. split; [apply (lz_run_rtc _ _ _ _ overlapping); [|done]; repeat constructor; tauto|].
  vm_compute in E. injection E as <-. eexists. split; [reflexivity|]. rewrite !elem_of_cons. split_and!; try tauto.
  intros t x. unfold REMOVE_OP. rewrite !elem_of_cons, elem_of_nil. intuition congruence.
Qed.

(** ** Examples *)

Lemma ex_lazy_initial : lz_initial 4 16 {[20; 30]} 0 100 ex_lazy.
Proof.
  split; [|split_and!; try done].
  - exists [4; 8; 12; 16]. split; try done.
    + repeat constructor.
    + set_solver.
    + intros p. rewrite elem_of_list_to_set, !elem_of_cons, elem_of_nil. intros [->|[->|[->|[->|[]]]]]; vm_compute; eauto.
    + intros p. rewrite elem_of_list_to_set, !elem_of_cons, elem_of_nil. intros [->|[->|[->|[->|[]]]]] Ht; try done;
        (split; [apply elem_of_list_to_set; vm_compute; set_solver|vm_compute; done]).
    + intros p Hp Hn. by rewrite elem_of_list_to_set in Hp.
    + intros p [nd Hnd]. unfold ex_lazy in Hnd. cbn [lz_heap] in Hnd. apply elem_of_list_to_map_2 in Hnd.
      rewrite !elem_of_cons, elem_of_nil in Hnd. cbn. destruct Hnd as [[= -> _]|[[= -> _]|[[= -> _]|[[= -> _]|[]]]]]; lia.
    + intros x. rewrite elem_of_union, !elem_of_singleton. split.
      * intros [-> | ->]; [exists 8|exists 12]; (split; [set_solver|split_and!; done]).
      * intros (p & Hp & H1 & H2 & _ & H3). rewrite !elem_of_cons, elem_of_nil in Hp.
        destruct Hp as [->|[->|[->|[->|[]]]]]; try done; vm_compute in H3; auto.
  - intros t p Hp. unfold ex_lazy in Hp. cbn [lz_pcs] in Hp. apply elem_of_list_to_map_2 in Hp. rewrite !elem_of_cons, elem_of_nil in Hp.
    naive_solver.
Qed.

Definition ex_lazy_run : result lz := run_serial 4 4 1000 (lz_invoke 4 ex_lazy 1 ADD_OP 10) 1 18.

Lemma ex_lazy_reachable st : ex_lazy_run = Ok st -> rtc (lz_next 4 4 1000 (fun x => 0 < x < 100) true) ex_lazy st.
Proof.
  intros H. eapply rtc_l; [|by eapply run_serial_rtc]. apply lz_next_invoke; [done|auto|lia].
Qed.

Lemma lazylist_linearizable_witness :
  exists st K ch, ex_lazy_run = Ok st /\ lz_trace st = [Ret 1 1; Lin 1 ADD_OP 10 1; Inv 1 ADD_OP 10] /\
    replay set_spec {[20; 30]} (lz_trace st) = Some K /\ links (lz_heap st) ch.
Proof.
  destruct ex_lazy_run as [st| |] eqn:E; [|by vm_compute in E..].
  destruct (lazylist_linearizable 4 16 {[20; 30]} 0 100 4 1000 ex_lazy st ex_lazy_initial ltac:(lia) (ex_lazy_reachable st E))
    as (_ & K & ch & H1 & H2 & _). exists st, K, ch. split_and!; try done. vm_compute in E. injection E as <-. reflexivity.
Defined.

(** With a region that ends at 24 the first add cannot allocate. *)
Lemma lazylist_never_crashes_witness :
  exists st x prev curr, run_serial 4 4 24 (lz_invoke 4 ex_lazy 1 ADD_OP 10) 1 8 = Ok st /\ lz_step 4 4 24 st 1 = UB /\
    lz_pcs st !! 1 = Some (ARead x prev curr).
Proof.
  destruct (run_serial 4 4 24 (lz_invoke 4 ex_lazy 1 ADD_OP 10) 1 8) as [st| |] eqn:E; [|by vm_compute in E..].
  assert (Hr : rtc (lz_next 4 4 24 (fun x => 0 < x < 100) true) ex_lazy st).
  { eapply rtc_l; [|by eapply run_serial_rtc]. apply lz_next_invoke; [done|auto|lia]. }
  assert (Hu : lz_step 4 4 24 st 1 = UB) by (vm_compute in E; injection E as <-; reflexivity).
  destruct (lz_pcs st !! 1) as [p|] eqn:Hp; [|vm_compute in E; injection E as <-; done].
  destruct (lazylist_never_crashes 4 16 {[20; 30]} 0 100 4 24 ex_lazy st 1 p ex_lazy_initial ltac:(lia) Hr Hp Hu) as (x & prev & curr & -> & _).
  exists st, x, prev, curr. by split_and!.
Defined.

(** Thread 1 has found its place and locked the head. *)
Lemma lazylist_deadlock_free_witness :
  exists st t p, run_serial 4 4 1000 (lz_invoke 4 ex_lazy 1 ADD_OP 10) 1 3 = Ok st /\ lz_pcs st !! t = Some p /\ lz_step 4 4 1000 st t <> NoFuel.
Proof.
  destruct (run_serial 4 4 1000 (lz_invoke 4 ex_lazy 1 ADD_OP 10) 1 3) as [st| |] eqn:E; [|by vm_compute in E..].
  assert (Hr : rtc (lz_next 4 4 1000 (fun x => 0 < x < 100) true) ex_lazy st).
  { eapply rtc_l; [|by eapply run_serial_rtc]. apply lz_next_invoke; [done|auto|lia]. }
  destruct (lz_pcs st !! 1) as [p|] eqn:Hp; [|vm_compute in E; injection E as <-; done].
  destruct (lazylist_deadlock_free 4 16 {[20; 30]} 0 100 4 1000 ex_lazy st 1 p ex_lazy_initial ltac:(lia)) as (t & q & H1 & _ & H2); try done.
  - intros a. unfold owner, ex_lazy. cbn [lz_heap]. destruct (list_to_map _ !! a) as [nd|] eqn:En; [|done].
    apply elem_of_list_to_map_2 in En. rewrite !elem_of_cons, elem_of_nil in En. naive_solver.
  - intros ->. vm_compute in E. injection E as <-. vm_compute in Hp. done.
  - exists st, t, q. by split_and!.
Defined.
