(* ===== verification/LFSkipList.v ===== *)
(** * The lock-free skip list

    Models src/SMC/SW/HOST/app/multithread_lockfree_skiplist/LFSkipList.hh at the level of
    single accesses to shared memory: a removed node is marked, level by level from the top, in the
    lowest bit of its links; [find] unlinks the marked nodes it meets by compare-and-swap; [add] links a
    node at the bottom level and then splices it into the upper ones; [contains] only reads.  The key and the
    top level of a node do not change once it is linked, so that a step that reads a link also reads the key of
    its node, and the node that [add] prepares is private until it is linked, so that it is written in one step.

    At the bottom level the memory has the shape of the lists of LazyList.v ([bottom]), whose lemmas on insertion,
    marking, removal and reachability are used here.  The theorems show that the list is linearizable to a set for
    any number of threads, that the only step that can be undefined is a load of [findAndClean], which follows a link without
    removing its mark, and that it can happen.  The constructor does not write the links of the tail: the theorems hold for arbitrary words there, except that none may have the bit of a mark. *)

From S2P Require Import Prelude History FlatCombining FCSkipList LazyList.

(** ** Links with a mark *)

Definition MARK_BIT : Z := 1.
Definition PTR (d : Z) : Z := Z.land d 0xffffffffffffff8.
Definition MARKED (d : Z) : bool := negb (Z.land d MARK_BIT =? 0).
Definition MARK (d : Z) : Z := Z.lor d MARK_BIT.

Record sknode := mkSN { sn_key : Z; sn_top : nat; sn_next : list Z }.
Definition LF_MAX_LEVEL : nat := 30.

(** ** Threads *)

(** Why [find] was called: by [add], which may have prepared a node before, by [remove], or by [add] to splice in its node
    at a level. *)
Inductive why := WAdd (n : option Z) | WRemove | WSplice (n : Z) (j : nat).

(** Where a thread is.  K: in [contains]; F: in [find], with the nodes found at the levels above; A: in [add]; R: in [remove];
    C: in [findAndClean]. *)
Inductive spc :=
  | KIdle
  | KSucc (x pred curr : Z) (i : nat) | KSkip (x pred curr : Z) (i : nat)
  | FLoad (w : why) (x pred : Z) (i : nat) (ps ss : list Z)
  | FSucc (w : why) (x pred curr : Z) (i : nat) (ps ss : list Z)
  | FSnip (w : why) (x pred curr succ : Z) (i : nat) (ps ss : list Z)
  | ANew (x : Z) (ps ss : list Z) | APrep (x n : Z) (ps ss : list Z) | ACas (x n : Z) (ps ss : list Z)
  | ASplice (x n : Z) (j : nat) (ps ss : list Z)
  | RLoad (x n : Z) (i : nat) | RCas (x n succ : Z) (i : nat)
  | R0Load (x n : Z) | R0Cas (x n succ : Z) | R0Chk (x n : Z) (mine : bool)
  | CLoad (x pred pf : Z) (i : nat) | CSucc (x pred pf curr : Z) (i : nat)
  | CSnip (x pred pf curr succ : Z) (i : nat) | CReload (x pred pf : Z) (i : nat)
  | KRet (r : Z).

Record sks := mkSk {
  sk_heap : gmap Z sknode;
  sk_brk : Z;
  sk_pcs : gmap Z spc;
  sk_trace : list event;
}.

Definition sk_goto (st : sks) (t : Z) (p : spc) : sks := mkSk (sk_heap st) (sk_brk st) (<[t := p]> (sk_pcs st)) (sk_trace st).
Definition sk_set_heap (st : sks) (h : gmap Z sknode) : sks := mkSk h (sk_brk st) (sk_pcs st) (sk_trace st).
Definition sk_record (st : sks) (es : list event) : sks := mkSk (sk_heap st) (sk_brk st) (sk_pcs st) (es ++ sk_trace st).
Definition sk_set_trace (st : sks) (tr : list event) : sks := mkSk (sk_heap st) (sk_brk st) (sk_pcs st) tr.

(** [p->next[i]], and the node itself; a pointer to no node is undefined. *)
Definition load (h : gmap Z sknode) (p : Z) (i : nat) : result (sknode * Z) :=
  nd ← of_opt (h !! p); v ← of_opt (sn_next nd !! i); Ok (nd, v).
Definition store (h : gmap Z sknode) (p : Z) (i : nat) (v : Z) : gmap Z sknode :=
  alter (fun nd => mkSN (sn_key nd) (sn_top nd) (<[i := v]> (sn_next nd))) p h.
(** [__sync_bool_compare_and_swap(&p->next[i], old, new)] *)
Definition cas (h : gmap Z sknode) (p : Z) (i : nat) (old new : Z) : result (gmap Z sknode * bool) :=
  '(_, v) ← load h p i;
  Ok (if v =? old then (store h p i new, true) else (h, false)).

(** The key of a call that may turn out to have taken effect when a thread removed the key. *)
Definition seeks (p : spc) : option Z :=
  match p with
  | KSucc x _ _ _ | KSkip x _ _ _ | FLoad WRemove x _ _ _ _ | FSucc WRemove x _ _ _ _ _ | FSnip WRemove x _ _ _ _ _ _
  | RLoad x _ _ | RCas x _ _ _ | R0Load x _ | R0Cas x _ _ | R0Chk x _ false => Some x
  | _ => None
  end.
Definition sk_seekers (pcs : gmap Z spc) (x : Z) : list Z := (filter (fun tp => seeks tp.2 = Some x) (map_to_list pcs)).*1.

Section steps.
Context (head : Z) (max_level : nat) (sizeof_node : Z).

(** [find] starts at the top of the head. *)
Definition start_find (w : why) (x : Z) : spc := FLoad w x head (max_level - 1) [] [].

(** What follows the call of [find]: [pred] and [succ] are those of the bottom level. *)
Definition end_find (st : sks) (t : Z) (w : why) (x key succ : Z) (ps ss : list Z) : sks :=
  match w with
  | WAdd o =>
      if key =? x then sk_goto (sk_record st [Lin t ADD_OP x 0]) t (KRet 0)
      else sk_goto st t (match o with None => ANew x ps ss | Some n => APrep x n ps ss end)
  | WRemove =>
      if key =? x then
        let top := from_option sn_top O (sk_heap st !! succ) in
        sk_goto st t (if (1 <? top)%nat then RLoad x succ (top - 1) else R0Load x succ)
      else sk_goto (sk_set_trace st (confirm t REMOVE_OP x 0 (sk_trace st))) t (KRet 0)
  | WSplice n j => sk_goto st t (ASplice x n j ps ss)
  end.

(** A call; [contains] and [remove] may turn out to take effect here. *)
Definition sk_invoke (st : sks) (t op x : Z) : sks :=
  if op =? CONTAINS_OP then sk_goto (sk_record st [Mark t; Inv t op x]) t (KSucc x head head (max_level - 1))
  else if op =? ADD_OP then sk_goto (sk_record st [Inv t op x]) t (start_find (WAdd None) x)
  else sk_goto (sk_record st [Mark t; Inv t op x]) t (start_find WRemove x).

(** The links of a new node: the successors up to its top level; the memory above is not written (it is never read). *)
Definition new_links (ss : list Z) (top : nat) : list Z := take top (PTR <$> ss) ++ replicate (LF_MAX_LEVEL - top) 0.

(** [randomLevel] *)
Definition lf_randomLevel (rnd : Z) : result Z := level_of_rand (Z.of_nat max_level) rnd.

(** [contains]: the loop that moves along a level and down. *)
Definition contains_step (st : sks) (t : Z) (p : spc) : result sks :=
  let h := sk_heap st in
  match p with
  | KSucc x pred curr i =>
      '(nd, v) ← load h curr i;
      if MARKED v then Ok (sk_goto st t (KSkip x pred curr i))
      else if sn_key nd <? x then Ok (sk_goto st t (KSucc x curr (PTR v) i))
      else if sn_key nd =? x then Ok (sk_goto (sk_record st [Lin t CONTAINS_OP x 1]) t (KRet 1))
      else
        match i with
        | S i' => Ok (sk_goto st t (KSucc x pred pred i'))
        | O => Ok (sk_goto (sk_set_trace st (confirm t CONTAINS_OP x 0 (sk_trace st))) t (KRet 0))
        end
  | KSkip x pred curr i => '(_, v) ← load h curr i; Ok (sk_goto st t (KSucc x pred (PTR v) i))
  | _ => UB
  end.

(** [find]: at every level the last node below [x] and the node after it, unlinking marked nodes on the way. *)
Definition find_step (st : sks) (t : Z) (p : spc) : result sks :=
  let h := sk_heap st in
  match p with
  | FLoad w x pred i ps ss => '(_, v) ← load h pred i; Ok (sk_goto st t (FSucc w x pred (PTR v) i ps ss))
  | FSucc w x pred curr i ps ss =>
      '(nd, v) ← load h curr i;
      if MARKED v then Ok (sk_goto st t (FSnip w x pred curr (PTR v) i ps ss))
      else if sn_key nd <? x then Ok (sk_goto st t (FSucc w x curr (PTR v) i ps ss))
      else
        match i with
        | S i' => Ok (sk_goto st t (FLoad w x pred i' (pred :: ps) (curr :: ss)))
        | O => Ok (end_find st t w x (sn_key nd) curr (pred :: ps) (curr :: ss))
        end
  | FSnip w x pred curr succ i ps ss =>
      '(h', snip) ← cas h pred i (PTR curr) (PTR succ);
      Ok (sk_goto (sk_set_heap st h') t (if (snip : bool) then FLoad w x pred i ps ss else start_find w x))
  | _ => UB
  end.

(** [add] after [find]: the node is prepared, linked at the bottom level and then spliced in at its upper levels; [rnd] is what [rand] returns. *)
Definition add_step (st : sks) (t : Z) (rnd : Z) (p : spc) : result sks :=
  let h := sk_heap st in
  match p with
  | ANew x ps ss =>
      level ← lf_randomLevel rnd;
      if sk_brk st + sizeof_node <? 2 ^ 32 then
        let top := Z.to_nat level in
        let n := sk_brk st in
        Ok (mkSk (<[n := mkSN x top (new_links ss top)]> h) (n + sizeof_node) (<[t := ACas x n ps ss]> (sk_pcs st)) (sk_trace st))
      else UB
  | APrep x n ps ss =>
      nd ← of_opt (h !! n);
      Ok (sk_goto (sk_set_heap st (<[n := mkSN x (sn_top nd) (new_links ss (sn_top nd))]> h)) t (ACas x n ps ss))
  | ACas x n ps ss =>
      pred ← of_opt (ps !! O); succ ← of_opt (ss !! O);
      '(h', ok) ← cas h pred O (PTR succ) (PTR n);
      if (ok : bool) then Ok (sk_goto (sk_record (sk_set_heap st h') [Lin t ADD_OP x 1]) t (ASplice x n 1 ps ss))
      else Ok (sk_goto st t (start_find (WAdd (Some n)) x))
  | ASplice x n j ps ss =>
      nd ← of_opt (h !! n);
      if (j <? sn_top nd)%nat then
        pred ← of_opt (ps !! j); succ ← of_opt (ss !! j);
        '(h', ok) ← cas h pred j (PTR succ) (PTR n);
        Ok (sk_goto (sk_set_heap st h') t (if (ok : bool) then ASplice x n (S j) ps ss else start_find (WSplice n j) x))
      else Ok (sk_goto st t (KRet 1))
  | _ => UB
  end.

(** [remove] after [find]: the links of the node are marked from the top down; who marks the bottom one has removed the key. *)
Definition remove_step (st : sks) (t : Z) (p : spc) : result sks :=
  let h := sk_heap st in
  match p with
  | RLoad x n i =>
      '(_, v) ← load h n i;
      if MARKED v then Ok (sk_goto st t (if (1 <? i)%nat then RLoad x n (i - 1) else R0Load x n))
      else Ok (sk_goto st t (RCas x n (PTR v) i))
  | RCas x n succ i =>
      '(h', _) ← cas h n i (PTR succ) (MARK succ);
      Ok (sk_goto (sk_set_heap st h') t (RLoad x n i))
  | R0Load x n => '(_, v) ← load h n O; Ok (sk_goto st t (R0Cas x n (PTR v)))
  | R0Cas x n succ =>
      '(h', mine) ← cas h n O (PTR succ) (MARK succ);
      if (mine : bool) then
        (* the threads that look for [x] may turn out to answer from here *)
        Ok (sk_goto (sk_record (sk_set_heap st h') ((Mark <$> sk_seekers (delete t (sk_pcs st)) x) ++ [Lin t REMOVE_OP x 1])) t (R0Chk x n true))
      else Ok (sk_goto st t (R0Chk x n false))
  | R0Chk x n mine =>
      '(_, v) ← load h n O;
      if mine then Ok (sk_goto st t (CLoad x head head (max_level - 1)))
      else if MARKED v then Ok (sk_goto (sk_set_trace st (confirm t REMOVE_OP x 0 (sk_trace st))) t (KRet 0))
      else Ok (sk_goto st t (R0Cas x n (PTR v)))
  | _ => UB
  end.

(** [findAndClean]: unlinks the marked nodes at every level; unlike [find] it takes over the first link of a level as it is. *)
Definition clean_step (st : sks) (t : Z) (p : spc) : result sks :=
  let h := sk_heap st in
  match p with
  | CLoad x pred pf i => '(_, v) ← load h pred i; Ok (sk_goto st t (CSucc x pred pf v i))
  | CSucc x pred pf curr i =>
      '(nd, v) ← load h curr i;
      if MARKED v then Ok (sk_goto st t (CSnip x pred pf curr (PTR v) i))
      else if sn_key nd <? x then Ok (sk_goto st t (CSucc x curr curr (PTR v) i))
      else if sn_key nd =? x then Ok (sk_goto st t (CSucc x curr pf (PTR v) i))
      else Ok (sk_goto st t (match i with S i' => CLoad x pf pf i' | O => KRet 1 end))
  | CSnip x pred pf curr succ i =>
      '(h', snip) ← cas h pred i (PTR curr) (PTR succ);
      Ok (sk_goto (sk_set_heap st h') t (if (snip : bool) then CReload x pred pf i else CLoad x head head (max_level - 1)))
  | CReload x pred pf i => '(_, v) ← load h pred i; Ok (sk_goto st t (CSucc x pred pf (PTR v) i))
  | _ => UB
  end.

(** One step of thread [t]; [rnd] is what [rand] returns if it is called. *)
Definition sk_step (st : sks) (t rnd : Z) : result sks :=
  p ← of_opt (sk_pcs st !! t);
  match p with
  | KIdle => NoFuel
  | KSucc _ _ _ _ | KSkip _ _ _ _ =>
      contains_step st t p
  | FLoad _ _ _ _ _ _ | FSucc _ _ _ _ _ _ _ | FSnip _ _ _ _ _ _ _ _ =>
      find_step st t p
  | ANew _ _ _ | APrep _ _ _ _ | ACas _ _ _ _ | ASplice _ _ _ _ _ =>
      add_step st t rnd p
  | RLoad _ _ _ | RCas _ _ _ _ | R0Load _ _ | R0Cas _ _ _ | R0Chk _ _ _ =>
      remove_step st t p
  | CLoad _ _ _ _ | CSucc _ _ _ _ _ | CSnip _ _ _ _ _ _ | CReload _ _ _ _ =>
      clean_step st t p
  | KRet r => Ok (sk_goto (sk_record st [Ret t r]) t KIdle)
  end.

(** A step of the system: a thread calls an operation, or runs. *)
Inductive sk_next (legal : Z -> Prop) : sks -> sks -> Prop :=
  | sk_next_invoke st t op x :
      sk_pcs st !! t = Some KIdle -> op = CONTAINS_OP \/ op = ADD_OP \/ op = REMOVE_OP -> legal x ->
      sk_next legal st (sk_invoke st t op x)
  | sk_next_run st st' t rnd : 0 <= rnd -> sk_step st t rnd = Ok st' -> sk_next legal st st'.
End steps.

(** ** Pointers *)

Definition addr (a : Z) : Prop := 0 <= a < 2 ^ 32 /\ a mod 8 = 0.
(** A link: the address of a node, marked or not. *)
Definition good (v : Z) : Prop := exists a, addr a /\ (v = a \/ v = MARK a).

Lemma addr_bits a i : addr a -> Z.testbit a i = true -> 3 <= i < 32.
Proof.
  intros [Hr Hm] Hb. destruct (Z.lt_ge_cases i 3).
  - destruct (Z.lt_ge_cases i 0); [by rewrite Z.testbit_neg_r in Hb|]. assert (Z.testbit (a mod 2 ^ 3) i = false) as E by (change (2 ^ 3) with 8; rewrite Hm; apply Z.testbit_0_l).
    rewrite Z.mod_pow2_bits_low in E by lia. congruence.
  - split; [done|]. destruct (Z.lt_ge_cases i 32); [done|]. rewrite <- (Z.mod_small a (2 ^ 32)) in Hb by lia. by rewrite Z.mod_pow2_bits_high in Hb by lia.
Qed.

Lemma mask_bits i : 3 <= i < 60 -> Z.testbit 0xffffffffffffff8 i = true.
Proof.
  intros Hi. change 0xffffffffffffff8 with (Z.shiftl (Z.ones 57) 3). rewrite Z.shiftl_spec by lia. apply Z.ones_spec_low. lia.
Qed.

Lemma mask_low : Z.testbit 0xffffffffffffff8 0 = false.
Proof. done. Qed.

Lemma mark_bits i : Z.testbit MARK_BIT i = true <-> i = 0.
Proof.
  unfold MARK_BIT. destruct (Z.lt_trichotomy i 0) as [H|[->|H]]; [rewrite Z.testbit_neg_r by done; split; [done|lia]|done|].
  change 1 with (2 ^ 0). rewrite Z.pow2_bits_false by lia. split; [done|lia].
Qed.

Lemma PTR_addr a : addr a -> PTR a = a.
Proof.
  intros Ha. apply Z.bits_inj'. intros i Hi. unfold PTR. rewrite Z.land_spec. destruct (Z.testbit a i) eqn:E; [|done].
  apply mask_bits. pose proof (addr_bits a i Ha E). lia.
Qed.

Lemma PTR_MARK a : addr a -> PTR (MARK a) = a.
Proof.
  intros Ha. apply Z.bits_inj'. intros i Hi. unfold PTR, MARK. rewrite Z.land_spec, Z.lor_spec. destruct (Z.testbit a i) eqn:E; cbn [orb].
  - apply mask_bits. pose proof (addr_bits a i Ha E). lia.
  - destruct (Z.testbit MARK_BIT i) eqn:Em; [|done]. apply mark_bits in Em as ->. done.
Qed.

Lemma MARKED_bit v : MARKED v = Z.testbit v 0.
Proof.
  unfold MARKED, MARK_BIT. change 1 with (Z.ones 1). rewrite Z.land_ones by lia. change (2 ^ 1) with 2. rewrite Zmod_odd, <- Z.bit0_odd.
  by destruct (Z.testbit v 0).
Qed.

Lemma MARKED_addr a : addr a -> MARKED a = false.
Proof. intros Ha. rewrite MARKED_bit. destruct (Z.testbit a 0) eqn:E; [|done]. pose proof (addr_bits a 0 Ha E). lia. Qed.

Lemma MARKED_MARK a : MARKED (MARK a) = true.
Proof. rewrite MARKED_bit. unfold MARK. rewrite Z.lor_spec. cbn. apply orb_true_r. Qed.

Lemma good_addr a : addr a -> good a.
Proof. intros H. exists a. auto. Qed.
Lemma good_MARK a : addr a -> good (MARK a).
Proof. intros H. exists a. auto. Qed.
Lemma good_PTR v : good v -> addr (PTR v).
Proof. intros (a & Ha & [-> | ->]); [by rewrite PTR_addr|by rewrite PTR_MARK]. Qed.
Lemma good_unmarked v : good v -> MARKED v = false -> v = PTR v.
Proof. intros (a & Ha & [-> | ->]) Hm; [by rewrite PTR_addr|]. by rewrite MARKED_MARK in Hm. Qed.
Lemma good_marked v : good v -> MARKED v = true -> v = MARK (PTR v).
Proof. intros (a & Ha & [-> | ->]) Hm; [by rewrite MARKED_addr in Hm|by rewrite PTR_MARK]. Qed.
(** Marked values are no addresses. *)
Lemma marked_not_addr v : MARKED v = true -> ~ addr v.
Proof. intros Hm Ha. by rewrite MARKED_addr in Hm. Qed.

(** ** The bottom level *)

Definition skey (h : gmap Z sknode) (p : Z) : Z := from_option sn_key 0 (h !! p).
Definition stop (h : gmap Z sknode) (p : Z) : nat := from_option sn_top O (h !! p).
Definition link (h : gmap Z sknode) (p : Z) (i : nat) : Z := default 0 (h !! p ≫= fun nd => sn_next nd !! i).
Definition mk (h : gmap Z sknode) (p : Z) (i : nat) : bool := MARKED (link h p i).
Definition nx (h : gmap Z sknode) (p : Z) (i : nat) : Z := PTR (link h p i).

Definition bottom_node (nd : sknode) : lnode := let v := default 0 (sn_next nd !! O) in mkL (sn_key nd) (MARKED v) None (PTR v).
Definition bottom (h : gmap Z sknode) : gmap Z lnode := bottom_node <$> h.

Lemma bottom_key h p : keyof (bottom h) p = skey h p.
Proof. unfold keyof, bottom, skey. rewrite lookup_fmap. by destruct (h !! p). Qed.
Lemma bottom_mark h p : marked_node (bottom h) p = mk h p O.
Proof. unfold marked_node, bottom, mk, link. rewrite lookup_fmap. by destruct (h !! p). Qed.
Lemma bottom_next h p : next_of (bottom h) p = nx h p O.
Proof. unfold next_of, bottom, nx, link. rewrite lookup_fmap. by destruct (h !! p). Qed.
Lemma bottom_some h p : is_Some (bottom h !! p) <-> is_Some (h !! p).
Proof. unfold bottom. by rewrite lookup_fmap, fmap_is_Some. Qed.

Lemma load_link h p i nd v : load h p i = Ok (nd, v) <-> h !! p = Some nd /\ sn_next nd !! i = Some v.
Proof. unfold load. destruct (h !! p) as [nd'|]; cbn; [|naive_solver]. destruct (sn_next nd' !! i) as [v'|] eqn:E; cbn; naive_solver. Qed.

(** *** Stores *)

Lemma store_lookup h p i v q : store h p i v !! q =
  if decide (q = p) then (fun nd => mkSN (sn_key nd) (sn_top nd) (<[i := v]> (sn_next nd))) <$> h !! p else h !! q.
Proof. unfold store. case_decide; [subst; by rewrite lookup_alter_eq|by rewrite lookup_alter_ne]. Qed.

Lemma store_key h p i v q : skey (store h p i v) q = skey h q.
Proof. unfold skey. rewrite store_lookup. case_decide; [subst; by destruct (h !! p)|done]. Qed.
Lemma store_top h p i v q : stop (store h p i v) q = stop h q.
Proof. unfold stop. rewrite store_lookup. case_decide; [subst; by destruct (h !! p)|done]. Qed.
Lemma store_some h p i v q : is_Some (store h p i v !! q) <-> is_Some (h !! q).
Proof. rewrite store_lookup. case_decide; [subst; by rewrite fmap_is_Some|done]. Qed.
Lemma store_link_ne h p i v q j : q <> p \/ j <> i -> link (store h p i v) q j = link h q j.
Proof.
  intros Hne. unfold link. rewrite store_lookup. case_decide; [subst|done]. destruct (h !! p) as [nd|]; [|done]. cbn. rewrite list_lookup_insert_ne; [done|].
  destruct Hne; congruence.
Qed.
Lemma store_link_eq h p i v nd : h !! p = Some nd -> (i < length (sn_next nd))%nat -> link (store h p i v) p i = v.
Proof. intros Hp Hi. unfold link. rewrite store_lookup, decide_True, Hp by done. cbn. by rewrite list_lookup_insert_eq. Qed.

Lemma store_bottom h p i v nd : h !! p = Some nd -> (i < length (sn_next nd))%nat ->
  bottom (store h p i v) = if decide (i = O) then <[p := mkL (sn_key nd) (MARKED v) None (PTR v)]> (bottom h) else bottom h.
Proof.
  intros Hp Hi. apply map_eq. intros q. unfold bottom. rewrite lookup_fmap, store_lookup. destruct (decide (q = p)) as [->|Hq].
  - rewrite Hp. cbn. unfold bottom_node. cbn. case_decide as E.
    + subst i. rewrite lookup_insert_eq, list_lookup_insert_eq by done. done.
    + rewrite lookup_fmap, Hp. cbn. by rewrite list_lookup_insert_ne by done.
  - case_decide; [rewrite lookup_insert_ne by done|]; by rewrite lookup_fmap.
Qed.

Lemma cas_spec h p i old new nd v : h !! p = Some nd -> sn_next nd !! i = Some v ->
  cas h p i old new = Ok (if v =? old then (store h p i new, true) else (h, false)).
Proof. intros Hp Hv. unfold cas, load. rewrite Hp. cbn. by rewrite Hv. Qed.

(** ** The levels *)

Section invariant.
Context (head tail : Z) (max_level : nat) (K0 : gset Z) (hk tk : Z).
Implicit Types (h : gmap Z sknode) (pub : gset Z).

Record levels h pub : Prop := {
  lv_node p : p ∈ pub -> addr p /\ exists nd, h !! p = Some nd /\ (1 <= sn_top nd <= length (sn_next nd))%nat;
  lv_good p i : p ∈ pub -> p <> tail -> (i < stop h p)%nat -> good (link h p i);
  lv_up p i : p ∈ pub -> p <> tail -> (i < stop h p)%nat -> nx h p i ∈ pub /\ (i < stop h (nx h p i))%nat;
  lv_marks p i : p ∈ pub -> mk h p O = true -> (i < stop h p)%nat -> mk h p i = true;
  lv_ends i : mk h head i = false /\ mk h tail i = false;
  lv_top : head ∈ pub /\ (max_level <= stop h head)%nat /\ tail ∈ pub /\ (max_level <= stop h tail)%nat;
}.

Lemma levels_link h pub p i : levels h pub -> p ∈ pub -> (i < stop h p)%nat ->
  exists nd, h !! p = Some nd /\ sn_next nd !! i = Some (link h p i) /\ load h p i = Ok (nd, link h p i) /\ (i < length (sn_next nd))%nat /\ skey h p = sn_key nd.
Proof.
  intros Hl Hp Hi. destruct (lv_node _ _ Hl p Hp) as (_ & nd & Hnd & Ht). unfold stop in Hi. rewrite Hnd in Hi. cbn in Hi.
  destruct (lookup_lt_is_Some_2 (sn_next nd) i ltac:(lia)) as [v Hv]. exists nd. unfold link, skey. rewrite Hnd. cbn. rewrite Hv. cbn.
  split_and!; try done; [|lia]. unfold load. rewrite Hnd. cbn. by rewrite Hv.
Qed.

Lemma levels_store h pub p i v : levels h pub -> p ∈ pub -> p <> tail -> (i < stop h p)%nat -> mk h p i = false ->
  good v -> PTR v ∈ pub -> (i < stop h (PTR v))%nat ->
  (MARKED v = true -> p <> head /\ (i = O -> forall j, (0 < j < stop h p)%nat -> mk h p j = true)) -> levels (store h p i v) pub.
Proof.
  intros Hl Hp Hpt Hi Hm Hv Hvp Hvi Hmark. destruct (levels_link h pub p i Hl Hp Hi) as (nd & Hnd & _ & _ & Hlen & _).
  assert (Heq : link (store h p i v) p i = v) by by apply (store_link_eq h p i v nd). assert (Hne' := store_link_ne h p i v).
  assert (Hne : forall q j, ~ (q = p /\ j = i) -> link (store h p i v) q j = link h q j) by (intros q j H; apply Hne'; destruct (decide (q = p)); tauto).
  destruct Hl as [Hnode Hgood Hup Hmarks Hends Htop]. split.
  - intros q Hq. destruct (Hnode q Hq) as (Ha & nq & Hnq & Ht). split; [done|]. rewrite store_lookup. case_decide; [|by exists nq].
    subst q. rewrite Hnq. eexists. split; [done|]. cbn. by rewrite length_insert.
  - intros q j Hq Hqt Hj. rewrite store_top in Hj. destruct (decide (q = p /\ j = i)) as [[-> ->]|Hqj]; [by rewrite Heq|]. rewrite Hne by tauto. auto.
  - intros q j Hq Hqt Hj. rewrite store_top in *. unfold nx. destruct (decide (q = p /\ j = i)) as [[-> ->]|Hqj]; [by rewrite Heq|]. rewrite Hne by tauto. by apply Hup.
  - intros q j Hq. unfold mk. rewrite store_top. intros H0 Hj. destruct (decide (q = p)) as [->|Hqp]; [|rewrite Hne in * by tauto; by apply Hmarks].
    destruct (decide (i = O)) as [->|Hi0].
    + rewrite Heq in H0. destruct (decide (j = O)) as [->|]; [by rewrite Heq|]. rewrite Hne by tauto. apply (Hmark H0); [done|lia].
    + rewrite Hne in H0 by (intros [_ E]; congruence). unfold mk in *. rewrite (Hmarks p i Hp H0 Hi) in Hm. done.
  - intros j. unfold mk. split.
    + destruct (decide (head = p /\ j = i)) as [[E ->]|Hqj].
      * rewrite E, Heq. destruct (MARKED v); [|done]. by destruct (Hmark eq_refl).
      * rewrite Hne by tauto. apply Hends.
    + rewrite Hne by (intros [E _]; congruence). apply Hends.
  - by rewrite !store_top.
Qed.

Lemma insert_other h n nd p : p <> n -> skey (<[n := nd]> h) p = skey h p /\ stop (<[n := nd]> h) p = stop h p /\ forall i, link (<[n := nd]> h) p i = link h p i.
Proof. intros Hp. unfold skey, stop, link. by rewrite lookup_insert_ne. Qed.

Lemma levels_private h pub n nd : levels h pub -> n ∉ pub -> levels (<[n := nd]> h) pub.
Proof.
  intros Hl Hn. assert (Hsame : forall p, p ∈ pub -> p <> n /\ skey (<[n := nd]> h) p = skey h p /\ stop (<[n := nd]> h) p = stop h p /\ forall i, link (<[n := nd]> h) p i = link h p i).
  { intros p Hp. assert (p <> n) by congruence. split; [done|]. by apply insert_other. }
  pose proof Hl as [Hnode Hgood Hup Hmarks Hends (Hh & Hth & Ht & Htt)]. split.
  - intros p Hp. rewrite lookup_insert_ne; [auto|]. by destruct (Hsame p Hp).
  - intros p i Hp. destruct (Hsame p Hp) as (_ & _ & -> & ->). auto.
  - intros p i Hp Hpt. unfold nx. destruct (Hsame p Hp) as (_ & _ & -> & ->). intros Hi. destruct (Hup p i Hp Hpt Hi) as [H1 H2]. split; [done|].
    destruct (Hsame _ H1) as (_ & _ & E & _). unfold nx in E, H2. by rewrite E.
  - intros p i Hp. unfold mk. destruct (Hsame p Hp) as (_ & _ & E1 & E2). rewrite E1, !E2. apply Hmarks; done.
  - intros i. unfold mk. destruct (Hsame _ Hh) as (_ & _ & _ & ->), (Hsame _ Ht) as (_ & _ & _ & ->). apply Hends.
  - destruct (Hsame _ Hh) as (_ & _ & -> & _), (Hsame _ Ht) as (_ & _ & -> & _). done.
Qed.

Lemma levels_publish h pub n nd : levels h pub -> n ∉ pub -> addr n -> h !! n = Some nd -> (1 <= sn_top nd <= length (sn_next nd))%nat ->
  (forall i, (i < sn_top nd)%nat -> addr (link h n i) /\ link h n i ∈ pub /\ (i < stop h (link h n i))%nat) -> levels h ({[n]} ∪ pub).
Proof.
  intros Hl Hn Ha Hnd Ht Hlk. pose proof Hl as [Hnode Hgood Hup Hmarks Hends (Hh & Hth & Htl & Htt)].
  assert (Hst : stop h n = sn_top nd) by (unfold stop; by rewrite Hnd). split.
  - intros p [->%elem_of_singleton|Hp]%elem_of_union; [|auto]. split; [done|]. by exists nd.
  - intros p i [->%elem_of_singleton|Hp]%elem_of_union Hpt Hi; [|auto]. rewrite Hst in Hi. by apply good_addr, Hlk.
  - intros p i [->%elem_of_singleton|Hp]%elem_of_union Hpt Hi.
    + rewrite Hst in Hi. destruct (Hlk i Hi) as (H1 & H2 & H3). unfold nx. rewrite PTR_addr by done. split; [|done]. apply elem_of_union. by right.
    + destruct (Hup p i Hp Hpt Hi). split; [|done]. apply elem_of_union. by right.
  - intros p i [->%elem_of_singleton|Hp]%elem_of_union Hm Hi; [|auto]. destruct (Hlk O ltac:(lia)) as (H1 & _). unfold mk in Hm. by rewrite MARKED_addr in Hm.
  - done.
  - split; [|split; [done|split; [|done]]]; apply elem_of_union; by right.
Qed.

(** ** What a thread knows *)

Definition safe h pub (p : Z) (i : nat) : Prop := p ∈ pub /\ (i < stop h p)%nat.
(** The nodes that [find] has found at the levels from [lo] up. *)
Definition found_above h pub (x : Z) (lo : nat) (ps ss : list Z) : Prop :=
  (lo <= max_level)%nat /\ (length ps = max_level - lo)%nat /\ (length ss = max_level - lo)%nat /\
  (forall j p, ps !! j = Some p -> safe h pub p (lo + j) /\ skey h p < x) /\ (forall j s, ss !! j = Some s -> safe h pub s (lo + j)).
(** The node of an [add] that is not linked yet. *)
Definition private_node h pub (brk x n : Z) : Prop :=
  n ∉ pub /\ n < brk /\ addr n /\ exists nd, h !! n = Some nd /\ sn_key nd = x /\ (1 <= sn_top nd <= max_level)%nat /\ length (sn_next nd) = LF_MAX_LEVEL.

(** A key between those of the sentinels. *)
Definition in_range (x : Z) : Prop := hk < x < tk.

(** A call that may answer 0 has left a mark where its key was absent. *)
Definition was_absent (tr : list event) (t x : Z) : Prop := exists b, marked set_spec K0 t b tr /\ x ∉ b.
Definition seeking_from h (ch : list Z) (tr : list event) (t x p : Z) : Prop := seeking K0 (bottom h) ch tr t x p.
Definition unless_removed h (tr : list event) (t x n : Z) : Prop := was_absent tr t x \/ mk h n O = false.

Definition why_ok h pub (brk : Z) (tr : list event) (t x : Z) (w : why) : Prop :=
  match w with
  | WAdd None => status t tr = Some (Called ADD_OP x)
  | WAdd (Some n) => status t tr = Some (Called ADD_OP x) /\ private_node h pub brk x n
  | WRemove => status t tr = Some (Called REMOVE_OP x)
  | WSplice n j => status t tr = Some (Answered 1) /\ n ∈ pub /\ (1 <= j)%nat /\ (stop h n <= max_level)%nat
  end.

Definition sk_local h (brk : Z) (ch : list Z) pub (tr : list event) (t : Z) (p : spc) : Prop :=
  match p with
  | KIdle => status t tr = Some Out
  | KSucc x pred curr i | KSkip x pred curr i =>
      status t tr = Some (Called CONTAINS_OP x) /\ in_range x /\ safe h pub pred i /\ skey h pred < x /\ safe h pub curr i /\
      seeking_from h ch tr t x pred /\ (i = O -> seeking_from h ch tr t x curr) /\
      match p with KSkip _ _ _ _ => mk h curr i = true | _ => True end
  | FLoad w x pred i ps ss | FSucc w x pred _ i ps ss | FSnip w x pred _ _ i ps ss =>
      why_ok h pub brk tr t x w /\ in_range x /\ safe h pub pred i /\ skey h pred < x /\ found_above h pub x (S i) ps ss /\
      (w = WRemove -> seeking_from h ch tr t x pred) /\
      match p with
      | FSucc _ _ _ curr _ _ _ => safe h pub curr i /\ (w = WRemove -> i = O -> seeking_from h ch tr t x curr)
      | FSnip _ _ _ curr succ _ _ _ => safe h pub curr i /\ mk h curr i = true /\ nx h curr i = succ
      | _ => True
      end
  | ANew x ps ss | APrep x _ ps ss | ACas x _ ps ss =>
      status t tr = Some (Called ADD_OP x) /\ in_range x /\ found_above h pub x 0 ps ss /\ (forall s, ss !! O = Some s -> x < skey h s) /\
      match p with
      | APrep _ n _ _ => private_node h pub brk x n
      | ACas _ n _ _ => private_node h pub brk x n /\ forall i, (i < stop h n)%nat -> ss !! i = Some (link h n i)
      | _ => True
      end
  | ASplice x n j ps ss =>
      status t tr = Some (Answered 1) /\ in_range x /\ found_above h pub x 0 ps ss /\ n ∈ pub /\ (1 <= j)%nat /\ (stop h n <= max_level)%nat
  | RLoad x n i | RCas x n _ i =>
      status t tr = Some (Called REMOVE_OP x) /\ in_range x /\ n ∈ pub /\ skey h n = x /\ (0 < i < stop h n)%nat /\
      (forall j, (i < j < stop h n)%nat -> mk h n j = true) /\ unless_removed h tr t x n /\
      match p with RCas _ _ succ _ => addr succ | _ => True end
  | R0Load x n | R0Cas x n _ | R0Chk x n false =>
      status t tr = Some (Called REMOVE_OP x) /\ in_range x /\ n ∈ pub /\ skey h n = x /\
      (forall j, (0 < j < stop h n)%nat -> mk h n j = true) /\ unless_removed h tr t x n /\
      match p with R0Cas _ _ succ => addr succ | _ => True end
  | R0Chk x n true => status t tr = Some (Answered 1) /\ in_range x /\ n ∈ pub
  | CLoad x pred pf i | CReload x pred pf i | CSucc x pred pf _ i | CSnip x pred pf _ _ i =>
      status t tr = Some (Answered 1) /\ in_range x /\ safe h pub pred i /\ skey h pred <= x /\ safe h pub pf i /\ skey h pf < x /\
      match p with
      | CSucc _ _ _ curr _ => safe h pub curr i \/ MARKED curr = true
      | CSnip _ _ _ curr succ _ => safe h pub curr i /\ mk h curr i = true /\ nx h curr i = succ
      | _ => True
      end
  | KRet r => status t tr = Some (Answered r)
  end.

Definition node_of (p : spc) : option Z :=
  match p with
  | FLoad (WAdd (Some n)) _ _ _ _ _ | FSucc (WAdd (Some n)) _ _ _ _ _ _ | FSnip (WAdd (Some n)) _ _ _ _ _ _ _ | APrep _ n _ _ | ACas _ n _ _ => Some n
  | _ => None
  end.

Record skinv (st : sks) (ch : list Z) (pub K : gset Z) : Prop := {
  si_shape : shape head tail (bottom (sk_heap st)) (sk_brk st) ch pub K;
  si_levels : levels (sk_heap st) pub;
  si_replay : replay set_spec K0 (sk_trace st) = Some K;
  si_local t p : sk_pcs st !! t = Some p -> sk_local (sk_heap st) (sk_brk st) ch pub (sk_trace st) t p;
  si_new t t' p p' n : sk_pcs st !! t = Some p -> sk_pcs st !! t' = Some p' -> node_of p = Some n -> node_of p' = Some n -> t = t';
  si_status t : is_Some (status t (sk_trace st));
  si_keys : skey (sk_heap st) head = hk /\ skey (sk_heap st) tail = tk;
  si_brk : sk_brk st mod 8 = 0;
  si_dom p : is_Some (sk_heap st !! p) -> addr p;
}.

(** ** Steps of other threads *)

Record evolves h h' pub pub' : Prop := {
  ev_sub : pub ⊆ pub';
  ev_key p : p ∈ pub -> skey h' p = skey h p;
  ev_top p : p ∈ pub -> stop h' p = stop h p;
  ev_mark p i : p ∈ pub -> (i < stop h p)%nat -> mk h p i = true -> mk h' p i = true /\ nx h' p i = nx h p i;
}.

Lemma evolves_refl h pub : evolves h h pub pub.
Proof. by split. Qed.

Lemma evolves_store h pub p i v : mk h p i = false -> evolves h (store h p i v) pub pub.
Proof.
  intros Hm. split; [done|intros; apply store_key|intros; apply store_top|]. intros q j _ _ Hq. unfold mk, nx in *.
  rewrite store_link_ne; [done|]. destruct (decide (q = p)) as [->|]; [right; intros ->; congruence|by left].
Qed.

Lemma evolves_private h pub n nd : n ∉ pub -> evolves h (<[n := nd]> h) pub pub.
Proof.
  intros Hn. assert (Hs : forall p, p ∈ pub -> p <> n) by congruence. split; [done|..].
  - intros p Hp. by destruct (insert_other h n nd p (Hs p Hp)).
  - intros p Hp. by destruct (insert_other h n nd p (Hs p Hp)) as (_ & ? & _).
  - intros p i Hp _ Hm. unfold mk, nx in *. by destruct (insert_other h n nd p (Hs p Hp)) as (_ & _ & ->).
Qed.

Lemma evolves_publish h pub h' n : evolves h h' pub pub -> evolves h h' pub ({[n]} ∪ pub).
Proof. intros [_ H2 H3 H4]. split; try done. apply union_subseteq_r. Qed.

Lemma safe_mono h h' pub pub' p i : evolves h h' pub pub' -> safe h pub p i -> safe h' pub' p i.
Proof. intros He [Hp Hi]. split; [by apply (ev_sub _ _ _ _ He)|]. by rewrite (ev_top _ _ _ _ He). Qed.

Lemma safe_le h pub p i j : safe h pub p i -> (j <= i)%nat -> safe h pub p j.
Proof. intros [Hp Hi] Hj. split; [done|lia]. Qed.

Lemma found_above_mono h h' pub pub' x lo ps ss : evolves h h' pub pub' -> found_above h pub x lo ps ss -> found_above h' pub' x lo ps ss.
Proof.
  intros He (H0 & H1 & H2 & H3 & H4). split; [done|]. split; [done|]. split; [done|]. split.
  - intros j p Hj. destruct (H3 j p Hj) as [Hs Hk]. split; [by eapply safe_mono|]. destruct Hs as [Hs _]. by rewrite (ev_key _ _ _ _ He).
  - intros j s Hj. by eapply safe_mono; [done|apply H4].
Qed.

Lemma private_mono h h' pub pub' brk brk' x n : h' !! n = h !! n -> n ∉ pub' -> brk <= brk' -> private_node h pub brk x n -> private_node h' pub' brk' x n.
Proof. intros Hn Hp Hb (_ & H2 & H3 & H4). unfold private_node. rewrite Hn. split_and!; try done. lia. Qed.

(** The key and the node that the local knowledge is about. *)
Lemma sk_local_mono h h' brk brk' ch ch' pub pub' tr tr' t p : sk_local h brk ch pub tr t p -> evolves h h' pub pub' ->
  (forall n, node_of p = Some n -> h' !! n = h !! n /\ n ∉ pub') -> brk <= brk' -> status t tr' = status t tr ->
  (forall x q, seeks p = Some x -> q ∈ pub -> seeking_from h ch tr t x q -> seeking_from h' ch' tr' t x q) ->
  (forall x n, seeks p = Some x -> n ∈ pub -> skey h n = x -> unless_removed h tr t x n -> unless_removed h' tr' t x n) ->
  sk_local h' brk' ch' pub' tr' t p.
Proof.
  intros Hl He Hn Hb Hst Hsk Hur.
  assert (Hsub : forall q, q ∈ pub -> q ∈ pub') by (intros q; apply (ev_sub _ _ _ _ He)).
  assert (Hsf : forall q i, safe h pub q i -> safe h' pub' q i) by (intros q i; by apply safe_mono).
  assert (Hfa : forall x lo ps ss, found_above h pub x lo ps ss -> found_above h' pub' x lo ps ss) by (intros x lo ps ss; by apply found_above_mono).
  assert (Hk : forall q i, safe h pub q i -> skey h' q = skey h q) by (intros q i [Hq _]; by apply (ev_key _ _ _ _ He)).
  assert (Hmk : forall q i, safe h pub q i -> mk h q i = true -> mk h' q i = true /\ nx h' q i = nx h q i) by (intros q i [Hq Hi]; by apply (ev_mark _ _ _ _ He)).
  assert (Hall : forall n lo, n ∈ pub -> (forall j, (lo < j < stop h n)%nat -> mk h n j = true) -> forall j, (lo < j < stop h' n)%nat -> mk h' n j = true).
  { intros n lo Hp Hm j Hj. rewrite (ev_top _ _ _ _ He n Hp) in Hj. apply (Hmk n j); [split; [done|lia]|]. apply Hm. lia. }
  assert (Hwhy : forall w x, node_of (FLoad w x 0 O [] []) = node_of p -> why_ok h pub brk tr t x w -> why_ok h' pub' brk' tr' t x w).
  { intros [[n|]| |n j] x Ep; cbn [why_ok]; rewrite ?Hst; [|done..|].
    - intros [H1 H2]. split; [done|]. destruct (Hn n) as [E1 E2]; [by rewrite <- Ep|]. by eapply private_mono.
    - intros (H1 & H2 & H3 & H4). split_and!; try done; [by apply (ev_sub _ _ _ _ He)|]. by rewrite (ev_top _ _ _ _ He). }
  destruct p; cbn [sk_local] in *; rewrite ?Hst; try done.
  - destruct Hl as (H1 & H2 & H3 & H4 & H5 & H6 & H7 & H8). rewrite (Hk _ _ H3). split_and!; auto; [apply Hsk; [done|by destruct H3|done]|].
    intros E. apply Hsk; [done|by destruct H5|auto].
  - destruct Hl as (H1 & H2 & H3 & H4 & H5 & H6 & H7 & H8). rewrite (Hk _ _ H3). split_and!; auto; [apply Hsk; [done|by destruct H3|done]| |by apply Hmk].
    intros E. apply Hsk; [done|by destruct H5|auto].
  - destruct Hl as (H1 & H2 & H3 & H4 & H5 & H6 & H7). rewrite (Hk _ _ H3). split_and!; auto. intros ->. apply Hsk; [done|by destruct H3|auto].
  - destruct Hl as (H1 & H2 & H3 & H4 & H5 & H6 & H7 & H8). rewrite (Hk _ _ H3). split_and!; auto; [intros ->; apply Hsk; [done|by destruct H3|auto]|].
    intros -> E. apply Hsk; [done|by destruct H7|auto].
  - destruct Hl as (H1 & H2 & H3 & H4 & H5 & H6 & H7 & H8 & H9). rewrite (Hk _ _ H3). destruct (Hmk _ _ H7 H8) as [M1 ->].
    split_and!; auto. intros ->. apply Hsk; [done|by destruct H3|auto].
  - destruct Hl as (H1 & H2 & H3 & H4 & _). split_and!; auto. intros s Hs. rewrite (Hk s O); [auto|]. by apply (proj2 (proj2 (proj2 (proj2 H3))) O s).
  - destruct Hl as (H1 & H2 & H3 & H4 & H5). destruct (Hn n eq_refl) as [E1 E2]. split_and!; auto; [|by eapply private_mono].
    intros s Hs. rewrite (Hk s O); [auto|]. by apply (proj2 (proj2 (proj2 (proj2 H3))) O s).
  - destruct Hl as (H1 & H2 & H3 & H4 & H5 & H6). destruct (Hn n eq_refl) as [E1 E2]. split_and!; auto; [|by eapply private_mono|].
    + intros s Hs. rewrite (Hk s O); [auto|]. by apply (proj2 (proj2 (proj2 (proj2 H3))) O s).
    + unfold stop, link in *. by rewrite E1.
  - destruct Hl as (H1 & H2 & H3 & H4 & H5 & H6). rewrite (ev_top _ _ _ _ He) by done. split_and!; auto.
  - destruct Hl as (H1 & H2 & H3 & H4 & H5 & H6 & H7 & H8). pose proof (Hsub n H3). rewrite (ev_key _ _ _ _ He) by done. split; [done|]. split; [done|]. split; [done|]. split; [done|].
    split; [by rewrite (ev_top _ _ _ _ He)|]. split; [by apply Hall|]. split; [|done]. by apply Hur.
  - destruct Hl as (H1 & H2 & H3 & H4 & H5 & H6 & H7 & H8). pose proof (Hsub n H3). rewrite (ev_key _ _ _ _ He) by done. split; [done|]. split; [done|]. split; [done|]. split; [done|].
    split; [by rewrite (ev_top _ _ _ _ He)|]. split; [by apply Hall|]. split; [|done]. by apply Hur.
  - destruct Hl as (H1 & H2 & H3 & H4 & H5 & H6 & H7). pose proof (Hsub n H3). rewrite (ev_key _ _ _ _ He) by done. split; [done|]. split; [done|]. split; [done|]. split; [done|].
    split; [by apply Hall|]. split; [|done]. by apply Hur.
  - destruct Hl as (H1 & H2 & H3 & H4 & H5 & H6 & H7). pose proof (Hsub n H3). rewrite (ev_key _ _ _ _ He) by done. split; [done|]. split; [done|]. split; [done|]. split; [done|].
    split; [by apply Hall|]. split; [|done]. by apply Hur.
  - destruct mine; rewrite ?Hst.
    + destruct Hl as (H1 & H2 & H3). split; [done|]. split; [done|]. by apply Hsub.
    + destruct Hl as (H1 & H2 & H3 & H4 & H5 & H6 & H7). pose proof (Hsub n H3). rewrite (ev_key _ _ _ _ He) by done. split; [done|]. split; [done|]. split; [done|]. split; [done|].
      split; [by apply Hall|]. split; [|done]. by apply Hur.
  - destruct Hl as (H1 & H2 & H3 & H4 & H5 & H6 & _). rewrite (Hk _ _ H3), (Hk _ _ H5). split_and!; auto; lia.
  - destruct Hl as (H1 & H2 & H3 & H4 & H5 & H6 & H7). rewrite (Hk _ _ H3), (Hk _ _ H5). split_and!; auto; try lia. destruct H7; auto.
  - destruct Hl as (H1 & H2 & H3 & H4 & H5 & H6 & H7 & H8 & H9). rewrite (Hk _ _ H3), (Hk _ _ H5). destruct (Hmk _ _ H7 H8) as [M1 ->]. split_and!; auto; lia.
  - destruct Hl as (H1 & H2 & H3 & H4 & H5 & H6 & _). rewrite (Hk _ _ H3), (Hk _ _ H5). split_and!; auto; lia.
Qed.

Lemma sk_local_status h brk ch pub tr t p : sk_local h brk ch pub tr t p -> is_Some (status t tr).
Proof.
  destruct p; cbn [sk_local]; intros H; try (apply proj1 in H); eauto.
  1-3: destruct w as [[n|]| |n j]; cbn [why_ok] in H; try (apply proj1 in H); eauto.
  destruct mine; apply proj1 in H; eauto.
Qed.

(** A thread that seeks a key is in a call for it. *)
Lemma seeks_called h brk ch pub tr t p x : sk_local h brk ch pub tr t p -> seeks p = Some x -> exists op, status t tr = Some (Called op x).
Proof.
  destruct p; cbn [sk_local seeks]; try done; try (destruct w as [[?|]| |]; try done); try (destruct mine; try done);
    intros H [= <-]; apply proj1 in H; eauto.
Qed.

Lemma node_bound h brk ch pub tr t p n : sk_local h brk ch pub tr t p -> node_of p = Some n -> n ∉ pub /\ n < brk.
Proof.
  destruct p; cbn [sk_local node_of]; try done; try (destruct w as [[?|]| |]; try done); intros H [= <-].
  1-3: destruct H as ((_ & H1 & H2 & _) & _); done.
  - destruct H as (_ & _ & _ & _ & H1 & H2 & _). done.
  - destruct H as (_ & _ & _ & _ & (H1 & H2 & _) & _). done.
Qed.

(** A step of [t] from [p] to [p']. *)
Lemma skinv_update st st' ch ch' pub pub' K K' t p p' : skinv st ch pub K -> sk_pcs st !! t = Some p -> sk_pcs st' = <[t := p']> (sk_pcs st) ->
  shape head tail (bottom (sk_heap st')) (sk_brk st') ch' pub' K' -> levels (sk_heap st') pub' -> replay set_spec K0 (sk_trace st') = Some K' ->
  evolves (sk_heap st) (sk_heap st') pub pub' -> sk_brk st <= sk_brk st' -> sk_brk st' mod 8 = 0 -> (forall a, is_Some (sk_heap st' !! a) -> addr a) ->
  (forall t' q n, t' <> t -> sk_pcs st !! t' = Some q -> node_of q = Some n -> sk_heap st' !! n = sk_heap st !! n /\ n ∉ pub') ->
  (forall t', t' <> t -> status t' (sk_trace st') = status t' (sk_trace st)) ->
  (forall t' q x a, t' <> t -> sk_pcs st !! t' = Some q -> seeks q = Some x -> a ∈ pub ->
     seeking_from (sk_heap st) ch (sk_trace st) t' x a -> seeking_from (sk_heap st') ch' (sk_trace st') t' x a) ->
  (forall t' q x n, t' <> t -> sk_pcs st !! t' = Some q -> seeks q = Some x -> n ∈ pub -> skey (sk_heap st) n = x ->
     unless_removed (sk_heap st) (sk_trace st) t' x n -> unless_removed (sk_heap st') (sk_trace st') t' x n) ->
  sk_local (sk_heap st') (sk_brk st') ch' pub' (sk_trace st') t p' ->
  (forall n, node_of p' = Some n -> node_of p = Some n \/ sk_brk st <= n) -> skinv st' ch' pub' K'.
Proof.
  intros [Ish Ilv Irep Iloc Inew Ist [Ikh Ikt] Ibrk Idom] Hp Hpcs Hsh Hlv Hrep Hev Hbrk Hb8 Hdom Hnw Hst Hsk Hur Hloc Hn.
  destruct (lv_top _ _ Ilv) as (Hhp & _ & Htp & _).
  assert (Hpc : forall t' q, sk_pcs st' !! t' = Some q -> t' = t /\ q = p' \/ t' <> t /\ sk_pcs st !! t' = Some q).
  { intros t' q. rewrite Hpcs. destruct (decide (t' = t)) as [->|]; [rewrite lookup_insert_eq|rewrite lookup_insert_ne by done]; naive_solver. }
  split; try done.
  - intros t' q [[-> ->]|[Hne Hq]]%Hpc; [done|]. eapply sk_local_mono; [by apply Iloc|done| |done|by apply Hst| |].
    + intros n Ho. by apply (Hnw t' q).
    + intros x a. by apply (Hsk t' q).
    + intros x n. by apply (Hur t' q).
  - intros t1 t2 p1 p2 n [[-> ->]|[N1 H1]]%Hpc [[-> ->]|[N2 H2]]%Hpc O1 O2; [done| | |by apply (Inew t1 t2 p1 p2 n)].
    + destruct (Hn n O1) as [O|O]; [by apply (Inew t t2 p p2 n)|]. destruct (node_bound _ _ _ _ _ _ _ _ (Iloc t2 p2 H2) O2). lia.
    + destruct (Hn n O2) as [O|O]; [by apply (Inew t1 t p1 p n)|]. destruct (node_bound _ _ _ _ _ _ _ _ (Iloc t1 p1 H1) O1). lia.
  - intros t'. destruct (decide (t' = t)) as [->|Hne]; [by eapply sk_local_status|]. rewrite Hst by done. apply Ist.
  - by rewrite !(ev_key _ _ _ _ Hev).
Qed.

Lemma node_private st ch pub K t q n : skinv st ch pub K -> sk_pcs st !! t = Some q -> node_of q = Some n -> n ∉ pub /\ n < sk_brk st.
Proof. intros Hi Hq Ho. eapply node_bound; [by apply (si_local _ _ _ _ Hi)|done]. Qed.

(** A step that changes nothing but the place of the thread. *)
Lemma skinv_goto st ch pub K t p p' : skinv st ch pub K -> sk_pcs st !! t = Some p ->
  sk_local (sk_heap st) (sk_brk st) ch pub (sk_trace st) t p' -> (forall n, node_of p' = Some n -> node_of p = Some n) ->
  skinv (sk_goto st t p') ch pub K.
Proof.
  intros Hi Hp Hl Hn. pose proof Hi as [Ish Ilv Irep Iloc Inew Ist Ik Ib Idom]. eapply (skinv_update st); [done|done|done|done|done|done|apply evolves_refl|done|done|done|..]; try done.
  - intros t' q n _ Hq Ho. split; [done|]. by eapply node_private.
  - intros n Ho. left. auto.
Qed.

(** A step with an event of the thread, which does not change the memory. *)
Lemma skinv_event st ch pub K K' t p p' e : skinv st ch pub K -> sk_pcs st !! t = Some p -> ev_thread e = t ->
  replay set_spec K0 (e :: sk_trace st) = Some K' -> K' = K -> sk_local (sk_heap st) (sk_brk st) ch pub (e :: sk_trace st) t p' ->
  (forall n, node_of p' = Some n -> node_of p = Some n) -> skinv (sk_goto (sk_record st [e]) t p') ch pub K'.
Proof.
  intros Hi Hp He Hr -> Hl Hn. pose proof Hi as [Ish Ilv Irep Iloc Inew Ist Ik Ib Idom]. eapply (skinv_update st); [done|done|done|done|done|done|apply evolves_refl|done|done|done|..]; cbn.
  - intros t' q n _ Hq Ho. split; [done|]. by eapply node_private.
  - intros t' Hne. apply status_other. congruence.
  - intros t' q x a Hne _ _ _ Hs. apply seeking_step; [congruence|done].
  - intros t' q x n Hne _ _ _ _ [(b & H1 & H2)|H]; [left|by right]. exists b. split; [|done]. apply marked_step; [congruence|done].
  - done.
  - intros n Ho. left. auto.
Qed.

(** A call answers 0 from the mark it left. *)
Lemma skinv_confirm st ch pub K t p op x : skinv st ch pub K -> sk_pcs st !! t = Some p -> op = CONTAINS_OP \/ op = REMOVE_OP ->
  status t (sk_trace st) = Some (Called op x) -> was_absent (sk_trace st) t x ->
  skinv (sk_goto (sk_set_trace st (confirm t op x 0 (sk_trace st))) t (KRet 0)) ch pub K.
Proof.
  intros Hi Hp Hop Hs (b & Hm & Hx). pose proof Hi as [Ish Ilv Irep Iloc Inew Ist Ik Ib Idom].
  assert (Hspec : set_spec b op x = (b, 0)).
  { unfold set_spec. destruct Hop as [-> | ->]; cbn; by rewrite (decide_False (P := x ∈ b)). }
  destruct (confirm_ok set_spec K0 t op x 0 b (sk_trace st) Hm Hspec Hs) as (C1 & C2 & C3).
  assert (Hkeep : forall t' b', t' <> t -> marked set_spec K0 t' b' (sk_trace st) -> marked set_spec K0 t' b' (confirm t op x 0 (sk_trace st))).
  { intros t' b' Hne Hm'. by apply (marked_confirm _ _ t' t b' b). }
  eapply (skinv_update st); [done|done|done|done|done|by cbn; rewrite C2|apply evolves_refl|done|done|done|..]; cbn; try done.
  - intros t' q n _ Hq Ho. split; [done|]. by eapply node_private.
  - intros t' q y a Hne _ _ _ [(b' & H1 & H2)|H]; [left|by right]. exists b'. split; [|done]. by apply Hkeep.
  - intros t' q y n Hne _ _ _ _ [(b' & H1 & H2)|H]; [left|by right]. exists b'. split; [|done]. by apply Hkeep.
Qed.

(** ** Changes of the memory *)

Ltac sk_cbn := cbn [sk_heap sk_goto sk_set_heap sk_brk sk_trace sk_pcs sk_record sk_set_trace app].

(** A link above the bottom level. *)
Lemma skinv_upper st ch pub K t p p' a i v : skinv st ch pub K -> sk_pcs st !! t = Some p -> a ∈ pub -> a <> tail -> (0 < i < stop (sk_heap st) a)%nat ->
  mk (sk_heap st) a i = false -> good v -> PTR v ∈ pub -> (i < stop (sk_heap st) (PTR v))%nat -> (MARKED v = true -> a <> head) ->
  sk_local (sk_heap st) (sk_brk st) ch pub (sk_trace st) t p' -> (forall n, node_of p' = Some n -> node_of p = Some n) ->
  skinv (sk_goto (sk_set_heap st (store (sk_heap st) a i v)) t p') ch pub K.
Proof.
  intros Hi Hp Ha Hat Hia Hm Hv Hvp Hvi Hmh Hl Hn. pose proof Hi as [Ish Ilv Irep Iloc Inew Ist Ik Ib Idom].
  destruct (levels_link _ _ a i Ilv Ha ltac:(lia)) as (nd & Hnd & _ & _ & Hlen & _).
  assert (Hbot : bottom (store (sk_heap st) a i v) = bottom (sk_heap st)) by (rewrite (store_bottom _ _ _ _ nd) by done; by rewrite decide_False by lia).
  eapply (skinv_update st); [done|done|done|by sk_cbn; rewrite Hbot| |done|by apply evolves_store|done|done|sk_cbn; intros b Hb; apply store_some in Hb; by apply Idom|..]; sk_cbn; try done.
  - apply levels_store; try done; [lia|]. intros E. split; [auto|lia].
  - intros t' q n _ Hq Ho. destruct (node_private _ _ _ _ _ _ _ Hi Hq Ho) as [H1 _]. split; [|done]. rewrite store_lookup, decide_False; [done|]. congruence.
  - intros t' q x b _ _ _ _. unfold seeking_from. by rewrite Hbot.
  - intros t' q x n _ _ _ _ _. unfold unless_removed, mk. rewrite store_link_ne by lia. done.
  - eapply sk_local_mono; [exact Hl|by apply evolves_store| |done|done| |].
    + intros n Ho. destruct (node_bound _ _ _ _ _ _ _ _ Hl Ho) as [H1 _]. split; [|done]. rewrite store_lookup, decide_False; [done|]. congruence.
    + intros x q _ _. unfold seeking_from. by rewrite Hbot.
    + intros x n _ _ _. unfold unless_removed, mk. rewrite store_link_ne by lia. done.
  - intros n Ho. left. auto.
Qed.

(** The bottom link of an unmarked node. *)
Lemma bottom_store h pub a v nd : levels h pub -> a ∈ pub -> h !! a = Some nd -> mk h a O = false -> MARKED v = false ->
  bottom (store h a O v) = <[a := set_lnext (bottom_node nd) (PTR v)]> (bottom h).
Proof.
  intros Hl Ha Hnd Hm Hv. destruct (lv_node _ _ Hl a Ha) as (_ & nd' & Hnd' & Ht). rewrite Hnd in Hnd'. injection Hnd' as <-.
  rewrite (store_bottom _ _ _ _ nd) by (done || lia). rewrite decide_True by done. unfold mk, link in Hm. rewrite Hnd in Hm. cbn in Hm. unfold set_lnext, bottom_node. cbn.
  by rewrite Hv, Hm.
Qed.

Lemma bottom_at h a nd : h !! a = Some nd -> bottom h !! a = Some (bottom_node nd).
Proof. intros H. unfold bottom. by rewrite lookup_fmap, H. Qed.

(** [find] unlinks a marked node at the bottom level. *)
Lemma skinv_unlink st ch pub K t p p' a curr succ : skinv st ch pub K -> sk_pcs st !! t = Some p -> a ∈ pub -> skey (sk_heap st) a < tk ->
  link (sk_heap st) a O = curr -> curr ∈ pub -> mk (sk_heap st) curr O = true -> nx (sk_heap st) curr O = succ ->
  sk_local (sk_heap st) (sk_brk st) ch pub (sk_trace st) t p' ->
  (forall n, node_of p' = Some n -> node_of p = Some n) ->
  exists ch', skinv (sk_goto (sk_set_heap st (store (sk_heap st) a O succ)) t p') ch' pub K.
Proof.
  intros Hi Hp Ha Hka Hlk Hcp Hmc Hns Hloc Hn. pose proof Hi as [Ish Ilv Irep Iloc Inew Ist [Ikh Ikt] Ib Idom]. set (h := sk_heap st) in *.
  destruct (lv_node _ _ Ilv curr Hcp) as (Hac & nc & Hnc & Htc). destruct (lv_node _ _ Ilv a Ha) as (Haa & na & Hna & Hta).
  assert (Hma : mk h a O = false) by (unfold mk; rewrite Hlk; by apply MARKED_addr).
  assert (Hct : curr <> tail) by (intros ->; destruct (lv_ends _ _ Ilv O) as [_ E]; congruence).
  assert (Hat : a <> tail) by (intros ->; lia). assert (Hsc : stop h curr = sn_top nc) by (unfold stop; by rewrite Hnc).
  assert (Hsa : stop h a = sn_top na) by (unfold stop; by rewrite Hna).
  destruct (lv_up _ _ Ilv curr O Hcp Hct ltac:(lia)) as [Hsp Hss]. rewrite Hns in Hsp, Hss. destruct (lv_node _ _ Ilv succ Hsp) as (Has & _).
  assert (Hbot : bottom (store h a O succ) = <[a := set_lnext (bottom_node na) succ]> (bottom h)).
  { rewrite (bottom_store h pub a succ na) by (try done; by apply MARKED_addr). by rewrite PTR_addr. }
  assert (Hnext : next_of (bottom h) a = curr) by (rewrite bottom_next; unfold nx; rewrite Hlk; by apply PTR_addr).
  destruct (shape_pair _ _ _ _ _ _ _ a curr Ish Ha) as (l1 & l2 & Ech); [by rewrite bottom_mark|done|rewrite !bottom_key; lia|].
  assert (Hl2 : exists l3, l2 = succ :: l3).
  { subst ch. pose proof (sh_next _ _ _ _ _ _ _ Ish) as Hlinks. apply links_app in Hlinks as [_ [_ [Hl _]]]. destruct l2 as [|s l3].
    - pose proof (sh_tail _ _ _ _ _ _ _ Ish) as E. replace (l1 ++ [a; curr]) with ((l1 ++ [a]) ++ [curr]) in E by (by rewrite <- app_assoc). rewrite last_snoc in E. congruence.
    - exists l3. rewrite bottom_next in Hl. congruence. }
  destruct Hl2 as [l3 ->]. subst ch. set (h' := store h a O succ) in *.
  assert (Hseek : forall t' x q, q ∈ pub -> seeking_from h (l1 ++ a :: curr :: succ :: l3) (sk_trace st) t' x q -> seeking_from h' (l1 ++ a :: succ :: l3) (sk_trace st) t' x q).
  { intros t' x q Hq [H|(m & H1 & H2 & H3 & H4)]; [by left|right]. exists m. rewrite bottom_key, bottom_mark in *.
    assert (Hmc' : m <> curr) by congruence. split; [apply elem_between in H1 as [->|H1]; done|]. unfold h'. rewrite store_key. split; [done|]. split.
    - unfold mk in *. destruct (decide (m = a)) as [->|]; [rewrite (store_link_eq _ _ _ _ na) by (done || lia); by apply MARKED_addr|rewrite store_link_ne by auto; done].
    - fold h'. rewrite Hbot. apply (reach_unlink (bottom h) a curr succ (bottom_node na)); try done; [by apply bottom_at| |apply bottom_some; by exists nc|by rewrite bottom_next|congruence].
      unfold next_of in Hnext. by rewrite (bottom_at h a na Hna) in Hnext. }
  assert (Hremoved : forall t' x n, unless_removed h (sk_trace st) t' x n -> unless_removed h' (sk_trace st) t' x n).
  { intros t' x n [H|H]; [by left|right]. unfold h', mk in *. destruct (decide (n = a)) as [->|]; [|by rewrite store_link_ne by auto].
    rewrite (store_link_eq _ _ _ _ na) by (done || lia). by apply MARKED_addr. }
  exists (l1 ++ a :: succ :: l3). eapply (skinv_update st); [done|done|done| | |done|by apply evolves_store|done|done|sk_cbn; intros b Hb; apply store_some in Hb; by apply Idom|..]; sk_cbn; fold h h'; try done.
  - rewrite Hbot. eapply shape_unlink; [exact Ish|by apply bottom_at|by rewrite bottom_mark].
  - apply levels_store; try done; [lia|by apply good_addr|by rewrite PTR_addr|by rewrite PTR_addr|]. rewrite MARKED_addr by done. done.
  - intros t' q n _ Hq Ho. destruct (node_private _ _ _ _ _ _ _ Hi Hq Ho) as [H1 _]. split; [|done]. unfold h'. rewrite store_lookup, decide_False; [done|]. congruence.
  - intros t' q x b _ _ _ Hb. by apply Hseek.
  - intros t' q x n _ _ _ _ _. apply Hremoved.
  - eapply sk_local_mono; [exact Hloc|by apply evolves_store| |done|done|intros x q _; apply Hseek|intros x n _ _ _; apply Hremoved].
    intros n Ho. destruct (node_bound _ _ _ _ _ _ _ _ Hloc Ho) as [H1 _]. split; [|done]. unfold h'. rewrite store_lookup, decide_False; [done|]. congruence.
  - intros n Ho. left. auto.
Qed.

Context (Hml : (2 <= max_level <= LF_MAX_LEVEL)%nat).

(** [add] links its node at the bottom level. *)
Lemma skinv_insert st ch pub K t x n ps ss pred succ : skinv st ch pub K -> sk_pcs st !! t = Some (ACas x n ps ss) -> ps !! O = Some pred -> ss !! O = Some succ ->
  link (sk_heap st) pred O = succ ->
  exists ch', skinv (sk_goto (sk_record (sk_set_heap st (store (sk_heap st) pred O n)) [Lin t ADD_OP x 1]) t (ASplice x n 1 ps ss)) ch' ({[n]} ∪ pub) ({[x]} ∪ K).
Proof.
  intros Hi Hp Hps Hss Hlk. pose proof Hi as [Ish Ilv Irep Iloc Inew Ist [Ikh Ikt] Ib Idom]. set (h := sk_heap st) in *.
  destruct (Iloc t _ Hp) as (Hst & Hx & Hfa & Hgt & (Hnp & Hnb & Han & nn & Hnn & Hkn & Htn & Hln) & Hlinks). fold h in Hfa, Hgt, Hlinks, Hnn. unfold in_range in Hx.
  pose proof Hfa as (_ & _ & _ & Hpre & Hsuc). destruct (Hpre O pred Hps) as [[Hpp Hpt] Hpk]. destruct (Hsuc O succ Hss) as [Hsp Hst']. specialize (Hgt succ Hss).
  destruct (lv_node _ _ Ilv succ Hsp) as (Has & _). destruct (lv_node _ _ Ilv pred Hpp) as (Hap & np & Hpn & Htp).
  assert (Hmp : mk h pred O = false) by (unfold mk; rewrite Hlk; by apply MARKED_addr).
  assert (Hptl : pred <> tail) by (intros ->; lia). assert (Hne : n <> pred) by congruence. assert (Hsn : stop h n = sn_top nn) by (unfold stop; by rewrite Hnn).
  assert (Hn0 : link h n O = succ) by (pose proof (Hlinks O ltac:(lia)); congruence).
  assert (Hnext : next_of (bottom h) pred = succ) by (rewrite bottom_next; unfold nx; rewrite Hlk; by apply PTR_addr).
  destruct (shape_pair _ _ _ _ _ _ _ pred succ Ish Hpp) as (l1 & l2 & ->); [by rewrite bottom_mark|done|rewrite !bottom_key; lia|].
  assert (Hbot : bottom (store h pred O n) = <[pred := set_lnext (bottom_node np) n]> (bottom h)).
  { rewrite (bottom_store h pub pred n np) by (try done; by apply MARKED_addr). by rewrite PTR_addr. }
  assert (Hnb' : lmarked (bottom_node nn) = false /\ lnext (bottom_node nn) = succ /\ lkey (bottom_node nn) = x).
  { unfold link in Hn0. rewrite Hnn in Hn0. cbn in Hn0. unfold bottom_node. cbn. rewrite Hn0, PTR_addr by done. split; [by apply MARKED_addr|done]. }
  destruct Hnb' as (Hb1 & Hb2 & Hb3).
  assert (Hins := shape_insert head tail (bottom h) (sk_brk st) l1 l2 pred succ n (bottom_node np) (bottom_node nn) pub K Ish (bottom_at h pred np Hpn) (bottom_at h n nn Hnn) Hnp Hb1 Hb2).
  rewrite Hb3, !bottom_key in Hins. specialize (Hins ltac:(lia)). set (h' := store h pred O n) in *.
  assert (Hev : evolves h h' pub ({[n]} ∪ pub)) by (by apply evolves_publish, evolves_store).
  assert (Hlv : levels h' ({[n]} ∪ pub)).
  { assert (Hp1 : levels h ({[n]} ∪ pub)).
    { apply (levels_publish h pub n nn Ilv Hnp Han Hnn); [rewrite Hln; destruct Hml; lia|]. intros i Hil. specialize (Hlinks i ltac:(lia)). destruct (Hsuc i _ Hlinks) as [H1 H2].
      split; [|done]. by destruct (lv_node _ _ Ilv _ H1). }
    apply levels_store; try done; [apply elem_of_union; by right|by apply good_addr|rewrite PTR_addr by done; set_solver|rewrite PTR_addr by done; lia|].
    rewrite MARKED_addr by done. done. }
  exists (l1 ++ pred :: n :: succ :: l2). eapply (skinv_update st); [done|done|done| |done| |done|done|done|sk_cbn; intros b Hb; apply store_some in Hb; by apply Idom|..]; sk_cbn; fold h h'.
  - rewrite Hbot. exact Hins.
  - cbn. rewrite Irep. cbn. unfold set_spec. cbn. rewrite (decide_False (P := x ∈ K)); [done|]. apply (pair_absent head tail _ _ _ _ _ _ _ _ _ Ish). rewrite !bottom_key. lia.
  - intros t' q m Hne' Hq Ho. destruct (node_private _ _ _ _ _ _ _ Hi Hq Ho) as [H1 _]. split; [unfold h'; rewrite store_lookup, decide_False; [done|congruence]|].
    intros [->%elem_of_singleton|H2]%elem_of_union; [|done]. apply Hne'. by eapply (Inew t' t q).
  - intros t' Hne'. apply status_other. cbn. congruence.
  - intros t' q y a Hne' _ _ Ha [(b & H1 & H2)|(m & H1 & H2 & H3 & H4)]; [left|right].
    + exists b. split; [|done]. apply marked_step; [cbn; congruence|done].
    + exists m. rewrite bottom_key, bottom_mark in *. unfold h' at 1. rewrite store_key. split; [apply elem_between; by right|]. split; [done|]. split.
      * unfold h', mk in *. destruct (decide (m = pred)) as [->|]; [rewrite (store_link_eq _ _ _ _ np) by (done || lia); by apply MARKED_addr|by rewrite store_link_ne by auto].
      * rewrite Hbot. apply (reach_link (bottom h) pred succ); try done; [by apply bottom_at| |by eexists; apply bottom_at|by rewrite bottom_next; unfold nx; rewrite Hn0; apply PTR_addr|].
        -- unfold next_of in Hnext. by rewrite (bottom_at h pred np Hpn) in Hnext.
        -- rewrite !bottom_key. assert (skey h n = x) as -> by (unfold skey; by rewrite Hnn). lia.
  - intros t' q y m Hne' _ _ _ _ [(b & H1 & H2)|H]; [left|right].
    + exists b. split; [|done]. apply marked_step; [cbn; congruence|done].
    + unfold h', mk in *. destruct (decide (m = pred)) as [->|]; [rewrite (store_link_eq _ _ _ _ np) by (done || lia); by apply MARKED_addr|by rewrite store_link_ne by auto].
  - cbn [sk_local]. split; [by apply status_lin|]. split; [done|]. split; [by eapply found_above_mono|]. split; [set_solver|]. split; [lia|].
    unfold h'. rewrite store_top. lia.
  - done.
Qed.

Lemma elem_of_sk_seekers pcs x t : t ∈ sk_seekers pcs x <-> exists p, pcs !! t = Some p /\ seeks p = Some x.
Proof.
  unfold sk_seekers. rewrite list_elem_of_fmap. split.
  - intros ([u p] & -> & [H1 H2]%list_elem_of_filter). apply elem_of_map_to_list in H2. by exists p.
  - intros (p & H1 & H2). exists (t, p). split; [done|]. apply list_elem_of_filter. split; [done|]. by apply elem_of_map_to_list.
Qed.

(** [remove] marks its node at the bottom level. *)
Lemma skinv_mark st ch pub K t x n succ : skinv st ch pub K -> sk_pcs st !! t = Some (R0Cas x n succ) -> link (sk_heap st) n O = succ ->
  skinv (sk_goto (sk_record (sk_set_heap st (store (sk_heap st) n O (MARK succ))) ((Mark <$> sk_seekers (delete t (sk_pcs st)) x) ++ [Lin t REMOVE_OP x 1])) t (R0Chk x n true))
    ch pub (K ∖ {[x]}).
Proof.
  intros Hi Hp Hlk. pose proof Hi as [Ish Ilv Irep Iloc Inew Ist [Ikh Ikt] Ib Idom]. set (h := sk_heap st) in *.
  destruct (Iloc t _ Hp) as (Hst & Hx & Hn & Hk & Hm & Hur & Has). fold h in Hk, Hm, Hur. pose proof Hx as [Hx1 Hx2].
  destruct (lv_node _ _ Ilv n Hn) as (Han & nd & Hnd & Ht). assert (Hmn : mk h n O = false) by (unfold mk; rewrite Hlk; by apply MARKED_addr).
  assert (Hkok : key_ok head tail (bottom h) x) by (unfold key_ok; rewrite !bottom_key; lia).
  destruct (unmarked_present head tail _ _ _ _ _ _ _ Ish Hkok Hn ltac:(by rewrite bottom_mark) ltac:(by rewrite bottom_key)) as (HxK & Hch & Hnh & Hnt).
  assert (Hsn : stop h n = sn_top nd) by (unfold stop; by rewrite Hnd).
  assert (Hbot : bottom (store h n O (MARK succ)) = <[n := set_mark (bottom_node nd)]> (bottom h)).
  { rewrite (store_bottom _ _ _ _ nd) by (done || lia). rewrite decide_True by done. unfold set_mark, bottom_node. cbn. rewrite MARKED_MARK, PTR_MARK by done.
    unfold link in Hlk. rewrite Hnd in Hlk. cbn in Hlk. by rewrite Hlk, PTR_addr. }
  assert (Hsm := shape_mark head tail (bottom h) (sk_brk st) ch pub K n (bottom_node nd) Ish (bottom_at h n nd Hnd) Hch Hnh Hnt).
  assert (Hkn : lkey (bottom_node nd) = x) by (unfold skey in Hk; by rewrite Hnd in Hk). rewrite Hkn in Hsm. set (h' := store h n O (MARK succ)) in *.
  assert (Hrep : replay set_spec K0 (Lin t REMOVE_OP x 1 :: sk_trace st) = Some (K ∖ {[x]})).
  { cbn. rewrite Irep. cbn. unfold set_spec. cbn. by rewrite (decide_True (P := x ∈ K)) by done. }
  assert (Hts : t ∉ sk_seekers (delete t (sk_pcs st)) x) by (intros (q & Hq & _)%elem_of_sk_seekers; by rewrite lookup_delete_eq in Hq).
  assert (Habs : forall t' q, t' <> t -> sk_pcs st !! t' = Some q -> seeks q = Some x -> was_absent ((Mark <$> sk_seekers (delete t (sk_pcs st)) x) ++ [Lin t REMOVE_OP x 1] ++ sk_trace st) t' x).
  { intros t' q Hne Hq Hs. exists (K ∖ {[x]}). split; [|set_solver]. apply marks_marked; [|done]. apply elem_of_sk_seekers. exists q. by rewrite lookup_delete_ne by done. }
  assert (Hkeep : forall t' q y b, t' <> t -> sk_pcs st !! t' = Some q -> seeks q = Some y -> y <> x -> marked set_spec K0 t' b (sk_trace st) ->
    marked set_spec K0 t' b ((Mark <$> sk_seekers (delete t (sk_pcs st)) x) ++ [Lin t REMOVE_OP x 1] ++ sk_trace st)).
  { intros t' q y b Hne Hq Hs Hy Hm'. apply marks_keep; [|apply marked_step; [cbn; congruence|done]]. intros (q' & Hq' & Hs')%elem_of_sk_seekers.
    rewrite lookup_delete_ne in Hq' by done. congruence. }
  eapply (skinv_update st); [done|done|done| | | |by apply evolves_store|done|done|sk_cbn; intros b Hb; apply store_some in Hb; by apply Idom|..]; sk_cbn; fold h h'; rewrite <- ?app_assoc.
  - rewrite Hbot. exact Hsm.
  - destruct (lv_up _ _ Ilv n O Hn Hnt ltac:(lia)) as [U1 U2]. unfold nx in U1, U2. rewrite Hlk, PTR_addr in U1, U2 by done.
    apply levels_store; try done; [lia|by apply good_MARK|by rewrite PTR_MARK|by rewrite PTR_MARK].
  - by rewrite marks_replay.
  - intros t' q m _ Hq Ho. destruct (node_private _ _ _ _ _ _ _ Hi Hq Ho) as [H1 _]. split; [|done]. unfold h'. rewrite store_lookup, decide_False; [done|]. congruence.
  - intros t' Hne. destruct (decide (t' ∈ sk_seekers (delete t (sk_pcs st)) x)) as [Hin|Hin].
    + apply elem_of_sk_seekers in Hin as (q & Hq & Hs). rewrite lookup_delete_ne in Hq by done. destruct (seeks_called _ _ _ _ _ _ _ _ (Iloc t' q Hq) Hs) as [op Hop].
      rewrite Hop. apply marks_status. cbn [app]. by rewrite status_other.
    + rewrite marks_other by done. apply status_other. cbn. congruence.
  - intros t' q y a Hne Hq Hs Ha Hsk. destruct (decide (y = x)) as [->|Hy]; [left; by eapply Habs|]. destruct Hsk as [(b & H1 & H2)|(m & H1 & H2 & H3 & H4)]; [left|right].
    + exists b. split; [|done]. by eapply Hkeep.
    + exists m. rewrite bottom_key, bottom_mark in *. assert (m <> n) by congruence. split; [done|]. unfold h' at 1. rewrite store_key. split; [done|].
      split; [unfold h', mk in *; by rewrite store_link_ne by auto|]. eapply reach_pub; [exact Ish| |done|done|done].
      intros b Hb. rewrite Hbot. split; [apply some_insert, (sh_node _ _ _ _ _ _ _ Ish b Hb)|]. rewrite keyof_insert, next_insert. case_decide; [|done]. subst b.
      unfold keyof, next_of. by rewrite (bottom_at h n nd Hnd).
  - intros t' q y m Hne Hq Hs Hmp Hkm Hu. destruct (decide (y = x)) as [->|Hy]; [left; by eapply Habs|]. destruct Hu as [(b & H1 & H2)|H]; [left|right].
    + exists b. split; [|done]. by eapply Hkeep.
    + assert (m <> n) by congruence. unfold h', mk in *. by rewrite store_link_ne by auto.
  - cbn [sk_local]. split; [rewrite marks_other by done; by apply status_lin|]. by split.
  - done.
Qed.

(** A write to the node that [add] prepares. *)
Lemma skinv_private st st' ch pub K t p p' n nd : skinv st ch pub K -> sk_pcs st !! t = Some p -> n ∉ pub -> addr n -> 0 < n < sk_brk st' ->
  sk_heap st' = <[n := nd]> (sk_heap st) -> sk_pcs st' = <[t := p']> (sk_pcs st) -> sk_trace st' = sk_trace st -> sk_brk st <= sk_brk st' -> sk_brk st' mod 8 = 0 ->
  (forall t' q, t' <> t -> sk_pcs st !! t' = Some q -> node_of q <> Some n) -> node_of p = Some n \/ sk_brk st <= n -> node_of p' = Some n ->
  (evolves (sk_heap st) (sk_heap st') pub pub -> sk_local (sk_heap st') (sk_brk st') ch pub (sk_trace st) t p') -> skinv st' ch pub K.
Proof.
  intros Hi Hp Hn Han Hnb Eh Ep Et Hbrk Hb8 Huniq Hnode Hnode' Hl. pose proof Hi as [Ish Ilv Irep Iloc Inew Ist Ik Ib Idom].
  assert (Hev : evolves (sk_heap st) (sk_heap st') pub pub) by (rewrite Eh; by apply evolves_private).
  assert (Hbot : bottom (sk_heap st') = <[n := bottom_node nd]> (bottom (sk_heap st))) by (rewrite Eh; unfold bottom; by rewrite fmap_insert).
  assert (Hsame : forall q, q ∈ pub -> is_Some (bottom (sk_heap st') !! q) /\ keyof (bottom (sk_heap st')) q = keyof (bottom (sk_heap st)) q /\
    marked_node (bottom (sk_heap st')) q = marked_node (bottom (sk_heap st)) q /\ next_of (bottom (sk_heap st')) q = next_of (bottom (sk_heap st)) q).
  { intros q Hq. assert (q <> n) by congruence. rewrite Hbot. split; [apply some_insert, (sh_node _ _ _ _ _ _ _ Ish q Hq)|].
    rewrite keyof_insert, marked_insert, next_insert, !decide_False by done. done. }
  eapply (skinv_update st); [done|done|done| | |by rewrite Et|done|done|done| |..]; rewrite ?Et; try done.
  - apply (shape_ext head tail (bottom (sk_heap st)) _ (sk_brk st)); try done; [| |lia].
    + intros q Hq. rewrite Hbot in Hq. destruct (decide (q = n)) as [->|Hqn]; [done|]. rewrite lookup_insert_ne in Hq by done.
      pose proof (sh_region _ _ _ _ _ _ _ Ish q Hq). lia.
    + rewrite Hbot. rewrite lookup_insert_ne by lia. apply (sh_null _ _ _ _ _ _ _ Ish).
  - rewrite Eh. by apply levels_private.
  - intros b. rewrite Eh. destruct (decide (b = n)) as [->|]; [done|]. rewrite lookup_insert_ne by done. apply Idom.
  - intros t' q m Hne Hq Ho. destruct (node_private _ _ _ _ _ _ _ Hi Hq Ho) as [H1 _]. split; [|done]. rewrite Eh. apply lookup_insert_ne. intros ->. by apply (Huniq t' q).
  - intros t' q y a Hne _ _ Ha [H|(m & H1 & H2 & H3 & H4)]; [by left|right]. assert (Hm : m ∈ pub) by by apply (sh_sub _ _ _ _ _ _ _ Ish).
    exists m. destruct (Hsame m Hm) as (_ & -> & -> & _). split_and!; try done. eapply reach_pub; [exact Ish| |done|done|done]. intros b Hb. by destruct (Hsame b Hb) as (? & ? & _ & ?).
  - intros t' q y m _ _ _ Hm _ [H|H]; [by left|right]. destruct (Hsame m Hm) as (_ & _ & E & _). rewrite !bottom_mark in E. by rewrite E.
  - auto.
  - intros m Hm. rewrite Hnode' in Hm. injection Hm as <-. done.
Qed.

(** ** Searching *)

Lemma chain_reach (hb : gmap Z lnode) r ch pub K p n : shape head tail hb r ch pub K -> p ∈ ch -> n ∈ ch -> keyof hb p < keyof hb n -> reach hb p n.
Proof.
  intros Hsh Hp Hn Hk. assert (Hs : forall q, q ∈ ch -> is_Some (hb !! q)) by (intros q Hq; apply (sh_node _ _ _ _ _ _ _ Hsh), (sh_sub _ _ _ _ _ _ _ Hsh), Hq).
  pose proof (sh_next _ _ _ _ _ _ _ Hsh) as Hl. pose proof (sh_sorted _ _ _ _ _ _ _ Hsh) as Hso. clear Hsh.
  apply list_elem_of_split in Hp as (l1 & l2 & ->). assert (Hin : n ∈ l2).
  { apply elem_of_app in Hn as [Hn|[->|Hn]%elem_of_cons]; [|lia|done]. apply StronglySorted_app_inv in Hso as (_ & _ & Hx). pose proof (Hx n p Hn ltac:(left)). cbn in *. lia. }
  apply links_app in Hl as [_ Hl]. assert (Hs' : forall q, q ∈ p :: l2 -> is_Some (hb !! q)) by (intros q Hq; apply Hs, elem_of_app; by right).
  apply StronglySorted_app_inv in Hso as (_ & Hso & _). clear Hk Hs Hn.
  revert p Hl Hs' Hso. induction l2 as [|q l2 IH]; intros p [Hl1 Hl2] Hs' [Ho1 Ho2]%StronglySorted_inv; [by apply elem_of_nil in Hin|]. apply Forall_cons in Ho2 as [Ho2 _].
  apply (rtc_l _ _ q); [split; [apply Hs'; left|done]|]. apply elem_of_cons in Hin as [->|Hin]; [apply rtc_refl|]. apply IH; [done|done| |done]. intros r' Hr. apply Hs'. by right.
Qed.

Section seek.
Context (st : sks) (ch : list Z) (pub K : gset Z) (Hi : skinv st ch pub K) (t x : Z).
#[local] Notation h := (sk_heap st).
#[local] Notation tr := (sk_trace st).

Lemma safe_link p i : safe h pub p i ->
  exists nd, h !! p = Some nd /\ load h p i = Ok (nd, link h p i) /\ skey h p = sn_key nd /\ (skey h p < tk -> good (link h p i)).
Proof.
  intros [Hp Hs]. destruct (levels_link _ _ p i (si_levels _ _ _ _ Hi) Hp Hs) as (nd & H1 & _ & H2 & _ & H3). exists nd. split_and!; try done.
  intros Hk. apply (lv_good _ _ (si_levels _ _ _ _ Hi)); [done| |done]. intros ->. destruct (si_keys _ _ _ _ Hi) as [_ E]. rewrite E in Hk. by apply Z.lt_irrefl in Hk.
Qed.

Lemma safe_next p i : safe h pub p i -> p <> tail -> safe h pub (nx h p i) i.
Proof. intros [Hp Hs] Ht. by apply (lv_up _ _ (si_levels _ _ _ _ Hi)). Qed.

Lemma below_tail p : skey h p < tk -> p <> tail.
Proof. intros Hk ->. destruct (si_keys _ _ _ _ Hi) as [_ E]. lia. Qed.

Lemma marked_not_tail p i : mk h p i = true -> p <> tail.
Proof. intros Hm ->. destruct (lv_ends _ _ (si_levels _ _ _ _ Hi) i) as [_ E]. congruence. Qed.

Lemma unmarked_below p i : safe h pub p i -> mk h p i = false -> mk h p O = false.
Proof.
  intros [Hp Hs] Hm. destruct (mk h p O) eqn:E; [|done]. by rewrite (lv_marks _ _ (si_levels _ _ _ _ Hi) p i Hp E Hs) in Hm.
Qed.

Lemma unmarked_in p i : safe h pub p i -> mk h p i = false -> p ∈ ch.
Proof.
  intros Hs Hm. pose proof (unmarked_below p i Hs Hm) as H0. destruct (decide (p ∈ ch)) as [|Hn]; [done|].
  pose proof (sh_out _ _ _ _ _ _ _ (si_shape _ _ _ _ Hi) p (proj1 Hs) Hn) as E. rewrite bottom_mark in E. congruence.
Qed.

(** The search may continue from a node that is not marked. *)
Lemma seeking_move p q i : seeking_from h ch tr t x p -> safe h pub q i -> mk h q i = false -> skey h q < x -> seeking_from h ch tr t x q.
Proof.
  intros [H|(n & H1 & H2 & H3 & _)] Hs Hm Hk; [by left|right]. exists n. split_and!; try done. eapply chain_reach; [apply (si_shape _ _ _ _ Hi)|by eapply unmarked_in|done|].
  rewrite !bottom_key in *. lia.
Qed.

Lemma seeking_head p : in_range x -> seeking_from h ch tr t x p -> seeking_from h ch tr t x head.
Proof.
  intros Hx [H|(n & H1 & H2 & H3 & _)]; [by left|right]. exists n. split_and!; try done. eapply reach_chain; [apply (si_shape _ _ _ _ Hi)|done].
Qed.

Lemma seeking_next p : seeking_from h ch tr t x p -> skey h p < x \/ mk h p O = true -> seeking_from h ch tr t x (nx h p O).
Proof.
  intros [H|(n & H1 & H2 & H3 & H4)] Hp; [by left|right]. exists n. split_and!; try done. inversion H4 as [|? z ? (_ & Hz & _) Hr]; subst.
  - rewrite bottom_key, bottom_mark in *. destruct Hp; [lia|congruence].
  - by rewrite bottom_next in Hr.
Qed.

(** Beyond the key nothing is left to find. *)
Lemma seeking_end p : seeking_from h ch tr t x p -> p ∈ pub -> x < skey h p -> was_absent tr t x.
Proof.
  intros [H|(n & H1 & H2 & H3 & H4)] Hp Hk; [done|exfalso]. pose proof (si_shape _ _ _ _ Hi) as Hsh.
  destruct (reach_key _ _ _ H4) as [->|E]; rewrite !bottom_key in *; lia.
Qed.

Lemma present p i : in_range x -> safe h pub p i -> mk h p i = false -> skey h p = x -> x ∈ K.
Proof.
  intros Hx Hs Hm Hk. destruct (si_keys _ _ _ _ Hi) as [E1 E2]. unfold in_range in Hx.
  apply (unmarked_present head tail (bottom h) (sk_brk st) ch pub K p x (si_shape _ _ _ _ Hi)); [unfold key_ok; rewrite !bottom_key; lia|apply Hs|rewrite bottom_mark; by eapply unmarked_below|by rewrite bottom_key].
Qed.

Lemma head_safe i : (i < max_level)%nat -> safe h pub head i.
Proof. intros Hlt. destruct (lv_top _ _ (si_levels _ _ _ _ Hi)) as (H1 & H2 & _). split; [done|]. lia. Qed.

Lemma head_key : in_range x -> skey h head < x.
Proof. intros [Hx _]. destruct (si_keys _ _ _ _ Hi) as [E _]. lia. Qed.
End seek.

(** ** The steps of the threads *)

Context (sz : Z) (Hsz : 0 < sz /\ sz mod 8 = 0).

Lemma skinv_contains st ch pub K t rnd st' x pred curr i p : skinv st ch pub K -> sk_pcs st !! t = Some p ->
  p = KSucc x pred curr i \/ p = KSkip x pred curr i -> sk_step head max_level sz st t rnd = Ok st' -> skinv st' ch pub K.
Proof.
  intros Hi Hp Hpc. pose proof (si_local _ _ _ _ Hi t p Hp) as Hl.
  assert (H : status t (sk_trace st) = Some (Called CONTAINS_OP x) /\ in_range x /\ safe (sk_heap st) pub pred i /\ skey (sk_heap st) pred < x /\ safe (sk_heap st) pub curr i /\
    seeking_from (sk_heap st) ch (sk_trace st) t x pred /\ (i = O -> seeking_from (sk_heap st) ch (sk_trace st) t x curr)).
  { destruct Hpc as [-> | ->]; destruct Hl as (H1 & H2 & H3 & H4 & H5 & H6 & H7 & _); done. }
  destruct H as (Hst & Hx & Hsp & Hkp & Hsc & Hskp & Hskc). pose proof Hx as [Hx1 Hx2]. destruct (safe_link _ _ _ _ Hi curr i Hsc) as (nd & Hnd & Hld & Hkc & Hg).
  unfold sk_step, contains_step, find_step, add_step, remove_step, clean_step, lf_randomLevel. rewrite Hp. cbn [of_opt mbind result_bind]. destruct Hpc as [-> | ->]; rewrite Hld; cbn [mbind result_bind].
  - destruct (MARKED (link (sk_heap st) curr i)) eqn:Em.
    { intros [= <-]. eapply skinv_goto; [done|done| |done]. by cbn [sk_local]. }
    destruct (Z.ltb_spec (sn_key nd) x) as [Hlt|Hge].
    { intros [= <-]. assert (Hct : curr <> tail) by (apply (below_tail _ _ _ _ Hi); lia). pose proof (seeking_move _ _ _ _ Hi t x pred curr i Hskp Hsc Em ltac:(lia)) as Hsm.
      eapply skinv_goto; [done|done| |done]. cbn [sk_local]. split_and!; try done; [lia|by apply (safe_next _ _ _ _ Hi)|]. intros ->. apply (seeking_next _ _ t x curr Hsm). lia. }
    destruct (Z.eqb_spec (sn_key nd) x) as [Heq|Hne].
    { intros [= <-]. pose proof (present _ _ _ _ Hi x curr i Hx Hsc Em ltac:(lia)) as HK. eapply skinv_event; [done|done|done| |done|by apply status_lin|done].
      cbn. rewrite (si_replay _ _ _ _ Hi). cbn. unfold set_spec. cbn. by rewrite (decide_True (P := x ∈ K)). }
    destruct i as [|i]; intros [= <-].
    + eapply skinv_confirm; [done|done|by left|done|]. apply (seeking_end _ _ _ _ Hi t x curr); [auto|apply Hsc|lia].
    + assert (Hsp' : safe (sk_heap st) pub pred i) by (eapply safe_le; [done|lia]). eapply skinv_goto; [done|done| |done]. by cbn [sk_local].
  - intros [= <-]. assert (Hm : mk (sk_heap st) curr i = true) by (by destruct Hl as (_ & _ & _ & _ & _ & _ & _ & Hm)).
    eapply skinv_goto; [done|done| |done]. cbn [sk_local]. split_and!; try done.
    + apply (safe_next _ _ _ _ Hi); [done|]. by eapply (marked_not_tail _ _ _ _ Hi).
    + intros ->. apply (seeking_next _ _ t x curr); auto.
Qed.

Lemma set_heap_same st : sk_set_heap st (sk_heap st) = st.
Proof. by destruct st. Qed.

(** [find] starts. *)
Lemma start_local st ch pub K t w x : skinv st ch pub K -> in_range x -> why_ok (sk_heap st) pub (sk_brk st) (sk_trace st) t x w ->
  (w = WRemove -> seeking_from (sk_heap st) ch (sk_trace st) t x head) ->
  sk_local (sk_heap st) (sk_brk st) ch pub (sk_trace st) t (start_find head max_level w x).
Proof.
  intros Hi Hx Hw Hs. cbn [sk_local start_find]. split_and!; try done; [apply (head_safe _ _ _ _ Hi); lia|by apply (head_key _ _ _ _ Hi)|]. 
  unfold found_above. replace (S (max_level - 1)) with max_level by lia. cbn. split_and!; try done; lia.
Qed.

Lemma node_of_start w x p i ps ss : node_of (start_find head max_level w x) = node_of (FLoad w x p i ps ss).
Proof. done. Qed.

(** A compare-and-swap on the link of a node that may be read. *)
Lemma cas_link st ch pub K a i old new : skinv st ch pub K -> safe (sk_heap st) pub a i ->
  cas (sk_heap st) a i old new = Ok (if link (sk_heap st) a i =? old then (store (sk_heap st) a i new, true) else (sk_heap st, false)).
Proof.
  intros Hi [Ha Hai]. destruct (levels_link _ _ a i (si_levels _ _ _ _ Hi) Ha Hai) as (nd & H1 & H2 & _). by apply (cas_spec _ _ _ _ _ nd).
Qed.

(** A marked node is unlinked at some level. *)
Lemma skinv_snip st ch pub K t p p' a curr i : skinv st ch pub K -> sk_pcs st !! t = Some p -> safe (sk_heap st) pub a i -> skey (sk_heap st) a < tk ->
  safe (sk_heap st) pub curr i -> mk (sk_heap st) curr i = true -> link (sk_heap st) a i = curr ->
  sk_local (sk_heap st) (sk_brk st) ch pub (sk_trace st) t p' -> (forall n, node_of p' = Some n -> node_of p = Some n) ->
  exists ch', skinv (sk_goto (sk_set_heap st (store (sk_heap st) a i (nx (sk_heap st) curr i))) t p') ch' pub K.
Proof.
  intros Hi Hp Ha Hk Hc Hm Hlk Hl Hn. destruct Hc as [Hc Hci]. destruct (lv_node _ _ (si_levels _ _ _ _ Hi) curr Hc) as (Hac & _).
  pose proof (safe_next _ _ _ _ Hi curr i (conj Hc Hci) (marked_not_tail _ _ _ _ Hi curr i Hm)) as [Hs1 Hs2].
  destruct (lv_node _ _ (si_levels _ _ _ _ Hi) _ Hs1) as (Has & _). destruct (decide (i = O)) as [->|H0].
  - eapply skinv_unlink; try done. apply Ha.
  - exists ch. eapply skinv_upper; try done.
    + apply Ha.
    + by apply (below_tail _ _ _ _ Hi).
    + destruct Ha. lia.
    + unfold mk. rewrite Hlk. by apply MARKED_addr.
    + by apply good_addr.
    + by rewrite PTR_addr.
    + by rewrite PTR_addr.
    + by rewrite MARKED_addr.
Qed.

(** What [find] has found at one more level. *)
Lemma found_above_cons h pub x i pred curr ps ss : found_above h pub x (S i) ps ss -> safe h pub pred i -> skey h pred < x -> safe h pub curr i ->
  found_above h pub x i (pred :: ps) (curr :: ss).
Proof.
  intros (H1 & H2 & H3 & H4 & H5) Hp Hk Hc. unfold found_above. cbn [length]. split_and!; try lia.
  - intros [|j] p Hj; cbn in Hj; [injection Hj as <-; by rewrite Nat.add_0_r|]. replace (i + S j)%nat with (S i + j)%nat by lia. auto.
  - intros [|j] s Hj; cbn in Hj; [injection Hj as <-; by rewrite Nat.add_0_r|]. replace (i + S j)%nat with (S i + j)%nat by lia. auto.
Qed.

Lemma skinv_end_find st ch pub K t w x pred curr ps ss nd p : skinv st ch pub K -> sk_pcs st !! t = Some p -> node_of p = node_of (FLoad w x 0 O [] []) ->
  why_ok (sk_heap st) pub (sk_brk st) (sk_trace st) t x w -> in_range x -> found_above (sk_heap st) pub x 0 (pred :: ps) (curr :: ss) ->
  safe (sk_heap st) pub curr O -> mk (sk_heap st) curr O = false -> sk_heap st !! curr = Some nd -> x <= sn_key nd ->
  (w = WRemove -> seeking_from (sk_heap st) ch (sk_trace st) t x curr) ->
  skinv (end_find st t w x (sn_key nd) curr (pred :: ps) (curr :: ss)) ch pub K.
Proof.
  intros Hi Hp Hno Hw Hx Hfa Hc Hm Hnd Hge Hsk. assert (Hk : skey (sk_heap st) curr = sn_key nd) by (unfold skey; by rewrite Hnd).
  assert (HK : sn_key nd = x -> x ∈ K) by (intros E; apply (present _ _ _ _ Hi x curr O Hx Hc Hm); congruence).
  assert (Hgt : sn_key nd <> x -> forall s, (curr :: ss) !! O = Some s -> x < skey (sk_heap st) s) by (intros Hne s [= <-]; lia).
  unfold end_find. destruct w as [o| |n j]; [destruct (Z.eqb_spec (sn_key nd) x) as [E|E]|destruct (Z.eqb_spec (sn_key nd) x) as [E|E]|].
  - eapply skinv_event; [done|done|done| |done| |done].
    + cbn. rewrite (si_replay _ _ _ _ Hi). cbn. unfold set_spec. cbn. by rewrite (decide_True (P := x ∈ K)) by auto.
    + cbn [sk_local]. apply (status_lin _ _ ADD_OP). destruct o as [n|]; cbn [why_ok] in Hw; [apply Hw|done].
  - destruct o as [n|]; cbn [why_ok] in Hw.
    + destruct Hw as [Hs Hpr]. eapply skinv_goto; [done|done| |by rewrite Hno]. cbn [sk_local]. by split_and!; auto.
    + eapply skinv_goto; [done|done| |by rewrite Hno]. cbn [sk_local]. by split_and!; auto.
  - cbn [why_ok] in Hw. rewrite Hnd. cbn [from_option]. assert (Hst : stop (sk_heap st) curr = sn_top nd) by (unfold stop; by rewrite Hnd).
    destruct (Nat.ltb_spec 1 (sn_top nd)); (eapply skinv_goto; [done|done| |done]); cbn [sk_local].
    + split; [done|]. split; [done|]. split; [apply Hc|]. split; [congruence|]. split; [lia|]. split; [intros j Hj; lia|]. split; [by right|done].
    + split; [done|]. split; [done|]. split; [apply Hc|]. split; [congruence|]. split; [intros j Hj; lia|]. split; [by right|done].
  - cbn [why_ok] in Hw. eapply skinv_confirm; [done|done|by right|done|]. apply (seeking_end _ _ _ _ Hi t x curr); [auto|apply Hc|lia].
  - destruct Hw as (Hs & Hn & Hj & Ht). eapply skinv_goto; [done|done| |done]. cbn [sk_local]. by split_and!.
Qed.

Lemma skinv_find st ch pub K t rnd st' p : skinv st ch pub K -> sk_pcs st !! t = Some p ->
  match p with FLoad _ _ _ _ _ _ | FSucc _ _ _ _ _ _ _ | FSnip _ _ _ _ _ _ _ _ => True | _ => False end ->
  sk_step head max_level sz st t rnd = Ok st' -> exists ch', skinv st' ch' pub K.
Proof.
  intros Hi Hp Hpc. pose proof (si_local _ _ _ _ Hi t p Hp) as Hl. unfold sk_step, contains_step, find_step, add_step, remove_step, clean_step, lf_randomLevel. rewrite Hp. cbn [of_opt mbind result_bind].
  destruct p; try done; cbn [sk_local] in Hl; clear Hpc.
  - destruct Hl as (Hw & Hx & Hsp & Hkp & Hfa & Hsk & _). pose proof Hx as [Hx1 Hx2]. destruct (safe_link _ _ _ _ Hi pred i Hsp) as (nd & _ & -> & _). cbn [mbind result_bind].
    intros [= <-]. exists ch. eapply skinv_goto; [done|done| |done]. cbn [sk_local]. split_and!; try done.
    + apply (safe_next _ _ _ _ Hi); [done|]. apply (below_tail _ _ _ _ Hi). lia.
    + intros E ->. apply (seeking_next _ _ t x pred); auto.
  - destruct Hl as (Hw & Hx & Hsp & Hkp & Hfa & Hsk & Hsc & Hskc). pose proof Hx as [Hx1 Hx2]. destruct (safe_link _ _ _ _ Hi curr i Hsc) as (nd & Hnd & -> & Hkc & Hg). cbn [mbind result_bind].
    destruct (MARKED (link (sk_heap st) curr i)) eqn:Em.
    { intros [= <-]. exists ch. eapply skinv_goto; [done|done| |done]. cbn [sk_local]. by split_and!. }
    destruct (Z.ltb_spec (sn_key nd) x) as [Hlt|Hge].
    { intros [= <-]. exists ch. assert (Hct : curr <> tail) by (apply (below_tail _ _ _ _ Hi); lia).
      assert (Hsm : w = WRemove -> seeking_from (sk_heap st) ch (sk_trace st) t x curr) by (intros E; apply (seeking_move _ _ _ _ Hi t x pred curr i); auto; lia).
      eapply skinv_goto; [done|done| |done]. cbn [sk_local]. split_and!; try done; [lia|by apply (safe_next _ _ _ _ Hi)|]. intros E ->. apply (seeking_next _ _ t x curr); auto. lia. }
    pose proof (found_above_cons _ _ _ _ pred curr _ _ Hfa Hsp Hkp Hsc) as Hfa'. destruct i as [|i]; intros [= <-]; exists ch.
    + eapply skinv_end_find; try done; auto.
    + eapply skinv_goto; [done|done| |done]. cbn [sk_local]. split_and!; try done. eapply safe_le; [done|lia].
  - destruct Hl as (Hw & Hx & Hsp & Hkp & Hfa & Hsk & Hsc & Hm & Hns). pose proof Hx as [Hx1 Hx2].
    destruct (lv_node _ _ (si_levels _ _ _ _ Hi) curr (proj1 Hsc)) as (Hac & _).
    pose proof (safe_next _ _ _ _ Hi curr i Hsc (marked_not_tail _ _ _ _ Hi curr i Hm)) as [Hs1 _]. destruct (lv_node _ _ (si_levels _ _ _ _ Hi) _ Hs1) as (Has & _).
    rewrite Hns in Has. rewrite !PTR_addr by done. rewrite (cas_link st ch pub K) by done. cbn [mbind result_bind].
    destruct (Z.eqb_spec (link (sk_heap st) pred i) curr) as [E|E]; intros [= <-].
    + rewrite <- Hns. eapply skinv_snip; try done; lia.
    + exists ch. rewrite set_heap_same. eapply skinv_goto; [done|done| |by rewrite (node_of_start w x 0 O [] [])]. eapply start_local; try done.
      intros Ew. apply (seeking_head _ _ _ _ Hi t x pred Hx). auto.
Qed.

(** The links of the node that [add] prepares. *)
Lemma new_links_spec h pub x ps ss top : levels h pub -> found_above h pub x 0 ps ss -> (top <= max_level)%nat ->
  length (new_links ss top) = LF_MAX_LEVEL /\ forall i, (i < top)%nat -> ss !! i = Some (default 0 (new_links ss top !! i)).
Proof.
  intros Hl (_ & _ & Hlen & _ & Hs) Ht. unfold new_links. rewrite Nat.sub_0_r in Hlen. split.
  - rewrite length_app, length_take, length_fmap, length_replicate. lia.
  - intros i Hi. destruct (lookup_lt_is_Some_2 ss i ltac:(lia)) as [s Hsi]. rewrite lookup_app_l by (rewrite length_take, length_fmap; lia).
    rewrite lookup_take_lt, list_lookup_fmap, Hsi by lia. cbn. destruct (Hs i s Hsi) as [Hp _]. destruct (lv_node _ _ Hl s Hp) as [Ha _]. by rewrite PTR_addr.
Qed.

Lemma private_links h n nd i : link (<[n := nd]> h) n i = default 0 (sn_next nd !! i).
Proof. unfold link. by rewrite lookup_insert_eq. Qed.

Lemma prepared_local st ch pub K t x n top brk ps ss : skinv st ch pub K -> status t (sk_trace st) = Some (Called ADD_OP x) -> in_range x ->
  found_above (sk_heap st) pub x 0 ps ss -> (forall s, ss !! O = Some s -> x < skey (sk_heap st) s) -> (1 <= top <= max_level)%nat ->
  n ∉ pub -> n < brk -> addr n -> let h' := <[n := mkSN x top (new_links ss top)]> (sk_heap st) in
  evolves (sk_heap st) h' pub pub -> sk_local h' brk ch pub (sk_trace st) t (ACas x n ps ss).
Proof.
  intros Hi Hst Hx Hfa Hgt Ht Hn Hb Ha h' Hev. destruct (new_links_spec _ _ _ _ _ top (si_levels _ _ _ _ Hi) Hfa ltac:(lia)) as [Hlen Hlk]. cbn [sk_local].
  split; [done|]. split; [done|]. split; [by eapply found_above_mono|]. split.
  { intros s Hs. rewrite (ev_key _ _ _ _ Hev); [auto|]. destruct Hfa as (_ & _ & _ & _ & Hf). by destruct (Hf O s Hs). }
  split.
  - split_and!; try done. eexists. split; [apply lookup_insert_eq|]. cbn. done.
  - intros i Hil. unfold h' in *. rewrite private_links. unfold stop in Hil. rewrite lookup_insert_eq in Hil. cbn in *. auto.
Qed.

Lemma skinv_add st ch pub K t rnd st' p : skinv st ch pub K -> sk_pcs st !! t = Some p -> 0 <= rnd ->
  match p with ANew _ _ _ | APrep _ _ _ _ | ACas _ _ _ _ | ASplice _ _ _ _ _ => True | _ => False end ->
  sk_step head max_level sz st t rnd = Ok st' -> exists ch' pub' K', skinv st' ch' pub' K'.
Proof.
  intros Hi Hp Hrnd Hpc. pose proof (si_local _ _ _ _ Hi t p Hp) as Hl. unfold sk_step, contains_step, find_step, add_step, remove_step, clean_step, lf_randomLevel. rewrite Hp. cbn [of_opt mbind result_bind].
  pose proof (si_shape _ _ _ _ Hi) as Hsh. destruct p; try done; cbn [sk_local] in Hl; clear Hpc.
  - destruct Hl as (Hst & Hx & Hfa & Hgt & _). unfold LF_MAX_LEVEL in Hml.
    destruct (level_of_rand_spec (Z.of_nat max_level) rnd ltac:(lia) Hrnd) as (lv & -> & Hlv). cbn [mbind result_bind].
    destruct (Z.ltb_spec (sk_brk st + sz) (2 ^ 32)) as [Hb|]; [|done]. intros [= <-]. destruct (sh_null _ _ _ _ _ _ _ Hsh) as [_ Hb0].
    pose proof (si_brk _ _ _ _ Hi) as Hb8. exists ch, pub, K.
    assert (Hn : sk_brk st ∉ pub) by (intros Hin; pose proof (sh_region _ _ _ _ _ _ _ Hsh _ (sh_node _ _ _ _ _ _ _ Hsh _ Hin)); lia).
    assert (Ha : addr (sk_brk st)) by (split; [lia|done]). destruct Hsz as [Hsz0 Hsz8].
    eapply (skinv_private st); [done|done|exact Hn|done|sk_cbn; lia|done|done|done|sk_cbn; lia|sk_cbn; rewrite Z.add_mod, Hb8, Hsz8 by done; done| |right; lia|done|].
    + intros t' q _ Hq Ho. destruct (node_private _ _ _ _ _ _ _ Hi Hq Ho). lia.
    + sk_cbn. intros Hev. eapply prepared_local; try done; lia.
  - destruct Hl as (Hst & Hx & Hfa & Hgt & Hpr). pose proof Hpr as (Hn & Hnb & Ha & nd & Hnd & Hk & Ht & Hlen). rewrite Hnd. cbn [of_opt mbind result_bind]. intros [= <-].
    exists ch, pub, K. pose proof (sh_region _ _ _ _ _ _ _ Hsh n ltac:(apply bottom_some; by eexists)) as Hr. pose proof (si_brk _ _ _ _ Hi) as Hb8.
    eapply (skinv_private st); [done|done|exact Hn|done|sk_cbn; lia|done|done|done|done|done| |by left|done|].
    + intros t' q Hne Hq Ho. apply Hne. by eapply (si_new _ _ _ _ Hi t' t q _ n).
    + sk_cbn. intros Hev. eapply prepared_local; try done.
  - pose proof Hl as (Hst & Hx & Hfa & Hgt & Hpr & Hlk). pose proof Hfa as (_ & Hl1 & Hl2 & Hpre & Hsuc). pose proof Hpr as (Hn & _ & Ha & _).
    destruct (lookup_lt_is_Some_2 ps O ltac:(lia)) as [pred Hpred]. destruct (lookup_lt_is_Some_2 ss O ltac:(lia)) as [succ Hsucc]. rewrite Hpred, Hsucc. cbn [of_opt mbind result_bind].
    destruct (Hpre O pred Hpred) as [Hsp Hkp]. destruct (Hsuc O succ Hsucc) as [Hss _]. destruct (lv_node _ _ (si_levels _ _ _ _ Hi) succ Hss) as [Has _].
    rewrite !PTR_addr by done. rewrite (cas_link st ch pub K) by done. cbn [mbind result_bind].
    destruct (Z.eqb_spec (link (sk_heap st) pred 0) succ) as [E|E]; intros [= <-].
    + destruct (skinv_insert st ch pub K t x n ps ss pred succ Hi Hp Hpred Hsucc E) as [ch' H']. by eexists _, _, _.
    + exists ch, pub, K. eapply skinv_goto; [done|done| |done]. by eapply start_local.
  - destruct Hl as (Hst & Hx & Hfa & Hn & Hj & Ht). destruct (lv_node _ _ (si_levels _ _ _ _ Hi) n Hn) as (Ha & nd & Hnd & _). rewrite Hnd. cbn [of_opt mbind result_bind].
    assert (Hsn : stop (sk_heap st) n = sn_top nd) by (unfold stop; by rewrite Hnd). pose proof Hx as [Hx1 Hx2].
    destruct (Nat.ltb_spec j (sn_top nd)) as [Hjt|Hjt]; [|intros [= <-]; exists ch, pub, K; eapply skinv_goto; done].
    pose proof Hfa as (_ & Hl1 & Hl2 & Hpre & Hsuc).
    destruct (lookup_lt_is_Some_2 ps j ltac:(lia)) as [pred Hpred]. destruct (lookup_lt_is_Some_2 ss j ltac:(lia)) as [succ Hsucc]. rewrite Hpred, Hsucc. cbn [of_opt mbind result_bind].
    destruct (Hpre j pred Hpred) as [Hsp Hkp]. destruct (Hsuc j succ Hsucc) as [Hss _]. destruct (lv_node _ _ (si_levels _ _ _ _ Hi) succ Hss) as [Has _].
    rewrite !PTR_addr by done. rewrite (cas_link st ch pub K) by done. cbn [mbind result_bind].
    destruct (Z.eqb_spec (link (sk_heap st) pred j) succ) as [E|E]; intros [= <-]; exists ch, pub, K.
    + eapply skinv_upper; try done.
      * apply Hsp.
      * apply (below_tail _ _ _ _ Hi). lia.
      * destruct Hsp. cbn in *. lia.
      * unfold mk. rewrite E. by apply MARKED_addr.
      * by apply good_addr.
      * by rewrite PTR_addr.
      * rewrite PTR_addr by done. lia.
      * by rewrite MARKED_addr.
      * cbn [sk_local]. split_and!; try done. lia.
    + rewrite set_heap_same. eapply skinv_goto; [done|done| |done]. eapply start_local; try done. 
Qed.

Lemma skinv_remove st ch pub K t rnd st' p : skinv st ch pub K -> sk_pcs st !! t = Some p ->
  match p with RLoad _ _ _ | RCas _ _ _ _ | R0Load _ _ | R0Cas _ _ _ | R0Chk _ _ _ => True | _ => False end ->
  sk_step head max_level sz st t rnd = Ok st' -> exists K', skinv st' ch pub K'.
Proof.
  intros Hi Hp Hpc. pose proof (si_local _ _ _ _ Hi t p Hp) as Hl. unfold sk_step, contains_step, find_step, add_step, remove_step, clean_step, lf_randomLevel. rewrite Hp. cbn [of_opt mbind result_bind].
  assert (Hbot : forall n, n ∈ pub -> safe (sk_heap st) pub n O).
  { intros n Hn. split; [done|]. destruct (lv_node _ _ (si_levels _ _ _ _ Hi) n Hn) as (_ & nd & Hnd & Ht). unfold stop. rewrite Hnd. cbn. lia. }
  destruct p; try done; cbn [sk_local] in Hl; clear Hpc.
  - destruct Hl as (Hst & Hx & Hn & Hk & Hir & Hm & Hu & _). destruct (safe_link _ _ _ _ Hi n i ltac:(split; [done|lia])) as (nd & _ & -> & _ & Hg). cbn [mbind result_bind].
    destruct (MARKED (link (sk_heap st) n i)) eqn:Em; intros [= <-]; exists K; (eapply skinv_goto; [done|done| |]).
    + assert (Hm' : forall j, (i - 1 < j < stop (sk_heap st) n)%nat -> mk (sk_heap st) n j = true).
      { intros j Hj. destruct (decide (j = i)) as [->|]; [done|]. apply Hm. lia. }
      destruct (Nat.ltb_spec 1 i); cbn [sk_local]; split_and!; try done; try lia. intros j Hj. apply Hm'. lia.
    + by destruct (1 <? i)%nat.
    + cbn [sk_local]. split_and!; try done; try lia; apply good_PTR, Hg; destruct Hx; lia.
    + done.
  - destruct Hl as (Hst & Hx & Hn & Hk & Hir & Hm & Hu & Has). pose proof Hx as [Hx1 Hx2]. rewrite PTR_addr by done. rewrite (cas_link st ch pub K) by (done || (split; [done|lia])).
    cbn [mbind result_bind]. assert (Hnt : n <> tail) by (apply (below_tail _ _ _ _ Hi); lia).
    destruct (Z.eqb_spec (link (sk_heap st) n i) succ) as [E|E]; intros [= <-]; exists K.
    + pose proof (safe_next _ _ _ _ Hi n i ltac:(split; [done|lia]) Hnt) as [U1 U2]. unfold nx in U1, U2. rewrite E, PTR_addr in U1, U2 by done.
      eapply skinv_upper; try done.
      * unfold mk. rewrite E. by apply MARKED_addr.
      * by apply good_MARK.
      * by rewrite PTR_MARK.
      * by rewrite PTR_MARK.
      * intros _ ->. destruct (si_keys _ _ _ _ Hi). lia.
    + rewrite set_heap_same. eapply skinv_goto; [done|done| |done]. cbn [sk_local]. by split_and!; try lia.
  - destruct Hl as (Hst & Hx & Hn & Hk & Hm & Hu & _). destruct (safe_link _ _ _ _ Hi n O (Hbot n Hn)) as (nd & _ & -> & _ & Hg). cbn [mbind result_bind]. intros [= <-]. exists K.
    eapply skinv_goto; [done|done| |done]. cbn [sk_local]. pose proof (good_PTR _ (Hg ltac:(destruct Hx; lia))). done.
  - destruct Hl as (Hst & Hx & Hn & Hk & Hm & Hu & Has). rewrite PTR_addr by done. rewrite (cas_link st ch pub K) by auto. cbn [mbind result_bind].
    destruct (Z.eqb_spec (link (sk_heap st) n O) succ) as [E|E]; intros [= <-].
    + exists (K ∖ {[x]}). by apply skinv_mark.
    + exists K. eapply skinv_goto; [done|done| |done]. by cbn [sk_local].
  - destruct (safe_link _ _ _ _ Hi n O) as (nd & _ & -> & _ & Hg); [apply Hbot; destruct mine; apply Hl|]. cbn [mbind result_bind]. intros H. exists K. destruct mine.
    + destruct Hl as (Hst & Hx & Hn). injection H as <-. eapply skinv_goto; [done|done| |done]. cbn [sk_local].
      pose proof (head_key _ _ _ _ Hi x Hx). pose proof (head_safe _ _ _ _ Hi (max_level - 1) ltac:(lia)). split_and!; try done. lia.
    + destruct Hl as (Hst & Hx & Hn & Hk & Hm & Hu & _). destruct (MARKED (link (sk_heap st) n 0)) eqn:Em; injection H as <-.
      * eapply skinv_confirm; [done|done|by right|done|]. destruct Hu as [Hu|Hu]; [done|]. unfold mk in Hu. congruence.
      * eapply skinv_goto; [done|done| |done]. cbn [sk_local]. pose proof (good_PTR _ (Hg ltac:(destruct Hx; lia))). done.
Qed.

Lemma skinv_clean st ch pub K t rnd st' p : skinv st ch pub K -> sk_pcs st !! t = Some p ->
  match p with CLoad _ _ _ _ | CSucc _ _ _ _ _ | CSnip _ _ _ _ _ _ | CReload _ _ _ _ => True | _ => False end ->
  sk_step head max_level sz st t rnd = Ok st' -> exists ch', skinv st' ch' pub K.
Proof.
  intros Hi Hp Hpc. pose proof (si_local _ _ _ _ Hi t p Hp) as Hl. unfold sk_step, contains_step, find_step, add_step, remove_step, clean_step, lf_randomLevel. rewrite Hp. cbn [of_opt mbind result_bind].
  destruct p; try done; cbn [sk_local] in Hl; clear Hpc; destruct Hl as (Hst & Hx & Hsp & Hkp & Hsf & Hkf & Hl); pose proof Hx as [Hx1 Hx2];
    assert (Hpt : pred <> tail) by (apply (below_tail _ _ _ _ Hi); lia); pose proof (safe_next _ _ _ _ Hi pred i Hsp Hpt) as Hnp.
  - destruct (safe_link _ _ _ _ Hi pred i Hsp) as (nd & _ & -> & _ & Hg). cbn [mbind result_bind]. intros [= <-]. exists ch.
    eapply skinv_goto; [done|done| |done]. cbn [sk_local]. split_and!; try done. destruct (MARKED (link (sk_heap st) pred i)) eqn:Em; [by right|left].
    rewrite (good_unmarked _ (Hg ltac:(lia)) Em). done.
  - destruct Hl as [Hsc|Hmc].
    2:{ destruct (load (sk_heap st) curr i) as [[nd v]| |] eqn:E; try done. apply load_link in E as [E _].
        destruct (marked_not_addr curr Hmc). apply (si_dom _ _ _ _ Hi). by eexists. }
    destruct (safe_link _ _ _ _ Hi curr i Hsc) as (nd & Hnd & -> & Hkc & Hg). cbn [mbind result_bind].
    destruct (MARKED (link (sk_heap st) curr i)) eqn:Em.
    { intros [= <-]. exists ch. eapply skinv_goto; [done|done| |done]. cbn [sk_local]. by split_and!. }
    destruct (Z.ltb_spec (sn_key nd) x) as [Hlt|Hge]; [|destruct (Z.eqb_spec (sn_key nd) x) as [Heq|Hne]].
    1,2: intros [= <-]; exists ch; assert (Hct : curr <> tail) by (apply (below_tail _ _ _ _ Hi); lia);
      pose proof (safe_next _ _ _ _ Hi curr i Hsc Hct); (eapply skinv_goto; [done|done| |done]); cbn [sk_local]; split_and!; try done; try lia; by left.
    intros [= <-]. exists ch. destruct i as [|i]; (eapply skinv_goto; [done|done| |done]); cbn [sk_local]; [done|].
    assert (safe (sk_heap st) pub pf i) by (eapply safe_le; [done|lia]). split_and!; try done. lia.
  - destruct Hl as (Hsc & Hm & Hns). destruct (lv_node _ _ (si_levels _ _ _ _ Hi) curr (proj1 Hsc)) as (Hac & _).
    pose proof (safe_next _ _ _ _ Hi curr i Hsc (marked_not_tail _ _ _ _ Hi curr i Hm)) as [Hs1 _]. destruct (lv_node _ _ (si_levels _ _ _ _ Hi) _ Hs1) as (Has & _).
    rewrite Hns in Has. rewrite !PTR_addr by done. rewrite (cas_link st ch pub K) by done. cbn [mbind result_bind].
    destruct (Z.eqb_spec (link (sk_heap st) pred i) curr) as [E|E]; intros [= <-].
    + rewrite <- Hns. eapply skinv_snip; try done. lia.
    + exists ch. rewrite set_heap_same. eapply skinv_goto; [done|done| |done]. cbn [sk_local].
      pose proof (head_key _ _ _ _ Hi x Hx). pose proof (head_safe _ _ _ _ Hi (max_level - 1) ltac:(lia)). split_and!; try done. lia.
  - destruct (safe_link _ _ _ _ Hi pred i Hsp) as (nd & _ & -> & _ & Hg). cbn [mbind result_bind]. intros [= <-]. exists ch.
    eapply skinv_goto; [done|done| |done]. cbn [sk_local]. split_and!; try done. by left.
Qed.

Lemma skinv_step st ch pub K t rnd st' : skinv st ch pub K -> 0 <= rnd -> sk_step head max_level sz st t rnd = Ok st' ->
  exists ch' pub' K', skinv st' ch' pub' K'.
Proof.
  intros Hi Hrnd Hs. destruct (sk_pcs st !! t) as [p|] eqn:Hp; [|by unfold sk_step in Hs; rewrite Hp in Hs].
  destruct p.
  all: try (exists ch, pub, K; eapply skinv_contains; [done|done|by auto|done]).
  all: try (destruct (skinv_find st ch pub K t rnd st' _ Hi Hp I Hs) as [ch' H]; by exists ch', pub, K).
  all: try (destruct (skinv_remove st ch pub K t rnd st' _ Hi Hp I Hs) as [K' H]; by exists ch, pub, K').
  all: try (destruct (skinv_clean st ch pub K t rnd st' _ Hi Hp I Hs) as [ch' H]; by exists ch', pub, K).
  all: try exact (skinv_add st ch pub K t rnd st' _ Hi Hp Hrnd I Hs).
  - unfold sk_step in Hs. by rewrite Hp in Hs.
  - unfold sk_step in Hs. rewrite Hp in Hs. injection Hs as <-. exists ch, pub, K. pose proof (si_local _ _ _ _ Hi t _ Hp) as Hl.
    eapply skinv_event; [done|done|done|cbn; apply Hi|done|by eapply status_ret|done].
Qed.

(** A call of [contains] or [remove] leaves a mark: if its key is absent, it may turn out to take effect here. *)
Lemma skinv_invoke st ch pub K t op x : skinv st ch pub K -> sk_pcs st !! t = Some KIdle ->
  op = CONTAINS_OP \/ op = ADD_OP \/ op = REMOVE_OP -> in_range x -> skinv (sk_invoke head max_level st t op x) ch pub K.
Proof.
  intros Hi Hp Hop Hx. pose proof (status_inv t _ op x (si_local _ _ _ _ Hi t _ Hp)) as Hst. pose proof (head_key _ _ _ _ Hi x Hx) as Hkh.
  pose proof (head_safe _ _ _ _ Hi (max_level - 1) ltac:(lia)) as Hsafe. unfold sk_invoke.
  assert (Hsk : seeking_from (sk_heap st) ch (Mark t :: Inv t op x :: sk_trace st) t x head).
  { destruct (decide (x ∈ K)) as [Hin|Hin]; [right|left].
    - apply (sh_set _ _ _ _ _ _ _ (si_shape _ _ _ _ Hi)) in Hin as (n & H1 & _ & _ & H2 & H3). exists n. split_and!; try done. eapply reach_chain; [apply Hi|done].
    - exists K. split; [|done]. apply marked_new. cbn. apply Hi. }
  assert (Hgen : forall p', node_of p' = None -> sk_local (sk_heap st) (sk_brk st) ch pub (Mark t :: Inv t op x :: sk_trace st) t p' ->
    skinv (sk_goto (sk_record st [Mark t; Inv t op x]) t p') ch pub K).
  { intros p' Hno Hl'. pose proof Hi as [Ish Ilv Irep Iloc Inew Ist Ik Ib Idom]. eapply (skinv_update st); [done|done|done|done|done|done|apply evolves_refl|done|done|done|..]; cbn.
    - intros t' q n _ Hq Ho. split; [done|]. by eapply node_private.
    - intros t' Hne. change (status t' (Mark t :: Inv t op x :: sk_trace st) = status t' (sk_trace st)). by rewrite !status_other by (cbn; congruence).
    - intros t' q y a Hne _ _ _ H. by apply seeking_step, seeking_step; [cbn; congruence|cbn; congruence|].
    - intros t' q y n Hne _ _ _ _ [(b & H1 & H2)|H]; [left|by right]. exists b. split; [|done]. by apply marked_step, marked_step; [cbn; congruence|cbn; congruence|].
    - done.
    - intros n Ho. by rewrite Hno in Ho. }
  destruct Hop as [->|[->| ->]]; cbn.
  - apply Hgen; [done|]. cbn [sk_local]. split_and!; try done. by apply status_mark.
  - eapply skinv_event; [done|done|done|cbn; apply Hi|done| |done]. cbn [sk_local start_find why_ok]. split_and!; try done.
    unfold found_above. replace (S (max_level - 1)) with max_level by lia. cbn. split_and!; try done; lia.
  - apply Hgen; [done|]. cbn [sk_local start_find why_ok]. split_and!; try done; [by apply status_mark|].
    unfold found_above. replace (S (max_level - 1)) with max_level by lia. cbn. split_and!; try done; lia.
Qed.
End invariant.

(** ** The constructor *)

(** [set_max_level]: the first level [i] below MAX_LEVEL with [initsize < 1 << i]; else the level stays what the constructor made it. *)
Fixpoint max_level_loop (initsize : Z) (i n : nat) : nat :=
  match n with
  | O => LF_MAX_LEVEL
  | S n' => if initsize <? Z.shiftl 1 (Z.of_nat i) then i else max_level_loop initsize (S i) n'
  end.
Definition lf_set_max_level (initsize : Z) : nat := max_level_loop initsize 1 (LF_MAX_LEVEL - 1).

(** [SkipList()]: the sentinels are the first nodes; [fresh] is what the memory of the tail's links holds, which the constructor does not write.
    The threads [ts] are outside of the list. *)
Definition sk_ctor (sizeof_node brk : Z) (fresh : list Z) (ts : list Z) : sks :=
  let head := brk in
  let tail := brk + sizeof_node in
  mkSk (<[head := mkSN 0 LF_MAX_LEVEL (replicate LF_MAX_LEVEL tail)]> {[tail := mkSN INT_MAX LF_MAX_LEVEL fresh]})
       (brk + 2 * sizeof_node) (list_to_map ((fun t => (t, KIdle)) <$> ts)) [].

Lemma max_level_loop_ge initsize i n : (i + n <= LF_MAX_LEVEL)%nat -> (i <= max_level_loop initsize i n <= LF_MAX_LEVEL)%nat.
Proof.
  revert i. induction n as [|n IH]; intros i Hi; cbn [max_level_loop]; [lia|]. destruct (_ <? _); [lia|]. specialize (IH (S i)). lia.
Qed.

Lemma max_level_range initsize : 2 <= initsize -> (2 <= lf_set_max_level initsize <= LF_MAX_LEVEL)%nat.
Proof.
  intros H. unfold lf_set_max_level. change (max_level_loop initsize 1 (LF_MAX_LEVEL - 1)) with (if initsize <? 2 then 1%nat else max_level_loop initsize 2 28).
  destruct (Z.ltb_spec initsize 2); [lia|]. apply max_level_loop_ge. unfold LF_MAX_LEVEL. lia.
Qed.

(** A node has room for its links, and the memory starts where a node can.  The constructor does not write the links of the tail:
    the words [fresh] that [new] leaves there must not have the bit of a mark ([tail_uninitialised] shows that the list does not work with such a word); they are arbitrary otherwise. *)
Record sk_setup (sz brk : Z) (fresh : list Z) : Prop := {
  ss_size : 0 < sz /\ sz mod 8 = 0;
  ss_brk : 0 < brk /\ brk mod 8 = 0 /\ brk + 2 * sz < 2 ^ 32;
  ss_fresh : length fresh = LF_MAX_LEVEL /\ Forall (fun v => MARKED v = false) fresh;
}.

Section ctor.
Context (sz brk : Z) (fresh ts : list Z) (Hs : sk_setup sz brk fresh).
#[local] Notation st0 := (sk_ctor sz brk fresh ts).
#[local] Notation tail := (brk + sz).

Lemma ctor_addr : addr brk /\ addr tail /\ brk <> tail.
Proof.
  destruct Hs as [[H1 H2] (H3 & H4 & H5) _]. unfold addr. split_and!; try lia. by rewrite Z.add_mod, H4, H2 by done.
Qed.

Lemma ctor_at p nd : sk_heap st0 !! p = Some nd ->
  p = brk /\ nd = mkSN 0 LF_MAX_LEVEL (replicate LF_MAX_LEVEL tail) \/ p = tail /\ nd = mkSN INT_MAX LF_MAX_LEVEL fresh.
Proof. cbn. intros [[<- <-]|[_ [<- <-]%lookup_singleton_Some]]%lookup_insert_Some; auto. Qed.

Lemma ctor_head : sk_heap st0 !! brk = Some (mkSN 0 LF_MAX_LEVEL (replicate LF_MAX_LEVEL tail)).
Proof. apply lookup_insert_eq. Qed.
Lemma ctor_tail : sk_heap st0 !! tail = Some (mkSN INT_MAX LF_MAX_LEVEL fresh).
Proof. cbn. rewrite lookup_insert_ne by apply ctor_addr. apply lookup_singleton_eq. Qed.

Lemma ctor_link i : (i < LF_MAX_LEVEL)%nat -> link (sk_heap st0) brk i = tail.
Proof. intros Hi. unfold link. rewrite ctor_head. cbn [mbind option_bind sn_next]. by rewrite lookup_replicate_2. Qed.

Lemma ctor_stop : stop (sk_heap st0) brk = LF_MAX_LEVEL /\ stop (sk_heap st0) tail = LF_MAX_LEVEL.
Proof. unfold stop. by rewrite ctor_head, ctor_tail. Qed.
Lemma ctor_key : skey (sk_heap st0) brk = 0 /\ skey (sk_heap st0) tail = INT_MAX.
Proof. unfold skey. by rewrite ctor_head, ctor_tail. Qed.
Lemma ctor_marks i : mk (sk_heap st0) brk i = false /\ mk (sk_heap st0) tail i = false.
Proof.
  destruct ctor_addr as (A1 & A2 & _), (ss_fresh _ _ _ Hs) as [_ Hf]. unfold mk. split.
  - destruct (decide (i < LF_MAX_LEVEL)%nat) as [Hi|Hi]; [rewrite ctor_link by done; by apply MARKED_addr|].
    unfold link. rewrite ctor_head. cbn [mbind option_bind sn_next]. by rewrite lookup_ge_None_2 by (rewrite length_replicate; lia).
  - unfold link. rewrite ctor_tail. cbn [mbind option_bind sn_next]. destruct (fresh !! i) eqn:E; [|done]. by apply (Forall_lookup_1 _ _ _ _ Hf E).
Qed.
Lemma ctor_next : nx (sk_heap st0) brk O = tail.
Proof. unfold nx. rewrite ctor_link by (unfold LF_MAX_LEVEL; lia). apply PTR_addr, ctor_addr. Qed.

Lemma ctor_shape : shape brk tail (bottom (sk_heap st0)) (brk + 2 * sz) [brk; tail] {[brk; tail]} ∅.
Proof.
  destruct ctor_addr as (A1 & A2 & Hne), ctor_key as [K1 K2], (ctor_marks O) as [M1 M2]. pose proof ctor_next as N1. destruct Hs as [[S1 S2] (B1 & B2 & B3) _].
  split; rewrite ?bottom_key, ?bottom_mark, ?bottom_next; try done.
  - cbn. by rewrite bottom_next.
  - apply SSorted_cons; [apply SSorted_cons; [apply SSorted_nil|done]|]. constructor; [|done]. by rewrite !bottom_key, K1, K2.
  - intros p. rewrite !elem_of_cons, elem_of_nil. set_solver.
  - intros p Hp. apply bottom_some. apply elem_of_union in Hp as [->%elem_of_singleton| ->%elem_of_singleton]; [rewrite ctor_head|rewrite ctor_tail]; done.
  - intros p Hp Hpt. apply elem_of_union in Hp as [->%elem_of_singleton| ->%elem_of_singleton]; [|done]. rewrite !bottom_next, !bottom_key, N1, K1, K2. split; [set_solver|done].
  - intros p Hp Hn. rewrite !elem_of_cons, elem_of_nil in Hn. set_solver.
  - split; [|lia]. apply eq_None_not_Some. intros [nd Hnd]%bottom_some. apply ctor_at in Hnd as [[E _]|[E _]]; lia.
  - intros p [nd Hnd]%bottom_some. apply ctor_at in Hnd as [[-> _]|[-> _]]; lia.
  - intros x. split; [set_solver|]. intros (p & Hp & H1 & H2 & _). rewrite !elem_of_cons, elem_of_nil in Hp. naive_solver.
Qed.

Lemma ctor_levels ml : (ml <= LF_MAX_LEVEL)%nat -> levels brk tail ml (sk_heap st0) {[brk; tail]}.
Proof.
  intros Hml. destruct ctor_addr as (A1 & A2 & Hne), ctor_stop as [S1 S2], (ss_fresh _ _ _ Hs) as [Hf _].
  assert (Hin : forall p, p ∈ ({[brk; tail]} : gset Z) -> p = brk \/ p = tail) by set_solver. split.
  - intros p [-> | ->]%Hin; (split; [done|]); eexists; (split; [apply ctor_head || apply ctor_tail|]); cbn [sn_top sn_next]; rewrite ?Hf, ?length_replicate; unfold LF_MAX_LEVEL; lia.
  - intros p i [-> | ->]%Hin Hp Hi; [|done]. rewrite ctor_link by (by rewrite <- S1). by apply good_addr.
  - intros p i [-> | ->]%Hin Hp Hi; [|done]. rewrite S1 in Hi. unfold nx. rewrite ctor_link, PTR_addr, S2 by done. split; [set_solver|done].
  - intros p i [-> | ->]%Hin Hm; destruct (ctor_marks O); congruence.
  - apply ctor_marks.
  - rewrite S1, S2. split_and!; [set_solver|done|set_solver|done].
Qed.

Lemma ctor_skinv ml : (ml <= LF_MAX_LEVEL)%nat -> skinv brk tail ml ∅ 0 INT_MAX st0 [brk; tail] {[brk; tail]} ∅.
Proof.
  intros Hml. assert (Hidle : forall t p, sk_pcs st0 !! t = Some p -> p = KIdle).
  { intros t p Hp. cbn in Hp. apply elem_of_list_to_map_2, list_elem_of_fmap in Hp as (? & [= _ ->] & _). done. }
  split; try done.
  - apply ctor_shape.
  - by apply ctor_levels.
  - intros t p ->%Hidle. done.
  - intros t t' p p' n ->%Hidle _ ?. done.
  - apply ctor_key.
  - destruct Hs as [[S1 S2] (B1 & B2 & B3) _]. cbn [sk_brk sk_ctor]. rewrite Z.add_mod, Z.mul_mod, B2, S2 by done. done.
  - intros p [nd Hnd]. destruct ctor_addr as (A1 & A2 & _). by apply ctor_at in Hnd as [[-> _]|[-> _]].
Qed.

Lemma skinv_reachable initsize st : 2 <= initsize -> rtc (sk_next brk (lf_set_max_level initsize) sz (fun x => 0 < x < INT_MAX)) st0 st ->
  exists ch pub K, skinv brk tail (lf_set_max_level initsize) ∅ 0 INT_MAX st ch pub K.
Proof.
  intros Hn Hr. pose proof (max_level_range initsize Hn) as Hml. assert (H0 : exists ch pub K, skinv brk tail (lf_set_max_level initsize) ∅ 0 INT_MAX st0 ch pub K).
  { eexists _, _, _. apply ctor_skinv. lia. }
  induction Hr as [|st0' st1 st2 Hstep _ IH]; [done|]. apply IH. destruct H0 as (ch & pub & K & Hi). destruct Hstep as [st0' t op x Hp Hop Hx|st0' st1 t rnd Hrnd Hst].
  - exists ch, pub, K. by apply skinv_invoke.
  - eapply skinv_step; [exact Hml|apply Hs|exact Hi|exact Hrnd|exact Hst].
Qed.
End ctor.

(** ** Progress *)

(** Where a step can be undefined: [findAndClean] has a link with its mark, or the memory is used up. *)
Definition may_fail (sz : Z) (st : sks) (p : spc) : Prop :=
  match p with
  | CSucc _ _ _ curr _ => MARKED curr = true
  | ANew _ _ _ => 2 ^ 32 <= sk_brk st + sz
  | _ => False
  end.

Lemma progress_read head tail ml K0 hk tk sz rnd st ch pub K t p :
  skinv head tail ml K0 hk tk st ch pub K -> sk_pcs st !! t = Some p ->
  match p with
  | KSucc _ _ _ _ | KSkip _ _ _ _ | FLoad _ _ _ _ _ _ | FSucc _ _ _ _ _ _ _ | RLoad _ _ _ | R0Load _ _ | R0Chk _ _ _ | CLoad _ _ _ _ | CReload _ _ _ _ | CSucc _ _ _ _ _ => True
  | _ => False
  end -> (exists st', sk_step head ml sz st t rnd = Ok st') \/ may_fail sz st p.
Proof.
  intros Hi Hp Hpc. pose proof (si_local _ _ _ _ _ _ _ _ _ _ Hi t p Hp) as Hl. unfold sk_step, contains_step, find_step, add_step, remove_step, clean_step, lf_randomLevel. rewrite Hp. cbn [of_opt mbind result_bind].
  assert (Hld : forall q i, safe (sk_heap st) pub q i -> exists nd v, load (sk_heap st) q i = Ok (nd, v)).
  { intros q i Hq. destruct (safe_link _ _ _ _ _ _ _ _ _ _ Hi q i Hq) as (nd & _ & H & _). eauto. }
  assert (Hbot : forall n, n ∈ pub -> safe (sk_heap st) pub n O).
  { intros n Hn. split; [done|]. destruct (lv_node _ _ _ _ _ (si_levels _ _ _ _ _ _ _ _ _ _ Hi) n Hn) as (_ & nd & Hnd & Ht). unfold stop. rewrite Hnd. cbn. lia. }
  destruct p as [|x pred curr i|x pred curr i|w x pred i ps ss|w x pred curr i ps ss| | | | | |x n i| |x n| |x n mine|x pred pf i|x pred pf curr i| |x pred pf i|]; try done;
    cbn [sk_local may_fail] in *; clear Hpc.
  - destruct (Hld curr i) as (nd & v & ->); [tauto|]. left. cbn [mbind result_bind]. repeat case_match; eauto.
  - destruct (Hld curr i) as (nd & v & ->); [tauto|]. left. cbn [mbind result_bind]. eauto.
  - destruct (Hld pred i) as (nd & v & ->); [tauto|]. left. cbn [mbind result_bind]. eauto.
  - destruct (Hld curr i) as (nd & v & ->); [tauto|]. left. cbn [mbind result_bind]. repeat case_match; eauto.
  - destruct (Hld n i) as (nd & v & ->); [split; [tauto|lia]|]. left. cbn [mbind result_bind]. repeat case_match; eauto.
  - destruct (Hld n O) as (nd & v & ->); [apply Hbot; tauto|]. left. cbn [mbind result_bind]. eauto.
  - destruct (Hld n O) as (nd & v & ->); [apply Hbot; destruct mine; tauto|]. left. cbn [mbind result_bind]. repeat case_match; eauto.
  - destruct (Hld pred i) as (nd & v & ->); [tauto|]. left. cbn [mbind result_bind]. eauto.
  - destruct Hl as (_ & _ & _ & _ & _ & _ & [Hc|Hc]); [left|by right]. destruct (Hld curr i Hc) as (nd & v & ->). cbn [mbind result_bind]. repeat case_match; eauto.
  - destruct (Hld pred i) as (nd & v & ->); [tauto|]. left. cbn [mbind result_bind]. eauto.
Qed.

Lemma skinv_progress head tail ml K0 hk tk sz rnd st ch pub K t p : (2 <= ml <= LF_MAX_LEVEL)%nat -> 0 <= rnd ->
  skinv head tail ml K0 hk tk st ch pub K -> sk_pcs st !! t = Some p -> p <> KIdle ->
  (exists st', sk_step head ml sz st t rnd = Ok st') \/ may_fail sz st p.
Proof.
  intros Hml Hrnd Hi Hp Hidle. destruct p; try done; try (eapply progress_read; [exact Hi|exact Hp|exact I]).
  all: pose proof (si_local _ _ _ _ _ _ _ _ _ _ Hi t _ Hp) as Hl; unfold sk_step, contains_step, find_step, add_step, remove_step, clean_step, lf_randomLevel; rewrite Hp; cbn [of_opt mbind result_bind]; cbn [sk_local may_fail] in *.
  - rewrite (cas_link head tail ml K0 hk tk st ch pub K) by tauto. left. cbn [mbind result_bind]. destruct (_ =? _); eauto.
  - unfold LF_MAX_LEVEL in Hml. destruct (level_of_rand_spec (Z.of_nat ml) rnd ltac:(lia) Hrnd) as (lv & -> & _). cbn [mbind result_bind].
    destruct (Z.ltb_spec (sk_brk st + sz) (2 ^ 32)); [left; eauto|by right].
  - destruct Hl as (_ & _ & _ & _ & _ & _ & _ & nd & -> & _). left. cbn [of_opt mbind result_bind]. eauto.
  - destruct Hl as (_ & _ & (_ & Hl1 & Hl2 & Hpre & _) & _). destruct (lookup_lt_is_Some_2 ps O ltac:(lia)) as [pred Hpred].
    destruct (lookup_lt_is_Some_2 ss O ltac:(lia)) as [succ Hsucc]. rewrite Hpred, Hsucc. cbn [of_opt mbind result_bind].
    rewrite (cas_link head tail ml K0 hk tk st ch pub K) by (done || apply (Hpre O pred Hpred)). left. cbn [mbind result_bind]. destruct (_ =? _); eauto.
  - destruct Hl as (_ & _ & (_ & Hl1 & Hl2 & Hpre & _) & Hn & Hj & Ht). destruct (lv_node _ _ _ _ _ (si_levels _ _ _ _ _ _ _ _ _ _ Hi) n Hn) as (_ & nd & Hnd & _).
    unfold stop in Ht. rewrite Hnd in *. cbn [of_opt mbind result_bind from_option] in *. destruct (Nat.ltb_spec j (sn_top nd)); [|left; eauto].
    destruct (lookup_lt_is_Some_2 ps j ltac:(lia)) as [pred Hpred]. destruct (lookup_lt_is_Some_2 ss j ltac:(lia)) as [succ Hsucc]. rewrite Hpred, Hsucc. cbn [of_opt mbind result_bind].
    rewrite (cas_link head tail ml K0 hk tk st ch pub K) by (done || apply (Hpre j pred Hpred)). left. cbn [mbind result_bind]. destruct (_ =? _); eauto.
  - rewrite (cas_link head tail ml K0 hk tk st ch pub K) by (done || (split; [tauto|lia])). left. cbn [mbind result_bind]. destruct (_ =? _); eauto.
  - destruct Hl as (_ & _ & Hn & _). destruct (lv_node _ _ _ _ _ (si_levels _ _ _ _ _ _ _ _ _ _ Hi) n Hn) as (_ & nd & Hnd & Ht).
    rewrite (cas_link head tail ml K0 hk tk st ch pub K) by (done || (split; [done|unfold stop; rewrite Hnd; cbn; lia])). left. cbn [mbind result_bind]. destruct (_ =? _); eauto.
  - rewrite (cas_link head tail ml K0 hk tk st ch pub K) by tauto. left. cbn [mbind result_bind]. destruct (_ =? _); eauto.
  - left. eauto.
Qed.

(** The chain of the bottom level in terms of the nodes. *)
Lemma bottom_sorted h ch : StronglySorted (fun p q => keyof (bottom h) p < keyof (bottom h) q) ch -> StronglySorted (fun p q => skey h p < skey h q) ch.
Proof.
  induction 1 as [|p ch _ IH Hf]; [apply SSorted_nil|]. apply SSorted_cons; [done|]. eapply Forall_impl; [exact Hf|]. intros q. cbn. by rewrite !bottom_key.
Qed.

(** ** Executions *)

(** A schedule: calls, and numbers of steps of threads with what [rand] returns in them. *)
Inductive sk_action := SCall (t op x : Z) | SRun (t : Z) (n : nat) (rnd : Z).

Fixpoint sk_run_thread (head : Z) (ml : nat) (sz : Z) (st : sks) (t rnd : Z) (n : nat) : result sks :=
  match n with O => Ok st | S n' => st' ← sk_step head ml sz st t rnd; sk_run_thread head ml sz st' t rnd n' end.
Definition sk_act (head : Z) (ml : nat) (sz : Z) (st : sks) (a : sk_action) : result sks :=
  match a with
  | SCall t op x => match sk_pcs st !! t with Some KIdle => Ok (sk_invoke head ml st t op x) | _ => UB end
  | SRun t n rnd => sk_run_thread head ml sz st t rnd n
  end.
Fixpoint sk_run (head : Z) (ml : nat) (sz : Z) (st : sks) (l : list sk_action) : result sks :=
  match l with [] => Ok st | a :: l' => st' ← sk_act head ml sz st a; sk_run head ml sz st' l' end.

Definition sk_legal_action (legal : Z -> Prop) (a : sk_action) : Prop :=
  match a with SCall _ op x => (op = CONTAINS_OP \/ op = ADD_OP \/ op = REMOVE_OP) /\ legal x | SRun _ _ rnd => 0 <= rnd end.

Lemma sk_run_thread_rtc legal head ml sz t rnd n : 0 <= rnd -> forall st st', sk_run_thread head ml sz st t rnd n = Ok st' -> rtc (sk_next head ml sz legal) st st'.
Proof.
  intros Hrnd. induction n as [|n IH]; intros st st' H; cbn [sk_run_thread] in H; [injection H as <-; apply rtc_refl|].
  apply bind_Ok in H as (st1 & H1 & H2). eapply rtc_l; [by eapply sk_next_run|auto].
Qed.

Lemma sk_run_rtc legal head ml sz l : forall st st', Forall (sk_legal_action legal) l -> sk_run head ml sz st l = Ok st' -> rtc (sk_next head ml sz legal) st st'.
Proof.
  induction l as [|a l IH]; intros st st' Hf H; cbn [sk_run] in H; [injection H as <-; apply rtc_refl|].
  apply Forall_cons in Hf as [Ha Hf]. apply bind_Ok in H as (st1 & H1 & H2). transitivity st1; [|auto].
  destruct a as [t op x|t n rnd]; cbn in *; [|by eapply sk_run_thread_rtc]. destruct (sk_pcs st !! t) as [[]|] eqn:Hp; try done. injection H1 as <-.
  destruct Ha. by apply rtc_once, sk_next_invoke.
Qed.

(** ** Properties *)

(** C4: The lock-free skip list is linearizable.  From the empty list of the constructor for an initial size of at least 2, for keys between 0 and INT_MAX, for any number of threads and in
    every interleaving of the accesses of [add], [remove] and [contains] to shared memory, the calls and returns are well formed,
    and the operations in the order of their points of effect are a run of a set of keys that starts empty: the nodes linked at
    the bottom level whose link is not marked hold exactly the keys of that set, in increasing order.  The links of the tail, which the constructor does not write,
    are arbitrary words without the bit of a mark ([sk_setup]). *)
Theorem lfskiplist_linearizable initsize sz brk fresh ts st : 2 <= initsize -> sk_setup sz brk fresh ->
  rtc (sk_next brk (lf_set_max_level initsize) sz (fun x => 0 < x < INT_MAX)) (sk_ctor sz brk fresh ts) st ->
  (forall t, is_Some (status t (sk_trace st))) /\
  exists K ch, replay set_spec ∅ (sk_trace st) = Some K /\ links (bottom (sk_heap st)) ch /\ ch !! 0%nat = Some brk /\ last ch = Some (brk + sz) /\
    StronglySorted (fun p q => skey (sk_heap st) p < skey (sk_heap st) q) ch /\
    forall x, x ∈ K <-> exists p, p ∈ ch /\ p <> brk /\ p <> brk + sz /\ mk (sk_heap st) p 0 = false /\ skey (sk_heap st) p = x.
Proof.
  intros Hn Hs Hr. destruct (skinv_reachable _ _ _ _ Hs _ _ Hn Hr) as (ch & pub & K & Hi). pose proof Hi as [Hsh _ Hrep _ _ Hst _ _ _].
  split; [done|]. exists K, ch. destruct Hsh. split_and!; try done.
  - by apply bottom_sorted.
  - intros x. rewrite sh_set. apply exist_proper. intros p. by rewrite bottom_mark, bottom_key.
Qed.

(** C33: No thread of the lock-free skip list waits or follows a wild pointer, with two exceptions: a thread inside a call has a next
    step, unless it needs a node and the memory is used up, or it is in [findAndClean] and holds a link whose mark it did not remove.  As in the theorem before, the words
    that the constructor leaves in the links of the tail have no bit of a mark; with such a bit also [contains] goes wrong ([tail_uninitialised]). *)
Theorem lfskiplist_only_clean_fails initsize sz brk fresh ts st t p rnd : 2 <= initsize -> sk_setup sz brk fresh -> 0 <= rnd ->
  rtc (sk_next brk (lf_set_max_level initsize) sz (fun x => 0 < x < INT_MAX)) (sk_ctor sz brk fresh ts) st ->
  sk_pcs st !! t = Some p -> p <> KIdle ->
  (exists st', sk_step brk (lf_set_max_level initsize) sz st t rnd = Ok st') \/
  (exists x pred pf curr i, p = CSucc x pred pf curr i /\ MARKED curr = true) \/ (exists x ps ss, p = ANew x ps ss /\ 2 ^ 32 <= sk_brk st + sz).
Proof.
  intros Hn Hs Hrnd Hr Hp Hidle. destruct (skinv_reachable _ _ _ _ Hs _ _ Hn Hr) as (ch & pub & K & Hi).
  destruct (skinv_progress _ _ _ _ _ _ sz rnd _ _ _ _ t p (max_level_range _ Hn) Hrnd Hi Hp Hidle) as [H|H]; [by left|right].
  destruct p; try done; [right|left]; cbn in H; eauto 10.
Qed.

(** Three levels, and the threads 1 and 2. *)
Definition ex_sk : sks := sk_ctor 128 64 (replicate LF_MAX_LEVEL 0) [1; 2].

(** Thread 1 removes 20 and is in [findAndClean] at the node of 10, about to read its bottom link, when thread 2 marks this node. *)
Definition mark_meets_clean : list sk_action :=
  [SCall 1 ADD_OP 10; SRun 1 11 0; SCall 1 ADD_OP 20; SRun 1 12 0; SCall 1 REMOVE_OP 20; SRun 1 21 0; SCall 2 REMOVE_OP 10; SRun 2 11 0; SRun 1 1 0].

Lemma ex_sk_setup : sk_setup 128 64 (replicate LF_MAX_LEVEL 0).
Proof. split; [done|done|]. split; [done|]. by apply Forall_replicate. Qed.

Lemma ex_sk_reachable l st : Forall (sk_legal_action (fun x => 0 < x < INT_MAX)) l -> sk_run 64 (lf_set_max_level 4) 128 ex_sk l = Ok st ->
  rtc (sk_next 64 (lf_set_max_level 4) 128 (fun x => 0 < x < INT_MAX)) ex_sk st.
Proof. apply sk_run_rtc. Qed.

Lemma mark_meets_clean_legal : Forall (sk_legal_action (fun x => 0 < x < INT_MAX)) mark_meets_clean.
Proof. unfold INT_MAX. repeat constructor; cbn; auto; lia. Qed.

(** C38: [findAndClean] can follow a marked link.  It takes over the link of its predecessor without removing the mark, which the rest of the
    list always does.  Two removals are enough: thread 1 cleans up after removing 20 and stands at the node of 10 when thread 2
    marks this node; the pointer that thread 1 then follows is not the address of a node, and its next step is undefined. *)
Theorem lfskiplist_clean_follows_mark :
  exists st pred pf curr, rtc (sk_next 64 (lf_set_max_level 4) 128 (fun x => 0 < x < INT_MAX)) ex_sk st /\
    sk_pcs st !! 1 = Some (CSucc 20 pred pf curr 0) /\ MARKED curr = true /\ is_Some (sk_heap st !! PTR curr) /\
    forall rnd, sk_step 64 (lf_set_max_level 4) 128 st 1 rnd = UB.
Proof.
  destruct (sk_run 64 (lf_set_max_level 4) 128 ex_sk mark_meets_clean) as [st| |] eqn:E; [|by vm_compute in E..].
  exists st, 320, 320, 449. split; [apply (ex_sk_reachable mark_meets_clean); [apply mark_meets_clean_legal|done]|].
  vm_compute in E. injection E as <-. split_and!; [reflexivity|reflexivity|by vm_compute; eexists|]. intros rnd. reflexivity.
Qed.

(** With a word of the tail that is odd even an empty list cannot be searched: [contains] takes the tail for a marked node. *)
Example tail_uninitialised :
  sk_run 64 (lf_set_max_level 4) 128 (sk_ctor 128 64 (replicate LF_MAX_LEVEL 1) [1]) [SCall 1 CONTAINS_OP 5; SRun 1 4 0] = UB.
Proof. by vm_compute. Qed.

(** ** Examples *)

(** Thread 2 looks for 10 while thread 1 removes it: it takes effect just after the removal, before its own last steps. *)
Definition sk_history : list sk_action :=
  [SCall 1 ADD_OP 10; SRun 1 11 0; SCall 2 CONTAINS_OP 10; SRun 2 2 0; SCall 1 REMOVE_OP 10; SRun 1 25 0; SRun 2 5 0].

Lemma lfskiplist_linearizable_witness :
  exists st K ch, sk_run 64 (lf_set_max_level 4) 128 ex_sk sk_history = Ok st /\
    sk_trace st = [Ret 2 0; Ret 1 1; Lin 2 CONTAINS_OP 10 0; Lin 1 REMOVE_OP 10 1; Mark 1; Inv 1 REMOVE_OP 10; Mark 2; Inv 2 CONTAINS_OP 10;
      Ret 1 1; Lin 1 ADD_OP 10 1; Inv 1 ADD_OP 10] /\
    replay set_spec ∅ (sk_trace st) = Some K /\ links (bottom (sk_heap st)) ch.
Proof.
  destruct (sk_run 64 (lf_set_max_level 4) 128 ex_sk sk_history) as [st| |] eqn:E; [|by vm_compute in E..].
  destruct (lfskiplist_linearizable 4 128 64 (replicate LF_MAX_LEVEL 0) [1; 2] st ltac:(lia) ex_sk_setup) as (_ & K & ch & H1 & H2 & _).
  { apply (ex_sk_reachable sk_history); [|done]. unfold INT_MAX. repeat constructor; cbn; auto; lia. }
  exists st, K, ch. split; [reflexivity|]. split; [vm_compute in E; injection E as <-; reflexivity|]. split; [exact H1|exact H2].
Defined.

(** The state in which thread 1 holds the marked link. *)
Lemma lfskiplist_only_clean_fails_witness :
  exists st p, sk_run 64 (lf_set_max_level 4) 128 ex_sk mark_meets_clean = Ok st /\ sk_pcs st !! 1 = Some p /\
    ((exists st', sk_step 64 (lf_set_max_level 4) 128 st 1 0 = Ok st') \/
     (exists x pred pf curr i, p = CSucc x pred pf curr i /\ MARKED curr = true) \/ (exists x ps ss, p = ANew x ps ss /\ 2 ^ 32 <= sk_brk st + 128)).
Proof.
  destruct (sk_run 64 (lf_set_max_level 4) 128 ex_sk mark_meets_clean) as [st| |] eqn:E; [|by vm_compute in E..].
  assert (Hp : sk_pcs st !! 1 = Some (CSucc 20 320 320 449 0)) by (vm_compute in E; by injection E as <-).
  exists st, (CSucc 20 320 320 449 0). split; [done|]. split; [done|].
  apply (lfskiplist_only_clean_fails 4 128 64 (replicate LF_MAX_LEVEL 0) [1; 2] st 1 (CSucc 20 320 320 449 0) 0 ltac:(lia) ex_sk_setup ltac:(lia)); [|done|done].
  apply (ex_sk_reachable mark_meets_clean); [apply mark_meets_clean_legal|done].
Defined.
