(* ===== verification/AddrRoute.v ===== *)
(** * Address ranges and the routing of the crossbars

    Models src/SMC/GEM5/gem5/src: AddrRange (base/addr_range.hh), the ranges by which the
    vaults of the memory are interleaved, AddrRangeMap (base/addr_range_map.hh), the ordered map
    in which a range is found from an address, and the address decoding of the
    crossbars (mem/xbar.hh, mem/xbar.cc): findPort with its cache of three entries and
    recvRangeChange, which collects the ranges of the connected modules and merges the
    interleaved ones.  The theorems show that the map finds the range of an address whenever
    its ranges are disjoint, that the cache never changes a route, that the ranges a crossbar
    advertises are those it routes, that the announcements of compatible modules are all
    accepted, and that insertion misses an overlap. *)

From S2P Require Import Prelude.

(** ** AddrRange *)

Record arange := mkAR { ar_start : Z; ar_end : Z; intlvHighBit : Z; intlvBits : Z; intlvMatch : Z }.

#[export] Instance arange_eq_dec : EqDecision arange.
Proof. solve_decision. Defined.

Definition bitmask (nbits : Z) : Z := 2 ^ nbits - 1.
(** [bits(val, first, last)] *)
Definition bits (val first last : Z) : Z := Z.land (Z.shiftr val last) (bitmask (first - last + 1)).

Definition RangeIn (s e : Z) : arange := mkAR s e 0 0 0.
Definition RangeSize (s n : Z) : arange := RangeIn s ((s + n - 1) mod 2 ^ 64).

Definition interleaved (r : arange) : bool := negb (intlvBits r =? 0).
Definition ar_size (r : arange) : Z := Z.shiftr ((ar_end r - ar_start r + 1) mod 2 ^ 64) (intlvBits r).

Definition mergesWith (r q : arange) : bool :=
  (ar_start q =? ar_start r) && (ar_end q =? ar_end r) && (intlvHighBit q =? intlvHighBit r) && (intlvBits q =? intlvBits r).

Definition ar_contains (r : arange) (a : Z) : bool :=
  (ar_start r <=? a) && (a <=? ar_end r) &&
  (negb (interleaved r) || (bits a (intlvHighBit r) (intlvHighBit r - intlvBits r + 1) =? intlvMatch r)).

(** [r.intersects(q)]; two interleaved ranges that do not merge stop the simulation. *)
Definition intersects (r q : arange) : sim bool :=
  let overlap := (ar_start r <=? ar_end q) && (ar_start q <=? ar_end r) in
  if negb (interleaved r) then Done overlap
  else if ar_size q =? 1 then Done (ar_contains r (ar_start q))
  else if negb (interleaved q) then Done overlap
  else if mergesWith r q then Done (intlvMatch r =? intlvMatch q)
  else Halt.

Definition range_isSubset (r q : arange) : sim bool :=
  if interleaved r then Halt else Done ((ar_start q <=? ar_start r) && (ar_end r <=? ar_end q)).

(** The checks of the constructor that merges ranges: the matches are 0, 1, ... in order. *)
Fixpoint merge_checks (first : arange) (m : Z) (l : list arange) : bool :=
  match l with
  | [] => true
  | r :: l' => mergesWith first r && (intlvMatch r =? m) && merge_checks first ((m + 1) mod 2 ^ 8) l'
  end.

Definition merge_ranges (l : list arange) : sim arange :=
  match l with
  | [] => Done (mkAR 1 0 0 0 0)
  | f :: _ =>
      if (Z.of_nat (length l) =? 2 ^ intlvBits f) && merge_checks f 0 l
      then Done (RangeIn (ar_start f) (ar_end f)) else Halt
  end.

(** [operator<] *)
Definition ar_lt (r q : arange) : bool :=
  if negb (ar_start r =? ar_start q) then ar_start r <? ar_start q else intlvMatch r <? intlvMatch q.

(** ** AddrRangeMap *)

Section map.
Context {V : Type}.
Implicit Types tree : list (arange * V).

(** Number of keys that are not greater than [r]: the position of [tree.upper_bound(r)]. *)
Fixpoint upper_bound (tree : list (arange * V)) (r : arange) : nat :=
  match tree with [] => O | e :: tree' => if ar_lt r e.1 then O else S (upper_bound tree' r) end.

(** The loop that steps back through the ranges of one chunk, and the test after it. *)
Fixpoint step_back (tree : list (arange * V)) (orig r : arange) (i : nat) : sim (option (arange * V)) :=
  e ← elem (tree !! i);
  match i with
  | S i' =>
      if mergesWith e.1 orig then
        e' ← elem (tree !! i');
        b ← intersects e'.1 r;
        if (b : bool) then Done (Some e') else step_back tree orig r i'
      else b ← intersects e.1 r; Done (if (b : bool) then Some e else None)
  | O => b ← intersects e.1 r; Done (if (b : bool) then Some e else None)
  end.

Definition map_find (tree : list (arange * V)) (r : arange) : sim (option (arange * V)) :=
  match tree with
  | [] => Done None
  | first :: _ =>
      match upper_bound tree r with
      | O => b ← intersects first.1 r; Done (if (b : bool) then Some first else None)
      | S i =>
          e ← elem (tree !! i);
          b ← intersects e.1 r;
          if (b : bool) then Done (Some e)
          else if interleaved e.1 then step_back tree e.1 r i
          else Done None
      end
  end.
Definition map_find_addr (tree : list (arange * V)) (a : Z) : sim (option (arange * V)) := map_find tree (RangeSize a 1).

(** [tree.insert] of std::map: at its place, unless there is an equivalent key. *)
Fixpoint tree_insert (tree : list (arange * V)) (r : arange) (d : V) : list (arange * V) :=
  match tree with
  | [] => [(r, d)]
  | e :: tree' => if ar_lt r e.1 then (r, d) :: tree else if ar_lt e.1 r then e :: tree_insert tree' r d else tree
  end.

(** [None] is [tree.end()]: the range intersects one of the map. *)
Definition map_insert (tree : list (arange * V)) (r : arange) (d : V) : sim (option (list (arange * V))) :=
  f ← map_find tree r;
  match f with Some _ => Done None | None => Done (Some (tree_insert tree r d)) end.
End map.

(** ** The crossbar *)

Definition InvalidPortID : Z := -1.

Record pcache := mkPC { pc_valid : bool; pc_id : Z; pc_range : arange }.

Record xbar := mkX {
  portMap : list (arange * Z);
  xbarRanges : list arange;
  defaultRange : arange;
  defaultPortID : Z;
  useDefaultRange : bool;
  portCache : pcache * pcache * pcache;
  gotAddrRanges : list bool;
  gotAllAddrRanges : bool;
}.

Definition set_cache (x : xbar) (c : pcache * pcache * pcache) : xbar :=
  mkX (portMap x) (xbarRanges x) (defaultRange x) (defaultPortID x) (useDefaultRange x) c (gotAddrRanges x) (gotAllAddrRanges x).

Definition cache_hit (c : pcache) (a : Z) : bool := pc_valid c && ar_contains (pc_range c) a.
Definition checkPortCache (x : xbar) (a : Z) : Z :=
  let '(c0, c1, c2) := portCache x in
  if cache_hit c0 a then pc_id c0 else if cache_hit c1 a then pc_id c1 else if cache_hit c2 a then pc_id c2 else InvalidPortID.
Definition updatePortCache (x : xbar) (id : Z) (r : arange) : xbar :=
  let '(c0, c1, c2) := portCache x in set_cache x (mkPC true id r, c0, c1).
Definition clearPortCache (x : xbar) : xbar :=
  let '(c0, c1, c2) := portCache x in
  set_cache x (mkPC false (pc_id c0) (pc_range c0), mkPC false (pc_id c1) (pc_range c1), mkPC false (pc_id c2) (pc_range c2)).

(** What follows a miss in the map; [Halt] is [fatal]. *)
Definition default_route (x : xbar) (a : Z) : sim Z :=
  if useDefaultRange x then if ar_contains (defaultRange x) a then Done (defaultPortID x) else Halt
  else if negb (defaultPortID x =? InvalidPortID) then Done (defaultPortID x) else Halt.

Definition findPort (x : xbar) (a : Z) : sim (xbar * Z) :=
  _ ← check (gotAllAddrRanges x);
  let dest_id := checkPortCache x a in
  if negb (dest_id =? InvalidPortID) then Done (x, dest_id)
  else
    f ← map_find_addr (portMap x) a;
    match f with
    | Some (r, id) => Done (updatePortCache x id r, id)
    | None => id ← default_route x a; Done (x, id)
    end.

(** A sequence of look-ups. *)
Fixpoint find_ports (x : xbar) (l : list Z) : sim (xbar * list Z) :=
  match l with
  | [] => Done (x, [])
  | a :: l' => p ← findPort x a; q ← find_ports p.1 l'; Done (q.1, p.2 :: q.2)
  end.

Definition xbar_getAddrRanges (x : xbar) : sim (list arange) := _ ← check (gotAllAddrRanges x); Done (xbarRanges x).

(** The constructor; [c] is what the cache holds, which the constructors of the subclasses clear. *)
Definition new_xbar (nports : nat) (default : Z) (use_default_range : bool) (c : pcache * pcache * pcache) : xbar :=
  mkX [] [] (mkAR 1 0 0 0 0) default use_default_range c (replicate nports false) false.

(** [gotAddrRanges[port]] *)
Definition got_at (got : list bool) (port : Z) : sim bool := if 0 <=? port then elem (got !! Z.to_nat port) else Wild.

(** *** recvRangeChange *)

(** The ranges of a module are entered into the map. *)
Fixpoint enter_ranges (tree : list (arange * Z)) (port : Z) (l : list arange) : sim (list (arange * Z)) :=
  match l with
  | [] => Done tree
  | r :: l' =>
      t ← map_insert tree r port;
      match t with Some tree' => enter_ranges tree' port l' | None => Halt end
  end.

(** A range is advertised unless it is a subset of the default range. *)
Definition keep_range (x : xbar) (out : list arange) (r : arange) : sim (list arange) :=
  if useDefaultRange x then s ← range_isSubset r (defaultRange x); Done (if (s : bool) then out else out ++ [r])
  else Done (out ++ [r]).
Definition keep_merged (x : xbar) (out intlv : list arange) : sim (list arange) :=
  m ← merge_ranges intlv; keep_range x out m.

(** The loop over the map; [intlv] are the interleaved ranges waiting to be merged. *)
Fixpoint aggregate (x : xbar) (l : list (arange * Z)) (out intlv : list arange) : sim (list arange) :=
  match l with
  | [] => match intlv with [] => Done out | _ => keep_merged x out intlv end
  | (r, _) :: l' =>
      if interleaved r then
        match last intlv with
        | Some q =>
            if mergesWith q r then aggregate x l' out (intlv ++ [r])
            else out' ← keep_merged x out intlv; aggregate x l' out' [r]
        | None => aggregate x l' out [r]
        end
      else out' ← keep_range x out r; aggregate x l' out' intlv
  end.

(** No advertised range overlaps the default range partially. *)
Fixpoint check_default (d : arange) (l : list arange) : sim unit :=
  match l with
  | [] => Done tt
  | r :: l' =>
      i ← intersects r d;
      s ← (if (i : bool) then range_isSubset r d else Done true);
      _ ← check s;
      check_default d l'
  end.

Section change.
Context (getAddrRanges : Z -> list arange).

(** The ranges of the module on the port: the default range, or the entries of the map. *)
Definition take_ranges (x : xbar) (port : Z) : sim xbar :=
  if port =? defaultPortID x then
    if useDefaultRange x then
      match getAddrRanges port with
      | [r] => Done (mkX (portMap x) (xbarRanges x) r (defaultPortID x) (useDefaultRange x) (portCache x) (gotAddrRanges x) (gotAllAddrRanges x))
      | _ => Halt
      end
    else Done x
  else
    tree ← enter_ranges (filter (fun e => e.2 <> port) (portMap x)) port (getAddrRanges port);
    Done (mkX tree (xbarRanges x) (defaultRange x) (defaultPortID x) (useDefaultRange x) (portCache x) (gotAddrRanges x) (gotAllAddrRanges x)).

(** Once all ranges are known they are aggregated. *)
Definition publish (x : xbar) : sim xbar :=
  if gotAllAddrRanges x then
    _ ← (if useDefaultRange x then g ← got_at (gotAddrRanges x) (defaultPortID x); check g else Done tt);
    out ← aggregate x (portMap x) (if useDefaultRange x then [defaultRange x] else []) [];
    _ ← (if useDefaultRange x then check_default (defaultRange x) out else Done tt);
    Done (mkX (portMap x) out (defaultRange x) (defaultPortID x) (useDefaultRange x) (portCache x) (gotAddrRanges x) (gotAllAddrRanges x))
  else Done x.

Definition set_got (x : xbar) (port : Z) : xbar :=
  let got := <[Z.to_nat port := true]> (gotAddrRanges x) in
  mkX (portMap x) (xbarRanges x) (defaultRange x) (defaultPortID x) (useDefaultRange x) (portCache x) got
    (gotAllAddrRanges x || forallb id got).

Definition recvRangeChange (x : xbar) (port : Z) : sim xbar :=
  _ ← got_at (gotAddrRanges x) port;
  x1 ← take_ranges (set_got x port) port;
  x2 ← publish x1;
  Done (clearPortCache x2).

(** The announcements of the modules, in the order of the list. *)
Fixpoint announce (x : xbar) (ports : list Z) : sim xbar :=
  match ports with [] => Done x | p :: ports' => x' ← recvRangeChange x p; announce x' ports' end.
End change.

(** ** Ranges *)

(** A range that a module answers to: an interleaved one starts at a multiple of its chunk. *)
Definition range_ok (r : arange) : Prop :=
  0 <= ar_start r <= ar_end r /\ ar_end r < 2 ^ 64 /\
  (intlvBits r = 0 /\ intlvMatch r = 0 \/
   0 < intlvBits r <= intlvHighBit r + 1 /\ (2 ^ (intlvHighBit r + 1) | ar_start r) /\ 0 <= intlvMatch r).

(** Two ranges of a map: apart, or different slices of the same chunk. *)
Definition apart (r q : arange) : Prop :=
  ar_end r < ar_start q \/ ar_end q < ar_start r \/
  mergesWith r q = true /\ interleaved r = true /\ intlvMatch r <> intlvMatch q.

Definition slice (r : arange) (a : Z) : Z := bits a (intlvHighBit r) (intlvHighBit r - intlvBits r + 1).

Lemma bits_div val f l : 0 <= l <= f + 1 -> bits val f l = (val / 2 ^ l) mod 2 ^ (f - l + 1).
Proof.
  intros Hl. unfold bits, bitmask. rewrite Z.shiftr_div_pow2 by lia.
  replace (2 ^ (f - l + 1) - 1) with (Z.ones (f - l + 1)) by (rewrite Z.ones_equiv; lia). apply Z.land_ones. lia.
Qed.

Lemma contains_true r a : ar_contains r a = true <->
  ar_start r <= a <= ar_end r /\ (interleaved r = true -> slice r a = intlvMatch r).
Proof.
  unfold ar_contains, slice. rewrite !andb_true_iff, orb_true_iff, negb_true_iff, Z.eqb_eq, !Z.leb_le.
  destruct (interleaved r); split; intros; naive_solver.
Qed.

Lemma merges_eq r q : mergesWith r q = true <->
  ar_start q = ar_start r /\ ar_end q = ar_end r /\ intlvHighBit q = intlvHighBit r /\ intlvBits q = intlvBits r.
Proof. unfold mergesWith. rewrite !andb_true_iff, !Z.eqb_eq. tauto. Qed.

(** Ranges of a map share no address. *)
Lemma apart_disjoint r q a : apart r q -> ar_contains r a = true -> ar_contains q a = false.
Proof.
  intros Ha Hr. destruct (ar_contains q a) eqn:Hq; [|done]. exfalso. apply contains_true in Hr as [H1 H2], Hq as [H3 H4].
  destruct Ha as [Ha|[Ha|(Hm & Hi & Hne)]]; [lia|lia|]. apply merges_eq in Hm as (_ & _ & E1 & E2).
  assert (Hq : interleaved q = true) by (unfold interleaved in *; by rewrite E2). apply Hne. rewrite <- (H2 Hi), <- (H4 Hq).
  unfold slice. by rewrite E1, E2.
Qed.

Lemma aligned_slice r : range_ok r -> interleaved r = true -> slice r (ar_start r) = 0.
Proof.
  intros (_ & _ & [[Hb _]|(Hb & [k Hk] & _)]) Hi; [unfold interleaved in Hi; by rewrite Hb in Hi|].
  unfold slice. rewrite bits_div by lia. rewrite Hk. set (l := intlvHighBit r - intlvBits r + 1).
  replace (intlvHighBit r - l + 1) with (intlvBits r) by lia. replace (intlvHighBit r + 1) with (intlvBits r + l) by lia.
  rewrite Z.pow_add_r by lia. rewrite Z.mul_assoc, Z.div_mul by lia. apply Z.mod_mul. lia.
Qed.

(** A single address intersects the ranges that contain it. *)
Lemma intersects_addr r a : 0 <= a < 2 ^ 64 -> intersects r (RangeSize a 1) = Done (ar_contains r a).
Proof.
  intros Ha. unfold intersects, RangeSize, RangeIn, ar_size. cbn [ar_start ar_end intlvBits].
  replace ((a + 1 - 1) mod 2 ^ 64) with a by (rewrite Z.mod_small; lia).
  replace ((a - a + 1) mod 2 ^ 64) with 1 by (replace (a - a + 1) with 1 by lia; reflexivity). cbn [Z.shiftr].
  destruct (interleaved r) eqn:Ei; [done|]. unfold ar_contains. rewrite Ei. cbn. rewrite andb_true_r. done.
Qed.

(** ** The map *)

Section tree.
Context {V : Type}.
Implicit Types tree : list (arange * V).

Record tree_ok (tree : list (arange * V)) : Prop := {
  tr_sorted : StronglySorted (fun e f => ar_lt e.1 f.1 = true) tree;
  tr_range : Forall (fun e => range_ok e.1) tree;
  tr_apart i j e f : tree !! i = Some e -> tree !! j = Some f -> i <> j -> apart e.1 f.1;
}.

Lemma ar_lt_trans r q s : ar_lt r q = true -> ar_lt q s = true -> ar_lt r s = true.
Proof.
  unfold ar_lt. destruct (Z.eqb_spec (ar_start r) (ar_start q)) as [E1|E1], (Z.eqb_spec (ar_start q) (ar_start s)) as [E2|E2],
    (Z.eqb_spec (ar_start r) (ar_start s)) as [E3|E3]; cbn; rewrite !Z.ltb_lt; lia.
Qed.

Lemma sorted_before tree i j e f : StronglySorted (fun e f => ar_lt e.1 f.1 = true) tree ->
  tree !! i = Some e -> tree !! j = Some f -> (i < j)%nat -> ar_lt e.1 f.1 = true.
Proof.
  intros Hs. revert i j. induction Hs as [|a l Hs IH Ha]; intros i j Hi Hj Hij; [done|]. destruct j as [|j]; [lia|].
  destruct i as [|i]; cbn in *; [|apply (IH i j); [done|done|lia]]. injection Hi as <-. rewrite Forall_forall in Ha. apply Ha.
  by eapply list_elem_of_lookup_2.
Qed.

Lemma upper_bound_spec tree r : StronglySorted (fun e f => ar_lt e.1 f.1 = true) tree ->
  (upper_bound tree r <= length tree)%nat /\
  forall i e, tree !! i = Some e -> if decide (i < upper_bound tree r)%nat then ar_lt r e.1 = false else ar_lt r e.1 = true.
Proof.
  intros Hs. induction Hs as [|a l Hs [IHl IH] Ha]; [done|]. cbn [upper_bound length]. destruct (ar_lt r a.1) eqn:E; split; try lia.
  - intros i e Hi. rewrite decide_False by lia. destruct i as [|i]; cbn in Hi; [congruence|]. rewrite Forall_forall in Ha.
    apply (ar_lt_trans _ a.1); [done|]. apply Ha. by eapply list_elem_of_lookup_2.
  - intros [|i] e Hi; cbn in Hi; [injection Hi as <-; by rewrite decide_True by lia|]. specialize (IH i e Hi).
    destruct (decide (i < upper_bound l r)%nat); [rewrite decide_True by lia|rewrite decide_False by lia]; done.
Qed.

Lemma step_back_spec tree orig a : 0 <= a < 2 ^ 64 -> forall i e, tree !! i = Some e -> ar_contains e.1 a = false ->
  exists o, step_back tree orig (RangeSize a 1) i = Done o /\
    match o with
    | Some f => f ∈ tree /\ ar_contains f.1 a = true
    | None => forall j f, (j <= i)%nat -> tree !! j = Some f ->
        (forall k g, (j < k <= i)%nat -> tree !! k = Some g -> mergesWith g.1 orig = true) -> ar_contains f.1 a = false
    end.
Proof.
  intros Ha i. induction i as [|i IH]; intros e He Hc; cbn [step_back]; rewrite He; cbn [elem mbind sim_bind].
  { rewrite intersects_addr by done. cbn [mbind sim_bind]. rewrite Hc. eexists. split; [done|]. cbn. intros j f Hj Hf _.
    assert (j = 0%nat) as -> by lia. congruence. }
  destruct (mergesWith e.1 orig) eqn:Hm.
  - destruct (lookup_lt_is_Some_2 tree i) as [e' He']; [apply lookup_lt_Some in He; lia|]. rewrite He'. cbn [elem mbind sim_bind].
    rewrite intersects_addr by done. cbn [mbind sim_bind]. destruct (ar_contains e'.1 a) eqn:Hc'.
    + eexists. split; [done|]. cbn. split; [by eapply list_elem_of_lookup_2|done].
    + destruct (IH e' He' Hc') as (o & Ho & Hspec). exists o. split; [exact Ho|]. destruct o as [f|]; [done|].
      intros j f Hj Hf Hall. destruct (decide (j = S i)) as [->|]; [congruence|]. apply (Hspec j f); [lia|done|].
      intros k g Hk. apply Hall. lia.
  - rewrite intersects_addr by done. cbn [mbind sim_bind]. rewrite Hc. eexists. split; [done|]. cbn. intros j f Hj Hf Hall.
    destruct (decide (j = S i)) as [->|]; [congruence|]. specialize (Hall (S i) e ltac:(lia) He). congruence.
Qed.

(** The ranges between a range that contains an address and the position of the address in the order are
    slices of the same chunk. *)
Lemma between_merge tree a i j k e f : tree_ok tree -> 0 <= a < 2 ^ 64 -> tree !! j = Some e -> ar_contains e.1 a = true ->
  (j < k)%nat -> tree !! k = Some f -> ar_lt (RangeSize a 1) f.1 = false -> i = k -> mergesWith e.1 f.1 = true /\ interleaved e.1 = true.
Proof.
  intros [Hs Hr Hap] Ha He Hc Hjk Hf Hlt _. pose proof (sorted_before _ _ _ _ _ Hs He Hf Hjk) as Hef.
  apply contains_true in Hc as [Hc _]. pose proof (Forall_lookup_1 _ _ _ _ Hr Hf) as ((Hf1 & Hf2) & _).
  assert (Hfa : ar_start f.1 <= a).
  { unfold ar_lt, RangeSize, RangeIn in Hlt. cbn in Hlt. destruct (Z.eqb_spec a (ar_start f.1)); cbn in Hlt; [lia|]. apply Z.ltb_ge in Hlt. lia. }
  assert (Hse : ar_start e.1 <= ar_start f.1).
  { unfold ar_lt in Hef. destruct (Z.eqb_spec (ar_start e.1) (ar_start f.1)); cbn in Hef; [lia|]. apply Z.ltb_lt in Hef. lia. }
  destruct (Hap j k e f He Hf ltac:(lia)) as [H|[H|(H1 & H2 & _)]]; [lia|lia|done].
Qed.

Lemma query_before tree a j e : tree_ok tree -> 0 <= a < 2 ^ 64 -> tree !! j = Some e -> ar_contains e.1 a = true ->
  ar_lt (RangeSize a 1) e.1 = false.
Proof.
  intros [Hs Hr Hap] Ha He Hc. pose proof (Forall_lookup_1 _ _ _ _ Hr He) as Hok. apply contains_true in Hc as [Hc Hsl].
  unfold ar_lt, RangeSize, RangeIn. cbn. destruct (Z.eqb_spec a (ar_start e.1)) as [E|E]; cbn; [|apply Z.ltb_ge; lia]. apply Z.ltb_ge.
  destruct (interleaved e.1) eqn:Ei.
  - rewrite <- (Hsl eq_refl), E. pose proof (aligned_slice _ Hok Ei). lia.
  - destruct Hok as (_ & _ & [[_ ->]|[Hb _]]); [lia|]. unfold interleaved in Ei. apply negb_false_iff, Z.eqb_eq in Ei. lia.
Qed.

(** [find] returns a range of the map that contains the address, and one if there is one. *)
Lemma map_find_ok tree a : tree_ok tree -> 0 <= a < 2 ^ 64 -> exists o, map_find_addr tree a = Done o /\
  match o with Some f => f ∈ tree /\ ar_contains f.1 a = true | None => forall e, e ∈ tree -> ar_contains e.1 a = false end.
Proof.
  intros Hok Ha. pose proof Hok as [Hs Hr Hap]. unfold map_find_addr, map_find. destruct tree as [|first tree'] eqn:Et.
  { eexists. split; [done|]. cbn. intros e He. by apply elem_of_nil in He. }
  rewrite <- Et in *. destruct (upper_bound_spec tree (RangeSize a 1) Hs) as [Hub Hspec].
  assert (Hno : forall j e, tree !! j = Some e -> ar_contains e.1 a = true -> (j < upper_bound tree (RangeSize a 1))%nat).
  { intros j e He Hc. specialize (Hspec j e He). rewrite (query_before tree a j e Hok Ha He Hc) in Hspec. by case_decide. }
  destruct (upper_bound tree (RangeSize a 1)) as [|i] eqn:Eub.
  - rewrite intersects_addr by done. cbn [mbind sim_bind]. destruct (ar_contains first.1 a) eqn:Hc; (eexists; split; [done|]); cbn.
    + split; [|done]. rewrite Et. left.
    + intros e [j Hj]%list_elem_of_lookup_1. destruct (ar_contains e.1 a) eqn:Hce; [|done]. specialize (Hno j e Hj Hce). lia.
  - destruct (lookup_lt_is_Some_2 tree i) as [e He]; [lia|]. rewrite He. cbn [elem mbind sim_bind]. rewrite intersects_addr by done.
    cbn [mbind sim_bind]. destruct (ar_contains e.1 a) eqn:Hc.
    { eexists. split; [done|]. cbn. split; [by eapply list_elem_of_lookup_2|done]. }
    assert (Hm : forall j f k g, tree !! j = Some f -> ar_contains f.1 a = true -> (j < k <= i)%nat -> tree !! k = Some g ->
              mergesWith f.1 g.1 = true /\ interleaved f.1 = true).
    { intros j f k g Hf Hcf Hk Hg. apply (between_merge tree a k j k f g); try done; [lia|]. specialize (Hspec k g Hg).
      by rewrite decide_True in Hspec by lia. }
    assert (Hlast : forall j f, tree !! j = Some f -> ar_contains f.1 a = true -> (j < i)%nat).
    { intros j f Hf Hcf. specialize (Hno j f Hf Hcf). destruct (decide (j = i)) as [->|]; [congruence|lia]. }
    destruct (interleaved e.1) eqn:Ei.
    + destruct (step_back_spec tree e.1 a Ha i e He Hc) as (o & Ho & Hsp). exists o. split; [exact Ho|]. destruct o as [f|]; [done|].
      intros f [j Hj]%list_elem_of_lookup_1. destruct (ar_contains f.1 a) eqn:Hcf; [|done]. pose proof (Hlast j f Hj Hcf) as Hji.
      rewrite (Hsp j f) in Hcf; [done|lia|done|]. intros k g Hk Hg. destruct (Hm j f k g Hj Hcf Hk Hg) as [H1 _].
      destruct (Hm j f i e Hj Hcf ltac:(lia) He) as [H2 _]. rewrite merges_eq in *. naive_solver congruence.
    + eexists. split; [done|]. cbn. intros f [j Hj]%list_elem_of_lookup_1. destruct (ar_contains f.1 a) eqn:Hcf; [|done].
      pose proof (Hlast j f Hj Hcf) as Hji. destruct (Hm j f i e Hj Hcf ltac:(lia) He) as [H1 H2]. apply merges_eq in H1 as (_ & _ & _ & H1).
      unfold interleaved in *. congruence.
Qed.
End tree.

(** ** Routes *)

(** The route of an address: the port of the range that contains it, or the default. *)
Definition route (x : xbar) (a : Z) : sim Z :=
  match head (filter (fun e => ar_contains e.1 a = true) (portMap x)) with
  | Some e => Done e.2
  | None => default_route x a
  end.

Definition cached (tree : list (arange * Z)) (c : pcache) : Prop := pc_valid c = true -> (pc_range c, pc_id c) ∈ tree.

Record xbar_ok (x : xbar) : Prop := {
  xo_tree : tree_ok (portMap x);
  xo_id e : e ∈ portMap x -> e.2 <> InvalidPortID;
  xo_cache : let '(c0, c1, c2) := portCache x in cached (portMap x) c0 /\ cached (portMap x) c1 /\ cached (portMap x) c2;
}.

Lemma tree_unique (tree : list (arange * Z)) a e f : tree_ok tree -> e ∈ tree -> f ∈ tree -> ar_contains e.1 a = true -> ar_contains f.1 a = true -> e = f.
Proof.
  intros [_ _ Hap] [i Hi]%list_elem_of_lookup_1 [j Hj]%list_elem_of_lookup_1 He Hf. destruct (decide (i = j)) as [->|Hij]; [congruence|].
  pose proof (apart_disjoint _ _ a (Hap i j e f Hi Hj Hij) He). congruence.
Qed.

Lemma route_in x a e : tree_ok (portMap x) -> e ∈ portMap x -> ar_contains e.1 a = true -> route x a = Done e.2.
Proof.
  intros Hok He Hc. unfold route. destruct (head (filter _ (portMap x))) as [f|] eqn:Ef.
  - f_equal. apply head_Some_elem_of, list_elem_of_filter in Ef as [Hf1 Hf2]. f_equal. by apply (tree_unique _ a f e Hok).
  - apply head_None in Ef. assert (Hin : e ∈ filter (fun e => ar_contains e.1 a = true) (portMap x)) by by apply list_elem_of_filter.
    rewrite Ef in Hin. by apply elem_of_nil in Hin.
Qed.

Lemma route_out x a : (forall e, e ∈ portMap x -> ar_contains e.1 a = false) -> route x a = default_route x a.
Proof.
  intros Hn. unfold route. destruct (head (filter _ (portMap x))) as [f|] eqn:Ef; [|done].
  apply head_Some_elem_of, list_elem_of_filter in Ef as [Hf1 Hf2]. rewrite Hn in Hf1; done.
Qed.

Lemma checkPortCache_spec x a : xbar_ok x -> checkPortCache x a <> InvalidPortID -> route x a = Done (checkPortCache x a).
Proof.
  intros [Ht Hid Hc]. unfold checkPortCache. destruct (portCache x) as [[c0 c1] c2]. destruct Hc as (H0 & H1 & H2). unfold cache_hit.
  assert (Hhit : forall c, cached (portMap x) c -> pc_valid c && ar_contains (pc_range c) a = true -> route x a = Done (pc_id c)).
  { intros c Hc [Hv Ha]%andb_true_iff. by apply (route_in x a (pc_range c, pc_id c) Ht (Hc Hv)). }
  repeat case_match; intros Hne; auto. done.
Qed.

Lemma updatePortCache_ok x r id : xbar_ok x -> (r, id) ∈ portMap x -> xbar_ok (updatePortCache x id r).
Proof.
  intros [Ht Hid Hc] Hin. unfold updatePortCache, set_cache. destruct (portCache x) as [[c0 c1] c2] eqn:Ec. destruct Hc as (H0 & H1 & H2).
  split; cbn; [done|done|]. split; [|done]. by intros _.
Qed.

(** One look-up: the route, and nothing but the cache changes. *)
Lemma findPort_route x a : xbar_ok x -> gotAllAddrRanges x = true -> 0 <= a < 2 ^ 64 ->
  match route x a with
  | Done id => exists c, findPort x a = Done (set_cache x c, id) /\ xbar_ok (set_cache x c)
  | Halt => findPort x a = Halt
  | Wild => False
  end.
Proof.
  intros Hok Hall Ha. unfold findPort. rewrite Hall. cbn [check mbind sim_bind].
  assert (Hsame : set_cache x (portCache x) = x) by by destruct x.
  destruct (Z.eqb_spec (checkPortCache x a) InvalidPortID) as [E|E]; cbn [negb].
  2:{ rewrite (checkPortCache_spec x a Hok E). exists (portCache x). by rewrite Hsame. }
  destruct (map_find_ok (portMap x) a (xo_tree x Hok) Ha) as ([[r id]|] & -> & Hf); cbn [mbind sim_bind].
  - destruct Hf as [Hf1 Hf2]. rewrite (route_in x a (r, id) (xo_tree x Hok) Hf1 Hf2). pose proof (updatePortCache_ok x r id Hok Hf1) as Hu.
    unfold updatePortCache in *. destruct (portCache x) as [[c0 c1] c2]. by eexists.
  - rewrite (route_out x a Hf). destruct (default_route x a) as [id| |] eqn:Ed; [|done|].
    + exists (portCache x). rewrite Hsame. done.
    + unfold default_route in Ed. by repeat case_match.
Qed.

(** The cache of three entries never changes a route: over any sequence of look-ups findPort answers
    each address as the reference, which looks through the whole map and knows no cache, and stops the simulation exactly
    when the reference has no route. *)
Lemma find_ports_route x l : xbar_ok x -> gotAllAddrRanges x = true -> Forall (fun a => 0 <= a < 2 ^ 64) l ->
  match mapM (route x) l with
  | Done ids => exists c, find_ports x l = Done (set_cache x c, ids) /\ xbar_ok (set_cache x c)
  | Halt => find_ports x l = Halt
  | Wild => False
  end.
Proof.
  intros Hok Hall Hl. revert x Hok Hall. induction Hl as [|a l Ha Hl IH]; intros x Hok Hall; cbn [mapM find_ports].
  { exists (portCache x). assert (set_cache x (portCache x) = x) as -> by by destruct x. done. }
  pose proof (findPort_route x a Hok Hall Ha) as Hf. destruct (route x a) as [id| |]; cbn [mbind sim_bind]; [|by rewrite Hf|done].
  destruct Hf as (c & -> & Hok'). cbn [mbind sim_bind fst snd]. specialize (IH (set_cache x c) Hok' Hall).
  change (route (set_cache x c)) with (route x) in IH. destruct (mapM (route x) l) as [ids| |]; cbn [mbind sim_bind]; [| |done].
  - destruct IH as (c' & -> & Hok''). by exists c'.
  - by rewrite IH.
Qed.

(** ** Entering the ranges of the modules *)

(** Two ranges that two modules may have: apart in memory, and then not both interleaved, or different slices,
    of more than one address, of the same chunk. *)
Definition compatible (r q : arange) : Prop :=
  (ar_end r < ar_start q \/ ar_end q < ar_start r) /\ (interleaved r = false \/ interleaved q = false) \/
  mergesWith r q = true /\ interleaved r = true /\ intlvMatch r <> intlvMatch q /\ ar_size q <> 1.

Lemma compatible_apart r q : compatible r q -> apart r q.
Proof. unfold compatible, apart. naive_solver. Qed.

Lemma compatible_intersects r q : compatible r q -> range_ok r -> range_ok q -> intersects r q = Done false.
Proof.
  intros Hc (Hr & _) (Hq & _). unfold intersects.
  assert (Hov : (ar_end r < ar_start q \/ ar_end q < ar_start r) -> (ar_start r <=? ar_end q) && (ar_start q <=? ar_end r) = false).
  { intros H. apply andb_false_iff. rewrite !Z.leb_gt. lia. }
  destruct Hc as [[Hd Hi]|(Hm & Hi & Hne & Hs)].
  - rewrite (Hov Hd). destruct (interleaved r); cbn [negb]; [|done]. destruct Hi as [|Hi]; [done|]. rewrite Hi. cbn [negb].
    destruct (Z.eqb_spec (ar_size q) 1) as [E|E]; [|done]. f_equal. destruct (ar_contains r (ar_start q)) eqn:E1; [|done].
    apply contains_true in E1. lia.
  - rewrite Hi. cbn [negb]. destruct (Z.eqb_spec (ar_size q) 1) as [E|E]; [done|].
    assert (interleaved q = true) as ->. { apply merges_eq in Hm as (_ & _ & _ & Hb). unfold interleaved in *. by rewrite Hb. }
    rewrite Hm. cbn [negb]. f_equal. by apply Z.eqb_neq.
Qed.

Lemma step_back_none {V} (tree : list (arange * V)) orig r : (forall e, e ∈ tree -> intersects e.1 r = Done false) ->
  forall i, (i < length tree)%nat -> step_back tree orig r i = Done None.
Proof.
  intros Hn i. induction i as [|i IH]; intros Hi; cbn [step_back]; destruct (lookup_lt_is_Some_2 tree _ Hi) as [e He]; rewrite He;
    cbn [elem mbind sim_bind]; rewrite (Hn e) by (by eapply list_elem_of_lookup_2); cbn [mbind sim_bind]; [done|].
  destruct (lookup_lt_is_Some_2 tree i ltac:(lia)) as [e' He']. rewrite He'. cbn [elem mbind sim_bind].
  rewrite (Hn e') by (by eapply list_elem_of_lookup_2). cbn [mbind sim_bind]. destruct (mergesWith e.1 orig); [apply IH; lia|done].
Qed.

Lemma map_find_none {V} (tree : list (arange * V)) r : StronglySorted (fun e f => ar_lt e.1 f.1 = true) tree ->
  (forall e, e ∈ tree -> intersects e.1 r = Done false) -> map_find tree r = Done None.
Proof.
  intros Hs Hn. unfold map_find. destruct tree as [|first tree'] eqn:Et; [done|]. rewrite <- Et in *.
  destruct (upper_bound_spec tree r Hs) as [Hub _]. destruct (upper_bound tree r) as [|i].
  { by rewrite (Hn first) by (rewrite Et; left). }
  destruct (lookup_lt_is_Some_2 tree i Hub) as [e He]. rewrite He. cbn [elem mbind sim_bind].
  rewrite (Hn e) by (by eapply list_elem_of_lookup_2). cbn [mbind sim_bind].
  destruct (interleaved e.1); [by apply step_back_none|done].
Qed.

(** Ranges that are apart are ordered. *)
Lemma apart_lt r q : apart r q -> range_ok r -> range_ok q -> ar_lt r q = false -> ar_lt q r = true.
Proof.
  intros Ha (Hr & _) (Hq & _). unfold ar_lt. rewrite (Z.eqb_sym (ar_start q)).
  destruct (Z.eqb_spec (ar_start r) (ar_start q)) as [E|E]; cbn [negb]; rewrite Z.ltb_ge, Z.ltb_lt; [|lia].
  destruct Ha as [Ha|[Ha|(_ & _ & Ha)]]; lia.
Qed.

Lemma tree_insert_spec {V} (tree : list (arange * V)) r d : StronglySorted (fun e f => ar_lt e.1 f.1 = true) tree ->
  (forall e, e ∈ tree -> ar_lt r e.1 = false -> ar_lt e.1 r = true) ->
  StronglySorted (fun e f => ar_lt e.1 f.1 = true) (tree_insert tree r d) /\ tree_insert tree r d ≡ₚ (r, d) :: tree.
Proof.
  intros Hs. induction Hs as [|e l Hs IH He]; intros Ho; cbn [tree_insert].
  { split; [|done]. repeat constructor. }
  destruct (ar_lt r e.1) eqn:E.
  - split; [|done]. constructor; [by constructor|]. constructor; [done|]. eapply Forall_impl; [exact He|]. intros f Hf. cbn in *.
    by apply (ar_lt_trans _ e.1).
  - rewrite (Ho e) by (done || left). destruct IH as [IH1 IH2]; [intros f Hf; apply Ho; by right|]. split.
    + constructor; [done|]. rewrite IH2. constructor; [|done]. cbn. apply Ho; [left|done].
    + rewrite IH2. apply Permutation_swap.
Qed.

Lemma ar_lt_irrefl r : ar_lt r r = false.
Proof. unfold ar_lt. rewrite Z.eqb_refl. cbn. apply Z.ltb_irrefl. Qed.

Lemma sorted_index {V} (tree : list (arange * V)) i j e : StronglySorted (fun e f => ar_lt e.1 f.1 = true) tree ->
  tree !! i = Some e -> tree !! j = Some e -> i = j.
Proof.
  intros Hs Hi Hj. destruct (lt_eq_lt_dec i j) as [[H|H]|H]; [|done|].
  - pose proof (sorted_before tree i j e e Hs Hi Hj H) as Hlt. by rewrite ar_lt_irrefl in Hlt.
  - pose proof (sorted_before tree j i e e Hs Hj Hi H) as Hlt. by rewrite ar_lt_irrefl in Hlt.
Qed.

Lemma sorted_tree_ok {V} (tree : list (arange * V)) : StronglySorted (fun e f => ar_lt e.1 f.1 = true) tree ->
  (forall e, e ∈ tree -> range_ok e.1) -> (forall e f, e ∈ tree -> f ∈ tree -> e <> f -> compatible e.1 f.1) -> tree_ok tree.
Proof.
  intros Hs Hr Hc. split; [done|by apply Forall_forall|]. intros i j e f Hi Hj Hij. apply compatible_apart, Hc;
    [by eapply list_elem_of_lookup_2|by eapply list_elem_of_lookup_2|]. intros <-. by apply Hij, (sorted_index tree i j e).
Qed.

Lemma sorted_filter {V} (P : arange * V -> Prop) `{!forall x, Decision (P x)} tree :
  StronglySorted (fun e f => ar_lt e.1 f.1 = true) tree -> StronglySorted (fun e f => ar_lt e.1 f.1 = true) (filter P tree).
Proof.
  induction 1 as [|e l Hs IH He]; [constructor|]. rewrite filter_cons. case_decide; [|done]. constructor; [done|].
  rewrite Forall_forall in *. intros f [_ Hf]%list_elem_of_filter. auto.
Qed.

(** The ranges of one module are entered when they are compatible with each other and with the map. *)
Lemma enter_ranges_spec port l : forall tree, StronglySorted (fun e f => ar_lt e.1 f.1 = true) tree -> NoDup l ->
  (forall e, e ∈ tree -> range_ok e.1) -> (forall r, r ∈ l -> range_ok r) ->
  (forall e r, e ∈ tree -> r ∈ l -> compatible e.1 r) -> (forall r q, r ∈ l -> q ∈ l -> r <> q -> compatible r q) ->
  exists tree', enter_ranges tree port l = Done tree' /\ StronglySorted (fun e f => ar_lt e.1 f.1 = true) tree' /\
    forall e, e ∈ tree' <-> e ∈ tree \/ e.2 = port /\ e.1 ∈ l.
Proof.
  induction l as [|r l IH]; intros tree Hs Hnd Hr Hl Hc Hp; cbn [enter_ranges].
  { exists tree. split; [done|]. split; [done|]. intros e. split; [by left|]. intros [|[_ H]]; [done|]. by apply elem_of_nil in H. }
  apply NoDup_cons in Hnd as [Hnr Hnd]. unfold map_insert.
  rewrite map_find_none; [|done|]. 2:{ intros e He. apply compatible_intersects; [apply Hc; [done|left]|auto|apply Hl; left]. }
  cbn [mbind sim_bind]. destruct (tree_insert_spec tree r port Hs) as [Hs' Hperm].
  { intros e He Hlt. apply apart_lt; [|apply Hl; left|auto|done]. pose proof (compatible_apart _ _ (Hc e r He ltac:(left))) as Ha.
    unfold apart in *. destruct Ha as [Ha|[Ha|(Hm & Hi & Hne)]]; [by right; left|by left|]. right; right. rewrite merges_eq in *.
    destruct Hm as (E1 & E2 & E3 & E4). unfold interleaved in *. rewrite E4. repeat split; congruence. }
  destruct (IH (tree_insert tree r port)) as (tree' & Ht & Hst & Hin).
  - done.
  - done.
  - intros e. rewrite Hperm, elem_of_cons. intros [->|He]; [apply Hl; left|auto].
  - intros q Hq. apply Hl. by right.
  - intros e q. rewrite Hperm, elem_of_cons. intros [->|He] Hq; [|apply Hc; [done|by right]]. apply Hp; [left|by right|].
    cbn. intros Heq. by rewrite Heq in Hnr.
  - intros q s Hq Hs2. apply Hp; by right.
  - exists tree'. split; [done|]. split; [done|]. intros e. rewrite Hin, Hperm, !elem_of_cons. destruct e as [q p]. cbn [fst snd].
    split; [intros [[H|H]|H]|intros [H|[H1 [H|H]]]]; subst; naive_solver.
Qed.

(** ** The advertised ranges *)

Definition sliced (l : list (arange * Z)) : list arange := filter (fun r => interleaved r = true) l.*1.
Definition plain (l : list (arange * Z)) : list arange := filter (fun r => interleaved r = false) l.*1.

(** The range is not inside the default range. *)
Definition kept (x : xbar) (r : arange) : bool :=
  negb (useDefaultRange x && ((ar_start (defaultRange x) <=? ar_start r) && (ar_end r <=? ar_end (defaultRange x)))).

Lemma keep_range_spec x out r : interleaved r = false -> keep_range x out r = Done (out ++ filter (fun q => kept x q = true) [r]).
Proof.
  intros Hi. unfold keep_range, range_isSubset, kept. rewrite filter_cons, filter_nil, Hi. destruct (useDefaultRange x); [|done]. sim_step.
  destruct (_ && _); cbn; by rewrite ?app_nil_r.
Qed.

Lemma sliced_cons r p l : sliced ((r, p) :: l) = (if interleaved r then [r] else []) ++ sliced l.
Proof. unfold sliced. rewrite fmap_cons, filter_cons. cbn [fst]. by destruct (interleaved r). Qed.
Lemma plain_cons r p l : plain ((r, p) :: l) = (if interleaved r then [] else [r]) ++ plain l.
Proof. unfold plain. rewrite fmap_cons, filter_cons. cbn [fst]. by destruct (interleaved r). Qed.

Lemma aggregate_spec x m l : forall out intlv, (forall r q, r ∈ intlv ++ sliced l -> q ∈ intlv ++ sliced l -> mergesWith r q = true) ->
  (intlv ++ sliced l <> [] -> merge_ranges (intlv ++ sliced l) = Done m) -> interleaved m = false ->
  aggregate x l out intlv =
    Done (out ++ filter (fun q => kept x q = true) (plain l ++ match intlv ++ sliced l with [] => [] | _ => [m] end)).
Proof.
  induction l as [|[r p] l IH]; intros out intlv; cbn [aggregate].
  { change (sliced []) with (@nil arange). change (plain []) with (@nil arange). rewrite app_nil_r. intros Hm Hmr Hmi.
    destruct intlv as [|q intlv].
    - cbn. by rewrite app_nil_r.
    - unfold keep_merged. rewrite Hmr by done. sim_step. by apply keep_range_spec. }
  rewrite sliced_cons, plain_cons. destruct (interleaved r) eqn:Hi.
  - rewrite app_assoc. intros Hm Hmr Hmi. destruct (last intlv) as [q|] eqn:El.
    + rewrite (Hm q r). { by apply IH. } { do 2 (apply elem_of_app; left). by apply last_Some_elem_of. }
      apply elem_of_app; left. apply elem_of_app; right. left.
    + apply last_None in El as ->. by apply IH.
  - intros Hm Hmr Hmi. rewrite keep_range_spec by done. sim_step. rewrite IH by done. f_equal. rewrite <- !app_assoc. f_equal.
    by rewrite <- filter_app.
Qed.

(** The slices of one chunk in the order of the map pass the checks of the merging constructor. *)
Lemma merge_checks_spec f l : forall m, 0 <= m -> 2 ^ intlvBits f <= 2 ^ 8 -> m <= 2 ^ intlvBits f -> StronglySorted (fun r q => intlvMatch r < intlvMatch q) l ->
  (forall r, r ∈ l -> mergesWith f r = true /\ m <= intlvMatch r < 2 ^ intlvBits f) ->
  (forall k, m <= k < 2 ^ intlvBits f -> exists r, r ∈ l /\ intlvMatch r = k) ->
  merge_checks f (m mod 2 ^ 8) l = true /\ Z.of_nat (length l) = 2 ^ intlvBits f - m.
Proof.
  induction l as [|r l IH]; intros m H0 H8 Hle Hs Hin Hall; cbn [merge_checks length].
  { split; [done|]. destruct (decide (m = 2 ^ intlvBits f)); [cbn; lia|]. destruct (Hall m ltac:(lia)) as (r & H & _). by apply elem_of_nil in H. }
  apply StronglySorted_inv in Hs as [Hs Hr]. rewrite Forall_forall in Hr. destruct (Hin r ltac:(left)) as [Hm Hrm].
  assert (Hrm' : intlvMatch r = m).
  { destruct (Hall m ltac:(lia)) as (q & Hq & Hqm). apply elem_of_cons in Hq as [->|Hq]; [done|]. specialize (Hr q Hq). lia. }
  assert (Hl : forall q, q ∈ l -> mergesWith f q = true /\ m + 1 <= intlvMatch q < 2 ^ intlvBits f).
  { intros q Hq. specialize (Hr q Hq). destruct (Hin q ltac:(by right)). split; [done|lia]. }
  destruct (IH (m + 1)) as [IH1 IH2]; [lia|lia|lia|done|done| |].
  { intros k Hk. destruct (Hall k ltac:(lia)) as (q & Hq & Hqk). apply elem_of_cons in Hq as [->|Hq]; [lia|by exists q]. }
  rewrite Hm, Hrm'. rewrite Z.add_mod_idemp_l by lia. rewrite IH1. rewrite (Z.mod_small m) by lia. rewrite Z.eqb_refl. split; [done|lia].
Qed.

Section modules.
Context (nports : nat) (dp : Z) (ud : bool) (ranges : Z -> list arange).

(** A range that is to be entered into the map: one of a module that is not on the default port. *)
Definition entry (e : arange * Z) : Prop := 0 <= e.2 < Z.of_nat nports /\ e.2 <> dp /\ e.1 ∈ ranges e.2.

(** The modules of a system: their ranges are compatible, a chunk is divided completely, and
    the default range, if it is used, is one range that no other overlaps partially. *)
Record modules_ok : Prop := {
  mo_nodup p : NoDup (ranges p);
  mo_range e : entry e -> range_ok e.1;
  mo_compatible e f : entry e -> entry f -> e <> f -> compatible e.1 f.1;
  mo_slices e : entry e -> interleaved e.1 = true -> intlvBits e.1 <= 8 /\ intlvMatch e.1 < 2 ^ intlvBits e.1;
  mo_complete e m : entry e -> interleaved e.1 = true -> 0 <= m < 2 ^ intlvBits e.1 ->
    exists f, entry f /\ interleaved f.1 = true /\ intlvMatch f.1 = m;
  mo_default : ud = true -> 0 <= dp < Z.of_nat nports /\ exists d, ranges dp = [d] /\ interleaved d = false /\
    forall e, entry e -> ar_start d <= ar_start e.1 /\ ar_end e.1 <= ar_end d \/ ar_end e.1 < ar_start d \/ ar_end d < ar_start e.1;
}.
Context (Hmo : modules_ok).

Lemma elem_sliced l r : r ∈ sliced l <-> interleaved r = true /\ exists p, (r, p) ∈ l.
Proof.
  unfold sliced. rewrite list_elem_of_filter, list_elem_of_fmap. split.
  - intros [Hi ([q p] & -> & Hin)]. eauto.
  - intros [Hi [p Hin]]. split; [done|]. by exists (r, p).
Qed.
Lemma elem_plain l r : r ∈ plain l <-> interleaved r = false /\ exists p, (r, p) ∈ l.
Proof.
  unfold plain. rewrite list_elem_of_filter, list_elem_of_fmap. split.
  - intros [Hi ([q p] & -> & Hin)]. eauto.
  - intros [Hi [p Hin]]. split; [done|]. by exists (r, p).
Qed.

(** All interleaved ranges are slices of one chunk. *)
Lemma slices_merge e f : entry e -> entry f -> interleaved e.1 = true -> interleaved f.1 = true -> mergesWith e.1 f.1 = true.
Proof.
  intros He Hf Hei Hfi. destruct (decide (e = f)) as [->|Hne]; [by apply merges_eq|].
  destruct (mo_compatible Hmo e f He Hf Hne) as [[_ [H|H]]|[H _]]; [congruence|congruence|done].
Qed.

Section full.
Context (tree : list (arange * Z)) (Hs : StronglySorted (fun e f => ar_lt e.1 f.1 = true) tree) (Hin : forall e, e ∈ tree <-> entry e).

Lemma sliced_sorted f : f ∈ sliced tree -> StronglySorted (fun r q => intlvMatch r < intlvMatch q) (sliced tree).
Proof.
  intros [Hfi [p Hf%Hin]]%elem_sliced.
  assert (Hst : forall e, e ∈ tree -> interleaved e.1 = true -> ar_start e.1 = ar_start f).
  { intros e He%Hin Hei. pose proof (slices_merge (f, p) e Hf He Hfi Hei) as Hm. apply merges_eq in Hm. cbn in Hm. tauto. }
  clear Hf Hin. induction Hs as [|[r q] l Hs' IH He]; [constructor|]. rewrite sliced_cons.
  assert (IH' : StronglySorted (fun r q => intlvMatch r < intlvMatch q) (sliced l)).
  { apply IH; [done|]. intros e He2. apply Hst. by right. }
  destruct (interleaved r) eqn:Hr; [|done]. constructor; [exact IH'|]. apply Forall_forall. intros s [Hsi [t Hst2]]%elem_sliced.
  rewrite Forall_forall in He. specialize (He _ Hst2). cbn in He. unfold ar_lt in He.
  pose proof (Hst (r, q) ltac:(left) Hr) as E1. pose proof (Hst (s, t) ltac:(by right) Hsi) as E2. cbn in E1, E2.
  rewrite E1, E2, Z.eqb_refl in He. by apply Z.ltb_lt.
Qed.

(** The slices merge into the chunk. *)
Lemma slices_chunk f l : sliced tree = f :: l -> merge_ranges (sliced tree) = Done (RangeIn (ar_start f) (ar_end f)).
Proof.
  intros Ef. assert (Hf : f ∈ sliced tree) by (rewrite Ef; left). pose proof (sliced_sorted f Hf) as Hso.
  apply elem_sliced in Hf as [Hfi [p Hfp%Hin]]. destruct (mo_slices Hmo _ Hfp Hfi) as [Hb _]. cbn in Hb.
  destruct (merge_checks_spec f (sliced tree) 0) as [H1 H2].
  - lia.
  - apply Z.pow_le_mono_r; lia.
  - apply Z.pow_nonneg. lia.
  - exact Hso.
  - intros r [Hri [q Hr%Hin]]%elem_sliced. pose proof (slices_merge _ _ Hfp Hr Hfi Hri) as Hm. cbn in Hm. split; [done|].
    destruct (mo_slices Hmo _ Hr Hri) as [_ Hlt]. destruct (mo_range Hmo _ Hr) as (_ & _ & Ho). cbn in *.
    apply merges_eq in Hm as (_ & _ & _ & Hm). rewrite Hm in Hlt. destruct Ho as [[_ Ho]|(_ & _ & Ho)]; lia.
  - intros k Hk. destruct (mo_complete Hmo _ k Hfp Hfi Hk) as ([r q] & Hr & Hri & Hrk). exists r. split; [|done].
    apply elem_sliced. split; [done|]. exists q. by apply Hin.
  - unfold merge_ranges. rewrite Ef in *. rewrite (Z.mod_small 0) in H1 by lia. rewrite H1, H2, Z.sub_0_r, Z.eqb_refl. done.
Qed.

Definition chunk : list arange := match sliced tree with [] => [] | f :: _ => [RangeIn (ar_start f) (ar_end f)] end.

Lemma aggregate_full x out : aggregate x tree out [] = Done (out ++ filter (fun q => kept x q = true) (plain tree ++ chunk)).
Proof.
  rewrite (aggregate_spec x (match sliced tree with [] => RangeIn 0 0 | f :: _ => RangeIn (ar_start f) (ar_end f) end)); cbn [app].
  - unfold chunk. by destruct (sliced tree).
  - intros r q [Hri [p Hr%Hin]]%elem_sliced [Hqi [p' Hq%Hin]]%elem_sliced. exact (slices_merge _ _ Hr Hq Hri Hqi).
  - intros Hne. destruct (sliced tree) as [|f l] eqn:E; [done|]. rewrite <- E. by apply (slices_chunk f l).
  - by destruct (sliced tree).
Qed.

Lemma elem_adv r : r ∈ plain tree ++ chunk ->
  interleaved r = false /\ exists e, entry e /\ ar_start r = ar_start e.1 /\ ar_end r = ar_end e.1.
Proof.
  intros [[Hi [p Hr%Hin]]%elem_plain|Hr]%elem_of_app; [split; [done|]; by eexists|]. unfold chunk in Hr.
  destruct (sliced tree) as [|f l] eqn:E; [by apply elem_of_nil in Hr|]. apply list_elem_of_singleton in Hr as ->. split; [done|].
  assert (Hf : f ∈ sliced tree) by (rewrite E; left). apply elem_sliced in Hf as [_ [p Hf%Hin]]. by exists (f, p).
Qed.

Lemma slice_range r a : range_ok r -> interleaved r = true -> 0 <= slice r a < 2 ^ intlvBits r.
Proof.
  intros (_ & _ & [[Hb _]|(Hb & _)]) Hi; [unfold interleaved in Hi; by rewrite Hb in Hi|]. unfold slice. rewrite bits_div by lia.
  replace (intlvHighBit r - (intlvHighBit r - intlvBits r + 1) + 1) with (intlvBits r) by lia. apply Z.mod_pos_bound. lia.
Qed.

Lemma adv_contains a : (exists r, r ∈ plain tree ++ chunk /\ ar_contains r a = true) <-> exists e, entry e /\ ar_contains e.1 a = true.
Proof.
  split.
  - intros (r & [[Hi [p Hr%Hin]]%elem_plain|Hr]%elem_of_app & Hc); [by exists (r, p)|]. unfold chunk in Hr.
    destruct (sliced tree) as [|f l] eqn:E; [by apply elem_of_nil in Hr|]. apply list_elem_of_singleton in Hr as ->.
    assert (Hf : f ∈ sliced tree) by (rewrite E; left). apply elem_sliced in Hf as [Hfi [p Hf%Hin]].
    apply contains_true in Hc as [Hc _]. cbn in Hc.
    destruct (mo_complete Hmo (f, p) (slice f a) Hf Hfi (slice_range f a (mo_range Hmo _ Hf) Hfi)) as ([q p'] & Hq & Hqi & Hqm).
    exists (q, p'). split; [done|]. pose proof (slices_merge _ _ Hf Hq Hfi Hqi) as (E1 & E2 & E3 & E4)%merges_eq. cbn in *.
    apply contains_true. rewrite E1, E2. split; [done|]. intros _. unfold slice. by rewrite E3, E4.
  - intros ([r p] & He & Hc). destruct (interleaved r) eqn:Hi.
    + assert (Hr : r ∈ sliced tree) by (apply elem_sliced; split; [done|]; exists p; by apply Hin). unfold chunk.
      destruct (sliced tree) as [|f l] eqn:E; [by apply elem_of_nil in Hr|]. exists (RangeIn (ar_start f) (ar_end f)).
      split; [apply elem_of_app; right; left|].
      assert (Hf : f ∈ sliced tree) by (rewrite E; left). apply elem_sliced in Hf as [Hfi [p' Hf%Hin]].
      pose proof (slices_merge _ _ He Hf Hi Hfi) as (E1 & E2 & _)%merges_eq. apply contains_true in Hc as [Hc _]. cbn in *.
      apply contains_true. cbn. split; [lia|done].
    + exists r. split; [|done]. apply elem_of_app; left. apply elem_plain. split; [done|]. exists p. by apply Hin.
Qed.

(** The advertised ranges: the default range, and the others that are not inside it. *)
Definition advertised (l : list arange) : Prop := forall a, (exists r, r ∈ l /\ ar_contains r a = true) <->
  ud = true /\ (exists d, d ∈ ranges dp /\ ar_contains d a = true) \/ exists e, entry e /\ ar_contains e.1 a = true.

Lemma kept_false x r a : kept x r = false -> interleaved (defaultRange x) = false -> ar_contains r a = true ->
  useDefaultRange x = true /\ ar_contains (defaultRange x) a = true.
Proof.
  unfold kept. rewrite negb_false_iff, !andb_true_iff, !Z.leb_le. intros (Hu & H1 & H2) Hi [Ha _]%contains_true. split; [done|].
  apply contains_true. rewrite Hi. split; [lia|done].
Qed.

Lemma full_advertised x : useDefaultRange x = ud -> (ud = true -> ranges dp = [defaultRange x] /\ interleaved (defaultRange x) = false) ->
  advertised ((if useDefaultRange x then [defaultRange x] else []) ++ filter (fun q => kept x q = true) (plain tree ++ chunk)).
Proof.
  intros Hu Hd a. rewrite <- adv_contains. rewrite Hu. split.
  - intros (r & [Hr|[_ Hr]%list_elem_of_filter]%elem_of_app & Hc); [|right; by exists r]. left. destruct ud; [|by apply elem_of_nil in Hr].
    split; [done|]. destruct (Hd eq_refl) as [-> _]. by exists r.
  - intros [(Hud & d & Hin' & Hc)|(r & Hr & Hc)].
    + rewrite Hud. destruct (Hd Hud) as [E _]. rewrite E in Hin'. exists d. split; [|done]. apply elem_of_app. by left.
    + destruct (kept x r) eqn:Hk; [exists r; split; [|done]; apply elem_of_app; right; by apply list_elem_of_filter|].
      assert (Hud : ud = true). { unfold kept in Hk. rewrite Hu in Hk. by destruct ud. }
      destruct (Hd Hud) as [_ Hi]. destruct (kept_false x r a Hk Hi Hc) as [_ Hc']. exists (defaultRange x). split; [|done].
      rewrite Hud. left.
Qed.

Lemma check_default_spec d l : (forall r, r ∈ l -> interleaved r = false /\
    (ar_start d <= ar_start r /\ ar_end r <= ar_end d \/ ar_end r < ar_start d \/ ar_end d < ar_start r)) -> check_default d l = Done tt.
Proof.
  induction l as [|r l IH]; intros Hl; cbn [check_default]; [done|]. destruct (Hl r ltac:(left)) as [Hi Hr].
  unfold intersects, range_isSubset. rewrite Hi. cbn [negb]. sim_step.
  destruct ((ar_start r <=? ar_end d) && (ar_start d <=? ar_end r)) eqn:E; sim_step.
  - apply andb_true_iff in E as [E1%Z.leb_le E2%Z.leb_le]. assert ((ar_start d <=? ar_start r) && (ar_end r <=? ar_end d) = true) as ->.
    { apply andb_true_iff. rewrite !Z.leb_le. lia. }
    apply IH. intros q Hq. apply Hl. by right.
  - apply IH. intros q Hq. apply Hl. by right.
Qed.

Lemma full_check x : ud = true -> ranges dp = [defaultRange x] ->
  check_default (defaultRange x) (defaultRange x :: filter (fun q => kept x q = true) (plain tree ++ chunk)) = Done tt.
Proof.
  intros Hud Hd. destruct (mo_default Hmo Hud) as (_ & d & Ed & Hdi & Hov). rewrite Hd in Ed. injection Ed as Ed. rewrite Ed in *.
  apply check_default_spec. intros r [->|[_ Hr]%list_elem_of_filter]%elem_of_cons; [split; [done|]; lia|].
  destruct (elem_adv r Hr) as (Hi & e & He & E1 & E2). split; [done|]. rewrite E1, E2. by apply Hov.
Qed.
End full.

(** What a crossbar knows after the announcements in [got]. *)
Record announced (x : xbar) : Prop := {
  an_length : length (gotAddrRanges x) = nports;
  an_sorted : StronglySorted (fun e f => ar_lt e.1 f.1 = true) (portMap x);
  an_in e : e ∈ portMap x <-> entry e /\ gotAddrRanges x !! Z.to_nat e.2 = Some true;
  an_port : defaultPortID x = dp /\ useDefaultRange x = ud;
  an_default : ud = true -> gotAddrRanges x !! Z.to_nat dp = Some true -> ranges dp = [defaultRange x];
  an_all : gotAllAddrRanges x = forallb id (gotAddrRanges x);
  an_advertised : gotAllAddrRanges x = true -> advertised (xbarRanges x);
  an_cache : gotAllAddrRanges x = true -> let '(c0, c1, c2) := portCache x in pc_valid c0 || pc_valid c1 || pc_valid c2 = false;
}.

Lemma all_got got i : forallb id got = true -> (i < length got)%nat -> got !! i = Some true.
Proof.
  intros Hf [b Hb]%lookup_lt_is_Some_2. rewrite forallb_forall in Hf. rewrite Hb. f_equal. apply (Hf b). apply list_elem_of_In.
  by eapply list_elem_of_lookup_2.
Qed.

Lemma all_insert got i : forallb id got || forallb id (<[i := true]> got) = forallb id (<[i := true]> got).
Proof.
  destruct (forallb id got) eqn:E; [|done]. cbn. symmetry. apply forallb_forall. intros b Hb%list_elem_of_In.
  apply list_elem_of_lookup_1 in Hb as [j Hj]. apply list_lookup_insert_Some in Hj as [(_ & <- & _)|[_ Hj]]; [done|].
  rewrite forallb_forall in E. apply E, list_elem_of_In. by eapply list_elem_of_lookup_2.
Qed.

Lemma announced_tree_ok x : announced x -> tree_ok (portMap x).
Proof.
  intros Ha. apply sorted_tree_ok; [apply (an_sorted x Ha)|..].
  - intros e [He _]%(an_in x Ha). by apply (mo_range Hmo).
  - intros e f [He _]%(an_in x Ha) [Hf _]%(an_in x Ha). by apply (mo_compatible Hmo).
Qed.

(** The ranges of the port replace what the map had of it. *)
Lemma announce_enter x p : announced x -> 0 <= p < Z.of_nat nports -> p <> dp ->
  exists tree, enter_ranges (filter (fun e => e.2 <> p) (portMap x)) p (ranges p) = Done tree /\
    StronglySorted (fun e f => ar_lt e.1 f.1 = true) tree /\
    forall e, e ∈ tree <-> entry e /\ <[Z.to_nat p := true]> (gotAddrRanges x) !! Z.to_nat e.2 = Some true.
Proof.
  intros Ha Hp Hpd. assert (Hent : forall r, r ∈ ranges p -> entry (r, p)) by (intros r Hr; unfold entry; cbn; auto).
  assert (Hold : forall e, e ∈ filter (fun e => e.2 <> p) (portMap x) -> entry e /\ e.2 <> p).
  { intros e [Hne [He _]%(an_in x Ha)]%list_elem_of_filter. done. }
  destruct (enter_ranges_spec p (ranges p) (filter (fun e => e.2 <> p) (portMap x))) as (tree & Ht & Hst & Hin).
  - apply sorted_filter, (an_sorted x Ha).
  - apply (mo_nodup Hmo).
  - intros e [He _]%Hold. by apply (mo_range Hmo).
  - intros r Hr%Hent. by apply (mo_range Hmo (r, p)).
  - intros e r [He Hne]%Hold Hr%Hent. apply (mo_compatible Hmo e (r, p)); [done|done|]. intros ->. by apply Hne.
  - intros r q Hr%Hent Hq%Hent Hne. apply (mo_compatible Hmo (r, p) (q, p)); [done|done|congruence].
  - exists tree. split; [done|]. split; [done|]. intros e. rewrite Hin, list_elem_of_filter, (an_in x Ha).
    destruct (decide (e.2 = p)) as [Ep|Ep].
    + rewrite Ep, list_lookup_insert_eq by (rewrite (an_length x Ha); lia). split; [intros [[H _]|[_ H]]|]; [done| |].
      * split; [|done]. destruct e as [r q]; cbn in *; subst q. by apply Hent.
      * intros [(_ & _ & H) _]. right. by rewrite Ep in H.
    + assert (Hlk : entry e -> <[Z.to_nat p := true]> (gotAddrRanges x) !! Z.to_nat e.2 = gotAddrRanges x !! Z.to_nat e.2).
      { intros [He _]. apply list_lookup_insert_ne. lia. }
      split; [intros [(_ & He & Hg)|[H _]]; [|done]; by rewrite (Hlk He)|]. intros [He Hg]. rewrite (Hlk He) in Hg. by left.
Qed.

(** What is known before the ranges are aggregated. *)
Record entered (x : xbar) : Prop := {
  en_length : length (gotAddrRanges x) = nports;
  en_sorted : StronglySorted (fun e f => ar_lt e.1 f.1 = true) (portMap x);
  en_in e : e ∈ portMap x <-> entry e /\ gotAddrRanges x !! Z.to_nat e.2 = Some true;
  en_port : defaultPortID x = dp /\ useDefaultRange x = ud;
  en_default : ud = true -> gotAddrRanges x !! Z.to_nat dp = Some true -> ranges dp = [defaultRange x];
  en_all : gotAllAddrRanges x = forallb id (gotAddrRanges x);
}.

Lemma take_ranges_entered x p : announced x -> 0 <= p < Z.of_nat nports ->
  exists x1, take_ranges ranges (set_got x p) p = Done x1 /\ entered x1 /\ gotAddrRanges x1 = <[Z.to_nat p := true]> (gotAddrRanges x).
Proof.
  intros Ha Hp. destruct (an_port x Ha) as [Edp Eud]. unfold take_ranges, set_got. cbn -[filter].
  rewrite Edp, Eud, (an_all x Ha), all_insert. assert (Hlen : length (<[Z.to_nat p:=true]> (gotAddrRanges x)) = nports) by (by rewrite length_insert, (an_length x Ha)).
  assert (Hmap : p = dp -> forall e, e ∈ portMap x <-> entry e /\ <[Z.to_nat p:=true]> (gotAddrRanges x) !! Z.to_nat e.2 = Some true).
  { intros -> e. rewrite (an_in x Ha). split; intros [He Hg]; (split; [done|]); destruct He as (He & Hne & _); rewrite list_lookup_insert_ne in * by lia; done. }
  destruct (Z.eqb_spec p dp) as [E|E].
  - destruct ud eqn:Hud.
    + destruct (mo_default Hmo Hud) as (_ & d & Ed & _). rewrite E, Ed. eexists. split; [done|]. rewrite <- E. split; [|done].
      split; cbn; try done; [apply (an_sorted x Ha)|by apply Hmap].
    + eexists. split; [done|]. split; [|done]. split; cbn; try done; [apply (an_sorted x Ha)|by apply Hmap|by rewrite Hud].
  - destruct (announce_enter x p Ha Hp E) as (tree & -> & Hs & Hin). sim_step. eexists. split; [done|]. split; [|done].
    split; cbn; try done. intros Hud Hg. apply (an_default x Ha Hud). rewrite list_lookup_insert_ne in Hg; [done|].
    destruct (mo_default Hmo Hud) as [Hdp _]. lia.
Qed.

Lemma publish_advertised x : entered x ->
  exists out, publish x = Done (mkX (portMap x) out (defaultRange x) (defaultPortID x) (useDefaultRange x) (portCache x) (gotAddrRanges x) (gotAllAddrRanges x)) /\
    (gotAllAddrRanges x = true -> advertised out).
Proof.
  intros [Hlen Hs Hin [Hdpx Hu] Hd Hall]. unfold publish. destruct (gotAllAddrRanges x) eqn:Hga; [|exists (xbarRanges x); split; [by destruct x; cbn in *; subst|done]].
  symmetry in Hall.
  assert (Hfull : forall e, e ∈ portMap x <-> entry e).
  { intros e. rewrite Hin. split; [tauto|]. intros He. split; [done|]. apply all_got; [done|]. destruct He as [He _]. lia. }
  assert (Hdef : ud = true -> got_at (gotAddrRanges x) dp = Done true /\ ranges dp = [defaultRange x]).
  { intros Hud. destruct (mo_default Hmo Hud) as (Hdp & _). assert (Hg : gotAddrRanges x !! Z.to_nat dp = Some true) by (apply all_got; [done|lia]).
    split; [|by apply Hd]. unfold got_at. destruct (Z.leb_spec 0 dp); [|lia]. by rewrite Hg. }
  rewrite Hdpx, Hu. destruct ud eqn:Hud.
  - destruct (Hdef eq_refl) as [-> Ed]. sim_step. cbn [check]. sim_step. rewrite (aggregate_full (portMap x) Hs Hfull). sim_step.
    cbn [app]. rewrite (full_check (portMap x) Hfull x Hud Ed). sim_step. eexists. split; [done|]. intros _.
    replace (defaultRange x :: _) with ((if useDefaultRange x then [defaultRange x] else []) ++ filter (fun q => kept x q = true) (plain (portMap x) ++ chunk (portMap x)))
      by (by rewrite Hu).
    apply full_advertised; [done|congruence|]. intros _. split; [done|]. destruct (mo_default Hmo Hud) as (_ & d & Ed' & Hi & _). congruence.
  - sim_step. rewrite (aggregate_full (portMap x) Hs Hfull). sim_step. eexists. split; [done|]. intros _.
    replace (@nil arange) with (if useDefaultRange x then [defaultRange x] else []) by (by rewrite Hu).
    apply full_advertised; [done|congruence|]. by rewrite Hud.
Qed.

Lemma recvRangeChange_announced x p : announced x -> 0 <= p < Z.of_nat nports ->
  exists x', recvRangeChange ranges x p = Done x' /\ announced x' /\ gotAddrRanges x' = <[Z.to_nat p := true]> (gotAddrRanges x).
Proof.
  intros Ha Hp. unfold recvRangeChange. destruct (lookup_lt_is_Some_2 (gotAddrRanges x) (Z.to_nat p)) as [b Hb]; [rewrite (an_length x Ha); lia|].
  assert (got_at (gotAddrRanges x) p = Done b) as ->. { unfold got_at. destruct (Z.leb_spec 0 p); [by rewrite Hb|lia]. }
  sim_step. destruct (take_ranges_entered x p Ha Hp) as (x1 & -> & Hen & Hg). sim_step.
  destruct (publish_advertised x1 Hen) as (out & -> & Hadv). sim_step. destruct Hen as [Hlen Hs Hin Hport Hd Hall].
  eexists. split; [done|]. unfold clearPortCache, set_cache. cbn. destruct (portCache x1) as [[c0 c1] c2]. cbn. by split.
Qed.

Lemma announce_announced ports : forall x, announced x -> Forall (fun p => 0 <= p < Z.of_nat nports) ports ->
  exists x', announce ranges x ports = Done x' /\ announced x' /\
    forall p, p ∈ ports \/ gotAddrRanges x !! Z.to_nat p = Some true -> 0 <= p < Z.of_nat nports -> gotAddrRanges x' !! Z.to_nat p = Some true.
Proof.
  induction ports as [|p ports IH]; intros x Ha Hp; cbn [announce].
  { exists x. split; [done|]. split; [done|]. intros q [H|H] _; [by apply elem_of_nil in H|done]. }
  apply Forall_cons in Hp as [Hp Hps]. destruct (recvRangeChange_announced x p Ha Hp) as (x1 & -> & Ha1 & Hg). sim_step.
  destruct (IH x1 Ha1 Hps) as (x' & -> & Ha' & Hgot). exists x'. split; [done|]. split; [done|]. intros q Hq Hqn. apply Hgot; [|done].
  rewrite Hg. destruct (decide (q = p)) as [->|Hne].
  - right. apply list_lookup_insert_eq. rewrite (an_length x Ha). lia.
  - destruct Hq as [Hq|Hq]; [left; by apply elem_of_cons in Hq as [|]|right]. by rewrite list_lookup_insert_ne by lia.
Qed.

Lemma new_xbar_announced c : (0 < nports)%nat -> announced (new_xbar nports dp ud c).
Proof.
  intros Hn. unfold new_xbar. split; cbn; try done.
  - apply length_replicate.
  - constructor.
  - intros e. split; [intros H; by apply elem_of_nil in H|]. intros [_ H%lookup_replicate_1]. naive_solver.
  - intros _ H%lookup_replicate_1. naive_solver.
  - destruct nports; [lia|done].
Qed.

Lemma announced_xbar_ok x : announced x -> gotAllAddrRanges x = true -> xbar_ok x.
Proof.
  intros Ha Hall. split; [by apply announced_tree_ok| |].
  - intros e [[He _] _]%(an_in x Ha). unfold InvalidPortID. lia.
  - pose proof (an_cache x Ha Hall) as Hc. destruct (portCache x) as [[c0 c1] c2]. rewrite !orb_false_iff in Hc. unfold cached.
    destruct Hc as [[H0 H1] H2]. rewrite H0, H1, H2. done.
Qed.

(** The module that owns an address: the one with a range that contains it, or the one on the default port. *)
Definition owner (a p : Z) : Prop :=
  (exists r, entry (r, p) /\ ar_contains r a = true) \/
  p = dp /\ (forall e, entry e -> ar_contains e.1 a = false) /\
    if ud then exists d, d ∈ ranges dp /\ ar_contains d a = true else dp <> InvalidPortID.

Lemma announced_route x a p : announced x -> gotAllAddrRanges x = true -> (0 < nports)%nat -> owner a p -> route x a = Done p.
Proof.
  intros Ha Hall Hn Ho. pose proof Hall as Hf. rewrite (an_all x Ha) in Hf.
  assert (Hin : forall e, entry e <-> e ∈ portMap x).
  { intros e. rewrite (an_in x Ha). split; [|tauto]. intros He. split; [done|]. destruct He as [He _]. apply all_got; [done|].
    rewrite (an_length x Ha). lia. }
  destruct (an_port x Ha) as [Ed Eu]. destruct Ho as [(r & He & Hc)|(-> & Hno & Hd)].
  - apply (route_in x a (r, p)); [by apply announced_tree_ok|by apply Hin|done].
  - rewrite route_out by (intros e He; by apply Hno, Hin). unfold default_route. rewrite Ed, Eu. destruct ud eqn:Hud.
    + destruct (mo_default Hmo Hud) as (Hdp & _). destruct Hd as (d & Hd & Hc).
      rewrite (an_default x Ha Hud) in Hd by (apply all_got; [done|rewrite (an_length x Ha); lia]). apply list_elem_of_singleton in Hd as ->.
      by rewrite Hc.
    + by destruct (Z.eqb_spec dp InvalidPortID).
Qed.
End modules.

Lemma mapM_route x l ps : Forall2 (fun a p => route x a = Done p) l ps -> mapM (route x) l = Done ps.
Proof. induction 1 as [|a p l ps H Hl IH]; [done|]. cbn. rewrite H. sim_step. by rewrite IH. Qed.

(** C13: once every module has announced its ranges, in any order and however often, the crossbar has stopped for none of them,
    it advertises exactly the addresses of the modules and of the default range, and any sequence of accesses is
    routed to the modules that own the addresses, through the cache, whatever the cache held when the crossbar was built. *)
Theorem xbar_decodes nports dp ud ranges c ports : modules_ok nports dp ud ranges -> (0 < nports)%nat ->
  Forall (fun p => 0 <= p < Z.of_nat nports) ports -> (forall p, 0 <= p < Z.of_nat nports -> p ∈ ports) ->
  exists x out, announce ranges (new_xbar nports dp ud c) ports = Done x /\
    xbar_getAddrRanges x = Done out /\ advertised nports dp ud ranges out /\
    forall l ps, Forall2 (fun a p => 0 <= a < 2 ^ 64 /\ owner nports dp ud ranges a p) l ps -> exists x', find_ports x l = Done (x', ps).
Proof.
  intros Hmo Hn Hports Hevery.
  destruct (announce_announced nports dp ud ranges Hmo ports _ (new_xbar_announced nports dp ud ranges c Hn) Hports) as (x & Hx & Ha & Hgot).
  assert (Hall : gotAllAddrRanges x = true).
  { rewrite (an_all _ _ _ _ x Ha). apply forallb_forall. intros b Hb%list_elem_of_In. apply list_elem_of_lookup_1 in Hb as [i Hi].
    pose proof (lookup_lt_Some _ _ _ Hi) as Hlt. rewrite (an_length _ _ _ _ x Ha) in Hlt.
    pose proof (Hgot (Z.of_nat i) (or_introl (Hevery (Z.of_nat i) ltac:(lia))) ltac:(lia)) as Hg. rewrite Nat2Z.id in Hg. unfold id. congruence. }
  exists x, (xbarRanges x). split; [done|]. split; [unfold xbar_getAddrRanges; by rewrite Hall|]. split; [by apply (an_advertised _ _ _ _ x Ha)|].
  intros l ps Hl. pose proof (announced_xbar_ok _ _ _ _ Hmo x Ha Hall) as Hok.
  pose proof (find_ports_route x l Hok Hall) as Hr. rewrite (mapM_route x l ps) in Hr.
  - destruct Hr as (c' & Hr & _); [|by eexists]. eapply Forall2_Forall_l; [exact Hl|]. apply Forall_forall. intros p _ a [Hr64 _]. exact Hr64.
  - eapply Forall2_impl; [exact Hl|]. cbn. intros a p [_ Ho]. by apply (announced_route nports dp ud ranges Hmo).
Qed.

(** A memory of two vaults interleaved on bit 8, with the registers of a device behind it. *)
Definition vaults_ranges (p : Z) : list arange :=
  if p =? 0 then [mkAR 0 4095 8 1 0] else if p =? 1 then [mkAR 0 4095 8 1 1] else if p =? 2 then [RangeIn 8192 8447] else [].

Lemma vaults_entry e : entry 3 InvalidPortID vaults_ranges e ->
  e = (mkAR 0 4095 8 1 0, 0) \/ e = (mkAR 0 4095 8 1 1, 1) \/ e = (RangeIn 8192 8447, 2).
Proof.
  destruct e as [r p]. intros (Hp & _ & Hr). cbn in Hp, Hr. assert (p = 0 \/ p = 1 \/ p = 2) as [->|[->| ->]] by lia; cbn in Hr;
    apply list_elem_of_singleton in Hr as ->; auto.
Qed.

Lemma vaults_ok : modules_ok 3 InvalidPortID false vaults_ranges.
Proof.
  assert (E0 : entry 3 InvalidPortID vaults_ranges (mkAR 0 4095 8 1 0, 0)) by (split; [cbn; lia|split; [done|left]]).
  assert (E1 : entry 3 InvalidPortID vaults_ranges (mkAR 0 4095 8 1 1, 1)) by (split; [cbn; lia|split; [done|left]]).
  split.
  - intros p. unfold vaults_ranges. repeat case_match; first [apply NoDup_singleton|constructor].
  - intros e [->|[->| ->]]%vaults_entry; (split; [cbn; lia|]); (split; [cbn; lia|]); cbn; [right|right|by left];
      (split; [lia|]); (split; [by exists 0|lia]).
  - intros e f [->|[->| ->]]%vaults_entry [->|[->| ->]]%vaults_entry Hne; try done; unfold compatible; cbn;
      first [by left; split; [lia|auto]|by right; repeat split].
  - intros e [->|[->| ->]]%vaults_entry; cbn; [by intros _; split|by intros _; split|done].
  - intros e m He Hi Hm. assert (m = 0 \/ m = 1) as [->| ->].
    { destruct (vaults_entry e He) as [->|[->| ->]]; cbn in Hm; [lia|lia|done]. }
    + by exists (mkAR 0 4095 8 1 0, 0).
    + by exists (mkAR 0 4095 8 1 1, 1).
  - done.
Qed.

Lemma xbar_decodes_witness : exists x out,
  announce vaults_ranges (new_xbar 3 InvalidPortID false (mkPC true 7 (RangeIn 0 99), mkPC true 8 (RangeIn 0 99), mkPC false 0 (RangeIn 0 0))) [2; 1; 0; 1] = Done x /\
  xbar_getAddrRanges x = Done out /\ advertised 3 InvalidPortID false vaults_ranges out /\ exists x', find_ports x [256; 0; 8200; 511; 600] = Done (x', [1; 0; 2; 1; 0]).
Proof.
  destruct (xbar_decodes 3 InvalidPortID false vaults_ranges (mkPC true 7 (RangeIn 0 99), mkPC true 8 (RangeIn 0 99), mkPC false 0 (RangeIn 0 0)) [2; 1; 0; 1]
    vaults_ok ltac:(lia) ltac:(repeat (constructor; [lia|]); constructor)) as (x & out & H1 & H2 & H3 & H4).
  - intros p Hp. assert (p = 0 \/ p = 1 \/ p = 2) as [->|[->| ->]] by lia; repeat constructor.
  - exists x, out. split; [done|]. split; [done|]. split; [done|]. apply H4.
    assert (Hown : forall a p r, vaults_ranges p = [r] -> 0 <= p < 3 -> ar_contains r a = true -> owner 3 InvalidPortID false vaults_ranges a p).
    { intros a p r Hr Hp Hc. left. exists r. split; [|done]. split; [cbn; lia|]. cbn. split; [unfold InvalidPortID; lia|]. rewrite Hr. left. }
    repeat (constructor; [split; [lia|by eapply Hown]|]). constructor.
Defined.

(** The place of a range between the two parts of the map. *)
Lemma upper_bound_split {V} (l1 l2 : list (arange * V)) r : Forall (fun e => ar_lt r e.1 = false) l1 -> Forall (fun e => ar_lt r e.1 = true) l2 -> upper_bound (l1 ++ l2) r = length l1.
Proof.
  intros H1 H2. induction H1 as [|e l1 He _ IH]; cbn [app upper_bound length]; [|by rewrite He, IH]. destruct H2 as [|e l2 He _]; [done|]. cbn [upper_bound]. by rewrite He.
Qed.

Lemma tree_insert_split {V} (l1 l2 : list (arange * V)) r d : Forall (fun e => ar_lt r e.1 = false /\ ar_lt e.1 r = true) l1 -> Forall (fun e => ar_lt r e.1 = true) l2 ->
  tree_insert (l1 ++ l2) r d = l1 ++ (r, d) :: l2.
Proof.
  intros H1 H2. induction H1 as [|e l1 [He He'] _ IH]; cbn [app tree_insert]; [|by rewrite He, He', IH]. destruct H2 as [|e l2 He _]; [done|]. cbn [tree_insert]. by rewrite He.
Qed.

(** The search looks at the range before the place only, if that is a plain one. *)
Lemma find_plain {V} (l1 l2 : list (arange * V)) s e v r : Forall (fun e => ar_lt r e.1 = false) l1 -> ar_lt r (RangeIn s e) = false -> Forall (fun e => ar_lt r e.1 = true) l2 ->
  map_find (l1 ++ (RangeIn s e, v) :: l2) r = Done (if (s <=? ar_end r) && (ar_start r <=? e) then Some (RangeIn s e, v) else None).
Proof.
  intros H1 H2 H3. assert (Hub : upper_bound (l1 ++ (RangeIn s e, v) :: l2) r = S (length l1)).
  { replace (l1 ++ (RangeIn s e, v) :: l2) with ((l1 ++ [(RangeIn s e, v)]) ++ l2) by (by rewrite <- app_assoc).
    rewrite upper_bound_split, length_app; [cbn; lia|apply Forall_app; split; [done|by constructor]|done]. }
  unfold map_find. destruct (l1 ++ (RangeIn s e, v) :: l2) as [|x l] eqn:El; [by destruct l1|]. rewrite Hub, <- El, list_lookup_middle by done. cbn [elem mbind sim_bind fst]. unfold intersects. cbn. by destruct (_ && _).
Qed.

Lemma starts_before {V} (l : list (arange * V)) s e b m : Forall (fun x => ar_start x.1 < s) l -> Forall (fun x => ar_lt (mkAR s e b m 0) x.1 = false /\ ar_lt x.1 (mkAR s e b m 0) = true) l.
Proof.
  intros Hl. eapply Forall_impl; [exact Hl|]. intros x Hx. cbn in Hx. unfold ar_lt. cbn. destruct (Z.eqb_spec s (ar_start x.1)), (Z.eqb_spec (ar_start x.1) s); try lia. cbn. split; [apply Z.ltb_ge|apply Z.ltb_lt]; lia.
Qed.
Lemma starts_after {V} (l : list (arange * V)) s e b m : Forall (fun x => s < ar_start x.1) l -> Forall (fun x => ar_lt (mkAR s e b m 0) x.1 = true) l.
Proof.
  intros Hl. eapply Forall_impl; [exact Hl|]. intros x Hx. cbn in Hx. unfold ar_lt. cbn. destruct (Z.eqb_spec s (ar_start x.1)); [lia|]. cbn. by apply Z.ltb_lt.
Qed.

(** C37: Insertion looks only at the range before the new one in the order of the map.  In every map with plain ranges [ps, pe] and [ns, ne] next to each other, all ranges before
    starting before [ps] and all ranges after starting after [ns], a plain range [s, e] with pe < s < ns <= e is accepted, although it overlaps [ns, ne].  Afterwards an address of the new range from ns on, below
    the start of the ranges that follow, is never found in the new range: it is found in [ns, ne] or, beyond its end, not at all.  The same two ranges entered in the other order are refused. *)
Theorem range_map_overlap_missed {V} (l1 l2 : list (arange * V)) ps pe vp ns ne vn s e v :
  Forall (fun x => ar_start x.1 < ps) l1 -> Forall (fun x => ns < ar_start x.1) l2 -> ps <= pe < s -> s < ns <= e -> ns <= ne ->
  let tree := l1 ++ (RangeIn ps pe, vp) :: (RangeIn s e, v) :: (RangeIn ns ne, vn) :: l2 in
  map_insert (l1 ++ (RangeIn ps pe, vp) :: (RangeIn ns ne, vn) :: l2) (RangeIn s e) v = Done (Some tree) /\
  (forall a, ns <= a <= e -> a < 2 ^ 64 -> 0 <= ns -> Forall (fun x => a < ar_start x.1) l2 ->
     ar_contains (RangeIn s e) a = true /\ map_find_addr tree a = Done (if a <=? ne then Some (RangeIn ns ne, vn) else None)) /\
  map_insert (l1 ++ (RangeIn ps pe, vp) :: (RangeIn s e, v) :: l2) (RangeIn ns ne) vn = Done None.
Proof.
  intros H1 H2 Hp Hs Hn tree. assert (Hb : forall x, ps <= x -> Forall (fun y => ar_start y.1 < x) l1) by (intros x Hx; eapply Forall_impl; [exact H1|]; cbn; lia).
  assert (Hbp : Forall (fun y => ar_start y.1 < s) (l1 ++ [(RangeIn ps pe, vp)])) by (apply Forall_app; split; [apply Hb; lia|constructor; [cbn; lia|done]]).
  assert (Ha : Forall (fun y : arange * V => s < ar_start y.1) ((RangeIn ns ne, vn) :: l2)) by (constructor; [cbn; lia|eapply Forall_impl; [exact H2|]; cbn; lia]).
  split; [|split].
  - unfold map_insert. pose proof (starts_before _ s e 0 0 Hbp) as Hbp'. apply Forall_app in Hbp' as [Hl1 [[Hp1 Hp2] _]%Forall_cons]. pose proof (starts_after _ s e 0 0 Ha) as Ha'.
    rewrite find_plain; [|by eapply Forall_impl; [exact Hl1|]; intros x [? _]|done|done]. cbn [ar_end ar_start RangeIn]. destruct (Z.leb_spec s pe); [lia|]. rewrite andb_false_r. cbn [mbind sim_bind]. do 2 f_equal.
    replace (l1 ++ (RangeIn ps pe, vp) :: (RangeIn ns ne, vn) :: l2) with ((l1 ++ [(RangeIn ps pe, vp)]) ++ (RangeIn ns ne, vn) :: l2) by (by rewrite <- app_assoc).
    rewrite tree_insert_split; [unfold tree; by rewrite <- app_assoc|apply Forall_app; split; [exact Hl1|by constructor]|done].
  - intros a Hae Ha64 H0 Hl2. split; [unfold ar_contains; cbn; destruct (Z.leb_spec s a), (Z.leb_spec a e); (done || lia)|]. unfold map_find_addr, RangeSize. replace (a + 1 - 1) with a by lia. rewrite Z.mod_small by lia.
    unfold tree. replace (l1 ++ (RangeIn ps pe, vp) :: (RangeIn s e, v) :: (RangeIn ns ne, vn) :: l2) with ((l1 ++ [(RangeIn ps pe, vp); (RangeIn s e, v)]) ++ (RangeIn ns ne, vn) :: l2) by (by rewrite <- app_assoc).
    rewrite find_plain; [| |unfold ar_lt; cbn; destruct (Z.eqb_spec a ns); cbn; [done|apply Z.ltb_ge; lia]|by apply starts_after].
    + cbn [ar_end ar_start RangeIn]. destruct (Z.leb_spec ns a); [|lia]. done.
    + eapply Forall_impl; [apply (starts_before _ a a 0 0)|intros x [? _]; done]. apply Forall_app. split; [apply Hb; lia|]. repeat constructor; cbn; lia.
  - unfold map_insert. replace (l1 ++ (RangeIn ps pe, vp) :: (RangeIn s e, v) :: l2) with ((l1 ++ [(RangeIn ps pe, vp)]) ++ (RangeIn s e, v) :: l2) by (by rewrite <- app_assoc).
    rewrite find_plain; [| |unfold ar_lt; cbn; destruct (Z.eqb_spec ns s); cbn; [lia|apply Z.ltb_ge; lia]|by apply starts_after].
    + cbn [ar_end ar_start RangeIn]. destruct (Z.leb_spec s ne), (Z.leb_spec ns e); (lia || done).
    + eapply Forall_impl; [apply (starts_before _ ns ne 0 0)|intros x [? _]; done]. eapply Forall_impl; [exact Hbp|]. cbn. lia.
Qed.

Lemma range_map_overlap_missed_witness : exists tree, map_insert [(RangeIn 0 5, 0); (RangeIn 10 20, 1)] (RangeIn 7 30) 2 = Done (Some tree) /\
  map_find_addr tree 15 = Done (Some (RangeIn 10 20, 1)) /\ map_find_addr tree 25 = Done None /\ map_insert [(RangeIn 0 5, 0); (RangeIn 7 30, 2)] (RangeIn 10 20) 1 = Done None.
Proof.
  destruct (range_map_overlap_missed [] [] 0 5 0 10 20 1 7 30 2) as (H1 & H2 & H3); [apply Forall_nil_2|apply Forall_nil_2|lia|lia|lia|]. eexists. split; [exact H1|].
  destruct (H2 15) as [_ E1]; [lia|lia|lia|apply Forall_nil_2|]. destruct (H2 25) as [_ E2]; [lia|lia|lia|apply Forall_nil_2|]. split; [exact E1|]. split; [exact E2|exact H3].
Defined.
