(* ===== verification/XbarLayer.v ===== *)
(** * Timing of a crossbar: its layers and their retries

    Models src/SMC/GEM5/gem5/src: the Layer template of mem/xbar.cc, the calculation of packet
    delays there, and the timing requests and responses of mem/noncoherent_xbar.cc, which compose a layer
    per destination with the address decoding of AddrRoute.v.  A source port that is refused waits
    for a retry; the neighbours are modelled by what they may do: a refused source sends nothing until it is
    told to retry, it may or may not send again at once, and a destination that refuses a packet sends one retry
    later.  A step is one call into the crossbar with everything it calls in turn, a retried source that sends again included.

    The theorems show that no assertion fails and no wake-up is lost, that a waiting source is
    retried after a bounded number of steps, that a layer forwards one packet at a time
    and every packet to the port that its address selects, and that drain reports an idle layer as drained although a source waits. *)

From stdpp Require Import gmap sets.
From S2P Require Import Prelude AddrRoute.

(** ** The clock *)

Definition div_ceil (a b : Z) : Z := (a + b - 1) / b.

(** [update]: the tick of the next clock edge, from that of the last call. *)
Definition clock_update (period tick now : Z) : Z :=
  if now <=? tick then tick
  else if now <=? tick + period then tick + period
  else tick + period + div_ceil (now - (tick + period)) period * period.

(** [clockEdge(cycles)] *)
Definition clockEdge (period now cycles : Z) : Z := div_ceil now period * period + period * cycles.

(** ** Layers *)

Inductive lstate := IDLE | BUSY | RETRY.
#[export] Instance lstate_eq_dec : EqDecision lstate.
Proof. solve_decision. Defined.

(** [l_release] is the tick for which releaseEvent is scheduled. *)
Record layer := mkL {
  l_state : lstate;
  drainManager : bool;
  waitingForLayer : list Z;
  waitingForPeer : option Z;
  l_release : option Z;
  occupancy : Z;
}.

Definition Layer_new : layer := mkL IDLE false [] None None 0.

Definition set_state (l : layer) (s : lstate) : layer :=
  mkL s (drainManager l) (waitingForLayer l) (waitingForPeer l) (l_release l) (occupancy l).
Definition set_waiting (l : layer) (w : list Z) (p : option Z) : layer :=
  mkL (l_state l) (drainManager l) w p (l_release l) (occupancy l).

Definition is_state (l : layer) (s : lstate) : bool := bool_decide (l_state l = s).
Definition is_none {A} (o : option A) : bool := match o with None => true | Some _ => false end.

(** The schedule call asserts that the tick is not in the past and the event not scheduled. *)
Definition occupyLayer (now until : Z) (l : layer) : sim layer :=
  _ ← check (is_state l BUSY);
  _ ← check (negb (until =? 0));
  _ ← check (now <=? until);
  _ ← check (is_none (l_release l));
  Done (mkL (l_state l) (drainManager l) (waitingForLayer l) (waitingForPeer l) (Some until) (occupancy l + (until - now))).

Definition tryTiming (l : layer) (src : Z) : sim (layer * bool) :=
  if is_state l BUSY || negb (is_none (waitingForPeer l)) then
    _ ← check (bool_decide (src ∉ waitingForLayer l));
    Done (set_waiting l (waitingForLayer l ++ [src]) (waitingForPeer l), false)
  else Done (set_state l BUSY, true).

Definition succeededTiming (now busy_time : Z) (l : layer) : sim layer :=
  _ ← check (is_state l BUSY); occupyLayer now busy_time l.

Definition failedTiming (now : Z) (src : Z) (busy_time : Z) (l : layer) : sim layer :=
  _ ← check (is_none (waitingForPeer l));
  let l1 := set_waiting l (waitingForLayer l) (Some src) in
  _ ← check (is_state l1 BUSY);
  occupyLayer now busy_time l1.

(** [drain]: the number of objects that are not drained. *)
Definition Layer_drain (l : layer) : layer * Z :=
  if negb (is_state l IDLE) then (mkL (l_state l) true (waitingForLayer l) (waitingForPeer l) (l_release l) (occupancy l), 1) else (l, 0).

(** ** Packets *)

Record xpkt := mkXP {
  xp_addr : Z; xp_size : Z; xp_hasData : bool; xp_express : bool; xp_inhibit : bool; xp_dest : Z;
  firstWordDelay : Z; lastWordDelay : Z;
}.

Record xconf := mkXC { period : Z; headerCycles : Z; xwidth : Z }.

Definition calcPacketTiming (c : xconf) (now : Z) (pkt : xpkt) : sim xpkt :=
  let offset := clockEdge (period c) now 0 - now in
  let dataCycles := if xp_hasData pkt then div_ceil (xp_size pkt) (xwidth c) else 0 in
  if negb (firstWordDelay pkt =? 0) || negb (lastWordDelay pkt =? 0) then Halt
  else Done (mkXP (xp_addr pkt) (xp_size pkt) (xp_hasData pkt) (xp_express pkt) (xp_inhibit pkt) (xp_dest pkt)
    ((headerCycles c + 1) * period c + offset) ((headerCycles c + dataCycles) * period c + offset)).

(** ** The crossbar and its neighbours *)

(** The request layers, one for each master port, or the response layers, one for each slave port. *)
Inductive side := Req | Resp.

(** A packet that was accepted: its layer, source and address, and the ticks from which and until which it occupies the layer. *)
Record forward := mkF { f_layer : Z; f_src : Z; f_pkt : xpkt; f_start : Z; f_until : Z }.

(** [n_blocked] are the source ports that were refused and not told to retry yet, [n_owes] the destinations that refused a packet
    and have not sent the retry yet; [n_sent] and [n_retried] record the packets forwarded and the retries sent, the last first. *)
Record net := mkN {
  n_xbar : xbar;
  n_layers : list layer;
  n_blocked : gset Z;
  n_owes : gset Z;
  n_sent : list forward;
  n_retried : list Z;
}.

Definition layer_at (n : net) (i : Z) : sim layer := if 0 <=? i then elem (n_layers n !! Z.to_nat i) else Wild.
Definition put_layer (n : net) (i : Z) (l : layer) : net :=
  mkN (n_xbar n) (<[Z.to_nat i := l]> (n_layers n)) (n_blocked n) (n_owes n) (n_sent n) (n_retried n).
Definition set_xbar (n : net) (x : xbar) : net := mkN x (n_layers n) (n_blocked n) (n_owes n) (n_sent n) (n_retried n).
Definition set_blocked (n : net) (src : Z) : net :=
  mkN (n_xbar n) (n_layers n) ({[src]} ∪ n_blocked n) (n_owes n) (n_sent n) (n_retried n).
Definition owe (n : net) (i : Z) : net :=
  mkN (n_xbar n) (n_layers n) (n_blocked n) ({[i]} ∪ n_owes n) (n_sent n) (n_retried n).
Definition sent (n : net) (f : forward) : net :=
  mkN (n_xbar n) (n_layers n) (n_blocked n) (n_owes n) (f :: n_sent n) (n_retried n).
(** The call of [sendRetry] on a source port. *)
Definition told (n : net) (src : Z) : net :=
  mkN (n_xbar n) (n_layers n) (n_blocked n ∖ {[src]}) (n_owes n) (n_sent n) (src :: n_retried n).
Definition paid (n : net) (i : Z) : net :=
  mkN (n_xbar n) (n_layers n) (n_blocked n) (n_owes n ∖ {[i]}) (n_sent n) (n_retried n).

Section timing.
Context (c : xconf) (sd : side).

Definition destination (x : xbar) (pkt : xpkt) : sim (xbar * Z) :=
  match sd with Req => findPort x (xp_addr pkt) | Resp => Done (x, xp_dest pkt) end.

(** [recvTimingReq] and [recvTimingResp]; [accepts] is the answer of the destination if it is asked. *)
Definition recvTiming (now : Z) (n : net) (src : Z) (pkt : xpkt) (accepts : bool) : sim (net * bool) :=
  if match sd with Req => xp_express pkt | Resp => false end then Done (n, true)
  else
    d ← destination (n_xbar n) pkt;
    let '(x, j) := d in
    l ← layer_at n j;
    t ← tryTiming l src;
    let '(l1, free) := t in
    let n1 := put_layer (set_xbar n x) j l1 in
    if negb free then Done (set_blocked n1 src, false)
    else
      pkt1 ← calcPacketTiming c now pkt;
      let packetFinishTime := lastWordDelay pkt1 + now in
      if negb accepts then
        match sd with
        | Req =>
            _ ← check (negb (xp_inhibit pkt));
            l2 ← failedTiming now src (clockEdge (period c) now (headerCycles c)) l1;
            Done (set_blocked (owe (put_layer n1 j l2) j) src, false)
        | Resp => Halt
        end
      else
        l2 ← succeededTiming now packetFinishTime l1;
        Done (sent (put_layer n1 j l2) (mkF j src pkt now packetFinishTime), true).

(** What a source does when it is told to retry: nothing at once, or it sends a packet. *)
Definition reply : Type := option (xpkt * bool).

Definition sendRetry (now : Z) (n : net) (src : Z) (r : reply) : sim net :=
  match r with
  | None => Done (told n src)
  | Some (pkt, accepts) => a ← recvTiming now (told n src) src pkt accepts; Done a.1
  end.

Definition retryWaiting (now : Z) (n : net) (i : Z) (r : reply) : sim net :=
  l ← layer_at n i;
  match waitingForLayer l with
  | [] => Halt
  | retryingPort :: rest =>
      _ ← check (is_state l IDLE);
      n1 ← sendRetry now (put_layer n i (set_waiting (set_state l RETRY) rest (waitingForPeer l))) retryingPort r;
      l1 ← layer_at n1 i;
      if is_state l1 RETRY then
        l2 ← occupyLayer now (clockEdge (period c) now 1) (set_state l1 BUSY);
        Done (put_layer n1 i l2)
      else Done n1
  end.

(** The event queue takes the event out before it is processed. *)
Definition releaseLayer (now : Z) (n : net) (i : Z) (r : reply) : sim net :=
  l0 ← layer_at n i;
  let l := mkL (l_state l0) (drainManager l0) (waitingForLayer l0) (waitingForPeer l0) None (occupancy l0) in
  _ ← check (is_state l BUSY);
  let l1 := set_state l IDLE in
  match waitingForLayer l1 with
  | _ :: _ => if is_none (waitingForPeer l1) then retryWaiting now (put_layer n i l1) i r else Done (put_layer n i l1)
  | [] =>
      Done (put_layer n i
        (if is_none (waitingForPeer l1) && drainManager l1
         then mkL (l_state l1) false (waitingForLayer l1) (waitingForPeer l1) (l_release l1) (occupancy l1) else l1))
  end.

Definition recvRetry (now : Z) (n : net) (i : Z) (r : reply) : sim net :=
  l ← layer_at n i;
  match waitingForPeer l with
  | None => Halt
  | Some p =>
      let n1 := put_layer (paid n i) i (set_waiting l (p :: waitingForLayer l) None) in
      if is_state l IDLE then retryWaiting now n1 i r else _ ← check (is_state l BUSY); Done n1
  end.

Definition XBar_drain (n : net) : net * Z :=
  let ls := Layer_drain <$> n_layers n in
  (mkN (n_xbar n) ls.*1 (n_blocked n) (n_owes n) (n_sent n) (n_retried n), foldr Z.add 0 ls.*2).

Inductive event :=
| Send (src : Z) (pkt : xpkt) (accepts : bool)
| Release (i : Z) (r : reply)
| PeerRetry (i : Z) (r : reply)
| Drain.

Definition step (now : Z) (n : net) (e : event) : sim net :=
  match e with
  | Send src pkt accepts => a ← recvTiming now n src pkt accepts; Done a.1
  | Release i r => releaseLayer now n i r
  | PeerRetry i r => recvRetry now n i r
  | Drain => Done (XBar_drain n).1
  end.
End timing.

(** ** What the neighbours may do *)

Section protocol.
Context (c : xconf) (sd : side).

(** A packet that may arrive: its delays are accounted for, and there is a layer for its destination. *)
Definition target (x : xbar) (pkt : xpkt) : sim Z := match sd with Req => route x (xp_addr pkt) | Resp => Done (xp_dest pkt) end.
Record pkt_ok (n : net) (pkt : xpkt) (accepts : bool) : Prop := {
  po_delay : firstWordDelay pkt = 0 /\ lastWordDelay pkt = 0;
  po_size : 0 <= xp_size pkt;
  po_addr : 0 <= xp_addr pkt < 2 ^ 64;
  po_target : exists j, target (n_xbar n) pkt = Done j /\ 0 <= j < Z.of_nat (length (n_layers n));
  po_accepts : accepts = false -> sd = Req /\ xp_inhibit pkt = false;
}.
Definition reply_ok (n : net) (r : reply) : Prop := match r with None => True | Some (pkt, accepts) => pkt_ok n pkt accepts end.

(** The steps a system takes: a refused source is silent, a release event is processed at its tick, a destination sends a retry
    for a refusal. *)
Definition admissible (now : Z) (n : net) (e : event) : Prop :=
  match e with
  | Send src pkt accepts => src ∉ n_blocked n /\ pkt_ok n pkt accepts
  | Release i r => (exists l, layer_at n i = Done l /\ l_release l = Some now) /\ reply_ok n r
  | PeerRetry i r => i ∈ n_owes n /\ reply_ok n r
  | Drain => True
  end.

(** No release is passed over. *)
Definition no_later (n : net) (now : Z) : Prop := forall i l t, n_layers n !! i = Some l -> l_release l = Some t -> now <= t.

Inductive run : Z -> net -> list event -> Z -> net -> Prop :=
| run_nil now n : run now n [] now n
| run_cons now n now1 e n1 es now2 n2 : now <= now1 -> no_later n now1 -> admissible now1 n e -> step c sd now1 n e = Done n1 ->
    run now1 n1 es now2 n2 -> run now n (e :: es) now2 n2.

Definition net_init (x : xbar) (nlayers : nat) : net := mkN x (replicate nlayers Layer_new) ∅ ∅ [] [].

(** ** The invariant *)

Definition waiting_of (l : layer) : list Z := option_list (waitingForPeer l) ++ waitingForLayer l.
Definition waiters (ls : list layer) : list Z := ls ≫= waiting_of.

Definition layer_ok (now : Z) (l : layer) : Prop :=
  match l_state l with
  | IDLE => l_release l = None /\ (waitingForPeer l = None -> waitingForLayer l = [])
  | BUSY => exists t, l_release l = Some t /\ now <= t
  | RETRY => False
  end.
(** A layer whose retry is on its way. *)
Definition layer_mid (l : layer) : Prop := l_state l = RETRY /\ l_release l = None /\ waitingForPeer l = None.

(** [mid] is the layer that is sending a retry. *)
Record net_ok (now : Z) (mid : option nat) (n : net) : Prop := {
  no_xbar : xbar_ok (n_xbar n) /\ gotAllAddrRanges (n_xbar n) = true;
  no_now : 0 <= now;
  no_layer i l : n_layers n !! i = Some l -> if decide (mid = Some i) then layer_mid l else layer_ok now l;
  no_nodup : NoDup (waiters (n_layers n));
  no_blocked p : p ∈ n_blocked n <-> p ∈ waiters (n_layers n);
  no_owes i : i ∈ n_owes n <-> 0 <= i /\ exists l, n_layers n !! Z.to_nat i = Some l /\ waitingForPeer l <> None;
}.

Lemma waiters_insert ls i l : ls !! i = Some l -> exists rest, waiters ls ≡ₚ waiting_of l ++ rest /\
  forall l', waiters (<[i := l']> ls) ≡ₚ waiting_of l' ++ rest.
Proof.
  unfold waiters. revert i. induction ls as [|k ls IH]; intros i Hi; [done|]. destruct i as [|i]; cbn in *.
  - injection Hi as ->. eauto.
  - destruct (IH i Hi) as (rest & H1 & H2). exists (waiting_of k ++ rest). split; [rewrite H1|intros l'; rewrite H2]; rewrite !app_assoc; f_equiv; apply Permutation_app_comm.
Qed.

Lemma layer_at_Done n i l : layer_at n i = Done l <-> 0 <= i /\ n_layers n !! Z.to_nat i = Some l.
Proof. unfold layer_at. destruct (Z.leb_spec 0 i); [rewrite elem_Done; naive_solver|]. split; [done|lia]. Qed.

Lemma layer_at_put n i l l' : layer_at n i = Done l -> layer_at (put_layer n i l') i = Done l'.
Proof.
  rewrite !layer_at_Done. intros [Hi Hl]. split; [done|]. cbn. apply list_lookup_insert_eq. by apply lookup_lt_Some in Hl.
Qed.

(** A layer is replaced by one with other waiting ports. *)
Lemma put_layer_ok now mid mid' n n' i l l' : net_ok now mid n -> layer_at n i = Done l ->
  n_xbar n' = n_xbar n -> n_layers n' = <[Z.to_nat i := l']> (n_layers n) ->
  (if decide (mid' = Some (Z.to_nat i)) then layer_mid l' else layer_ok now l') ->
  (forall k, k <> Z.to_nat i -> mid' = Some k <-> mid = Some k) ->
  (forall rest, NoDup (waiting_of l ++ rest) -> (forall p, p ∈ n_blocked n <-> p ∈ waiting_of l ++ rest) ->
     NoDup (waiting_of l' ++ rest) /\ forall p, p ∈ n_blocked n' <-> p ∈ waiting_of l' ++ rest) ->
  (forall k, k <> i -> k ∈ n_owes n' <-> k ∈ n_owes n) -> (i ∈ n_owes n' <-> waitingForPeer l' <> None) ->
  net_ok now mid' n'.
Proof.
  intros [Hx Hnow Hl Hnd Hb Ho] [Hi Hli]%layer_at_Done Ex En Hok Hmid Hw Hown Howi. destruct (waiters_insert _ _ _ Hli) as (rest & Hr1 & Hr2).
  destruct (Hw rest) as [Hw1 Hw2]; [by rewrite <- Hr1|intros p; by rewrite Hb, Hr1|]. pose proof (lookup_lt_Some _ _ _ Hli) as Hlt. split.
  - by rewrite Ex.
  - done.
  - intros k m Hk. rewrite En in Hk. destruct (decide (k = Z.to_nat i)) as [->|Hne].
    + rewrite list_lookup_insert_eq in Hk by done. injection Hk as <-. done.
    + rewrite list_lookup_insert_ne in Hk by done. specialize (Hl k m Hk). specialize (Hmid k Hne).
      repeat case_decide; tauto.
  - by rewrite En, Hr2.
  - intros p. by rewrite En, Hr2.
  - intros k. rewrite En. destruct (decide (k = i)) as [->|Hne].
    + rewrite Howi, list_lookup_insert_eq by done. split; [intros H; split; [done|]; by exists l'|]. intros (_ & m & Hm & H). by injection Hm as <-.
    + rewrite (Hown k Hne), Ho. split; (intros [Hk H]; split; [done|]); rewrite list_lookup_insert_ne in * by lia; done.
Qed.

(** ** A packet arrives *)

Record conf_ok : Prop := { co_period : 0 < period c; co_header : 1 <= headerCycles c; co_width : 0 < xwidth c }.
Context (Hc : conf_ok).

Lemma div_ceil_le a b : 0 < b -> a <= div_ceil a b * b.
Proof. intros Hb. unfold div_ceil. pose proof (Z.div_mod (a + b - 1) b). pose proof (Z.mod_pos_bound (a + b - 1) b Hb). nia. Qed.

Lemma div_ceil_nonneg a b : 0 <= a -> 0 < b -> 0 <= div_ceil a b.
Proof. intros Ha Hb. unfold div_ceil. apply Z.div_pos; lia. Qed.

Lemma clockEdge_later now k : 0 <= now -> 1 <= k -> now < clockEdge (period c) now k.
Proof. destruct Hc as [Hp _ _]. intros Hn Hk. unfold clockEdge. pose proof (div_ceil_le now (period c) Hp). nia. Qed.

(** The effect of recvTimingReq and recvTimingResp on the destination's layer. *)
Inductive received (now : Z) (n : net) (src : Z) (pkt : xpkt) : bool -> net -> bool -> Prop :=
| rc_express accepts : received now n src pkt accepts n true
| rc_busy accepts cc j l : target (n_xbar n) pkt = Done j -> layer_at n j = Done l -> xbar_ok (set_cache (n_xbar n) cc) ->
    is_state l BUSY = true \/ waitingForPeer l <> None -> l_state l <> RETRY ->
    received now n src pkt accepts
      (set_blocked (put_layer (set_xbar n (set_cache (n_xbar n) cc)) j (set_waiting l (waitingForLayer l ++ [src]) (waitingForPeer l))) src) false
| rc_accepted cc j l until : target (n_xbar n) pkt = Done j -> layer_at n j = Done l -> xbar_ok (set_cache (n_xbar n) cc) ->
    l_state l <> BUSY -> waitingForPeer l = None -> now < until ->
    received now n src pkt true
      (sent (put_layer (set_xbar n (set_cache (n_xbar n) cc)) j
        (mkL BUSY (drainManager l) (waitingForLayer l) None (Some until) (occupancy l + (until - now)))) (mkF j src pkt now until)) true
| rc_refused cc j l until : target (n_xbar n) pkt = Done j -> layer_at n j = Done l -> xbar_ok (set_cache (n_xbar n) cc) ->
    l_state l <> BUSY -> waitingForPeer l = None -> now < until ->
    received now n src pkt false
      (set_blocked (owe (put_layer (set_xbar n (set_cache (n_xbar n) cc)) j
        (mkL BUSY (drainManager l) (waitingForLayer l) (Some src) (Some until) (occupancy l + (until - now)))) j) src) false.

Lemma put_put n x j l1 l2 : put_layer (put_layer (set_xbar n x) j l1) j l2 = put_layer (set_xbar n x) j l2.
Proof. unfold put_layer. cbn. by rewrite list_insert_insert_eq. Qed.

Lemma destination_spec x pkt j : xbar_ok x -> gotAllAddrRanges x = true -> 0 <= xp_addr pkt < 2 ^ 64 -> target x pkt = Done j ->
  exists cc, destination sd x pkt = Done (set_cache x cc, j) /\ xbar_ok (set_cache x cc).
Proof.
  intros Hx Hall Ha. unfold target, destination. destruct sd.
  - intros Hr. pose proof (findPort_route x _ Hx Hall Ha) as Hf. by rewrite Hr in Hf.
  - intros [= ->]. exists (portCache x). assert (set_cache x (portCache x) = x) as -> by by destruct x. done.
Qed.

Lemma not_mid_state now mid n i l : net_ok now mid n -> layer_at n i = Done l -> l_state l = RETRY -> waitingForPeer l = None /\ l_release l = None.
Proof.
  intros Hok [_ Hl]%layer_at_Done Hs. pose proof (no_layer _ _ _ Hok _ _ Hl) as H. case_decide; [destruct H as (_ & H1 & H2); done|].
  unfold layer_ok in H. by rewrite Hs in H.
Qed.

Lemma recvTiming_received now mid n src pkt accepts : net_ok now mid n -> src ∉ n_blocked n -> pkt_ok n pkt accepts ->
  exists n' b, recvTiming c sd now n src pkt accepts = Done (n', b) /\ received now n src pkt accepts n' b.
Proof.
  intros Hok Hsrc [[Hd1 Hd2] Hsz Ha (j & Hj & Hjr) Hacc]. unfold recvTiming.
  destruct (match sd with Req => xp_express pkt | Resp => false end); [eexists _, _; split; [done|constructor]|].
  destruct (no_xbar _ _ _ Hok) as [Hx Hall]. destruct (destination_spec _ _ _ Hx Hall Ha Hj) as (cc & -> & Hx'). sim_step.
  destruct (lookup_lt_is_Some_2 (n_layers n) (Z.to_nat j)) as [l Hl]; [lia|].
  assert (Hlj : layer_at n j = Done l) by (apply layer_at_Done; split; [lia|done]). rewrite Hlj. sim_step. unfold tryTiming.
  assert (Hnw : src ∉ waitingForLayer l).
  { intros Hin. apply Hsrc. apply (no_blocked _ _ _ Hok). destruct (waiters_insert _ _ _ Hl) as (rest & -> & _). apply elem_of_app. left.
    apply elem_of_app. by right. }
  destruct (is_state l BUSY || negb (is_none (waitingForPeer l))) eqn:Ebusy; sim_step.
  { rewrite bool_decide_true by done. cbn [check]. sim_step. eexists _, _. split; [done|]. apply (rc_busy now n src pkt accepts cc j l); try done.
    - apply orb_true_iff in Ebusy as [H|H]; [by left|right]. by destruct (waitingForPeer l).
    - intros Hs. destruct (not_mid_state _ _ _ _ _ Hok Hlj Hs) as [E _]. rewrite E in Ebusy. unfold is_state in Ebusy. rewrite Hs in Ebusy. done. }
  apply orb_false_iff in Ebusy as [Hnb Hnp]. assert (Hp : waitingForPeer l = None) by by destruct (waitingForPeer l).
  assert (Hst : l_state l <> BUSY). { intros E. unfold is_state in Hnb. by rewrite E in Hnb. }
  assert (Hrel : l_release l = None).
  { pose proof (no_layer _ _ _ Hok _ _ Hl) as H. case_decide; [destruct H as (_ & H & _); done|]. unfold layer_ok in H.
    destruct (l_state l); [by destruct H|done|done]. }
  cbn [negb]. unfold calcPacketTiming. rewrite Hd1, Hd2. cbn [Z.eqb negb orb]. sim_step. cbn [lastWordDelay].
  pose proof (no_now _ _ _ Hok) as Hnow. destruct Hc as [Hper Hhead Hwid]. pose proof (div_ceil_le now (period c) Hper).
  assert (Hdc : 0 <= (if xp_hasData pkt then div_ceil (xp_size pkt) (xwidth c) else 0)) by (destruct (xp_hasData pkt); [by apply div_ceil_nonneg|lia]).
  destruct accepts; cbn [negb].
  - set (until := (headerCycles c + _) * period c + _ + now). assert (Hu : now < until) by (unfold until, clockEdge; nia).
    unfold succeededTiming, occupyLayer. cbn. destruct (Z.eqb_spec until 0); [lia|]. cbn. destruct (Z.leb_spec now until); [|lia]. cbn. rewrite Hrel. cbn.
    eexists _, _. split; [done|]. rewrite put_put, Hp. by apply (rc_accepted now n src pkt cc j l until).
  - destruct (Hacc eq_refl) as [Esd Hinh]. rewrite Hinh. pose proof (clockEdge_later now (headerCycles c) Hnow Hhead) as Hu. rewrite Esd. cbn [check negb]. sim_step.
    unfold failedTiming, occupyLayer. cbn. rewrite Hp. cbn. destruct (Z.eqb_spec (clockEdge (period c) now (headerCycles c)) 0); [lia|]. cbn.
    destruct (Z.leb_spec now (clockEdge (period c) now (headerCycles c))); [|lia]. cbn. rewrite Hrel. cbn.
    eexists _, _. split; [done|]. rewrite put_put. by apply (rc_refused now n src pkt cc j l).
Qed.

Lemma set_xbar_ok now mid n cc : net_ok now mid n -> xbar_ok (set_cache (n_xbar n) cc) -> net_ok now mid (set_xbar n (set_cache (n_xbar n) cc)).
Proof. intros [Hx Hnow Hl Hnd Hb Ho] Hx'. split; try done. split; [done|]. by destruct Hx. Qed.

(** A source that was not waiting is put into the queue of a layer. *)
Lemma waiting_push p w1 w2 rest (b b' : gset Z) : w2 ≡ₚ p :: w1 -> p ∉ b -> (forall q, q ∈ b' <-> q = p \/ q ∈ b) ->
  NoDup (w1 ++ rest) -> (forall q, q ∈ b <-> q ∈ w1 ++ rest) -> NoDup (w2 ++ rest) /\ forall q, q ∈ b' <-> q ∈ w2 ++ rest.
Proof.
  intros Hw Hp Hb' Hnd Hb. rewrite Hw. cbn. split; [constructor; [by rewrite <- Hb|done]|]. intros q. rewrite Hb', Hb, Hw. cbn. by rewrite elem_of_cons.
Qed.

(** The layer that was sending a retry has taken a packet. *)
Definition mid_after (mid : option nat) (j : Z) : option nat := if decide (mid = Some (Z.to_nat j)) then None else mid.

Lemma mid_after_ne mid j : mid_after mid j <> Some (Z.to_nat j).
Proof. unfold mid_after. by case_decide. Qed.

Lemma mid_after_other mid j k : k <> Z.to_nat j -> mid_after mid j = Some k <-> mid = Some k.
Proof. unfold mid_after. case_decide as E; [|done]. intros Hk. split; [done|]. intros ->. congruence. Qed.

Lemma received_ok now mid n src pkt accepts n' b : net_ok now mid n -> src ∉ n_blocked n -> received now n src pkt accepts n' b ->
  exists mid', net_ok now mid' n' /\ (mid' = mid \/ mid' = None).
Proof.
  intros Hok Hsrc Hr. destruct Hr as [a|a cc j l Hj Hl Hx Hbusy Hst|cc j l until Hj Hl Hx Hst Hp Hu|cc j l until Hj Hl Hx Hst Hp Hu];
    [by exists mid; auto|..]; pose proof (set_xbar_ok _ _ _ _ Hok Hx) as Hok1; pose proof Hl as [Hj0 Hlj]%layer_at_Done.
  - assert (Hm : mid <> Some (Z.to_nat j)). { intros ->. pose proof (no_layer _ _ _ Hok _ _ Hlj) as H. rewrite decide_True in H by done. by destruct H. }
    pose proof (no_layer _ _ _ Hok _ _ Hlj) as Hlo. rewrite decide_False in Hlo by done.
    exists mid. split; [|by left]. eapply (put_layer_ok now mid mid _ _ j l); [exact Hok1|done|done|done|..].
    + rewrite decide_False by done. unfold layer_ok, set_waiting in *. cbn. destruct (l_state l) eqn:E; [|done|done].
      destruct Hlo as [H1 _]. split; [done|]. intros E'. destruct Hbusy as [H|H]; [|done]. unfold is_state in H. rewrite E in H. done.
    + done.
    + intros rest. cbn. apply (waiting_push src); [|done|]. { unfold waiting_of. cbn. rewrite app_assoc. symmetry. apply Permutation_cons_append. }
      intros q. rewrite elem_of_union, elem_of_singleton. done.
    + done.
    + cbn. rewrite (no_owes _ _ _ Hok). split; [|intros H; split; [done|by exists l]]. intros (_ & l' & Hl' & H). congruence.
  - exists (mid_after mid j). split; [|unfold mid_after; case_decide; auto].
    eapply (put_layer_ok now mid (mid_after mid j) _ _ j l); [exact Hok1|done|done|done|..].
    + rewrite decide_False by apply mid_after_ne. unfold layer_ok. cbn. eexists. split; [done|lia].
    + apply mid_after_other.
    + intros rest. unfold waiting_of. cbn. rewrite Hp. by split.
    + done.
    + cbn. rewrite (no_owes _ _ _ Hok). split; [|done]. intros (_ & l' & Hl' & H). rewrite Hlj in Hl'. injection Hl' as <-. by rewrite Hp in H.
  - exists (mid_after mid j). split; [|unfold mid_after; case_decide; auto].
    eapply (put_layer_ok now mid (mid_after mid j) _ _ j l); [exact Hok1|done|done|done|..].
    + rewrite decide_False by apply mid_after_ne. unfold layer_ok. cbn. eexists. split; [done|lia].
    + apply mid_after_other.
    + intros rest. apply (waiting_push src); [|done|]. { unfold waiting_of. cbn. by rewrite Hp. }
      intros q. cbn. rewrite elem_of_union, elem_of_singleton. done.
    + intros k Hk. cbn. rewrite elem_of_union, elem_of_singleton. naive_solver.
    + cbn. rewrite elem_of_union, elem_of_singleton. naive_solver.
Qed.

(** ** A layer sends a retry *)

(** The first waiting port leaves the queue and is told to retry. *)
Record telling (n : net) (i p : Z) (l lm : layer) (n' : net) : Prop := {
  te_layer : layer_at n i = Done l;
  te_waiting : waiting_of l = p :: waitingForLayer lm;
  te_mid : layer_mid lm;
  te_xbar : n_xbar n' = n_xbar n;
  te_layers : n_layers n' = <[Z.to_nat i := lm]> (n_layers n);
  te_blocked : n_blocked n' = n_blocked n ∖ {[p]};
  te_owes k : k ∈ n_owes n' <-> k ∈ n_owes n /\ k <> i;
  te_sent : n_sent n' = n_sent n;
  te_retried : n_retried n' = p :: n_retried n;
}.

Lemma telling_ok now n i p l lm n' : net_ok now None n -> telling n i p l lm n' -> net_ok now (Some (Z.to_nat i)) n' /\ p ∉ n_blocked n'.
Proof.
  intros Hok [Hl Hw Hm Ex El Eb Eo _ _]. split; [|rewrite Eb; by apply not_elem_of_difference; right; apply elem_of_singleton].
  assert (Hlm : waiting_of lm = waitingForLayer lm) by (unfold waiting_of; destruct Hm as (_ & _ & ->); done).
  eapply (put_layer_ok now None (Some (Z.to_nat i)) n n' i l lm); try done.
  - by rewrite decide_True.
  - intros k Hk. split; [intros [= E]; congruence|done].
  - intros rest. rewrite Hw, Hlm. cbn. intros [Hp Hnd]%NoDup_cons Hb. split; [done|]. intros q.
    rewrite Eb, elem_of_difference, Hb, elem_of_singleton, elem_of_cons. split; [tauto|]. intros Hq. split; [by right|]. by intros ->.
  - intros k Hk. rewrite Eo. tauto.
  - rewrite Eo. destruct Hm as (_ & _ & ->). tauto.
Qed.

(** The layer after a cycle burnt on a source that did not send at once. *)
Definition burnt (now : Z) (l : layer) : layer :=
  mkL BUSY (drainManager l) (waitingForLayer l) (waitingForPeer l) (Some (clockEdge (period c) now 1)) (occupancy l + (clockEdge (period c) now 1 - now)).

Inductive retried (now : Z) (n : net) (i p : Z) : reply -> net -> Prop :=
| rt_silent l : layer_at n i = Done l -> retried now n i p None (put_layer n i (burnt now l))
| rt_elsewhere pkt accepts n1 b l : received now n p pkt accepts n1 b -> net_ok now (Some (Z.to_nat i)) n1 -> layer_at n1 i = Done l ->
    retried now n i p (Some (pkt, accepts)) (put_layer n1 i (burnt now l))
| rt_sent pkt accepts n1 b : received now n p pkt accepts n1 b -> net_ok now None n1 -> retried now n i p (Some (pkt, accepts)) n1.

Definition end_retry (now i : Z) (n1 : net) : sim net :=
  l1 ← layer_at n1 i;
  if is_state l1 RETRY then l2 ← occupyLayer now (clockEdge (period c) now 1) (set_state l1 BUSY); Done (put_layer n1 i l2) else Done n1.

Lemma burnt_spec now n i l : net_ok now (Some (Z.to_nat i)) n -> layer_at n i = Done l ->
  end_retry now i n = Done (put_layer n i (burnt now l)) /\ net_ok now None (put_layer n i (burnt now l)).
Proof.
  intros Hok Hl. pose proof Hl as [Hi Hli]%layer_at_Done. pose proof (no_layer _ _ _ Hok _ _ Hli) as Hm. rewrite decide_True in Hm by done.
  destruct Hm as (Hs & Hr & Hp). pose proof (no_now _ _ _ Hok) as Hnow. pose proof (clockEdge_later now 1 (no_now _ _ _ Hok) ltac:(lia)) as Hu. split.
  - unfold end_retry. rewrite Hl. sim_step. unfold is_state at 1. rewrite bool_decide_true by done. unfold occupyLayer, set_state, is_state. cbn.
    rewrite Hr. destruct (Z.eqb_spec (clockEdge (period c) now 1) 0); [lia|]. cbn. destruct (Z.leb_spec now (clockEdge (period c) now 1)); [|lia].
    cbn. unfold burnt. by rewrite ?Hr.
  - eapply (put_layer_ok now (Some (Z.to_nat i)) None n _ i l (burnt now l)); try done.
    + rewrite decide_False by done. unfold layer_ok. cbn. eexists. split; [done|lia].
    + intros k Hk. split; [done|]. intros [= E]. congruence.
    + cbn. rewrite (no_owes _ _ _ Hok). rewrite Hp. split; [|done]. intros (_ & l' & Hl' & H). congruence.
Qed.

Lemma layer_at_kept now n src pkt accepts n' b i l : received now n src pkt accepts n' b -> layer_at n i = Done l -> exists l', layer_at n' i = Done l'.
Proof.
  intros Hr Hl. assert (Hlen : length (n_layers n') = length (n_layers n)).
  { destruct Hr; cbn; rewrite ?length_insert; done. }
  apply layer_at_Done in Hl as [Hi Hl]. apply lookup_lt_Some in Hl. rewrite <- Hlen in Hl. apply lookup_lt_is_Some_2 in Hl as [l' Hl'].
  exists l'. by apply layer_at_Done.
Qed.

Lemma sendRetry_retried now n0 i p r : net_ok now (Some (Z.to_nat i)) (told n0 p) -> (exists l, layer_at n0 i = Done l) -> p ∉ n_blocked (told n0 p) -> reply_ok (told n0 p) r ->
  exists n2, (n1 ← sendRetry c sd now n0 p r; end_retry now i n1) = Done n2 /\ net_ok now None n2 /\ retried now (told n0 p) i p r n2.
Proof.
  intros Hok [l Hl] Hp Hr. change (layer_at n0 i) with (layer_at (told n0 p) i) in Hl. destruct r as [[pkt accepts]|]; cbn [sendRetry].
  - destruct (recvTiming_received _ _ _ _ _ _ Hok Hp Hr) as (n1 & b & -> & Hrc). sim_step. cbn [fst].
    destruct (received_ok _ _ _ _ _ _ _ _ Hok Hp Hrc) as (mid' & Hok' & [->| ->]).
    + destruct (layer_at_kept _ _ _ _ _ _ _ _ _ Hrc Hl) as [l1 Hl1]. destruct (burnt_spec _ _ _ _ Hok' Hl1) as [E1 E2].
      eexists. split; [exact E1|]. split; [done|]. by eapply rt_elsewhere.
    + exists n1. split; [|split; [done|by eapply rt_sent]]. unfold end_retry. destruct (layer_at_kept _ _ _ _ _ _ _ _ _ Hrc Hl) as [l1 Hl1].
      rewrite Hl1. sim_step. apply layer_at_Done in Hl1 as [_ Hl1]. pose proof (no_layer _ _ _ Hok' _ _ Hl1) as H. rewrite decide_False in H by done.
      unfold is_state. rewrite bool_decide_false; [done|]. intros E. unfold layer_ok in H. by rewrite E in H.
  - sim_step. destruct (burnt_spec _ _ _ _ Hok Hl) as [E1 E2]. eexists. split; [exact E1|]. split; [done|]. by apply rt_silent.
Qed.

(** ** Steps *)

Inductive stepped (now : Z) (n : net) : event -> net -> Prop :=
| st_send src pkt accepts n' b : received now n src pkt accepts n' b -> stepped now n (Send src pkt accepts) n'
| st_idle i r l dm : layer_at n i = Done l -> l_state l = BUSY -> l_release l = Some now -> waitingForLayer l = [] \/ waitingForPeer l <> None ->
    stepped now n (Release i r) (put_layer n i (mkL IDLE dm (waitingForLayer l) (waitingForPeer l) None (occupancy l)))
| st_release i r p l lm n1 n' : l_state l = BUSY -> l_release l = Some now -> waitingForPeer l = None -> telling n i p l lm n1 -> retried now n1 i p r n' ->
    stepped now n (Release i r) n'
| st_requeue i r l p : layer_at n i = Done l -> l_state l = BUSY -> waitingForPeer l = Some p ->
    stepped now n (PeerRetry i r) (put_layer (paid n i) i (set_waiting l (p :: waitingForLayer l) None))
| st_retry i r p l lm n1 n' : l_state l = IDLE -> waitingForPeer l = Some p -> telling n i p l lm n1 -> retried now n1 i p r n' ->
    stepped now n (PeerRetry i r) n'
| st_drain : stepped now n Drain (XBar_drain n).1.

Lemma put_put_at n i l1 l2 : put_layer (put_layer n i l1) i l2 = put_layer n i l2.
Proof. unfold put_layer. cbn. by rewrite list_insert_insert_eq. Qed.

Lemma retryWaiting_retried now n n0 i l1 l p lm r : net_ok now None n -> layer_at n0 i = Done l1 -> waitingForLayer l1 = p :: waitingForLayer lm -> l_state l1 = IDLE ->
  lm = set_waiting (set_state l1 RETRY) (waitingForLayer lm) (waitingForPeer l1) -> telling n i p l lm (told (put_layer n0 i lm) p) -> reply_ok n r ->
  exists n', retryWaiting c sd now n0 i r = Done n' /\ net_ok now None n' /\ retried now (told (put_layer n0 i lm) p) i p r n'.
Proof.
  intros Hok Hl Hw Hs Hlm Ht Hr. destruct (telling_ok _ _ _ _ _ _ _ Hok Ht) as [Hok1 Hp].
  unfold retryWaiting. rewrite Hl. sim_step. rewrite Hw. assert (is_state l1 IDLE = true) as -> by by apply bool_decide_eq_true. cbn [check]. sim_step. rewrite <- Hlm.
  apply (sendRetry_retried now (put_layer n0 i lm) i p r Hok1); [exists lm; by apply (layer_at_put n0 i l1)|done|].
  destruct r as [[pkt accepts]|]; [|done]. destruct Hr as [H1 H2 H3 (j & Hj1 & Hj2) H5]. split; try done. exists j.
  rewrite (te_xbar _ _ _ _ _ _ Ht). split; [done|]. rewrite (te_layers _ _ _ _ _ _ Ht), length_insert. done.
Qed.

Lemma layer_IDLE now n i l : net_ok now None n -> layer_at n i = Done l -> layer_ok now l.
Proof. intros Hok [_ Hl]%layer_at_Done. pose proof (no_layer _ _ _ Hok _ _ Hl) as H. by rewrite decide_False in H. Qed.

Lemma owes_None now mid n i l : net_ok now mid n -> layer_at n i = Done l -> waitingForPeer l = None -> i ∉ n_owes n.
Proof. intros Hok [_ Hl]%layer_at_Done Hp (_ & l' & Hl' & H)%(no_owes _ _ _ Hok). congruence. Qed.

Lemma release_ok now n i r l : net_ok now None n -> layer_at n i = Done l -> l_release l = Some now -> reply_ok n r ->
  exists n', releaseLayer c sd now n i r = Done n' /\ stepped now n (Release i r) n' /\ net_ok now None n'.
Proof.
  intros Hok Hl Hrel Hr. unfold releaseLayer. rewrite Hl. sim_step. pose proof (layer_IDLE _ _ _ _ Hok Hl) as Hlo.
  assert (Hs : l_state l = BUSY). { unfold layer_ok in Hlo. destruct (l_state l); [destruct Hlo; congruence|done|done]. }
  set (l0 := mkL _ _ _ _ _ _). assert (is_state l0 BUSY = true) as -> by by apply bool_decide_eq_true. cbn [check]. unfold l0. sim_step. cbn [waitingForLayer waitingForPeer set_state drainManager l_state l_release occupancy].
  assert (Hidle : forall dm, waitingForLayer l = [] \/ waitingForPeer l <> None ->
    net_ok now None (put_layer n i (mkL IDLE dm (waitingForLayer l) (waitingForPeer l) None (occupancy l)))).
  { intros dm Hw. eapply (put_layer_ok now None None n _ i l); try done.
    - rewrite decide_False by done. cbn. split; [done|]. intros E. by destruct Hw.
    - cbn. apply layer_at_Done in Hl as [Hi Hl]. rewrite (no_owes _ _ _ Hok). split; [|intros H; split; [done|by exists l]].
      intros (_ & l' & Hl' & H). congruence. }
  destruct (waitingForLayer l) as [|p rest] eqn:Ew.
  - set (lx := if is_none (waitingForPeer l) && drainManager l then _ else _). assert (exists dm, lx = mkL IDLE dm [] (waitingForPeer l) None (occupancy l)) as [dm ->].
    { unfold lx. destruct (_ && _); by eexists. }
    eexists. split; [done|]. split; [|by apply Hidle; left]. rewrite <- Ew. apply st_idle; auto.
  - destruct (waitingForPeer l) as [q|] eqn:Ep; cbn [is_none].
    + eexists. split; [done|]. split; [|apply Hidle; by right]. rewrite <- Ew, <- Ep. apply (st_idle now n i r l (drainManager l)); [done|done|done|]. right. congruence.
    + set (l1 := mkL IDLE (drainManager l) (p :: rest) None None (occupancy l)).
      set (lm := mkL RETRY (drainManager l) rest None None (occupancy l)).
      assert (Ht : telling n i p l lm (told (put_layer (put_layer n i l1) i lm) p)).
      { split; try done; [unfold waiting_of; by rewrite Ep, Ew|by rewrite put_put_at|]. intros k. cbn. split; [|tauto]. intros H. split; [done|].
        intros ->. by apply (owes_None _ _ _ _ _ Hok Hl Ep). }
      destruct (retryWaiting_retried now n (put_layer n i l1) i l1 l p lm r Hok) as (n' & H1 & H2 & H3); try done; [by apply (layer_at_put n i l)|].
      exists n'. split; [exact H1|]. split; [|done]. by eapply st_release.
Qed.

Lemma peer_retry_ok now n i r : net_ok now None n -> i ∈ n_owes n -> reply_ok n r ->
  exists n', recvRetry c sd now n i r = Done n' /\ stepped now n (PeerRetry i r) n' /\ net_ok now None n'.
Proof.
  intros Hok Ho Hr. pose proof Ho as (Hi & l & Hl & Hp)%(no_owes _ _ _ Hok). assert (Hla : layer_at n i = Done l) by by apply layer_at_Done.
  unfold recvRetry. rewrite Hla. sim_step. destruct (waitingForPeer l) as [p|] eqn:Ep; [|done]. pose proof (layer_IDLE _ _ _ _ Hok Hla) as Hlo.
  destruct (l_state l) eqn:Es; unfold is_state; cbn [l_state]; rewrite Es.
  - rewrite bool_decide_true by done. set (l1 := set_waiting l (p :: waitingForLayer l) None).
    assert (Hrel : l_release l = None) by (unfold layer_ok in Hlo; rewrite Es in Hlo; tauto).
    set (lm := set_waiting (set_state l1 RETRY) (waitingForLayer l) None).
    assert (Ht : telling n i p l lm (told (put_layer (put_layer (paid n i) i l1) i lm) p)).
    { split; try done; [unfold waiting_of; by rewrite Ep|by rewrite put_put_at|]. intros k. cbn. rewrite elem_of_difference, elem_of_singleton. done. }
    destruct (retryWaiting_retried now n (put_layer (paid n i) i l1) i l1 l p lm r Hok) as (n' & H1 & H2 & H3); try done; [by apply (layer_at_put (paid n i) i l)|].
    exists n'. split; [exact H1|]. split; [|done]. by eapply st_retry.
  - rewrite bool_decide_false by done. rewrite bool_decide_true by done. cbn [check]. sim_step. eexists. split; [done|]. split; [by apply st_requeue|].
    eapply (put_layer_ok now None None n _ i l); try done.
    + rewrite decide_False by done. unfold layer_ok in *. cbn. by rewrite Es in *.
    + intros rest. unfold waiting_of. cbn. rewrite Ep. by split.
    + intros k Hk. cbn. rewrite elem_of_difference, elem_of_singleton. tauto.
    + cbn. rewrite elem_of_difference, elem_of_singleton. tauto.
  - unfold layer_ok in Hlo. by rewrite Es in Hlo.
Qed.

Lemma waiters_fmap (f : layer -> layer) ls : (forall l, waiting_of (f l) = waiting_of l) -> waiters (f <$> ls) = waiters ls.
Proof. intros Hf. unfold waiters. induction ls as [|l ls IH]; [done|]. cbn. by rewrite Hf, IH. Qed.

Lemma drained_layer l : l_state (Layer_drain l).1 = l_state l /\ waitingForPeer (Layer_drain l).1 = waitingForPeer l /\
  waitingForLayer (Layer_drain l).1 = waitingForLayer l /\ l_release (Layer_drain l).1 = l_release l.
Proof. unfold Layer_drain. destruct (is_state l IDLE); done. Qed.

Lemma drained_layers ls : (Layer_drain <$> ls).*1 = (fst ∘ Layer_drain) <$> ls.
Proof. by rewrite list_fmap_compose. Qed.

Lemma drain_ok now n : net_ok now None n -> net_ok now None (XBar_drain n).1.
Proof.
  intros [Hx Hnow Hl Hnd Hb Ho]. unfold XBar_drain. cbn [fst]. rewrite drained_layers.
  assert (Hw : waiters ((fst ∘ Layer_drain) <$> n_layers n) = waiters (n_layers n)).
  { apply waiters_fmap. intros l. unfold waiting_of. cbn. destruct (drained_layer l) as (_ & -> & -> & _). done. }
  split; cbn [n_xbar n_layers n_blocked n_owes]; try done; try by rewrite Hw.
  - intros i l' Hi. rewrite decide_False by done. apply list_lookup_fmap_Some in Hi as (l & -> & Hi). specialize (Hl i l Hi). rewrite decide_False in Hl by done.
    unfold layer_ok in *. cbn. destruct (drained_layer l) as (-> & -> & -> & ->). done.
  - intros i. rewrite Ho. split; (intros [Hi (l & Hl1 & Hl2)]; split; [done|]).
    + exists (Layer_drain l).1. rewrite list_lookup_fmap, Hl1. split; [done|]. by destruct (drained_layer l) as (_ & -> & _).
    + apply list_lookup_fmap_Some in Hl1 as (l0 & -> & Hl0). exists l0. split; [done|]. cbn in Hl2. by destruct (drained_layer l0) as (_ & E & _); rewrite E in Hl2.
Qed.

Lemma step_ok now n e : net_ok now None n -> admissible now n e -> exists n', step c sd now n e = Done n' /\ stepped now n e n' /\ net_ok now None n'.
Proof.
  intros Hok He. destruct e as [src pkt accepts|i r|i r|]; cbn [step].
  - destruct He as [Hs Hp]. destruct (recvTiming_received _ _ _ _ _ _ Hok Hs Hp) as (n' & b & -> & Hr). sim_step. cbn. exists n'. split; [done|].
    split; [by eapply st_send|]. by destruct (received_ok _ _ _ _ _ _ _ _ Hok Hs Hr) as (mid & Hok' & [->| ->]).
  - destruct He as [(l & Hl & Hrel) Hr]. by apply (release_ok _ _ _ _ l).
  - destruct He as [Ho Hr]. by apply peer_retry_ok.
  - eexists. split; [done|]. split; [constructor|by apply drain_ok].
Qed.

Lemma later_ok now now1 n : net_ok now None n -> now <= now1 -> no_later n now1 -> net_ok now1 None n.
Proof.
  intros [Hx Hnow Hl Hnd Hb Ho] Hle Hno. split; try done; [lia|]. intros i l Hi. specialize (Hl i l Hi). rewrite decide_False in * by done.
  unfold layer_ok in *. destruct (l_state l); [done| |done]. destruct Hl as (t & Ht & _). exists t. split; [done|]. by apply (Hno i l).
Qed.

Lemma init_ok x k : xbar_ok x -> gotAllAddrRanges x = true -> net_ok 0 None (net_init x k).
Proof.
  intros Hx Hall. assert (Hw : waiters (replicate k Layer_new) = []) by by induction k. split; cbn [n_xbar n_layers n_blocked n_owes net_init]; try done.
  - intros i l [-> _]%lookup_replicate_1. by rewrite decide_False.
  - rewrite Hw. constructor.
  - intros p. rewrite Hw. split; intros H; [by apply not_elem_of_empty in H|by apply elem_of_nil in H].
  - intros i. split; [intros H; by apply not_elem_of_empty in H|]. intros (_ & l & [-> _]%lookup_replicate_1 & H). by destruct H.
Qed.

Lemma run_ok now n es now' n' : run now n es now' n' -> net_ok now None n -> net_ok now' None n'.
Proof.
  induction 1 as [now n|now n now1 e n1 es now2 n2 Hle Hno Hadm Hst Hrun IH]; intros Hok; [done|]. apply IH.
  destruct (step_ok now1 n e (later_ok _ _ _ Hok Hle Hno) Hadm) as (n' & E & _ & Hok'). congruence.
Qed.

(** A waiting source is woken by a release that is scheduled or a retry that is owed. *)
Lemma blocked_woken now n p : net_ok now None n -> p ∈ n_blocked n ->
  exists i l, layer_at n i = Done l /\ p ∈ waiting_of l /\ ((exists t, l_release l = Some t /\ now <= t) \/ i ∈ n_owes n).
Proof.
  intros Hok [l [Hp Hl]]%(no_blocked _ _ _ Hok)%list_elem_of_bind. apply list_elem_of_lookup_1 in Hl as [i Hi]. exists (Z.of_nat i), l.
  assert (Hla : layer_at n (Z.of_nat i) = Done l) by (apply layer_at_Done; rewrite Nat2Z.id; split; [lia|done]).
  split; [done|]. split; [done|]. pose proof (layer_IDLE _ _ _ _ Hok Hla) as Hlo. unfold layer_ok in Hlo. destruct (l_state l); [right|by left|done].
  apply (no_owes _ _ _ Hok). rewrite Nat2Z.id. split; [lia|]. exists l. split; [done|]. intros E. destruct Hlo as [_ Hw]. unfold waiting_of in Hp.
  rewrite E, (Hw E) in Hp. by apply elem_of_nil in Hp.
Qed.

(** ** Bounded waiting *)

Definition internal (i : Z) (e : event) : bool :=
  match e with Release k _ | PeerRetry k _ => k =? i | Send _ _ _ | Drain => false end.
(** A destination accepts what a source sends when it is told to retry. *)
Definition accepting (i : Z) (e : event) : Prop :=
  match e with Release k (Some (_, accepts)) | PeerRetry k (Some (_, accepts)) => k = i -> accepts = true | _ => True end.

Definition extra (l : layer) : nat :=
  match waitingForPeer l, l_state l with None, _ => 0 | Some _, IDLE => 1 | Some _, _ => 2 end.
(** Bounds the releases and retries of layer [i] until source [p] is told to retry. *)
Definition waits (n : net) (i p : Z) (k : nat) : Prop :=
  exists l pre post, layer_at n i = Done l /\ waiting_of l = pre ++ p :: post /\ k = (length pre + extra l)%nat.

Lemma layer_at_ext n n' i : n_layers n' !! Z.to_nat i = n_layers n !! Z.to_nat i -> layer_at n' i = layer_at n i.
Proof. intros E. unfold layer_at. by rewrite E. Qed.

Lemma waits_ext n n' i p k : n_layers n' !! Z.to_nat i = n_layers n !! Z.to_nat i -> waits n i p k -> waits n' i p k.
Proof. intros E (l & pre & post & Hl & H). exists l, pre, post. by rewrite (layer_at_ext n n' i E). Qed.

Lemma waits_put_ne n i j l p k : 0 <= i -> 0 <= j -> i <> j -> waits n i p k -> waits (put_layer n j l) i p k.
Proof. intros Hi Hj Hne. apply waits_ext. cbn. apply list_lookup_insert_ne. lia. Qed.

(** A packet that arrives does not change the turn of a waiting source. *)
Lemma received_waits now n src pkt accepts n' b i p k l : received now n src pkt accepts n' b -> layer_at n i = Done l -> layer_ok now l -> waits n i p k -> waits n' i p k.
Proof.
  intros Hr Hl Hlo Hw. pose proof Hl as [Hi Hli]%layer_at_Done.
  assert (Hbusy : l_state l <> BUSY -> waitingForPeer l <> None).
  { intros Hs Hp. destruct Hw as (l0 & pre & post & Hl0 & Hw & _). rewrite Hl in Hl0. injection Hl0 as <-. unfold layer_ok in Hlo. destruct (l_state l); [|done|done].
    destruct Hlo as [_ Hlo]. unfold waiting_of in Hw. rewrite Hp, (Hlo Hp) in Hw. by destruct pre. }
  destruct Hr as [a|a cc j lj Hj Hlj Hx Hb Hst|cc j lj until Hj Hlj Hx Hst Hp Hu|cc j lj until Hj Hlj Hx Hst Hp Hu]; [done|..];
    pose proof Hlj as [Hj0 _]%layer_at_Done; (destruct (decide (i = j)) as [->|Hne]; [|by apply (waits_ext n); [cbn; apply list_lookup_insert_ne; lia|]]);
    rewrite Hl in Hlj; injection Hlj as <-; [|by destruct (Hbusy Hst)..].
  destruct Hw as (l0 & pre & post & Hl0 & Hw & ->). rewrite Hl in Hl0. injection Hl0 as <-.
  exists (set_waiting l (waitingForLayer l ++ [src]) (waitingForPeer l)), pre, (post ++ [src]). split.
  - apply (layer_at_put (set_xbar n (set_cache (n_xbar n) cc)) j l). exact Hl.
  - split; [|done]. unfold waiting_of in *. cbn. rewrite app_assoc, Hw. by rewrite <- app_assoc.
Qed.

(** The layer told the first source of its queue: the next ones advance. *)
Lemma retried_waits now n i p0 r n' p pre post lm : layer_at n i = Done lm -> layer_mid lm -> waitingForLayer lm = pre ++ p :: post ->
  (forall pkt accepts, r = Some (pkt, accepts) -> accepts = true) -> retried now n i p0 r n' -> waits n' i p (length pre).
Proof.
  intros Hl (Hs & Hrel & Hp) Hw Hacc Hr. pose proof Hl as [Hi Hli]%layer_at_Done.
  assert (Hburn : forall n1, layer_at n1 i = Done lm -> waits (put_layer n1 i (burnt now lm)) i p (length pre)).
  { intros n1 Hl1. exists (burnt now lm), pre, post. split; [by apply (layer_at_put n1 i lm)|]. unfold waiting_of, extra. cbn. rewrite Hp. cbn. split; [done|lia]. }
  destruct Hr as [l Hl'|pkt accepts n1 b l Hrc Hok Hl'|pkt accepts n1 b Hrc Hok].
  - rewrite Hl in Hl'. injection Hl' as <-. by apply Hburn.
  - assert (El : layer_at n1 i = layer_at n i); [|rewrite El, Hl in Hl'; injection Hl' as <-; apply Hburn; congruence].
    pose proof Hl' as [_ Hl1]%layer_at_Done. pose proof (no_layer _ _ _ Hok _ _ Hl1) as Hm. rewrite decide_True in Hm by done. destruct Hm as (Hm & _).
    destruct Hrc as [a|a cc j lj Hj Hlj Hx Hb Hst|cc j lj until Hj Hlj Hx Hst Hpj Hu|cc j lj until Hj Hlj Hx Hst Hpj Hu]; [done|..];
      pose proof Hlj as [Hj0 Hlj']%layer_at_Done; (destruct (decide (i = j)) as [->|Hne]; [|apply layer_at_ext; cbn; apply list_lookup_insert_ne; lia]); exfalso.
    + rewrite Hl in Hlj. injection Hlj as <-. done.
    + cbn in Hl1. rewrite list_lookup_insert_eq in Hl1 by (by apply lookup_lt_Some in Hlj'). by injection Hl1 as <-.
    + cbn in Hl1. rewrite list_lookup_insert_eq in Hl1 by (by apply lookup_lt_Some in Hlj'). by injection Hl1 as <-.
  - pose proof (Hacc _ _ eq_refl) as ->. destruct (layer_at_kept _ _ _ _ _ _ _ _ _ Hrc Hl) as [l1 Hl1]. pose proof (layer_IDLE _ _ _ _ Hok Hl1) as Hlo.
    assert (Hne : l_state l1 <> RETRY) by (intros E; unfold layer_ok in Hlo; by rewrite E in Hlo).
    inversion Hrc as [a|a cc j lj Hj Hlj Hx Hb Hst|cc j lj until Hj Hlj Hx Hst Hpj Hu|]; subst.
    + rewrite Hl in Hl1. by injection Hl1 as <-.
    + destruct (decide (i = j)) as [->|Hij]; [rewrite Hl in Hlj; injection Hlj as <-; done|]. exfalso. apply Hne. pose proof Hlj as [Hj0 _]%layer_at_Done.
      apply layer_at_Done in Hl1 as [_ Hl1]. cbn in Hl1. rewrite list_lookup_insert_ne in Hl1 by lia. congruence.
    + destruct (decide (i = j)) as [->|Hij].
      * rewrite Hl in Hlj. injection Hlj as <-. eexists _, pre, post. split; [apply (layer_at_put (set_xbar n (set_cache (n_xbar n) cc)) j lm); exact Hl|].
        unfold waiting_of, extra. cbn. split; [done|lia].
      * exfalso. apply Hne. pose proof Hlj as [Hj0 _]%layer_at_Done. apply layer_at_Done in Hl1 as [_ Hl1]. cbn in Hl1.
        rewrite list_lookup_insert_ne in Hl1 by lia. congruence.
Qed.

Lemma retried_other now n k p0 r n' i p m l lk : i <> k -> layer_at n k = Done lk -> layer_at n i = Done l -> layer_ok now l ->
  retried now n k p0 r n' -> waits n i p m -> waits n' i p m.
Proof.
  intros Hne [Hk _]%layer_at_Done Hl Hlo Hr Hw. pose proof Hl as [Hi _]%layer_at_Done.
  destruct Hr as [l' Hl'|pkt accepts n1 b l' Hrc Hok Hl'|pkt accepts n1 b Hrc Hok].
  - by apply waits_put_ne.
  - apply waits_put_ne; [done..|]. by eapply received_waits.
  - by eapply received_waits.
Qed.

Lemma received_log now n src pkt accepts n' b : received now n src pkt accepts n' b -> n_retried n' = n_retried n.
Proof. by intros []. Qed.
Lemma retried_log now n i p r n' : retried now n i p r n' -> n_retried n' = n_retried n.
Proof. intros []; cbn; try done; by eapply received_log. Qed.

(** The sources told to retry in a step. *)
Lemma stepped_log now n e n' : stepped now n e n' -> exists new, n_retried n' = new ++ n_retried n.
Proof.
  intros [? ? ? ? ? Hr| |? ? ? ? ? ? ? ? ? ? Ht Hr| |? ? ? ? ? ? ? ? ? Ht Hr|]; try by exists [].
  - exists []. by eapply received_log.
  - eexists [_]. by rewrite (retried_log _ _ _ _ _ _ Hr), (te_retried _ _ _ _ _ _ Ht).
  - eexists [_]. by rewrite (retried_log _ _ _ _ _ _ Hr), (te_retried _ _ _ _ _ _ Ht).
Qed.

(** A layer tells the first source of its queue, which may be [p]. *)
Lemma telling_waits now n i p k j p0 l lm n1 r n' : net_ok now None n -> waits n i p k -> telling n j p0 l lm n1 -> retried now n1 j p0 r n' ->
  (j = i -> forall pkt accepts, r = Some (pkt, accepts) -> accepts = true) ->
  (exists new, n_retried n' = new ++ n_retried n /\ p ∈ new) \/ exists k', waits n' i p k' /\ (k' <= k)%nat /\ (j = i -> (k' < k)%nat).
Proof.
  intros Hok Hw Ht Hr Hacc. destruct Ht as [Hl Hwt Hm Ex El Eb Eo Es Er]. pose proof Hl as [Hj Hlj]%layer_at_Done.
  assert (Hlm : layer_at n1 j = Done lm). { apply layer_at_Done. split; [done|]. rewrite El, list_lookup_insert_eq; [done|]. by apply lookup_lt_Some in Hlj. }
  destruct (decide (i = j)) as [->|Hne].
  - destruct Hw as (l0 & pre & post & Hl0 & Hw & ->). rewrite Hl in Hl0. injection Hl0 as <-. rewrite Hwt in Hw. destruct pre as [|q pre]; injection Hw as Hp0 Hw.
    + left. exists [p0]. rewrite (retried_log _ _ _ _ _ _ Hr), Er. split; [done|]. rewrite Hp0. left.
    + right. exists (length pre). split; [apply (retried_waits now n1 j p0 r n' p pre post lm); [done|done|done|by apply Hacc|done]|]. cbn. lia.
  - right. exists k. pose proof Hw as (li & _ & _ & Hli & _). pose proof Hli as [Hi Hli']%layer_at_Done.
    assert (Hsame : n_layers n1 !! Z.to_nat i = n_layers n !! Z.to_nat i) by (rewrite El; apply list_lookup_insert_ne; lia).
    split; [|split; [lia|congruence]]. eapply (retried_other now n1 j p0 r n' i p k li lm); try done.
    + by rewrite (layer_at_ext n n1 i Hsame).
    + by apply (layer_IDLE _ _ _ _ Hok Hli).
    + by apply (waits_ext n).
Qed.

Lemma step_turn now n e n' i p k : net_ok now None n -> stepped now n e n' -> waits n i p k -> accepting i e ->
  (exists new, n_retried n' = new ++ n_retried n /\ p ∈ new) \/
  exists k', waits n' i p k' /\ (k' <= k)%nat /\ (internal i e = true -> (k' < k)%nat).
Proof.
  intros Hok Hst Hw Hacc. pose proof Hw as (l & pre & post & Hl & Hwl & Ek).
  assert (Hacc' : forall r pkt a, (accepting i (Release i r) \/ accepting i (PeerRetry i r)) -> r = Some (pkt, a) -> a = true) by (intros r pkt a [H|H] ->; by apply H).
  destruct Hst as [src pkt accepts n' b Hr|j r lj dm Hlj Hs Hrel Hq|j r p0 lj lm n1 n' Hs Hrel Hp Ht Hr|j r lj p0 Hlj Hs Hp|j r p0 lj lm n1 n' Hs Hp Ht Hr|].
  - right. exists k. split; [|split; [lia|done]]. eapply received_waits; [done|done|by apply (layer_IDLE _ _ _ _ Hok Hl)|done].
  - right. cbn [internal]. destruct (Z.eqb_spec j i) as [->|Hne].
    + rewrite Hl in Hlj. injection Hlj as <-. assert (Hpn : exists q, waitingForPeer l = Some q).
      { destruct (waitingForPeer l) as [q|] eqn:E; [by exists q|]. destruct Hq as [Hq|]; [|done]. unfold waiting_of in Hwl. rewrite E, Hq in Hwl. by destruct pre. }
      destruct Hpn as [q Hq']. exists (length pre + 1)%nat. assert (k = (length pre + 2)%nat) by (rewrite Ek; unfold extra; by rewrite Hq', Hs).
      split; [|lia]. eexists _, pre, post. split; [by apply (layer_at_put n i l)|]. unfold waiting_of, extra in *. cbn. rewrite Hq' in *. done.
    + exists k. pose proof Hlj as [Hj _]%layer_at_Done. pose proof Hl as [Hi _]%layer_at_Done. split; [by apply waits_put_ne|]. split; [lia|done].
  - destruct (telling_waits now n i p k j p0 lj lm n1 r n' Hok Hw Ht Hr) as [H|(k' & H1 & H2 & H3)]; [|by left|].
    { intros ->. intros pkt a. apply Hacc'. by left. }
    right. exists k'. split; [done|]. split; [done|]. cbn. intros E%Z.eqb_eq. by apply H3.
  - right. cbn [internal]. destruct (Z.eqb_spec j i) as [->|Hne].
    + rewrite Hl in Hlj. injection Hlj as <-. exists (length pre). assert (k = (length pre + 2)%nat) by (rewrite Ek; unfold extra; by rewrite Hp, Hs).
      split; [|lia]. eexists _, pre, post. split; [by apply (layer_at_put (paid n i) i l)|]. unfold waiting_of, extra in *. cbn. rewrite Hp in *. cbn in *. split; [done|lia].
    + exists k. pose proof Hlj as [Hj _]%layer_at_Done. pose proof Hl as [Hi _]%layer_at_Done. split; [|split; [lia|done]].
      apply (waits_put_ne (paid n j)); done.
  - destruct (telling_waits now n i p k j p0 lj lm n1 r n' Hok Hw Ht Hr) as [H|(k' & H1 & H2 & H3)]; [|by left|].
    { intros ->. intros pkt a. apply Hacc'. by right. }
    right. exists k'. split; [done|]. split; [done|]. cbn. intros E%Z.eqb_eq. by apply H3.
  - right. exists k. split; [|split; [lia|done]]. exists (Layer_drain l).1, pre, post. pose proof Hl as [Hi Hli]%layer_at_Done. split.
    + apply layer_at_Done. split; [done|]. cbn. by rewrite drained_layers, list_lookup_fmap, Hli.
    + unfold waiting_of, extra in *. destruct (drained_layer l) as (-> & -> & -> & _). done.
Qed.

Lemma run_log now n es now' n' : run now n es now' n' -> net_ok now None n -> exists new, n_retried n' = new ++ n_retried n.
Proof.
  induction 1 as [now n|now n now1 e n1 es now2 n2 Hle Hno Hadm Hst Hrun IH]; intros Hok; [by exists []|].
  destruct (step_ok now1 n e (later_ok _ _ _ Hok Hle Hno) Hadm) as (n' & E & Hs & Hok'). rewrite Hst in E. injection E as <-.
  destruct (IH Hok') as [new Hnew]. destruct (stepped_log _ _ _ _ Hs) as [new1 Hnew1]. exists (new ++ new1). by rewrite Hnew, Hnew1, app_assoc.
Qed.

Lemma run_waits now n es now' n' : run now n es now' n' -> net_ok now None n -> forall i p k, waits n i p k -> Forall (accepting i) es ->
  (k < length (filter (fun e => internal i e = true) es))%nat -> exists new, n_retried n' = new ++ n_retried n /\ p ∈ new.
Proof.
  induction 1 as [now n|now n now1 e n1 es now2 n2 Hle Hno Hadm Hst Hrun IH]; intros Hok i p k Hw Hacc Hk; [cbn in Hk; lia|].
  pose proof (later_ok _ _ _ Hok Hle Hno) as Hok1. destruct (step_ok now1 n e Hok1 Hadm) as (n' & E & Hs & Hok'). rewrite Hst in E. injection E as <-.
  apply Forall_cons in Hacc as [He Hacc]. destruct (step_turn _ _ _ _ _ _ _ Hok1 Hs Hw He) as [(new & Hn & Hp)|(k' & Hw' & Hle' & Hlt)].
  - destruct (run_log _ _ _ _ _ Hrun Hok') as [new' Hn']. exists (new' ++ new). rewrite Hn', Hn, app_assoc. split; [done|]. apply elem_of_app. by right.
  - destruct (IH Hok' i p k' Hw' Hacc) as (new & Hn & Hp).
    + rewrite filter_cons in Hk. destruct (internal i e) eqn:Ei; [rewrite decide_True in Hk by done; specialize (Hlt eq_refl); cbn in Hk; lia|].
      rewrite decide_False in Hk by done. lia.
    + destruct (stepped_log _ _ _ _ Hs) as [new1 Hnew1]. exists (new ++ new1). rewrite Hn, Hnew1, app_assoc. split; [done|]. apply elem_of_app. by left.
Qed.

(** ** One packet at a time *)

Record sent_ok (now : Z) (x : xbar) (n : net) : Prop := {
  so_xbar : exists cc, n_xbar n = set_cache x cc;
  so_sorted : StronglySorted (fun f g => f_layer f = f_layer g -> f_until g <= f_start f) (n_sent n);
  so_target f : f ∈ n_sent n -> target x (f_pkt f) = Done (f_layer f) /\ f_start f < f_until f;
  so_open f l : f ∈ n_sent n -> layer_at n (f_layer f) = Done l -> f_until f <= now \/ exists t, l_release l = Some t /\ f_until f <= t;
}.

Lemma sent_put now x n n' i l l' : sent_ok now x n -> layer_at n i = Done l -> n_layers n' = <[Z.to_nat i := l']> (n_layers n) -> n_sent n' = n_sent n ->
  (exists cc, n_xbar n' = set_cache (n_xbar n) cc) ->
  l_release l' = l_release l \/ l_release l = None \/ l_release l = Some now -> sent_ok now x n'.
Proof.
  intros [[cc Hx] Hs Ht Ho] Hl El Es [cc' Ex] Hrel. pose proof Hl as [Hi Hli]%layer_at_Done. split; rewrite ?Es; try done.
  - exists cc'. by rewrite Ex, Hx.
  - intros f m Hf [Hj Hm]%layer_at_Done. rewrite El in Hm. destruct (decide (f_layer f = i)) as [E|Hne].
    + rewrite E, list_lookup_insert_eq in Hm by (by apply lookup_lt_Some in Hli). injection Hm as <-. destruct (Ho f l Hf) as [H|(t & H1 & H2)]; [by rewrite E|by left|].
      destruct Hrel as [Hrel|[Hrel|Hrel]]; [right; exists t; by rewrite Hrel|congruence|]. left. rewrite Hrel in H1. by injection H1 as ->.
    + rewrite list_lookup_insert_ne in Hm by lia. apply (Ho f m Hf), layer_at_Done. done.
Qed.

Lemma cache_refl x : exists cc, x = set_cache x cc.
Proof. exists (portCache x). by destruct x. Qed.

Lemma sent_here now x n n' i l l' : sent_ok now x n -> layer_at n i = Done l -> n_layers n' = <[Z.to_nat i := l']> (n_layers n) -> n_sent n' = n_sent n ->
  n_xbar n' = n_xbar n -> l_release l' = l_release l \/ l_release l = None \/ l_release l = Some now -> sent_ok now x n'.
Proof. intros Hso Hl El Es Ex. apply (sent_put now x n n' i l l'); try done. rewrite Ex. apply cache_refl. Qed.

Lemma not_busy_release now mid n i l : net_ok now mid n -> layer_at n i = Done l -> l_state l <> BUSY -> l_release l = None.
Proof.
  intros Hok [_ Hl]%layer_at_Done Hs. pose proof (no_layer _ _ _ Hok _ _ Hl) as H. case_decide; [by destruct H as (_ & H & _)|].
  unfold layer_ok in H. destruct (l_state l); [by destruct H|done|done].
Qed.

Lemma received_sent now mid x n src pkt accepts n' b : net_ok now mid n -> sent_ok now x n -> received now n src pkt accepts n' b -> sent_ok now x n'.
Proof.
  intros Hok Hso Hr. destruct Hr as [a|a cc j l Hj Hl Hx Hb Hst|cc j l until Hj Hl Hx Hst Hp Hu|cc j l until Hj Hl Hx Hst Hp Hu]; [done|..].
  - eapply (sent_put now x n _ j l); [done|done|done|done|by eexists|by left].
  - pose proof (not_busy_release _ _ _ _ _ Hok Hl Hst) as Hrel. set (l' := mkL BUSY _ _ _ _ _).
    assert (Hso1 : sent_ok now x (put_layer (set_xbar n (set_cache (n_xbar n) cc)) j l')) by (eapply (sent_put now x n _ j l); [done|done|done|done|by eexists|by right; left]).
    destruct Hso as [[cc0 Ex] Hs Ht Ho], Hso1 as [Hx1 Hs1 Ht1 Ho1]. split; cbn; [done|..].
    + constructor; [done|]. apply Forall_forall. intros g Hg Eg. cbn in *. destruct (Ho g l Hg) as [H|(t & H & _)]; [by rewrite <- Eg|done|congruence].
    + intros f [->|Hf]%elem_of_cons; [|by apply Ht]. cbn. split; [|done]. rewrite <- Hj. unfold target. rewrite Ex. done.
    + intros f m [->|Hf]%elem_of_cons Hm; [|by apply Ho1]. cbn in Hm. right. exists until. split; [|cbn; lia].
      pose proof (layer_at_put (set_xbar n (set_cache (n_xbar n) cc)) j l l' Hl) as E. change (layer_at (put_layer (set_xbar n (set_cache (n_xbar n) cc)) j l') j = Done m) in Hm.
      rewrite E in Hm. by injection Hm as <-.
  - pose proof (not_busy_release _ _ _ _ _ Hok Hl Hst) as Hrel. eapply (sent_put now x n _ j l); [done|done|done|done|by eexists|by right; left].
Qed.

Lemma retried_sent now x n i p r n' : net_ok now (Some (Z.to_nat i)) n -> sent_ok now x n -> retried now n i p r n' -> sent_ok now x n'.
Proof.
  intros Hok Hso Hr. assert (Hburn : forall n1 l, net_ok now (Some (Z.to_nat i)) n1 -> sent_ok now x n1 -> layer_at n1 i = Done l -> sent_ok now x (put_layer n1 i (burnt now l))).
  { intros n1 l Hok1 Hso1 Hl. eapply (sent_here now x n1 _ i l); try done. right; left. pose proof Hl as [_ Hl']%layer_at_Done.
    pose proof (no_layer _ _ _ Hok1 _ _ Hl') as H. rewrite decide_True in H by done. by destruct H as (_ & H & _). }
  destruct Hr as [l Hl|pkt accepts n1 b l Hrc Hok1 Hl|pkt accepts n1 b Hrc Hok1].
  - by apply Hburn.
  - apply Hburn; [done| |done]. exact (received_sent _ _ _ _ _ _ _ _ _ Hok Hso Hrc).
  - exact (received_sent _ _ _ _ _ _ _ _ _ Hok Hso Hrc).
Qed.

Lemma stepped_sent now x n e n' : net_ok now None n -> sent_ok now x n -> stepped now n e n' -> sent_ok now x n'.
Proof.
  intros Hok Hso Hst.
  destruct Hst as [src pkt accepts n' b Hr|j r lj dm Hlj Hs Hrel Hq|j r p0 lj lm n1 n' Hs Hrel Hp Ht Hr|j r lj p0 Hlj Hs Hp|j r p0 lj lm n1 n' Hs Hp Ht Hr|].
  - exact (received_sent _ _ _ _ _ _ _ _ _ Hok Hso Hr).
  - eapply (sent_here now x n _ j lj); try done. by right; right.
  - destruct (telling_ok _ _ _ _ _ _ _ Hok Ht) as [Hok1 _]. apply (retried_sent now x n1 j p0 r n' Hok1); [|done]. destruct Ht as [Hl Hw Hm Ex El _ _ Es _].
    eapply (sent_here now x n n1 j lj lm); try done. by right; right.
  - by eapply (sent_here now x n _ j lj); try done; left.
  - destruct (telling_ok _ _ _ _ _ _ _ Hok Ht) as [Hok1 _]. apply (retried_sent now x n1 j p0 r n' Hok1); [|done]. destruct Ht as [Hl Hw Hm Ex El _ _ Es _].
    eapply (sent_here now x n n1 j lj lm); try done. right; left. apply (not_busy_release now None n j lj Hok Hl). by rewrite Hs.
  - destruct Hso as [Hx Hs Ht Ho]. split; [done|done|done|]. intros f l Hf [Hi Hl]%layer_at_Done. cbn in Hf, Hl. rewrite drained_layers in Hl.
    apply list_lookup_fmap_Some in Hl as (l0 & -> & Hl0). cbn. destruct (drained_layer l0) as (_ & _ & _ & ->). apply (Ho f l0 Hf). by apply layer_at_Done.
Qed.

Lemma run_sent x now n es now' n' : run now n es now' n' -> net_ok now None n -> sent_ok now x n -> sent_ok now' x n'.
Proof.
  induction 1 as [now n|now n now1 e n1 es now2 n2 Hle Hno Hadm Hst Hrun IH]; intros Hok Hso; [done|].
  pose proof (later_ok _ _ _ Hok Hle Hno) as Hok1. destruct (step_ok now1 n e Hok1 Hadm) as (n' & E & Hs & Hok'). rewrite Hst in E. injection E as <-.
  apply (IH Hok'). apply (stepped_sent now1 x n e n1 Hok1); [|done]. destruct Hso as [H1 H2 H3 H4]. split; try done. intros f l Hf Hl.
  destruct (H4 f l Hf Hl) as [H|H]; [left; lia|by right].
Qed.
End protocol.

(** The incremental update of the clock finds the next edge. *)
Lemma clock_update_edge P t0 now : 0 < P -> t0 <= now -> clock_update P (clockEdge P t0 0) now = clockEdge P now 0.
Proof.
  intros HP Hle. unfold clock_update, clockEdge, div_ceil. rewrite !Z.mul_0_r, !Z.add_0_r.
  pose proof (Z.div_mod (t0 + P - 1) P ltac:(lia)) as E0. pose proof (Z.mod_pos_bound (t0 + P - 1) P HP) as B0. set (q := (t0 + P - 1) / P) in *.
  assert (Hedge : forall k, now <= k * P -> k * P < now + P -> (now + P - 1) / P = k).
  { intros k H1 H2. symmetry. apply (Z.div_unique _ _ k (now + P - 1 - k * P)); [left; lia|lia]. }
  destruct (Z.leb_spec now (q * P)); [f_equal; symmetry; apply Hedge; lia|].
  destruct (Z.leb_spec now (q * P + P)); [rewrite (Hedge (q + 1)) by lia; lia|].
  replace (now - (q * P + P) + P - 1) with (now + P - 1 + - (q + 1) * P) by lia. rewrite Z.div_add by lia. lia.
Qed.

(** ** The theorems *)

(** C14: no assertion of the crossbar fails and no wake-up is lost.  From the initial state, under any sequence of
    requests, releases, retries and drains that the port protocol admits, the next admissible call returns, a packet sent by a retried source
    inside the call included, and every source that was refused is in the queue of a layer whose release is scheduled or whose
    destination owes a retry. *)
Theorem xbar_protocol_safe c sd x k es now n : conf_ok c -> xbar_ok x -> gotAllAddrRanges x = true -> run c sd 0 (net_init x k) es now n ->
  (forall now1 e, now <= now1 -> no_later n now1 -> admissible sd now1 n e -> exists n', step c sd now1 n e = Done n') /\
  (forall p, p ∈ n_blocked n -> exists i l, layer_at n i = Done l /\ p ∈ waiting_of l /\
     ((exists t, l_release l = Some t /\ now <= t) \/ i ∈ n_owes n)).
Proof.
  intros Hc Hx Hall Hrun. pose proof (run_ok c sd Hc _ _ _ _ _ Hrun (init_ok x k Hx Hall)) as Hok. split.
  - intros now1 e Hle Hno Hadm. destruct (step_ok c sd Hc now1 n e (later_ok _ _ _ Hok Hle Hno) Hadm) as (n' & H & _). by exists n'.
  - intros p Hp. by apply (blocked_woken now n p Hok).
Qed.

(** C15: a waiting source is not starved.  If a source waits at a layer with a queue of [q] sources, and the destination accepts the packets of
    the sources that it makes the layer retry, then whatever else happens the source is told to retry before the layer is released or receives a retry
    [q + 2] times. *)
Theorem xbar_no_starvation c sd x k es0 now n i l p es now' n' : conf_ok c -> xbar_ok x -> gotAllAddrRanges x = true -> run c sd 0 (net_init x k) es0 now n ->
  layer_at n i = Done l -> p ∈ waiting_of l -> run c sd now n es now' n' -> Forall (accepting i) es ->
  (length (waiting_of l) + 1 < length (filter (fun e => internal i e = true) es))%nat ->
  exists new, n_retried n' = new ++ n_retried n /\ p ∈ new.
Proof.
  intros Hc Hx Hall Hrun0 Hl Hp Hrun Hacc Hcount. pose proof (run_ok c sd Hc _ _ _ _ _ Hrun0 (init_ok x k Hx Hall)) as Hok.
  apply list_elem_of_split in Hp as (pre & post & Hw).
  apply (run_waits c sd Hc now n es now' n' Hrun Hok i p (length pre + extra l)); [by exists l, pre, post|done|].
  rewrite Hw, length_app in Hcount. cbn in Hcount. assert (extra l <= 2)%nat by (unfold extra; repeat case_match; lia). lia.
Qed.

(** the packets that are forwarded through a layer occupy it one after the other, each in a window of ticks of its own,
    and every packet goes to the port that its address selects. *)
Theorem xbar_one_packet_at_a_time c sd x k es now n : conf_ok c -> xbar_ok x -> gotAllAddrRanges x = true -> run c sd 0 (net_init x k) es now n ->
  StronglySorted (fun f g => f_layer f = f_layer g -> f_until g <= f_start f) (n_sent n) /\
  forall f, f ∈ n_sent n -> target sd x (f_pkt f) = Done (f_layer f) /\ f_start f < f_until f.
Proof.
  intros Hc Hx Hall Hrun. pose proof (init_ok x k Hx Hall) as Hok.
  destruct (run_sent c sd Hc x _ _ _ _ _ Hrun Hok) as [_ H1 H2 _]; [|by split].
  split; cbn; [exists (portCache x); by destruct x|apply SSorted_nil|intros f Hf; by apply elem_of_nil in Hf|intros f l Hf; by apply elem_of_nil in Hf].
Qed.

(** *** Examples *)

Definition two_devices : xbar :=
  mkX [(RangeIn 0 99, 0); (RangeIn 100 199, 1)] [] (RangeIn 1 0) InvalidPortID false
    (mkPC false 0 (RangeIn 1 0), mkPC false 0 (RangeIn 1 0), mkPC false 0 (RangeIn 1 0)) [true; true] true.
Definition slow_clock : xconf := mkXC 1000 1 8.
Definition write_to (a : Z) : xpkt := mkXP a 8 true false false 0 0 0.

Lemma slow_clock_ok : conf_ok slow_clock.
Proof. by split. Qed.

Lemma two_devices_ok : xbar_ok two_devices.
Proof.
  split.
  - apply sorted_tree_ok; cbn.
    + repeat constructor.
    + intros e He. apply elem_of_cons in He as [->|He%list_elem_of_singleton]; [|subst e]; (split; [cbn; lia|]); (split; [cbn; lia|by left]).
    + intros e f He Hf Hne. apply elem_of_cons in He as [->|He%list_elem_of_singleton], Hf as [->|Hf%list_elem_of_singleton]; subst; try done;
        left; cbn; (split; [lia|by left]).
  - intros e He. apply elem_of_cons in He as [->|He%list_elem_of_singleton]; [|subst e]; done.
  - done.
Qed.

(** Decides the side conditions of a step of a concrete run. *)
Ltac pkt_ok_tac := split; [done|cbn; lia|cbn; lia|eexists; split; [reflexivity|cbn; lia]|done].
Ltac run_tac t :=
  eapply (run_cons _ _ _ _ t);
  [ lia
  | let i := fresh in let l := fresh in let u := fresh in let H1 := fresh in let H2 := fresh in
    intros i l u H1 H2; destruct i as [|[|i]]; cbn in H1; [injection H1 as <-|injection H1 as <-|done]; cbn in H2; first [discriminate H2|injection H2 as <-; lia]
  | cbn [admissible]; first [ exact I | split; [first [by eexists|apply (bool_decide_unpack _); by vm_compute]|first [exact I|pkt_ok_tac]] ]
  | vm_compute; reflexivity
  | ].

(** Sources 1 and 2 wait behind source 0, source 3 is refused by its destination; source 1 is silent when it is told to retry and sends later,
    2 and 3 send at once. *)
Definition first_events : list event :=
  [Send 0 (write_to 5) true; Send 1 (write_to 6) true; Send 2 (write_to 7) true; Send 3 (write_to 150) false].
Definition later_events : list event :=
  [Release 1 None; Release 0 None; Release 0 (Some (write_to 7, true)); PeerRetry 1 (Some (write_to 150, true)); Release 0 None;
   Send 1 (write_to 6) true; Release 1 None; Release 0 None].

Lemma xbar_run_example : exists n n', run slow_clock Req 0 (net_init two_devices 2) first_events 0 n /\
  layer_at n 0 = Done (mkL BUSY false [1; 2] None (Some 2000) 2000) /\ n_blocked n = {[1; 2; 3]} /\ n_retried n = [] /\
  run slow_clock Req 0 n later_events 7000 n' /\ n_retried n' = [3; 2; 1] /\
  n_sent n' = [mkF 0 1 (write_to 6) 5000 7000; mkF 1 3 (write_to 150) 4000 6000; mkF 0 2 (write_to 7) 3000 5000; mkF 0 0 (write_to 5) 0 2000].
Proof.
  eexists _, _. split; [run_tac 0; run_tac 0; run_tac 0; run_tac 0; apply run_nil|].
  split; [reflexivity|]. split; [apply (bool_decide_unpack _); by vm_compute|]. split; [reflexivity|]. split.
  - run_tac 1000. run_tac 2000. run_tac 3000. run_tac 4000. run_tac 5000. run_tac 5000. run_tac 6000. run_tac 7000. apply run_nil.
  - split; reflexivity.
Qed.

Lemma run_concat c sd now n es now1 n1 es' now2 n2 : run c sd now n es now1 n1 -> run c sd now1 n1 es' now2 n2 -> run c sd now n (es ++ es') now2 n2.
Proof. induction 1; intros H'; [done|]. cbn. eapply run_cons; eauto. Qed.

Lemma xbar_protocol_safe_witness : exists n, run slow_clock Req 0 (net_init two_devices 2) first_events 0 n /\
  exists i l, layer_at n i = Done l /\ 3 ∈ waiting_of l /\ ((exists t, l_release l = Some t /\ 0 <= t) \/ i ∈ n_owes n).
Proof.
  destruct xbar_run_example as (n & _ & Hrun & _ & Hb & _). exists n. split; [exact Hrun|].
  apply (proj2 (xbar_protocol_safe slow_clock Req two_devices 2 first_events 0 n slow_clock_ok two_devices_ok eq_refl Hrun) 3).
  rewrite Hb. apply (bool_decide_unpack _). by vm_compute.
Defined.

Lemma xbar_no_starvation_witness : exists n n', run slow_clock Req 0 n later_events 7000 n' /\ n_retried n = [] /\ 2 ∈ n_retried n'.
Proof.
  destruct xbar_run_example as (n & n' & Hrun & Hl & _ & Hn & Hrun' & _). exists n, n'. split; [exact Hrun'|]. split; [exact Hn|].
  destruct (xbar_no_starvation slow_clock Req two_devices 2 first_events 0 n 0 _ 2 later_events 7000 n' slow_clock_ok two_devices_ok eq_refl Hrun Hl)
    as (new & -> & Hin); [right; left|exact Hrun'|repeat (apply Forall_cons_2; [done|]); apply Forall_nil_2|apply Nat.ltb_lt; reflexivity|]. apply elem_of_app. left. exact Hin.
Defined.

Lemma xbar_one_packet_at_a_time_witness : exists n, length (n_sent n) = 4%nat /\
  StronglySorted (fun f g => f_layer f = f_layer g -> f_until g <= f_start f) (n_sent n).
Proof.
  destruct xbar_run_example as (n & n' & Hrun & _ & _ & _ & Hrun' & _ & Hs). exists n'. split; [rewrite Hs; reflexivity|].
  exact (proj1 (xbar_one_packet_at_a_time slow_clock Req two_devices 2 _ 7000 n' slow_clock_ok two_devices_ok eq_refl (run_concat _ _ _ _ _ _ _ _ _ _ Hrun Hrun'))).
Defined.

(** drain tests only whether the layers are idle.  After a destination has refused a packet and the layer has been released, the crossbar answers
    that nothing is left to drain, although the source still waits for the retry and its packet has not been delivered. *)
Theorem xbar_drained_while_waiting : exists n, run slow_clock Req 0 (net_init two_devices 2) [Send 3 (write_to 150) false; Release 1 None] 1000 n /\
  XBar_drain n = (n, 0) /\ 3 ∈ n_blocked n /\ n_sent n = [].
Proof.
  eexists. split; [run_tac 0; run_tac 1000; apply run_nil|]. split; [reflexivity|]. split; [|reflexivity]. apply (bool_decide_unpack _). by vm_compute.
Qed.
