(* ===== verification/EventQ.v ===== *)
(** * The event queue of the simulator

    Models src/SMC/GEM5/gem5/src/sim: eventq.hh, eventq_impl.hh and eventq.cc, and the loop of simulate.cc that runs the events of a
    queue.  A queue is a linked list of bins, one for each tick and priority, and a bin is a stack of events: [nextBin] links the tops of the
    stacks and is stale below them, [nextInBin] links the events of a stack.  Events are objects at addresses; an access to an address
    without an event is [Wild], a failed assertion or a panic is [Halt], and a loop that exceeds the number of events is [Wild].
    What an event does when it is processed is a program of operations on the queue, chosen by a parameter.

    The theorems show that the queue holds the pending events in the order of tick and priority, the last scheduled first among
    equals; which calls succeed, with which effect; that the time of the simulation never goes back; what [debugVerify] answers; that queues which
    receive the same global events run them in the same order; and how an event in the asynchronous list is lost to [deschedule]. *)

From stdpp Require Import gmap sets.
From S2P Require Import Prelude.

(** ** Flags *)

Definition Squashed : Z := 0x0001.
Definition Scheduled : Z := 0x0002.
Definition AutoDelete : Z := 0x0004.
Definition AutoSerialize : Z := 0x0008.
Definition IsExitEvent : Z := 0x0010.
Definition IsMainQueue : Z := 0x0020.
Definition Initialized : Z := 0x7a40.
Definition InitMask : Z := 0xffc0.
Definition PublicWrite : Z := 0x001d.

Definition isSet (f m : Z) : bool := negb (Z.land f m =? 0).
Definition set_flags (f m : Z) : Z := Z.lor f m.
Definition clear_flags (f m : Z) : Z := Z.land f (Z.lnot m).

(** ** Events *)

Record event := mkEv { nextBin : Z; nextInBin : Z; e_when : Z; e_priority : Z; e_flags : Z; e_queue : Z }.

Definition initialized (ev : event) : bool := Z.land (e_flags ev) InitMask =? Initialized.
Definition scheduled (ev : event) : bool := isSet (e_flags ev) Scheduled.
Definition squashed (ev : event) : bool := isSet (e_flags ev) Squashed.

(** The constructor asserts that the flags are public. *)
Definition Event_new (p f : Z) : sim event :=
  _ ← check (Z.land f (Z.lnot PublicWrite) =? 0);
  Done (mkEv 0 0 0 p (Z.lor Initialized f) 0).

(** [operator<], [<=] and [==] *)
Definition lt_event (l r : event) : bool := (e_when l <? e_when r) || ((e_when l =? e_when r) && (e_priority l <? e_priority r)).
Definition le_event (l r : event) : bool := (e_when l <? e_when r) || ((e_when l =? e_when r) && (e_priority l <=? e_priority r)).
Definition eq_event (l r : event) : bool := (e_when l =? e_when r) && (e_priority l =? e_priority r).

Definition with_links (b s : Z) (ev : event) : event := mkEv b s (e_when ev) (e_priority ev) (e_flags ev) (e_queue ev).
Definition with_nextBin (b : Z) (ev : event) : event := with_links b (nextInBin ev) ev.
Definition with_nextInBin (s : Z) (ev : event) : event := with_links (nextBin ev) s ev.
Definition with_flags (f : Z) (ev : event) : event := mkEv (nextBin ev) (nextInBin ev) (e_when ev) (e_priority ev) f (e_queue ev).
(** [setWhen] *)
Definition setWhen (w q : Z) (ev : event) : event := mkEv (nextBin ev) (nextInBin ev) w (e_priority ev) (e_flags ev) q.

(** ** The queue *)

Record eventq := mkQ {
  q_self : Z;
  q_events : gmap Z event;
  q_head : Z;
  q_curTick : Z;
  q_async : list Z;
}.

Definition EventQueue_new (self : Z) (h : gmap Z event) : eventq := mkQ self h 0 0 [].

Definition q_set (q : eventq) (h : gmap Z event) (hd : Z) : eventq := mkQ (q_self q) h hd (q_curTick q) (q_async q).
Definition q_update (q : eventq) (e : Z) (f : event -> event) : eventq := q_set q (alter f e (q_events q)) (q_head q).
Definition setCurTick (q : eventq) (t : Z) : eventq := mkQ (q_self q) (q_events q) (q_head q) t (q_async q).
Definition set_async (q : eventq) (l : list Z) : eventq := mkQ (q_self q) (q_events q) (q_head q) (q_curTick q) l.
Definition q_empty (q : eventq) : bool := q_head q =? 0.
Definition q_fuel (h : gmap Z event) : nat := S (size h).

(** The event becomes the top of a new stack before [curr], or of the stack of [curr]. *)
Definition insertBefore (h : gmap Z event) (e curr : Z) : sim (gmap Z event * Z) :=
  ev ← elem (h !! e);
  if curr =? 0 then Done (<[e := with_links curr 0 ev]> h, e)
  else
    cv ← elem (h !! curr);
    if lt_event ev cv then Done (<[e := with_links curr 0 ev]> h, e)
    else Done (<[e := with_links (nextBin cv) curr ev]> h, e).

(** [while (curr && *curr < *event)] along the bins *)
Fixpoint find_bin (fuel : nat) (h : gmap Z event) (ev : event) (prev curr : Z) : sim (Z * Z) :=
  if curr =? 0 then Done (prev, curr)
  else
    match fuel with
    | O => Wild
    | S fuel' =>
        cv ← elem (h !! curr);
        if lt_event cv ev then find_bin fuel' h ev curr (nextBin cv) else Done (prev, curr)
    end.

Definition insert (q : eventq) (e : Z) : sim eventq :=
  let h := q_events q in
  ev ← elem (h !! e);
  if q_empty q then '(h', hd) ← insertBefore h e (q_head q); Done (q_set q h' hd)
  else
    hv ← elem (h !! q_head q);
    if le_event ev hv then '(h', hd) ← insertBefore h e (q_head q); Done (q_set q h' hd)
    else
      '(prev, curr) ← find_bin (q_fuel h) h ev (q_head q) (nextBin hv);
      '(h', n) ← insertBefore h e curr;
      pv ← elem (h' !! prev);
      Done (q_set q (<[prev := with_nextBin n pv]> h') (q_head q)).

(** The loop of [removeItem] below the top of the stack. *)
Fixpoint remove_below (fuel : nat) (h : gmap Z event) (e curr next : Z) : sim (gmap Z event) :=
  if next =? e then
    nv ← elem (h !! next); cv ← elem (h !! curr);
    Done (<[curr := with_nextInBin (nextInBin nv) cv]> h)
  else if next =? 0 then Halt
  else
    match fuel with
    | O => Wild
    | S fuel' => nv ← elem (h !! next); remove_below fuel' h e next (nextInBin nv)
    end.

Definition removeItem (h : gmap Z event) (e top : Z) : sim (gmap Z event * Z) :=
  tv ← elem (h !! top);
  let next := nextInBin tv in
  if e =? top then
    if next =? 0 then Done (h, nextBin tv)
    else nv ← elem (h !! next); Done (<[next := with_nextBin (nextBin tv) nv]> h, next)
  else h' ← remove_below (q_fuel h) h e top next; Done (h', top).

Definition remove (q : eventq) (e : Z) : sim eventq :=
  let h := q_events q in
  if q_empty q then Halt
  else
    ev ← elem (h !! e);
    _ ← check (e_queue ev =? q_self q);
    hv ← elem (h !! q_head q);
    if eq_event hv ev then '(h', hd) ← removeItem h e (q_head q); Done (q_set q h' hd)
    else
      '(prev, curr) ← find_bin (q_fuel h) h ev (q_head q) (nextBin hv);
      if curr =? 0 then Halt
      else
        cv ← elem (h !! curr);
        if negb (eq_event cv ev) then Halt
        else
          '(h', n) ← removeItem h e curr;
          pv ← elem (h' !! prev);
          Done (q_set q (<[prev := with_nextBin n pv]> h') (q_head q)).

Definition asyncInsert (q : eventq) (e : Z) : eventq := set_async q (q_async q ++ [e]).

(** [handleAsyncInsertions] *)
Fixpoint insert_all (q : eventq) (l : list Z) : sim eventq :=
  match l with [] => Done q | e :: l' => q' ← insert q e; insert_all q' l' end.
Definition handleAsyncInsertions (q : eventq) : sim eventq := q' ← insert_all q (q_async q); Done (set_async q' []).

(** The destructor of an event. *)
Definition delete_event (q : eventq) (e : Z) : sim eventq :=
  ev ← elem (q_events q !! e); _ ← check (negb (scheduled ev));
  Done (q_set q (delete e (q_events q)) (q_head q)).

(** [async]: the call comes from another thread in parallel mode, or the event is global. *)
Definition schedule (q : eventq) (e w : Z) (async : bool) : sim eventq :=
  ev ← elem (q_events q !! e);
  _ ← check (q_curTick q <=? w); _ ← check (negb (scheduled ev)); _ ← check (initialized ev);
  let q1 := q_update q e (setWhen w (q_self q)) in
  q2 ← (if async then Done (asyncInsert q1 e) else insert q1 e);
  Done (q_update q2 e (fun ev => with_flags (set_flags (e_flags ev) Scheduled) ev)).

Definition deschedule (q : eventq) (e : Z) : sim eventq :=
  ev ← elem (q_events q !! e);
  _ ← check (scheduled ev); _ ← check (initialized ev);
  q1 ← remove q e;
  let q2 := q_update q1 e (fun ev => with_flags (clear_flags (clear_flags (e_flags ev) Squashed) Scheduled) ev) in
  if isSet (e_flags ev) AutoDelete then delete_event q2 e else Done q2.

Definition reschedule (q : eventq) (e w : Z) (always : bool) : sim eventq :=
  ev ← elem (q_events q !! e);
  _ ← check (q_curTick q <=? w); _ ← check (always || scheduled ev); _ ← check (initialized ev);
  q1 ← (if scheduled ev then remove q e else Done q);
  q2 ← insert (q_update q1 e (setWhen w (q_self q))) e;
  Done (q_update q2 e (fun ev => with_flags (set_flags (clear_flags (e_flags ev) Squashed) Scheduled) ev)).

(** ** Running the events *)

(** What an event may do to the queue and to the events when it is processed. *)
Inductive eop :=
  | OSchedule (e w : Z)
  | ODeschedule (e : Z)
  | OReschedule (e w : Z) (always : bool)
  | OSquash (e : Z)
  | ONew (e p f : Z)
  | ODelete (e : Z).

Definition exec_eop (q : eventq) (o : eop) : sim eventq :=
  match o with
  | OSchedule e w => schedule q e w false
  | ODeschedule e => deschedule q e
  | OReschedule e w always => reschedule q e w always
  | OSquash e => _ ← elem (q_events q !! e); Done (q_update q e (fun ev => with_flags (set_flags (e_flags ev) Squashed) ev))
  | ONew e p f =>
      if (e =? 0) || bool_decide (is_Some (q_events q !! e)) then Wild
      else ev ← Event_new p f; Done (q_set q (<[e := ev]> (q_events q)) (q_head q))
  | ODelete e => delete_event q e
  end.
Fixpoint exec_eops (q : eventq) (l : list eop) : sim eventq :=
  match l with [] => Done q | o :: l' => q' ← exec_eop q o; exec_eops q' l' end.

(** [serviceOne] takes the head [hv] off the queue. *)
Definition pop_head (q : eventq) (hv : event) : sim eventq :=
  let next := nextInBin hv in
  let q1 := q_update q (q_head q) (fun ev => with_flags (clear_flags (e_flags ev) Scheduled) ev) in
  if next =? 0 then Done (q_set q1 (q_events q1) (nextBin hv))
  else nv ← elem (q_events q1 !! next); Done (q_set q1 (<[next := with_nextBin (nextBin hv) nv]> (q_events q1)) next).

Section running.
Context (process : Z -> eventq -> list eop).

(** The event returned is an exit event. *)
Definition serviceOne (q : eventq) : sim (eventq * option Z) :=
  let e := q_head q in
  hv ← elem (q_events q !! e);
  q2 ← pop_head q hv;
  '(q3, exit) ←
    (if squashed hv then Done (q_update q2 e (fun ev => with_flags (clear_flags (e_flags ev) Squashed) ev), false)
     else
       q3 ← exec_eops (setCurTick q2 (e_when hv)) (process e (setCurTick q2 (e_when hv)));
       ev ← elem (q_events q3 !! e);
       if isSet (e_flags ev) IsExitEvent then
         _ ← check (negb (isSet (e_flags ev) AutoDelete) || negb (isSet (e_flags ev) IsMainQueue)); Done (q3, true)
       else Done (q3, false));
  if (exit : bool) then Done (q3, Some e)
  else
    ev ← elem (q_events q3 !! e);
    if isSet (e_flags ev) AutoDelete && negb (scheduled ev) then q4 ← delete_event q3 e; Done (q4, None)
    else Done (q3, None).

(** [serviceEvents]: [None] if the loop was cut by [fuel]. *)
Fixpoint serviceEvents (fuel : nat) (q : eventq) (w : Z) : sim (option eventq) :=
  if q_empty q then Done (Some (setCurTick q w))
  else
    hv ← elem (q_events q !! q_head q);
    if w <? e_when hv then Done (Some (setCurTick q w))
    else
      match fuel with
      | O => Done None
      | S fuel' => '(q', _) ← serviceOne q; serviceEvents fuel' q' w
      end.

(** [doSimLoop] without the interrupts of the user, for at most [fuel] events. *)
Fixpoint sim_loop (fuel : nat) (q : eventq) : sim (eventq * option Z) :=
  match fuel with
  | O => Done (q, None)
  | S fuel' =>
      _ ← check (negb (q_empty q));
      hv ← elem (q_events q !! q_head q);
      _ ← check (q_curTick q <=? e_when hv);
      '(q', r) ← serviceOne q;
      match r with Some e => Done (q', Some e) | None => sim_loop fuel' q' end
  end.
Definition doSimLoop (fuel : nat) (q : eventq) : sim (eventq * option Z) := q' ← handleAsyncInsertions q; sim_loop fuel q'.
End running.

(** ** Traversals *)

(** The stack below [p], then the events of all bins, in the order in which [dump], [serialize] and [debugVerify] visit them. *)
Fixpoint walk_stack (fuel : nat) (h : gmap Z event) (p : Z) : sim (list Z) :=
  if p =? 0 then Done []
  else match fuel with O => Wild | S fuel' => ev ← elem (h !! p); l ← walk_stack fuel' h (nextInBin ev); Done (p :: l) end.
Fixpoint walk_bins (fuel : nat) (h : gmap Z event) (p : Z) : sim (list Z) :=
  if p =? 0 then Done []
  else
    match fuel with
    | O => Wild
    | S fuel' => ev ← elem (h !! p); l ← walk_stack (q_fuel h) h p; l' ← walk_bins fuel' h (nextBin ev); Done (l ++ l')
    end.
Definition walk (q : eventq) : sim (list Z) := walk_bins (q_fuel (q_events q)) (q_events q) (q_head q).

(** The events that [serialize] writes to a checkpoint. *)
Definition serialize (q : eventq) : sim (list Z) :=
  l ← walk q; Done (filter (fun e => from_option (fun ev => isSet (e_flags ev) AutoSerialize) false (q_events q !! e) = true) l).

(** [debugVerify]: the events seen so far with the tick and the priority of the last one; [None] when a check fails. *)
Definition vstate : Type := gset Z * Z * Z.
Definition verify_one (st : vstate) (e : Z) (ev : event) : option vstate :=
  let '(seen, time, priority) := st in
  if e_when ev <? time then None
  else if (e_when ev =? time) && (e_priority ev <? priority) then None
  else if bool_decide (e ∈ seen) then None
  else Some ({[e]} ∪ seen, e_when ev, e_priority ev).
Fixpoint verify_stack (fuel : nat) (h : gmap Z event) (st : vstate) (p : Z) : sim (option vstate) :=
  if p =? 0 then Done (Some st)
  else
    match fuel with
    | O => Wild
    | S fuel' =>
        ev ← elem (h !! p);
        match verify_one st p ev with None => Done None | Some st' => verify_stack fuel' h st' (nextInBin ev) end
    end.
Fixpoint verify_bins (fuel : nat) (h : gmap Z event) (st : vstate) (p : Z) : sim bool :=
  if p =? 0 then Done true
  else
    match fuel with
    | O => Wild
    | S fuel' =>
        ev ← elem (h !! p);
        r ← verify_stack (q_fuel h) h st p;
        match r with None => Done false | Some st' => verify_bins fuel' h st' (nextBin ev) end
    end.
Definition debugVerify (q : eventq) : sim bool := verify_bins (q_fuel (q_events q)) (q_events q) (∅, 0, 0) (q_head q).

(** ** The order of events *)

(** Tick and priority. *)
Definition ekey : Type := Z * Z.
Definition klt (a b : ekey) : Prop := a.1 < b.1 \/ (a.1 = b.1 /\ a.2 < b.2).
#[export] Instance klt_dec a b : Decision (klt a b).
Proof. unfold klt. apply _. Defined.

Definition kof (ev : event) : ekey := (e_when ev, e_priority ev).
Definition key (h : gmap Z event) (e : Z) : ekey := from_option kof (0, 0) (h !! e).
Definition nb (h : gmap Z event) (e : Z) : Z := from_option nextBin 0 (h !! e).
Definition nib (h : gmap Z event) (e : Z) : Z := from_option nextInBin 0 (h !! e).

Lemma klt_trans a b c : klt a b -> klt b c -> klt a c.
Proof. unfold klt. lia. Qed.
Lemma klt_irrefl a : ~ klt a a.
Proof. unfold klt. lia. Qed.
Lemma klt_total a b : klt a b \/ a = b \/ klt b a.
Proof.
  destruct a as [a1 a2], b as [b1 b2]. unfold klt. cbn. destruct (Z.lt_trichotomy a1 b1) as [|[->|]]; [lia| |lia].
  destruct (Z.lt_trichotomy a2 b2) as [|[->|]]; [lia|by right; left|lia].
Qed.

Lemma lt_event_spec l r : lt_event l r = bool_decide (klt (kof l) (kof r)).
Proof. unfold lt_event, klt, kof. cbn. apply eq_true_iff_eq. rewrite bool_decide_eq_true, orb_true_iff, andb_true_iff, !Z.ltb_lt, Z.eqb_eq. done. Qed.
Lemma le_event_spec l r : le_event l r = bool_decide (~ klt (kof r) (kof l)).
Proof. unfold le_event, klt, kof. cbn. apply eq_true_iff_eq. rewrite bool_decide_eq_true, orb_true_iff, andb_true_iff, !Z.ltb_lt, Z.eqb_eq, Z.leb_le. lia. Qed.
Lemma eq_event_spec l r : eq_event l r = bool_decide (kof l = kof r).
Proof. unfold eq_event, kof. apply eq_true_iff_eq. rewrite bool_decide_eq_true, andb_true_iff, !Z.eqb_eq. split; [by intros [-> ->]|by intros [= -> ->]]. Qed.

(** The pending events in the order of service; a new event is put before the first one that is not earlier. *)
Fixpoint place (x : Z * ekey) (l : list (Z * ekey)) : list (Z * ekey) :=
  match l with
  | [] => [x]
  | y :: l' => if decide (klt y.2 x.2) then y :: place x l' else x :: l
  end.
Definition pend (h : gmap Z event) (l : list Z) : list (Z * ekey) := (fun e => (e, key h e)) <$> l.

Lemma place_app x l1 l2 : Forall (fun y => klt y.2 x.2) l1 -> (forall y, head l2 = Some y -> ~ klt y.2 x.2) -> place x (l1 ++ l2) = l1 ++ x :: l2.
Proof.
  intros H1 H2. induction H1 as [|y l1 Hy _ IH]; cbn.
  - destruct l2 as [|y l2]; [done|]. cbn. rewrite decide_False; [done|]. by apply H2.
  - rewrite decide_True by done. by rewrite IH.
Qed.

(** ** The shape of the queue *)

(** The stack that starts at [p]. *)
Fixpoint inbin (h : gmap Z event) (p : Z) (b : list Z) : Prop :=
  match b with [] => p = 0 | e :: b' => p = e /\ inbin h (nib h e) b' end.
(** The bins from [p] until the pointer [r]. *)
Fixpoint bseg (h : gmap Z event) (p : Z) (bs : list (list Z)) (r : Z) : Prop :=
  match bs with [] => p = r | b :: bs' => b <> [] /\ inbin h p b /\ bseg h (nb h p) bs' r end.

Fixpoint ordered (kf : Z -> ekey) (bs : list (list Z)) : Prop :=
  match bs with
  | [] => True
  | b :: bs' => (forall x y, x ∈ b -> y ∈ b -> kf x = kf y) /\ (forall x y, x ∈ b -> y ∈ concat bs' -> klt (kf x) (kf y)) /\ ordered kf bs'
  end.

Lemma elem_of_concat_bins (x : Z) bs : x ∈ concat bs <-> exists b, b ∈ bs /\ x ∈ b.
Proof.
  induction bs as [|b bs IH]; cbn; [split; [by intros ?%elem_of_nil|intros (? & ?%elem_of_nil & _); done]|].
  rewrite elem_of_app, IH. split; [intros [H|(c & H1 & H2)]; [exists b|exists c]; (split; [|done]); [by left|by right]|].
  intros (c & [->|Hc]%elem_of_cons & H); [by left|right; eauto].
Qed.

Lemma inbin_frame h h' p b : (forall x, x ∈ b -> nib h' x = nib h x) -> inbin h p b -> inbin h' p b.
Proof.
  revert p. induction b as [|e b IH]; intros p Hf; [done|]. intros [-> Hb]. split; [done|]. rewrite Hf by left. apply IH; [|done]. intros x Hx. apply Hf. by right.
Qed.

Lemma inbin_head h p b : inbin h p b -> b <> [] -> head b = Some p.
Proof. destruct b; [done|]. by intros [-> _]. Qed.

Lemma bseg_frame h h' p bs r : (forall x, x ∈ concat bs -> nib h' x = nib h x /\ nb h' x = nb h x) -> bseg h p bs r -> bseg h' p bs r.
Proof.
  revert p. induction bs as [|b bs IH]; intros p Hf; [done|]. intros (Hne & Hb & Hs). cbn in *. split; [done|]. split.
  - eapply inbin_frame; [|done]. intros x Hx. apply Hf. apply elem_of_app. by left.
  - destruct b as [|e b]; [done|]. destruct Hb as [-> Hb]. destruct (Hf e) as [_ ->]; [left|]. apply IH; [|done]. intros x Hx. apply Hf, elem_of_app. by right.
Qed.

Lemma bseg_app h p bs1 bs2 r : bseg h p (bs1 ++ bs2) r <-> exists m, bseg h p bs1 m /\ bseg h m bs2 r.
Proof.
  revert p. induction bs1 as [|b bs1 IH]; intros p; cbn; [split; [by exists p|by intros (m & -> & H)]|].
  rewrite IH. split; [intros (H1 & H2 & m & H3 & H4); exists m; done|intros (m & (H1 & H2 & H3) & H4); eauto].
Qed.

Lemma ordered_app kf bs1 bs2 : ordered kf (bs1 ++ bs2) <-> ordered kf bs1 /\ ordered kf bs2 /\ forall x y, x ∈ concat bs1 -> y ∈ concat bs2 -> klt (kf x) (kf y).
Proof.
  induction bs1 as [|b bs1 IH]; cbn.
  - split; [intros H; split_and!; try done; by intros x y ?%elem_of_nil|tauto].
  - rewrite IH, concat_app. split.
    + intros (H1 & H2 & H3 & H4 & H5). split_and!; try done.
      * intros x y Hx Hy. apply H2; [done|]. apply elem_of_app. by left.
      * intros x y [Hx|Hx]%elem_of_app Hy; [apply H2; [done|]; apply elem_of_app; by right|by apply H5].
    + intros ((H1 & H2 & H3) & H4 & H5). split_and!; try done.
      * intros x y Hx [Hy|Hy]%elem_of_app; [by apply H2|apply H5; [|done]; apply elem_of_app; by left].
      * intros x y Hx Hy. apply H5; [|done]. apply elem_of_app. by right.
Qed.

Lemma ordered_ext kf kf' bs : (forall x, x ∈ concat bs -> kf' x = kf x) -> ordered kf bs -> ordered kf' bs.
Proof.
  induction bs as [|b bs IH]; intros Hk; [done|]. intros (H1 & H2 & H3). cbn in *.
  assert (Hb : forall x, x ∈ b -> kf' x = kf x) by (intros x Hx; apply Hk, elem_of_app; by left).
  assert (Hs : forall x, x ∈ concat bs -> kf' x = kf x) by (intros x Hx; apply Hk, elem_of_app; by right). split_and!.
  - intros x y Hx Hy. rewrite !Hb by done. auto.
  - intros x y Hx Hy. rewrite Hb, Hs by done. auto.
  - by apply IH.
Qed.

(** *** Updates of links *)

(** Nothing but links of events differs. *)
Definition same_data (h h' : gmap Z event) : Prop := with_links 0 0 <$> h = with_links 0 0 <$> h'.

Lemma same_data_links h e ev b s : h !! e = Some ev -> same_data h (<[e := with_links b s ev]> h).
Proof.
  intros He. unfold same_data. rewrite fmap_insert. apply map_eq. intros x. destruct (decide (x = e)) as [->|]; [by rewrite lookup_insert_eq, lookup_fmap, He|].
  by rewrite lookup_insert_ne.
Qed.

Lemma same_data_at h h' e ev : same_data h h' -> h !! e = Some ev -> exists ev', h' !! e = Some ev' /\ with_links 0 0 ev = with_links 0 0 ev'.
Proof.
  intros Hs He. assert (H : (with_links 0 0 <$> h) !! e = (with_links 0 0 <$> h') !! e) by by rewrite Hs.
  rewrite !lookup_fmap, He in H. cbn in H. destruct (h' !! e) as [ev'|]; [|done]. injection H. intros. exists ev'. split; [done|]. by destruct ev, ev'; cbn in *; congruence.
Qed.

Lemma same_data_sym h h' : same_data h h' -> same_data h' h.
Proof. unfold same_data. congruence. Qed.
Lemma same_data_trans h1 h2 h3 : same_data h1 h2 -> same_data h2 h3 -> same_data h1 h3.
Proof. unfold same_data. congruence. Qed.

Lemma same_data_key h h' e : same_data h h' -> key h' e = key h e.
Proof.
  intros Hs. unfold key. destruct (h !! e) as [ev|] eqn:He.
  - destruct (same_data_at _ _ _ _ Hs He) as (ev' & -> & E). cbn. unfold kof. unfold with_links in E. congruence.
  - destruct (h' !! e) as [ev'|] eqn:He'; [|done]. destruct (same_data_at _ _ _ _ (same_data_sym _ _ Hs) He') as (ev & E & _). congruence.
Qed.

Lemma insert_nb h e ev x : nb (<[e := ev]> h) x = if decide (x = e) then nextBin ev else nb h x.
Proof. unfold nb. case_decide; [subst; by rewrite lookup_insert_eq|by rewrite lookup_insert_ne]. Qed.
Lemma insert_nib h e ev x : nib (<[e := ev]> h) x = if decide (x = e) then nextInBin ev else nib h x.
Proof. unfold nib. case_decide; [subst; by rewrite lookup_insert_eq|by rewrite lookup_insert_ne]. Qed.

(** A new pointer behind the last bin. *)
Lemma bseg_relink h p bs b r r' pv top : bseg h p (bs ++ [b]) r -> head b = Some top -> top ∉ concat bs -> h !! top = Some pv ->
  bseg (<[top := with_nextBin r' pv]> h) p (bs ++ [b]) r'.
Proof.
  intros Hs Hb Hn Hp. assert (Hnib : forall x, nib (<[top := with_nextBin r' pv]> h) x = nib h x).
  { intros x. rewrite insert_nib. case_decide; [subst; unfold nib; by rewrite Hp|done]. }
  apply bseg_app in Hs as (m & H1 & Hne & H2 & H3). apply bseg_app. exists m. split.
  - eapply bseg_frame; [|done]. intros x Hx. split; [done|]. rewrite insert_nb. rewrite decide_False; [done|]. congruence.
  - split; [done|]. split; [eapply inbin_frame; [|done]; done|]. pose proof (inbin_head _ _ _ H2 Hne) as E. rewrite Hb in E. injection E as <-. cbn. by rewrite insert_nb, decide_True.
Qed.

(** *** Insertion *)

Definition nodes (h : gmap Z event) (l : list Z) : Prop := forall e, e ∈ l -> e <> 0 /\ is_Some (h !! e).

Lemma nodes_app h l1 l2 : nodes h (l1 ++ l2) <-> nodes h l1 /\ nodes h l2.
Proof. unfold nodes. setoid_rewrite elem_of_app. naive_solver. Qed.

Lemma key_at h e ev : h !! e = Some ev -> key h e = kof ev.
Proof. unfold key. by intros ->. Qed.
Lemma nb_at h e ev : h !! e = Some ev -> nb h e = nextBin ev.
Proof. unfold nb. by intros ->. Qed.
Lemma nib_at h e ev : h !! e = Some ev -> nib h e = nextInBin ev.
Proof. unfold nib. by intros ->. Qed.

Lemma bseg_null h p bs : bseg h p bs 0 -> nodes h (concat bs) -> (p = 0 <-> bs = []).
Proof.
  destruct bs as [|b bs]; [by intros ->|]. intros (Hne & Hb & _) Hn. split; [|done]. destruct b as [|e b]; [done|]. destruct Hb as [-> _]. intros ->.
  destruct (Hn 0); [left|done].
Qed.

(** The first bin of a queue that is not empty. *)
Lemma bseg_top h p b bs r : bseg h p (b :: bs) r -> nodes h (concat (b :: bs)) ->
  exists b' v, b = p :: b' /\ h !! p = Some v /\ p <> 0 /\ inbin h (nextInBin v) b' /\ bseg h (nextBin v) bs r.
Proof.
  intros (Hne & Hb & Hs) Hn. destruct b as [|e b]; [done|]. destruct Hb as [-> Hb]. destruct (Hn e) as [H0 [v Hv]]; [left|].
  exists b, v. rewrite (nb_at _ _ _ Hv) in Hs. rewrite (nib_at _ _ _ Hv) in Hb. done.
Qed.

Lemma find_bin_spec h ev fuel prev curr b0 bs : bseg h curr bs 0 -> nodes h (concat bs) -> ordered (key h) bs -> (length bs <= fuel)%nat -> head b0 = Some prev ->
  exists bs1 bs2 bs0 b prev' curr', find_bin fuel h ev prev curr = Done (prev', curr') /\ bs = bs1 ++ bs2 /\ bseg h curr bs1 curr' /\ bseg h curr' bs2 0 /\
    b0 :: bs1 = bs0 ++ [b] /\ head b = Some prev' /\ (forall x, x ∈ concat bs1 -> klt (key h x) (kof ev)) /\ (forall x, x ∈ concat bs2 -> ~ klt (key h x) (kof ev)).
Proof.
  revert prev curr b0 bs. induction fuel as [|fuel IH]; intros prev curr b0 bs Hs Hn Ho Hf Hb; (destruct bs as [|b bs]; [cbn in Hs; subst curr; exists [], [], [], b0, prev, 0; rewrite app_nil_l; by split_and!; try (intros x ?%elem_of_nil)|]).
  - cbn in Hf. lia.
  - destruct (bseg_top _ _ _ _ _ Hs Hn) as (b' & v & -> & Hv & Hc & Hin & Hs'). destruct Ho as (Ho1 & Ho2 & Ho3). cbn [find_bin]. destruct (Z.eqb_spec curr 0); [done|]. rewrite Hv. cbn [elem mbind sim_bind].
    rewrite lt_event_spec, <- (key_at _ _ _ Hv). case_bool_decide as Hk.
    + destruct (IH curr (nextBin v) (curr :: b') bs Hs') as (bs1 & bs2 & bs0 & b1 & prev' & curr' & -> & -> & H1 & H2 & H3 & H4 & H5 & H6); [by apply nodes_app in Hn as [_ ?]|done|cbn in Hf; lia|done|].
      exists ((curr :: b') :: bs1), bs2, (b0 :: bs0), b1, prev', curr'. split_and!; try done.
      * cbn. rewrite (nb_at _ _ _ Hv). destruct Hs as (? & ? & _). done.
      * by rewrite H3.
      * intros x. cbn [concat]. rewrite elem_of_app. intros [Hx|Hx]; [|auto]. rewrite (Ho1 x curr) by (done || left). done.
    + exists [], ((curr :: b') :: bs), [], b0, prev, curr. split_and!; try done; [intros x ?%elem_of_nil; done|]. intros x. cbn [concat]. rewrite elem_of_app. intros [Hx|Hx].
      * by rewrite (Ho1 x curr) by (done || left).
      * intros Hlt. apply Hk. eapply klt_trans; [apply (Ho2 curr x); [left|done]|done].
Qed.

Lemma insertBefore_spec h e ev curr bs : bseg h curr bs 0 -> nodes h (concat bs) -> ordered (key h) bs -> h !! e = Some ev -> e <> 0 -> e ∉ concat bs ->
  (forall x, x ∈ concat bs -> ~ klt (key h x) (kof ev)) ->
  exists b s bs', insertBefore h e curr = Done (<[e := with_links b s ev]> h, e) /\ bseg (<[e := with_links b s ev]> h) e bs' 0 /\
    ordered (key h) bs' /\ concat bs' = e :: concat bs.
Proof.
  intros Hs Hn Ho He He0 Hin Hk. unfold insertBefore. rewrite He. cbn [elem mbind sim_bind].
  assert (Hfr : forall b s x, x <> e -> nib (<[e := with_links b s ev]> h) x = nib h x /\ nb (<[e := with_links b s ev]> h) x = nb h x).
  { intros b s x Hx. rewrite insert_nb, insert_nib, !decide_False by done. done. }
  assert (Hnew : forall b s, nib (<[e := with_links b s ev]> h) e = s /\ nb (<[e := with_links b s ev]> h) e = b).
  { intros b s. rewrite insert_nb, insert_nib, !decide_True by done. done. }
  destruct bs as [|c bs].
  - cbn in Hs. subst curr. cbn. eexists 0, 0, [[e]]. split; [done|]. destruct (Hnew 0 0) as [E1 E2]. cbn [bseg inbin concat ordered]. rewrite E1, E2.
    split_and!; try done; [by intros x y ->%list_elem_of_singleton ->%list_elem_of_singleton|by intros x y _ ?%elem_of_nil].
  - destruct (bseg_top _ _ _ _ _ Hs Hn) as (c' & v & -> & Hv & Hc0 & Hc & Hs'). destruct (Z.eqb_spec curr 0); [done|]. rewrite Hv. cbn [elem mbind sim_bind].
    rewrite lt_event_spec, <- (key_at _ _ _ Hv). rewrite <- (key_at _ _ _ He) in *. destruct Ho as (Ho1 & Ho2 & Ho3). case_bool_decide as Hlt.
    + exists curr, 0, ([e] :: (curr :: c') :: bs). split; [done|]. destruct (Hnew curr 0) as [E1 E2]. split; [|split; [|done]].
      * split; [done|]. split; [by split|]. rewrite E2. apply (bseg_frame h); [|done]. intros x Hx. apply Hfr. congruence.
      * cbn [ordered]. split_and!; try done; [by intros x y ->%list_elem_of_singleton ->%list_elem_of_singleton|].
        intros x y ->%list_elem_of_singleton [Hy|Hy]%elem_of_app; [by rewrite (Ho1 y curr) by (done || left)|]. eapply klt_trans; [done|]. apply Ho2; [left|done].
    + assert (Hek : key h e = key h curr).
      { destruct (klt_total (key h e) (key h curr)) as [H|[H|H]]; [done|done|]. destruct (Hk curr); [left|done]. }
      assert (Hsame : forall x, x ∈ e :: curr :: c' -> key h x = key h curr).
      { intros x [->|Hx]%elem_of_cons; [done|]. apply Ho1; [done|left]. }
      exists (nextBin v), curr, ((e :: curr :: c') :: bs). split; [done|]. destruct (Hnew (nextBin v) curr) as [E1 E2]. split; [|split; [|done]].
      * cbn [concat] in Hin. assert (He1 : e ∉ curr :: c') by (intros H; apply Hin, elem_of_app; by left). assert (He2 : e ∉ concat bs) by (intros H; apply Hin, elem_of_app; by right).
        split; [done|]. split.
        -- split; [done|]. rewrite E1. eapply inbin_frame; [|destruct Hs as (_ & Hb & _); exact Hb]. intros x Hx. apply Hfr. congruence.
        -- rewrite E2. apply (bseg_frame h); [|done]. intros x Hx. apply Hfr. congruence.
      * cbn [ordered]. split_and!; try done; [intros x y Hx Hy; by rewrite (Hsame x Hx), (Hsame y Hy)|]. intros x y Hx Hy. rewrite (Hsame x Hx). apply Ho2; [left|done].
Qed.

(** The bins are filled with distinct events. *)
Lemma length_bins (bs : list (list Z)) h p r : bseg h p bs r -> nodes h (concat bs) -> NoDup (concat bs) -> (length bs <= size h)%nat.
Proof.
  intros Hs Hn Hd. transitivity (length (concat bs)).
  - clear Hn Hd. revert p Hs. induction bs as [|b bs IH]; intros p Hs; [done|]. destruct Hs as (Hne & _ & Hs). cbn. rewrite length_app. specialize (IH _ Hs). destruct b; [done|]. cbn. lia.
  - rewrite <- (size_list_to_set (C := gset Z)) by done. rewrite <- size_dom. apply subseteq_size. intros x Hx%elem_of_list_to_set. apply elem_of_dom. by apply Hn.
Qed.

Lemma pend_app h l1 l2 : pend h (l1 ++ l2) = pend h l1 ++ pend h l2.
Proof. apply fmap_app. Qed.

(** Bins behind the last one are replaced. *)
Lemma bseg_join h p bs0 bl r n pv prev bs' : bseg h p (bs0 ++ [bl]) r -> head bl = Some prev -> prev ∉ concat bs0 -> h !! prev = Some pv ->
  bseg h n bs' 0 -> prev ∉ concat bs' -> bseg (<[prev := with_nextBin n pv]> h) p ((bs0 ++ [bl]) ++ bs') 0.
Proof.
  intros H1 Hb Hp0 Hp H2 Hp'. apply bseg_app. exists n. split; [by apply (bseg_relink h _ _ _ r)|]. eapply bseg_frame; [|exact H2].
  intros x Hx. assert (x <> prev) by congruence. by rewrite insert_nb, insert_nib, !decide_False by done.
Qed.

Lemma head_pend h l k : (forall x, x ∈ l -> ~ klt (key h x) k) -> forall y, head (pend h l) = Some y -> ~ klt y.2 k.
Proof. intros H y Hy. destruct l as [|x l]; [done|]. injection Hy as <-. apply H. left. Qed.

(** The event is put before the first bin. *)
Lemma insert_front h p bs e ev : bseg h p bs 0 -> nodes h (concat bs) -> ordered (key h) bs -> h !! e = Some ev -> e <> 0 -> e ∉ concat bs ->
  (forall x, x ∈ concat bs -> ~ klt (key h x) (kof ev)) ->
  exists h' bs', insertBefore h e p = Done (h', e) /\ same_data h h' /\ bseg h' e bs' 0 /\ ordered (key h) bs' /\
    pend h (concat bs') = place (e, key h e) (pend h (concat bs)).
Proof.
  intros Hs Hn Ho He He0 Hin Hk. destruct (insertBefore_spec h e ev p bs) as (b & s & bs' & -> & H1 & H2 & H3); try done. eexists _, bs'. split; [done|].
  split; [by apply same_data_links|]. split; [done|]. split; [done|]. rewrite H3. rewrite <- (app_nil_l (pend h (concat bs))).
  rewrite place_app; [done|apply Forall_nil_2|]. rewrite (key_at _ _ _ He). by apply head_pend.
Qed.

(** The bin whose top is [prev] is the last one of a part of the queue. *)
Lemma prev_last (b0 : list Z) bs1 bs0 bl prev : b0 :: bs1 = bs0 ++ [bl] -> head bl = Some prev -> NoDup (b0 ++ concat bs1) ->
  prev ∈ b0 ++ concat bs1 /\ prev ∉ concat bs0.
Proof.
  intros H3 H4. change (b0 ++ concat bs1) with (concat (b0 :: bs1)). rewrite H3, concat_app. cbn. rewrite app_nil_r. intros Hd. destruct bl as [|x bl]; [done|].
  injection H4 as ->. apply NoDup_app in Hd as (_ & Hx & _). split; [apply elem_of_app; right; left|]. intros Hy. apply (Hx _ Hy). left.
Qed.

(** The event is put behind the first bin. *)
Lemma insert_behind h p b0 bs e ev v : bseg h p ((p :: b0) :: bs) 0 -> nodes h (concat ((p :: b0) :: bs)) -> NoDup (concat ((p :: b0) :: bs)) ->
  ordered (key h) ((p :: b0) :: bs) -> h !! p = Some v -> h !! e = Some ev -> e <> 0 -> e ∉ concat ((p :: b0) :: bs) -> klt (key h p) (kof ev) ->
  exists prev curr h1 pv bs', find_bin (q_fuel h) h ev p (nextBin v) = Done (prev, curr) /\ insertBefore h e curr = Done (h1, e) /\ h1 !! prev = Some pv /\
    same_data h h1 /\ bseg (<[prev := with_nextBin e pv]> h1) p bs' 0 /\ ordered (key h) bs' /\
    pend h (concat bs') = place (e, key h e) (pend h (concat ((p :: b0) :: bs))).
Proof.
  intros Hs Hn Hd Ho Hv He He0 Hin Hk. pose proof Hs as (_ & Hb & Hs'). rewrite (nb_at _ _ _ Hv) in Hs'. destruct Ho as (Ho1 & Ho2 & Ho3).
  pose proof Hn as [Hn1 Hn2]%nodes_app. pose proof Hd as (_ & _ & Hd2)%NoDup_app.
  destruct (find_bin_spec h ev (q_fuel h) p (nextBin v) (p :: b0) bs) as (bs1 & bs2 & bs0 & bl & prev & curr & Hf & -> & H1 & H2 & H3 & H4 & H5 & H6); try done.
  { pose proof (length_bins _ _ _ _ Hs' Hn2 Hd2). unfold q_fuel. lia. }
  cbn [concat] in *. rewrite concat_app, app_assoc in *. apply nodes_app in Hn as [Hn12 Hn22]. apply ordered_app in Ho3 as (Ho31 & Ho32 & Ho33).
  apply NoDup_app in Hd as (Hda & Hdab & Hdb). apply not_elem_of_app in Hin as [Hin1 Hin2].
  destruct (prev_last _ _ _ _ _ H3 H4 Hda) as [Hp1 Hp0].
  destruct (insertBefore_spec h e ev curr bs2) as (b & s & bs' & Hib & I1 & I2 & I3); try done.
  destruct (Hn12 prev Hp1) as [_ [pv Hpv]]. assert (Hpe : prev <> e) by congruence.
  assert (Hlt : forall x, x ∈ (p :: b0) ++ concat bs1 -> klt (key h x) (kof ev)).
  { intros x [Hx|Hx]%elem_of_app; [by rewrite (Ho1 x p) by (done || left)|auto]. }
  eexists prev, curr, _, pv, (((p :: b0) :: bs1) ++ bs'). split_and!; try done.
  - by rewrite lookup_insert_ne.
  - by apply same_data_links.
  - rewrite H3. apply (bseg_join _ _ _ _ curr); try done; [|by rewrite lookup_insert_ne|rewrite I3; apply not_elem_of_cons; split; [done|]; intros Hx; by apply (Hdab prev)].
    rewrite <- H3. apply (bseg_frame h); [|cbn [bseg]; rewrite (nb_at _ _ _ Hv); done].
    intros x Hx. assert (x <> e) by (intros ->; done). by rewrite insert_nb, insert_nib, !decide_False by done.
  - rewrite <- (key_at _ _ _ He) in *. cbn [app ordered]. rewrite concat_app, I3. split; [done|]. split; [|apply ordered_app; split_and!; try done; intros x y Hx; rewrite I3, elem_of_cons; intros [->|Hy]; auto].
    intros x y Hx. rewrite elem_of_app, elem_of_cons. intros [Hy|[->|Hy]]; [apply Ho2; [done|apply elem_of_app; by left]|apply Hlt, elem_of_app; by left|apply Ho2; [done|apply elem_of_app; by right]].
  - rewrite concat_app, I3. cbn [concat]. rewrite !pend_app, place_app; [done| |rewrite (key_at _ _ _ He); by apply head_pend].
    rewrite <- pend_app. apply Forall_fmap, Forall_forall. intros x Hx. cbn. rewrite (key_at _ _ _ He). by apply Hlt.
Qed.

Lemma insert_spec q bs e ev : let h := q_events q in bseg h (q_head q) bs 0 -> nodes h (concat bs) -> NoDup (concat bs) -> ordered (key h) bs ->
  h !! e = Some ev -> e <> 0 -> e ∉ concat bs ->
  exists h' hd' bs', insert q e = Done (q_set q h' hd') /\ same_data h h' /\ bseg h' hd' bs' 0 /\ ordered (key h) bs' /\
    pend h (concat bs') = place (e, key h e) (pend h (concat bs)).
Proof.
  intros h Hs Hn Hd Ho He He0 Hin. unfold insert, q_empty. fold h. rewrite He. cbn [elem mbind sim_bind].
  assert (Hhead : (forall x, x ∈ concat bs -> ~ klt (key h x) (kof ev)) -> exists h' hd' bs', ('(h', hd) ← insertBefore h e (q_head q); Done (q_set q h' hd)) = Done (q_set q h' hd') /\ same_data h h' /\ bseg h' hd' bs' 0 /\ ordered (key h) bs' /\
    pend h (concat bs') = place (e, key h e) (pend h (concat bs))).
  { intros Hk. destruct (insert_front h (q_head q) bs e ev) as (h' & bs' & -> & H); try done. by exists h', e, bs'. }
  destruct bs as [|b bs]; [cbn in Hs; rewrite Hs in *; apply Hhead; by intros x ?%elem_of_nil|].
  destruct (bseg_top _ _ _ _ _ Hs Hn) as (b' & v & -> & Hv & Hp0 & Hb & Hs'). destruct (Z.eqb_spec (q_head q) 0); [done|]. rewrite Hv. cbn [elem mbind sim_bind].
  rewrite le_event_spec, <- (key_at _ _ _ Hv). case_bool_decide as Hk.
  - apply Hhead. destruct Ho as (Ho1 & Ho2 & _). intros x [Hx|Hx]%elem_of_app; [by rewrite (Ho1 x (q_head q)) by (done || left)|].
    intros H. apply Hk. eapply klt_trans; [apply Ho2; [left|done]|done].
  - destruct (insert_behind h (q_head q) b' bs e ev v) as (prev & curr & h1 & pv & bs' & -> & Hib & Hpv & H1 & H2 & H3 & H4); try done.
    sim_step. rewrite Hib. sim_step. rewrite Hpv. sim_step. eexists _, _, bs'. split; [done|]. split; [eapply same_data_trans; [done|by apply same_data_links]|]. done.
Qed.

(** *** Removal *)

Definition without (e : Z) (l : list Z) : list Z := filter (fun x => x <> e) l.
Definition rm_bin (e : Z) (c : list Z) : list (list Z) := match without e c with [] => [] | c' => [c'] end.

Lemma concat_rm_bin e c : concat (rm_bin e c) = without e c.
Proof. unfold rm_bin. destruct (without e c); [done|]. cbn. by rewrite app_nil_r. Qed.

Lemma without_notin e l : e ∉ l -> without e l = l.
Proof. intros H. apply filter_all, Forall_forall. intros x Hx ->. done. Qed.

Lemma without_split e l1 l2 : e ∉ l1 -> e ∉ l2 -> without e (l1 ++ e :: l2) = l1 ++ l2.
Proof. intros H1 H2. unfold without. rewrite filter_app, filter_cons_False by (intros H; by apply H). f_equal; by apply without_notin. Qed.

Lemma inbin_unlink h p l0 pr e l2 pv : inbin h p (l0 ++ pr :: e :: l2) -> NoDup (l0 ++ pr :: e :: l2) -> h !! pr = Some pv ->
  inbin (<[pr := with_nextInBin (nib h e) pv]> h) p (l0 ++ pr :: l2).
Proof.
  intros Hb Hd Hp. revert p Hb Hd. induction l0 as [|x l0 IH]; intros p [-> Hb] Hd.
  - destruct Hb as [E Hb]. split; [done|]. rewrite insert_nib, decide_True by done. cbn. eapply inbin_frame; [|exact Hb].
    intros y Hy. rewrite insert_nib, decide_False; [done|]. cbn in Hd. rewrite !NoDup_cons in Hd. intros ->. destruct Hd as [Hd _]. apply Hd. by right.
  - cbn in Hd. apply NoDup_cons in Hd as [Hx Hd]. split; [done|]. rewrite insert_nib, decide_False by (intros ->; apply Hx, elem_of_app; right; left). by apply IH.
Qed.

Lemma remove_below_spec h e fuel curr l1 l2 : inbin h (nib h curr) (l1 ++ e :: l2) -> nodes h (curr :: l1 ++ e :: l2) -> e ∉ l1 -> (length l1 <= fuel)%nat ->
  exists l0 pr pv, curr :: l1 = l0 ++ [pr] /\ h !! pr = Some pv /\ remove_below fuel h e curr (nib h curr) = Done (<[pr := with_nextInBin (nib h e) pv]> h).
Proof.
  revert curr l1. induction fuel as [|fuel IH]; intros curr l1 Hb Hn He Hf; (destruct l1 as [|x l1]; [destruct Hb as [E Hb]|]).
  1,3: exists [], curr; destruct (Hn e) as [_ [ev Hev]]; [by right; left|]; destruct (Hn curr) as [_ [pv Hpv]]; [left|]; exists pv; split; [done|]; split; [done|];
    cbn [remove_below]; rewrite E, Z.eqb_refl, Hev, (nib_at _ _ _ Hev); cbn [elem mbind sim_bind]; by rewrite Hpv.
  - cbn in Hf. lia.
  - destruct Hb as [E Hb]. destruct (Hn x) as [Hx0 [xv Hxv]]; [right; left|]. apply not_elem_of_cons in He as [Hex He].
    destruct (IH x l1 Hb) as (l0 & pr & pv & H1 & H2 & H3); [intros y Hy; apply Hn; by right|done|cbn in Hf; lia|].
    exists (curr :: l0), pr, pv. split; [by rewrite H1|]. split; [done|]. rewrite E. cbn [remove_below]. destruct (Z.eqb_spec x e); [congruence|]. destruct (Z.eqb_spec x 0); [done|].
    rewrite Hxv. cbn [elem mbind sim_bind]. by rewrite <- (nib_at _ _ _ Hxv).
Qed.

Lemma removeItem_spec h e top c' : inbin h top (top :: c') -> e ∈ top :: c' -> NoDup (top :: c') -> nodes h (top :: c') ->
  exists h' p', removeItem h e top = Done (h', p') /\ same_data h h' /\ (forall x, x ∉ top :: c' -> h' !! x = h !! x) /\ bseg h' p' (rm_bin e (top :: c')) (nb h top).
Proof.
  intros [_ Hb] He Hd Hn. destruct (Hn top) as [Ht0 [tv Htv]]; [left|]. unfold removeItem. rewrite Htv. cbn [elem mbind sim_bind]. rewrite (nib_at _ _ _ Htv) in Hb. rewrite (nb_at _ _ _ Htv).
  pose proof Hd as [Htc Hdc]%NoDup_cons. apply elem_of_cons in He as [->|He].
  - rewrite Z.eqb_refl. assert (Hr : rm_bin top (top :: c') = match c' with [] => [] | _ => [c'] end).
    { unfold rm_bin, without. rewrite filter_cons_False by (intros H; by apply H). fold (without top c'). rewrite without_notin by done. by destruct c'. }
    destruct c' as [|n c']; rewrite Hr; [cbn in Hb; rewrite Hb; cbn; by exists h, (nextBin tv)|]. destruct Hb as [En Hb].
    destruct (Hn n) as [Hn0 [nv Hnv]]; [right; left|]. rewrite En. destruct (Z.eqb_spec n 0); [done|]. rewrite Hnv. sim_step. eexists _, _. split; [done|]. split; [by apply same_data_links|].
    split; [intros x Hx; rewrite lookup_insert_ne; [done|]; intros ->; apply Hx; right; left|]. split; [done|]. split; [|cbn; by rewrite insert_nb, decide_True].
    split; [done|]. rewrite insert_nib, decide_True by done. cbn. rewrite <- (nib_at _ _ _ Hnv). apply (inbin_frame h); [|done]. intros x Hx. rewrite insert_nib, decide_False; [done|]. apply NoDup_cons in Hdc as [Hdn _]. congruence.
  - destruct (Z.eqb_spec e top); [congruence|]. apply list_elem_of_split in He as (l1 & l2 & ->). pose proof Hdc as (_ & Hd1 & Hd2)%NoDup_app. apply NoDup_cons in Hd2 as [Hd2 _].
    assert (He1 : e ∉ l1) by (intros H; apply (Hd1 e H); left).
    destruct (remove_below_spec h e (q_fuel h) top l1 l2) as (l0 & pr & pv & H1 & H2 & H3); [by rewrite (nib_at _ _ _ Htv)|done|done| |].
    { assert (length (top :: l1 ++ e :: l2) <= size h)%nat.
      { rewrite <- (size_list_to_set (C := gset Z)) by done. rewrite <- size_dom. apply subseteq_size. intros x Hx%elem_of_list_to_set. apply elem_of_dom. by apply Hn. }
      cbn in H. rewrite length_app in H. unfold q_fuel. lia. }
    rewrite (nib_at _ _ _ Htv) in H3. rewrite H3. sim_step. eexists _, _. split; [done|]. split; [by apply same_data_links|].
    assert (Hall : top :: l1 ++ e :: l2 = l0 ++ pr :: e :: l2) by (rewrite app_comm_cons, H1, <- app_assoc; done).
    split; [intros x Hx; rewrite lookup_insert_ne; [done|]; intros <-; apply Hx; rewrite Hall; apply elem_of_app; right; left|].
    assert (Hr : rm_bin e (top :: l1 ++ e :: l2) = [l0 ++ pr :: l2]).
    { unfold rm_bin. rewrite app_comm_cons, without_split by (done || (apply not_elem_of_cons; done)). rewrite H1, <- app_assoc. cbn. by destruct l0. }
    rewrite Hr. split; [by destruct l0|]. split; [|cbn; rewrite insert_nb; case_decide; [subst; cbn; congruence|by apply nb_at]].
    apply inbin_unlink; [|by rewrite <- Hall|done]. rewrite <- Hall. split; [done|]. by rewrite (nib_at _ _ _ Htv).
Qed.

Lemma ordered_rm kf e c bs : ordered kf (c :: bs) -> ordered kf (rm_bin e c ++ bs).
Proof.
  intros (H1 & H2 & H3). unfold rm_bin. destruct (without e c) as [|x c'] eqn:E; [done|]. assert (Hsub : forall y, y ∈ x :: c' -> y ∈ c).
  { intros y. rewrite <- E. unfold without. rewrite list_elem_of_filter. tauto. }
  split_and!; try done; [intros y z Hy Hz; apply H1; auto|intros y z Hy; apply H2; auto].
Qed.

(** The event is in the first bin. *)
Lemma remove_front h p b0 bs e : bseg h p ((p :: b0) :: bs) 0 -> nodes h (concat ((p :: b0) :: bs)) -> NoDup (concat ((p :: b0) :: bs)) ->
  ordered (key h) ((p :: b0) :: bs) -> e ∈ p :: b0 ->
  exists h' p' bs', removeItem h e p = Done (h', p') /\ same_data h h' /\ bseg h' p' bs' 0 /\ ordered (key h) bs' /\ concat bs' = without e (concat ((p :: b0) :: bs)) /\
    (forall x, x ∉ p :: b0 -> h' !! x = h !! x).
Proof.
  intros (_ & Hb & Hs) Hn Hd Ho He. cbn [concat] in *. apply nodes_app in Hn as [Hn1 Hn2]. apply NoDup_app in Hd as (Hd1 & Hd12 & Hd2).
  destruct (removeItem_spec h e p b0) as (h' & p' & H1 & H2 & H3 & H4); try done. exists h', p', (rm_bin e (p :: b0) ++ bs). split_and!; try done.
  - apply bseg_app. exists (nb h p). split; [done|]. apply (bseg_frame h); [|done]. intros x Hx. unfold nib, nb. rewrite H3; [done|]. intros Hx'. by apply (Hd12 x).
  - by apply ordered_rm.
  - rewrite concat_app, concat_rm_bin. unfold without. rewrite filter_app. f_equal. symmetry. apply without_notin. intros Hx. by apply (Hd12 e).
Qed.

(** The event is behind the first bin. *)
Lemma remove_behind h p b0 bs e ev v : bseg h p ((p :: b0) :: bs) 0 -> nodes h (concat ((p :: b0) :: bs)) -> NoDup (concat ((p :: b0) :: bs)) ->
  ordered (key h) ((p :: b0) :: bs) -> h !! p = Some v -> h !! e = Some ev -> e ∈ concat bs ->
  exists prev curr cv h1 n pv bs', find_bin (q_fuel h) h ev p (nextBin v) = Done (prev, curr) /\ curr <> 0 /\ h !! curr = Some cv /\ kof cv = kof ev /\
    removeItem h e curr = Done (h1, n) /\ h1 !! prev = Some pv /\ same_data h h1 /\ bseg (<[prev := with_nextBin n pv]> h1) p bs' 0 /\ ordered (key h) bs' /\
    concat bs' = without e (concat ((p :: b0) :: bs)).
Proof.
  intros Hs Hn Hd Ho Hv He Hin. pose proof Hs as (_ & Hb & Hs'). rewrite (nb_at _ _ _ Hv) in Hs'. destruct Ho as (Ho1 & Ho2 & Ho3).
  pose proof Hn as [Hn1 Hn2]%nodes_app. pose proof Hd as (_ & _ & Hd2)%NoDup_app.
  destruct (find_bin_spec h ev (q_fuel h) p (nextBin v) (p :: b0) bs) as (bs1 & bs2 & bs0 & bl & prev & curr & Hf & -> & H1 & H2 & H3 & H4 & H5 & H6); try done.
  { pose proof (length_bins _ _ _ _ Hs' Hn2 Hd2). unfold q_fuel. lia. }
  cbn [concat] in *. rewrite concat_app in *. rewrite app_assoc in *. pose proof Ho3 as (Ho31 & Ho32 & Ho33)%ordered_app. pose proof Hn as [Hn12 Hn22]%nodes_app.
  pose proof Hd as (Hda & Hdab & Hdb)%NoDup_app. rewrite <- (key_at _ _ _ He) in *.
  apply elem_of_app in Hin as [Hin|Hin]; [by destruct (klt_irrefl _ (H5 e Hin))|]. destruct (prev_last _ _ _ _ _ H3 H4 Hda) as [Hp1 Hp0].
  destruct bs2 as [|c bs3]; [by apply elem_of_nil in Hin|]. destruct (bseg_top _ _ _ _ _ H2 Hn22) as (c' & cv & -> & Hcv & Hc0 & _ & _).
  pose proof Ho32 as (Hc1 & Hc2 & Hc3). apply elem_of_app in Hin as [Hin|Hin]; [|by destruct (H6 curr ltac:(left) (Hc2 curr e ltac:(left) Hin))].
  destruct (remove_front h curr c' bs3 e) as (h1 & n & bs' & R1 & R2 & R3 & R4 & R5 & R6); try done.
  assert (Hfr : forall x, x ∈ (p :: b0) ++ concat bs1 -> h1 !! x = h !! x).
  { intros x Hx. apply R6. intros Hx'. apply (Hdab x Hx), elem_of_app. by left. }
  destruct (Hn12 prev Hp1) as [_ [pv Hpv]].
  exists prev, curr, cv, h1, n, pv, (((p :: b0) :: bs1) ++ bs'). split_and!; try done.
  - rewrite <- (key_at _ _ _ Hcv). apply Hc1; [left|done].
  - by rewrite Hfr.
  - rewrite H3. apply (bseg_join _ _ _ _ curr); try done; [|by rewrite Hfr|rewrite R5; unfold without; rewrite list_elem_of_filter; intros [_ Hx]; by apply (Hdab prev)].
    rewrite <- H3. apply (bseg_frame h); [|cbn [bseg]; rewrite (nb_at _ _ _ Hv); done]. intros x Hx. unfold nib, nb. by rewrite Hfr.
  - apply (ordered_app _ ((p :: b0) :: bs1)). split; [cbn [ordered]; split_and!; try done; intros x y Hx Hy; apply Ho2; [done|apply elem_of_app; by left]|]. split; [done|].
    intros x y Hx. rewrite R5. unfold without. rewrite list_elem_of_filter. intros [_ Hy]. cbn [concat] in Hx. apply elem_of_app in Hx as [Hx|Hx]; [|by apply Ho33]. apply Ho2; [done|]. apply elem_of_app. by right.
  - rewrite concat_app, R5. cbn [concat]. unfold without at 2. rewrite filter_app. f_equal. symmetry. apply without_notin. intros Hx. apply (Hdab e Hx), elem_of_app. by left.
Qed.

Lemma remove_spec q bs e ev : let h := q_events q in bseg h (q_head q) bs 0 -> nodes h (concat bs) -> NoDup (concat bs) -> ordered (key h) bs ->
  h !! e = Some ev -> e_queue ev = q_self q -> e ∈ concat bs ->
  exists h' hd' bs', remove q e = Done (q_set q h' hd') /\ same_data h h' /\ bseg h' hd' bs' 0 /\ ordered (key h) bs' /\ concat bs' = without e (concat bs).
Proof.
  intros h Hs Hn Hd Ho He Hq Hin. destruct bs as [|b bs]; [by apply elem_of_nil in Hin|]. destruct (bseg_top _ _ _ _ _ Hs Hn) as (b' & v & -> & Hv & Hp0 & Hb & Hs').
  unfold remove, q_empty. fold h. destruct (Z.eqb_spec (q_head q) 0); [done|]. rewrite He. cbn [elem]. sim_step. rewrite Hq, Z.eqb_refl. cbn [check]. sim_step. rewrite Hv. cbn [elem]. sim_step.
  rewrite eq_event_spec, <- (key_at _ _ _ Hv), <- (key_at _ _ _ He). case_bool_decide as Hk.
  - destruct (remove_front h (q_head q) b' bs e) as (h' & p' & bs' & -> & H1 & H2 & H3 & H4 & _); try done; [|by exists h', p', bs'].
    apply elem_of_app in Hin as [Hin|Hin]; [done|]. destruct Ho as (_ & Ho2 & _). destruct (klt_irrefl (key h e)). rewrite <- Hk at 1. apply Ho2; [left|done].
  - assert (Hin' : e ∈ concat bs).
    { apply elem_of_app in Hin as [Hin|Hin]; [|done]. destruct Ho as (Ho1 & _). destruct Hk. apply Ho1; [left|done]. }
    destruct (remove_behind h (q_head q) b' bs e ev v) as (prev & curr & cv & h1 & m & pv & bs' & -> & Hc & Hcv & Hkc & Hr & Hpv & H1 & H2 & H3 & H4); try done.
    sim_step. destruct (Z.eqb_spec curr 0); [done|]. rewrite Hcv. cbn [elem]. sim_step. rewrite eq_event_spec, bool_decide_true by done. cbn [negb]. rewrite Hr. sim_step. rewrite Hpv. cbn [elem]. sim_step.
    eexists _, _, bs'. split; [done|]. split; [eapply same_data_trans; [done|by apply same_data_links]|]. done.
Qed.

(** ** The invariant *)

(** *** Flags *)

Lemma isSet_bit f k : 0 <= k -> isSet f (2 ^ k) = Z.testbit f k.
Proof.
  intros Hk. unfold isSet. destruct (Z.testbit f k) eqn:E; destruct (Z.eqb_spec (Z.land f (2 ^ k)) 0) as [H|H]; cbn; try done.
  - assert (Hb : Z.testbit (Z.land f (2 ^ k)) k = false) by (rewrite H; apply Z.testbit_0_l). rewrite Z.land_spec, E, Z.pow2_bits_true in Hb by done. done.
  - destruct H. apply Z.bits_inj'. intros i Hi. rewrite Z.land_spec, Z.testbit_0_l. destruct (decide (i = k)) as [->|Hne]; [by rewrite E|].
    rewrite Z.pow2_bits_false by congruence. apply andb_false_r.
Qed.

Lemma scheduled_bit f : isSet f Scheduled = Z.testbit f 1.
Proof. by apply (isSet_bit f 1). Qed.

Lemma scheduled_set f : isSet (set_flags f Scheduled) Scheduled = true.
Proof. rewrite scheduled_bit. unfold set_flags. rewrite Z.lor_spec. apply orb_true_r. Qed.
Lemma scheduled_clear f : isSet (clear_flags f Scheduled) Scheduled = false.
Proof. rewrite scheduled_bit. unfold clear_flags. rewrite Z.land_spec. apply andb_false_r. Qed.
Lemma scheduled_set_squashed f : isSet (set_flags f Squashed) Scheduled = isSet f Scheduled.
Proof. rewrite !scheduled_bit. unfold set_flags. rewrite Z.lor_spec. apply orb_false_r. Qed.
Lemma scheduled_clear_squashed f : isSet (clear_flags f Squashed) Scheduled = isSet f Scheduled.
Proof. rewrite !scheduled_bit. unfold clear_flags. rewrite Z.land_spec. apply andb_true_r. Qed.

Lemma init_set f m : Z.land m InitMask = 0 -> Z.land (set_flags f m) InitMask = Z.land f InitMask.
Proof. intros Hm. unfold set_flags. rewrite Z.land_lor_distr_l, Hm. apply Z.lor_0_r. Qed.
Lemma init_clear f m : Z.land m InitMask = 0 -> Z.land (clear_flags f m) InitMask = Z.land f InitMask.
Proof.
  intros Hm. unfold clear_flags. rewrite <- Z.land_assoc. f_equal. apply Z.bits_inj'. intros i Hi.
  assert (Hb : Z.testbit (Z.land m InitMask) i = false) by (rewrite Hm; apply Z.testbit_0_l). rewrite Z.land_spec in *. rewrite Z.lnot_spec by done.
  destruct (Z.testbit m i), (Z.testbit InitMask i); done.
Qed.

(** *** Shape *)

Record qshape (q : eventq) (bs : list (list Z)) : Prop := {
  qs_bins : bseg (q_events q) (q_head q) bs 0;
  qs_nodes : nodes (q_events q) (concat bs);
  qs_nodup : NoDup (concat bs);
  qs_order : ordered (key (q_events q)) bs;
}.

Definition same_at (h h' : gmap Z event) (x : Z) : Prop := nib h' x = nib h x /\ nb h' x = nb h x /\ key h' x = key h x /\ (is_Some (h !! x) -> is_Some (h' !! x)).

Lemma qshape_frame q q' bs : qshape q bs -> q_head q' = q_head q -> (forall x, x ∈ concat bs -> same_at (q_events q) (q_events q') x) ->
  qshape q' bs /\ pend (q_events q') (concat bs) = pend (q_events q) (concat bs).
Proof.
  intros [Hb Hn Hd Ho] Hh Hs. split; [split|].
  - rewrite Hh. eapply bseg_frame; [|done]. intros x Hx. destruct (Hs x Hx) as (? & ? & _). done.
  - intros x Hx. destruct (Hn x Hx), (Hs x Hx) as (_ & _ & _ & ?). auto.
  - done.
  - eapply ordered_ext; [|done]. intros x Hx. by destruct (Hs x Hx) as (_ & _ & ? & _).
  - unfold pend. apply list_fmap_ext. intros i x Hx%list_elem_of_lookup_2. by destruct (Hs x Hx) as (_ & _ & -> & _).
Qed.

Lemma same_at_other h e f x : x <> e -> same_at h (alter f e h) x.
Proof. intros Hx. unfold same_at, nib, nb, key. by rewrite lookup_alter_ne by congruence. Qed.
Lemma same_at_flags h e f x : same_at h (alter (fun ev => with_flags (f ev) ev) e h) x.
Proof.
  unfold same_at, nib, nb, key. destruct (decide (x = e)) as [->|Hx]; [|by rewrite lookup_alter_ne by congruence].
  rewrite lookup_alter_eq. destruct (h !! e); cbn; by repeat split; eauto.
Qed.

Lemma pend_same h h' l : same_data h h' -> pend h' l = pend h l.
Proof. intros Hs. unfold pend. apply list_fmap_ext. intros i x _. by rewrite (same_data_key h h'). Qed.

Lemma nodes_same h h' l : same_data h h' -> nodes h l -> nodes h' l.
Proof. intros Hs Hn x Hx. destruct (Hn x Hx) as [H0 [ev Hev]]. destruct (same_data_at _ _ _ _ Hs Hev) as (ev' & -> & _). by eauto. Qed.

Lemma place_perm x l : place x l ≡ₚ x :: l.
Proof. induction l as [|y l IH]; cbn; [done|]. destruct (decide _); [|done]. rewrite IH. apply Permutation_swap. Qed.

Lemma fst_pend h l : (pend h l).*1 = l.
Proof. unfold pend. rewrite <- list_fmap_compose. apply list_fmap_id. Qed.

Lemma qshape_insert q bs e : qshape q bs -> is_Some (q_events q !! e) -> e <> 0 -> e ∉ concat bs ->
  exists h' hd' bs', insert q e = Done (q_set q h' hd') /\ same_data (q_events q) h' /\ qshape (q_set q h' hd') bs' /\
    pend h' (concat bs') = place (e, key (q_events q) e) (pend (q_events q) (concat bs)) /\ concat bs' ≡ₚ e :: concat bs.
Proof.
  intros [Hb Hn Hd Ho] [ev He] He0 Hin. destruct (insert_spec q bs e ev) as (h' & hd' & bs' & H1 & H2 & H3 & H4 & H5); try done.
  assert (Hp : concat bs' ≡ₚ e :: concat bs).
  { rewrite <- (fst_pend (q_events q) (concat bs')), H5, place_perm. cbn. by rewrite fst_pend. }
  exists h', hd', bs'. split_and!; try done; [|by rewrite (pend_same (q_events q))]. split; cbn.
  - done.
  - apply (nodes_same (q_events q)); [done|]. intros x Hx. rewrite Hp in Hx. apply elem_of_cons in Hx as [->|Hx]; [by eauto|auto].
  - rewrite Hp. by constructor.
  - eapply ordered_ext; [|done]. intros x _. by apply same_data_key.
Qed.

Lemma qshape_remove q bs e ev : qshape q bs -> q_events q !! e = Some ev -> e_queue ev = q_self q -> e ∈ concat bs ->
  exists h' hd' bs', remove q e = Done (q_set q h' hd') /\ same_data (q_events q) h' /\ qshape (q_set q h' hd') bs' /\ concat bs' = without e (concat bs).
Proof.
  intros [Hb Hn Hd Ho] He Hq Hin. destruct (remove_spec q bs e ev) as (h' & hd' & bs' & H1 & H2 & H3 & H4 & H5); try done.
  exists h', hd', bs'. split_and!; try done. split; cbn.
  - done.
  - apply (nodes_same (q_events q)); [done|]. intros x. rewrite H5. unfold without. rewrite list_elem_of_filter. intros [_ Hx]. auto.
  - rewrite H5. by apply NoDup_filter.
  - eapply ordered_ext; [|done]. intros x _. by apply same_data_key.
Qed.

(** *** What the events hold *)

(** [l] are the events that are scheduled. *)
Record data_inv (h : gmap Z event) (self : Z) (l : list Z) : Prop := {
  di_live e ev : h !! e = Some ev -> e <> 0 /\ initialized ev = true;
  di_sched e : e ∈ l <-> exists ev, h !! e = Some ev /\ scheduled ev = true;
  di_queue e ev : e ∈ l -> h !! e = Some ev -> e_queue ev = self;
}.

Lemma erase_data ev ev' : with_links 0 0 ev = with_links 0 0 ev' ->
  initialized ev = initialized ev' /\ scheduled ev = scheduled ev' /\ e_queue ev = e_queue ev' /\ kof ev = kof ev' /\ e_flags ev = e_flags ev'.
Proof. destruct ev, ev'. cbn. by intros [= -> -> -> ->]. Qed.

Lemma data_inv_same h h' self l : same_data h h' -> data_inv h self l -> data_inv h' self l.
Proof.
  intros Hs [H1 H2 H3]. apply same_data_sym in Hs. split.
  - intros e ev He. destruct (same_data_at _ _ _ _ Hs He) as (ev' & He' & (-> & _)%erase_data). eauto.
  - intros e. rewrite H2. split; intros (ev & He & Hf); [apply same_data_sym in Hs|]; destruct (same_data_at _ _ _ _ Hs He) as (ev' & He' & (_ & E & _)%erase_data); exists ev'; (split; [done|]); congruence.
  - intros e ev Hl He. destruct (same_data_at _ _ _ _ Hs He) as (ev' & He' & (_ & _ & -> & _)%erase_data). eauto.
Qed.

Lemma data_inv_insert h self l l' e ev : data_inv h self l -> e <> 0 -> initialized ev = true ->
  (e_queue ev = self \/ scheduled ev = false) -> (forall x, x ∈ l' <-> (x = e /\ scheduled ev = true) \/ (x <> e /\ x ∈ l)) -> data_inv (<[e := ev]> h) self l'.
Proof.
  intros [H1 H2 H3] He0 Hini Hq Hl. split.
  - intros x xv [[<- <-]|[_ Hx]]%lookup_insert_Some; [done|eauto].
  - intros x. rewrite Hl. destruct (decide (x = e)) as [->|Hx]; [rewrite lookup_insert_eq; naive_solver|rewrite lookup_insert_ne, H2 by done; naive_solver].
  - intros x xv Hx. rewrite Hl in Hx. intros [[<- <-]|[Hne Hx']]%lookup_insert_Some; [destruct Hx as [[_ E]|[? _]]; [|done]; destruct Hq; [done|congruence]|].
    destruct Hx as [[? _]|[_ Hx]]; [congruence|eauto].
Qed.

Record eqinv (q : eventq) (bs : list (list Z)) : Prop := {
  iq_shape : qshape q bs;
  iq_data : data_inv (q_events q) (q_self q) (concat bs ++ q_async q);
  iq_async : NoDup (concat bs ++ q_async q);
  iq_time e : e ∈ concat bs -> q_curTick q <= (key (q_events q) e).1;
}.

(** The pending events with their ticks and priorities, in the order of service. *)
Definition pending (q : eventq) (bs : list (list Z)) : list (Z * ekey) := pend (q_events q) (concat bs).

(** ** The operations *)

Lemma data_inv_delete h self l l' e : data_inv h self l -> (forall x, x ∈ l' <-> x <> e /\ x ∈ l) -> data_inv (delete e h) self l'.
Proof.
  intros [H1 H2 H3] Hl. split.
  - intros x xv [_ Hx]%lookup_delete_Some. eauto.
  - intros x. rewrite Hl, H2. setoid_rewrite lookup_delete_Some. naive_solver.
  - intros x xv Hx [_ Hx']%lookup_delete_Some. apply (H3 x); [by apply Hl|done].
Qed.

Lemma same_data_alter h h' e (f : Z -> Z) : same_data h h' ->
  same_data (alter (fun ev => with_flags (f (e_flags ev)) ev) e h) (alter (fun ev => with_flags (f (e_flags ev)) ev) e h').
Proof.
  intros Hs. apply map_eq. intros x. assert (H : (with_links 0 0 <$> h) !! x = (with_links 0 0 <$> h') !! x) by by rewrite Hs.
  rewrite !lookup_fmap in *. destruct (decide (x = e)) as [->|Hx]; [|by rewrite !lookup_alter_ne by congruence]. rewrite !lookup_alter_eq.
  destruct (h !! e), (h' !! e); cbn in *; try done. injection H as E1 E2 E3 E4. unfold with_links, with_flags. cbn. congruence.
Qed.

Lemma alter_at (h : gmap Z event) e ev f : h !! e = Some ev -> alter f e h = <[e := f ev]> h.
Proof.
  intros He. apply map_eq. intros x. destruct (decide (x = e)) as [->|]; [by rewrite lookup_alter_eq, lookup_insert_eq, He|by rewrite lookup_alter_ne, lookup_insert_ne by congruence].
Qed.

(** The event that [schedule] or [reschedule] inserts: its tick and flags are written, nothing else. *)
Lemma insert_scheduled q bs e ev w (f : Z -> Z) : qshape q bs -> data_inv (delete e (q_events q)) (q_self q) (concat bs ++ q_async q) -> NoDup (concat bs ++ q_async q) ->
  (forall x, x ∈ concat bs -> q_curTick q <= (key (q_events q) x).1) ->
  q_events q !! e = Some ev -> e <> 0 -> e ∉ concat bs ++ q_async q -> q_curTick q <= w -> initialized ev = true ->
  (forall z, isSet (f z) Scheduled = true) -> (forall z, Z.land (f z) InitMask = Z.land z InitMask) ->
  exists q' bs', (q2 ← insert (q_update q e (setWhen w (q_self q))) e; Done (q_update q2 e (fun ev => with_flags (f (e_flags ev)) ev))) = Done q' /\
    eqinv q' bs' /\ pending q' bs' = place (e, (w, e_priority ev)) (pending q bs) /\ q_curTick q' = q_curTick q /\ q_async q' = q_async q /\ q_self q' = q_self q /\
    same_data (<[e := with_flags (f (e_flags ev)) (setWhen w (q_self q) ev)]> (q_events q)) (q_events q').
Proof.
  intros Hsh Hdi Hnd Htime He He0 Hin Hw Hini Hf1 Hf2. set (q1 := q_update q e (setWhen w (q_self q))). apply not_elem_of_app in Hin as [Hin Hina].
  destruct (qshape_frame q q1 bs Hsh) as [Hsh1 Hp1]; [done|intros x Hx; apply same_at_other; congruence|].
  assert (He1 : q_events q1 !! e = Some (setWhen w (q_self q) ev)) by (cbn; by rewrite lookup_alter_eq, He).
  destruct (qshape_insert q1 bs e Hsh1) as (h' & hd' & bs' & -> & Hs' & Hsh' & Hp' & Hperm); [by rewrite He1|done|done|]. sim_step.
  set (q2 := q_set q1 h' hd') in *. set (q3 := q_update q2 e (fun ev => with_flags (f (e_flags ev)) ev)).
  destruct (qshape_frame q2 q3 bs' Hsh') as [Hsh3 Hp3]; [done|intros x _; apply (same_at_flags _ e (fun ev => f (e_flags ev)))|].
  assert (Hs3 : same_data (<[e := with_flags (f (e_flags ev)) (setWhen w (q_self q) ev)]> (q_events q)) (q_events q3)).
  { apply (same_data_alter _ _ e f) in Hs'. cbn in Hs' |- *. rewrite (alter_at _ e ev _ He) in Hs'. rewrite (alter_at _ e (setWhen w (q_self q) ev)) in Hs' by apply lookup_insert_eq.
    rewrite insert_insert_eq in Hs'. exact Hs'. }
  exists q3, bs'. split; [done|]. split; [|split; [|done]].
  - split; [done| | |].
    + apply (data_inv_same _ _ _ _ Hs3). cbn. rewrite <- insert_delete_eq. apply (data_inv_insert _ _ (concat bs ++ q_async q)); try done.
      * unfold initialized in *. cbn. by rewrite Hf2.
      * by left.
      * intros x. unfold scheduled. cbn. rewrite Hf1, Hperm, !elem_of_app, elem_of_cons. destruct (decide (x = e)) as [->|]; naive_solver.
    + cbn. rewrite Hperm. cbn. apply NoDup_cons. split; [by apply not_elem_of_app|done].
    + intros x. rewrite Hperm, elem_of_cons. rewrite (same_data_key _ _ x Hs3). cbn. unfold key. intros [->|Hx]; [by rewrite lookup_insert_eq|].
      rewrite lookup_insert_ne by congruence. by apply Htime.
  - unfold pending. rewrite Hp3. cbn. rewrite Hp', Hp1. do 2 f_equal. unfold key. by rewrite He1.
Qed.

(** The event that [deschedule] or [reschedule] removes. *)
Lemma remove_scheduled q bs e ev : eqinv q bs -> q_events q !! e = Some ev -> e ∈ concat bs ->
  exists h' hd' bs', remove q e = Done (q_set q h' hd') /\ same_data (q_events q) h' /\ qshape (q_set q h' hd') bs' /\ concat bs' = without e (concat bs) /\
    data_inv (delete e h') (q_self q) (concat bs' ++ q_async q) /\ NoDup (concat bs' ++ q_async q) /\ e ∉ concat bs' ++ q_async q /\
    (forall x, x ∈ concat bs' -> q_curTick q <= (key h' x).1) /\ pend h' (concat bs') = filter (fun y => y.1 <> e) (pending q bs).
Proof.
  intros [Hsh Hdi Hnd Ht] He Hin. destruct (qshape_remove q bs e ev Hsh He) as (h' & hd' & bs' & H1 & H2 & H3 & H4); [eapply di_queue; [done| |done]; apply elem_of_app; by left|done|].
  assert (Hin' : forall x, x ∈ concat bs' <-> x <> e /\ x ∈ concat bs) by (intros x; rewrite H4; unfold without; by rewrite list_elem_of_filter).
  pose proof Hnd as (Hn1 & Hn2 & Hn3)%NoDup_app. exists h', hd', bs'. split_and!; try done.
  - apply (data_inv_delete _ _ (concat bs ++ q_async q)); [by apply (data_inv_same (q_events q))|]. intros x. rewrite !elem_of_app, Hin'. pose proof (Hn2 e Hin). destruct (decide (x = e)) as [->|]; tauto.
  - rewrite H4. apply NoDup_app. split; [by apply NoDup_filter|]. split; [|done]. intros x. unfold without. rewrite list_elem_of_filter. intros [_ Hx]. auto.
  - rewrite elem_of_app, Hin'. pose proof (Hn2 e Hin). tauto.
  - intros x [_ Hx]%Hin'. rewrite (same_data_key (q_events q)) by done. auto.
  - rewrite (pend_same (q_events q)) by done. rewrite H4. unfold pending, pend, without. generalize (concat bs) as l. intros l. induction l as [|x l IH]; [done|].
    cbn [fmap list_fmap]. destruct (decide (x = e)) as [->|Hx]; [rewrite !filter_cons_False by (intros H; by apply H); done|rewrite !filter_cons_True by done; cbn; by f_equal].
Qed.

Lemma schedule_ok q bs e ev w : eqinv q bs -> q_events q !! e = Some ev -> scheduled ev = false -> q_curTick q <= w ->
  exists q' bs', schedule q e w false = Done q' /\ eqinv q' bs' /\ pending q' bs' = place (e, (w, e_priority ev)) (pending q bs) /\
    q_curTick q' = q_curTick q /\ q_async q' = q_async q /\ dom (q_events q') = dom (q_events q).
Proof.
  intros [Hsh Hdi Hnd Ht] He Hs Hw. destruct (di_live _ _ _ Hdi e ev He) as [He0 Hini].
  assert (Hin : e ∉ concat bs ++ q_async q) by (rewrite (di_sched _ _ _ Hdi); intros (ev' & E & ?); congruence).
  unfold schedule. rewrite He. cbn [elem mbind sim_bind]. rewrite Hs, Hini. destruct (Z.leb_spec (q_curTick q) w); [|lia]. cbn [check negb mbind sim_bind].
  destruct (insert_scheduled q bs e ev w (fun z => set_flags z Scheduled)) as (q' & bs' & -> & H1 & H2 & H3 & H4 & _ & H5); try done.
  - apply (data_inv_delete _ _ (concat bs ++ q_async q)); [done|]. intros x. destruct (decide (x = e)) as [->|]; tauto.
  - intros z. apply scheduled_set.
  - intros z. by apply init_set.
  - exists q', bs'. split_and!; try done. pose proof (f_equal dom H5) as E. rewrite !dom_fmap_L in E. rewrite <- E, dom_insert_lookup_L; [done|by rewrite He].
Qed.

Lemma reschedule_ok q bs e ev w always : eqinv q bs -> q_events q !! e = Some ev -> e ∉ q_async q -> always = true \/ scheduled ev = true -> q_curTick q <= w ->
  exists q' bs', reschedule q e w always = Done q' /\ eqinv q' bs' /\ pending q' bs' = place (e, (w, e_priority ev)) (filter (fun y => y.1 <> e) (pending q bs)) /\
    q_curTick q' = q_curTick q /\ q_async q' = q_async q /\ dom (q_events q') = dom (q_events q).
Proof.
  intros Hi He Hina Hs Hw. pose proof Hi as [Hsh Hdi Hnd Ht]. destruct (di_live _ _ _ Hdi e ev He) as [He0 Hini].
  unfold reschedule. rewrite He. cbn [elem mbind sim_bind]. rewrite Hini. destruct (Z.leb_spec (q_curTick q) w); [|lia]. cbn [check mbind sim_bind].
  assert (always || scheduled ev = true) as -> by (destruct Hs as [-> | ->]; [done|apply orb_true_r]). cbn [check mbind sim_bind].
  assert (Hf1 : forall z, isSet (set_flags (clear_flags z Squashed) Scheduled) Scheduled = true) by (intros z; apply scheduled_set).
  assert (Hf2 : forall z, Z.land (set_flags (clear_flags z Squashed) Scheduled) InitMask = Z.land z InitMask) by (intros z; by rewrite init_set, init_clear).
  destruct (scheduled ev) eqn:Hsc.
  - assert (Hin : e ∈ concat bs) by (assert (Hx : e ∈ concat bs ++ q_async q) by (apply (di_sched _ _ _ Hdi); eauto); apply elem_of_app in Hx; tauto).
    destruct (remove_scheduled q bs e ev Hi He Hin) as (h' & hd' & bs' & -> & R1 & R2 & R3 & R4 & R5 & R6 & R7 & R8). sim_step.
    destruct (same_data_at _ _ _ _ R1 He) as (ev' & He' & E). destruct (erase_data _ _ E) as (E1 & _ & E2 & E3 & E4).
    change (setWhen w (q_self q)) with (setWhen w (q_self (q_set q h' hd'))).
    destruct (insert_scheduled (q_set q h' hd') bs' e ev' w (fun z => set_flags (clear_flags z Squashed) Scheduled)) as (q' & bs2 & -> & H1 & H2 & H3 & H4 & _ & H5); try done; [congruence|].
    exists q', bs2. split_and!; try done.
    + rewrite H2. unfold pending at 1. cbn. rewrite R8. injection E3 as _ ->. done.
    + pose proof (f_equal dom H5) as F. rewrite !dom_fmap_L in F. rewrite <- F, dom_insert_lookup_L by (cbn; by rewrite He'). cbn. pose proof (f_equal dom R1) as G. rewrite !dom_fmap_L in G. done.
  - assert (Hin : e ∉ concat bs ++ q_async q) by (rewrite (di_sched _ _ _ Hdi); intros (ev' & E & ?); congruence). sim_step.
    destruct (insert_scheduled q bs e ev w (fun z => set_flags (clear_flags z Squashed) Scheduled)) as (q' & bs' & -> & H1 & H2 & H3 & H4 & _ & H5); try done.
    { apply (data_inv_delete _ _ (concat bs ++ q_async q)); [done|]. intros x. destruct (decide (x = e)) as [->|]; tauto. }
    exists q', bs'. split_and!; try done.
    + rewrite H2. f_equal. symmetry. apply filter_all, Forall_forall. intros y Hy Hye. apply Hin, elem_of_app. left. unfold pending, pend in Hy. apply list_elem_of_fmap in Hy as (x & -> & Hx). cbn in Hye. by subst.
    + pose proof (f_equal dom H5) as F. rewrite !dom_fmap_L in F. rewrite <- F, dom_insert_lookup_L; [done|by rewrite He].
Qed.

(** *** Removal of an event that is not in the queue *)

Lemma remove_below_absent h e fuel curr next l : inbin h next l -> nodes h l -> e ∉ l -> e <> 0 -> (length l <= fuel)%nat -> remove_below fuel h e curr next = Halt.
Proof.
  revert curr next l. induction fuel as [|fuel IH]; intros curr next l Hb Hn He He0 Hf; (destruct l as [|x l]; [cbn in Hb; subst next; cbn [remove_below]; destruct (Z.eqb_spec 0 e); [congruence|done]|]).
  - cbn in Hf. lia.
  - destruct Hb as [-> Hb]. destruct (Hn x) as [Hx0 [xv Hxv]]; [left|]. apply not_elem_of_cons in He as [Hex He]. cbn [remove_below].
    destruct (Z.eqb_spec x e); [congruence|]. destruct (Z.eqb_spec x 0); [done|]. rewrite Hxv. cbn [elem mbind sim_bind]. rewrite (nib_at _ _ _ Hxv) in Hb.
    apply (IH _ _ l); [done|intros y Hy; apply Hn; by right|done|done|cbn in Hf; lia].
Qed.

Lemma removeItem_absent h e top c' : inbin h top (top :: c') -> nodes h (top :: c') -> NoDup (top :: c') -> e ∉ top :: c' -> e <> 0 -> removeItem h e top = Halt.
Proof.
  intros [_ Hb] Hn Hd He He0. destruct (Hn top) as [_ [tv Htv]]; [left|]. apply not_elem_of_cons in He as [Het He]. unfold removeItem. rewrite Htv. cbn [elem mbind sim_bind].
  destruct (Z.eqb_spec e top); [done|]. rewrite (nib_at _ _ _ Htv) in Hb. rewrite (remove_below_absent h e _ top _ c'); try done; [intros x Hx; apply Hn; by right|].
  assert (length (top :: c') <= size h)%nat.
  { rewrite <- (size_list_to_set (C := gset Z)) by done. rewrite <- size_dom. apply subseteq_size. intros x Hx%elem_of_list_to_set. apply elem_of_dom. by apply Hn. }
  cbn in H. unfold q_fuel. lia.
Qed.

Lemma remove_absent q bs e ev : qshape q bs -> q_events q !! e = Some ev -> e <> 0 -> e ∉ concat bs -> remove q e = Halt.
Proof.
  intros [Hb Hn Hd Ho] He He0 Hin. unfold remove, q_empty. destruct bs as [|b bs]; [cbn in Hb; by rewrite Hb|].
  destruct (bseg_top _ _ _ _ _ Hb Hn) as (b' & v & -> & Hv & Hp0 & Hb' & Hs'). destruct (Z.eqb_spec (q_head q) 0); [done|]. rewrite He. cbn [elem mbind sim_bind].
  destruct (e_queue ev =? q_self q); [|done]. cbn [check mbind sim_bind]. rewrite Hv. cbn [elem mbind sim_bind]. cbn [concat] in *. apply not_elem_of_app in Hin as [Hin1 Hin2].
  pose proof Hn as [Hn1 Hn2]%nodes_app. pose proof Hd as (Hd1 & _ & Hd2)%NoDup_app.
  destruct (eq_event v ev); [rewrite (removeItem_absent _ e _ b') by (try done; apply Hb); done|]. destruct Ho as (_ & _ & Ho3).
  destruct (find_bin_spec (q_events q) ev (q_fuel (q_events q)) (q_head q) (nextBin v) (q_head q :: b') bs) as (bs1 & bs2 & bs0 & bl & prev & curr & -> & -> & H1 & H2 & H3 & H4 & H5 & H6); try done.
  { pose proof (length_bins _ _ _ _ Hs' Hn2 Hd2). unfold q_fuel. lia. }
  sim_step. rewrite concat_app in *. apply nodes_app in Hn2 as [_ Hn22]. apply NoDup_app in Hd2 as (_ & _ & Hd22). apply not_elem_of_app in Hin2 as [_ Hin2].
  destruct bs2 as [|c bs3]; [cbn in H2; by rewrite H2|]. destruct (bseg_top _ _ _ _ _ H2 Hn22) as (c' & cv & -> & Hcv & Hc0 & _ & _). destruct (Z.eqb_spec curr 0); [done|].
  rewrite Hcv. cbn [elem mbind sim_bind]. destruct (negb (eq_event cv ev)); [done|]. cbn [concat] in *. apply nodes_app in Hn22 as [Hnc _]. apply NoDup_app in Hd22 as (Hdc & _).
  apply not_elem_of_app in Hin2 as [Hinc _]. rewrite (removeItem_absent _ e _ c'); try done. apply H2.
Qed.

Lemma deschedule_ok q bs e ev : eqinv q bs -> q_events q !! e = Some ev -> e ∈ concat bs ->
  exists q' bs', deschedule q e = Done q' /\ eqinv q' bs' /\ pending q' bs' = filter (fun y => y.1 <> e) (pending q bs) /\
    q_curTick q' = q_curTick q /\ q_async q' = q_async q /\
    dom (q_events q') = if isSet (e_flags ev) AutoDelete then dom (q_events q) ∖ {[e]} else dom (q_events q).
Proof.
  intros Hi He Hin. pose proof Hi as [Hsh Hdi Hnd Ht]. destruct (di_live _ _ _ Hdi e ev He) as [He0 Hini].
  assert (Hsc : scheduled ev = true) by (assert (Hx : e ∈ concat bs ++ q_async q) by (apply elem_of_app; by left); apply (di_sched _ _ _ Hdi) in Hx as (ev' & E & ?); congruence).
  unfold deschedule. rewrite He. cbn [elem mbind sim_bind]. rewrite Hini, Hsc. cbn [check mbind sim_bind].
  destruct (remove_scheduled q bs e ev Hi He Hin) as (h' & hd' & bs' & -> & R1 & R2 & R3 & R4 & R5 & R6 & R7 & R8). sim_step.
  destruct (same_data_at _ _ _ _ R1 He) as (ev' & He' & E). destruct (erase_data _ _ E) as (E1 & _ & E2 & E3 & E4).
  pose proof R6 as [R6a _]%not_elem_of_app. assert (Hdom : dom h' = dom (q_events q)) by (pose proof (f_equal dom R1) as F; rewrite !dom_fmap_L in F; done).
  set (f := fun ev => with_flags (clear_flags (clear_flags (e_flags ev) Squashed) Scheduled) ev). set (q2 := q_update (q_set q h' hd') e f).
  assert (Hother : forall h2, (forall x, x <> e -> h2 !! x = h' !! x) -> qshape (q_set q h2 hd') bs' /\ pend h2 (concat bs') = pend h' (concat bs')).
  { intros h2 Hx2. apply (qshape_frame (q_set q h' hd') (q_set q h2 hd') bs'); [done|done|]. intros x Hx. unfold same_at, nib, nb, key. cbn. rewrite Hx2 by congruence. done. }
  assert (Hf2 : e_flags ev = e_flags ev' /\ q_events q2 !! e = Some (f ev')) by (split; [done|cbn; by rewrite lookup_alter_eq, He']). destruct Hf2 as [_ Hf2].
  assert (Hti : forall h2, (forall x, x <> e -> h2 !! x = h' !! x) -> forall x, x ∈ concat bs' -> q_curTick q <= (key h2 x).1).
  { intros h2 Hx2 x Hx. unfold key. rewrite Hx2 by congruence. by apply R7. }
  destruct (isSet (e_flags ev) AutoDelete).
  - unfold delete_event. rewrite Hf2. cbn [elem mbind sim_bind]. unfold scheduled. cbn [e_flags f with_flags]. rewrite scheduled_clear. cbn [negb check mbind sim_bind].
    eexists _, bs'. split; [done|]. cbn. rewrite delete_alter_eq.
    assert (Hx2 : forall x, x <> e -> delete e h' !! x = h' !! x) by (intros x Hx; by rewrite lookup_delete_ne by congruence).
    destruct (Hother _ Hx2) as [Hs2 Hp2]. split; [split; [done|done|done|by apply Hti]|]. unfold pending. cbn. rewrite Hp2, R8. split_and!; try done. by rewrite dom_delete_L, Hdom.
  - exists q2, bs'. split; [done|]. assert (Hx2 : forall x, x <> e -> q_events q2 !! x = h' !! x) by (intros x Hx; cbn; by rewrite lookup_alter_ne by congruence).
    destruct (Hother _ Hx2) as [Hs2 Hp2]. split; [split; [done| |done|by apply Hti]|unfold pending; rewrite Hp2, R8; split_and!; try done; cbn; by rewrite dom_alter_L].
    cbn. rewrite (alter_at _ _ _ _ He'), <- insert_delete_eq. apply (data_inv_insert _ _ (concat bs' ++ q_async q)); try done.
    + unfold initialized in *. cbn. rewrite !init_clear by done. rewrite <- E4. done.
    + right. unfold scheduled. cbn. apply scheduled_clear.
    + intros x. unfold scheduled. cbn. rewrite scheduled_clear. destruct (decide (x = e)) as [->|]; [|naive_solver]. split; [done|]. intros [[_ ?]|[? _]]; done.
Qed.

(** *** Which operations succeed *)

Definition legal (q : eventq) (o : eop) : bool :=
  match o with
  | OSchedule e w => from_option (fun ev => negb (scheduled ev) && (q_curTick q <=? w)) false (q_events q !! e)
  | ODeschedule e => from_option scheduled false (q_events q !! e) && bool_decide (e ∉ q_async q)
  | OReschedule e w always => from_option (fun ev => (always || scheduled ev) && (q_curTick q <=? w)) false (q_events q !! e) && bool_decide (e ∉ q_async q)
  | OSquash e => bool_decide (is_Some (q_events q !! e))
  | ONew e p f => negb (e =? 0) && bool_decide (q_events q !! e = None) && (Z.land f (Z.lnot PublicWrite) =? 0)
  | ODelete e => from_option (fun ev => negb (scheduled ev)) false (q_events q !! e)
  end.

Definition spec_eop (q : eventq) (o : eop) (l : list (Z * ekey)) : list (Z * ekey) :=
  let pri e := from_option e_priority 0 (q_events q !! e) in
  match o with
  | OSchedule e w => place (e, (w, pri e)) l
  | ODeschedule e => filter (fun y => y.1 <> e) l
  | OReschedule e w _ => place (e, (w, pri e)) (filter (fun y => y.1 <> e) l)
  | _ => l
  end.

(** An event that is not scheduled is written, created or deleted. *)
Lemma eqinv_other q bs e h' : eqinv q bs -> e ∉ concat bs -> (forall x, x <> e -> h' !! x = q_events q !! x) ->
  data_inv h' (q_self q) (concat bs ++ q_async q) -> eqinv (q_set q h' (q_head q)) bs /\ pending (q_set q h' (q_head q)) bs = pending q bs.
Proof.
  intros [Hsh Hdi Hnd Ht] Hin Hx Hd. destruct (qshape_frame q (q_set q h' (q_head q)) bs Hsh) as [H1 H2]; [done|..].
  { intros x Hxb. unfold same_at, nib, nb, key. cbn. rewrite Hx by congruence. done. }
  split; [|done]. split; try done. intros x Hxb. unfold key. cbn. rewrite Hx by congruence. by apply Ht.
Qed.

Lemma new_flags f : Z.land f (Z.lnot PublicWrite) = 0 -> Z.land (Z.lor Initialized f) InitMask = Initialized /\ isSet (Z.lor Initialized f) Scheduled = false.
Proof.
  intros Hf. assert (Hb : forall i, 0 <= i -> Z.testbit f i = true -> Z.testbit PublicWrite i = true).
  { intros i Hi Ht. assert (E : Z.testbit (Z.land f (Z.lnot PublicWrite)) i = false) by (rewrite Hf; apply Z.testbit_0_l). rewrite Z.land_spec, Z.lnot_spec, Ht in E by done. by destruct (Z.testbit PublicWrite i). }
  split.
  - rewrite Z.land_lor_distr_l. assert (Z.land f InitMask = 0) as ->; [|done]. apply Z.bits_inj'. intros i Hi. rewrite Z.land_spec, Z.testbit_0_l.
    destruct (Z.testbit f i) eqn:E; [|done]. specialize (Hb i Hi E). assert (Z.testbit (Z.land PublicWrite InitMask) i = false) as E2 by (change (Z.land PublicWrite InitMask) with 0; apply Z.testbit_0_l).
    rewrite Z.land_spec, Hb in E2. done.
  - rewrite scheduled_bit, Z.lor_spec. change (Z.testbit Initialized 1) with false. destruct (Z.testbit f 1) eqn:E; [|done]. specialize (Hb 1 ltac:(lia) E). done.
Qed.

Lemma unscheduled q bs e ev : eqinv q bs -> q_events q !! e = Some ev -> scheduled ev = false -> e ∉ concat bs ++ q_async q.
Proof. intros Hi He Hs. rewrite (di_sched _ _ _ (iq_data _ _ Hi)). intros (ev' & E & ?). congruence. Qed.

Lemma is_scheduled q bs e ev : eqinv q bs -> e ∉ q_async q -> q_events q !! e = Some ev -> scheduled ev = true -> e ∈ concat bs.
Proof. intros Hi Ha He Hs. assert (H : e ∈ concat bs ++ q_async q) by (apply (di_sched _ _ _ (iq_data _ _ Hi)); eauto). apply elem_of_app in H. tauto. Qed.

(** An event that another thread has scheduled is not in a bin yet. *)
Lemma remove_async q bs e ev : eqinv q bs -> q_events q !! e = Some ev -> e ∈ q_async q -> remove q e = Halt.
Proof.
  intros [Hsh Hdi Hnd _] He Ha. apply (remove_absent q bs e ev Hsh He); [by eapply di_live|]. apply NoDup_app in Hnd as (_ & Hn & _). intros Hin. by apply (Hn e).
Qed.

(** Flags other than [Scheduled] are written. *)
Lemma eqinv_flags q bs e ev (f : Z -> Z) : eqinv q bs -> q_events q !! e = Some ev -> (forall z, isSet (f z) Scheduled = isSet z Scheduled) ->
  (forall z, Z.land (f z) InitMask = Z.land z InitMask) ->
  let q' := q_update q e (fun ev => with_flags (f (e_flags ev)) ev) in eqinv q' bs /\ pending q' bs = pending q bs.
Proof.
  intros [Hsh Hdi Hnd Ht] He Hf1 Hf2 q'. destruct (qshape_frame q q' bs Hsh) as [H1 H2]; [done|intros x _; apply (same_at_flags _ e (fun ev => f (e_flags ev)))|].
  split; [|done]. split; try done.
  - cbn. rewrite (alter_at _ _ _ _ He). destruct (di_live _ _ _ Hdi e ev He) as [He0 Hini]. apply (data_inv_insert _ _ (concat bs ++ q_async q)); try done.
    + unfold initialized in *. cbn. by rewrite Hf2.
    + cbn. unfold scheduled. cbn. rewrite Hf1. destruct (isSet (e_flags ev) Scheduled) eqn:E; [left|by right]. eapply di_queue; [done| |done]. apply (di_sched _ _ _ Hdi). eauto.
    + intros x. unfold scheduled. cbn. rewrite Hf1. destruct (decide (x = e)) as [->|]; [|naive_solver]. rewrite (di_sched _ _ _ Hdi), He. unfold scheduled. naive_solver.
  - intros x Hx. destruct (same_at_flags (q_events q) e (fun ev => f (e_flags ev)) x) as (_ & _ & E & _). cbn. rewrite E. by apply Ht.
Qed.

Lemma exec_eop_ok q bs o : eqinv q bs -> legal q o = true ->
  exists q' bs', exec_eop q o = Done q' /\ eqinv q' bs' /\ pending q' bs' = spec_eop q o (pending q bs) /\ q_curTick q' = q_curTick q /\ q_async q' = q_async q.
Proof.
  intros Hi Hl. destruct o as [e w|e|e w always|e|e p f|e]; cbn [legal exec_eop spec_eop] in *.
  - destruct (q_events q !! e) as [ev|] eqn:He; [|done]. cbn in *. apply andb_true_iff in Hl as [Hs%negb_true_iff Hw%Z.leb_le].
    destruct (schedule_ok q bs e ev w) as (q' & bs' & H1 & H2 & H3 & H4 & H5 & _); try done. by exists q', bs'.
  - destruct (q_events q !! e) as [ev|] eqn:He; [|done]. cbn in *. apply andb_true_iff in Hl as [Hs Hna%bool_decide_eq_true].
    destruct (deschedule_ok q bs e ev) as (q' & bs' & H1 & H2 & H3 & H4 & H5 & _); try done; [by eapply is_scheduled|]. by exists q', bs'.
  - destruct (q_events q !! e) as [ev|] eqn:He; [|done]. cbn in *. rewrite !andb_true_iff, bool_decide_eq_true in Hl. destruct Hl as [[Hs%orb_true_iff Hw%Z.leb_le] Hna].
    destruct (reschedule_ok q bs e ev w always) as (q' & bs' & H1 & H2 & H3 & H4 & H5 & _); try done. by exists q', bs'.
  - apply bool_decide_eq_true in Hl as [ev He]. rewrite He. cbn [elem mbind sim_bind]. destruct (eqinv_flags q bs e ev (fun z => set_flags z Squashed)) as [H1 H2]; try done.
    + intros z. apply scheduled_set_squashed.
    + intros z. by apply init_set.
    + eexists _, bs. split; [done|]. split; [done|]. by cbn.
  - rewrite !andb_true_iff, negb_true_iff, bool_decide_eq_true, Z.eqb_eq in Hl. destruct Hl as [[Hl1%Z.eqb_neq Hl2] Hl3]. destruct (Z.eqb_spec e 0); [done|]. rewrite bool_decide_false by (rewrite Hl2; by intros [??]).
    cbn [orb]. unfold Event_new. rewrite Hl3, Z.eqb_refl. cbn [check mbind sim_bind]. destruct (new_flags f Hl3) as [N1 N2].
    assert (Hn : e ∉ concat bs ++ q_async q) by (rewrite (di_sched _ _ _ (iq_data _ _ Hi)); intros (ev' & E & _); congruence).
    eexists _, bs. split; [done|]. destruct (eqinv_other q bs e (<[e := mkEv 0 0 0 p (Z.lor Initialized f) 0]> (q_events q)) Hi) as [H1 H2]; try done.
    + apply not_elem_of_app in Hn. tauto.
    + intros x Hx. by rewrite lookup_insert_ne.
    + eapply data_inv_insert; [apply Hi|done| |by right|]; [unfold initialized; cbn; by rewrite N1|]. intros x. unfold scheduled. cbn. rewrite N2. destruct (decide (x = e)) as [->|]; [|naive_solver]. split; [done|]. intros [[_ ?]|[? _]]; done.
  - destruct (q_events q !! e) as [ev|] eqn:He; [|done]. cbn in *. unfold delete_event. rewrite He. cbn [elem mbind sim_bind]. rewrite Hl. cbn [check mbind sim_bind]. apply negb_true_iff in Hl.
    pose proof (unscheduled q bs e ev Hi He Hl) as Hn. eexists _, bs. split; [done|]. destruct (eqinv_other q bs e (delete e (q_events q)) Hi) as [H1 H2]; try done.
    + apply not_elem_of_app in Hn. tauto.
    + intros x Hx. by rewrite lookup_delete_ne by congruence.
    + eapply data_inv_delete; [apply Hi|]. intros x. destruct (decide (x = e)) as [->|]; tauto.
Qed.

Lemma exec_eop_illegal q bs o q' : eqinv q bs -> legal q o = false -> exec_eop q o <> Done q'.
Proof.
  intros Hi Hl H. destruct o as [e w|e|e w always|e|e p f|e]; cbn [legal exec_eop] in *.
  1,2,3,6: destruct (q_events q !! e) as [ev|] eqn:He; cbn in Hl; [|by unfold schedule, deschedule, reschedule, delete_event in H; rewrite He in H].
  - unfold schedule in H. rewrite He in H. cbn [elem mbind sim_bind] in H. sim_inv. by rewrite E, E0 in Hl.
  - unfold deschedule in H. rewrite He in H. cbn [elem mbind sim_bind] in H. sim_inv. rewrite E in Hl. cbn in Hl. apply bool_decide_eq_false in Hl. by rewrite (remove_async q bs e ev) in E1 by (try done; by apply dec_stable).
  - unfold reschedule in H. rewrite He in H. cbn [elem mbind sim_bind] in H. sim_inv. rewrite E, E0 in Hl. cbn in Hl. apply bool_decide_eq_false, dec_stable in Hl.
    assert (Hs : scheduled ev = true) by (assert (Hx : e ∈ concat bs ++ q_async q) by (apply elem_of_app; by right); apply (di_sched _ _ _ (iq_data _ _ Hi)) in Hx as (ev' & E' & ?); congruence).
    rewrite Hs in E2. by rewrite (remove_async q bs e ev) in E2.
  - unfold delete_event in H. rewrite He in H. cbn in H. by rewrite Hl in H.
  - apply bool_decide_eq_false in Hl. destruct (q_events q !! e); [|done]. destruct Hl. eauto.
  - destruct (Z.eqb_spec e 0); [done|]. cbn [negb orb] in *. case_bool_decide as E; [done|]. rewrite bool_decide_true in Hl by (by apply eq_None_not_Some). cbn in Hl. unfold Event_new in H. rewrite Hl in H. done.
Qed.

Lemma exec_eops_inv l : forall q bs q', eqinv q bs -> exec_eops q l = Done q' ->
  exists bs', eqinv q' bs' /\ q_curTick q' = q_curTick q /\ q_async q' = q_async q.
Proof.
  induction l as [|o l IH]; intros q bs q' Hi H; cbn in H; [injection H as <-; eauto|]. apply bind_Done in H as (q1 & H1 & H2).
  destruct (legal q o) eqn:Hl; [|by destruct (exec_eop_illegal q bs o q1)]. destruct (exec_eop_ok q bs o Hi Hl) as (q1' & bs1 & E & Hi1 & _ & Ht & Ha1).
  rewrite H1 in E. injection E as <-. destruct (IH q1 bs1 q' Hi1 H2) as (bs' & ? & Ht' & Ha'). exists bs'. by rewrite Ht', Ht, Ha', Ha1.
Qed.

(** ** Running the events *)

Lemma pop_shape q b bs v : let e := q_head q in let q1 := q_update q e (fun ev => with_flags (clear_flags (e_flags ev) Scheduled) ev) in
  qshape q ((e :: b) :: bs) -> q_events q !! e = Some v ->
  exists q2 bs', pop_head q v = Done q2 /\ qshape q2 bs' /\ concat bs' = b ++ concat bs /\ same_data (q_events q1) (q_events q2) /\
    q_self q2 = q_self q /\ q_curTick q2 = q_curTick q /\ q_async q2 = q_async q.
Proof.
  intros e q1 Hsh Hv. destruct (qshape_frame q q1 _ Hsh) as [[Hb Hn Hd Ho] _]; [done|intros x _; apply (same_at_flags _ e (fun ev => clear_flags (e_flags ev) Scheduled))|].
  assert (Hv1 : q_events q1 !! e = Some (with_flags (clear_flags (e_flags v) Scheduled) v)) by (cbn; by rewrite lookup_alter_eq, Hv).
  destruct (bseg_top _ _ _ _ _ Hb Hn) as (b1 & v1 & [= <-] & Hv1' & _ & Hib & Hs). fold e in Hv1'. change (q_head q1) with e in Hv1'. rewrite Hv1 in Hv1'. injection Hv1' as <-. cbn [nextInBin nextBin with_flags] in Hib, Hs.
  cbn [concat] in Hn, Hd. pose proof Hn as [Hn1 Hn2]%nodes_app. pose proof Hd as (Hd1 & Hd12 & Hd2)%NoDup_app. apply NoDup_cons in Hd1 as [Heb Hdb]. destruct Ho as (Ho1 & Ho2 & Ho3).
  unfold pop_head. fold e. fold q1. destruct b as [|n b].
  - cbn in Hib. rewrite Hib. cbn. eexists _, bs. split; [done|]. by split_and!.
  - destruct Hib as [En Hib]. rewrite En. destruct (Hn1 n) as [Hn0 [nv Hnv]]; [right; left|]. destruct (Z.eqb_spec n 0); [done|]. rewrite Hnv. cbn [elem mbind sim_bind].
    eexists _, ((n :: b) :: bs). split; [done|]. assert (Hs2 : same_data (q_events q1) (<[n := with_nextBin (nextBin v) nv]> (q_events q1))) by by apply same_data_links. split_and!; try done. split.
    + cbn [q_events q_head q_set]. split; [done|]. split.
      * assert (Hnib : forall x, nib (<[n := with_nextBin (nextBin v) nv]> (q_events q1)) x = nib (q_events q1) x).
        { intros x. rewrite insert_nib. case_decide as Hx; [rewrite Hx, (nib_at _ _ _ Hnv); done|done]. }
        split; [done|]. rewrite Hnib. eapply inbin_frame; [|exact Hib]. done.
      * rewrite insert_nb, decide_True by done. cbn. eapply bseg_frame; [|exact Hs]. intros x Hx. rewrite insert_nb, insert_nib, !decide_False; [done|intros ->..]; (eapply Hd12; [|exact Hx]; by right; left).
    + apply (nodes_same _ _ _ Hs2). intros x Hx. apply Hn. cbn in *. by right.
    + cbn [concat]. apply NoDup_app. split_and!; try done. intros x Hx. apply Hd12. by right.
    + eapply ordered_ext; [intros x _; by apply same_data_key|]. split_and!; try done; [intros x y Hx Hy; apply Ho1; by right|intros x y Hx; apply Ho2; by right].
Qed.

(** The head is taken off the queue: nothing that is still pending is earlier. *)
Lemma service_pop q bs : eqinv q bs -> q_head q <> 0 ->
  exists hv q2 bs' ev2, q_events q !! q_head q = Some hv /\ pop_head q hv = Done q2 /\ eqinv q2 bs' /\ pending q bs = (q_head q, kof hv) :: pending q2 bs' /\
    q_curTick q2 = q_curTick q /\ q_async q2 = q_async q /\ (forall x, x ∈ concat bs' -> e_when hv <= (key (q_events q2) x).1) /\ q_curTick q <= e_when hv /\
    q_events q2 !! q_head q = Some ev2 /\ e_flags ev2 = clear_flags (e_flags hv) Scheduled.
Proof.
  intros [Hsh Hdi Hnd Ht] H0. destruct bs as [|b bs]; [destruct Hsh as [Hb _ _ _]; by destruct H0|].
  destruct (bseg_top _ _ _ _ _ (qs_bins _ _ Hsh) (qs_nodes _ _ Hsh)) as (b' & hv & -> & Hv & _).
  destruct (pop_shape q b' bs hv Hsh Hv) as (q2 & bs' & H1 & H2 & H3 & H4 & H5 & H6 & H7). set (e := q_head q) in *. cbn [concat] in *.
  assert (Hkey : forall x, x <> e -> key (q_events q2) x = key (q_events q) x).
  { intros x Hx. rewrite (same_data_key _ _ x H4). cbn. unfold key. by rewrite lookup_alter_ne by congruence. }
  assert (He' : e ∉ concat bs' ++ q_async q) by (rewrite H3; by apply NoDup_cons in Hnd as [? _]).
  pose proof He' as [Heb _]%not_elem_of_app. assert (Hsub : forall x, x ∈ concat bs' -> x ∈ (e :: b') ++ concat bs) by (intros x; rewrite H3; by right).
  destruct (same_data_at _ _ e (with_flags (clear_flags (e_flags hv) Scheduled) hv) H4) as (ev2 & Hev2 & (_ & _ & _ & _ & Hfl)%erase_data); [cbn; by rewrite lookup_alter_eq, Hv|].
  exists hv, q2, bs', ev2. split_and!; try done.
  - destruct (di_live _ _ _ Hdi e hv Hv) as [He0 Hini]. split; [done| | |].
    + rewrite H5, H7. apply (data_inv_same _ _ _ _ H4). cbn. rewrite (alter_at _ _ _ _ Hv). eapply data_inv_insert; [exact Hdi|done| |right; apply scheduled_clear|].
      * unfold initialized in *. cbn. by rewrite init_clear.
      * intros x. unfold scheduled. cbn. rewrite scheduled_clear, H3. destruct (decide (x = e)) as [->|Hx]; [rewrite <- H3; split; [done|intros [[_ ?]|[? _]]; done]|]. rewrite elem_of_cons. naive_solver.
    + rewrite H3, H7. by apply NoDup_cons in Hnd as [_ ?].
    + intros x Hx. rewrite H6, Hkey by congruence. auto.
  - unfold pending. cbn [concat]. rewrite H3. cbn. rewrite (key_at _ _ _ Hv). f_equal. rewrite <- H3. unfold pend. apply list_fmap_ext. intros i x Hx%list_elem_of_lookup_2. rewrite Hkey by congruence. done.
  - intros x Hx. rewrite Hkey by congruence. pose proof (qs_order _ _ Hsh) as (Ho1 & Ho2 & _). pose proof (key_at _ _ _ Hv) as Ek. apply Hsub in Hx as [Hx|Hx]%elem_of_app.
    + rewrite (Ho1 x e), Ek by (done || left). cbn. lia.
    + pose proof (Ho2 e x ltac:(left) Hx) as Hk. rewrite Ek in Hk. unfold klt in Hk. cbn in Hk. lia.
  - pose proof (Ht e ltac:(left)) as Hk. by rewrite (key_at _ _ _ Hv) in Hk.
Qed.

Lemma eqinv_tick q bs t : eqinv q bs -> (forall x, x ∈ concat bs -> t <= (key (q_events q) x).1) -> eqinv (setCurTick q t) bs /\ pending (setCurTick q t) bs = pending q bs.
Proof. intros [[Hb Hn Hd Ho] Hdi Hnd Ht] Hle. split; [|done]. by split. Qed.

Section loops.
Context (process : Z -> eventq -> list eop).

Lemma serviceOne_inv q bs q' r : eqinv q bs -> serviceOne process q = Done (q', r) ->
  exists bs' hv, q_events q !! q_head q = Some hv /\ eqinv q' bs' /\ q_async q' = q_async q /\ q_curTick q' = (if squashed hv then q_curTick q else e_when hv) /\ q_curTick q <= e_when hv.
Proof.
  intros Hi Hs. unfold serviceOne in Hs. assert (H0 : q_head q <> 0).
  { intros E. rewrite E in Hs. destruct (q_events q !! 0) as [ev|] eqn:E0; [|done]. by destruct (di_live _ _ _ (iq_data _ _ Hi) 0 ev E0). }
  destruct (service_pop q bs Hi H0) as (hv & q2 & bs2 & ev2 & Hv & Hpop & Hi2 & _ & Ht2 & Ha2 & Hle & Hlt & Hev2 & Hfl). rewrite Hv in Hs. cbn [elem mbind sim_bind] in Hs. rewrite Hpop in Hs. cbn [elem mbind sim_bind] in Hs.
  apply bind_Done in Hs as ([q3 exit] & Hq3 & Hs).
  assert (H3 : exists bs3, eqinv q3 bs3 /\ q_async q3 = q_async q /\ q_curTick q3 = if squashed hv then q_curTick q else e_when hv).
  { destruct (squashed hv) eqn:Esq.
    - injection Hq3 as <- <-. destruct (eqinv_flags q2 bs2 (q_head q) ev2 (fun z => clear_flags z Squashed) Hi2 Hev2) as [Hi3 _]; [intros z; apply scheduled_clear_squashed|intros z; by apply init_clear|].
      exists bs2. split; [exact Hi3|]. cbn. by rewrite Ha2, Ht2.
    - destruct (eqinv_tick q2 bs2 (e_when hv) Hi2 Hle) as [Hi2' _]. apply bind_Done in Hq3 as (q3' & Hex & Hq3). destruct (exec_eops_inv _ _ _ _ Hi2' Hex) as (bs3 & Hi3 & Ht3 & Ha3).
      assert (E : q3' = q3) by (sim_inv; destruct (isSet (e_flags v) IsExitEvent); sim_inv; congruence). subst q3'. exists bs3. by rewrite Ht3, Ha3. }
  destruct H3 as (bs3 & Hi3 & Ha3 & Ht3). destruct exit; [injection Hs as <- <-; by exists bs3, hv|].
  apply bind_Done in Hs as (ev3 & Hev3%elem_Done & Hs). destruct (isSet (e_flags ev3) AutoDelete && negb (scheduled ev3)) eqn:E; [|injection Hs as <- <-; by exists bs3, hv].
  apply andb_true_iff in E as [_ E]. apply bind_Done in Hs as (q4 & Hdel & Hs). injection Hs as <- <-.
  destruct (exec_eop_ok q3 bs3 (ODelete (q_head q)) Hi3) as (q4' & bs4 & Hd4 & Hi4 & _ & Ht4 & Ha4); [cbn; by rewrite Hev3|].
  cbn in Hd4. rewrite Hdel in Hd4. injection Hd4 as <-. exists bs4, hv. by rewrite Ht4, Ha4.
Qed.
End loops.

(** Events stay alive when the head is taken off. *)
Lemma pop_alive q hv q2 x : pop_head q hv = Done q2 -> is_Some (q_events q !! x) -> is_Some (q_events q2 !! x).
Proof.
  unfold pop_head. intros Hp Hx. assert (H1 : forall f, is_Some (q_events (q_update q (q_head q) f) !! x)).
  { intros f. cbn. destruct (decide (x = q_head q)) as [->|]; [rewrite lookup_alter_eq; by apply fmap_is_Some|by rewrite lookup_alter_ne by congruence]. }
  destruct (nextInBin hv =? 0); [injection Hp as <-; apply H1|]. sim_inv. cbn [q_events q_set]. destruct (decide (x = nextInBin hv)) as [->|]; [by rewrite lookup_insert_eq|].
  rewrite lookup_insert_ne by congruence. apply H1.
Qed.

(** ** Traversals *)

Lemma length_nodes h l : nodes h l -> NoDup l -> (length l <= size h)%nat.
Proof.
  intros Hn Hd. rewrite <- (size_list_to_set (C := gset Z)) by done. rewrite <- size_dom. apply subseteq_size. intros x Hx%elem_of_list_to_set. apply elem_of_dom. by apply Hn.
Qed.

Lemma walk_stack_ok h fuel p b : inbin h p b -> nodes h b -> (length b <= fuel)%nat -> walk_stack fuel h p = Done b.
Proof.
  revert p b. induction fuel as [|fuel IH]; intros p b Hb Hn Hf; (destruct b as [|x b]; [cbn in Hb; by subst p|]); [cbn in Hf; lia|].
  destruct Hb as [-> Hb]. destruct (Hn x) as [Hx0 [xv Hxv]]; [left|]. cbn [walk_stack]. destruct (Z.eqb_spec x 0); [done|]. rewrite Hxv. cbn [elem mbind sim_bind]. rewrite (nib_at _ _ _ Hxv) in Hb.
  rewrite (IH _ b); [done|done|intros y Hy; apply Hn; by right|cbn in Hf; lia].
Qed.

Lemma walk_bins_ok h fuel p bs : bseg h p bs 0 -> nodes h (concat bs) -> NoDup (concat bs) -> (length bs <= fuel)%nat -> walk_bins fuel h p = Done (concat bs).
Proof.
  revert p bs. induction fuel as [|fuel IH]; intros p bs Hb Hn Hd Hf; (destruct bs as [|b bs]; [cbn in Hb; by subst p|]); [cbn in Hf; lia|].
  destruct (bseg_top _ _ _ _ _ Hb Hn) as (b' & v & -> & Hv & Hp0 & _ & Hs). cbn [walk_bins]. destruct (Z.eqb_spec p 0); [done|]. rewrite Hv. cbn [elem mbind sim_bind concat] in *.
  apply nodes_app in Hn as [Hn1 Hn2]. apply NoDup_app in Hd as (Hd1 & _ & Hd2). rewrite (walk_stack_ok h _ p (p :: b')); [|apply Hb|done|pose proof (length_nodes _ _ Hn1 Hd1); unfold q_fuel; lia].
  cbn [mbind sim_bind]. rewrite (IH _ bs); [done|done|done|done|cbn in Hf; lia].
Qed.

Lemma walk_ok q bs : qshape q bs -> walk q = Done (concat bs).
Proof. intros [Hb Hn Hd _]. apply walk_bins_ok; try done. pose proof (length_bins _ _ _ _ Hb Hn Hd). unfold q_fuel. lia. Qed.

(** The events of the queue with their ticks and priorities. *)
Definition listing (q : eventq) : sim (list (Z * ekey)) := l ← walk q; Done (pend (q_events q) l).

Lemma listing_ok q bs : eqinv q bs -> listing q = Done (pending q bs).
Proof. intros Hi. unfold listing. by rewrite (walk_ok q bs) by apply Hi. Qed.

(** No event before an earlier one. *)
Definition in_order (l : list (Z * ekey)) : Prop := StronglySorted (fun a b => ~ klt b.2 a.2) l.

Lemma same_sorted h b : (forall x y, x ∈ b -> y ∈ b -> key h x = key h y) -> in_order (pend h b).
Proof.
  induction b as [|x b IH]; intros Hk; [apply SSorted_nil|]. apply SSorted_cons; [apply IH; intros y z Hy Hz; apply Hk; by right|].
  apply Forall_fmap, Forall_forall. intros y Hy. cbn. rewrite (Hk y x) by (first [by right|left]). apply klt_irrefl.
Qed.

Lemma ordered_sorted h bs : ordered (key h) bs -> in_order (pend h (concat bs)).
Proof.
  induction bs as [|b bs IH]; [intros _; apply SSorted_nil|]. intros (H1 & H2 & H3). cbn [concat]. rewrite pend_app. apply StronglySorted_app_2; [|by apply same_sorted|by apply IH].
  intros a c Ha Hc. apply list_elem_of_fmap in Ha as (x & -> & Hx). apply list_elem_of_fmap in Hc as (y & -> & Hy). cbn. intros Hlt. apply (klt_irrefl (key h x)). apply (klt_trans _ (key h y)); [by apply H2|done].
Qed.

(** [debugVerify] on the list of events. *)
Fixpoint verify_list (h : gmap Z event) (st : vstate) (l : list Z) : option vstate :=
  match l with [] => Some st | e :: l' => ev ← h !! e; st' ← verify_one st e ev; verify_list h st' l' end.

Lemma verify_list_app h st l1 l2 : verify_list h st (l1 ++ l2) = verify_list h st l1 ≫= fun st' => verify_list h st' l2.
Proof. revert st. induction l1 as [|e l1 IH]; intros st; cbn; [done|]. destruct (h !! e); [|done]. cbn. destruct (verify_one st e e0); [apply IH|done]. Qed.

Lemma verify_stack_ok h fuel st p b : inbin h p b -> nodes h b -> (length b <= fuel)%nat -> verify_stack fuel h st p = Done (verify_list h st b).
Proof.
  revert st p b. induction fuel as [|fuel IH]; intros st p b Hb Hn Hf; (destruct b as [|x b]; [cbn in Hb; by subst p|]); [cbn in Hf; lia|].
  destruct Hb as [-> Hb]. destruct (Hn x) as [Hx0 [xv Hxv]]; [left|]. cbn [verify_stack verify_list]. destruct (Z.eqb_spec x 0); [done|]. rewrite Hxv. cbn [elem mbind sim_bind option_bind]. rewrite (nib_at _ _ _ Hxv) in Hb.
  destruct (verify_one st x xv); [|done]. cbn. apply IH; [done|intros y Hy; apply Hn; by right|cbn in Hf; lia].
Qed.

Lemma verify_bins_ok h fuel st p bs : bseg h p bs 0 -> nodes h (concat bs) -> NoDup (concat bs) -> (length bs <= fuel)%nat ->
  verify_bins fuel h st p = Done (bool_decide (is_Some (verify_list h st (concat bs)))).
Proof.
  revert st p bs. induction fuel as [|fuel IH]; intros st p bs Hb Hn Hd Hf; (destruct bs as [|b bs]; [cbn in Hb; by subst p|]); [cbn in Hf; lia|].
  destruct (bseg_top _ _ _ _ _ Hb Hn) as (b' & v & -> & Hv & Hp0 & _ & Hs). cbn [verify_bins]. destruct (Z.eqb_spec p 0); [done|]. rewrite Hv. cbn [elem mbind sim_bind concat] in *.
  apply nodes_app in Hn as [Hn1 Hn2]. apply NoDup_app in Hd as (Hd1 & _ & Hd2). rewrite (verify_stack_ok h _ _ p (p :: b')); [|apply Hb|done|pose proof (length_nodes _ _ Hn1 Hd1); unfold q_fuel; lia].
  cbn [mbind sim_bind]. rewrite verify_list_app. destruct (verify_list h st (p :: b')) as [st'|]; [|done]. cbn [mbind option_bind]. apply IH; [done|done|done|cbn in Hf; lia].
Qed.

(** In the order of the queue no check fails after the first event. *)
Lemma verify_sorted h seen d time pri l : nodes h l -> NoDup l -> (forall e, e ∈ l -> e ∉ seen) -> in_order ((d, (time, pri)) :: pend h l) -> is_Some (verify_list h (seen, time, pri) l).
Proof.
  revert seen d time pri. induction l as [|e l IH]; intros seen d time pri Hn Hd Hs Ho; [by eexists|]. destruct (Hn e) as [_ [ev He]]; [left|]. apply NoDup_cons in Hd as [Hel Hd].
  apply StronglySorted_inv in Ho as [Ho Hf]. cbn [pend fmap list_fmap] in Ho, Hf. apply Forall_cons in Hf as [Hk _]. unfold klt in Hk. cbn in Hk. rewrite (key_at _ _ _ He) in Ho, Hk. cbn in Hk.
  cbn [verify_list]. rewrite He. cbn [mbind option_bind verify_one]. destruct (Z.ltb_spec (e_when ev) time); [lia|].
  assert ((e_when ev =? time) && (e_priority ev <? pri) = false) as -> by (destruct (Z.eqb_spec (e_when ev) time), (Z.ltb_spec (e_priority ev) pri); cbn; done || lia).
  rewrite bool_decide_false by (apply Hs; left). cbn [mbind option_bind]. apply (IH _ e); [intros x Hx; apply Hn; by right|done| |].
  - intros x Hx. rewrite elem_of_union, elem_of_singleton. intros [->|Hx']; [done|]. by apply (Hs x); [right|].
  - apply StronglySorted_inv in Ho as [Ho Hf]. apply SSorted_cons; [done|]. exact Hf.
Qed.

Lemma debugVerify_ok q bs : eqinv q bs -> 0 <= q_curTick q ->
  debugVerify q = Done (match pending q bs with (_, (w, p)) :: _ => negb ((w =? 0) && (p <? 0)) | [] => true end).
Proof.
  intros Hi H0. pose proof (ordered_sorted _ _ (qs_order _ _ (iq_shape _ _ Hi))) as Hso. pose proof Hi as [[Hb Hn Hd _] _ _ Ht]. unfold debugVerify.
  rewrite (verify_bins_ok _ _ _ _ bs Hb Hn Hd) by (pose proof (length_bins _ _ _ _ Hb Hn Hd); unfold q_fuel; lia). f_equal. unfold pending. clear Hi Hb.
  destruct (concat bs) as [|e l]; [done|]. destruct (Hn e) as [_ [ev He]]; [left|]. pose proof (Ht e ltac:(left)) as Hte. cbn [pend fmap list_fmap] in *. rewrite (key_at _ _ _ He) in Hte, Hso |- *. cbn in Hte. cbn [verify_list kof].
  rewrite He. cbn [mbind option_bind verify_one]. destruct (Z.ltb_spec (e_when ev) 0); [lia|]. destruct ((e_when ev =? 0) && (e_priority ev <? 0)); [done|].
  rewrite (bool_decide_false (e ∈ _)) by apply not_elem_of_empty. cbn [mbind option_bind negb]. apply bool_decide_true. apply NoDup_cons in Hd as [Hel Hd].
  apply (verify_sorted _ _ e); [intros x Hx; apply Hn; by right|done| |exact Hso]. intros x Hx. rewrite elem_of_union, elem_of_singleton. intros [->|[]%not_elem_of_empty]; done.
Qed.

(** ** Events from other threads *)

Lemma schedule_async_ok q bs e ev w : eqinv q bs -> q_events q !! e = Some ev -> scheduled ev = false -> q_curTick q <= w ->
  exists q', schedule q e w true = Done q' /\ eqinv q' bs /\ pending q' bs = pending q bs /\ q_curTick q' = q_curTick q /\ q_async q' = q_async q ++ [e].
Proof.
  intros Hi He Hs Hw. pose proof Hi as [Hsh Hdi Hnd Ht]. destruct (di_live _ _ _ Hdi e ev He) as [He0 Hini]. pose proof (unscheduled q bs e ev Hi He Hs) as Hin.
  unfold schedule. rewrite He. cbn [elem mbind sim_bind]. rewrite Hs, Hini. destruct (Z.leb_spec (q_curTick q) w); [|lia]. cbn [check negb mbind sim_bind]. eexists. split; [done|].
  set (ev' := with_flags (set_flags (e_flags ev) Scheduled) (setWhen w (q_self q) ev)).
  assert (Hh : alter (fun ev => with_flags (set_flags (e_flags ev) Scheduled) ev) e (alter (setWhen w (q_self q)) e (q_events q)) = <[e := ev']> (q_events q)).
  { rewrite (alter_at _ e ev _ He). rewrite (alter_at _ e (setWhen w (q_self q) ev)) by apply lookup_insert_eq. by rewrite insert_insert_eq. }
  pose proof Hin as [Hinb Hina]%not_elem_of_app. unfold q_update, q_set, asyncInsert, set_async. cbn. rewrite Hh.
  destruct (qshape_frame q (mkQ (q_self q) (<[e := ev']> (q_events q)) (q_head q) (q_curTick q) (q_async q ++ [e])) bs Hsh) as [H1 H2]; [done| |].
  { intros x Hx. unfold same_at, nib, nb, key. cbn. rewrite lookup_insert_ne by congruence. done. }
  split; [|done]. split; cbn; [done| | |].
  - apply (data_inv_insert _ _ (concat bs ++ q_async q)); try done.
    + unfold initialized in *. cbn. by rewrite init_set.
    + by left.
    + intros x. unfold scheduled. cbn. rewrite scheduled_set, !elem_of_app, list_elem_of_singleton. rewrite elem_of_app in Hin. destruct (decide (x = e)) as [->|]; naive_solver.
  - rewrite app_assoc. apply NoDup_app. split; [done|]. split; [|apply NoDup_singleton]. intros x Hx ->%list_elem_of_singleton. done.
  - intros x Hx. unfold key. rewrite lookup_insert_ne by congruence. by apply Ht.
Qed.

(** The order in which the events of [l] are put into the queue. *)
Definition merge (h : gmap Z event) (l : list Z) (p : list (Z * ekey)) : list (Z * ekey) := fold_left (fun p e => place (e, key h e) p) l p.

Lemma merge_same h h' l p : same_data h h' -> merge h' l p = merge h l p.
Proof. intros Hs. unfold merge. revert p. induction l as [|e l IH]; intros p; [done|]. cbn. by rewrite (same_data_key h h'), IH. Qed.

Lemma insert_all_ok l : forall q bs, qshape q bs -> data_inv (q_events q) (q_self q) (concat bs ++ l) -> NoDup (concat bs ++ l) ->
  exists h' hd' bs', insert_all q l = Done (q_set q h' hd') /\ same_data (q_events q) h' /\ qshape (q_set q h' hd') bs' /\
    pend h' (concat bs') = merge (q_events q) l (pend (q_events q) (concat bs)) /\ concat bs' ≡ₚ concat bs ++ l.
Proof.
  induction l as [|e l IH]; intros q bs Hsh Hdi Hnd.
  - exists (q_events q), (q_head q), bs. rewrite app_nil_r. by destruct q.
  - assert (He : e ∈ concat bs ++ e :: l) by (apply elem_of_app; right; left). pose proof He as (ev & Hev & _)%(di_sched _ _ _ Hdi).
    assert (Hin : e ∉ concat bs) by (apply NoDup_app in Hnd as (_ & Hn & _); intros Hx; apply (Hn e Hx); left).
    destruct (qshape_insert q bs e Hsh ltac:(by rewrite Hev) ltac:(by eapply di_live) Hin) as (h1 & hd1 & bs1 & Hins & Hs1 & Hsh1 & Hp1 & Hperm). cbn [insert_all]. rewrite Hins. cbn [mbind sim_bind].
    assert (Hpl : concat bs1 ++ l ≡ₚ concat bs ++ e :: l) by (rewrite Hperm; cbn; apply Permutation_middle).
    destruct (IH (q_set q h1 hd1) bs1 Hsh1) as (h' & hd' & bs' & H1 & H2 & H3 & H4 & H5).
    + cbn. apply (data_inv_same (q_events q)); [done|]. split; [apply Hdi|intros x; rewrite Hpl; apply Hdi|intros x xv; rewrite Hpl; apply Hdi].
    + by rewrite Hpl.
    + exists h', hd', bs'. split_and!; try done; [by eapply same_data_trans| |by rewrite H5].
      rewrite H4. cbn. by rewrite (merge_same (q_events q) h1), Hp1 by done.
Qed.

Lemma handleAsync_ok q bs : eqinv q bs -> (forall e, e ∈ q_async q -> q_curTick q <= (key (q_events q) e).1) ->
  exists q' bs', handleAsyncInsertions q = Done q' /\ eqinv q' bs' /\ pending q' bs' = merge (q_events q) (q_async q) (pending q bs) /\ q_async q' = [] /\ q_curTick q' = q_curTick q.
Proof.
  intros [Hsh Hdi Hnd Ht] Hta. unfold handleAsyncInsertions. destruct (insert_all_ok (q_async q) q bs Hsh Hdi Hnd) as (h' & hd' & bs' & -> & H2 & [B1 B2 B3 B4] & H4 & H5). cbn [mbind sim_bind].
  eexists _, bs'. split; [done|]. split; [|by split_and!]. split; cbn; [by split| | |].
  - rewrite app_nil_r. apply (data_inv_same (q_events q)); [done|]. split; [apply Hdi|intros x; rewrite H5; apply Hdi|intros x xv; rewrite H5; apply Hdi].
  - rewrite app_nil_r. by rewrite H5.
  - intros x. rewrite H5, (same_data_key (q_events q)) by done. intros [Hx|Hx]%elem_of_app; auto.
Qed.

(** ** Reachable queues *)

(** Operations on the queue, events that are run, and events that come from other threads; those are merged before their tick. *)
Inductive qstep (process : Z -> eventq -> list eop) : eventq -> eventq -> Prop :=
  | qstep_op q q' o : exec_eop q o = Done q' -> qstep process q q'
  | qstep_service q q' r : serviceOne process q = Done (q', r) -> qstep process q q'
  | qstep_async q q' e w : schedule q e w true = Done q' -> qstep process q q'
  | qstep_merge q q' : (forall e, e ∈ q_async q -> q_curTick q <= (key (q_events q) e).1) -> handleAsyncInsertions q = Done q' -> qstep process q q'.

Definition reachable (process : Z -> eventq -> list eop) (self : Z) (q : eventq) : Prop := rtc (qstep process) (EventQueue_new self ∅) q.

Lemma new_inv self : eqinv (EventQueue_new self ∅) [].
Proof.
  split; cbn; [split; cbn; try done; [intros x ?%elem_of_nil; done|apply NoDup_nil_2]| |apply NoDup_nil_2|intros x ?%elem_of_nil; done].
  split; [intros e ev He; by rewrite lookup_empty in He| |intros e ev ?%elem_of_nil; done]. intros e. setoid_rewrite lookup_empty. split; [intros ?%elem_of_nil; done|naive_solver].
Qed.

Lemma qstep_inv process q q' bs : eqinv q bs -> qstep process q q' -> exists bs', eqinv q' bs' /\ q_curTick q <= q_curTick q'.
Proof.
  intros Hi Hs. destruct Hs as [q q' o Ho|q q' r Hr|q q' e w Ha|q q' Hta Hm].
  - destruct (legal q o) eqn:Hl; [|by destruct (exec_eop_illegal q bs o q')]. destruct (exec_eop_ok q bs o Hi Hl) as (q1 & bs1 & E & Hi1 & _ & Ht & _).
    rewrite Ho in E. injection E as <-. exists bs1. split; [done|lia].
  - destruct (serviceOne_inv process q bs q' r Hi Hr) as (bs' & hv & _ & Hi' & _ & Ht & Hle). exists bs'. split; [done|]. destruct (squashed hv); lia.
  - pose proof Ha as Ha'. unfold schedule in Ha'. destruct (q_events q !! e) as [ev|] eqn:He; [|done]. cbn [elem mbind sim_bind] in Ha'.
    destruct (Z.leb_spec (q_curTick q) w) as [Hw|]; [|done]. destruct (scheduled ev) eqn:Hsc; [done|]. destruct (schedule_async_ok q bs e ev w Hi He Hsc Hw) as (q1 & E & Hi1 & _ & Ht & _).
    rewrite Ha in E. injection E as <-. exists bs. split; [done|lia].
  - destruct (handleAsync_ok q bs Hi Hta) as (q1 & bs1 & E & Hi1 & _ & _ & Ht). rewrite Hm in E. injection E as <-. exists bs1. split; [done|lia].
Qed.

Lemma reachable_inv process self q : reachable process self q -> exists bs, eqinv q bs /\ 0 <= q_curTick q.
Proof.
  intros Hr. assert (H0 : exists bs, eqinv (EventQueue_new self ∅) bs /\ 0 <= q_curTick (EventQueue_new self ∅)) by (exists []; split; [apply new_inv|done]).
  unfold reachable in Hr. revert H0. generalize (EventQueue_new self ∅) Hr. clear Hr. intros q0 Hr. induction Hr as [|q0 q1 q2 Hs _ IH]; [done|]. intros (bs & Hi & Ht). apply IH.
  destruct (qstep_inv process q0 q1 bs Hi Hs) as (bs' & Hi' & Ht'). exists bs'. split; [done|lia].
Qed.

(** The end of [serviceOne]: an event that is to be deleted is deleted unless it is scheduled again. *)
Lemma service_end q bs e ev l t : eqinv q bs -> q_events q !! e = Some ev -> listing q = Done l -> q_curTick q = t ->
  exists q', (ev ← elem (q_events q !! e); if isSet (e_flags ev) AutoDelete && negb (scheduled ev) then q4 ← delete_event q e; Done (q4, None) else Done (q, None)) = Done (q', None : option Z) /\
    listing q' = Done l /\ q_curTick q' = t /\ q_events q' !! e = (if isSet (e_flags ev) AutoDelete && negb (scheduled ev) then None else Some ev) /\
    forall x, x <> e -> q_events q' !! x = q_events q !! x.
Proof.
  intros Hi He Hl Ht. rewrite He. cbn [elem mbind sim_bind]. destruct (isSet (e_flags ev) AutoDelete && negb (scheduled ev)) eqn:E; [|by exists q].
  apply andb_true_iff in E as [_ E]. destruct (exec_eop_ok q bs (ODelete e) Hi) as (q' & bs' & H1 & H2 & H3 & H4 & _); [cbn; by rewrite He|]. cbn in H1. rewrite H1. cbn [mbind sim_bind].
  exists q'. split; [done|]. rewrite (listing_ok _ _ Hi) in Hl. rewrite (listing_ok q' bs'), H3, H4 by done. split; [done|]. split; [done|].
  unfold delete_event in H1. rewrite He in H1. cbn [elem mbind sim_bind] in H1. rewrite E in H1. injection H1 as <-. cbn. split; [apply lookup_delete_eq|]. intros x Hx. by apply lookup_delete_ne.
Qed.

(** Taking an event off the queue leaves its AutoDelete flag alone. *)
Lemma autodelete_clear f : isSet (clear_flags (clear_flags f Scheduled) Squashed) AutoDelete = isSet f AutoDelete.
Proof.
  change AutoDelete with (2 ^ Z.log2 AutoDelete). rewrite !isSet_bit by (vm_compute; discriminate). unfold clear_flags. rewrite !Z.land_spec, !Z.lnot_spec by (vm_compute; discriminate).
  by rewrite !andb_true_r.
Qed.
Lemma squashed_clear f : isSet (clear_flags f Squashed) Squashed = false.
Proof. unfold isSet, clear_flags. rewrite <- Z.land_assoc, (Z.land_comm (Z.lnot Squashed)), Z.land_lnot_diag, Z.land_0_r. done. Qed.

Lemma service_squashed process q hv q2 bs2 ev2 : q_events q !! q_head q = Some hv -> pop_head q hv = Done q2 -> eqinv q2 bs2 -> q_curTick q2 = q_curTick q ->
  q_events q2 !! q_head q = Some ev2 -> e_flags ev2 = clear_flags (e_flags hv) Scheduled -> squashed hv = true ->
  exists q', serviceOne process q = Done (q', None) /\ listing q' = Done (pending q2 bs2) /\ q_curTick q' = q_curTick q /\
    (isSet (e_flags hv) AutoDelete = true -> q_events q' !! q_head q = None) /\
    (isSet (e_flags hv) AutoDelete = false -> exists ev, q_events q' !! q_head q = Some ev /\ squashed ev = false /\ scheduled ev = false) /\
    (forall x, x <> q_head q -> q_events q' !! x = q_events q2 !! x).
Proof.
  intros Hv Hpop Hi2 Ht2 Hev2 Hfl Hsq. destruct (eqinv_flags q2 bs2 (q_head q) ev2 (fun z => clear_flags z Squashed) Hi2 Hev2) as [Hi3 Hp3]; [intros z; apply scheduled_clear_squashed|intros z; by apply init_clear|].
  set (ev3 := with_flags (clear_flags (e_flags ev2) Squashed) ev2). assert (Hs3 : scheduled ev3 = false) by (unfold scheduled, ev3; cbn; rewrite scheduled_clear_squashed, Hfl; apply scheduled_clear).
  assert (Ha3 : isSet (e_flags ev3) AutoDelete = isSet (e_flags hv) AutoDelete) by (unfold ev3; cbn; rewrite Hfl; apply autodelete_clear).
  unfold serviceOne. rewrite Hv. cbn [elem mbind sim_bind]. rewrite Hpop. cbn [mbind sim_bind]. rewrite Hsq. cbn [mbind sim_bind]. cbn beta iota.
  destruct (service_end _ _ (q_head q) ev3 (pending q2 bs2) (q_curTick q) Hi3) as (q' & H1 & H2 & H3 & H4 & H5); [cbn; by rewrite lookup_alter_eq, Hev2|by rewrite (listing_ok _ _ Hi3), Hp3|done|].
  rewrite Ha3, Hs3, andb_true_r in H4. exists q'. split; [exact H1|]. split; [done|]. split; [done|]. split; [intros E; by rewrite E in H4|]. split.
  - intros E. rewrite E in H4. exists ev3. split_and!; try done. apply squashed_clear.
  - intros x Hx. rewrite H5 by done. cbn. by apply lookup_alter_ne.
Qed.

(** ** Global events *)

(** A global event has an event in every queue; [glob] says which global event an event belongs to. *)
Definition view (glob : Z -> option Z) (l : list (Z * ekey)) : list (Z * ekey) := omap (fun y => (fun g => (g, y.2)) <$> glob y.1) l.
Definition place_all (xs p : list (Z * ekey)) : list (Z * ekey) := fold_left (fun p x => place x p) xs p.

Lemma merge_place_all h l p : merge h l p = place_all (pend h l) p.
Proof. unfold merge, place_all. revert p. induction l as [|e l IH]; intros p; [done|]. cbn. apply IH. Qed.

Lemma place_split x l : in_order l -> exists l1 l2, l = l1 ++ l2 /\ Forall (fun y => klt y.2 x.2) l1 /\ Forall (fun y => ~ klt y.2 x.2) l2 /\ place x l = l1 ++ x :: l2.
Proof.
  induction l as [|y l IH]; intros Ho; [by exists [], []|]. apply StronglySorted_inv in Ho as [Ho Hf]. cbn. destruct (decide (klt y.2 x.2)) as [Hk|Hk].
  - destruct (IH Ho) as (l1 & l2 & -> & H1 & H2 & ->). exists (y :: l1), l2. split; [done|]. split; [by constructor|done].
  - exists [], (y :: l). split; [done|]. split; [apply Forall_nil_2|]. split; [|done]. constructor; [done|]. eapply Forall_impl; [exact Hf|]. intros z Hz Hzx. cbn in Hz.
    destruct (klt_total z.2 y.2) as [?|[E|?]]; [done|rewrite E in Hzx; done|]. apply Hk. by eapply klt_trans.
Qed.

Lemma place_sorted x l : in_order l -> in_order (place x l).
Proof.
  intros Ho. destruct (place_split x l Ho) as (l1 & l2 & -> & H1 & H2 & ->). rewrite Forall_forall in H1, H2. apply StronglySorted_app in Ho as (Hc & Ho1 & Ho2).
  apply StronglySorted_app_2; [|done|by apply SSorted_cons; [|apply Forall_forall]]. intros y z Hy [->|Hz]%elem_of_cons; [|by apply Hc].
  intros Hk. apply (klt_irrefl x.2). eapply klt_trans; [exact Hk|]. by apply H1.
Qed.

Lemma elem_of_view glob y l : y ∈ view glob l -> exists x, x ∈ l /\ x.2 = y.2.
Proof. unfold view. rewrite list_elem_of_omap. intros ([x k] & Hx & Hg). cbn in Hg. destruct (glob x); [|done]. injection Hg as <-. eauto. Qed.

Lemma view_place glob x l : in_order l -> view glob (place x l) = match glob x.1 with Some g => place (g, x.2) (view glob l) | None => view glob l end.
Proof.
  intros Ho. destruct (place_split x l Ho) as (l1 & l2 & -> & H1 & H2 & ->). unfold view. rewrite !omap_app. cbn. destruct (glob x.1) as [g|]; cbn; [|done]. fold (view glob l1) (view glob l2).
  rewrite Forall_forall in H1, H2. rewrite place_app; [done| |].
  - apply Forall_forall. intros y (z & Hz & <-)%elem_of_view. by apply H1.
  - intros y Hy. cbn. assert (Hin : y ∈ view glob l2) by (destruct (view glob l2); [done|]; injection Hy as ->; left). apply elem_of_view in Hin as (z & Hz & <-). by apply H2.
Qed.

Lemma view_place_all glob xs p : in_order p -> view glob (place_all xs p) = place_all (view glob xs) (view glob p).
Proof.
  revert p. induction xs as [|x xs IH]; intros p Ho; [done|].
  assert (E : view glob (x :: xs) = match glob x.1 with Some g => (g, x.2) :: view glob xs | None => view glob xs end) by (unfold view; cbn; by destruct (glob x.1)).
  change (place_all (x :: xs) p) with (place_all xs (place x p)). rewrite IH by by apply place_sorted. rewrite view_place, E by done. by destruct (glob x.1).
Qed.

(** ** Properties *)

(** C16: The operations of the event queue.  In every reachable state an operation is either legal and succeeds, and the queue is
    then what the operation makes of the list of pending events: a scheduled event is put before the first one that is not earlier in tick and
    priority, a descheduled one is taken out, a rescheduled one is moved; or it is not legal and does not succeed. *)
Theorem eventq_operations process self q o : reachable process self q ->
  exists l, listing q = Done l /\ in_order l /\
    ((legal q o = true /\ exists q', exec_eop q o = Done q' /\ listing q' = Done (spec_eop q o l) /\ q_curTick q' = q_curTick q) \/
     (legal q o = false /\ forall q', exec_eop q o <> Done q')).
Proof.
  intros (bs & Hi & _)%reachable_inv. exists (pending q bs). split; [by apply listing_ok|]. split; [apply ordered_sorted, Hi|]. destruct (legal q o) eqn:Hl; [left|right; split; [done|]; intros q'; by eapply exec_eop_illegal].
  destruct (exec_eop_ok q bs o Hi Hl) as (q' & bs' & H1 & H2 & H3 & H4 & _). split; [done|]. exists q'. by rewrite (listing_ok q' bs'), H3.
Qed.

(** C18: The time of the simulation does not go back.  In every execution, whatever the events do, the current tick never decreases, and in every state the
    pending events are in the order of tick and priority and none of them lies in the past. *)
Theorem eventq_time_monotone process self q q' : reachable process self q -> rtc (qstep process) q q' ->
  q_curTick q <= q_curTick q' /\ exists l, listing q' = Done l /\ in_order l /\ Forall (fun y => q_curTick q' <= y.2.1) l.
Proof.
  intros (bs & Hi & _)%reachable_inv Hr. revert bs Hi. induction Hr as [q|q q1 q2 Hs _ IH]; intros bs Hi.
  - split; [done|]. exists (pending q bs). split; [by apply listing_ok|]. split; [apply ordered_sorted, Hi|]. apply Forall_fmap, Forall_forall. intros e He. by apply (iq_time _ _ Hi).
  - destruct (qstep_inv process q q1 bs Hi Hs) as (bs1 & Hi1 & Ht). destruct (IH bs1 Hi1) as [Ht' Hl]. split; [lia|done].
Qed.

(** C17: [serviceOne] runs the first pending event.  It is not later than any other and is taken out of the queue.  A squashed event is not processed, the time stays, and the event
    is deleted if it is an AutoDelete event and loses its flags Scheduled and Squashed otherwise.  An event that is not squashed is processed at its tick;
    if what it does succeeds and leaves the event alive, [serviceOne] returns the event if it is an exit event, and keeps it; any other event is deleted exactly if
    it has AutoDelete set and is not scheduled again.  No other event is touched after the processing.  (For an exit event, AutoDelete and IsMainQueue must not both be set, which the code asserts.) *)
Theorem eventq_service process self q e k l : reachable process self q -> listing q = Done ((e, k) :: l) ->
  exists hv q2, q_events q !! e = Some hv /\ pop_head q hv = Done q2 /\ listing q2 = Done l /\ Forall (fun y => ~ klt y.2 k) l /\ q_curTick q <= k.1 /\
    (squashed hv = true -> exists q', serviceOne process q = Done (q', None) /\ listing q' = Done l /\ q_curTick q' = q_curTick q /\
       (isSet (e_flags hv) AutoDelete = true -> q_events q' !! e = None) /\
       (isSet (e_flags hv) AutoDelete = false -> exists ev, q_events q' !! e = Some ev /\ squashed ev = false /\ scheduled ev = false) /\
       (forall x, x <> e -> q_events q' !! x = q_events q2 !! x)) /\
    (squashed hv = false -> forall q3 ev, exec_eops (setCurTick q2 k.1) (process e (setCurTick q2 k.1)) = Done q3 -> q_events q3 !! e = Some ev ->
       isSet (e_flags ev) IsExitEvent && isSet (e_flags ev) AutoDelete && isSet (e_flags ev) IsMainQueue = false ->
       exists q', serviceOne process q = Done (q', if isSet (e_flags ev) IsExitEvent then Some e else None) /\ listing q' = listing q3 /\ q_curTick q' = k.1 /\
         q_events q' !! e = (if negb (isSet (e_flags ev) IsExitEvent) && isSet (e_flags ev) AutoDelete && negb (scheduled ev) then None else Some ev) /\
         forall x, x <> e -> q_events q' !! x = q_events q3 !! x).
Proof.
  intros (bs & Hi & _)%reachable_inv Hl. rewrite (listing_ok q bs Hi) in Hl. injection Hl as Hl.
  assert (H0 : q_head q <> 0) by (intros E; destruct (bseg_null _ _ _ (qs_bins _ _ (iq_shape _ _ Hi)) (qs_nodes _ _ (iq_shape _ _ Hi))) as [Hn _]; rewrite (Hn E) in Hl; done).
  destruct (service_pop q bs Hi H0) as (hv & q2 & bs2 & ev2 & Hv & Hpop & Hi2 & Hp & Ht2 & Ha2 & Hle & Hlt & Hev2 & Hfl). rewrite Hp in Hl. injection Hl as <- <- <-.
  exists hv, q2. split; [done|]. split; [done|]. split; [by apply listing_ok|]. split; [|split; [done|split]].
  - pose proof (ordered_sorted _ _ (qs_order _ _ (iq_shape _ _ Hi))) as Ho. fold (pending q bs) in Ho. rewrite Hp in Ho. by apply StronglySorted_inv in Ho as [_ Hf].
  - intros Hsq. by apply (service_squashed process q hv q2 bs2 ev2).
  - intros Hsq q3 ev Hex Hev Hmain. destruct (eqinv_tick q2 bs2 (e_when hv) Hi2 Hle) as [Hi2' _]. destruct (exec_eops_inv _ _ _ _ Hi2' Hex) as (bs3 & Hi3 & Ht3 & _).
    unfold serviceOne. rewrite Hv. cbn [elem mbind sim_bind]. rewrite Hpop. cbn [mbind sim_bind]. rewrite Hsq. cbn [kof fst] in Hex. rewrite Hex. cbn [mbind sim_bind]. rewrite Hev. cbn [elem mbind sim_bind].
    destruct (isSet (e_flags ev) IsExitEvent) eqn:Ex.
    + cbn [andb] in Hmain. apply andb_false_iff in Hmain. assert (negb (isSet (e_flags ev) AutoDelete) || negb (isSet (e_flags ev) IsMainQueue) = true) as -> by (destruct Hmain as [-> | ->]; by rewrite ?orb_true_r).
      cbn. exists q3. by split_and!.
    + cbn [mbind sim_bind]. cbn beta iota. destruct (service_end q3 bs3 (q_head q) ev _ _ Hi3 Hev (listing_ok _ _ Hi3) eq_refl) as (q' & H1 & H2 & H3 & H4 & H5). exists q'. rewrite H1, H2, H3, (listing_ok _ _ Hi3). by split_and!.
Qed.

(** What [debugVerify] answers.  In every reachable state it returns, and it accepts the queue, except when the first event is scheduled for
    tick 0 with a negative priority: the loop compares the first event with tick 0 and priority 0. *)
Theorem eventq_debugVerify process self q : reachable process self q ->
  exists l, listing q = Done l /\ debugVerify q = Done (match l with (_, (w, p)) :: _ => negb ((w =? 0) && (p <? 0)) | [] => true end).
Proof. intros (bs & Hi & Ht)%reachable_inv. exists (pending q bs). split; [by apply listing_ok|by apply debugVerify_ok]. Qed.

(** C24: Queues run global events in the same order.  If two queues hold events of the same global events in the same order, and the same
    global events with the same ticks and priorities were sent to both in the same order, then after both have merged
    what was sent to them they hold the events of the global events in the same order, whatever other events they have. *)
Theorem eventq_global_order process1 process2 self1 self2 q1 q2 l1 l2 glob1 glob2 : reachable process1 self1 q1 -> reachable process2 self2 q2 ->
  listing q1 = Done l1 -> listing q2 = Done l2 -> view glob1 l1 = view glob2 l2 ->
  view glob1 (pend (q_events q1) (q_async q1)) = view glob2 (pend (q_events q2) (q_async q2)) ->
  (forall e, e ∈ q_async q1 -> q_curTick q1 <= (key (q_events q1) e).1) -> (forall e, e ∈ q_async q2 -> q_curTick q2 <= (key (q_events q2) e).1) ->
  exists q1' q2' l1' l2', handleAsyncInsertions q1 = Done q1' /\ handleAsyncInsertions q2 = Done q2' /\ listing q1' = Done l1' /\ listing q2' = Done l2' /\
    view glob1 l1' = view glob2 l2' /\ q_async q1' = [] /\ q_async q2' = [].
Proof.
  intros (bs1 & Hi1 & _)%reachable_inv (bs2 & Hi2 & _)%reachable_inv Hl1 Hl2 Hv Ha Ht1 Ht2. rewrite (listing_ok _ _ Hi1) in Hl1. rewrite (listing_ok _ _ Hi2) in Hl2. injection Hl1 as <-. injection Hl2 as <-.
  destruct (handleAsync_ok q1 bs1 Hi1 Ht1) as (q1' & bs1' & H11 & H12 & H13 & H14 & _). destruct (handleAsync_ok q2 bs2 Hi2 Ht2) as (q2' & bs2' & H21 & H22 & H23 & H24 & _).
  exists q1', q2', (pending q1' bs1'), (pending q2' bs2'). split_and!; try done; [by apply listing_ok|by apply listing_ok|]. rewrite H13, H23, !merge_place_all, !view_place_all by (apply ordered_sorted; by apply Hi1 || apply Hi2). congruence.
Qed.

(** C40: An event that another thread has scheduled cannot be descheduled until it has been merged.  Such an event answers that it is scheduled, but [remove] looks
    for it in the bins only: [deschedule], and [reschedule] to any tick that is not in the past, panic. *)
Theorem eventq_async_deschedule_panics process self q e w : reachable process self q -> e ∈ q_async q ->
  (exists ev, q_events q !! e = Some ev /\ scheduled ev = true) /\ deschedule q e = Halt /\ reschedule q e w false = Halt.
Proof.
  intros (bs & Hi & _)%reachable_inv Ha. assert (Hx : e ∈ concat bs ++ q_async q) by (apply elem_of_app; by right).
  apply (di_sched _ _ _ (iq_data _ _ Hi)) in Hx as (ev & He & Hs). destruct (di_live _ _ _ (iq_data _ _ Hi) e ev He) as [_ Hini]. split; [by exists ev|].
  pose proof (remove_async q bs e ev Hi He Ha) as Hr. split.
  - unfold deschedule. rewrite He. cbn [elem mbind sim_bind]. rewrite Hs, Hini. cbn [check mbind sim_bind]. by rewrite Hr.
  - unfold reschedule. rewrite He. cbn [elem mbind sim_bind]. destruct (q_curTick q <=? w); [|done]. rewrite Hs, Hini. cbn [check mbind sim_bind orb]. by rewrite Hr.
Qed.

(** ** Examples *)

Lemma exec_eops_reachable process self q l : forall q', reachable process self q -> exec_eops q l = Done q' -> reachable process self q'.
Proof.
  revert q. induction l as [|o l IH]; intros q q' Hr H; cbn in H; [by injection H as <-|]. apply bind_Done in H as (q1 & H1 & H2). eapply IH; [|exact H2].
  eapply rtc_r; [exact Hr|by eapply qstep_op].
Qed.

(** Two events for tick 5 and one with a higher priority, which moves the first one to tick 9. *)
Definition ex_ops : list eop := [ONew 8 0 0; ONew 16 0 0; ONew 24 (-1) AutoDelete; OSchedule 8 5; OSchedule 16 5; OSchedule 24 5].
Definition ex_process (e : Z) (q : eventq) : list eop := if e =? 24 then [OReschedule 8 9 false] else [].
Definition ex_queue : sim eventq := exec_eops (EventQueue_new 4 ∅) ex_ops.

Lemma ex_reachable q : ex_queue = Done q -> reachable ex_process 4 q.
Proof. apply exec_eops_reachable. apply rtc_refl. Qed.

Lemma eventq_operations_witness :
  exists q q', ex_queue = Done q /\ listing q = Done [(24, (5, -1)); (16, (5, 0)); (8, (5, 0))] /\
    exec_eop q (ODeschedule 16) = Done q' /\ listing q' = Done [(24, (5, -1)); (8, (5, 0))].
Proof.
  destruct ex_queue as [q| |] eqn:E; [|by vm_compute in E..]. destruct (eventq_operations ex_process 4 q (ODeschedule 16) (ex_reachable q E)) as (l & Hl & _ & H).
  assert (El : listing q = Done [(24, (5, -1)); (16, (5, 0)); (8, (5, 0))]) by (vm_compute in E; injection E as <-; reflexivity). rewrite Hl in El. injection El as ->.
  destruct H as [(_ & q' & H1 & H2 & _)|[Hn _]]; [exists q, q'; split; [done|]; split; [exact Hl|]; split; [exact H1|]; rewrite H2; reflexivity|]. vm_compute in E. injection E as <-. discriminate Hn.
Defined.

Lemma eventq_time_monotone_witness : exists q, ex_queue = Done q /\ exists l, listing q = Done l /\ Forall (fun y => q_curTick q <= y.2.1) l.
Proof.
  destruct ex_queue as [q| |] eqn:E; [|by vm_compute in E..]. exists q. split; [done|].
  destruct (eventq_time_monotone ex_process 4 q q (ex_reachable q E) (rtc_refl _ _)) as (_ & l & H1 & _ & H2). eauto.
Defined.

Lemma eventq_service_witness :
  exists q q', ex_queue = Done q /\ serviceOne ex_process q = Done (q', None) /\ q_curTick q' = 5 /\ listing q' = Done [(16, (5, 0)); (8, (9, 0))] /\ q_events q' !! 24 = None.
Proof.
  destruct ex_queue as [q| |] eqn:E; [|by vm_compute in E..].
  destruct (eventq_service ex_process 4 q 24 (5, -1) [(16, (5, 0)); (8, (5, 0))] (ex_reachable q E)) as (hv & q2 & Hv & Hp & _ & _ & _ & _ & H).
  { vm_compute in E. injection E as <-. reflexivity. }
  vm_compute in E. injection E as <-. vm_compute in Hv. injection Hv as <-. vm_compute in Hp. injection Hp as <-.
  destruct (H eq_refl _ _ eq_refl eq_refl eq_refl) as (q' & H1 & H2 & H3 & H4 & _). eexists _, q'. split; [reflexivity|]. split; [exact H1|]. split; [exact H3|]. split; [rewrite H2; reflexivity|exact H4].
Defined.

Lemma eventq_debugVerify_witness : exists q, ex_queue = Done q /\ debugVerify q = Done true.
Proof.
  destruct ex_queue as [q| |] eqn:E; [|by vm_compute in E..]. exists q. split; [done|]. destruct (eventq_debugVerify ex_process 4 q (ex_reachable q E)) as (l & Hl & ->).
  vm_compute in E. injection E as <-. vm_compute in Hl. injection Hl as <-. reflexivity.
Defined.

(** Two queues with different events of their own; the global events 1 and 2 have the events 32 and 40 in both of them, sent in this order. *)
Definition ex_send (self own w : Z) : sim eventq :=
  q ← exec_eops (EventQueue_new self ∅) [ONew own 0 0; ONew 32 95 0; ONew 40 95 0; OSchedule own w];
  q ← schedule q 32 7 true; schedule q 40 7 true.
Definition ex_glob (e : Z) : option Z := if e =? 32 then Some 1 else if e =? 40 then Some 2 else None.

Lemma ex_send_reachable self own w q : ex_send self own w = Done q -> reachable ex_process self q.
Proof.
  unfold ex_send. intros (q0 & H0 & (q1 & H1 & H2)%bind_Done)%bind_Done. apply rtc_r with q1; [apply rtc_r with q0; [|by apply (qstep_async _ _ _ 32 7)]|by apply (qstep_async _ _ _ 40 7)].
  eapply exec_eops_reachable; [apply rtc_refl|exact H0].
Qed.

Lemma eventq_global_order_witness :
  exists q1 q2 q1' q2' l1 l2, ex_send 4 8 3 = Done q1 /\ ex_send 12 16 9 = Done q2 /\ handleAsyncInsertions q1 = Done q1' /\ handleAsyncInsertions q2 = Done q2' /\
    listing q1' = Done l1 /\ listing q2' = Done l2 /\ view ex_glob l1 = view ex_glob l2.
Proof.
  destruct (ex_send 4 8 3) as [q1| |] eqn:E1; [|by vm_compute in E1..]. destruct (ex_send 12 16 9) as [q2| |] eqn:E2; [|by vm_compute in E2..].
  pose proof (ex_send_reachable _ _ _ _ E1) as R1. pose proof (ex_send_reachable _ _ _ _ E2) as R2.
  destruct (eventq_global_order ex_process ex_process 4 12 q1 q2 [(8, (3, 0))] [(16, (9, 0))] ex_glob ex_glob R1 R2) as (q1' & q2' & l1 & l2 & H1 & H2 & H3 & H4 & H5 & _);
    try (vm_compute in E1, E2; injection E1 as <-; injection E2 as <-; first [reflexivity|cbn [q_async]; intros e; rewrite !elem_of_cons, elem_of_nil; intros [->|[->|[]]]; vm_compute; discriminate]).
  exists q1, q2, q1', q2', l1, l2. by split_and!.
Defined.

Lemma eventq_async_deschedule_panics_witness : exists q, ex_send 4 8 3 = Done q /\ deschedule q 32 = Halt.
Proof.
  destruct (ex_send 4 8 3) as [q| |] eqn:E; [|by vm_compute in E..]. exists q. split; [done|]. apply (eventq_async_deschedule_panics ex_process 4 q 32 0 (ex_send_reachable _ _ _ _ E)).
  vm_compute in E. injection E as <-. left.
Defined.

(** ** What the queue promises to its clients *)

(** The timers of a simulation as its objects see them: [em_timer m e] is the tick for which [e] is scheduled; [em_fire m e m'] says that
    the event is taken off to be processed. *)
Class EventManager (M : Type) := {
  em_ok : M -> Prop;
  em_now : M -> Z;
  em_alive : M -> Z -> Prop;
  em_timer : M -> Z -> option Z;
  em_schedule : M -> Z -> Z -> sim M;
  em_reschedule : M -> Z -> Z -> sim M;
  em_fire : M -> Z -> M -> Prop;
}.

(** The effect of scheduling [e] for tick [w]. *)
Definition timer_set `{EventManager M} (m m' : M) (e w : Z) : Prop :=
  em_ok m' /\ em_now m' = em_now m /\ (forall x, em_alive m x -> em_alive m' x) /\ em_timer m' e = Some w /\ (forall x, x <> e -> em_timer m' x = em_timer m x).

Class EventManagerLaws (M : Type) `{EventManager M} := {
  em_schedule_ok m e w : em_ok m -> em_alive m e -> em_timer m e = None -> em_now m <= w -> exists m', em_schedule m e w = Done m' /\ timer_set m m' e w;
  em_reschedule_ok m e w t : em_ok m -> em_alive m e -> em_timer m e = Some t -> em_now m <= w -> exists m', em_reschedule m e w = Done m' /\ timer_set m m' e w;
  em_schedule_twice m e w t m' : em_ok m -> em_timer m e = Some t -> em_schedule m e w <> Done m';
  em_not_past m e t : em_ok m -> em_timer m e = Some t -> em_now m <= t;
  em_fire_ok m e m' : em_ok m -> em_fire m e m' -> em_ok m' /\ em_now m <= em_now m' /\ em_timer m e = Some (em_now m') /\ em_timer m' e = None /\
    (forall x, x <> e -> em_timer m' x = em_timer m x) /\ (forall x, em_alive m x -> em_alive m' x);
}.

Definition q_timer (q : eventq) (e : Z) : option Z := ev ← q_events q !! e; if scheduled ev then Some (e_when ev) else None.

#[export] Instance eventq_manager : EventManager eventq := {
  em_ok q := (exists bs, eqinv q bs) /\ q_async q = [];
  em_now := q_curTick;
  em_alive q e := is_Some (q_events q !! e);
  em_timer := q_timer;
  em_schedule q e w := schedule q e w false;
  em_reschedule q e w := reschedule q e w false;
  em_fire q e q' := q_head q = e /\ exists hv q2, q_events q !! e = Some hv /\ squashed hv = false /\ pop_head q hv = Done q2 /\ q' = setCurTick q2 (e_when hv);
}.

Lemma q_timer_pending q bs e t : eqinv q bs -> q_async q = [] -> q_timer q e = Some t <-> exists p, (e, (t, p)) ∈ pending q bs.
Proof.
  intros Hi Ha. unfold q_timer, pending, pend. setoid_rewrite list_elem_of_fmap. split.
  - intros (ev & He & Ht)%bind_Some. destruct (scheduled ev) eqn:Hs; [|done]. injection Ht as <-. exists (e_priority ev), e. rewrite (key_at _ _ _ He). split; [done|].
    eapply is_scheduled; [exact Hi|rewrite Ha; apply not_elem_of_nil|exact He|done].
  - intros (p & x & E & Hx). injection E as <- E. assert (Hl : e ∈ concat bs ++ q_async q) by (apply elem_of_app; by left). apply (di_sched _ _ _ (iq_data _ _ Hi)) in Hl as (ev & He & Hs).
    rewrite He. cbn. rewrite Hs. rewrite (key_at _ _ _ He) in E. unfold kof in E. congruence.
Qed.

Lemma pending_nodup q bs : eqinv q bs -> NoDup (pending q bs).*1.
Proof. intros Hi. unfold pending. rewrite fst_pend. apply Hi. Qed.

Lemma option_iff {A} (o o' : option A) : (forall t, o = Some t <-> o' = Some t) -> o = o'.
Proof. intros H. destruct o as [a|]; [symmetry; by apply H|]. destruct o' as [a|]; [|done]. by apply H. Qed.

(** The timers after an event was put into the queue. *)
Lemma timer_placed q q' bs bs' e w p l : eqinv q bs -> q_async q = [] -> eqinv q' bs' -> q_async q' = q_async q -> pending q' bs' = place (e, (w, p)) l ->
  l = filter (fun y => y.1 <> e) (pending q bs) -> q_curTick q' = q_curTick q -> dom (q_events q') = dom (q_events q) -> timer_set q q' e w.
Proof.
  intros Hi Ha Hi' Ha' Hp -> Ht Hd. assert (Hin : forall x t, q_timer q' x = Some t <-> (x = e /\ t = w) \/ (x <> e /\ q_timer q x = Some t)).
  { intros x t. rewrite (q_timer_pending q' bs'), (q_timer_pending q bs) by (done || congruence). rewrite Hp. setoid_rewrite place_perm. setoid_rewrite elem_of_cons. setoid_rewrite list_elem_of_filter. cbn. naive_solver. }
  split_and!; try done.
  - split; [by exists bs'|]. cbn in *. congruence.
  - intros x. cbn. rewrite <- !elem_of_dom, Hd. done.
  - apply Hin. by left.
  - intros x Hx. apply option_iff. intros t. cbn. rewrite Hin. naive_solver.
Qed.

#[export] Instance eventq_laws : EventManagerLaws eventq.
Proof.
  split.
  - intros q e w [[bs Hi] Ha] [ev He] Ht Hw. cbn in *. unfold q_timer in Ht. rewrite He in Ht. cbn in Ht. destruct (scheduled ev) eqn:Hs; [done|].
    destruct (schedule_ok q bs e ev w Hi He Hs Hw) as (q' & bs' & H1 & H2 & H3 & H4 & H5 & H6). exists q'. split; [done|]. apply (timer_placed q q' bs bs' e w _ _ Hi Ha H2 H5 H3); [|done|done].
    symmetry. apply filter_all, Forall_forall. intros [x k] Hx Hxe. cbn in Hxe. subst x. destruct k as [t p]. assert (Hq : q_timer q e = Some t) by (apply (q_timer_pending q bs); eauto).
    unfold q_timer in Hq. rewrite He in Hq. cbn in Hq. by rewrite Hs in Hq.
  - intros q e w t [[bs Hi] Ha] [ev He] Ht Hw. cbn in *. unfold q_timer in Ht. rewrite He in Ht. cbn in Ht. destruct (scheduled ev) eqn:Hs; [|done].
    destruct (reschedule_ok q bs e ev w false Hi He) as (q' & bs' & H1 & H2 & H3 & H4 & H5 & H6); [rewrite Ha; apply not_elem_of_nil|by right|done|].
    exists q'. split; [done|]. by eapply (timer_placed q q' bs bs' e w _ _ Hi Ha H2 H5 H3).
  - intros q e w t q' [[bs Hi] Ha] Ht Hq. cbn in *. unfold q_timer in Ht. destruct (q_events q !! e) as [ev|] eqn:He; [|done]. cbn in Ht. destruct (scheduled ev) eqn:Hs; [|done].
    apply (exec_eop_illegal q bs (OSchedule e w) q' Hi); [|done]. cbn. rewrite He. cbn. by rewrite Hs.
  - intros q e t [[bs Hi] Ha] Ht. cbn in *. apply (q_timer_pending q bs) in Ht as (p & Hp); [|done|done]. apply list_elem_of_fmap in Hp as (x & E & Hx). injection E as <- E.
    pose proof (iq_time _ _ Hi e Hx) as H. rewrite <- E in H. done.
  - intros q e q' [[bs Hi] Ha] (<- & hv & q2 & Hv & Hsq & Hpop & ->). cbn in *. assert (H0 : q_head q <> 0) by (by eapply di_live; [apply Hi|]).
    destruct (service_pop q bs Hi H0) as (hv' & q2' & bs2 & ev2 & Hv' & Hpop' & Hi2 & Hp & Ht2 & Ha2 & Hle & Hlt & Hev2 & Hfl). rewrite Hv in Hv'. injection Hv' as <-. rewrite Hpop in Hpop'. injection Hpop' as <-.
    destruct (eqinv_tick q2 bs2 (e_when hv) Hi2 Hle) as [Hi2' Hp']. pose proof (pending_nodup q bs Hi) as Hnd. rewrite Hp in Hnd. cbn in Hnd. apply NoDup_cons in Hnd as [Hnin _].
    assert (Hin : forall x t, q_timer (setCurTick q2 (e_when hv)) x = Some t <-> x <> q_head q /\ q_timer q x = Some t).
    { intros x t. rewrite (q_timer_pending _ bs2 x t Hi2'), (q_timer_pending q bs) by (done || cbn; congruence). rewrite Hp. setoid_rewrite elem_of_cons. rewrite Hp'. split.
      - intros (p & Hx). split; [|by exists p; right]. intros ->. apply Hnin. apply list_elem_of_fmap. exists (q_head q, (t, p)). split; [done|]. by rewrite <- Hp'.
      - intros (Hx & p & [E|E]); [by injection E as -> _|eauto]. }
    split; [split; [by exists bs2|cbn; congruence]|]. split; [done|]. split; [|split; [|split]].
    + apply (q_timer_pending q bs); [done|done|]. rewrite Hp. exists (e_priority hv). left.
    + destruct (q_timer (setCurTick q2 (e_when hv)) (q_head q)) as [t|] eqn:E; [|done]. by apply Hin in E as [? _].
    + intros x Hx. apply option_iff. intros t. rewrite Hin. naive_solver.
    + intros x Hx. cbn. by eapply (pop_alive q hv).
Qed.
