(* ===== verification/PacketQueue.v ===== *)
(** * The packet queue of a port

    Models src/SMC/GEM5/gem5/src/mem/packet_queue.hh and packet_queue.cc: packets that wait for their tick in a sorted list, one event
    that sends the first of them, and the retry after a refusal.  The event is scheduled through the interface [EventManager] of EventQ.v, so that the theorems
    hold for the event queue of the simulator and anything else that keeps its promises.  While the peer receives a packet it may
    call back and queue further packets; these calls are an argument of the step.

    The theorems show that no assertion fails, that no packet is forgotten or sent late, and that the packets leave in
    the order of their ticks, those of the same tick in the order in which they were queued. *)

From S2P Require Import Prelude EventQ.

Definition MaxTick : Z := 2 ^ 64 - 1.

Record dpkt := mkDP { dp_tick : Z; dp_pkt : Z; dp_snoop : bool }.

Record pqueue := mkPQ {
  transmitList : list dpkt;
  waitingOnRetry : bool;
  pq_draining : bool;
}.

Definition PacketQueue_new : pqueue := mkPQ [] false false.

(** The insertion sort of [schedSendTiming]: before the first packet that is later. *)
Fixpoint insert_tick (d : dpkt) (l : list dpkt) : list dpkt :=
  match l with [] => [d] | x :: l' => if dp_tick x <=? dp_tick d then x :: insert_tick d l' else d :: l end.

Section queue.
Context `{EventManager M} (sendEvent : Z) (slave : bool).

(** The queue with the event manager; [ps_in] are the packets that were queued and [ps_sent] those that were sent, in order, [ps_last] the tick of
    the last one sent and [ps_drained] the number of calls of [signalDrainDone]. *)
Record pqs := mkPS { ps_q : pqueue; ps_m : M; ps_in : list dpkt; ps_sent : list dpkt; ps_last : Z; ps_drained : nat }.

Definition ps_list (s : pqs) : list dpkt := transmitList (ps_q s).
Definition ps_set (s : pqs) (q : pqueue) (m : M) : pqs := mkPS q m (ps_in s) (ps_sent s) (ps_last s) (ps_drained s).
Definition set_list (q : pqueue) (l : list dpkt) : pqueue := mkPQ l (waitingOnRetry q) (pq_draining q).
Definition set_retry (q : pqueue) (w : bool) : pqueue := mkPQ (transmitList q) w (pq_draining q).

Definition schedSendEvent (s : pqs) (w : Z) : sim pqs :=
  match em_timer (ps_m s) sendEvent with
  | None => if waitingOnRetry (ps_q s) then Done s else m ← em_schedule (ps_m s) sendEvent w; Done (ps_set s (ps_q s) m)
  | Some t =>
      if waitingOnRetry (ps_q s) then Halt
      else if w <? t then m ← em_reschedule (ps_m s) sendEvent w; Done (ps_set s (ps_q s) m) else Done s
  end.

(** A call of [schedSendTiming]; [c_express] is what [isExpressSnoop] answers. *)
Record call := mkC { c_pkt : dpkt; c_express : bool }.

Definition schedSendTiming (s : pqs) (c : call) : sim pqs :=
  let d := c_pkt c in
  let l := ps_list s in
  _ ← check (em_now (ps_m s) <=? dp_tick d);
  _ ← check (negb (c_express c));
  if (100 <? length l)%nat then Halt
  else
    let put l' := mkPS (set_list (ps_q s) l') (ps_m s) (ps_in s ++ [d]) (ps_sent s) (ps_last s) (ps_drained s) in
    match l with
    | [] => schedSendEvent (put [d]) (dp_tick d)
    | x :: l' =>
        if dp_tick d <? dp_tick x then schedSendEvent (put (d :: l)) (dp_tick d)
        else if dp_tick (last_or x l') <=? dp_tick d then Done (put (l ++ [d]))
        else Done (put (x :: insert_tick d l'))
    end.

Fixpoint calls (s : pqs) (l : list call) : sim pqs :=
  match l with [] => Done s | c :: l' => s' ← schedSendTiming s c; calls s' l' end.

Definition deferredPacketReady (s : pqs) : bool := match ps_list s with [] => false | d :: _ => dp_tick d <=? em_now (ps_m s) end.
Definition deferredPacketReadyTime (s : pqs) : Z := match ps_list s with [] => MaxTick | d :: _ => dp_tick d end.

(** [trySendTiming]: the peer makes the calls [re] and answers [ok]; a slave port asserts that the packet is no snoop. *)
Definition trySendTiming (s : pqs) (re : list call) (ok : bool) : sim pqs :=
  _ ← check (deferredPacketReady s);
  match ps_list s with
  | [] => Wild
  | dp :: _ =>
      _ ← check (negb (slave && dp_snoop dp));
      s1 ← calls s re;
      let q1 := set_retry (ps_q s1) (negb ok) in
      if ok then
        match transmitList q1 with
        | [] => Wild
        | _ :: l' => Done (mkPS (set_list q1 l') (ps_m s1) (ps_in s1) (ps_sent s1 ++ [dp]) (em_now (ps_m s1)) (ps_drained s1))
        end
      else Done (ps_set s1 q1 (ps_m s1))
  end.

Definition scheduleSend (s : pqs) (time : Z) : sim pqs :=
  let nextReady := Z.max (Z.min (deferredPacketReadyTime s) time) (em_now (ps_m s) + 1) in
  if negb (nextReady =? MaxTick) then
    match em_timer (ps_m s) sendEvent with
    | None => m ← em_schedule (ps_m s) sendEvent nextReady; Done (ps_set s (ps_q s) m)
    | Some t => if nextReady <? t then m ← em_reschedule (ps_m s) sendEvent nextReady; Done (ps_set s (ps_q s) m) else Done s
    end
  else
    match ps_list s, em_timer (ps_m s) sendEvent with
    | [], None => if pq_draining (ps_q s) then Done (mkPS (mkPQ [] (waitingOnRetry (ps_q s)) false) (ps_m s) (ps_in s) (ps_sent s) (ps_last s) (S (ps_drained s))) else Done s
    | _, _ => Done s
    end.

Definition sendDeferredPacket (s : pqs) (re : list call) (ok : bool) : sim pqs :=
  s1 ← trySendTiming s re ok;
  if waitingOnRetry (ps_q s1) then Done s1 else scheduleSend s1 MaxTick.

Definition processSendEvent (s : pqs) (re : list call) (ok : bool) : sim pqs :=
  _ ← check (negb (waitingOnRetry (ps_q s))); sendDeferredPacket s re ok.
Definition retry (s : pqs) (re : list call) (ok : bool) : sim pqs :=
  _ ← check (waitingOnRetry (ps_q s)); sendDeferredPacket s re ok.

(** [drain]: the number of objects that are not drained. *)
Definition pq_drain (s : pqs) : pqs * Z :=
  match ps_list s with
  | [] => (s, 0)
  | _ => (ps_set s (mkPQ (ps_list s) (waitingOnRetry (ps_q s)) true) (ps_m s), 1)
  end.

(** [checkFunctional]: [hit] is what the packet answers about a queued one; the first hit ends the loop. *)
Fixpoint pq_checkFunctional (hit : Z -> bool) (l : list dpkt) : bool :=
  match l with [] => false | d :: l' => if hit (dp_pkt d) then true else pq_checkFunctional hit l' end.

(** What can happen to the queue: a call, the event, a retry after a refusal, a drain request, and anything else in the simulation, which leaves the event of the queue alone. *)
Inductive pq_event :=
  | PCall (c : call)
  | PFire (m' : M) (re : list call) (ok : bool)
  | PRetry (re : list call) (ok : bool)
  | PDrain
  | POther (m' : M).

Definition pq_exec (s : pqs) (e : pq_event) : sim pqs :=
  match e with
  | PCall c => schedSendTiming s c
  | PFire m' re ok => processSendEvent (ps_set s (ps_q s) m') re ok
  | PRetry re ok => retry s re ok
  | PDrain => Done (pq_drain s).1
  | POther m' => Done (ps_set s (ps_q s) m')
  end.

(** A call that a port may make at tick [now]. *)
Definition call_ok (now : Z) (c : call) : Prop := now <= dp_tick (c_pkt c) < MaxTick /\ c_express c = false /\ (slave = true -> dp_snoop (c_pkt c) = false).

(** What the neighbours and the simulator guarantee: calls are for the present or the future and the list is not full, a retry follows a refusal, the event is taken from the manager. *)
Definition pq_admits (s : pqs) (e : pq_event) : Prop :=
  match e with
  | PCall c => call_ok (em_now (ps_m s)) c /\ (length (ps_list s) <= 100)%nat
  | PFire m' re _ => em_fire (ps_m s) sendEvent m' /\ em_now m' + 1 < MaxTick /\ Forall (call_ok (em_now m')) re /\ (length (ps_list s) + length re <= 101)%nat
  | PRetry re _ => waitingOnRetry (ps_q s) = true /\ em_now (ps_m s) + 1 < MaxTick /\ Forall (call_ok (em_now (ps_m s))) re /\ (length (ps_list s) + length re <= 101)%nat
  | PDrain => True
  | POther m' => em_ok m' /\ em_alive m' sendEvent /\ em_now (ps_m s) <= em_now m' /\ em_timer m' sendEvent = em_timer (ps_m s) sendEvent
  end.

Inductive pq_step : pqs -> pqs -> Prop :=
  | pq_step_intro s s' e : pq_admits s e -> pq_exec s e = Done s' -> pq_step s s'.
End queue.
Arguments pqs M : clear implicits.

(** ** Sorted lists *)

Definition by_tick (l : list dpkt) : Prop := StronglySorted (fun a b => dp_tick a <= dp_tick b) l.

Lemma insert_tick_app d l1 l2 : Forall (fun x => dp_tick x <= dp_tick d) l1 -> insert_tick d (l1 ++ l2) = l1 ++ insert_tick d l2.
Proof. induction 1 as [|x l1 Hx _ IH]; [done|]. cbn. destruct (Z.leb_spec (dp_tick x) (dp_tick d)); [|lia]. by rewrite IH. Qed.

Lemma insert_tick_elem d l x : x ∈ insert_tick d l <-> x = d \/ x ∈ l.
Proof.
  induction l as [|y l IH]; cbn; [rewrite elem_of_cons, elem_of_nil; tauto|]. destruct (_ <=? _); rewrite !elem_of_cons, ?IH; tauto.
Qed.

Lemma insert_tick_sorted d l : by_tick l -> by_tick (insert_tick d l).
Proof.
  induction 1 as [|y l Hs IH Hf]; cbn; [apply SSorted_cons; [apply SSorted_nil|done]|]. destruct (Z.leb_spec (dp_tick y) (dp_tick d)).
  - apply SSorted_cons; [done|]. rewrite Forall_forall in *. intros x [->|Hx]%insert_tick_elem; auto.
  - apply SSorted_cons; [by apply SSorted_cons|]. constructor; [lia|]. eapply Forall_impl; [exact Hf|]. cbn. intros; lia.
Qed.

Lemma insert_tick_length d l : length (insert_tick d l) = S (length l).
Proof. induction l as [|y l IH]; cbn; [done|]. destruct (_ <=? _); cbn; by rewrite ?IH. Qed.

Lemma last_or_max x l : by_tick (x :: l) -> Forall (fun y => dp_tick y <= dp_tick (last_or x l)) (x :: l).
Proof.
  revert x. induction l as [|y l IH]; intros x Hs; cbn; [by repeat constructor|]. apply StronglySorted_inv in Hs as [Hs Hf]. specialize (IH y Hs).
  constructor; [|done]. apply Forall_cons in Hf as [Hxy _], IH as [Hy _]. lia.
Qed.

(** ** The invariant *)

Section invariant.
Context `{EventManagerLaws M} (sendEvent : Z) (slave : bool).
#[local] Notation pqs := (pqs M).
Implicit Types (s : pqs) (m : M).

(** When packets wait, either the queue waits for a retry of the first one, or its event is scheduled for a tick at which the first one is ready and that is no later than this
    packet and the last send require. *)
Definition timer_ok (l : list dpkt) (waiting : bool) (last : Z) m : Prop :=
  match l with
  | [] => waiting = false /\ em_timer m sendEvent = None
  | d :: _ => if waiting then em_timer m sendEvent = None /\ dp_tick d <= em_now m
              else exists t, em_timer m sendEvent = Some t /\ dp_tick d <= t <= Z.max (dp_tick d) (last + 1)
  end.

(** The parts that the calls made during a send keep, too. *)
Record pq_data s : Prop := {
  pd_ok : em_ok (ps_m s) /\ em_alive (ps_m s) sendEvent;
  pd_sorted : by_tick (ps_list s);
  pd_pkts : Forall (fun d => dp_tick d < MaxTick /\ (slave = true -> dp_snoop d = false)) (ps_list s);
  pd_past : Forall (fun d => dp_tick d <= em_now (ps_m s)) (ps_sent s);
  pd_order : ps_sent s ++ ps_list s = fold_left (fun l d => insert_tick d l) (ps_in s) [];
  pd_last : ps_last s <= em_now (ps_m s);
}.
Record pqinv s : Prop := {
  pi_data : pq_data s;
  pi_timer : timer_ok (ps_list s) (waitingOnRetry (ps_q s)) (ps_last s) (ps_m s);
}.

(** A packet is put at its place in the list. *)
Lemma pq_data_put s d m : pq_data s -> em_now (ps_m s) <= dp_tick d < MaxTick -> (slave = true -> dp_snoop d = false) -> em_ok m -> em_alive m sendEvent -> em_now m = em_now (ps_m s) ->
  pq_data (mkPS (set_list (ps_q s) (insert_tick d (ps_list s))) m (ps_in s ++ [d]) (ps_sent s) (ps_last s) (ps_drained s)).
Proof.
  intros [Hok Hso Hpk Hpa Hor Hla] Hd Hsn Hm Hal Hn. split; unfold ps_list in *; cbn; rewrite ?Hn; try done.
  - by apply insert_tick_sorted.
  - rewrite Forall_forall in *. intros x [->|Hx]%insert_tick_elem; [split; [lia|done]|auto].
  - rewrite fold_left_app. cbn. rewrite <- Hor, insert_tick_app; [done|]. eapply Forall_impl; [exact Hpa|]. cbn. intros; lia.
Qed.

(** [schedSendTiming] puts the packet at its place, and where the list stays the same in front the event does. *)
Lemma sched_put s c : pq_data s -> call_ok slave (em_now (ps_m s)) c -> (length (ps_list s) <= 100)%nat ->
  schedSendTiming sendEvent s c =
    let s' := mkPS (set_list (ps_q s) (insert_tick (c_pkt c) (ps_list s))) (ps_m s) (ps_in s ++ [c_pkt c]) (ps_sent s) (ps_last s) (ps_drained s) in
    match ps_list s with
    | x :: _ => if dp_tick (c_pkt c) <? dp_tick x then schedSendEvent sendEvent s' (dp_tick (c_pkt c)) else Done s'
    | [] => schedSendEvent sendEvent s' (dp_tick (c_pkt c))
    end.
Proof.
  intros Hd (Hr & Hex & _) Hlen. unfold schedSendTiming. destruct (Z.leb_spec (em_now (ps_m s)) (dp_tick (c_pkt c))); [|lia]. rewrite Hex. cbn [check negb mbind sim_bind].
  destruct (Nat.ltb_spec 100 (length (ps_list s))); [lia|]. cbn zeta. pose proof (pd_sorted _ Hd) as Hso. destruct (ps_list s) as [|x l]; [done|].
  destruct (Z.ltb_spec (dp_tick (c_pkt c)) (dp_tick x)).
  - cbn [insert_tick]. destruct (Z.leb_spec (dp_tick x) (dp_tick (c_pkt c))); [lia|done].
  - destruct (Z.leb_spec (dp_tick (last_or x l)) (dp_tick (c_pkt c))) as [Hle|Hgt].
    + pose proof (last_or_max x l Hso) as Hall. rewrite <- (app_nil_r (x :: l)) at 2. rewrite insert_tick_app; [done|]. eapply Forall_impl; [exact Hall|]. cbn. intros; lia.
    + cbn [insert_tick]. destruct (Z.leb_spec (dp_tick x) (dp_tick (c_pkt c))); [done|lia].
Qed.

Lemma pqinv_call s c : pqinv s -> call_ok slave (em_now (ps_m s)) c -> (length (ps_list s) <= 100)%nat -> exists s', schedSendTiming sendEvent s c = Done s' /\ pqinv s'.
Proof.
  intros [Hd Ht] Hc Hlen. rewrite (sched_put s c Hd Hc Hlen). pose proof Hc as (Hr & _ & Hsn). destruct (pd_ok _ Hd) as [Hok Hal]. cbn zeta.
  set (d := c_pkt c) in *. set (s' := mkPS _ _ _ _ _ _).
  assert (Hput : forall m, em_ok m -> em_alive m sendEvent -> em_now m = em_now (ps_m s) -> pq_data (ps_set s' (ps_q s') m)) by (intros m H1 H2 H3; exact (pq_data_put s d m Hd Hr Hsn H1 H2 H3)).
  assert (Hsame : ps_set s' (ps_q s') (ps_m s) = s') by done.
  assert (Hfront : waitingOnRetry (ps_q s) = false -> insert_tick d (ps_list s) = d :: ps_list s -> (forall t, em_timer (ps_m s) sendEvent = Some t -> dp_tick d < t) ->
    exists s2, schedSendEvent sendEvent s' (dp_tick d) = Done s2 /\ pqinv s2).
  { intros Hw Hf Hlt. unfold schedSendEvent. cbn [s' ps_m ps_q set_list waitingOnRetry]. rewrite Hw.
    assert (Hfin : forall m, timer_set (ps_m s) m sendEvent (dp_tick d) -> pqinv (ps_set s' (ps_q s') m)).
    { intros m (M1 & M2 & M3 & M4 & _). split; [apply Hput; auto|]. cbn. rewrite Hf, Hw. cbn. exists (dp_tick d). split; [done|lia]. }
    destruct (em_timer (ps_m s) sendEvent) as [t|] eqn:Et.
    - specialize (Hlt t eq_refl). destruct (Z.ltb_spec (dp_tick d) t); [|lia]. destruct (em_reschedule_ok (ps_m s) sendEvent (dp_tick d) t Hok Hal Et ltac:(lia)) as (m & -> & Hm). cbn. eauto.
    - destruct (em_schedule_ok (ps_m s) sendEvent (dp_tick d) Hok Hal Et ltac:(lia)) as (m & -> & Hm). cbn. eauto. }
  destruct (ps_list s) as [|x l] eqn:El.
  - cbn [timer_ok] in Ht. destruct Ht as [Hw Hn]. apply Hfront; [done|done|]. intros t Ht. congruence.
  - cbn [timer_ok] in Ht. destruct (Z.ltb_spec (dp_tick d) (dp_tick x)).
    + destruct (waitingOnRetry (ps_q s)) eqn:Hw; [lia|]. destruct Ht as (t & Ht & Hle). apply Hfront; [done| |intros t' Ht'; rewrite Ht in Ht'; injection Ht' as <-; lia].
      cbn. destruct (Z.leb_spec (dp_tick x) (dp_tick d)); [lia|done].
    + exists s'. split; [done|]. split; [rewrite <- Hsame; by apply Hput|]. cbn. destruct (Z.leb_spec (dp_tick x) (dp_tick d)); [|lia]. cbn. done.
Qed.

(** Calls while the first packet is being sent do not touch it: they are not earlier. *)
Lemma pq_data_calls re : forall s x l, pq_data s -> ps_list s = x :: l -> dp_tick x <= em_now (ps_m s) -> Forall (call_ok slave (em_now (ps_m s))) re -> (length (ps_list s) + length re <= 101)%nat ->
  exists s' l', calls sendEvent s re = Done s' /\ pq_data s' /\ ps_list s' = x :: l' /\ ps_m s' = ps_m s /\ ps_sent s' = ps_sent s /\ ps_last s' = ps_last s /\ ps_drained s' = ps_drained s /\
    pq_draining (ps_q s') = pq_draining (ps_q s).
Proof.
  induction re as [|c re IH]; intros s x l Hd Hl Hx Hf Hlen; cbn [calls]; [exists s, l; by split_and!|]. apply Forall_cons in Hf as [Hc Hf]. pose proof Hc as (Hr & _ & Hsn). cbn in Hlen.
  rewrite (sched_put s c Hd Hc) by lia. cbn zeta. rewrite Hl. destruct (Z.ltb_spec (dp_tick (c_pkt c)) (dp_tick x)); [lia|]. cbn [mbind sim_bind].
  set (s1 := mkPS _ _ _ _ _ _). destruct (pd_ok _ Hd) as [Hok Hal]. assert (Hd1 : pq_data s1) by (unfold s1; rewrite <- Hl; exact (pq_data_put s (c_pkt c) (ps_m s) Hd Hr Hsn Hok Hal eq_refl)).
  assert (Hl1 : ps_list s1 = x :: insert_tick (c_pkt c) l) by (cbn; destruct (Z.leb_spec (dp_tick x) (dp_tick (c_pkt c))); [done|lia]).
  destruct (IH s1 x _ Hd1 Hl1) as (s' & l' & I1); [done|done| |by exists s', l'].
  rewrite Hl1. cbn. rewrite insert_tick_length. rewrite Hl in Hlen. cbn in Hlen. lia.
Qed.

(** One attempt to send the first packet, which is ready; [draining] and the counter of finished drains aside. *)
Lemma pqinv_send s re ok x l : pq_data s -> ps_list s = x :: l -> dp_tick x <= em_now (ps_m s) -> em_timer (ps_m s) sendEvent = None ->
  em_now (ps_m s) + 1 < MaxTick -> Forall (call_ok slave (em_now (ps_m s))) re -> (length (ps_list s) + length re <= 101)%nat ->
  exists s', sendDeferredPacket sendEvent slave s re ok = Done s' /\ pqinv s' /\ ps_sent s' = (if ok then ps_sent s ++ [x] else ps_sent s) /\ waitingOnRetry (ps_q s') = negb ok.
Proof.
  intros Hd Hl Hx Ht Hmax Hf Hlen. unfold sendDeferredPacket, trySendTiming, deferredPacketReady. rewrite Hl. destruct (Z.leb_spec (dp_tick x) (em_now (ps_m s))); [|lia]. cbn [check mbind sim_bind].
  assert (Hsn : negb (slave && dp_snoop x) = true).
  { pose proof (pd_pkts _ Hd) as Hp. rewrite Hl in Hp. apply Forall_cons in Hp as [[_ Hp] _]. destruct slave; [by rewrite Hp|done]. }
  rewrite Hsn. cbn [check mbind sim_bind]. destruct (pq_data_calls re s x l Hd Hl Hx Hf Hlen) as (s1 & l1 & -> & Hd1 & Hl1 & Hm & Hse & Hla & Hdr & Hdn). cbn [mbind sim_bind].
  destruct ok; cbn [negb].
  2:{ exists (ps_set s1 (set_retry (ps_q s1) true) (ps_m s1)). split; [done|]. split; [|split; [exact Hse|done]]. destruct Hd1 as [D1 D2 D3 D4 D5 D6]. split; [by split|]. cbn. unfold ps_list in Hl1. rewrite Hl1. cbn. by rewrite Hm. }
  unfold ps_list in Hl1. cbn [set_retry transmitList]. rewrite Hl1. cbn [mbind sim_bind waitingOnRetry set_list set_retry ps_q].
  destruct Hd1 as [[D1 D1a] D2 D3 D4 D5 D6]. unfold ps_list in D2, D3, D5. rewrite Hl1 in D2, D3, D5. apply StronglySorted_inv in D2 as [D2 D2f]. apply Forall_cons in D3 as [_ D3]. rewrite Hm in *.
  set (q1 := mkPQ l1 false (pq_draining (ps_q s1))).
  assert (Hdata : forall m k, em_ok m -> em_alive m sendEvent -> em_now m = em_now (ps_m s) -> pq_data (mkPS q1 m (ps_in s1) (ps_sent s1 ++ [x]) (em_now (ps_m s)) k)).
  { intros m k M1 M2 M3. split; unfold ps_list; cbn; rewrite ?M3; try done; [|by rewrite <- app_assoc]. apply Forall_app. split; [done|]. by repeat constructor. }
  unfold scheduleSend, deferredPacketReadyTime, ps_list. cbn [ps_q ps_m set_list set_retry transmitList waitingOnRetry pq_draining]. rewrite Hse in *. destruct l1 as [|y l1].
  - assert (Hmx : Z.max (Z.min MaxTick MaxTick) (em_now (ps_m s) + 1) = MaxTick) by lia. rewrite Hmx, Z.eqb_refl. cbn [negb]. rewrite Ht.
    destruct (pq_draining (ps_q s1)) eqn:Ed.
    + eexists. split; [done|]. split; [|done]. split; [|done]. destruct (Hdata (ps_m s) O) as [E1 E2 E3 E4 E5 E6]; try done.
    + eexists. split; [done|]. split; [|done]. split; [|done]. destruct (Hdata (ps_m s) O) as [E1 E2 E3 E4 E5 E6]; try done.
  - apply Forall_cons in D3 as [[D3y _] _]. rewrite Z.min_l by lia. destruct (Z.eqb_spec (Z.max (dp_tick y) (em_now (ps_m s) + 1)) MaxTick); [lia|]. cbn [negb]. rewrite Ht.
    assert (Hle : em_now (ps_m s) <= Z.max (dp_tick y) (em_now (ps_m s) + 1)) by lia. destruct (em_schedule_ok (ps_m s) sendEvent _ D1 D1a Ht Hle) as (m & -> & M1 & M2 & M3 & M4 & _). cbn [mbind sim_bind].
    eexists. split; [done|]. split; [|done]. split; [apply Hdata; auto|]. cbn. eexists. split; [done|]. lia.
Qed.

Lemma pqinv_step s e : pqinv s -> pq_admits sendEvent slave s e -> exists s', pq_exec sendEvent slave s e = Done s' /\ pqinv s'.
Proof.
  intros Hi Ha. pose proof Hi as [Hd Ht]. pose proof Hd as [[Hok Hal] Hso Hpk Hpa Hor Hla]. destruct e as [c|m' re ok|re ok| |m']; cbn [pq_exec pq_admits] in *.
  - destruct Ha. by apply pqinv_call.
  - destruct Ha as (Hfi & Hmax & Hf & Hlen). destruct (em_fire_ok _ _ _ Hok Hfi) as (Hok' & Hnow & Htm & Hn & _ & Hal').
    unfold timer_ok in Ht. destruct (ps_list s) as [|x l] eqn:El; [destruct Ht; congruence|]. destruct (waitingOnRetry (ps_q s)) eqn:Hw; [destruct Ht; congruence|].
    destruct Ht as (t & Ht & Hxt). rewrite Ht in Htm. injection Htm as ->. unfold processSendEvent. cbn [ps_q ps_set]. rewrite Hw. cbn [negb check mbind sim_bind].
    assert (Hd' : pq_data (ps_set s (ps_q s) m')).
    { split; unfold ps_list in *; cbn; rewrite ?El; try done; [split; auto|eapply Forall_impl; [exact Hpa|]; cbn; intros; lia|lia]. }
    destruct (pqinv_send (ps_set s (ps_q s) m') re ok x l Hd' El) as (s' & H1 & H2 & _); [cbn; lia|done|done|done|unfold ps_list in *; cbn; by rewrite El|by exists s'].
  - destruct Ha as (Hw & Hmax & Hf & Hlen). unfold retry. rewrite Hw. cbn [check mbind sim_bind]. rewrite Hw in Ht. unfold timer_ok in Ht. destruct (ps_list s) as [|x l] eqn:El; [by destruct Ht|].
    destruct Ht as [Hn Hx]. destruct (pqinv_send s re ok x l) as (s' & H1 & H2 & _); try done; [by rewrite El|]. by exists s'.
  - unfold pq_drain. destruct (ps_list s) as [|x l] eqn:El; [by exists s|]. eexists. split; [done|]. split; [by split; unfold ps_list; cbn; rewrite ?El|]. cbn. done.
  - destruct Ha as (Hok' & Hal' & Hnow & Htm). eexists. split; [done|]. split.
    + split; unfold ps_list in *; cbn; try done; [eapply Forall_impl; [exact Hpa|]; cbn; intros; lia|lia].
    + unfold timer_ok, ps_list in *. cbn [ps_q ps_m ps_last ps_set]. rewrite Htm. destruct (transmitList (ps_q s)); [exact Ht|]. destruct (waitingOnRetry (ps_q s)); [|exact Ht]. destruct Ht. split; [done|lia].
Qed.

Definition pq_start (m : M) : pqs := mkPS PacketQueue_new m [] [] (-1) 0.
(** The state in which a queue is constructed: its event is alive and not scheduled. *)
Definition pq_initial (m : M) : Prop := em_ok m /\ em_alive m sendEvent /\ em_timer m sendEvent = None /\ 0 <= em_now m.

Lemma pqinv_reachable m s : pq_initial m -> rtc (pq_step sendEvent slave) (pq_start m) s -> pqinv s.
Proof.
  intros (H1 & H2 & H3 & H4) Hr. assert (H0' : pqinv (pq_start m)).
  { split; [|done]. split; unfold ps_list; cbn; try done; [apply SSorted_nil|lia]. }
  revert H0'. generalize (pq_start m) Hr. clear Hr. intros s0 Hr. induction Hr as [|s0 s1 s2 [s0' s1' e Ha He] _ IH]; [done|]. intros Hi. apply IH.
  destruct (pqinv_step s0' e Hi Ha) as (s' & E & Hi'). rewrite He in E. by injection E as <-.
Qed.
End invariant.

(** What is not a send leaves the packets sent alone. *)
Section sent.
Context `{EventManager M} (sendEvent : Z).

Lemma schedSendEvent_sent (s s' : pqs M) w : schedSendEvent sendEvent s w = Done s' -> ps_sent s' = ps_sent s.
Proof.
  unfold schedSendEvent. intros Hs. destruct (em_timer (ps_m s) sendEvent), (waitingOnRetry (ps_q s)); try done; try (by injection Hs as <-).
  - destruct (w <? z); [|by injection Hs as <-]. by apply bind_Done in Hs as (m & _ & [= <-]).
  - by apply bind_Done in Hs as (m & _ & [= <-]).
Qed.

Lemma calls_sent re : forall (s s' : pqs M), calls sendEvent s re = Done s' -> ps_sent s' = ps_sent s.
Proof.
  induction re as [|c re IH]; intros s s' Hs; cbn in Hs; [by injection Hs as <-|]. apply bind_Done in Hs as (s1 & H1 & H2). rewrite (IH s1 s' H2). clear IH H2.
  unfold schedSendTiming in H1. apply bind_Done in H1 as (u1 & _ & (u2 & _ & H1)%bind_Done). destruct (100 <? length (ps_list s))%nat; [done|].
  destruct (ps_list s) as [|x l]; [by apply schedSendEvent_sent in H1|]. destruct (dp_tick (c_pkt c) <? dp_tick x); [by apply schedSendEvent_sent in H1|].
  destruct (dp_tick (last_or x l) <=? dp_tick (c_pkt c)); by injection H1 as <-.
Qed.

Lemma scheduleSend_sent (s s' : pqs M) time : scheduleSend sendEvent s time = Done s' -> ps_sent s' = ps_sent s.
Proof.
  unfold scheduleSend. cbn zeta. destruct (negb _).
  - destruct (em_timer (ps_m s) sendEvent) as [t|]; [destruct (_ <? t); [|by intros [= <-]]|]; by intros (m & _ & [= <-])%bind_Done.
  - destruct (ps_list s), (em_timer (ps_m s) sendEvent); try (by intros [= <-]). destruct (pq_draining (ps_q s)); by intros [= <-].
Qed.
End sent.

(** ** Properties *)

(** C22: Packets leave a port in order.  In every execution that the neighbours and the event manager admit, the packets that were sent, followed by those
    that still wait, are the packets that were queued, sorted by their ticks, those of the same tick in the order in which they were queued:
    none is lost, doubled or overtaken, also when the peer queues packets while it receives one. *)
Theorem packet_queue_order {M} `{EventManagerLaws M} (sendEvent : Z) (slave : bool) (m : M) (s : pqs M) : pq_initial sendEvent m -> rtc (pq_step sendEvent slave) (pq_start m) s ->
  ps_sent s ++ transmitList (ps_q s) = fold_left (fun l d => insert_tick d l) (ps_in s) [] /\ by_tick (transmitList (ps_q s)) /\
  Forall (fun d => dp_tick d <= em_now (ps_m s)) (ps_sent s).
Proof. intros Hm Hr. destruct (pqinv_reachable sendEvent slave m s Hm Hr) as [[Hok Hso Hpk Hpa Hor Hla] _]. done. Qed.

(** C36: No assertion of a packet queue fails.  Whatever the neighbours and the event manager admit, a call of the queue returns: no packet is sent before its tick, the send
    event is never scheduled twice or for the past, and a retry is never taken for an event. *)
Theorem packet_queue_safe {M} `{EventManagerLaws M} (sendEvent : Z) (slave : bool) (m : M) (s : pqs M) (e : pq_event) : pq_initial sendEvent m -> rtc (pq_step sendEvent slave) (pq_start m) s ->
  pq_admits sendEvent slave s e -> exists s', pq_exec sendEvent slave s e = Done s'.
Proof. intros Hm Hr Ha. destruct (pqinv_step sendEvent slave s e (pqinv_reachable sendEvent slave m s Hm Hr) Ha) as (s' & Hs & _). by exists s'. Qed.

(** C23: No packet is forgotten or late.  While a packet waits, the queue either waits for the retry of its first packet, which was refused when it was ready, or its
    send event is scheduled, for a tick at which this packet is ready and that is not later than the packet's own tick and the
    tick after the last send; and when the event comes or the retry is made and the peer accepts, this packet is sent. *)
Theorem packet_queue_prompt {M} `{EventManagerLaws M} (sendEvent : Z) (slave : bool) (m : M) (s : pqs M) d l : pq_initial sendEvent m -> rtc (pq_step sendEvent slave) (pq_start m) s ->
  transmitList (ps_q s) = d :: l ->
  ((waitingOnRetry (ps_q s) = true /\ dp_tick d <= em_now (ps_m s) /\ em_timer (ps_m s) sendEvent = None) \/
   (waitingOnRetry (ps_q s) = false /\ exists t, em_timer (ps_m s) sendEvent = Some t /\ dp_tick d <= t <= Z.max (dp_tick d) (ps_last s + 1))) /\
  forall e re s', e = PRetry re true \/ (exists m', e = PFire m' re true) -> pq_admits sendEvent slave s e -> pq_exec sendEvent slave s e = Done s' -> ps_sent s' = ps_sent s ++ [d].
Proof.
  intros Hm Hr Hl. pose proof (pqinv_reachable sendEvent slave m s Hm Hr) as [Hd Ht]. unfold timer_ok, ps_list in Ht. rewrite Hl in Ht. split.
  - destruct (waitingOnRetry (ps_q s)); [left; tauto|right; done].
  - intros e re s' He Ha Hs. assert (Hsent : forall s0, ps_sent s0 = ps_sent s -> ps_list s0 = d :: l -> forall s1, trySendTiming sendEvent slave s0 re true = Done s1 -> ps_sent s1 = ps_sent s ++ [d]).
    { intros s0 E0 E1 s1 H1. unfold trySendTiming in H1. rewrite E1 in H1. apply bind_Done in H1 as (u1 & _ & (u2 & _ & (v & Hc & H1)%bind_Done)%bind_Done). cbn in H1.
      destruct (transmitList (ps_q v)); [done|]. injection H1 as <-. cbn. f_equal. rewrite <- E0. by apply (calls_sent sendEvent re). }
    assert (Hdef : forall s0, ps_sent s0 = ps_sent s -> ps_list s0 = d :: l -> sendDeferredPacket sendEvent slave s0 re true = Done s' -> ps_sent s' = ps_sent s ++ [d]).
    { intros s0 E0 E1 H1. unfold sendDeferredPacket in H1. apply bind_Done in H1 as (s1 & H1 & H2). specialize (Hsent s0 E0 E1 s1 H1). destruct (waitingOnRetry (ps_q s1)); [by injection H2 as <-|].
      rewrite <- Hsent. by apply (scheduleSend_sent sendEvent s1 s' MaxTick). }
    destruct He as [->|[m' ->]]; cbn in Hs; [unfold retry in Hs|unfold processSendEvent in Hs]; apply bind_Done in Hs as (u & _ & Hs); (eapply Hdef; [| |exact Hs]; done).
Qed.

(** ** Examples *)

(** A queue whose event is the event 8 of an event queue. *)
Definition ex_manager : sim eventq := exec_eops (EventQueue_new 4 ∅) [ONew 8 0 0].
Definition ex_call (p t : Z) : call := mkC (mkDP t p false) false.

Lemma ex_manager_ok q : ex_manager = Done q -> pq_initial 8 q.
Proof.
  intros E. destruct (reachable_inv ex_process 4 q) as (bs & Hi & Ht); [eapply exec_eops_reachable; [apply rtc_refl|exact E]|].
  vm_compute in E. injection E as <-. split; [split; [by exists bs|done]|]. split; [by eexists|]. by split.
Qed.

Definition ex_run (q : eventq) : sim (pqs eventq) :=
  s ← schedSendTiming 8 (pq_start q) (ex_call 1 7); s ← schedSendTiming 8 s (ex_call 2 5); schedSendTiming 8 s (ex_call 3 5).

Lemma ex_run_reachable q s : ex_manager = Done q -> ex_run q = Done s -> rtc (pq_step 8 true) (pq_start q) s.
Proof.
  intros Eq Es. unfold ex_run in Es. apply bind_Done in Es as (s1 & H1 & (s2 & H2 & H3)%bind_Done). vm_compute in Eq. injection Eq as <-.
  apply rtc_l with s1; [apply (pq_step_intro _ _ _ _ (PCall (ex_call 1 7))); [split; [split; [done|done]|cbn; lia]|exact H1]|]. vm_compute in H1. injection H1 as <-.
  apply rtc_l with s2; [apply (pq_step_intro _ _ _ _ (PCall (ex_call 2 5))); [split; [split; [done|done]|cbn; lia]|exact H2]|]. vm_compute in H2. injection H2 as <-.
  apply rtc_once. apply (pq_step_intro _ _ _ _ (PCall (ex_call 3 5))); [split; [split; [done|done]|cbn; lia]|exact H3].
Qed.

Lemma packet_queue_order_witness :
  exists q s, ex_manager = Done q /\ ex_run q = Done s /\ ps_sent s ++ transmitList (ps_q s) = [mkDP 5 2 false; mkDP 5 3 false; mkDP 7 1 false].
Proof.
  destruct ex_manager as [q| |] eqn:Eq; [|by vm_compute in Eq..]. destruct (ex_run q) as [s| |] eqn:Es; [|by vm_compute in Eq; injection Eq as <-; vm_compute in Es..].
  exists q, s. split; [done|]. split; [done|]. destruct (packet_queue_order 8 true q s (ex_manager_ok q Eq) (ex_run_reachable q s Eq Es)) as [-> _].
  vm_compute in Eq. injection Eq as <-. vm_compute in Es. injection Es as <-. reflexivity.
Defined.

Lemma packet_queue_safe_witness : exists q s s', ex_manager = Done q /\ ex_run q = Done s /\ pq_exec 8 true s (PCall (ex_call 4 6)) = Done s'.
Proof.
  destruct ex_manager as [q| |] eqn:Eq; [|by vm_compute in Eq..]. destruct (ex_run q) as [s| |] eqn:Es; [|by vm_compute in Eq; injection Eq as <-; vm_compute in Es..].
  destruct (packet_queue_safe 8 true q s (PCall (ex_call 4 6)) (ex_manager_ok q Eq) (ex_run_reachable q s Eq Es)) as [s' Hs']; [|by exists q, s, s'].
  vm_compute in Eq. injection Eq as <-. vm_compute in Es. injection Es as <-. split; [split; [done|done]|cbn; lia].
Defined.

Lemma packet_queue_prompt_witness : exists q s t, ex_manager = Done q /\ ex_run q = Done s /\ em_timer (ps_m s) 8 = Some t /\ 5 <= t <= Z.max 5 (ps_last s + 1).
Proof.
  destruct ex_manager as [q| |] eqn:Eq; [|by vm_compute in Eq..]. destruct (ex_run q) as [s| |] eqn:Es; [|by vm_compute in Eq; injection Eq as <-; vm_compute in Es..].
  destruct (packet_queue_prompt 8 true q s (mkDP 5 2 false) [mkDP 5 3 false; mkDP 7 1 false] (ex_manager_ok q Eq) (ex_run_reachable q s Eq Es)) as [[(Hw & _)|(_ & t & H1 & H2)] _].
  - vm_compute in Eq. injection Eq as <-. vm_compute in Es. injection Es as <-. reflexivity.
  - vm_compute in Eq. injection Eq as <-. vm_compute in Es. injection Es as <-. discriminate Hw.
  - exists q, s, t. split; [done|]. split; [done|]. split; [exact H1|exact H2].
Defined.
