(* ===== verification/Bridge.v ===== *)
(** * The bridge, which also models the serial links

    Models src/SMC/GEM5/gem5/src/mem/bridge.hh and bridge.cc: a queue of requests with an event that sends the first of them to the memory side, a queue of responses
    with an event that sends the first of them back, the space for a response that a request reserves, the request that was refused and must be told to
    retry, and the serialization of the packets.  The events are scheduled through the interface [EventManager] of EventQ.v.  The neighbours are modelled by what they may do: a refused sender
    sends nothing until it is told to retry and may then send again within the same call, a receiver that refuses a packet sends one retry later, and
    a response answers a request that was forwarded and carries the sender state that the request had.

    The theorems show that the bridge is a pair of delay lines that lose, repeat and reorder nothing and give every response the way back of its
    request, that no assertion fails and no buffer grows beyond its limit, that a refused sender waits only while a buffer is full and no waiting packet is forgotten, and
    what the serialization does to the ticks. *)

From stdpp Require Import sorting.
From S2P Require Import Prelude XbarLayer EventQ.

(** ** Packets *)

Definition InvalidPortID : Z := -1.

(** What modules push on the sender state of a packet: the state of a bridge, or that of another module. *)
Inductive sstate := RequestState (origSrc : Z) | OtherState (n : Z).

Record bpkt := mkBP {
  bp_id : Z;
  bp_size : Z;
  needsResponse : bool;
  memInhibit : bool;
  bp_src : Z;
  bp_dest : Z;
  bp_senders : list sstate;
}.

Definition pushSenderState (p : bpkt) (st : sstate) : bpkt :=
  mkBP (bp_id p) (bp_size p) (needsResponse p) (memInhibit p) (bp_src p) (bp_dest p) (st :: bp_senders p).
Definition popSenderState (p : bpkt) : sim (bpkt * sstate) :=
  match bp_senders p with
  | [] => Halt
  | st :: l => Done (mkBP (bp_id p) (bp_size p) (needsResponse p) (memInhibit p) (bp_src p) (bp_dest p) l, st)
  end.
Definition setDest (p : bpkt) (d : Z) : bpkt :=
  mkBP (bp_id p) (bp_size p) (needsResponse p) (memInhibit p) (bp_src p) d (bp_senders p).
Definition expects_response (p : bpkt) : bool := needsResponse p && negb (memInhibit p).

(** ** The bridge *)

Record bcfg := mkBC {
  br_period : Z;
  br_delay : Z;
  serialization_enable : bool;
  serialization_unit : Z;
  reqQueueLimit : nat;
  respQueueLimit : Z;
  reqEvent : Z;
  respEvent : Z;
}.

(** [b_reqs] is the list of the master port and [b_resps] that of the slave port; [req_prev] and [resp_prev] are the two [prev_serial_tick]. *)
Record bridge := mkB {
  b_reqs : list (Z * bpkt);
  b_resps : list (Z * bpkt);
  outstandingResponses : Z;
  retryReq : bool;
  req_prev : Z;
  resp_prev : Z;
}.

Definition Bridge_new : bridge := mkB [] [] 0 false 0 0.

Definition with_reqs (b : bridge) (l : list (Z * bpkt)) : bridge := mkB l (b_resps b) (outstandingResponses b) (retryReq b) (req_prev b) (resp_prev b).
Definition with_resps (b : bridge) (l : list (Z * bpkt)) : bridge := mkB (b_reqs b) l (outstandingResponses b) (retryReq b) (req_prev b) (resp_prev b).
Definition with_outstanding (b : bridge) (n : Z) : bridge := mkB (b_reqs b) (b_resps b) n (retryReq b) (req_prev b) (resp_prev b).
Definition with_retryReq (b : bridge) (r : bool) : bridge := mkB (b_reqs b) (b_resps b) (outstandingResponses b) r (req_prev b) (resp_prev b).
Definition with_req_prev (b : bridge) (t : Z) : bridge := mkB (b_reqs b) (b_resps b) (outstandingResponses b) (retryReq b) t (resp_prev b).
Definition with_resp_prev (b : bridge) (t : Z) : bridge := mkB (b_reqs b) (b_resps b) (outstandingResponses b) (retryReq b) (req_prev b) t.

(** When a packet that arrives at [now] may leave, and the new [prev_serial_tick]. *)
Definition serial_tick (c : bcfg) (now size prev : Z) : sim (Z * Z) :=
  if serialization_enable c then
    if serialization_unit c =? 0 then Wild
    else
      let cycles := (size * 8) mod 2 ^ 32 / serialization_unit c + br_delay c in
      let t := clockEdge (br_period c) now cycles in
      let t := if t <=? prev then prev + 1 else t in
      Done (t, t)
  else Done (clockEdge (br_period c) now (br_delay c), prev).

Section bridge.
Context `{EventManager M} (c : bcfg).

(** The bridge with the event manager and what happened: the requests that were accepted and the responses that were received, with the tick of
    their arrival; the packets that were sent to each side, with the tick at which they were ready; the requests that were sent and not yet answered; whether
    the last packet sent to a side was refused, and the tick at which the last one was sent. *)
Record bsys := mkBS {
  s_b : bridge;
  s_m : M;
  s_acc : list (Z * bpkt);
  s_got : list (Z * bpkt);
  s_fwd : list (Z * bpkt);
  s_out : list (Z * bpkt);
  s_inflight : list bpkt;
  s_reqBlocked : bool;
  s_respBlocked : bool;
  s_reqLast : Z;
  s_respLast : Z;
}.

Definition s_set (s : bsys) (b : bridge) (m : M) : bsys :=
  mkBS b m (s_acc s) (s_got s) (s_fwd s) (s_out s) (s_inflight s) (s_reqBlocked s) (s_respBlocked s) (s_reqLast s) (s_respLast s).
Definition now_of (s : bsys) : Z := em_now (s_m s).

Definition respQueueFull (b : bridge) : bool := outstandingResponses b =? respQueueLimit c.
Definition reqQueueFull (b : bridge) : bool := (length (b_reqs b) =? reqQueueLimit c)%nat.

(** An event is scheduled if the packet becomes the first of its list. *)
Definition sched_if_empty (m : M) (l : list (Z * bpkt)) (ev w : Z) : sim M :=
  match l with [] => em_schedule m ev w | _ => Done m end.

Definition schedTimingReq (s : bsys) (pkt : bpkt) (w : Z) : sim bsys :=
  pkt' ← (if expects_response pkt then _ ← check (negb (bp_src pkt =? InvalidPortID)); Done (pushSenderState pkt (RequestState (bp_src pkt))) else Done pkt);
  m ← sched_if_empty (s_m s) (b_reqs (s_b s)) (reqEvent c) w;
  _ ← check (negb (reqQueueFull (s_b s)));
  Done (s_set s (with_reqs (s_b s) (b_reqs (s_b s) ++ [(w, pkt')])) m).

Definition schedTimingResp (s : bsys) (pkt : bpkt) (w : Z) : sim bsys :=
  '(pkt1, st) ← popSenderState pkt;
  match st with
  | OtherState _ => Halt
  | RequestState origSrc =>
      let pkt2 := setDest pkt1 origSrc in
      _ ← check (negb (bp_dest pkt2 =? InvalidPortID));
      m ← sched_if_empty (s_m s) (b_resps (s_b s)) (respEvent c) w;
      Done (s_set s (with_resps (s_b s) (b_resps (s_b s) ++ [(w, pkt2)])) m)
  end.

Definition log_acc (s : bsys) (p : bpkt) : bsys :=
  mkBS (s_b s) (s_m s) (s_acc s ++ [(now_of s, p)]) (s_got s) (s_fwd s) (s_out s) (s_inflight s) (s_reqBlocked s) (s_respBlocked s) (s_reqLast s) (s_respLast s).

(** The result is the answer to the sender. *)
Definition recvTimingReq (s : bsys) (pkt : bpkt) : sim (bsys * bool) :=
  let b := s_b s in
  _ ← check (negb (retryReq b));
  if reqQueueFull b then Done (s_set s (with_retryReq b true) (s_m s), false)
  else if expects_response pkt && respQueueFull b then Done (s_set s (with_retryReq b true) (s_m s), false)
  else
    let b1 := if expects_response pkt then with_outstanding b (outstandingResponses b + 1) else b in
    '(t, prev) ← serial_tick c (now_of s) (bp_size pkt) (req_prev b1);
    s' ← schedTimingReq (s_set s (with_req_prev b1 prev) (s_m s)) pkt t;
    Done (log_acc s' pkt, true).

Definition recvTimingResp (s : bsys) (pkt : bpkt) : sim bsys :=
  '(t, prev) ← serial_tick c (now_of s) (bp_size pkt) (resp_prev (s_b s));
  schedTimingResp (s_set s (with_resp_prev (s_b s) prev) (s_m s)) pkt t.

(** [sendRetry]: the sender sends the packets [again], until one is refused. *)
Fixpoint resend (s : bsys) (again : list bpkt) : sim bsys :=
  match again with
  | [] => Done s
  | p :: again' => '(s', ok) ← recvTimingReq s p; if (ok : bool) then resend s' again' else Done s'
  end.

Definition retryStalledReq (s : bsys) (again : list bpkt) : sim bsys :=
  if retryReq (s_b s) then resend (s_set s (with_retryReq (s_b s) false) (s_m s)) again else Done s.

Definition sched_next (m : M) (l : list (Z * bpkt)) (ev : Z) : sim M :=
  match l with [] => Done m | d :: _ => em_schedule m ev (Z.max d.1 (clockEdge (br_period c) (em_now m) 0)) end.

(** [BridgeMasterPort::trySendTiming]: [ok] is the answer of the memory side. *)
Definition trySendReq (s : bsys) (ok : bool) (again : list bpkt) : sim bsys :=
  match b_reqs (s_b s) with
  | [] => Halt
  | d :: l =>
      _ ← check (d.1 <=? now_of s);
      if ok then
        m ← sched_next (s_m s) l (reqEvent c);
        retryStalledReq
          (mkBS (with_reqs (s_b s) l) m (s_acc s) (s_got s) (s_fwd s ++ [d]) (s_out s) (s_inflight s ++ (if expects_response d.2 then [d.2] else []))
                false (s_respBlocked s) (now_of s) (s_respLast s)) again
      else Done (mkBS (s_b s) (s_m s) (s_acc s) (s_got s) (s_fwd s) (s_out s) (s_inflight s) true (s_respBlocked s) (s_reqLast s) (s_respLast s))
  end.

(** [BridgeSlavePort::trySendTiming] *)
Definition trySendResp (s : bsys) (ok : bool) (again : list bpkt) : sim bsys :=
  match b_resps (s_b s) with
  | [] => Halt
  | d :: l =>
      _ ← check (d.1 <=? now_of s);
      if ok then
        let b1 := with_resps (s_b s) l in
        _ ← check (negb (outstandingResponses b1 =? 0));
        let b2 := with_outstanding b1 (outstandingResponses b1 - 1) in
        m ← sched_next (s_m s) l (respEvent c);
        let s1 := mkBS b2 m (s_acc s) (s_got s) (s_fwd s) (s_out s ++ [d]) (s_inflight s) (s_reqBlocked s) false (s_reqLast s) (now_of s) in
        if negb (reqQueueFull b2) && retryReq b2 then resend (s_set s1 (with_retryReq b2 false) m) again else Done s1
      else Done (mkBS (s_b s) (s_m s) (s_acc s) (s_got s) (s_fwd s) (s_out s) (s_inflight s) (s_reqBlocked s) true (s_reqLast s) (s_respLast s))
  end.

(** [recvAtomic]: [below] is the latency of the memory side. *)
Definition recvAtomic (below : Z) : Z := br_delay c * br_period c + below.

(** [recvFunctional]: [hit] is what the packet answers about a queued one and [name] the label of the port.  The result is the stack of labels and which part of the system has answered. *)
Inductive answered := ByResponse | ByRequest | ByMemory.
Definition checkFunctional (hit : bpkt -> bool) (l : list (Z * bpkt)) : bool := existsb (fun d => hit d.2) l.
Definition recvFunctional (name : Z) (hit : bpkt -> bool) (b : bridge) (labels : list Z) : list Z * answered :=
  let labels1 := name :: labels in
  if checkFunctional hit (b_resps b) then (labels1, ByResponse)
  else if checkFunctional hit (b_reqs b) then (labels1, ByRequest)
  else (tail labels1, ByMemory).

(** ** Executions *)

(** A request arrives; the [i]-th unanswered request is answered by [pkt]; an event is processed; a neighbour sends the retry that it owes; anything else happens in the simulation. *)
Inductive bevent :=
  | BReq (pkt : bpkt)
  | BResp (i : nat) (pkt : bpkt)
  | BReqFire (m' : M) (ok : bool) (again : list bpkt)
  | BRespFire (m' : M) (ok : bool) (again : list bpkt)
  | BReqRetry (ok : bool) (again : list bpkt)
  | BRespRetry (ok : bool) (again : list bpkt)
  | BOther (m' : M).

Definition answer (s : bsys) (i : nat) (pkt : bpkt) : bsys :=
  mkBS (s_b s) (s_m s) (s_acc s) (s_got s ++ [(now_of s, pkt)]) (s_fwd s) (s_out s) (delete i (s_inflight s)) (s_reqBlocked s) (s_respBlocked s) (s_reqLast s) (s_respLast s).

Definition bexec (s : bsys) (e : bevent) : sim bsys :=
  match e with
  | BReq pkt => '(s', _) ← recvTimingReq s pkt; Done s'
  | BResp i pkt => recvTimingResp (answer s i pkt) pkt
  | BReqFire m' ok again => trySendReq (s_set s (s_b s) m') ok again
  | BRespFire m' ok again => trySendResp (s_set s (s_b s) m') ok again
  | BReqRetry ok again => trySendReq s ok again
  | BRespRetry ok again => trySendResp s ok again
  | BOther m' => Done (s_set s (s_b s) m')
  end.

Definition req_ok (p : bpkt) : Prop := expects_response p = true -> bp_src p <> InvalidPortID.
Definition answers (r p : bpkt) : Prop := bp_id p = bp_id r /\ bp_senders p = bp_senders r.

Definition badmits (s : bsys) (e : bevent) : Prop :=
  match e with
  | BReq pkt => retryReq (s_b s) = false /\ req_ok pkt
  | BResp i pkt => exists r, s_inflight s !! i = Some r /\ answers r pkt
  | BReqFire m' _ again => em_fire (s_m s) (reqEvent c) m' /\ Forall req_ok again
  | BRespFire m' _ again => em_fire (s_m s) (respEvent c) m' /\ Forall req_ok again
  | BReqRetry _ again => s_reqBlocked s = true /\ Forall req_ok again
  | BRespRetry _ again => s_respBlocked s = true /\ Forall req_ok again
  | BOther m' => em_ok m' /\ (forall ev, ev = reqEvent c \/ ev = respEvent c -> em_alive m' ev /\ em_timer m' ev = em_timer (s_m s) ev) /\ now_of s <= em_now m'
  end.

Inductive bstep : bsys -> bsys -> Prop :=
  | bstep_intro s s' e : badmits s e -> bexec s e = Done s' -> bstep s s'.
End bridge.
Arguments bsys M : clear implicits.

(** ** The delay line that a direction of the bridge is *)

(** The packet as the memory side sees it, and the response as the sender of the request sees it. *)
Definition to_mem (p : bpkt) : bpkt := if expects_response p then pushSenderState p (RequestState (bp_src p)) else p.
Definition to_cpu (p : bpkt) : bpkt :=
  match bp_senders p with
  | RequestState o :: l => mkBP (bp_id p) (bp_size p) (needsResponse p) (memInhibit p) (bp_src p) o l
  | _ => p
  end.

Section line.
Context (c : bcfg).

(** The tick at which a packet of [size] bytes that arrives at [now] is ready, when the packet before it was ready at [prev]. *)
Definition ready (now size prev : Z) : Z :=
  if serialization_enable c
  then Z.max (clockEdge (br_period c) now ((size * 8) mod 2 ^ 32 / serialization_unit c + br_delay c)) (prev + 1)
  else clockEdge (br_period c) now (br_delay c).

Fixpoint line (form : bpkt -> bpkt) (prev : Z) (l : list (Z * bpkt)) : list (Z * bpkt) :=
  match l with [] => [] | (now, p) :: l' => let t := ready now (bp_size p) prev in (t, form p) :: line form t l' end.
(** The tick of the last packet, where packets are serialized. *)
Fixpoint line_prev (prev : Z) (l : list (Z * bpkt)) : Z :=
  match l with [] => prev | (now, p) :: l' => line_prev (if serialization_enable c then ready now (bp_size p) prev else prev) l' end.

Lemma ready_parallel now size prev prev' : serialization_enable c = false -> ready now size prev = ready now size prev'.
Proof. unfold ready. by intros ->. Qed.

Lemma line_parallel form prev prev' l : serialization_enable c = false -> line form prev l = line form prev' l.
Proof. intros Hs. destruct l as [|[now p] l]; cbn; [done|]. by rewrite (ready_parallel now _ prev prev' Hs). Qed.

Lemma line_snoc form l : forall prev now p, line form prev (l ++ [(now, p)]) = line form prev l ++ [(ready now (bp_size p) (line_prev prev l), form p)].
Proof.
  induction l as [|[n q] l IH]; intros prev now p; cbn; [done|]. rewrite IH. f_equal. f_equal. destruct (serialization_enable c) eqn:Hs; [done|].
  by erewrite ready_parallel.
Qed.

Lemma line_prev_snoc l : forall prev now p, line_prev prev (l ++ [(now, p)]) = if serialization_enable c then ready now (bp_size p) (line_prev prev l) else line_prev prev l.
Proof. induction l as [|[n q] l IH]; intros prev now p; cbn; [done|]. by rewrite IH. Qed.

Lemma line_elem form l x : forall prev, x ∈ line form prev l -> exists a, a ∈ l /\ x.2 = form a.2.
Proof.
  induction l as [|[n q] l IH]; intros prev Hx; cbn in Hx; [by apply elem_of_nil in Hx|]. apply elem_of_cons in Hx as [->|Hx]; [exists (n, q); split; [left|done]|].
  destruct (IH _ Hx) as (a & Ha & E). exists a. split; [by right|done].
Qed.

(** Parameters for which the bridge makes sense. *)
Record bcfg_ok : Prop := {
  bc_period : 0 < br_period c;
  bc_delay : 0 <= br_delay c;
  bc_unit : serialization_enable c = true -> 0 < serialization_unit c;
  bc_limit : 0 <= respQueueLimit c;
  bc_events : reqEvent c <> respEvent c;
}.

Context (Hc : bcfg_ok).

Lemma clockEdge_ge now k : 0 <= k -> now <= clockEdge (br_period c) now k.
Proof. intros Hk. destruct Hc as [Hp _ _ _ _]. unfold clockEdge. pose proof (div_ceil_le now (br_period c) Hp). nia. Qed.

Lemma clockEdge_mono now now' k : now <= now' -> clockEdge (br_period c) now k <= clockEdge (br_period c) now' k.
Proof.
  intros Hn. destruct Hc as [Hp _ _ _ _]. unfold clockEdge, div_ceil. assert (Hd : (now + br_period c - 1) / br_period c <= (now' + br_period c - 1) / br_period c) by (apply Z.div_le_mono; lia). nia.
Qed.

(** The cycles that a packet takes. *)
Definition link_cycles (size : Z) : Z := (if serialization_enable c then (size * 8) mod 2 ^ 32 / serialization_unit c else 0) + br_delay c.

Lemma link_cycles_delay size : br_delay c <= link_cycles size.
Proof.
  unfold link_cycles. destruct Hc as [_ _ Hu _ _]. destruct (serialization_enable c); [|lia]. pose proof (Z.mod_pos_bound (size * 8) (2 ^ 32)) as Hm.
  pose proof (Z.div_pos ((size * 8) mod 2 ^ 32) (serialization_unit c)) as Hd. specialize (Hu eq_refl). lia.
Qed.

Lemma ready_edge now size prev : clockEdge (br_period c) now (link_cycles size) <= ready now size prev.
Proof. unfold ready, link_cycles. destruct (serialization_enable c); [lia|]. by rewrite Z.add_0_l. Qed.

Lemma ready_after now size prev : now <= ready now size prev.
Proof.
  pose proof (ready_edge now size prev). pose proof (link_cycles_delay size). pose proof (bc_delay Hc). pose proof (clockEdge_ge now (link_cycles size)). lia.
Qed.

Lemma serial_tick_ready now size prev : serial_tick c now size prev = Done (ready now size prev, if serialization_enable c then ready now size prev else prev).
Proof.
  unfold serial_tick, ready. destruct Hc as [_ _ Hu _ _]. destruct (serialization_enable c); [|done]. specialize (Hu eq_refl).
  destruct (Z.eqb_spec (serialization_unit c) 0); [lia|]. set (t := clockEdge _ _ _). destruct (Z.leb_spec t prev); [rewrite Z.max_r by lia|rewrite Z.max_l by lia]; done.
Qed.

(** The ticks at which the packets are ready: each at least its own cycles after its arrival, and later than the one before it where packets are serialized. *)
Lemma line_ticks form l : forall prev, Forall2 (fun a d => clockEdge (br_period c) a.1 (link_cycles (bp_size a.2)) <= d.1) l (line form prev l).
Proof. induction l as [|[n q] l IH]; intros prev; cbn; constructor; [apply ready_edge|apply IH]. Qed.

Lemma line_serial form l : serialization_enable c = true -> forall prev, Forall (fun d => prev < d.1) (line form prev l) /\ StronglySorted (fun a b => a.1 < b.1) (line form prev l).
Proof.
  intros Hs. induction l as [|[n q] l IH]; intros prev; cbn; [split; constructor|]. destruct (IH (ready n (bp_size q) prev)) as [H1 H2].
  assert (Hr : prev < ready n (bp_size q) prev) by (unfold ready; rewrite Hs; lia). split; constructor; try done. eapply Forall_impl; [exact H1|]. cbn. intros; lia.
Qed.

Lemma line_parallel_sorted form l : serialization_enable c = false -> StronglySorted (fun a b => a.1 <= b.1) l -> forall prev, StronglySorted (fun a b => a.1 <= b.1) (line form prev l).
Proof.
  intros Hs. induction 1 as [|[n q] l Hl IH Hf]; intros prev; cbn; constructor; [apply IH|]. clear IH Hl. set (t0 := ready n (bp_size q) prev) at 2. generalize t0. clear t0.
  induction Hf as [|[n' q'] l Hn Hf IH]; intros t0; cbn; constructor; [|apply IH]. unfold ready. rewrite Hs. by apply clockEdge_mono.
Qed.
End line.

Lemma expects_to_mem p : expects_response (to_mem p) = expects_response p.
Proof. unfold to_mem. by destruct (expects_response p) eqn:E. Qed.
Lemma id_to_mem p : bp_id (to_mem p) = bp_id p.
Proof. unfold to_mem. by destruct (expects_response p). Qed.
Lemma id_to_cpu p : bp_id (to_cpu p) = bp_id p.
Proof. unfold to_cpu. by destruct (bp_senders p) as [|[]]. Qed.

(** ** The invariant *)

Definition ids (l : list (Z * bpkt)) : list Z := (fun d => bp_id d.2) <$> l.
Definition wanting (l : list (Z * bpkt)) : list (Z * bpkt) := filter (fun d => expects_response d.2 = true) l.

#[local] Arguments wanting : simpl never.
#[local] Arguments ids : simpl never.

Lemma wanting_app l l' : wanting (l ++ l') = wanting l ++ wanting l'.
Proof. apply filter_app. Qed.
Lemma wanting_one d : wanting [d] = if expects_response d.2 then [d] else [].
Proof. unfold wanting. rewrite filter_cons, filter_nil. destruct (decide _) as [->|Hn]; [done|]. by destruct (expects_response d.2). Qed.
Lemma wanting_cons d l : wanting (d :: l) = (if expects_response d.2 then [d] else []) ++ wanting l.
Proof. change (d :: l) with ([d] ++ l). by rewrite wanting_app, wanting_one. Qed.

Section invariant.
Context `{EventManagerLaws M} (c : bcfg) (Hc : bcfg_ok c).
#[local] Notation bsys := (bsys M).
Implicit Types (s : bsys) (m : M).

(** While packets wait, either the first one was refused and waits for the retry of the receiver, or the event is scheduled for a tick at which it is ready and that is no later than this packet
    and the last send require. *)
Definition side_ok m (l : list (Z * bpkt)) (blocked : bool) (ev last : Z) : Prop :=
  match l with
  | [] => blocked = false /\ em_timer m ev = None
  | d :: _ => if blocked then em_timer m ev = None /\ d.1 <= em_now m
              else exists t, em_timer m ev = Some t /\ d.1 <= t <= Z.max d.1 (clockEdge (br_period c) last 0)
  end.
Definition req_side s : Prop := side_ok (s_m s) (b_reqs (s_b s)) (s_reqBlocked s) (reqEvent c) (s_reqLast s).
Definition resp_side s : Prop := side_ok (s_m s) (b_resps (s_b s)) (s_respBlocked s) (respEvent c) (s_respLast s).

(** A request of [acc] that expects the response [p]. *)
Definition asked (acc : list (Z * bpkt)) (p : bpkt) : Prop := exists a, a ∈ acc /\ expects_response a.2 = true /\ answers (to_mem a.2) p.

Record bdata s : Prop := {
  bd_ok : em_ok (s_m s) /\ em_alive (s_m s) (reqEvent c) /\ em_alive (s_m s) (respEvent c);
  bd_line : s_fwd s ++ b_reqs (s_b s) = line c to_mem 0 (s_acc s);
  bd_prev : req_prev (s_b s) = line_prev c 0 (s_acc s);
  bd_back : s_out s ++ b_resps (s_b s) = line c to_cpu 0 (s_got s);
  bd_rprev : resp_prev (s_b s) = line_prev c 0 (s_got s);
  bd_acc : Forall (fun a => req_ok a.2 /\ a.1 <= em_now (s_m s)) (s_acc s) /\ StronglySorted (fun a b => a.1 <= b.1) (s_acc s);
  bd_inflight : Forall (asked (s_acc s)) (s_inflight s);
  bd_got : Forall (fun g => asked (s_acc s) g.2) (s_got s);
  bd_ids : ids (wanting (s_acc s)) ≡ₚ ids (wanting (b_reqs (s_b s))) ++ (bp_id <$> s_inflight s) ++ ids (b_resps (s_b s)) ++ ids (s_out s);
  bd_count : outstandingResponses (s_b s) = Z.of_nat (length (wanting (b_reqs (s_b s))) + length (s_inflight s) + length (b_resps (s_b s)));
  bd_limits : (length (b_reqs (s_b s)) <= reqQueueLimit c)%nat /\ outstandingResponses (s_b s) <= respQueueLimit c;
}.

(** A sender waits only while a buffer is full. *)
Definition stalled_ok s : Prop := retryReq (s_b s) = true -> reqQueueFull c (s_b s) = true \/ respQueueFull c (s_b s) = true.

Record binv s : Prop := { bi_data : bdata s; bi_req : req_side s; bi_resp : resp_side s; bi_stalled : stalled_ok s }.

(** Time and other events. *)
Definition same_events (m m' : M) : Prop :=
  em_ok m' /\ em_now m <= em_now m' /\ (forall ev, ev = reqEvent c \/ ev = respEvent c -> em_alive m ev -> em_alive m' ev).

Lemma bdata_time s m : bdata s -> same_events (s_m s) m -> bdata (s_set s (s_b s) m).
Proof.
  intros [H1 H2 H3 H4 H5 [H6 H6'] H7 H8 H9 H10 H11] (E1 & E2 & E3). destruct H1 as (O1 & O2 & O3). split; cbn; try done; [split; [done|]; split; apply E3; auto|].
  split; [|done]. eapply Forall_impl; [exact H6|]. cbn. intros a [? ?]. split; [done|lia].
Qed.

Lemma side_ok_time m m' l blocked ev last : side_ok m l blocked ev last -> em_timer m' ev = em_timer m ev -> em_now m <= em_now m' -> side_ok m' l blocked ev last.
Proof. unfold side_ok. intros Hs Ht Hn. rewrite Ht. destruct l as [|d l]; [done|]. destruct blocked; [|done]. destruct Hs. split; [done|lia]. Qed.

Lemma side_ok_put m l blocked ev last w p : em_ok m -> em_alive m ev -> side_ok m l blocked ev last -> em_now m <= w ->
  exists m', sched_if_empty m l ev w = Done m' /\ side_ok m' (l ++ [(w, p)]) blocked ev last /\ em_ok m' /\ em_now m' = em_now m /\
    (forall x, em_alive m x -> em_alive m' x) /\ (forall x, x <> ev -> em_timer m' x = em_timer m x).
Proof.
  intros Hok Hal Hs Hw. destruct l as [|d l]; cbn [sched_if_empty].
  - destruct Hs as [-> Ht]. destruct (em_schedule_ok m ev w Hok Hal Ht Hw) as (m1 & -> & M1 & M2 & M3 & M4 & M5). exists m1. split; [done|]. split; [|done]. cbn. exists w. split; [done|lia].
  - exists m. split; [done|]. split; [exact Hs|done].
Qed.

(** An accepted request goes to the end of its line. *)
Lemma bdata_accept s p w m b1 : bdata s -> req_ok p -> em_ok m -> em_now m = em_now (s_m s) -> (forall x, em_alive (s_m s) x -> em_alive m x) ->
  w = ready c (now_of s) (bp_size p) (req_prev (s_b s)) -> reqQueueFull c (s_b s) = false -> (expects_response p = true -> respQueueFull c (s_b s) = false) ->
  b1 = mkB (b_reqs (s_b s) ++ [(w, to_mem p)]) (b_resps (s_b s)) (outstandingResponses (s_b s) + (if expects_response p then 1 else 0)) (retryReq (s_b s))
           (if serialization_enable c then w else req_prev (s_b s)) (resp_prev (s_b s)) ->
  bdata (log_acc (s_set s b1 m) p).
Proof.
  intros [(O1 & O2 & O3) H2 H3 H4 H5 [H6 H6'] H7 H8 H9 H10 [H11 H12]] Hp Hok Hnow Hal -> Hf Hrf ->. unfold now_of in *.
  assert (Hask : forall x, asked (s_acc s) x -> asked (s_acc s ++ [(em_now m, p)]) x) by (intros x (a & Ha & Hx); exists a; split; [apply elem_of_app; by left|done]).
  split; cbn [s_m s_b s_acc s_got s_fwd s_out s_inflight s_set log_acc b_reqs b_resps outstandingResponses req_prev resp_prev now_of]; unfold now_of; cbn [s_m s_set]; auto.
  - by rewrite line_snoc, app_assoc, H2, Hnow, H3.
  - by rewrite line_prev_snoc, Hnow, H3.
  - split.
    + apply Forall_app. split; [|by repeat constructor]. by rewrite Hnow.
    + rewrite Hnow. apply StronglySorted_app. split_and!; [|done|repeat constructor]. intros x y Hx Hy. apply list_elem_of_singleton in Hy as ->. rewrite Forall_forall in H6. by apply H6.
  - eapply Forall_impl; [exact H7|]. auto.
  - eapply Forall_impl; [exact H8|]. auto.
  - rewrite !wanting_app, !wanting_one. cbn [snd]. rewrite expects_to_mem. unfold ids in *. rewrite !fmap_app, H9. destruct (expects_response p); cbn; rewrite ?app_nil_r; [|done].
    rewrite id_to_mem. solve_Permutation.
  - rewrite wanting_app, wanting_one, length_app. cbn [snd]. rewrite expects_to_mem. destruct (expects_response p); cbn; lia.
  - rewrite length_app. cbn. unfold reqQueueFull, respQueueFull in *. apply Nat.eqb_neq in Hf. split; [lia|]. destruct (expects_response p); [|lia]. specialize (Hrf eq_refl). apply Z.eqb_neq in Hrf. lia.
Qed.

Lemma recv_ok s p : binv s -> retryReq (s_b s) = false -> req_ok p ->
  exists s' ok, recvTimingReq c s p = Done (s', ok) /\ binv s' /\ retryReq (s_b s') = negb ok /\ now_of s' = now_of s /\
    ok = negb (reqQueueFull c (s_b s)) && negb (expects_response p && respQueueFull c (s_b s)).
Proof.
  intros Hi Hr Hp. pose proof Hi as [Hd Hq Hs Hst]. unfold recvTimingReq. rewrite Hr. cbn [negb check mbind sim_bind].
  assert (Hstall : reqQueueFull c (s_b s) = true \/ respQueueFull c (s_b s) = true -> binv (s_set s (with_retryReq (s_b s) true) (s_m s))).
  { intros Hfull. split; [by destruct Hd|done|done|]. intros _. exact Hfull. }
  destruct (reqQueueFull c (s_b s)) eqn:Hf; [eexists _, false; split; [done|]; auto|].
  destruct (expects_response p && respQueueFull c (s_b s)) eqn:Hrf; [eexists _, false; split; [done|]; apply andb_true_iff in Hrf as [_ Hrf]; auto|].
  set (b1 := if expects_response p then _ else _). assert (E1 : req_prev b1 = req_prev (s_b s)) by (unfold b1; by destruct (expects_response p)).
  rewrite E1, (serial_tick_ready c Hc). cbn [mbind sim_bind]. set (w := ready c _ _ _). unfold schedTimingReq. cbn [s_b s_set s_m with_req_prev b_reqs].
  assert (E2 : b_reqs b1 = b_reqs (s_b s)) by (unfold b1; by destruct (expects_response p)).
  assert (Hpush : (if expects_response p then _ ← check (negb (bp_src p =? InvalidPortID)); Done (pushSenderState p (RequestState (bp_src p))) else Done p) = Done (to_mem p)).
  { unfold to_mem. destruct (expects_response p) eqn:He; [|done]. destruct (Z.eqb_spec (bp_src p) InvalidPortID) as [Hb|]; [by apply (Hp He) in Hb|done]. }
  rewrite Hpush. cbn [mbind sim_bind]. rewrite E2. destruct (bd_ok _ Hd) as (O1 & O2 & O3).
  destruct (side_ok_put (s_m s) (b_reqs (s_b s)) (s_reqBlocked s) (reqEvent c) (s_reqLast s) w (to_mem p) O1 O2 Hq (ready_after c Hc _ _ _)) as (m & -> & Q1 & Q2 & Q3 & Q4 & Q5).
  cbn [mbind sim_bind]. unfold reqQueueFull in Hf |- *. cbn [b_reqs with_req_prev]. rewrite E2, Hf. cbn [negb check mbind sim_bind]. eexists _, true. split; [done|].
  assert (Hb : with_reqs (with_req_prev b1 (if serialization_enable c then w else req_prev (s_b s))) (b_reqs (s_b s) ++ [(w, to_mem p)]) =
    mkB (b_reqs (s_b s) ++ [(w, to_mem p)]) (b_resps (s_b s)) (outstandingResponses (s_b s) + (if expects_response p then 1 else 0)) (retryReq (s_b s))
        (if serialization_enable c then w else req_prev (s_b s)) (resp_prev (s_b s))).
  { unfold b1. destruct (expects_response p); unfold with_reqs, with_req_prev, with_outstanding; cbn; f_equal; lia. }
  rewrite Hb. split; [|split; [done|split; [exact Q3|done]]]. split.
  - eapply (bdata_accept s p w m); try done. intros He. rewrite He in Hrf. exact Hrf.
  - exact Q1.
  - apply (side_ok_time (s_m s) m); [exact Hs|apply Q5; intros E; by apply (bc_events c Hc)|lia].
  - intros Hx. cbn in Hx. congruence.
Qed.

Lemma resend_ok again : forall s, binv s -> retryReq (s_b s) = false -> Forall req_ok again -> exists s', resend c s again = Done s' /\ binv s'.
Proof.
  induction again as [|p again IH]; intros s Hi Hr Hf; cbn [resend]; [by exists s|]. apply Forall_cons in Hf as [Hp Hf].
  destruct (recv_ok s p Hi Hr Hp) as (s' & ok & -> & Hi' & Hr' & _). cbn [mbind sim_bind]. destruct ok; [by apply IH|by exists s'].
Qed.

Lemma binv_told s : binv s -> binv (s_set s (with_retryReq (s_b s) false) (s_m s)).
Proof. intros [Hd Hq Hs _]. split; [by destruct Hd|done|done|done]. Qed.

(** The event of the packet after the one that was sent. *)
Lemma sched_next_ok m l ev : em_ok m -> em_alive m ev -> em_timer m ev = None ->
  exists m', sched_next c m l ev = Done m' /\ side_ok m' l false ev (em_now m) /\ em_ok m' /\ em_now m' = em_now m /\
    (forall x, em_alive m x -> em_alive m' x) /\ (forall x, x <> ev -> em_timer m' x = em_timer m x).
Proof.
  intros Hok Hal Ht. destruct l as [|d l]; cbn [sched_next]; [by exists m|]. pose proof (clockEdge_ge c Hc (em_now m) 0 ltac:(lia)) as Hge.
  assert (Hle : em_now m <= Z.max d.1 (clockEdge (br_period c) (em_now m) 0)) by lia. destruct (em_schedule_ok m ev _ Hok Hal Ht Hle) as (m' & -> & M1 & M2 & M3 & M4 & M5).
  exists m'. split; [done|]. split; [|done]. cbn. eexists. split; [exact M4|lia].
Qed.

(** A request is sent to the memory side. *)
Lemma bdata_sent s d l m last : bdata s -> b_reqs (s_b s) = d :: l -> em_ok m -> em_now m = em_now (s_m s) -> (forall x, em_alive (s_m s) x -> em_alive m x) ->
  bdata (mkBS (with_reqs (s_b s) l) m (s_acc s) (s_got s) (s_fwd s ++ [d]) (s_out s) (s_inflight s ++ (if expects_response d.2 then [d.2] else [])) false (s_respBlocked s) last (s_respLast s)).
Proof.
  intros [(O1 & O2 & O3) H2 H3 H4 H5 [H6 H6'] H7 H8 H9 H10 [H11 H12]] El Hok Hnow Hal. rewrite El in *. split; cbn; auto.
  - by rewrite <- app_assoc.
  - by rewrite Hnow.
  - apply Forall_app. split; [done|]. destruct (expects_response d.2) eqn:He; [|done]. constructor; [|done].
    assert (Hd : d ∈ line c to_mem 0 (s_acc s)) by (rewrite <- H2; apply elem_of_app; right; left). apply line_elem in Hd as (a & Ha & E). exists a. split; [done|].
    rewrite E, expects_to_mem in He. by rewrite E.
  - rewrite H9, wanting_cons, fmap_app. unfold ids. rewrite !fmap_app. destruct (expects_response d.2); cbn; [|by rewrite app_nil_r]. solve_Permutation.
  - rewrite H10, wanting_cons, !length_app. destruct (expects_response d.2); cbn [length]; lia.
  - cbn in H11. split; [lia|done].
Qed.

Lemma send_req_ok s d l ok again : bdata s -> resp_side s -> stalled_ok s -> b_reqs (s_b s) = d :: l -> d.1 <= now_of s -> em_timer (s_m s) (reqEvent c) = None -> Forall req_ok again ->
  exists s', trySendReq c s ok again = Done s' /\ binv s'.
Proof.
  intros Hd Hs Hst El Hdt Ht Hf. unfold trySendReq. rewrite El. destruct (Z.leb_spec d.1 (now_of s)); [|lia]. cbn [check mbind sim_bind]. destruct ok.
  2:{ eexists. split; [done|]. split; [by destruct Hd| |exact Hs|exact Hst]. unfold req_side. cbn. rewrite El. done. }
  destruct (bd_ok _ Hd) as (O1 & O2 & O3). destruct (sched_next_ok (s_m s) l (reqEvent c) O1 O2 Ht) as (m & -> & Q1 & Q2 & Q3 & Q4 & Q5). cbn [mbind sim_bind].
  pose proof (bdata_sent s d l m (now_of s) Hd El Q2 Q3 Q4) as Hd1. set (s1 := mkBS _ _ _ _ _ _ _ _ _ _ _) in *.
  assert (Hi : binv (s_set s1 (with_retryReq (s_b s1) false) (s_m s1))).
  { split; [by destruct Hd1|exact Q1| |done]. apply (side_ok_time (s_m s) m); [exact Hs|apply Q5; intros E; by apply (bc_events c Hc)|lia]. }
  unfold retryStalledReq. destruct (retryReq (s_b s1)) eqn:Hr; [by apply resend_ok|]. exists s1. split; [done|]. destruct Hi as [_ I2 I3 _]. split; [exact Hd1|exact I2|exact I3|].
  intros Hx. congruence.
Qed.

(** A response is sent back. *)
Lemma bdata_returned s d l m last : bdata s -> b_resps (s_b s) = d :: l -> em_ok m -> em_now m = em_now (s_m s) -> (forall x, em_alive (s_m s) x -> em_alive m x) ->
  bdata (mkBS (with_outstanding (with_resps (s_b s) l) (outstandingResponses (s_b s) - 1)) m (s_acc s) (s_got s) (s_fwd s) (s_out s ++ [d]) (s_inflight s) (s_reqBlocked s) false (s_reqLast s) last).
Proof.
  intros [(O1 & O2 & O3) H2 H3 H4 H5 [H6 H6'] H7 H8 H9 H10 [H11 H12]] El Hok Hnow Hal. rewrite El in *. split; cbn; auto.
  - by rewrite <- app_assoc.
  - by rewrite Hnow.
  - rewrite H9. unfold ids. rewrite !fmap_app. cbn. solve_Permutation.
  - rewrite H10. cbn [length]. lia.
  - lia.
Qed.

Lemma send_resp_ok s d l ok again : bdata s -> req_side s -> stalled_ok s -> b_resps (s_b s) = d :: l -> d.1 <= now_of s -> em_timer (s_m s) (respEvent c) = None -> Forall req_ok again ->
  exists s', trySendResp c s ok again = Done s' /\ binv s'.
Proof.
  intros Hd Hq Hst El Hdt Ht Hf. unfold trySendResp. rewrite El. destruct (Z.leb_spec d.1 (now_of s)); [|lia]. cbn [check mbind sim_bind]. destruct ok.
  2:{ eexists. split; [done|]. split; [by destruct Hd|exact Hq| |exact Hst]. unfold resp_side. cbn. rewrite El. done. }
  assert (Hne : outstandingResponses (s_b s) <> 0) by (rewrite (bd_count _ Hd), El; cbn; lia). cbn [with_resps outstandingResponses].
  destruct (Z.eqb_spec (outstandingResponses (s_b s)) 0); [done|]. cbn [negb check mbind sim_bind].
  destruct (bd_ok _ Hd) as (O1 & O2 & O3). destruct (sched_next_ok (s_m s) l (respEvent c) O1 O3 Ht) as (m & -> & Q1 & Q2 & Q3 & Q4 & Q5). cbn [mbind sim_bind].
  pose proof (bdata_returned s d l m (now_of s) Hd El Q2 Q3 Q4) as Hd1. set (s1 := mkBS _ _ _ _ _ _ _ _ _ _ _) in *. set (b2 := with_outstanding _ _) in *.
  assert (Hq1 : req_side s1) by (apply (side_ok_time (s_m s) m); [exact Hq|apply Q5, (bc_events c Hc)|lia]).
  assert (Hs1 : resp_side s1) by exact Q1. destruct (negb (reqQueueFull c b2) && retryReq b2) eqn:Hr.
  - apply resend_ok; [|done|done]. split; [by destruct Hd1|exact Hq1|exact Hs1|done].
  - exists s1. split; [done|]. split; [exact Hd1|exact Hq1|exact Hs1|]. intros Hx. left. apply andb_false_iff in Hr as [Hr|Hr]; [by apply negb_false_iff in Hr|]. cbn in Hx, Hr. congruence.
Qed.

(** A response arrives. *)
Lemma resp_ok s i r p : binv s -> s_inflight s !! i = Some r -> answers r p -> exists s', recvTimingResp c (answer s i p) p = Done s' /\ binv s'.
Proof.
  intros Hi Hl [Hid Hse]. pose proof Hi as [Hd Hq Hs Hst]. unfold recvTimingResp. rewrite (serial_tick_ready c Hc). cbn [mbind sim_bind].
  pose proof Hd as [(O1 & O2 & O3) H2 H3 H4 H5 [H6 H6'] H7 H8 H9 H10 [H11 H12]].
  assert (Hr : asked (s_acc s) r) by (rewrite Forall_forall in H7; apply H7; by eapply list_elem_of_lookup_2). destruct Hr as (a & Ha & He & Hida & Hsea).
  assert (Hsrc : bp_src a.2 <> InvalidPortID) by (rewrite Forall_forall in H6; by apply (H6 a Ha)).
  assert (Hst' : bp_senders p = RequestState (bp_src a.2) :: bp_senders a.2) by (rewrite Hse, Hsea; unfold to_mem; by rewrite He).
  unfold schedTimingResp, popSenderState. rewrite Hst'. cbn [mbind sim_bind setDest bp_dest]. destruct (Z.eqb_spec (bp_src a.2) InvalidPortID); [done|]. cbn [negb check mbind sim_bind].
  set (w := ready c _ _ _). cbn [s_b s_m s_set answer with_resp_prev b_resps].
  destruct (side_ok_put (s_m s) (b_resps (s_b s)) (s_respBlocked s) (respEvent c) (s_respLast s) w (to_cpu p) O1 O3 Hs (ready_after c Hc _ _ _)) as (m & -> & Q1 & Q2 & Q3 & Q4 & Q5).
  cbn [mbind sim_bind]. eexists. split; [done|]. set (p2 := setDest _ _).
  assert (Ep : p2 = to_cpu p) by (unfold p2, to_cpu, setDest; by rewrite Hst'). rewrite Ep. split; [|exact (side_ok_time (s_m s) m _ _ _ _ Hq (Q5 _ (bc_events c Hc)) ltac:(rewrite Q3; lia))|exact Q1|exact Hst].
  pose proof (delete_Permutation _ _ _ Hl) as Hperm. pose proof (Permutation_length Hperm) as Hlen. cbn [length] in Hlen.
  assert (Hids : bp_id <$> s_inflight s ≡ₚ bp_id r :: (bp_id <$> delete i (s_inflight s))) by exact (fmap_Permutation bp_id _ _ Hperm).
  split; cbn; auto.
  - by rewrite line_snoc, app_assoc, H4, <- H5.
  - by rewrite line_prev_snoc, <- H5.
  - by rewrite Q3.
  - rewrite Forall_forall in *. intros x Hx. apply H7. eapply elem_of_Permutation_proper; [exact Hperm|]. by right.
  - apply Forall_app. split; [done|]. constructor; [|done]. exists a. split; [done|]. split; [done|]. split; cbn; congruence.
  - rewrite H9, Hids. unfold ids. rewrite !fmap_app. cbn. rewrite id_to_cpu, Hid. solve_Permutation.
  - rewrite H10, Hlen, length_app. cbn [length]. lia.
Qed.

Lemma binv_step s e : binv s -> badmits c s e -> exists s', bexec c s e = Done s' /\ binv s'.
Proof.
  intros Hi Ha. pose proof Hi as [Hd Hq Hs Hst]. pose proof (bd_ok _ Hd) as (O1 & O2 & O3). destruct e as [p|i p|m' ok again|m' ok again|ok again|ok again|m']; cbn [bexec badmits] in *.
  - destruct Ha as [Hr Hp]. destruct (recv_ok s p Hi Hr Hp) as (s' & ok & -> & Hi' & _). by exists s'.
  - destruct Ha as (r & Hl & Hr). by apply (resp_ok s i r p).
  - destruct Ha as [Hfi Hf]. destruct (em_fire_ok _ _ _ O1 Hfi) as (M1 & M2 & M3 & M4 & M5 & M6). unfold req_side, side_ok in Hq. destruct (b_reqs (s_b s)) as [|d l] eqn:El; [destruct Hq; congruence|].
    destruct (s_reqBlocked s); [destruct Hq; congruence|]. destruct Hq as (t & Ht & Hdt). rewrite Ht in M3. injection M3 as ->.
    apply (send_req_ok _ d l); [apply bdata_time; [done|split_and!; auto]|apply (side_ok_time (s_m s) m'); [exact Hs|apply M5; intros E; by apply (bc_events c Hc)|done]|exact Hst|exact El|exact (proj1 Hdt)|exact M4|exact Hf].
  - destruct Ha as [Hfi Hf]. destruct (em_fire_ok _ _ _ O1 Hfi) as (M1 & M2 & M3 & M4 & M5 & M6). unfold resp_side, side_ok in Hs. destruct (b_resps (s_b s)) as [|d l] eqn:El; [destruct Hs; congruence|].
    destruct (s_respBlocked s); [destruct Hs; congruence|]. destruct Hs as (t & Ht & Hdt). rewrite Ht in M3. injection M3 as ->.
    apply (send_resp_ok _ d l); [apply bdata_time; [done|split_and!; auto]|apply (side_ok_time (s_m s) m'); [exact Hq|apply M5, (bc_events c Hc)|done]|exact Hst|exact El|exact (proj1 Hdt)|exact M4|exact Hf].
  - destruct Ha as [Hb Hf]. unfold req_side, side_ok in Hq. rewrite Hb in Hq. destruct (b_reqs (s_b s)) as [|d l] eqn:El; [by destruct Hq|]. destruct Hq as [Ht Hdt]. by apply (send_req_ok s d l).
  - destruct Ha as [Hb Hf]. unfold resp_side, side_ok in Hs. rewrite Hb in Hs. destruct (b_resps (s_b s)) as [|d l] eqn:El; [by destruct Hs|]. destruct Hs as [Ht Hdt]. by apply (send_resp_ok s d l).
  - destruct Ha as (M1 & M2 & M3). eexists. split; [done|]. split; [apply bdata_time; [done|split_and!; try done; intros ev Hev _; by apply M2]| | |exact Hst].
    + apply (side_ok_time (s_m s) m'); [exact Hq|apply M2; by left|done].
    + apply (side_ok_time (s_m s) m'); [exact Hs|apply M2; by right|done].
Qed.

Definition bstart (m : M) : bsys := mkBS Bridge_new m [] [] [] [] [] false false 0 0.
(** The state in which a bridge is constructed. *)
Definition b_initial (m : M) : Prop :=
  em_ok m /\ em_alive m (reqEvent c) /\ em_alive m (respEvent c) /\ em_timer m (reqEvent c) = None /\ em_timer m (respEvent c) = None.

Lemma binv_reachable m s : b_initial m -> rtc (bstep c) (bstart m) s -> binv s.
Proof.
  intros (H1 & H2 & H3 & H4 & H5) Hr. assert (H0' : binv (bstart m)).
  { split; [|done|done|done]. split; cbn; try done; [split; constructor|]. pose proof (bc_limit c Hc). split; lia. }
  revert H0'. generalize (bstart m) Hr. clear Hr. intros s0 Hr. induction Hr as [|s0 s1 s2 [s0' s1' e Ha He] _ IH]; [done|]. intros Hi. apply IH.
  destruct (binv_step s0' e Hi Ha) as (s' & E & Hi'). rewrite He in E. by injection E as <-.
Qed.

(** A response in the bridge goes back the way of its request. *)
Definition way_back (acc : list (Z * bpkt)) (p : bpkt) : Prop :=
  exists a, a ∈ acc /\ expects_response a.2 = true /\ bp_id p = bp_id a.2 /\ bp_dest p = bp_src a.2 /\ bp_senders p = bp_senders a.2.

Lemma to_cpu_way_back acc p : asked acc p -> way_back acc (to_cpu p).
Proof.
  intros (a & Ha & He & Hid & Hse). exists a. split; [done|]. split; [done|]. rewrite id_to_cpu, Hid, id_to_mem. split; [done|].
  unfold to_mem in Hse. rewrite He in Hse. cbn in Hse. unfold to_cpu. by rewrite Hse.
Qed.

(** While a sender waits, something is in the bridge or on its way. *)
Lemma stalled_pending s : binv s -> (0 < reqQueueLimit c)%nat -> 0 < respQueueLimit c -> retryReq (s_b s) = true ->
  b_reqs (s_b s) <> [] \/ s_inflight s <> [] \/ b_resps (s_b s) <> [].
Proof.
  intros [Hd _ _ Hst] Hl1 Hl2 Hr. unfold reqQueueFull, respQueueFull in Hst. destruct (Hst Hr) as [Hf|Hf].
  - apply Nat.eqb_eq in Hf. left. intros E. rewrite E in Hf. cbn in Hf. lia.
  - apply Z.eqb_eq in Hf. rewrite (bd_count _ Hd) in Hf. destruct (b_reqs (s_b s)); [|by left]. destruct (s_inflight s); [|right; by left]. destruct (b_resps (s_b s)); [change (0 = respQueueLimit c) in Hf; lia|right; by right].
Qed.
End invariant.

(** The tick of a packet is given by that of the packet before it. *)
Lemma line_next c form l : forall prev i a d d', l !! S i = Some a -> line c form prev l !! i = Some d -> line c form prev l !! S i = Some d' -> d'.1 = ready c a.1 (bp_size a.2) d.1.
Proof.
  induction l as [|[n q] l IH]; intros prev i a d d' Ha Hd Hd'; [done|]. cbn in Ha, Hd, Hd'. destruct i as [|i].
  - injection Hd as <-. destruct l as [|[n' q'] l]; [done|]. cbn in Ha, Hd'. injection Ha as <-. by injection Hd' as <-.
  - by eapply (IH _ i).
Qed.

(** ** Properties *)

(** C19: A bridge is two delay lines.  In every execution that the neighbours and the event manager admit, the requests that were sent to the memory side, followed by those that wait, are
    the accepted requests in the order of their arrival, each with the tick at which it is ready and with the port it came from on its sender state if a response is
    expected; the same holds of the responses; each response has the destination and the sender state of a request that it answers; and the requests that
    expect a response are, each once, in the bridge, on the memory side, or answered. *)
Theorem bridge_delay_lines {M} `{EventManagerLaws M} (c : bcfg) (m : M) (s : bsys M) : bcfg_ok c -> b_initial c m -> rtc (bstep c) (bstart m) s ->
  s_fwd s ++ b_reqs (s_b s) = line c to_mem 0 (s_acc s) /\
  s_out s ++ b_resps (s_b s) = line c to_cpu 0 (s_got s) /\
  Forall (fun d => way_back (s_acc s) d.2) (s_out s ++ b_resps (s_b s)) /\
  ids (wanting (s_acc s)) ≡ₚ ids (wanting (b_reqs (s_b s))) ++ (bp_id <$> s_inflight s) ++ ids (b_resps (s_b s)) ++ ids (s_out s).
Proof.
  intros Hc Hm Hr. destruct (bi_data c s (binv_reachable c Hc m s Hm Hr)) as [H1 H2 H3 H4 H5 H6 H7 H8 H9 H10 H11]. split; [done|]. split; [done|]. split; [|done].
  rewrite H4. apply Forall_forall. intros d Hd. apply line_elem in Hd as (g & Hg & ->). apply to_cpu_way_back. rewrite Forall_forall in H8. by apply H8.
Qed.

(** C20: No assertion of a bridge fails, and its buffers are bounded.  Whatever the neighbours and the event manager admit, the call returns: no packet is sent before its tick, no event is scheduled twice or for the past, a response finds the
    state that its request left and space in the buffer.  The request buffer never exceeds its limit, and the responses that wait or are still expected never exceed the limit of the response buffer. *)
Theorem bridge_safe {M} `{EventManagerLaws M} (c : bcfg) (m : M) (s : bsys M) (e : bevent) : bcfg_ok c -> b_initial c m -> rtc (bstep c) (bstart m) s -> badmits c s e ->
  exists s', bexec c s e = Done s' /\ (length (b_reqs (s_b s')) <= reqQueueLimit c)%nat /\
    outstandingResponses (s_b s') = Z.of_nat (length (wanting (b_reqs (s_b s'))) + length (s_inflight s') + length (b_resps (s_b s'))) /\ outstandingResponses (s_b s') <= respQueueLimit c.
Proof.
  intros Hc Hm Hr Ha. destruct (binv_step c Hc s e (binv_reachable c Hc m s Hm Hr) Ha) as (s' & Hs & Hi). exists s'. split; [done|].
  destruct (bi_data c s' Hi) as [H1 H2 H3 H4 H5 H6 H7 H8 H9 H10 [H11 H12]]. done.
Qed.

(** C21: No sender and no packet is forgotten.  A refused sender is told to retry as soon as neither buffer is full, and while it waits there is a packet in the bridge or a response to come;
    and while packets wait in one of the lists, either the first of them was refused by its receiver and is sent again at the retry, or the event of the list is scheduled, for a tick at which
    this packet is ready and that is not later than its own tick and the clock edge that follows the last send. *)
Theorem bridge_no_lost_retry {M} `{EventManagerLaws M} (c : bcfg) (m : M) (s : bsys M) : bcfg_ok c -> (0 < reqQueueLimit c)%nat -> 0 < respQueueLimit c -> b_initial c m -> rtc (bstep c) (bstart m) s ->
  (retryReq (s_b s) = true -> (reqQueueFull c (s_b s) = true \/ respQueueFull c (s_b s) = true) /\ (b_reqs (s_b s) <> [] \/ s_inflight s <> [] \/ b_resps (s_b s) <> [])) /\
  side_ok c (s_m s) (b_reqs (s_b s)) (s_reqBlocked s) (reqEvent c) (s_reqLast s) /\
  side_ok c (s_m s) (b_resps (s_b s)) (s_respBlocked s) (respEvent c) (s_respLast s).
Proof.
  intros Hc Hl1 Hl2 Hm Hr. pose proof (binv_reachable c Hc m s Hm Hr) as Hi. pose proof Hi as [Hd Hq Hs Hst]. split; [|done]. intros Hw. split; [by apply Hst|by apply (stalled_pending c)].
Qed.

(** C25: What the serialization does.  Each request becomes ready no earlier than the cycles that its size takes on the lanes and the delay of the bridge after its arrival, and strictly later than the request
    before it.  But of two requests that arrive one after the other at the same tick, the second, if it is not longer, is ready one tick after the first, whatever its size: the lanes carry both at once. *)
Theorem bridge_serialization {M} `{EventManagerLaws M} (c : bcfg) (m : M) (s : bsys M) : bcfg_ok c -> serialization_enable c = true -> b_initial c m -> rtc (bstep c) (bstart m) s ->
  let l := s_fwd s ++ b_reqs (s_b s) in
  Forall2 (fun a d => clockEdge (br_period c) a.1 ((bp_size a.2 * 8) mod 2 ^ 32 / serialization_unit c + br_delay c) <= d.1) (s_acc s) l /\
  StronglySorted (fun a b => a.1 < b.1) l /\
  forall i a a' d d', s_acc s !! i = Some a -> s_acc s !! S i = Some a' -> l !! i = Some d -> l !! S i = Some d' ->
    a'.1 = a.1 -> 0 <= bp_size a'.2 <= bp_size a.2 -> bp_size a.2 * 8 < 2 ^ 32 -> d'.1 = d.1 + 1.
Proof.
  intros Hc Hse Hm Hr l. assert (El : l = line c to_mem 0 (s_acc s)) by apply (bi_data c s (binv_reachable c Hc m s Hm Hr)). rewrite El.
  assert (Hlk : forall size, link_cycles c size = (size * 8) mod 2 ^ 32 / serialization_unit c + br_delay c) by (intros size; unfold link_cycles; by rewrite Hse).
  assert (Hf : Forall2 (fun a d => clockEdge (br_period c) a.1 ((bp_size a.2 * 8) mod 2 ^ 32 / serialization_unit c + br_delay c) <= d.1) (s_acc s) (line c to_mem 0 (s_acc s))).
  { eapply Forall2_impl; [apply (line_ticks c to_mem)|]. cbn. intros a d Had. by rewrite <- Hlk. }
  split; [done|]. split; [by apply line_serial|]. intros i a a' d d' Ha Ha' Hd Hd' Ht Hsz Hmax.
  rewrite (line_next c to_mem _ 0 i a' d d' Ha' Hd Hd'). pose proof (Forall2_lookup_lr _ _ _ _ _ _ Hf Ha Hd) as Hle. cbn in Hle. unfold ready. rewrite Hse, Ht.
  apply Z.max_r. rewrite !Z.mod_small in * by lia. assert (Hdv : bp_size a'.2 * 8 / serialization_unit c <= bp_size a.2 * 8 / serialization_unit c) by (apply Z.div_le_mono; [by apply (bc_unit c Hc)|lia]).
  unfold clockEdge in *. pose proof (bc_period c Hc). nia.
Qed.

(** ** Examples *)

(** A serial link with 16 lanes, space for [n] requests and [n] responses, and the events 8 and 16 of an event queue. *)
Definition ex_cfg (n : nat) : bcfg := mkBC 2 1 true 16 n (Z.of_nat n) 8 16.
Lemma ex_cfg_ok n : bcfg_ok (ex_cfg n).
Proof. split; cbn; lia. Qed.
Definition ex_events : sim eventq := exec_eops (EventQueue_new 4 ∅) [ONew 8 0 0; ONew 16 0 0].
Definition ex_pkt (id size src : Z) : bpkt := mkBP id size true false src InvalidPortID [OtherState id].
Definition ex_p1 : bpkt := ex_pkt 1 64 5.
Definition ex_p2 : bpkt := ex_pkt 2 4 6.

Lemma ex_events_ok n q : ex_events = Done q -> b_initial (ex_cfg n) q.
Proof.
  intros E. destruct (reachable_inv ex_process 4 q) as (bs & Hi & Ht); [eapply exec_eops_reachable; [apply rtc_refl|exact E]|].
  vm_compute in E. injection E as <-. split; [split; [by exists bs|done]|]. split; [by eexists|]. split; [by eexists|]. by split.
Qed.

(** The queue after its first event was taken. *)
Definition ex_take (q : eventq) : sim eventq := hv ← elem (q_events q !! q_head q); q2 ← pop_head q hv; Done (setCurTick q2 (e_when hv)).

Lemma ex_take_fire q q' e hv : ex_take q = Done q' -> q_head q = e -> q_events q !! e = Some hv -> squashed hv = false -> em_fire q e q'.
Proof.
  unfold ex_take. intros Ht <- Hv Hs. rewrite Hv in Ht. cbn [elem mbind sim_bind] in Ht. apply bind_Done in Ht as (q2 & H2 & [= <-]). split; [done|]. by exists hv, q2.
Qed.

(** What happens in the examples: a request, the response to the oldest unanswered request, and the two events, whose packets are accepted. *)
Inductive ex_cmd := XReq (p : bpkt) | XResp (p : bpkt) | XReqEvent (again : list bpkt) | XRespEvent (again : list bpkt).

#[export] Instance sstate_eq_dec : EqDecision sstate.
Proof. solve_decision. Defined.

Definition ex_req_ok (p : bpkt) : bool := negb (bp_src p =? InvalidPortID).
Definition ex_fires (q : eventq) (e : Z) : bool :=
  (q_head q =? e) && match q_events q !! e with Some hv => negb (squashed hv) | None => false end.
Definition ex_step (c : bcfg) (s : bsys eventq) (x : ex_cmd) : sim (bsys eventq) :=
  match x with
  | XReq p => _ ← check (negb (retryReq (s_b s)) && ex_req_ok p); bexec c s (BReq p)
  | XResp p =>
      match s_inflight s with
      | [] => Halt
      | r :: _ => _ ← check (bool_decide (bp_id p = bp_id r /\ bp_senders p = bp_senders r)); bexec c s (BResp 0 p)
      end
  | XReqEvent again => _ ← check (ex_fires (s_m s) (reqEvent c) && forallb ex_req_ok again); q ← ex_take (s_m s); bexec c s (BReqFire q true again)
  | XRespEvent again => _ ← check (ex_fires (s_m s) (respEvent c) && forallb ex_req_ok again); q ← ex_take (s_m s); bexec c s (BRespFire q true again)
  end.
Fixpoint ex_run (c : bcfg) (s : bsys eventq) (l : list ex_cmd) : sim (bsys eventq) :=
  match l with [] => Done s | x :: l' => s' ← ex_step c s x; ex_run c s' l' end.

Lemma ex_req_ok_iff p : ex_req_ok p = true -> req_ok p.
Proof. unfold ex_req_ok, req_ok. intros Hp%negb_true_iff%Z.eqb_neq. done. Qed.

Lemma ex_all_ok l : forallb ex_req_ok l = true -> Forall req_ok l.
Proof. induction l as [|p l IH]; cbn; [done|]. intros [Hp Hl]%andb_true_iff. constructor; [by apply ex_req_ok_iff|auto]. Qed.

Lemma ex_fires_ok q q' e : ex_fires q e = true -> ex_take q = Done q' -> em_fire q e q'.
Proof.
  unfold ex_fires. intros [He%Z.eqb_eq Hv]%andb_true_iff Ht. destruct (q_events q !! e) as [hv|] eqn:Ev; [|done]. apply negb_true_iff in Hv. by apply (ex_take_fire q q' e hv).
Qed.

Lemma ex_step_ok c s x s' : ex_step c s x = Done s' -> bstep c s s'.
Proof.
  destruct x as [p|p|again|again]; cbn [ex_step].
  - intros ([] & Hu%check_Done & Hs)%bind_Done. apply andb_true_iff in Hu as [Hr Hp]. apply negb_true_iff in Hr. apply (bstep_intro _ _ _ (BReq p)); [split; [done|by apply ex_req_ok_iff]|done].
  - destruct (s_inflight s) as [|r l] eqn:El; [done|]. intros ([] & Hu%check_Done & Hs)%bind_Done. apply bool_decide_eq_true in Hu. apply (bstep_intro _ _ _ (BResp 0 p)); [|done]. exists r. by rewrite El.
  - intros ([] & Hu%check_Done & (q & Hq & Hs)%bind_Done)%bind_Done. apply andb_true_iff in Hu as [Hf Hp]. apply (bstep_intro _ _ _ (BReqFire q true again)); [split; [by apply ex_fires_ok|by apply ex_all_ok]|done].
  - intros ([] & Hu%check_Done & (q & Hq & Hs)%bind_Done)%bind_Done. apply andb_true_iff in Hu as [Hf Hp]. apply (bstep_intro _ _ _ (BRespFire q true again)); [split; [by apply ex_fires_ok|by apply ex_all_ok]|done].
Qed.

Lemma ex_cmds_reachable c l : forall s s', ex_run c s l = Done s' -> rtc (bstep c) s s'.
Proof. induction l as [|x l IH]; intros s s' Hs; cbn in Hs; [by injection Hs as <-|]. apply bind_Done in Hs as (s1 & H1 & H2). apply rtc_l with s1; [by apply (ex_step_ok c s x)|auto]. Qed.

(** With space for one request and one response: the first request is accepted and the second refused; the first is sent and the second refused again; the first is answered, its response
    is sent back, and the second is accepted. *)
Definition ex_answer : bpkt := mkBP 1 64 false false InvalidPortID 3 [RequestState 5; OtherState 1].
Definition ex_cmds : list ex_cmd := [XReq ex_p1; XReq ex_p2; XReqEvent [ex_p2]; XResp ex_answer; XRespEvent [ex_p2]].

(** The state after [l], from an event queue in which neither event is scheduled. *)
Definition ex_state (n : nat) (l : list ex_cmd) : sim (bsys eventq) := q ← ex_events; ex_run (ex_cfg n) (bstart q) l.

Lemma ex_state_reachable n l s : ex_state n l = Done s -> exists q, b_initial (ex_cfg n) q /\ rtc (bstep (ex_cfg n)) (bstart q) s.
Proof. unfold ex_state. intros (q & Hq & Hs)%bind_Done. exists q. split; [by apply ex_events_ok|by apply (ex_cmds_reachable _ l)]. Qed.

Lemma bridge_delay_lines_witness :
  exists s, ex_state 1 ex_cmds = Done s /\ s_fwd s ++ b_reqs (s_b s) = [(66, to_mem ex_p1); (138, to_mem ex_p2)] /\ Forall (fun d => way_back (s_acc s) d.2) (s_out s ++ b_resps (s_b s)).
Proof.
  destruct (ex_state 1 ex_cmds) as [s| |] eqn:E; [|by vm_compute in E..]. exists s. split; [reflexivity|]. destruct (ex_state_reachable 1 ex_cmds s E) as (q & Hq & Hr).
  destruct (bridge_delay_lines (ex_cfg 1) q s (ex_cfg_ok 1) Hq Hr) as (H1 & H2 & H3 & H4). split; [|exact H3]. rewrite H1. clear -E. vm_compute in E. injection E as <-. vm_compute. reflexivity.
Defined.

Lemma bridge_safe_witness : exists s s', ex_state 1 ex_cmds = Done s /\ bexec (ex_cfg 1) s (BReq ex_p1) = Done s' /\ outstandingResponses (s_b s') <= 1.
Proof.
  destruct (ex_state 1 ex_cmds) as [s| |] eqn:E; [|by vm_compute in E..]. exists s. destruct (ex_state_reachable 1 ex_cmds s E) as (q & Hq & Hr).
  destruct (bridge_safe (ex_cfg 1) q s (BReq ex_p1) (ex_cfg_ok 1) Hq Hr) as (s' & H1 & _ & _ & H2).
  - clear -E. vm_compute in E. injection E as <-. split; [reflexivity|]. intros _ Hb. discriminate Hb.
  - exists s'. split; [reflexivity|]. split; [exact H1|exact H2].
Defined.

Lemma bridge_no_lost_retry_witness : exists s, ex_state 1 (take 4 ex_cmds) = Done s /\ retryReq (s_b s) = true /\ (reqQueueFull (ex_cfg 1) (s_b s) = true \/ respQueueFull (ex_cfg 1) (s_b s) = true).
Proof.
  destruct (ex_state 1 (take 4 ex_cmds)) as [s| |] eqn:E; [|by vm_compute in E..]. exists s. split; [reflexivity|]. destruct (ex_state_reachable 1 (take 4 ex_cmds) s E) as (q & Hq & Hr).
  assert (Hw : retryReq (s_b s) = true) by (clear -E; vm_compute in E; injection E as <-; reflexivity). split; [exact Hw|].
  destruct (bridge_no_lost_retry (ex_cfg 1) q s (ex_cfg_ok 1) ltac:(cbn; lia) ltac:(cbn; lia) Hq Hr) as (H1 & _). destruct (H1 Hw) as [H2 _]. exact H2.
Defined.

(** The second request has 4 bytes and is ready one tick after the first, of 64 bytes. *)
Lemma bridge_serialization_witness : exists s, ex_state 2 [XReq ex_p1; XReq ex_p2] = Done s /\ StronglySorted (fun a b : Z * bpkt => a.1 < b.1) (s_fwd s ++ b_reqs (s_b s)) /\
  fst <$> (s_fwd s ++ b_reqs (s_b s)) = [66; 66 + 1].
Proof.
  destruct (ex_state 2 [XReq ex_p1; XReq ex_p2]) as [s| |] eqn:E; [|by vm_compute in E..]. exists s. split; [reflexivity|]. destruct (ex_state_reachable 2 _ s E) as (q & Hq & Hr).
  destruct (bridge_serialization (ex_cfg 2) q s (ex_cfg_ok 2) eq_refl Hq Hr) as (H1 & H2 & H3). split; [exact H2|].
  assert (Hl : exists d', s_fwd s ++ b_reqs (s_b s) = [(66, to_mem ex_p1); d']) by (clear -E; vm_compute in E; injection E as <-; eexists; reflexivity). destruct Hl as [d' Hl].
  rewrite Hl in *. cbn. f_equal. f_equal. apply (H3 0%nat (0, ex_p1) (0, ex_p2) (66, to_mem ex_p1) d'); [| |reflexivity|reflexivity|reflexivity|cbn; lia|cbn; lia]; clear -E; vm_compute in E; injection E as <-; reflexivity.
Defined.

(** A functional request that is answered by a queued packet keeps the label of the port. *)
Lemma recvFunctional_label name hit b labels :
  (recvFunctional name hit b labels).1 = if checkFunctional hit (b_resps b) || checkFunctional hit (b_reqs b) then name :: labels else labels.
Proof. unfold recvFunctional. by destruct (checkFunctional hit (b_resps b)), (checkFunctional hit (b_reqs b)). Qed.
