(* ===== verification/PimTask.v ===== *)
(** * Offloading data to the PIM device

    Models how the host makes the memory of a task known to the device:
    src/SMC/SW/HOST/api/pim_task.cc (the data sets of a task and the page ranges
    they occupy), the part of pim_api.cc that offloads a task, and the slice table
    that src/SMC/SW/HOST/driver/pim.c builds for the device's TLB. *)

From S2P Require Import Prelude.

(** ** pim_task.cc *)

Record PIMData := mkData { v_addr : Z; d_size : Z; d_reg : Z }.
Record PIMPage := mkPage { v_pn_start : Z; v_pn_end : Z; pg_count : Z }.

#[export] Instance PIMData_eq_dec : EqDecision PIMData.
Proof. solve_decision. Defined.

Record PIMTask := mkTask {
  data : list PIMData;
  vpages : list PIMPage;
  updated : bool;
  stat_datasize : Z;
}.

Definition PIMTask_new : PIMTask := mkTask [] [] false 0.

(** The insertion loop of [addData]: before the first data set with a greater
    address; the flag says whether there was one. *)
Fixpoint insert_data (d : PIMData) (l : list PIMData) : list PIMData * bool :=
  match l with
  | [] => ([d], false)
  | e :: l' =>
      if v_addr d <? v_addr e then (d :: l, true)
      else let '(l2, b) := insert_data d l' in (e :: l2, b)
  end.

(** [debug] is the build option DEBUG_API. *)
Definition addData (debug : bool) (PIM_HOST_OFFSET : Z) (t : PIMTask) (addr size reg : Z)
    : sim PIMTask :=
  _ ← check (negb debug || (PIM_HOST_OFFSET <=? addr));
  let '(l, early) := insert_data (mkData addr size reg) (data t) in
  Done (mkTask l (vpages t) (if early then updated t else false) (u32 (stat_datasize t + size))).

Section pages.
Context (PAGE_SHIFT : Z).

Definition start_page (d : PIMData) : Z := Z.shiftr (v_addr d) PAGE_SHIFT.
Definition end_page (d : PIMData) : Z := Z.shiftr (u32 (v_addr d + d_size d - 1)) PAGE_SHIFT.

(** The loop of [updatePages]: [page] is the range being extended, [acc] the
    vector [vpages] so far. *)
Fixpoint update_loop (debug : bool) (ds : list PIMData) (page : option PIMPage)
    (acc : list PIMPage) (prev_end_addr : Z) : sim (list PIMPage) :=
  match ds with
  | [] => Done (match page with Some p => acc ++ [p] | None => acc end)
  | d :: ds' =>
      let fresh_page :=
        mkPage (start_page d) (end_page d) (u32 (end_page d - start_page d + 1)) in
      let '(page', acc') :=
        match page with
        | Some p =>
            if u32 (start_page d - 1) <=? v_pn_end p
            then (mkPage (v_pn_start p) (end_page d) (u32 (end_page d - v_pn_start p + 1)), acc)
            else (fresh_page, acc ++ [p])
        | None => (fresh_page, acc)
        end in
      _ ← check (negb (debug && negb (prev_end_addr =? 0) && (v_addr d <? prev_end_addr)));
      update_loop debug ds' (Some page') acc' (u32 (v_addr d + d_size d - 1))
  end.

Definition updatePages (debug : bool) (t : PIMTask) : sim PIMTask :=
  ps ← update_loop debug (data t) None (vpages t) 0;
  Done (mkTask (data t) ps true (stat_datasize t)).

(** [offload_task] of pim_api.cc: the arguments of the ioctl (an array of
    PIM_IOCTL_MAX_ARGS words) and the scalar registers, which receive the addresses
    of the data sets. *)
Definition PIM_IOCTL_MAX_ARGS : nat := 8.

Fixpoint range_args (ps : list PIMPage) : list Z :=
  match ps with
  | [] => []
  | p :: ps' => u32 (Z.shiftl (v_pn_start p) PAGE_SHIFT) :: pg_count p :: range_args ps'
  end.

Definition send_pointers (ds : list PIMData) (sreg : gmap Z Z) : gmap Z Z :=
  foldl (fun m d => <[d_reg d := v_addr d]> m) sreg ds.

Definition offload_task (debug : bool) (t : PIMTask) (sreg : gmap Z Z)
    : sim (PIMTask * list Z * gmap Z Z) :=
  t' ← updatePages debug t;
  let count := length (vpages t') in
  _ ← check (negb debug || bool_decide (count * 2 < PIM_IOCTL_MAX_ARGS)%nat);
  _ ← check (negb debug || bool_decide (count = 1%nat));
  let args := Z.of_nat (count * 2) :: range_args (vpages t') in
  if bool_decide (length args <= PIM_IOCTL_MAX_ARGS)%nat
  then Done (t', args, send_pointers (data t') sreg) else Wild.

End pages.

(** The loop of the constructor [PIMAPI] that computes PAGE_SHIFT. *)
Fixpoint page_shift (fuel : nat) (p shift : Z) : result Z :=
  match fuel with
  | O => NoFuel
  | S fuel' => if 1 <? p then page_shift fuel' (Z.shiftr p 1) (shift + 1) else Ok shift
  end.

(** ** The slice table of the driver *)

Record Slice := mkSlice { s_vaddr : Z; s_paddr : Z; s_size : Z }.

Section driver.
Context (PAGE_SIZE : Z) (merge : bool).

(** [while (physical_addr[i+c-1] + PAGE_SIZE == physical_addr[i+c]) c++;] where
    [p] is the last page of the run and [rest] the pages behind it. *)
Fixpoint run_length (p : Z) (rest : list Z) (c : nat) : result nat :=
  match rest with
  | [] => UB
  | q :: rest' => if u32 (p + PAGE_SIZE) =? q then run_length q rest' (S c) else Ok c
  end.

(** The merging loop of [pim_create_slice_table] from page [i] on. *)
Fixpoint slice_loop (fuel : nat) (vaddr_start : Z) (phys : list Z) (i : nat)
    : result (list Slice) :=
  match fuel with
  | O => NoFuel
  | S fuel' =>
      if decide (i < length phys)%nat then
        p ← of_opt (phys !! i);
        c ← (if merge && bool_decide (i < length phys - 1)%nat
             then run_length p (drop (S i) phys) 1 else Ok 1%nat);
        rest ← slice_loop fuel' vaddr_start phys (i + c);
        Ok (replicate c (mkSlice (u32 (vaddr_start + PAGE_SIZE * Z.of_nat i)) p
                                 (u32 (PAGE_SIZE * Z.of_nat c))) ++ rest)
      else Ok []
  end.

(** The page table of the process: the physical address of a virtual page. *)
Context (vm : Z -> Z).

(** [pim_get_user_pages]: the physical addresses of [n] pages from [addr_start],
    as [get_user_pages] and [page_to_phys] give them. *)
Definition pim_get_user_pages (addr_start n : Z) : list Z :=
  (fun i => vm (addr_start / PAGE_SIZE + Z.of_nat i)) <$> seq 0 (Z.to_nat n).

Definition pim_create_slice_table (phys : list Z) (vaddr_start : Z) : result (list Slice) :=
  slice_loop (S (length phys)) vaddr_start phys 0.

(** PIM_IOCTL_ALLOCATE_DATA of [pim_ioctl]: pins the pages of every range (the
    last one stays in [pages]) and builds the table from the first address. *)
Fixpoint pin_ranges (args : list Z) (pages : list Z) : list Z :=
  match args with
  | a :: n :: args' => pin_ranges args' (pim_get_user_pages a n)
  | _ => pages
  end.

Definition EFAULT : Z := 14.

Definition pim_ioctl_allocate (arg : list Z) : result (Z * list Slice) :=
  n ← of_opt (arg !! 0%nat);
  if Z.of_nat PIM_IOCTL_MAX_ARGS <? n + 1 then Ok (- EFAULT, [])
  else
    start ← of_opt (arg !! 1%nat);
    tbl ← pim_create_slice_table (pin_ranges (take (Z.to_nat n) (tail arg)) []) start;
    Ok (1, tbl).

End driver.

(** ** The data sets stay sorted *)

Definition addr_le (a b : PIMData) : Prop := v_addr a <= v_addr b.

Lemma insert_data_perm d l : (insert_data d l).1 ≡ₚ d :: l.
Proof.
  induction l as [|e l IH]; simpl; [done|]. destruct (_ <? _); [done|].
  destruct (insert_data d l) as [l2 b]. simpl in *. rewrite IH. apply Permutation_swap.
Qed.

Lemma insert_data_sorted d l : StronglySorted addr_le l -> StronglySorted addr_le (insert_data d l).1.
Proof.
  induction 1 as [|e l Hs IH He]; simpl; [by repeat constructor|].
  destruct (Z.ltb_spec (v_addr d) (v_addr e)) as [Hlt|Hge]; simpl.
  - constructor; [by constructor|]. constructor; [unfold addr_le; lia|].
    eapply Forall_impl; [exact He|]. unfold addr_le. simpl. lia.
  - pose proof (insert_data_perm d l) as Hp. destruct (insert_data d l) as [l2 b]. simpl in *.
    constructor; [done|]. rewrite Hp. constructor; [unfold addr_le; lia|done].
Qed.

(** A sequence of [addData] calls. *)
Definition add_all (debug : bool) (PIM_HOST_OFFSET : Z) (t : PIMTask) (ds : list PIMData)
    : sim PIMTask :=
  foldl (fun r d => t' ← r; addData debug PIM_HOST_OFFSET t' (v_addr d) (d_size d) (d_reg d))
        (Done t) ds.

Lemma add_all_spec debug off ds t :
  Forall (fun d => off <= v_addr d) ds -> StronglySorted addr_le (data t) ->
  exists t', add_all debug off t ds = Done t' /\
    data t' ≡ₚ ds ++ data t /\ StronglySorted addr_le (data t') /\ vpages t' = vpages t.
Proof.
  revert t. induction ds as [|d ds IH]; intros t Ho Hs; simpl; [by exists t|].
  apply Forall_cons in Ho as [Hd Ho]. unfold add_all. simpl. unfold addData at 2.
  assert (negb debug || (off <=? v_addr d) = true) as ->.
  { destruct (Z.leb_spec off (v_addr d)); [apply orb_true_r|lia]. }
  simpl. pose proof (insert_data_perm (mkData (v_addr d) (d_size d) (d_reg d)) (data t)) as Hp.
  pose proof (insert_data_sorted (mkData (v_addr d) (d_size d) (d_reg d)) (data t) Hs) as Hs'.
  destruct (insert_data _ _) as [l2 b]. simpl in *.
  destruct (IH (mkTask l2 (vpages t) (if b then updated t else false)
                       (u32 (stat_datasize t + d_size d))) Ho Hs')
    as (t' & Ht & Hperm & Hst & Hv).
  exists t'. split_and!; try done. rewrite Hperm. simpl. rewrite Hp.
  destruct d. simpl. by rewrite Permutation_middle.
Qed.

(** ** The page ranges cover the data sets *)

Section ranges.
Context (PAGE_SHIFT : Z) (HS : 0 <= PAGE_SHIFT).

Definition in_range (q : Z) (p : PIMPage) : Prop := v_pn_start p <= q <= v_pn_end p.
Definition touches (q : Z) (d : PIMData) : Prop :=
  v_addr d / 2 ^ PAGE_SHIFT <= q <= (v_addr d + d_size d - 1) / 2 ^ PAGE_SHIFT.

(** A data set that is not empty, lies in the address space and not in page 0. *)
Definition data_ok (d : PIMData) : Prop :=
  0 < d_size d /\ 2 ^ PAGE_SHIFT <= v_addr d /\ v_addr d + d_size d <= u32_mod.
Definition before (a b : PIMData) : Prop := v_addr a + d_size a <= v_addr b.

Definition range_ok (p : PIMPage) : Prop :=
  0 < v_pn_start p <= v_pn_end p /\ v_pn_end p < u32_mod /\
  pg_count p = v_pn_end p - v_pn_start p + 1.
(** Ranges in order, with at least one page between two of them. *)
Definition gap (p q : PIMPage) : Prop := v_pn_end p + 1 < v_pn_start q.

Lemma page_pos : 0 < 2 ^ PAGE_SHIFT.
Proof. by apply Z.pow_pos_nonneg. Qed.

Lemma pages_of d : data_ok d ->
  start_page PAGE_SHIFT d = v_addr d / 2 ^ PAGE_SHIFT /\
  end_page PAGE_SHIFT d = (v_addr d + d_size d - 1) / 2 ^ PAGE_SHIFT /\
  1 <= start_page PAGE_SHIFT d <= end_page PAGE_SHIFT d /\ end_page PAGE_SHIFT d < u32_mod.
Proof.
  intros (Hs & Ha & He). pose proof page_pos as Hp. unfold start_page, end_page.
  rewrite u32_small by (unfold is_u32; lia). rewrite !Z.shiftr_div_pow2 by done.
  split_and!; [done..| | |].
  - apply Z.div_le_lower_bound; lia.
  - apply Z.div_le_mono; lia.
  - apply Z.div_lt_upper_bound; [done|]. nia.
Qed.

Lemma update_loop_spec debug ds p0 prev acc :
  range_ok p0 -> 0 < prev < u32_mod -> v_pn_end p0 = prev / 2 ^ PAGE_SHIFT ->
  Forall data_ok ds -> StronglySorted before ds -> Forall (fun d => prev < v_addr d) ds ->
  exists out, update_loop PAGE_SHIFT debug ds (Some p0) acc prev = Done (acc ++ out) /\
    StronglySorted gap out /\ Forall range_ok out /\
    Forall (fun p => v_pn_start p0 <= v_pn_start p) out /\
    forall q, (exists p, p ∈ out /\ in_range q p) <->
              in_range q p0 \/ exists d, d ∈ ds /\ touches q d.
Proof.
  revert p0 prev acc. induction ds as [|d ds IH]; intros p0 prev acc H0 Hpv He Hd Hs Hp.
  { exists [p0]. simpl. split_and!; [done|by repeat constructor|by constructor|by constructor|].
    intros q. set_solver. }
  apply Forall_cons in Hd as [Hd Hds]. apply StronglySorted_inv in Hs as [Hs Hb].
  apply Forall_cons in Hp as [Hp _]. pose proof Hd as (Hsz & Hlo & Hhi).
  destruct (pages_of d Hd) as (Es & Ee & Hle & Hu). pose proof page_pos as Hpp.
  assert (Hge : v_pn_end p0 <= start_page PAGE_SHIFT d).
  { rewrite He, Es. apply Z.div_le_mono; lia. }
  assert (Hnext : Forall (fun e => v_addr d + d_size d - 1 < v_addr e) ds).
  { eapply Forall_impl; [exact Hb|]. unfold before. simpl. lia. }
  assert (Hchk : negb (debug && negb (prev =? 0) && (v_addr d <? prev)) = true).
  { destruct (Z.ltb_spec (v_addr d) prev); [lia|]. by rewrite andb_false_r. }
  destruct H0 as (Hr1 & Hr2 & Hr3).
  cbn [update_loop]. rewrite (u32_small (v_addr d + d_size d - 1)) by (unfold is_u32; lia).
  rewrite (u32_small (start_page PAGE_SHIFT d - 1)) by (unfold is_u32, u32_mod in *; lia).
  destruct (Z.leb_spec (start_page PAGE_SHIFT d - 1) (v_pn_end p0)) as [Hm|Hm];
    rewrite Hchk; simpl.
  - edestruct (IH (mkPage (v_pn_start p0) (end_page PAGE_SHIFT d)
                 (u32 (end_page PAGE_SHIFT d - v_pn_start p0 + 1))))
      as (out & Hout & Hg & Hok & Hst & Hq); [..|exists out; split; [exact Hout|]]; try done.
    + split_and!; simpl; try lia. rewrite u32_small; [done|]. unfold is_u32. lia.
    + lia.
    + split_and!; try done. intros q. rewrite Hq. unfold in_range, touches. simpl.
      split.
      * intros [?|(e & He' & ?)]; [|set_solver].
        destruct (decide (q <= v_pn_end p0)); [left; lia|right]. exists d.
        split; [set_solver|]. rewrite <- Es, <- Ee. lia.
      * intros [?|(e & [->|He']%elem_of_cons & Ht)]; [left; lia| |right; eauto].
        rewrite <- Es, <- Ee in Ht. left. lia.
  - edestruct (IH (mkPage (start_page PAGE_SHIFT d) (end_page PAGE_SHIFT d)
                 (u32 (end_page PAGE_SHIFT d - start_page PAGE_SHIFT d + 1))))
      as (out & Hout & Hg & Hok & Hst & Hq);
      [..|exists (p0 :: out); rewrite Hout; split; [by rewrite <- app_assoc|]]; try done.
    + split_and!; simpl; try lia. rewrite u32_small; [done|]. unfold is_u32. lia.
    + lia.
    + split_and!.
      * constructor; [done|]. eapply Forall_impl; [exact Hst|]. unfold gap. simpl. lia.
      * by constructor.
      * constructor; [lia|]. eapply Forall_impl; [exact Hst|]. simpl. lia.
      * intros q. assert (Hc : (exists p, p ∈ p0 :: out /\ in_range q p) <->
          in_range q p0 \/ exists p, p ∈ out /\ in_range q p) by set_solver.
        assert (Ht : in_range q (mkPage (start_page PAGE_SHIFT d) (end_page PAGE_SHIFT d)
                     (u32 (end_page PAGE_SHIFT d - start_page PAGE_SHIFT d + 1))) <-> touches q d).
        { unfold in_range, touches. simpl. by rewrite Es, Ee. }
        rewrite Hc, Hq, Ht. split; [intros [?|[?|(e & ? & ?)]]; eauto 6 using list_elem_of_here,
          list_elem_of_further|].
        intros [?|(e & [->|?]%elem_of_cons & ?)]; eauto.
Qed.
End ranges.

(** Data sets that do not overlap, in the order of their addresses. *)
Definition apart (ds : list PIMData) : Prop :=
  NoDup ds /\ forall a b, a ∈ ds -> b ∈ ds -> a <> b -> before a b \/ before b a.

#[export] Instance before_dec a b : Decision (before a b).
Proof. unfold before. apply _. Defined.

Lemma apart_check ds :
  NoDup ds -> Forall (fun a => Forall (fun b => a = b \/ before a b \/ before b a) ds) ds ->
  apart ds.
Proof.
  intros Hn Hf. split; [done|]. rewrite Forall_forall in Hf. intros a b Ha Hb Hne.
  specialize (Hf a Ha). rewrite Forall_forall in Hf. by destruct (Hf b Hb) as [?|?].
Qed.

Lemma apart_sorted ds :
  StronglySorted addr_le ds -> apart ds -> Forall (fun d => 0 < d_size d) ds ->
  StronglySorted before ds.
Proof.
  intros Hs. induction Hs as [|d ds Hs IH Hd]; intros [Hnd Ha] Hp; [constructor|].
  apply NoDup_cons in Hnd as [Hni Hnd]. apply Forall_cons in Hp as [_ Hp].
  constructor; [apply IH; [split; [done|set_solver]|done]|].
  apply Forall_forall. intros e He. rewrite Forall_forall in Hd, Hp.
  specialize (Hd e He). specialize (Hp e He). simpl in Hp.
  destruct (Ha d e) as [H|H]; [set_solver..|done|]. unfold before, addr_le in *. lia.
Qed.

Lemma updatePages_spec PAGE_SHIFT debug t :
  0 <= PAGE_SHIFT -> Forall (data_ok PAGE_SHIFT) (data t) -> apart (data t) ->
  StronglySorted addr_le (data t) -> vpages t = [] ->
  exists t', updatePages PAGE_SHIFT debug t = Done t' /\ data t' = data t /\
    StronglySorted gap (vpages t') /\ Forall range_ok (vpages t') /\
    forall q, (exists p, p ∈ vpages t' /\ in_range q p) <->
              exists d, d ∈ data t /\ touches PAGE_SHIFT q d.
Proof.
  intros HS Hok Hap Hsort Hv. unfold updatePages. rewrite Hv.
  assert (Hbef : StronglySorted before (data t)).
  { apply apart_sorted; [done..|]. eapply Forall_impl; [exact Hok|]. by intros d [? _]. }
  destruct (data t) as [|d ds] eqn:E; simpl.
  { eexists. split; [done|]. simpl. split_and!; [done|constructor|constructor|set_solver]. }
  apply Forall_cons in Hok as [Hd Hds]. apply StronglySorted_inv in Hbef as [Hs Hb].
  destruct (pages_of PAGE_SHIFT HS d Hd) as (Es & Ee & Hle & Hu). pose proof Hd as (Hsz & Hlo & Hhi).
  pose proof (page_pos PAGE_SHIFT HS) as Hpp.
  rewrite andb_false_r. simpl. rewrite (u32_small (v_addr d + d_size d - 1)) by (unfold is_u32; lia).
  edestruct (update_loop_spec PAGE_SHIFT HS debug ds
     (mkPage (start_page PAGE_SHIFT d) (end_page PAGE_SHIFT d)
             (u32 (end_page PAGE_SHIFT d - start_page PAGE_SHIFT d + 1)))
     (v_addr d + d_size d - 1) []) as (out & Hout & Hg & Hr & _ & Hq); try done.
  - split_and!; simpl; try lia. rewrite u32_small; [done|]. unfold is_u32. lia.
  - lia.
  - eapply Forall_impl; [exact Hb|]. unfold before. simpl. lia.
  - rewrite Hout. simpl. eexists. split; [done|]. simpl. split_and!; try done.
    intros q. rewrite Hq.
    assert (Ht : in_range q (mkPage (start_page PAGE_SHIFT d) (end_page PAGE_SHIFT d)
         (u32 (end_page PAGE_SHIFT d - start_page PAGE_SHIFT d + 1))) <-> touches PAGE_SHIFT q d).
    { unfold in_range, touches. simpl. by rewrite Es, Ee. }
    rewrite Ht. split; [intros [?|(e & ? & ?)]; eauto 6 using list_elem_of_here,
          list_elem_of_further|].
    intros (e & [->|?]%elem_of_cons & ?); eauto.
Qed.

(** Two ranges with a gap leave a page between them out. *)
Lemma gap_single ps :
  StronglySorted gap ps -> Forall range_ok ps ->
  (forall a b q, (exists p, p ∈ ps /\ in_range a p) -> (exists p, p ∈ ps /\ in_range b p) ->
     a <= q <= b -> exists p, p ∈ ps /\ in_range q p) ->
  (length ps <= 1)%nat.
Proof.
  intros Hs Hok Hc. destruct ps as [|p [|p' ps]]; simpl; [lia..|]. exfalso.
  apply StronglySorted_inv in Hs as [Hs Hf]. apply Forall_cons in Hok as [(Hp1 & Hp2 & _) Hok].
  pose proof Hf as Hf'. apply Forall_cons in Hf' as [Hg _]. unfold gap in Hg.
  destruct (Hc (v_pn_end p) (v_pn_start p') (v_pn_end p + 1)) as (r & Hr & Hq); [..|lia|].
  - exists p. unfold in_range. split; [set_solver|lia].
  - exists p'. apply Forall_cons in Hok as [(? & _) _]. unfold in_range. split; [set_solver|lia].
  - apply elem_of_cons in Hr as [->|Hr]; unfold in_range in Hq; [lia|].
    rewrite Forall_forall in Hf. specialize (Hf r Hr). unfold gap in Hf. lia.
Qed.

(** ** The slice table describes the pages *)

Section slices.
Context (PAGE_SIZE : Z) (HP : 0 < PAGE_SIZE).

Definition phys_ok (p : Z) : Prop := 0 <= p /\ p + PAGE_SIZE < u32_mod.

(** Entry [i] of the table for the pages [phys] from [vstart] on: a run of [c]
    pages from page [k] that are contiguous in physical memory and contain [i]. *)
Definition slice_at (vstart : Z) (phys : list Z) (i : nat) (s : Slice) : Prop :=
  exists k c p, (k <= i < k + c)%nat /\ (k + c <= length phys)%nat /\
    s = mkSlice (vstart + PAGE_SIZE * Z.of_nat k) p (PAGE_SIZE * Z.of_nat c) /\
    forall m, (m < c)%nat -> phys !! (k + m)%nat = Some (p + PAGE_SIZE * Z.of_nat m).

(** The last two pages are not contiguous. *)
Definition last_break (phys : list Z) : Prop :=
  exists l a b, phys = l ++ [a; b] /\ u32 (a + PAGE_SIZE) <> b.

Lemma run_length_spec p rest c n :
  Forall phys_ok (p :: rest) -> run_length PAGE_SIZE p rest c = Ok n ->
  exists k, n = (c + k)%nat /\ (k < length rest)%nat /\
    (forall j, (j <= k)%nat -> (p :: rest) !! j = Some (p + PAGE_SIZE * Z.of_nat j)) /\
    exists a b, (p :: rest) !! k = Some a /\ rest !! k = Some b /\ u32 (a + PAGE_SIZE) <> b.
Proof.
  revert p c. induction rest as [|q rest IH]; intros p c Hok; simpl; [done|].
  apply Forall_cons in Hok as [[Hp0 Hp1] Hok].
  destruct (Z.eqb_spec (u32 (p + PAGE_SIZE)) q) as [E|E].
  - intros H. destruct (IH q (S c) Hok H) as (k & -> & Hk & Hj & a & b & Ha & Hb & Hne).
    rewrite u32_small in E by (unfold is_u32; lia). exists (S k).
    split_and!; [lia|lia| |by exists a, b]. intros [|j] Hjk; [simpl; f_equal; lia|].
    simpl. rewrite Hj by lia. f_equal. lia.
  - intros [= <-]. exists 0%nat. split_and!; [lia|lia| |by exists p, q].
    intros [|j] ?; [simpl; f_equal; lia|lia].
Qed.

Lemma run_length_total p rest c :
  last_break (p :: rest) -> exists n, run_length PAGE_SIZE p rest c = Ok n.
Proof.
  revert p c. induction rest as [|q rest IH]; intros p c (l & a & b & Hl & Hne).
  { destruct l as [|? [|? ?]]; discriminate. }
  simpl. destruct (Z.eqb_spec (u32 (p + PAGE_SIZE)) q) as [E|E]; [|eauto].
  destruct l as [|x l].
  - simpl in Hl. injection Hl as -> -> ->. done.
  - simpl in Hl. injection Hl as -> Hl. apply IH. by exists l, a, b.
Qed.

Lemma last_break_drop phys i :
  last_break phys -> (i < length phys - 1)%nat -> last_break (drop i phys).
Proof.
  intros (l & a & b & -> & Hne) Hi. rewrite length_app in Hi. simpl in Hi.
  exists (drop i l), a, b. split; [|done]. rewrite drop_app_le by lia. done.
Qed.

Lemma slice_loop_spec merge vstart phys fuel i :
  (i <= length phys < fuel + i)%nat -> Forall phys_ok phys ->
  0 <= vstart -> vstart + PAGE_SIZE * Z.of_nat (length phys) < u32_mod ->
  merge = false \/ (length phys < 2)%nat \/ last_break phys ->
  exists tbl, slice_loop PAGE_SIZE merge fuel vstart phys i = Ok tbl /\
    length tbl = (length phys - i)%nat /\
    forall j s, tbl !! j = Some s -> slice_at vstart phys (i + j) s.
Proof.
  intros Hf Hok H0 Hv Hm. revert i Hf. induction fuel as [|fuel IH]; intros i Hf; simpl.
  { lia. }
  case_decide as Hi; [|exists []; simpl; split_and!; [done|lia|done]].
  destruct (lookup_lt_is_Some_2 phys i Hi) as [p Hp]. rewrite Hp. simpl.
  assert (Hc : exists c, (if merge && bool_decide (i < length phys - 1)%nat
             then run_length PAGE_SIZE p (drop (S i) phys) 1 else Ok 1%nat) = Ok c /\
             (0 < c)%nat /\ (i + c <= length phys)%nat /\
             forall m, (m < c)%nat -> phys !! (i + m)%nat = Some (p + PAGE_SIZE * Z.of_nat m)).
  { destruct (merge && bool_decide (i < length phys - 1)%nat) eqn:E.
    - apply andb_true_iff in E as [-> Hlt%bool_decide_eq_true].
      destruct Hm as [|[|Hlb]]; [done|lia|].
      pose proof (last_break_drop phys i Hlb Hlt) as Hlb'. rewrite (drop_S _ _ _ Hp) in Hlb'.
      destruct (run_length_total p (drop (S i) phys) 1 Hlb') as [n Hn]. exists n.
      destruct (run_length_spec p (drop (S i) phys) 1 n) as (k & -> & Hk & Hj & _); [|done|].
      { rewrite <- (drop_S _ _ _ Hp). by apply Forall_drop. }
      rewrite length_drop in Hk. split_and!; [done|lia|lia|]. intros m Hm'.
      rewrite <- lookup_drop, (drop_S _ _ _ Hp). apply Hj. lia.
    - exists 1%nat. split_and!; [done|lia|lia|]. intros m ?. replace m with 0%nat by lia.
      rewrite Nat.add_0_r, Hp. f_equal. lia. }
  destruct Hc as (c & -> & Hc0 & Hcl & Hrun). simpl.
  destruct (IH (i + c)%nat ltac:(lia)) as (tbl & -> & Hlen & Hs). simpl. eexists. split; [done|].
  assert (Hsm : PAGE_SIZE * Z.of_nat c <= PAGE_SIZE * Z.of_nat (length phys) /\
                PAGE_SIZE * Z.of_nat i <= PAGE_SIZE * Z.of_nat (length phys)) by nia.
  rewrite (u32_small (vstart + _)) by (unfold is_u32; nia).
  rewrite (u32_small (PAGE_SIZE * Z.of_nat c)) by (unfold is_u32; nia).
  split; [rewrite length_app, length_replicate; lia|]. intros j s Hj.
  destruct (decide (j < c)%nat) as [Hjc|Hjc].
  - rewrite lookup_app_l in Hj by (rewrite length_replicate; lia).
    rewrite lookup_replicate_2 in Hj by lia. simplify_eq. exists i, c, p. split_and!; eauto; lia.
  - rewrite lookup_app_r in Hj by (rewrite length_replicate; lia). rewrite length_replicate in Hj.
    specialize (Hs _ _ Hj). replace (i + c + (j - c))%nat with (i + j)%nat in Hs by lia. done.
Qed.

(** The merging loop runs past the array when the last two pages are contiguous. *)
Lemma slice_loop_overrun vstart phys fuel i l a :
  (length phys < fuel + i)%nat -> Forall phys_ok phys ->
  phys = l ++ [a; u32 (a + PAGE_SIZE)] -> (i <= length l)%nat ->
  slice_loop PAGE_SIZE true fuel vstart phys i = UB.
Proof.
  intros Hf Hok Hl Hi. revert i Hf Hi. induction fuel as [|fuel IH]; intros i Hf Hi; simpl.
  { rewrite Hl, length_app in Hf. simpl in Hf. lia. }
  assert (Hlen : length phys = (length l + 2)%nat) by by rewrite Hl, length_app.
  rewrite decide_True by lia. rewrite bool_decide_true by lia. simpl.
  destruct (lookup_lt_is_Some_2 phys i) as [p Hp]; [lia|]. rewrite Hp. simpl.
  destruct (run_length PAGE_SIZE p (drop (S i) phys) 1) as [c| |] eqn:E; simpl; [|done|].
  - destruct (run_length_spec p (drop (S i) phys) 1 c) as (k & -> & Hk & _ & x & y & Hx & Hy & Hne);
      [rewrite <- (drop_S _ _ _ Hp); by apply Forall_drop|done|].
    rewrite <- (drop_S _ _ _ Hp), lookup_drop in Hx. rewrite lookup_drop in Hy.
    rewrite length_drop in Hk.
    rewrite IH; [done|lia|]. destruct (decide (i + k = length l)%nat) as [Ek|]; [|lia]. exfalso.
    apply Hne. rewrite Ek, Hl, list_lookup_middle in Hx by done.
    replace (S i + k)%nat with (length (l ++ [a])) in Hy by (rewrite length_app; simpl; lia).
    rewrite Hl in Hy.
    replace (l ++ [a; u32 (a + PAGE_SIZE)]) with ((l ++ [a]) ++ [u32 (a + PAGE_SIZE)]) in Hy
      by (by rewrite <- app_assoc).
    rewrite list_lookup_middle in Hy by done. by simplify_eq.
  - exfalso. revert E. clear. generalize 1%nat. revert p. induction (drop (S i) phys); simpl; [done|].
    intros p n. destruct (_ =? _); [apply IHl|done].
Qed.

(** The translation of an address through a slice is the translation of its page. *)
Lemma slice_translate vstart phys i s a :
  slice_at vstart phys i s -> s_vaddr s <= a < s_vaddr s + s_size s ->
  vstart <= a < vstart + PAGE_SIZE * Z.of_nat (length phys) /\
  exists p, phys !! Z.to_nat ((a - vstart) / PAGE_SIZE) = Some p /\
    s_paddr s + (a - s_vaddr s) = p + (a - vstart) mod PAGE_SIZE.
Proof.
  intros (k & c & p & Hi & Hc & -> & Hm) Ha. simpl in *.
  assert (Hlen : PAGE_SIZE * Z.of_nat (k + c) <= PAGE_SIZE * Z.of_nat (length phys)) by nia.
  rewrite Nat2Z.inj_add in Hlen. split; [nia|].
  set (o := a - (vstart + PAGE_SIZE * Z.of_nat k)) in *.
  assert (Ho : a - vstart = Z.of_nat k * PAGE_SIZE + o) by (unfold o; lia).
  pose proof (Z.div_mod o PAGE_SIZE ltac:(lia)) as Hdm.
  pose proof (Z.mod_pos_bound o PAGE_SIZE HP) as Hmb.
  assert (Hdv : 0 <= o / PAGE_SIZE < Z.of_nat c).
  { split; [apply Z.div_pos; lia|]. apply Z.div_lt_upper_bound; lia. }
  rewrite Ho, Z.div_add_l by lia.
  rewrite (Z.add_comm (Z.of_nat k * PAGE_SIZE)), Z.mod_add by lia.
  rewrite Z2Nat.inj_add, Nat2Z.id by lia. rewrite Hm by lia.
  eexists. split; [done|]. rewrite Z2Nat.id by lia. lia.
Qed.

End slices.

(** ** Offloading a task whose pages form one range *)

Definition contiguous (PAGE_SHIFT : Z) (ds : list PIMData) : Prop :=
  forall a b q d e, d ∈ ds -> e ∈ ds -> touches PAGE_SHIFT a d -> touches PAGE_SHIFT b e ->
    a <= q <= b -> exists f, f ∈ ds /\ touches PAGE_SHIFT q f.

Lemma touches_bounds PAGE_SHIFT d q :
  0 <= PAGE_SHIFT -> data_ok PAGE_SHIFT d -> touches PAGE_SHIFT q d ->
  1 <= q /\ (q + 1) * 2 ^ PAGE_SHIFT <= u32_mod + 2 ^ PAGE_SHIFT - 1.
Proof.
  intros HS (Hs & Hlo & Hhi) [H1 H2]. pose proof (page_pos PAGE_SHIFT HS) as Hp. split.
  - assert (1 <= v_addr d / 2 ^ PAGE_SHIFT) by (apply Z.div_le_lower_bound; lia). lia.
  - pose proof (Z.mul_div_le (v_addr d + d_size d - 1) (2 ^ PAGE_SHIFT) Hp). nia.
Qed.

Lemma offload_task_spec PAGE_SHIFT debug t sreg :
  0 <= PAGE_SHIFT -> Forall (data_ok PAGE_SHIFT) (data t) -> apart (data t) ->
  StronglySorted addr_le (data t) -> vpages t = [] -> data t <> [] ->
  contiguous PAGE_SHIFT (data t) ->
  exists t' p, offload_task PAGE_SHIFT debug t sreg =
      Done (t', [2; v_pn_start p * 2 ^ PAGE_SHIFT; pg_count p], send_pointers (data t) sreg) /\
    vpages t' = [p] /\ range_ok p /\
    forall q, in_range q p <-> exists d, d ∈ data t /\ touches PAGE_SHIFT q d.
Proof.
  intros HS Hok Hap Hsort Hv Hne Hc.
  destruct (updatePages_spec PAGE_SHIFT debug t HS Hok Hap Hsort Hv)
    as (t' & Hu & Hd & Hg & Hr & Hq).
  assert (Hlen : (length (vpages t') <= 1)%nat).
  { apply gap_single; [done..|]. intros a b q Ha Hb Hab. apply Hq in Ha as (d & Hd1 & Ha).
    apply Hq in Hb as (e & Hd2 & Hb). apply Hq. by apply (Hc a b q d e). }
  destruct (data t) as [|d0 ds] eqn:Ed; [done|]. apply Forall_cons in Hok as Hok'.
  destruct Hok' as [Hd0 _]. pose proof (pages_of PAGE_SHIFT HS d0 Hd0) as (Es & Ee & Hle & _).
  destruct (vpages t') as [|p [|p' ps]] eqn:Ep; [| |simpl in Hlen; lia].
  { destruct (proj2 (Hq (start_page PAGE_SHIFT d0))) as (p & Hp & _); [|set_solver].
    exists d0. split; [set_solver|]. unfold touches. rewrite <- Es, <- Ee. lia. }
  apply Forall_cons in Hr as [Hr _]. exists t', p.
  assert (Hq' : forall q, in_range q p <-> exists d, d ∈ d0 :: ds /\ touches PAGE_SHIFT q d).
  { intros q. rewrite <- Hq. split; [intros ?; exists p; set_solver|].
    intros (p' & ->%list_elem_of_singleton & ?). done. }
  unfold offload_task. rewrite Hu. simpl. rewrite Ep. simpl. rewrite !orb_true_r. simpl.
  rewrite Hd. split_and!; try done. repeat f_equal.
  destruct Hr as (Hr1 & Hr2 & _).
  destruct (proj1 (Hq' (v_pn_start p))) as (d & Hin & Ht); [unfold in_range; lia|].
  rewrite Forall_forall in Hok.
  destruct (touches_bounds PAGE_SHIFT d _ HS (Hok d Hin) Ht) as [_ Hb].
  rewrite Z.shiftl_mul_pow2 by done. apply u32_small. pose proof (page_pos PAGE_SHIFT HS).
  unfold is_u32. nia.
Qed.

(** ** Properties *)

(** Page ranges of a task (pim_task.cc).  Data sets that do not overlap, added
    with [addData] in any order, stay sorted by address, and [updatePages] computes
    ranges of pages that contain a page exactly when some data set touches it, in
    ascending order, with at least one page between two ranges, and with the right
    page counts. *)
Theorem task_pages_cover PAGE_SHIFT off debug ds :
  0 <= PAGE_SHIFT -> Forall (data_ok PAGE_SHIFT) ds -> apart ds ->
  Forall (fun d => off <= v_addr d) ds ->
  exists t1 t2, add_all debug off PIMTask_new ds = Done t1 /\
    updatePages PAGE_SHIFT debug t1 = Done t2 /\
    data t2 ≡ₚ ds /\ StronglySorted addr_le (data t2) /\
    StronglySorted gap (vpages t2) /\ Forall range_ok (vpages t2) /\
    forall q, (exists p, p ∈ vpages t2 /\ in_range q p) <->
              exists d, d ∈ ds /\ touches PAGE_SHIFT q d.
Proof.
  intros HS Hok [Hnd Hap] Hoff.
  destruct (add_all_spec debug off ds PIMTask_new Hoff) as (t1 & H1 & Hp & Hs & Hv); [constructor|].
  simpl in Hp. rewrite app_nil_r in Hp.
  destruct (updatePages_spec PAGE_SHIFT debug t1 HS) as (t2 & H2 & Hd & Hg & Hr & Hq); try done.
  - by rewrite Hp.
  - split; [by rewrite Hp|]. intros a b Ha Hb. rewrite Hp in Ha, Hb. auto.
  - exists t1, t2. rewrite Hd. split_and!; try done. intros q. rewrite Hq. by setoid_rewrite Hp.
Qed.

(** The slice table of the driver (pim.c).  When merging is off, or the last
    two pages are not contiguous in physical memory, [pim_create_slice_table] returns
    one entry per page; the entry of a page contains it, and every address inside an
    entry is translated to the same physical address as through the page's own
    frame. *)
Theorem slice_table_translates PAGE_SIZE merge phys vstart :
  0 < PAGE_SIZE -> Forall (phys_ok PAGE_SIZE) phys -> 0 <= vstart ->
  vstart + PAGE_SIZE * Z.of_nat (length phys) < u32_mod ->
  merge = false \/ (length phys < 2)%nat \/ last_break PAGE_SIZE phys ->
  exists tbl, pim_create_slice_table PAGE_SIZE merge phys vstart = Ok tbl /\
    length tbl = length phys /\
    forall i s, tbl !! i = Some s ->
      s_vaddr s <= vstart + PAGE_SIZE * Z.of_nat i /\
      vstart + PAGE_SIZE * Z.of_nat i + PAGE_SIZE <= s_vaddr s + s_size s /\
      forall a, s_vaddr s <= a < s_vaddr s + s_size s ->
        exists p, phys !! Z.to_nat ((a - vstart) / PAGE_SIZE) = Some p /\
          s_paddr s + (a - s_vaddr s) = p + (a - vstart) mod PAGE_SIZE.
Proof.
  intros HP Hok H0 Hv Hm. unfold pim_create_slice_table.
  destruct (slice_loop_spec PAGE_SIZE HP merge vstart phys (S (length phys)) 0)
    as (tbl & Ht & Hl & Hs); [lia|done..|].
  exists tbl. split_and!; [done|lia|]. intros i s Hi. specialize (Hs i s Hi). simpl in Hs.
  pose proof Hs as (k & c & p & Hik & Hc & -> & _). simpl. split_and!; [nia|nia|].
  intros a Ha. by destruct (slice_translate PAGE_SIZE HP vstart phys i _ a Hs Ha) as [_ ?].
Qed.

(** With merging on and the last two pages contiguous in physical memory, the
    merging loop of [pim_create_slice_table] reads past the end of the array of
    physical addresses. *)
Theorem slice_table_overrun PAGE_SIZE l a vstart :
  0 < PAGE_SIZE -> Forall (phys_ok PAGE_SIZE) (l ++ [a; u32 (a + PAGE_SIZE)]) ->
  pim_create_slice_table PAGE_SIZE true (l ++ [a; u32 (a + PAGE_SIZE)]) vstart = UB.
Proof.
  intros HP Hok. unfold pim_create_slice_table.
  apply (slice_loop_overrun PAGE_SIZE HP vstart _ _ 0 l a); [lia|done|done|lia].
Qed.

(** ** Instances of the properties *)

(** Three data sets on the pages 2, 3 and 5 of 4 KB, added out of order. *)
Definition demo_data : list PIMData :=
  [mkData 0x5010 16 2; mkData 0x2000 0x1000 0; mkData 0x3000 100 1].

Lemma task_pages_cover_witness :
  exists t1 t2, add_all true 0x1000 PIMTask_new demo_data = Done t1 /\
    updatePages 12 true t1 = Done t2 /\ vpages t2 = [mkPage 2 3 2; mkPage 5 5 1] /\
    StronglySorted gap (vpages t2).
Proof.
  destruct (task_pages_cover 12 0x1000 true demo_data) as (t1 & t2 & H1 & H2 & _ & _ & Hg & _).
  - lia.
  - repeat constructor; vm_compute; discriminate.
  - apply apart_check; apply (bool_decide_unpack _); vm_compute; exact I.
  - repeat constructor; vm_compute; discriminate.
  - exists t1, t2. split_and!; try done. vm_compute in H1. injection H1 as <-.
    vm_compute in H2. injection H2 as <-. reflexivity.
Defined.

Definition demo_phys : list Z := [0x80000; 0x81000; 0x90000].

Lemma slice_table_translates_witness :
  pim_create_slice_table 0x1000 true demo_phys 0x2000 =
    Ok [mkSlice 0x2000 0x80000 0x2000; mkSlice 0x2000 0x80000 0x2000;
        mkSlice 0x4000 0x90000 0x1000] /\
  exists tbl, pim_create_slice_table 0x1000 true demo_phys 0x2000 = Ok tbl /\
    length tbl = length demo_phys.
Proof.
  split; [vm_compute; reflexivity|].
  destruct (slice_table_translates 0x1000 true demo_phys 0x2000) as (tbl & Ht & Hl & _); eauto.
  - lia.
  - repeat constructor; vm_compute; discriminate.
  - lia.
  - vm_compute. reflexivity.
  - right. right. exists [0x80000], 0x81000, 0x90000. split; [reflexivity|]. vm_compute. discriminate.
Defined.

Lemma slice_table_overrun_witness :
  pim_create_slice_table 0x1000 true [0x90000; 0x80000; 0x81000] 0x2000 = UB.
Proof.
  apply (slice_table_overrun 0x1000 [0x90000] 0x80000 0x2000).
  - lia.
  - repeat constructor; vm_compute; discriminate.
Defined.
