(* ===== verification/Tlb.v ===== *)
(** * The TLB of the PIM device

    Models src/SMC/GEM5/gem5/src/mem/ethz_tlb.cc: the rules, the least-recently
    used replacement, the refills from the slice table in the functional, atomic
    and timing modes, the registers of the atomic HMC commands, and the handlers of
    requests and responses.  [curTick()] and the answer of a port to a send are
    arguments of the operations.  The theorems connect it with the slice table of
    PimTask.v: an access is sent to the physical address that the page table of the
    host process gives. *)

From S2P Require Import Prelude PimTask.

(** ** Address ranges (base/addr_range.hh, not interleaved) *)

Definition u64_mod : Z := 2 ^ 64.
Definition u64 (z : Z) : Z := z mod u64_mod.
(** [(Addr)-1] *)
Definition NO_ADDR : Z := u64_mod - 1.

Record AddrRange := mkRange { r_start : Z; r_end : Z }.
Definition contains (r : AddrRange) (a : Z) : bool := (r_start r <=? a) && (a <=? r_end r).
Definition range_size (r : AddrRange) : Z := u64 (r_end r - r_start r + 1).

(** ** Packets *)

Inductive hmc := HMC_NONE | HMC_CMD_INC | HMC_CMD_FADD | HMC_CMD_MIN.

(** [p_data] are the words of the data; [p_state] is the stack of sender states, in
    which [Some a] is an [AddrMapperSenderState] with original address [a]. *)
Record packet := mkPkt {
  p_addr : Z;
  p_write : bool;
  p_size : Z;
  p_data : list Z;
  p_needs_response : bool;
  p_inhibited : bool;
  IS_REMAPPED : bool;
  ATOMIC_HMC_COMMAND : hmc;
  ATOMIC_HMC_OPERAND : Z;
  p_state : list (option Z);
}.

Definition setAddr (p : packet) (a : Z) : packet :=
  mkPkt a (p_write p) (p_size p) (p_data p) (p_needs_response p) (p_inhibited p)
        (IS_REMAPPED p) (ATOMIC_HMC_COMMAND p) (ATOMIC_HMC_OPERAND p) (p_state p).
Definition set_remapped (p : packet) : packet :=
  mkPkt (p_addr p) (p_write p) (p_size p) (p_data p) (p_needs_response p) (p_inhibited p)
        true (ATOMIC_HMC_COMMAND p) (ATOMIC_HMC_OPERAND p) (p_state p).
Definition set_hmc (p : packet) (c : hmc) (o : Z) : packet :=
  mkPkt (p_addr p) (p_write p) (p_size p) (p_data p) (p_needs_response p) (p_inhibited p)
        (IS_REMAPPED p) c o (p_state p).
Definition set_senders (p : packet) (l : list (option Z)) : packet :=
  mkPkt (p_addr p) (p_write p) (p_size p) (p_data p) (p_needs_response p) (p_inhibited p)
        (IS_REMAPPED p) (ATOMIC_HMC_COMMAND p) (ATOMIC_HMC_OPERAND p) l.
(** A request that was turned into its response needs no response any more. *)
Definition makeResponse (p : packet) : packet :=
  mkPkt (p_addr p) (p_write p) (p_size p) (p_data p) false (p_inhibited p)
        (IS_REMAPPED p) (ATOMIC_HMC_COMMAND p) (ATOMIC_HMC_OPERAND p) (p_state p).

(** ** The TLB *)

(** The parameters of the object. *)
Record tlb_conf := mkConf {
  OS_PAGE_SHIFT : Z;
  TLB_SIZE : Z;
  IDEAL_REFILL : bool;
  PIM_DTLB_IDEAL_REFILL_REG : Z;
  HMC_ATOMIC_INCR : Z;
  HMC_ATOMIC_IMIN : Z;
  HMC_ATOMIC_FADD : Z;
  HMC_OPERAND : Z;
  pim_arch : Z;
}.

Record tlb := mkTLB {
  originalRanges : list AddrRange;
  remappedRanges : list AddrRange;
  lastUsed : list Z;
  pending_refills : list Z;
  PIM_SLICETABLE_PTR : Z;
  PIM_SLICECOUNT : Z;
  PIM_SLICEVSTART : Z;
  hmc_operand : Z;
  packetQueue : list packet;
  TLBAccess : Z;
  TLBDynamicAccess : Z;
  TLBMiss : Z;
}.

Definition set_rules (st : tlb) (o r : list AddrRange) (l : list Z) : tlb :=
  mkTLB o r l (pending_refills st) (PIM_SLICETABLE_PTR st) (PIM_SLICECOUNT st)
        (PIM_SLICEVSTART st) (hmc_operand st) (packetQueue st) (TLBAccess st)
        (TLBDynamicAccess st) (TLBMiss st).
Definition set_pending (st : tlb) (l : list Z) : tlb :=
  mkTLB (originalRanges st) (remappedRanges st) (lastUsed st) l (PIM_SLICETABLE_PTR st)
        (PIM_SLICECOUNT st) (PIM_SLICEVSTART st) (hmc_operand st) (packetQueue st)
        (TLBAccess st) (TLBDynamicAccess st) (TLBMiss st).
Definition set_slices (st : tlb) (ptr cnt vstart : Z) : tlb :=
  mkTLB (originalRanges st) (remappedRanges st) (lastUsed st) (pending_refills st) ptr cnt
        vstart (hmc_operand st) (packetQueue st) (TLBAccess st) (TLBDynamicAccess st) (TLBMiss st).
Definition set_operand (st : tlb) (v : Z) : tlb :=
  mkTLB (originalRanges st) (remappedRanges st) (lastUsed st) (pending_refills st)
        (PIM_SLICETABLE_PTR st) (PIM_SLICECOUNT st) (PIM_SLICEVSTART st) v (packetQueue st)
        (TLBAccess st) (TLBDynamicAccess st) (TLBMiss st).
Definition set_queue (st : tlb) (q : list packet) : tlb :=
  mkTLB (originalRanges st) (remappedRanges st) (lastUsed st) (pending_refills st)
        (PIM_SLICETABLE_PTR st) (PIM_SLICECOUNT st) (PIM_SLICEVSTART st) (hmc_operand st) q
        (TLBAccess st) (TLBDynamicAccess st) (TLBMiss st).
Definition set_counts (st : tlb) (a d m : Z) : tlb :=
  mkTLB (originalRanges st) (remappedRanges st) (lastUsed st) (pending_refills st)
        (PIM_SLICETABLE_PTR st) (PIM_SLICECOUNT st) (PIM_SLICEVSTART st) (hmc_operand st)
        (packetQueue st) a d m.

(** The constructor, with the ranges of the parameters; the last use of the first
    rule is the largest tick.  PIM_SLICEVSTART is not initialised: [vstart0] is
    whatever it holds. *)
Definition ethz_TLB (orig remapped : list AddrRange) (vstart0 : Z) : sim tlb :=
  _ ← check (bool_decide (length orig = length remapped));
  _ ← check (forallb (fun '(a, b) => range_size a =? range_size b) (zip orig remapped));
  Done (mkTLB orig remapped [NO_ADDR] [] 0 0 vstart0 0 [] 0 0 0).

(** The first rule that contains [a], with its index. *)
Fixpoint find_rule (rs : list AddrRange) (a : Z) (i : nat) : option (nat * AddrRange) :=
  match rs with
  | [] => None
  | r :: rs' => if contains r a then Some (i, r) else find_rule rs' a (S i)
  end.

Definition remap_check (st : tlb) (a : Z) : sim Z :=
  match find_rule (originalRanges st) a 0 with
  | Some (i, r) => r' ← elem (remappedRanges st !! i); Done (u64 (a - r_start r + r_start r'))
  | None => Done NO_ADDR
  end.

Definition slice_vend (st : tlb) (a : Z) : sim Z :=
  match find_rule (originalRanges st) a 0 with
  | Some (_, r) => Done (u64 (r_start r + range_size r - 1))
  | None => Halt
  end.

Definition slice_vstart (st : tlb) (a : Z) : sim Z :=
  match find_rule (originalRanges st) a 0 with
  | Some (_, r) => Done (r_start r)
  | None => Halt
  end.

Definition remap (now : Z) (st : tlb) (a : Z) : sim (tlb * Z) :=
  let st1 := set_counts st (TLBAccess st + 1) (TLBDynamicAccess st) (TLBMiss st) in
  match find_rule (originalRanges st) a 0 with
  | Some (i, r) =>
      st2 ← (if bool_decide (0 < i)%nat then
               _ ← elem (lastUsed st !! i);
               Done (set_counts (set_rules st1 (originalRanges st1) (remappedRanges st1)
                                           (<[i := now]> (lastUsed st1)))
                                (TLBAccess st1) (TLBDynamicAccess st1 + 1) (TLBMiss st1))
             else Done st1);
      r' ← elem (remappedRanges st2 !! i);
      Done (st2, u64 (a - r_start r + r_start r'))
  | None =>
      if negb (PIM_SLICETABLE_PTR st =? 0)
      then Done (set_counts st1 (TLBAccess st1) (TLBDynamicAccess st1) (TLBMiss st1 + 1), NO_ADDR)
      else Halt
  end.

(** ** Replacement *)

(** [for (i=1; ...) if (min > lastUsed[i]) ...] over the suffix that starts at [i]. *)
Fixpoint lru_scan (l : list Z) (i : nat) (min : Z) (min_index : nat) : nat :=
  match l with
  | [] => min_index
  | x :: l' => if x <? min then lru_scan l' (S i) x i else lru_scan l' (S i) min min_index
  end.

Definition updateTLB (c : tlb_conf) (now : Z) (st : tlb) (vaddr paddr size : Z) : sim tlb :=
  st1 ← (if u64 (TLB_SIZE c) <=? Z.of_nat (length (originalRanges st)) then
           min ← elem (lastUsed st !! 1%nat);
           let m := lru_scan (drop 1 (lastUsed st)) 1 min 1 in
           _ ← elem (lastUsed st !! m);
           _ ← elem (originalRanges st !! m);
           _ ← elem (remappedRanges st !! m);
           Done (set_rules st (delete m (originalRanges st)) (delete m (remappedRanges st))
                           (delete m (lastUsed st)))
         else Done st);
  Done (set_rules st1
          (originalRanges st1 ++ [mkRange vaddr (u64 (vaddr + size - 1))])
          (remappedRanges st1 ++ [mkRange paddr (u64 (paddr + size - 1))])
          (lastUsed st1 ++ [now])).

(** ** Refills *)

(** Bytes of a slice: three words. *)
Definition slice_len (c : tlb_conf) : Z := 3 * pim_arch c / 8.

(** The address of the slice of [addr], after the assertion that it is in range. *)
Definition slice_addr (c : tlb_conf) (st : tlb) (addr : Z) : sim Z :=
  _ ← check (PIM_SLICEVSTART st <=? addr);
  Done (u64 (PIM_SLICETABLE_PTR st +
             u64 (Z.shiftr (addr - PIM_SLICEVSTART st) (OS_PAGE_SHIFT c) * slice_len c))).

Definition pending_refill (st : tlb) (a : Z) : bool := bool_decide (a ∈ pending_refills st).

(** Erases the first occurrence. *)
Fixpoint erase_first (a : Z) (l : list Z) : list Z :=
  match l with [] => [] | x :: l' => if x =? a then l' else x :: erase_first a l' end.

Definition remove_pending_refill (st : tlb) (a : Z) : tlb * bool :=
  if pending_refill st a then (set_pending st (erase_first a (pending_refills st)), true)
  else (st, false).

(** The three words of a slice in memory; [mem] gives the word at an address. *)
Definition read_slice (c : tlb_conf) (mem : Z -> Z) (p : Z) : Z * Z * Z :=
  (mem p, mem (p + pim_arch c / 8), mem (p + 2 * (pim_arch c / 8))).

(** [refillTLB_atomic] and [refillTLB_functional] differ in the kind of the access
    to the memory only. *)
Definition refillTLB_atomic (c : tlb_conf) (now : Z) (mem : Z -> Z) (st : tlb) (addr : Z)
    : sim tlb :=
  p ← slice_addr c st addr;
  _ ← check (negb (pending_refill st p));
  let '(v, pa, s) := read_slice c mem p in
  updateTLB c now st v pa s.

Definition refillTLB_functional (c : tlb_conf) (now : Z) (mem : Z -> Z) (st : tlb) (addr : Z)
    : sim tlb :=
  p ← slice_addr c st addr;
  _ ← check (negb (pending_refill st p));
  let '(v, pa, s) := read_slice c mem p in
  updateTLB c now st v pa s.

(** What the TLB does to its ports and to the event queue. *)
Inductive action :=
  | MasterReq (p : packet) | SlaveResp (p : packet) | SlaveRetry | ScheduleDequeue.

(** The read request of a timing refill. *)
Definition refill_packet (c : tlb_conf) (p : Z) : packet :=
  mkPkt p false (slice_len c) [] true false false HMC_NONE 0 [].

(** [accept] is the answer of the master port. *)
Definition refillTLB_timing (c : tlb_conf) (accept : bool) (st : tlb) (addr : Z)
    : sim (tlb * list action * bool) :=
  p ← slice_addr c st addr;
  if pending_refill st p then Done (st, [], true)
  else
    let st1 := set_pending st (pending_refills st ++ [p]) in
    if accept then Done (st1, [MasterReq (refill_packet c p)], true)
    else Done (set_pending st1 (take (length (pending_refills st)) (pending_refills st1)),
               [MasterReq (refill_packet c p)], false).

(** ** Requests and responses *)

(** Word [i] of the data of a packet: [getPtr<uint32_t>()[i]] or
    [getPtr<uint64_t>()[i]]. *)
Definition data_word (c : tlb_conf) (p : packet) (i : nat) : sim Z :=
  w ← elem (p_data p !! i); Done (if pim_arch c =? 32 then u32 w else u64 w).

(** A write to one of the command registers: the target is the data; a target 0 is
    ignored. *)
Definition hmc_target (c : tlb_conf) (p : packet) : sim Z :=
  _ ← check (p_size p =? pim_arch c / 8);
  a ← data_word c p 0;
  _ ← check (negb (a =? NO_ADDR));
  Done a.

(** One branch of [check_hmc_command]; the flag says whether it returns at once. *)
Definition hmc_branch (c : tlb_conf) (p : packet) (cmd : hmc) (operand : Z)
    : sim (packet * Z * bool) :=
  t ← hmc_target c p;
  Done (if t =? 0 then (p, 0, true) else (set_hmc p cmd operand, t, false)).

Definition check_hmc_command (c : tlb_conf) (st : tlb) (p : packet) : sim (tlb * packet * Z) :=
  let a := p_addr p in
  if a =? 0 then Done (st, p, 0)
  else
    r ← (if (a =? HMC_ATOMIC_INCR c) && p_write p
         then hmc_branch c p HMC_CMD_INC (ATOMIC_HMC_OPERAND p)
         else if (a =? HMC_ATOMIC_FADD c) && p_write p
         then hmc_branch c p HMC_CMD_FADD (hmc_operand st)
         else if (a =? HMC_ATOMIC_IMIN c) && p_write p
         then hmc_branch c p HMC_CMD_MIN (hmc_operand st)
         else Done (p, 0, false));
    let '(p1, target, early) := r in
    if (early : bool) then Done (st, p1, 0)
    else if (a =? HMC_OPERAND c) && p_write p then
      w ← elem (p_data p1 !! 0%nat);
      Done (set_operand st (u32 w), p1, target)
    else Done (st, p1, target).

(** The request is sent with its new address, and gets its old one back. *)
Definition recvFunctional (c : tlb_conf) (now : Z) (st : tlb) (p : packet)
    : sim (tlb * list action * packet) :=
  let orig := p_addr p in
  if negb (PIM_DTLB_IDEAL_REFILL_REG c =? 0) && (orig =? PIM_DTLB_IDEAL_REFILL_REG c) then Halt
  else
    '(st1, ra) ← remap now st orig;
    if ra =? NO_ADDR then Halt
    else Done (st1, [MasterReq (setAddr p ra)], setAddr (setAddr p ra) orig).

(** A refill asked for by software through PIM_DTLB_IDEAL_REFILL_REG. *)
Definition ideal_refill (c : tlb_conf) (now : Z) (mem : Z -> Z) (st : tlb) (p : packet) : sim tlb :=
  a ← data_word c p 0;
  if a =? 0 then Done st
  else
    ra ← remap_check st a;
    if ra =? NO_ADDR then refillTLB_functional c now mem st a else Done st.

Definition recvAtomic (c : tlb_conf) (now : Z) (mem : Z -> Z) (st : tlb) (p : packet)
    : sim (tlb * list action * packet) :=
  let orig := p_addr p in
  if negb (PIM_DTLB_IDEAL_REFILL_REG c =? 0) && (orig =? PIM_DTLB_IDEAL_REFILL_REG c) then
    _ ← check (p_size p =? pim_arch c / 8);
    _ ← check (p_write p);
    st1 ← ideal_refill c now mem st p;
    Done (st1, [], p)
  else
    '(st1, p1, target) ← check_hmc_command c st p;
    '(st2, ra) ← remap now st1 (if target =? 0 then orig else target);
    r ← (if ra =? NO_ADDR then
           s ← refillTLB_atomic c now mem st2 orig;
           '(s', ra2) ← remap now s orig;
           if ra2 =? NO_ADDR then Halt else Done (s', ra2)
         else Done (st2, ra));
    let '(st3, ra') := r in
    Done (st3, [MasterReq (setAddr p1 ra')], setAddr (setAddr p1 ra') orig).

(** The rest of [recvTimingReq]: the packet, already remapped, is offered to the
    master port; [orig] is the address that the response is to get back. *)
Definition forward_req (accept : bool) (st : tlb) (p : packet) (orig : Z)
    : sim (tlb * list action * packet * bool) :=
  let needs := p_needs_response p in
  let p1 := if needs && negb (p_inhibited p) then set_senders p (Some orig :: p_state p) else p in
  if accept then Done (st, [MasterReq p1], p1, true)
  else
    p2 ← (if needs then
            match p_state p1 with
            | _ :: l => Done (set_senders p1 l)
            | [] => Wild
            end
          else Done p1);
    Done (st, [MasterReq p1], p2, false).

Definition recvTimingReq (c : tlb_conf) (now : Z) (mem : Z -> Z) (accept : bool) (st : tlb)
    (p : packet) : sim (tlb * list action * packet * bool) :=
  let orig := p_addr p in
  if negb (PIM_DTLB_IDEAL_REFILL_REG c =? 0) && (orig =? PIM_DTLB_IDEAL_REFILL_REG c) then
    _ ← check (p_write p);
    _ ← check (p_size p =? pim_arch c / 8);
    _ ← check (p_needs_response p);
    let p1 := makeResponse p in
    (* the dequeue event is scheduled as long as the queue is not empty *)
    _ ← check (bool_decide (length (packetQueue st) = 0%nat));
    let st1 := set_queue st (packetQueue st ++ [p1]) in
    st2 ← ideal_refill c now mem st1 p1;
    Done (st2, [ScheduleDequeue], p1, true)
  else if IS_REMAPPED p then forward_req accept st p orig
  else
    '(st1, p1, target) ← check_hmc_command c st p;
    let orig1 := if target =? 0 then orig else target in
    '(st2, ra) ← remap now st1 orig1;
    if ra =? NO_ADDR then
      if IDEAL_REFILL c then
        st3 ← refillTLB_functional c now mem st2 orig1;
        '(st4, ra') ← remap now st3 orig1;
        _ ← check (negb (ra' =? NO_ADDR));
        forward_req accept st4 (set_remapped (setAddr p1 ra')) orig1
      else
        '(st3, acts, _) ← refillTLB_timing c accept st2 orig1;
        Done (st3, acts, p1, false)
    else forward_req accept st2 (set_remapped (setAddr p1 ra)) orig1.

(** [accept] is the answer of the slave port. *)
Definition recvTimingResp (c : tlb_conf) (now : Z) (accept : bool) (st : tlb) (p : packet)
    : sim (tlb * list action * packet * bool) :=
  match p_state p with
  | Some orig :: rest =>
      let p1 := setAddr (set_senders p rest) orig in
      if accept then Done (st, [SlaveResp p1], p1, true)
      else Done (st, [SlaveResp p1], p, false)
  | _ =>
      _ ← check (p_size p =? slice_len c);
      let '(st1, found) := remove_pending_refill st (p_addr p) in
      _ ← check found;
      v ← data_word c p 0;
      pa ← data_word c p 1;
      s ← data_word c p 2;
      st2 ← updateTLB c now st1 v pa s;
      Done (st2, [SlaveRetry], p, true)
  end.

(** The dequeue event: the response of a write to the refill register. *)
Definition dequeue (accept : bool) (st : tlb) : sim (tlb * list action) :=
  match packetQueue st with
  | [] => Halt
  | p :: q =>
      _ ← check accept;
      _ ← check (bool_decide (length q = 0%nat));
      Done (set_queue st q, [SlaveResp p])
  end.

(** ** Facts about the rules *)

Lemma find_rule_Some rs a k i r :
  find_rule rs a k = Some (i, r) ->
  exists j, i = (k + j)%nat /\ rs !! j = Some r /\ contains r a = true.
Proof.
  revert k. induction rs as [|x rs IH]; intros k; simpl; [done|].
  destruct (contains x a) eqn:E.
  - intros [= <- <-]. exists 0%nat. split_and!; [lia|done|done].
  - intros H. destruct (IH (S k) H) as (j & -> & Hj & Hc). exists (S j). split_and!; [lia|done|done].
Qed.

Lemma find_rule_None rs a k j r :
  find_rule rs a k = None -> rs !! j = Some r -> contains r a = false.
Proof.
  revert k j. induction rs as [|x rs IH]; intros k j; simpl; [done|].
  destruct (contains x a) eqn:E; [done|]. intros H. destruct j as [|j]; simpl; [congruence|]. eauto.
Qed.

Lemma lru_scan_spec l i min mi :
  let m := lru_scan l i min mi in
  (m = mi /\ Forall (fun y => min <= y) l) \/
  exists j x, m = (i + j)%nat /\ l !! j = Some x /\ x < min /\ Forall (fun y => x <= y) l.
Proof.
  revert i min mi. induction l as [|x l IH]; intros i min mi; simpl; [by left|].
  destruct (Z.ltb_spec x min) as [Hlt|Hge].
  - right. destruct (IH (S i) x i) as [[-> Hf]|(j & y & -> & Hj & Hy & Hf)].
    + exists 0%nat, x. split_and!; [lia|done|done|]. constructor; [lia|done].
    + exists (S j), y. split_and!; [lia|done|lia|]. constructor; [lia|done].
  - destruct (IH (S i) min mi) as [[-> Hf]|(j & y & -> & Hj & Hy & Hf)].
    + left. split; [done|]. by constructor.
    + right. exists (S j), y. split_and!; [lia|done|lia|]. constructor; [lia|done].
Qed.

(** The rule that a full TLB gives up: never the first one, and used no later than
    any other dynamic rule. *)
Lemma lru_victim (l : list Z) :
  (2 <= length l)%nat ->
  exists min, l !! 1%nat = Some min /\
    let m := lru_scan (drop 1 l) 1 min 1 in
    (1 <= m < length l)%nat /\
    exists u, l !! m = Some u /\ forall j v, (1 <= j)%nat -> l !! j = Some v -> u <= v.
Proof.
  intros Hl. destruct l as [|x0 [|x1 l]]; simpl in Hl; [lia..|]. exists x1. split; [done|].
  cbn [drop]. cbn zeta.
  assert (Hall : forall u, Forall (fun y => u <= y) (x1 :: l) ->
            forall j v, (1 <= j)%nat -> (x0 :: x1 :: l) !! j = Some v -> u <= v).
  { intros u Hf [|j] v Hj Hv; [lia|]. simpl in Hv. rewrite Forall_forall in Hf. apply Hf.
    by eapply list_elem_of_lookup_2. }
  destruct (lru_scan_spec (x1 :: l) 1 x1 1) as [[-> Hf]|(j & y & -> & Hj & _ & Hf)].
  - split; [simpl; lia|]. exists x1. split; [done|]. by apply Hall.
  - apply lookup_lt_Some in Hj as Hlt. simpl in Hlt. split; [simpl; lia|]. exists y.
    split; [done|]. by apply Hall.
Qed.

Section translation.
(** The device and its slice table: [phys] are the frames of the pages from
    [vstart] on, the table [tbl] lies at [ptr] in memory, and [r0] with [r0'] is the
    static rule. *)
Context (c : tlb_conf) (mem : Z -> Z) (phys : list Z) (tbl : list Slice).
Context (vstart ptr : Z) (r0 r0' : AddrRange).

Definition PS : Z := 2 ^ OS_PAGE_SHIFT c.
Definition in_data (a : Z) : Prop := vstart <= a < vstart + PS * Z.of_nat (length phys).
Definition page_index (a : Z) : Z := (a - vstart) / PS.
(** The physical address of [a]: the frame of its page plus the offset. *)
Definition translate (a : Z) : Z :=
  default 0 (phys !! Z.to_nat (page_index a)) + (a - vstart) mod PS.

Record device_ok : Prop := {
  dv_arch : pim_arch c = 32 \/ pim_arch c = 64;
  dv_shift : 0 <= OS_PAGE_SHIFT c;
  dv_size : 2 <= TLB_SIZE c < u64_mod;
  dv_phys : Forall (phys_ok PS) phys;
  dv_vstart : 0 <= vstart /\ vstart + PS * Z.of_nat (length phys) < u32_mod;
  dv_ptr : 0 < ptr /\ ptr + slice_len c * Z.of_nat (length phys) < u64_mod;
  dv_len : length tbl = length phys;
  dv_tbl i s : tbl !! i = Some s -> slice_at PS vstart phys i s;
  dv_mem i s : tbl !! i = Some s ->
    read_slice c mem (ptr + slice_len c * Z.of_nat i) = (s_vaddr s, s_paddr s, s_size s);
  dv_static a : in_data a -> contains r0 a = false;
}.
Context (Hdv : device_ok).

Definition rule_ok (o r : AddrRange) : Prop :=
  exists i s, tbl !! i = Some s /\ o = mkRange (s_vaddr s) (s_vaddr s + s_size s - 1) /\
    r = mkRange (s_paddr s) (s_paddr s + s_size s - 1).

(** The invariant: the static rule comes first, every other rule is a slice of the
    table, the vectors have the same length, at most TLB_SIZE; every pending refill
    is a slice of the table, and none is pending twice. *)
Record tlb_inv (st : tlb) : Prop := {
  ti_rules : exists os rs, originalRanges st = r0 :: os /\ remappedRanges st = r0' :: rs /\
    Forall2 rule_ok os rs /\ length (lastUsed st) = S (length os) /\
    Z.of_nat (S (length os)) <= TLB_SIZE c;
  ti_ptr : PIM_SLICETABLE_PTR st = ptr;
  ti_vstart : PIM_SLICEVSTART st = vstart;
  ti_pending : NoDup (pending_refills st);
  ti_pending_ok p : p ∈ pending_refills st ->
    exists i, (i < length tbl)%nat /\ p = ptr + slice_len c * Z.of_nat i;
}.

Lemma PS_pos : 0 < PS.
Proof. apply Z.pow_pos_nonneg; [lia|apply Hdv]. Qed.

Lemma slice_len_pos : slice_len c = 3 * (pim_arch c / 8) /\ 0 < slice_len c.
Proof. unfold slice_len. destruct (dv_arch Hdv) as [->| ->]; vm_compute; done. Qed.

Lemma translate_bound a : in_data a -> 0 <= translate a < u32_mod.
Proof.
  intros Ha. pose proof PS_pos. unfold translate.
  destruct (phys !! _) as [p|] eqn:E; simpl.
  - apply (Forall_lookup_1 _ _ _ _ (dv_phys Hdv)) in E as [? ?].
    pose proof (Z.mod_pos_bound (a - vstart) PS). lia.
  - apply lookup_ge_None in E. unfold in_data, page_index in *.
    assert ((a - vstart) / PS < Z.of_nat (length phys)) by (apply Z.div_lt_upper_bound; lia).
    assert (0 <= (a - vstart) / PS) by (apply Z.div_pos; lia). lia.
Qed.

(** Every slice lies in the data and translates as the pages do. *)
Lemma slice_ok i s :
  tbl !! i = Some s ->
  0 < s_size s /\ vstart <= s_vaddr s /\ s_vaddr s + s_size s <= vstart + PS * Z.of_nat (length phys) /\
  0 <= s_paddr s /\ s_paddr s + s_size s < u32_mod /\
  s_vaddr s <= vstart + PS * Z.of_nat i < s_vaddr s + s_size s /\
  vstart + PS * Z.of_nat i + PS <= s_vaddr s + s_size s /\
  forall a, s_vaddr s <= a < s_vaddr s + s_size s ->
    in_data a /\ s_paddr s + (a - s_vaddr s) = translate a.
Proof.
  intros Hi. pose proof (dv_tbl Hdv i s Hi) as Hs. pose proof PS_pos as HP.
  assert (Htr : forall a, s_vaddr s <= a < s_vaddr s + s_size s ->
    in_data a /\ s_paddr s + (a - s_vaddr s) = translate a).
  { intros a Ha. destruct (slice_translate PS HP vstart phys i s a Hs Ha) as (Hin & p & Hp & He).
    split; [done|]. unfold translate, page_index. by rewrite Hp. }
  pose proof Hs as (k & m & p & Hk & Hm & -> & Hrun). simpl in *.
  pose proof (Forall_lookup_1 _ _ _ _ (dv_phys Hdv) (Hrun 0%nat ltac:(lia))) as [H1 _].
  pose proof (Forall_lookup_1 _ _ _ _ (dv_phys Hdv) (Hrun (m - 1)%nat ltac:(lia))) as [_ H2].
  replace (Z.of_nat (m - 1)) with (Z.of_nat m - 1) in H2 by lia.
  split_and!; try done; nia.
Qed.

Lemma slice_addr_data st a :
  tlb_inv st -> in_data a ->
  slice_addr c st a = Done (ptr + slice_len c * page_index a) /\
  exists s, tbl !! Z.to_nat (page_index a) = Some s /\
    s_vaddr s <= a <= s_vaddr s + s_size s - 1 /\
    Z.of_nat (Z.to_nat (page_index a)) = page_index a.
Proof.
  intros Hi Ha. pose proof PS_pos as HP. pose proof slice_len_pos as [_ Hlen].
  pose proof (dv_ptr Hdv) as [Hp0 Hp1]. unfold slice_addr. rewrite (ti_vstart _ Hi), (ti_ptr _ Hi).
  unfold in_data, page_index in *.
  assert (Hd0 : 0 <= (a - vstart) / PS) by (apply Z.div_pos; lia).
  assert (Hd1 : (a - vstart) / PS < Z.of_nat (length phys)) by (apply Z.div_lt_upper_bound; lia).
  destruct (Z.leb_spec vstart a); [|lia]. simpl.
  rewrite Z.shiftr_div_pow2 by apply Hdv. fold PS. split.
  - f_equal. unfold u64. rewrite (Z.mod_small (_ / _ * _)) by nia. rewrite Z.mod_small by nia. lia.
  - destruct (lookup_lt_is_Some_2 tbl (Z.to_nat ((a - vstart) / PS))) as [s Hs].
    { rewrite (dv_len Hdv). lia. }
    exists s. split; [done|]. rewrite Z2Nat.id by done. split; [|done].
    destruct (slice_ok _ _ Hs) as (_ & _ & _ & _ & _ & Hc & Hc' & _).
    rewrite Z2Nat.id in * by done. pose proof (Z.div_mod (a - vstart) PS ltac:(lia)).
    pose proof (Z.mod_pos_bound (a - vstart) PS HP). lia.
Qed.

(** [remap] of a data address: the right translation, or a miss. *)
Lemma remap_data now st a :
  tlb_inv st -> in_data a ->
  exists st', tlb_inv st' /\ originalRanges st' = originalRanges st /\
    pending_refills st' = pending_refills st /\
    match find_rule (originalRanges st) a 0 with
    | Some _ => remap now st a = Done (st', translate a)
    | None => remap now st a = Done (st', NO_ADDR)
    end.
Proof.
  intros Hi Ha. pose proof Hi as [(os & rs & Ho & Hr & Hf & Hl & Hc) Hp Hv Hpd Hpo].
  pose proof (dv_ptr Hdv) as [Hp0 _]. unfold remap.
  destruct (find_rule (originalRanges st) a 0) as [[i r]|] eqn:E.
  - destruct (find_rule_Some _ _ _ _ _ E) as (j & -> & Hj & Hct). rewrite Ho in Hj. simpl.
    destruct j as [|j]; simpl in Hj.
    { simplify_eq. rewrite (dv_static Hdv a Ha) in Hct. done. }
    destruct (Forall2_lookup_l _ _ _ _ _ Hf Hj) as (r' & Hr' & n & s & Hs & -> & ->).
    destruct (lookup_lt_is_Some_2 (lastUsed st) (S j)) as [u Hu].
    { apply lookup_lt_Some in Hj. lia. }
    rewrite bool_decide_true by lia. rewrite Hu. simpl. rewrite Hr. simpl. rewrite Hr'. simpl.
    unfold contains in Hct. simpl in Hct.
    destruct (slice_ok _ _ Hs) as (_ & _ & _ & _ & _ & _ & _ & Htr).
    destruct (Htr a) as [_ Hta]; [lia|]. pose proof (translate_bound a Ha).
    eexists. split; [|split; [|split; [|do 2 f_equal; rewrite <- Hta in *]]]; [|done..|].
    + split; simpl; try done. exists os, rs. split_and!; try done. by rewrite length_insert.
    + unfold u64. rewrite Z.mod_small; [lia|]. unfold u64_mod, u32_mod in *. lia.
  - rewrite Hp. destruct (Z.eqb_spec ptr 0); [lia|]. simpl. eexists.
    split; [|split; [|split; [|done]]]; [|done..]. split; simpl; try done. eauto 10.
Qed.

Lemma updateTLB_inv now st i s :
  tlb_inv st -> tbl !! i = Some s ->
  exists st', updateTLB c now st (s_vaddr s) (s_paddr s) (s_size s) = Done st' /\ tlb_inv st' /\
    pending_refills st' = pending_refills st /\
    forall a, s_vaddr s <= a <= s_vaddr s + s_size s - 1 ->
      is_Some (find_rule (originalRanges st') a 0).
Proof.
  intros [(os & rs & Ho & Hr & Hf & Hl & Hc) Hp Hv Hpd Hpo] Hs. pose proof (dv_size Hdv) as HT.
  destruct (slice_ok _ _ Hs) as (Hz & Hv0 & Hv1 & Hp0 & Hp1 & _ & _ & _).
  pose proof (dv_vstart Hdv) as [Hvs0 Hvs1].
  assert (Hu : forall z, 0 <= z < u32_mod -> u64 z = z).
  { intros z Hz'. unfold u64. apply Z.mod_small. unfold u64_mod, u32_mod in *. lia. }
  assert (Hlast : forall rules a, s_vaddr s <= a <= s_vaddr s + s_size s - 1 ->
    is_Some (find_rule (rules ++ [mkRange (s_vaddr s) (s_vaddr s + s_size s - 1)]) a 0)).
  { intros rules a Ha. destruct (find_rule _ a 0) eqn:E; [eauto|].
    apply (find_rule_None _ _ _ (length rules) (mkRange (s_vaddr s) (s_vaddr s + s_size s - 1))) in E;
      [|by apply list_lookup_middle].
    unfold contains in E. simpl in E. lia. }
  pose proof (Forall2_length _ _ _ Hf) as Hlr.
  unfold updateTLB. rewrite (Hu (s_vaddr s + s_size s - 1)), (Hu (s_paddr s + s_size s - 1)) by lia.
  replace (u64 (TLB_SIZE c)) with (TLB_SIZE c)
    by (symmetry; apply Z.mod_small; lia).
  destruct (Z.leb_spec (TLB_SIZE c) (Z.of_nat (length (originalRanges st)))) as [Hfull|Hfree].
  - rewrite Ho in Hfull. simpl in Hfull.
    destruct (lru_victim (lastUsed st)) as (min & Hmin & Hm & u & Hu' & _); [lia|].
    rewrite Hmin. simpl. set (m := lru_scan _ _ _ _) in *. rewrite Hu'. simpl.
    destruct m as [|m]; [lia|]. rewrite Ho, Hr. simpl.
    destruct (lookup_lt_is_Some_2 os m) as [o Hom]; [lia|]. rewrite Hom. simpl.
    destruct (lookup_lt_is_Some_2 rs m) as [r Hrm]; [lia|]. rewrite Hrm. simpl.
    eexists. split; [done|]. split; [|split; [done|]].
    + split; simpl; try done.
      exists (delete m os ++ [mkRange (s_vaddr s) (s_vaddr s + s_size s - 1)]),
             (delete m rs ++ [mkRange (s_paddr s) (s_paddr s + s_size s - 1)]).
      apply lookup_lt_Some in Hom as Hlt.
      rewrite !length_app, !length_delete by eauto. simpl.
      split_and!; try done; [|lia|lia].
      apply Forall2_app; [by apply Forall2_delete|]. constructor; [|done]. by exists i, s.
    + intros a Ha. simpl. apply (Hlast (r0 :: delete m os)). done.
  - simpl. eexists. split; [done|]. split; [|split; [done|]].
    + split; simpl; try done.
      exists (os ++ [mkRange (s_vaddr s) (s_vaddr s + s_size s - 1)]),
             (rs ++ [mkRange (s_paddr s) (s_paddr s + s_size s - 1)]).
      rewrite Ho, Hr in *. simpl in *. rewrite !length_app. simpl.
      split_and!; try done; [|lia|lia].
      apply Forall2_app; [done|]. constructor; [|done]. by exists i, s.
    + intros a Ha. simpl. by apply Hlast.
Qed.

(** A refill for a data address installs a rule that contains it. *)
Lemma refill_data now st a :
  tlb_inv st -> in_data a -> pending_refill st (ptr + slice_len c * page_index a) = false ->
  exists st', refillTLB_atomic c now mem st a = Done st' /\
    refillTLB_functional c now mem st a = Done st' /\
    tlb_inv st' /\ pending_refills st' = pending_refills st /\
    is_Some (find_rule (originalRanges st') a 0).
Proof.
  intros Hi Ha Hp. destruct (slice_addr_data st a Hi Ha) as (Hsa & s & Hs & Hin & Hid).
  destruct (updateTLB_inv now st _ s Hi Hs) as (st' & Hu & Hi' & Hpd & Hf).
  pose proof (dv_mem Hdv _ _ Hs) as Hm. rewrite Hid in Hm.
  exists st'. unfold refillTLB_atomic, refillTLB_functional. rewrite Hsa.
  cbn [mbind sim_bind]. rewrite Hp. cbn [negb check mbind sim_bind]. rewrite Hm. split_and!; auto.
Qed.

(** A packet that addresses no register of the TLB. *)
Definition plain (p : packet) : Prop :=
  p_addr p <> PIM_DTLB_IDEAL_REFILL_REG c /\ p_addr p <> HMC_ATOMIC_INCR c /\
  p_addr p <> HMC_ATOMIC_FADD c /\ p_addr p <> HMC_ATOMIC_IMIN c /\ p_addr p <> HMC_OPERAND c.

Lemma plain_refill p : plain p ->
  negb (PIM_DTLB_IDEAL_REFILL_REG c =? 0) && (p_addr p =? PIM_DTLB_IDEAL_REFILL_REG c) = false.
Proof.
  intros [H _]. destruct (Z.eqb_spec (p_addr p) (PIM_DTLB_IDEAL_REFILL_REG c)); [done|].
  apply andb_false_r.
Qed.

Lemma plain_hmc st p : plain p -> check_hmc_command c st p = Done (st, p, 0).
Proof.
  intros (_ & H1 & H2 & H3 & H4). unfold check_hmc_command.
  apply Z.eqb_neq in H1, H2, H3, H4. rewrite H1, H2, H3, H4. cbn. by destruct (p_addr p =? 0).
Qed.

Lemma atomic_data now st p :
  tlb_inv st -> plain p -> in_data (p_addr p) ->
  pending_refill st (ptr + slice_len c * page_index (p_addr p)) = false ->
  exists st', recvAtomic c now mem st p =
      Done (st', [MasterReq (setAddr p (translate (p_addr p)))], p) /\
    tlb_inv st' /\ pending_refills st' = pending_refills st.
Proof.
  intros Hi Hpl Ha Hpd. pose proof (translate_bound _ Ha) as Htb.
  assert (Hne : translate (p_addr p) =? NO_ADDR = false).
  { apply Z.eqb_neq. unfold NO_ADDR, u64_mod, u32_mod in *. lia. }
  assert (Hback : forall x, setAddr (setAddr p x) (p_addr p) = p) by by destruct p.
  unfold recvAtomic. rewrite plain_refill, (plain_hmc st p) by done.
  cbn [mbind sim_bind]. change (0 =? 0) with true. cbn beta iota.
  destruct (remap_data now st (p_addr p) Hi Ha) as (st1 & Hi1 & Ho1 & Hp1 & Hr1).
  destruct (find_rule (originalRanges st) (p_addr p) 0); rewrite Hr1; cbn [mbind sim_bind];
    cbn beta iota.
  - rewrite Hne. sim_step. rewrite Hback. eauto.
  - rewrite Z.eqb_refl.
    destruct (refill_data now st1 (p_addr p) Hi1 Ha) as (st2 & Hrf & _ & Hi2 & Hp2 & [x Hx]).
    { unfold pending_refill in *. by rewrite Hp1. }
    rewrite Hrf. sim_step.
    destruct (remap_data now st2 (p_addr p) Hi2 Ha) as (st3 & Hi3 & _ & Hp3 & Hr3).
    rewrite Hx in Hr3. rewrite Hr3. sim_step. rewrite Hne.
    sim_step. rewrite Hback. exists st3. split_and!; congruence.
Qed.

(** Timing mode: the request, and the request after it was refilled. *)
Lemma timing_hit now accept st p :
  tlb_inv st -> plain p -> in_data (p_addr p) -> IS_REMAPPED p = false ->
  is_Some (find_rule (originalRanges st) (p_addr p) 0) ->
  exists st', tlb_inv st' /\
    recvTimingReq c now mem accept st p =
    forward_req accept st' (set_remapped (setAddr p (translate (p_addr p)))) (p_addr p).
Proof.
  intros Hi Hpl Ha Hrm [x Hx]. pose proof (translate_bound _ Ha) as Htb.
  unfold recvTimingReq. rewrite plain_refill, Hrm, (plain_hmc st p) by done.
  cbn [mbind sim_bind]. change (0 =? 0) with true. cbn beta iota.
  destruct (remap_data now st (p_addr p) Hi Ha) as (st1 & Hi1 & _ & _ & Hr1).
  rewrite Hx in Hr1. rewrite Hr1. sim_step.
  assert (translate (p_addr p) =? NO_ADDR = false) as ->.
  { apply Z.eqb_neq. unfold NO_ADDR, u64_mod, u32_mod in *. lia. }
  eauto.
Qed.

Lemma timing_miss now st p :
  tlb_inv st -> plain p -> in_data (p_addr p) -> IS_REMAPPED p = false ->
  IDEAL_REFILL c = false -> find_rule (originalRanges st) (p_addr p) 0 = None ->
  pending_refill st (ptr + slice_len c * page_index (p_addr p)) = false ->
  exists st', tlb_inv st' /\
    pending_refills st' = pending_refills st ++ [ptr + slice_len c * page_index (p_addr p)] /\
    recvTimingReq c now mem true st p =
    Done (st', [MasterReq (refill_packet c (ptr + slice_len c * page_index (p_addr p)))], p, false).
Proof.
  intros Hi Hpl Ha Hrm Hid Hx Hpd.
  unfold recvTimingReq. rewrite plain_refill, Hrm, (plain_hmc st p), Hid by done.
  cbn [mbind sim_bind]. change (0 =? 0) with true. cbn beta iota.
  destruct (remap_data now st (p_addr p) Hi Ha) as (st1 & Hi1 & Ho1 & Hp1 & Hr1).
  rewrite Hx in Hr1. rewrite Hr1. sim_step. rewrite Z.eqb_refl.
  destruct (slice_addr_data st1 (p_addr p) Hi1 Ha) as (Hsa & s & Hs & _ & Hidx).
  unfold refillTLB_timing. rewrite Hsa. sim_step.
  assert (pending_refill st1 (ptr + slice_len c * page_index (p_addr p)) = false) as ->.
  { unfold pending_refill in *. by rewrite Hp1. }
  sim_step. rewrite Hp1.
  assert (Hnin : ptr + slice_len c * page_index (p_addr p) ∉ pending_refills st).
  { intros Hin. apply bool_decide_eq_false in Hpd. done. }
  eexists. split; [|split; [|done]]; [|done].
  destruct Hi1 as [Hrl Hptr Hvs Hnd Hok]. split; simpl; try done.
  - apply NoDup_app. rewrite Hp1 in Hnd. split_and!; [done|set_solver|apply NoDup_singleton].
  - intros q [Hq|Hq]%elem_of_app; [apply Hok; by rewrite Hp1|].
    apply list_elem_of_singleton in Hq as ->. exists (Z.to_nat (page_index (p_addr p))).
    split; [by eapply lookup_lt_Some|]. by rewrite Hidx.
Qed.

Lemma erase_first_NoDup a l : NoDup l -> NoDup (erase_first a l).
Proof.
  induction 1 as [|x l Hx Hn IH]; simpl; [constructor|]. destruct (x =? a); [done|].
  constructor; [|done]. intros Hin. apply Hx. clear -Hin. induction l as [|y l IH]; simpl in *; [done|].
  destruct (y =? a); set_solver.
Qed.

Lemma erase_first_sub a l x : x ∈ erase_first a l -> x ∈ l.
Proof. induction l as [|y l IH]; simpl; [done|]. destruct (y =? a); set_solver. Qed.

Lemma erase_first_gone a l : NoDup l -> a ∉ erase_first a l.
Proof.
  induction 1 as [|x l Hx Hn IH]; simpl; [set_solver|]. destruct (Z.eqb_spec x a) as [->|]; [done|].
  set_solver.
Qed.

(** The response to a refill request that the memory answers with the slice. *)
Definition refill_response (a : Z) : packet :=
  let '(v, pa, s) := read_slice c mem (ptr + slice_len c * page_index a) in
  mkPkt (ptr + slice_len c * page_index a) false (slice_len c) [v; pa; s] false false false
        HMC_NONE 0 [].

Lemma timing_refill now st a accept :
  tlb_inv st -> in_data a -> pending_refill st (ptr + slice_len c * page_index a) = true ->
  exists st', tlb_inv st' /\
    recvTimingResp c now accept st (refill_response a) =
      Done (st', [SlaveRetry], refill_response a, true) /\
    pending_refill st' (ptr + slice_len c * page_index a) = false /\
    is_Some (find_rule (originalRanges st') a 0).
Proof.
  intros Hi Ha Hpd. destruct (slice_addr_data st a Hi Ha) as (_ & s & Hs & Hin & Hid).
  pose proof (dv_mem Hdv _ _ Hs) as Hm. rewrite Hid in Hm.
  destruct (slice_ok _ _ Hs) as (Hz & Hv0 & Hv1 & Hp0 & Hp1 & _ & _ & _).
  pose proof (dv_vstart Hdv) as [Hvs0 Hvs1].
  assert (Hw : forall z, 0 <= z < u32_mod -> (if pim_arch c =? 32 then u32 z else u64 z) = z).
  { intros z Hz'. destruct (_ =? 32); [by apply u32_small|]. apply Z.mod_small.
    unfold u64_mod, u32_mod in *. lia. }
  unfold refill_response. rewrite Hm. unfold recvTimingResp. cbn [p_state p_size p_addr].
  rewrite Z.eqb_refl. cbn [check mbind sim_bind]. unfold remove_pending_refill. rewrite Hpd.
  cbn [check mbind sim_bind]. unfold data_word. cbn [p_data lookup list_lookup elem mbind sim_bind].
  rewrite !Hw by lia.
  set (st1 := set_pending st _).
  assert (Hi1 : tlb_inv st1).
  { destruct Hi as [Hrl Hptr Hvs Hnd Hok]. split; simpl; try done.
    - by apply erase_first_NoDup.
    - intros p Hp. apply Hok. by eapply erase_first_sub. }
  destruct (updateTLB_inv now st1 _ s Hi1 Hs) as (st' & Hu & Hi' & Hpd' & Hf).
  rewrite Hu. cbn [mbind sim_bind]. exists st'. split_and!; [done|done| |by apply Hf].
  unfold pending_refill. rewrite Hpd'. apply bool_decide_eq_false_2. apply erase_first_gone, Hi.
Qed.

End translation.

(** ** From the data sets of a task to the accesses of the device *)

(** The addresses to which a sequence of atomic accesses, each with its time, is
    sent. *)
Fixpoint atomic_run (c : tlb_conf) (mem : Z -> Z) (l : list (Z * packet)) (st : tlb)
    : sim (tlb * list Z) :=
  match l with
  | [] => Done (st, [])
  | (now, p) :: l' =>
      '(st1, acts, _) ← recvAtomic c now mem st p;
      '(st2, out) ← atomic_run c mem l' st1;
      Done (st2, omap (fun a => match a with MasterReq q => Some (p_addr q) | _ => None end) acts
                 ++ out)
  end.

Lemma atomic_run_data c mem phys tbl vstart ptr r0 r0' st l :
  device_ok c mem phys tbl vstart ptr r0 -> tlb_inv c tbl vstart ptr r0 r0' st ->
  pending_refills st = [] ->
  Forall (fun '(_, p) => plain c p /\ in_data c phys vstart (p_addr p)) l ->
  exists st', atomic_run c mem l st =
    Done (st', (fun '(_, p) => translate c phys vstart (p_addr p)) <$> l).
Proof.
  intros Hdv. revert st. induction l as [|[now p] l IH]; intros st Hi Hp Hf; simpl; [eauto|].
  apply Forall_cons in Hf as [[Hpl Ha] Hf].
  destruct (atomic_data c mem phys tbl vstart ptr r0 r0' Hdv now st p Hi Hpl Ha)
    as (st1 & Hr & Hi1 & Hp1).
  { unfold pending_refill. rewrite Hp. done. }
  rewrite Hr. sim_step.
  destruct (IH st1 Hi1) as (st2 & Hrun); [congruence|done|].
  exists st2. rewrite Hrun. done.
Qed.

(** The constructor and the writes of the driver to the slice registers establish
    the invariant. *)
Lemma tlb_inv_init c tbl vstart ptr r0 r0' v0 st cnt :
  2 <= TLB_SIZE c -> ethz_TLB [r0] [r0'] v0 = Done st ->
  tlb_inv c tbl vstart ptr r0 r0' (set_slices st ptr cnt vstart).
Proof.
  intros HT. unfold ethz_TLB. simpl. destruct (_ && _); simpl; [|done]. intros [= <-].
  split; simpl; try done.
  - exists [], []. simpl. split_and!; try done. lia.
  - constructor.
  - set_solver.
Qed.

(** The pages of a range, as the driver pins them, give the page table's
    translation. *)
Lemma translate_vm c vm start n a :
  0 <= OS_PAGE_SHIFT c -> 0 <= start -> 0 <= n -> start * PS c <= a < (start + n) * PS c ->
  translate c (pim_get_user_pages (PS c) vm (start * PS c) n) (start * PS c) a =
  vm (a / PS c) + a mod PS c.
Proof.
  intros HS H0 Hn Ha. assert (HP : 0 < PS c) by (by apply Z.pow_pos_nonneg).
  unfold translate, page_index, pim_get_user_pages.
  replace (a - start * PS c) with (a + - start * PS c) by lia.
  rewrite Z.div_add, Z.mod_add by lia.
  assert (Hd : start <= a / PS c < start + n).
  { split; [apply Z.div_le_lower_bound; lia|apply Z.div_lt_upper_bound; lia]. }
  rewrite list_lookup_fmap, lookup_seq_lt by lia. simpl. rewrite Z.div_mul by lia.
  do 2 f_equal. lia.
Qed.

(** The slice table at [ptr] in the memory of the device. *)
Definition table_at (c : tlb_conf) (mem : Z -> Z) (ptr : Z) (tbl : list Slice) : Prop :=
  forall i s, tbl !! i = Some s ->
    read_slice c mem (ptr + slice_len c * Z.of_nat i) = (s_vaddr s, s_paddr s, s_size s).

(** [q] is a page of one of the data sets. *)
Definition data_page (c : tlb_conf) (ds : list PIMData) (q : Z) : Prop :=
  exists d, d ∈ ds /\ touches (OS_PAGE_SHIFT c) q d.

(** An access to a byte of one of the data sets. *)
Definition data_access (c : tlb_conf) (ds : list PIMData) (p : packet) : Prop :=
  plain c p /\ exists d, d ∈ ds /\ v_addr d <= p_addr p < v_addr d + d_size d.

Lemma pinned_pages c vm ds p :
  0 <= OS_PAGE_SHIFT c -> range_ok p -> (forall q, in_range q p <-> data_page c ds q) ->
  (forall q, data_page c ds q -> phys_ok (PS c) (vm q)) ->
  let phys := pim_get_user_pages (PS c) vm (v_pn_start p * PS c) (pg_count p) in
  Z.of_nat (length phys) = pg_count p /\ Forall (phys_ok (PS c)) phys /\
  forall i, (i < length phys)%nat -> phys !! i = Some (vm (v_pn_start p + Z.of_nat i)).
Proof.
  intros HS (H1 & H2 & H3) Hq Hvm. assert (HP : 0 < PS c) by (by apply Z.pow_pos_nonneg).
  unfold pim_get_user_pages. rewrite length_fmap, length_seq, Z.div_mul by lia.
  split_and!; [lia| |].
  - apply Forall_fmap, Forall_forall. intros i Hi%elem_of_seq. simpl. apply Hvm, Hq.
    unfold in_range. lia.
  - intros i Hi. rewrite list_lookup_fmap, lookup_seq_lt by lia. done.
Qed.

(** The last two pages of the table are not contiguous, if there are two. *)
Definition no_tail_run (c : tlb_conf) (ds : list PIMData) (vm : Z -> Z) : Prop :=
  forall q, data_page c ds q -> data_page c ds (q + 1) -> ~ data_page c ds (q + 2) ->
    u32 (vm q + PS c) <> vm (q + 1).

Lemma tail_break c vm ds p :
  0 <= OS_PAGE_SHIFT c -> range_ok p -> (forall q, in_range q p <-> data_page c ds q) ->
  (forall q, data_page c ds q -> phys_ok (PS c) (vm q)) -> no_tail_run c ds vm ->
  let phys := pim_get_user_pages (PS c) vm (v_pn_start p * PS c) (pg_count p) in
  (length phys < 2)%nat \/ last_break (PS c) phys.
Proof.
  intros HS Hr Hq Hvm Hnt. destruct (pinned_pages c vm ds p HS Hr Hq Hvm) as (Hl & _ & Hat).
  cbn zeta in *. set (phys := pim_get_user_pages _ _ _ _) in *.
  destruct (decide (length phys < 2)%nat) as [|Hge]; [by left|right].
  assert (Hd1 : drop (length phys - 2) phys =
            [vm (v_pn_start p + Z.of_nat (length phys - 2));
             vm (v_pn_start p + Z.of_nat (length phys - 1))]).
  { rewrite (drop_S _ _ _ (Hat (length phys - 2)%nat ltac:(lia))). f_equal.
    replace (S (length phys - 2)) with (length phys - 1)%nat by lia.
    rewrite (drop_S _ _ _ (Hat (length phys - 1)%nat ltac:(lia))). f_equal.
    apply drop_ge. lia. }
  exists (take (length phys - 2) phys), (vm (v_pn_start p + Z.of_nat (length phys - 2))),
         (vm (v_pn_start p + Z.of_nat (length phys - 1))).
  split; [by rewrite <- Hd1, take_drop|].
  replace (v_pn_start p + Z.of_nat (length phys - 1))
    with (v_pn_start p + Z.of_nat (length phys - 2) + 1) by lia.
  destruct Hr as (Hr1 & Hr2 & Hr3).
  apply Hnt; [apply Hq; unfold in_range; lia|apply Hq; unfold in_range; lia|].
  rewrite <- Hq. unfold in_range. lia.
Qed.

Lemma data_access_page c ds p :
  0 <= OS_PAGE_SHIFT c -> data_access c ds p -> data_page c ds (p_addr p / PS c).
Proof.
  intros HS (_ & d & Hd & Ha). exists d. split; [done|].
  assert (HP : 0 < PS c) by (by apply Z.pow_pos_nonneg). unfold touches. fold (PS c).
  split; apply Z.div_le_mono; lia.
Qed.

(** The device that serves a range of pages meets its assumptions. *)
Lemma device_of_range c mem vm merge ds p tbl ptr r0 :
  pim_arch c = 32 -> 0 <= OS_PAGE_SHIFT c -> 2 <= TLB_SIZE c < u64_mod ->
  range_ok p -> (forall q, in_range q p <-> data_page c ds q) ->
  (forall q, data_page c ds q -> phys_ok (PS c) (vm q)) ->
  (v_pn_end p + 1) * PS c < u32_mod ->
  pim_create_slice_table (PS c) merge
    (pim_get_user_pages (PS c) vm (v_pn_start p * PS c) (pg_count p)) (v_pn_start p * PS c) = Ok tbl ->
  merge = false \/ no_tail_run c ds vm ->
  table_at c mem ptr tbl -> 0 < ptr -> ptr + slice_len c * pg_count p < u64_mod ->
  (forall q a, data_page c ds q -> a / PS c = q -> contains r0 a = false) ->
  device_ok c mem (pim_get_user_pages (PS c) vm (v_pn_start p * PS c) (pg_count p)) tbl
            (v_pn_start p * PS c) ptr r0.
Proof.
  intros Harch HS HT Hr Hq Hvm Hend Htbl Hm Hmem Hp0 Hp1 Hst.
  assert (HP : 0 < PS c) by (by apply Z.pow_pos_nonneg).
  destruct (pinned_pages c vm ds p HS Hr Hq Hvm) as (Hl & Hok & Hat). cbn zeta in *.
  pose proof (tail_break c vm ds p HS Hr Hq Hvm) as Htail. cbn zeta in *.
  set (phys := pim_get_user_pages _ _ _ _) in *. destruct Hr as (Hr1 & Hr2 & Hr3).
  assert (Hv : v_pn_start p * PS c + PS c * Z.of_nat (length phys) < u32_mod) by (rewrite Hl; nia).
  destruct (slice_loop_spec (PS c) HP merge (v_pn_start p * PS c) phys (S (length phys)) 0)
    as (tbl' & Ht & Hlen & Hs); [lia|done|nia|done|naive_solver|].
  unfold pim_create_slice_table in Htbl. rewrite Htbl in Ht. injection Ht as <-.
  split; try done.
  - by left.
  - nia.
  - by rewrite Hl.
  - lia.
  - intros a Ha. unfold in_data in Ha. rewrite Hl in Ha. apply (Hst (a / PS c)); [|done].
    apply Hq. unfold in_range. split; [apply Z.div_le_lower_bound; lia|].
    apply Zlt_succ_le. apply Z.div_lt_upper_bound; nia.
Qed.

(** ** Properties *)

(** C9: From a task to the accesses of the device.  Data sets that do not overlap
    and lie on contiguous pages are added to a task in any order and offloaded; the
    driver pins their pages and builds the slice table; with the table in memory and
    the registers set, the TLB of the device sends every sequence of plain accesses in atomic mode
    to bytes of the data sets to the physical addresses that the page table [vm] of
    the host process gives, whatever was replaced in between.  The device has 32-bit addresses and a TLB of at least two entries.  If the driver merges slices ([merge], the default),
    the last page of the data must not be in a run of physically contiguous pages ([no_tail_run]): otherwise the loop that merges reads past the end of the page list ([slice_table_overrun]). *)
Theorem pim_access_translates c vm merge debug off ds sreg :
  pim_arch c = 32 -> 0 <= OS_PAGE_SHIFT c -> 2 <= TLB_SIZE c < u64_mod ->
  Forall (data_ok (OS_PAGE_SHIFT c)) ds -> apart ds -> contiguous (OS_PAGE_SHIFT c) ds ->
  ds <> [] -> Forall (fun d => off <= v_addr d) ds ->
  (forall q, data_page c ds q -> phys_ok (PS c) (vm q) /\ (q + 1) * PS c < u32_mod) ->
  merge = false \/ no_tail_run c ds vm ->
  exists t1 t2 start n tbl sreg',
    add_all debug off PIMTask_new ds = Done t1 /\
    offload_task (OS_PAGE_SHIFT c) debug t1 sreg = Done (t2, [2; start; n], sreg') /\
    pim_ioctl_allocate (PS c) merge vm [2; start; n] = Ok (1, tbl) /\
    forall mem ptr r0 r0' v0 st accs,
      table_at c mem ptr tbl -> 0 < ptr -> ptr + slice_len c * n < u64_mod ->
      (forall q a, data_page c ds q -> a / PS c = q -> contains r0 a = false) ->
      ethz_TLB [r0] [r0'] v0 = Done st ->
      Forall (fun '(_, p) => data_access c ds p) accs ->
      exists st', atomic_run c mem accs (set_slices st ptr n start) =
        Done (st', (fun '(_, p) => vm (p_addr p / PS c) + p_addr p mod PS c) <$> accs).
Proof.
  intros Harch HS HT Hok [Hnd Hap] Hcont Hne Hoff Hvm Hm.
  assert (HP : 0 < PS c) by (by apply Z.pow_pos_nonneg).
  destruct (add_all_spec debug off ds PIMTask_new Hoff) as (t1 & H1 & Hp & Hs & Hv); [constructor|].
  simpl in Hp. rewrite app_nil_r in Hp.
  destruct (offload_task_spec (OS_PAGE_SHIFT c) debug t1 sreg HS)
    as (t2 & p & H2 & Hvp & Hr & Hq); try done.
  { by rewrite Hp. }
  { split; [by rewrite Hp|]. intros a b Ha Hb. rewrite Hp in Ha, Hb. auto. }
  { intros E. rewrite E in Hp. by apply Permutation_nil_l in Hp. }
  { intros a b q d e. setoid_rewrite Hp. apply Hcont. }
  assert (Hq' : forall q, in_range q p <-> data_page c ds q).
  { intros q. rewrite Hq. unfold data_page. by setoid_rewrite Hp. }
  pose proof Hr as (Hr1 & Hr2 & Hr3).
  assert (Hlast : (v_pn_end p + 1) * PS c < u32_mod).
  { apply Hvm, Hq'. unfold in_range. lia. }
  assert (Hvm' : forall q, data_page c ds q -> phys_ok (PS c) (vm q)) by (intros q ?; by apply Hvm).
  destruct (pinned_pages c vm ds p HS Hr Hq' Hvm') as (Hl & Hpok & _). cbn zeta in *.
  pose proof (tail_break c vm ds p HS Hr Hq' Hvm') as Htail. cbn zeta in *.
  set (phys := pim_get_user_pages _ _ _ _) in *.
  destruct (slice_loop_spec (PS c) HP merge (v_pn_start p * PS c) phys (S (length phys)) 0)
    as (tbl & Htbl & _ & _); [lia|done|nia|rewrite Hl; nia|naive_solver|].
  exists t1, t2, (v_pn_start p * PS c), (pg_count p), tbl, (send_pointers (data t1) sreg).
  split_and!; [done|done| |].
  { unfold pim_ioctl_allocate. cbn [lookup list_lookup of_opt mbind result_bind tail].
    change (Z.of_nat PIM_IOCTL_MAX_ARGS <? 2 + 1) with false. cbn beta iota.
    change (pin_ranges _ _ _ _) with phys. unfold pim_create_slice_table. by rewrite Htbl. }
  intros mem ptr r0 r0' v0 st accs Hmem Hp0 Hp1 Hst Hini Hacc.
  assert (Hdv : device_ok c mem phys tbl (v_pn_start p * PS c) ptr r0).
  { by eapply (device_of_range c mem vm merge ds p). }
  assert (Hpg : forall q, data_access c ds q ->
     v_pn_start p * PS c <= p_addr q < (v_pn_start p + pg_count p) * PS c).
  { intros q Hda. apply data_access_page, Hq' in Hda; [|done]. unfold in_range in Hda.
    pose proof (Z.div_mod (p_addr q) (PS c) ltac:(lia)).
    pose proof (Z.mod_pos_bound (p_addr q) (PS c) HP). nia. }
  destruct (atomic_run_data c mem phys tbl (v_pn_start p * PS c) ptr r0 r0'
              (set_slices st ptr (pg_count p) (v_pn_start p * PS c)) accs) as (st' & Hrun); [done|..].
  - eapply tlb_inv_init; [lia|done].
  - revert Hini. unfold ethz_TLB. simpl. destruct (_ && _); simpl; [|done]. by intros [= <-].
  - eapply Forall_impl; [exact Hacc|]. intros [now q] Hda. split; [apply Hda|].
    specialize (Hpg q Hda). unfold in_data. rewrite Hl. nia.
  - exists st'. rewrite Hrun. do 2 f_equal. apply list_fmap_ext. intros i [now q] Hi.
    apply translate_vm; [done|lia|lia|]. rewrite Forall_forall in Hacc.
    apply list_elem_of_lookup_2 in Hi. apply (Hpg q). exact (Hacc _ Hi).
Qed.

(** Replacement.  A TLB with free entries keeps all its rules and appends the
    new one; a full TLB gives up exactly one rule, which is not the first and was used
    no later than any other dynamic rule.  The number of rules never exceeds
    TLB_SIZE. *)
Theorem tlb_lru_replacement c now st v p s :
  2 <= TLB_SIZE c < u64_mod -> (1 <= length (originalRanges st))%nat ->
  length (remappedRanges st) = length (originalRanges st) ->
  length (lastUsed st) = length (originalRanges st) ->
  Z.of_nat (length (originalRanges st)) <= TLB_SIZE c ->
  let new_o := mkRange v (u64 (v + s - 1)) in
  let new_r := mkRange p (u64 (p + s - 1)) in
  exists st', updateTLB c now st v p s = Done st' /\
    Z.of_nat (length (originalRanges st')) <= TLB_SIZE c /\
    originalRanges st' !! 0%nat = originalRanges st !! 0%nat /\
    (Z.of_nat (length (originalRanges st)) < TLB_SIZE c ->
       originalRanges st' = originalRanges st ++ [new_o] /\
       remappedRanges st' = remappedRanges st ++ [new_r]) /\
    (Z.of_nat (length (originalRanges st)) = TLB_SIZE c ->
       exists m u, (1 <= m)%nat /\ lastUsed st !! m = Some u /\
         (forall j w, (1 <= j)%nat -> lastUsed st !! j = Some w -> u <= w) /\
         originalRanges st' = delete m (originalRanges st) ++ [new_o] /\
         remappedRanges st' = delete m (remappedRanges st) ++ [new_r] /\
         lastUsed st' = delete m (lastUsed st) ++ [now]).
Proof.
  intros HT H1 Hr Hl Hc. cbn zeta. unfold updateTLB.
  replace (u64 (TLB_SIZE c)) with (TLB_SIZE c) by (symmetry; apply Z.mod_small; lia).
  destruct (Z.leb_spec (TLB_SIZE c) (Z.of_nat (length (originalRanges st)))) as [Hfull|Hfree].
  - destruct (lru_victim (lastUsed st)) as (min & Hmin & Hm & u & Hu & Hall); [lia|].
    rewrite Hmin. simpl. cbn zeta in *. set (m := lru_scan _ _ _ _) in *. rewrite Hu. simpl.
    destruct (lookup_lt_is_Some_2 (originalRanges st) m) as [o Ho]; [lia|].
    destruct (lookup_lt_is_Some_2 (remappedRanges st) m) as [r Hr']; [lia|].
    rewrite Ho, Hr'. simpl. eexists. split; [done|]. simpl. split_and!.
    + rewrite length_app, length_delete by eauto. simpl. lia.
    + rewrite lookup_app_l by (rewrite length_delete by eauto; lia).
      by rewrite list_lookup_delete_lt by lia.
    + lia.
    + intros _. exists m, u. split_and!; try done; lia.
  - simpl. eexists. split; [done|]. simpl. split_and!.
    + rewrite length_app. simpl. lia.
    + by rewrite lookup_app_l by lia.
    + done.
    + lia.
Qed.

(** A miss in timing mode.  The request is refused and one read of the right
    slice is sent; the same request, repeated while the read is in flight, is refused
    without another read; the response installs the slice and asks for a retry; the
    request is then forwarded with the translated address, and its response carries
    the original address and sender states again. *)
Theorem tlb_timing_miss_retry c mem phys tbl vstart ptr r0 r0' st p now :
  device_ok c mem phys tbl vstart ptr r0 -> tlb_inv c tbl vstart ptr r0 r0' st ->
  plain c p -> in_data c phys vstart (p_addr p) -> IS_REMAPPED p = false ->
  p_needs_response p = true -> p_inhibited p = false -> IDEAL_REFILL c = false ->
  find_rule (originalRanges st) (p_addr p) 0 = None ->
  pending_refill st (ptr + slice_len c * page_index c vstart (p_addr p)) = false ->
  let sa := ptr + slice_len c * page_index c vstart (p_addr p) in
  exists st1 st2 st3 q,
    recvTimingReq c now mem true st p = Done (st1, [MasterReq (refill_packet c sa)], p, false) /\
    (exists st1', recvTimingReq c now mem true st1 p = Done (st1', [], p, false)) /\
    recvTimingResp c now true st1 (refill_response c mem vstart ptr (p_addr p)) =
      Done (st2, [SlaveRetry], refill_response c mem vstart ptr (p_addr p), true) /\
    recvTimingReq c now mem true st2 p = Done (st3, [MasterReq q], q, true) /\
    p_addr q = translate c phys vstart (p_addr p) /\
    exists q', recvTimingResp c now true st3 q = Done (st3, [SlaveResp q'], q', true) /\
      p_addr q' = p_addr p /\ p_state q' = p_state p.
Proof.
  intros Hdv Hi Hpl Ha Hrm Hnr Hin Hid Hx Hpd. cbn zeta.
  set (sa := ptr + slice_len c * page_index c vstart (p_addr p)) in *.
  destruct (timing_miss c mem phys tbl vstart ptr r0 r0' Hdv now st p) as (st1 & Hi1 & Hp1 & H1);
    try done. fold sa in Hp1, H1.
  assert (Hpend : pending_refill st1 sa = true).
  { unfold pending_refill. rewrite Hp1. apply bool_decide_eq_true. set_solver. }
  assert (Ho1 : find_rule (originalRanges st1) (p_addr p) 0 = None).
  { revert H1. unfold recvTimingReq. rewrite (plain_refill c p Hpl), Hrm, (plain_hmc c st p Hpl), Hid.
    cbn [mbind sim_bind]. change (0 =? 0) with true. cbn beta iota.
    destruct (remap_data c mem phys tbl vstart ptr r0 r0' Hdv now st (p_addr p) Hi Ha)
      as (s1 & Hs1 & Hos1 & Hps1 & Hrs1). rewrite Hx in Hrs1. rewrite Hrs1.
    sim_step. rewrite Z.eqb_refl.
    destruct (slice_addr_data c mem phys tbl vstart ptr r0 r0' Hdv s1 (p_addr p) Hs1 Ha) as (Hsa & _).
    unfold refillTLB_timing. rewrite Hsa. sim_step. fold sa.
    replace (pending_refill s1 sa) with false by (unfold pending_refill in *; by rewrite Hps1).
    intros [= <-]. simpl. by rewrite Hos1. }
  destruct (timing_refill c mem phys tbl vstart ptr r0 r0' Hdv now st1 (p_addr p) true Hi1 Ha Hpend)
    as (st2 & Hi2 & H2 & _ & Hf2).
  destruct (timing_hit c mem phys tbl vstart ptr r0 r0' Hdv now true st2 p Hi2 Hpl Ha Hrm Hf2)
    as (st3 & _ & H3).
  eexists st1, st2, st3, _. split; [exact H1|]. split; [|split; [exact H2|]].
  - unfold recvTimingReq. rewrite (plain_refill c p Hpl), Hrm, (plain_hmc c st1 p Hpl), Hid.
    cbn [mbind sim_bind]. change (0 =? 0) with true. cbn beta iota.
    destruct (remap_data c mem phys tbl vstart ptr r0 r0' Hdv now st1 (p_addr p) Hi1 Ha)
      as (s1 & Hs1 & Hos1 & Hps1 & Hrs1). rewrite Ho1 in Hrs1. rewrite Hrs1.
    sim_step. rewrite Z.eqb_refl.
    destruct (slice_addr_data c mem phys tbl vstart ptr r0 r0' Hdv s1 (p_addr p) Hs1 Ha) as (Hsa & _).
    unfold refillTLB_timing. rewrite Hsa. sim_step. fold sa.
    replace (pending_refill s1 sa) with true by (unfold pending_refill in *; by rewrite Hps1).
    eexists. done.
  - rewrite H3. unfold forward_req. cbn. rewrite Hnr, Hin. cbn. split_and!; [done..|].
    eexists. split; [done|]. by destruct p.
Qed.

(** A request that hits but is refused by the master port loses its address: the
    retried packet is already remapped, so the address it saves for the response is
    the physical one, and the response that reaches the processor carries the
    physical instead of the original address. *)
Theorem tlb_retry_loses_address c mem phys tbl vstart ptr r0 r0' st p now :
  device_ok c mem phys tbl vstart ptr r0 -> tlb_inv c tbl vstart ptr r0 r0' st ->
  plain c p -> in_data c phys vstart (p_addr p) -> IS_REMAPPED p = false ->
  p_needs_response p = true -> p_inhibited p = false ->
  is_Some (find_rule (originalRanges st) (p_addr p) 0) ->
  translate c phys vstart (p_addr p) <> PIM_DTLB_IDEAL_REFILL_REG c ->
  exists st1 p1 st2 p2 p3,
    recvTimingReq c now mem false st p = Done (st1, [MasterReq (set_senders p1 (Some (p_addr p) :: p_state p))], p1, false) /\
    recvTimingReq c now mem true st1 p1 = Done (st2, [MasterReq p2], p2, true) /\
    recvTimingResp c now true st2 p2 = Done (st2, [SlaveResp p3], p3, true) /\
    p_addr p3 = translate c phys vstart (p_addr p).
Proof.
  intros Hdv Hi Hpl Ha Hrm Hnr Hin Hf Hreg.
  destruct (timing_hit c mem phys tbl vstart ptr r0 r0' Hdv now false st p Hi Hpl Ha Hrm Hf)
    as (st1 & _ & H1).
  set (a' := translate c phys vstart (p_addr p)) in *.
  unfold forward_req in H1. cbn in H1. rewrite Hnr, Hin in H1. cbn in H1.
  eexists st1, (set_remapped (setAddr p a')), st1, _, _. split_and!.
  - rewrite H1. destruct p; reflexivity.
  - unfold recvTimingReq.
    replace (_ && _) with false by (symmetry; apply andb_false_iff; right; by apply Z.eqb_neq).
    cbn [IS_REMAPPED set_remapped]. unfold forward_req. cbn. rewrite Hnr, Hin. cbn. reflexivity.
  - cbn. reflexivity.
  - reflexivity.
Qed.

(** An atomic HMC command in atomic mode whose target is not in the TLB stops
    the simulation: [recvAtomic] refills for the address of the command register
    instead of the target, and the register lies below the slices. *)
Theorem tlb_hmc_atomic_miss c mem phys tbl vstart ptr r0 r0' st p now t :
  device_ok c mem phys tbl vstart ptr r0 -> tlb_inv c tbl vstart ptr r0 r0' st ->
  p_addr p = HMC_ATOMIC_INCR c -> p_write p = true -> p_size p = pim_arch c / 8 ->
  0 < HMC_ATOMIC_INCR c < vstart ->
  HMC_ATOMIC_INCR c <> PIM_DTLB_IDEAL_REFILL_REG c -> HMC_ATOMIC_INCR c <> HMC_OPERAND c ->
  p_data p = [t] -> in_data c phys vstart t -> find_rule (originalRanges st) t 0 = None ->
  recvAtomic c now mem st p = Halt.
Proof.
  intros Hdv Hi Hp Hw Hs Hr Hn1 Hn2 Hd Ht Hf. unfold recvAtomic.
  apply Z.eqb_neq in Hn1, Hn2.
  pose proof (dv_vstart _ _ _ _ _ _ _ Hdv) as [Hv0 Hv1].
  assert (Htw : (if pim_arch c =? 32 then u32 t else u64 t) = t).
  { unfold in_data in Ht. destruct (_ =? 32); [apply u32_small; unfold is_u32; lia|].
    apply Z.mod_small. unfold u64_mod, u32_mod in *. lia. }
  assert (Hck : check_hmc_command c st p = Done (st, set_hmc p HMC_CMD_INC (ATOMIC_HMC_OPERAND p), t)).
  { unfold check_hmc_command. rewrite Hp. destruct (Z.eqb_spec (HMC_ATOMIC_INCR c) 0); [lia|].
    rewrite Z.eqb_refl, Hw. cbn [andb]. unfold hmc_branch, hmc_target, data_word.
    rewrite Hs, Z.eqb_refl, Hd. cbn [check mbind sim_bind lookup list_lookup elem]. rewrite Htw.
    unfold in_data in Ht. destruct (Z.eqb_spec t NO_ADDR) as [E|]; [exfalso; unfold NO_ADDR, u64_mod, u32_mod in *; lia|].
    cbn [negb check mbind sim_bind]. destruct (Z.eqb_spec t 0); [lia|]. cbn.
    by rewrite Hn2. }
  rewrite Hp, Hn1, andb_false_r, Hck. sim_step.
  destruct (Z.eqb_spec t 0); [unfold in_data in Ht; lia|].
  destruct (remap_data c mem phys tbl vstart ptr r0 r0' Hdv now st t Hi Ht)
    as (s1 & Hs1 & _ & _ & Hrs1). rewrite Hf in Hrs1. rewrite Hrs1.
  sim_step. rewrite Z.eqb_refl.
  unfold refillTLB_atomic, slice_addr. rewrite (ti_vstart _ _ _ _ _ _ _ Hs1).
  destruct (Z.leb_spec vstart (HMC_ATOMIC_INCR c)); [lia|]. done.
Qed.

(** ** Instances of the properties *)

(** A TLB with two entries, a task on the pages 2 and 3. *)
Definition demo_conf : tlb_conf := mkConf 12 2 false 0x100 0x200 0x204 0x208 0x20c 32.
Definition demo_task : list PIMData := [mkData 0x3010 16 1; mkData 0x2000 0x1000 0].
Definition demo_vm (q : Z) : Z := if q =? 2 then 0x80000 else 0x90000.
Definition demo_slices : list Slice :=
  [mkSlice 0x2000 0x80000 0x1000; mkSlice 0x3000 0x90000 0x1000].
Definition demo_mem (a : Z) : Z :=
  default 0 ([0x2000; 0x80000; 0x1000; 0x3000; 0x90000; 0x1000] !! Z.to_nat ((a - 0x5000) / 4)).
Definition demo_r0 : AddrRange := mkRange 0 0xfff.
Definition demo_r0' : AddrRange := mkRange 0x40000000 0x40000fff.
Definition demo_read (a : Z) : packet := mkPkt a false 4 [] true false false HMC_NONE 0 [].

Lemma demo_pages q : data_page demo_conf demo_task q <-> 2 <= q <= 3.
Proof.
  unfold data_page, touches. split.
  - intros (d & Hd & H). unfold demo_task in Hd.
    apply elem_of_cons in Hd as [->|[->|[]%not_elem_of_nil]%elem_of_cons];
      [change (3 <= q <= 3) in H|change (2 <= q <= 2) in H]; lia.
  - intros Hq. destruct (decide (q = 2)) as [->|].
    + exists (mkData 0x2000 0x1000 0). split; [set_solver|]. vm_compute. split; discriminate.
    + exists (mkData 0x3010 16 1). split; [set_solver|]. replace q with 3 by lia.
      vm_compute. split; discriminate.
Qed.

Lemma demo_table : table_at demo_conf demo_mem 0x5000 demo_slices.
Proof. intros [|[|i]] s; [intros [= <-]; reflexivity..|]. by destruct i. Qed.

Lemma demo_static q a : data_page demo_conf demo_task q -> a / PS demo_conf = q ->
  contains demo_r0 a = false.
Proof.
  intros Hq%demo_pages Ha. unfold contains, demo_r0. simpl. change (PS demo_conf) with 4096 in Ha.
  pose proof (Z.div_mod a 4096 ltac:(lia)). pose proof (Z.mod_pos_bound a 4096 ltac:(lia)). lia.
Qed.

Lemma demo_frames q : data_page demo_conf demo_task q ->
  phys_ok (PS demo_conf) (demo_vm q) /\ (q + 1) * PS demo_conf < u32_mod.
Proof.
  intros Hq%demo_pages. change (PS demo_conf) with 4096. unfold phys_ok, demo_vm, u32_mod.
  destruct (q =? 2); lia.
Qed.

Lemma demo_apart : apart demo_task.
Proof. apply apart_check; apply (bool_decide_unpack _); vm_compute; exact I. Qed.

Lemma demo_contiguous : contiguous (OS_PAGE_SHIFT demo_conf) demo_task.
Proof.
  intros a b q d e Hd He Ha Hb Hq.
  assert (data_page demo_conf demo_task a) as H1%demo_pages by (by exists d).
  assert (data_page demo_conf demo_task b) as H2%demo_pages by (by exists e).
  apply demo_pages. lia.
Qed.

Lemma pim_access_translates_witness :
  exists tbl st', pim_ioctl_allocate 4096 true demo_vm [2; 0x2000; 2] = Ok (1, tbl) /\
    atomic_run demo_conf demo_mem [(1, demo_read 0x2004); (2, demo_read 0x3010); (3, demo_read 0x2008)]
      (set_slices (mkTLB [demo_r0] [demo_r0'] [NO_ADDR] [] 0 0 7 0 [] 0 0 0) 0x5000 2 0x2000) =
    Done (st', [0x80004; 0x90010; 0x80008]).
Proof.
  destruct (pim_access_translates demo_conf demo_vm true true 0x1000 demo_task ∅)
    as (t1 & t2 & start & n & tbl & sreg & H1 & H2 & H3 & H4).
  - reflexivity.
  - vm_compute. discriminate.
  - vm_compute. split; [discriminate|reflexivity].
  - repeat constructor; vm_compute; try discriminate; reflexivity.
  - exact demo_apart.
  - exact demo_contiguous.
  - discriminate.
  - repeat constructor; vm_compute; discriminate.
  - exact demo_frames.
  - right. intros q Hq%demo_pages Hq1%demo_pages _. replace q with 2 by lia. vm_compute. discriminate.
  - vm_compute in H1. injection H1 as <-. vm_compute in H2. injection H2 as _ <- <- _.
    vm_compute in H3. injection H3 as <-.
    destruct (H4 demo_mem 0x5000 demo_r0 demo_r0' 7 (mkTLB [demo_r0] [demo_r0'] [NO_ADDR] [] 0 0 7 0 [] 0 0 0)
       [(1, demo_read 0x2004); (2, demo_read 0x3010); (3, demo_read 0x2008)]) as (st' & Hst').
    + exact demo_table.
    + lia.
    + vm_compute. reflexivity.
    + exact demo_static.
    + reflexivity.
    + repeat constructor; try (vm_compute; discriminate).
      * exists (mkData 0x2000 0x1000 0). split; [set_solver|]. vm_compute. split; [discriminate|reflexivity].
      * exists (mkData 0x3010 16 1). split; [set_solver|]. vm_compute. split; [discriminate|reflexivity].
      * exists (mkData 0x2000 0x1000 0). split; [set_solver|]. vm_compute. split; [discriminate|reflexivity].
    + exists demo_slices, st'. split; [vm_compute; reflexivity|]. exact Hst'.
Defined.

Definition demo_frames_list : list Z := [0x80000; 0x90000].

Lemma demo_device : device_ok demo_conf demo_mem demo_frames_list demo_slices 0x2000 0x5000 demo_r0.
Proof.
  split; try done.
  - by left.
  - repeat constructor; vm_compute; discriminate.
  - intros [|[|i]] s; [| |by destruct i]; intros [= <-].
    + exists 0%nat, 1%nat, 0x80000. split_and!; [lia|lia|simpl; lia|done|].
      intros [|m] ?; [reflexivity|lia].
    + exists 1%nat, 1%nat, 0x90000. split_and!; [lia|lia|simpl; lia|done|].
      intros [|m] ?; [reflexivity|lia].
  - exact demo_table.
  - intros a Ha. unfold in_data in Ha. change (PS demo_conf) with 4096 in Ha. simpl in Ha.
    unfold contains, demo_r0. simpl. lia.
Qed.

(** Before and after the first slice was loaded. *)
Definition demo_empty : tlb :=
  mkTLB [demo_r0] [demo_r0'] [NO_ADDR] [] 0x5000 2 0x2000 0 [] 0 0 0.
Definition demo_loaded : tlb :=
  mkTLB [demo_r0; mkRange 0x2000 0x2fff] [demo_r0'; mkRange 0x80000 0x80fff] [NO_ADDR; 5] []
        0x5000 2 0x2000 0 [] 0 0 0.

Lemma demo_empty_inv : tlb_inv demo_conf demo_slices 0x2000 0x5000 demo_r0 demo_r0' demo_empty.
Proof.
  split; try done.
  - exists [], []. split_and!; try done.
  - constructor.
  - set_solver.
Qed.

Lemma demo_loaded_inv : tlb_inv demo_conf demo_slices 0x2000 0x5000 demo_r0 demo_r0' demo_loaded.
Proof.
  split; try done.
  - exists [mkRange 0x2000 0x2fff], [mkRange 0x80000 0x80fff]. split_and!; try done.
    constructor; [|done]. by exists 0%nat, (mkSlice 0x2000 0x80000 0x1000).
  - constructor.
  - set_solver.
Qed.

Lemma demo_plain a : 0x2000 <= a -> plain demo_conf (demo_read a).
Proof. intros H. unfold plain. simpl. lia. Qed.

Lemma demo_in_data a : 0x2000 <= a < 0x4000 -> in_data demo_conf demo_frames_list 0x2000 a.
Proof. intros H. unfold in_data. change (PS demo_conf) with 4096. simpl. lia. Qed.

Lemma tlb_lru_replacement_witness :
  exists st', updateTLB demo_conf 9 demo_loaded 0x3000 0x90000 0x1000 = Done st' /\
    originalRanges st' = [demo_r0; mkRange 0x3000 0x3fff].
Proof.
  destruct (tlb_lru_replacement demo_conf 9 demo_loaded 0x3000 0x90000 0x1000)
    as (st' & H & _).
  - vm_compute. split; [discriminate|reflexivity].
  - simpl. lia.
  - reflexivity.
  - reflexivity.
  - vm_compute. discriminate.
  - exists st'. split; [exact H|]. vm_compute in H. injection H as <-. reflexivity.
Defined.

Lemma tlb_timing_miss_retry_witness :
  exists st1 st2 st3 q,
    recvTimingReq demo_conf 1 demo_mem true demo_empty (demo_read 0x3010) =
      Done (st1, [MasterReq (refill_packet demo_conf 0x500c)], demo_read 0x3010, false) /\
    recvTimingResp demo_conf 1 true st1 (refill_response demo_conf demo_mem 0x2000 0x5000 0x3010) =
      Done (st2, [SlaveRetry], refill_response demo_conf demo_mem 0x2000 0x5000 0x3010, true) /\
    recvTimingReq demo_conf 1 demo_mem true st2 (demo_read 0x3010) = Done (st3, [MasterReq q], q, true) /\
    p_addr q = 0x90010.
Proof.
  destruct (tlb_timing_miss_retry demo_conf demo_mem demo_frames_list demo_slices 0x2000 0x5000
              demo_r0 demo_r0' demo_empty (demo_read 0x3010) 1)
    as (st1 & st2 & st3 & q & H1 & _ & H2 & H3 & H4 & _).
  - exact demo_device.
  - exact demo_empty_inv.
  - apply demo_plain. lia.
  - apply demo_in_data. simpl. lia.
  - reflexivity.
  - reflexivity.
  - reflexivity.
  - reflexivity.
  - reflexivity.
  - reflexivity.
  - exists st1, st2, st3, q. split_and!; [exact H1|exact H2|exact H3|exact H4].
Defined.

Lemma tlb_retry_loses_address_witness :
  exists st1 p1 st2 p2 p3,
    recvTimingReq demo_conf 6 demo_mem false demo_loaded (demo_read 0x2004) =
      Done (st1, [MasterReq (set_senders p1 [Some 0x2004])], p1, false) /\
    recvTimingReq demo_conf 6 demo_mem true st1 p1 = Done (st2, [MasterReq p2], p2, true) /\
    recvTimingResp demo_conf 6 true st2 p2 = Done (st2, [SlaveResp p3], p3, true) /\
    p_addr p3 = 0x80004.
Proof.
  apply (tlb_retry_loses_address demo_conf demo_mem demo_frames_list demo_slices 0x2000 0x5000
              demo_r0 demo_r0' demo_loaded (demo_read 0x2004) 6).
  - exact demo_device.
  - exact demo_loaded_inv.
  - apply demo_plain. lia.
  - apply demo_in_data. simpl. lia.
  - reflexivity.
  - reflexivity.
  - reflexivity.
  - vm_compute. eauto.
  - vm_compute. discriminate.
Defined.

Lemma tlb_hmc_atomic_miss_witness :
  recvAtomic demo_conf 6 demo_mem demo_loaded
    (mkPkt 0x200 true 4 [0x3010] true false false HMC_NONE 0 []) = Halt.
Proof.
  apply (tlb_hmc_atomic_miss demo_conf demo_mem demo_frames_list demo_slices 0x2000 0x5000
              demo_r0 demo_r0' demo_loaded _ 6 0x3010).
  - exact demo_device.
  - exact demo_loaded_inv.
  - reflexivity.
  - reflexivity.
  - reflexivity.
  - vm_compute. split; reflexivity.
  - vm_compute. discriminate.
  - vm_compute. discriminate.
  - reflexivity.
  - apply demo_in_data. lia.
  - reflexivity.
Defined.
