(* ===== verification/PimDma.v ===== *)
(** * The DMA engine of the PIM device

    Models src/SMC/GEM5/gem5/src/dev/ethz_dma.cc and ethz_dma.hh: the list of
    requests, the state machine [nextState], which splits a request into transfers
    that stay inside one slice of the TLB, the start of requests, and the accounting
    of responses.  The theorems show that a request is transferred byte by byte to
    the right places, that the busy bits match the requests, and three situations in
    which a request is not served. *)

From S2P Require Import Prelude PimTask Tlb.

(** ** Requests *)

Record DMARequest := mkReq {
  vreg_ptr : Z;
  mem_vstart : Z;
  mem_vend : Z;
  dma_resource : Z;
  RW : bool;
  mem_pstart : list Z;
  mem_pend : list Z;
  bytes_expected : Z;
  bytes_completed : Z;
  issued : bool;
}.

Definition DMARequest_new (vreg start num_bytes : Z) (dir : bool) (res : Z) : DMARequest :=
  mkReq vreg start (u64 (start + num_bytes - 1)) res dir [] [] num_bytes 0 false.

(** [nextSubRequest]: moves on to [vaddr]; [false] if the request is over. *)
Definition nextSubRequest (r : DMARequest) (vaddr : Z) : sim (DMARequest * bool) :=
  _ ← check (mem_vstart r <=? vaddr);
  if mem_vend r <=? vaddr then Done (r, false)
  else
    let diff := vaddr - mem_vstart r in
    Done (mkReq (vreg_ptr r + diff) (mem_vstart r + diff) (mem_vend r) (dma_resource r) (RW r)
                (mem_pstart r) (mem_pend r) (bytes_expected r) (bytes_completed r) (issued r),
          true).

Definition mark_issued (r : DMARequest) : DMARequest :=
  mkReq (vreg_ptr r) (mem_vstart r) (mem_vend r) (dma_resource r) (RW r) (mem_pstart r)
        (mem_pend r) (bytes_expected r) (bytes_completed r) true.
Definition add_range (r : DMARequest) (ps pe : Z) : DMARequest :=
  mkReq (vreg_ptr r) (mem_vstart r) (mem_vend r) (dma_resource r) (RW r) (mem_pstart r ++ [ps])
        (mem_pend r ++ [pe]) (bytes_expected r) (bytes_completed r) (issued r).
Definition add_completed (r : DMARequest) (n : Z) : DMARequest :=
  mkReq (vreg_ptr r) (mem_vstart r) (mem_vend r) (dma_resource r) (RW r) (mem_pstart r)
        (mem_pend r) (bytes_expected r) (u64 (bytes_completed r + n)) (issued r).

(** ** The engine *)

Inductive dma_state := DMA_STATE_IDLE | DMA_STATE_TLBREFILL | DMA_STATE_TRANSFER.

(** [free_events] is the number of unused [DmaDoneEvent]s; the TLB belongs to the
    processor of the device and is shared with it. *)
Record dma := mkDMA {
  requests : list DMARequest;
  current_index : Z;
  current_state : dma_state;
  next_state_scheduled : bool;
  dma_resources : Z;
  free_events : nat;
  dtlb : tlb;
}.

Definition set_requests (st : dma) (l : list DMARequest) : dma :=
  mkDMA l (current_index st) (current_state st) (next_state_scheduled st) (dma_resources st)
        (free_events st) (dtlb st).
Definition set_state (st : dma) (s : dma_state) : dma :=
  mkDMA (requests st) (current_index st) s (next_state_scheduled st) (dma_resources st)
        (free_events st) (dtlb st).
Definition set_index (st : dma) (i : Z) : dma :=
  mkDMA (requests st) i (current_state st) (next_state_scheduled st) (dma_resources st)
        (free_events st) (dtlb st).
Definition set_scheduled (st : dma) (b : bool) : dma :=
  mkDMA (requests st) (current_index st) (current_state st) b (dma_resources st)
        (free_events st) (dtlb st).
Definition set_resources (st : dma) (r : Z) : dma :=
  mkDMA (requests st) (current_index st) (current_state st) (next_state_scheduled st) r
        (free_events st) (dtlb st).
Definition set_events (st : dma) (n : nat) : dma :=
  mkDMA (requests st) (current_index st) (current_state st) (next_state_scheduled st)
        (dma_resources st) n (dtlb st).
Definition set_dtlb (st : dma) (t : tlb) : dma :=
  mkDMA (requests st) (current_index st) (current_state st) (next_state_scheduled st)
        (dma_resources st) (free_events st) t.

Definition maxOutstandingDma : nat := 16.

Definition ethz_DMA (t : tlb) : dma :=
  mkDMA [] (-1) DMA_STATE_IDLE false 0 maxOutstandingDma t.

(** What the engine does to the other components. *)
Inductive daction :=
  | DmaAction (read : bool) (paddr len vreg : Z)
  | ScheduleNext
  | PostInterrupt
  | ClearInterrupt
  | WriteStatus (v : Z).

(** [requests[i]] *)
Definition request_at (st : dma) (i : Z) : sim DMARequest :=
  if i <? 0 then Wild else elem (requests st !! Z.to_nat i).

Definition update_request (st : dma) (i : Z) (r : DMARequest) : dma :=
  set_requests st (<[Z.to_nat i := r]> (requests st)).

(** The first request that was not issued. *)
Fixpoint first_unissued (l : list DMARequest) (i : Z) : Z :=
  match l with
  | [] => -1
  | r :: l' => if issued r then first_unissued l' (i + 1) else i
  end.

Section engine.
Context (c : tlb_conf) (now : Z) (mem : Z -> Z) (isTimingMode : bool).

(** State TLBREFILL for the request [r] at [current_index]. *)
Definition state_refill (st : dma) (r : DMARequest) : sim dma :=
  let st1 := update_request st (current_index st) (mark_issued r) in
  if mem_vstart r <? mem_vend r then
    pa ← remap_check (dtlb st1) (mem_vstart r);
    t ← (if pa =? NO_ADDR then
           if isTimingMode then refillTLB_functional c now mem (dtlb st1) (mem_vstart r)
           else refillTLB_atomic c now mem (dtlb st1) (mem_vstart r)
         else Done (dtlb st1));
    Done (set_state (set_dtlb st1 t) DMA_STATE_TRANSFER)
  else Done (set_state st1 DMA_STATE_IDLE).

(** State TRANSFER for the request [r] at [current_index]. *)
Definition state_transfer (st : dma) (r : DMARequest) : sim (dma * list daction) :=
  pstart ← remap_check (dtlb st) (mem_vstart r);
  e ← slice_vend (dtlb st) (mem_vstart r);
  let vend := if mem_vend r <? e then mem_vend r else e in
  pend ← remap_check (dtlb st) vend;
  _ ← check (u64 (pend - pstart) =? u64 (vend - mem_vstart r));
  _ ← check (bool_decide (0 < free_events st)%nat);
  let r1 := add_range r pstart pend in
  '(r2, more) ← nextSubRequest r1 (u64 (vend + 1));
  let st1 := update_request (set_events st (free_events st - 1)) (current_index st) r2 in
  Done (set_state st1 (if (more : bool) then DMA_STATE_TLBREFILL else DMA_STATE_IDLE),
        [DmaAction (RW r) pstart (u64 (pend - pstart + 1)) (vreg_ptr r)]).

Definition nextState (st0 : dma) : sim (dma * list daction) :=
  let empty := bool_decide (length (requests st0) = 0%nat) in
  let st := if empty then set_index (set_state st0 DMA_STATE_IDLE) (-1) else st0 in
  curr ← (if current_index st =? -1 then Done None
          else r ← request_at st (current_index st); Done (Some r));
  '(st1, acts) ←
    match current_state st with
    | DMA_STATE_IDLE =>
        if empty then Done (st, [])
        else
          let i := first_unissued (requests st) 0 in
          let st1 := set_index st i in
          Done (if i =? -1 then st1 else set_state st1 DMA_STATE_TLBREFILL, [])
    | DMA_STATE_TLBREFILL =>
        match curr with
        | Some r => s ← state_refill st r; Done (s, [])
        | None => Halt
        end
    | DMA_STATE_TRANSFER =>
        match curr with Some r => state_transfer st r | None => Wild end
    end;
  if empty then Done (set_scheduled st1 false, acts ++ [PostInterrupt])
  else Done (set_scheduled st1 true, acts ++ [ScheduleNext]).

(** [initiate_read] ([dir = true]) and [initiate_write]. *)
Definition initiate (dir : bool) (st : dma) (vreg vaddr num_bytes res : Z)
    : sim (dma * list daction) :=
  _ ← check (negb (res =? 0));
  _ ← check (Z.land (dma_resources st) res =? 0);
  let bits := Z.lor (dma_resources st) res in
  let st1 := set_resources st bits in
  let st2 := set_requests st1 (DMARequest_new vreg vaddr num_bytes dir res :: requests st1) in
  if next_state_scheduled st2 then Done (st2, [WriteStatus bits])
  else
    '(st3, acts) ← nextState (set_scheduled st2 true);
    Done (st3, WriteStatus bits :: acts).

End engine.

(** [n] firings of the [nextState] event; [clk] gives their times. *)
Fixpoint dma_steps (c : tlb_conf) (mem : Z -> Z) (timing : bool) (clk : nat -> Z) (n : nat)
    (st : dma) : sim (dma * list daction) :=
  match n with
  | O => Done (st, [])
  | S n' =>
      '(st1, a1) ← nextState c (clk 0%nat) mem timing st;
      '(st2, a2) ← dma_steps c mem timing (fun i => clk (S i)) n' st1;
      Done (st2, a1 ++ a2)
  end.

(** [wait_on_resource] *)
Definition wait_on_resource (res : Z) : sim (list daction) :=
  if res =? 0xFF then Done [ClearInterrupt] else Halt.

(** The [DmaDoneEvent]s are returned to the free list when they fire. *)
Definition dma_done (st : dma) : dma := set_events st (S (free_events st)).

(** The indices of the requests of which a transfer contains [a], once per
    transfer. *)
Definition in_ranges (r : DMARequest) (a : Z) : list (Z * Z) :=
  filter (fun '(ps, pe) => ps <= a /\ a <= pe) (zip (mem_pstart r) (mem_pend r)).

Fixpoint matches (l : list DMARequest) (a : Z) (i : nat) : list nat :=
  match l with
  | [] => []
  | r :: l' => (const i <$> in_ranges r a) ++ matches l' a (S i)
  end.

(** The response to a packet of a transfer; [suspended] is the state of the
    processor. *)
Definition handle_packet (suspended : bool) (st : dma) (addr size : Z) : sim (dma * list daction) :=
  match matches (requests st) addr 0 with
  | [i] =>
      r ← elem (requests st !! i);
      let r1 := add_completed r size in
      _ ← check (bytes_completed r1 <=? bytes_expected r1);
      let st1 := set_requests st (<[i := r1]> (requests st)) in
      if bytes_completed r1 =? bytes_expected r1 then
        _ ← check (negb (Z.land (dma_resources st1) (dma_resource r1) =? 0));
        let bits := Z.ldiff (dma_resources st1) (dma_resource r1) in
        Done (set_requests (set_resources st1 bits) (delete i (requests st1)),
              (if suspended then [PostInterrupt] else []) ++ [WriteStatus bits])
      else Done (st1, [])
  | _ => Halt
  end.

(** ** One firing of the event with a request at hand *)

Lemma nextState_at c now mem timing st i r :
  current_index st = Z.of_nat i -> requests st !! i = Some r ->
  nextState c now mem timing st =
  ('(st1, acts) ←
     match current_state st with
     | DMA_STATE_IDLE =>
         let j := first_unissued (requests st) 0 in
         Done (if j =? -1 then set_index st j else set_state (set_index st j) DMA_STATE_TLBREFILL, [])
     | DMA_STATE_TLBREFILL => s ← state_refill c now mem timing st r; Done (s, [])
     | DMA_STATE_TRANSFER => state_transfer st r
     end;
   Done (set_scheduled st1 true, acts ++ [ScheduleNext])).
Proof.
  intros Hi Hr. unfold nextState.
  assert (Hl : length (requests st) <> 0%nat) by (apply lookup_lt_Some in Hr; lia).
  rewrite bool_decide_false by done. rewrite Hi. unfold request_at.
  destruct (Z.eqb_spec (Z.of_nat i) (-1)); [lia|]. destruct (Z.ltb_spec (Z.of_nat i) 0); [lia|].
  rewrite Nat2Z.id, Hr. cbn [elem mbind sim_bind]. by destruct (current_state st).
Qed.

(** ** Transfers of one request *)

(** The bytes of the transfers: physical address and place in the vector register. *)
Definition bytes_of (acts : list daction) : list (Z * Z) :=
  acts ≫= fun a => match a with
                   | DmaAction _ pa len vr => (fun i => (pa + i, vr + i)) <$> seqZ 0 len
                   | _ => []
                   end.

Lemma bytes_of_app a b : bytes_of (a ++ b) = bytes_of a ++ bytes_of b.
Proof. unfold bytes_of. by rewrite bind_app. Qed.

Section transfer.
Context (c : tlb_conf) (mem : Z -> Z) (phys : list Z) (tbl : list Slice).
Context (vstart ptr : Z) (r0 r0' : AddrRange) (timing : bool).
Context (Hdv : device_ok c mem phys tbl vstart ptr r0).

Abbreviation tr := (translate c phys vstart).
Abbreviation tok := (tlb_inv c tbl vstart ptr r0 r0').

(** A data address that hits: its slice. *)
Lemma hit_data t a :
  tok t -> in_data c phys vstart a -> is_Some (find_rule (originalRanges t) a 0) ->
  remap_check t a = Done (tr a) /\
  exists j s, tbl !! j = Some s /\ s_vaddr s <= a < s_vaddr s + s_size s /\
    slice_vend t a = Done (s_vaddr s + s_size s - 1) /\
    forall b, s_vaddr s <= b < s_vaddr s + s_size s ->
      is_Some (find_rule (originalRanges t) b 0) /\ tr b = tr a + (b - a).
Proof.
  intros Hi Ha [[i r] Hf]. pose proof Hi as [(os & rs & Ho & Hr & Hf2 & _ & _) _ _ _ _].
  destruct (find_rule_Some _ _ _ _ _ Hf) as (j & -> & Hj & Hct). simpl.
  pose proof Hj as Hj'. rewrite Ho in Hj'. destruct j as [|j]; simpl in Hj'.
  { simplify_eq. by rewrite (dv_static _ _ _ _ _ _ _ Hdv a Ha) in Hct. }
  destruct (Forall2_lookup_l _ _ _ _ _ Hf2 Hj') as (r' & Hr' & n & s & Hs & -> & ->).
  unfold contains in Hct. simpl in Hct.
  destruct (slice_ok c mem phys tbl vstart ptr r0 Hdv _ _ Hs)
    as (Hz & Hv0 & Hv1 & Hp0 & Hp1 & _ & _ & Htr).
  pose proof (dv_vstart _ _ _ _ _ _ _ Hdv) as [Hw0 Hw1].
  pose proof (translate_bound c mem phys tbl vstart ptr r0 Hdv a Ha).
  assert (Hu : forall z, 0 <= z < u32_mod -> u64 z = z).
  { intros z ?. apply Z.mod_small. unfold u64_mod, u32_mod in *. lia. }
  destruct (Htr a) as [_ Hta]; [lia|]. split.
  - unfold remap_check. rewrite Hf, Hr. simpl. rewrite Hr'. simpl. f_equal.
    rewrite <- Hta in *. rewrite Hu; lia.
  - exists n, s. split_and!; [done|lia|lia| |].
    + unfold slice_vend. rewrite Hf. unfold range_size. simpl. f_equal.
      rewrite (Hu (s_vaddr s + s_size s - 1 - s_vaddr s + 1)) by lia. rewrite Hu; lia.
    + intros b Hb. destruct (Htr b Hb) as [_ Htb]. split; [|lia].
      destruct (find_rule (originalRanges t) b 0) eqn:E; [eauto|].
      apply (find_rule_None _ _ _ _ _ E) in Hj. unfold contains in Hj. simpl in Hj. lia.
Qed.

(** The engine serving the single request [r]. *)
Definition serving (st : dma) (r : DMARequest) : Prop :=
  requests st = [r] /\ current_index st = 0 /\ tok (dtlb st) /\ pending_refills (dtlb st) = [].

Lemma step_refill now st r :
  serving st r -> current_state st = DMA_STATE_TLBREFILL ->
  mem_vstart r < mem_vend r -> in_data c phys vstart (mem_vstart r) ->
  exists st', nextState c now mem timing st = Done (st', [ScheduleNext]) /\
    serving st' (mark_issued r) /\ current_state st' = DMA_STATE_TRANSFER /\
    free_events st' = free_events st /\ dma_resources st' = dma_resources st /\
    is_Some (find_rule (originalRanges (dtlb st')) (mem_vstart r) 0).
Proof.
  intros (Hrq & Hix & Ht & Hpd) Hst Hlt Hin.
  rewrite (nextState_at c now mem timing st 0 r), Hst by (try done; by rewrite Hrq).
  unfold state_refill. destruct (Z.ltb_spec (mem_vstart r) (mem_vend r)); [|lia].
  change (dtlb (update_request st (current_index st) (mark_issued r))) with (dtlb st).
  assert (Hupd : forall t, requests (set_scheduled (set_state (set_dtlb
            (update_request st (current_index st) (mark_issued r)) t) DMA_STATE_TRANSFER) true)
            = [mark_issued r]) by (intros t; simpl; by rewrite Hrq, Hix).
  destruct (find_rule (originalRanges (dtlb st)) (mem_vstart r) 0) as [x|] eqn:E.
  - destruct (hit_data (dtlb st) (mem_vstart r) Ht Hin) as [-> _]; [by rewrite E|].
    cbn [mbind sim_bind].
    pose proof (translate_bound c mem phys tbl vstart ptr r0 Hdv _ Hin).
    destruct (Z.eqb_spec (tr (mem_vstart r)) NO_ADDR) as [E'|_];
      [exfalso; unfold NO_ADDR, u64_mod, u32_mod in *; lia|].
    cbn [mbind sim_bind]. eexists. split; [done|]. split_and!; [|done..|].
    + by split_and!.
    + simpl. rewrite E. eauto.
  - assert (remap_check (dtlb st) (mem_vstart r) = Done NO_ADDR) as ->
      by (unfold remap_check; by rewrite E).
    cbn [mbind sim_bind]. rewrite Z.eqb_refl.
    destruct (refill_data c mem phys tbl vstart ptr r0 r0' Hdv now (dtlb st) (mem_vstart r) Ht Hin)
      as (t' & Ha & Hf & Ht' & Hp' & Hfr).
    { unfold pending_refill. by rewrite Hpd. }
    rewrite Ha, Hf. replace (if timing then Done t' else Done t') with (Done t') by by destruct timing.
    cbn [mbind sim_bind]. eexists. split; [done|]. split_and!; [|done..|exact Hfr].
    split_and!; try done; simpl; congruence.
Qed.

(** The address after the last byte that the next transfer of [r] can reach: the end
    of its slice, which is the end of a page. *)
Lemma slice_end_page j s :
  tbl !! j = Some s -> exists k, s_vaddr s + s_size s = vstart + PS c * Z.of_nat k.
Proof.
  intros Hs. destruct (dv_tbl _ _ _ _ _ _ _ Hdv j s Hs) as (k & m & p & _ & _ & -> & _). simpl.
  exists (k + m)%nat. lia.
Qed.

Lemma step_transfer now st r :
  serving st r -> current_state st = DMA_STATE_TRANSFER ->
  mem_vstart r < mem_vend r -> in_data c phys vstart (mem_vstart r) ->
  in_data c phys vstart (mem_vend r) -> (0 < free_events st)%nat ->
  is_Some (find_rule (originalRanges (dtlb st)) (mem_vstart r) 0) ->
  exists st' vend k, nextState c now mem timing st =
      Done (st', [DmaAction (RW r) (tr (mem_vstart r)) (vend - mem_vstart r + 1) (vreg_ptr r);
                  ScheduleNext]) /\
    mem_vstart r <= vend <= mem_vend r /\
    (exists e, slice_vend (dtlb st) (mem_vstart r) = Done e /\ vend = Z.min e (mem_vend r)) /\
    (vend = mem_vend r \/ vend + 1 = vstart + PS c * Z.of_nat k) /\
    (forall b, mem_vstart r <= b <= vend -> tr b = tr (mem_vstart r) + (b - mem_vstart r)) /\
    free_events st' = (free_events st - 1)%nat /\ dma_resources st' = dma_resources st /\
    exists r', serving st' r' /\ issued r' = issued r /\ mem_vend r' = mem_vend r /\
      if mem_vend r <=? vend + 1 then current_state st' = DMA_STATE_IDLE
      else current_state st' = DMA_STATE_TLBREFILL /\ mem_vstart r' = vend + 1 /\
           vreg_ptr r' = vreg_ptr r + (vend + 1 - mem_vstart r).
Proof.
  intros (Hrq & Hix & Ht & Hpd) Hst Hlt Hin Hine Hfe Hf.
  rewrite (nextState_at c now mem timing st 0 r), Hst by (try done; by rewrite Hrq).
  destruct (hit_data (dtlb st) (mem_vstart r) Ht Hin Hf) as (Hps & j & s & Hs & Hins & Hve & Hall).
  destruct (slice_end_page j s Hs) as [k Hk].
  destruct (slice_ok c mem phys tbl vstart ptr r0 Hdv _ _ Hs) as (Hz & Hv0 & Hv1 & _).
  pose proof (dv_vstart _ _ _ _ _ _ _ Hdv) as [Hw0 Hw1]. unfold in_data in Hin, Hine.
  set (vend := if mem_vend r <? s_vaddr s + s_size s - 1 then mem_vend r
               else s_vaddr s + s_size s - 1).
  assert (Hvend : mem_vstart r <= vend <= mem_vend r /\ vend < s_vaddr s + s_size s /\
                  (vend = mem_vend r \/ vend + 1 = vstart + PS c * Z.of_nat k)).
  { unfold vend. destruct (Z.ltb_spec (mem_vend r) (s_vaddr s + s_size s - 1)); lia. }
  destruct Hvend as (Hb1 & Hb2 & Hb3).
  destruct (Hall vend) as [Hfv Htv]; [lia|].
  destruct (hit_data (dtlb st) vend Ht) as [Hpe _]; [unfold in_data; lia|done|].
  assert (Hu : forall z, 0 <= z < u32_mod + u32_mod -> u64 z = z).
  { intros z ?. apply Z.mod_small. unfold u64_mod, u32_mod in *. lia. }
  unfold state_transfer. rewrite Hps, Hve. cbn [mbind sim_bind]. fold vend. rewrite Hpe.
  cbn [mbind sim_bind]. replace (tr vend - tr (mem_vstart r)) with (vend - mem_vstart r) by lia.
  rewrite Z.eqb_refl. cbn [check mbind sim_bind]. rewrite bool_decide_true by done.
  cbn [check mbind sim_bind]. rewrite (Hu (vend + 1)), (Hu (vend - mem_vstart r + 1)) by lia.
  unfold nextSubRequest. cbn [mem_vstart add_range mem_vend].
  destruct (Z.leb_spec (mem_vstart r) (vend + 1)); [|lia]. cbn [check mbind sim_bind].
  destruct (Z.leb_spec (mem_vend r) (vend + 1)) as [Hdone|Hmore]; cbn [mbind sim_bind];
    (eexists _, vend, k; split; [done|]; split_and!; try done; try lia;
     [exists (s_vaddr s + s_size s - 1); split; [done|]; unfold vend;
      destruct (Z.ltb_spec (mem_vend r) (s_vaddr s + s_size s - 1)); lia
     |intros b Hb; destruct (Hall b) as [_ Htb]; lia|]).
  - exists (add_range r (tr (mem_vstart r)) (tr vend)).
    destruct (Z.leb_spec (mem_vend r) (vend + 1)); [|lia].
    split_and!; try done. split_and!; try done. simpl. by rewrite Hrq, Hix.
  - destruct (Z.leb_spec (mem_vend r) (vend + 1)); [lia|].
    eexists. split; [split_and!; [simpl; rewrite Hrq, Hix; reflexivity|done..]|].
    split_and!; try done; simpl; lia.
Qed.

Lemma dma_steps_S clk n st st1 a1 st2 a2 :
  nextState c (clk 0%nat) mem timing st = Done (st1, a1) ->
  dma_steps c mem timing (fun i => clk (S i)) n st1 = Done (st2, a2) ->
  dma_steps c mem timing clk (S n) st = Done (st2, a1 ++ a2).
Proof. intros H1 H2. simpl. rewrite H1. cbn [mbind sim_bind]. by rewrite H2. Qed.

Lemma bytes_action rw pa len vr rest :
  bytes_of (DmaAction rw pa len vr :: rest) =
  ((fun i => (pa + i, vr + i)) <$> seqZ 0 len) ++ bytes_of rest.
Proof. done. Qed.

(** The engine transfers every byte of the request once, in order, and becomes
    idle. *)
Lemma serve_request n clk st r :
  (Z.to_nat (mem_vend r - mem_vstart r) < n)%nat ->
  serving st r -> current_state st = DMA_STATE_TLBREFILL -> mem_vstart r < mem_vend r ->
  in_data c phys vstart (mem_vstart r) -> in_data c phys vstart (mem_vend r) ->
  (mem_vend r - vstart) mod PS c <> 0 ->
  (mem_vend r - vstart) / PS c - (mem_vstart r - vstart) / PS c + 1 <= Z.of_nat (free_events st) ->
  exists k st' acts, dma_steps c mem timing clk k st = Done (st', acts) /\
    current_state st' = DMA_STATE_IDLE /\ dma_resources st' = dma_resources st /\
    (exists r', serving st' r' /\ issued r' = true) /\
    bytes_of acts = (fun i => (tr (mem_vstart r + i), vreg_ptr r + i)) <$>
                    seqZ 0 (mem_vend r - mem_vstart r + 1).
Proof.
  pose proof (PS_pos c mem phys tbl vstart ptr r0 Hdv) as HP.
  revert clk st r. induction n as [|n IH]; intros clk st r Hn Hsv Hst Hlt Hin Hine Hmod Hfe; [lia|].
  assert (Hpg : (mem_vstart r - vstart) / PS c <= (mem_vend r - vstart) / PS c)
    by (apply Z.div_le_mono; lia).
  destruct (step_refill (clk 0%nat) st r Hsv Hst Hlt Hin)
    as (st1 & H1 & Hsv1 & Hst1 & Hfe1 & Hrs1 & Hf1).
  destruct (step_transfer (clk 1%nat) st1 (mark_issued r) Hsv1 Hst1 Hlt Hin Hine) as
    (st2 & vend & p & H2 & Hb & _ & Hend & Htr & Hfe2 & Hrs2 & r' & Hsv2 & His & Hve & Hcase);
    [lia|done|]. cbn [mem_vstart mem_vend vreg_ptr RW mark_issued issued] in *.
  assert (Hfirst : (fun i => (tr (mem_vstart r) + i, vreg_ptr r + i)) <$>
            seqZ 0 (vend - mem_vstart r + 1) =
          (fun i => (tr (mem_vstart r + i), vreg_ptr r + i)) <$> seqZ 0 (vend - mem_vstart r + 1)).
  { apply list_fmap_ext. intros i x Hi. apply lookup_seqZ in Hi as [-> Hi]. f_equal.
    rewrite (Htr (mem_vstart r + _)) by lia. lia. }
  destruct (Z.leb_spec (mem_vend r) (vend + 1)) as [Hd|Hd].
  - assert (vend = mem_vend r) as ->.
    { destruct Hend as [|Hend]; [done|]. assert (mem_vend r = vend + 1 \/ mem_vend r = vend) by lia.
      destruct (decide (mem_vend r = vend)); [done|]. exfalso. apply Hmod.
      replace (mem_vend r - vstart) with (Z.of_nat p * PS c) by lia. by apply Z.mod_mul; lia. }
    exists 2%nat, st2. eexists. split; [|split; [done|split; [congruence|split; [by exists r'|]]]].
    + eapply dma_steps_S; [exact H1|]. eapply dma_steps_S; [exact H2|]. reflexivity.
    + cbn [app]. change (bytes_of _) with (((fun i => (tr (mem_vstart r) + i, vreg_ptr r + i)) <$>
            seqZ 0 (mem_vend r - mem_vstart r + 1)) ++ []). by rewrite Hfirst, app_nil_r.
  - destruct Hend as [|Hend]; [lia|]. destruct Hcase as (Hst2 & Hvs & Hvr).
    assert (Hp1 : (mem_vstart r - vstart) / PS c < Z.of_nat p) by (apply Z.div_lt_upper_bound; lia).
    assert (Hp2 : (mem_vstart r' - vstart) / PS c = Z.of_nat p).
    { rewrite Hvs, Hend. replace (_ - vstart) with (Z.of_nat p * PS c) by lia. apply Z.div_mul. lia. }
    unfold in_data in *.
    edestruct (IH (fun i => clk (S (S i))) st2 r') as (k & st3 & acts & H3 & Hst3 & Hrs3 & Hr3 & Hby);
      [lia|done|done|lia|lia|lia|by rewrite Hve|rewrite Hve; lia|].
    exists (S (S k)), st3. eexists. split; [|split; [done|split; [congruence|split; [done|]]]].
    + eapply dma_steps_S; [exact H1|]. eapply dma_steps_S; [exact H2|]. exact H3.
    + cbn [app]. change (bytes_of _) with (((fun i => (tr (mem_vstart r) + i, vreg_ptr r + i)) <$>
            seqZ 0 (vend - mem_vstart r + 1)) ++ bytes_of acts).
      rewrite Hfirst, Hby, Hve, Hvs, Hvr.
      replace (mem_vend r - mem_vstart r + 1)
        with ((vend - mem_vstart r + 1) + (mem_vend r - (vend + 1) + 1)) by lia.
      rewrite (seqZ_app 0 (vend - mem_vstart r + 1) (mem_vend r - (vend + 1) + 1)), fmap_app by lia.
      f_equal. replace (0 + (vend - mem_vstart r + 1)) with ((vend - mem_vstart r + 1) + 0) by lia.
      rewrite <- (fmap_add_seqZ (vend - mem_vstart r + 1)), <- list_fmap_compose. apply list_fmap_ext. intros i x _. simpl.
      f_equal; [f_equal; lia|lia].
Qed.
End transfer.

(** ** Busy bits *)

(** The resources of the requests, and that no two requests share one. *)
Definition busy (l : list DMARequest) : Z := foldr (fun r b => Z.lor (dma_resource r) b) 0 l.
Fixpoint exclusive (l : list DMARequest) : Prop :=
  match l with
  | [] => True
  | r :: l' => Z.land (dma_resource r) (busy l') = 0 /\ exclusive l'
  end.

Definition busy_inv (st : dma) : Prop :=
  dma_resources st = busy (requests st) /\ exclusive (requests st) /\
  Forall (fun r => 0 < dma_resource r) (requests st).

Lemma land_0_bits a b n : Z.land a b = 0 -> 0 <= n -> Z.testbit a n = true -> Z.testbit b n = false.
Proof.
  intros H Hn Ha. assert (Hb : Z.testbit (Z.land a b) n = false) by (rewrite H; apply Z.bits_0).
  rewrite Z.land_spec, Ha in Hb. exact Hb.
Qed.

Lemma land_sub_0 a b c :
  Z.land a b = 0 -> (forall n, 0 <= n -> Z.testbit c n = true -> Z.testbit b n = true) -> Z.land a c = 0.
Proof.
  intros H Hs. apply Z.bits_inj'. intros n Hn. rewrite Z.land_spec, Z.bits_0.
  destruct (Z.testbit a n) eqn:Ea; [|done]. destruct (Z.testbit c n) eqn:Ec; [|done].
  specialize (Hs n Hn Ec). by rewrite (land_0_bits a b n H Hn Ea) in Hs.
Qed.

Lemma busy_delete l i r :
  exclusive l -> l !! i = Some r ->
  busy (delete i l) = Z.ldiff (busy l) (dma_resource r) /\ exclusive (delete i l).
Proof.
  revert i. induction l as [|x l IH]; intros i He Hi; [done|].
  destruct He as [Hd He]. destruct i as [|i]; simpl in *.
  - injection Hi as ->. split; [|done]. apply Z.bits_inj'. intros n Hn.
    rewrite Z.ldiff_spec, Z.lor_spec. destruct (Z.testbit (dma_resource r) n) eqn:E; simpl.
    + by rewrite (land_0_bits _ _ n Hd Hn E).
    + by rewrite andb_true_r.
  - destruct (IH i He Hi) as [Hb He']. rewrite Hb. split.
    + apply Z.bits_inj'. intros n Hn. rewrite Z.lor_spec, !Z.ldiff_spec, Z.lor_spec.
      destruct (Z.testbit (dma_resource x) n) eqn:E; simpl; [|done].
      assert (Hn0 : Z.testbit (dma_resource r) n = false).
      { pose proof (land_0_bits _ _ n Hd Hn E) as Hl. destruct (Z.testbit (dma_resource r) n) eqn:Er; [|done].
        exfalso. clear -Hi Hl Er. revert i Hi. induction l as [|y l IHl]; intros i Hi; [done|].
        simpl in Hl. rewrite Z.lor_spec in Hl. apply orb_false_iff in Hl as [Hy Hl].
        destruct i as [|i]; simpl in Hi; [injection Hi as ->; congruence|eauto]. }
      by rewrite Hn0.
    + split; [|done]. eapply land_sub_0; [exact Hd|]. intros n Hn. rewrite Z.ldiff_spec.
      by intros [? _]%andb_true_iff.
Qed.

(** Changing a request without its resource changes nothing. *)
Lemma busy_insert l i r r' :
  l !! i = Some r -> dma_resource r' = dma_resource r ->
  busy (<[i := r']> l) = busy l /\ (exclusive l -> exclusive (<[i := r']> l)).
Proof.
  revert i. induction l as [|x l IH]; intros i Hi Hr; [done|].
  destruct i as [|i]; simpl in *; [injection Hi as ->; by rewrite Hr|].
  destruct (IH i Hi Hr) as [Hb He]. rewrite Hb. split; [done|]. intros [? ?]; auto.
Qed.

Lemma busy_update st st' i r r' :
  busy_inv st -> requests st !! i = Some r -> dma_resource r' = dma_resource r ->
  requests st' = <[i := r']> (requests st) -> dma_resources st' = dma_resources st -> busy_inv st'.
Proof.
  intros (Hb & He & Hp) Hi Hr Hq Hd. destruct (busy_insert _ i r r' Hi Hr) as [Hb' He'].
  unfold busy_inv. rewrite Hq, Hd, Hb'. split_and!; [done|auto|].
  apply Forall_insert; [done|]. rewrite Hr. by apply (Forall_lookup_1 _ _ _ _ Hp Hi).
Qed.

Lemma nextSubRequest_resource r v r' b :
  nextSubRequest r v = Done (r', b) -> dma_resource r' = dma_resource r.
Proof.
  unfold nextSubRequest. intros H. sim_inv. destruct (mem_vend r <=? v); by sim_inv.
Qed.

Lemma current_request st r :
  (if current_index st =? -1 then Done None
   else x ← request_at st (current_index st); Done (Some x)) = Done (Some r) ->
  exists i, current_index st = Z.of_nat i /\ requests st !! i = Some r.
Proof.
  destruct (_ =? -1); [done|]. unfold request_at.
  destruct (Z.ltb_spec (current_index st) 0); [done|].
  intros H1. sim_inv. exists (Z.to_nat (current_index st)). split; [lia|done].
Qed.

Lemma nextState_busy c now mem timing st st' acts :
  nextState c now mem timing st = Done (st', acts) -> busy_inv st -> busy_inv st'.
Proof.
  unfold nextState. intros H Hb. set (empty := bool_decide _) in *.
  set (st1 := if empty then _ else st) in *.
  assert (Hb1 : busy_inv st1) by (unfold st1; destruct empty; exact Hb).
  clearbody st1. clear Hb. apply bind_Done in H as (curr & Hc & H).
  apply bind_Done in H as ([st2 acts'] & Hm & H).
  assert (Hb2 : busy_inv st2).
  { destruct (current_state st1).
    - destruct empty; sim_inv; [done|]. destruct (first_unissued _ _ =? -1); exact Hb1.
    - destruct curr as [r|]; [|done]. destruct (current_request st1 r Hc) as (i & Hi & Hr).
      sim_inv. unfold state_refill in *.
      destruct (mem_vstart r <? mem_vend r); sim_inv;
        (eapply (busy_update st1 _ i r (mark_issued r)); try done); simpl; by rewrite Hi, Nat2Z.id.
    - destruct curr as [r|]; [|done]. destruct (current_request st1 r Hc) as (i & Hi & Hr).
      unfold state_transfer in Hm. sim_inv.
      match goal with Hn : nextSubRequest _ _ = Done (?x, _) |- _ =>
        apply nextSubRequest_resource in Hn; eapply (busy_update st1 _ i r x) end; try done.
      simpl. by rewrite Hi, Nat2Z.id. }
  destruct empty; sim_inv; exact Hb2.
Qed.

Lemma initiate_busy c now mem timing dir st vreg vaddr n res st' acts :
  0 <= res -> initiate c now mem timing dir st vreg vaddr n res = Done (st', acts) ->
  busy_inv st -> busy_inv st'.
Proof.
  intros Hres H (Hb & He & Hp). unfold initiate in H. apply bind_Done in H as ([] & H1 & H).
  apply check_Done, negb_true_iff, Z.eqb_neq in H1. apply bind_Done in H as ([] & H2 & H).
  apply check_Done, Z.eqb_eq in H2.
  assert (Hinv : busy_inv (set_requests (set_resources st (Z.lor (dma_resources st) res))
            (DMARequest_new vreg vaddr n dir res :: requests st))).
  { split_and!; simpl.
    - rewrite Hb. apply Z.lor_comm.
    - by rewrite Z.land_comm, <- Hb.
    - constructor; [simpl; lia|done]. }
  destruct (next_state_scheduled _); [by sim_inv|]. apply bind_Done in H as ([st3 a3] & H3 & H).
  sim_inv. eapply nextState_busy; [exact H3|]. exact Hinv.
Qed.

Lemma handle_packet_busy suspended st a n st' acts :
  handle_packet suspended st a n = Done (st', acts) -> busy_inv st -> busy_inv st'.
Proof.
  unfold handle_packet. destruct (matches _ _ _) as [|i [|? ?]]; try done. intros H Hi.
  apply bind_Done in H as (r & Hr & H). apply elem_Done in Hr. apply bind_Done in H as ([] & _ & H).
  assert (H1 : busy_inv (set_requests st (<[i := add_completed r n]> (requests st)))).
  { eapply (busy_update st _ i r (add_completed r n)); done. }
  destruct (_ =? _); [|by sim_inv]. apply bind_Done in H as ([] & _ & H). sim_inv.
  destruct H1 as (Hb & He & Hp). simpl in *.
  assert (Hr1 : <[i := add_completed r n]> (requests st) !! i = Some (add_completed r n)).
  { apply list_lookup_insert_eq. by eapply lookup_lt_Some. }
  destruct (busy_delete _ _ _ He Hr1) as [Hb' He'].
  split_and!; simpl; [by rewrite Hb', Hb|done|by apply Forall_delete].
Qed.

(** ** Idle with every request issued *)

Lemma first_unissued_none l i : Forall (fun r => issued r = true) l -> first_unissued l i = -1.
Proof. intros H. revert i. induction H as [|r l Hr _ IH]; intros i; simpl; [done|]. by rewrite Hr. Qed.

(** The engine polls and transfers nothing. *)
Definition polling (st : dma) : Prop :=
  current_state st = DMA_STATE_IDLE /\ Forall (fun r => issued r = true) (requests st) /\
  -1 <= current_index st < Z.of_nat (length (requests st)).

Lemma polling_step c now mem timing st :
  polling st -> exists st' acts, nextState c now mem timing st = Done (st', acts) /\
    polling st' /\ bytes_of acts = [] /\ requests st' = requests st /\
    dma_resources st' = dma_resources st.
Proof.
  intros (Hs & Hf & Hi). unfold nextState.
  destruct (bool_decide (length (requests st) = 0%nat)) eqn:E.
  - cbn. eexists _, _. split; [reflexivity|]. split_and!; try done.
    split_and!; try done; simpl; lia.
  - rewrite Hs, first_unissued_none by done.
    assert (exists curr, (if current_index st =? -1 then Done None
      else r ← request_at st (current_index st); Done (Some r)) = Done curr) as [curr ->].
    { destruct (Z.eqb_spec (current_index st) (-1)); [eauto|]. unfold request_at.
      destruct (Z.ltb_spec (current_index st) 0); [lia|].
      destruct (lookup_lt_is_Some_2 (requests st) (Z.to_nat (current_index st))) as [r ->]; [lia|].
      cbn. eauto. }
    cbn. eexists _, _. split; [reflexivity|]. split_and!; try done.
    split_and!; try done; simpl; lia.
Qed.

Lemma polling_steps c mem timing clk n st :
  polling st -> exists st' acts, dma_steps c mem timing clk n st = Done (st', acts) /\
    bytes_of acts = [] /\ requests st' = requests st /\ dma_resources st' = dma_resources st.
Proof.
  revert clk st. induction n as [|n IH]; intros clk st Hp; [simpl; eauto 10|].
  destruct (polling_step c (clk 0%nat) mem timing st Hp) as (st1 & a1 & H1 & Hp1 & Hb1 & Hr1 & Hd1).
  destruct (IH (fun i => clk (S i)) st1 Hp1) as (st2 & a2 & H2 & Hb2 & Hr2 & Hd2).
  exists st2, (a1 ++ a2). split_and!; [|by rewrite bytes_of_app, Hb1, Hb2|congruence|congruence].
  simpl. rewrite H1. cbn [mbind sim_bind]. by rewrite H2.
Qed.

(** ** Properties *)

(** A DMA request is served.  An idle engine accepts a request of at least two
    bytes inside the data of the device whose last byte is not the first byte of a
    page; whatever the TLB holds and replaces, the firings of its event then
    transfer every byte exactly once and in order between the physical address that
    the page table gives and its place in the vector register, and the engine
    becomes idle. *)
Theorem dma_request_served c mem phys tbl vstart ptr r0 r0' timing now dir st vreg vaddr n res :
  device_ok c mem phys tbl vstart ptr r0 -> tlb_inv c tbl vstart ptr r0 r0' (dtlb st) ->
  pending_refills (dtlb st) = [] -> requests st = [] -> current_index st = -1 ->
  current_state st = DMA_STATE_IDLE -> next_state_scheduled st = false -> dma_resources st = 0 ->
  0 < res -> 2 <= n -> in_data c phys vstart vaddr -> in_data c phys vstart (vaddr + n - 1) ->
  (vaddr + n - 1 - vstart) mod PS c <> 0 ->
  (vaddr + n - 1 - vstart) / PS c - (vaddr - vstart) / PS c + 1 <= Z.of_nat (free_events st) ->
  exists st1, initiate c now mem timing dir st vreg vaddr n res =
      Done (st1, [WriteStatus res; ScheduleNext]) /\
    forall clk, exists k st2 acts, dma_steps c mem timing clk k st1 = Done (st2, acts) /\
      current_state st2 = DMA_STATE_IDLE /\ dma_resources st2 = res /\
      bytes_of acts =
        (fun i => (translate c phys vstart (vaddr + i), vreg + i)) <$> seqZ 0 n.
Proof.
  intros Hdv Ht Hpd Hrq Hix Hst Hsc Hres0 Hres Hn Hin Hine Hmod Hfe.
  pose proof (dv_vstart _ _ _ _ _ _ _ Hdv) as [Hw0 Hw1].
  assert (Hu : u64 (vaddr + n - 1) = vaddr + n - 1).
  { apply Z.mod_small. unfold in_data, u64_mod, u32_mod in *. lia. }
  destruct st as [rq ix cs sc rs fe t]. simpl in *. subst.
  exists (mkDMA [DMARequest_new vreg vaddr n dir res] 0 DMA_STATE_TLBREFILL true res fe t). split.
  { unfold initiate. destruct (Z.eqb_spec res 0); [lia|]. reflexivity. }
  intros clk.
  destruct (serve_request c mem phys tbl vstart ptr r0 r0' timing Hdv (S (Z.to_nat n)) clk
     (mkDMA [DMARequest_new vreg vaddr n dir res] 0 DMA_STATE_TLBREFILL true res fe t)
     (DMARequest_new vreg vaddr n dir res))
    as (k & st2 & acts & Hk & Hi2 & Hr2 & _ & Hb); simpl in *; rewrite ?Hu; try done; try lia.
  exists k, st2, acts. split_and!; try done. rewrite Hb, Hu. do 2 f_equal. lia.
Qed.

(** What can happen to the engine: a request of the processor, a firing of its event,
    a response of the memory, the return of a done event, and accesses of the
    processor that change the TLB. *)
Inductive dma_next (c : tlb_conf) (mem : Z -> Z) (timing : bool) : dma -> dma -> Prop :=
  | next_initiate now dir st vreg vaddr n res st' acts :
      0 <= res -> initiate c now mem timing dir st vreg vaddr n res = Done (st', acts) ->
      dma_next c mem timing st st'
  | next_fire now st st' acts :
      nextState c now mem timing st = Done (st', acts) -> dma_next c mem timing st st'
  | next_response suspended st a n st' acts :
      handle_packet suspended st a n = Done (st', acts) -> dma_next c mem timing st st'
  | next_done st : dma_next c mem timing st (dma_done st)
  | next_tlb st t : dma_next c mem timing st (set_dtlb st t).

(** The status register of the DMA engine.  In every reachable state the busy
    bits are exactly the bits of the requests in the list, and no two requests share
    a bit: a bit is set from the start of its request until its last response. *)
Theorem dma_busy_bits c mem timing t st :
  rtc (dma_next c mem timing) (ethz_DMA t) st ->
  dma_resources st = busy (requests st) /\ exclusive (requests st).
Proof.
  intros Hr. assert (H0 : busy_inv (ethz_DMA t)) by (by repeat split).
  cut (busy_inv st); [by intros (? & ? & _)|]. revert H0. generalize (ethz_DMA t) Hr. clear.
  intros st0 Hr. induction Hr as [|x y z Hxy _ IH]; [done|]. intros H0. apply IH.
  destruct Hxy; eauto using initiate_busy, nextState_busy, handle_packet_busy.
Qed.

(** The last byte can be lost.  If the slice of a request ends exactly one byte
    before the end of the request, the transfer of the slice is its last one: the
    engine goes idle with the last byte missing, transfers nothing however often its
    event fires, and keeps the request and its busy bit. *)
Theorem dma_last_byte_lost c mem phys tbl vstart ptr r0 r0' timing now st r :
  device_ok c mem phys tbl vstart ptr r0 -> serving c tbl vstart ptr r0 r0' st r ->
  current_state st = DMA_STATE_TRANSFER -> issued r = true ->
  mem_vstart r < mem_vend r -> in_data c phys vstart (mem_vstart r) ->
  in_data c phys vstart (mem_vend r) -> (0 < free_events st)%nat ->
  is_Some (find_rule (originalRanges (dtlb st)) (mem_vstart r) 0) ->
  slice_vend (dtlb st) (mem_vstart r) = Done (mem_vend r - 1) ->
  exists st' acts, nextState c now mem timing st = Done (st', acts) /\
    length (bytes_of acts) = Z.to_nat (mem_vend r - mem_vstart r) /\
    forall clk n, exists st2 acts2, dma_steps c mem timing clk n st' = Done (st2, acts2) /\
      bytes_of acts2 = [] /\ length (requests st2) = 1%nat /\ dma_resources st2 = dma_resources st.
Proof.
  intros Hdv Hsv Hst His Hlt Hin Hine Hfe Hf Hve.
  destruct (step_transfer c mem phys tbl vstart ptr r0 r0' timing Hdv now st r Hsv Hst Hlt Hin Hine Hfe Hf)
    as (st' & vend & k & H1 & Hb & (e & He & Hv) & _ & _ & _ & Hd & r' & Hsv' & His' & Hve' & Hc).
  rewrite Hve in He. injection He as <-. assert (vend = mem_vend r - 1) as -> by lia.
  destruct (Z.leb_spec (mem_vend r) (mem_vend r - 1 + 1)); [|lia].
  eexists st', _. split; [exact H1|]. split.
  { rewrite bytes_action, length_app, length_fmap, length_seqZ. simpl. lia. }
  intros clk n. destruct Hsv' as (Hrq & Hix & _ & _).
  destruct (polling_steps c mem timing clk n st') as (st2 & a2 & H2 & Hb2 & Hr2 & Hd2).
  { split_and!; [done|rewrite Hrq; constructor; [congruence|done]|rewrite Hix; lia|].
    rewrite Hix, Hrq. simpl. lia. }
  exists st2, a2. rewrite Hr2, Hrq. split_and!; try done. congruence.
Qed.

(** A request can be overtaken and lost.  A second request, started while the
    first is about to be transferred, is inserted before it in the list, so that the
    index of the engine points to it: the second request is transferred twice, and
    the first, which is marked as issued, never. *)
Theorem dma_request_overtaken :
  let clk := fun _ : nat => 9 in
  exists stA stB stC st acts,
    initiate demo_conf 9 demo_mem true true (ethz_DMA demo_empty) 0 0x2000 16 1 =
      Done (stA, [WriteStatus 1; ScheduleNext]) /\
    dma_steps demo_conf demo_mem true clk 1 stA = Done (stB, [ScheduleNext]) /\
    initiate demo_conf 9 demo_mem true true stB 0x40 0x2100 4 2 = Done (stC, [WriteStatus 3]) /\
    dma_steps demo_conf demo_mem true clk 5 stC = Done (st, acts) /\
    bytes_of acts = (let b := (fun i => (0x80100 + i, 0x40 + i)) <$> seqZ 0 4 in b ++ b) /\
    dma_resources st = 3 /\
    forall n, exists st2 acts2, dma_steps demo_conf demo_mem true clk n st = Done (st2, acts2) /\
      bytes_of acts2 = [].
Proof.
  cbn zeta. eexists _, _, _, _, _. split; [vm_compute; reflexivity|].
  split; [vm_compute; reflexivity|]. split; [vm_compute; reflexivity|].
  split; [vm_compute; reflexivity|]. split; [vm_compute; reflexivity|]. split; [reflexivity|].
  intros n. edestruct (polling_steps demo_conf demo_mem true (fun _ => 9) n)
    as (st2 & a2 & H2 & Hb2 & _); [|eauto].
  split_and!; [reflexivity|repeat constructor|simpl; lia|simpl; lia].
Qed.

(** ** Instances of the properties *)

(** 16 bytes from the end of page 2 into page 3. *)
Lemma dma_request_served_witness :
  exists st1, initiate demo_conf 1 demo_mem true true (ethz_DMA demo_empty) 0 0x2ff8 16 1 =
      Done (st1, [WriteStatus 1; ScheduleNext]) /\
    forall clk, exists k st2 acts, dma_steps demo_conf demo_mem true clk k st1 = Done (st2, acts) /\
      current_state st2 = DMA_STATE_IDLE /\ dma_resources st2 = 1 /\
      bytes_of acts = (fun i => (translate demo_conf demo_frames_list 0x2000 (0x2ff8 + i), 0 + i))
                      <$> seqZ 0 16.
Proof.
  apply (dma_request_served demo_conf demo_mem demo_frames_list demo_slices 0x2000 0x5000 demo_r0
           demo_r0' true 1 true (ethz_DMA demo_empty) 0 0x2ff8 16 1).
  - exact demo_device.
  - exact demo_empty_inv.
  - reflexivity.
  - reflexivity.
  - reflexivity.
  - reflexivity.
  - reflexivity.
  - reflexivity.
  - lia.
  - lia.
  - apply demo_in_data. lia.
  - apply demo_in_data. lia.
  - vm_compute. discriminate.
  - vm_compute. discriminate.
Defined.

(** The engine after one request for resource 2 has been started. *)
Definition busy_demo : dma :=
  match initiate demo_conf 1 demo_mem true true (ethz_DMA demo_empty) 0 0x2000 16 4 with
  | Done (s, _) => s
  | _ => ethz_DMA demo_empty
  end.

Lemma dma_busy_bits_witness :
  rtc (dma_next demo_conf demo_mem true) (ethz_DMA demo_empty) busy_demo /\
    dma_resources busy_demo = 4 /\ dma_resources busy_demo = busy (requests busy_demo).
Proof.
  assert (Hr : rtc (dma_next demo_conf demo_mem true) (ethz_DMA demo_empty) busy_demo).
  { eapply rtc_l; [|apply rtc_refl].
    eapply (next_initiate _ _ _ 1 true (ethz_DMA demo_empty) 0 0x2000 16 4); [lia|].
    vm_compute. reflexivity. }
  split; [exact Hr|]. split; [reflexivity|].
  apply (dma_busy_bits demo_conf demo_mem true demo_empty). exact Hr.
Defined.

(** The bytes 0x2ff0 to 0x3000: the last one is the first byte of page 3. *)
Definition split_request : DMARequest := mkReq 0 0x2ff0 0x3000 1 true [] [] 17 0 true.
Definition split_state : dma :=
  mkDMA [split_request] 0 DMA_STATE_TRANSFER true 1 16 demo_loaded.

Lemma dma_last_byte_lost_witness :
  exists st' acts, nextState demo_conf 1 demo_mem true split_state = Done (st', acts) /\
    length (bytes_of acts) = 16%nat.
Proof.
  destruct (dma_last_byte_lost demo_conf demo_mem demo_frames_list demo_slices 0x2000 0x5000 demo_r0
           demo_r0' true 1 split_state split_request) as (st' & acts & H1 & H2 & _).
  - exact demo_device.
  - split_and!; [reflexivity|reflexivity|exact demo_loaded_inv|reflexivity].
  - reflexivity.
  - reflexivity.
  - vm_compute. reflexivity.
  - apply demo_in_data. simpl. lia.
  - apply demo_in_data. simpl. lia.
  - simpl. lia.
  - vm_compute. eauto.
  - reflexivity.
  - exists st', acts. split; [exact H1|exact H2].
Defined.
