(* ===== verification/PimVault.v ===== *)
(** * The memory of a PIM vault

    The kernels clean_skiplist.c and clean_linked_list.c
    (src/SMC/SW/PIM/kernels) keep their nodes in blocks of one size, carved out of
    the vault from BLOCK_BASE_ADDR on.  Free blocks form a list whose links are
    stored in the first word of a block, the word that holds the key once the block
    is in use.  This file models the memory as 32-bit words at their addresses, the
    two layouts of a node, the allocator and [list_init], and proves that the
    memory implements the storage interfaces of SkipCore.v and ListCore.v: a live
    node never overlaps another one or the free list. *)

From S2P Require Import Prelude SkipCore ListCore.

Definition BLOCK_BASE_ADDR : Z := 0xC0000000.

(** The two layouts of a node.  clean_skiplist.c: key, top_level, next[MAX_LEVEL];
    clean_linked_list.c: key, next[14], top_level, of which [node_t] is the first
    two words. *)
Record layout := mkLayout { levels : nat; top_first : bool }.

(** The fields as indices of words. *)
Definition node_words (L : layout) : nat := (2 + levels L)%nat.
Definition f_top (L : layout) : nat := if top_first L then 1%nat else S (levels L).
Definition f_next (L : layout) (l : nat) : nat := if top_first L then (2 + l)%nat else S l.
Definition BLOCK_SIZE (L : layout) : Z := 4 * Z.of_nat (node_words L).

Record vault := mkVault { words : gmap Z Z; FREE_BLOCKS_HEAD : Z }.

(** The word [k] of the node at [p]. *)
Definition ldw (v : vault) (p : Z) (k : nat) : result Z :=
  of_opt (words v !! (p + 4 * Z.of_nat k)).
Definition stw (v : vault) (p : Z) (k : nat) (x : Z) : result vault :=
  _ ← of_opt (words v !! (p + 4 * Z.of_nat k));
  Ok (mkVault (<[p + 4 * Z.of_nat k := x]> (words v)) (FREE_BLOCKS_HEAD v)).

(** ** The allocator *)

(** The address of a free block, 0 if there is none. *)
Definition alloc_memory_block (v : vault) : result (vault * Z) :=
  let mem_block := FREE_BLOCKS_HEAD v in
  if mem_block =? 0 then Ok (v, mem_block)
  else
    nx ← ldw v mem_block 0;
    Ok (mkVault (words v) nx, mem_block).

Definition free_memory_block (v : vault) (p : Z) : result vault :=
  v1 ← stw v p 0 (FREE_BLOCKS_HEAD v);
  Ok (mkVault (words v1) p).

Section layout.
Context (L : layout).

Definition block (i : nat) : Z := BLOCK_BASE_ADDR + Z.of_nat i * BLOCK_SIZE L.

(** The loop of [list_init] that puts the blocks [i], [i + 1], ... on the list. *)
Fixpoint init_blocks (v : vault) (i n : nat) : result vault :=
  match n with
  | O => Ok v
  | S n' =>
      let free_block := block i in
      v1 ← stw v free_block 0 (FREE_BLOCKS_HEAD v);
      init_blocks (mkVault (words v1) free_block) (S i) n'
  end.

(** [head->next[i] = tail; tail->next[i] = NULL;] *)
Fixpoint init_next (v : vault) (head tail : Z) (ls : list nat) : result vault :=
  match ls with
  | [] => Ok v
  | l :: ls' =>
      v1 ← stw v head (f_next L l) tail;
      v2 ← stw v1 tail (f_next L l) 0;
      init_next v2 head tail ls'
  end.

(** [list_init] with [n] blocks (NUM_MEM_BLOCKS): the sentinels. *)
Definition list_init (w : gmap Z Z) (n : nat) : result (vault * Z * Z) :=
  v0 ← init_blocks (mkVault w 0) 0 n;
  '(v1, head) ← alloc_memory_block v0;
  '(v2, tail) ← alloc_memory_block v1;
  v3 ← stw v2 head 0 0;
  v4 ← stw v3 tail 0 UINT32_MAX;
  v5 ← stw v4 head (f_top L) (Z.of_nat (levels L));
  v6 ← stw v5 tail (f_top L) (Z.of_nat (levels L));
  v7 ← init_next v6 head tail (seq 0 (levels L));
  Ok (v7, head, tail).

(** ** Blocks *)

Context (num : nat).

Definition is_block (p : Z) : Prop := exists i, (i < num)%nat /\ p = block i.

Lemma is_block_nz p : is_block p -> p <> 0.
Proof. intros (i & _ & ->). unfold block, BLOCK_BASE_ADDR, BLOCK_SIZE. lia. Qed.

(** Words of different blocks, or different words of a block, have different
    addresses. *)
Lemma word_inj p q k k' : is_block p -> is_block q ->
  (k < node_words L)%nat -> (k' < node_words L)%nat ->
  p + 4 * Z.of_nat k = q + 4 * Z.of_nat k' -> p = q /\ k = k'.
Proof.
  intros (i & _ & ->) (j & _ & ->) Hk Hk' E. unfold block, BLOCK_SIZE in *.
  assert (Hij : (i * node_words L + k = j * node_words L + k')%nat) by lia.
  assert (i = j) as ->.
  { rewrite (Nat.div_unique (i * node_words L + k) (node_words L) i k) by lia.
    rewrite Hij. symmetry. apply (Nat.div_unique _ _ j k'); lia. }
  split; [done|]. lia.
Qed.

Lemma f_next_lt l : (l < levels L)%nat -> (f_next L l < node_words L)%nat.
Proof. unfold f_next, node_words. destruct (top_first L); lia. Qed.
Lemma f_top_lt : (f_top L < node_words L)%nat.
Proof. unfold f_top, node_words. destruct (top_first L); lia. Qed.
Lemma key_lt : (0 < node_words L)%nat.
Proof. unfold node_words. lia. Qed.
Lemma f_next_inj l l' : f_next L l = f_next L l' -> l = l'.
Proof. unfold f_next. destruct (top_first L); lia. Qed.
Lemma f_next_top l : (l < levels L)%nat -> f_next L l <> f_top L.
Proof. unfold f_next, f_top. destruct (top_first L); lia. Qed.
Lemma f_next_key l : f_next L l <> 0%nat.
Proof. unfold f_next. destruct (top_first L); lia. Qed.
Lemma f_top_key : f_top L <> 0%nat.
Proof. unfold f_top. destruct (top_first L); lia. Qed.

(** ** The free list *)

Fixpoint free_chain (w : gmap Z Z) (h : Z) (fl : list Z) : Prop :=
  match fl with
  | [] => h = 0
  | b :: fl' => h = b /\ exists nx, w !! b = Some nx /\ free_chain w nx fl'
  end.

Record vault_ok (v : vault) (fl : list Z) : Prop := {
  vo_pool i k : (i < num)%nat -> (k < node_words L)%nat ->
    is_Some (words v !! (block i + 4 * Z.of_nat k));
  vo_low a : 0 <= a < BLOCK_BASE_ADDR -> words v !! a = None;
  vo_chain : free_chain (words v) (FREE_BLOCKS_HEAD v) fl;
  vo_nodup : NoDup fl;
  vo_blocks : Forall is_block fl;
}.

Lemma free_chain_unique w fl : forall fl' h,
  Forall is_block fl -> Forall is_block fl' ->
  free_chain w h fl -> free_chain w h fl' -> fl = fl'.
Proof.
  induction fl as [|b fl IH]; intros [|b' fl'] h Hb Hb'; simpl; try done.
  - intros -> [E _]. apply Forall_cons in Hb' as [Hb' _]. by apply is_block_nz in Hb'.
  - intros [-> _] ->. apply Forall_cons in Hb as [Hb _]. by apply is_block_nz in Hb.
  - intros [-> (nx & H1 & H2)] [-> (nx' & H1' & H2')]. simplify_eq.
    apply Forall_cons in Hb as [_ Hb]. apply Forall_cons in Hb' as [_ Hb'].
    f_equal. by eapply IH.
Qed.

Lemma vault_ok_unique v fl fl' : vault_ok v fl -> vault_ok v fl' -> fl = fl'.
Proof. intros [] []. by eapply free_chain_unique. Qed.

Lemma free_chain_insert w h fl a x :
  a ∉ fl -> free_chain w h fl -> free_chain (<[a := x]> w) h fl.
Proof.
  revert h. induction fl as [|b fl IH]; intros h Ha; simpl; [done|].
  intros [-> (nx & H1 & H2)]. split; [done|]. exists nx.
  rewrite lookup_insert_ne by set_solver. split; [done|]. apply IH; set_solver.
Qed.

(** A live node: a block that is not free. *)
Definition live (v : vault) (p : Z) : Prop :=
  is_block p /\ exists fl, vault_ok v fl /\ p ∉ fl.

Lemma block_base p : is_block p -> BLOCK_BASE_ADDR <= p.
Proof. intros (i & _ & ->). unfold block, BLOCK_SIZE. lia. Qed.

(** Nothing is mapped at the null pointer. *)
Lemma stw_null v fl k x : vault_ok v fl -> 4 * Z.of_nat k < BLOCK_BASE_ADDR -> stw v 0 k x = UB.
Proof. intros H Hk. unfold stw. rewrite (vo_low _ _ H); [done|lia]. Qed.

Lemma pool_lookup v fl p k : vault_ok v fl -> is_block p -> (k < node_words L)%nat ->
  is_Some (words v !! (p + 4 * Z.of_nat k)).
Proof. intros H (i & Hi & ->) Hk. by apply (vo_pool _ _ H). Qed.

(** A store into a block that is not free. *)
Lemma stw_ok v fl p k x : vault_ok v fl -> is_block p -> p ∉ fl -> (k < node_words L)%nat ->
  exists v', stw v p k x = Ok v' /\ vault_ok v' fl /\ ldw v' p k = Ok x /\
    forall q j, is_block q -> (j < node_words L)%nat -> (q, j) <> (p, k) -> ldw v' q j = ldw v q j.
Proof.
  intros Hok Hp Hnf Hk. destruct (pool_lookup v fl p k Hok Hp Hk) as [y Hy].
  unfold stw, ldw. rewrite Hy. cbn [of_opt mbind result_bind].
  eexists. split; [done|]. cbn [words]. split_and!.
  - destruct Hok as [Hpool Hlow Hch Hnd Hbl]. split; try done.
    + intros i j Hi Hj. cbn [words]. apply lookup_insert_is_Some'. right. by apply Hpool.
    + intros a Ha. cbn [words]. apply block_base in Hp. rewrite lookup_insert_ne by lia. by apply Hlow.
    + cbn [words FREE_BLOCKS_HEAD]. apply free_chain_insert; [|done].
      intros Hin. rewrite Forall_forall in Hbl.
      destruct (word_inj p _ k 0 Hp (Hbl _ Hin) Hk key_lt ltac:(lia)) as [E ->].
      by rewrite <- E in Hin.
  - by rewrite lookup_insert_eq.
  - intros q j Hq Hj Hne. rewrite lookup_insert_ne; [done|].
    intros E. destruct (word_inj p q k j); naive_solver.
Qed.

Lemma live_stw v p k x v' : live v p -> (k < node_words L)%nat -> stw v p k x = Ok v' ->
  ldw v' p k = Ok x /\ (forall q, live v q -> live v' q) /\
  (forall q j, is_block q -> (j < node_words L)%nat -> (q, j) <> (p, k) -> ldw v' q j = ldw v q j) /\
  (forall fl, vault_ok v fl -> vault_ok v' fl).
Proof.
  intros [Hp (fl & Hok & Hnf)] Hk Hs.
  destruct (stw_ok v fl p k x Hok Hp Hnf Hk) as (v1 & Hs1 & Hok1 & Hg & Ho).
  rewrite Hs in Hs1. injection Hs1 as <-. split_and!; try done.
  - intros q [Hq (fl' & Hok' & Hnf')]. rewrite (vault_ok_unique _ _ _ Hok' Hok) in Hnf'.
    split; [done|]. by exists fl.
  - intros fl' Hok'. by rewrite (vault_ok_unique _ _ _ Hok' Hok).
Qed.

(** ** The storage interface *)

#[local] Instance vault_mem : NodeMem vault := {|
  node_cap := levels L;
  rd_key v p := ldw v p 0;
  rd_top v p := ldw v p (f_top L);
  rd_next v p l := ldw v p (f_next L l);
  wr_next v p l x := stw v p (f_next L l) x;
  has_node := live;
|}.

#[local] Instance vault_laws : NodeMemLaws vault.
Proof.
  split; cbn [rd_key rd_top rd_next wr_next has_node node_cap vault_mem].
  - intros v p l x [Hp (fl & Hok & Hnf)] Hl.
    destruct (stw_ok v fl p (f_next L l) x Hok Hp Hnf (f_next_lt l Hl)) as (v' & H & _). eauto.
  - intros v p l x v' Hp Hl Hw. by apply (live_stw v p (f_next L l) x v' Hp (f_next_lt l Hl)) in Hw as [? _].
  - intros v p l x v' q k Hp Hl Hw [Hq _] Hk Hne.
    destruct (live_stw v p (f_next L l) x v' Hp (f_next_lt l Hl) Hw) as (_ & _ & Ho & _).
    apply Ho; [done|by apply f_next_lt|]. intros [= -> E]. apply f_next_inj in E. congruence.
  - intros v p l x v' q Hp Hl Hw Hq.
    destruct (live_stw v p (f_next L l) x v' Hp (f_next_lt l Hl) Hw) as (_ & Hlv & Ho & _).
    destruct Hq as [Hq ?]. split_and!; [by apply Hlv|..].
    + apply Ho; [done|apply key_lt|]. intros [= _ E]. symmetry in E. by apply f_next_key in E.
    + apply Ho; [done|apply f_top_lt|]. intros [= _ E]. symmetry in E. by apply f_next_top in E.
  - intros v p [Hp _]. by apply is_block_nz.
Qed.

(** ** Allocation *)

Lemma alloc_ok v b fl : vault_ok v (b :: fl) ->
  exists v', alloc_memory_block v = Ok (v', b) /\ vault_ok v' fl /\ words v' = words v /\
    is_block b /\ b ∉ fl.
Proof.
  intros [Hpool Hlow Hch Hnd Hbl]. simpl in Hch. destruct Hch as [Hh (nx & Hnx & Hch)].
  apply NoDup_cons in Hnd as [Hni Hnd]. apply Forall_cons in Hbl as [Hb Hbl].
  unfold alloc_memory_block. rewrite Hh.
  destruct (Z.eqb_spec b 0); [by apply is_block_nz in Hb|].
  unfold ldw. rewrite Z.mul_0_r, Z.add_0_r, Hnx. cbn [of_opt mbind result_bind].
  eexists. split_and!; try done.
Qed.

Lemma alloc_none v : vault_ok v [] -> alloc_memory_block v = Ok (v, 0).
Proof. intros [_ _ Hch _ _]. simpl in Hch. unfold alloc_memory_block. by rewrite Hch. Qed.

Lemma free_ok v fl p : vault_ok v fl -> is_block p -> p ∉ fl ->
  exists v', free_memory_block v p = Ok v' /\ vault_ok v' (p :: fl) /\
    forall q j, is_block q -> (j < node_words L)%nat -> (q, j) <> (p, 0%nat) -> ldw v' q j = ldw v q j.
Proof.
  intros Hok Hp Hnf. unfold free_memory_block.
  destruct (stw_ok v fl p 0 (FREE_BLOCKS_HEAD v) Hok Hp Hnf key_lt) as (v1 & Hs & Hok1 & Hg & Ho).
  rewrite Hs. cbn [mbind result_bind]. eexists. split; [done|]. split.
  - destruct Hok1 as [Hpool Hlow Hch Hnd Hbl]. split; cbn [words FREE_BLOCKS_HEAD]; try done.
    + split; [done|]. exists (FREE_BLOCKS_HEAD v). unfold ldw in Hg.
      rewrite Z.mul_0_r, Z.add_0_r in Hg. split; [by destruct (words v1 !! p); simplify_eq/=|].
      unfold stw in Hs. apply bind_Ok in Hs as (? & _ & [= <-]). exact Hch.
    + by apply NoDup_cons.
    + by constructor.
  - intros q j Hq Hj Hne. by apply Ho.
Qed.

(** A node of the linked list: [new_node->key = ...; new_node->next = ...]. *)
Definition vault_new (v : vault) (k nx : Z) : result (vault * Z) :=
  '(v1, p) ← alloc_memory_block v;
  if p =? 0 then Ok (v1, p)
  else
    v2 ← stw v1 p 0 k;
    v3 ← stw v2 p (f_next L 0) nx;
    Ok (v3, p).

#[local] Instance vault_alloc : NodeAlloc vault := {|
  mem_ok v := exists fl, vault_ok v fl;
  room v n := exists fl, vault_ok v fl /\ (n <= length fl)%nat;
  new_node := vault_new;
  drop_node := free_memory_block;
  reclaims := true;
|}.

(** A block just taken from the free list is live, and so are the others. *)
Lemma alloc_live v b fl v' : vault_ok v (b :: fl) -> alloc_memory_block v = Ok (v', b) ->
  ~ live v b /\ live v' b /\ vault_ok v' fl /\ words v' = words v /\ forall q, live v q -> live v' q.
Proof.
  intros Hok Ha. destruct (alloc_ok v b fl Hok) as (v1 & Ha1 & Hok1 & Hw & Hb & Hnf).
  rewrite Ha in Ha1. injection Ha1 as <-. split_and!; try done.
  - intros [_ (fl' & Hok' & Hnf')]. rewrite (vault_ok_unique _ _ _ Hok' Hok) in Hnf'. set_solver.
  - split; [done|]. by exists fl.
  - intros q [Hq (fl' & Hok' & Hnf')]. rewrite (vault_ok_unique _ _ _ Hok' Hok) in Hnf'.
    split; [done|]. exists fl. split; [done|]. set_solver.
Qed.

Lemma vault_alloc_laws : (0 < levels L)%nat -> NodeAllocLaws vault.
Proof.
  intros Hlv. split; cbn [node_cap mem_ok room new_node drop_node reclaims has_node wr_next vault_mem vault_alloc].
  - done.
  - intros v k nx n _ (fl & Hok & Hlen). destruct fl as [|b fl]; simpl in Hlen; [lia|].
    destruct (alloc_ok v b fl Hok) as (v1 & Ha & Hok1 & Hw1 & Hb & Hnf).
    destruct (alloc_live v b fl v1 Hok Ha) as (Hnl & Hl1 & _ & _ & Hk1).
    unfold vault_new. rewrite Ha. cbn [mbind result_bind].
    destruct (Z.eqb_spec b 0); [by apply is_block_nz in Hb|].
    destruct (stw_ok v1 fl b 0 k Hok1 Hb Hnf key_lt) as (v2 & Hs2 & Hok2 & Hg2 & Ho2).
    rewrite Hs2. cbn [mbind result_bind].
    destruct (stw_ok v2 fl b (f_next L 0) nx Hok2 Hb Hnf (f_next_lt 0 Hlv))
      as (v3 & Hs3 & Hok3 & Hg3 & Ho3).
    rewrite Hs3. cbn [mbind result_bind]. exists v3, b. split_and!; try done.
    + split; [done|]. by exists fl.
    + cbn [rd_key vault_mem]. rewrite Ho3; [done..| |]; [apply key_lt|].
      intros [= E]. symmetry in E. by apply f_next_key in E.
    + intros q Hq _. assert (Hqb : q <> b) by (by intros ->).
      assert (Hqk : is_block q) by apply Hq.
      split; [|split; cbn [rd_key rd_next vault_mem]].
      * destruct Hq as [_ (fl' & Hok' & Hnf')]. rewrite (vault_ok_unique _ _ _ Hok' Hok) in Hnf'.
        split; [done|]. exists fl. split; [done|]. set_solver.
      * rewrite Ho3, Ho2 by (try apply key_lt; try done; congruence). unfold ldw. by rewrite Hw1.
      * rewrite Ho3, Ho2 by (try apply f_next_lt; try done; congruence). unfold ldw. by rewrite Hw1.
    + by exists fl.
    + exists fl. split; [done|lia].
  - intros v p n _ [Hp (fl & Hok & Hnf)] (fl0 & Hok0 & Hlen).
    rewrite (vault_ok_unique _ _ _ Hok0 Hok) in Hlen.
    destruct (free_ok v fl p Hok Hp Hnf) as (v' & Hf & Hok' & Ho). exists v'. split; [done|].
    split_and!.
    + intros q [Hq (fl' & Hokq & Hnfq)] Hne. rewrite (vault_ok_unique _ _ _ Hokq Hok) in Hnfq.
      split; [|split; cbn [rd_key rd_next vault_mem]].
      * split; [done|]. exists (p :: fl). split; [done|]. set_solver.
      * apply Ho; [done|apply key_lt|congruence].
      * apply Ho; [done|by apply f_next_lt|congruence].
    + by exists (p :: fl).
    + exists (p :: fl). split; [done|]. simpl. lia.
  - intros v p x v' n (fl & Hok) (fl0 & Hok0 & Hlen) Hp Hw.
    destruct (live_stw v p (f_next L 0) x v' Hp (f_next_lt 0 Hlv) Hw) as (_ & _ & _ & Hfl). eauto 10.
  - intros v n k (fl & Hok & Hlen) Hk. exists fl. split; [done|lia].
Qed.

(** ** Skip lists in the vault *)

Lemma vault_fuel v fl head tail tkey maxl ns :
  vault_ok v fl -> skip_inv v head tail tkey maxl ns -> (length ns < S (size (words v)))%nat.
Proof.
  intros Hok Hinv. pose proof (si_nodup _ _ _ _ _ _ Hinv) as Hnd.
  do 2 apply NoDup_cons in Hnd as [_ Hnd].
  rewrite <- (length_fmap s_ptr ns). apply Nat.lt_succ_r, NoDup_dom_size; [done|].
  intros p Hp. pose proof (si_nodes _ _ _ _ _ _ Hinv) as Hn. rewrite Forall_forall in Hn.
  destruct (Hn p ltac:(set_solver)) as [Hb _].
  pose proof (pool_lookup v fl p 0 Hok Hb key_lt) as H. by rewrite Z.mul_0_r, Z.add_0_r in H.
Qed.

(** Writing a field of a block that is not in the list. *)
Lemma inv_stw v fl head tail tkey maxl ns b k x v' :
  vault_ok v fl -> skip_inv v head tail tkey maxl ns -> is_block b -> b ∉ fl ->
  b ∉ head :: tail :: (s_ptr <$> ns) -> (k < node_words L)%nat -> stw v b k x = Ok v' ->
  vault_ok v' fl /\ skip_inv v' head tail tkey maxl ns /\ ldw v' b k = Ok x /\
  forall j, (j < node_words L)%nat -> j <> k -> ldw v' b j = ldw v b j.
Proof.
  intros Hok Hinv Hb Hnf Hni Hk Hs.
  destruct (stw_ok v fl b k x Hok Hb Hnf Hk) as (v1 & Hs1 & Hok1 & Hg & Ho).
  rewrite Hs in Hs1. injection Hs1 as <-. split_and!; try done.
  - eapply skip_inv_frame; [done|]. intros q Hq.
    pose proof (si_nodes _ _ _ _ _ _ Hinv) as Hn. rewrite Forall_forall in Hn.
    pose proof (Hn q Hq) as Hlv. destruct Hlv as [Hqb (fl' & Hok' & Hnf')].
    assert (q <> b) by (intros ->; done).
    cbn [rd_key rd_top rd_next has_node node_cap vault_mem].
    split_and!.
    + split; [done|]. exists fl. split; [done|]. by rewrite (vault_ok_unique _ _ _ Hok Hok').
    + apply Ho; [done|apply key_lt|congruence].
    + apply Ho; [done|apply f_top_lt|congruence].
    + intros l Hl. apply Ho; [done|by apply f_next_lt|congruence].
  - intros j Hj Hjk. apply Ho; [done..|congruence].
Qed.

(** The vault invariant survives writes to the links of live nodes. *)
Lemma vault_ok_wr fl m p l v m' : has_node m p -> (l < node_cap)%nat -> wr_next m p l v = Ok m' ->
  vault_ok m fl -> vault_ok m' fl.
Proof.
  cbn [has_node node_cap wr_next vault_mem]. intros Hp Hl Hw Hok.
  by apply (live_stw m p (f_next L l) v m' Hp (f_next_lt l Hl)) in Hw as (_ & _ & _ & H); auto.
Qed.

(** A new node: a block is taken, its [top_level] and [key] are set and it is linked. *)
Lemma vault_insert v b fl head tail tkey maxl ns param level preds succs :
  vault_ok v (b :: fl) -> skip_inv v head tail tkey maxl ns ->
  param < tkey -> param ∉ skip_set ns -> 1 <= level <= Z.of_nat maxl ->
  (forall l, (l < maxl)%nat -> arr_get preds l = Ok (pred_at head l (lows param ns))) ->
  (forall l, (l < maxl)%nat -> arr_get succs l = Ok (succ_at tail l (highs param ns))) ->
  exists v1 v2 v3 v4 ns', alloc_memory_block v = Ok (v1, b) /\
    stw v1 b (f_top L) level = Ok v2 /\ stw v2 b 0 param = Ok v3 /\
    link_levels v3 b preds succs (seq 0 (Z.to_nat level)) = Ok v4 /\
    vault_ok v4 fl /\ skip_inv v4 head tail tkey maxl ns' /\
    skip_set ns' = {[param]} ∪ skip_set ns /\ rd_key v4 head = rd_key v head.
Proof.
  intros Hok Hinv Hp Hnin Hlev HP HS. pose proof (si_max _ _ _ _ _ _ Hinv) as Hm.
  destruct (alloc_ok _ b fl Hok) as (v1 & Ha & Hok1 & Hw1 & Hb & Hnf).
  destruct (alloc_live _ b fl v1 Hok Ha) as (Hnl & Hl1 & _ & _ & Hk1).
  pose proof (si_nodes _ _ _ _ _ _ Hinv) as Hn. rewrite Forall_forall in Hn.
  assert (Hni : b ∉ head :: tail :: (s_ptr <$> ns)) by (intros Hin; by apply Hnl, Hn).
  assert (Hinv1 : skip_inv v1 head tail tkey maxl ns).
  { eapply skip_inv_frame; [exact Hinv|]. intros q Hq.
    cbn [rd_key rd_top rd_next has_node node_cap vault_mem]. unfold ldw. rewrite Hw1.
    split_and!; try done. by apply Hk1, Hn. }
  destruct (stw_ok v1 fl b (f_top L) level Hok1 Hb Hnf f_top_lt) as (v2 & Hs2 & _ & _ & Hf2).
  destruct (inv_stw v1 fl _ _ _ _ ns b (f_top L) level v2 Hok1 Hinv1 Hb Hnf Hni f_top_lt Hs2)
    as (Hok2 & Hinv2 & Hg2 & Ho2).
  destruct (stw_ok v2 fl b 0 param Hok2 Hb Hnf key_lt) as (v3 & Hs3 & _ & _ & Hf3).
  destruct (inv_stw v2 fl _ _ _ _ ns b 0 param v3 Hok2 Hinv2 Hb Hnf Hni key_lt Hs3)
    as (Hok3 & Hinv3 & Hg3 & Ho3).
  assert (Hbn : has_node v3 b) by (split; [done|by exists fl]).
  destruct (skip_insert _ _ _ _ _ _ Hinv3 param b (Z.to_nat level) preds succs) as (v4 & Hrun & Hh4 & Hinv4);
    try done; try lia.
  { by rewrite <- elem_of_skip_set. }
  { cbn [rd_top vault_mem]. rewrite Ho3, Hg2; [f_equal; lia|apply f_top_lt|apply f_top_key]. }
  { intros l Hl. apply HP. lia. }
  { intros l Hl. apply HS. lia. }
  exists v1, v2, v3, v4. eexists. split_and!; try done.
  - eapply (link_levels_pres (fun m => vault_ok m fl)); [..|exact Hrun|done| |done].
    { intros m p l x m'. apply vault_ok_wr. }
    intros l p Hl Hg. apply elem_of_seq in Hl. rewrite HP in Hg by lia. injection Hg as <-.
    split; [cbn in *; lia|]. by eapply pred_node.
  - by eapply skip_set_insert.
  - assert (Hhd : has_node v3 head).
    { pose proof (si_nodes _ _ _ _ _ _ Hinv3) as Hn3. by apply Forall_cons in Hn3 as [? _]. }
    destruct (Hh4 head Hhd) as (_ & -> & _). cbn [rd_key vault_mem].
    destruct (Hn head ltac:(set_solver)) as [Hhb _].
    rewrite Hf3, Hf2; try done; try apply key_lt; try (intros [= ->]; set_solver).
    unfold ldw. by rewrite Hw1.
Qed.

(** ** Initialisation *)

Lemma block_inj i j : block i = block j -> i = j.
Proof. unfold block, BLOCK_SIZE, node_words. nia. Qed.

Lemma init_blocks_ok n : forall i v fl, vault_ok v fl -> (i + n <= num)%nat ->
  (forall j, (i <= j)%nat -> block j ∉ fl) ->
  exists v', init_blocks v i n = Ok v' /\ vault_ok v' (reverse (block <$> seq i n) ++ fl).
Proof.
  induction n as [|n IH]; intros i v fl Hok Hn Hfr; [by exists v|].
  assert (Hb : is_block (block i)) by (exists i; split; [lia|done]).
  destruct (free_ok v fl (block i) Hok Hb (Hfr i ltac:(lia))) as (v1 & Hf & Hok1 & _).
  destruct (IH (S i) v1 (block i :: fl) Hok1 ltac:(lia)) as (v2 & Hi & Hok2).
  { intros j Hj [E|Hin]%elem_of_cons; [apply block_inj in E; lia|]. by apply (Hfr j ltac:(lia)). }
  exists v2. split.
  - unfold free_memory_block in Hf. apply bind_Ok in Hf as (w & Hs & [= <-]).
    cbn [init_blocks]. rewrite Hs. exact Hi.
  - cbn [seq]. by rewrite fmap_cons, reverse_cons, <- app_assoc.
Qed.

Lemma init_next_ok fl head tail ls : forall v,
  vault_ok v fl -> is_block head -> is_block tail -> head ∉ fl -> tail ∉ fl -> head <> tail ->
  Forall (fun l => (l < levels L)%nat) ls -> NoDup ls ->
  exists v', init_next v head tail ls = Ok v' /\ vault_ok v' fl /\
    (forall l, l ∈ ls -> ldw v' head (f_next L l) = Ok tail) /\
    (forall q j, is_block q -> (j < node_words L)%nat -> (forall l, l ∈ ls -> j <> f_next L l) ->
       ldw v' q j = ldw v q j).
Proof.
  induction ls as [|l ls IH]; intros v Hok Hh Ht Hnh Hnt Hne Hls Hnd.
  { exists v. split_and!; try done. intros l Hl. set_solver. }
  apply Forall_cons in Hls as [Hl Hls]. apply NoDup_cons in Hnd as [Hnl Hnd].
  destruct (stw_ok v fl head (f_next L l) tail Hok Hh Hnh (f_next_lt l Hl)) as (v1 & Hs1 & Hok1 & Hg1 & Ho1).
  destruct (stw_ok v1 fl tail (f_next L l) 0 Hok1 Ht Hnt (f_next_lt l Hl)) as (v2 & Hs2 & Hok2 & Hg2 & Ho2).
  destruct (IH v2 Hok2 Hh Ht Hnh Hnt Hne Hls Hnd) as (v3 & Hi & Hok3 & Hg3 & Ho3).
  exists v3. cbn [init_next]. rewrite Hs1. cbn [mbind result_bind]. rewrite Hs2. cbn [mbind result_bind].
  split_and!; try done.
  - intros k [->|Hk]%elem_of_cons; [|by apply Hg3].
    rewrite Ho3, Ho2; try done; try (by apply f_next_lt); [congruence|].
    intros k' Hk' E. apply f_next_inj in E. congruence.
  - intros q j Hq Hj Hjl. rewrite Ho3, Ho2, Ho1; try done.
    + intros [= _ E]. apply (Hjl l); [set_solver|done].
    + intros [= _ E]. apply (Hjl l); [set_solver|done].
    + intros k Hk. apply Hjl. set_solver.
Qed.

(** The vault after [list_init]: two sentinels, the other blocks free. *)
Lemma list_init_ok w maxl :
  (2 <= num)%nat -> (1 <= maxl <= levels L)%nat ->
  (forall i k, (i < num)%nat -> (k < node_words L)%nat ->
     is_Some (w !! (block i + 4 * Z.of_nat k))) ->
  (forall a, 0 <= a < BLOCK_BASE_ADDR -> w !! a = None) ->
  exists v head tail fl, list_init w num = Ok (v, head, tail) /\ vault_ok v fl /\
    length fl = (num - 2)%nat /\ skip_inv v head tail UINT32_MAX maxl [] /\
    rd_key v head = Ok 0.
Proof.
  intros Hnum Hmax Hpool Hlow.
  destruct (init_blocks_ok num 0 (mkVault w 0) []) as (v0 & Hi & Hok0);
    [by split; try done; constructor|lia|set_solver|].
  rewrite app_nil_r in Hok0.
  destruct (reverse (block <$> seq 0 num)) as [|head [|tail fl]] eqn:El;
    [apply (f_equal length) in El; rewrite length_reverse, length_fmap, length_seq in El; simpl in El; lia..|].
  assert (Hlen : length fl = (num - 2)%nat).
  { apply (f_equal length) in El. rewrite length_reverse, length_fmap, length_seq in El. simpl in El. lia. }
  destruct (alloc_ok v0 head (tail :: fl) Hok0) as (v1 & Ha1 & Hok1 & _ & Hbh & Hnh).
  destruct (alloc_ok v1 tail fl Hok1) as (v2 & Ha2 & Hok2 & _ & Hbt & Hnt).
  assert (Hne : head <> tail) by set_solver. assert (Hnh' : head ∉ fl) by set_solver.
  unfold list_init. rewrite Hi. cbn [mbind result_bind]. rewrite Ha1. cbn [mbind result_bind].
  rewrite Ha2. cbn [mbind result_bind].
  destruct (stw_ok v2 fl head 0 0 Hok2 Hbh Hnh' key_lt) as (v3 & -> & Hok3 & Hg3 & Ho3).
  cbn [mbind result_bind].
  destruct (stw_ok v3 fl tail 0 UINT32_MAX Hok3 Hbt Hnt key_lt) as (v4 & -> & Hok4 & Hg4 & Ho4).
  cbn [mbind result_bind].
  destruct (stw_ok v4 fl head (f_top L) (Z.of_nat (levels L)) Hok4 Hbh Hnh' f_top_lt) as (v5 & -> & Hok5 & Hg5 & Ho5).
  cbn [mbind result_bind].
  destruct (stw_ok v5 fl tail (f_top L) (Z.of_nat (levels L)) Hok5 Hbt Hnt f_top_lt) as (v6 & -> & Hok6 & Hg6 & Ho6).
  cbn [mbind result_bind].
  destruct (init_next_ok fl head tail (seq 0 (levels L)) v6) as (v7 & -> & Hok7 & Hn7 & Ho7); try done.
  { apply Forall_forall. intros l Hl%elem_of_seq. lia. }
  { apply NoDup_seq. }
  cbn [mbind result_bind]. pose proof f_top_key as Htk. pose proof f_top_lt. pose proof key_lt.
  assert (Hkey : forall q, is_block q -> ldw v7 q 0 = ldw v4 q 0).
  { intros q Hq. rewrite Ho7, Ho6, Ho5; try done; try congruence.
    intros l _ E. symmetry in E. by apply f_next_key in E. }
  exists v7, head, tail, fl. split_and!; try done.
  - split; simpl; try done; try (by constructor).
    + intros l Hl. apply Hn7. apply elem_of_seq. lia.
    + by rewrite Hkey, Hg4.
    + apply NoDup_cons. split; [set_solver|]. apply NoDup_singleton.
    + constructor; [|constructor; [|constructor]]; (split; [done|]); by exists fl.
    + lia.
  - cbn [rd_key vault_mem]. rewrite Hkey, Ho4, Hg3; try done. congruence.
Qed.

(** Words for the blocks and nothing below them. *)
Definition fresh_vault (w : gmap Z Z) : Prop :=
  (forall i k, (i < num)%nat -> (k < node_words L)%nat -> is_Some (w !! (block i + 4 * Z.of_nat k))) /\
  (forall a, 0 <= a < BLOCK_BASE_ADDR -> w !! a = None).

(** Such a vault, filled with zeros. *)
Definition zero_words : gmap Z Z :=
  list_to_map ((fun k => (BLOCK_BASE_ADDR + 4 * Z.of_nat k, 0)) <$> seq 0 (node_words L * num)).

Lemma zero_words_fresh : fresh_vault zero_words.
Proof.
  unfold zero_words. split.
  - intros i k Hi Hk. apply elem_of_dom. rewrite dom_list_to_map_L, elem_of_list_to_set.
    rewrite <- list_fmap_compose. apply list_elem_of_fmap. exists (node_words L * i + k)%nat.
    split; [|apply elem_of_seq; nia]. unfold block, BLOCK_SIZE. cbn. lia.
  - intros a Ha. apply not_elem_of_dom. rewrite dom_list_to_map_L, elem_of_list_to_set.
    rewrite <- list_fmap_compose. intros (k & -> & _)%list_elem_of_fmap. cbn in Ha. lia.
Qed.

End layout.
