(* ===== verification/KernelDma.v ===== *)
(** * Kernels of the device and their DMA transfers

    A kernel of src/SMC/SW/PIM/kernels reads and writes words of memory and of the scratchpad, starts DMA transfers with DMA_REQUEST and waits for them with
    DMA_WAIT (src/SMC/SW/PIM/resident/utils.h).  A kernel is a [prog] here, a tree of these accesses.  A transfer is a set of moves of words, which the
    engine makes one by one, in any order and at any time after the request, while the kernel runs on: [astep] is this semantics.  An access
    to an address that is not mapped has no step.

    The theorem of this file is about kernels without races: if a kernel, run with transfers that are complete at once, never touches a word
    that a transfer in progress may write and never writes a word that one may read ([run] checks it), then every execution with the real engine
    ends, without fault, in the memory that this run computes.  The engine [astep] makes every move once.  [lstep] is an engine that may also make moves again and never finish
    others, as the engine of the simulator does with overlapping requests (PimDma.v): then the kernel may wait for ever, but if it returns the memory is the same.
    MatrixKernels.v, TreeKernels.v and GraphKernels.v apply this to kernels. *)

From stdpp Require Import list_numbers.
From S2P Require Import Prelude.

(** A word of the 32-bit device: [ulong_t] has 4 bytes. *)
Definition W : Z := 4.

(** A move of one word: the resource of its request, and the addresses to and from which it goes. *)
Record move := mkMv { mv_res : Z; mv_dst : Z; mv_src : Z }.

Inductive prog :=
  | Ret
  | Cut
  | Load (a : Z) (k : Z -> prog)
  | Store (a v : Z) (k : prog)
  | Request (ms : list move) (k : prog)
  | Wait (r : Z) (k : prog).

Inductive dma_dir := PIM_DMA_READ | PIM_DMA_WRITE.

(** The moves of a request for [n] words between the address [ma] of memory and [sa] of the scratchpad. *)
Definition moves (ma sa : Z) (n : Z) (dir : dma_dir) (r : Z) : list move :=
  (fun i => match dir with PIM_DMA_READ => mkMv r (sa + W * i) (ma + W * i) | PIM_DMA_WRITE => mkMv r (ma + W * i) (sa + W * i) end) <$> seqZ 0 n.
(** DMA_REQUEST for a number of bytes that is a multiple of the word: what is asked of the engine.  When the moves are made is up to the engine ([astep]), and in its second version also how often and whether ([lstep]). *)
Definition DMA_REQUEST (ma sa nb : Z) (dir : dma_dir) (r : Z) (k : prog) : prog := Request (moves ma sa (nb / W) dir r) k.
(** DMA_WAIT loops while a request with this resource is in progress. *)
Definition DMA_WAIT (r : Z) (k : prog) : prog := Wait r k.

(** ** The engine at work *)

Notation kmem := (gmap Z Z).
Implicit Types (m : kmem) (pd out : list move).

Definition mapped m (x : move) : Prop := is_Some (m !! mv_dst x) /\ is_Some (m !! mv_src x).

Inductive astep : prog * kmem * list move -> prog * kmem * list move -> Prop :=
  | as_load a k m pd v : m !! a = Some v -> astep (Load a k, m, pd) (k v, m, pd)
  | as_store a v k m pd : is_Some (m !! a) -> astep (Store a v k, m, pd) (k, <[a := v]> m, pd)
  | as_request ms k m pd : Forall (mapped m) ms -> astep (Request ms k, m, pd) (k, m, pd ++ ms)
  | as_wait r k m pd : Forall (fun x => mv_res x <> r) pd -> astep (Wait r k, m, pd) (k, m, pd)
  | as_move p m pd1 x pd2 v : m !! mv_src x = Some v -> is_Some (m !! mv_dst x) -> astep (p, m, pd1 ++ x :: pd2) (p, <[mv_dst x := v]> m, pd1 ++ pd2).

(** ** Transfers that are complete at once *)

Definition dsts out : list Z := mv_dst <$> out.
Definition srcs out : list Z := mv_src <$> out.

(** No two moves write the same word, and none writes a word that another reads. *)
Definition apart out : Prop := NoDup (dsts out) /\ Forall (fun d => d ∉ srcs out) (dsts out).
#[export] Instance apart_dec out : Decision (apart out).
Proof. apply _. Defined.
#[export] Instance mapped_dec m x : Decision (mapped m x).
Proof. unfold mapped. apply _. Defined.

Definition copy m (ms : list move) : kmem := foldl (fun m' x => match m !! mv_src x with Some v => <[mv_dst x := v]> m' | None => m' end) m ms.

(** [None] is a fault, a race or a loop that was cut; [out] are the moves that may still be in progress. *)
Fixpoint run (p : prog) m out : option (kmem * list move) :=
  match p with
  | Ret => Some (m, out)
  | Cut => None
  | Load a k => if decide (a ∈ dsts out) then None else v ← m !! a; run (k v) m out
  | Store a v k => if decide (a ∈ dsts out \/ a ∈ srcs out) then None else _ ← m !! a; run k (<[a := v]> m) out
  | Request ms k => if decide (apart (out ++ ms) /\ Forall (mapped m) ms) then run k (copy m ms) (out ++ ms) else None
  | Wait r k => run k m (filter (fun x => mv_res x <> r) out)
  end.

(** ** A copy *)

Lemma copy_from m0 ms a : forall m, a ∉ dsts ms -> foldl (fun m' x => match m0 !! mv_src x with Some v => <[mv_dst x := v]> m' | None => m' end) m ms !! a = m !! a.
Proof.
  induction ms as [|x ms IH]; intros m Ha; cbn; [done|]. cbn in Ha. apply not_elem_of_cons in Ha as [Hx Ha]. rewrite IH by done.
  destruct (m0 !! mv_src x); [by rewrite lookup_insert_ne by done|done].
Qed.

Lemma copy_other m ms a : a ∉ dsts ms -> copy m ms !! a = m !! a.
Proof. apply copy_from. Qed.

Lemma copy_into m0 ms x : NoDup (dsts ms) -> Forall (mapped m0) ms -> x ∈ ms -> forall m,
  foldl (fun m' x => match m0 !! mv_src x with Some v => <[mv_dst x := v]> m' | None => m' end) m ms !! mv_dst x = m0 !! mv_src x.
Proof.
  intros Hnd Hm Hx. induction ms as [|y ms IH]; intros m; [by apply elem_of_nil in Hx|].
  cbn in Hnd. apply NoDup_cons in Hnd as [Hy Hnd]. apply Forall_cons in Hm as [[_ [v Hv]] Hm]. cbn [foldl]. apply elem_of_cons in Hx as [->|Hx].
  - rewrite copy_from by done. rewrite Hv. apply lookup_insert_eq.
  - by apply IH.
Qed.

Lemma copy_dst m ms x : NoDup (dsts ms) -> Forall (mapped m) ms -> x ∈ ms -> copy m ms !! mv_dst x = m !! mv_src x.
Proof. intros H1 H2 H3. by apply copy_into. Qed.

Lemma in_dsts x ms : x ∈ ms -> mv_dst x ∈ dsts ms.
Proof. intros Hx. apply list_elem_of_fmap. eauto. Qed.
Lemma in_srcs x ms : x ∈ ms -> mv_src x ∈ srcs ms.
Proof. intros Hx. apply list_elem_of_fmap. eauto. Qed.

Lemma copy_dom m ms a : NoDup (dsts ms) -> Forall (mapped m) ms -> is_Some (copy m ms !! a) <-> is_Some (m !! a).
Proof.
  intros Hnd Hm. destruct (decide (a ∈ dsts ms)) as [(x & -> & Hx)%list_elem_of_fmap|Ha]; [|by rewrite copy_other]. rewrite copy_dst by done.
  rewrite Forall_forall in Hm. destruct (Hm x Hx). split; done.
Qed.

Lemma apart_sub pd out : pd ⊆+ out -> apart out -> apart pd.
Proof.
  intros Hs [Hnd Hf]. split.
  - apply submseteq_Permutation in Hs as (l & Hp). unfold dsts in *. rewrite Hp, fmap_app in Hnd. by apply NoDup_app in Hnd as (Hnd & _).
  - rewrite Forall_forall in *. intros d Hd Hs'. assert (Hd' : d ∈ dsts out) by (eapply elem_of_submseteq; [exact Hd|by apply fmap_submseteq]).
    apply (Hf d Hd'). eapply elem_of_submseteq; [exact Hs'|by apply fmap_submseteq].
Qed.

Lemma apart_ne out x y : apart out -> x ∈ out -> y ∈ out -> mv_dst x <> mv_src y.
Proof. intros [_ Hf] Hx Hy E. rewrite Forall_forall in Hf. apply (Hf (mv_dst x)); [by apply in_dsts|]. rewrite E. by apply in_srcs. Qed.

(** ** The simulation *)

(** The memory [ms] of the run is what the memory [m] of the engine becomes when the moves [pd] in progress are made. *)
Record agree m pd (ms : kmem) out : Prop := {
  ag_sub : pd ⊆+ out;
  ag_apart : apart out;
  ag_mapped : Forall (mapped m) pd;
  ag_dom a : is_Some (ms !! a) <-> is_Some (m !! a);
  ag_same a : a ∉ dsts pd -> ms !! a = m !! a;
  ag_move x : x ∈ pd -> ms !! mv_dst x = m !! mv_src x;
}.

Lemma mapped_dom m m' x : (forall a, is_Some (m' !! a) <-> is_Some (m !! a)) -> mapped m x -> mapped m' x.
Proof. intros Hd [H1 H2]. split; by apply Hd. Qed.

Lemma insert_dom m a v b : is_Some (m !! a) -> is_Some (<[a := v]> m !! b) <-> is_Some (m !! b).
Proof. intros Ha. rewrite lookup_insert_is_Some. destruct (decide (a = b)) as [->|]; tauto. Qed.

Lemma agree_move m pd1 x pd2 ms out v : agree m (pd1 ++ x :: pd2) ms out -> m !! mv_src x = Some v -> agree (<[mv_dst x := v]> m) (pd1 ++ pd2) ms out.
Proof.
  intros [H1 H2 H3 H4 H5 H6] Hv. pose proof (apart_sub _ _ H1 H2) as Hap. assert (Hx : x ∈ pd1 ++ x :: pd2) by set_solver.
  assert (Hm : is_Some (m !! mv_dst x)) by (rewrite Forall_forall in H3; by apply (H3 x)).
  assert (Hsub : forall y, y ∈ pd1 ++ pd2 -> y ∈ pd1 ++ x :: pd2) by set_solver.
  assert (Hdom : forall a, is_Some (<[mv_dst x := v]> m !! a) <-> is_Some (m !! a)) by (intros a; by apply insert_dom).
  split.
  - etrans; [|exact H1]. apply submseteq_app; [done|]. by apply submseteq_cons.
  - done.
  - rewrite Forall_forall in *. intros y Hy. eapply mapped_dom; [exact Hdom|]. auto.
  - intros a. by rewrite Hdom.
  - intros a Ha. destruct (decide (a = mv_dst x)) as [->|Hne]; [rewrite lookup_insert_eq, <- Hv; by apply H6|]. rewrite lookup_insert_ne by done. apply H5.
    unfold dsts in *. rewrite fmap_app in *. cbn. set_solver.
  - intros y Hy. rewrite lookup_insert_ne; [by apply H6, Hsub|]. apply (apart_ne _ x y Hap Hx). by apply Hsub.
Qed.

Lemma dsts_sub pd out a : pd ⊆+ out -> a ∉ dsts out -> a ∉ dsts pd.
Proof. intros Hs Ha Hp. apply Ha. eapply elem_of_submseteq; [exact Hp|by apply fmap_submseteq]. Qed.
Lemma srcs_sub pd out a : pd ⊆+ out -> a ∉ srcs out -> a ∉ srcs pd.
Proof. intros Hs Ha Hp. apply Ha. eapply elem_of_submseteq; [exact Hp|by apply fmap_submseteq]. Qed.

Lemma agree_store m pd ms out a v : agree m pd ms out -> a ∉ dsts out -> a ∉ srcs out -> is_Some (m !! a) -> agree (<[a := v]> m) pd (<[a := v]> ms) out.
Proof.
  intros [H1 H2 H3 H4 H5 H6] Hd Hs Ha. pose proof (dsts_sub _ _ _ H1 Hd) as Hd'. pose proof (srcs_sub _ _ _ H1 Hs) as Hs'. assert (Ha' : is_Some (ms !! a)) by by apply H4.
  split; try done.
  - eapply Forall_impl; [exact H3|]. intros x. apply mapped_dom. intros b. by apply insert_dom.
  - intros b. rewrite !insert_dom by done. apply H4.
  - intros b Hb. destruct (decide (a = b)) as [->|Hne]; [by rewrite !lookup_insert_eq|]. rewrite !lookup_insert_ne by done. auto.
  - intros x Hx. rewrite !lookup_insert_ne; [auto| |]; intros ->; [apply Hs'; by apply in_srcs|apply Hd'; by apply in_dsts].
Qed.

Lemma agree_request m pd ms out new : agree m pd ms out -> apart (out ++ new) -> Forall (mapped ms) new -> agree m (pd ++ new) (copy ms new) (out ++ new).
Proof.
  intros [H1 H2 H3 H4 H5 H6] Hap Hm. assert (Hnew : NoDup (dsts new)) by (destruct Hap as [Hn _]; unfold dsts in *; rewrite fmap_app in Hn; by apply NoDup_app in Hn as (_ & _ & Hn)).
  assert (Hsep : forall x, x ∈ pd -> mv_dst x ∉ dsts new).
  { intros x Hx (y & E & Hy)%list_elem_of_fmap. destruct Hap as [Hn _]. unfold dsts in Hn. rewrite fmap_app in Hn. apply NoDup_app in Hn as (_ & Hn & _).
    apply (Hn (mv_dst x)); [apply list_elem_of_fmap; exists x; split; [done|by eapply elem_of_submseteq]|]. rewrite E. by apply list_elem_of_fmap_2. }
  assert (Hsrc : forall x, x ∈ new -> mv_src x ∉ dsts pd).
  { intros x Hx (y & E & Hy)%list_elem_of_fmap. apply (apart_ne _ y x Hap); [|set_solver|done]. apply elem_of_app. left. by eapply elem_of_submseteq. }
  split.
  - by apply submseteq_skips_r.
  - done.
  - apply Forall_app. split; [done|]. eapply Forall_impl; [exact Hm|]. intros x. apply mapped_dom. intros a. by rewrite H4.
  - intros a. by rewrite copy_dom.
  - intros a Ha. unfold dsts in Ha. rewrite fmap_app, not_elem_of_app in Ha. destruct Ha. rewrite copy_other by done. by apply H5.
  - intros x [Hx|Hx]%elem_of_app.
    + rewrite copy_other by (by apply Hsep). by apply H6.
    + rewrite copy_dst by done. by apply H5, Hsrc.
Qed.

Lemma agree_wait m pd ms out r : agree m pd ms out -> Forall (fun x => mv_res x <> r) pd -> agree m pd ms (filter (fun x => mv_res x <> r) out).
Proof.
  intros [H1 H2 H3 H4 H5 H6] Hr. assert (Hs : pd ⊆+ filter (fun x => mv_res x <> r) out).
  { apply submseteq_Permutation in H1 as (l & ->). rewrite filter_app, filter_all; [|done]. apply submseteq_inserts_r. done. }
  split; try done. eapply apart_sub; [|exact H2]. apply sublist_submseteq, sublist_filter.
Qed.

Lemma run_step p m pd p' m' pd' ms out res : astep (p, m, pd) (p', m', pd') -> agree m pd ms out -> run p ms out = Some res -> exists ms' out', agree m' pd' ms' out' /\ run p' ms' out' = Some res.
Proof.
  intros Hs Ha Hr. pose proof Ha as [H1 H2 H3 H4 H5 H6]. inversion Hs; subst; clear Hs; cbn in Hr.
  - case_decide as Hd; [done|]. rewrite (H5 a) in Hr by (by eapply dsts_sub). exists ms, out. split; [done|]. by simplify_option_eq.
  - case_decide as Hd; [done|]. apply Decidable.not_or in Hd as [Hd Hd']. apply bind_Some in Hr as (u & Hu & Hr). eexists _, _. split; [by apply agree_store|exact Hr].
  - case_decide as Hd; [|done]. destruct Hd. eexists _, _. split; [by apply agree_request|exact Hr].
  - eexists _, _. split; [by apply agree_wait|exact Hr].
  - exists ms, out. split; [by apply agree_move|done].
Qed.

(** A move in progress can be made. *)
Lemma move_can p m pd x ms out : agree m pd ms out -> x ∈ pd -> exists s', astep (p, m, pd) s'.
Proof.
  intros [H1 H2 H3 H4 H5 H6] Hx. apply list_elem_of_split in Hx as (pd1 & pd2 & ->). apply Forall_app in H3 as [_ [[Hd [v Hs]] _]%Forall_cons]. eexists. apply (as_move _ _ _ _ _ v); done.
Qed.

Lemma run_can p m pd ms out res : agree m pd ms out -> run p ms out = Some res -> (exists s', astep (p, m, pd) s') \/ (p = Ret /\ pd = []).
Proof.
  intros Ha Hr. destruct (decide (pd = [])) as [->|Hp].
  2:{ destruct pd as [|x pd]; [done|]. left. eapply move_can; [exact Ha|left]. }
  pose proof Ha as [H1 H2 H3 H4 H5 H6]. assert (Hsame : forall a, ms !! a = m !! a) by (intros a; apply H5, not_elem_of_nil).
  destruct p as [| |a k|a v k|new k|r k]; cbn in Hr; [by right|done|left..].
  - case_decide; [done|]. apply bind_Some in Hr as (v & Hv & _). rewrite Hsame in Hv. eexists. by apply as_load.
  - case_decide; [done|]. apply bind_Some in Hr as (u & Hu & _). rewrite Hsame in Hu. eexists. by apply as_store.
  - case_decide as Hd; [|done]. destruct Hd as [_ Hm]. eexists. apply as_request. eapply Forall_impl; [exact Hm|]. intros x. apply mapped_dom. intros a. by rewrite Hsame.
  - eexists. by apply as_wait.
Qed.

(** Every execution ends. *)
Lemma astep_acc p : forall n m pd, length pd = n -> Acc (fun s' s => astep s s') (p, m, pd).
Proof.
  induction p as [| |a k IH|a v k IH|new k IH|r k IH]; induction n as [n IHn] using lt_wf_ind; intros m pd Hn; constructor; intros s' Hs; inversion Hs; subst; try (by eapply IH);
    (eapply IHn; [|reflexivity]; rewrite !length_app; cbn; lia).
Qed.

(** What every execution of a kernel on the engine does: it can always go on until it ends, in the memory [m'] with all transfers made, and it does end. *)
Definition ends_in (p : prog) (m m' : kmem) : Prop :=
  (forall s, rtc astep (p, m, []) s -> (exists s', astep s s') \/ s = (Ret, m', [])) /\ Acc (fun s' s => astep s s') (p, m, []).

(** A kernel that runs without faults and races when its transfers are complete at once runs as if they were: whatever the engine does, each state can go on or is the end of the
    run with all transfers made and the same memory, and there is no infinite execution. *)
Lemma run_deterministic p m m' out : run p m [] = Some (m', out) -> ends_in p m m'.
Proof.
  intros Hr. split; [|by eapply astep_acc].
  assert (H0 : agree m [] m []) by (split; try done; [split; [apply NoDup_nil_2|done]|intros x Hx; by apply elem_of_nil in Hx]). intros [[p1 m1] pd1] Hs.
  assert (Hsim : forall s0 s1, rtc astep s0 s1 -> forall ms out0, agree s0.1.2 s0.2 ms out0 -> run s0.1.1 ms out0 = Some (m', out) ->
    exists ms1 out1, agree s1.1.2 s1.2 ms1 out1 /\ run s1.1.1 ms1 out1 = Some (m', out)).
  { induction 1 as [s0|[[p0 m0] pd0] [[p2 m2] pd2] s3 Hst _ IH]; intros ms out0 Ha Hru; [by exists ms, out0|]. cbn in Ha, Hru.
    destruct (run_step _ _ _ _ _ _ _ _ _ Hst Ha Hru) as (ms2 & out2 & Ha2 & Hr2). by apply (IH ms2 out2). }
  destruct (Hsim _ _ Hs m [] H0 Hr) as (ms1 & out1 & Ha1 & Hr1). cbn in Ha1, Hr1. destruct (run_can _ _ _ _ _ _ Ha1 Hr1) as [Hc|[-> ->]]; [by left|right].
  cbn in Hr1. injection Hr1 as -> ->. f_equal. f_equal. apply map_eq. intros a. symmetry. apply (ag_same _ _ _ _ Ha1). apply not_elem_of_nil.
Qed.

(** ** An engine that repeats or loses requests *)

(** The engine of PimDma.v can transfer a request twice and lose another ([dma_request_overtaken]), whose resource then stays busy for ever.  Here a move can also be made without being
    done with; a request that is lost is one whose moves are never made or never done with, so that DMA_WAIT does not return. *)
Inductive lstep : prog * kmem * list move -> prog * kmem * list move -> Prop :=
  | ls_step s s' : astep s s' -> lstep s s'
  | ls_again p m pd x v : x ∈ pd -> m !! mv_src x = Some v -> is_Some (m !! mv_dst x) -> lstep (p, m, pd) (p, <[mv_dst x := v]> m, pd).

(** Whatever such an engine does, the next access of the kernel does not fault, and if the kernel returns, all transfers are made and the memory is [m']. *)
Definition returns_in (p : prog) (m m' : kmem) : Prop :=
  forall p1 m1 pd1, rtc lstep (p, m, []) (p1, m1, pd1) -> (p1 = Ret -> m1 = m' /\ pd1 = []) /\ (p1 = Ret \/ exists s', astep (p1, m1, []) s').

Lemma agree_again m pd ms out x v : agree m pd ms out -> x ∈ pd -> m !! mv_src x = Some v -> agree (<[mv_dst x := v]> m) pd ms out.
Proof.
  intros [H1 H2 H3 H4 H5 H6] Hx Hv. pose proof (apart_sub _ _ H1 H2) as Hap. assert (Hm : is_Some (m !! mv_dst x)) by (rewrite Forall_forall in H3; by apply (H3 x)).
  assert (Hdom : forall a, is_Some (<[mv_dst x := v]> m !! a) <-> is_Some (m !! a)) by (intros a; by apply insert_dom). split; try done.
  - rewrite Forall_forall in *. intros y Hy. eapply mapped_dom; [exact Hdom|]. auto.
  - intros a. by rewrite Hdom.
  - intros a Ha. rewrite lookup_insert_ne; [by apply H5|]. intros <-. apply Ha. by apply in_dsts.
  - intros y Hy. rewrite H6 by done. rewrite lookup_insert_ne; [done|]. by eapply apart_ne.
Qed.

Lemma run_next p m pd ms out res : agree m pd ms out -> run p ms out = Some res -> p = Ret \/ exists s', astep (p, m, []) s'.
Proof.
  intros [_ _ _ Hd _ _] Hr. destruct p as [| |a k|a v k|new k|r k]; cbn in Hr; [by left|done|right..].
  - case_decide; [done|]. apply bind_Some in Hr as (v & Hv & _). destruct (proj1 (Hd a) (mk_is_Some _ _ Hv)) as [u Hu]. eexists. by apply as_load.
  - case_decide; [done|]. apply bind_Some in Hr as (u & Hu & _). eexists. apply as_store, Hd. by exists u.
  - case_decide as Hdc; [|done]. destruct Hdc as [_ Hm]. eexists. apply as_request. eapply Forall_impl; [exact Hm|]. intros x. apply mapped_dom. intros a. by rewrite Hd.
  - eexists. by apply as_wait.
Qed.

Lemma run_lossy p m m' : run p m [] = Some (m', []) -> returns_in p m m'.
Proof.
  intros Hr p1 m1 pd1 Hs. assert (H0 : agree m [] m []) by (split; try done; [split; [apply NoDup_nil_2|done]|intros x Hx; by apply elem_of_nil in Hx]).
  assert (Hsim : forall s0 s1, rtc lstep s0 s1 -> forall ms out0, agree s0.1.2 s0.2 ms out0 -> run s0.1.1 ms out0 = Some (m', []) ->
    exists ms1 out1, agree s1.1.2 s1.2 ms1 out1 /\ run s1.1.1 ms1 out1 = Some (m', [])).
  { induction 1 as [s0|[[p0 m0] pd0] [[p2 m2] pd2] s3 Hst _ IH]; intros ms out0 Ha Hru; [by exists ms, out0|]. cbn in Ha, Hru. inversion Hst as [? ? Hst'|? ? ? x v Hx Hv Hd]; subst.
    - destruct (run_step _ _ _ _ _ _ _ _ _ Hst' Ha Hru) as (ms2 & out2 & Ha2 & Hr2). by apply (IH ms2 out2).
    - apply (IH ms out0); [by apply agree_again|done]. }
  destruct (Hsim _ _ Hs m [] H0 Hr) as (ms1 & out1 & Ha1 & Hr1). cbn in Ha1, Hr1. split; [|by eapply run_next].
  intros ->. cbn in Hr1. injection Hr1 as -> ->. pose proof Ha1 as [H1 _ _ _ H5 _]. apply submseteq_nil_r in H1 as ->. split; [|done]. apply map_eq. intros a. symmetry. apply H5, not_elem_of_nil.
Qed.

(** ** Arrays of words *)

(** The addresses from [b] to the end of [n] words, and arrays that hold [f]. *)
Definition within (b n a : Z) : Prop := b <= a < b + W * n.
Definition sep (b1 n1 b2 n2 : Z) : Prop := b1 + W * n1 <= b2 \/ b2 + W * n2 <= b1.
Definition reads (b n : Z) (f : Z -> Z) m : Prop := forall i, 0 <= i < n -> m !! (b + W * i) = Some (f i).
Definition words (b n : Z) m : Prop := forall i, 0 <= i < n -> is_Some (m !! (b + W * i)).
(** What a piece of kernel may have changed. *)
Definition only_within (b n : Z) m (m' : kmem) : Prop := forall a, ~ within b n a -> m' !! a = m !! a.

Definition only_words (b n : Z) m (m' : kmem) : Prop := forall a, (forall i, 0 <= i < n -> a <> b + W * i) -> m' !! a = m !! a.

Lemma only_words_within b n m m' : only_words b n m m' -> only_within b n m m'.
Proof. intros Ho a Ha. apply Ho. intros i Hi ->. apply Ha. unfold within, W. lia. Qed.

Lemma reads_words b n f m : reads b n f m -> words b n m.
Proof. intros Hr i Hi. eexists. by apply Hr. Qed.

Lemma reads_sub b n f m j k : reads b n f m -> 0 <= j -> j + k <= n -> reads (b + W * j) k (fun i => f (j + i)) m.
Proof. intros Hr Hj Hk i Hi. rewrite <- (Hr (j + i)) by lia. f_equal. unfold W. lia. Qed.
Lemma words_sub b n m j k : words b n m -> 0 <= j -> j + k <= n -> words (b + W * j) k m.
Proof. intros Hr Hj Hk i Hi. replace (b + W * j + W * i) with (b + W * (j + i)) by (unfold W; lia). apply Hr. lia. Qed.
Lemma reads_ext b n f g m : (forall i, 0 <= i < n -> f i = g i) -> reads b n f m -> reads b n g m.
Proof. intros He Hr i Hi. rewrite Hr by done. by rewrite He. Qed.

Lemma reads_only b n f m m' b' n' : reads b n f m -> only_within b' n' m m' -> sep b n b' n' -> reads b n f m'.
Proof. intros Hr Ho Hs i Hi. rewrite Ho; [by apply Hr|]. unfold within, sep, W in *. lia. Qed.
(** No word is unmapped. *)
Definition keeps m (m' : kmem) : Prop := forall a, is_Some (m !! a) -> is_Some (m' !! a).
Lemma words_keeps b n m m' : words b n m -> keeps m m' -> words b n m'.
Proof. intros Hw Hk i Hi. by apply Hk, Hw. Qed.
Lemma keeps_insert m a v : keeps m (<[a := v]> m).
Proof. intros b Hb. rewrite lookup_insert_is_Some. destruct (decide (a = b)); tauto. Qed.
Lemma keeps_trans m m' (m'' : kmem) : keeps m m' -> keeps m' m'' -> keeps m m''.
Proof. intros H1 H2 a Ha. auto. Qed.
Lemma only_trans b n m m' (m'' : kmem) : only_within b n m m' -> only_within b n m' m'' -> only_within b n m m''.
Proof. intros H1 H2 a Ha. by rewrite H2, H1. Qed.
Lemma only_wider b n b' n' m m' : only_within b n m m' -> b' <= b -> b + W * n <= b' + W * n' -> only_within b' n' m m'.
Proof. intros Ho H1 H2 a Ha. apply Ho. unfold within in *. lia. Qed.

Lemma in_moves ma sa n dir r x : x ∈ moves ma sa n dir r <-> exists i, 0 <= i < n /\ x = (match dir with PIM_DMA_READ => mkMv r (sa + W * i) (ma + W * i) | PIM_DMA_WRITE => mkMv r (ma + W * i) (sa + W * i) end).
Proof. unfold moves. rewrite list_elem_of_fmap. setoid_rewrite elem_of_seqZ. split; intros (i & H1 & H2); exists i; (split; [|done]); (lia || done). Qed.

(** Where a request writes and reads. *)
Definition to_of (ma sa : Z) (dir : dma_dir) : Z := match dir with PIM_DMA_READ => sa | PIM_DMA_WRITE => ma end.
Definition from_of (ma sa : Z) (dir : dma_dir) : Z := match dir with PIM_DMA_READ => ma | PIM_DMA_WRITE => sa end.

Lemma in_moves' ma sa n dir r x : x ∈ moves ma sa n dir r <-> exists i, 0 <= i < n /\ x = mkMv r (to_of ma sa dir + W * i) (from_of ma sa dir + W * i).
Proof. rewrite in_moves. by destruct dir. Qed.

Lemma dsts_moves ma sa n dir r a : a ∈ dsts (moves ma sa n dir r) -> within (to_of ma sa dir) n a.
Proof. intros (x & -> & (i & Hi & ->)%in_moves')%list_elem_of_fmap. unfold within, W. cbn. lia. Qed.
Lemma srcs_moves ma sa n dir r a : a ∈ srcs (moves ma sa n dir r) -> within (from_of ma sa dir) n a.
Proof. intros (x & -> & (i & Hi & ->)%in_moves')%list_elem_of_fmap. unfold within, W. cbn. lia. Qed.
Lemma dsts_moves_nodup ma sa n dir r : NoDup (dsts (moves ma sa n dir r)).
Proof. unfold dsts, moves. rewrite <- list_fmap_compose. apply NoDup_fmap_2; [|apply NoDup_seqZ]. intros i j. destruct dir; cbn; unfold W; lia. Qed.

(** The words that moves in progress may touch avoid an interval. *)
Definition avoids_dst (b n : Z) out : Prop := forall a, a ∈ dsts out -> ~ within b n a.
Definition avoids (b n : Z) out : Prop := avoids_dst b n out /\ (forall a, a ∈ srcs out -> ~ within b n a).

Lemma avoids_nil b n : avoids b n [].
Proof. split; intros a Ha; by apply elem_of_nil in Ha. Qed.
Lemma avoids_app b n out out' : avoids b n out -> avoids b n out' -> avoids b n (out ++ out').
Proof. intros [H1 H2] [H3 H4]. unfold avoids, avoids_dst, dsts, srcs in *. setoid_rewrite fmap_app. set_solver. Qed.
Lemma avoids_dst_app b n out out' : avoids_dst b n out -> avoids_dst b n out' -> avoids_dst b n (out ++ out').
Proof. intros H1 H3. unfold avoids_dst, dsts in *. setoid_rewrite fmap_app. set_solver. Qed.
Lemma avoids_dst_moves b n ma sa k dir r : sep b n (to_of ma sa dir) k -> avoids_dst b n (moves ma sa k dir r).
Proof. intros H1 a Ha. apply dsts_moves in Ha. unfold sep, within, W in *. lia. Qed.
Lemma avoids_moves b n ma sa k dir r : sep b n (to_of ma sa dir) k -> sep b n (from_of ma sa dir) k -> avoids b n (moves ma sa k dir r).
Proof. intros H1 H2. split; [by apply avoids_dst_moves|]. intros a Ha. apply srcs_moves in Ha. unfold sep, within, W in *. lia. Qed.

Lemma apart_moves out ma sa n dir r : apart out -> avoids (to_of ma sa dir) n out -> avoids_dst (from_of ma sa dir) n out -> sep (to_of ma sa dir) n (from_of ma sa dir) n ->
  apart (out ++ moves ma sa n dir r).
Proof.
  intros [Hn Hf] [Hd Hs] Hd' Hsep. unfold apart. unfold dsts, srcs. rewrite !fmap_app. split.
  - apply NoDup_app. split; [done|]. split; [|apply dsts_moves_nodup]. intros a Ha Hb. apply dsts_moves in Hb. by apply (Hd a).
  - apply Forall_app. split; rewrite Forall_forall in *; intros a Ha [Hb|Hb]%elem_of_app.
    + by apply (Hf a).
    + apply srcs_moves in Hb. by apply (Hd' a).
    + apply dsts_moves in Ha. by apply (Hs a).
    + apply dsts_moves in Ha. apply srcs_moves in Hb. unfold sep, within, W in *. lia.
Qed.

(** A request copies an array. *)
Lemma run_request ma sa n dir r k m out f : 0 <= n -> apart out -> avoids (to_of ma sa dir) n out -> avoids_dst (from_of ma sa dir) n out -> sep (to_of ma sa dir) n (from_of ma sa dir) n ->
  reads (from_of ma sa dir) n f m -> words (to_of ma sa dir) n m ->
  exists m', run (DMA_REQUEST ma sa (W * n) dir r k) m out = run k m' (out ++ moves ma sa n dir r) /\ reads (to_of ma sa dir) n f m' /\ only_words (to_of ma sa dir) n m m' /\ keeps m m'.
Proof.
  intros Hn Hap Hav Havd Hsep Hr Hw. unfold DMA_REQUEST. rewrite (Z.mul_comm W n), Z.div_mul by done. cbn [run].
  assert (Hm : Forall (mapped m) (moves ma sa n dir r)).
  { apply Forall_forall. intros x (i & Hi & ->)%in_moves'. split; cbn; [by apply Hw|]. eexists. by apply Hr. }
  rewrite decide_True by (split; [by apply apart_moves|done]). eexists. split; [reflexivity|]. split.
  - intros i Hi. change (to_of ma sa dir + W * i) with (mv_dst (mkMv r (to_of ma sa dir + W * i) (from_of ma sa dir + W * i))).
    rewrite copy_dst; [by apply Hr|apply dsts_moves_nodup|done|]. apply in_moves'. by exists i.
  - split; [intros a Ha; apply copy_other; intros (x & -> & (i & Hi & ->)%in_moves')%list_elem_of_fmap; by apply (Ha i)|]. intros a. apply copy_dom; [apply dsts_moves_nodup|done].
Qed.

Lemma run_wait r k m out : run (DMA_WAIT r k) m out = run k m (filter (fun x => mv_res x <> r) out).
Proof. done. Qed.
Lemma run_wait_other r k m out : Forall (fun x => mv_res x <> r) out -> run (DMA_WAIT r k) m out = run k m out.
Proof. intros Hf. cbn. by rewrite filter_all. Qed.

Lemma run_load b n f m out i k : reads b n f m -> 0 <= i < n -> avoids_dst b n out -> run (Load (b + W * i) k) m out = run (k (f i)) m out.
Proof.
  intros Hr Hi Ha. cbn [run]. rewrite decide_False; [by rewrite Hr|]. intros Hd. apply (Ha _ Hd). unfold within, W. lia.
Qed.

(** Accesses while no transfer is in progress. *)
Lemma run_load_now a v k m : m !! a = Some v -> run (Load a k) m [] = run (k v) m [].
Proof. intros Ha. cbn. by rewrite Ha. Qed.
Lemma run_store_now a v k m : is_Some (m !! a) -> run (Store a v k) m [] = run k (<[a := v]> m) [].
Proof. intros [u Hu]. cbn. by rewrite Hu. Qed.

Lemma run_store b n m out i v k : words b n m -> 0 <= i < n -> avoids b n out -> run (Store (b + W * i) v k) m out = run k (<[b + W * i := v]> m) out.
Proof.
  intros Hr Hi [Hd Hs]. cbn [run]. rewrite decide_False; [destruct (Hr i Hi) as [u Hu]; by rewrite Hu|]. intros [Ha|Ha]; [apply (Hd _ Ha)|apply (Hs _ Ha)]; unfold within, W; lia.
Qed.

Lemma filter_none_res r out : Forall (fun x => mv_res x = r) out -> filter (fun x => mv_res x <> r) out = [].
Proof. induction 1 as [|x l Hx _ IH]; [done|]. rewrite filter_cons, decide_False; [done|]. intros Hn. by apply Hn. Qed.

Lemma moves_res ma sa n dir r : Forall (fun x => mv_res x = r) (moves ma sa n dir r).
Proof. apply Forall_forall. intros x (i & _ & ->)%in_moves'. done. Qed.
Lemma moves_res_ne ma sa n dir r r' : r <> r' -> Forall (fun x => mv_res x <> r') (moves ma sa n dir r).
Proof. intros Hr. apply Forall_forall. intros x (i & _ & ->)%in_moves'. done. Qed.

Lemma reads_same b N h m m' : reads b N h m -> (forall i, 0 <= i < N -> m' !! (b + W * i) = m !! (b + W * i)) -> reads b N h m'.
Proof. intros Hr Hs i Hi. rewrite Hs by done. by apply Hr. Qed.

(** Arrays of a concrete memory. *)
Lemma reads_check b n f m : forallb (fun i => bool_decide (m !! (b + W * i) = Some (f i))) (seqZ 0 n) = true -> reads b n f m.
Proof. rewrite forallb_forall. intros Hall i Hi. assert (Hin : In i (seqZ 0 n)) by (apply list_elem_of_In, elem_of_seqZ; lia). exact (bool_decide_eq_true_1 _ (Hall i Hin)). Qed.
Lemma words_check b n m : forallb (fun i => bool_decide (is_Some (m !! (b + W * i)))) (seqZ 0 n) = true -> words b n m.
Proof. rewrite forallb_forall. intros Hall i Hi. assert (Hin : In i (seqZ 0 n)) by (apply list_elem_of_In, elem_of_seqZ; lia). exact (bool_decide_eq_true_1 _ (Hall i Hin)). Qed.
