(* ===== verification/MatrixKernels.v ===== *)
(** * The matrix kernels

    Models src/SMC/SW/PIM/kernels/matrix_add.c (the plain kernel and the one with double buffering) and matrix_mult.c as programs of
    KernelDma.v, and the golden models of src/SMC/SW/HOST/app/offload_matrix/main.cc.  The scalar registers are words of memory from [SREG] on, the vector register
    starts at [VREG]; XFER_SIZE and MAX_XFER_SIZE are parameters of the build.

    The theorems show that the double-buffered addition has no race with its transfers and leaves, in every execution of the DMA engine, the memory that the
    plain kernel leaves, if the matrix is a multiple of the transfer size; otherwise the rest of the result is never computed. *)

From S2P Require Import Prelude KernelDma.

Section kernels.
Context (SREG VREG XFER_SIZE MAX_XFER_SIZE : Z).

Definition PIM_SREG (i : Z) : Z := SREG + W * i.

(** ** The kernels *)

(** [for (i...) C[i] = A[i] + B[i]], [n] more times *)
Fixpoint add_loop (n : nat) (A B C i : Z) (k : prog) : prog :=
  match n with
  | O => k
  | S n' => Load (A + W * i) (fun a => Load (B + W * i) (fun b => Store (C + W * i) (u32 (a + b)) (add_loop n' A B C (i + 1) k)))
  end.

Definition matrix_add_default : prog :=
  Load (PIM_SREG 0) (fun A => Load (PIM_SREG 1) (fun B => Load (PIM_SREG 2) (fun C => Load (PIM_SREG 3) (fun S =>
    add_loop (Z.to_nat (u32 (S * S))) A B C 0 Ret)))).

(** The loop over the bursts, [n] more times, at burst [x] of [num_bursts]. *)
Fixpoint bursts (n : nat) (num_bursts x A B C ping pong : Z) : prog :=
  match n with
  | O => DMA_WAIT 4 Ret
  | S n' =>
      let work :=
        add_loop (Z.to_nat (XFER_SIZE / W)) (ping + XFER_SIZE * 0) (ping + XFER_SIZE * 1) (ping + XFER_SIZE * 2) 0
          (DMA_WAIT 4 (DMA_REQUEST (C + x * XFER_SIZE) (ping + XFER_SIZE * 2) XFER_SIZE PIM_DMA_WRITE 4
             (DMA_WAIT 2 (DMA_WAIT 3 (bursts n' num_bursts (x + 1) A B C pong ping))))) in
      if x + 1 <? num_bursts then
        DMA_REQUEST (A + (x + 1) * XFER_SIZE) (pong + XFER_SIZE * 0) XFER_SIZE PIM_DMA_READ 2
          (DMA_REQUEST (B + (x + 1) * XFER_SIZE) (pong + XFER_SIZE * 1) XFER_SIZE PIM_DMA_READ 3 work)
      else work
  end.

Definition matrix_add_best : prog :=
  Load (PIM_SREG 0) (fun A => Load (PIM_SREG 1) (fun B => Load (PIM_SREG 2) (fun C => Load (PIM_SREG 3) (fun S =>
    let SS := u32 (S * S) in
    let ping := VREG in
    let pong := VREG + MAX_XFER_SIZE * 3 in
    DMA_REQUEST A (ping + XFER_SIZE * 0) XFER_SIZE PIM_DMA_READ 0
      (DMA_REQUEST B (ping + XFER_SIZE * 1) XFER_SIZE PIM_DMA_READ 1
        (DMA_WAIT 0 (DMA_WAIT 1
          (let num_bursts := u32 (SS * W) / XFER_SIZE in bursts (Z.to_nat num_bursts) num_bursts 0 A B C ping pong)))))))).

(** [for (k...) Sum += A[r][k] * B[k][c]] *)
Fixpoint dot_loop (n : nat) (S A B r c k sum : Z) (cont : Z -> prog) : prog :=
  match n with
  | O => cont sum
  | Datatypes.S n' => Load (A + W * (r * S + k)) (fun a => Load (B + W * (k * S + c)) (fun b => dot_loop n' S A B r c (k + 1) (u32 (sum + u32 (a * b))) cont))
  end.
Fixpoint col_loop (n : nat) (S A B C r c : Z) (cont : prog) : prog :=
  match n with
  | O => cont
  | Datatypes.S n' => dot_loop (Z.to_nat S) S A B r c 0 0 (fun sum => Store (C + W * (r * S + c)) sum (col_loop n' S A B C r (c + 1) cont))
  end.
Fixpoint row_loop (n : nat) (S A B C r : Z) : prog :=
  match n with O => Ret | Datatypes.S n' => col_loop (Z.to_nat S) S A B C r 0 (row_loop n' S A B C (r + 1)) end.
Definition matrix_mult : prog :=
  Load (PIM_SREG 0) (fun A => Load (PIM_SREG 1) (fun B => Load (PIM_SREG 2) (fun C => Load (PIM_SREG 3) (fun S => row_loop (Z.to_nat S) S A B C 0)))).
End kernels.

(** ** The addition loop *)

Lemma add_loop_from n : forall A B C i k m out f g, let N := i + Z.of_nat n in
  0 <= i -> reads A N f m -> reads B N g m -> words C N m -> sep A N C N -> sep B N C N -> avoids_dst A N out -> avoids_dst B N out -> avoids C N out ->
  exists m', run (add_loop n A B C i k) m out = run k m' out /\ (forall j, i <= j < N -> m' !! (C + W * j) = Some (u32 (f j + g j))) /\
    (forall a, (forall j, i <= j < N -> a <> C + W * j) -> m' !! a = m !! a) /\ keeps m m'.
Proof.
  induction n as [|n IH]; intros A B C i k m out f g N Hi HA HB HC SA SB VA VB VC; cbn [add_loop].
  - exists m. split; [done|]. split; [intros j Hj; lia|]. split; [done|by intros a].
  - rewrite (run_load A N f m out i) by (done || lia). rewrite (run_load B N g m out i) by (done || lia). rewrite (run_store C N m out i) by (done || lia).
    set (m1 := <[_ := _]> m). assert (HN : N = (i + 1) + Z.of_nat n) by lia. assert (Ho : only_within C N m m1).
    { intros a Ha. unfold m1. rewrite lookup_insert_ne; [done|]. intros <-. apply Ha. unfold within, W. lia. }
    destruct (IH A B C (i + 1) k m1 out f g) as (m' & Hr & Hs & Hk & Hke); rewrite <- ?HN; try done; [lia|by eapply reads_only|by eapply reads_only|eapply words_keeps; [exact HC|apply keeps_insert]|].
    rewrite <- HN in Hs, Hk. exists m'. split; [exact Hr|]. split; [|split].
    + intros j Hj. destruct (decide (j = i)) as [->|]; [|apply Hs; lia]. rewrite Hk; [unfold m1; by rewrite lookup_insert_eq|]. intros j Hj'. unfold W. lia.
    + intros a Ha. rewrite Hk; [|intros j Hj; apply Ha; lia]. unfold m1. rewrite lookup_insert_ne; [done|]. intros E. apply (Ha i); [lia|done].
    + eapply keeps_trans; [apply keeps_insert|exact Hke].
Qed.

Lemma add_loop_run A B C N k m out f g : 0 <= N -> reads A N f m -> reads B N g m -> words C N m -> sep A N C N -> sep B N C N -> avoids_dst A N out -> avoids_dst B N out -> avoids C N out ->
  exists m', run (add_loop (Z.to_nat N) A B C 0 k) m out = run k m' out /\ reads C N (fun j => u32 (f j + g j)) m' /\ only_within C N m m' /\ keeps m m' /\
    (forall a, (forall j, 0 <= j < N -> a <> C + W * j) -> m' !! a = m !! a).
Proof.
  intros HN HA HB HC SA SB VA VB VC. assert (E : 0 + Z.of_nat (Z.to_nat N) = N) by lia.
  destruct (add_loop_from (Z.to_nat N) A B C 0 k m out f g) as (m' & Hr & Hs & Hk & Hke); rewrite ?E; try done. rewrite E in Hs, Hk. exists m'. split; [done|]. split; [exact Hs|].
  split; [|by split]. intros a Ha. apply Hk. intros j Hj ->. apply Ha. unfold within, W. lia.
Qed.

(** ** Double buffering *)

Section best.
Context (A B C n num SS : Z) (f g : Z -> Z).
Hypotheses (Hn : 0 < n) (Hnum : 0 <= num) (HSS : num * n <= SS).
#[local] Notation X := (W * n).

(** A buffer of three transfers that is apart from the matrices. *)
Definition buffer_ok (p : Z) : Prop := sep p (3 * n) A SS /\ sep p (3 * n) B SS /\ sep p (3 * n) C SS.
Hypotheses (SAC : sep A SS C SS) (SBC : sep B SS C SS).

(** What the write-back of the burst before, from the other buffer, may touch. *)
Record behind (pong : Z) out : Prop := {
  bh_res : Forall (fun x => mv_res x = 4) out;
  bh_apart : apart out;
  bh_dst a : a ∈ dsts out -> within C SS a;
  bh_src a : a ∈ srcs out -> within (pong + X * 2) n a;
}.

Lemma behind_avoids pong out b k : behind pong out -> sep b k C SS -> sep b k (pong + X * 2) n -> avoids b k out.
Proof.
  intros Hb H1 H2. split; intros a Ha Hw; [apply (bh_dst _ _ Hb) in Ha|apply (bh_src _ _ Hb) in Ha]; unfold within, sep, W in *; lia.
Qed.
Lemma behind_avoids_dst pong out b k : behind pong out -> sep b k C SS -> avoids_dst b k out.
Proof. intros Hb H1 a Ha Hw. apply (bh_dst _ _ Hb) in Ha. unfold within, sep, W in *. lia. Qed.

Definition fill (x pong : Z) : list move :=
  if x + 1 <? num then moves (A + (x + 1) * X) (pong + X * 0) n PIM_DMA_READ 2 ++ moves (B + (x + 1) * X) (pong + X * 1) n PIM_DMA_READ 3 else [].

Lemma fill_avoids x pong b k : 0 <= x -> sep b k A SS -> sep b k B SS -> sep b k pong (3 * n) -> avoids b k (fill x pong).
Proof.
  intros Hx H1 H2 H3. unfold fill. destruct (Z.ltb_spec (x + 1) num); [|apply avoids_nil].
  assert (Hxn : (x + 1) * n + n <= SS) by nia. assert (0 <= (x + 1) * n) by nia.
  apply avoids_app; apply avoids_moves; cbn [to_of from_of]; unfold sep, W in *; lia.
Qed.
Lemma fill_avoids_dst x pong b k : sep b k pong (3 * n) -> avoids_dst b k (fill x pong).
Proof.
  intros H3. unfold fill. destruct (Z.ltb_spec (x + 1) num); [|apply avoids_nil].
  apply avoids_dst_app; apply avoids_dst_moves; cbn [to_of from_of]; unfold sep, W in *; lia.
Qed.

(** The requests that fill the other buffer. *)
Lemma fill_run x pong k m prev : 0 <= x -> buffer_ok pong -> behind pong prev -> reads A SS f m -> reads B SS g m -> words pong (3 * n) m ->
  exists m', run (if x + 1 <? num then DMA_REQUEST (A + (x + 1) * X) (pong + X * 0) X PIM_DMA_READ 2 (DMA_REQUEST (B + (x + 1) * X) (pong + X * 1) X PIM_DMA_READ 3 k) else k) m prev =
      run k m' (prev ++ fill x pong) /\ apart (prev ++ fill x pong) /\ only_within pong (2 * n) m m' /\ keeps m m' /\
    (x + 1 < num -> reads pong n (fun i => f ((x + 1) * n + i)) m' /\ reads (pong + X) n (fun i => g ((x + 1) * n + i)) m').
Proof.
  intros Hx (S1 & S2 & S3) Hb HA HB Hw. unfold fill. destruct (Z.ltb_spec (x + 1) num) as [Hlt|Hge].
  2:{ exists m. rewrite app_nil_r. split; [done|]. split; [apply Hb|]. split; [by intros a|]. split; [by intros a|]. lia. }
  assert (Hxn : (x + 1) * n + n <= SS) by nia. assert (Hx0 : 0 <= (x + 1) * n) by nia. set (o := (x + 1) * n) in *.
  replace (A + (x + 1) * X) with (A + W * o) by (unfold o; lia). replace (B + (x + 1) * X) with (B + W * o) by (unfold o; lia).
  set (mA := moves (A + W * o) (pong + X * 0) n PIM_DMA_READ 2). set (mB := moves (B + W * o) (pong + X * 1) n PIM_DMA_READ 3).
  destruct (run_request (A + W * o) (pong + X * 0) n PIM_DMA_READ 2 (DMA_REQUEST (B + W * o) (pong + X * 1) X PIM_DMA_READ 3 k) m prev (fun i => f (o + i))) as (m1 & -> & R1 & O1 & K1);
    cbn [to_of from_of]; [lia|apply Hb|apply (behind_avoids pong); [done|..]; unfold sep, W in *; lia|apply (behind_avoids_dst pong); [done|]; unfold sep, W in *; lia|unfold sep, W in *; lia|
      by apply (reads_sub A SS)|replace (pong + X * 0) with (pong + W * 0) by lia; apply (words_sub pong (3 * n)); (done || lia)|].
  cbn [to_of from_of] in R1, O1. apply only_words_within in O1. fold mA in O1 |- *.
  assert (Ap1 : apart (prev ++ mA)).
  { apply apart_moves; cbn [to_of from_of]; [apply Hb|apply (behind_avoids pong); [done|..]; unfold sep, W in *; lia|apply (behind_avoids_dst pong); [done|]; unfold sep, W in *; lia|unfold sep, W in *; lia]. }
  assert (Av2 : avoids (pong + X * 1) n (prev ++ mA)).
  { apply avoids_app; [apply (behind_avoids pong); [done|..]|apply avoids_moves; cbn [to_of from_of]]; unfold sep, W in *; lia. }
  assert (Ad2 : avoids_dst (B + W * o) n (prev ++ mA)).
  { apply avoids_dst_app; [apply (behind_avoids_dst pong); [done|]|apply avoids_dst_moves; cbn [to_of from_of]]; unfold sep, W in *; lia. }
  assert (Sb : sep (pong + X * 1) n (B + W * o) n) by (unfold sep, W in *; lia).
  destruct (run_request (B + W * o) (pong + X * 1) n PIM_DMA_READ 3 k m1 (prev ++ mA) (fun i => g (o + i))) as (m2 & -> & R2 & O2 & K2); cbn [to_of from_of]; [lia|done|done|done|done| |
    replace (pong + X * 1) with (pong + W * n) by lia; apply (words_sub pong (3 * n)); [by eapply words_keeps|lia|lia]|].
  { apply (reads_sub B SS); [|lia|lia]. eapply reads_only; [exact HB|exact O1|unfold sep, W in *; lia]. }
  cbn [to_of from_of] in R2, O2. apply only_words_within in O2. exists m2. fold mB. rewrite app_assoc. split; [done|]. split; [by apply apart_moves|]. split; [|split; [by eapply keeps_trans|]].
  - eapply only_trans; [eapply only_wider; [exact O1|lia|unfold W; lia]|eapply only_wider; [exact O2|unfold W; lia|unfold W; lia]].
  - intros _. replace (pong + X * 0) with pong in R1 by lia. replace (pong + X * 1) with (pong + X) in R2 by lia. split; [|exact R2].
    eapply reads_only; [exact R1|exact O2|unfold sep, W; lia].
Qed.

(** One burst: its sum is written back from this buffer while the other one is filled. *)
Lemma burst_run t x ping pong m prev : 0 <= x < num -> buffer_ok ping -> buffer_ok pong -> sep ping (3 * n) pong (3 * n) -> behind pong prev ->
  reads A SS f m -> reads B SS g m -> words C SS m -> words ping (3 * n) m -> words pong (3 * n) m ->
  reads ping n (fun i => f (x * n + i)) m -> reads (ping + X) n (fun i => g (x * n + i)) m ->
  exists m' prev', run (bursts X (S t) num x A B C ping pong) m prev = run (bursts X t num (x + 1) A B C pong ping) m' prev' /\ behind ping prev' /\ keeps m m' /\
    (x + 1 < num -> reads pong n (fun i => f ((x + 1) * n + i)) m' /\ reads (pong + X) n (fun i => g ((x + 1) * n + i)) m') /\
    reads (C + W * (x * n)) n (fun i => u32 (f (x * n + i) + g (x * n + i))) m' /\
    (forall a, ~ within ping (3 * n) a -> ~ within pong (3 * n) a -> (forall i, 0 <= i < n -> a <> C + W * (x * n) + W * i) -> m' !! a = m !! a).
Proof.
  intros Hx Hp Hq Spq Hb HA HB HC Hwp Hwq Rf Rg. pose proof Hp as (P1 & P2 & P3). pose proof Hq as (Q1 & Q2 & Q3). assert (Hxn : 0 <= x * n /\ x * n + n <= SS) by nia. cbn [bursts].
  set (k := add_loop _ _ _ _ _ _). destruct (fill_run x pong k m prev) as (m1 & -> & Ap1 & O1 & K1 & F1); [lia|done..|]. unfold k. clear k. set (FM := fill x pong) in *.
  set (k := DMA_WAIT 4 _). rewrite (Z.mul_comm W n), Z.div_mul, (Z.mul_comm n W) by done.
  assert (E0 : ping + X * 0 = ping) by lia. assert (E1 : ping + X * 1 = ping + X) by lia. rewrite E0, E1.
  assert (R1 : reads ping n (fun i => f (x * n + i)) m1) by (eapply reads_only; [exact Rf|exact O1|unfold sep, W in *; lia]).
  assert (R2 : reads (ping + X) n (fun i => g (x * n + i)) m1) by (eapply reads_only; [exact Rg|exact O1|unfold sep, W in *; lia]).
  assert (W1 : words (ping + X * 2) n m1).
  { replace (ping + X * 2) with (ping + W * (2 * n)) by lia. apply (words_sub ping (3 * n)); [by eapply words_keeps|lia|lia]. }
  assert (HFa : forall b l, ping <= b -> b + W * l <= ping + W * (3 * n) -> avoids b l (prev ++ FM)).
  { intros b l H1 H2. apply avoids_app; [apply (behind_avoids pong); [done|..]|apply fill_avoids]; try lia; unfold sep, W in *; lia. }
  destruct (add_loop_run ping (ping + X) (ping + X * 2) n k m1 (prev ++ FM) (fun i => f (x * n + i)) (fun i => g (x * n + i))) as (m2 & -> & R3 & O2 & K2 & _); try done;
    [lia|unfold sep, W; lia|unfold sep, W; lia|apply HFa; unfold W; lia|apply HFa; unfold W; lia|apply HFa; unfold W; lia|].
  assert (HF : filter (fun y => mv_res y <> 4) (prev ++ FM) = FM).
  { rewrite filter_app, (filter_none_res 4 prev) by apply Hb. rewrite filter_all; [done|]. unfold FM, fill. destruct (x + 1 <? num); [|done]. apply Forall_app. split; by apply moves_res_ne. }
  unfold k at 1, DMA_WAIT at 1. cbn [run]. rewrite HF. clear k. set (k := DMA_WAIT 2 _). replace (C + x * X) with (C + W * (x * n)) by lia.
  assert (ApF : apart FM) by (eapply apart_sub; [|exact Ap1]; by apply submseteq_inserts_l).
  destruct (run_request (C + W * (x * n)) (ping + X * 2) n PIM_DMA_WRITE 4 k m2 FM (fun i => u32 (f (x * n + i) + g (x * n + i)))) as (m3 & -> & R4 & O3 & K3); cbn [to_of from_of];
    [lia|done|apply fill_avoids; try lia; unfold sep, W in *; lia|apply fill_avoids_dst; unfold sep, W in *; lia|unfold sep, W in *; lia|done| |].
  { apply (words_sub C SS); [|lia|lia]. eapply words_keeps; [exact HC|]. by eapply keeps_trans. }
  cbn [to_of from_of] in R4, O3. pose proof (only_words_within _ _ _ _ O3) as O4. set (mC := moves (C + W * (x * n)) (ping + X * 2) n PIM_DMA_WRITE 4). exists m3, mC. split; [|split; [|split; [|split; [|split; [exact R4|]]]]].
  - unfold k, DMA_WAIT. cbn [run]. rewrite !filter_app, (filter_all _ mC) by (by apply moves_res_ne). rewrite (filter_all _ mC) by (by apply moves_res_ne).
    replace (filter _ (filter _ FM)) with (@nil move); [done|]. unfold FM, fill. destruct (x + 1 <? num); [|done].
    rewrite !filter_app, (filter_none_res 2) by apply moves_res. rewrite (filter_all _ (moves _ _ _ _ 3)) by (by apply moves_res_ne). by rewrite (filter_none_res 3 (moves _ _ _ _ 3)) by apply moves_res.
  - split; [apply moves_res|apply (apart_moves []); cbn [to_of from_of]; [split; [apply NoDup_nil_2|done]|apply avoids_nil|apply avoids_nil|unfold sep, W in *; lia]| |].
    + intros a Ha. apply dsts_moves in Ha. cbn [to_of] in Ha. unfold within, W in *. lia.
    + intros a Ha. apply srcs_moves in Ha. exact Ha.
  - eapply keeps_trans; [exact K1|]. by eapply keeps_trans.
  - intros Hlt. destruct (F1 Hlt) as [F2 F3]. split; (eapply reads_only; [|exact O4|unfold sep, W in *; lia]); (eapply reads_only; [|exact O2|unfold sep, W in *; lia]); done.
  - intros a N1 N2 N3. rewrite O3 by done. rewrite O2 by (unfold within, W in *; lia). apply O1. unfold within, W in *. lia.
Qed.

Lemma bursts_run t : forall x ping pong m prev, Z.of_nat t = num - x -> 0 <= x -> buffer_ok ping -> buffer_ok pong -> sep ping (3 * n) pong (3 * n) -> behind pong prev ->
  reads A SS f m -> reads B SS g m -> words C SS m -> words ping (3 * n) m -> words pong (3 * n) m ->
  (x < num -> reads ping n (fun i => f (x * n + i)) m /\ reads (ping + X) n (fun i => g (x * n + i)) m) ->
  exists m', run (bursts X t num x A B C ping pong) m prev = Some (m', []) /\
    (forall j, x * n <= j < num * n -> m' !! (C + W * j) = Some (u32 (f j + g j))) /\
    (forall a, ~ within ping (3 * n) a -> ~ within pong (3 * n) a -> (forall j, x * n <= j < num * n -> a <> C + W * j) -> m' !! a = m !! a).
Proof.
  induction t as [|t IH]; intros x ping pong m prev Ht Hx Hp Hq Spq Hb HA HB HC Hwp Hwq HR.
  - exists m. cbn. rewrite (filter_none_res 4 prev) by apply Hb. split; [done|]. split; [intros j Hj; assert (x = num) by lia; subst x; lia|done].
  - assert (Hlt : x < num) by lia. destruct (HR Hlt) as [Rf Rg].
    destruct (burst_run t x ping pong m prev) as (m1 & prev1 & -> & Hb1 & K1 & R1 & RC & U1); [lia|done..|]. pose proof Hp as (P1 & P2 & P3). pose proof Hq as (Q1 & Q2 & Q3).
    assert (Hxn : 0 <= x * n /\ (x + 1) * n <= num * n) by nia.
    assert (Hsame : forall b N h, sep ping (3 * n) b N -> sep pong (3 * n) b N -> sep b N C SS -> reads b N h m -> reads b N h m1).
    { intros b N h H1 H2 H3 Hr. eapply reads_same; [exact Hr|]. intros i Hi. apply U1; unfold within, sep, W in *; lia. }
    destruct (IH (x + 1) pong ping m1 prev1) as (m' & Hr & Hs & Hu); try done; [lia|lia|unfold sep in *; lia|by apply Hsame|by apply Hsame|by eapply words_keeps..|].
    exists m'. split; [exact Hr|]. split.
    + intros j Hj. destruct (decide ((x + 1) * n <= j)); [apply Hs; lia|]. rewrite Hu; [|unfold within, sep, W in *; lia|unfold within, sep, W in *; lia|intros j' Hj'; unfold W; lia].
      specialize (RC (j - x * n) ltac:(lia)). replace (C + W * (x * n) + W * (j - x * n)) with (C + W * j) in RC by (unfold W; lia). by replace (x * n + (j - x * n)) with j in RC by lia.
    + intros a N1 N2 N3. rewrite Hu; [|done|done|intros j Hj; apply N3; lia]. apply U1; [done|done|]. intros i Hi E. apply (N3 (x * n + i)); [lia|]. unfold W in *. lia.
Qed.
End best.

(** ** The kernels *)

(** The memory when the kernel starts: the registers, the matrices of [S] by [S] words, and a vector register of [nv] words with room for the two buffers; a transfer has [n] words, and [MAX_XFER_SIZE]
    is that of [mx] words. *)
Record matrix_task (SREG VREG A B C S n mx nv : Z) (f g : Z -> Z) (m : gmap Z Z) : Prop := {
  mt_sizes : 0 < n <= mx /\ 3 * mx + 3 * n <= nv /\ 0 < S /\ S * S * W < 2 ^ 32 /\ n <= S * S;
  mt_sreg : m !! PIM_SREG SREG 0 = Some A /\ m !! PIM_SREG SREG 1 = Some B /\ m !! PIM_SREG SREG 2 = Some C /\ m !! PIM_SREG SREG 3 = Some S;
  mt_A : reads A (S * S) f m;
  mt_B : reads B (S * S) g m;
  mt_C : words C (S * S) m;
  mt_vreg : words VREG nv m;
  mt_apart : sep A (S * S) C (S * S) /\ sep B (S * S) C (S * S) /\ sep VREG nv A (S * S) /\ sep VREG nv B (S * S) /\ sep VREG nv C (S * S);
}.

Section tasks.
Context (SREG VREG A B C S n mx nv : Z) (f g : Z -> Z) (m : gmap Z Z) (Ht : matrix_task SREG VREG A B C S n mx nv f g m).

Lemma task_regs (p : Z -> Z -> Z -> Z -> prog) :
  run (Load (PIM_SREG SREG 0) (fun A => Load (PIM_SREG SREG 1) (fun B => Load (PIM_SREG SREG 2) (fun C => Load (PIM_SREG SREG 3) (fun S => p A B C S))))) m [] = run (p A B C S) m [].
Proof.
  destruct (mt_sreg _ _ _ _ _ _ _ _ _ _ _ _ Ht) as (H0 & H1 & H2 & H3). by rewrite (run_load_now _ _ _ _ H0), (run_load_now _ _ _ _ H1), (run_load_now _ _ _ _ H2), (run_load_now _ _ _ _ H3).
Qed.

Lemma default_run : exists m', run (matrix_add_default SREG) m [] = Some (m', []) /\ reads C (S * S) (fun i => u32 (f i + g i)) m' /\ only_words C (S * S) m m'.
Proof.
  destruct Ht as [(H1 & H2 & H3 & H4 & H5) Hr HA HB HC HV (S1 & S2 & S3 & S4 & S5)]. unfold matrix_add_default. rewrite task_regs.
  rewrite (u32_small (S * S)) by (unfold is_u32, u32_mod, W in *; nia).
  destruct (add_loop_run A B C (S * S) Ret m [] f g) as (m' & -> & R & _ & _ & U); try done; [nia|apply avoids_nil..|]. exists m'. cbn. by split_and!.
Qed.

Lemma best_run : exists m', run (matrix_add_best SREG VREG (W * n) (W * mx)) m [] = Some (m', []) /\
  (forall j, 0 <= j < S * S / n * n -> m' !! (C + W * j) = Some (u32 (f j + g j))) /\
  (forall a, ~ within VREG nv a -> (forall j, 0 <= j < S * S / n * n -> a <> C + W * j) -> m' !! a = m !! a).
Proof.
  destruct Ht as [(H1 & H2 & H3 & H4 & H5) Hr HA HB HC HV (S1 & S2 & S3 & S4 & S5)]. unfold matrix_add_best. rewrite task_regs. set (SS := S * S) in *.
  rewrite (u32_small SS) by (unfold is_u32, u32_mod, W, SS in *; nia). cbn zeta. rewrite (u32_small (SS * W)) by (unfold is_u32, u32_mod, W, SS in *; nia).
  assert (Enum : SS * W / (W * n) = SS / n) by (rewrite (Z.mul_comm W n); apply Z.div_mul_cancel_r; unfold W; lia). rewrite Enum. set (num := SS / n).
  assert (Hnum : 1 <= num /\ num * n <= SS) by (unfold num; split; [apply Z.div_le_lower_bound; lia|rewrite Z.mul_comm; apply Z.mul_div_le; lia]).
  set (pong := VREG + W * mx * 3). set (k := DMA_WAIT 0 _). assert (E0 : VREG + W * n * 0 = VREG) by lia. rewrite E0.
  destruct (run_request A VREG n PIM_DMA_READ 0 (DMA_REQUEST B (VREG + W * n * 1) (W * n) PIM_DMA_READ 1 k) m [] f) as (m1 & -> & R1 & O1 & K1); cbn [to_of from_of];
    [lia|split; [apply NoDup_nil_2|done]|apply avoids_nil|apply avoids_nil|unfold sep, W in *; lia|intros i Hi; apply HA; lia|intros i Hi; apply HV; lia|]. cbn [to_of from_of] in R1, O1. apply only_words_within in O1.
  destruct (run_request B (VREG + W * n * 1) n PIM_DMA_READ 1 k m1 ([] ++ moves A VREG n PIM_DMA_READ 0) g) as (m2 & -> & R2 & O2 & K2); cbn [to_of from_of app];
    [lia|apply (apart_moves []); cbn [to_of from_of]; [split; [apply NoDup_nil_2|done]|apply avoids_nil|apply avoids_nil|unfold sep, W in *; lia]|apply avoids_moves; unfold sep, W in *; cbn; lia|
      apply avoids_dst_moves; unfold sep, W in *; cbn; lia|unfold sep, W in *; lia| | |].
  { intros i Hi. rewrite O1; [apply HB; lia|]. unfold within, sep, W in *. lia. }
  { replace (VREG + W * n * 1) with (VREG + W * n) by lia. apply (words_sub VREG nv); [by eapply words_keeps|lia|lia]. }
  cbn [to_of from_of] in R2, O2. apply only_words_within in O2. unfold k, DMA_WAIT. cbn [run].
  rewrite !filter_app, (filter_none_res 0) by apply moves_res. rewrite (filter_all _ (moves _ _ _ _ 1)) by (by apply moves_res_ne). rewrite (filter_none_res 1 (moves _ _ _ _ 1)) by apply moves_res. rewrite filter_nil. cbn [app].
  assert (O : only_within VREG (2 * n) m m2) by (eapply only_trans; eapply only_wider; [exact O1|lia|unfold W; lia|exact O2|unfold W; lia|unfold W; lia]).
  assert (K : keeps m m2) by (by eapply keeps_trans).
  destruct (bursts_run A B C n num SS f g ltac:(lia) ltac:(lia) ltac:(lia) S1 S2 (Z.to_nat num) 0 VREG pong m2 []) as (m' & -> & R & U);
    [lia|lia|unfold buffer_ok, sep, W in *; lia|unfold buffer_ok, pong, sep, W in *; lia|unfold pong, sep, W in *; lia|split; [done|split; [apply NoDup_nil_2|done]|intros a Ha; by apply elem_of_nil in Ha..]| | | | | | |].
  - eapply reads_only; [exact HA|exact O|unfold sep, W in *; lia].
  - eapply reads_only; [exact HB|exact O|unfold sep, W in *; lia].
  - by eapply words_keeps.
  - intros i Hi. apply K, HV. lia.
  - unfold pong. replace (VREG + W * mx * 3) with (VREG + W * (mx * 3)) by lia. apply (words_sub VREG nv); [by eapply words_keeps|lia|lia].
  - intros _. replace (VREG + W * n) with (VREG + W * n * 1) by lia. split; [|exact R2]. eapply reads_only; [exact R1|exact O2|unfold sep, W; lia].
  - exists m'. split; [done|]. split; [exact R|]. intros a Ha Hj. rewrite U; [|unfold within, W in *; lia|unfold pong, within, W in *; lia|exact Hj]. apply O. unfold within, W in *. lia.
Qed.
End tasks.

(** ** Multiplication *)

(** The [n] products from [k] on of row [r] and column [c]. *)
Fixpoint dot (f g : Z -> Z) (S r c k : Z) (n : nat) : Z :=
  match n with O => 0 | Datatypes.S n' => f (r * S + k) * g (k * S + c) + dot f g S r c (k + 1) n' end.
(** The element at index [j] of the product. *)
Definition product (f g : Z -> Z) (S j : Z) : Z := u32 (dot f g S (j / S) (j mod S) 0 (Z.to_nat S)).

Section mult.
Context (A B C S : Z) (f g : Z -> Z) (HS : 0 < S) (SA : sep A (S * S) C (S * S)) (SB : sep B (S * S) C (S * S)).
Implicit Types (m : gmap Z Z).

Lemma dot_loop_run n : forall k r c sum cont m, k + Z.of_nat n = S -> 0 <= k -> 0 <= r < S -> 0 <= c < S -> reads A (S * S) f m -> reads B (S * S) g m ->
  run (dot_loop n S A B r c k (u32 sum) cont) m [] = run (cont (u32 (sum + dot f g S r c k n))) m [].
Proof.
  induction n as [|n IH]; intros k r c sum cont m Hk Hk0 Hr Hc HA HB; cbn [dot_loop dot]; [by rewrite Z.add_0_r|].
  rewrite (run_load A (S * S) f m []) by (done || nia || apply avoids_nil). rewrite (run_load B (S * S) g m []) by (done || nia || apply avoids_nil).
  assert (E : u32 (u32 sum + u32 (f (r * S + k) * g (k * S + c))) = u32 (sum + f (r * S + k) * g (k * S + c))) by (unfold u32; by rewrite <- Zplus_mod).
  rewrite E, IH by (done || lia). by rewrite Z.add_assoc.
Qed.

(** The elements from [i] on are written. *)
Definition filled m (m' : gmap Z Z) (i e : Z) : Prop :=
  (forall j, i <= j < e -> m' !! (C + W * j) = Some (product f g S j)) /\ (forall a, (forall j, i <= j < e -> a <> C + W * j) -> m' !! a = m !! a) /\ keeps m m'.

Lemma filled_trans m m1 m2 i j e : filled m m1 i j -> filled m1 m2 j e -> i <= j <= e -> filled m m2 i e.
Proof.
  intros (H1 & H2 & H3) (H4 & H5 & H6) Hij. split; [|split; [|by eapply keeps_trans]].
  - intros l Hl. destruct (decide (j <= l)); [apply H4; lia|]. rewrite H5; [apply H1; lia|]. intros l' Hl'. unfold W. lia.
  - intros a Ha. rewrite H5, H2; [done|intros l Hl; apply Ha; lia..].
Qed.

Lemma filled_reads m m' i e b h : filled m m' i e -> 0 <= i -> e <= S * S -> sep b (S * S) C (S * S) -> reads b (S * S) h m -> reads b (S * S) h m'.
Proof. intros (_ & H2 & _) Hi He Hs Hr l Hl. rewrite H2; [by apply Hr|]. intros j Hj. unfold sep, W in *. lia. Qed.

Lemma col_loop_run n : forall r c cont m, c + Z.of_nat n = S -> 0 <= c -> 0 <= r < S -> reads A (S * S) f m -> reads B (S * S) g m -> words C (S * S) m ->
  exists m', run (col_loop n S A B C r c cont) m [] = run cont m' [] /\ filled m m' (r * S + c) (r * S + S).
Proof.
  induction n as [|n IH]; intros r c cont m Hc Hc0 Hr HA HB HC; cbn [col_loop].
  - exists m. split; [done|]. split; [intros j Hj; lia|]. by split; [|intros a].
  - assert (Hin : 0 <= r * S + c < S * S) by nia. change 0 with (u32 0) at 2. rewrite (dot_loop_run (Z.to_nat S) 0) by (done || lia). rewrite Z.add_0_l.
    rewrite (run_store C (S * S) m [] (r * S + c)) by (done || apply avoids_nil). set (m1 := <[_ := _]> m).
    assert (Hf : filled m m1 (r * S + c) (r * S + c + 1)).
    { unfold m1. split; [|split; [|apply keeps_insert]].
      - intros j Hj. replace j with (r * S + c) by lia. rewrite lookup_insert_eq. unfold product.
        rewrite Z.add_comm, Z.div_add, Z.mod_add, Z.div_small, Z.mod_small by lia. by rewrite Z.add_0_l.
      - intros a Ha. rewrite lookup_insert_ne; [done|]. intros E. apply (Ha (r * S + c)); [lia|done]. }
    destruct (IH r (c + 1) cont m1) as (m' & -> & Hf'); [lia|lia|done|eapply filled_reads; [exact Hf|lia|lia|done|done]..|eapply words_keeps; [exact HC|apply Hf]|].
    exists m'. split; [done|]. rewrite Z.add_assoc in Hf'. by eapply filled_trans; [exact Hf|exact Hf'|nia].
Qed.

Lemma row_loop_run n : forall r m, r + Z.of_nat n = S -> 0 <= r -> reads A (S * S) f m -> reads B (S * S) g m -> words C (S * S) m ->
  exists m', run (row_loop n S A B C r) m [] = Some (m', []) /\ filled m m' (r * S) (S * S).
Proof.
  induction n as [|n IH]; intros r m Hr Hr0 HA HB HC; cbn [row_loop].
  - exists m. split; [done|]. assert (r = S) by lia. subst r. split; [intros j Hj; lia|]. by split; [|intros a].
  - destruct (col_loop_run (Z.to_nat S) r 0 (row_loop n S A B C (r + 1)) m) as (m1 & -> & Hf); [lia|lia|lia|done..|]. rewrite Z.add_0_r in Hf. assert (Hin : 0 <= r * S /\ r * S + S <= S * S) by nia.
    destruct (IH (r + 1) m1) as (m' & -> & Hf'); [lia|lia|eapply filled_reads; [exact Hf|lia|lia|done|done]..|eapply words_keeps; [exact HC|apply Hf]|].
    exists m'. split; [done|]. replace ((r + 1) * S) with (r * S + S) in Hf' by lia. by eapply filled_trans; [exact Hf|exact Hf'|lia].
Qed.
End mult.

(** ** The host *)

(** [calculate_golden] for the addition: row [r], column [c], [n] more. *)
Fixpoint golden_cols (n : nat) (S X Y Z r c : Z) (k : prog) : prog :=
  match n with
  | O => k
  | Datatypes.S n' => Load (X + W * (r * S + c)) (fun x => Load (Y + W * (r * S + c)) (fun y => Store (Z + W * (r * S + c)) (u32 (x + y)) (golden_cols n' S X Y Z r (c + 1) k)))
  end.
Fixpoint golden_rows (n : nat) (S X Y Z r : Z) : prog :=
  match n with O => Ret | Datatypes.S n' => golden_cols (Z.to_nat S) S X Y Z r 0 (golden_rows n' S X Y Z (r + 1)) end.
Definition calculate_golden (S X Y Z : Z) : prog := golden_rows (Z.to_nat S) S X Y Z 0.

(** [compare_golden]: every element is compared. *)
Definition compare_golden (S C G : Z) (m : gmap Z Z) : bool :=
  forallb (fun r => forallb (fun c => bool_decide (m !! (C + W * (r * S + c)) = m !! (G + W * (r * S + c)))) (seqZ 0 S)) (seqZ 0 S).

Lemma golden_cols_add n : forall S X Y Z r c k, golden_cols n S X Y Z r c k = add_loop n X Y Z (r * S + c) k.
Proof. induction n as [|n IH]; intros S X Y Z r c k; cbn; [done|]. by rewrite IH, Z.add_assoc. Qed.

Lemma add_loop_app n : forall n' A B C i k, add_loop n A B C i (add_loop n' A B C (i + Z.of_nat n) k) = add_loop (n + n') A B C i k.
Proof.
  induction n as [|n IH]; intros n' A B C i k; cbn [add_loop Nat.add]; [by rewrite Z.add_0_r|]. rewrite <- IH. by replace (i + Z.of_nat (S n)) with (i + 1 + Z.of_nat n) by lia.
Qed.

Lemma golden_rows_add n : forall S X Y Z r, 0 <= S -> golden_rows n S X Y Z r = add_loop (n * Z.to_nat S) X Y Z (r * S) Ret.
Proof.
  induction n as [|n IH]; intros S X Y Z r HS; cbn [golden_rows]; [done|]. rewrite IH, golden_cols_add by done. cbn [Nat.mul]. rewrite <- add_loop_app, Z.add_0_r.
  by replace ((r + 1) * S) with (r * S + Z.of_nat (Z.to_nat S)) by lia.
Qed.

Lemma compare_golden_true S C G m : 0 <= S -> compare_golden S C G m = true <-> forall j, 0 <= j < S * S -> m !! (C + W * j) = m !! (G + W * j).
Proof.
  intros HS. unfold compare_golden. rewrite forallb_forall. setoid_rewrite forallb_forall. setoid_rewrite <- list_elem_of_In. setoid_rewrite elem_of_seqZ. split.
  - intros Hall j Hj. assert (S <> 0) by lia. pose proof (Z.div_mod j S) as Ej. pose proof (Z.mod_pos_bound j S) as Hm. pose proof (Z.div_pos j S) as Hd.
    assert (Hq : j / S < S) by (apply Z.div_lt_upper_bound; lia).
    specialize (Hall (j / S) ltac:(lia) (j mod S) ltac:(lia)). apply bool_decide_eq_true in Hall. replace (j / S * S + j mod S) with j in Hall by lia. done.
  - intros Hall r Hr c Hc. apply bool_decide_eq_true, Hall. nia.
Qed.

(** The golden model of the addition. *)
Lemma calculate_golden_run S X Y Z f g m : 0 <= S -> reads X (S * S) f m -> reads Y (S * S) g m -> words Z (S * S) m -> sep X (S * S) Z (S * S) -> sep Y (S * S) Z (S * S) ->
  exists m', run (calculate_golden S X Y Z) m [] = Some (m', []) /\ reads Z (S * S) (fun i => u32 (f i + g i)) m' /\ only_words Z (S * S) m m'.
Proof.
  intros HS HX HY HZ S1 S2. unfold calculate_golden. rewrite golden_rows_add by done. replace (Z.to_nat S * Z.to_nat S)%nat with (Z.to_nat (S * S)) by lia. rewrite Z.mul_0_l.
  destruct (add_loop_run X Y Z (S * S) Ret m [] f g) as (m' & -> & R & _ & _ & U); try done; [nia|apply avoids_nil..|]. exists m'. by split_and!.
Qed.

(** ** Properties *)

(** C28: Double buffering is invisible.  If the matrix is a multiple of the transfer size and the plain kernel leaves the memory [m1], then, whatever the order and the moment of the word moves of the DMA engine,
    and even if the engine makes moves repeatedly or never finishes some of them, no access of the double-buffered addition faults, and if it returns, all its transfers are made and the memory is, outside the vector register, [m1].
    With an engine that makes every move once it does return.  (The engine of the simulator can lose the first of two overlapping requests, and the kernel then waits for ever.)
    The plain kernel writes the sums, modulo the word, and nothing else. *)
Theorem matrix_add_double_buffering SREG VREG A B C S n mx nv f g m : matrix_task SREG VREG A B C S n mx nv f g m -> (n | S * S) ->
  exists m1 m2, run (matrix_add_default SREG) m [] = Some (m1, []) /\ returns_in (matrix_add_best SREG VREG (W * n) (W * mx)) m m2 /\
    ends_in (matrix_add_best SREG VREG (W * n) (W * mx)) m m2 /\ (forall a, ~ within VREG nv a -> m2 !! a = m1 !! a) /\ reads C (S * S) (fun i => u32 (f i + g i)) m1 /\ only_words C (S * S) m m1.
Proof.
  intros Ht [q Hq]. destruct (default_run _ _ _ _ _ _ _ _ _ _ _ _ Ht) as (m1 & H1 & R1 & U1). destruct (best_run _ _ _ _ _ _ _ _ _ _ _ _ Ht) as (m2 & H2 & R2 & U2).
  exists m1, m2. split; [done|]. split; [by apply run_lossy|]. split; [by apply run_deterministic in H2|]. split; [|done]. destruct (mt_sizes _ _ _ _ _ _ _ _ _ _ _ _ Ht) as (Hn & _).
  assert (E : S * S / n * n = S * S) by (rewrite Hq, Z.div_mul by lia; done). rewrite E in R2, U2. intros a Ha.
  destruct (decide (a ∈ (fun j => C + W * j) <$> seqZ 0 (S * S))) as [Hin|Hin].
  - apply list_elem_of_fmap in Hin as (j & -> & Hj%elem_of_seqZ). rewrite R2, R1 by lia. done.
  - assert (Hne : forall j, 0 <= j < S * S -> a <> C + W * j).
    { intros j Hj ->. apply Hin. apply list_elem_of_fmap. exists j. split; [done|]. apply elem_of_seqZ. lia. }
    rewrite U2 by done. symmetry. by apply U1.
Qed.

(** C39: The double-buffered addition leaves out the end of the matrix.  On the matrices of the host program, with i at index i and a zero result, if the transfer size is at most the size of the matrix but does not
    divide it, every execution ends (with an engine that makes every move once) with the last elements of the result as they were, and the comparison with the golden model fails. *)
Theorem matrix_add_tail_not_computed SREG VREG A B C S n mx nv m G : matrix_task SREG VREG A B C S n mx nv (fun i => i) (fun i => i) m -> ~ (n | S * S) ->
  reads C (S * S) (fun _ => 0) m -> words G (S * S) m -> sep A (S * S) G (S * S) -> sep B (S * S) G (S * S) -> sep C (S * S) G (S * S) -> sep VREG nv G (S * S) ->
  exists m2 m3, ends_in (matrix_add_best SREG VREG (W * n) (W * mx)) m m2 /\ (forall j, S * S / n * n <= j < S * S -> m2 !! (C + W * j) = m !! (C + W * j)) /\
    run (calculate_golden S A B G) m2 [] = Some (m3, []) /\ compare_golden S C G m3 = false.
Proof.
  intros Ht Hnd HC HG SA SB SC SV. destruct (best_run _ _ _ _ _ _ _ _ _ _ _ _ Ht) as (m2 & H2 & R2 & U2). destruct Ht as [(Hn & Hv & HS & Hmax & Hle) _ HA HB _ _ (S1 & S2 & S3 & S4 & S5)].
  set (q := S * S / n) in *. assert (Hq : q * n <= S * S /\ 1 <= q) by (unfold q; split; [rewrite Z.mul_comm; apply Z.mul_div_le; lia|apply Z.div_le_lower_bound; lia]).
  assert (Hlt : q * n < S * S) by (destruct (decide (q * n = S * S)) as [E|]; [|lia]; exfalso; apply Hnd; by exists q).
  assert (Hsame : forall b, sep VREG nv b (S * S) -> sep b (S * S) C (S * S) -> forall i, 0 <= i < S * S -> m2 !! (b + W * i) = m !! (b + W * i)).
  { intros b Hb Hbc i Hi. apply U2; [unfold within, sep, W in *; lia|]. intros j Hj. unfold sep, W in *. lia. }
  assert (Htail : forall j, q * n <= j < S * S -> m2 !! (C + W * j) = m !! (C + W * j)).
  { intros j Hj. apply U2; [unfold within, sep, W in *; lia|]. intros j' Hj'. unfold W. lia. }
  destruct (calculate_golden_run S A B G (fun i => i) (fun i => i) m2) as (m3 & H3 & R3 & U3); try done; [lia|by eapply reads_same; [exact HA|apply Hsame]|by eapply reads_same; [exact HB|apply Hsame]| |].
  { intros i Hi. rewrite Hsame; [by apply HG|done|unfold sep in *; lia|done]. }
  exists m2, m3. split; [by apply run_deterministic in H2|]. split; [exact Htail|]. split; [done|]. apply not_true_iff_false. rewrite compare_golden_true by lia. intros Hall.
  specialize (Hall (q * n) ltac:(nia)). rewrite R3 in Hall by nia. rewrite U3 in Hall by (intros i Hi; unfold sep, W in *; nia). rewrite Htail, HC in Hall by nia. injection Hall as Hall.
  rewrite u32_small in Hall by (unfold is_u32, u32_mod, W in *; nia). nia.
Qed.

(** The multiplication kernel computes the product.  From any memory with the registers and matrices in place it ends without fault, each element of the result is the sum of the products of the row and the column, modulo the word, and
    nothing else is changed. *)
Theorem matrix_mult_product SREG VREG A B C S n mx nv f g m : matrix_task SREG VREG A B C S n mx nv f g m ->
  exists m', ends_in (matrix_mult SREG) m m' /\ only_words C (S * S) m m' /\
    forall r c, 0 <= r < S -> 0 <= c < S -> m' !! (C + W * (r * S + c)) = Some (u32 (dot f g S r c 0 (Z.to_nat S))).
Proof.
  intros Ht. pose proof Ht as [(Hn & Hv & HS & Hmax & Hle) _ HA HB HC _ (S1 & S2 & _)].
  destruct (row_loop_run A B C S f g HS S1 S2 (Z.to_nat S) 0 m) as (m' & Hr & (F1 & F2 & _)); [lia|done..|]. exists m'. split; [|split].
  - eapply run_deterministic. unfold matrix_mult. rewrite (task_regs _ _ _ _ _ _ _ _ _ _ _ _ Ht). exact Hr.
  - intros a Ha. apply F2. intros j Hj. apply Ha. lia.
  - intros r c Hr' Hc. rewrite F1 by nia. unfold product. rewrite Z.add_comm, Z.div_add, Z.mod_add, Z.div_small, Z.mod_small by lia. by rewrite Z.add_0_l.
Qed.

(** ** Examples *)

(** Matrices of 2 by 2 words with i at index i, behind a vector register of [nv] words, and space for the golden model. *)
Definition ex_matrix (nv : nat) : gmap Z Z :=
  list_to_map (imap (fun i v => (W * Z.of_nat i, v))
    ([16 + W * Z.of_nat nv; 32 + W * Z.of_nat nv; 48 + W * Z.of_nat nv; 2] ++ replicate nv 0 ++ [0; 1; 2; 3] ++ [0; 1; 2; 3] ++ replicate 8 0)).

Lemma ex_task (n : Z) (nv : nat) : n = 2 /\ nv = 12%nat \/ n = 3 /\ nv = 18%nat ->
  matrix_task 0 16 (16 + W * Z.of_nat nv) (32 + W * Z.of_nat nv) (48 + W * Z.of_nat nv) 2 n n (Z.of_nat nv) (fun i => i) (fun i => i) (ex_matrix nv).
Proof.
  intros [[-> ->]|[-> ->]]; (split; [unfold W; lia|split_and!; vm_compute; reflexivity|apply reads_check; vm_compute; reflexivity|apply reads_check; vm_compute; reflexivity|
    apply words_check; vm_compute; reflexivity|apply words_check; vm_compute; reflexivity|unfold sep, W; lia]).
Qed.

Lemma matrix_add_double_buffering_witness : exists m1 m2, run (matrix_add_default 0) (ex_matrix 12) [] = Some (m1, []) /\ returns_in (matrix_add_best 0 16 (W * 2) (W * 2)) (ex_matrix 12) m2 /\ ends_in (matrix_add_best 0 16 (W * 2) (W * 2)) (ex_matrix 12) m2 /\
  forall a, ~ within 16 12 a -> m2 !! a = m1 !! a.
Proof.
  destruct (matrix_add_double_buffering 0 16 64 80 96 2 2 2 12 (fun i => i) (fun i => i) (ex_matrix 12)) as (m1 & m2 & H1 & H2 & H3 & H4 & _); [apply (ex_task 2 12); auto|by exists 2|].
  exists m1, m2. split; [exact H1|]. split; [exact H2|]. split; [exact H3|exact H4].
Defined.

Lemma matrix_add_tail_not_computed_witness : exists m2 m3, ends_in (matrix_add_best 0 16 (W * 3) (W * 3)) (ex_matrix 18) m2 /\
  run (calculate_golden 2 88 104 136) m2 [] = Some (m3, []) /\ compare_golden 2 120 136 m3 = false.
Proof.
  destruct (matrix_add_tail_not_computed 0 16 88 104 120 2 3 3 18 (ex_matrix 18) 136) as (m2 & m3 & H1 & _ & H2 & H3).
  - apply (ex_task 3 18). auto.
  - intros [q Hq]. lia.
  - apply reads_check. vm_compute. reflexivity.
  - apply words_check. vm_compute. reflexivity.
  - unfold sep, W. lia.
  - unfold sep, W. lia.
  - unfold sep, W. lia.
  - unfold sep, W. lia.
  - exists m2, m3. split; [exact H1|]. split; [exact H2|exact H3].
Defined.

Lemma matrix_mult_product_witness : exists m', ends_in (matrix_mult 0) (ex_matrix 12) m' /\ m' !! (96 + W * (1 * 2 + 1)) = Some 11.
Proof.
  destruct (matrix_mult_product 0 16 64 80 96 2 2 2 12 (fun i => i) (fun i => i) (ex_matrix 12)) as (m' & H1 & _ & H2); [apply (ex_task 2 12); auto|].
  exists m'. split; [exact H1|]. rewrite (H2 1 1) by lia. vm_compute. reflexivity.
Defined.
