(* ===== verification/TreeKernels.v ===== *)
(** * The tree search application

    Models src/SMC/SW/HOST/app/offload_tree/main.cc, which builds a balanced binary search tree in the shared region, lets the device search it and compares the checksum with
    that of its own search, and the kernel src/SMC/SW/PIM/kernels/tree_search.c, plain and with a DMA transfer per node, as programs of KernelDma.v.
    The words of the region are those of a static array, so they are zero at the start.

    The theorems show that the tree is built without fault as a complete tree in one block, with the keys in search order, that every search finds its
    key, in a number of steps that its key determines, and that the program succeeds with both kernels, whatever the DMA engine does. *)

From stdpp Require Import list_numbers.
From S2P Require Import Prelude KernelDma.

(** [sizeof(node)]: the key and two pointers *)
Definition NODE : Z := 3 * W.

(** ** The host program *)

(** The memory, [region_aligned] and [region_end]. *)
Record host := mkHost { h_mem : gmap Z Z; h_next : Z; h_end : Z }.

Definition region_alloc (h : host) (size : Z) : option (host * Z) :=
  if (size <? 0xFFFFFFFF) && (h_next h + size <? h_end h) then Some (mkHost (h_mem h) (h_next h + size) (h_end h), h_next h) else None.
Definition put (h : host) (a v : Z) : option host :=
  _ ← h_mem h !! a; Some (mkHost (<[a := v]> (h_mem h)) (h_next h) (h_end h)).

(** [pow2] *)
Fixpoint pow2_loop (n : nat) (res : Z) : Z := match n with O => res | S n' => pow2_loop n' (u32 (res * 2)) end.
Definition pow2 (value : nat) : Z := pow2_loop value 1.

(** [for (j...) { pn[j].left = &cn[j*2]; pn[j].right = &cn[j*2+1]; }] *)
Fixpoint link_row (n : nat) (j pn cn : Z) (h : host) : option host :=
  match n with
  | O => Some h
  | S n' => h1 ← put h (pn + NODE * j + W) (cn + NODE * (j * 2)); h2 ← put h1 (pn + NODE * j + 2 * W) (cn + NODE * (j * 2 + 1)); link_row n' (j + 1) pn cn h2
  end.

(** The rows from [i] on; the result is the address of the root. *)
Fixpoint create_rows (n i : nat) (tree pn : Z) (h : host) : option (host * Z) :=
  match n with
  | O => Some (h, tree)
  | S n' =>
      '(h1, cn) ← region_alloc h (u32 (pow2 i * NODE));
      match i with
      | O => create_rows n' (S i) cn cn h1
      | S i' => h2 ← link_row (Z.to_nat (pow2 i')) 0 pn cn h1; create_rows n' (S i) tree cn h2
      end
  end.
Definition create_tree (HEIGHT : nat) (h : host) : option (host * Z) := create_rows HEIGHT 0 0 0 h.

Fixpoint init_tree (fuel : nat) (current start count : Z) (h : host) : option host :=
  if current =? 0 then Some h
  else
    match fuel with
    | O => None
    | S fuel' =>
        l ← h_mem h !! (current + W);
        h1 ← init_tree fuel' l start (u32 (count - 1) / 2) h;
        r ← h_mem h1 !! (current + 2 * W);
        h2 ← init_tree fuel' r (u32 (start + u32 (count - 1) / 2 + 1)) (u32 (count - 1) / 2) h1;
        put h2 current (u32 (start + count / 2))
    end.

(** [check_tree], for a node *)
Fixpoint check_tree (fuel : nat) (m : gmap Z Z) (n : Z) : option bool :=
  if n =? 0 then Some false
  else
    match fuel with
    | O => None
    | S fuel' =>
        key ← m !! n; l ← m !! (n + W); r ← m !! (n + 2 * W);
        flag1 ← (if l =? 0 then Some true else lk ← m !! l; if key <=? lk then Some false else check_tree fuel' m l);
        if r =? 0 then Some flag1
        else rk ← m !! r; if rk <=? key then Some false else if (flag1 : bool) then check_tree fuel' m r else Some false
    end.

(** [init_search_list]: [rands] are the results of [rand]. *)
Fixpoint fill_list (rands : list Z) (num_nodes a i : Z) (h : host) : option host :=
  match rands with [] => Some h | x :: l => h1 ← put h (a + W * i) (x mod num_nodes); fill_list l num_nodes a (i + 1) h1 end.
Definition init_search_list (rands : list Z) (num_nodes : Z) (h : host) : option (host * Z) :=
  '(h1, a) ← region_alloc h (Z.of_nat (length rands) * W); h2 ← fill_list rands num_nodes a 0 h1; Some (h2, a).

(** [golden_search]: [None] if a key is not found, where the program exits. *)
Fixpoint golden_one (fuel : nat) (m : gmap Z Z) (goal curr checksum : Z) : option Z :=
  if curr =? 0 then None
  else
    match fuel with
    | O => None
    | S fuel' =>
        key ← m !! curr;
        if key =? goal then Some (u32 (checksum + 1))
        else if goal <? key then l ← m !! (curr + W); golden_one fuel' m goal l (u32 (checksum + 1))
        else r ← m !! (curr + 2 * W); golden_one fuel' m goal r (u32 (checksum + 1))
    end.
Fixpoint golden_search (fuel n : nat) (m : gmap Z Z) (tree list i checksum : Z) : option Z :=
  match n with
  | O => Some checksum
  | S n' => goal ← m !! (list + W * i); c ← golden_one fuel m goal tree checksum; golden_search fuel n' m tree list (i + 1) c
  end.

(** ** The kernels *)

Section kernels.
Context (SREG VREG : Z) (fuel : nat).

(** One search; [pim_error] ends the kernel when the key is not found. *)
Fixpoint search_default (fuel : nat) (goal curr checksum : Z) (k : Z -> prog) : prog :=
  if curr =? 0 then Cut
  else
    match fuel with
    | O => Cut
    | S fuel' =>
        Load curr (fun key =>
          if key =? goal then k (u32 (checksum + 1))
          else if goal <? key then Load (curr + W) (fun l => search_default fuel' goal l (u32 (checksum + 1)) k)
          else Load (curr + 2 * W) (fun r => search_default fuel' goal r (u32 (checksum + 1)) k))
    end.
(** The node is first transferred to the vector register. *)
Fixpoint search_dma (fuel : nat) (goal curr checksum : Z) (k : Z -> prog) : prog :=
  if curr =? 0 then Cut
  else
    match fuel with
    | O => Cut
    | S fuel' =>
        DMA_REQUEST curr VREG (3 * W) PIM_DMA_READ 0 (DMA_WAIT 0 (
          Load VREG (fun key =>
            if key =? goal then k (u32 (checksum + 1))
            else if goal <? key then Load (VREG + W) (fun l => search_dma fuel' goal l (u32 (checksum + 1)) k)
            else Load (VREG + 2 * W) (fun r => search_dma fuel' goal r (u32 (checksum + 1)) k))))
    end.

(** The loop over the search list, for either search. *)
Fixpoint searches (search : Z -> Z -> Z -> (Z -> prog) -> prog) (n : nat) (tree list i checksum : Z) : prog :=
  match n with
  | O => Store (SREG + W * 3) checksum Ret
  | S n' => Load (list + W * i) (fun goal => search goal tree checksum (fun c => searches search n' tree list (i + 1) c))
  end.
Definition tree_kernel (search : Z -> Z -> Z -> (Z -> prog) -> prog) : prog :=
  Load (SREG + W * 0) (fun tree => Load (SREG + W * 1) (fun list => Load (SREG + W * 2) (fun num =>
    Store (SREG + W * 3) 1 (searches search (Z.to_nat num) tree list 0 0)))).
Definition tree_search_default : prog := tree_kernel (search_default fuel).
Definition tree_search_dma : prog := tree_kernel (search_dma fuel).
End kernels.

(** ** Powers of two *)

Definition p2 (n : nat) : Z := 2 ^ Z.of_nat n.

Lemma p2_S n : p2 (S n) = 2 * p2 n.
Proof. unfold p2. rewrite Nat2Z.inj_succ, Z.pow_succ_r by lia. done. Qed.
Lemma p2_pos n : 1 <= p2 n.
Proof. induction n as [|n IH]; [done|]. rewrite p2_S. lia. Qed.
Lemma p2_le n k : (n <= k)%nat -> p2 n <= p2 k.
Proof. induction 1 as [|k _ IH]; [lia|]. rewrite p2_S. pose proof (p2_pos k). lia. Qed.

Lemma pow2_p2 n : p2 n < u32_mod -> pow2 n = p2 n.
Proof.
  unfold pow2. intros Hn. assert (Hg : forall n r, 0 < r -> r * p2 n < u32_mod -> pow2_loop n r = r * p2 n); [|rewrite Hg; lia]. clear n Hn.
  induction n as [|n IH]; intros r Hr Hlt; cbn [pow2_loop]; [unfold p2; cbn; lia|]. rewrite p2_S in Hlt |- *. pose proof (p2_pos n).
  rewrite u32_small by (unfold is_u32; nia). rewrite IH; nia.
Qed.

(** ** Building the tree *)

Section build.
Context (T : Z) (H : nat).

(** The left and right pointer of node [k]; the nodes are numbered row by row. *)
Definition lft (k : Z) : Z := T + NODE * k + W.
Definition rgt (k : Z) : Z := T + NODE * k + 2 * W.

(** The nodes from [lo] to [hi] are linked to their children, and nothing else was changed. *)
Definition linked (lo hi : Z) (m m' : gmap Z Z) : Prop :=
  (forall k, lo <= k < hi -> m' !! lft k = Some (T + NODE * (2 * k + 1)) /\ m' !! rgt k = Some (T + NODE * (2 * k + 2))) /\
  (forall a, (forall k, lo <= k < hi -> a <> lft k /\ a <> rgt k) -> m' !! a = m !! a) /\ keeps m m'.

Lemma linked_nil lo hi m : hi <= lo -> linked lo hi m m.
Proof. intros Hle. split; [intros k Hk; lia|]. split; [done|by intros a]. Qed.

Lemma linked_trans lo mid hi m1 m2 m3 : linked lo mid m1 m2 -> linked mid hi m2 m3 -> lo <= mid <= hi -> linked lo hi m1 m3.
Proof.
  intros (A1 & A2 & A3) (B1 & B2 & B3) Hm. split; [|split; [|by eapply keeps_trans]].
  - intros k Hk. destruct (decide (mid <= k)); [apply B1; lia|]. rewrite !B2; [apply A1; lia|..]; intros k' Hk'; unfold lft, rgt, NODE, W; lia.
  - intros a Ha. rewrite B2, A2; [done|intros k Hk; apply Ha; lia..].
Qed.

Lemma put_ok h a v : is_Some (h_mem h !! a) -> put h a v = Some (mkHost (<[a := v]> (h_mem h)) (h_next h) (h_end h)).
Proof. intros [u Hu]. unfold put. by rewrite Hu. Qed.

Lemma link_row_ok b n : forall j h, 0 <= j -> (forall k, b + j <= k < b + j + Z.of_nat n -> is_Some (h_mem h !! lft k) /\ is_Some (h_mem h !! rgt k)) ->
  exists m', link_row n j (T + NODE * b) (T + NODE * (2 * b + 1)) h = Some (mkHost m' (h_next h) (h_end h)) /\ linked (b + j) (b + j + Z.of_nat n) (h_mem h) m'.
Proof.
  induction n as [|n IH]; intros j h Hj Hm; cbn [link_row].
  - exists (h_mem h). split; [by destruct h|]. apply linked_nil. lia.
  - destruct (Hm (b + j) ltac:(lia)) as [Hl Hr].
    replace (T + NODE * b + NODE * j + W) with (lft (b + j)) by (unfold lft; lia). replace (T + NODE * b + NODE * j + 2 * W) with (rgt (b + j)) by (unfold rgt; lia).
    rewrite put_ok by done. cbn [mbind option_bind]. rewrite put_ok by (cbn; by apply keeps_insert). cbn [mbind option_bind h_mem h_next h_end].
    set (m2 := <[_ := _]> (<[_ := _]> _)). assert (Hk2 : keeps (h_mem h) m2) by (eapply keeps_trans; apply keeps_insert).
    assert (L2 : linked (b + j) (b + j + 1) (h_mem h) m2).
    { split; [|split; [|done]].
      - intros k Hk. replace k with (b + j) by lia. unfold m2. rewrite lookup_insert_ne by (unfold lft, rgt, W; lia). rewrite !lookup_insert_eq. split; f_equal; unfold NODE; lia.
      - intros a Ha. destruct (Ha (b + j) ltac:(lia)). unfold m2. by rewrite !lookup_insert_ne by done. }
    destruct (IH (j + 1) (mkHost m2 (h_next h) (h_end h))) as (m' & -> & L); [lia| |].
    + intros k Hk. destruct (Hm k ltac:(lia)). split; by apply Hk2.
    + exists m'. split; [done|]. cbn [h_mem] in L. eapply linked_trans; [exact L2| |lia]. by replace (b + j + 1) with (b + (j + 1)) by lia; replace (b + j + Z.of_nat (S n)) with (b + (j + 1) + Z.of_nat n) by lia.
Qed.

Lemma create_rows_ok n : forall i h, (S i + n = H)%nat -> T + NODE * (p2 H - 1) < h_end h -> NODE * p2 H < 0xFFFFFFFF -> words T (3 * (p2 H - 1)) (h_mem h) ->
  h_next h = T + NODE * (p2 (S i) - 1) ->
  exists m', create_rows n (S i) T (T + NODE * (p2 i - 1)) h = Some (mkHost m' (T + NODE * (p2 H - 1)) (h_end h), T) /\ linked (p2 i - 1) (p2 (H - 1) - 1) (h_mem h) m'.
Proof.
  induction n as [|n IH]; intros i h Hi Hend Hmax Hw Hnext; cbn [create_rows].
  - assert (EH : H = S i) by lia. exists (h_mem h). rewrite EH, <- Hnext. split; [by destruct h|]. apply linked_nil. replace (S i - 1)%nat with i by lia. lia.
  - pose proof (p2_le (S (S i)) H ltac:(lia)) as Hle. rewrite p2_S in Hle. pose proof (p2_pos (S i)) as Hpos. pose proof (p2_pos i) as Hpos'. assert (E : p2 (S i) = 2 * p2 i) by apply p2_S.
    rewrite !pow2_p2 by (unfold u32_mod, NODE, W in *; lia). unfold region_alloc. rewrite u32_small by (unfold is_u32, u32_mod, NODE, W in *; lia).
    destruct (Z.ltb_spec (p2 (S i) * NODE) 0xFFFFFFFF); [|unfold NODE, W in *; lia]. destruct (Z.ltb_spec (h_next h + p2 (S i) * NODE) (h_end h)); [|unfold NODE, W in *; lia].
    cbn [andb mbind option_bind]. rewrite Hnext. set (h1 := mkHost _ _ _).
    replace (T + NODE * (p2 (S i) - 1)) with (T + NODE * (2 * (p2 i - 1) + 1)) by (rewrite E; lia).
    destruct (link_row_ok (p2 i - 1) (Z.to_nat (p2 i)) 0 h1) as (m1 & -> & L1); [lia| |].
    { intros k Hk. split; [replace (lft k) with (T + W * (3 * k + 1)) by (unfold lft, NODE, W; lia)|replace (rgt k) with (T + W * (3 * k + 2)) by (unfold rgt, NODE, W; lia)]; apply Hw; lia. }
    rewrite Z.add_0_r, Z2Nat.id in L1 by lia. cbn [mbind option_bind].
    destruct (IH (S i) (mkHost m1 (h_next h1) (h_end h1))) as (m' & Hc & L); [lia|done|done|eapply words_keeps; [exact Hw|apply L1]|cbn; rewrite (p2_S (S i)); lia|].
    exists m'. rewrite E in Hc at 1. replace (2 * p2 i - 1) with (2 * (p2 i - 1) + 1) in Hc by lia. split; [exact Hc|].
    eapply linked_trans; [exact L1| |]; [replace (p2 i - 1 + p2 i) with (p2 (S i) - 1) by (rewrite E; lia); exact L|]. pose proof (p2_le (S i) (H - 1) ltac:(lia)). lia.
Qed.
End build.

(** ** The complete tree *)

Section tree.
Context (T : Z) (H : nat) (HT : 0 < T) (HH : (0 < H)%nat) (Hmax : NODE * p2 H < 0xFFFFFFFF).
Implicit Types (m : gmap Z Z).
#[local] Notation lft := (lft T).
#[local] Notation rgt := (rgt T).

Lemma create_tree_ok h : h_next h = T -> T + NODE * (p2 H - 1) < h_end h -> words T (3 * (p2 H - 1)) (h_mem h) ->
  exists m', create_tree H h = Some (mkHost m' (T + NODE * (p2 H - 1)) (h_end h), T) /\ linked T 0 (p2 (H - 1) - 1) (h_mem h) m'.
Proof.
  intros Hnext Hend Hw. unfold create_tree. replace (create_rows H 0 0 0 h) with (create_rows (S (H - 1)) 0 0 0 h) by (f_equal; lia). cbn [create_rows]. pose proof (p2_le 1 H ltac:(lia)) as Hp. change (p2 1) with 2 in Hp.
  unfold region_alloc. change (u32 (pow2 0 * NODE)) with NODE. change (NODE <? 0xFFFFFFFF) with true. destruct (Z.ltb_spec (h_next h + NODE) (h_end h)); [|unfold NODE, W in *; lia]. cbn [andb mbind option_bind].
  destruct (create_rows_ok T H (H - 1) 0 (mkHost (h_mem h) (h_next h + NODE) (h_end h))) as (m' & Hc & L); [lia|exact Hend|exact Hmax|exact Hw|cbn [h_next]; change (p2 1) with 2; lia|].
  exists m'. rewrite Hnext in *. change (p2 0 - 1) with 0 in Hc, L. replace (T + NODE * 0) with T in Hc by lia. by split.
Qed.

(** Node [pos] of row [e], and its key. *)
Definition idx (e : nat) (pos : Z) : Z := p2 e - 1 + pos.
Definition node (e : nat) (pos : Z) : Z := T + NODE * idx e pos.
Definition keyof (e : nat) (pos : Z) : Z := pos * p2 (H - e) + p2 (H - e - 1) - 1.
Definition in_row (e : nat) (pos : Z) : Prop := (e < H)%nat /\ 0 <= pos < p2 e.

(** The pointers of the complete tree, and space for the keys. *)
Record complete m : Prop := {
  co_inner e pos : in_row e pos -> (S e < H)%nat -> m !! (node e pos + W) = Some (node (S e) (2 * pos)) /\ m !! (node e pos + 2 * W) = Some (node (S e) (2 * pos + 1));
  co_leaf e pos : in_row e pos -> S e = H -> m !! (node e pos + W) = Some 0 /\ m !! (node e pos + 2 * W) = Some 0;
  co_key e pos : in_row e pos -> is_Some (m !! node e pos);
}.

Lemma in_row_idx e pos : in_row e pos -> 0 <= idx e pos < p2 H - 1.
Proof. intros [He Hp]. unfold idx. pose proof (p2_le (S e) H ltac:(lia)) as Hle. rewrite p2_S in Hle. pose proof (p2_pos e). lia. Qed.

Lemma idx_unique e pos e' pos' : 0 <= pos < p2 e -> 0 <= pos' < p2 e' -> idx e pos = idx e' pos' -> e = e' /\ pos = pos'.
Proof.
  unfold idx. intros H1 H2 E. assert (He : e = e'); [|subst; lia].
  destruct (lt_eq_lt_dec e e') as [[Hlt| ->]|Hlt]; [|done|]; [pose proof (p2_le (S e) e' ltac:(lia)) as Hle|pose proof (p2_le (S e') e ltac:(lia)) as Hle]; rewrite p2_S in Hle; lia.
Qed.

Lemma linked_complete m0 m : reads T (3 * (p2 H - 1)) (fun _ => 0) m0 -> linked T 0 (p2 (H - 1) - 1) m0 m -> complete m.
Proof.
  intros Hz (L1 & L2 & L3). split.
  - intros e pos He Hl. pose proof (p2_le (S e) (H - 1) ltac:(lia)) as Hle. rewrite p2_S in Hle. destruct He as [_ He]. destruct (L1 (idx e pos) ltac:(unfold idx; lia)) as [E1 E2].
    unfold node, lft, rgt in *. rewrite E1, E2. unfold idx. rewrite p2_S. split; f_equal; lia.
  - intros e pos He Hl. assert (Ee : (H - 1)%nat = e) by lia. pose proof (in_row_idx e pos He) as Hi. rewrite Ee in *.
    assert (Hk : forall k, 0 <= k < p2 e - 1 -> k <> idx e pos) by (intros k Hk; destruct He; unfold idx; lia).
    assert (Ho : forall o, o = 1 \/ o = 2 -> m !! (node e pos + o * W) = Some 0).
    { intros o Ho. rewrite L2; [|intros k Hk'; specialize (Hk k Hk'); unfold node, lft, rgt, NODE, W; lia].
      replace (node e pos + o * W) with (T + W * (3 * idx e pos + o)) by (unfold node, NODE, W; lia). apply Hz. lia. }
    split; [rewrite <- (Ho 1 ltac:(auto)); f_equal; lia|by apply Ho; right].
  - intros e pos He. apply L3. unfold node. replace (T + NODE * idx e pos) with (T + W * (3 * idx e pos)) by (unfold NODE, W; lia). pose proof (in_row_idx e pos He). eexists. apply Hz. lia.
Qed.

(** The keys of the subtree of depth [d] below a node. *)
Fixpoint keyed m (d e : nat) (pos : Z) : Prop :=
  match d with O => True | S d' => m !! node e pos = Some (keyof e pos) /\ keyed m d' (S e) (2 * pos) /\ keyed m d' (S e) (2 * pos + 1) end.

(** Only keys were written, each its own. *)
Definition keys_set m m' : Prop := (forall a, m' !! a = m !! a \/ exists e pos, in_row e pos /\ a = node e pos /\ m' !! a = Some (keyof e pos)) /\ keeps m m'.

Lemma keys_set_refl m : keys_set m m.
Proof. split; [by left|by intros a]. Qed.
Lemma keys_set_trans m m' m'' : keys_set m m' -> keys_set m' m'' -> keys_set m m''.
Proof. intros [A1 A2] [B1 B2]. split; [|by eapply keeps_trans]. intros a. destruct (B1 a) as [E|]; [|by right]. rewrite E. apply A1. Qed.

Lemma keys_set_complete m m' : keys_set m m' -> complete m -> complete m'.
Proof.
  intros [A1 A2] [C1 C2 C3].
  assert (Hp : forall e pos o, o = W \/ o = 2 * W -> m' !! (node e pos + o) = m !! (node e pos + o)).
  { intros e pos o Ho. destruct (A1 (node e pos + o)) as [|(e' & pos' & _ & E & _)]; [done|]. unfold node, NODE, W in *. lia. }
  split; [intros e pos He Hl; rewrite !Hp by auto; by apply C1|intros e pos He Hl; rewrite !Hp by auto; by apply C2|]. intros e pos He. by apply A2, C3.
Qed.

Lemma keys_set_keyed m m' d : forall e pos, (e + d <= H)%nat -> 0 <= pos < p2 e -> keys_set m m' -> keyed m d e pos -> keyed m' d e pos.
Proof.
  induction d as [|d IH]; intros e pos He Hpos Hk; [done|]. cbn [keyed]. intros (K1 & K2 & K3). pose proof (p2_S e). split; [|split; (apply IH; [lia|lia|done|done])].
  destruct Hk as [A1 _]. destruct (A1 (node e pos)) as [->|(e' & pos' & [He' Hp'] & E & ->)]; [done|]. destruct (idx_unique e pos e' pos') as [-> ->]; [done|done|unfold node, NODE, W in E; lia|done].
Qed.

Lemma init_tree_ok d : forall e pos m nx en, (e + d = H)%nat -> 0 <= pos < p2 e -> complete m ->
  exists m', init_tree d (if decide (d = O) then 0 else node e pos) (pos * p2 d) (p2 d - 1) (mkHost m nx en) = Some (mkHost m' nx en) /\ keys_set m m' /\ keyed m' d e pos.
Proof.
  induction d as [|d IH]; intros e pos m nx en He Hpos Hc; [exists m; split; [done|]; split; [apply keys_set_refl|done]|]. rewrite decide_False by done.
  assert (Hin : in_row e pos) by (split; [lia|done]). pose proof (in_row_idx e pos Hin) as Hi. cbn [init_tree].
  destruct (Z.eqb_spec (node e pos) 0); [unfold node, NODE, W in *; lia|]. cbn [h_mem]. pose proof (p2_S d) as E2. pose proof (p2_pos d) as Hd. pose proof (p2_S e) as Ee.
  assert (Hbig : pos * p2 (S d) + p2 (S d) <= p2 H) by (replace (p2 H) with (p2 e * p2 (S d)) by (unfold p2; rewrite <- Z.pow_add_r by lia; f_equal; lia); nia).
  assert (Ecount : u32 (p2 (S d) - 1 - 1) / 2 = p2 d - 1).
  { rewrite u32_small by (unfold is_u32, u32_mod, NODE, W in *; nia). replace (p2 (S d) - 1 - 1) with ((p2 d - 1) * 2) by lia. by rewrite Z.div_mul. }
  assert (Ehalf : (p2 (S d) - 1) / 2 = p2 d - 1) by (rewrite E2; replace (2 * p2 d - 1) with (1 + (p2 d - 1) * 2) by lia; rewrite Z.div_add by lia; done).
  assert (Hptr : forall m1, complete m1 -> m1 !! (node e pos + W) = Some (if decide (d = O) then 0 else node (S e) (2 * pos)) /\
    m1 !! (node e pos + 2 * W) = Some (if decide (d = O) then 0 else node (S e) (2 * pos + 1))).
  { intros m1 [C1 C2 C3]. case_decide; [apply C2; [done|lia]|apply C1; [done|lia]]. }
  rewrite Ecount. destruct (Hptr m Hc) as [-> _]. cbn [mbind option_bind]. replace (pos * p2 (S d)) with (2 * pos * p2 d) by lia.
  destruct (IH (S e) (2 * pos) m nx en) as (m1 & -> & S1 & K1); [lia|lia|done|]. cbn [mbind option_bind h_mem]. pose proof (keys_set_complete _ _ S1 Hc) as Hc1. destruct (Hptr m1 Hc1) as [_ ->]. cbn [mbind option_bind].
  assert (Er : u32 (2 * pos * p2 d + (p2 d - 1) + 1) = (2 * pos + 1) * p2 d) by (rewrite u32_small by (unfold is_u32, u32_mod, NODE, W in *; nia); lia). rewrite Er.
  destruct (IH (S e) (2 * pos + 1) m1 nx en) as (m2 & -> & S2 & K2); [lia|lia|done|]. cbn [mbind option_bind]. pose proof (keys_set_complete _ _ S2 Hc1) as Hc2.
  rewrite put_ok by (by apply (co_key _ Hc2)). cbn [h_mem h_next h_end]. eexists. split; [done|].
  assert (Ek : u32 (2 * pos * p2 d + (p2 (S d) - 1) / 2) = keyof e pos).
  { rewrite Ehalf, u32_small by (unfold is_u32, u32_mod, NODE, W in *; nia). unfold keyof. replace (H - e)%nat with (S d) by lia. replace (S d - 1)%nat with d by lia. lia. }
  rewrite Ek. set (m3 := <[_ := _]> m2).
  assert (S3 : keys_set m2 m3).
  { split; [|apply keeps_insert]. intros a. unfold m3. destruct (decide (a = node e pos)) as [->|Hne]; [|left; by rewrite lookup_insert_ne].
    right. exists e, pos. rewrite lookup_insert_eq. by split. }
  split; [eapply keys_set_trans; [exact S1|]; by eapply keys_set_trans|]. cbn [keyed]. split; [unfold m3; apply lookup_insert_eq|].
  split; [eapply keys_set_keyed; [lia|lia|eapply keys_set_trans; [exact S2|exact S3]|exact K1]|eapply keys_set_keyed; [lia|lia|exact S3|exact K2]].
Qed.

(** ** Searching *)

(** The nodes that a search for [g] visits in a subtree of depth [d] with the keys from [lo] on. *)
Fixpoint visits (d : nat) (lo g : Z) : Z :=
  match d with
  | O => 0
  | S d' => let key := lo + p2 d' - 1 in if key =? g then 1 else 1 + visits d' (if g <? key then lo else lo + p2 d') g
  end.

(** Their number is given by the power of two in [g + 1]. *)
Lemma visits_power d : forall pos g, pos * p2 d <= g < pos * p2 d + p2 d - 1 -> 1 <= visits d (pos * p2 d) g <= Z.of_nat d /\ exists q, g + 1 = (2 * q + 1) * 2 ^ (Z.of_nat d - visits d (pos * p2 d) g).
Proof.
  clear HT HH Hmax. induction d as [|d IH]; intros pos g Hg; [change (p2 0) with 1 in Hg; lia|]. cbn [visits]. pose proof (p2_S d) as E. rewrite E in *. destruct (Z.eqb_spec (pos * (2 * p2 d) + p2 d - 1) g) as [<-|Hne].
  - split; [lia|]. exists pos. replace (Z.of_nat (S d) - 1) with (Z.of_nat d) by lia. fold (p2 d). lia.
  - assert (Hrec : forall pos', pos' * p2 d <= g < pos' * p2 d + p2 d - 1 -> 1 <= 1 + visits d (pos' * p2 d) g <= Z.of_nat (S d) /\ exists q, g + 1 = (2 * q + 1) * 2 ^ (Z.of_nat (S d) - (1 + visits d (pos' * p2 d) g))).
    { intros pos' Hg'. destruct (IH pos' g Hg') as [H1 [q Hq]]. split; [lia|]. exists q. rewrite Hq at 1. f_equal. f_equal. lia. }
    destruct (Z.ltb_spec g (pos * (2 * p2 d) + p2 d - 1)).
    + replace (pos * (2 * p2 d)) with (2 * pos * p2 d) by lia. apply Hrec. lia.
    + replace (pos * (2 * p2 d) + p2 d) with ((2 * pos + 1) * p2 d) by lia. apply Hrec. lia.
Qed.

(** One step of a search, in any of the three programs: the key of a node and the pointer that is followed. *)
Lemma search_node m d e pos g : complete m -> keyed m (S d) e pos -> (e + S d = H)%nat -> 0 <= pos < p2 e -> pos * p2 (S d) <= g < pos * p2 (S d) + p2 (S d) - 1 ->
  let lo := pos * p2 (S d) in let key := lo + p2 d - 1 in
  node e pos <> 0 /\ m !! node e pos = Some key /\
  (key <> g -> let side := if g <? key then 0 else 1 in let pos' := 2 * pos + side in
    d <> O /\ m !! (node e pos + W * (1 + side)) = Some (node (S e) pos') /\ keyed m d (S e) pos' /\ 0 <= pos' < p2 (S e) /\
    pos' * p2 d = (if g <? key then lo else lo + p2 d) /\ pos' * p2 d <= g < pos' * p2 d + p2 d - 1).
Proof.
  intros Hc Hk He Hpos Hg lo key. assert (Hin : in_row e pos) by (split; [lia|done]). pose proof (in_row_idx e pos Hin) as Hi. pose proof (p2_S d) as Ed. pose proof (p2_S e) as Ee. destruct Hk as (K1 & K2 & K3).
  split; [unfold node, NODE, W; lia|]. split.
  - rewrite K1. f_equal. unfold keyof, key, lo. replace (H - e)%nat with (S d) by lia. by replace (S d - 1)%nat with d by lia.
  - intros Hne. cbn zeta. assert (Hd : d <> O) by (intros ->; change (p2 1) with 2 in *; change (p2 0) with 1 in *; unfold key, lo in *; lia). split; [done|]. destruct (co_inner m Hc e pos Hin ltac:(lia)) as [P1 P2].
    unfold key, lo in *. rewrite Ed, Ee in *. destruct (Z.ltb_spec g (pos * (2 * p2 d) + p2 d - 1)).
    + rewrite !Z.add_0_r, Z.mul_1_r. split; [exact P1|]. split; [exact K2|]. lia.
    + change (W * (1 + 1)) with (2 * W). split; [exact P2|]. split; [exact K3|]. lia.
Qed.

Lemma golden_one_ok d : forall e pos g c fuel m, complete m -> keyed m d e pos -> (e + d = H)%nat -> 0 <= pos < p2 e -> pos * p2 d <= g < pos * p2 d + p2 d - 1 -> (d <= fuel)%nat ->
  golden_one fuel m g (node e pos) (u32 c) = Some (u32 (c + visits d (pos * p2 d) g)).
Proof.
  induction d as [|d IH]; intros e pos g c fuel m Hc Hk He Hpos Hg Hf; [change (p2 0) with 1 in Hg; lia|]. destruct fuel as [|fuel]; [lia|].
  destruct (search_node m d e pos g Hc Hk He Hpos Hg) as (Hn & Hkey & Hnext). cbn zeta in *. cbn [golden_one visits]. destruct (Z.eqb_spec (node e pos) 0); [done|]. rewrite Hkey. cbn [mbind option_bind].
  assert (Ec : u32 (u32 c + 1) = u32 (c + 1)) by (unfold u32; by rewrite Zplus_mod_idemp_l). rewrite Ec.
  destruct (Z.eqb_spec (pos * p2 (S d) + p2 d - 1) g) as [|Hne]; [done|]. destruct (Hnext Hne) as (Hd & Hptr & Hk' & Hp' & El & Hg').
  destruct (g <? pos * p2 (S d) + p2 d - 1); change (W * (1 + 0)) with W in Hptr || change (W * (1 + 1)) with (2 * W) in Hptr; rewrite Hptr; cbn [mbind option_bind];
    (rewrite IH by (done || lia)); rewrite El; f_equal; f_equal; lia.
Qed.

Lemma search_default_ok d : forall e pos g c fuel k m, complete m -> keyed m d e pos -> (e + d = H)%nat -> 0 <= pos < p2 e -> pos * p2 d <= g < pos * p2 d + p2 d - 1 -> (d <= fuel)%nat ->
  run (search_default fuel g (node e pos) (u32 c) k) m [] = run (k (u32 (c + visits d (pos * p2 d) g))) m [].
Proof.
  induction d as [|d IH]; intros e pos g c fuel k m Hc Hk He Hpos Hg Hf; [change (p2 0) with 1 in Hg; lia|]. destruct fuel as [|fuel]; [lia|].
  destruct (search_node m d e pos g Hc Hk He Hpos Hg) as (Hn & Hkey & Hnext). cbn zeta in *. cbn [search_default visits]. destruct (Z.eqb_spec (node e pos) 0); [done|].
  rewrite (run_load_now _ _ _ _ Hkey).
  assert (Ec : u32 (u32 c + 1) = u32 (c + 1)) by (unfold u32; by rewrite Zplus_mod_idemp_l). rewrite Ec.
  destruct (Z.eqb_spec (pos * p2 (S d) + p2 d - 1) g) as [|Hne]; [done|]. destruct (Hnext Hne) as (Hd & Hptr & Hk' & Hp' & El & Hg').
  destruct (g <? pos * p2 (S d) + p2 d - 1); change (W * (1 + 0)) with W in Hptr || change (W * (1 + 1)) with (2 * W) in Hptr; rewrite (run_load_now _ _ _ _ Hptr);
    (rewrite IH by (done || lia)); rewrite El; f_equal; f_equal; f_equal; lia.
Qed.

(** The tree is in the words from [T] on. *)
Definition N : Z := 3 * (p2 H - 1).
Definition same_tree m m' : Prop := forall a, within T N a -> m' !! a = m !! a.

Lemma node_within e pos o : in_row e pos -> 0 <= o < NODE -> within T N (node e pos + o).
Proof. intros Hin Ho. pose proof (in_row_idx e pos Hin). unfold within, N, node, NODE, W in *. lia. Qed.

Lemma same_tree_complete m m' : same_tree m m' -> complete m -> complete m'.
Proof.
  intros Hs [C1 C2 C3]. split.
  - intros e pos He Hl. rewrite !Hs by (apply node_within; [done|unfold NODE, W; lia]). by apply C1.
  - intros e pos He Hl. rewrite !Hs by (apply node_within; [done|unfold NODE, W; lia]). by apply C2.
  - intros e pos He. rewrite Hs; [by apply C3|]. rewrite <- (Z.add_0_r (node e pos)). apply node_within; [done|unfold NODE, W; lia].
Qed.

Lemma same_tree_keyed m m' d : forall e pos, (e + d <= H)%nat -> 0 <= pos < p2 e -> same_tree m m' -> keyed m d e pos -> keyed m' d e pos.
Proof.
  induction d as [|d IH]; intros e pos He Hpos Hs; [done|]. cbn [keyed]. intros (K1 & K2 & K3). pose proof (p2_S e). split; [|split; (apply IH; [lia|lia|done|done])].
  rewrite Hs; [done|]. rewrite <- (Z.add_0_r (node e pos)). apply node_within; [split; [lia|done]|unfold NODE, W; lia].
Qed.

Lemma only_words_same_tree b n m m' : only_words b n m m' -> sep b n T N -> same_tree m m'.
Proof. intros Ho Hs a Ha. apply Ho. intros i Hi. unfold sep, within, W in *. lia. Qed.

(** The three words of a node, with what a search reads of them. *)
Lemma node_reads m e pos : complete m -> in_row e pos -> exists f, reads (node e pos) 3 f m /\ m !! node e pos = Some (f 0) /\ m !! (node e pos + W) = Some (f 1) /\ m !! (node e pos + 2 * W) = Some (f 2).
Proof.
  intros [C1 C2 C3] Hin. assert (Hall : exists v0 v1 v2, m !! node e pos = Some v0 /\ m !! (node e pos + W) = Some v1 /\ m !! (node e pos + 2 * W) = Some v2).
  { destruct (C3 e pos Hin) as [v0 H0]. destruct (decide (S e = H)) as [Hl|Hl]; [destruct (C2 e pos Hin Hl)|destruct Hin as [He Hp]; destruct (C1 e pos ltac:(by split) ltac:(lia))]; eauto 10. }
  destruct Hall as (v0 & v1 & v2 & H0 & H1 & H2). exists (fun i => if i =? 0 then v0 else if i =? 1 then v1 else v2). split; [|done].
  intros i Hi. assert (Hc : i = 0 \/ i = 1 \/ i = 2) by lia. destruct Hc as [-> |[-> | ->]]; [by rewrite Z.mul_0_r, Z.add_0_r|by rewrite Z.mul_1_r|by rewrite (Z.mul_comm W 2)].
Qed.

Lemma search_dma_ok VREG d : sep VREG 3 T N -> forall e pos g c fuel k m, complete m -> keyed m d e pos -> (e + d = H)%nat -> 0 <= pos < p2 e -> pos * p2 d <= g < pos * p2 d + p2 d - 1 -> (d <= fuel)%nat -> words VREG 3 m ->
  exists m', run (search_dma VREG fuel g (node e pos) (u32 c) k) m [] = run (k (u32 (c + visits d (pos * p2 d) g))) m' [] /\ only_words VREG 3 m m' /\ keeps m m'.
Proof.
  intros Hsep. induction d as [|d IH]; intros e pos g c fuel k m Hc Hk He Hpos Hg Hf Hw; [change (p2 0) with 1 in Hg; lia|]. destruct fuel as [|fuel]; [lia|].
  destruct (search_node m d e pos g Hc Hk He Hpos Hg) as (Hn & Hkey & Hnext). cbn zeta in *. cbn [search_dma visits]. destruct (Z.eqb_spec (node e pos) 0); [done|].
  assert (Hin : in_row e pos) by (split; [lia|done]). destruct (node_reads m e pos Hc Hin) as (f & Hr & F0 & F1 & F2). pose proof (in_row_idx e pos Hin) as Hidx.
  rewrite (Z.mul_comm 3 W). set (rest := DMA_WAIT 0 _).
  destruct (run_request (node e pos) VREG 3 PIM_DMA_READ 0 rest m [] f) as (m1 & -> & R1 & O1 & K1); cbn [to_of from_of];
    [lia|split; [apply NoDup_nil_2|done]|apply avoids_nil|apply avoids_nil|unfold sep, N, node, NODE, W in *; lia|done|done|]. cbn [to_of from_of app] in *.
  unfold rest. clear rest. rewrite run_wait, filter_none_res by apply moves_res.
  assert (V0 : m1 !! VREG = Some (pos * p2 (S d) + p2 d - 1)) by (specialize (R1 0 ltac:(lia)); rewrite Z.mul_0_r, Z.add_0_r in R1; congruence). rewrite (run_load_now _ _ _ _ V0).
  assert (V1 : m1 !! (VREG + W) = m !! (node e pos + W)) by (specialize (R1 1 ltac:(lia)); rewrite Z.mul_1_r in R1; congruence).
  assert (V2 : m1 !! (VREG + 2 * W) = m !! (node e pos + 2 * W)) by (specialize (R1 2 ltac:(lia)); rewrite (Z.mul_comm W 2) in R1; congruence).
  assert (Ec : u32 (u32 c + 1) = u32 (c + 1)) by (unfold u32; by rewrite Zplus_mod_idemp_l). rewrite Ec.
  destruct (Z.eqb_spec (pos * p2 (S d) + p2 d - 1) g) as [|Hne]; [exists m1; by split_and!|]. destruct (Hnext Hne) as (Hd & Hptr & Hk' & Hp' & El & Hg').
  pose proof (only_words_same_tree _ _ _ _ O1 Hsep) as Hst. pose proof (same_tree_complete _ _ Hst Hc) as Hc1.
  assert (Hk1 : forall pos', 0 <= pos' < p2 (S e) -> keyed m d (S e) pos' -> keyed m1 d (S e) pos') by (intros pos' H1 H2; eapply same_tree_keyed; [lia|done|exact Hst|done]).
  assert (Hgo : forall pos', 0 <= pos' < p2 (S e) -> keyed m d (S e) pos' -> pos' * p2 d <= g < pos' * p2 d + p2 d - 1 -> exists m',
    run (search_dma VREG fuel g (node (S e) pos') (u32 (c + 1)) k) m1 [] = run (k (u32 (c + (1 + visits d (pos' * p2 d) g)))) m' [] /\ only_words VREG 3 m m' /\ keeps m m').
  { intros pos' H1 H2 H3. destruct (IH (S e) pos' g (c + 1) fuel k m1) as (m' & -> & O2 & K2); [done|auto|lia|done|done|lia|by eapply words_keeps|].
    exists m'. split; [by rewrite Z.add_assoc|]. split; [intros a Ha; by rewrite O2, O1|by eapply keeps_trans]. }
  destruct (g <? pos * p2 (S d) + p2 d - 1); [change (W * (1 + 0)) with W in Hptr; rewrite <- V1 in Hptr|change (W * (1 + 1)) with (2 * W) in Hptr; rewrite <- V2 in Hptr]; rewrite (run_load_now _ _ _ _ Hptr);
    rewrite <- El; by apply Hgo.
Qed.

Lemma keyof_child d e pos : (e + S (S d) = H)%nat -> keyof (S e) (2 * pos) < keyof e pos < keyof (S e) (2 * pos + 1).
Proof.
  intros He. unfold keyof. replace (H - e)%nat with (S (S d)) by lia. replace (H - S e)%nat with (S d) by lia. replace (S (S d) - 1)%nat with (S d) by lia. replace (S d - 1)%nat with d by lia.
  rewrite !p2_S. pose proof (p2_pos d). lia.
Qed.

Lemma check_tree_ok d : forall e pos fuel m, complete m -> keyed m (S d) e pos -> (e + S d = H)%nat -> 0 <= pos < p2 e -> (d < fuel)%nat -> check_tree fuel m (node e pos) = Some true.
Proof.
  induction d as [|d IH]; intros e pos [|fuel] m Hc Hk He Hpos Hf; try lia; assert (Hin : in_row e pos) by (split; [lia|done]); pose proof (in_row_idx e pos Hin) as Hi; pose proof (p2_S e); destruct Hk as (K1 & K2 & K3);
    cbn [check_tree]; (destruct (Z.eqb_spec (node e pos) 0); [unfold node, NODE, W in *; lia|]); rewrite K1; cbn [mbind option_bind].
  - destruct (co_leaf m Hc e pos Hin ltac:(lia)) as [-> ->]. done.
  - destruct (co_inner m Hc e pos Hin ltac:(lia)) as [-> ->]. cbn [mbind option_bind]. destruct (keyof_child d e pos He) as [Hlt Hgt].
    assert (Hnz : forall p, 0 <= p < p2 (S e) -> (node (S e) p =? 0) = false) by (intros p Hp; apply Z.eqb_neq; pose proof (in_row_idx (S e) p ltac:(split; [lia|done])); unfold node, NODE, W; lia).
    rewrite !Hnz by lia. change (keyed m (S d) (S e) (2 * pos)) in K2. change (keyed m (S d) (S e) (2 * pos + 1)) in K3. pose proof K2 as (-> & _). pose proof K3 as (-> & _). cbn [mbind option_bind].
    destruct (Z.leb_spec (keyof e pos) (keyof (S e) (2 * pos))); [lia|]. rewrite (IH (S e) (2 * pos)) by (done || lia). cbn [mbind option_bind].
    destruct (Z.leb_spec (keyof (S e) (2 * pos + 1)) (keyof e pos)); [lia|]. by rewrite (IH (S e) (2 * pos + 1)) by (done || lia).
Qed.

(** The tree of the program: the root is its first node, with the keys from 0 on. *)
Definition tree_ok m : Prop := complete m /\ keyed m H 0 0.

Lemma root : node 0 0 = T.
Proof. clear HT HH Hmax. unfold node, idx. change (p2 0) with 1. lia. Qed.
Lemma same_tree_ok m m' : same_tree m m' -> tree_ok m -> tree_ok m'.
Proof. intros Hs [Hc Hk]. split; [by eapply same_tree_complete|]. eapply same_tree_keyed; [lia|change (p2 0) with 1; lia|exact Hs|exact Hk]. Qed.

(** What a search of a kernel does. *)
Definition finds (VREG : Z) (search : Z -> Z -> Z -> (Z -> prog) -> prog) : Prop :=
  forall g c k m, tree_ok m -> words VREG 3 m -> 0 <= g < p2 H - 1 ->
    exists m', run (search g T (u32 c) k) m [] = run (k (u32 (c + visits H 0 g))) m' [] /\ only_words VREG 3 m m' /\ keeps m m'.

Lemma default_finds VREG : finds VREG (search_default H).
Proof.
  intros g c k m [Hc Hk] _ Hg. exists m. split; [|by split; intros a]. pose proof (search_default_ok H 0 0 g c H k m Hc Hk) as Hs. rewrite root in Hs. rewrite Hs; (done || change (p2 0) with 1; lia || lia).
Qed.
Lemma dma_finds VREG : sep VREG 3 T N -> finds VREG (search_dma VREG H).
Proof.
  intros Hsep g c k m [Hc Hk] Hw Hg. pose proof (search_dma_ok VREG H Hsep 0 0 g c H k m Hc Hk) as Hs. rewrite root in Hs. apply Hs; (done || change (p2 0) with 1; lia || lia).
Qed.

Lemma golden_finds g c m : tree_ok m -> 0 <= g < p2 H - 1 -> golden_one H m g T (u32 c) = Some (u32 (c + visits H 0 g)).
Proof. intros [Hc Hk] Hg. pose proof (golden_one_ok H 0 0 g c H m Hc Hk) as Hs. rewrite root in Hs. apply Hs; (done || change (p2 0) with 1; lia || lia). Qed.

(** The nodes visited for a list of keys. *)
Definition total (goals : list Z) : Z := foldr (fun g s => visits H 0 g + s) 0 goals.

Definition list_at (L i : Z) (goals : list Z) m : Prop := forall j g, goals !! j = Some g -> m !! (L + W * (i + Z.of_nat j)) = Some g.

Lemma list_at_cons L i g goals m : list_at L i (g :: goals) m -> m !! (L + W * i) = Some g /\ list_at L (i + 1) goals m.
Proof.
  intros Hl. split; [rewrite <- (Hl O g eq_refl); f_equal; lia|]. intros j x Hj. rewrite <- (Hl (S j) x Hj). f_equal. f_equal. f_equal. lia.
Qed.

Lemma golden_search_ok goals : forall L i c m, tree_ok m -> list_at L i goals m -> Forall (fun g => 0 <= g < p2 H - 1) goals ->
  golden_search H (length goals) m T L i (u32 c) = Some (u32 (c + total goals)).
Proof.
  induction goals as [|g goals IH]; intros L i c m Ht Hl Hg; cbn [golden_search length total foldr]; [by rewrite Z.add_0_r|]. apply list_at_cons in Hl as [Hg0 Hl]. apply Forall_cons in Hg as [Hg1 Hg].
  rewrite Hg0. cbn [mbind option_bind]. rewrite golden_finds by done. cbn [mbind option_bind]. rewrite IH by done. by rewrite Z.add_assoc.
Qed.

Lemma searches_ok SREG VREG search goals : finds VREG search -> sep VREG 3 T N -> forall L i c m, tree_ok m -> list_at L i goals m -> Forall (fun g => 0 <= g < p2 H - 1) goals ->
  (forall j, (j < length goals)%nat -> ~ within VREG 3 (L + W * (i + Z.of_nat j))) -> words VREG 3 m -> is_Some (m !! (SREG + W * 3)) ->
  exists m', run (searches SREG search (length goals) T L i (u32 c)) m [] = Some (<[SREG + W * 3 := u32 (c + total goals)]> m', []) /\ only_words VREG 3 m m'.
Proof.
  intros Hf Hsep. induction goals as [|g goals IH]; intros L i c m Ht Hl Hg Hd Hw Hs; cbn [searches length total foldr].
  - exists m. rewrite Z.add_0_r. split; [|by intros a]. cbn. destruct Hs as [v Hv]. by rewrite Hv.
  - apply list_at_cons in Hl as [Hg0 Hl]. apply Forall_cons in Hg as [Hg1 Hg]. rewrite (run_load_now _ _ _ _ Hg0).
    destruct (Hf g c (fun c' => searches SREG search (length goals) T L (i + 1) c') m Ht Hw Hg1) as (m1 & -> & O1 & K1).
    destruct (IH L (i + 1) (c + visits H 0 g) m1) as (m' & -> & O2); [eapply same_tree_ok; [by eapply only_words_same_tree|done]| |done| |by eapply words_keeps|by apply K1|].
    + intros j x Hj. rewrite O1; [by apply Hl|]. intros l Hl' E. apply (Hd (S j)); [cbn; apply lookup_lt_Some in Hj; lia|]. replace (i + Z.of_nat (S j)) with (i + 1 + Z.of_nat j) by lia. rewrite E. unfold within, W. lia.
    + intros j Hj. replace (i + 1 + Z.of_nat j) with (i + Z.of_nat (S j)) by lia. apply Hd. cbn. lia.
    + exists m'. rewrite Z.add_assoc. split; [done|]. intros a Ha. by rewrite O2, O1.
Qed.
End tree.

(** ** The program *)

(** What [main] does before the kernel starts: the host with the address of the tree and of the search list. *)
Definition setup (HEIGHT : nat) (rands : list Z) (h : host) : option (host * Z * Z) :=
  '(h1, tree) ← create_tree HEIGHT h;
  let num_nodes := u32 (pow2 HEIGHT - 1) in
  h2 ← init_tree HEIGHT tree 0 num_nodes h1;
  '(h3, list) ← init_search_list rands num_nodes h2;
  Some (h3, tree, list).

(** The registers: the number of searches, and the pointers that are sent with the task. *)
Definition start_task (SREG tree list n : Z) (m : gmap Z Z) : gmap Z Z := <[SREG + W * 1 := list]> (<[SREG + W * 0 := tree]> (<[SREG + W * 2 := n]> m)).

(** A system in which the program can run: the region is zero and has space for the tree and the list, and is apart from the registers of the device. *)
Record tree_app (SREG VREG : Z) (H : nat) (rands : list Z) (h : host) : Prop := {
  ta_height : (0 < H)%nat /\ NODE * p2 H < 0xFFFFFFFF /\ Z.of_nat (length rands) * W < 0xFFFFFFFF;
  ta_space : 0 < h_next h /\ h_next h + NODE * (p2 H - 1) + W * Z.of_nat (length rands) < h_end h;
  ta_zero : reads (h_next h) (3 * (p2 H - 1) + Z.of_nat (length rands)) (fun _ => 0) (h_mem h);
  ta_regs : words SREG 4 (h_mem h) /\ words VREG 3 (h_mem h);
  ta_apart : sep SREG 4 (h_next h) (3 * (p2 H - 1) + Z.of_nat (length rands)) /\ sep VREG 3 (h_next h) (3 * (p2 H - 1) + Z.of_nat (length rands)) /\ sep SREG 4 VREG 3;
}.

Lemma fill_list_ok l num a : forall i h, (forall j, (j < length l)%nat -> is_Some (h_mem h !! (a + W * (i + Z.of_nat j)))) ->
  exists m', fill_list l num a i h = Some (mkHost m' (h_next h) (h_end h)) /\ list_at a i ((fun x => x mod num) <$> l) m' /\
    (forall b, (forall j, (j < length l)%nat -> b <> a + W * (i + Z.of_nat j)) -> m' !! b = h_mem h !! b) /\ keeps (h_mem h) m'.
Proof.
  induction l as [|x l IH]; intros i h Hm; cbn [fill_list].
  - exists (h_mem h). split; [by destruct h|]. split; [intros j g Hj; by rewrite fmap_nil, lookup_nil in Hj|]. split; [done|by intros b].
  - pose proof (Hm O ltac:(cbn; lia)) as H0. rewrite Z.add_0_r in H0. rewrite put_ok by done. cbn [mbind option_bind]. set (m1 := <[_ := _]> _).
    destruct (IH (i + 1) (mkHost m1 (h_next h) (h_end h))) as (m' & -> & L & U & K); cbn [h_mem] in *.
    { intros j Hj. apply keeps_insert. replace (i + 1 + Z.of_nat j) with (i + Z.of_nat (S j)) by lia. apply Hm. cbn. lia. }
    exists m'. split; [done|]. split; [|split; [|eapply keeps_trans; [apply keeps_insert|exact K]]].
    + intros [|j] g Hj; cbn in Hj.
      * injection Hj as <-. rewrite Z.add_0_r, U; [unfold m1; apply lookup_insert_eq|]. intros j' _. unfold W. lia.
      * rewrite <- (L j g Hj). f_equal. f_equal. f_equal. lia.
    + intros b Hb. rewrite U; [|intros j Hj; replace (i + 1 + Z.of_nat j) with (i + Z.of_nat (S j)) by lia; apply Hb; cbn; lia].
      unfold m1. rewrite lookup_insert_ne; [done|]. specialize (Hb O ltac:(cbn; lia)). rewrite Z.add_0_r in Hb. congruence.
Qed.

Section app.
Context (SREG VREG : Z) (H : nat) (rands : list Z) (h : host) (Ha : tree_app SREG VREG H rands h).
#[local] Notation T := (h_next h).
#[local] Notation num := (p2 H - 1).
#[local] Notation L := (h_next h + NODE * (p2 H - 1)).
#[local] Notation goals := ((fun x => x mod num) <$> rands).

Lemma goals_in : Forall (fun g => 0 <= g < p2 H - 1) goals.
Proof.
  destruct (ta_height _ _ _ _ _ Ha) as (H1 & _). pose proof (p2_le 1 H ltac:(lia)) as Hp. change (p2 1) with 2 in Hp. apply Forall_fmap, Forall_forall. intros x _. cbn. apply Z.mod_pos_bound. lia.
Qed.

Lemma tree_setup_ok : exists m3, setup H rands h = Some (mkHost m3 (L + W * Z.of_nat (length rands)) (h_end h), T, L) /\ tree_ok T H m3 /\ list_at L 0 goals m3 /\ keeps (h_mem h) m3.
Proof.
  destruct Ha as [(Hh & Hmax & Hlen) [HT Hsp] Hz _ _]. pose proof (p2_pos H) as Hp. unfold setup.
  destruct (create_tree_ok T H Hh Hmax h eq_refl) as (m1 & -> & Lk); [unfold W in *; lia|intros i Hi; eexists; apply Hz; lia|]. cbn [mbind option_bind].
  pose proof (linked_complete T H Hh (h_mem h) m1 ltac:(intros i Hi; apply Hz; lia) Lk) as Hc1. pose proof Lk as (_ & _ & Lk3).
  rewrite pow2_p2 by (unfold u32_mod, NODE, W in *; lia). rewrite u32_small by (unfold is_u32, u32_mod, NODE, W in *; lia).
  destruct (init_tree_ok T H HT Hh Hmax H 0 0 m1 L (h_end h)) as (m2 & Hin & Sk & Hk); [lia|change (p2 0) with 1; lia|done|].
  rewrite decide_False, root in Hin by lia. change (0 * p2 H) with 0 in Hin. rewrite Hin. cbn [mbind option_bind]. pose proof (keys_set_complete T H Hh m1 m2 Sk Hc1) as Hc2.
  unfold init_search_list, region_alloc. cbn [h_next h_end h_mem]. destruct (Z.ltb_spec (Z.of_nat (length rands) * W) 0xFFFFFFFF); [|lia].
  destruct (Z.ltb_spec (L + Z.of_nat (length rands) * W) (h_end h)); [|lia]. cbn [andb mbind option_bind].
  destruct (fill_list_ok rands num L 0 (mkHost m2 (L + Z.of_nat (length rands) * W) (h_end h))) as (m3 & -> & Hl & U & K); cbn [h_mem h_next h_end].
  { intros j Hj. apply Sk, Lk3. replace (L + W * (0 + Z.of_nat j)) with (T + W * (3 * num + Z.of_nat j)) by (unfold NODE, W; lia). eexists. apply Hz. lia. }
  cbn [mbind option_bind]. exists m3. rewrite (Z.mul_comm (Z.of_nat (length rands)) W). split; [done|]. split; [|split; [done|]].
  - apply (same_tree_ok T H Hh m2 m3); [|by split]. intros a Hw. apply U. intros j Hj. unfold within, N, NODE, W in *. lia.
  - eapply keeps_trans; [exact Lk3|]. eapply keeps_trans; [apply Sk|exact K].
Qed.

(** A kernel whose searches find their keys, started on the memory of the set-up. *)
Lemma kernel_ok m search : tree_ok T H m -> list_at L 0 goals m -> keeps (h_mem h) m -> finds T H VREG search ->
  exists m', run (tree_kernel SREG search) (start_task SREG T L (Z.of_nat (length rands)) m) [] = Some (m', []) /\ m' !! (SREG + W * 3) = Some (u32 (total H goals)) /\
    golden_search H (length rands) m' T L 0 0 = Some (u32 (total H goals)).
Proof.
  intros Ht Hl Hk Hf. destruct Ha as [(Hh & Hmax & Hlen) [HT Hsp] Hz [Hs Hv] (S1 & S2 & S3)]. pose proof (p2_pos H) as Hp. set (m0 := start_task _ _ _ _ m).
  assert (Hreg : forall i, 0 <= i < 4 -> is_Some (m !! (SREG + W * i))) by (intros i Hi; by apply Hk, Hs).
  assert (Hout : forall a, ~ within SREG 4 a -> m0 !! a = m !! a) by (intros a Hna; unfold m0, start_task; rewrite !lookup_insert_ne; [done|intros <-; apply Hna; unfold within, W; lia..]).
  assert (Hk0 : keeps m m0) by (unfold m0, start_task; eapply keeps_trans; [apply keeps_insert|eapply keeps_trans; apply keeps_insert]).
  assert (R0 : m0 !! (SREG + W * 0) = Some T) by (unfold m0, start_task; rewrite lookup_insert_ne by (unfold W; lia); apply lookup_insert_eq).
  assert (R1 : m0 !! (SREG + W * 1) = Some L) by (unfold m0, start_task; apply lookup_insert_eq).
  assert (R2 : m0 !! (SREG + W * 2) = Some (Z.of_nat (length rands))) by (unfold m0, start_task; rewrite !lookup_insert_ne by (unfold W; lia); apply lookup_insert_eq).
  set (m1 := <[SREG + W * 3 := 1]> m0). assert (Hout1 : forall a, ~ within SREG 4 a -> m1 !! a = m !! a).
  { intros a Hna. unfold m1. rewrite lookup_insert_ne; [by apply Hout|]. intros <-. apply Hna. unfold within, W. lia. }
  assert (Ht1 : tree_ok T H m1) by (eapply (same_tree_ok T H Hh); [|exact Ht]; intros a Hw; apply Hout1; unfold within, sep, N, W in *; lia).
  assert (Hlin : forall j : nat, (j < length rands)%nat -> ~ within SREG 4 (L + W * (0 + Z.of_nat j)) /\ ~ within VREG 3 (L + W * (0 + Z.of_nat j))) by (intros j Hj; unfold within, sep, NODE, W in *; lia).
  assert (Hgl : length goals = length rands) by apply length_fmap.
  assert (Hsv : sep VREG 3 T (N H)) by (unfold sep, N, W in *; lia).
  destruct (searches_ok T H Hh SREG VREG search goals Hf Hsv L 0 0 m1 Ht1) as (m' & Hr & O).
  - intros j g Hj. rewrite Hout1; [by apply Hl|]. apply Hlin. apply lookup_lt_Some in Hj. lia.
  - apply goals_in.
  - intros j Hj. apply Hlin. lia.
  - eapply words_keeps; [exact Hv|]. eapply keeps_trans; [exact Hk|]. eapply keeps_trans; [exact Hk0|apply keeps_insert].
  - unfold m1. rewrite lookup_insert_eq. by eexists.
  - change (u32 0) with 0 in Hr. rewrite Hgl, Z.add_0_l in Hr. eexists. split; [|split; [apply lookup_insert_eq|]].
    + unfold tree_kernel. rewrite (run_load_now _ _ _ _ R0), (run_load_now _ _ _ _ R1), (run_load_now _ _ _ _ R2), run_store_now by (apply Hk0, Hreg; lia). rewrite Nat2Z.id. exact Hr.
    + set (m2 := <[_ := _]> m'). assert (Hout2 : forall a, ~ within SREG 4 a -> ~ within VREG 3 a -> m2 !! a = m !! a).
      { intros a N1 N2. unfold m2. rewrite lookup_insert_ne by (intros <-; apply N1; unfold within, W; lia). rewrite (only_words_within _ _ _ _ O) by done. by apply Hout1. }
      change 0 with (u32 0) at 2. rewrite <- Hgl. rewrite golden_search_ok; [done|lia..| | |apply goals_in].
      * eapply (same_tree_ok T H Hh); [|exact Ht]. intros a Hw. apply Hout2; unfold within, sep, N, W in *; lia.
      * intros j g Hj. rewrite Hout2; [by apply Hl|..]; apply Hlin; apply lookup_lt_Some in Hj; lia.
Qed.
End app.

(** ** Properties *)

(** C26: The tree search application succeeds.  In a region with space for it the set-up builds, without fault, a tree that passes [check_tree], with the root at the start of the region and the search list behind
    the tree.  Then every execution of the kernel, plain or with DMA transfers and whatever the engine does, ends without fault and without a key that is not found, and returns the checksum that the search of the host
    computes afterwards: the number of nodes visited for all keys of the list. *)
Theorem tree_search_program SREG VREG (H : nat) rands h : tree_app SREG VREG H rands h ->
  let T := h_next h in let L := T + NODE * (p2 H - 1) in let n := Z.of_nat (length rands) in let sum := u32 (total H ((fun x => x mod (p2 H - 1)) <$> rands)) in
  exists h3, setup H rands h = Some (h3, T, L) /\ check_tree H (h_mem h3) T = Some true /\
    forall kernel, kernel = tree_search_default SREG H \/ kernel = tree_search_dma SREG VREG H ->
      exists m', ends_in kernel (start_task SREG T L n (h_mem h3)) m' /\ m' !! (SREG + W * 3) = Some sum /\ golden_search H (length rands) m' T L 0 0 = Some sum.
Proof.
  intros Ha T L n sum. destruct (tree_setup_ok SREG VREG H rands h Ha) as (m3 & Hs & Ht & Hl & Hk). eexists. split; [exact Hs|]. pose proof Ha as [(Hh & Hmax & Hlen) [HT Hsp] Hz _ (S1 & S2 & S3)]. cbn [h_mem]. split.
  - destruct Ht as [Hc Hkey]. pose proof (check_tree_ok T H HT Hh (H - 1) 0 0 H m3 Hc) as Hck. rewrite root in Hck. replace (S (H - 1)) with H in Hck by lia. apply Hck; (done || lia || change (p2 0) with 1; lia).
  - intros kernel Hker. assert (Hf : exists search, finds T H VREG search /\ kernel = tree_kernel SREG search).
    { destruct Hker as [-> | ->]; [exists (search_default H)|exists (search_dma VREG H)]; (split; [|done]); [by apply default_finds|].
      apply dma_finds; [done|done|]. unfold sep, N, W in *. lia. }
    destruct Hf as (search & Hf & ->). destruct (kernel_ok SREG VREG H rands h Ha m3 search Ht Hl Hk Hf) as (m' & H1 & H2 & H3). exists m'. split; [by eapply run_deterministic|by split].
Qed.

(** The cost of a search.  In the tree of height [H] a search for a key visits at least one and at most [H] nodes, and exactly [H] minus the exponent of two in the key plus one. *)
Theorem tree_search_cost SREG VREG (H : nat) rands h g : tree_app SREG VREG H rands h -> 0 <= g < p2 H - 1 ->
  exists h3, setup H rands h = Some (h3, h_next h, h_next h + NODE * (p2 H - 1)) /\ golden_one H (h_mem h3) g (h_next h) 0 = Some (visits H 0 g) /\
    1 <= visits H 0 g <= Z.of_nat H /\ exists q, g + 1 = (2 * q + 1) * 2 ^ (Z.of_nat H - visits H 0 g).
Proof.
  intros Ha Hg. destruct (tree_setup_ok SREG VREG H rands h Ha) as (m3 & Hs & Ht & _). eexists. split; [exact Hs|]. pose proof Ha as [(Hh & Hmax & Hlen) [HT Hsp] _ _ _].
  destruct (visits_power H 0 g) as [Hv Hq]; [lia|]. change (0 * p2 H) with 0 in Hv, Hq. split; [|done]. cbn [h_mem]. change 0 with (u32 0) at 1. rewrite (golden_finds _ _ HT Hh) by done. rewrite Z.add_0_l. f_equal.
  apply u32_small. unfold is_u32, u32_mod. assert (Z.of_nat H <= p2 H) by (clear; induction H as [|n IH]; [done|]; rewrite p2_S; pose proof (p2_pos n); lia). unfold NODE, W in *. lia.
Qed.

(** ** Examples *)

(** Registers from 0 on, a vector register of 3 words from 16 on, and a region of 30 words from 28 on. *)
Definition ex_host : host := mkHost (list_to_map ((fun i => (W * i, 0)) <$> seqZ 0 37)) 28 148.
Definition ex_rands : list Z := [12; 7; 20].

Lemma ex_app : tree_app 0 16 3 ex_rands ex_host.
Proof.
  split; [cbn; unfold NODE, W, p2; cbn; lia|cbn; unfold NODE, W, p2; cbn; lia|apply reads_check; vm_compute; reflexivity|split; apply words_check; vm_compute; reflexivity|unfold sep, W, p2; cbn; lia].
Qed.

Lemma tree_search_program_witness : exists h3, setup 3 ex_rands ex_host = Some (h3, 28, 112) /\ check_tree 3 (h_mem h3) 28 = Some true /\
  exists m', ends_in (tree_search_dma 0 16 3) (start_task 0 28 112 3 (h_mem h3)) m' /\ m' !! (0 + W * 3) = Some 8.
Proof.
  destruct (tree_search_program 0 16 3 ex_rands ex_host ex_app) as (h3 & H1 & H2 & H3). exists h3. split; [exact H1|]. split; [exact H2|].
  destruct (H3 (tree_search_dma 0 16 3) (or_intror eq_refl)) as (m' & H4 & H5 & _). exists m'. split; [exact H4|]. rewrite H5. vm_compute. reflexivity.
Defined.

Lemma tree_search_cost_witness : exists h3, setup 3 ex_rands ex_host = Some (h3, 28, 112) /\ golden_one 3 (h_mem h3) 5 28 0 = Some 2.
Proof.
  destruct (tree_search_cost 0 16 3 ex_rands ex_host 5 ex_app) as (h3 & H1 & H2 & _); [vm_compute; split; [discriminate|reflexivity]|]. exists h3. split; [exact H1|exact H2].
Defined.
