(* ===== verification/GraphKernels.v ===== *)
(** * Breadth-first search

    Models the plain kernel of src/SMC/SW/PIM/kernels/sgraph_bfs.c with the queue macros of src/SMC/SW/HOST/app/offload_sgraph/defs.hh, as a program of KernelDma.v, and the choice of
    the successors in [create_graph] of offload_sgraph/utils.hh.  The golden model there has the text of the kernel.

    The theorems show that the kernel ends without fault on every graph, leaves a distance in exactly the nodes that can be reached from the start nodes and, for one iteration,
    the lengths of the shortest paths, whose sum it returns; and that the graphs of the host program give every node a single successor, repeated.

    [g_visit], [g_search] and [g_iterate] are the search on lists of numbers, without memory: [simulates] ties the variables and the memory of the kernel to it.  [gcore] is the
    invariant of a search from one node and [gwf] the one that every search keeps.  The fuel of [search] is the number of nodes, since no node is put into the queue twice; that of [visit] exceeds
    the out-degrees. *)

From stdpp Require Import list_numbers.
From S2P Require Import Prelude KernelDma.

(** ** The kernel *)

Definition NC : Z := 2 ^ 32 - 1.
(** [sizeof(node)] and the offsets of [distance], [out_degree] and [successors] *)
Definition GNODE : Z := 4 * W.
Definition o_degree : Z := 2 * W.
Definition o_succ : Z := 3 * W.

(** The variables of the queue and the sum. *)
Record qvars := mkQV { q_head : Z; q_tail : Z; q_elements : Z; q_total : Z }.

Section kernel.
Context (SREG NODES queue : Z).

Definition queue_init (total : Z) : qvars := mkQV 0 0 0 total.
Definition queue_push (x : Z) (s : qvars) (k : qvars -> prog) : prog :=
  Store (queue + W * q_head s) x
    (let head := u32 (q_head s + 1) in k (mkQV (if NODES <=? head then 0 else head) (q_tail s) (u32 (q_elements s + 1)) (q_total s))).
Definition queue_pop (s : qvars) : qvars :=
  let tail := u32 (q_tail s + 1) in mkQV (q_head s) (if NODES <=? tail then 0 else tail) (u32 (q_elements s - 1)) (q_total s).
Definition queue_top (s : qvars) (k : Z -> prog) : prog := Load (queue + W * q_tail s) k.
Definition queue_empty (s : qvars) : bool := q_elements s =? 0.

(** [for (c...)] over the successors of [v], from [c] on *)
Fixpoint visit (fuel : nat) (v c : Z) (s : qvars) (k : qvars -> prog) : prog :=
  match fuel with
  | O => Cut
  | S fuel' =>
      Load (v + o_degree) (fun d =>
        if c <? d then
          Load (v + o_succ) (fun sp => Load (sp + W * c) (fun succ => Load succ (fun sd =>
            if sd =? NC then
              Load v (fun dv => Store succ (u32 (dv + 1)) (Load succ (fun sd' =>
                queue_push succ (mkQV (q_head s) (q_tail s) (q_elements s) (u32 (q_total s + sd'))) (fun s' => visit fuel' v (c + 1) s' k))))
            else visit fuel' v (c + 1) s k)))
        else k s)
  end.

Fixpoint search (fuel vfuel : nat) (s : qvars) (k : Z -> prog) : prog :=
  if queue_empty s then k (q_total s)
  else match fuel with O => Cut | S fuel' => queue_top s (fun v => visit vfuel v 0 (queue_pop s) (fun s' => search fuel' vfuel s' k)) end.

(** The searches from [nodes[x]] on, [n] more. *)
Fixpoint iterations (n : nat) (fuel vfuel : nat) (nodes x total : Z) : prog :=
  match n with
  | O => Store (SREG + W * 3) total Ret
  | S n' => Store (nodes + GNODE * x) 0 (queue_push (nodes + GNODE * x) (queue_init total) (fun s => search fuel vfuel s (fun total' => iterations n' fuel vfuel nodes (x + 1) total')))
  end.
End kernel.

Definition bfs_kernel (SREG : Z) (fuel vfuel : nat) : prog :=
  Load (SREG + W * 0) (fun nodes => Load (SREG + W * 2) (fun NODES => Load (SREG + W * 5) (fun MAX_ITERATIONS => Load (SREG + W * 4) (fun queue =>
    iterations SREG NODES queue (Z.to_nat MAX_ITERATIONS) fuel vfuel nodes 0 0)))).

(** ** The search on the graph *)

Lemma sorted_impl {A} (R R' : A -> A -> Prop) l : (forall i j, i ∈ l -> j ∈ l -> R i j -> R' i j) -> StronglySorted R l -> StronglySorted R' l.
Proof.
  intros Hi Hs. induction Hs as [|x l Hs IH Hf]; [constructor|]. constructor; [apply IH; intros; apply Hi; (done || by right)|].
  rewrite Forall_forall in *. intros y Hy. apply Hi; [left|by right|auto].
Qed.

Definition upd (f : Z -> Z) (i v : Z) : Z -> Z := fun x => if x =? i then v else f x.

Section graph.
Context (NODES : Z) (adj : Z -> list Z).

(** The successors of a node that have no distance yet get one and are put into the queue. *)
Fixpoint g_visit (ss : list Z) (dv : Z) (dist : Z -> Z) (q : list Z) (tot : Z) : (Z -> Z) * list Z * Z :=
  match ss with
  | [] => (dist, q, tot)
  | s :: ss' => if dist s =? NC then g_visit ss' dv (upd dist s (dv + 1)) (q ++ [s]) (tot + (dv + 1)) else g_visit ss' dv dist q tot
  end.
Fixpoint g_search (fuel : nat) (dist : Z -> Z) (q : list Z) (tot : Z) : option ((Z -> Z) * Z) :=
  match q with
  | [] => Some (dist, tot)
  | v :: q' => match fuel with O => None | S fuel' => let '(dist', q2, tot') := g_visit (adj v) (dist v) dist q' tot in g_search fuel' dist' q2 tot' end
  end.

(** A path of [n] edges. *)
Inductive path (s : Z) : Z -> Z -> Prop :=
  | path_nil : path s s 0
  | path_snoc t u n : path s t n -> u ∈ adj t -> path s u (n + 1).

Lemma path_before s t u n : t ∈ adj s -> path t u n -> path s u (n + 1).
Proof. intros Ht. induction 1 as [|t' u n Hp IH Hu]; [apply (path_snoc s s t 0); [apply path_nil|done]|]. by apply path_snoc with t'. Qed.

Lemma path_app s t u n k : path s t n -> path t u k -> path s u (n + k).
Proof. intros Hn. induction 1 as [|t' u k Hp IH Hu]; [by rewrite Z.add_0_r|]. rewrite Z.add_assoc. by apply path_snoc with t'. Qed.

Definition node_in (i : Z) : Prop := 0 <= i < NODES.
Context (Hadj : forall i, node_in i -> Forall node_in (adj i)) (Hsize : 0 < NODES < NC).

Lemma nodes_length l : NoDup l -> Forall node_in l -> Z.of_nat (length l) <= NODES.
Proof.
  intros Hn Hf. assert (Hs : l ⊆+ seqZ 0 NODES) by (apply NoDup_submseteq; [done|]; intros i Hi; apply elem_of_seqZ; rewrite Forall_forall in Hf; specialize (Hf i Hi); unfold node_in in Hf; lia).
  apply submseteq_length in Hs. rewrite length_seqZ in Hs. unfold node_in in *. lia.
Qed.

(** [MAX_ITERATIONS] searches, from node [x] on: a search does not forget the distances of the searches before it. *)
Fixpoint g_iterate (n fuel : nat) (x : Z) (dist : Z -> Z) (tot : Z) : option ((Z -> Z) * Z) :=
  match n with
  | O => Some (dist, tot)
  | S n' => '(dist', tot') ← g_search fuel (upd dist x 0) [x] tot; g_iterate n' fuel (x + 1) dist' tot'
  end.

(** *** What every search keeps *)

(** No node is in the queue twice, and the distances of a search are small. *)
Record gwf (dist : Z -> Z) (dn q : list Z) : Prop := {
  gw_nodup : NoDup (dn ++ q);
  gw_small i : i ∈ dn ++ q -> node_in i /\ 0 <= dist i < Z.of_nat (length (dn ++ q));
}.

Lemma wf_length dist dn q : gwf dist dn q -> Z.of_nat (length (dn ++ q)) <= NODES.
Proof. intros Hw. apply nodes_length; [apply Hw|]. apply Forall_forall. intros i Hi. by apply (gw_small _ _ _ Hw). Qed.

Lemma wf_seen dist dn q i : gwf dist dn q -> i ∈ dn ++ q -> dist i < NC.
Proof. intros Hw Hi. pose proof (wf_length _ _ _ Hw). apply (gw_small _ _ _ Hw) in Hi as [_ ?]. lia. Qed.

Lemma wf_start dist x : node_in x -> gwf (upd dist x 0) [] [x].
Proof.
  intros Hx. split; cbn [app]; [apply NoDup_singleton|]. intros i ->%list_elem_of_singleton. unfold upd. rewrite Z.eqb_refl. cbn [length]. split; [done|lia].
Qed.

Lemma wf_pop dist dn v q : gwf dist dn (v :: q) -> gwf dist (dn ++ [v]) q.
Proof. intros [H1 H2]. assert (E : (dn ++ [v]) ++ q = dn ++ v :: q) by (by rewrite <- app_assoc). by split; rewrite E. Qed.

Lemma wf_push dist dn q v s : gwf dist dn q -> v ∈ dn -> node_in s -> dist s = NC ->
  gwf (upd dist s (dist v + 1)) dn (q ++ [s]) /\ dist v + 1 < NC /\ 0 <= dist v /\ s <> v /\ Z.of_nat (length q) < NODES.
Proof.
  intros Hw Hv Hs Hd. assert (Hv' : v ∈ dn ++ q) by (apply elem_of_app; by left). assert (Hnew : s ∉ dn ++ q) by (intros Hin; apply (wf_seen _ _ _ _ Hw) in Hin; lia).
  destruct (gw_small _ _ _ Hw v Hv') as [_ Hlt]. pose proof (wf_length _ _ _ Hw) as Hlen.
  assert (Hw' : gwf (upd dist s (dist v + 1)) dn (q ++ [s])).
  { split; rewrite app_assoc.
    - apply NoDup_app. split; [apply Hw|]. split; [|apply NoDup_singleton]. intros x Hx ->%list_elem_of_singleton. done.
    - intros i. rewrite elem_of_app, list_elem_of_singleton, length_app. unfold upd. cbn [length]. intros [Hi| ->]; [|rewrite Z.eqb_refl; split; [done|lia]].
      destruct (Z.eqb_spec i s); [by subst|]. destruct (gw_small _ _ _ Hw i Hi). split; [done|lia]. }
  pose proof (wf_length _ _ _ Hw') as Hlen'. assert (s <> v) by (by intros ->). rewrite length_app in Hlen, Hlt. rewrite !length_app in Hlen'. cbn [length] in Hlen'. split_and!; (done || lia).
Qed.

(** *** The nodes that are reached *)

Definition reached (dist : Z -> Z) (i : Z) : Prop := dist i <> NC.
(** The successors of the nodes that are reached are reached, except for those of nodes in the queue. *)
Definition closed (dist : Z -> Z) (q : list Z) : Prop := forall i j, reached dist i -> j ∈ adj i -> i ∈ q \/ reached dist j.

Lemma visit_reaches ss : forall dv dist q tot dist' q' tot', g_visit ss dv dist q tot = (dist', q', tot') -> dv + 1 <> NC ->
  (forall i, reached dist' i <-> reached dist i \/ i ∈ ss) /\ (forall i, i ∈ q -> i ∈ q') /\ (forall i, reached dist' i -> reached dist i \/ i ∈ q').
Proof.
  induction ss as [|s ss IH]; intros dv dist q tot dist' q' tot' E Hne; cbn in E; [injection E as <- <- <-; set_solver|]. destruct (Z.eqb_spec (dist s) NC) as [Hd|Hd].
  - destruct (IH _ _ _ _ _ _ _ E Hne) as (I1 & I2 & I3). assert (Hu : forall i, reached (upd dist s (dv + 1)) i <-> reached dist i \/ i = s) by (intros i; unfold reached, upd; destruct (Z.eqb_spec i s) as [->|]; [tauto|naive_solver]).
    split; [|split]; intros i; [rewrite I1, Hu; set_solver|set_solver|]. intros [[H| ->]%Hu|H]%I3; [by left| |by right]. right. set_solver.
  - destruct (IH _ _ _ _ _ _ _ E Hne) as (I1 & I2 & I3). split; [|done]. intros i. rewrite I1, elem_of_cons. split; [tauto|]. intros [H|[->|H]]; [by left|by left|by right].
Qed.

Lemma visit_wf ss : forall dist dn q tot v dist' q' tot', g_visit ss (dist v) dist q tot = (dist', q', tot') -> gwf dist dn q -> v ∈ dn -> Forall node_in ss -> gwf dist' dn q'.
Proof.
  induction ss as [|s ss IH]; intros dist dn q tot v dist' q' tot' E Hw Hv Hss; cbn in E; [by injection E as <- <- <-|]. apply Forall_cons in Hss as [Hs Hss]. destruct (Z.eqb_spec (dist s) NC) as [Hd|Hd]; [|by eapply IH].
  destruct (wf_push _ _ _ v s Hw Hv Hs Hd) as (Hw' & _ & _ & Hsv & _). assert (Ev : upd dist s (dist v + 1) v = dist v) by (unfold upd; destruct (Z.eqb_spec v s); congruence).
  rewrite <- Ev in E at 1. by eapply IH.
Qed.

Lemma search_reaches fuel : forall dist dn q tot dist' tot', g_search fuel dist q tot = Some (dist', tot') -> gwf dist dn q -> closed dist q ->
  closed dist' [] /\ (forall i, reached dist i -> reached dist' i) /\ (forall i, reached dist' i -> exists j n, reached dist j /\ path j i n).
Proof.
  induction fuel as [|fuel IH]; intros dist dn [|v q] tot dist' tot' E Hw Hcl; cbn in E; try done.
  1,2: (injection E as <- <-; split; [done|]; split; [done|]; intros i Hi; exists i, 0; split; [done|constructor]).
  destruct (g_visit (adj v) (dist v) dist q tot) as [[d1 q1] t1] eqn:Ev. pose proof (wf_pop _ _ _ _ Hw) as Hw1. pose proof (wf_length _ _ _ Hw) as Hlen.
  assert (Hin : v ∈ dn ++ v :: q) by (apply elem_of_app; right; left). destruct (gw_small _ _ _ Hw v Hin) as [Hv Hdv].
  assert (Hw2 : gwf d1 (dn ++ [v]) q1) by (eapply visit_wf; [exact Ev|done|apply elem_of_app; right; left|by apply Hadj]).
  destruct (visit_reaches _ _ _ _ _ _ _ _ Ev) as (V1 & V2 & V3); [lia|]. assert (Hrv : reached dist v) by (pose proof (wf_seen _ _ _ v Hw Hin); unfold reached; lia).
  destruct (IH d1 (dn ++ [v]) q1 t1 dist' tot' E Hw2) as (I1 & I2 & I3).
  - intros i j Hi Hj. destruct (decide (i = v)) as [->|Hne]; [right; apply V1; by right|]. apply V3 in Hi as [Hi|Hi]; [|by left]. destruct (Hcl i j Hi Hj) as [[Hq|Hq]%elem_of_cons|Hq]; [done|left; by apply V2|right; apply V1; by left].
  - split; [done|]. split; [intros i Hi; apply I2, V1; by left|]. intros i Hi. destruct (I3 i Hi) as (j & n & [Hj|Hj]%V1 & Hp); [by exists j, n|].
    exists v. apply path_before with (n := n) (1 := Hj) in Hp. by exists (n + 1).
Qed.

Lemma reached_upd dist x i : reached (upd dist x 0) i <-> reached dist i \/ i = x.
Proof. unfold reached, upd, NC. destruct (Z.eqb_spec i x) as [->|]; [split; [by right|lia]|naive_solver]. Qed.

Lemma iterate_reaches fuel n : forall x dist tot dist' tot', g_iterate n fuel x dist tot = Some (dist', tot') -> 0 <= x -> x + Z.of_nat n <= NODES -> closed dist [x] ->
  (n = O \/ closed dist' []) /\ (forall i, reached dist i \/ x <= i < x + Z.of_nat n -> reached dist' i) /\
  (forall i, reached dist' i -> exists j k, (reached dist j \/ x <= j < x + Z.of_nat n) /\ path j i k).
Proof.
  induction n as [|n IH]; intros x dist tot dist' tot' E Hx Hn Hcl; cbn [g_iterate] in E.
  - injection E as <- <-. split; [by left|]. split; [intros i [Hi|Hi]; [done|lia]|]. intros i Hi. exists i, 0. split; [by left|constructor].
  - apply bind_Some in E as ([d1 t1] & Es & E). cbn [fst snd] in E. destruct (search_reaches _ _ _ _ _ _ _ Es (wf_start dist x ltac:(unfold node_in; lia))) as (S1 & S2 & S3).
    { intros i j Hi%reached_upd Hj. rewrite reached_upd. destruct Hi as [Hi| ->]; [|left; left]. destruct (Hcl i j Hi Hj); tauto. }
    destruct (IH (x + 1) d1 t1 dist' tot' E ltac:(lia) ltac:(lia)) as (I1 & I2 & I3). { intros i j Hi Hj. destruct (S1 i j Hi Hj) as [H|H]; [by apply elem_of_nil in H|by right]. }
    split; [right|split].
    + destruct I1 as [->|I1]; [|done]. by injection E as <- _.
    + intros i Hi. apply I2. destruct (decide (i = x)) as [->|Hne]; [left; apply S2, reached_upd; by right|]. destruct Hi as [Hi|Hi]; [left; apply S2, reached_upd; by left|right; lia].
    + intros i Hi. destruct (I3 i Hi) as (j & k & [Hj|Hj] & Hp); [|exists j, k; split; [right; lia|done]]. destruct (S3 j Hj) as (j' & k' & Hj'%reached_upd & Hp').
      exists j', (k' + k). split; [destruct Hj' as [?| ->]; [by left|right; lia]|by eapply path_app].
Qed.

(** *** The distances of one search *)

Context (src : Z) (Hsrc : node_in src).

(** The sum of the distances. *)
Definition total_of (dist : Z -> Z) : Z := foldr (fun i a => (if dist i =? NC then 0 else dist i) + a) 0 (seqZ 0 NODES).

(** The invariant: [dn] are the nodes taken from the queue [q], in order; the last of them has distance [cur]. *)
Record gcore (dist : Z -> Z) (dn q : list Z) (tot cur : Z) : Prop := {
  gc_src : dist src = 0;
  gc_nodup : NoDup (dn ++ q);
  gc_seen i : dist i <> NC <-> i ∈ dn ++ q;
  gc_path i : i ∈ dn ++ q -> node_in i /\ path src i (dist i) /\ 0 <= dist i < Z.of_nat (length (dn ++ q)) /\ dist i <= cur + 1;
  gc_queue : StronglySorted (fun i j => dist i <= dist j) q /\ Forall (fun i => cur <= dist i) q;
  gc_total : tot = total_of dist;
}.
(** The successors of the nodes of [l] are done with. *)
Definition gfin (dist : Z -> Z) (l : list Z) : Prop := forall i j, i ∈ l -> j ∈ adj i -> dist j <> NC /\ dist j <= dist i + 1.

Lemma core_length dist dn q tot cur : gcore dist dn q tot cur -> Z.of_nat (length (dn ++ q)) <= NODES.
Proof. intros Hc. apply nodes_length; [apply Hc|]. apply Forall_forall. intros i Hi. by apply (gc_path _ _ _ _ _ Hc). Qed.

Lemma total_upd dist s d : node_in s -> dist s = NC -> d <> NC -> total_of (upd dist s d) = total_of dist + d.
Proof.
  intros Hs Hd Hne. unfold total_of. assert (Hin : s ∈ seqZ 0 NODES) by (apply elem_of_seqZ; unfold node_in in Hs; lia). pose proof (NoDup_seqZ 0 NODES) as Hnd. revert Hin Hnd. generalize (seqZ 0 NODES) as l.
  induction l as [|x l IH]; intros Hin Hnd; [by apply elem_of_nil in Hin|]. apply NoDup_cons in Hnd as [Hx Hnd]. cbn [foldr]. unfold upd at 1 2. destruct (Z.eqb_spec x s) as [->|Hxs].
  - rewrite Hd, Z.eqb_refl. destruct (Z.eqb_spec d NC); [done|]. assert (E : foldr (fun i a => (if upd dist s d i =? NC then 0 else upd dist s d i) + a) 0 l = foldr (fun i a => (if dist i =? NC then 0 else dist i) + a) 0 l); [|lia].
    clear IH Hin Hnd. induction l as [|y l IHl]; cbn [foldr]; [done|]. apply not_elem_of_cons in Hx as [Hy Hx]. rewrite IHl by done. unfold upd. destruct (Z.eqb_spec y s); [congruence|done].
  - apply elem_of_cons in Hin as [Hin|Hin]; [done|]. rewrite IH by done. lia.
Qed.

(** One successor is reached for the first time. *)
Lemma core_push dist dn q tot v s : gcore dist dn q tot (dist v) -> v ∈ dn -> node_in s -> path src s (dist v + 1) -> dist s = NC ->
  gcore (upd dist s (dist v + 1)) dn (q ++ [s]) (tot + (dist v + 1)) (dist v) /\ dist v + 1 <> NC.
Proof.
  intros Hc Hv Hs Hp Hd. pose proof Hc as [H1 H2 H3 H4 [H5 H5'] H6]. assert (Hnew : s ∉ dn ++ q) by (intros Hin; by apply H3 in Hin).
  destruct (H4 v ltac:(apply elem_of_app; by left)) as (_ & _ & Hlt & _). pose proof (core_length _ _ _ _ _ Hc) as Hlen. assert (Hne : dist v + 1 <> NC) by lia. split; [|done].
  assert (Hu : forall i, i ∈ dn ++ q -> upd dist s (dist v + 1) i = dist i) by (intros i Hi; unfold upd; destruct (Z.eqb_spec i s); [by subst|done]).
  assert (Hus : upd dist s (dist v + 1) s = dist v + 1) by (unfold upd; by rewrite Z.eqb_refl).
  split.
  - rewrite Hu; [done|]. apply H3. rewrite H1. unfold NC. lia.
  - rewrite app_assoc. apply NoDup_app. split; [done|]. split; [|apply NoDup_singleton]. intros x Hx ->%list_elem_of_singleton. done.
  - intros i. rewrite app_assoc, elem_of_app, list_elem_of_singleton. unfold upd. destruct (Z.eqb_spec i s) as [->|Hi]; [tauto|]. rewrite H3. tauto.
  - intros i. rewrite app_assoc, elem_of_app, list_elem_of_singleton, length_app. cbn [length]. intros [Hi| ->].
    + rewrite Hu by done. destruct (H4 i Hi) as (P1 & P2 & P3 & P4). split_and!; (done || lia).
    + rewrite Hus. split_and!; (done || lia).
  - split.
    + apply StronglySorted_app. split; [|split; [|repeat constructor]].
      * intros i j Hi Hj. apply list_elem_of_singleton in Hj as ->. rewrite Hus, Hu by (apply elem_of_app; by right). apply H4, elem_of_app. by right.
      * eapply sorted_impl; [|exact H5]. intros i j Hi Hj. rewrite !Hu by (apply elem_of_app; by right). done.
    + apply Forall_app. split; [|constructor; [rewrite Hus; lia|done]]. rewrite Forall_forall in *. intros i Hi. rewrite Hu by (apply elem_of_app; by right). auto.
  - rewrite total_upd by done. lia.
Qed.

Lemma visit_core ss : forall dist dn q tot v dist' q' tot', g_visit ss (dist v) dist q tot = (dist', q', tot') -> gcore dist dn q tot (dist v) -> v ∈ dn ->
  Forall (fun s => node_in s /\ path src s (dist v + 1)) ss ->
  gcore dist' dn q' tot' (dist v) /\ (forall i, dist i <> NC -> dist' i = dist i) /\ Forall (fun s => dist' s <> NC) ss.
Proof.
  induction ss as [|s ss IH]; intros dist dn q tot v dist' q' tot' E Hc Hv Hss; cbn in E; [by injection E as <- <- <-|]. apply Forall_cons in Hss as [[Hs Hp] Hss]. destruct (Z.eqb_spec (dist s) NC) as [Hd|Hd].
  - destruct (core_push dist dn q tot v s Hc Hv Hs Hp Hd) as [Hc' Hne]. assert (Ev : upd dist s (dist v + 1) v = dist v).
    { unfold upd. destruct (Z.eqb_spec v s) as [->|]; [|done]. exfalso. apply (gc_seen _ _ _ _ _ Hc) in Hd; [done|]. apply elem_of_app. by left. }
    rewrite <- Ev in Hc', E at 1. rewrite <- Ev in Hss. destruct (IH _ dn _ _ v _ _ _ E) as (I1 & I2 & I3); [by rewrite Ev in Hc' |- *|done|done|]. rewrite Ev in I1. split; [done|]. split.
    + intros i Hi. rewrite I2; unfold upd; (destruct (Z.eqb_spec i s); [congruence|done]).
    + constructor; [|done]. rewrite I2; unfold upd; rewrite Z.eqb_refl; done.
  - destruct (IH dist dn q tot v dist' q' tot' E Hc Hv Hss) as (I1 & I2 & I3). split; [done|]. split; [done|]. constructor; [|done]. by rewrite I2.
Qed.

Lemma core_pop dist dn v q tot cur : gcore dist dn (v :: q) tot cur -> gcore dist (dn ++ [v]) q tot (dist v).
Proof.
  intros [H1 H2 H3 H4 [H5 H5'] H6]. assert (E : (dn ++ [v]) ++ q = dn ++ v :: q) by (by rewrite <- app_assoc). apply StronglySorted_cons in H5 as [H5 Hs]. apply Forall_cons in H5' as [Hv _].
  split; rewrite ?E; try done. intros i Hi. destruct (H4 i Hi) as (P1 & P2 & P3 & P4). split_and!; (done || lia).
Qed.

Lemma search_core fuel : forall dist dn q tot cur, gcore dist dn q tot cur -> gfin dist dn -> NODES <= Z.of_nat (length dn + fuel) ->
  exists dist' tot' dn' cur', g_search fuel dist q tot = Some (dist', tot') /\ gcore dist' dn' [] tot' cur' /\ gfin dist' dn'.
Proof.
  induction fuel as [|fuel IH]; intros dist dn [|v q] tot cur Hc Hf Hn; cbn [g_search]; [by exists dist, tot, dn, cur| |by exists dist, tot, dn, cur|].
  - pose proof (core_length _ _ _ _ _ Hc) as Hl. rewrite length_app in Hl. cbn [length] in Hl. lia.
  - pose proof (core_pop _ _ _ _ _ _ Hc) as Hc1. destruct (gc_path _ _ _ _ _ Hc v) as (Hv & Hp & _); [apply elem_of_app; right; left|].
    destruct (g_visit (adj v) (dist v) dist q tot) as [[dist' q'] tot'] eqn:E. destruct (visit_core (adj v) dist (dn ++ [v]) q tot v dist' q' tot' E Hc1) as (I1 & I2 & I3); [apply elem_of_app; right; left| |].
    { pose proof (Hadj v Hv) as Ha. rewrite Forall_forall in *. intros s Hs. split; [auto|]. by eapply path_snoc. }
    assert (Hsame : forall i, i ∈ dn ++ [v] -> dist' i = dist i) by (intros i Hi; apply I2, (gc_seen _ _ _ _ _ Hc1), elem_of_app; by left).
    destruct (IH dist' (dn ++ [v]) q' tot' (dist v) I1) as (d2 & t2 & dn2 & c2 & I4); [|rewrite length_app; cbn [length]; lia|by exists d2, t2, dn2, c2].
    intros i j Hi Hj. rewrite (Hsame i Hi). apply elem_of_app in Hi as [Hi|Hi%list_elem_of_singleton].
    + destruct (Hf i j Hi Hj) as [F1 F2]. rewrite (I2 j F1). done.
    + subst i. rewrite Forall_forall in I3. specialize (I3 j Hj). split; [done|]. apply (gc_path _ _ _ _ _ I1). by apply (gc_seen _ _ _ _ _ I1).
Qed.

Lemma shortest dist dn tot cur : gcore dist dn [] tot cur -> gfin dist dn ->
  forall t, (dist t = NC /\ forall n, ~ path src t n) \/ (dist t <> NC /\ path src t (dist t) /\ forall n, path src t n -> dist t <= n).
Proof.
  intros Hc Hf. assert (Hall : forall t n, path src t n -> dist t <> NC /\ dist t <= n).
  { induction 1 as [|t u n Hp [I1 I2] Hu]; [rewrite (gc_src _ _ _ _ _ Hc); unfold NC; lia|]. apply (gc_seen _ _ _ _ _ Hc) in I1. rewrite app_nil_r in I1. destruct (Hf t u I1 Hu). split; [done|lia]. }
  intros t. destruct (decide (dist t = NC)) as [Hd|Hd].
  - left. split; [done|]. intros n Hp. by apply Hall in Hp as [? _].
  - right. split; [done|]. split; [|intros n Hp; by apply Hall in Hp as [_ ?]]. apply (gc_path _ _ _ _ _ Hc). by apply (gc_seen _ _ _ _ _ Hc).
Qed.

(** The distances before the search: 0 for the source and NC for the others. *)
Definition reset : Z -> Z := fun i => if i =? src then 0 else NC.

Lemma core_start dist : (forall i, dist i = reset i) -> gcore dist [] [src] 0 0.
Proof.
  intros Hr. assert (Hs : dist src = 0) by (rewrite Hr; unfold reset; by rewrite Z.eqb_refl). split; cbn [app].
  - done.
  - apply NoDup_singleton.
  - intros i. rewrite list_elem_of_singleton, Hr. unfold reset. destruct (Z.eqb_spec i src) as [->|Hi]; [unfold NC; split; (done || lia)|]. split; [done|by intros ->].
  - intros i ->%list_elem_of_singleton. rewrite Hs. cbn [length]. split_and!; (done || apply path_nil || lia).
  - split; [repeat constructor|]. constructor; [lia|done].
  - unfold total_of. induction (seqZ 0 NODES) as [|i l IH]; cbn [foldr]; [done|]. rewrite <- IH, Hr. unfold reset. destruct (Z.eqb_spec i src) as [->|]; [by destruct (0 =? NC)|]. by rewrite Z.eqb_refl.
Qed.

(** A search of a graph without distances finds the shortest paths and returns the sum of their lengths. *)
Lemma search_shortest fuel dist dist' tot' : (forall i, dist i = reset i) -> NODES <= Z.of_nat fuel -> g_search fuel dist [src] 0 = Some (dist', tot') ->
  tot' = total_of dist' /\ forall t, (dist' t = NC /\ forall n, ~ path src t n) \/ (dist' t <> NC /\ path src t (dist' t) /\ forall n, path src t n -> dist' t <= n).
Proof.
  intros Hr Hf E. destruct (search_core fuel dist [] [src] 0 0) as (d & t & dn & cur & Es & Hc & Hfin); [by apply core_start|intros i j Hi; by apply elem_of_nil in Hi|cbn; lia|].
  rewrite E in Es. injection Es as <- <-. split; [apply Hc|by eapply shortest].
Qed.
End graph.

(** ** The graph in memory *)

Section memory.
Context (B Q NODES : Z) (adj : Z -> list Z) (sp : Z -> Z).
Implicit Types (m : gmap Z Z).
#[local] Notation node_in := (node_in NODES).
Definition gaddr (i : Z) : Z := B + GNODE * i.

(** The nodes from [B] on with their distances, the arrays of successors, and the words of the queue from [Q] on. *)
Record gmem m (dist : Z -> Z) : Prop := {
  gm_dist i : node_in i -> m !! gaddr i = Some (dist i);
  gm_degree i : node_in i -> m !! (gaddr i + o_degree) = Some (Z.of_nat (length (adj i)));
  gm_sp i : node_in i -> m !! (gaddr i + o_succ) = Some (sp i);
  gm_succ i c s : node_in i -> adj i !! c = Some s -> m !! (sp i + W * Z.of_nat c) = Some (gaddr s);
  gm_queue : words Q NODES m;
}.
(** The arrays and the queue are apart from the nodes. *)
Record glayout : Prop := {
  gl_nodes : 0 < NODES < NC;
  gl_adj i : node_in i -> Forall node_in (adj i);
  gl_queue : sep B (4 * NODES) Q NODES;
  gl_succ i c s : node_in i -> adj i !! c = Some s -> ~ within B (4 * NODES) (sp i + W * Z.of_nat c) /\ ~ within Q NODES (sp i + W * Z.of_nat c);
}.
Context (HL : glayout).

(** What a search may change. *)
Definition gframe m m' : Prop := forall a, ~ within B (4 * NODES) a -> ~ within Q NODES a -> m' !! a = m !! a.

Lemma gaddr_within i o : node_in i -> 0 <= o < GNODE -> within B (4 * NODES) (gaddr i + o).
Proof. unfold node_in, within, gaddr, GNODE, W. lia. Qed.

Lemma gmem_dist m dist i v : gmem m dist -> node_in i -> gmem (<[gaddr i := v]> m) (upd dist i v).
Proof.
  intros [G1 G2 G3 G4 G5] Hi. split.
  - intros j Hj. unfold upd. destruct (Z.eqb_spec j i) as [->|Hne]; [apply lookup_insert_eq|]. rewrite lookup_insert_ne by (unfold gaddr, GNODE, W; lia). by apply G1.
  - intros j Hj. rewrite lookup_insert_ne by (unfold gaddr, GNODE, o_degree, W; lia). by apply G2.
  - intros j Hj. rewrite lookup_insert_ne by (unfold gaddr, GNODE, o_succ, W; lia). by apply G3.
  - intros j c s Hj Hs. rewrite lookup_insert_ne; [by apply G4|]. intros E. destruct (gl_succ HL j c s Hj Hs) as [N1 _]. apply N1. rewrite <- E, <- (Z.add_0_r (gaddr i)). apply gaddr_within; [done|unfold GNODE, W; lia].
  - eapply words_keeps; [exact G5|apply keeps_insert].
Qed.

Lemma gmem_queue m dist p v : gmem m dist -> 0 <= p < NODES -> gmem (<[Q + W * p := v]> m) dist.
Proof.
  intros [G1 G2 G3 G4 G5] Hp. assert (Hw : within Q NODES (Q + W * p)) by (unfold within, W; lia). pose proof (gl_queue HL) as Hsep.
  assert (Hn : forall i o, node_in i -> 0 <= o < GNODE -> Q + W * p <> gaddr i + o) by (intros i o Hi Ho; pose proof (gaddr_within i o Hi Ho); unfold within, sep, W in *; lia).
  split.
  - intros j Hj. rewrite lookup_insert_ne; [by apply G1|]. rewrite <- (Z.add_0_r (gaddr j)). apply Hn; [done|unfold GNODE, W; lia].
  - intros j Hj. rewrite lookup_insert_ne by (apply Hn; [done|unfold o_degree, GNODE, W; lia]). by apply G2.
  - intros j Hj. rewrite lookup_insert_ne by (apply Hn; [done|unfold o_succ, GNODE, W; lia]). by apply G3.
  - intros j c s Hj Hs. rewrite lookup_insert_ne; [by apply G4|]. intros E. destruct (gl_succ HL j c s Hj Hs) as [_ N2]. apply N2. by rewrite <- E.
  - eapply words_keeps; [exact G5|apply keeps_insert].
Qed.

(** The ring holds the nodes of [q]. *)
Record ring (s : qvars) (q : list Z) m : Prop := {
  rg_len : q_elements s = Z.of_nat (length q) /\ Z.of_nat (length q) <= NODES;
  rg_tail : 0 <= q_tail s < NODES;
  rg_head : q_head s = (q_tail s + Z.of_nat (length q)) mod NODES;
  rg_cell j i : q !! j = Some i -> m !! (Q + W * ((q_tail s + Z.of_nat j) mod NODES)) = Some (gaddr i);
}.

Lemma ring_dist s q m i v : ring s q m -> node_in i -> ring s q (<[gaddr i := v]> m).
Proof.
  intros [R1 R2 R3 R4] Hi. pose proof (gl_nodes HL). split; try done. intros j x Hj. rewrite lookup_insert_ne; [by apply R4|]. pose proof (gaddr_within i 0 Hi) as Hw. rewrite Z.add_0_r in Hw. specialize (Hw ltac:(unfold GNODE, W; lia)).
  pose proof (Z.mod_pos_bound (q_tail s + Z.of_nat j) NODES ltac:(lia)). pose proof (gl_queue HL). unfold within, sep, W in *. lia.
Qed.

Lemma mod_inj_near a b n : 0 < n -> a <= b < a + n -> b mod n = a mod n -> a = b.
Proof.
  intros Hn Hab E. pose proof (Z.div_mod a n ltac:(lia)) as Ha. pose proof (Z.div_mod b n ltac:(lia)) as Hb. assert (a / n = b / n); [|lia].
  destruct (Z.lt_trichotomy (a / n) (b / n)) as [Hlt|[->|Hlt]]; [nia|done|nia].
Qed.

Lemma ring_step p : 0 <= p < NODES -> (if NODES <=? u32 (p + 1) then 0 else u32 (p + 1)) = (p + 1) mod NODES.
Proof.
  intros Hp. pose proof (gl_nodes HL). rewrite u32_small by (unfold is_u32, u32_mod, NC in *; lia). destruct (Z.leb_spec NODES (p + 1)); [replace (p + 1) with NODES by lia; by rewrite Z.mod_same by lia|by rewrite Z.mod_small by lia].
Qed.

Lemma push_run s q m dist i k : ring s q m -> gmem m dist -> Z.of_nat (length q) < NODES -> node_in i ->
  exists m' s', run (queue_push NODES Q (gaddr i) s k) m [] = run (k s') m' [] /\ ring s' (q ++ [i]) m' /\ gmem m' dist /\ q_total s' = q_total s /\ gframe m m'.
Proof.
  intros [[R1 R1'] R2 R3 R4] Hg Hlt Hi. pose proof (gl_nodes HL) as Hn. pose proof (Z.mod_pos_bound (q_tail s + Z.of_nat (length q)) NODES ltac:(lia)) as Hb. rewrite <- R3 in Hb.
  unfold queue_push. rewrite run_store_now by (by apply (gm_queue _ _ Hg)). cbn zeta. rewrite ring_step by done. eexists _, _. split; [reflexivity|]. split; [|split; [by apply gmem_queue|split; [done|]]].
  - split; cbn [q_elements q_tail q_head]; [rewrite length_app; cbn [length]; rewrite R1, u32_small by (unfold is_u32, u32_mod, NC in *; lia); lia|done| |].
    + rewrite R3, length_app, Zplus_mod_idemp_l. cbn [length]. f_equal. lia.
    + intros j x Hj. apply lookup_app_Some in Hj as [Hj|[Hj Hx]].
      * rewrite lookup_insert_ne; [by apply R4|]. apply lookup_lt_Some in Hj. rewrite R3. intros E. assert (Em : (q_tail s + Z.of_nat (length q)) mod NODES = (q_tail s + Z.of_nat j) mod NODES) by (unfold W in E; lia).
        assert (Hdiff := mod_inj_near (q_tail s + Z.of_nat j) (q_tail s + Z.of_nat (length q)) NODES). lia.
      * destruct (j - length q)%nat as [|j'] eqn:Ej; [|done]. injection Hx as <-. replace j with (length q) by lia. rewrite <- R3. apply lookup_insert_eq.
  - intros a N1 N2. rewrite lookup_insert_ne; [done|]. intros <-. apply N2. unfold within, W. lia.
Qed.

Lemma ring_pop s v q m : ring s (v :: q) m -> ring (queue_pop NODES s) q m /\ q_total (queue_pop NODES s) = q_total s /\ m !! (Q + W * q_tail s) = Some (gaddr v).
Proof.
  intros [[R1 R1'] R2 R3 R4]. pose proof (gl_nodes HL) as Hn. cbn [length] in *. split; [|split; [done|]].
  - unfold queue_pop. cbn zeta. rewrite ring_step by done. split; cbn [q_elements q_tail q_head]; [rewrite R1, u32_small by (unfold is_u32, u32_mod, NC in *; lia); lia|apply Z.mod_pos_bound; lia| |].
    + rewrite R3, Zplus_mod_idemp_l. f_equal. lia.
    + intros j i Hj. rewrite Zplus_mod_idemp_l. rewrite <- (R4 (S j) i Hj). do 4 f_equal. lia.
  - rewrite <- (R4 O v eq_refl), Z.add_0_r, Z.mod_small by lia. done.
Qed.

(** ** The kernel follows the search *)

Lemma gframe_trans m m' m'' : gframe m m' -> gframe m' m'' -> gframe m m''.
Proof. intros H1 H2 a Ha Hb. by rewrite H2, H1. Qed.

Lemma gframe_dist m i v : node_in i -> gframe m (<[gaddr i := v]> m).
Proof. intros Hi a Ha _. rewrite lookup_insert_ne; [done|]. intros <-. apply Ha. rewrite <- (Z.add_0_r (gaddr i)). apply gaddr_within; [done|unfold GNODE, W; lia]. Qed.

Lemma u32_add_l a b : u32 (u32 a + b) = u32 (a + b).
Proof. unfold u32. apply Zplus_mod_idemp_l. Qed.

(** What the variables and the memory say of the state of the search. *)
Record simulates (s : qvars) m (dist : Z -> Z) (dn q : list Z) (tot : Z) : Prop := {
  si_mem : gmem m dist;
  si_ring : ring s q m;
  si_wf : gwf NODES dist dn q;
  si_total : q_total s = u32 tot;
}.

(** One successor is reached for the first time. *)
Lemma reach_run s m dist dn q tot v x k : simulates s m dist dn q tot -> v ∈ dn -> node_in x -> dist x = NC ->
  exists m' s', run (Load (gaddr v) (fun dv => Store (gaddr x) (u32 (dv + 1)) (Load (gaddr x) (fun sd' =>
      queue_push NODES Q (gaddr x) (mkQV (q_head s) (q_tail s) (q_elements s) (u32 (q_total s + sd'))) k)))) m [] = run (k s') m' [] /\
    simulates s' m' (upd dist x (dist v + 1)) dn (q ++ [x]) (tot + (dist v + 1)) /\ gframe m m' /\ upd dist x (dist v + 1) v = dist v.
Proof.
  intros [H1 H2 H3 H4] Hv Hx Hd. pose proof (gl_nodes HL) as Hn. destruct (wf_push NODES Hn _ _ _ v x H3 Hv Hx Hd) as (Hw & Hlt & H0 & Hne & Hq). destruct (gw_small _ _ _ _ H3 v) as [Hv' _]; [apply elem_of_app; by left|].
  assert (Hu : u32 (dist v + 1) = dist v + 1) by (apply u32_small; unfold is_u32, u32_mod, NC in *; lia).
  rewrite (run_load_now _ _ _ _ (gm_dist _ _ H1 v Hv')). rewrite run_store_now by (eexists; by apply (gm_dist _ _ H1)). rewrite (run_load_now _ _ _ _ (lookup_insert_eq _ _ _)), Hu.
  pose proof (gmem_dist _ _ _ (dist v + 1) H1 Hx) as Hg. pose proof (ring_dist _ _ _ x (dist v + 1) H2 Hx) as Hr.
  destruct (push_run (mkQV (q_head s) (q_tail s) (q_elements s) (u32 (q_total s + (dist v + 1)))) q _ _ x k ltac:(by destruct Hr) Hg Hq Hx) as (m' & s' & R1 & R2 & R3 & R4 & R5).
  exists m', s'. split; [exact R1|]. split; [|split].
  - split; try done. rewrite R4. cbn [q_total]. by rewrite H4, u32_add_l.
  - eapply gframe_trans; [by apply (gframe_dist m x (dist v + 1))|exact R5].
  - unfold upd. destruct (Z.eqb_spec v x); congruence.
Qed.

Lemma visit_run v k ss : forall fuel pre s m dist dn q tot, simulates s m dist dn q tot -> v ∈ dn -> node_in v -> adj v = pre ++ ss -> (length ss < fuel)%nat ->
  exists m' s', run (visit NODES Q fuel (gaddr v) (Z.of_nat (length pre)) s k) m [] = run (k s') m' [] /\
    (let '(dist', q', tot') := g_visit ss (dist v) dist q tot in simulates s' m' dist' dn q' tot') /\ gframe m m'.
Proof.
  induction ss as [|x ss IH]; intros [|fuel] pre s m dist dn q tot Hs Hv Hv' Ea Hf; cbn [length] in Hf; try lia; cbn [visit g_visit]; pose proof (si_mem _ _ _ _ _ _ Hs) as Hm;
    rewrite (run_load_now _ _ _ _ (gm_degree _ _ Hm v Hv')), Ea, length_app; cbn [length].
  - destruct (Z.ltb_spec (Z.of_nat (length pre)) (Z.of_nat (length pre + 0))); [lia|]. by exists m, s.
  - destruct (Z.ltb_spec (Z.of_nat (length pre)) (Z.of_nat (length pre + S (length ss)))); [|lia]. assert (Ex : adj v !! length pre = Some x) by (by rewrite Ea, list_lookup_middle).
    assert (Hx : node_in x) by (pose proof (gl_adj HL v Hv') as Hf'; rewrite Forall_forall in Hf'; apply Hf'; by eapply list_elem_of_lookup_2).
    rewrite (run_load_now _ _ _ _ (gm_sp _ _ Hm v Hv')), (run_load_now _ _ _ _ (gm_succ _ _ Hm v _ x Hv' Ex)), (run_load_now _ _ _ _ (gm_dist _ _ Hm x Hx)).
    assert (En : Z.of_nat (length pre) + 1 = Z.of_nat (length (pre ++ [x]))) by (rewrite length_app; cbn [length]; lia). rewrite En. assert (Ea' : adj v = (pre ++ [x]) ++ ss) by (by rewrite <- app_assoc).
    destruct (Z.eqb_spec (dist x) NC) as [Hd|Hd]; [|apply (IH fuel (pre ++ [x]) s m dist dn q tot); (done || lia)].
    destruct (reach_run s m dist dn q tot v x (fun s' => visit NODES Q fuel (gaddr v) (Z.of_nat (length (pre ++ [x]))) s' k) Hs Hv Hx Hd) as (m1 & s1 & R1 & R2 & R3 & R4). rewrite R1.
    destruct (IH fuel (pre ++ [x]) s1 m1 _ dn _ _ R2 Hv Hv' Ea' ltac:(lia)) as (m2 & s2 & I1 & I2 & I3). rewrite R4 in I2. exists m2, s2. split; [exact I1|]. split; [exact I2|by eapply gframe_trans].
Qed.

Lemma search_run vfuel k : (forall i, node_in i -> (length (adj i) < vfuel)%nat) -> forall fuel s m dist dn q tot, simulates s m dist dn q tot -> NODES <= Z.of_nat (length dn + fuel) ->
  exists m' dist' tot', g_search adj fuel dist q tot = Some (dist', tot') /\ run (search NODES Q fuel vfuel s k) m [] = run (k (u32 tot')) m' [] /\ gmem m' dist' /\ gframe m m'.
Proof.
  intros Hvf. induction fuel as [|fuel IH]; intros s m dist dn q tot Hs Hn; pose proof Hs as [H1 H2 H3 H4]; pose proof (rg_len _ _ _ H2) as [El _]; cbn [search]; unfold queue_empty; rewrite El.
  all: destruct q as [|v q]; cbn [length g_search]; [exists m, dist, tot; split; [done|]; split; [by rewrite <- H4|by split]|]; destruct (Z.eqb_spec (Z.of_nat (S (length q))) 0) as [|_]; [lia|].
  - pose proof (wf_length NODES (gl_nodes HL) _ _ _ H3) as Hl. rewrite length_app in Hl. cbn [length] in Hl. lia.
  - destruct (ring_pop _ _ _ _ H2) as (P1 & P2 & P3). unfold queue_top. rewrite (run_load_now _ _ _ _ P3). pose proof (wf_pop _ _ _ _ _ H3) as Hw. destruct (gw_small _ _ _ _ H3 v) as [Hv _]; [apply elem_of_app; right; left|].
    assert (Hs1 : simulates (queue_pop NODES s) m dist (dn ++ [v]) q tot) by (split; (done || by rewrite P2)).
    destruct (visit_run v (fun s' => search NODES Q fuel vfuel s' k) (adj v) vfuel [] (queue_pop NODES s) m dist (dn ++ [v]) q tot Hs1) as (m1 & s1 & V1 & V2 & V3); [apply elem_of_app; right; left|done|done|by apply Hvf|].
    cbn [length] in V1. change (Z.of_nat 0) with 0 in V1. rewrite V1. destruct (g_visit (adj v) (dist v) dist q tot) as [[d1 q1] t1].
    destruct (IH s1 m1 d1 (dn ++ [v]) q1 t1 V2) as (m2 & d2 & t2 & I1 & I2 & I3 & I4); [rewrite length_app; cbn [length]; lia|]. exists m2, d2, t2. split; [done|]. split; [done|]. split; [done|by eapply gframe_trans].
Qed.

Lemma ring_init m tot : ring (queue_init tot) [] m.
Proof. pose proof (gl_nodes HL). split; cbn [queue_init q_elements q_tail q_head length]; [lia|lia|by rewrite Z.mod_0_l by lia|]. intros j i Hj. done. Qed.

Lemma iterations_run SREG fuel vfuel n : (forall i, node_in i -> (length (adj i) < vfuel)%nat) -> NODES <= Z.of_nat fuel -> forall x dist m tot, gmem m dist -> 0 <= x -> x + Z.of_nat n <= NODES ->
  exists m' dist' tot', g_iterate adj n fuel x dist tot = Some (dist', tot') /\ run (iterations SREG NODES Q n fuel vfuel B x (u32 tot)) m [] = run (Store (SREG + W * 3) (u32 tot') Ret) m' [] /\
    gmem m' dist' /\ gframe m m'.
Proof.
  intros Hvf Hf. pose proof (gl_nodes HL) as Hn. induction n as [|n IH]; intros x dist m tot Hm Hx Hxn; [by exists m, dist, tot|]. assert (Hxi : node_in x) by (unfold node_in; lia).
  cbn [iterations g_iterate]. fold (gaddr x). rewrite run_store_now by (eexists; by apply (gm_dist _ _ Hm)). pose proof (gmem_dist _ _ x 0 Hm Hxi) as Hm1.
  destruct (push_run (queue_init (u32 tot)) [] _ _ x (fun s => search NODES Q fuel vfuel s (fun total' => iterations SREG NODES Q n fuel vfuel B (x + 1) total')) (ring_init _ _) Hm1) as (m2 & s2 & P1 & P2 & P3 & P4 & P5); [cbn; lia|done|].
  destruct (search_run vfuel (fun total' => iterations SREG NODES Q n fuel vfuel B (x + 1) total') Hvf fuel s2 m2 (upd dist x 0) [] [x] tot) as (m3 & d3 & t3 & S1 & S2 & S3 & S4); [split; [done|done|by apply wf_start|done]|cbn; lia|].
  destruct (IH (x + 1) d3 m3 t3 S3 ltac:(lia) ltac:(lia)) as (m4 & d4 & t4 & I1 & I2 & I3 & I4). exists m4, d4, t4. rewrite S1. split; [done|]. split; [by rewrite P1, S2|]. split; [done|].
  eapply gframe_trans; [by apply (gframe_dist m x 0)|]. eapply gframe_trans; [exact P5|]. by eapply gframe_trans.
Qed.
End memory.

(** The arguments in the registers of the device: the nodes, their number, the queue and the number of iterations. *)
Record gregs (SREG B Q NODES n : Z) (m : gmap Z Z) : Prop := {
  gr_nodes : m !! (SREG + W * 0) = Some B;
  gr_count : m !! (SREG + W * 2) = Some NODES;
  gr_ret : is_Some (m !! (SREG + W * 3));
  gr_queue : m !! (SREG + W * 4) = Some Q;
  gr_iter : m !! (SREG + W * 5) = Some n;
  gr_sep : ~ within B (4 * NODES) (SREG + W * 3) /\ ~ within Q NODES (SREG + W * 3);
}.

Lemma reaches_sources NODES adj n fuel dist tot : (forall i, node_in NODES i -> Forall (node_in NODES) (adj i)) -> 0 < NODES < NC -> 1 <= n <= NODES ->
  g_iterate adj (Z.to_nat n) fuel 0 (reset 0) 0 = Some (dist, tot) -> forall i, dist i <> NC <-> exists s k, 0 <= s < n /\ path adj s i k.
Proof.
  intros Ha HN Hn E. assert (H0 : forall j, reached (reset 0) j -> j = 0) by (intros j; unfold reached, reset; destruct (Z.eqb_spec j 0); done).
  destruct (iterate_reaches NODES adj Ha HN fuel (Z.to_nat n) 0 (reset 0) 0 dist tot E) as ([?|I1] & I2 & I3); [lia|lia|intros i j ->%H0 _; left; left|lia|].
  intros i. split.
  - intros Hi. destruct (I3 i Hi) as (j & k & [->%H0|Hj] & Hp); [exists 0, k|exists j, k]; (split; [lia|done]).
  - intros (s & k & Hs & Hp). change (reached dist i). induction Hp as [|t u k Hp IH Hu]; [apply I2; right; lia|]. destruct (I1 t u IH Hu) as [H|H]; [by apply elem_of_nil in H|done].
Qed.

Lemma one_search NODES adj fuel dist tot : (forall i, node_in NODES i -> Forall (node_in NODES) (adj i)) -> 0 < NODES < NC -> NODES <= Z.of_nat fuel ->
  g_iterate adj (Z.to_nat 1) fuel 0 (reset 0) 0 = Some (dist, tot) ->
  tot = total_of NODES dist /\ forall t, (dist t = NC /\ forall k, ~ path adj 0 t k) \/ (dist t <> NC /\ path adj 0 t (dist t) /\ forall k, path adj 0 t k -> dist t <= k).
Proof.
  intros Ha HN Hf E. change (Z.to_nat 1) with 1%nat in E. cbn [g_iterate] in E. apply bind_Some in E as ([d t] & Es & E). injection E as <- <-. apply (search_shortest NODES adj Ha HN 0) with (fuel := fuel) (dist := upd (reset 0) 0 0); try done; [unfold node_in; lia|].
  intros i. unfold upd, reset. by destruct (i =? 0).
Qed.

(** C27: The breadth-first search on the device: on a graph of fewer than 2^32 - 1 nodes in memory whose distances are reset, with a queue of one word per node, every execution of the
    kernel ends without fault, whatever the graph; the queue, a ring as large as the graph, never overflows.  A node then has a distance exactly if there is a path to it from
    one of the first MAX_ITERATIONS nodes.  For one iteration the distance is the length of the shortest path from node 0, and the value returned is the sum of the distances modulo 2^32.
    Nothing but the nodes, the queue and the register of the result changes. *)
Theorem bfs_kernel_distances SREG B Q NODES n adj sp m fuel vfuel :
  glayout B Q NODES adj sp -> gmem B Q NODES adj sp m (reset 0) -> gregs SREG B Q NODES n m -> 1 <= n <= NODES ->
  NODES <= Z.of_nat fuel -> (forall i, node_in NODES i -> (length (adj i) < vfuel)%nat) ->
  exists m' dist tot, ends_in (bfs_kernel SREG fuel vfuel) m m' /\ m' !! (SREG + W * 3) = Some (u32 tot) /\
    (forall i, node_in NODES i -> m' !! gaddr B i = Some (dist i)) /\
    (forall i, dist i <> NC <-> exists s k, 0 <= s < n /\ path adj s i k) /\
    (n = 1 -> tot = total_of NODES dist /\ forall t, (dist t = NC /\ forall k, ~ path adj 0 t k) \/ (dist t <> NC /\ path adj 0 t (dist t) /\ forall k, path adj 0 t k -> dist t <= k)) /\
    (forall a, ~ within B (4 * NODES) a -> ~ within Q NODES a -> a <> SREG + W * 3 -> m' !! a = m !! a).
Proof.
  intros HL Hm [R0 R2 R3 R4 R5 [N1 N2]] Hn Hf Hvf. pose proof (gl_nodes _ _ _ _ _ HL) as HN. assert (Hz : Z.of_nat (Z.to_nat n) = n) by lia.
  destruct (iterations_run B Q NODES adj sp HL SREG fuel vfuel (Z.to_nat n) Hvf Hf 0 (reset 0) m 0 Hm) as (m1 & dist & tot & I1 & I2 & I3 & I4); [lia|lia|].
  exists (<[SREG + W * 3 := u32 tot]> m1), dist, tot. assert (Hret : is_Some (m1 !! (SREG + W * 3))) by (by rewrite I4). split_and!.
  - apply (run_deterministic _ _ _ []). unfold bfs_kernel. rewrite (run_load_now _ _ _ _ R0), (run_load_now _ _ _ _ R2), (run_load_now _ _ _ _ R5), (run_load_now _ _ _ _ R4). rewrite u32_small in I2 by (unfold is_u32, u32_mod; lia).
    rewrite I2. by rewrite run_store_now.
  - apply lookup_insert_eq.
  - intros i Hi. rewrite lookup_insert_ne; [by apply (gm_dist _ _ _ _ _ _ _ I3)|]. intros E. apply N1. rewrite E, <- (Z.add_0_r (gaddr B i)). apply gaddr_within; [done|unfold GNODE, W; lia].
  - eapply reaches_sources; [apply HL|done|done|exact I1].
  - intros ->. eapply one_search; [apply HL|done|done|exact I1].
  - intros a Ha Hb Hne. rewrite lookup_insert_ne by done. by apply I4.
Qed.

(** Five nodes: 0 has an edge to 1 and 2, these to 3 and 3 to 0, and 4 cannot be reached. *)
Definition ex_adj (i : Z) : list Z := if i =? 0 then [1; 2] else if i =? 1 then [3] else if i =? 2 then [3] else if i =? 3 then [0] else [].
Definition ex_sp (i : Z) : Z := 1000 + 16 * i.
Definition ex_dist (i : Z) : Z := if i =? 0 then 0 else NC.
Definition ex_node (i : Z) : list (Z * Z) :=
  [(16 * i, ex_dist i); (16 * i + 4, i); (16 * i + 8, Z.of_nat (length (ex_adj i))); (16 * i + 12, ex_sp i)] ++ imap (fun c s => (ex_sp i + 4 * Z.of_nat c, 16 * s)) (ex_adj i).
Definition ex_graph (n : Z) : gmap Z Z :=
  list_to_map (concat (ex_node <$> [0; 1; 2; 3; 4]) ++ ((fun i => (500 + 4 * i, 7)) <$> [0; 1; 2; 3; 4]) ++ [(2000, 0); (2008, 5); (2012, 9); (2016, 500); (2020, n)]).

Lemma ex_cases (P : Z -> Prop) : P 0 -> P 1 -> P 2 -> P 3 -> P 4 -> forall i, node_in 5 i -> P i.
Proof. intros H0 H1 H2 H3 H4 i Hi. unfold node_in in Hi. assert (i = 0 \/ i = 1 \/ i = 2 \/ i = 3 \/ i = 4) as [->|[->|[->|[->| ->]]]] by lia; done. Qed.

Lemma ex_succ (P : Z -> nat -> Z -> Prop) : P 0 0%nat 1 -> P 0 1%nat 2 -> P 1 0%nat 3 -> P 2 0%nat 3 -> P 3 0%nat 0 -> forall i c s, node_in 5 i -> ex_adj i !! c = Some s -> P i c s.
Proof.
  intros H1 H2 H3 H4 H5 i c s Hi. revert i Hi c s. apply (ex_cases (fun i => forall c s, ex_adj i !! c = Some s -> P i c s)); intros [|[|c]] s Hs; cbn in Hs; try discriminate Hs; injection Hs as <-; done.
Qed.

Lemma ex_glayout : glayout 0 500 5 ex_adj ex_sp.
Proof.
  split; [unfold NC; lia| |unfold sep, W; lia|].
  - apply (ex_cases (fun i => Forall (node_in 5) (ex_adj i))); cbn; repeat constructor; unfold node_in; lia.
  - apply (ex_succ (fun i c s => ~ within 0 (4 * 5) (ex_sp i + W * Z.of_nat c) /\ ~ within 500 5 (ex_sp i + W * Z.of_nat c))); unfold within, ex_sp, W; lia.
Qed.

Lemma ex_gmem : gmem 0 500 5 ex_adj ex_sp (ex_graph 1) (reset 0).
Proof.
  split.
  - apply (ex_cases (fun i => ex_graph 1 !! gaddr 0 i = Some (reset 0 i))); vm_compute; reflexivity.
  - apply (ex_cases (fun i => ex_graph 1 !! (gaddr 0 i + o_degree) = Some (Z.of_nat (length (ex_adj i))))); vm_compute; reflexivity.
  - apply (ex_cases (fun i => ex_graph 1 !! (gaddr 0 i + o_succ) = Some (ex_sp i))); vm_compute; reflexivity.
  - apply (ex_succ (fun i c s => ex_graph 1 !! (ex_sp i + W * Z.of_nat c) = Some (gaddr 0 s))); vm_compute; reflexivity.
  - apply words_check. vm_compute. reflexivity.
Qed.

Lemma bfs_kernel_distances_witness : exists m' dist tot, ends_in (bfs_kernel 2000 5 3) (ex_graph 1) m' /\ m' !! 2012 = Some (u32 tot) /\ tot = total_of 5 dist /\ (dist 3 <> NC /\ path ex_adj 0 3 (dist 3)).
Proof.
  destruct (bfs_kernel_distances 2000 0 500 5 1 ex_adj ex_sp (ex_graph 1) 5 3 ex_glayout ex_gmem) as (m' & dist & tot & H1 & H2 & _ & H4 & H5 & _).
  - split; try (vm_compute; reflexivity); [exists 9; vm_compute; reflexivity|unfold within, W; lia].
  - lia.
  - lia.
  - apply (ex_cases (fun i => (length (ex_adj i) < 3)%nat)); cbn; lia.
  - exists m', dist, tot. destruct (H5 eq_refl) as [Ht Hs]. split; [exact H1|]. split; [exact H2|]. split; [exact Ht|]. destruct (Hs 3) as [[_ Hn]|[Hd [Hp _]]]; [|split; assumption].
    exfalso. apply (Hn (0 + 1 + 1)). apply (path_snoc ex_adj 0 1 3 (0 + 1)); [apply (path_snoc ex_adj 0 0 1 0); [apply path_nil|]|]; cbn; set_solver.
Defined.
(** What the kernel computes there. *)
Example ex_bfs : (fun r => (fun i => r.1 !! (16 * i)) <$> [0; 1; 2; 3; 4]) <$> run (bfs_kernel 2000 5 3) (ex_graph 1) [] = Some [Some 0; Some 1; Some 1; Some 2; Some NC].
Proof. vm_compute. reflexivity. Qed.

(** Ten iterations, the default, add up distances that later iterations overwrite: here the value returned is still that of the first search although node 1 has distance 0 at the end. *)
Example ex_bfs_twice : (fun r => (r.1 !! 2012, r.1 !! 16)) <$> run (bfs_kernel 2000 5 3) (ex_graph 2) [] = Some (Some 4, Some 0).
Proof. vm_compute. reflexivity. Qed.

(** ** The graphs of the host program *)

Section create.
(** [DEBUG_API], the parameters of the build, and the values that [rand] returns one after the other. *)
Context (dbg : bool) (NODES MAX_OUTDEGREE step : Z) (rand : nat -> Z).

(** An assertion that fails in a debug build exits; [None] is that, a division by zero or a loop that was cut. *)
Definition ASSERT_DBG (cond : bool) : option unit := if dbg && negb cond then None else Some tt.
(** [rand() % d], and how many values of [rand] are used then *)
Definition rand_mod (d : Z) (r : nat) : option (Z * nat) := if d =? 0 then None else Some (Z.rem (rand r) d, S r).

(** [while (succ==i)] *)
Fixpoint leave_self (fuel : nat) (i succ : Z) (r : nat) : option (Z * nat) :=
  if succ =? i then
    match fuel with
    | O => None
    | S fuel' => '(x, r') ← rand_mod (NODES / 500) r; let succ' := u32 (succ + (x + 1)) in leave_self fuel' i (if NODES <=? succ' then u32 (succ' - NODES) else succ') r'
    end
  else Some (succ, r).

(** [for (j...)]: [succ] is declared outside of the loop. *)
Fixpoint fill_successors (fuel num : nat) (i succ : Z) (r : nat) : option (list Z * nat) :=
  match num with
  | O => Some ([], r)
  | S num' => '(succ', r') ← leave_self fuel i succ r; '(l, r2) ← fill_successors fuel num' i succ' r'; Some (succ' :: l, r2)
  end.

Definition create_node (fuel : nat) (i : Z) (r : nat) : option (list Z * nat) :=
  if step =? 0 then None else
  '(num_succ, r1) ← (if i mod step =? 0 then rand_mod MAX_OUTDEGREE r else Some (0, r));
  '(succ, r2) ← rand_mod NODES r1;
  _ ← ASSERT_DBG (MAX_OUTDEGREE <? 500);
  fill_successors fuel (Z.to_nat num_succ) i succ r2.

(** The lists of successors of the nodes from [i] on, [n] more. *)
Fixpoint create_nodes (fuel n : nat) (i : Z) (r : nat) : option (list (list Z) * nat) :=
  match n with
  | O => Some ([], r)
  | S n' => '(l, r') ← create_node fuel i r; '(g, r2) ← create_nodes fuel n' (i + 1) r'; Some (l :: g, r2)
  end.
Definition create_graph (fuel : nat) : option (list (list Z)) :=
  _ ← ASSERT_DBG (MAX_OUTDEGREE <? NODES); '(g, _) ← create_nodes fuel (Z.to_nat NODES) 0 0; Some g.

Context (Hnodes : 500 <= NODES < 2 ^ 31) (Hdeg : 0 < MAX_OUTDEGREE < 500) (Hstep : 0 < step) (Hrand : forall r, 0 <= rand r).

Lemma rand_mod_ok d r : 0 < d -> exists x, rand_mod d r = Some (x, S r) /\ 0 <= x < d.
Proof. intros Hd. unfold rand_mod. destruct (Z.eqb_spec d 0); [lia|]. eexists. split; [done|]. apply Z.rem_bound_pos; [apply Hrand|lia]. Qed.

(** The loop is left after one step. *)
Lemma leave_self_ok fuel i succ r : 0 <= i < NODES -> 0 <= succ < NODES -> exists s r', leave_self (S fuel) i succ r = Some (s, r') /\ 0 <= s < NODES /\ s <> i /\ (succ <> i -> s = succ).
Proof.
  intros Hi Hs. cbn [leave_self]. destruct (Z.eqb_spec succ i) as [->|Hne]; [|by exists succ, r]. assert (Hk : 1 <= NODES / 500 < NODES) by (split; [apply Z.div_le_lower_bound; lia|apply Z.div_lt; lia]).
  destruct (rand_mod_ok (NODES / 500) r ltac:(lia)) as (x & -> & Hx). cbn [mbind option_bind]. rewrite u32_small by (unfold is_u32, u32_mod; lia).
  assert (Hd : exists s, (if NODES <=? i + (x + 1) then u32 (i + (x + 1) - NODES) else i + (x + 1)) = s /\ 0 <= s < NODES /\ s <> i).
  { destruct (Z.leb_spec NODES (i + (x + 1))); [rewrite u32_small by (unfold is_u32, u32_mod; lia)|]; (eexists; split; [reflexivity|lia]). }
  destruct Hd as (s & -> & Hr & Hne). exists s, (S r). split; [|done]. destruct fuel; cbn [leave_self]; (destruct (Z.eqb_spec s i); [done|reflexivity]).
Qed.

Lemma fill_successors_ok fuel num : forall i succ r, 0 <= i < NODES -> 0 <= succ < NODES ->
  exists s r', fill_successors (S fuel) num i succ r = Some (replicate num s, r') /\ 0 <= s < NODES /\ (num <> O -> s <> i) /\ (succ <> i -> s = succ).
Proof.
  induction num as [|num IH]; intros i succ r Hi Hs; [by exists succ, r|]. cbn [fill_successors]. destruct (leave_self_ok fuel i succ r Hi Hs) as (s & r' & -> & Hr & Hne & He). cbn [mbind option_bind].
  destruct (IH i s r' Hi Hr) as (s2 & r2 & -> & _ & _ & E2). rewrite (E2 Hne). by exists s, r2.
Qed.

(** What the comment in the loop promises does not hold: the successors of a node are all the same. *)
Definition one_successor (i : Z) (l : list Z) : Prop :=
  exists s, l = replicate (length l) s /\ 0 <= s < NODES /\ (l <> [] -> s <> i) /\ Z.of_nat (length l) < MAX_OUTDEGREE /\ (i mod step <> 0 -> l = []).

Lemma create_node_ok fuel i r : 0 <= i < NODES -> exists l r', create_node (S fuel) i r = Some (l, r') /\ one_successor i l.
Proof.
  intros Hi. unfold create_node. destruct (Z.eqb_spec step 0); [lia|].
  assert (Hnum : exists num r1, (if i mod step =? 0 then rand_mod MAX_OUTDEGREE r else Some (0, r)) = Some (num, r1) /\ 0 <= num < MAX_OUTDEGREE /\ (i mod step <> 0 -> num = 0)).
  { destruct (Z.eqb_spec (i mod step) 0); [|by exists 0, r; split; [|split; [lia|]]]. destruct (rand_mod_ok MAX_OUTDEGREE r ltac:(lia)) as (x & -> & Hx). by exists x, (S r). }
  destruct Hnum as (num & r1 & -> & Hnum & H0). cbn [mbind option_bind]. destruct (rand_mod_ok NODES r1 ltac:(lia)) as (succ & -> & Hs). cbn [mbind option_bind].
  unfold ASSERT_DBG. destruct (Z.ltb_spec MAX_OUTDEGREE 500); [|lia]. rewrite andb_false_r. cbn [mbind option_bind].
  destruct (fill_successors_ok fuel (Z.to_nat num) i succ (S r1) Hi Hs) as (s & r' & -> & Hr & Hne & _). eexists _, _. split; [reflexivity|]. exists s. rewrite length_replicate. split; [done|]. split; [done|]. split; [|split; [lia|]].
  - intros Hl. apply Hne. intros E. apply Hl. by rewrite E.
  - intros Hm. by rewrite (H0 Hm).
Qed.

Lemma create_nodes_ok fuel n : forall i r, 0 <= i -> i + Z.of_nat n <= NODES ->
  exists g r', create_nodes (S fuel) n i r = Some (g, r') /\ length g = n /\ forall k l, g !! k = Some l -> one_successor (i + Z.of_nat k) l.
Proof.
  induction n as [|n IH]; intros i r Hi Hn; [by exists [], r|]. cbn [create_nodes]. destruct (create_node_ok fuel i r ltac:(lia)) as (l & r' & -> & Hl). cbn [mbind option_bind].
  destruct (IH (i + 1) r' ltac:(lia) ltac:(lia)) as (g & r2 & -> & Hlen & Hg). exists (l :: g), r2. split; [done|]. split; [cbn; by rewrite Hlen|].
  intros [|k] l' Hk; cbn in Hk; [injection Hk as <-; by rewrite Z.add_0_r|]. replace (i + Z.of_nat (S k)) with (i + 1 + Z.of_nat k) by lia. by apply Hg.
Qed.

(** The graphs that the host program makes, whatever the random numbers are, for at least 500 nodes and an out-degree of at most 499 as its assertions ask: the program makes a list of
    successors for each node without a division by zero and without looping; no node is its own successor, every out-degree is below MAX_OUTDEGREE and the nodes that are no multiples
    of step have none.  But the successors of a node are one node, repeated, where the comment says that each is one to which the node is not connected yet. *)
Theorem create_graph_one_successor fuel :
  exists g, create_graph (S fuel) = Some g /\ Z.of_nat (length g) = NODES /\ forall k l, g !! k = Some l -> one_successor (Z.of_nat k) l.
Proof.
  unfold create_graph, ASSERT_DBG. destruct (Z.ltb_spec MAX_OUTDEGREE NODES); [|lia]. rewrite andb_false_r. cbn [mbind option_bind].
  destruct (create_nodes_ok fuel (Z.to_nat NODES) 0 0 ltac:(lia) ltac:(lia)) as (g & r & -> & Hl & Hg). exists g. split; [done|]. split; [lia|]. apply Hg.
Qed.
End create.

(** Random numbers for a witness, and a node that has two edges to one other node. *)
Definition ex_rand (r : nat) : Z := (Z.of_nat r * 7919 + 12) mod 1009.
Lemma create_graph_one_successor_witness : exists g, create_graph true 500 4 7 ex_rand 1 = Some g /\ Z.of_nat (length g) = 500 /\ forall k l, g !! k = Some l -> one_successor 500 4 7 (Z.of_nat k) l.
Proof.
  apply (create_graph_one_successor true 500 4 7 ex_rand) with (fuel := O); [lia|lia|lia|]. intros r. unfold ex_rand. apply Z.mod_pos_bound. lia.
Defined.
Example ex_two_edges : (fun g => (fun l : list Z => (length l, bool_decide (NoDup l))) <$> filter (fun l => l <> []) (take 20 g)) <$> create_graph true 500 4 7 ex_rand 1 = Some [(2%nat, false); (3%nat, false)].
Proof. vm_compute. reflexivity. Qed.
(** For fewer than 500 nodes a random number is divided by 0. *)
Example ex_small_graph : create_graph true 5 4 1 (fun _ => 1) 9 = None /\ rand_mod (fun _ => 1) (5 / 500) 0 = None.
Proof. split; vm_compute; reflexivity. Qed.
