(* ===== verification/PimSkip.v ===== *)
(** * The skip list in a PIM vault

    Models src/SMC/SW/PIM/kernels/clean_skiplist.c (kernel_default): the request
    slots in the vector registers, the service of one request, the scan of the
    slots and the kernel's loop; and the macros on the information bits that host
    and kernel share (multithread_nonstop_pim_skiplist/defs.hh).  The theorems show
    that the bits round-trip, that a request refines the operation on a set of
    keys, that a scan serves every valid request, and what happens when the vault
    is full. *)

From S2P Require Import Prelude SkipCore ListCore FCSkipList PimVault.

(** ** Information bits *)

(** Operations, and what is kept and tested of the bits.  The two applications
    differ in the width only. *)
Record infobits := mkInfo {
  ib_add : Z; ib_remove : Z; ib_contains : Z;
  ib_keep : Z; ib_op : Z; ib_valid : Z; ib_clear : Z;
}.
(** multithread_nonstop_pim_skiplist/defs.hh *)
Definition skip_info : infobits := mkInfo 0x40 0x20 0x60 0x1E 0x60 0x80 0x7F.
(** multithread_nonstop_pim_linkedlist/defs.hh *)
Definition list_info : infobits :=
  mkInfo 0x4000 0x2000 0x6000 0x1FFE 0x6000 0x8000 0x7FFF.

Section bits.
Context (I : infobits).
Definition SET_OPERATION (b op : Z) : Z := Z.lor (Z.land b (ib_keep I)) op.
Definition EXTRACT_OPERATION (b : Z) : Z := Z.land b (ib_op I).
Definition SET_RETVAL (b r : Z) : Z := Z.lor b r.
Definition GET_RETVAL (b : Z) : Z := Z.land b 1.
Definition SET_REQUEST (b : Z) : Z := Z.lor b (ib_valid I).
Definition CHECK_VALID_REQUEST (b : Z) : Z := Z.land b (ib_valid I).
Definition CLEAR_REQUEST (b : Z) : Z := Z.land b (ib_clear I).
End bits.

(** The masks do not interfere. *)
Class InfoLaws (I : infobits) : Prop := {
  il_keep_valid : Z.land (ib_keep I) (ib_valid I) = 0;
  il_keep_op : Z.land (ib_keep I) (ib_op I) = 0;
  il_keep_ret : Z.land (ib_keep I) 1 = 0;
  il_valid_op : Z.land (ib_valid I) (ib_op I) = 0;
  il_valid_ret : Z.land (ib_valid I) 1 = 0;
  il_valid_valid : Z.land (ib_valid I) (ib_valid I) <> 0;
  il_ret_op : Z.land 1 (ib_op I) = 0;
  il_ret_valid : Z.land 1 (ib_valid I) = 0;
  il_clear_valid : Z.land (ib_clear I) (ib_valid I) = 0;
  il_clear_ret : Z.land (ib_clear I) 1 = 1;
  il_clear_op : Z.land (ib_clear I) (ib_op I) = ib_op I;
  il_ops op : op ∈ [ib_add I; ib_remove I; ib_contains I] ->
    Z.land op (ib_valid I) = 0 /\ Z.land op (ib_op I) = op /\ Z.land op 1 = 0;
  il_distinct : NoDup [ib_add I; ib_remove I; ib_contains I];
}.

#[export] Instance skip_info_laws : InfoLaws skip_info.
Proof.
  split; try reflexivity; try (by intros [=]).
  - intros op Hop. repeat (apply elem_of_cons in Hop as [->|Hop]; [done|]). set_solver.
  - repeat constructor; set_solver.
Qed.
#[export] Instance list_info_laws : InfoLaws list_info.
Proof.
  split; try reflexivity; try (by intros [=]).
  - intros op Hop. repeat (apply elem_of_cons in Hop as [->|Hop]; [done|]). set_solver.
  - repeat constructor; set_solver.
Qed.

Section bit_lemmas.
Context (I : infobits) `{IL : !InfoLaws I}.
Definition is_op (op : Z) : Prop := op ∈ [ib_add I; ib_remove I; ib_contains I].

(** Moves a mask into a disjunction. *)
Ltac mask := repeat first [rewrite Z.land_lor_distr_l | rewrite <- Z.land_assoc].

Lemma land_ret r V : 0 <= r <= 1 -> Z.land 1 V = 0 -> Z.land r V = 0.
Proof. intros Hr H. assert (r = 0 \/ r = 1) as [->| ->] by lia; [apply Z.land_0_l|done]. Qed.

(** The bits after the operation was set. *)
Lemma set_operation_bits b op : is_op op ->
  CHECK_VALID_REQUEST I (SET_OPERATION I b op) = 0 /\
  EXTRACT_OPERATION I (SET_OPERATION I b op) = op /\ GET_RETVAL (SET_OPERATION I b op) = 0.
Proof.
  intros (Hv & Ho & Hr)%il_ops. unfold CHECK_VALID_REQUEST, EXTRACT_OPERATION, GET_RETVAL, SET_OPERATION.
  mask. by rewrite il_keep_valid, il_keep_op, il_keep_ret, Hv, Ho, Hr, Z.land_0_r.
Qed.

Lemma set_request_bits b : CHECK_VALID_REQUEST I b = 0 ->
  CHECK_VALID_REQUEST I (SET_REQUEST I b) <> 0 /\
  EXTRACT_OPERATION I (SET_REQUEST I b) = EXTRACT_OPERATION I b /\
  GET_RETVAL (SET_REQUEST I b) = GET_RETVAL b.
Proof.
  unfold CHECK_VALID_REQUEST, EXTRACT_OPERATION, GET_RETVAL, SET_REQUEST. intros H. mask.
  rewrite il_valid_op, il_valid_ret, !Z.lor_0_r, H, Z.lor_0_l.
  split_and!; try done. apply il_valid_valid.
Qed.

Lemma set_retval_bits b r : 0 <= r <= 1 ->
  CHECK_VALID_REQUEST I (SET_RETVAL b r) = CHECK_VALID_REQUEST I b /\
  EXTRACT_OPERATION I (SET_RETVAL b r) = EXTRACT_OPERATION I b /\
  GET_RETVAL (SET_RETVAL b r) = Z.lor (GET_RETVAL b) r.
Proof.
  intros Hr. unfold CHECK_VALID_REQUEST, EXTRACT_OPERATION, GET_RETVAL, SET_RETVAL. mask.
  rewrite (land_ret r _ Hr il_ret_valid), (land_ret r _ Hr il_ret_op), !Z.lor_0_r.
  split_and!; try done. f_equal. assert (r = 0 \/ r = 1) as [->| ->] by lia; done.
Qed.

Lemma clear_request_bits b :
  CHECK_VALID_REQUEST I (CLEAR_REQUEST I b) = 0 /\ GET_RETVAL (CLEAR_REQUEST I b) = GET_RETVAL b /\
  EXTRACT_OPERATION I (CLEAR_REQUEST I b) = EXTRACT_OPERATION I b.
Proof.
  unfold CHECK_VALID_REQUEST, GET_RETVAL, CLEAR_REQUEST, EXTRACT_OPERATION. mask.
  by rewrite il_clear_valid, il_clear_ret, il_clear_op, Z.land_0_r.
Qed.

Lemma get_retval_range b : 0 <= GET_RETVAL b <= 1.
Proof.
  assert (E : GET_RETVAL b = b mod 2) by exact (Z.land_ones b 1 ltac:(lia)).
  rewrite E. pose proof (Z.mod_pos_bound b 2). lia.
Qed.
End bit_lemmas.

(** ** The kernel *)

(** [node_t] of clean_skiplist.c; MAX_LEVEL is 30 in the application. *)
Definition skip_layout (MAX_LEVEL : nat) : layout := mkLayout MAX_LEVEL true.

Record request_slot := mkReqSlot {
  info_bits : Z; random_level : Z; timestamp : Z; parameter : Z;
}.
Definition set_info (s : request_slot) (b : Z) : request_slot :=
  mkReqSlot b (random_level s) (timestamp s) (parameter s).
Definition set_time (s : request_slot) (n : Z) : request_slot :=
  mkReqSlot (info_bits s) (random_level s) n (parameter s).
Definition set_param (s : request_slot) (v : Z) : request_slot :=
  mkReqSlot (info_bits s) (random_level s) (timestamp s) v.
Definition set_level (s : request_slot) (v : Z) : request_slot :=
  mkReqSlot (info_bits s) v (timestamp s) (parameter s).

(** The state of the device: the scalar registers by their use (SREG[3] is
    [FREE_BLOCKS_HEAD] of the vault), the slots and the arrays [preds] and [succs] in
    the vector registers, and the vault. *)
Record kst := mkK {
  k_op : Z;            (* SREG[0] *)
  k_blocks : Z;        (* SREG[1] *)
  k_time : Z;          (* SREG[2] *)
  LIST_HEAD : Z;       (* SREG[4] *)
  LIST_TAIL : Z;       (* SREG[5] *)
  CURR_MAX_LEVEL : Z;  (* SREG[6] *)
  k_slots : list request_slot;
  k_preds : arr;
  k_succs : arr;
  k_vault : vault;
}.

Definition k_set_op (st : kst) (op : Z) : kst :=
  mkK op (k_blocks st) (k_time st) (LIST_HEAD st) (LIST_TAIL st) (CURR_MAX_LEVEL st)
      (k_slots st) (k_preds st) (k_succs st) (k_vault st).
Definition k_set_time (st : kst) (n : Z) : kst :=
  mkK (k_op st) (k_blocks st) n (LIST_HEAD st) (LIST_TAIL st) (CURR_MAX_LEVEL st)
      (k_slots st) (k_preds st) (k_succs st) (k_vault st).
Definition k_set_slots (st : kst) (l : list request_slot) : kst :=
  mkK (k_op st) (k_blocks st) (k_time st) (LIST_HEAD st) (LIST_TAIL st) (CURR_MAX_LEVEL st)
      l (k_preds st) (k_succs st) (k_vault st).
Definition k_set_mem (st : kst) (p s : arr) (v : vault) : kst :=
  mkK (k_op st) (k_blocks st) (k_time st) (LIST_HEAD st) (LIST_TAIL st) (CURR_MAX_LEVEL st)
      (k_slots st) p s v.
Definition k_put (st : kst) (i : nat) (s : request_slot) : kst :=
  k_set_slots st (<[i := s]> (k_slots st)).

Section kernel.
(** [num] is NUM_MEM_BLOCKS. *)
Context (MAX_LEVEL : nat) (num : nat).
Let L := skip_layout MAX_LEVEL.
#[local] Instance skip_mem : NodeMem vault := vault_mem L num.

(** [list_init] of the kernel, with the registers it sets. *)
Definition kernel_init (st : kst) : result kst :=
  '(v, head, tail) ← list_init L (words (k_vault st)) num;
  Ok (mkK (k_op st) (Z.of_nat num) 0 head tail (CURR_MAX_LEVEL st) (k_slots st)
          (k_preds st) (k_succs st) v).

(** The search and the operation, from [//find node] on. *)
Definition exec_request (st : kst) (requested_op param level : Z) : result (kst * Z) :=
  let v := k_vault st in
  '(found, preds, succs) ←
    find_levels (S (size (words v))) v (negb (requested_op =? ib_remove skip_info)) param
      (Z.to_nat (CURR_MAX_LEVEL st)) (LIST_HEAD st) 0 (k_preds st) (k_succs st);
  if requested_op =? ib_contains skip_info then
    Ok (k_set_mem st preds succs v, if found =? 0 then 0 else 1)
  else if requested_op =? ib_add skip_info then
    if found =? 0 then
      '(v1, new) ← alloc_memory_block v;
      v2 ← stw v1 new (f_top L) level;
      v3 ← stw v2 new 0 param;
      v4 ← link_levels v3 new preds succs (seq 0 (Z.to_nat level));
      Ok (k_set_mem st preds succs v4, 1)
    else Ok (k_set_mem st preds succs v, 0)
  else
    if found =? 0 then Ok (k_set_mem st preds succs v, 0)
    else
      top ← rd_top v found;
      v1 ← unlink_levels v found preds (reverse (seq 0 (Z.to_nat top)));
      Ok (k_set_mem st preds succs v1, 1).

(** The body of the loop over the slots, with PIM_DEBUG_ON. *)
Definition serve_slot (st : kst) (i : nat) : result kst :=
  s ← of_opt (k_slots st !! i);
  if CHECK_VALID_REQUEST skip_info (info_bits s) =? 0 then Ok st
  else
    let requested_op := EXTRACT_OPERATION skip_info (info_bits s) in
    '(st1, retval) ← exec_request st requested_op (parameter s) (random_level s);
    s1 ← of_opt (k_slots st1 !! i);
    let st2 := k_put st1 i (set_time s1 (u16 (k_time st1))) in
    let st3 := k_set_time st2 (u32 (k_time st2 + 1)) in
    s2 ← of_opt (k_slots st3 !! i);
    let st4 := k_put st3 i (set_info s2 (SET_RETVAL (info_bits s2) retval)) in
    s3 ← of_opt (k_slots st4 !! i);
    Ok (k_put st4 i (set_info s3 (CLEAR_REQUEST skip_info (info_bits s3)))).

Fixpoint scan (st : kst) (ids : list nat) : result kst :=
  match ids with [] => Ok st | i :: ids' => st1 ← serve_slot st i; scan st1 ids' end.

(** One iteration of [while (true)]; [false] if the kernel leaves the loop.  The
    number of slots is NUM_HOST_THREADS. *)
Definition kernel_iter (st : kst) : result (kst * bool) :=
  if k_op st =? 0 then
    st1 ← kernel_init st; Ok (k_set_op st1 1, true)
  else if 3 <=? k_op st then Ok (st, false)
  else st1 ← scan st (seq 0 (length (k_slots st))); Ok (st1, true).

(** ** Refinement *)

(** The operation that the bits stand for. *)
Definition lop_of (op : Z) : lop :=
  if op =? ib_contains skip_info then LContains
  else if op =? ib_add skip_info then LAdd else LRemove.
Definition key_spec (S : gset Z) (op param : Z) : gset Z * Z := lset_spec S (lop_of op) param.

(** The device represents the set [S], with the free blocks [fl]. *)
Record sk_ref (S : gset Z) (fl : list Z) (st : kst) : Prop := {
  sr_list : exists ns, S = skip_set ns /\
    skip_inv (k_vault st) (LIST_HEAD st) (LIST_TAIL st) UINT32_MAX (Z.to_nat (CURR_MAX_LEVEL st)) ns;
  sr_ok : vault_ok L num (k_vault st) fl;
  sr_max : 1 <= CURR_MAX_LEVEL st <= Z.of_nat MAX_LEVEL;
  sr_preds : (MAX_LEVEL <= length (k_preds st))%nat;
  sr_succs : (MAX_LEVEL <= length (k_succs st))%nat;
}.

(** A request the kernel can serve: a key below the one of the tail sentinel, and for
    an addition a level that the list has. *)
Definition sk_legal (st : kst) (op param level : Z) : Prop :=
  0 <= param < UINT32_MAX /\ is_op skip_info op /\
  (op = ib_add skip_info -> 1 <= level <= CURR_MAX_LEVEL st).

#[local] Instance skip_laws : NodeMemLaws vault := vault_laws L num.

(** The search, on a list that satisfies the invariant. *)
Lemma kernel_find X fl st ns brk param :
  sk_ref X fl st ->
  skip_inv (k_vault st) (LIST_HEAD st) (LIST_TAIL st) UINT32_MAX (Z.to_nat (CURR_MAX_LEVEL st)) ns ->
  param < UINT32_MAX ->
  exists preds succs,
    find_levels (S (size (words (k_vault st)))) (k_vault st) brk param
      (Z.to_nat (CURR_MAX_LEVEL st)) (LIST_HEAD st) 0 (k_preds st) (k_succs st)
    = Ok (match_ptr param (highs param ns), preds, succs) /\
    length preds = length (k_preds st) /\ length succs = length (k_succs st) /\
    (brk = false \/ match_ptr param (highs param ns) = 0 ->
     (forall l, (l < Z.to_nat (CURR_MAX_LEVEL st))%nat ->
        arr_get preds l = Ok (pred_at (LIST_HEAD st) l (lows param ns))) /\
     (forall l, (l < Z.to_nat (CURR_MAX_LEVEL st))%nat ->
        arr_get succs l = Ok (succ_at (LIST_TAIL st) l (highs param ns)))).
Proof.
  intros [_ Hok Hm Hlp Hls] Hinv Hp.
  destruct (find_levels_spec (k_vault st) (LIST_HEAD st) (LIST_TAIL st) UINT32_MAX _ ns Hinv param Hp
    (S (size (words (k_vault st)))) brk (Z.to_nat (CURR_MAX_LEVEL st)) (LIST_HEAD st) 0
    (k_preds st) (k_succs st)) as (f & p & s & Hrun & Hf & Harr); try (cbn; lia); auto.
  { by eapply (vault_fuel L num). }
  destruct (Z.to_nat (CURR_MAX_LEVEL st)) as [|n] eqn:En; [lia|]. subst f.
  destruct (find_levels_length _ _ _ _ _ _ _ _ _ _ _ _ Hrun) as [Hl1 Hl2].
  exists p, s. split_and!; try done; intros Hb; destruct (Harr Hb) as (HP & HS & _); done.
Qed.

(** The addition of a key that is not in the list. *)
Lemma kernel_add S fl b st ns param level preds succs :
  sk_ref S (b :: fl) st -> S = skip_set ns ->
  skip_inv (k_vault st) (LIST_HEAD st) (LIST_TAIL st) UINT32_MAX (Z.to_nat (CURR_MAX_LEVEL st)) ns ->
  param < UINT32_MAX -> param ∉ skip_set ns -> 1 <= level <= CURR_MAX_LEVEL st ->
  (MAX_LEVEL <= length preds)%nat -> (MAX_LEVEL <= length succs)%nat ->
  (forall l, (l < Z.to_nat (CURR_MAX_LEVEL st))%nat ->
     arr_get preds l = Ok (pred_at (LIST_HEAD st) l (lows param ns))) ->
  (forall l, (l < Z.to_nat (CURR_MAX_LEVEL st))%nat ->
     arr_get succs l = Ok (succ_at (LIST_TAIL st) l (highs param ns))) ->
  exists v1 v2 v3 v4, alloc_memory_block (k_vault st) = Ok (v1, b) /\
    stw v1 b (f_top L) level = Ok v2 /\ stw v2 b 0 param = Ok v3 /\
    link_levels v3 b preds succs (seq 0 (Z.to_nat level)) = Ok v4 /\
    sk_ref ({[param]} ∪ S) fl (k_set_mem st preds succs v4).
Proof.
  intros Href -> Hinv Hp Hnin Hlev Hlp Hls HP HS. destruct Href as [_ Hok Hm _ _].
  destruct (vault_insert L num (k_vault st) b fl (LIST_HEAD st) (LIST_TAIL st) UINT32_MAX
    (Z.to_nat (CURR_MAX_LEVEL st)) ns param level preds succs)
    as (v1 & v2 & v3 & v4 & ns' & Ha & H2 & H3 & H4 & Hok4 & Hinv4 & Hset & _); try done; [lia|].
  exists v1, v2, v3, v4. split_and!; try done. split; cbn; try done. by exists ns'.
Qed.

(** The removal of a key of the list. *)
Lemma kernel_remove S fl st ns param f hi' preds succs :
  sk_ref S fl st -> S = skip_set ns ->
  skip_inv (k_vault st) (LIST_HEAD st) (LIST_TAIL st) UINT32_MAX (Z.to_nat (CURR_MAX_LEVEL st)) ns ->
  highs param ns = f :: hi' -> s_key f = param ->
  (MAX_LEVEL <= length preds)%nat -> (MAX_LEVEL <= length succs)%nat ->
  (forall l, (l < Z.to_nat (CURR_MAX_LEVEL st))%nat ->
     arr_get preds l = Ok (pred_at (LIST_HEAD st) l (lows param ns))) ->
  exists top v1, rd_top (k_vault st) (s_ptr f) = Ok top /\
    unlink_levels (k_vault st) (s_ptr f) preds (reverse (seq 0 (Z.to_nat top))) = Ok v1 /\
    sk_ref (S ∖ {[param]}) fl (k_set_mem st preds succs v1).
Proof.
  intros Href -> Hinv Ehi Hkf Hlp Hls HP. destruct Href as [_ Hok Hm _ _].
  destruct (hi_head_facts _ _ _ _ _ _ Hinv param f hi' Ehi) as (_ & Hr & _ & Htop & Hnf).
  destruct (skip_remove _ _ _ _ _ _ Hinv param f hi' preds (reverse (seq 0 (s_top f))))
    as (v1 & Hrun & _ & Hinv1); try done.
  { eapply NoDup_Permutation_proper; [apply reverse_Permutation|apply NoDup_seq]. }
  { intros l. rewrite elem_of_reverse, elem_of_seq. lia. }
  { intros l Hl. apply HP. lia. }
  exists (Z.of_nat (s_top f)), v1. rewrite Nat2Z.id. split_and!; try done.
  split; cbn; try done.
  - eexists. split; [|exact Hinv1]. symmetry. by eapply skip_set_remove.
  - eapply (unlink_levels_pres (fun m => vault_ok L num m fl)); [..|exact Hrun| |done].
    { intros m p l v m'. apply (vault_ok_wr L num). }
    intros l p Hl Hg. rewrite elem_of_reverse, elem_of_seq in Hl. rewrite HP in Hg by lia.
    injection Hg as <-. split; [cbn; lia|]. by eapply pred_node.
Qed.

(** One request: it is served as on a set of keys, or it is an addition that finds no
    free block, and the kernel writes through the null pointer. *)
Lemma exec_request_cases X fl st op param level :
  sk_ref X fl st -> sk_legal st op param level ->
  (exists st', exec_request st op param level = Ok (st', (key_spec X op param).2) /\
     sk_ref (key_spec X op param).1 (if bool_decide (op = ib_add skip_info /\ param ∉ X) then tail fl else fl) st' /\
     k_slots st' = k_slots st /\ k_op st' = k_op st /\ k_blocks st' = k_blocks st /\
     k_time st' = k_time st /\ CURR_MAX_LEVEL st' = CURR_MAX_LEVEL st) \/
  (fl = [] /\ op = ib_add skip_info /\ param ∉ X /\ exec_request st op param level = UB).
Proof.
  intros Href [[Hp0 Hp] [Hop Hlev]]. pose proof Href as [(ns & -> & Hinv) Hok Hm Hlp Hls].
  destruct (kernel_find _ fl st ns (negb (op =? ib_remove skip_info)) param Href Hinv Hp)
    as (preds & succs & Hfind & Hl1 & Hl2 & Harr).
  unfold exec_request. rewrite Hfind. cbn [mbind result_bind]. unfold key_spec, lop_of.
  assert (Hsame : sk_ref (skip_set ns) fl (k_set_mem st preds succs (k_vault st))).
  { split; cbn; try done; [by exists ns|lia|lia]. }
  destruct (match_ptr_cases _ _ _ _ _ _ Hinv param)
    as [[Hnin Hz]|(f & hi' & Ehi & Hkf & Hnz & Hmf & Hin)].
  - rewrite Hz, Z.eqb_refl.
    destruct (Z.eqb_spec op (ib_contains skip_info)) as [->|Hc]; [|destruct (Z.eqb_spec op (ib_add skip_info)) as [->|Ha]];
      cbn [lset_spec]; rewrite (decide_False (P := param ∈ _)) by done.
    + left. eexists. split; [done|]. rewrite bool_decide_false by (by intros [[=] _]). done.
    + destruct fl as [|b fl].
      { right. split_and!; try done. rewrite (alloc_none L num _ Hok). cbn [mbind result_bind].
        by rewrite (stw_null L num _ [] _ _ Hok). }
      left. destruct (Harr (or_intror Hz)) as [HP HS].
      destruct (kernel_add _ fl b st ns param level preds succs Href eq_refl Hinv Hp Hnin (Hlev eq_refl)
                  ltac:(lia) ltac:(lia) HP HS) as (v1 & v2 & v3 & v4 & Ha & H2 & H3 & H4 & Href').
      rewrite Ha. cbn [mbind result_bind]. rewrite H2. cbn [mbind result_bind]. rewrite H3.
      cbn [mbind result_bind]. rewrite H4. cbn [mbind result_bind].
      eexists. split; [done|]. by rewrite bool_decide_true.
    + left. eexists. split; [done|]. rewrite bool_decide_false by tauto. done.
  - rewrite Hmf, (proj2 (Z.eqb_neq _ 0) Hnz).
    destruct (Z.eqb_spec op (ib_contains skip_info)) as [->|Hc]; [|destruct (Z.eqb_spec op (ib_add skip_info)) as [->|Ha]];
      cbn [lset_spec]; rewrite (decide_True (P := param ∈ _)) by done; rewrite bool_decide_false by tauto.
    + left. eexists. split; [done|]. done.
    + left. eexists. split; [done|]. done.
    + left. assert (op = ib_remove skip_info) as ->.
      { unfold is_op in Hop. set_solver. }
      destruct (Harr (or_introl eq_refl)) as [HP _].
      destruct (kernel_remove _ fl st ns param f hi' preds succs Href eq_refl Hinv Ehi Hkf
                  ltac:(lia) ltac:(lia) HP) as (top & v1 & Htop & Hun & Href').
      rewrite Htop. cbn [mbind result_bind]. rewrite Hun. cbn [mbind result_bind].
      eexists. split; [done|]. done.
Qed.

(** ** A scan of the slots *)

Definition valid (s : request_slot) : bool :=
  negb (CHECK_VALID_REQUEST skip_info (info_bits s) =? 0).
Definition slot_op (s : request_slot) : Z := EXTRACT_OPERATION skip_info (info_bits s).

(** A slot after its request was answered with [r] at time [n]. *)
Definition answered (s : request_slot) (n r : Z) : request_slot :=
  mkReqSlot (CLEAR_REQUEST skip_info (SET_RETVAL (info_bits s) r)) (random_level s) (u16 n)
            (parameter s).

(** What a scan makes of the slots, given the set and the time: the reference. *)
Fixpoint served (X : gset Z) (n : Z) (l : list request_slot) : gset Z * Z * list request_slot :=
  match l with
  | [] => (X, n, [])
  | s :: l' =>
      if valid s then
        let '(X1, r) := key_spec X (slot_op s) (parameter s) in
        let '(X2, n2, l2) := served X1 (u32 (n + 1)) l' in
        (X2, n2, answered s n r :: l2)
      else let '(X2, n2, l2) := served X n l' in (X2, n2, s :: l2)
  end.

Definition slot_legal (st : kst) (s : request_slot) : Prop :=
  valid s = true -> sk_legal st (slot_op s) (parameter s) (random_level s).
Definition pending_add (s : request_slot) : bool :=
  valid s && (slot_op s =? ib_add skip_info).
(** The number of additions that wait to be served. *)
Definition adds (l : list request_slot) : nat := length (filter (fun s => pending_add s = true) l).

Lemma sk_ref_slots X fl st l n : sk_ref X fl st -> sk_ref X fl (k_set_time (k_set_slots st l) n).
Proof. intros [H1 H2 H3 H4 H5]. by split. Qed.

Lemma serve_slot_spec X fl st i s :
  sk_ref X fl st -> k_slots st !! i = Some s -> valid s = true ->
  sk_legal st (slot_op s) (parameter s) (random_level s) ->
  (slot_op s = ib_add skip_info -> fl <> []) ->
  exists st' fl', serve_slot st i = Ok st' /\
    sk_ref (key_spec X (slot_op s) (parameter s)).1 fl' st' /\
    k_slots st' = <[i := answered s (k_time st) (key_spec X (slot_op s) (parameter s)).2]> (k_slots st) /\
    k_time st' = u32 (k_time st + 1) /\ CURR_MAX_LEVEL st' = CURR_MAX_LEVEL st /\
    k_op st' = k_op st /\
    (length fl <= length fl' + (if (slot_op s =? ib_add skip_info)%Z then 1 else 0))%nat.
Proof.
  intros Href Hs Hv Hleg Hroom. unfold serve_slot. rewrite Hs. cbn [of_opt mbind result_bind].
  unfold valid in Hv. rewrite (proj1 (negb_true_iff _) Hv). fold (slot_op s).
  destruct (exec_request_cases X fl st (slot_op s) (parameter s) (random_level s) Href Hleg)
    as [(st1 & Hrun & Href1 & Hsl & Hop & Hbl & Htm & Hcm)|(-> & Hadd & _)]; [|by destruct (Hroom Hadd)].
  rewrite Hrun. cbn [mbind result_bind]. rewrite Hsl, Hs. cbn [of_opt mbind result_bind].
  assert (Hi : (i < length (k_slots st))%nat) by by eapply lookup_lt_Some.
  unfold k_put. cbn [k_slots k_set_slots k_set_time k_time]. rewrite Hsl.
  rewrite list_lookup_insert_eq by done. cbn [of_opt mbind result_bind].
  rewrite list_insert_insert_eq, list_lookup_insert_eq by done. cbn [of_opt mbind result_bind].
  rewrite list_insert_insert_eq. eexists _, _. split; [done|].
  cbn [k_slots k_time k_op CURR_MAX_LEVEL k_set_slots k_set_time]. rewrite Htm.
  split_and!; try done.
  - destruct Href1 as [? ? ? ? ?]. by split.
  - destruct (slot_op s =? ib_add skip_info) eqn:E; case_bool_decide as Hb; try lia.
    destruct fl; simpl; lia.
Qed.

Lemma serve_slot_idle st i s : k_slots st !! i = Some s -> valid s = false -> serve_slot st i = Ok st.
Proof.
  intros Hs Hv. unfold serve_slot. rewrite Hs. cbn [of_opt mbind result_bind].
  unfold valid in Hv. by rewrite (proj1 (negb_false_iff _) Hv).
Qed.

Lemma adds_cons s l : adds (s :: l) = ((if pending_add s then 1 else 0) + adds l)%nat.
Proof.
  unfold adds. rewrite filter_cons. destruct (pending_add s) eqn:E; by rewrite ?decide_True, ?decide_False by congruence.
Qed.

Lemma scan_spec todo : forall X fl st done,
  sk_ref X fl st -> k_slots st = done ++ todo -> Forall (slot_legal st) todo ->
  (adds todo <= length fl)%nat ->
  exists st' fl', scan st (seq (length done) (length todo)) = Ok st' /\
    sk_ref (served X (k_time st) todo).1.1 fl' st' /\
    k_slots st' = done ++ (served X (k_time st) todo).2 /\
    k_time st' = (served X (k_time st) todo).1.2 /\ k_op st' = k_op st /\
    CURR_MAX_LEVEL st' = CURR_MAX_LEVEL st /\ (length fl <= length fl' + adds todo)%nat.
Proof.
  induction todo as [|s todo IH]; intros X fl st dn Href Hsl Hleg Hroom; cbn [length seq scan served].
  { exists st, fl. rewrite Hsl. split_and!; try done. lia. }
  apply Forall_cons in Hleg as [Hl Hleg]. rewrite adds_cons in Hroom.
  assert (Hs : k_slots st !! length dn = Some s) by (rewrite Hsl; by apply list_lookup_middle).
  destruct (valid s) eqn:Hv.
  - destruct (serve_slot_spec X fl st (length dn) s Href Hs Hv (Hl Hv))
      as (st1 & fl1 & Hrun & Href1 & Hsl1 & Htm1 & Hcm1 & Hop1 & Hlen1).
    { intros Ha ->. unfold pending_add in Hroom. rewrite Hv, Ha, Z.eqb_refl in Hroom. simpl in Hroom. lia. }
    rewrite Hrun. cbn [mbind result_bind].
    destruct (key_spec X (slot_op s) (parameter s)) as [X1 r]. simpl in *.
    destruct (IH X1 fl1 st1 (dn ++ [answered s (k_time st) r])) as (st2 & fl2 & Hrun2 & Href2 & Hsl2 & Htm2 & Hop2 & Hcm2 & Hlen2).
    + done.
    + rewrite Hsl1, Hsl. rewrite <- app_assoc. simpl.
      rewrite <- (Nat.add_0_r (length dn)), insert_app_r. done.
    + eapply Forall_impl; [exact Hleg|]. intros x Hx Hvx. specialize (Hx Hvx).
      unfold sk_legal in *. by rewrite Hcm1.
    + unfold pending_add in Hroom. rewrite Hv in Hroom. simpl in Hroom. lia.
    + rewrite length_app in Hrun2. simpl in Hrun2. rewrite Nat.add_1_r in Hrun2.
      rewrite Htm1 in *. destruct (served X1 (u32 (k_time st + 1)) todo) as [[X2 n2] l2]. simpl in *.
      exists st2, fl2. split_and!; try done; try congruence; [by rewrite Hsl2, <- app_assoc|].
      rewrite adds_cons. unfold pending_add. rewrite Hv. simpl in *. lia.
  - rewrite (serve_slot_idle st _ s Hs Hv). cbn [mbind result_bind].
    destruct (IH X fl st (dn ++ [s])) as (st2 & fl2 & Hrun2 & Href2 & Hsl2 & Htm2 & Hop2 & Hcm2 & Hlen2); try done.
    + by rewrite Hsl, <- app_assoc.
    + unfold pending_add in Hroom. rewrite Hv in Hroom. simpl in Hroom. lia.
    + rewrite length_app in Hrun2. simpl in Hrun2. rewrite Nat.add_1_r in Hrun2.
      destruct (served X (k_time st) todo) as [[X2 n2] l2]. simpl in *.
      exists st2, fl2. split_and!; try done; [by rewrite Hsl2, <- app_assoc|].
      rewrite adds_cons. unfold pending_add. rewrite Hv. simpl. lia.
Qed.

Lemma kernel_init_spec st :
  fresh_vault L num (words (k_vault st)) -> (2 <= num)%nat ->
  1 <= CURR_MAX_LEVEL st <= Z.of_nat MAX_LEVEL ->
  (MAX_LEVEL <= length (k_preds st))%nat -> (MAX_LEVEL <= length (k_succs st))%nat ->
  exists st' fl, kernel_init st = Ok st' /\ sk_ref ∅ fl st' /\ length fl = (num - 2)%nat /\
    k_slots st' = k_slots st /\ k_op st' = k_op st /\ k_blocks st' = Z.of_nat num /\ k_time st' = 0.
Proof.
  intros [Hpool Hlow] Hnum Hm Hlp Hls.
  destruct (list_init_ok L num (words (k_vault st)) (Z.to_nat (CURR_MAX_LEVEL st)))
    as (v & head & tail & fl & Hrun & Hok & Hlen & Hinv & _); try done; [cbn; lia|].
  unfold kernel_init. rewrite Hrun. cbn [mbind result_bind]. eexists _, fl. split; [done|].
  split_and!; try done. split; cbn; try done. by exists [].
Qed.

(** ** The host's initial insertions *)

(** One round of the loop of [main] that fills the list: the request is written to
    slot 0, the kernel serves it, and the host reads the bits back.  [b] are the bits
    the host keeps between the rounds. *)
Definition initial_add (st : kst) (b key level : Z) : result (kst * Z * Z) :=
  s ← of_opt (k_slots st !! 0%nat);
  let b1 := SET_REQUEST skip_info b in
  let st1 := k_put st 0 (mkReqSlot b1 level (timestamp s) key) in
  '(st2, _) ← kernel_iter st1;
  s2 ← of_opt (k_slots st2 !! 0%nat);
  Ok (st2, info_bits s2, GET_RETVAL (info_bits s2)).

(** The loop for the keys and levels drawn; [size] counts the successful ones. *)
Fixpoint initial_fill (st : kst) (b : Z) (ks : list (Z * Z)) (size : Z) : result (kst * Z * Z) :=
  match ks with
  | [] => Ok (st, b, size)
  | (key, level) :: ks' =>
      '(st1, b1, pim_res) ← initial_add st b key level;
      initial_fill st1 b1 ks' (if pim_res =? 1 then size + 1 else size)
  end.

Lemma served_idle X n l : Forall (fun s => valid s = false) l -> served X n l = (X, n, l).
Proof.
  induction 1 as [|s l Hs _ IH]; [done|]. cbn [served]. by rewrite Hs, IH.
Qed.

(** The device when only the main thread uses it: in the mode of list operations, with
    slot 0 present and the other slots without requests. *)
Definition ready (st : kst) : Prop :=
  1 <= k_op st < 3 /\ exists s rest, k_slots st = s :: rest /\ Forall (fun s => valid s = false) rest.

Lemma initial_add_spec X fl st b key level :
  sk_ref X fl st -> ready st -> CHECK_VALID_REQUEST skip_info b = 0 ->
  EXTRACT_OPERATION skip_info b = ib_add skip_info ->
  0 <= key < UINT32_MAX -> 1 <= level <= CURR_MAX_LEVEL st -> fl <> [] ->
  exists st' fl' b', initial_add st b key level = Ok (st', b', GET_RETVAL b') /\
    sk_ref ({[key]} ∪ X) fl' st' /\ ready st' /\ CURR_MAX_LEVEL st' = CURR_MAX_LEVEL st /\
    CHECK_VALID_REQUEST skip_info b' = 0 /\ EXTRACT_OPERATION skip_info b' = ib_add skip_info /\
    GET_RETVAL b' = Z.lor (GET_RETVAL b) (if decide (key ∈ X) then 0 else 1) /\
    (length fl <= length fl' + 1)%nat.
Proof.
  intros Href [Hmode (s & rest & Hsl & Hrest)] Hcv Hop Hkey Hlev Hfl.
  destruct (set_request_bits skip_info b Hcv) as (Hv1 & Ho1 & Hr1).
  set (s1 := mkReqSlot (SET_REQUEST skip_info b) level (timestamp s) key).
  assert (Hvs : valid s1 = true) by (apply negb_true_iff, Z.eqb_neq; exact Hv1).
  assert (Hos : slot_op s1 = ib_add skip_info) by (unfold slot_op; cbn [info_bits s1]; congruence).
  unfold initial_add. rewrite Hsl. cbn [lookup list_lookup of_opt mbind result_bind]. fold s1.
  set (st1 := k_put st 0 s1).
  assert (Hsl1 : k_slots st1 = s1 :: rest) by (unfold st1, k_put; cbn; by rewrite Hsl).
  unfold kernel_iter. change (k_op st1) with (k_op st).
  rewrite (proj2 (Z.eqb_neq (k_op st) 0)) by lia.
  destruct (Z.leb_spec 3 (k_op st)); [lia|].
  assert (Hadds : adds (s1 :: rest) = 1%nat).
  { rewrite adds_cons. unfold pending_add at 1. rewrite Hvs, Hos, Z.eqb_refl. simpl.
    unfold adds. rewrite filter_none; [done|]. eapply Forall_impl; [exact Hrest|].
    intros x Hx. unfold pending_add. by rewrite Hx. }
  destruct (scan_spec (s1 :: rest) X fl st1 []) as (st2 & fl2 & Hrun & Href2 & Hsl2 & _ & Hop2 & Hcm2 & Hlen2).
  - destruct Href as [? ? ? ? ?]. by split.
  - done.
  - constructor.
    + intros _. rewrite Hos. split; [exact Hkey|]. split; [unfold is_op; set_solver|].
      intros _. exact Hlev.
    + eapply Forall_impl; [exact Hrest|]. intros x Hx Hvx. congruence.
  - rewrite Hadds. destruct fl; [done|simpl; lia].
  - rewrite Hsl1. cbn [length] in Hrun |- *. rewrite Hrun. cbn [mbind result_bind].
    cbn [served] in Hsl2, Href2. rewrite Hvs, Hos in Hsl2, Href2. cbn [parameter s1] in Hsl2, Href2.
    change (key_spec X (ib_add skip_info) key) with (lset_spec X LAdd key) in Hsl2, Href2.
    assert (Hspec : lset_spec X LAdd key = ({[key]} ∪ X, if decide (key ∈ X) then 0 else 1)).
    { cbn [lset_spec]. destruct (decide (key ∈ X)); [|done]. f_equal. set_solver. }
    rewrite Hspec, (served_idle _ _ rest Hrest) in Hsl2, Href2. simpl in Hsl2, Href2.
    rewrite Hsl2. cbn [lookup list_lookup of_opt mbind result_bind].
    set (r := if decide (key ∈ X) then 0 else 1) in *.
    assert (Hr : 0 <= r <= 1) by (unfold r; destruct (decide _); lia).
    destruct (set_retval_bits skip_info (info_bits s1) r Hr) as (Hv2 & Ho2 & Hg2).
    destruct (clear_request_bits skip_info (SET_RETVAL (info_bits s1) r)) as (Hv3 & Hg3 & Ho3).
    eexists st2, fl2, _. split; [done|]. cbn [info_bits answered].
    rewrite Hg3, Hg2, Ho3, Ho2, Hv3, Hcm2. cbn [info_bits s1]. rewrite Hr1, Ho1.
    split_and!; try done.
    + split; [rewrite Hop2; exact Hmode|]. rewrite Hsl2. eauto.
    + rewrite Hadds in Hlen2. lia.
Qed.

Lemma initial_fill_spec ks : forall X fl st b size,
  sk_ref X fl st -> ready st -> CHECK_VALID_REQUEST skip_info b = 0 ->
  EXTRACT_OPERATION skip_info b = ib_add skip_info -> GET_RETVAL b = 1 ->
  Forall (fun x => 0 <= x.1 < UINT32_MAX /\ 1 <= x.2 <= CURR_MAX_LEVEL st) ks ->
  (length ks <= length fl)%nat ->
  exists st' fl' b', initial_fill st b ks size = Ok (st', b', size + Z.of_nat (length ks)) /\
    sk_ref (list_to_set ks.*1 ∪ X) fl' st'.
Proof.
  induction ks as [|[key level] ks IH]; intros X fl st b size Href Hrd Hcv Hop Hret Hks Hlen.
  { exists st, fl, b. cbn [initial_fill length]. rewrite Z.add_0_r. split; [done|].
    cbn [fmap list_fmap list_to_set]. rewrite union_empty_l_L. exact Href. }
  apply Forall_cons in Hks as [[Hk Hl] Hks]. simpl in Hk, Hl, Hlen.
  destruct (initial_add_spec X fl st b key level Href Hrd Hcv Hop Hk Hl) as
    (st1 & fl1 & b1 & Hrun & Href1 & Hrd1 & Hcm1 & Hcv1 & Hop1 & Hg1 & Hlen1);
    [intros ->; simpl in Hlen; lia|].
  assert (Hb1 : GET_RETVAL b1 = 1) by (rewrite Hg1, Hret; by destruct (decide _)).
  destruct (IH ({[key]} ∪ X) fl1 st1 b1 (size + 1)) as (st2 & fl2 & b2 & Hrun2 & Href2); try done.
  { by rewrite Hcm1. }
  { lia. }
  exists st2, fl2, b2. cbn [initial_fill]. rewrite Hrun. cbn [mbind result_bind]. rewrite Hb1, Z.eqb_refl.
  rewrite Hrun2. split; [f_equal; f_equal; simpl; lia|].
  cbn [fmap list_fmap list_to_set fst]. by rewrite (union_comm_L {[key]} (list_to_set _)), <- union_assoc_L.
Qed.

(** After a scan no slot holds a request. *)
Lemma served_done X n l : Forall (fun s => valid s = false) (served X n l).2.
Proof.
  revert X n. induction l as [|s l IH]; intros X n; [constructor|]. cbn [served].
  destruct (valid s) eqn:Hv.
  - destruct (key_spec X (slot_op s) (parameter s)) as [X1 r].
    specialize (IH X1 (u32 (n + 1))). destruct (served X1 (u32 (n + 1)) l) as [[X2 n2] l2].
    constructor; [|done]. unfold valid. cbn [info_bits answered].
    by destruct (clear_request_bits skip_info (SET_RETVAL (info_bits s) r)) as (-> & _).
  - specialize (IH X n). destruct (served X n l) as [[X2 n2] l2]. by constructor.
Qed.

(** Without a free block an addition of a new key has no result. *)
Lemma exec_full X st param level st1 r : sk_ref X [] st ->
  0 <= param < UINT32_MAX -> param ∉ X ->
  exec_request st (ib_add skip_info) param level = Ok (st1, r) -> False.
Proof.
  intros Href [_ Hp] Hnin Hrun. pose proof Href as [(ns & -> & Hinv) Hok _ _ _].
  destruct (kernel_find _ [] st ns true param Href Hinv Hp) as (preds & succs & Hfind & _).
  unfold exec_request in Hrun.
  change (negb (ib_add skip_info =? ib_remove skip_info)) with true in Hrun. rewrite Hfind in Hrun.
  cbn [mbind result_bind] in Hrun.
  change (ib_add skip_info =? ib_contains skip_info) with false in Hrun.
  change (ib_add skip_info =? ib_add skip_info) with true in Hrun. cbn iota in Hrun.
  destruct (match_ptr_cases _ _ _ _ _ _ Hinv param) as [[_ Hz]|(f & hi' & _ & _ & _ & _ & Hin)]; [|done].
  rewrite Hz, Z.eqb_refl, (alloc_none L num _ Hok) in Hrun. cbn [mbind result_bind] in Hrun.
  by rewrite (stw_null L num _ [] _ _ Hok) in Hrun.
Qed.

End kernel.

(** The bits of a request fit their field. *)
Lemma request_range I b op : I = skip_info \/ I = list_info ->
  op ∈ [ib_add I; ib_remove I; ib_contains I] ->
  0 <= SET_REQUEST I (SET_OPERATION I b op) < 2 * ib_valid I.
Proof.
  intros HI Hop. set (x := SET_REQUEST I (SET_OPERATION I b op)).
  assert (E : exists n, 0 <= n /\ 2 ^ n = 2 * ib_valid I /\ Z.land x (Z.ones n) = x).
  { unfold x, SET_REQUEST, SET_OPERATION.
    destruct HI as [->| ->]; [exists 8|exists 16]; (split_and!; [lia|reflexivity|]);
      rewrite !Z.land_lor_distr_l, <- Z.land_assoc;
      repeat (apply elem_of_cons in Hop as [->|Hop]; [reflexivity|]); set_solver. }
  destruct E as (n & Hn & Hp & E). rewrite Z.land_ones in E by done.
  rewrite <- E, <- Hp. apply Z.mod_pos_bound. lia.
Qed.

(** ** Properties *)

(** The information bits.  Whatever the bits of the previous request, for both
    applications: the bits that the host writes carry the operation and, once
    SET_REQUEST was applied, count as a request; the kernel extracts the same
    operation; after it has set the answer and cleared the request the host reads
    exactly that answer and sees no request. *)
Theorem info_bits_round_trip I b op r :
  I = skip_info \/ I = list_info -> op ∈ [ib_add I; ib_remove I; ib_contains I] -> 0 <= r <= 1 ->
  let b1 := SET_OPERATION I b op in
  let b2 := SET_REQUEST I b1 in
  let b3 := CLEAR_REQUEST I (SET_RETVAL b2 r) in
  CHECK_VALID_REQUEST I b1 = 0 /\ CHECK_VALID_REQUEST I b2 <> 0 /\ EXTRACT_OPERATION I b2 = op /\
  CHECK_VALID_REQUEST I (SET_RETVAL b2 r) <> 0 /\
  CHECK_VALID_REQUEST I b3 = 0 /\ GET_RETVAL b3 = r /\
  0 <= b2 < 2 * ib_valid I.
Proof.
  intros HI Hop Hr. assert (InfoLaws I) by (destruct HI as [->| ->]; apply _). cbn zeta.
  destruct (set_operation_bits I b op Hop) as (Hv1 & Ho1 & Hg1).
  destruct (set_request_bits I _ Hv1) as (Hv2 & Ho2 & Hg2).
  destruct (set_retval_bits I (SET_REQUEST I (SET_OPERATION I b op)) r Hr) as (Hv3 & _ & Hg3).
  destruct (clear_request_bits I (SET_RETVAL (SET_REQUEST I (SET_OPERATION I b op)) r)) as (Hv4 & Hg4 & _).
  split_and!; try done; try congruence.
  - rewrite Hg4, Hg3, Hg2, Hg1. apply Z.lor_0_l.
  - apply (request_range I b op); [|done]. destruct HI; auto.
  - apply (request_range I b op); [|done]. destruct HI; auto.
Qed.

(** The kernel's initialisation.  With SREG[0] = 0 and a vault of at least two
    blocks, one iteration of the kernel's loop ends, leaves an empty list of which
    all blocks but the two sentinels are free, reports the number of blocks in
    SREG[1] and switches to list operations. *)
Theorem pim_kernel_init MAX_LEVEL num st :
  k_op st = 0 -> fresh_vault (skip_layout MAX_LEVEL) num (words (k_vault st)) -> (2 <= num)%nat ->
  1 <= CURR_MAX_LEVEL st <= Z.of_nat MAX_LEVEL ->
  (MAX_LEVEL <= length (k_preds st))%nat -> (MAX_LEVEL <= length (k_succs st))%nat ->
  exists st' fl, kernel_iter MAX_LEVEL num st = Ok (st', true) /\
    sk_ref MAX_LEVEL num ∅ fl st' /\ length fl = (num - 2)%nat /\ k_op st' = 1 /\
    k_blocks st' = Z.of_nat num /\ k_slots st' = k_slots st.
Proof.
  intros Hop Hv Hnum Hm Hp Hs.
  destruct (kernel_init_spec MAX_LEVEL num st Hv Hnum Hm Hp Hs)
    as (st1 & fl & Hrun & Href & Hlen & Hsl & _ & Hbl & _).
  unfold kernel_iter. rewrite Hop, Z.eqb_refl, Hrun. cbn [mbind result_bind].
  exists (k_set_op st1 1), fl. split_and!; try done. by destruct Href; split.
Qed.

(** One iteration of the kernel's loop over the request slots refines a set of
    keys.  If the requests name keys below the sentinel's and levels of the list,
    and the vault has room for the additions, the iteration ends; every request is
    executed once, in the order of the slots, with the answer of the set in its
    return bit, a timestamp, and its request bit cleared; slots without a request
    are left alone. *)
Theorem pim_scan_set MAX_LEVEL num X fl st :
  sk_ref MAX_LEVEL num X fl st -> 1 <= k_op st < 3 -> Forall (slot_legal st) (k_slots st) ->
  (adds (k_slots st) <= length fl)%nat ->
  exists st' fl', kernel_iter MAX_LEVEL num st = Ok (st', true) /\
    let '(X', n', slots') := served X (k_time st) (k_slots st) in
    sk_ref MAX_LEVEL num X' fl' st' /\ k_time st' = n' /\ k_slots st' = slots' /\
    Forall (fun s => valid s = false) slots' /\ (length fl <= length fl' + adds (k_slots st))%nat.
Proof.
  intros Href Hop Hleg Hroom.
  destruct (scan_spec MAX_LEVEL num (k_slots st) X fl st [] Href eq_refl Hleg Hroom)
    as (st' & fl' & Hrun & Href' & Hsl & Htm & _ & _ & Hlen).
  unfold kernel_iter. rewrite (proj2 (Z.eqb_neq (k_op st) 0)) by lia.
  destruct (Z.leb_spec 3 (k_op st)); [lia|]. simpl length in Hrun. rewrite Hrun. cbn [mbind result_bind].
  exists st', fl'. split; [done|].
  pose proof (served_done X (k_time st) (k_slots st)) as Hd.
  destruct (served X (k_time st) (k_slots st)) as [[X' n'] l']. simpl in *. by subst.
Qed.

(** A full vault.  The addition of a new key when no block is free makes the
    kernel write through the null pointer that alloc_memory_block returns: unlike
    the linked-list kernel, it does not test the pointer. *)
Theorem pim_add_out_of_memory MAX_LEVEL num X st i s :
  sk_ref MAX_LEVEL num X [] st -> k_slots st !! i = Some s -> valid s = true ->
  slot_op s = ib_add skip_info -> 0 <= parameter s < UINT32_MAX -> parameter s ∉ X ->
  1 <= random_level s <= CURR_MAX_LEVEL st ->
  serve_slot MAX_LEVEL num st i = UB.
Proof.
  intros Href Hs Hv Hop Hkey Hnin Hlev. unfold serve_slot. rewrite Hs. cbn [of_opt mbind result_bind].
  unfold valid in Hv. rewrite (proj1 (negb_true_iff _) Hv). fold (slot_op s). rewrite Hop.
  destruct (exec_request_cases MAX_LEVEL num X [] st (ib_add skip_info) (parameter s) (random_level s) Href)
    as [(st1 & Hrun & Href1 & _)|(_ & _ & _ & ->)]; [|exfalso|done].
  - split; [done|]. split; [unfold is_op; set_solver|done].
  - exact (exec_full MAX_LEVEL num X st (parameter s) (random_level s) st1 _ Href Hkey Hnin Hrun).
Qed.

(** The host's initial insertions overcount.  The loop of [main] sets the operation
    once, so the return bit of the first successful addition stays set, and every later
    round counts as successful, also when the key is in the list already: after [ks]
    the loop has counted one per round, while the list holds the distinct keys. *)
Theorem pim_initial_fill_overcounts MAX_LEVEL num fl st b k0 l0 ks :
  sk_ref MAX_LEVEL num ∅ fl st -> ready st ->
  0 <= k0 < UINT32_MAX -> 1 <= l0 <= CURR_MAX_LEVEL st ->
  Forall (fun x => 0 <= x.1 < UINT32_MAX /\ 1 <= x.2 <= CURR_MAX_LEVEL st) ks ->
  (S (length ks) <= length fl)%nat ->
  exists st' fl' b',
    initial_fill MAX_LEVEL num st (SET_OPERATION skip_info b (ib_add skip_info)) ((k0, l0) :: ks) 0 =
      Ok (st', b', 1 + Z.of_nat (length ks)) /\
    sk_ref MAX_LEVEL num (list_to_set (k0 :: ks.*1)) fl' st'.
Proof.
  intros Href Hrd Hk0 Hl0 Hks Hlen.
  destruct (set_operation_bits skip_info b (ib_add skip_info)) as (Hv & Ho & Hg); [unfold is_op; set_solver|].
  destruct (initial_add_spec MAX_LEVEL num ∅ fl st _ k0 l0 Href Hrd Hv Ho Hk0 Hl0) as
    (st1 & fl1 & b1 & Hrun & Href1 & Hrd1 & Hcm1 & Hcv1 & Hop1 & Hg1 & Hlen1);
    [intros ->; simpl in Hlen; lia|].
  rewrite Hg in Hg1. rewrite decide_False in Hg1 by set_solver. simpl in Hg1.
  destruct (initial_fill_spec MAX_LEVEL num ks _ fl1 st1 b1 1 Href1 Hrd1 Hcv1 Hop1 Hg1) as
    (st2 & fl2 & b2 & Hrun2 & Href2); [by rewrite Hcm1|lia|].
  exists st2, fl2, b2. cbn [initial_fill]. rewrite Hrun. cbn [mbind result_bind].
  rewrite Hg1, Z.eqb_refl. change (0 + 1) with 1. split; [exact Hrun2|].
  replace (list_to_set (k0 :: ks.*1)) with (list_to_set ks.*1 ∪ ({[k0]} ∪ ∅) : gset Z); [exact Href2|].
  cbn [list_to_set]. set_solver.
Qed.

(** ** Instances of the properties *)

(** A vault of [n] blocks for nodes of two levels. *)
Definition demo_boot (n : nat) (slots : list request_slot) : kst :=
  mkK 0 0 0 0 0 2 slots (arr_new 2) (arr_new 2) (mkVault (zero_words (skip_layout 2) n) 0).

Lemma demo_fresh n slots : fresh_vault (skip_layout 2) n (words (k_vault (demo_boot n slots))).
Proof. apply zero_words_fresh. Qed.

(** An idle slot, and requests as the host writes them. *)
Definition idle_slot : request_slot := mkReqSlot 0 0 0 0.
Definition demo_slot (op key level : Z) : request_slot :=
  mkReqSlot (SET_REQUEST skip_info (SET_OPERATION skip_info 0 op)) level 0 key.

Lemma info_bits_round_trip_witness :
  let b := SET_REQUEST skip_info (SET_OPERATION skip_info 0x41 (ib_remove skip_info)) in
  EXTRACT_OPERATION skip_info b = 0x20 /\ GET_RETVAL (CLEAR_REQUEST skip_info (SET_RETVAL b 1)) = 1.
Proof.
  destruct (info_bits_round_trip skip_info 0x41 (ib_remove skip_info) 1) as (_ & _ & H1 & _ & _ & H2 & _).
  - left. reflexivity.
  - set_solver.
  - lia.
  - split; [exact H1|exact H2].
Defined.

Lemma pim_kernel_init_witness :
  exists st' fl, kernel_iter 2 5 (demo_boot 5 [idle_slot]) = Ok (st', true) /\ sk_ref 2 5 ∅ fl st' /\
    length fl = 3%nat.
Proof.
  destruct (pim_kernel_init 2 5 (demo_boot 5 [idle_slot])) as (st' & fl & H1 & H2 & H3 & _).
  - reflexivity.
  - apply demo_fresh.
  - lia.
  - cbn. lia.
  - cbn. lia.
  - cbn. lia.
  - exists st', fl. split; [exact H1|]. split; [exact H2|exact H3].
Defined.

(** The device after initialisation, with the given slots. *)
Definition demo_device (n : nat) (slots : list request_slot) : kst :=
  match kernel_init 2 n (demo_boot n slots) with Ok st => k_set_op st 1 | _ => demo_boot n slots end.

Lemma demo_device_ref n slots : (2 <= n)%nat ->
  exists fl, sk_ref 2 n ∅ fl (demo_device n slots) /\ length fl = (n - 2)%nat /\
    k_slots (demo_device n slots) = slots /\ k_op (demo_device n slots) = 1 /\
    CURR_MAX_LEVEL (demo_device n slots) = 2.
Proof.
  intros Hn. destruct (kernel_init_spec 2 n (demo_boot n slots)) as (st & fl & Hrun & Href & Hlen & Hsl & _);
    [apply demo_fresh|lia|cbn; lia|cbn; lia|cbn; lia|].
  unfold demo_device. rewrite Hrun. exists fl. split_and!; try done; [by destruct Href; split|].
  unfold kernel_init in Hrun. run_inv. done.
Qed.

Lemma pim_scan_set_witness :
  exists st', kernel_iter 2 5 (demo_device 5 [demo_slot 0x40 7 1; idle_slot; demo_slot 0x60 7 0]) =
      Ok (st', true) /\
    GET_RETVAL <$> (info_bits <$> k_slots st') = [1; 0; 1].
Proof.
  destruct (demo_device_ref 5 [demo_slot 0x40 7 1; idle_slot; demo_slot 0x60 7 0]) as
    (fl & Href & Hlen & Hsl & Hop & Hcm); [lia|].
  destruct (pim_scan_set 2 5 ∅ fl _ Href) as (st' & fl' & H1 & H2).
  - rewrite Hop. lia.
  - rewrite Hsl. unfold slot_legal, sk_legal. rewrite Hcm.
    constructor; [|constructor; [|constructor; [|constructor]]].
    + intros _. split; [unfold UINT32_MAX; cbn; lia|]. split; [|cbn; lia].
      apply elem_of_cons. left. reflexivity.
    + intros Hv. discriminate Hv.
    + intros _. split; [unfold UINT32_MAX; cbn; lia|]. split; [|intros E; discriminate E].
      apply elem_of_cons. right. apply elem_of_cons. right. apply elem_of_cons. left. reflexivity.
  - rewrite Hsl, Hlen. vm_compute. lia.
  - exists st'. split; [exact H1|]. revert H2. rewrite Hsl.
    destruct (served ∅ (k_time (demo_device 5 _)) _) as [[X n] l] eqn:E. intros (_ & _ & -> & _).
    vm_compute in E. injection E as _ _ <-. reflexivity.
Defined.

Lemma pim_add_out_of_memory_witness :
  serve_slot 2 2 (demo_device 2 [demo_slot 0x40 7 1]) 0 = UB.
Proof.
  destruct (demo_device_ref 2 [demo_slot 0x40 7 1]) as (fl & Href & Hlen & Hsl & Hop & Hcm); [lia|].
  destruct fl; [|discriminate Hlen].
  apply (pim_add_out_of_memory 2 2 ∅ (demo_device 2 [demo_slot 0x40 7 1]) 0 (demo_slot 0x40 7 1)).
  - exact Href.
  - rewrite Hsl. reflexivity.
  - reflexivity.
  - reflexivity.
  - cbn. unfold UINT32_MAX. lia.
  - apply not_elem_of_empty.
  - rewrite Hcm. cbn. lia.
Defined.

(** The same key twice: two additions counted, one key stored. *)
Lemma pim_initial_fill_overcounts_witness :
  exists st' b' fl', initial_fill 2 6 (demo_device 6 [idle_slot])
      (SET_OPERATION skip_info 0 (ib_add skip_info)) [(7, 1); (7, 2)] 0 = Ok (st', b', 2) /\
    sk_ref 2 6 (list_to_set [7; 7]) fl' st'.
Proof.
  destruct (demo_device_ref 6 [idle_slot]) as (fl & Href & Hlen & Hsl & Hop & Hcm); [lia|].
  destruct (pim_initial_fill_overcounts 2 6 fl (demo_device 6 [idle_slot]) 0 7 1 [(7, 2)])
    as (st' & fl' & b' & H1 & H2).
  - exact Href.
  - split; [rewrite Hop; lia|]. rewrite Hsl. exists idle_slot, []. split; [reflexivity|constructor].
  - unfold UINT32_MAX. lia.
  - rewrite Hcm. lia.
  - rewrite Hcm. constructor; [cbn; unfold UINT32_MAX; lia|constructor].
  - rewrite Hlen. cbn. lia.
  - exists st', b', fl'. split; [exact H1|exact H2].
Defined.
