(* ===== verification/PimProtocol.v ===== *)
(** * Host threads and the PIM kernel

    The threads of multithread_nonstop_pim_skiplist/main.cc and the kernel of
    clean_skiplist.c run at the same time and communicate through the request slots:
    a thread writes its slot field by field and polls it, the kernel scans the slots
    and writes the answers.  A step is one access to a slot or to a scalar register,
    or the search and update of the list, which only the kernel touches; the
    read-modify-write of the information bits by the kernel is two steps.  The
    theorems say that every history is linearizable to a set of keys and that the
    kernel never follows a wild pointer while blocks are free. *)

From S2P Require Import Prelude SkipCore ListCore FCSkipList History PimVault PimSkip.

(** ** Threads *)

(** The level drawn from a value [r] of [rand()] ([random_level] of main.cc). *)
Definition draw_level (curr_max_level r : Z) : result Z :=
  let x := u32 (Z.rem r (Z.shiftl 1 curr_max_level)) in
  if negb (Z.land x 0x80000001 =? 0) then Ok 1
  else
    level ← level_loop 32 x 2;
    Ok (if curr_max_level - 1 <? level then u8 (curr_max_level - 1) else level).

(** Where a thread is in the loop of [skiplist_ops_routine]; [r] is the value of
    [rand()] that an addition will use. *)
Inductive hpc :=
  | HIdle
  | HParam (op param r : Z)   (* write_parameter *)
  | HInfo (op param r : Z)    (* SET_OPERATION, write_skiplist_info_bits *)
  | HLevel (op param r : Z)   (* write_skiplist_random_level, additions only *)
  | HReq (op param r : Z)     (* SET_REQUEST, write_skiplist_info_bits *)
  | HPoll                     (* while (CHECK_VALID_REQUEST(...)) read_skiplist_info_bits *)
  | HDone.                    (* GET_RETVAL *)

(** [h_bits] is [request_slot.info_bits] of the thread, which survives from one
    operation to the next. *)
Record hthread := mkHost { h_pc : hpc; h_bits : Z }.

(** Where the kernel is. *)
Inductive kpc :=
  | KTop | KInit | KInit2
  | KCheck (i : nat) | KOp (i : nat) | KExec (i : nat) (op : Z)
  | KStamp (i : nat) (r : Z) | KTick (i : nat) (r : Z)
  | KRet (i : nat) (r : Z) | KRetW (i : nat) (v : Z)
  | KClr (i : nat) | KClrW (i : nat) (v : Z)
  | KHalt.

Record sys := mkSys { dev : kst; kernel : kpc; hosts : list hthread; strace : list event }.

Definition put_host (st : sys) (t : nat) (h : hthread) : sys :=
  mkSys (dev st) (kernel st) (<[t := h]> (hosts st)) (strace st).
Definition put_dev (st : sys) (d : kst) : sys := mkSys d (kernel st) (hosts st) (strace st).
Definition at_kernel (st : sys) (k : kpc) : sys := mkSys (dev st) k (hosts st) (strace st).
Definition logs (st : sys) (e : event) : sys := mkSys (dev st) (kernel st) (hosts st) (e :: strace st).

Section steps.
Context (MAX_LEVEL num : nat).

(** The next operation of thread [t]. *)
Definition host_call (st : sys) (t : nat) (op param r : Z) : result sys :=
  h ← of_opt (hosts st !! t);
  Ok (put_host (logs st (Inv (Z.of_nat t) op param)) t (mkHost (HParam op param r) (h_bits h))).

Definition host_step (st : sys) (t : nat) : result sys :=
  h ← of_opt (hosts st !! t);
  s ← of_opt (k_slots (dev st) !! t);
  match h_pc h with
  | HIdle => NoFuel
  | HParam op param r =>
      Ok (put_host (put_dev st (k_put (dev st) t (set_param s param))) t
                   (mkHost (HInfo op param r) (h_bits h)))
  | HInfo op param r =>
      let b := SET_OPERATION skip_info (h_bits h) op in
      Ok (put_host (put_dev st (k_put (dev st) t (set_info s b))) t
                   (mkHost (if op =? ib_add skip_info then HLevel op param r else HReq op param r) b))
  | HLevel op param r =>
      level ← draw_level (CURR_MAX_LEVEL (dev st)) r;
      Ok (put_host (put_dev st (k_put (dev st) t (set_level s level))) t
                   (mkHost (HReq op param r) (h_bits h)))
  | HReq op param r =>
      let b := SET_REQUEST skip_info (h_bits h) in
      Ok (put_host (put_dev st (k_put (dev st) t (set_info s b))) t (mkHost HPoll b))
  | HPoll =>
      let b := info_bits s in
      Ok (put_host st t
            (mkHost (if CHECK_VALID_REQUEST skip_info b =? 0 then HDone else HPoll) b))
  | HDone =>
      Ok (put_host (logs st (Ret (Z.of_nat t) (GET_RETVAL (h_bits h)))) t (mkHost HIdle (h_bits h)))
  end.

Definition kernel_step (st : sys) : result sys :=
  let d := dev st in
  match kernel st with
  | KTop =>
      Ok (at_kernel st (if k_op d =? 0 then KInit else if 3 <=? k_op d then KHalt else KCheck 0))
  | KInit => d1 ← kernel_init MAX_LEVEL num d; Ok (at_kernel (put_dev st d1) KInit2)
  | KInit2 => Ok (at_kernel (put_dev st (k_set_op d 1)) KTop)
  | KCheck i =>
      match k_slots d !! i with
      | None => Ok (at_kernel st KTop)
      | Some s =>
          Ok (at_kernel st (if CHECK_VALID_REQUEST skip_info (info_bits s) =? 0
                            then KCheck (S i) else KOp i))
      end
  | KOp i =>
      s ← of_opt (k_slots d !! i);
      Ok (at_kernel st (KExec i (EXTRACT_OPERATION skip_info (info_bits s))))
  | KExec i op =>
      s ← of_opt (k_slots d !! i);
      '(d1, r) ← exec_request MAX_LEVEL num d op (parameter s) (random_level s);
      Ok (logs (at_kernel (put_dev st d1) (KStamp i r)) (Lin (Z.of_nat i) op (parameter s) r))
  | KStamp i r =>
      s ← of_opt (k_slots d !! i);
      Ok (at_kernel (put_dev st (k_put d i (set_time s (u16 (k_time d))))) (KTick i r))
  | KTick i r => Ok (at_kernel (put_dev st (k_set_time d (u32 (k_time d + 1)))) (KRet i r))
  | KRet i r =>
      s ← of_opt (k_slots d !! i);
      Ok (at_kernel st (KRetW i (SET_RETVAL (info_bits s) r)))
  | KRetW i v =>
      s ← of_opt (k_slots d !! i);
      Ok (at_kernel (put_dev st (k_put d i (set_info s v))) (KClr i))
  | KClr i =>
      s ← of_opt (k_slots d !! i);
      Ok (at_kernel st (KClrW i (CLEAR_REQUEST skip_info (info_bits s))))
  | KClrW i v =>
      s ← of_opt (k_slots d !! i);
      Ok (at_kernel (put_dev st (k_put d i (set_info s v))) (KCheck (S i)))
  | KHalt => NoFuel
  end.

(** The steps of the system.  The main thread waits for SREG[1] before it uses the
    list, closes the kernel through SREG[0], restarts it, and resets the time. *)
Inductive sys_step : sys -> sys -> Prop :=
  | sys_call st st' t op param r :
      k_blocks (dev st) <> 0 -> is_op skip_info op -> 0 <= param < UINT32_MAX -> 0 <= r ->
      h_pc <$> hosts st !! t = Some HIdle ->
      host_call st t op param r = Ok st' -> sys_step st st'
  | sys_host st st' t : host_step st t = Ok st' -> sys_step st st'
  | sys_kernel st st' : kernel_step st = Ok st' -> sys_step st st'
  | sys_close st v : k_blocks (dev st) <> 0 -> 3 <= v ->
      sys_step st (put_dev st (k_set_op (dev st) v))
  | sys_restart st : kernel st = KHalt ->
      sys_step st (at_kernel (put_dev st (k_set_op (dev st) 1)) KTop)
  | sys_reset st : sys_step st (put_dev st (k_set_time (dev st) 0)).

(** The kernel is started on a device with SREG[0] = 0 and empty slots. *)
Definition booting (d : kst) : Prop :=
  k_op d = 0 /\ k_blocks d = 0 /\ fresh_vault (skip_layout MAX_LEVEL) num (words (k_vault d)) /\
  2 <= CURR_MAX_LEVEL d <= Z.of_nat MAX_LEVEL /\
  (MAX_LEVEL <= length (k_preds d))%nat /\ (MAX_LEVEL <= length (k_succs d))%nat /\
  Forall (fun s => valid s = false) (k_slots d).

Definition sys_init (d : kst) : sys :=
  mkSys d KTop (replicate (length (k_slots d)) (mkHost HIdle 0)) [].

End steps.

(** ** The invariant *)

Lemma draw_level_spec m r : 2 <= m <= 31 -> 0 <= r ->
  exists lv, draw_level m r = Ok lv /\ 1 <= lv <= m - 1.
Proof.
  intros Hm Hr. unfold draw_level. rewrite Z.shiftl_1_l, Z.rem_mod_nonneg by lia.
  pose proof (Z.mod_pos_bound r (2 ^ m) ltac:(lia)) as Hx.
  pose proof (Z.pow_le_mono_r 2 m 32 ltac:(lia) ltac:(lia)) as Hpow.
  rewrite u32_small by (unfold is_u32, u32_mod; lia).
  destruct (negb _); [exists 1; split; [done|lia]|].
  destruct (level_loop_spec 31 (r mod 2 ^ m) 2 ltac:(lia)) as (lv & Hlv & Hle).
  rewrite Hlv. cbn [mbind result_bind]. eexists. split; [done|].
  destruct (Z.ltb_spec (m - 1) lv); [unfold u8; rewrite Z.mod_small|]; lia.
Qed.

(** The slot the kernel works on. *)
Definition kwork (k : kpc) : option nat :=
  match k with
  | KOp i | KExec i _ | KStamp i _ | KTick i _ | KRet i _ | KRetW i _ | KClr i | KClrW i _ => Some i
  | _ => None
  end.

(** The answer the kernel has for slot [t] but has not published yet. *)
Definition kanswer (k : kpc) (t : nat) (s : request_slot) : option Z :=
  match k with
  | KStamp i r | KTick i r | KRet i r => if decide (i = t) then Some r else None
  | KRetW i v | KClrW i v => if decide (i = t) then Some (GET_RETVAL v) else None
  | KClr i => if decide (i = t) then Some (GET_RETVAL (info_bits s)) else None
  | _ => None
  end.

Definition host_status (k : kpc) (t : nat) (h : hthread) (s : request_slot) : tstat :=
  match h_pc h with
  | HIdle => Out
  | HParam op param _ | HInfo op param _ | HLevel op param _ | HReq op param _ => Called op param
  | HPoll =>
      match kanswer k t s with
      | Some r => Answered r
      | None => if valid s then Called (slot_op s) (parameter s) else Answered (GET_RETVAL (info_bits s))
      end
  | HDone => Answered (GET_RETVAL (h_bits h))
  end.

Definition asked (op param r : Z) : Prop :=
  is_op skip_info op /\ 0 <= param < UINT32_MAX /\ 0 <= r.

(** The bits of a thread that has set its operation. *)
Definition op_bits (b op : Z) : Prop :=
  CHECK_VALID_REQUEST skip_info b = 0 /\ EXTRACT_OPERATION skip_info b = op /\ GET_RETVAL b = 0.

Definition host_local (k : kpc) (d : kst) (t : nat) (h : hthread) (s : request_slot) : Prop :=
  match h_pc h with
  | HIdle | HDone => valid s = false
  | HParam op param r => valid s = false /\ asked op param r
  | HInfo op param r => valid s = false /\ asked op param r /\ parameter s = param
  | HLevel op param r =>
      valid s = false /\ asked op param r /\ parameter s = param /\ op_bits (h_bits h) op
  | HReq op param r =>
      valid s = false /\ asked op param r /\ parameter s = param /\ op_bits (h_bits h) op /\
      (op = ib_add skip_info -> 1 <= random_level s <= CURR_MAX_LEVEL d)
  | HPoll =>
      valid s = true ->
      sk_legal d (slot_op s) (parameter s) (random_level s) /\
      (kanswer k t s = None -> GET_RETVAL (info_bits s) = 0)
  end.

(** What the kernel knows about the slot it works on. *)
Definition kernel_local (k : kpc) (s : request_slot) : Prop :=
  match k with
  | KExec _ op => op = slot_op s
  | KStamp _ r | KTick _ r | KRet _ r => 0 <= r <= 1 /\ GET_RETVAL (info_bits s) = 0
  | KRetW _ v => CHECK_VALID_REQUEST skip_info v <> 0 /\ EXTRACT_OPERATION skip_info v = slot_op s
  | KClrW _ v => CHECK_VALID_REQUEST skip_info v = 0
  | _ => True
  end.

Definition booted (st : sys) : Prop := k_blocks (dev st) <> 0.

(** The successful additions of a history: the blocks it has used. *)
Fixpoint used (tr : list event) : nat :=
  match tr with
  | [] => 0
  | Lin _ op _ r :: tr' => (if (op =? ib_add skip_info)%Z && (r =? 1)%Z then 1 else 0) + used tr'
  | _ :: tr' => used tr'
  end%nat.

Section invariant.
Context (MAX_LEVEL num : nat) (Hcap : (MAX_LEVEL <= 31)%nat) (Hnum : (2 <= num)%nat).

Definition threads_ok (k : kpc) (d : kst) (hs : list hthread) (tr : list event) : Prop :=
  length hs = length (k_slots d) /\
  forall t h s, hs !! t = Some h -> k_slots d !! t = Some s ->
    status (Z.of_nat t) tr = Some (host_status k t h s) /\ host_local k d t h s.

Definition kernel_ok (k : kpc) (d : kst) (hs : list hthread) : Prop :=
  forall i, kwork k = Some i ->
    exists h s, hs !! i = Some h /\ k_slots d !! i = Some s /\ h_pc h = HPoll /\ valid s = true /\
      kernel_local k s.

(** Before the initialisation nothing has happened; after it the device represents
    the set that the history gives. *)
Definition device_state (k : kpc) (d : kst) (tr : list event) : Prop :=
  (k_blocks d = 0 /\ tr = [] /\ booting MAX_LEVEL num d /\ (k = KTop \/ k = KInit)) \/
  (k_blocks d = Z.of_nat num /\ k <> KInit /\ (k <> KInit2 -> k_op d <> 0) /\ 2 <= CURR_MAX_LEVEL d /\
   exists X fl, replay key_spec ∅ tr = Some X /\ sk_ref MAX_LEVEL num X fl d /\
     (length fl + used tr = num - 2)%nat).

Definition sinv (st : sys) : Prop :=
  threads_ok (kernel st) (dev st) (hosts st) (strace st) /\
  kernel_ok (kernel st) (dev st) (hosts st) /\
  device_state (kernel st) (dev st) (strace st).

Lemma sinv_init d : booting MAX_LEVEL num d -> sinv (sys_init d).
Proof.
  intros Hb. split_and!; cbn [sys_init kernel dev hosts strace].
  - split; [by rewrite length_replicate|]. intros t h s Hh Hs.
    apply lookup_replicate in Hh as [-> _]. split; [done|].
    destruct Hb as (_ & _ & _ & _ & _ & _ & Hv). unfold host_local. cbn [h_pc].
    rewrite Forall_lookup in Hv. by eapply Hv.
  - intros i. done.
  - left. destruct Hb as (? & Hz & ?). split_and!; try done; auto.
Qed.

(** A change of slot and host [t] leaves the other threads as they are if the trace
    grows by events of [t] only and the kernel keeps its answers for the others. *)
Lemma threads_upd k k' d d' hs tr tr' t h s h' s' :
  threads_ok k d hs tr -> hs !! t = Some h -> k_slots d !! t = Some s ->
  k_slots d' = <[t := s']> (k_slots d) -> CURR_MAX_LEVEL d' = CURR_MAX_LEVEL d ->
  (forall u, u <> t -> status (Z.of_nat u) tr' = status (Z.of_nat u) tr) ->
  (forall u x, u <> t -> kanswer k' u x = kanswer k u x) ->
  status (Z.of_nat t) tr' = Some (host_status k' t h' s') -> host_local k' d' t h' s' ->
  threads_ok k' d' (<[t := h']> hs) tr'.
Proof.
  intros [Hlen Hall] Hh Hs Hsl Hcm Htr Hk Hst Hloc. split.
  { by rewrite length_insert, Hsl, length_insert. }
  assert (Hlt : (t < length hs)%nat) by by eapply lookup_lt_Some.
  intros u hu su Hu Hsu. rewrite Hsl in Hsu. destruct (decide (u = t)) as [->|Hne].
  - rewrite list_lookup_insert_eq in Hu by done. rewrite list_lookup_insert_eq in Hsu by lia.
    by simplify_eq.
  - rewrite list_lookup_insert_ne in Hu by done. rewrite list_lookup_insert_ne in Hsu by done.
    destruct (Hall u hu su Hu Hsu) as [Hstu Hlu]. rewrite Htr by done.
    unfold host_status, host_local, sk_legal in *.
    rewrite Hcm. rewrite (Hk u su Hne). done.
Qed.

(** A move of the kernel that keeps its answers. *)
Lemma threads_kernel k k' d d' hs tr :
  threads_ok k d hs tr -> k_slots d' = k_slots d -> CURR_MAX_LEVEL d' = CURR_MAX_LEVEL d ->
  (forall u x, kanswer k' u x = kanswer k u x) -> threads_ok k' d' hs tr.
Proof.
  intros [Hlen Hall] Hsl Hcm Hk. split; [by rewrite Hsl|]. intros t h s Hh Hs. rewrite Hsl in Hs.
  destruct (Hall t h s Hh Hs) as [Hst Hl]. unfold host_status, host_local, sk_legal in *.
  rewrite Hcm, (Hk t s). done.
Qed.

Lemma kernel_upd k d d' hs t h h' s s' :
  kernel_ok k d hs -> hs !! t = Some h -> k_slots d !! t = Some s ->
  k_slots d' = <[t := s']> (k_slots d) -> (kwork k = Some t -> h_pc h' = HPoll /\ s' = s) ->
  kernel_ok k d' (<[t := h']> hs).
Proof.
  intros Hok Hh Hs Hsl Hpoll i Hi. destruct (Hok i Hi) as (hi & si & Hhi & Hsi & Hpc & Hv & Hloc).
  assert (Hlt : (t < length hs)%nat) by by eapply lookup_lt_Some.
  assert (Hlt' : (t < length (k_slots d))%nat) by by eapply lookup_lt_Some.
  rewrite Hsl. destruct (decide (i = t)) as [->|Hne].
  - simplify_eq. destruct (Hpoll Hi) as [? ->]. exists h', s.
    by rewrite !list_lookup_insert_eq by done.
  - exists hi, si. by rewrite !list_lookup_insert_ne by done.
Qed.

Lemma status_event t u e tr : u <> t -> ev_thread e = Z.of_nat t ->
  status (Z.of_nat u) (e :: tr) = status (Z.of_nat u) tr.
Proof. intros Hne He. apply status_other. lia. Qed.

(** The device is as before when only slots and the time change. *)
Lemma device_upd k d d' tr tr' :
  device_state k d tr -> k_blocks d <> 0 -> k_blocks d' = k_blocks d -> k_op d' = k_op d ->
  CURR_MAX_LEVEL d' = CURR_MAX_LEVEL d -> LIST_HEAD d' = LIST_HEAD d -> LIST_TAIL d' = LIST_TAIL d ->
  k_preds d' = k_preds d -> k_succs d' = k_succs d -> k_vault d' = k_vault d ->
  replay key_spec ∅ tr' = replay key_spec ∅ tr -> used tr' = used tr ->
  device_state k d' tr'.
Proof.
  intros [[Hz _]|(Hb & Hk & Ht & Hm & X & fl & Hr & Href & Hu)] Hnz Eb Eo Em Eh Et Ep Es Ev Er Eu; [done|].
  right. rewrite Eb, Eo, Em, Er, Eu. split_and!; try done. exists X, fl. split_and!; try done.
  destruct Href as [H1 H2 H3 H4 H5]. split; rewrite ?Eh, ?Et, ?Em, ?Ep, ?Es, ?Ev; done.
Qed.

(** A thread is in a call only after the initialisation. *)
Lemma active_booted st t h s :
  sinv st -> hosts st !! t = Some h -> k_slots (dev st) !! t = Some s -> h_pc h <> HIdle ->
  k_blocks (dev st) <> 0.
Proof.
  intros ([_ Hall] & _ & Hd) Hh Hs Hpc. destruct Hd as [(Hz & Htr & _)|(Hb & _)]; [|lia].
  destruct (Hall t h s Hh Hs) as [Hst _]. rewrite Htr in Hst. cbn in Hst. injection Hst as Hst.
  unfold host_status in Hst. destruct (h_pc h); try done.
  destruct (kanswer _ _ _); [done|]. by destruct (valid s).
Qed.

Lemma kanswer_none k t x : kwork k <> Some t -> kanswer k t x = None.
Proof. destruct k; cbn; intros H; try done; rewrite decide_False; congruence. Qed.

(** The kernel works only on slots with a request whose thread is polling. *)
Lemma kwork_poll k d hs t h : kernel_ok k d hs -> hs !! t = Some h -> h_pc h <> HPoll -> kwork k <> Some t.
Proof. intros Hk Hh Hpc Hw. destruct (Hk t Hw) as (h' & s' & Hh' & _ & Hp & _). congruence. Qed.

Lemma kwork_invalid k d hs t s : kernel_ok k d hs -> k_slots d !! t = Some s -> valid s = false ->
  kwork k <> Some t.
Proof. intros Hk Hs Hv Hw. destruct (Hk t Hw) as (h' & s' & _ & Hs' & _ & Hv' & _). congruence. Qed.

Lemma sinv_call st t op param r st' :
  sinv st -> k_blocks (dev st) <> 0 -> is_op skip_info op -> 0 <= param < UINT32_MAX -> 0 <= r ->
  h_pc <$> hosts st !! t = Some HIdle -> host_call st t op param r = Ok st' -> sinv st'.
Proof.
  intros (Hth & Hk & Hd) Hbl Hop Hp Hr Hpc Hrun.
  destruct (hosts st !! t) as [h|] eqn:Hh; [|done]. injection Hpc as Hpc.
  unfold host_call in Hrun. rewrite Hh in Hrun. cbn in Hrun. injection Hrun as <-.
  destruct (k_slots (dev st) !! t) as [s|] eqn:Hs.
  2: { apply lookup_ge_None in Hs. apply lookup_lt_Some in Hh. destruct Hth as [Hl _]. lia. }
  destruct (proj2 Hth t h s Hh Hs) as [Hst Hloc]. unfold host_status in Hst. rewrite Hpc in Hst.
  unfold host_local in Hloc. rewrite Hpc in Hloc.
  assert (Hnw : kwork (kernel st) <> Some t) by (eapply kwork_poll; eauto; congruence).
  assert (Hid : k_slots (dev st) = <[t := s]> (k_slots (dev st))) by by rewrite list_insert_id.
  split_and!; cbn [put_host logs kernel dev hosts strace].
  - eapply (threads_upd (kernel st) (kernel st) (dev st) (dev st)); try done.
    + intros u Hne. by eapply status_event.
    + by apply status_inv.
  - eapply (kernel_upd (kernel st) (dev st) (dev st)); try done.
  - by eapply device_upd.
Qed.

Lemma sinv_host st t st' : sinv st -> host_step st t = Ok st' -> sinv st'.
Proof.
  intros Hinv Hrun. pose proof Hinv as (Hth & Hk & Hd).
  unfold host_step in Hrun. apply bind_Ok in Hrun as (h & Hh & Hrun). apply of_opt_Ok in Hh.
  apply bind_Ok in Hrun as (s & Hs & Hrun). apply of_opt_Ok in Hs.
  destruct (proj2 Hth t h s Hh Hs) as [Hst Hloc]. unfold host_status, host_local in Hst, Hloc.
  assert (Hbl : h_pc h <> HIdle -> k_blocks (dev st) <> 0) by (intros; by eapply active_booted).
  destruct (h_pc h) as [|op param r|op param r|op param r|op param r| |] eqn:Hpc; try done.
  all: specialize (Hbl ltac:(done)).
  all: try (assert (Hnw : kwork (kernel st) <> Some t) by (eapply kwork_poll; eauto; congruence)).
  - injection Hrun as <-. destruct Hloc as [Hv Hask].
    split_and!; cbn [put_host put_dev kernel dev hosts strace k_put].
    + eapply (threads_upd (kernel st) (kernel st) (dev st)); try done.
    + eapply kernel_upd; try done.
    + by eapply device_upd.
  - injection Hrun as <-. destruct Hloc as (Hv & Hask & Hp). pose proof Hask as (Hop & _).
    destruct (set_operation_bits skip_info (h_bits h) op Hop) as (Hv1 & Ho1 & Hg1).
    assert (Hv' : valid (set_info s (SET_OPERATION skip_info (h_bits h) op)) = false).
    { unfold valid. cbn [info_bits set_info]. by rewrite Hv1. }
    change 64 with (ib_add skip_info).
    split_and!; cbn [put_host put_dev kernel dev hosts strace k_put].
    + eapply (threads_upd (kernel st) (kernel st) (dev st)); try done.
      * unfold host_status. cbn [h_pc]. by destruct (op =? ib_add skip_info).
      * unfold host_local. cbn [h_pc h_bits]. destruct (Z.eqb_spec op (ib_add skip_info)); [done|].
        split_and!; try done.
    + eapply kernel_upd; try done.
    + by eapply device_upd.
  - apply bind_Ok in Hrun as (lv & Hlv & Hrun). injection Hrun as <-.
    destruct Hloc as (Hv & Hask & Hp & Hbits).
    assert (Hm : 2 <= CURR_MAX_LEVEL (dev st) <= 31).
    { destruct Hd as [(? & _)|(_ & _ & _ & Hm & X & fl & _ & [_ _ ? _ _] & _)]; [done|]. lia. }
    destruct (draw_level_spec _ r Hm (proj2 (proj2 Hask))) as (lv' & Hlv' & Hb). rewrite Hlv in Hlv'.
    injection Hlv' as <-.
    split_and!; cbn [put_host put_dev kernel dev hosts strace k_put].
    + eapply (threads_upd (kernel st) (kernel st) (dev st)); try done.
      unfold host_local. cbn [h_pc h_bits]. split_and!; try done. cbn. lia.
    + eapply kernel_upd; try done.
    + by eapply device_upd.
  - injection Hrun as <-. destruct Hloc as (Hv & Hask & Hp & (Hv1 & Ho1 & Hg1) & Hlev).
    destruct (set_request_bits skip_info (h_bits h) Hv1) as (Hv2 & Ho2 & Hg2).
    set (s' := set_info s (SET_REQUEST skip_info (h_bits h))).
    assert (Hvs : valid s' = true) by (apply negb_true_iff, Z.eqb_neq; exact Hv2).
    assert (Hos : slot_op s' = op) by (unfold slot_op; cbn [info_bits s' set_info]; congruence).
    assert (Hka : forall x, kanswer (kernel st) t x = None) by (intros x; by apply kanswer_none).
    split_and!; cbn [put_host put_dev kernel dev hosts strace k_put].
    + eapply (threads_upd (kernel st) (kernel st) (dev st)); try done.
      * unfold host_status. cbn [h_pc]. fold s'. rewrite Hka, Hvs, Hos. cbn [parameter s' set_info]. by rewrite Hp.
      * unfold host_local. cbn [h_pc]. fold s'. intros _. rewrite Hos. split; [|intros _; cbn; congruence].
        destruct Hask as (Hop & Hpr & _). cbn [parameter random_level s' set_info].
        split; [by rewrite Hp|]. split; [done|]. exact Hlev.
    + eapply kernel_upd; try done.
    + by eapply device_upd.
  - injection Hrun as <-.
    assert (Hid : k_slots (dev st) = <[t := s]> (k_slots (dev st))) by by rewrite list_insert_id.
    destruct (Z.eqb_spec (CHECK_VALID_REQUEST skip_info (info_bits s)) 0) as [Hz|Hz].
    + assert (Hv : valid s = false) by (unfold valid; by rewrite Hz).
      assert (Hnw : kwork (kernel st) <> Some t) by (eapply kwork_invalid; eauto).
      rewrite (kanswer_none _ _ _ Hnw), Hv in Hst.
      split_and!; cbn [put_host kernel dev hosts strace].
      * eapply (threads_upd (kernel st) (kernel st) (dev st) (dev st)); try done.
      * eapply (kernel_upd (kernel st) (dev st) (dev st)); try done.
      * done.
    + split_and!; cbn [put_host kernel dev hosts strace].
      * eapply (threads_upd (kernel st) (kernel st) (dev st) (dev st)); try done.
      * eapply (kernel_upd (kernel st) (dev st) (dev st)); try done.
      * done.
  - injection Hrun as <-. cbn in Hst.
    assert (Hid : k_slots (dev st) = <[t := s]> (k_slots (dev st))) by by rewrite list_insert_id.
    split_and!; cbn [put_host logs kernel dev hosts strace].
    + eapply (threads_upd (kernel st) (kernel st) (dev st) (dev st)); try done.
      * intros u Hne. by eapply status_event.
      * by apply status_ret.
    + eapply (kernel_upd (kernel st) (dev st) (dev st)); try done.
    + by eapply device_upd.
Qed.

(** The thread whose slot the kernel works on. *)
Lemma at_work st i : sinv st -> kwork (kernel st) = Some i ->
  exists h s, hosts st !! i = Some h /\ k_slots (dev st) !! i = Some s /\ h_pc h = HPoll /\
    valid s = true /\ kernel_local (kernel st) s /\
    status (Z.of_nat i) (strace st) = Some (host_status (kernel st) i h s) /\
    sk_legal (dev st) (slot_op s) (parameter s) (random_level s) /\
    (kanswer (kernel st) i s = None -> GET_RETVAL (info_bits s) = 0).
Proof.
  intros (Hth & Hk & _) Hw. destruct (Hk i Hw) as (h & s & Hh & Hs & Hpc & Hv & Hloc).
  destruct (proj2 Hth i h s Hh Hs) as [Hst Hl]. unfold host_local in Hl. rewrite Hpc in Hl.
  exists h, s. destruct (Hl Hv). done.
Qed.

(** A step of the kernel that changes at most the slot [i] it works on. *)
Lemma sinv_work st i h s k' d' s' :
  sinv st -> kwork (kernel st) = Some i -> hosts st !! i = Some h -> k_slots (dev st) !! i = Some s ->
  h_pc h = HPoll ->
  (kwork k' = Some i \/ kwork k' = None) -> k' <> KInit -> k' <> KInit2 ->
  k_slots d' = <[i := s']> (k_slots (dev st)) -> k_op d' = k_op (dev st) ->
  k_blocks d' = k_blocks (dev st) -> CURR_MAX_LEVEL d' = CURR_MAX_LEVEL (dev st) ->
  LIST_HEAD d' = LIST_HEAD (dev st) -> LIST_TAIL d' = LIST_TAIL (dev st) ->
  k_preds d' = k_preds (dev st) -> k_succs d' = k_succs (dev st) -> k_vault d' = k_vault (dev st) ->
  host_status k' i h s' = host_status (kernel st) i h s -> host_local k' d' i h s' ->
  (kwork k' = Some i -> valid s' = true /\ kernel_local k' s') ->
  sinv (at_kernel (put_dev st d') k').
Proof.
  intros Hinv Hw Hh Hs Hpc Hw' Hn1 Hn2 Esl Eo Eb Em Eh Et Ep Es Ev Hst Hl Hk'.
  pose proof Hinv as (Hth & Hk & Hd).
  assert (Hlt : (i < length (hosts st))%nat) by by eapply lookup_lt_Some.
  assert (Hlt' : (i < length (k_slots (dev st)))%nat) by by eapply lookup_lt_Some.
  assert (Hbl : k_blocks (dev st) <> 0) by (eapply active_booted; eauto; congruence).
  split_and!; cbn [at_kernel put_dev kernel dev hosts strace].
  - rewrite <- (list_insert_id (hosts st) i h Hh).
    eapply (threads_upd (kernel st) k' (dev st) d'); try done.
    + intros u x Hne. rewrite (kanswer_none (kernel st)) by congruence.
      apply kanswer_none. destruct Hw' as [->| ->]; congruence.
    + rewrite Hst. by apply (proj2 Hth).
  - intros j Hj. destruct Hw' as [E|E]; rewrite E in Hj; [injection Hj as <-|done].
    exists h, s'. rewrite Esl, list_lookup_insert_eq by done. destruct (Hk' E). done.
  - apply (device_upd k' (dev st)) with (strace st); try done.
    destruct Hd as [(? & _)|(Hb & Hk1 & Hk2 & Hm & Hx)]; [done|]. right. split_and!; try done.
    intros _. apply Hk2. by intros E; rewrite E in Hw.
Qed.

Lemma sinv_exec st i op st' : sinv st -> kernel st = KExec i op -> kernel_step MAX_LEVEL num st = Ok st' ->
  sinv st'.
Proof.
  intros Hinv Ek Hrun. pose proof Hinv as (Hth & Hk & Hd).
  destruct (at_work st i Hinv ltac:(by rewrite Ek)) as (h & s & Hh & Hs & Hpc & Hv & Hloc & Hst & Hleg & _).
  rewrite Ek in Hloc. cbn in Hloc. subst op.
  assert (Hlt : (i < length (hosts st))%nat) by by eapply lookup_lt_Some.
  assert (Hbl : k_blocks (dev st) <> 0) by (eapply active_booted; eauto; congruence).
  unfold kernel_step in Hrun. rewrite Ek, Hs in Hrun. cbn [of_opt mbind result_bind] in Hrun.
  destruct Hd as [(? & _)|(Hb & _ & Hk2 & Hm & X & fl & Hr & Href & Hu)]; [done|].
  destruct (exec_request_cases MAX_LEVEL num X fl (dev st) _ _ _ Href Hleg)
    as [(d1 & Hex & Href1 & Hsl & Ho & Hbl1 & Htm & Hcm)|(_ & _ & _ & Hex)];
    rewrite Hex in Hrun; cbn [mbind result_bind] in Hrun; [|done].
  set (r := (key_spec X (slot_op s) (parameter s)).2) in *. injection Hrun as <-.
  assert (Hr01 : 0 <= r <= 1).
  { unfold r, key_spec, lset_spec. destruct (lop_of (slot_op s)); destruct (decide _); simpl; lia. }
  unfold host_status in Hst. rewrite Hpc, Ek in Hst. cbn [kanswer] in Hst. rewrite Hv in Hst.
  split_and!; cbn [logs at_kernel put_dev kernel dev hosts strace].
  - rewrite <- (list_insert_id (hosts st) i h Hh).
    eapply (threads_upd (kernel st) (KStamp i r) (dev st) d1 _ _ _ i h s h s); try done.
    + by rewrite Hsl, list_insert_id.
    + intros u Hne. by eapply status_event.
    + intros u x Hne. rewrite Ek. cbn. by rewrite decide_False.
    + unfold host_status. rewrite Hpc. cbn [kanswer]. rewrite decide_True by done. by apply status_lin.
    + unfold host_local. rewrite Hpc. intros _. split; [|cbn; by rewrite decide_True].
      unfold sk_legal in *. by rewrite Hcm.
  - intros j [= <-]. exists h, s. rewrite Hsl. do 4 (split; [done|]). split; [exact Hr01|].
    destruct (at_work st i Hinv ltac:(by rewrite Ek)) as (h2 & s2 & _ & Hs2 & _ & _ & _ & _ & _ & Hg).
    simplify_eq. apply Hg. by rewrite Ek.
  - right. rewrite Hbl1, Ho, Hcm. split_and!; try done; [intros _; apply Hk2; by rewrite Ek|].
    eexists _, _. split; [|split; [exact Href1|]].
    + cbn [replay]. rewrite Hr. cbn [mbind option_bind]. by rewrite decide_True.
    + cbn [used]. unfold r, key_spec, lop_of, lset_spec.
      destruct (Z.eqb_spec (slot_op s) (ib_contains skip_info)) as [E|E].
      { rewrite bool_decide_false; [|by intros [E' _]; rewrite E in E'].
        destruct (Z.eqb_spec (slot_op s) (ib_add skip_info)) as [E'|]; [by rewrite E in E'|]. cbn. lia. }
      destruct (Z.eqb_spec (slot_op s) (ib_add skip_info)) as [E'|E'].
      * destruct (decide (parameter s ∈ X)) as [Hin|Hin].
        { rewrite bool_decide_false by tauto. cbn. lia. }
        rewrite bool_decide_true by done. cbn [snd andb].
        destruct fl as [|b fl].
        { destruct (exec_full MAX_LEVEL num X (dev st) (parameter s) (random_level s) d1 r); try done.
          - apply Hleg. - by rewrite <- E'. }
        cbn in Hu |- *. lia.
      * rewrite bool_decide_false by tauto. cbn. lia.
Qed.

(** A step of the kernel between slots. *)
Lemma sinv_free st k' d' :
  sinv st -> kwork (kernel st) = None -> kwork k' = None -> k' <> KInit ->
  k_blocks (dev st) <> 0 -> (k' <> KInit2 -> k_op d' <> 0) ->
  k_slots d' = k_slots (dev st) -> k_blocks d' = k_blocks (dev st) ->
  CURR_MAX_LEVEL d' = CURR_MAX_LEVEL (dev st) ->
  LIST_HEAD d' = LIST_HEAD (dev st) -> LIST_TAIL d' = LIST_TAIL (dev st) ->
  k_preds d' = k_preds (dev st) -> k_succs d' = k_succs (dev st) -> k_vault d' = k_vault (dev st) ->
  sinv (at_kernel (put_dev st d') k').
Proof.
  intros (Hth & Hk & Hd) Hw Hw' Hn Hbl Hop Esl Eb Em Eh Et Ep Es Ev.
  split_and!; cbn [at_kernel put_dev kernel dev hosts strace].
  - eapply threads_kernel; try done. intros u x.
    rewrite (kanswer_none k') by congruence. by rewrite (kanswer_none (kernel st)) by congruence.
  - intros i Hi. congruence.
  - destruct Hd as [(? & _)|(Hb & Hk1 & Hk2 & Hm & X & fl & Hr & Href & Hu)]; [done|].
    right. rewrite Eb, Em. split_and!; try done. exists X, fl. split_and!; try done.
    destruct Href as [H1 H2 H3 H4 H5]. split; rewrite ?Eh, ?Et, ?Em, ?Ep, ?Es, ?Ev; done.
Qed.

Lemma sinv_boot st st' : sinv st -> kernel st = KInit -> kernel_step MAX_LEVEL num st = Ok st' -> sinv st'.
Proof.
  intros (Hth & Hk & Hd) Ek Hrun. unfold kernel_step in Hrun. rewrite Ek in Hrun.
  destruct Hd as [(Hz & Htr & Hb & _)|(_ & ? & _)]; [|done].
  pose proof Hb as (Hop & _ & Hv & Hm & Hp & Hs & Hsl).
  destruct (kernel_init_spec MAX_LEVEL num (dev st) Hv Hnum ltac:(lia) Hp Hs)
    as (d1 & fl & Hi & Href & Hlen & Hsl1 & Hop1 & Hbl1 & Htm1).
  assert (Hcm : CURR_MAX_LEVEL d1 = CURR_MAX_LEVEL (dev st)).
  { unfold kernel_init in Hi. run_inv. done. }
  rewrite Hi in Hrun. cbn [mbind result_bind] in Hrun. injection Hrun as <-.
  split_and!; cbn [at_kernel put_dev kernel dev hosts strace].
  - eapply threads_kernel; try done. intros u x. by rewrite Ek.
  - intros i. done.
  - right. rewrite Hbl1, Hcm. split_and!; try done; [lia|]. exists ∅, fl. rewrite Htr. split_and!; try done.
    rewrite Hlen. cbn. lia.
Qed.

Lemma valid_iff s : valid s = true <-> CHECK_VALID_REQUEST skip_info (info_bits s) <> 0.
Proof. unfold valid. rewrite negb_true_iff. apply Z.eqb_neq. Qed.

Lemma at_kernel_id st k : at_kernel st k = at_kernel (put_dev st (dev st)) k.
Proof. done. Qed.

(** The kernel looks at slot [i]. *)
Lemma sinv_check st i st' : sinv st -> kernel st = KCheck i -> kernel_step MAX_LEVEL num st = Ok st' ->
  sinv st'.
Proof.
  intros Hinv Ek Hrun. pose proof Hinv as (Hth & Hk & Hd). unfold kernel_step in Hrun. rewrite Ek in Hrun.
  assert (Hb : k_blocks (dev st) <> 0 /\ k_op (dev st) <> 0).
  { destruct Hd as [(_ & _ & _ & [E|E])|(Hb & _ & Hk2 & _)]; [congruence..|].
    split; [lia|]. apply Hk2. congruence. }
  destruct Hb as [Hbl Hop].
  destruct (k_slots (dev st) !! i) as [s|] eqn:Hs; [|injection Hrun as <-].
  2: { rewrite at_kernel_id. apply sinv_free; try done. by rewrite Ek. }
  destruct (Z.eqb_spec (CHECK_VALID_REQUEST skip_info (info_bits s)) 0) as [Hz|Hz]; injection Hrun as <-;
    rewrite at_kernel_id.
  - apply sinv_free; try done. by rewrite Ek.
  - apply valid_iff in Hz. destruct (hosts st !! i) as [h|] eqn:Hh.
    2: { apply lookup_ge_None in Hh. apply lookup_lt_Some in Hs. destruct Hth as [Hl _]. lia. }
    destruct (proj2 Hth i h s Hh Hs) as [Hst Hl].
    assert (Hpc : h_pc h = HPoll).
    { unfold host_local in Hl. destruct (h_pc h); try congruence; destruct Hl; congruence. }
    split_and!; cbn [at_kernel put_dev kernel dev hosts strace].
    + eapply threads_kernel; try done. intros u x. by rewrite Ek.
    + intros j [= <-]. exists h, s. done.
    + destruct Hd as [(? & _)|(Hb & Hk1 & Hk2 & Hm & Hx)]; [done|]. right. split_and!; try done.
Qed.

(** The facts about the slot that the kernel, at [Ek], works on. *)
Ltac working Hinv Ek Hrun :=
  lazymatch type of Ek with kernel ?st = ?k =>
    let w := eval cbn in (kwork k) in
    lazymatch w with Some ?i =>
      let h := fresh "h" in let s := fresh "s" in
      destruct (at_work st i Hinv ltac:(by rewrite Ek))
        as (h & s & Hh & Hs & Hpc & Hv & Hloc & Hst & Hleg & Hg);
      rewrite Ek in Hloc; cbn [kernel_local] in Hloc;
      unfold kernel_step in Hrun; rewrite Ek, ?Hs in Hrun;
      cbn [of_opt mbind result_bind] in Hrun; injection Hrun as <-
    end
  end.

(** The kernel between the execution of a request and its answer: the thread still
    polls, and its answer stays the same. *)
Lemma sinv_answer st i h s k' d' s' r :
  sinv st -> kwork (kernel st) = Some i -> hosts st !! i = Some h -> k_slots (dev st) !! i = Some s ->
  h_pc h = HPoll -> sk_legal (dev st) (slot_op s) (parameter s) (random_level s) ->
  kanswer (kernel st) i s = Some r -> kanswer k' i s' = Some r -> kwork k' = Some i ->
  k_slots d' = <[i := s']> (k_slots (dev st)) -> k_op d' = k_op (dev st) ->
  k_blocks d' = k_blocks (dev st) -> CURR_MAX_LEVEL d' = CURR_MAX_LEVEL (dev st) ->
  LIST_HEAD d' = LIST_HEAD (dev st) -> LIST_TAIL d' = LIST_TAIL (dev st) ->
  k_preds d' = k_preds (dev st) -> k_succs d' = k_succs (dev st) -> k_vault d' = k_vault (dev st) ->
  slot_op s' = slot_op s -> parameter s' = parameter s -> random_level s' = random_level s ->
  valid s' = true -> kernel_local k' s' ->
  sinv (at_kernel (put_dev st d') k').
Proof.
  intros Hinv Hw Hh Hs Hpc Hleg Hr Hr' Hw' Esl Eo Eb Em Eh Et Ep Es Ev E1 E2 E3 Hv Hk'.
  apply (sinv_work st i h s k' d' s'); try done; [by left|by intros ->|by intros ->|..].
  - unfold host_status. by rewrite Hpc, Hr, Hr'.
  - unfold host_local. rewrite Hpc, Hr', E1, E2, E3. intros _. split; [|done].
    unfold sk_legal in *. by rewrite Em.
Qed.

Lemma sinv_publish st st' : sinv st ->
  (exists i, (exists r, kernel st = KStamp i r \/ kernel st = KTick i r \/ kernel st = KRet i r \/
                       kernel st = KRetW i r) \/ kernel st = KClr i) ->
  kernel_step MAX_LEVEL num st = Ok st' -> sinv st'.
Proof.
  intros Hinv (i & [(r & [Ek|[Ek|[Ek|Ek]]])|Ek]) Hrun.
  - working Hinv Ek Hrun.
    apply (sinv_answer st i h s _ _ (set_time s (u16 (k_time (dev st)))) r); try done;
      rewrite ?Ek; cbn [kanswer]; by rewrite ?decide_True.
  - working Hinv Ek Hrun.
    apply (sinv_answer st i h s _ _ s r); try done; rewrite ?Ek; cbn [kanswer]; rewrite ?decide_True; try done.
    cbn. by rewrite list_insert_id.
  - working Hinv Ek Hrun. destruct Hloc as [Hr Hg0]. rewrite at_kernel_id.
    destruct (set_retval_bits skip_info (info_bits s) r Hr) as (Hv2 & Ho2 & Hg2).
    apply (sinv_answer st i h s _ _ s r); try done; rewrite ?Ek; cbn [kanswer]; rewrite ?decide_True; try done.
    + by rewrite Hg2, Hg0, Z.lor_0_l.
    + by rewrite list_insert_id.
    + cbn [kernel_local]. rewrite Hv2, Ho2. split; [by apply valid_iff|done].
  - working Hinv Ek Hrun. destruct Hloc as [Hv1 Ho1].
    apply (sinv_answer st i h s _ _ (set_info s r) (GET_RETVAL r)); try done; rewrite ?Ek; cbn [kanswer];
      rewrite ?decide_True; try done. by apply valid_iff.
  - working Hinv Ek Hrun. rewrite at_kernel_id.
    destruct (clear_request_bits skip_info (info_bits s)) as (Hv2 & Hg2 & _).
    apply (sinv_answer st i h s _ _ s (GET_RETVAL (info_bits s))); try done; rewrite ?Ek; cbn [kanswer];
      rewrite ?decide_True, ?Hg2; try done. by rewrite list_insert_id.
Qed.

(** The kernel reads the operation, and clears the request. *)
Lemma sinv_ends st st' : sinv st ->
  (exists i, kernel st = KOp i \/ exists v, kernel st = KClrW i v) ->
  kernel_step MAX_LEVEL num st = Ok st' -> sinv st'.
Proof.
  intros Hinv (i & [Ek|(v & Ek)]) Hrun; working Hinv Ek Hrun.
  - rewrite at_kernel_id.
    apply (sinv_work st i h s _ (dev st) s); try done; [by rewrite Ek|by left|by rewrite list_insert_id|..].
    + unfold host_status. by rewrite Hpc, Ek.
    + unfold host_local. rewrite Hpc. intros _. split; [done|]. intros _. apply Hg. by rewrite Ek.
  - assert (Hnv : valid (set_info s v) = false) by (unfold valid; cbn [info_bits set_info]; by rewrite Hloc).
    apply (sinv_work st i h s _ _ (set_info s v)); try done; [by rewrite Ek|by right|..].
    + unfold host_status. rewrite Hpc, Ek. cbn [kanswer]. rewrite decide_True by done. by rewrite Hnv.
    + unfold host_local. rewrite Hpc, Hnv. done.
Qed.

(** The kernel reads SREG[0], and leaves the initialisation. *)
Lemma sinv_top st st' : sinv st -> kernel st = KTop \/ kernel st = KInit2 ->
  kernel_step MAX_LEVEL num st = Ok st' -> sinv st'.
Proof.
  intros Hinv [Ek|Ek] Hrun; unfold kernel_step in Hrun; rewrite Ek in Hrun; injection Hrun as <-.
  - pose proof Hinv as (Hth & Hk & Hd).
    destruct Hd as [(Hz & Htr & Hb & _)|(Hb & _ & Hk2 & Hm & Hx)].
    + pose proof Hb as (-> & _). cbn. split_and!; cbn [at_kernel kernel dev hosts strace].
      * eapply threads_kernel; try done. intros u x. by rewrite Ek.
      * intros i. done.
      * left. split_and!; try done. by right.
    + specialize (Hk2 ltac:(congruence)). rewrite (proj2 (Z.eqb_neq _ 0) Hk2), at_kernel_id.
      destruct (3 <=? k_op (dev st)); (apply sinv_free; try done; [by rewrite Ek|lia]).
  - apply sinv_free; try done; [by rewrite Ek|]. destruct Hinv as (_ & _ & Hd).
    destruct Hd as [(_ & _ & _ & [E|E])|(Hb & _)]; [congruence..|lia].
Qed.

Lemma sinv_kernel st st' : sinv st -> kernel_step MAX_LEVEL num st = Ok st' -> sinv st'.
Proof.
  intros Hinv Hrun. destruct (kernel st) as [| | |i|i|i op|i r|i r|i r|i v|i|i v|] eqn:Ek.
  13: by unfold kernel_step in Hrun; rewrite Ek in Hrun.
  2: by eapply sinv_boot. 5: by eapply sinv_exec. 3: by eapply sinv_check.
  1,2: by eapply sinv_top; eauto. 1,7: by eapply sinv_ends; eauto.
  all: by eapply sinv_publish; eauto 8.
Qed.

Lemma sinv_step st st' : sinv st -> sys_step MAX_LEVEL num st st' -> sinv st'.
Proof.
  intros Hinv Hstep. destruct Hstep as [st st' t op param r ? ? ? ? ? ?|st st' t|st st'|st v Hb Hv|st Hk|st].
  - by eapply sinv_call.
  - by eapply sinv_host.
  - by eapply sinv_kernel.
  - destruct Hinv as (Hth & Hk & Hd). split_and!; cbn [put_dev kernel dev hosts strace]; [done..|].
    destruct Hd as [(? & _)|(Hb' & Hk1 & Hk2 & Hm & X & fl & Hr & Href & Hu)]; [done|].
    right. cbn. split_and!; try done; [intros _; lia|]. exists X, fl. split_and!; try done. by destruct Href; split.
  - apply sinv_free; try done; [by rewrite Hk|]. destruct Hinv as (_ & _ & Hd).
    destruct Hd as [(_ & _ & _ & [E|E])|(Hb & _)]; [congruence..|lia].
  - destruct Hinv as (Hth & Hk & Hd). split_and!; cbn [put_dev kernel dev hosts strace]; [done..|].
    destruct Hd as [Hd|(Hb' & Hk1 & Hk2 & Hm & X & fl & Hr & Href & Hu)]; [by left|].
    right. cbn. split_and!; try done. exists X, fl. split_and!; try done. by destruct Href; split.
Qed.

Lemma sinv_reachable d st : booting MAX_LEVEL num d -> rtc (sys_step MAX_LEVEL num) (sys_init d) st -> sinv st.
Proof.
  intros Hb Hr. apply sinv_init in Hb. revert Hb.
  induction Hr as [st|st0 st1 st2 Hs Hr IH]; [done|]. intros Hinv. by apply IH; eapply sinv_step.
Qed.

(** ** Progress *)

Lemma kernel_progress st : sinv st -> kernel st <> KHalt -> (used (strace st) < num - 2)%nat ->
  exists st', kernel_step MAX_LEVEL num st = Ok st'.
Proof.
  intros Hinv Hh Hu. pose proof Hinv as (Hth & Hk & Hd).
  assert (Hw : forall i, kwork (kernel st) = Some i -> exists s, k_slots (dev st) !! i = Some s).
  { intros i Hi. destruct (Hk i Hi) as (h & s & _ & Hs & _). eauto. }
  unfold kernel_step. destruct (kernel st) as [| | |i|i|i op|i r|i r|i r|i v|i|i v|] eqn:Ek; try done; eauto.
  - destruct Hd as [(Hz & Htr & Hb & _)|(_ & ? & _)]; [|done].
    destruct Hb as (Hop & _ & Hv & Hm & Hp & Hs & Hsl).
    destruct (kernel_init_spec MAX_LEVEL num (dev st) Hv Hnum ltac:(lia) Hp Hs) as (d1 & fl & -> & _).
    cbn [mbind result_bind]. eauto.
  - destruct (k_slots (dev st) !! i); eauto.
  - destruct (Hw i eq_refl) as (s & ->). cbn [of_opt mbind result_bind]. eauto.
  - destruct (at_work st i Hinv ltac:(by rewrite Ek)) as (h & s & Hh' & Hs & Hpc & Hv & Hloc & Hst & Hleg & _).
    rewrite Ek in Hloc. cbn in Hloc. subst op. rewrite Hs. cbn [of_opt mbind result_bind].
    destruct Hd as [(_ & _ & _ & [E|E])|(_ & _ & _ & _ & X & fl & _ & Href & Hf)]; [congruence..|].
    destruct (exec_request_cases MAX_LEVEL num X fl (dev st) _ _ _ Href Hleg)
      as [(d1 & -> & _)|(-> & _)]; [|cbn in Hf; lia]. cbn [mbind result_bind]. eauto.
  - destruct (Hw i eq_refl) as (s & ->). cbn [of_opt mbind result_bind]. eauto.
  - destruct (Hw i eq_refl) as (s & ->). cbn [of_opt mbind result_bind]. eauto.
  - destruct (Hw i eq_refl) as (s & ->). cbn [of_opt mbind result_bind]. eauto.
  - destruct (Hw i eq_refl) as (s & ->). cbn [of_opt mbind result_bind]. eauto.
  - destruct (Hw i eq_refl) as (s & ->). cbn [of_opt mbind result_bind]. eauto.
Qed.

Lemma host_progress st t h : sinv st -> hosts st !! t = Some h -> h_pc h <> HIdle ->
  exists st', host_step st t = Ok st'.
Proof.
  intros Hinv Hh Hpc. pose proof Hinv as ([Hlen Hall] & _ & Hd). unfold host_step. rewrite Hh.
  destruct (k_slots (dev st) !! t) as [s|] eqn:Hs.
  2: { apply lookup_ge_None in Hs. apply lookup_lt_Some in Hh. lia. }
  pose proof (active_booted st t h s Hinv Hh Hs Hpc) as Hb.
  destruct (Hall t h s Hh Hs) as [_ Hl]. unfold host_local in Hl.
  cbn [of_opt mbind result_bind]. destruct (h_pc h) as [|op p r|op p r|op p r|op p r| |]; try done; eauto.
  destruct Hl as (_ & Hask & _).
  destruct Hd as [(? & _)|(_ & _ & _ & Hm & X & fl & _ & [_ _ ? _ _] & _)]; [done|].
  destruct (draw_level_spec (CURR_MAX_LEVEL (dev st)) r ltac:(lia) (proj2 (proj2 Hask))) as (lv & -> & _).
  cbn [mbind result_bind]. eauto.
Qed.

(** The requests that wait in the slots are legal. *)
Lemma slots_legal st : sinv st -> Forall (slot_legal (dev st)) (k_slots (dev st)).
Proof.
  intros ([Hlen Hall] & _ & _). apply Forall_lookup. intros t s Hs Hv.
  destruct (hosts st !! t) as [h|] eqn:Hh.
  2: { apply lookup_ge_None in Hh. apply lookup_lt_Some in Hs. lia. }
  destruct (Hall t h s Hh Hs) as [_ Hl]. unfold host_local in Hl.
  destruct (h_pc h); try congruence; try (by apply Hl); destruct Hl; congruence.
Qed.

End invariant.

(** ** The kernel alone *)

Section alone.
Context (MAX_LEVEL num : nat).

(** [n] steps of the kernel without a step of the host. *)
Fixpoint kernel_run (n : nat) (st : sys) : result sys :=
  match n with O => Ok st | S n' => st1 ← kernel_step MAX_LEVEL num st; kernel_run n' st1 end.

Lemma kernel_run_app n m st st1 : kernel_run n st = Ok st1 -> kernel_run (n + m) st = kernel_run m st1.
Proof.
  revert st. induction n as [|n IH]; intros st H; cbn [kernel_run Nat.add] in *; [by injection H as ->|].
  apply bind_Ok in H as (st2 & -> & H). cbn [mbind result_bind]. by apply IH.
Qed.

Lemma kernel_run_S n st st1 : kernel_step MAX_LEVEL num st = Ok st1 ->
  kernel_run (S n) st = kernel_run n st1.
Proof. intros H. cbn [kernel_run]. by rewrite H. Qed.

(** One step of the kernel that reads the slot found by [E]. *)
Ltac kernel_does E :=
  erewrite kernel_run_S;
  [|unfold kernel_step; cbn [kernel at_kernel put_dev logs dev]; rewrite ?E;
    cbn [of_opt mbind result_bind]; reflexivity].

(** The steps for one slot do what the body of the source's loop does. *)
Lemma kernel_run_slot st i d' :
  kernel st = KCheck i -> (i < length (k_slots (dev st)))%nat ->
  serve_slot MAX_LEVEL num (dev st) i = Ok d' ->
  exists n tr, kernel_run n st = Ok (mkSys d' (KCheck (S i)) (hosts st) tr).
Proof.
  intros Ek Hi Hrun. unfold serve_slot in Hrun. apply bind_Ok in Hrun as (s & Hs & Hrun). apply of_opt_Ok in Hs.
  destruct (CHECK_VALID_REQUEST skip_info (info_bits s) =? 0) eqn:Ev.
  { injection Hrun as <-. exists 1%nat, (strace st). cbn [kernel_run]. unfold kernel_step.
    rewrite Ek, Hs, Ev. done. }
  apply bind_Ok in Hrun as ([d1 r] & He & Hrun). cbn iota in Hrun.
  apply bind_Ok in Hrun as (s1 & Hs1 & Hrun). apply bind_Ok in Hrun as (s2 & Hs2 & Hrun).
  apply bind_Ok in Hrun as (s3 & Hs3 & [= <-]).
  exists 9%nat, (Lin (Z.of_nat i) (EXTRACT_OPERATION skip_info (info_bits s)) (parameter s) r :: strace st).
  erewrite kernel_run_S; [|unfold kernel_step; rewrite Ek, Hs, Ev; reflexivity].
  kernel_does Hs.
  erewrite kernel_run_S;
    [|unfold kernel_step; cbn [kernel at_kernel dev]; rewrite Hs; cbn [of_opt mbind result_bind];
      rewrite He; cbn [mbind result_bind]; reflexivity].
  kernel_does Hs1. kernel_does Hs1. kernel_does Hs2. kernel_does Hs2. kernel_does Hs3. kernel_does Hs3.
  done.
Qed.

Lemma serve_slot_keeps d i d' : serve_slot MAX_LEVEL num d i = Ok d' ->
  length (k_slots d') = length (k_slots d) /\ k_op d' = k_op d.
Proof.
  intros Hrun. unfold serve_slot in Hrun. apply bind_Ok in Hrun as (s & Hs & Hrun).
  destruct (_ =? 0); [by injection Hrun as <-|].
  apply bind_Ok in Hrun as ([d1 r] & He & Hrun). cbn iota in Hrun.
  assert (Hd1 : k_slots d1 = k_slots d /\ k_op d1 = k_op d).
  { unfold exec_request in He. apply bind_Ok in He as ([[f p] q] & _ & He). cbn iota in He.
    repeat (case_match; run_inv; try done). }
  destruct Hd1 as [E1 E2]. run_inv. cbn. by rewrite !length_insert, E1.
Qed.

Lemma kernel_run_scan ids : forall st d',
  (exists i, ids = seq i (length (k_slots (dev st)) - i) /\ kernel st = KCheck i /\
     (i <= length (k_slots (dev st)))%nat) ->
  scan MAX_LEVEL num (dev st) ids = Ok d' ->
  exists n tr, kernel_run n st = Ok (mkSys d' KTop (hosts st) tr).
Proof.
  induction ids as [|j ids IH]; intros st d' (i & Hids & Ek & Hi) Hrun; cbn [scan] in Hrun.
  - injection Hrun as <-. exists 1%nat, (strace st). cbn [kernel_run]. unfold kernel_step. rewrite Ek.
    rewrite (lookup_ge_None_2 (k_slots (dev st)) i); [done|].
    destruct (length (k_slots (dev st)) - i)%nat eqn:E; [lia|done].
  - destruct (length (k_slots (dev st)) - i)%nat as [|m] eqn:Em; [done|]. injection Hids as -> ->.
    apply bind_Ok in Hrun as (d1 & H1 & Hrun). destruct (serve_slot_keeps _ _ _ H1) as [El Eo].
    destruct (kernel_run_slot st i d1 Ek ltac:(lia) H1) as (n & tr & Hn).
    destruct (IH (mkSys d1 (KCheck (S i)) (hosts st) tr) d') as (n2 & tr2 & Hn2).
    + exists (S i). cbn [dev kernel]. rewrite El. split_and!; [f_equal; lia|done|lia].
    + done.
    + exists (n + n2)%nat, tr2. by rewrite (kernel_run_app _ _ _ _ Hn).
Qed.

(** An iteration of the source's loop, by steps of the kernel. *)
Lemma kernel_run_iter st d' :
  kernel st = KTop -> 1 <= k_op (dev st) < 3 ->
  kernel_iter MAX_LEVEL num (dev st) = Ok (d', true) ->
  exists n tr, kernel_run n st = Ok (mkSys d' KTop (hosts st) tr).
Proof.
  intros Ek Hop Hrun. unfold kernel_iter in Hrun. rewrite (proj2 (Z.eqb_neq (k_op (dev st)) 0)) in Hrun by lia.
  destruct (Z.leb_spec 3 (k_op (dev st))); [lia|].
  apply bind_Ok in Hrun as (d1 & Hrun & [= <-]).
  destruct (kernel_run_scan (seq 0 (length (k_slots (dev st)))) (at_kernel st (KCheck 0)) d1) as (n & tr & Hn).
  - exists 0%nat. cbn [at_kernel dev kernel]. rewrite Nat.sub_0_r. split_and!; try done. lia.
  - done.
  - exists (S n), tr. erewrite kernel_run_S; [exact Hn|].
    unfold kernel_step. rewrite Ek, (proj2 (Z.eqb_neq (k_op (dev st)) 0)) by lia.
    by destruct (Z.leb_spec 3 (k_op (dev st))); [lia|].
Qed.

Lemma kernel_run_rtc n : forall st st', kernel_run n st = Ok st' -> rtc (sys_step MAX_LEVEL num) st st'.
Proof.
  induction n as [|n IH]; intros st st' H; cbn [kernel_run] in H; [by injection H as <-|].
  apply bind_Ok in H as (st1 & H1 & H). eapply rtc_l; [by apply sys_kernel|by apply IH].
Qed.

End alone.

(** ** Properties *)

(** C5: Linearizability of the PIM skip list.  Any number of host threads issue
    operations while the kernel scans the slots, with every interleaving of their
    accesses, and the main thread closes and restarts the kernel at will.  In every
    reachable state, each thread's calls and returns alternate, every returned call was
    executed exactly once between call and return and returned the answer of that
    execution, the executions in their order are a run of a set of keys that starts
    empty, and once initialised the vault represents the resulting set. *)
Theorem pim_skiplist_linearizable MAX_LEVEL num d st :
  (MAX_LEVEL <= 31)%nat -> (2 <= num)%nat -> booting MAX_LEVEL num d ->
  rtc (sys_step MAX_LEVEL num) (sys_init d) st ->
  (forall t, (t < length (hosts st))%nat -> is_Some (status (Z.of_nat t) (strace st))) /\
  exists X, replay key_spec ∅ (strace st) = Some X /\
    (k_blocks (dev st) <> 0 -> exists fl, sk_ref MAX_LEVEL num X fl (dev st)).
Proof.
  intros Hcap Hnum Hb Hr. destruct (sinv_reachable MAX_LEVEL num Hcap Hnum d st Hb Hr) as ([Hlen Hall] & _ & Hd).
  split.
  - intros t Ht. destruct (lookup_lt_is_Some_2 (hosts st) t Ht) as [h Hh].
    destruct (lookup_lt_is_Some_2 (k_slots (dev st)) t ltac:(lia)) as [s Hs].
    destruct (Hall t h s Hh Hs) as [-> _]. eauto.
  - destruct Hd as [(Hz & -> & _)|(_ & _ & _ & _ & X & fl & Hx & Href & _)]; [by exists ∅|].
    exists X. split; [done|]. intros _. by exists fl.
Qed.

(** No thread is ever stuck, and the kernel follows no wild pointer: in every
    reachable state a host thread inside an operation has a next step, and so has the
    kernel unless it was closed, as long as the successful additions so far have not
    used up the blocks of the vault. *)
Theorem pim_threads_never_crash MAX_LEVEL num d st :
  (MAX_LEVEL <= 31)%nat -> (2 <= num)%nat -> booting MAX_LEVEL num d ->
  rtc (sys_step MAX_LEVEL num) (sys_init d) st ->
  (forall t h, hosts st !! t = Some h -> h_pc h <> HIdle -> exists st', host_step st t = Ok st') /\
  (kernel st <> KHalt -> (used (strace st) < num - 2)%nat ->
   exists st', kernel_step MAX_LEVEL num st = Ok st').
Proof.
  intros Hcap Hnum Hb Hr. pose proof (sinv_reachable MAX_LEVEL num Hcap Hnum d st Hb Hr) as Hinv. split.
  - intros t h. by apply (host_progress MAX_LEVEL num).
  - intros Hk Hu. by apply (kernel_progress MAX_LEVEL num).
Qed.

(** C34: The kernel answers.  In a reachable state in which the kernel is at the top of its
    loop in the mode of list operations, and the vault has room for the additions that
    wait (the blocks used and these additions are at most two fewer than all blocks; without a free block the kernel writes through a null pointer), the kernel alone reaches the top of its loop again; then no slot holds a
    request, and every polling thread finds in its slot the answer of the one execution
    of its request. *)
Theorem pim_round_answers MAX_LEVEL num d st :
  (MAX_LEVEL <= 31)%nat -> (2 <= num)%nat -> booting MAX_LEVEL num d ->
  rtc (sys_step MAX_LEVEL num) (sys_init d) st ->
  kernel st = KTop -> 1 <= k_op (dev st) < 3 ->
  (used (strace st) + adds (k_slots (dev st)) <= num - 2)%nat ->
  exists n st', kernel_run MAX_LEVEL num n st = Ok st' /\ kernel st' = KTop /\ hosts st' = hosts st /\
    forall t h s, hosts st' !! t = Some h -> k_slots (dev st') !! t = Some s ->
      valid s = false /\
      (h_pc h = HPoll -> status (Z.of_nat t) (strace st') = Some (Answered (GET_RETVAL (info_bits s)))).
Proof.
  intros Hcap Hnum Hb Hr Ek Hop Hroom.
  pose proof (sinv_reachable MAX_LEVEL num Hcap Hnum d st Hb Hr) as Hinv. pose proof Hinv as (_ & _ & Hd).
  destruct Hd as [(_ & _ & (? & _) & _)|(_ & _ & _ & _ & X & fl & _ & Href & Hf)]; [lia|].
  destruct (scan_spec MAX_LEVEL num (k_slots (dev st)) X fl (dev st) [] Href eq_refl)
    as (d' & fl' & Hrun & _ & Hsl & _); [by eapply slots_legal|lia|].
  destruct (kernel_run_iter MAX_LEVEL num st d' Ek Hop) as (n & tr & Hn).
  { unfold kernel_iter. rewrite (proj2 (Z.eqb_neq (k_op (dev st)) 0)) by lia.
    destruct (Z.leb_spec 3 (k_op (dev st))); [lia|]. simpl length in Hrun. by rewrite Hrun. }
  exists n, (mkSys d' KTop (hosts st) tr). split_and!; try done. cbn [hosts dev strace].
  intros t h s Hh Hs.
  assert (Hinv' : sinv MAX_LEVEL num (mkSys d' KTop (hosts st) tr)).
  { apply (sinv_reachable MAX_LEVEL num Hcap Hnum d); [done|]. etrans; [exact Hr|]. by eapply kernel_run_rtc. }
  destruct Hinv' as ([_ Hall] & _ & _). destruct (Hall t h s Hh Hs) as [Hst _]. cbn [strace kernel] in Hst.
  assert (Hv : valid s = false).
  { pose proof (served_done X (k_time (dev st)) (k_slots (dev st))) as Hv. simpl in Hsl.
    rewrite <- Hsl, Forall_lookup in Hv. by eapply Hv. }
  split; [done|]. intros Hpc. rewrite Hst. unfold host_status. rewrite Hpc. cbn [kanswer]. by rewrite Hv.
Qed.

(** The steps of the kernel and the loop of the source agree: an iteration of the loop
    over the slots, run by the kernel's steps without interference, ends in the state that
    the source's iteration computes. *)
Theorem pim_kernel_steps_iterate MAX_LEVEL num st d' :
  kernel st = KTop -> 1 <= k_op (dev st) < 3 ->
  kernel_iter MAX_LEVEL num (dev st) = Ok (d', true) ->
  exists n tr, kernel_run MAX_LEVEL num n st = Ok (mkSys d' KTop (hosts st) tr).
Proof. exact (kernel_run_iter MAX_LEVEL num st d'). Qed.

(** ** Instances of the properties *)

(** A schedule: calls, steps of a host thread, steps of the kernel. *)
Inductive turn := Call (t : nat) (op param r : Z) | Host (t : nat) | Kernel.

Fixpoint sys_run (MAX_LEVEL num : nat) (sched : list turn) (st : sys) : result sys :=
  match sched with
  | [] => Ok st
  | Call t op param r :: sched' =>
      if bool_decide (k_blocks (dev st) <> 0 /\
           op ∈ [ib_add skip_info; ib_remove skip_info; ib_contains skip_info] /\
           0 <= param < UINT32_MAX /\ 0 <= r) then
        match hosts st !! t with
        | Some (mkHost HIdle _) => st1 ← host_call st t op param r; sys_run MAX_LEVEL num sched' st1
        | _ => UB
        end
      else UB
  | Host t :: sched' => st1 ← host_step st t; sys_run MAX_LEVEL num sched' st1
  | Kernel :: sched' => st1 ← kernel_step MAX_LEVEL num st; sys_run MAX_LEVEL num sched' st1
  end.

Lemma sys_run_rtc MAX_LEVEL num sched : forall st st',
  sys_run MAX_LEVEL num sched st = Ok st' -> rtc (sys_step MAX_LEVEL num) st st'.
Proof.
  induction sched as [|[t op param r|t|] sched IH]; intros st st' H; cbn [sys_run] in H.
  - by injection H as <-.
  - case_bool_decide as Hc; [|done]. destruct Hc as (Hb & Ho & Hp & Hr).
    destruct (hosts st !! t) as [[[] b]|] eqn:Hh; try done.
    apply bind_Ok in H as (st1 & H1 & H). eapply rtc_l; [|by apply IH].
    eapply (sys_call _ _ st st1 t op param r); try done. by rewrite Hh.
  - apply bind_Ok in H as (st1 & H1 & H). eapply rtc_l; [by eapply sys_host|by apply IH].
  - apply bind_Ok in H as (st1 & H1 & H). eapply rtc_l; [by eapply sys_kernel|by apply IH].
Qed.

Definition demo_dev : kst := demo_boot 5 [idle_slot; idle_slot].

Lemma demo_booting : booting 2 5 demo_dev.
Proof.
  unfold booting. repeat apply conj; try reflexivity; try (cbn; lia).
  1, 2: apply demo_fresh. repeat constructor.
Qed.

(** The kernel starts; thread 0 asks for 7 to be added, thread 1 whether it is there. *)
Definition demo_sched : list turn :=
  [Kernel; Kernel; Kernel; Call 0 0x40 7 1; Host 0; Host 0; Call 1 0x60 7 0; Host 0; Host 1; Host 0;
   Host 1; Host 1].
Definition demo_sys : sys :=
  match sys_run 2 5 demo_sched (sys_init demo_dev) with Ok st => st | _ => sys_init demo_dev end.

Lemma demo_sys_reachable : rtc (sys_step 2 5) (sys_init demo_dev) demo_sys.
Proof. apply (sys_run_rtc 2 5 demo_sched). vm_compute. reflexivity. Qed.

Lemma pim_skiplist_linearizable_witness :
  strace demo_sys = [Inv 1 0x60 7; Inv 0 0x40 7] /\
  exists X, replay key_spec ∅ (strace demo_sys) = Some X.
Proof.
  split; [vm_compute; reflexivity|].
  destruct (pim_skiplist_linearizable 2 5 demo_dev demo_sys) as (_ & X & HX & _).
  - lia.
  - lia.
  - exact demo_booting.
  - exact demo_sys_reachable.
  - exists X. exact HX.
Defined.

Lemma pim_threads_never_crash_witness :
  exists st', kernel_step 2 5 demo_sys = Ok st'.
Proof.
  destruct (pim_threads_never_crash 2 5 demo_dev demo_sys) as (_ & H).
  - lia.
  - lia.
  - exact demo_booting.
  - exact demo_sys_reachable.
  - apply H; [vm_compute; discriminate|vm_compute; lia].
Defined.

(** Both requests are answered in one round. *)
Lemma pim_round_answers_witness :
  exists n st', kernel_run 2 5 n demo_sys = Ok st' /\ kernel st' = KTop.
Proof.
  destruct (pim_round_answers 2 5 demo_dev demo_sys) as (n & st' & H1 & H2 & _).
  - lia.
  - lia.
  - exact demo_booting.
  - exact demo_sys_reachable.
  - vm_compute. reflexivity.
  - vm_compute. split; [discriminate|reflexivity].
  - vm_compute. lia.
  - exists n, st'. split; [exact H1|exact H2].
Defined.

Definition demo_after : kst :=
  match kernel_iter 2 5 (dev demo_sys) with Ok (d, _) => d | _ => dev demo_sys end.

Lemma pim_kernel_steps_iterate_witness :
  GET_RETVAL <$> (info_bits <$> k_slots demo_after) = [1; 1] /\
  exists n tr, kernel_run 2 5 n demo_sys = Ok (mkSys demo_after KTop (hosts demo_sys) tr).
Proof.
  split; [vm_compute; reflexivity|].
  apply (pim_kernel_steps_iterate 2 5 demo_sys demo_after).
  - vm_compute. reflexivity.
  - vm_compute. split; [discriminate|reflexivity].
  - vm_compute. reflexivity.
Defined.
