(* ===== verification/PimSort.v ===== *)
(** * The sort of the linked-list kernel

    clean_linked_list.c (src/SMC/SW/PIM/kernels) sorts the pending requests by
    their keys with a quicksort over an array of pointers to request slots.  The
    partition is Hoare's: two indices move towards each other without a test of
    the array bounds, and the loop is left only from its middle.  This file models
    [partition] and [quicksort] on the array as it is in memory, a read out of range
    or through NULL being undefined, and proves that they return, stay in range,
    only permute the cells between the two indices and sort them. *)

From S2P Require Import Prelude.

(** A pointer to a request slot: its number, or [None] for NULL. *)
Abbreviation slotptr := (option nat).

Section sort.
(** [par r] is the parameter of the slot [r], [None] if there is no such slot. *)
Context (par : nat -> option Z).

(** [requests[i]], and [(requests[i])->parameter]; [i] is an [int]. *)
Definition cell (a : list slotptr) (i : Z) : result slotptr :=
  if 0 <=? i then of_opt (a !! Z.to_nat i) else UB.
Definition key_at (a : list slotptr) (i : Z) : result Z :=
  r ← cell a i; n ← of_opt r; of_opt (par n).

(** [do { i++; } while ((requests[i])->parameter < pivot);] where [pivot] is an [int]
    and the comparison one of unsigned numbers. *)
Fixpoint scan_up (fuel : nat) (a : list slotptr) (pivot i : Z) : result Z :=
  match fuel with
  | O => NoFuel
  | S fuel' =>
      k ← key_at a (i + 1);
      if k <? u32 pivot then scan_up fuel' a pivot (i + 1) else Ok (i + 1)
  end.

(** [do { j--; } while ((requests[j])->parameter > pivot);] *)
Fixpoint scan_down (fuel : nat) (a : list slotptr) (pivot j : Z) : result Z :=
  match fuel with
  | O => NoFuel
  | S fuel' =>
      k ← key_at a (j - 1);
      if u32 pivot <? k then scan_down fuel' a pivot (j - 1) else Ok (j - 1)
  end.

Definition swap (a : list slotptr) (i j : Z) : result (list slotptr) :=
  x ← cell a i; y ← cell a j;
  Ok (<[Z.to_nat j := x]> (<[Z.to_nat i := y]> a)).

(** The [while (1)] of [partition]. *)
Fixpoint partition_loop (fuel : nat) (a : list slotptr) (pivot i j : Z)
  : result (list slotptr * Z) :=
  match fuel with
  | O => NoFuel
  | S fuel' =>
      i1 ← scan_up (S (length a)) a pivot i;
      j1 ← scan_down (S (length a)) a pivot j;
      if j1 <=? i1 then Ok (a, j1)
      else
        a1 ← swap a i1 j1;
        partition_loop fuel' a1 pivot i1 j1
  end.

Definition partition (a : list slotptr) (low_index high_index : Z) : result (list slotptr * Z) :=
  k ← key_at a low_index;
  partition_loop (S (length a)) a (s32 k) (low_index - 1) (high_index + 1).

Fixpoint quicksort (fuel : nat) (a : list slotptr) (low_index high_index : Z)
  : result (list slotptr) :=
  match fuel with
  | O => NoFuel
  | S fuel' =>
      if low_index <? high_index then
        '(a1, pivot) ← partition a low_index high_index;
        a2 ← quicksort fuel' a1 low_index pivot;
        quicksort fuel' a2 (pivot + 1) high_index
      else Ok a
  end.

(** ** Arrays of live pointers *)

(** The cells from [low] to [high] point to slots whose keys satisfy [P]. *)
Definition seg (a : list slotptr) (low high : Z) (P : Z -> Prop) : Prop :=
  forall i, low <= i <= high -> exists k, key_at a i = Ok k /\ P k.

Lemma u32_s32 k : is_u32 k -> u32 (s32 k) = k.
Proof. unfold is_u32, u32, s32, u32_mod. intros H. Z.div_mod_to_equations. lia. Qed.

Lemma cell_Ok a i x : cell a i = Ok x <-> 0 <= i /\ a !! Z.to_nat i = Some x.
Proof.
  unfold cell. destruct (Z.leb_spec 0 i).
  - rewrite of_opt_Ok. tauto.
  - split; [done|]. intros [? _]. lia.
Qed.

Lemma key_at_cell a i k : key_at a i = Ok k ->
  exists x, cell a i = Ok x /\ (Z.to_nat i < length a)%nat /\ 0 <= i.
Proof.
  unfold key_at. intros H. run_inv. exists v. split; [done|].
  apply cell_Ok in E as [? Hl]. split; [by eapply lookup_lt_Some|done].
Qed.

Lemma key_at_eq a a' i j : cell a' j = cell a i -> key_at a' j = key_at a i.
Proof. unfold key_at. by intros ->. Qed.

(** ** Permutations of a segment *)

(** [a'] is [a] with the cells from [low] to [high] rearranged. *)
Record shuffled (low high : Z) (a a' : list slotptr) : Prop := {
  sh_perm : a' ≡ₚ a;
  sh_out i : ~ low <= i <= high -> cell a' i = cell a i;
  sh_in i : low <= i <= high -> exists j, low <= j <= high /\ cell a' i = cell a j;
}.

#[local] Instance shuffled_preorder low high : PreOrder (shuffled low high).
Proof.
  split.
  - intros a. split; [done..|]. intros i Hi. by exists i.
  - intros a b c [P1 O1 I1] [P2 O2 I2]. split.
    + by rewrite P2.
    + intros i Hi. by rewrite O2, O1.
    + intros i Hi. destruct (I2 i Hi) as (j & Hj & ->). destruct (I1 j Hj) as (k & Hk & ->).
      by exists k.
Qed.

Lemma shuffled_widen low high low' high' a a' :
  low' <= low -> high <= high' -> shuffled low high a a' -> shuffled low' high' a a'.
Proof.
  intros Hl Hh [P O I]. split; [done|..].
  - intros i Hi. apply O. lia.
  - intros i Hi. destruct (decide (low <= i <= high)) as [Hd|Hd].
    + destruct (I i Hd) as (j & Hj & E). exists j. split; [lia|done].
    + exists i. split; [done|by apply O].
Qed.

(** What holds of the keys of a segment holds after it was rearranged. *)
Lemma shuffled_keys low high a a' (P : Z -> Prop) :
  shuffled low high a a' -> seg a low high P -> seg a' low high P.
Proof.
  intros [_ _ I] H i Hi. destruct (I i Hi) as (j & Hj & E).
  destruct (H j Hj) as (k & Hk & HP). exists k. split; [|done].
  rewrite <- Hk. unfold key_at. by rewrite E.
Qed.

Lemma shuffled_out low high a a' i : shuffled low high a a' -> ~ low <= i <= high ->
  key_at a' i = key_at a i.
Proof. intros [_ O _] Hi. by apply key_at_eq, O. Qed.

(** Swapping two cells. *)
Lemma swap_spec a i j x y : cell a i = Ok x -> cell a j = Ok y -> i < j ->
  exists a', swap a i j = Ok a' /\ a' ≡ₚ a /\ length a' = length a /\
    cell a' i = Ok y /\ cell a' j = Ok x /\ forall k, k <> i -> k <> j -> cell a' k = cell a k.
Proof.
  intros Hi Hj Hlt. unfold swap. rewrite Hi, Hj. cbn [mbind result_bind].
  apply cell_Ok in Hi as [Hi0 Hi]. apply cell_Ok in Hj as [Hj0 Hj].
  pose proof (lookup_lt_Some _ _ _ Hi) as Li. pose proof (lookup_lt_Some _ _ _ Hj) as Lj.
  assert (Hne : Z.to_nat i <> Z.to_nat j) by lia.
  eexists. split; [done|]. split_and!.
  - rewrite <- (list_insert_id a (Z.to_nat i) x Hi) at 2.
    rewrite <- (list_insert_id (<[Z.to_nat i := x]> a) (Z.to_nat j) y)
      by (by rewrite list_lookup_insert_ne).
    apply Permutation_inj. split; [by rewrite !length_insert|].
    exists (fun n => if decide (n = Z.to_nat i) then Z.to_nat j
                     else if decide (n = Z.to_nat j) then Z.to_nat i else n). split.
    + intros n m. repeat case_decide; lia.
    + intros n. repeat case_decide; subst.
      * rewrite list_lookup_insert_ne, list_lookup_insert_eq by done.
        by rewrite list_lookup_insert_eq by (by rewrite length_insert).
      * rewrite list_lookup_insert_eq by (by rewrite length_insert).
        by rewrite list_lookup_insert_ne, list_lookup_insert_eq by done.
      * by rewrite !list_lookup_insert_ne by done.
  - by rewrite !length_insert.
  - apply cell_Ok. split; [done|]. rewrite list_lookup_insert_ne by done. by apply list_lookup_insert_eq.
  - apply cell_Ok. split; [done|]. apply list_lookup_insert_eq. by rewrite length_insert.
  - intros k Hki Hkj. unfold cell. destruct (Z.leb_spec 0 k); [|done].
    by rewrite !list_lookup_insert_ne by lia.
Qed.

Lemma seg_impl a low high low' high' (P Q : Z -> Prop) :
  seg a low high P -> low <= low' -> high' <= high -> (forall k, P k -> Q k) -> seg a low' high' Q.
Proof. intros H Hl Hh HPQ i Hi. destruct (H i ltac:(lia)) as (k & ? & ?). eauto. Qed.

Lemma seg_ext a a' low high P :
  (forall i, low <= i <= high -> cell a' i = cell a i) -> seg a low high P -> seg a' low high P.
Proof.
  intros He H i Hi. destruct (H i Hi) as (k & Hk & HP). exists k. split; [|done].
  by rewrite (key_at_eq a a' i i) by auto.
Qed.

(** Two segments next to each other. *)
Lemma seg_join a low mid high P : seg a low mid P -> seg a (mid + 1) high P -> seg a low high P.
Proof. intros H1 H2 i Hi. destruct (decide (i <= mid)); [apply H1; lia|apply H2; lia]. Qed.

(** ** The scans *)

Lemma scan_up_spec a pivot t k (Hp : is_u32 pivot) : key_at a t = Ok k -> pivot <= k -> forall fuel i,
  seg a (i + 1) t is_u32 -> i < t -> t - i <= Z.of_nat fuel ->
  exists i' k', scan_up fuel a (s32 pivot) i = Ok i' /\ i < i' <= t /\ key_at a i' = Ok k' /\
    pivot <= k' /\ seg a (i + 1) (i' - 1) (fun x => x < pivot).
Proof.
  intros Ht Hk. induction fuel as [|fuel IH]; intros i Hs Hi Hf; [lia|]. cbn [scan_up].
  destruct (Hs (i + 1) ltac:(lia)) as (x & Hx & Hux). rewrite Hx, u32_s32 by done.
  cbn [mbind result_bind]. destruct (Z.ltb_spec x pivot) as [Hlt|Hge].
  - assert (i + 1 <> t) by (intros E; rewrite E, Ht in Hx; injection Hx as <-; lia).
    destruct (IH (i + 1)) as (i' & k' & Hrun & Hi' & Hk' & Hle & Hseg); [|lia|lia|].
    { eapply seg_impl; [exact Hs|lia|lia|done]. }
    exists i', k'. split_and!; try done; [lia..|]. apply (seg_join _ _ (i + 1)); [|done].
    intros j Hj. replace j with (i + 1) by lia. eauto.
  - exists (i + 1), x. split_and!; try done; [lia..|]. intros j Hj. lia.
Qed.

Lemma scan_down_spec a pivot t k (Hp : is_u32 pivot) : key_at a t = Ok k -> k <= pivot -> forall fuel j,
  seg a t (j - 1) is_u32 -> t < j -> j - t <= Z.of_nat fuel ->
  exists j' k', scan_down fuel a (s32 pivot) j = Ok j' /\ t <= j' < j /\ key_at a j' = Ok k' /\
    k' <= pivot /\ seg a (j' + 1) (j - 1) (fun x => pivot < x).
Proof.
  intros Ht Hk. induction fuel as [|fuel IH]; intros j Hs Hj Hf; [lia|]. cbn [scan_down].
  destruct (Hs (j - 1) ltac:(lia)) as (x & Hx & Hux). rewrite Hx, u32_s32 by done.
  cbn [mbind result_bind]. destruct (Z.ltb_spec pivot x) as [Hlt|Hge].
  - assert (j - 1 <> t) by (intros E; rewrite E, Ht in Hx; injection Hx as <-; lia).
    destruct (IH (j - 1)) as (j' & k' & Hrun & Hj' & Hk' & Hle & Hseg); [|lia|lia|].
    { eapply seg_impl; [exact Hs|lia|lia|done]. }
    exists j', k'. split_and!; try done; [lia..|]. apply (seg_join _ _ (j - 1 - 1)); [done|].
    intros i Hi. replace i with (j - 1) by lia. eauto.
  - exists (j - 1), x. split_and!; try done; [lia..|]. intros i Hi. lia.
Qed.

(** ** The partition *)

(** The state at the head of the loop, after the first exchange: the cells up to [i] are
    at most the pivot, those from [j] on at least; [a0] is the array at the start. *)
Record part_inv (pivot low high : Z) (a0 a : list slotptr) (i j : Z) : Prop := {
  pi_sh : shuffled low high a0 a;
  pi_u32 : seg a low high is_u32;
  pi_range : low <= i /\ i < j /\ j <= high;
  pi_lo : seg a low i (fun k => k <= pivot);
  pi_hi : seg a j high (fun k => pivot <= k);
}.

(** What [partition] returns. *)
Definition parted (pivot low high : Z) (a0 a : list slotptr) (p : Z) : Prop :=
  shuffled low high a0 a /\ seg a low high is_u32 /\ low <= p < high /\
  seg a low p (fun k => k <= pivot) /\ seg a (p + 1) high (fun k => pivot <= k).

Lemma seg_length a low high P : 0 <= low <= high -> seg a low high P -> high < Z.of_nat (length a).
Proof.
  intros Hl H. destruct (H high ltac:(lia)) as (k & Hk & _).
  apply key_at_cell in Hk as (x & _ & Hlt & _). lia.
Qed.

(** One exchange keeps the invariant. *)
Lemma part_swap pivot low high a0 a i j ki kj :
  shuffled low high a0 a -> seg a low high is_u32 -> low <= i -> i < j -> j <= high ->
  key_at a i = Ok ki -> pivot <= ki -> key_at a j = Ok kj -> kj <= pivot ->
  seg a low (i - 1) (fun k => k <= pivot) -> seg a (j + 1) high (fun k => pivot <= k) ->
  exists a', swap a i j = Ok a' /\ length a' = length a /\ part_inv pivot low high a0 a' i j.
Proof.
  intros Hsh Hu Hli Hij Hjh Hki Hpi Hkj Hpj Hlo Hhi.
  pose proof (key_at_cell _ _ _ Hki) as (x & Hx & _). pose proof (key_at_cell _ _ _ Hkj) as (y & Hy & _).
  destruct (swap_spec a i j x y Hx Hy Hij) as (a' & Hsw & Hperm & Hlen & Hi & Hj & Ho).
  assert (Hs : shuffled low high a a').
  { split; [done|..].
    - intros k Hk. apply Ho; lia.
    - intros k Hk. destruct (decide (k = i)) as [->|]; [exists j; split; [lia|congruence]|].
      destruct (decide (k = j)) as [->|]; [exists i; split; [lia|congruence]|]. exists k. split; [done|]. by apply Ho. }
  exists a'. split_and!; try done. split.
  - by etrans.
  - by eapply shuffled_keys.
  - lia.
  - apply (seg_join _ _ (i - 1)).
    + eapply seg_ext; [|exact Hlo]. intros k Hk. apply Ho; lia.
    + intros k Hk. replace k with i by lia. exists kj. split; [|done]. by rewrite (key_at_eq a a' j i) by congruence.
  - apply (seg_join _ _ j).
    + intros k Hk. replace k with j by lia. exists ki. split; [|done]. by rewrite (key_at_eq a a' i j) by congruence.
    + eapply seg_ext; [|exact Hhi]. intros k Hk. apply Ho; lia.
Qed.

Lemma partition_loop_spec pivot low high a0 (Hp : is_u32 pivot) (Hl : 0 <= low) : forall fuel a i j,
  part_inv pivot low high a0 a i j -> j - i <= Z.of_nat fuel ->
  exists a' p, partition_loop fuel a (s32 pivot) i j = Ok (a', p) /\ parted pivot low high a0 a' p.
Proof.
  induction fuel as [|fuel IH]; intros a i j [Hsh Hu Hr Hlo Hhi] Hf; [lia|]. cbn [partition_loop].
  pose proof (seg_length a low high _ ltac:(lia) Hu) as Hlen.
  destruct (Hhi j ltac:(lia)) as (kj & Hkj & Hpj). destruct (Hlo i ltac:(lia)) as (ki & Hki & Hpi).
  destruct (scan_up_spec a pivot j kj Hp Hkj Hpj (S (length a)) i)
    as (i1 & k1 & -> & Hi1 & Hk1 & Hge & Hup); [eapply seg_impl; [exact Hu|lia|lia|done]|lia|lia|].
  destruct (scan_down_spec a pivot i ki Hp Hki Hpi (S (length a)) j)
    as (j1 & k2 & -> & Hj1 & Hk2 & Hle & Hdn); [eapply seg_impl; [exact Hu|lia|lia|done]|lia|lia|].
  cbn [mbind result_bind].
  assert (Hlo1 : seg a low (i1 - 1) (fun k => k <= pivot)).
  { apply (seg_join _ _ i); [done|]. eapply seg_impl; [exact Hup|lia|lia|]. simpl. lia. }
  assert (Hhi1 : seg a (j1 + 1) high (fun k => pivot <= k)).
  { apply (seg_join _ _ (j - 1)); [|by replace (j - 1 + 1) with j by lia].
    eapply seg_impl; [exact Hdn|lia|lia|]. simpl. lia. }
  destruct (Z.leb_spec j1 i1).
  - exists a, j1. split; [done|]. split_and!; try done; [lia..|].
    apply (seg_join _ _ (j1 - 1)); [eapply seg_impl; [exact Hlo1|lia|lia|done]|].
    intros k Hk. replace k with j1 by lia. eauto.
  - destruct (part_swap pivot low high a0 a i1 j1 k1 k2) as (a1 & -> & Hl1 & Hinv); try done; [lia..|].
    cbn [mbind result_bind]. apply IH; [done|lia].
Qed.

(** The first round of the loop, which stops at the pivot itself. *)
Lemma partition_spec low high a : 0 <= low < high -> seg a low high is_u32 ->
  exists a' p pivot, partition a low high = Ok (a', p) /\ parted pivot low high a a' p.
Proof.
  intros Hr Hu. destruct (Hu low ltac:(lia)) as (pivot & Hk & Hp).
  pose proof (seg_length a low high _ ltac:(lia) Hu) as Hlen.
  unfold partition. rewrite Hk. cbn [mbind result_bind partition_loop].
  destruct (scan_up_spec a pivot low pivot Hp Hk ltac:(lia) (S (length a)) (low - 1))
    as (i1 & k1 & -> & Hi1 & Hk1 & Hge & Hup); [eapply seg_impl; [exact Hu|lia|lia|done]|lia|lia|].
  assert (i1 = low) as -> by lia.
  destruct (scan_down_spec a pivot low pivot Hp Hk ltac:(lia) (S (length a)) (high + 1))
    as (j1 & k2 & -> & Hj1 & Hk2 & Hle & Hdn); [eapply seg_impl; [exact Hu|lia|lia|done]|lia|lia|].
  cbn [mbind result_bind]. rewrite Hk1 in Hk. injection Hk as ->.
  assert (Hhi1 : seg a (j1 + 1) high (fun k => pivot <= k)).
  { eapply seg_impl; [exact Hdn|lia|lia|]. simpl. lia. }
  assert (Hlo1 : seg a low low (fun k => k <= pivot)).
  { intros k ?. replace k with low by lia. exists pivot. split; [done|lia]. }
  destruct (Z.leb_spec j1 low).
  - assert (j1 = low) as -> by lia. exists a, low, pivot. split; [done|]. split_and!; try done; lia.
  - destruct (part_swap pivot low high a a low j1 pivot k2) as (a1 & -> & Hl1 & Hinv); try done; try lia.
    { intros k ?. lia. }
    cbn [mbind result_bind].
    destruct (partition_loop_spec pivot low high a Hp ltac:(lia) (length a) a1 low j1 Hinv ltac:(lia))
      as (a' & p & Hrun & Hpt). exists a', p, pivot. done.
Qed.

(** ** Quicksort *)

(** The keys from [low] to [high] ascend. *)
Definition ascending (a : list slotptr) (low high : Z) : Prop :=
  forall i j x y, low <= i -> i <= j -> j <= high -> key_at a i = Ok x -> key_at a j = Ok y -> x <= y.

Lemma quicksort_spec : forall fuel a low high, 0 <= low -> seg a low high is_u32 ->
  high - low < Z.of_nat fuel -> (0 < fuel)%nat ->
  exists a', quicksort fuel a low high = Ok a' /\ shuffled low high a a' /\ ascending a' low high.
Proof.
  induction fuel as [|fuel IH]; intros a low high Hl Hu Hf Hf0; [lia|]. cbn [quicksort].
  destruct (Z.ltb_spec low high) as [Hlt|Hge].
  2: { exists a. split_and!; [done|reflexivity|]. intros i j x y ? ? ? Hx Hy.
       assert (i = j) as -> by lia. rewrite Hx in Hy. injection Hy as ->. lia. }
  destruct (partition_spec low high a ltac:(lia) Hu) as (a1 & p & pivot & -> & Hsh1 & Hu1 & Hpr & Hlo & Hhi).
  cbn [mbind result_bind].
  destruct (IH a1 low p) as (a2 & -> & Hsh2 & Hasc2); [lia|eapply seg_impl; [exact Hu1|lia|lia|done]|lia|lia|].
  assert (Hext : forall i, p + 1 <= i <= high -> cell a2 i = cell a1 i) by (intros i Hi; apply Hsh2; lia).
  cbn [mbind result_bind].
  destruct (IH a2 (p + 1) high) as (a3 & -> & Hsh3 & Hasc3); [lia| |lia|lia|].
  { eapply seg_ext; [exact Hext|]. eapply seg_impl; [exact Hu1|lia|lia|done]. }
  exists a3. split; [done|]. split.
  - etrans; [exact Hsh1|]. etrans; [eapply shuffled_widen; [..|exact Hsh2]|eapply shuffled_widen; [..|exact Hsh3]]; lia.
  - assert (Hlo3 : seg a3 low p (fun k => k <= pivot)).
    { eapply seg_ext; [|by eapply shuffled_keys]. intros i Hi. apply Hsh3. lia. }
    assert (Hhi3 : seg a3 (p + 1) high (fun k => pivot <= k)).
    { eapply shuffled_keys; [exact Hsh3|]. by eapply seg_ext. }
    intros i j x y Hi Hij Hj Hx Hy. destruct (decide (j <= p)).
    + apply (Hasc2 i j x y); try done; rewrite <- (shuffled_out _ _ _ _ _ Hsh3); try done; lia.
    + destruct (decide (p < i)); [by apply (Hasc3 i j x y); try done; lia|].
      destruct (Hlo3 i ltac:(lia)) as (x' & Hx' & ?). destruct (Hhi3 j ltac:(lia)) as (y' & Hy' & ?).
      rewrite Hx in Hx'. rewrite Hy in Hy'. simplify_eq. lia.
Qed.
End sort.
