(* ===== verification/PimList.v ===== *)
(** * The linked list in a PIM vault

    Models src/SMC/SW/PIM/kernels/clean_linked_list.c, built with
    kernel_fc_with_sort_nonstop and PIM_DEBUG_ON: the nodes are laid out as skip-list
    nodes of 14 levels, which speeds up the initial insertions; afterwards the list
    operations follow the bottom level only.  In each round the kernel gathers the
    valid requests, sorts them by key (PimSort.v) and serves them in one traversal
    (ListCore.v) with the allocator of the vault (PimVault.v).  The theorems show that
    a round refines the operations on a set that holds at most NUM_MEM_BLOCKS - 2 keys,
    in the order of the keys, that blocks are neither lost nor shared, and what the
    initial insertions and [list_print] do. *)

From S2P Require Import Prelude SkipCore ListCore FCSkipList PimVault PimSkip PimSort.

(** [skiplist_node_t] *)
Definition list_layout : layout := mkLayout 14 false.

(** [request_slot_t] of multithread_nonstop_pim_linkedlist/defs.hh *)
Record list_slot := mkLSlot { ls_info : Z; ls_time : Z; ls_param : Z }.

(** The state of the device and the kernel's local arrays. *)
Record lkst := mkLK {
  lk_op : Z;                  (* SREG[0] *)
  lk_arg : Z;                 (* SREG[1]: number of blocks, level of a new node *)
  lk_time : Z;                (* SREG[2] *)
  LINKED_LIST_HEAD : Z;       (* SREG[4] *)
  LINKED_LIST_TAIL : Z;       (* SREG[5] *)
  lk_slots : list list_slot;
  lk_preds : arr;
  lk_succs : arr;
  valid_requests : list slotptr;
  lk_vault : vault;
}.

Definition lk_set_op (st : lkst) (op : Z) : lkst :=
  mkLK op (lk_arg st) (lk_time st) (LINKED_LIST_HEAD st) (LINKED_LIST_TAIL st) (lk_slots st)
       (lk_preds st) (lk_succs st) (valid_requests st) (lk_vault st).
Definition lk_set_slot (st : lkst) (i : nat) (s : list_slot) : lkst :=
  mkLK (lk_op st) (lk_arg st) (lk_time st) (LINKED_LIST_HEAD st) (LINKED_LIST_TAIL st)
       (<[i := s]> (lk_slots st)) (lk_preds st) (lk_succs st) (valid_requests st) (lk_vault st).
Definition lk_set_mem (st : lkst) (p s : arr) (v : vault) : lkst :=
  mkLK (lk_op st) (lk_arg st) (lk_time st) (LINKED_LIST_HEAD st) (LINKED_LIST_TAIL st)
       (lk_slots st) p s (valid_requests st) v.
Definition lk_set_requests (st : lkst) (r : list slotptr) : lkst :=
  mkLK (lk_op st) (lk_arg st) (lk_time st) (LINKED_LIST_HEAD st) (LINKED_LIST_TAIL st)
       (lk_slots st) (lk_preds st) (lk_succs st) r (lk_vault st).
Definition lk_tick (st : lkst) : lkst :=
  mkLK (lk_op st) (lk_arg st) (u32 (lk_time st + 1)) (LINKED_LIST_HEAD st) (LINKED_LIST_TAIL st)
       (lk_slots st) (lk_preds st) (lk_succs st) (valid_requests st) (lk_vault st).

Definition ls_set_info (s : list_slot) (b : Z) : list_slot := mkLSlot b (ls_time s) (ls_param s).
Definition ls_set_time (s : list_slot) (n : Z) : list_slot := mkLSlot (ls_info s) n (ls_param s).

(** [valid_requests[n] = &(request_slots[i]); n++;] for the slots with a request. *)
Fixpoint gather (slots : list list_slot) (ids : list nat) (reqs : list slotptr) (n : nat)
  : result (list slotptr * nat) :=
  match ids with
  | [] => Ok (reqs, n)
  | i :: ids' =>
      s ← of_opt (slots !! i);
      if CHECK_VALID_REQUEST list_info (ls_info s) =? 0 then gather slots ids' reqs n
      else if decide (n < length reqs)%nat then gather slots ids' (<[n := Some i]> reqs) (S n)
      else UB
  end.

Section kernel.
(** [num] is NUM_MEM_BLOCKS. *)
Context (num : nat).
#[local] Instance list_mem : NodeMem vault := vault_mem list_layout num.
#[local] Instance list_malloc : NodeAlloc vault := vault_alloc list_layout num.

Definition list_kernel_init (st : lkst) : result lkst :=
  '(v, head, tail) ← list_init list_layout (words (lk_vault st)) num;
  Ok (mkLK (lk_op st) (Z.of_nat num) 0 head tail (lk_slots st) (lk_preds st) (lk_succs st)
           (valid_requests st) v).

(** [do { curr = curr->next; print(curr->key); } while (curr->next != TAIL);] *)
Fixpoint print_loop (fuel : nat) (v : vault) (tail curr : Z) : result (list Z) :=
  match fuel with
  | O => NoFuel
  | S fuel' =>
      curr' ← rd_next v curr 0;
      k ← rd_key v curr';
      nx ← rd_next v curr' 0;
      if nx =? tail then Ok [k]
      else ks ← print_loop fuel' v tail curr'; Ok (k :: ks)
  end.

Definition list_kernel_print (st : lkst) : result (list Z) :=
  print_loop (S (size (words (lk_vault st)))) (lk_vault st) (LINKED_LIST_TAIL st) (LINKED_LIST_HEAD st).

(** SREG[0] = 3: an initial insertion, requested in slot 0, at the level SREG[1]. *)
Definition serve_initial (st : lkst) : result lkst :=
  s ← of_opt (lk_slots st !! 0%nat);
  if CHECK_VALID_REQUEST list_info (ls_info s) =? 0 then Ok st
  else
    let v := lk_vault st in
    '(found, preds, succs) ←
      find_levels (S (size (words v))) v true (ls_param s) 14 (LINKED_LIST_HEAD st) 0
        (lk_preds st) (lk_succs st);
    '(v', s') ←
      (if found =? 0 then
         '(v1, new) ← alloc_memory_block v;
         v2 ← stw v1 new (f_top list_layout) (lk_arg st);
         v3 ← stw v2 new 0 (ls_param s);
         v4 ← link_levels v3 new preds succs (seq 0 (Z.to_nat (lk_arg st)));
         Ok (v4, ls_set_info s (SET_RETVAL (ls_info s) 1))
       else Ok (v, s));
    Ok (lk_set_slot (lk_set_mem st preds succs v') 0
          (ls_set_info s' (CLEAR_REQUEST list_info (ls_info s')))).

(** One sorted request, from the position [(pred_node, curr_node)] on. *)
Definition list_request (v : vault) (op_type param pred_node curr_node : Z)
  : result (vault * Z * Z * Z) :=
  let fuel := (3 + size (words v))%nat in
  if op_type =? ib_contains list_info then finger_op fuel v LContains param pred_node curr_node
  else if op_type =? ib_add list_info then finger_op fuel v LAdd param pred_node curr_node
  else if op_type =? ib_remove list_info then finger_op fuel v LRemove param pred_node curr_node
  else '(p, c) ← walk fuel v 0 param pred_node curr_node; Ok (v, p, c, 0).

(** [for (i = ...; i < num_valid_requests; i++)] over the sorted requests. *)
Fixpoint serve_sorted (st : lkst) (idx : list nat) (pred_node curr_node : Z) : result lkst :=
  match idx with
  | [] => Ok st
  | i :: idx' =>
      p ← of_opt (valid_requests st !! i);
      r ← of_opt p;
      s ← of_opt (lk_slots st !! r);
      '(v, pred', curr', retval) ←
        list_request (lk_vault st) (EXTRACT_OPERATION list_info (ls_info s)) (ls_param s)
          pred_node curr_node;
      let st1 := lk_set_mem st (lk_preds st) (lk_succs st) v in
      let s1 := ls_set_time s (u16 (lk_time st)) in
      let s2 := ls_set_info s1 (SET_RETVAL (ls_info s1) retval) in
      let s3 := ls_set_info s2 (CLEAR_REQUEST list_info (ls_info s2)) in
      serve_sorted (lk_tick (lk_set_slot st1 r s3)) idx' pred' curr'
  end.

(** A round of list operations. *)
Definition serve_round (st : lkst) : result lkst :=
  '(reqs, n) ← gather (lk_slots st) (seq 0 (length (lk_slots st))) (valid_requests st) 0;
  sorted ← quicksort (fun r => ls_param <$> lk_slots st !! r) (S (length reqs)) reqs
             0 (Z.of_nat n - 1);
  first ← rd_next (lk_vault st) (LINKED_LIST_HEAD st) 0;
  serve_sorted (lk_set_requests st sorted) (seq 0 n) (LINKED_LIST_HEAD st) first.

(** One iteration of [while (true)]: the state, what was printed, and [false] if the
    kernel leaves the loop. *)
Definition list_kernel_iter (st : lkst) : result (lkst * list Z * bool) :=
  if lk_op st =? 0 then
    st1 ← list_kernel_init st; Ok (lk_set_op st1 3, [], true)
  else if lk_op st =? 2 then
    out ← list_kernel_print st; Ok (lk_set_op st 1, out, true)
  else if lk_op st =? 3 then
    st1 ← serve_initial st; Ok (st1, [], true)
  else if 4 <=? lk_op st then Ok (st, [], false)
  else st1 ← serve_round st; Ok (st1, [], true).

(** ** Specification: a set of bounded size *)

(** The operation of the bits. *)
Definition list_op (b : Z) : lop :=
  if EXTRACT_OPERATION list_info b =? ib_contains list_info then LContains
  else if EXTRACT_OPERATION list_info b =? ib_add list_info then LAdd else LRemove.

(** An addition to a full set is refused. *)
Definition bset_spec (cap : nat) (S : gset Z) (op : lop) (param : Z) : gset Z * Z :=
  match op with
  | LAdd => if decide (param ∉ S /\ (cap <= size S)%nat) then (S, 0) else lset_spec S op param
  | _ => lset_spec S op param
  end.

Fixpoint bset_run (cap : nat) (S : gset Z) (reqs : list (lop * Z)) : gset Z * list Z :=
  match reqs with
  | [] => (S, [])
  | (op, param) :: reqs' =>
      let '(S', r) := bset_spec cap S op param in
      let '(S'', rs) := bset_run cap S' reqs' in (S'', r :: rs)
  end.

(** The keys a vault can hold besides the sentinels. *)
Definition capacity : nat := (num - 2)%nat.

(** The bottom level of the list represents [S], and every block is free, a sentinel or a
    node. *)
Record list_rep (S : gset Z) (v : vault) (head tail : Z) (ns : list (Z * Z)) : Prop := {
  lp_rep : lrep v head tail 0 UINT32_MAX ns;
  lp_set : lset ns = S;
  lp_room : room v (capacity - size S);
}.

Definition plist_ref (S : gset Z) (st : lkst) : Prop :=
  exists ns, list_rep S (lk_vault st) (LINKED_LIST_HEAD st) (LINKED_LIST_TAIL st) ns.

#[local] Instance list_laws : NodeMemLaws vault := vault_laws list_layout num.
#[local] Instance list_malloc_laws : NodeAllocLaws vault :=
  vault_alloc_laws list_layout num ltac:(cbn; lia).

(** ** Counting the blocks *)

Lemma blocks_length (l : list Z) : NoDup l -> Forall (is_block list_layout num) l -> (length l <= num)%nat.
Proof.
  intros Hnd Hb. rewrite <- (length_seq num 0), <- (length_fmap (block list_layout) (seq 0 num)).
  apply submseteq_length, NoDup_submseteq; [done|]. intros p Hp. rewrite Forall_forall in Hb.
  destruct (Hb p Hp) as (i & Hi & ->). apply list_elem_of_fmap_2, elem_of_seq. lia.
Qed.

Lemma lset_size (ns : list (Z * Z)) : StronglySorted (fun a b => a.2 < b.2) ns -> size (lset ns) = length ns.
Proof.
  intros Hs. unfold lset. rewrite size_list_to_set, length_fmap; [done|].
  induction Hs as [|[a k] ns Hs IH HF]; simpl; [constructor|]. apply NoDup_cons. split; [|done].
  intros ([b k'] & E & Hx)%list_elem_of_fmap. rewrite Forall_forall in HF. specialize (HF _ Hx).
  simpl in *. lia.
Qed.

(** Free blocks, sentinels and nodes are distinct blocks. *)
Lemma free_length v fl head tail hk tk ns :
  vault_ok list_layout num v fl -> lrep v head tail hk tk ns -> (length fl + size (lset ns) <= capacity)%nat.
Proof.
  intros Hok Hrep. rewrite lset_size by apply (lr_sorted _ _ _ _ _ _ Hrep).
  pose proof (lr_nodup _ _ _ _ _ _ Hrep) as Hnd. pose proof (lr_nodes _ _ _ _ _ _ Hrep) as Hn.
  rewrite Forall_forall in Hn.
  assert (H : (length (fl ++ head :: tail :: ns.*1) <= num)%nat).
  { apply blocks_length.
    - apply NoDup_app. split_and!; [apply (vo_nodup _ _ _ _ Hok)| |done].
      intros p Hp Hin. destruct (Hn p Hin) as [_ (fl' & Hok' & Hnf)].
      by rewrite (vault_ok_unique _ _ _ _ _ Hok' Hok) in Hnf.
    - apply Forall_app. split; [apply (vo_blocks _ _ _ _ Hok)|].
      apply Forall_forall. intros p Hp. by destruct (Hn p Hp). }
  rewrite length_app in H. simpl in H. rewrite length_fmap in H. unfold capacity. lia.
Qed.

Lemma list_rep_free S v head tail ns : list_rep S v head tail ns ->
  exists fl, vault_ok list_layout num v fl /\ (length fl + size S = capacity)%nat.
Proof.
  intros [Hrep <- (fl & Hok & Hlen)]. exists fl. split; [done|].
  pose proof (free_length v fl _ _ _ _ ns Hok Hrep). lia.
Qed.

Lemma plist_fuel S v head tail ns : list_rep S v head tail ns -> (Datatypes.S (length ns) < 3 + size (words v))%nat.
Proof.
  intros Hr. destruct (list_rep_free _ _ _ _ _ Hr) as (fl & Hok & _). destruct Hr as [Hrep _ _].
  pose proof (lr_nodup _ _ _ _ _ _ Hrep) as Hnd. do 2 apply NoDup_cons in Hnd as [_ Hnd].
  rewrite <- (length_fmap fst ns). assert (length ns.*1 <= size (words v))%nat; [|lia].
  apply NoDup_dom_size; [done|]. intros p Hp.
  destruct (lrep_nodes v _ _ _ _ ns p Hrep ltac:(set_solver)) as [Hb _].
  pose proof (pool_lookup list_layout num v fl p 0 Hok Hb (key_lt list_layout)) as H.
  by rewrite Z.mul_0_r, Z.add_0_r in H.
Qed.

(** ** One request *)

(** With no free block an addition of a new key changes nothing. *)
Lemma add_full v head tail ns param prev curr fuel :
  lrep v head tail 0 UINT32_MAX ns -> vault_ok list_layout num v [] -> param ∉ lset ns ->
  0 < param < UINT32_MAX -> finger head tail param ns prev curr -> (S (length ns) < fuel)%nat ->
  exists p' c', finger_op fuel v LAdd param prev curr = Ok (v, p', c', 0) /\
    forall param', param <= param' -> finger head tail param' ns p' c'.
Proof.
  intros Hrep Hok Hnin Hb Hfin Hf.
  destruct (walk_finger v head tail 0 UINT32_MAX ns param prev curr fuel) as
    (lo & hi & -> & Hlo & Hhi & Hwalk); try done; [lia|].
  destruct (stop_key v head tail 0 UINT32_MAX lo hi param) as
    [(a & hi' & -> & _ & Hin & _)|(k & Hkey & Hne & _)]; try done; [lia|].
  unfold finger_op. rewrite Hwalk. cbn [mbind result_bind]. rewrite Hkey. cbn [mbind result_bind].
  destruct (Z.eqb_spec k param); [done|]. cbn [new_node list_malloc vault_alloc]. unfold vault_new.
  rewrite (alloc_none list_layout num v Hok). cbn [mbind result_bind Z.eqb].
  do 2 eexists. split; [done|]. intros param' Hle. right. exists lo, hi. split_and!; try done.
  eapply Forall_impl; [exact Hlo|]. simpl. lia.
Qed.

Lemma finger_bounded S v head tail ns op param prev curr :
  list_rep S v head tail ns -> 0 < param < UINT32_MAX -> finger head tail param ns prev curr ->
  exists v' p' c' ns',
    finger_op (3 + size (words v)) v op param prev curr =
      Ok (v', p', c', (bset_spec capacity S op param).2) /\
    list_rep (bset_spec capacity S op param).1 v' head tail ns' /\
    forall param', param <= param' -> finger head tail param' ns' p' c'.
Proof.
  intros Hr Hb Hfin. pose proof (plist_fuel _ _ _ _ _ Hr) as Hf.
  destruct (list_rep_free _ _ _ _ _ Hr) as (fl & Hok & Hlen). destruct Hr as [Hrep <- Hroom].
  destruct (decide (op = LAdd /\ param ∉ lset ns /\ (capacity <= size (lset ns))%nat))
    as [(-> & Hnin & Hfull)|Hnf].
  - destruct fl; [|simpl in Hlen; lia].
    destruct (add_full v head tail ns param prev curr _ Hrep Hok Hnin Hb Hfin Hf) as (p' & c' & Hrun & Hfin').
    exists v, p', c', ns. cbn [bset_spec]. rewrite decide_True by done. split_and!; try done.
  - destruct (finger_op_spec (3 + size (words v)) v head tail 0 UINT32_MAX ns op param prev curr
      (capacity - size (lset ns))) as (v' & p' & c' & ns' & Hrun & Hset & Hrep' & Hok' & Hroom' & Hfin' & _);
      try done; [by exists fl|intros -> ?; destruct (decide (capacity <= size (lset ns))%nat); [tauto|lia]|].
    assert (Hspec : bset_spec capacity (lset ns) op param = lset_spec (lset ns) op param).
    { destruct op; try done. cbn [bset_spec]. rewrite decide_False by tauto. done. }
    rewrite Hspec. exists v', p', c', ns'. split_and!; try done. split; try done.
    eapply room_le; [exact Hroom'|]. cbn [reclaims list_malloc vault_alloc].
    unfold room_after, lset_spec. destruct op; [done|..]; case_decide; simpl; try lia.
    + rewrite size_add by done. lia.
    + pose proof (size_del param (lset ns) ltac:(done)). lia.
Qed.

Lemma list_request_spec S v head tail ns b param prev curr :
  list_rep S v head tail ns -> is_op list_info (EXTRACT_OPERATION list_info b) ->
  0 < param < UINT32_MAX -> finger head tail param ns prev curr ->
  exists v' p' c' ns',
    list_request v (EXTRACT_OPERATION list_info b) param prev curr =
      Ok (v', p', c', (bset_spec capacity S (list_op b) param).2) /\
    list_rep (bset_spec capacity S (list_op b) param).1 v' head tail ns' /\
    forall param', param <= param' -> finger head tail param' ns' p' c'.
Proof.
  intros Hr Hop Hb Hfin. unfold list_request, list_op.
  destruct (Z.eqb_spec (EXTRACT_OPERATION list_info b) (ib_contains list_info)) as [E1|E1];
    [by apply (finger_bounded _ _ _ _ ns)|].
  destruct (Z.eqb_spec (EXTRACT_OPERATION list_info b) (ib_add list_info)) as [E2|E2];
    [by apply (finger_bounded _ _ _ _ ns)|].
  rewrite (proj2 (Z.eqb_eq _ (ib_remove list_info))) by (unfold is_op in Hop; set_solver).
  by apply (finger_bounded _ _ _ _ ns).
Qed.

(** ** A round *)

Definition list_valid (s : list_slot) : bool := negb (CHECK_VALID_REQUEST list_info (ls_info s) =? 0).

(** The slots that hold a request. *)
Definition pending (slots : list list_slot) (i : nat) : bool :=
  match slots !! i with Some s => list_valid s | None => false end.
Definition pending_ids (slots : list list_slot) : list nat :=
  filter (fun i => pending slots i = true) (seq 0 (length slots)).

Definition list_req (slots : list list_slot) (i : nat) : lop * Z :=
  match slots !! i with Some s => (list_op (ls_info s), ls_param s) | None => (LContains, 0) end.

(** A request that a host thread sets: one of the operations, a key between those of the
    sentinels, and the return bit cleared. *)
Definition list_legal (s : list_slot) : Prop :=
  is_u32 (ls_param s) /\
  (list_valid s = true ->
   is_op list_info (EXTRACT_OPERATION list_info (ls_info s)) /\ 0 < ls_param s < UINT32_MAX /\
   GET_RETVAL (ls_info s) = 0).

(** A slot answered with [r] at time [n]. *)
Definition list_answered (s : list_slot) (n r : Z) : list_slot :=
  mkLSlot (CLEAR_REQUEST list_info (SET_RETVAL (ls_info s) r)) (u16 n) (ls_param s).

Lemma gather_spec slots ids : forall reqs n,
  (forall i, i ∈ ids -> is_Some (slots !! i)) -> (n + length ids <= length reqs)%nat ->
  let l := filter (fun i => pending slots i = true) ids in
  gather slots ids reqs n =
    Ok (take n reqs ++ (Some <$> l) ++ drop (n + length l) reqs, (n + length l)%nat).
Proof.
  induction ids as [|i ids IH]; intros reqs n Hs Hlen.
  { simpl. by rewrite Nat.add_0_r, take_drop. }
  destruct (Hs i ltac:(set_solver)) as [s Hi]. cbn [gather]. rewrite Hi. cbn [of_opt mbind result_bind].
  simpl in Hlen. unfold pending. rewrite filter_cons, Hi. unfold list_valid. fold (pending slots).
  destruct (Z.eqb_spec (CHECK_VALID_REQUEST list_info (ls_info s)) 0) as [E|E]; cbn [negb].
  - rewrite (decide_False (P := false = true)) by done. apply IH; [set_solver|lia].
  - rewrite (decide_True (P := true = true)) by done. rewrite decide_True by lia.
    rewrite IH; [|set_solver|rewrite length_insert; lia]. cbn [length fmap list_fmap].
    rewrite drop_insert_lt by lia.
    rewrite (take_S_r _ _ (Some i)) by (apply list_lookup_insert_eq; lia).
    rewrite take_insert_ge, <- app_assoc by lia. simpl. by rewrite !Nat.add_succ_r.
Qed.

Lemma u16_u32 z : u16 (u32 z) = u16 z.
Proof. unfold u16, u32, u32_mod. Z.div_mod_to_equations. lia. Qed.

Lemma lk_time_step z j : u16 (u32 (z + 1) + j) = u16 (z + (1 + j)).
Proof. unfold u16, u32, u32_mod. Z.div_mod_to_equations. lia. Qed.

Lemma serve_sorted_spec order : forall i0 st S ns prev curr param,
  list_rep S (lk_vault st) (LINKED_LIST_HEAD st) (LINKED_LIST_TAIL st) ns ->
  (forall j r, order !! j = Some r -> valid_requests st !! (i0 + j)%nat = Some (Some r)) ->
  NoDup order ->
  (forall r, r ∈ order -> exists s, lk_slots st !! r = Some s /\ list_valid s = true /\ list_legal s) ->
  StronglySorted Z.le (param :: (list_req (lk_slots st) <$> order).*2) ->
  finger (LINKED_LIST_HEAD st) (LINKED_LIST_TAIL st) param ns prev curr ->
  exists st', serve_sorted st (seq i0 (length order)) prev curr = Ok st' /\
    plist_ref (bset_run capacity S (list_req (lk_slots st) <$> order)).1 st' /\
    length (lk_slots st') = length (lk_slots st) /\ valid_requests st' = valid_requests st /\
    lk_op st' = lk_op st /\
    (forall r, r ∉ order -> lk_slots st' !! r = lk_slots st !! r) /\
    (forall j r s, order !! j = Some r -> lk_slots st !! r = Some s ->
       exists a, (bset_run capacity S (list_req (lk_slots st) <$> order)).2 !! j = Some a /\
         lk_slots st' !! r = Some (list_answered s (lk_time st + Z.of_nat j) a)).
Proof.
  induction order as [|r order IH]; intros i0 st S ns prev curr param Hr Hv Hnd Hleg Hs Hfin.
  { exists st. split_and!; try done. by exists ns. }
  apply NoDup_cons in Hnd as [Hni Hnd]. destruct (Hleg r ltac:(set_solver)) as (s & Hsl & Hva & Hl).
  pose proof (Hv 0%nat r eq_refl) as Hv0. rewrite Nat.add_0_r in Hv0.
  cbn [length seq serve_sorted]. rewrite Hv0. cbn [of_opt mbind result_bind]. rewrite Hsl.
  cbn [of_opt mbind result_bind]. destruct (proj2 Hl Hva) as (Hop & Hpr & _).
  assert (Hreq : list_req (lk_slots st) r = (list_op (ls_info s), ls_param s))
    by (unfold list_req; by rewrite Hsl).
  rewrite !fmap_cons, Hreq in Hs |- *. apply StronglySorted_inv in Hs as [Hs Hle].
  apply Forall_cons in Hle as [Hle _]. simpl in Hle.
  assert (Hfin' : finger (LINKED_LIST_HEAD st) (LINKED_LIST_TAIL st) (ls_param s) ns prev curr).
  { destruct Hfin as [?|(lo & hi & ? & ? & ? & Hlo)]; [by left|right]. exists lo, hi.
    split_and!; try done. eapply Forall_impl; [exact Hlo|]. simpl. lia. }
  destruct (list_request_spec S _ _ _ ns (ls_info s) (ls_param s) prev curr Hr Hop Hpr Hfin')
    as (v' & p' & c' & ns' & -> & Hr' & Hfin1). cbn [mbind result_bind].
  cbn [bset_run]. destruct (bset_spec capacity S (list_op (ls_info s)) (ls_param s)) as [S1 a1]. simpl in Hr'.
  set (st1 := lk_tick _).
  assert (Hslots : lk_slots st1 = <[r := list_answered s (lk_time st) a1]> (lk_slots st)) by done.
  assert (Hsame : list_req (lk_slots st1) <$> order = list_req (lk_slots st) <$> order).
  { apply list_fmap_ext. intros j k Hk. unfold list_req. rewrite Hslots, list_lookup_insert_ne; [done|].
    intros <-. apply Hni. by eapply list_elem_of_lookup_2. }
  destruct (IH (Datatypes.S i0) st1 S1 ns' p' c' (ls_param s)) as
    (st' & Hrun & Href & Hlen & Hvr & Ho & Hfr & Hans); try done.
  { intros j k Hk. replace (Datatypes.S i0 + j)%nat with (i0 + Datatypes.S j)%nat by lia. by apply Hv. }
  { intros k Hk. rewrite Hslots, list_lookup_insert_ne by (by intros <-). apply Hleg. set_solver. }
  { by rewrite Hsame. }
  { by apply Hfin1. }
  rewrite Hsame in Href, Hans. simpl. simpl in Hrun. rewrite Hrun.
  destruct (bset_run capacity S1 _) as [S2 rs]. simpl in *. exists st'. split_and!; try done.
  - rewrite Hlen, Hslots. apply length_insert.
  - intros k Hk. rewrite Hfr, Hslots, list_lookup_insert_ne by set_solver. done.
  - intros [|j] k t Hj Ht; simpl in Hj.
    + injection Hj as <-. rewrite Hsl in Ht. injection Ht as <-. exists a1. split; [done|].
      rewrite Hfr, Hslots, Z.add_0_r by done. apply list_lookup_insert_eq. by eapply lookup_lt_Some.
    + destruct (Hans j k t Hj) as (a & Ha & Hk).
      { rewrite Hslots, list_lookup_insert_ne; [done|]. intros <-. apply Hni. by eapply list_elem_of_lookup_2. }
      exists a. split; [done|]. rewrite Hk. unfold list_answered, st1. cbn [lk_tick lk_time lk_set_slot lk_set_mem].
      rewrite lk_time_step. replace (1 + Z.of_nat j) with (Z.of_nat (Datatypes.S j)) by lia. done.
Qed.

Lemma sorted_of_le (l : list Z) :
  (forall i j x y, (i <= j)%nat -> l !! i = Some x -> l !! j = Some y -> x <= y) -> StronglySorted Z.le l.
Proof.
  induction l as [|a l IH]; intros H; constructor.
  - apply IH. intros i j x y Hij. apply (H (S i) (S j)). lia.
  - apply Forall_forall. intros y [j Hj]%list_elem_of_lookup_1. by apply (H 0%nat (S j) a y); [lia|..].
Qed.

(** The array after the sort: its first cells are the pending slots in key order. *)
Lemma sorted_requests slots (ids : list nat) rest a :
  (forall i, i ∈ ids -> exists s, slots !! i = Some s /\ is_u32 (ls_param s)) ->
  a = (Some <$> ids) ++ rest ->
  exists order rest', quicksort (fun r => ls_param <$> slots !! r) (S (length a)) a 0 (Z.of_nat (length ids) - 1)
      = Ok ((Some <$> order) ++ rest') /\ order ≡ₚ ids /\ length rest' = length rest /\
    StronglySorted Z.le (list_req slots <$> order).*2.
Proof.
  intros Hids ->. set (a := (Some <$> ids) ++ rest). set (par := fun r : nat => ls_param <$> slots !! r).
  assert (Hcell : forall j i, ids !! j = Some i -> cell a (Z.of_nat j) = Ok (Some i)).
  { intros j i Hj. apply cell_Ok. split; [lia|]. rewrite Nat2Z.id. unfold a.
    rewrite lookup_app_l; [by rewrite list_lookup_fmap, Hj|]. rewrite length_fmap. by eapply lookup_lt_Some. }
  destruct (quicksort_spec par (S (length a)) a 0 (Z.of_nat (length ids) - 1)) as (a' & Hrun & Hsh & Hasc); [lia| | |lia|].
  { intros z Hz. destruct (lookup_lt_is_Some_2 ids (Z.to_nat z) ltac:(lia)) as [i Hi].
    destruct (Hids i) as (s & Hs & Hu); [by eapply list_elem_of_lookup_2|]. exists (ls_param s). split; [|done].
    unfold key_at. rewrite <- (Z2Nat.id z) by lia. rewrite (Hcell _ _ Hi). simpl. unfold par. by rewrite Hs. }
  { unfold a. rewrite length_app, length_fmap. lia. }
  assert (Hd : drop (length ids) a' = rest).
  { transitivity (drop (length ids) a); [|unfold a; by rewrite drop_app_length' by (by rewrite length_fmap)].
    apply list_eq. intros k. rewrite !lookup_drop.
    pose proof (sh_out _ _ _ _ Hsh (Z.of_nat (length ids + k)) ltac:(lia)) as E. unfold cell in E.
    destruct (Z.leb_spec 0 (Z.of_nat (length ids + k))); [|lia]. rewrite Nat2Z.id in E.
    destruct (a' !! _), (a !! _); simpl in E; congruence. }
  pose proof (sh_perm _ _ _ _ Hsh) as Hp. rewrite <- (take_drop (length ids) a'), Hd in Hp. unfold a in Hp.
  apply Permutation_app_inv_r in Hp.
  destruct (Permutation_map_inv _ _ Hp) as (order & Ht & Hpo).
  exists order, rest. rewrite Hrun, <- (take_drop (length ids) a'), Hd, Ht. split_and!; try done.
  assert (Hlen : length order = length ids) by (by rewrite Hpo).
  assert (Hkey : forall j x, (list_req slots <$> order).*2 !! j = Some x ->
    (j < length ids)%nat /\ key_at par a' (Z.of_nat j) = Ok x).
  { intros j x Hj. rewrite !list_lookup_fmap in Hj. destruct (order !! j) as [i|] eqn:Hi; [|done].
    simpl in Hj. injection Hj as <-. pose proof (lookup_lt_Some _ _ _ Hi) as Hjl. split; [lia|].
    destruct (Hids i) as (s & Hs & _); [rewrite Hpo; by eapply list_elem_of_lookup_2|].
    assert (Hc : cell a' (Z.of_nat j) = Ok (Some i)).
    { apply cell_Ok. split; [lia|]. rewrite Nat2Z.id, <- (take_drop (length ids) a'), Ht.
      rewrite lookup_app_l by (rewrite length_fmap; lia). by rewrite list_lookup_fmap, Hi. }
    unfold key_at. rewrite Hc. simpl. unfold par, list_req. by rewrite Hs. }
  apply sorted_of_le. intros i j x y Hij Hx Hy. destruct (Hkey i x Hx), (Hkey j y Hy).
  eapply (Hasc (Z.of_nat i) (Z.of_nat j)); try done; lia.
Qed.

Lemma list_answered_bits s n a : list_valid s = true -> list_legal s -> 0 <= a <= 1 ->
  list_valid (list_answered s n a) = false /\ GET_RETVAL (ls_info (list_answered s n a)) = a /\
  ls_param (list_answered s n a) = ls_param s.
Proof.
  intros Hv [_ Hl] Ha. destruct (Hl Hv) as (_ & _ & H0). unfold list_valid, list_answered. cbn [ls_info ls_param].
  destruct (clear_request_bits list_info (SET_RETVAL (ls_info s) a)) as (-> & -> & _).
  destruct (set_retval_bits list_info (ls_info s) a Ha) as (_ & _ & ->). by rewrite H0, Z.lor_0_l.
Qed.

Lemma bset_run_range cap reqs : forall S, Forall (fun a => 0 <= a <= 1) (bset_run cap S reqs).2.
Proof.
  induction reqs as [|[op p] reqs IH]; intros S; [constructor|]. cbn [bset_run].
  assert (H : 0 <= (bset_spec cap S op p).2 <= 1).
  { unfold bset_spec, lset_spec. destruct op; repeat case_decide; simpl; lia. }
  destruct (bset_spec cap S op p) as [S' a]. specialize (IH S'). destruct (bset_run cap S' reqs).
  by constructor.
Qed.

Lemma pending_ids_elem slots i : i ∈ pending_ids slots <->
  exists s, slots !! i = Some s /\ list_valid s = true.
Proof.
  unfold pending_ids. rewrite list_elem_of_filter, elem_of_seq. unfold pending. split.
  - intros [H _]. destruct (slots !! i) as [s|]; [|done]. eauto.
  - intros (s & Hs & Hv). rewrite Hs. split; [done|]. apply lookup_lt_Some in Hs. lia.
Qed.

Lemma serve_round_spec S st :
  plist_ref S st -> Forall list_legal (lk_slots st) -> length (valid_requests st) = length (lk_slots st) ->
  exists st' order, serve_round st = Ok st' /\ order ≡ₚ pending_ids (lk_slots st) /\
    StronglySorted Z.le (list_req (lk_slots st) <$> order).*2 /\
    plist_ref (bset_run capacity S (list_req (lk_slots st) <$> order)).1 st' /\
    lk_op st' = lk_op st /\ length (lk_slots st') = length (lk_slots st) /\
    length (valid_requests st') = length (valid_requests st) /\
    (forall r, r ∉ order -> lk_slots st' !! r = lk_slots st !! r) /\
    (forall j r s, order !! j = Some r -> lk_slots st !! r = Some s ->
       exists a, (bset_run capacity S (list_req (lk_slots st) <$> order)).2 !! j = Some a /\
         lk_slots st' !! r = Some (list_answered s (lk_time st + Z.of_nat j) a)).
Proof.
  intros [ns Hr] Hleg Hlen. unfold serve_round.
  rewrite gather_spec; [|intros i Hi%elem_of_seq; apply lookup_lt_is_Some_2; lia|rewrite length_seq; lia].
  fold (pending_ids (lk_slots st)). set (ids := pending_ids (lk_slots st)). cbn [mbind result_bind take app].
  rewrite Forall_forall in Hleg.
  assert (Hids : forall i, i ∈ ids -> exists s, lk_slots st !! i = Some s /\ list_valid s = true /\ list_legal s).
  { intros i (s & Hs & Hv)%pending_ids_elem. exists s. split_and!; try done. apply Hleg. by eapply list_elem_of_lookup_2. }
  destruct (sorted_requests (lk_slots st) ids (drop (0 + length ids) (valid_requests st)) _
    ltac:(intros i Hi; destruct (Hids i Hi) as (s & Hs & _ & Hu & _); eauto) eq_refl)
    as (order & rest & Hq & Hp & Hrest & Hs). rewrite take_0, app_nil_l. rewrite !Nat.add_0_l in Hq |- *. rewrite Hq.
  cbn [mbind result_bind].
  assert (Hfirst : rd_next (lk_vault st) (LINKED_LIST_HEAD st) 0 = Ok (head_or (LINKED_LIST_TAIL st) ns.*1)).
  { pose proof (lr_chain _ _ _ _ _ _ (lp_rep _ _ _ _ _ Hr)) as Hc. destruct ns as [|[a k] ns]; simpl in *; [done|].
    by destruct Hc. }
  rewrite Hfirst. cbn [mbind result_bind].
  assert (Hnd : NoDup order) by (rewrite Hp; apply NoDup_filter, NoDup_seq).
  rewrite <- (Permutation_length Hp).
  destruct (serve_sorted_spec order 0 (lk_set_requests st ((Some <$> order) ++ rest)) S ns
    (LINKED_LIST_HEAD st) (head_or (LINKED_LIST_TAIL st) ns.*1) 0)
    as (st' & Hrun & Href & Hl & Hvr & Ho & Hfr & Hans); try done.
  - intros j r Hj. cbn [valid_requests lk_set_requests]. rewrite Nat.add_0_l, lookup_app_l.
    + by rewrite list_lookup_fmap, Hj.
    + rewrite length_fmap. by eapply lookup_lt_Some.
  - intros r Hin. apply Hids. by rewrite <- Hp.
  - constructor; [done|]. rewrite !Forall_fmap. apply Forall_forall. intros r Hin. simpl. rewrite Hp in Hin.
    destruct (Hids r Hin) as (s & Hs' & _ & [? _] & _). cbn [lk_slots lk_set_requests].
    unfold list_req. by rewrite Hs'.
  - right. exists [], ns. split_and!; try done.
  - exists st', order. split_and!; try done. rewrite Hvr. cbn [valid_requests lk_set_requests].
    pose proof (Permutation_length Hp) as Hpl. rewrite length_drop in Hrest.
    rewrite length_app, length_fmap, Hrest.
    assert (length ids <= length (lk_slots st))%nat; [|lia].
    rewrite <- (length_seq (length (lk_slots st)) 0). apply length_filter.
Qed.

(** ** Initial insertions *)

(** All 14 levels are well formed, as long as only initial insertions were made. *)
Record pskip_ref (S : gset Z) (st : lkst) : Prop := {
  ps_list : exists ns, skip_set ns = S /\
    skip_inv (lk_vault st) (LINKED_LIST_HEAD st) (LINKED_LIST_TAIL st) UINT32_MAX 14 ns;
  ps_head : rd_key (lk_vault st) (LINKED_LIST_HEAD st) = Ok 0;
  ps_pos : forall k, k ∈ S -> 0 < k;
  ps_room : room (lk_vault st) (capacity - size S);
  ps_preds : (14 <= length (lk_preds st))%nat;
  ps_succs : (14 <= length (lk_succs st))%nat;
}.

Lemma pskip_plist S st : pskip_ref S st -> plist_ref S st.
Proof.
  intros [(ns & <- & Hinv) Hh Hpos Hroom _ _].
  destruct (skip_inv_lrep _ _ _ 0 _ _ ns Hinv Hh) as (ps & Hrep & Hset & _).
  { apply Forall_forall. intros s Hs. apply Hpos, elem_of_skip_set. by apply list_elem_of_fmap_2. }
  exists ps. by split.
Qed.

Lemma serve_initial_spec S st s :
  pskip_ref S st -> lk_slots st !! 0%nat = Some s -> list_valid s = true -> 0 < ls_param s < UINT32_MAX ->
  1 <= lk_arg st <= 14 -> ls_param s ∈ S \/ (size S < capacity)%nat ->
  exists st', serve_initial st = Ok st' /\ pskip_ref ({[ls_param s]} ∪ S) st' /\
    lk_slots st' = <[0%nat := ls_set_info s (CLEAR_REQUEST list_info
       (if decide (ls_param s ∈ S) then ls_info s else SET_RETVAL (ls_info s) 1))]> (lk_slots st) /\
    lk_op st' = lk_op st.
Proof.
  intros [(ns & <- & Hinv) Hh Hpos (fl & Hok & Hlen) Hlp Hls] Hsl Hv Hp Harg Hsp. unfold serve_initial.
  rewrite Hsl. cbn [of_opt mbind result_bind]. unfold list_valid in Hv. apply negb_true_iff in Hv. rewrite Hv.
  destruct (find_levels_spec (lk_vault st) _ _ UINT32_MAX _ ns Hinv (ls_param s) ltac:(lia)
    (Datatypes.S (size (words (lk_vault st)))) true 14 (LINKED_LIST_HEAD st) 0 (lk_preds st) (lk_succs st))
    as (f & preds & succs & Hrun & Hf & Harr); try (cbn; lia); auto.
  { by eapply (vault_fuel list_layout num). }
  destruct (find_levels_length _ _ _ _ _ _ _ _ _ _ _ _ Hrun) as [Hl1 Hl2].
  rewrite Hrun. cbn [mbind result_bind]. subst f.
  destruct (match_ptr_cases _ _ _ _ _ _ Hinv (ls_param s))
    as [[Hnin Hz]|(f & hi' & Ehi & Hkf & Hnz & Hmf & Hin)].
  - rewrite Hz, Z.eqb_refl, (decide_False (P := ls_param s ∈ skip_set ns)) by done.
    destruct Hsp as [?|Hsp]; [done|]. destruct fl as [|b fl]; [simpl in Hlen; lia|].
    destruct (Harr (or_intror Hz)) as (HP & HS & _).
    destruct (vault_insert list_layout num (lk_vault st) b fl (LINKED_LIST_HEAD st) (LINKED_LIST_TAIL st)
      UINT32_MAX 14 ns (ls_param s) (lk_arg st) preds succs)
      as (v1 & v2 & v3 & v4 & ns' & Ha & H2 & H3 & H4 & Hok4 & Hinv4 & Hset & Hhd); try done; [lia..|].
    change (link_levels (NM := list_mem) v3 b preds succs (seq 0 (Z.to_nat (lk_arg st))) = Ok v4) in H4.
    rewrite Ha. cbn [mbind result_bind]. rewrite H2. cbn [mbind result_bind]. rewrite H3.
    cbn [mbind result_bind]. rewrite H4. cbn [mbind result_bind].
    eexists. split; [done|]. split; [|done].
    split; cbn [lk_vault LINKED_LIST_HEAD LINKED_LIST_TAIL lk_preds lk_succs lk_set_slot lk_set_mem]; try lia.
    + by exists ns'.
    + rewrite <- Hh. exact Hhd.
    + intros k [->%elem_of_singleton|Hk]%elem_of_union; [lia|by apply Hpos].
    + exists fl. split; [done|]. rewrite size_add by done. simpl in Hlen. lia.
  - rewrite Hmf, (proj2 (Z.eqb_neq _ 0) Hnz), (decide_True (P := ls_param s ∈ skip_set ns)) by done.
    cbn [mbind result_bind]. eexists. split; [done|]. split; [|done].
    rewrite (subseteq_union_1_L {[ls_param s]}) by (by apply singleton_subseteq_l).
    split; cbn [lk_vault LINKED_LIST_HEAD LINKED_LIST_TAIL lk_preds lk_succs lk_set_slot lk_set_mem]; try done; try lia.
    + by exists ns.
    + by exists fl.
Qed.

Lemma list_kernel_init_spec st :
  fresh_vault list_layout num (words (lk_vault st)) -> (2 <= num)%nat ->
  (14 <= length (lk_preds st))%nat -> (14 <= length (lk_succs st))%nat ->
  exists st', list_kernel_init st = Ok st' /\ pskip_ref ∅ st' /\ lk_arg st' = Z.of_nat num /\
    lk_slots st' = lk_slots st /\ valid_requests st' = valid_requests st.
Proof.
  intros [Hpool Hlow] Hnum Hlp Hls.
  destruct (list_init_ok list_layout num (words (lk_vault st)) 14) as
    (v & head & tail & fl & Hrun & Hok & Hlen & Hinv & Hh); try done; [cbn; lia|].
  unfold list_kernel_init. rewrite Hrun. cbn [mbind result_bind]. eexists. split; [done|].
  split_and!; try done. split; cbn [lk_vault LINKED_LIST_HEAD LINKED_LIST_TAIL lk_preds lk_succs]; try done.
  - by exists [].
  - exists fl. split; [done|]. unfold capacity. lia.
Qed.

(** ** Printing *)

Lemma print_loop_spec v tail : forall ns p fuel, ns <> [] ->
  chain v 0 p ns.*1 tail -> Forall (fun x => rd_key v x.1 = Ok x.2) ns -> tail ∉ ns.*1 ->
  (length ns <= fuel)%nat -> print_loop fuel v tail p = Ok ns.*2.
Proof.
  induction ns as [|[a k] ns IH]; intros p fuel Hne Hc Hk Ht Hf; [done|].
  destruct fuel as [|fuel]; [simpl in Hf; lia|]. cbn [fmap list_fmap chain fst] in Hc. destruct Hc as [Hp Hc].
  apply Forall_cons in Hk as [Hka Hk]. cbn [fst snd] in Hka. cbn [print_loop].
  rewrite Hp. cbn [mbind result_bind]. rewrite Hka. cbn [mbind result_bind].
  destruct ns as [|[b k'] ns].
  - cbn [fmap list_fmap chain] in Hc. rewrite Hc. cbn [mbind result_bind]. by rewrite Z.eqb_refl.
  - pose proof Hc as Hc'. cbn [fmap list_fmap chain fst] in Hc'. destruct Hc' as [Hn _]. rewrite Hn.
    cbn [mbind result_bind]. destruct (Z.eqb_spec b tail) as [->|_]; [exfalso; apply Ht; simpl; set_solver|].
    rewrite (IH a fuel); try done; [simpl in *; set_solver|simpl in *; lia].
Qed.
End kernel.

(** ** Properties *)

(** C7: A round of the linked-list kernel.  Whatever requests the slots hold, as the host
    threads set them, the iteration ends: there is an order of the pending slots with
    ascending keys in which the requests are answered as by a set that holds at most
    NUM_MEM_BLOCKS - 2 keys and refuses additions when it is full; every answer is in the
    return bit of its slot, with a timestamp in that order and the request bit cleared;
    the other slots are left alone, and no block of the vault is lost. *)
Theorem pim_list_round_set num S st :
  plist_ref num S st -> lk_op st = 1 -> Forall list_legal (lk_slots st) ->
  length (valid_requests st) = length (lk_slots st) ->
  exists st' order, list_kernel_iter num st = Ok (st', [], true) /\
    order ≡ₚ pending_ids (lk_slots st) /\ StronglySorted Z.le (list_req (lk_slots st) <$> order).*2 /\
    let '(S', answers) := bset_run (capacity num) S (list_req (lk_slots st) <$> order) in
    plist_ref num S' st' /\
    (exists fl, vault_ok list_layout num (lk_vault st') fl /\ (length fl + size S' = capacity num)%nat) /\
    (forall r, r ∉ order -> lk_slots st' !! r = lk_slots st !! r) /\
    (forall j r, order !! j = Some r -> exists s a, lk_slots st' !! r = Some s /\ answers !! j = Some a /\
       list_valid s = false /\ GET_RETVAL (ls_info s) = a /\ ls_time s = u16 (lk_time st + Z.of_nat j)).
Proof.
  intros Href Hop Hleg Hlen.
  destruct (serve_round_spec num S st Href Hleg Hlen) as
    (st' & order & Hrun & Hp & Hs & Href' & _ & _ & _ & Hfr & Hans).
  exists st', order. unfold list_kernel_iter. rewrite Hop. cbn [Z.eqb Z.leb Z.compare Pos.compare Pos.compare_cont Pos.eqb].
  rewrite Hrun. split; [done|]. split; [done|]. split; [done|].
  pose proof (bset_run_range (capacity num) (list_req (lk_slots st) <$> order) S) as Hb.
  destruct (bset_run _ S _) as [S' answers]. simpl in *. split; [done|]. split.
  { destruct Href' as [ns' Hr']. by eapply list_rep_free. }
  split; [done|]. intros j r Hj.
  assert (Hin : r ∈ pending_ids (lk_slots st)) by (rewrite <- Hp; by eapply list_elem_of_lookup_2).
  apply pending_ids_elem in Hin as (s & Hs1 & Hv). destruct (Hans j r s Hj Hs1) as (a & Ha & Hs').
  rewrite Forall_forall in Hleg. rewrite Forall_forall in Hb.
  destruct (list_answered_bits s (lk_time st + Z.of_nat j) a Hv) as (H1 & H2 & _).
  { apply Hleg. by eapply list_elem_of_lookup_2. }
  { apply Hb. by eapply list_elem_of_lookup_2. }
  exists (list_answered s (lk_time st + Z.of_nat j) a), a. by split_and!.
Qed.

(** C35: The quicksort of the kernel returns.  For an array whose first [n] cells point to
    slots, the recursion of depth at most [n] ends without an access outside these cells,
    permutes them and leaves the others alone, and the keys of the first [n] ascend. *)
Theorem pim_quicksort_sorts (par : nat -> option Z) a n :
  (n <= length a)%nat -> seg par a 0 (Z.of_nat n - 1) is_u32 ->
  exists a', quicksort par (S n) a 0 (Z.of_nat n - 1) = Ok a' /\ a' ≡ₚ a /\
    drop n a' = drop n a /\ ascending par a' 0 (Z.of_nat n - 1).
Proof.
  intros Hn Hs. destruct (quicksort_spec par (S n) a 0 (Z.of_nat n - 1)) as (a' & Hrun & Hsh & Hasc);
    [lia|done|lia|lia|].
  exists a'. split_and!; try done; [apply (sh_perm _ _ _ _ Hsh)|].
  apply list_eq. intros k. rewrite !lookup_drop.
  pose proof (sh_out _ _ _ _ Hsh (Z.of_nat (n + k)) ltac:(lia)) as E. unfold cell in E.
  destruct (Z.leb_spec 0 (Z.of_nat (n + k))); [|lia]. rewrite Nat2Z.id in E.
  destruct (a' !! _), (a !! _); simpl in E; congruence.
Qed.

(** The initial insertions.  From a vault just started, [list_init] represents the empty
    set; an insertion adds its key at all its levels and answers 1, or finds the key; and
    the list is at any time one that the rounds of list operations can work on. *)
Theorem pim_list_initial_add num S st s :
  pskip_ref num S st -> lk_op st = 3 -> lk_slots st !! 0%nat = Some s -> list_valid s = true ->
  0 < ls_param s < UINT32_MAX -> GET_RETVAL (ls_info s) = 0 -> 1 <= lk_arg st <= 14 ->
  ls_param s ∈ S \/ (size S < capacity num)%nat ->
  exists st' s', list_kernel_iter num st = Ok (st', [], true) /\
    pskip_ref num ({[ls_param s]} ∪ S) st' /\ plist_ref num ({[ls_param s]} ∪ S) st' /\
    lk_slots st' = <[0%nat := s']> (lk_slots st) /\ list_valid s' = false /\
    GET_RETVAL (ls_info s') = if decide (ls_param s ∈ S) then 0 else 1.
Proof.
  intros Href Hop Hs Hv Hp H0 Harg Hsp.
  destruct (serve_initial_spec num S st s Href Hs Hv Hp Harg Hsp) as (st' & Hrun & Href' & Hsl & _).
  unfold list_kernel_iter. rewrite Hop. cbn [Z.eqb Pos.eqb]. rewrite Hrun. cbn [mbind result_bind].
  do 2 eexists. split; [done|]. split; [done|]. split; [by apply pskip_plist|]. split; [exact Hsl|].
  unfold list_valid. cbn [ls_info ls_set_info].
  destruct (clear_request_bits list_info (if decide (ls_param s ∈ S) then ls_info s else SET_RETVAL (ls_info s) 1))
    as (-> & -> & _). split; [done|]. case_decide; [done|].
  destruct (set_retval_bits list_info (ls_info s) 1 ltac:(lia)) as (_ & _ & ->). by rewrite H0.
Qed.

(** [list_print] prints the keys of a list that is not empty, in ascending order; on
    an empty list it prints the key of the tail sentinel and then follows the sentinel's
    null pointer. *)
Theorem pim_list_print num S st :
  plist_ref num S st -> lk_op st = 2 ->
  (S <> ∅ -> exists ks, list_kernel_iter num st = Ok (lk_set_op st 1, ks, true) /\
     StronglySorted Z.lt ks /\ list_to_set ks = S) /\
  (S = ∅ -> ldw (lk_vault st) (LINKED_LIST_TAIL st) (f_next list_layout 0) = Ok 0 ->
     list_kernel_iter num st = UB).
Proof.
  intros [ns Hr] Hop. pose proof (plist_fuel _ _ _ _ _ _ Hr) as Hfuel.
  destruct (list_rep_free _ _ _ _ _ _ Hr) as (fl & Hok & _).
  destruct Hr as [Hrep <- _]. pose proof Hrep as [Hc Hk _ Htl Hs _ Hnd _].
  unfold list_kernel_iter, list_kernel_print. rewrite Hop. cbn [Z.eqb Pos.eqb]. split.
  - intros Hne. exists ns.*2. rewrite (print_loop_spec num _ _ ns); try done; [|by intros ->| |lia].
    + split_and!; try done. clear -Hs. induction Hs as [|x ns Hs IH HF]; simpl; constructor; [done|].
      rewrite Forall_fmap. exact HF.
    + apply NoDup_cons in Hnd as [_ Hnd]. by apply NoDup_cons in Hnd as [? _].
  - intros He Hn. destruct ns as [|[a k] ns]; [|exfalso; unfold lset in He; simpl in He; set_solver].
    cbn [fmap list_fmap chain] in Hc. cbn [print_loop]. rewrite Hc. cbn [mbind result_bind]. rewrite Htl.
    cbn [mbind result_bind]. cbn [rd_next list_mem vault_mem] in *. rewrite Hn. cbn [mbind result_bind].
    pose proof (lr_nodes _ _ _ _ _ _ Hrep) as Hns. apply Forall_cons in Hns as [_ Hns].
    apply Forall_cons in Hns as [Ht _].
    destruct (Z.eqb_spec 0 (LINKED_LIST_TAIL st)) as [E|_].
    { rewrite <- E in Ht. destruct Ht as [Ht _]. by apply is_block_nz in Ht. }
    destruct (size (words (lk_vault st))) eqn:Esz.
    { apply map_size_empty_inv in Esz. destruct Ht as [Ht _].
      pose proof (pool_lookup list_layout num _ fl _ 0 Hok Ht (key_lt list_layout)) as [x Hx].
      by rewrite Esz, lookup_empty in Hx. }
    cbn [print_loop]. cbn [rd_next rd_key list_mem vault_mem]. rewrite Hn. cbn [mbind result_bind].
    unfold ldw. rewrite (vo_low _ _ _ _ Hok (0 + 4 * Z.of_nat 0)); [done|].
    unfold BLOCK_BASE_ADDR. lia.
Qed.

(** ** Instances of the properties *)

(** A device with a vault of [n] blocks, and requests as the host writes them. *)
Definition ldemo_slot (op key : Z) : list_slot :=
  mkLSlot (SET_REQUEST list_info (SET_OPERATION list_info 0 op)) 0 key.
Definition ldemo_boot (n : nat) (slots : list list_slot) : lkst :=
  mkLK 0 0 0 0 0 slots (replicate 14 (Some 0)) (replicate 14 (Some 0)) (replicate (length slots) None)
       (mkVault (zero_words list_layout n) 0).
Definition ldemo (n : nat) (op arg : Z) (slots : list list_slot) : lkst :=
  match list_kernel_init n (ldemo_boot n slots) with
  | Ok st => mkLK op arg (lk_time st) (LINKED_LIST_HEAD st) (LINKED_LIST_TAIL st) (lk_slots st)
                  (lk_preds st) (lk_succs st) (valid_requests st) (lk_vault st)
  | _ => ldemo_boot n slots
  end.

Lemma ldemo_ref n op arg slots : (2 <= n)%nat -> pskip_ref n ∅ (ldemo n op arg slots).
Proof.
  intros Hn. destruct (list_kernel_init_spec n (ldemo_boot n slots)) as (st & Hrun & [H1 H2 H3 H4 H5 H6] & _);
    [apply zero_words_fresh|lia|cbn; lia|cbn; lia|].
  unfold ldemo. rewrite Hrun. by split.
Qed.

(** Five requests for a vault with room for two keys; 9 is the third addition. *)
Definition ldemo_slots : list list_slot :=
  [ldemo_slot 0x4000 9; ldemo_slot 0x4000 5; ldemo_slot 0x6000 5; ldemo_slot 0x4000 7; mkLSlot 0 0 3].

Lemma ldemo_legal : Forall list_legal ldemo_slots.
Proof.
  repeat constructor; try (intros [=]); try (vm_compute; congruence); try (unfold is_op; vm_compute; set_solver).
Qed.

Lemma pim_list_round_set_witness :
  exists st' order, list_kernel_iter 4 (ldemo 4 1 0 ldemo_slots) = Ok (st', [], true) /\
    order ≡ₚ pending_ids ldemo_slots /\ length order = 4%nat.
Proof.
  destruct (pim_list_round_set 4 ∅ (ldemo 4 1 0 ldemo_slots)) as (st' & order & Hrun & Hp & _).
  - apply pskip_plist. apply ldemo_ref. lia.
  - vm_compute. reflexivity.
  - exact ldemo_legal.
  - vm_compute. reflexivity.
  - exists st', order. split; [exact Hrun|]. split; [exact Hp|]. rewrite (Permutation_length Hp). reflexivity.
Defined.

Lemma pim_quicksort_sorts_witness :
  exists a', quicksort (fun r => nth_error [30; 10; 20]%Z r) 4 [Some 0%nat; Some 1%nat; Some 2%nat; None] 0 2 = Ok a' /\
    drop 3 a' = [None].
Proof.
  destruct (pim_quicksort_sorts (fun r => nth_error [30; 10; 20]%Z r) [Some 0%nat; Some 1%nat; Some 2%nat; None] 3)
    as (a' & Hrun & _ & Hd & _).
  - simpl. lia.
  - intros i Hi. assert (i = 0 \/ i = 1 \/ i = 2) as [->|[->| ->]] by lia;
      eexists; (split; [reflexivity|]); vm_compute; split; congruence.
  - exists a'. split; [exact Hrun|exact Hd].
Defined.

Lemma pim_list_initial_add_witness :
  exists st' s', list_kernel_iter 4 (ldemo 4 3 2 [ldemo_slot 0x4000 9]) = Ok (st', [], true) /\
    lk_slots st' = [s'] /\ GET_RETVAL (ls_info s') = 1.
Proof.
  destruct (pim_list_initial_add 4 ∅ (ldemo 4 3 2 [ldemo_slot 0x4000 9]) (ldemo_slot 0x4000 9))
    as (st' & s' & Hrun & _ & _ & Hsl & _ & Hret).
  - apply ldemo_ref. lia.
  - vm_compute. reflexivity.
  - vm_compute. reflexivity.
  - vm_compute. reflexivity.
  - vm_compute. split; reflexivity.
  - vm_compute. reflexivity.
  - vm_compute. split; congruence.
  - right. vm_compute. lia.
  - exists st', s'. split; [exact Hrun|]. split; [rewrite Hsl; vm_compute; reflexivity|rewrite Hret; reflexivity].
Defined.

Lemma pim_list_print_witness :
  list_kernel_iter 4 (ldemo 4 2 0 []) = UB.
Proof.
  destruct (pim_list_print 4 ∅ (ldemo 4 2 0 [])) as (_ & H).
  - apply pskip_plist. apply ldemo_ref. lia.
  - vm_compute. reflexivity.
  - apply H; [reflexivity|vm_compute; reflexivity].
Defined.
