(* ===== verification/PimQueue.v ===== *)
(** * The queue in the PIM vaults

    Models src/SMC/SW/PIM/kernels/clean_queue.c and the host side of it,
    src/SMC/SW/HOST/app/multithread_pim_queue (defs.hh, main.cc): a queue cut into segments, one
    per PIM device.  The kernel of the segment enqueues are sent to appends the parameters of
    the valid requests, the kernel of the segment dequeues are sent to answers from its head;
    the kernel that fills or empties its segment clears the PIM-valid bit of that
    request and stops, and the host thread that finds the bit cleared moves on to the next
    device.  A host operation is modelled with its polling loop, the kernel making one
    iteration between two reads.  The theorems show that a pass of a kernel implements the
    operations on a segment, that operations one after the other are those of a FIFO queue
    while enqueues and dequeues are on different devices, and two situations in which the
    protocol fails. *)

From S2P Require Import Prelude.

(** ** Information bits *)

Definition SET_REQUEST (i : Z) : Z := Z.lor i 0x0003.
Definition CHECK_VALID_REQUEST (i : Z) : Z := Z.land i 0x0001.
Definition CHECK_VALID_PIM (i : Z) : Z := Z.land i 0x0002.
Definition CLEAR_REQUEST (i : Z) : Z := Z.land i 0xfffe.
Definition CLEAR_REQUEST_PIM_VALID (i : Z) : Z := Z.land i 0xfffc.

Record qslot := mkSlot { info_bits : Z; timestamp : Z; parameter : Z }.

(** ** The kernel *)

(** [op] is PIM_SREG[0], then MAX_SEGMENT_BYTES, CURR_SEGMENT, HEAD_INDEX, TAIL_INDEX and the
    timestamp; [vault] are the words of the vault, [running] whether the kernel runs. *)
Record kq := mkKQ {
  op : Z;
  max_bytes : Z;
  curr_segment : Z;
  head_index : Z;
  tail_index : Z;
  stamp : Z;
  vault : gmap Z Z;
  slots : list qslot;
  running : bool;
}.

Definition OFF : Z := 0.
Definition ENQ : Z := 1.
Definition DEQ : Z := 2.
Definition INIT : Z := 3.
Definition PRINT : Z := 4.
Definition BLOCK_BASE_ADDR : Z := 0xC0000000.
Definition MAX_SEGMENT_ITEMS (st : kq) : Z := max_bytes st / 4.

Definition set_op (st : kq) (o : Z) : kq :=
  mkKQ o (max_bytes st) (curr_segment st) (head_index st) (tail_index st) (stamp st) (vault st)
       (slots st) (running st).
Definition set_slots (st : kq) (l : list qslot) : kq :=
  mkKQ (op st) (max_bytes st) (curr_segment st) (head_index st) (tail_index st) (stamp st) (vault st)
       l (running st).
Definition set_running (st : kq) (b : bool) : kq :=
  mkKQ (op st) (max_bytes st) (curr_segment st) (head_index st) (tail_index st) (stamp st) (vault st)
       (slots st) b.

Definition cell (st : kq) (i : Z) : Z := curr_segment st + 4 * i.

(** The body of the loop for the valid request [s] of slot [i]; the flag is the [break]. *)
Definition enq_one (st : kq) (i : nat) (s : qslot) : result (kq * bool) :=
  _ ← of_opt (vault st !! cell st (tail_index st));
  let v := <[cell st (tail_index st) := parameter s]> (vault st) in
  let tail := u32 (tail_index st + 1) in
  let full := MAX_SEGMENT_ITEMS st <=? tail in
  let bits := if full then CLEAR_REQUEST_PIM_VALID (info_bits s) else CLEAR_REQUEST (info_bits s) in
  let s' := mkSlot bits (u16 (stamp st)) (parameter s) in
  Ok (mkKQ (if full then OFF else op st) (max_bytes st) (curr_segment st) (head_index st) tail
           (u32 (stamp st + 1)) v (<[i := s']> (slots st)) (running st), full).

Definition deq_one (st : kq) (i : nat) (s : qslot) : result (kq * bool) :=
  x ← of_opt (vault st !! cell st (head_index st));
  let head := u32 (head_index st + 1) in
  let empty := (tail_index st <=? head) || (MAX_SEGMENT_ITEMS st <=? head) in
  let bits := if empty then CLEAR_REQUEST_PIM_VALID (info_bits s) else CLEAR_REQUEST (info_bits s) in
  let s' := mkSlot bits (u16 (stamp st)) x in
  Ok (mkKQ (if empty then OFF else op st) (max_bytes st) (curr_segment st) (if empty then 0 else head)
           (if empty then 0 else tail_index st) (u32 (stamp st + 1)) (vault st)
           (<[i := s']> (slots st)) (running st), empty).

(** The loop over the slots [i], [i + 1], ... *)
Fixpoint pass (one : kq -> nat -> qslot -> result (kq * bool)) (n i : nat) (st : kq) : result kq :=
  match n with
  | O => Ok st
  | S n' =>
      s ← of_opt (slots st !! i);
      if CHECK_VALID_REQUEST (info_bits s) =? 0 then pass one n' (S i) st
      else
        '(st', stop) ← one st i s;
        if (stop : bool) then Ok st' else pass one n' (S i) st'
  end.

(** PRINT: the elements from head to tail. *)
Definition print_items (st : kq) : result (list Z) :=
  mapM (fun i => of_opt (vault st !! cell st i))
       (seqZ (head_index st) (tail_index st - head_index st)).

(** One iteration of the kernel's loop; what it prints is the second component. *)
Definition kernel_iter (st : kq) : result (kq * list Z) :=
  let NUM_HOST_THREADS := length (slots st) in
  if op st =? INIT then
    Ok (mkKQ OFF (max_bytes st) BLOCK_BASE_ADDR 0 0 0 (vault st) (slots st) (running st), [])
  else if op st =? ENQ then st' ← pass enq_one NUM_HOST_THREADS 0 st; Ok (st', [])
  else if op st =? DEQ then st' ← pass deq_one NUM_HOST_THREADS 0 st; Ok (st', [])
  else if op st =? PRINT then l ← print_items st; Ok (set_op st OFF, l)
  else if op st =? OFF then Ok (set_running st false, [])
  else Ok (st, []).

(** ** The host *)

(** The devices, and the ones that enqueues and dequeues are sent to. *)
Record pq := mkPQ { parts : list kq; enq_part : nat; deq_part : nat }.

Definition GET_NEXT_PARTITION (st : pq) (x : nat) : nat := ((x + 1) mod length (parts st))%nat.
Definition set_part (st : pq) (c : nat) (k : kq) : pq := mkPQ (<[c := k]> (parts st)) (enq_part st) (deq_part st).

Definition read_slot (st : pq) (c tid : nat) : result qslot :=
  k ← of_opt (parts st !! c); of_opt (slots k !! tid).
Definition write_slot (st : pq) (c tid : nat) (f : qslot -> qslot) : result pq :=
  k ← of_opt (parts st !! c); s ← of_opt (slots k !! tid);
  Ok (set_part st c (set_slots k (<[tid := f s]> (slots k)))).
Definition write_parameter (st : pq) (c tid : nat) (v : Z) : result pq :=
  write_slot st c tid (fun s => mkSlot (info_bits s) (timestamp s) v).
Definition write_info_bits (st : pq) (c tid : nat) (i : Z) : result pq :=
  write_slot st c tid (fun s => mkSlot i (timestamp s) (parameter s)).
Definition read_info_bits (st : pq) (c tid : nat) : result Z := s ← read_slot st c tid; Ok (info_bits s).

(** One iteration of the kernel of device [c], if it runs. *)
Definition run_kernel (st : pq) (c : nat) : result pq :=
  k ← of_opt (parts st !! c);
  if running k then '(k', _) ← kernel_iter k; Ok (set_part st c k') else Ok st.

(** [write_sreg(0, o)] and [start_computation], which waits until the device sleeps. *)
Definition start_part (st : pq) (c : nat) (o : Z) : result pq :=
  k ← of_opt (parts st !! c);
  if running k then NoFuel else Ok (set_part st c (set_running (set_op k o) true)).
(** [wait_for_completion_simple], with one more iteration of the kernel. *)
Definition close_part (st : pq) (c : nat) : result pq :=
  st1 ← run_kernel st c;
  k ← of_opt (parts st1 !! c);
  if running k then NoFuel else Ok st1.

(** The polling loop of an operation on device [c]; [now] reads enq_part or deq_part. *)
Fixpoint poll (fuel : nat) (now : pq -> nat) (c tid : nat) (st : pq) : result (pq * Z) :=
  match fuel with
  | O => NoFuel
  | S fuel' =>
      i ← read_info_bits st c tid;
      let valid := CHECK_VALID_REQUEST i * CHECK_VALID_PIM i in
      if negb (valid =? 0) && bool_decide (c = now st) then
        st1 ← run_kernel st c; poll fuel' now c tid st1
      else Ok (st, i)
  end.

(** What follows the loop: the final read if the device has changed, and the clearing of a
    request that was not served; the flag says whether it was. *)
Definition settle (now : pq -> nat) (c tid : nat) (st : pq) (i : Z) : result (pq * Z * bool) :=
  i1 ← (if bool_decide (c = now st) then Ok i else read_info_bits st c tid);
  if CHECK_VALID_REQUEST i1 =? 0 then Ok (st, i1, true)
  else
    let i2 := CLEAR_REQUEST i1 in
    st1 ← write_info_bits st c tid i2;
    Ok (st1, i2, false).

(** One turn of the loop of [ops_routine]; [info] is the thread's copy of the bits.  The
    answer says whether the operation was completed. *)
Definition enq_turn (fuel tid : nat) (v info : Z) (st : pq) : result (pq * Z * bool) :=
  let c := enq_part st in
  st1 ← write_parameter st c tid v;
  st2 ← write_info_bits st1 c tid (SET_REQUEST info);
  '(st3, i) ← poll fuel enq_part c tid st2;
  '(st4, i1, served) ← settle enq_part c tid st3 i;
  if CHECK_VALID_PIM i1 =? 0 then
    let c' := GET_NEXT_PARTITION st4 c in
    st5 ← start_part (mkPQ (parts st4) c' (deq_part st4)) c' ENQ;
    st6 ← close_part st5 c;
    Ok (st6, i1, served)
  else Ok (st4, i1, served).

Definition deq_turn (fuel tid : nat) (info : Z) (st : pq) : result (pq * Z * option Z) :=
  let c := deq_part st in
  st2 ← write_info_bits st c tid (SET_REQUEST info);
  '(st3, i) ← poll fuel deq_part c tid st2;
  '(st4, i1, served) ← settle deq_part c tid st3 i;
  s ← read_slot st4 c tid;
  let answer := if (served : bool) then Some (parameter s) else None in
  if CHECK_VALID_PIM i1 =? 0 then
    let c' := GET_NEXT_PARTITION st4 c in
    st5 ← start_part (mkPQ (parts st4) (enq_part st4) c') c' DEQ;
    st6 ← close_part st5 c;
    Ok (st6, i1, answer)
  else Ok (st4, i1, answer).

(** ** A pass over the slots *)

Definition valid_at (st : kq) (j : nat) : bool :=
  match slots st !! j with Some s => negb (CHECK_VALID_REQUEST (info_bits s) =? 0) | None => false end.
Definition pending (st : kq) (i n : nat) : list nat := filter (fun j => valid_at st j = true) (seq i n).

Section pass.
Context (one : kq -> nat -> qslot -> result (kq * bool)) (room : kq -> nat) (ok : kq -> Prop).

(** The effect of [one] on the slot [i]. *)
Definition result_of (st : kq) (i : nat) : kq :=
  match slots st !! i with
  | Some s => match one st i s with Ok (st', _) => st' | _ => st end
  | None => st
  end.

(** [one] answers a request while there is room and stops when there is no more. *)
Context (Hone : forall st i s r, ok st -> room st = S r -> slots st !! i = Some s ->
  exists st' s', one st i s = Ok (st', bool_decide (r = 0%nat)) /\ slots st' = <[i := s']> (slots st) /\
    (r <> 0%nat -> ok st' /\ room st' = r)).

Lemma pending_cons st i n : pending st i (S n) = (if valid_at st i then [i] else []) ++ pending st (S i) n.
Proof.
  unfold pending. cbn [seq]. rewrite filter_cons. destruct (valid_at st i); [by rewrite decide_True|by rewrite decide_False].
Qed.

Lemma pending_ext st st' n : forall i, (forall j, (i <= j)%nat -> slots st' !! j = slots st !! j) ->
  pending st' i n = pending st i n.
Proof.
  induction n as [|n IH]; intros i H; [done|]. rewrite !pending_cons. f_equal.
  - unfold valid_at. by rewrite H by lia.
  - apply IH. intros j Hj. apply H. lia.
Qed.

Lemma pass_spec n : forall i st r, ok st -> room st = S r -> (i + n <= length (slots st))%nat ->
  pass one n i st = Ok (foldl result_of st (take (room st) (pending st i n))).
Proof.
  induction n as [|n IH]; intros i st r Hok Hr Hn; [cbn; by rewrite take_nil|].
  cbn [pass]. destruct (lookup_lt_is_Some_2 (slots st) i) as [s Hs]; [lia|]. rewrite Hs. cbn [of_opt mbind result_bind].
  rewrite pending_cons. unfold valid_at at 1. rewrite Hs.
  destruct (CHECK_VALID_REQUEST (info_bits s) =? 0) eqn:Ev; cbn [negb app].
  { by apply (IH _ _ r); [| |lia]. }
  destruct (Hone st i s r Hok Hr Hs) as (st' & s' & H1 & H2 & H3). rewrite H1. cbn [mbind result_bind].
  assert (Hst' : result_of st i = st') by (unfold result_of; by rewrite Hs, H1).
  rewrite Hr. cbn [take app foldl]. rewrite Hst'. case_bool_decide as E.
  - subst r. by rewrite take_0.
  - destruct (H3 E) as [Hok' Hr']. destruct r as [|r']; [done|]. rewrite (IH _ _ r') by (done || rewrite H2, length_insert; lia).
    rewrite Hr', (pending_ext st st'); [done|]. intros j Hj. rewrite H2. apply list_lookup_insert_ne. lia.
Qed.
End pass.

(** ** Segments *)

Record seg_ok (st : kq) : Prop := {
  sg_items : 0 < MAX_SEGMENT_ITEMS st < 2 ^ 30;
  sg_range : 0 <= head_index st <= tail_index st /\ tail_index st <= MAX_SEGMENT_ITEMS st;
  sg_cells i : 0 <= i < MAX_SEGMENT_ITEMS st -> is_Some (vault st !! cell st i);
}.

(** The elements in a segment. *)
Definition item (st : kq) (i : Z) : Z := default 0 (vault st !! cell st i).
Definition contents (st : kq) : list Z := item st <$> seqZ (head_index st) (tail_index st - head_index st).

(** What an operation leaves alone. *)
Definition same_segment (st st' : kq) : Prop :=
  max_bytes st' = max_bytes st /\ curr_segment st' = curr_segment st /\ running st' = running st.

Lemma length_contents st : length (contents st) = Z.to_nat (tail_index st - head_index st).
Proof. unfold contents. by rewrite length_fmap, length_seqZ. Qed.

Lemma enq_one_spec st i s : seg_ok st -> tail_index st < MAX_SEGMENT_ITEMS st ->
  let full := bool_decide (tail_index st + 1 = MAX_SEGMENT_ITEMS st) in
  exists st', enq_one st i s = Ok (st', full) /\ contents st' = contents st ++ [parameter s] /\
    seg_ok st' /\ same_segment st st' /\ head_index st' = head_index st /\ tail_index st' = tail_index st + 1 /\
    op st' = (if full then OFF else op st) /\
    slots st' = <[i := mkSlot ((if full then CLEAR_REQUEST_PIM_VALID else CLEAR_REQUEST) (info_bits s))
                              (u16 (stamp st)) (parameter s)]> (slots st).
Proof.
  intros [Hi [Hr1 Hr2] Hc] Ht full. unfold enq_one.
  destruct (Hc (tail_index st)) as [x Hx]; [lia|]. rewrite Hx. cbn [of_opt mbind result_bind].
  assert (Hu : u32 (tail_index st + 1) = tail_index st + 1) by (apply u32_small; unfold is_u32, u32_mod; lia).
  rewrite Hu. assert (Hf : (MAX_SEGMENT_ITEMS st <=? tail_index st + 1) = full).
  { unfold full. case_bool_decide; [apply Z.leb_le|apply Z.leb_gt]; lia. }
  rewrite Hf. eexists. split; [reflexivity|]. split_and!; try done.
  - unfold contents. cbn [head_index tail_index].
    replace (tail_index st + 1 - head_index st) with ((tail_index st - head_index st) + 1) by lia.
    rewrite seqZ_app, fmap_app by lia. replace (head_index st + (tail_index st - head_index st)) with (tail_index st) by lia.
    f_equal.
    + apply list_fmap_ext. intros j y Hj. apply lookup_seqZ in Hj as [-> Hj]. unfold item, cell. cbn [vault curr_segment].
      rewrite lookup_insert_ne; [done|]. unfold cell. lia.
    + rewrite seqZ_cons by lia. change (seqZ _ (Z.pred 1)) with (@nil Z). cbn [fmap list_fmap]. unfold item.
      cbn [vault]. change (cell (mkKQ _ _ _ _ _ _ _ _ _) (tail_index st)) with (cell st (tail_index st)).
      by rewrite lookup_insert_eq.
  - split; cbn; [exact Hi|unfold MAX_SEGMENT_ITEMS in *; cbn in *; lia|].
    intros j Hj. unfold cell. cbn [curr_segment]. destruct (decide (j = tail_index st)) as [->|].
    + rewrite lookup_insert_eq. eauto.
    + rewrite lookup_insert_ne by (unfold cell; lia). by apply Hc.
  - by destruct full.
Qed.

Lemma deq_one_spec st i s : seg_ok st -> head_index st < tail_index st ->
  let empty := bool_decide (head_index st + 1 = tail_index st) in
  exists st' x, deq_one st i s = Ok (st', empty) /\ contents st = x :: contents st' /\
    seg_ok st' /\ same_segment st st' /\ op st' = (if empty then OFF else op st) /\
    head_index st' = (if empty then 0 else head_index st + 1) /\ tail_index st' = (if empty then 0 else tail_index st) /\
    slots st' = <[i := mkSlot ((if empty then CLEAR_REQUEST_PIM_VALID else CLEAR_REQUEST) (info_bits s))
                              (u16 (stamp st)) x]> (slots st).
Proof.
  intros [Hi [Hr1 Hr2] Hc] Ht empty. unfold deq_one.
  destruct (Hc (head_index st)) as [x Hx]; [lia|]. rewrite Hx. cbn [of_opt mbind result_bind].
  assert (Hu : u32 (head_index st + 1) = head_index st + 1) by (apply u32_small; unfold is_u32, u32_mod; lia).
  rewrite Hu.
  assert (Hf : (tail_index st <=? head_index st + 1) || (MAX_SEGMENT_ITEMS st <=? head_index st + 1) = empty).
  { unfold empty. case_bool_decide as E.
    - apply orb_true_iff. left. apply Z.leb_le. lia.
    - apply orb_false_iff. split; apply Z.leb_gt; lia. }
  rewrite Hf. eexists _, x. split; [reflexivity|]. split_and!; try done.
  - unfold contents at 1. replace (tail_index st - head_index st) with (Z.succ (tail_index st - head_index st - 1)) by lia.
    rewrite seqZ_cons by lia. cbn.
    unfold empty. case_bool_decide as E; cbn.
    + unfold contents. cbn. replace (Z.pred _) with 0 by lia. unfold item. by rewrite Hx.
    + unfold contents. cbn [head_index tail_index]. unfold item at 1. rewrite Hx. cbn. f_equal.
      replace (Z.pred (Z.succ (tail_index st - head_index st - 1))) with (tail_index st - (head_index st + 1)) by lia.
      by rewrite Z.add_1_r.
  - destruct empty; (split; [exact Hi|unfold MAX_SEGMENT_ITEMS in *; cbn in *; lia|exact Hc]).
  - by destruct empty.
Qed.

(** ** Bits *)

Lemma bits_cleared i : CHECK_VALID_REQUEST (CLEAR_REQUEST i) = 0 /\
  CHECK_VALID_REQUEST (CLEAR_REQUEST_PIM_VALID i) = 0 /\ CHECK_VALID_PIM (CLEAR_REQUEST_PIM_VALID i) = 0 /\
  CHECK_VALID_PIM (CLEAR_REQUEST i) = CHECK_VALID_PIM i.
Proof.
  unfold CHECK_VALID_REQUEST, CHECK_VALID_PIM, CLEAR_REQUEST, CLEAR_REQUEST_PIM_VALID.
  rewrite <- !Z.land_assoc. repeat split; apply Z.land_0_r.
Qed.

Lemma bits_set i : CHECK_VALID_REQUEST (SET_REQUEST i) = 1 /\ CHECK_VALID_PIM (SET_REQUEST i) = 2.
Proof.
  unfold CHECK_VALID_REQUEST, CHECK_VALID_PIM, SET_REQUEST. rewrite !Z.land_lor_distr_l. split.
  - change (Z.land 3 1) with 1. apply Z.bits_inj'. intros n Hn. rewrite Z.lor_spec, Z.land_spec.
    destruct (Z.testbit i n), (Z.testbit 1 n); done.
  - change (Z.land 3 2) with 2. apply Z.bits_inj'. intros n Hn. rewrite Z.lor_spec, Z.land_spec.
    destruct (Z.testbit i n), (Z.testbit 2 n); done.
Qed.

(** ** The requests that a pass serves *)

Definition param_at (st : kq) (j : nat) : Z := from_option parameter 0 (slots st !! j).

(** The request in slot [j] has been answered; its PIM-valid bit tells whether the segment is
    finished with it. *)
Definition answered (st st' : kq) (finished : bool) (j : nat) : Prop :=
  exists s s', slots st !! j = Some s /\ slots st' !! j = Some s' /\
    CHECK_VALID_REQUEST (info_bits s') = 0 /\
    CHECK_VALID_PIM (info_bits s') = if finished then 0 else CHECK_VALID_PIM (info_bits s).

Definition enq_room (st : kq) : nat := Z.to_nat (MAX_SEGMENT_ITEMS st - tail_index st).
Definition deq_room (st : kq) : nat := Z.to_nat (tail_index st - head_index st).

Lemma slots_result (one : kq -> nat -> qslot -> result (kq * bool)) st i s st' b :
  slots st !! i = Some s -> one st i s = Ok (st', b) -> result_of one st i = st'.
Proof. intros Hs H. unfold result_of. by rewrite Hs, H. Qed.

(** The slots after the requests of [l] have been served; [fin] is set by the last one if there
    was room for no more. *)
Definition served (st st' : kq) (l : list nat) (fin : bool) : Prop :=
  length (slots st') = length (slots st) /\ (forall j, j ∉ l -> slots st' !! j = slots st !! j) /\
  forall k j, l !! k = Some j -> answered st st' (fin && bool_decide (S k = length l)) j.

Lemma served_nil st fin : served st st [] fin.
Proof. split; [done|]. split; [done|]. intros k j. by rewrite lookup_nil. Qed.

Lemma served_cons st st1 st' i s s1 l fin :
  i ∉ l -> slots st !! i = Some s -> slots st1 = <[i := s1]> (slots st) ->
  CHECK_VALID_REQUEST (info_bits s1) = 0 ->
  CHECK_VALID_PIM (info_bits s1) = (if fin && bool_decide (l = []) then 0 else CHECK_VALID_PIM (info_bits s)) ->
  served st1 st' l fin -> served st st' (i :: l) fin.
Proof.
  intros Hi Hs H1 Hr Hp (Hlen & Hout & Hin). split; [by rewrite Hlen, H1, length_insert|]. split.
  - intros j Hj. apply not_elem_of_cons in Hj as [Hj1 Hj2]. rewrite Hout by done. rewrite H1. by apply list_lookup_insert_ne.
  - intros [|k] j Hj; simpl in Hj.
    + injection Hj as <-. exists s, s1. split; [done|]. split.
      { rewrite Hout by done. rewrite H1. apply list_lookup_insert_eq. by eapply lookup_lt_Some. }
      split; [done|]. rewrite Hp. f_equal. cbn [length]. destruct l; done.
    + destruct (Hin k j Hj) as (t & t' & Ht & Ht' & Hv & Hq). exists t, t'. split; [|split; [done|split; [done|]]].
      * rewrite <- Ht, H1. symmetry. apply list_lookup_insert_ne. intros ->. apply Hi. by eapply list_elem_of_lookup_2.
      * rewrite Hq. cbn [length]. by rewrite (bool_decide_ext (S (S k) = S (length l)) (S k = length l)) by lia.
Qed.

Lemma same_segment_trans a b d : same_segment a b -> same_segment b d -> same_segment a d.
Proof. unfold same_segment. intros (-> & -> & ->) (-> & -> & ->). done. Qed.

Lemma params_insert st st1 i s' (l : list nat) : i ∉ l -> slots st1 = <[i := s']> (slots st) ->
  param_at st1 <$> l = param_at st <$> l.
Proof.
  intros Hi H. apply list_fmap_ext. intros k j Hj. unfold param_at. rewrite H, list_lookup_insert_ne; [done|].
  intros ->. apply Hi. by eapply list_elem_of_lookup_2.
Qed.

Lemma enq_run l : forall st, seg_ok st -> NoDup l -> Forall (fun j => (j < length (slots st))%nat) l ->
  (length l <= enq_room st)%nat ->
  let fin := bool_decide (length l = enq_room st) in
  let st' := foldl (result_of enq_one) st l in
  contents st' = contents st ++ (param_at st <$> l) /\ seg_ok st' /\ same_segment st st' /\
  head_index st' = head_index st /\ tail_index st' = tail_index st + Z.of_nat (length l) /\
  op st' = (if fin && negb (bool_decide (l = [])) then OFF else op st) /\ served st st' l fin.
Proof.
  induction l as [|i l IH]; intros st Hok Hnd Hf Hlen; cbn zeta.
  { cbn. rewrite app_nil_r, andb_false_r. split_and!; try done; try lia; apply served_nil. }
  apply NoDup_cons in Hnd as [Hi Hnd]. inversion_clear Hf as [|? ? Hfi Hf']. cbn [length] in Hlen. unfold enq_room in *.
  destruct (lookup_lt_is_Some_2 _ _ Hfi) as [s Hs].
  destruct (enq_one_spec st i s Hok) as (st1 & H1 & Hc1 & Hok1 & Hsm1 & Hh1 & Ht1 & Ho1 & Hsl1); [lia|].
  cbn [foldl]. rewrite (slots_result enq_one st i s st1 _ Hs H1).
  assert (Hit : MAX_SEGMENT_ITEMS st1 = MAX_SEGMENT_ITEMS st) by (unfold MAX_SEGMENT_ITEMS; by destruct Hsm1 as (-> & _)).
  destruct (IH st1 Hok1 Hnd) as (Hc & Hok' & Hsm & Hh & Ht & Ho & Hsv); [by rewrite Hsl1, length_insert|rewrite Hit, Ht1; lia|].
  rewrite Hit, Ht1 in Ho, Hsv.
  rewrite (bool_decide_ext (length l = Z.to_nat (MAX_SEGMENT_ITEMS st - (tail_index st + 1)))
             (length (i :: l) = Z.to_nat (MAX_SEGMENT_ITEMS st - tail_index st))) in Ho, Hsv by (cbn [length]; lia).
  assert (Hfull : bool_decide (tail_index st + 1 = MAX_SEGMENT_ITEMS st) =
      bool_decide (length (i :: l) = Z.to_nat (MAX_SEGMENT_ITEMS st - tail_index st)) && bool_decide (l = [])).
  { cbn [length]. repeat case_bool_decide; try done; subst; cbn [length] in *; try lia. destruct l; [done|cbn [length] in *; lia]. }
  rewrite Hfull in *. set (fin := bool_decide (length (i :: l) = _)) in *. split_and!.
  - rewrite Hc, Hc1, (params_insert st st1 i _ l Hi Hsl1), <- app_assoc. cbn.
    replace (param_at st i) with (parameter s) by (unfold param_at; by rewrite Hs). done.
  - done.
  - by eapply same_segment_trans.
  - congruence.
  - cbn [length]. lia.
  - rewrite Ho, Ho1. rewrite (bool_decide_eq_false_2 (i :: l = [])) by done. cbn [negb andb].
    destruct fin, (bool_decide (l = [])); done.
  - eapply (served_cons st st1); [done|exact Hs|exact Hsl1| | |exact Hsv].
    + destruct (bits_cleared (info_bits s)) as (B1 & B2 & _). cbn. by destruct (fin && bool_decide (l = [])).
    + destruct (bits_cleared (info_bits s)) as (_ & _ & B3 & B4). cbn. by destruct (fin && bool_decide (l = [])).
Qed.

Lemma deq_run l : forall st, seg_ok st -> NoDup l -> Forall (fun j => (j < length (slots st))%nat) l ->
  (length l <= deq_room st)%nat ->
  let fin := bool_decide (length l = deq_room st) in
  let st' := foldl (result_of deq_one) st l in
  contents st = (param_at st' <$> l) ++ contents st' /\ seg_ok st' /\ same_segment st st' /\
  op st' = (if fin && negb (bool_decide (l = [])) then OFF else op st) /\
  (l <> [] -> fin = true -> head_index st' = 0 /\ tail_index st' = 0) /\
  (fin = false -> tail_index st' = tail_index st) /\ served st st' l fin.
Proof.
  induction l as [|i l IH]; intros st Hok Hnd Hf Hlen; cbn zeta.
  { cbn. rewrite andb_false_r. split_and!; try done. }
  apply NoDup_cons in Hnd as [Hi Hnd]. inversion_clear Hf as [|? ? Hfi Hf']. cbn [length] in Hlen. unfold deq_room in *.
  destruct (lookup_lt_is_Some_2 _ _ Hfi) as [s Hs].
  destruct (deq_one_spec st i s Hok) as (st1 & x & H1 & Hc1 & Hok1 & Hsm1 & Ho1 & Hh1 & Ht1 & Hsl1); [lia|].
  cbn [foldl]. rewrite (slots_result deq_one st i s st1 _ Hs H1).
  set (lst := bool_decide (head_index st + 1 = tail_index st)) in *.
  assert (Hrm : Z.to_nat (tail_index st1 - head_index st1) = (Z.to_nat (tail_index st - head_index st) - 1)%nat).
  { rewrite Hh1, Ht1. destruct lst eqn:E; [apply bool_decide_eq_true in E|]; lia. }
  destruct (IH st1 Hok1 Hnd) as (Hc & Hok' & Hsm & Ho & Hz & Hnz & Hsv); [by rewrite Hsl1, length_insert|lia|].
  rewrite Hrm in Ho, Hz, Hnz, Hsv.
  rewrite (bool_decide_ext (length l = (Z.to_nat (tail_index st - head_index st) - 1)%nat)
             (length (i :: l) = Z.to_nat (tail_index st - head_index st))) in Ho, Hz, Hnz, Hsv by (cbn [length]; lia).
  assert (Hl : lst = bool_decide (length (i :: l) = Z.to_nat (tail_index st - head_index st)) && bool_decide (l = [])).
  { unfold lst. cbn [length]. repeat case_bool_decide; try done; subst; cbn [length] in *; try lia. destruct l; [done|cbn [length] in *; lia]. }
  rewrite Hl in *. set (fin := bool_decide (length (i :: l) = _)) in *.
  assert (Hx : param_at (foldl (result_of deq_one) st1 l) i = x).
  { unfold param_at. destruct Hsv as (_ & Hout & _). rewrite Hout, Hsl1, list_lookup_insert_eq by done. done. }
  split_and!.
  - rewrite Hc1, Hc. cbn. by rewrite Hx.
  - done.
  - by eapply same_segment_trans.
  - rewrite Ho, Ho1. rewrite (bool_decide_eq_false_2 (i :: l = [])) by done. cbn [negb andb].
    destruct fin, (bool_decide (l = [])); done.
  - intros _ Hfin. destruct l as [|j l]; [|by apply Hz]. cbn. rewrite Hh1, Ht1, Hfin. done.
  - intros Hfin. rewrite Hnz by done. rewrite Ht1, Hfin. done.
  - eapply (served_cons st st1); [done|exact Hs|exact Hsl1| | |exact Hsv].
    + destruct (bits_cleared (info_bits s)) as (B1 & B2 & _). cbn. by destruct (fin && bool_decide (l = [])).
    + destruct (bits_cleared (info_bits s)) as (_ & _ & B3 & B4). cbn. by destruct (fin && bool_decide (l = [])).
Qed.

Lemma pending_facts st n : (n <= length (slots st))%nat ->
  NoDup (pending st 0 n) /\ Forall (fun j => (j < length (slots st))%nat) (pending st 0 n).
Proof.
  intros Hn. unfold pending. split; [apply NoDup_filter, NoDup_seq|]. apply Forall_forall. intros j Hj.
  apply list_elem_of_filter in Hj as [_ Hj]. apply elem_of_seq in Hj. lia.
Qed.

Lemma take_facts {A} (P : A -> Prop) n (l : list A) : NoDup l /\ Forall P l -> NoDup (take n l) /\ Forall P (take n l).
Proof. intros [H1 H2]. split; [|by apply Forall_take]. eapply sublist_NoDup; [exact H1|apply sublist_take]. Qed.

(** The requests that the kernel serves in one iteration. *)
Definition pass_serves (st : kq) (room : nat) : list nat := take room (pending st 0 (length (slots st))).

Lemma enq_iter st : seg_ok st -> op st = ENQ -> tail_index st < MAX_SEGMENT_ITEMS st ->
  let l := pass_serves st (enq_room st) in
  kernel_iter st = Ok (foldl (result_of enq_one) st l, []).
Proof.
  intros Hok Ho Ht l. unfold kernel_iter. rewrite Ho. cbn.
  rewrite (pass_spec enq_one enq_room seg_ok) with (r := Nat.pred (enq_room st)); try done; try (unfold enq_room; lia).
  clear. intros st i s r Hok Hr Hs. unfold enq_room in Hr.
  destruct (enq_one_spec st i s Hok) as (st1 & H1 & Hc1 & Hok1 & Hsm1 & Hh1 & Ht1 & Ho1 & Hsl1); [lia|].
  exists st1. eexists. split; [|split; [exact Hsl1|]].
  - rewrite H1. do 2 f_equal. apply bool_decide_ext. lia.
  - intros Hr0. split; [done|]. unfold enq_room, MAX_SEGMENT_ITEMS in *. destruct Hsm1 as (-> & _). lia.
Qed.

Lemma deq_iter st : seg_ok st -> op st = DEQ -> head_index st < tail_index st ->
  let l := pass_serves st (deq_room st) in
  kernel_iter st = Ok (foldl (result_of deq_one) st l, []).
Proof.
  intros Hok Ho Ht l. unfold kernel_iter. rewrite Ho. cbn.
  rewrite (pass_spec deq_one deq_room seg_ok) with (r := Nat.pred (deq_room st)); try done; try (unfold deq_room; lia).
  clear. intros st i s r Hok Hr Hs. unfold deq_room in Hr.
  destruct (deq_one_spec st i s Hok) as (st1 & x & H1 & Hc1 & Hok1 & Hsm1 & Ho1 & Hh1 & Ht1 & Hsl1); [lia|].
  exists st1. eexists. split; [|split; [exact Hsl1|]].
  - rewrite H1. do 2 f_equal. apply bool_decide_ext. lia.
  - intros Hr0. split; [done|]. unfold deq_room. rewrite Hh1, Ht1. rewrite bool_decide_eq_false_2 by lia. lia.
Qed.

(** ** One request *)

(** No request is pending. *)
Definition quiet (k : kq) : Prop := forall j, valid_at k j = false.
(** Only the request of [tid] is pending. *)
Definition only (k : kq) (tid : nat) (s : qslot) : Prop :=
  slots k !! tid = Some s /\ CHECK_VALID_REQUEST (info_bits s) = 1 /\ forall j, j <> tid -> valid_at k j = false.

Lemma pending_none k n : forall i, (forall j, (i <= j)%nat -> valid_at k j = false) -> pending k i n = [].
Proof.
  induction n as [|n IH]; intros i H; [done|]. rewrite pending_cons, H by lia. apply IH. intros j Hj. apply H. lia.
Qed.

Lemma pending_only k tid s n : forall i, only k tid s -> (i <= tid < i + n)%nat -> pending k i n = [tid].
Proof.
  induction n as [|n IH]; intros i Ho Hi; [lia|]. rewrite pending_cons. destruct Ho as (Hs & Hv & Hn).
  destruct (decide (i = tid)) as [->|E].
  - unfold valid_at at 1. rewrite Hs, Hv. cbn. f_equal. apply pending_none. intros j Hj. apply Hn. lia.
  - rewrite Hn by done. cbn. apply IH; [by split_and!|lia].
Qed.

Lemma serves_only k tid s room : only k tid s -> (0 < room)%nat -> pass_serves k room = [tid].
Proof.
  intros Ho Hr. unfold pass_serves. rewrite (pending_only k tid s _ 0 Ho); [destruct room; [lia|]; cbn; by rewrite take_nil|].
  destruct Ho as (Hs & _). apply lookup_lt_Some in Hs. lia.
Qed.

Lemma quiet_answered k k' tid s s' : only k tid s -> slots k' = <[tid := s']> (slots k) ->
  CHECK_VALID_REQUEST (info_bits s') = 0 -> quiet k'.
Proof.
  intros (Hs & _ & Hn) Hsl Hv j. unfold valid_at. rewrite Hsl. destruct (decide (j = tid)) as [->|E].
  - rewrite list_lookup_insert_eq by (by eapply lookup_lt_Some). by rewrite Hv.
  - rewrite list_lookup_insert_ne by congruence. by apply Hn.
Qed.

(** A request that arrives at a quiet device. *)
Definition place_request (k : kq) (tid : nat) (s : qslot) : kq := set_slots k (<[tid := s]> (slots k)).

Lemma place_only k tid s : quiet k -> (tid < length (slots k))%nat -> CHECK_VALID_REQUEST (info_bits s) = 1 ->
  only (place_request k tid s) tid s.
Proof.
  intros Hq Ht Hv. split; [by apply list_lookup_insert_eq|]. split; [done|]. intros j Hj. unfold valid_at, place_request.
  cbn [slots set_slots]. rewrite list_lookup_insert_ne by congruence. apply Hq.
Qed.

(** What one request does to a device that waits for enqueues, or dequeues. *)
Lemma enq_request k tid v info : seg_ok k -> op k = ENQ -> tail_index k < MAX_SEGMENT_ITEMS k -> quiet k ->
  (tid < length (slots k))%nat -> running k = true ->
  exists k', (forall ts, kernel_iter (place_request k tid (mkSlot (SET_REQUEST info) ts v)) = Ok (k' ts, [])) /\
    forall ts, let full := bool_decide (tail_index k + 1 = MAX_SEGMENT_ITEMS k) in
      contents (k' ts) = contents k ++ [v] /\ seg_ok (k' ts) /\ quiet (k' ts) /\
      length (slots (k' ts)) = length (slots k) /\ running (k' ts) = true /\ MAX_SEGMENT_ITEMS (k' ts) = MAX_SEGMENT_ITEMS k /\
      tail_index (k' ts) = tail_index k + 1 /\ head_index (k' ts) = head_index k /\ op (k' ts) = (if full then OFF else ENQ) /\
      exists s, slots (k' ts) !! tid = Some s /\ CHECK_VALID_REQUEST (info_bits s) = 0 /\
        CHECK_VALID_PIM (info_bits s) = if full then 0 else 2.
Proof.
  intros Hok Ho Ht Hq Hlt Hrun. pose (st ts := place_request k tid (mkSlot (SET_REQUEST info) ts v)).
  exists (fun ts => result_of enq_one (st ts) tid).
  assert (Honly : forall ts, only (st ts) tid (mkSlot (SET_REQUEST info) ts v)).
  { intros ts. apply place_only; [done|done|]. apply bits_set. }
  assert (Hok' : forall ts, seg_ok (st ts)) by (intros ts; by destruct Hok).
  split; intros ts.
  - fold (st ts). rewrite (enq_iter (st ts) (Hok' ts) Ho Ht). rewrite (serves_only _ _ _ _ (Honly ts)); [done|].
    unfold enq_room. cbn. unfold MAX_SEGMENT_ITEMS in *. cbn. lia.
  - destruct (enq_one_spec (st ts) tid (mkSlot (SET_REQUEST info) ts v) (Hok' ts) Ht)
      as (st1 & H1 & Hc1 & Hok1 & (Hm1 & Hs1 & Hr1) & Hh1 & Ht1 & Ho1 & Hsl1).
    change (tail_index (st ts)) with (tail_index k) in *. change (MAX_SEGMENT_ITEMS (st ts)) with (MAX_SEGMENT_ITEMS k) in *.
    set (full := bool_decide _) in *. intros full'. change full' with full.
    rewrite (slots_result enq_one (st ts) tid _ st1 _ (proj1 (Honly ts)) H1).
    destruct (bits_cleared (SET_REQUEST info)) as (B1 & B2 & B3 & B4). destruct (bits_set info) as [_ B5].
    split_and!; try done.
    + eapply quiet_answered; [exact (Honly ts)|exact Hsl1|]. cbn. by destruct full.
    + rewrite Hsl1, length_insert. cbn. by rewrite length_insert.
    + by rewrite Hr1.
    + unfold MAX_SEGMENT_ITEMS. by rewrite Hm1.
    + rewrite Ho1. by destruct full.
    + eexists. split; [rewrite Hsl1; apply list_lookup_insert_eq; cbn; by rewrite length_insert|]. cbn.
      split; [by destruct full|]. destruct full; [done|congruence].
Qed.

Lemma deq_request k tid info : seg_ok k -> op k = DEQ -> head_index k < tail_index k -> quiet k ->
  (tid < length (slots k))%nat -> running k = true ->
  exists k' x, (forall ts w, kernel_iter (place_request k tid (mkSlot (SET_REQUEST info) ts w)) = Ok (k' ts w, [])) /\
    forall ts w, let empty := bool_decide (head_index k + 1 = tail_index k) in
      contents k = x :: contents (k' ts w) /\ seg_ok (k' ts w) /\ quiet (k' ts w) /\
      length (slots (k' ts w)) = length (slots k) /\ MAX_SEGMENT_ITEMS (k' ts w) = MAX_SEGMENT_ITEMS k /\ running (k' ts w) = true /\
      head_index (k' ts w) = (if empty then 0 else head_index k + 1) /\
      tail_index (k' ts w) = (if empty then 0 else tail_index k) /\ op (k' ts w) = (if empty then OFF else DEQ) /\
      exists s, slots (k' ts w) !! tid = Some s /\ CHECK_VALID_REQUEST (info_bits s) = 0 /\ parameter s = x /\
        CHECK_VALID_PIM (info_bits s) = if empty then 0 else 2.
Proof.
  intros Hok Ho Ht Hq Hlt Hrun. pose (st ts w := place_request k tid (mkSlot (SET_REQUEST info) ts w)).
  exists (fun ts w => result_of deq_one (st ts w) tid), (item k (head_index k)).
  assert (Honly : forall ts w, only (st ts w) tid (mkSlot (SET_REQUEST info) ts w)).
  { intros ts w. apply place_only; [done|done|]. apply bits_set. }
  assert (Hok' : forall ts w, seg_ok (st ts w)) by (intros ts w; by destruct Hok).
  split; intros ts w.
  - fold (st ts w). rewrite (deq_iter (st ts w) (Hok' ts w) Ho Ht). rewrite (serves_only _ _ _ _ (Honly ts w)); [done|].
    unfold deq_room. cbn. lia.
  - destruct (deq_one_spec (st ts w) tid (mkSlot (SET_REQUEST info) ts w) (Hok' ts w) Ht)
      as (st1 & x & H1 & Hc1 & Hok1 & (Hm1 & Hs1 & Hr1) & Ho1 & Hh1 & Ht1 & Hsl1).
    change (tail_index (st ts w)) with (tail_index k) in *. change (head_index (st ts w)) with (head_index k) in *.
    change (contents (st ts w)) with (contents k) in Hc1.
    set (empty := bool_decide _) in *. intros empty'. change empty' with empty.
    rewrite (slots_result deq_one (st ts w) tid _ st1 _ (proj1 (Honly ts w)) H1).
    assert (Hx : item k (head_index k) = x).
    { unfold contents in Hc1. rewrite seqZ_cons in Hc1 by lia. cbn in Hc1. congruence. }
    rewrite Hx. destruct (bits_cleared (SET_REQUEST info)) as (B1 & B2 & B3 & B4). destruct (bits_set info) as [_ B5].
    split_and!; try done.
    + eapply quiet_answered; [exact (Honly ts w)|exact Hsl1|]. cbn. by destruct empty.
    + rewrite Hsl1, length_insert. cbn. by rewrite length_insert.
    + unfold MAX_SEGMENT_ITEMS. by rewrite Hm1.
    + by rewrite Hr1.
    + rewrite Ho1. by destruct empty.
    + eexists. split; [rewrite Hsl1; apply list_lookup_insert_eq; cbn; by rewrite length_insert|]. cbn.
      split; [by destruct empty|]. split; [done|]. destruct empty; [done|congruence].
Qed.

(** ** The ring of devices *)

(** The place of the [k]-th device from [d] on, and what it holds. *)
Definition idx (N d k : nat) : nat := ((d + k) mod N)%nat.
Definition dev (st : pq) (k : nat) : option kq := parts st !! idx (length (parts st)) (deq_part st) k.

(** A device between two operations: [T] slots and segments of [n] elements. *)
Definition part_ok (T : nat) (n : Z) (x : kq) : Prop :=
  seg_ok x /\ quiet x /\ MAX_SEGMENT_ITEMS x = n /\ length (slots x) = T.

(** What the device [k] of [0 .. N-1] from the dequeuing one on does; the enqueuing one is [m]. *)
Definition role_ok (n : Z) (m k : nat) (x : kq) : Prop :=
  if bool_decide (k = 0%nat) then op x = DEQ /\ running x = true /\ head_index x < n /\ tail_index x = n
  else if bool_decide (k = m) then op x = ENQ /\ running x = true /\ head_index x = 0 /\ tail_index x < n
  else op x = OFF /\ running x = false /\ head_index x = 0 /\
       tail_index x = if bool_decide (k < m)%nat then n else 0.

Record ring (T : nat) (n : Z) (m : nat) (st : pq) : Prop := {
  rg_m : (1 <= m < length (parts st))%nat;
  rg_deq : (deq_part st < length (parts st))%nat;
  rg_enq : enq_part st = idx (length (parts st)) (deq_part st) m;
  rg_dev k : (k < length (parts st))%nat -> exists x, dev st k = Some x /\ part_ok T n x /\ role_ok n m k x;
}.

Definition chunk (st : pq) (k : nat) : list Z := from_option contents [] (dev st k).
(** The queue: the segments from the dequeuing to the enqueuing device. *)
Definition queue (m : nat) (st : pq) : list Z := seq 0 (S m) ≫= chunk st.

Lemma idx_small N d k : (d < N)%nat -> (k < N)%nat -> idx N d k = if (d + k <? N)%nat then (d + k)%nat else (d + k - N)%nat.
Proof.
  intros Hd Hk. unfold idx. destruct (Nat.ltb_spec (d + k) N) as [E|E]; [by apply Nat.mod_small|].
  replace (d + k)%nat with ((d + k - N) + 1 * N)%nat at 1 by lia. rewrite Nat.Div0.mod_add. apply Nat.mod_small. lia.
Qed.

Lemma idx_lt N d k : (d < N)%nat -> (k < N)%nat -> (idx N d k < N)%nat.
Proof. intros Hd Hk. rewrite idx_small by done. destruct (Nat.ltb_spec (d + k) N); lia. Qed.

Lemma idx_inj N d i j : (d < N)%nat -> (i < N)%nat -> (j < N)%nat -> idx N d i = idx N d j -> i = j.
Proof.
  intros Hd Hi Hj. rewrite !idx_small by done. destruct (Nat.ltb_spec (d + i) N), (Nat.ltb_spec (d + j) N); lia.
Qed.

Lemma idx_0 N d : (d < N)%nat -> idx N d 0 = d.
Proof. intros Hd. rewrite idx_small by lia. destruct (Nat.ltb_spec (d + 0) N); lia. Qed.

Lemma idx_S N d k : (d < N)%nat -> ((idx N d k + 1) mod N)%nat = idx N d (S k).
Proof. intros Hd. unfold idx. rewrite Nat.Div0.add_mod_idemp_l. f_equal. lia. Qed.

Lemma idx_shift N d k : idx N (idx N d 1) k = idx N d (S k).
Proof. unfold idx. rewrite Nat.Div0.add_mod_idemp_l. f_equal. lia. Qed.

Lemma dev_set st j k x : (deq_part st < length (parts st))%nat -> (j < length (parts st))%nat -> (k < length (parts st))%nat ->
  dev (set_part st (idx (length (parts st)) (deq_part st) j) x) k = if decide (k = j) then Some x else dev st k.
Proof.
  intros Hd Hj Hk. unfold dev, set_part. cbn [parts deq_part]. rewrite length_insert. case_decide as E.
  - subst. apply list_lookup_insert_eq. by apply idx_lt.
  - apply list_lookup_insert_ne. intros Ei. apply E. symmetry. exact (idx_inj _ _ _ _ Hd Hj Hk Ei).
Qed.

Lemma bind_ext (f g : nat -> list Z) (l : list nat) : (forall k, k ∈ l -> f k = g k) -> l ≫= f = l ≫= g.
Proof.
  induction l as [|x l IH]; intros H; [done|]. cbn. rewrite H by left. f_equal. apply IH. intros k Hk. apply H. by right.
Qed.

Lemma bind_seq_S (f : nat -> list Z) i n : seq (S i) n ≫= f = seq i n ≫= (fun k => f (S k)).
Proof. revert i. induction n as [|n IH]; intros i; [done|]. cbn. f_equal. apply IH. Qed.

Lemma set_part_twice st c x y : set_part (set_part st c x) c y = set_part st c y.
Proof. unfold set_part. cbn. by rewrite list_insert_insert_eq. Qed.

(** ** A turn of the host *)

Lemma write_request st c tid k s info : parts st !! c = Some k -> slots k !! tid = Some s ->
  write_info_bits st c tid (SET_REQUEST info) =
    Ok (set_part st c (place_request k tid (mkSlot (SET_REQUEST info) (timestamp s) (parameter s)))) /\
  forall v, (st1 ← write_parameter st c tid v; write_info_bits st1 c tid (SET_REQUEST info)) =
    Ok (set_part st c (place_request k tid (mkSlot (SET_REQUEST info) (timestamp s) v))).
Proof.
  intros Hk Hs. split; [unfold write_info_bits, write_slot; by rewrite Hk; cbn; rewrite Hs|]. intros v.
  unfold write_parameter, write_info_bits, write_slot. rewrite Hk. cbn [of_opt mbind result_bind]. rewrite Hs.
  cbn [of_opt mbind result_bind]. cbn [parts set_part]. rewrite list_lookup_insert_eq by (by eapply lookup_lt_Some).
  cbn [of_opt mbind result_bind slots set_slots]. rewrite list_lookup_insert_eq by (by eapply lookup_lt_Some).
  cbn [of_opt mbind result_bind]. unfold place_request, set_slots. cbn. f_equal.
  unfold set_part. cbn. by rewrite !list_insert_insert_eq.
Qed.

Lemma poll_one f now st c tid k s k' s' : parts st !! c = Some k -> running k = true -> (tid < length (slots k))%nat ->
  (forall x, now (set_part st c x) = c) -> CHECK_VALID_REQUEST (info_bits s) = 1 -> CHECK_VALID_PIM (info_bits s) = 2 ->
  kernel_iter (place_request k tid s) = Ok (k', []) -> slots k' !! tid = Some s' ->
  CHECK_VALID_REQUEST (info_bits s') = 0 ->
  poll (S (S f)) now c tid (set_part st c (place_request k tid s)) = Ok (set_part st c k', info_bits s') /\
  settle now c tid (set_part st c k') (info_bits s') = Ok (set_part st c k', info_bits s', true).
Proof.
  intros Hk Hrun Ht Hnow Hv Hp Hit Hs' Hv'. pose proof (lookup_lt_Some _ _ _ Hk) as Hc. split.
  - cbn [poll]. unfold read_info_bits, read_slot. cbn [parts set_part].
    rewrite list_lookup_insert_eq by done. cbn [of_opt mbind result_bind place_request slots set_slots].
    rewrite list_lookup_insert_eq by done. cbn [of_opt mbind result_bind]. rewrite Hv, Hp, Hnow.
    rewrite (bool_decide_eq_true_2 (c = c)) by done. cbn [Z.mul Z.eqb negb andb Pos.mul].
    unfold run_kernel. cbn [parts set_part]. rewrite list_lookup_insert_eq by done. cbn [of_opt mbind result_bind].
    change (running (place_request k tid s)) with (running k). rewrite Hrun, Hit. cbn [mbind result_bind].
    rewrite set_part_twice. cbn [parts set_part]. rewrite list_lookup_insert_eq by done. cbn [of_opt mbind result_bind].
    rewrite Hs'. cbn [of_opt mbind result_bind]. by rewrite Hv'.
  - unfold settle. rewrite Hnow, (bool_decide_eq_true_2 (c = c)) by done. cbn [mbind result_bind]. by rewrite Hv'.
Qed.

(** Handing over from device [c] to [c']. *)
Lemma hand_over st c c' k' y o : c <> c' -> (c < length (parts st))%nat -> parts st !! c' = Some y ->
  running y = false -> op k' = OFF -> running k' = true ->
  forall e d, (st5 ← start_part (mkPQ (parts (set_part st c k')) e d) c' o; close_part st5 c) =
    Ok (mkPQ (<[c := set_running k' false]> (<[c' := set_running (set_op y o) true]> (parts st))) e d).
Proof.
  intros Hne Hc Hy Hry Ho Hr e d. unfold start_part. cbn [parts set_part].
  rewrite list_lookup_insert_ne by done. rewrite Hy. cbn [of_opt mbind result_bind]. rewrite Hry.
  cbn [mbind result_bind]. unfold close_part, run_kernel, set_part. cbn [parts].
  rewrite list_lookup_insert_ne by congruence. rewrite list_lookup_insert_eq by done. cbn [of_opt mbind result_bind].
  rewrite Hr. unfold kernel_iter. rewrite Ho. cbn [Z.eqb OFF INIT ENQ DEQ PRINT]. cbn [mbind result_bind].
  cbn [parts set_part]. rewrite list_lookup_insert_eq by (rewrite !length_insert; done). cbn [of_opt mbind result_bind running set_running].
  f_equal. cbn. f_equal. rewrite !(list_insert_insert_ne _ c c') by done. by rewrite list_insert_insert_eq.
Qed.

Lemma queue_last m st : queue m st = (seq 0 m ≫= chunk st) ++ chunk st m.
Proof. unfold queue. rewrite seq_S, bind_app. cbn. by rewrite app_nil_r. Qed.

Lemma chunk_ext st st' k : dev st' k = dev st k -> chunk st' k = chunk st k.
Proof. unfold chunk. by intros ->. Qed.

(** One device changes. *)
Lemma ring_set T n m st j x : ring T n m st -> (j < length (parts st))%nat -> part_ok T n x -> role_ok n m j x ->
  ring T n m (set_part st (idx (length (parts st)) (deq_part st) j) x).
Proof.
  intros [Hm Hd He Hdev] Hj Hx Hr. assert (Hlen : length (parts (set_part st (idx (length (parts st)) (deq_part st) j) x)) = length (parts st))
    by (cbn; apply length_insert).
  split; rewrite Hlen; try done. intros i Hi. rewrite dev_set by done. case_decide as E; [subst; eauto|by apply Hdev].
Qed.

(** The enqueues move on to the next device. *)
Lemma ring_grow T n m st k y : ring T n m st -> (S m < length (parts st))%nat ->
  part_ok T n k -> role_ok n (S m) m k -> part_ok T n y -> role_ok n (S m) (S m) y ->
  let c' := idx (length (parts st)) (deq_part st) (S m) in
  let st' := mkPQ (<[enq_part st := k]> (<[c' := y]> (parts st))) c' (deq_part st) in
  ring T n (S m) st' /\ queue (S m) st' = (seq 0 m ≫= chunk st) ++ contents k ++ contents y.
Proof.
  intros [Hm Hd He Hdev] HSm Hk Hrk Hy Hry c' st'. set (N := length (parts st)) in *.
  assert (Hlen : length (parts st') = N) by (unfold st'; cbn; by rewrite !length_insert).
  assert (Hdv : forall j, (j < N)%nat ->
            dev st' j = if decide (j = m) then Some k else if decide (j = S m) then Some y else dev st j).
  { intros j Hj. unfold dev. rewrite Hlen. unfold st'. cbn [parts deq_part]. rewrite He.
    case_decide as E1; [subst; apply list_lookup_insert_eq; rewrite length_insert; by apply idx_lt; lia|].
    rewrite list_lookup_insert_ne by (intros E; apply idx_inj in E; lia).
    case_decide as E2; [subst; by apply list_lookup_insert_eq, idx_lt|].
    apply list_lookup_insert_ne. unfold c'. intros E. apply idx_inj in E; lia. }
  split.
  - split; rewrite Hlen; [lia|done|reflexivity|]. intros j Hj. rewrite Hdv by done.
    destruct (decide (j = m)) as [->|E1]; [eauto|]. destruct (decide (j = S m)) as [->|E2]; [eauto|].
    destruct (Hdev j Hj) as (x & Hx & Hx1 & Hx2). exists x. split; [done|]. split; [done|]. unfold role_ok in *.
    destruct (bool_decide (j = 0%nat)); [done|]. rewrite (bool_decide_eq_false_2 (j = m)) in Hx2 by done.
    rewrite (bool_decide_eq_false_2 (j = S m)) by done. by rewrite (bool_decide_ext (j < S m)%nat (j < m)%nat) by lia.
  - rewrite (queue_last (S m)), seq_S, bind_app. change (0 + m)%nat with m. cbn [mbind list_bind]. rewrite app_nil_r, <- app_assoc.
    f_equal; [|f_equal].
    + apply bind_ext. intros j Hj. apply elem_of_seq in Hj. apply chunk_ext. rewrite Hdv, !decide_False by lia. done.
    + unfold chunk. by rewrite Hdv, decide_True by lia.
    + unfold chunk. by rewrite Hdv, decide_False, decide_True by lia.
Qed.

(** The dequeues move on to the next device. *)
Lemma ring_shrink T n m st k y : ring T n (S m) st -> (1 <= m)%nat ->
  part_ok T n k -> op k = OFF -> running k = false -> head_index k = 0 -> tail_index k = 0 ->
  part_ok T n y -> role_ok n m 0 y ->
  let c' := idx (length (parts st)) (deq_part st) 1 in
  let st' := mkPQ (<[deq_part st := k]> (<[c' := y]> (parts st))) (enq_part st) c' in
  ring T n m st' /\ queue m st' = contents y ++ (seq 2 m ≫= chunk st).
Proof.
  intros [Hm Hd He Hdev] Hm1 Hk1 Hk3 Hk4 Hk5 Hk6 Hy Hry c' st'. set (N := length (parts st)) in *.
  assert (Hlen : length (parts st') = N) by (unfold st'; cbn; by rewrite !length_insert).
  assert (Hd0 : idx N (deq_part st) 0 = deq_part st) by (by apply idx_0).
  assert (Hdv : forall j, (j < N)%nat ->
            dev st' j = if decide (S j = N) then Some k else if decide (j = 0%nat) then Some y else dev st (S j)).
  { intros j Hj. unfold dev. rewrite Hlen. unfold st'. cbn [parts deq_part]. unfold c'. rewrite idx_shift.
    assert (HN : idx N (deq_part st) N = deq_part st).
    { unfold idx. rewrite <- (Nat.mul_1_l N) at 1. rewrite Nat.Div0.mod_add. by apply Nat.mod_small. }
    case_decide as E1; [rewrite E1, HN; apply list_lookup_insert_eq; by rewrite length_insert|].
    rewrite list_lookup_insert_ne by (rewrite <- Hd0 at 1; intros E; apply idx_inj in E; lia).
    case_decide as E2; [subst; apply list_lookup_insert_eq, idx_lt; lia|].
    apply list_lookup_insert_ne. intros E. apply idx_inj in E; lia. }
  split.
  - split; rewrite Hlen; [lia|by apply idx_lt; lia|unfold st'; cbn [enq_part deq_part]; unfold c'; by rewrite idx_shift|].
    intros j Hj. rewrite Hdv by done. destruct (decide (S j = N)) as [E1|E1].
    { exists k. split; [done|]. split; [done|]. unfold role_ok. rewrite !bool_decide_eq_false_2 by lia. done. }
    destruct (decide (j = 0%nat)) as [->|E2]; [eauto|].
    destruct (Hdev (S j)) as (x & Hx & Hx1 & Hx2); [lia|]. exists x. split; [done|]. split; [done|]. unfold role_ok in *.
    rewrite (bool_decide_eq_false_2 (S j = 0%nat)) in Hx2 by done. rewrite (bool_decide_eq_false_2 (j = 0%nat)) by done.
    rewrite (bool_decide_ext (j = m) (S j = S m)), (bool_decide_ext (j < m)%nat (S j < S m)%nat) by lia. done.
  - unfold queue. cbn [seq]. rewrite bind_cons. f_equal.
    + unfold chunk. rewrite Hdv, decide_False, decide_True by lia. done.
    + rewrite (bind_seq_S (chunk st) 1). apply bind_ext. intros j Hj. apply elem_of_seq in Hj. unfold chunk.
      rewrite Hdv, !decide_False by lia. done.
Qed.

(** ** An operation *)

Lemma queue_first m st : queue m st = chunk st 0 ++ (seq 1 m ≫= chunk st).
Proof. unfold queue. cbn [seq]. by rewrite bind_cons. Qed.

(** The last, or the first device of the queue changes. *)
Lemma queue_set_last m st x : (deq_part st < length (parts st))%nat -> (m < length (parts st))%nat ->
  queue m (set_part st (idx (length (parts st)) (deq_part st) m) x) = (seq 0 m ≫= chunk st) ++ contents x.
Proof.
  intros Hd Hm. rewrite queue_last. f_equal; [|unfold chunk; by rewrite dev_set, decide_True by lia].
  apply bind_ext. intros j Hj. apply elem_of_seq in Hj. apply chunk_ext. rewrite dev_set, decide_False by lia. done.
Qed.

Lemma queue_set_first m st x : (deq_part st < length (parts st))%nat -> (m < length (parts st))%nat ->
  queue m (set_part st (deq_part st) x) = contents x ++ (seq 1 m ≫= chunk st).
Proof.
  intros Hd Hm. rewrite <- (idx_0 (length (parts st)) (deq_part st) Hd) at 1. rewrite queue_first.
  f_equal; [unfold chunk; by rewrite dev_set, decide_True by lia|].
  apply bind_ext. intros j Hj. apply elem_of_seq in Hj. apply chunk_ext. rewrite dev_set, decide_False by lia. done.
Qed.

(** The request of a host thread that a device in the role of [o] serves. *)
Lemma enq_exchange T n st c f k tid v info now : part_ok T n k -> op k = ENQ -> running k = true -> tail_index k < n ->
  (tid < T)%nat -> parts st !! c = Some k -> (forall x, now (set_part st c x) = c) ->
  exists k' i, (st1 ← write_parameter st c tid v; st2 ← write_info_bits st1 c tid (SET_REQUEST info); poll (S (S f)) now c tid st2)
      = Ok (set_part st c k', i) /\
    settle now c tid (set_part st c k') i = Ok (set_part st c k', i, true) /\ CHECK_VALID_REQUEST i = 0 /\
    CHECK_VALID_PIM i = (if bool_decide (tail_index k + 1 = n) then 0 else 2) /\
    part_ok T n k' /\ running k' = true /\ op k' = (if bool_decide (tail_index k + 1 = n) then OFF else ENQ) /\
    head_index k' = head_index k /\ tail_index k' = tail_index k + 1 /\ contents k' = contents k ++ [v].
Proof.
  intros (Hok & Hq & Hn & Hlen) Hop Hrun Htl Ht Hc Hnow. destruct (lookup_lt_is_Some_2 (slots k) tid) as [s Hs]; [lia|].
  destruct (enq_request k tid v info Hok Hop ltac:(lia) Hq ltac:(lia) Hrun) as (kf & Hit & Hfacts).
  specialize (Hit (timestamp s)). specialize (Hfacts (timestamp s)). cbv zeta in Hfacts. set (k' := kf (timestamp s)) in *.
  destruct Hfacts as (Hct & Hok' & Hq' & Hln' & Hrun' & Hmx' & Htl' & Hhd' & Hop' & s' & Hs' & Hv' & Hp').
  destruct (bits_set info) as [Bs Bp].
  destruct (poll_one f now st c tid k (mkSlot (SET_REQUEST info) (timestamp s) v) k' s' Hc Hrun
              ltac:(lia) Hnow Bs Bp Hit Hs' Hv') as [Hpoll Hset].
  exists k', (info_bits s'). rewrite Hn in *. split.
  { pose proof (proj2 (write_request st c tid k s info Hc Hs) v) as Hw.
    apply bind_Ok in Hw as (stw & -> & Hw2). cbn [mbind result_bind]. rewrite Hw2. exact Hpoll. }
  split_and!; try done; by split_and!; [| | |lia].
Qed.

Lemma deq_exchange T n st c f k tid info now : part_ok T n k -> op k = DEQ -> running k = true ->
  head_index k < n -> tail_index k = n -> (tid < T)%nat -> parts st !! c = Some k -> (forall x, now (set_part st c x) = c) ->
  exists k' i x s', (st2 ← write_info_bits st c tid (SET_REQUEST info); poll (S (S f)) now c tid st2) = Ok (set_part st c k', i) /\
    settle now c tid (set_part st c k') i = Ok (set_part st c k', i, true) /\
    read_slot (set_part st c k') c tid = Ok s' /\ parameter s' = x /\
    CHECK_VALID_PIM i = (if bool_decide (head_index k + 1 = n) then 0 else 2) /\
    part_ok T n k' /\ running k' = true /\ op k' = (if bool_decide (head_index k + 1 = n) then OFF else DEQ) /\
    head_index k' = (if bool_decide (head_index k + 1 = n) then 0 else head_index k + 1) /\
    tail_index k' = (if bool_decide (head_index k + 1 = n) then 0 else n) /\ contents k = x :: contents k'.
Proof.
  intros (Hok & Hq & Hn & Hlen) Hop Hrun Hhd Htl Ht Hc Hnow. destruct (lookup_lt_is_Some_2 (slots k) tid) as [s Hs]; [lia|].
  destruct (deq_request k tid info Hok Hop ltac:(lia) Hq ltac:(lia) Hrun) as (kf & x & Hit & Hfacts).
  specialize (Hit (timestamp s) (parameter s)). specialize (Hfacts (timestamp s) (parameter s)). cbv zeta in Hfacts.
  set (k' := kf (timestamp s) (parameter s)) in *.
  destruct Hfacts as (Hct & Hok' & Hq' & Hln' & Hmx' & Hrun' & Hhd' & Htl' & Hop' & s' & Hs' & Hv' & Hpr & Hp').
  destruct (bits_set info) as [Bs Bp].
  destruct (poll_one f now st c tid k (mkSlot (SET_REQUEST info) (timestamp s) (parameter s)) k' s' Hc Hrun
              ltac:(lia) Hnow Bs Bp Hit Hs' Hv') as [Hpoll Hset].
  exists k', (info_bits s'), x, s'. rewrite Htl, Hn in *. split_and!; try done; [| |by split_and!; [| | |lia]].
  - rewrite (proj1 (write_request st c tid k s info Hc Hs)). exact Hpoll.
  - unfold read_slot. cbn [parts set_part]. rewrite list_lookup_insert_eq by (by eapply lookup_lt_Some). cbn. by rewrite Hs'.
Qed.

Lemma enq_ring T n m st f tid v info k : ring T n m st -> (tid < T)%nat -> dev st m = Some k ->
  tail_index k + 1 < n \/ (S m < length (parts st))%nat ->
  exists st' i m', enq_turn (S (S f)) tid v info st = Ok (st', i, true) /\ ring T n m' st' /\
    length (parts st') = length (parts st) /\ queue m' st' = queue m st ++ [v].
Proof.
  intros Hring Ht Hk Hroom. pose proof Hring as [Hm Hd He Hdev].
  destruct (Hdev m) as (k0 & Hk0 & Hok & Hrole); [lia|]. rewrite Hk in Hk0. injection Hk0 as <-. unfold role_ok in Hrole.
  rewrite bool_decide_eq_false_2, bool_decide_eq_true_2 in Hrole by lia. destruct Hrole as (Hop & Hrun & Hhd & Htl).
  assert (Hc : parts st !! enq_part st = Some k) by (rewrite He; exact Hk).
  destruct (enq_exchange T n st (enq_part st) f k tid v info enq_part Hok Hop Hrun Htl Ht Hc ltac:(done))
    as (k' & i & Hex & Hset & _ & Hp' & Hok' & Hrun' & Hop' & Hhd' & Htl' & Hct).
  apply bind_Ok in Hex as (st1 & W1 & Hex). apply bind_Ok in Hex as (st2 & W2 & W3).
  unfold enq_turn. cbv zeta. rewrite W1. cbn [mbind result_bind]. rewrite W2. cbn [mbind result_bind].
  rewrite W3. cbn [mbind result_bind]. rewrite Hset. cbn [mbind result_bind]. rewrite Hp'.
  assert (Hch : (seq 0 m ≫= chunk st) ++ contents k' = queue m st ++ [v]).
  { rewrite Hct, app_assoc, queue_last. do 2 f_equal. unfold chunk. by rewrite Hk. }
  destruct (bool_decide_reflect (tail_index k + 1 = n)) as [Hfull|Hnf].
  - assert (HSm : (S m < length (parts st))%nat) by (destruct Hroom; [lia|done]).
    destruct (Hdev (S m) HSm) as (y & Hy & Hoky & Hry). unfold role_ok in Hry.
    rewrite !bool_decide_eq_false_2 in Hry by lia. destruct Hry as (Hopy & Hruny & Hzy1 & Hzy2).
    change (0 =? 0) with true. cbv iota.
    assert (GET_NEXT_PARTITION (set_part st (enq_part st) k') (enq_part st) = idx (length (parts st)) (deq_part st) (S m)) as ->.
    { unfold GET_NEXT_PARTITION. cbn [parts set_part]. rewrite length_insert, He. by apply idx_S. }
    pose proof (hand_over st (enq_part st) (idx (length (parts st)) (deq_part st) (S m)) k' y ENQ
      ltac:(rewrite He; intros E; apply idx_inj in E; lia) ltac:(rewrite He; apply idx_lt; lia) Hy Hruny Hop' Hrun'
      (idx (length (parts st)) (deq_part st) (S m)) (deq_part st)) as Hh.
    apply bind_Ok in Hh as (st5 & Hh1 & Hh2). change (deq_part (set_part st (enq_part st) k')) with (deq_part st).
    rewrite Hh1. cbn [mbind result_bind]. rewrite Hh2. cbn [mbind result_bind].
    destruct (ring_grow T n m st (set_running k' false) (set_running (set_op y ENQ) true) Hring HSm) as [Hr Hqu].
    + destruct Hok' as ([] & ? & ? & ?). by split_and!.
    + unfold role_ok. rewrite bool_decide_eq_false_2, bool_decide_eq_false_2, bool_decide_eq_true_2 by lia. cbn. split_and!; try done; lia.
    + destruct Hoky as ([] & ? & ? & ?). by split_and!.
    + unfold role_ok. rewrite bool_decide_eq_false_2, bool_decide_eq_true_2 by lia. destruct Hok as ([] & _ & ? & _). cbn. split_and!; try done; lia.
    + eexists _, _, (S m). split; [reflexivity|]. split; [exact Hr|]. split; [cbn; by rewrite !length_insert|]. rewrite Hqu.
      assert (contents (set_running (set_op y ENQ) true) = []) as -> by (unfold contents; cbn; by rewrite Hzy1, Hzy2).
      rewrite app_nil_r. exact Hch.
  - change (2 =? 0) with false. cbv iota. eexists _, _, m. split; [reflexivity|]. split; [|split; [cbn; by rewrite length_insert|]]; rewrite He.
    + apply ring_set; [done|lia|done|]. unfold role_ok. rewrite bool_decide_eq_false_2, bool_decide_eq_true_2 by lia. split_and!; try done; lia.
    + rewrite <- Hch. apply queue_set_last; lia.
Qed.

Lemma deq_ring T n m st f tid info k : ring T n m st -> (tid < T)%nat -> dev st 0 = Some k ->
  head_index k + 1 < n \/ (2 <= m)%nat ->
  exists st' i x m', deq_turn (S (S f)) tid info st = Ok (st', i, Some x) /\ ring T n m' st' /\
    length (parts st') = length (parts st) /\ queue m st = x :: queue m' st'.
Proof.
  intros Hring Ht Hk Hroom. pose proof Hring as [Hm Hd He Hdev].
  destruct (Hdev 0%nat) as (k0 & Hk0 & Hok & Hrole); [lia|]. rewrite Hk in Hk0. injection Hk0 as <-. unfold role_ok in Hrole.
  rewrite bool_decide_eq_true_2 in Hrole by done. destruct Hrole as (Hop & Hrun & Hhd & Htl).
  assert (Hd0 : idx (length (parts st)) (deq_part st) 0 = deq_part st) by (by apply idx_0).
  assert (Hc : parts st !! deq_part st = Some k) by (rewrite <- Hd0; exact Hk).
  destruct (deq_exchange T n st (deq_part st) f k tid info deq_part Hok Hop Hrun Hhd Htl Ht Hc ltac:(done))
    as (k' & i & x & s' & Hex & Hset & Hrd & Hpr & Hp' & Hok' & Hrun' & Hop' & Hhd' & Htl' & Hct).
  apply bind_Ok in Hex as (st2 & W2 & W3). unfold deq_turn. cbv zeta. rewrite W2. cbn [mbind result_bind].
  rewrite W3. cbn [mbind result_bind]. rewrite Hset. cbn [mbind result_bind]. rewrite Hrd. cbn [mbind result_bind]. rewrite Hp', Hpr.
  assert (Hch : queue m st = x :: contents k' ++ (seq 1 m ≫= chunk st)).
  { rewrite queue_first. unfold chunk at 1. rewrite Hk. cbn. by rewrite Hct. }
  destruct (bool_decide_reflect (head_index k + 1 = n)) as [Hemp|Hne].
  - destruct m as [|m]; [lia|]. assert (Hm1 : (1 <= m)%nat) by (destruct Hroom; lia).
    destruct (Hdev 1%nat) as (y & Hy & Hoky & Hry); [lia|]. unfold role_ok in Hry.
    rewrite !(bool_decide_eq_false_2 (1%nat = _)), bool_decide_eq_true_2 in Hry by lia. destruct Hry as (Hopy & Hruny & Hzy & Hty).
    change (0 =? 0) with true. cbv iota.
    assert (GET_NEXT_PARTITION (set_part st (deq_part st) k') (deq_part st) = idx (length (parts st)) (deq_part st) 1) as ->.
    { unfold GET_NEXT_PARTITION. cbn [parts set_part]. by rewrite length_insert. }
    pose proof (hand_over st (deq_part st) (idx (length (parts st)) (deq_part st) 1) k' y DEQ
      ltac:(rewrite <- Hd0 at 1; intros E; apply idx_inj in E; lia) Hd Hy Hruny Hop' Hrun'
      (enq_part st) (idx (length (parts st)) (deq_part st) 1)) as Hh.
    apply bind_Ok in Hh as (st5 & Hh1 & Hh2). change (enq_part (set_part st (deq_part st) k')) with (enq_part st).
    rewrite Hh1. cbn [mbind result_bind]. rewrite Hh2. cbn [mbind result_bind].
    destruct (ring_shrink T n m st (set_running k' false) (set_running (set_op y DEQ) true) Hring Hm1) as [Hr Hqu]; try done.
    + destruct Hok' as ([] & ? & ? & ?). by split_and!.
    + destruct Hoky as ([] & ? & ? & ?). by split_and!.
    + unfold role_ok. rewrite bool_decide_eq_true_2 by done. destruct Hok as ([] & _ & ? & _). cbn. split_and!; try done; lia.
    + eexists _, _, x, m. split; [reflexivity|]. split; [exact Hr|]. split; [cbn; by rewrite !length_insert|]. rewrite Hqu, Hch. f_equal.
      assert (contents k' = []) as -> by (unfold contents; by rewrite Hhd', Htl').
      cbn [app seq]. rewrite bind_cons. f_equal. unfold chunk. rewrite Hy. done.
  - change (2 =? 0) with false. cbv iota. eexists _, _, x, m. split; [reflexivity|]. split; [|split; [cbn; by rewrite length_insert|]].
    + rewrite <- Hd0 at 1. apply ring_set; [done|lia|done|]. unfold role_ok. rewrite bool_decide_eq_true_2 by done. split_and!; try done; lia.
    + rewrite Hch. f_equal. rewrite queue_set_first by lia. done.
Qed.

(** The length of the queue, from the segments in the middle, which are full. *)
Lemma ring_length T n m st k0 km : ring T n m st -> dev st 0 = Some k0 -> dev st m = Some km ->
  Z.of_nat (length (queue m st)) = (n - head_index k0) + n * Z.of_nat (m - 1) + tail_index km.
Proof.
  intros [Hm Hd He Hdev] H0 H1. rewrite queue_first. destruct m as [|m]; [lia|].
  rewrite seq_S, bind_app. cbn [mbind list_bind]. rewrite app_nil_r, !length_app, !Nat2Z.inj_add.
  assert (Hlen : forall k x, dev st k = Some x -> length (chunk st k) = Z.to_nat (tail_index x - head_index x)).
  { intros k x Hx. unfold chunk. rewrite Hx. cbn. apply length_contents. }
  destruct (Hdev 0%nat) as (x0 & Hx0 & _ & Hr0); [lia|]. rewrite H0 in Hx0. injection Hx0 as <-.
  destruct (Hdev (S m)) as (xm & Hxm & ([] & _) & Hrm); [lia|]. rewrite H1 in Hxm. injection Hxm as <-. unfold role_ok in Hr0, Hrm.
  rewrite bool_decide_eq_true_2 in Hr0 by done. destruct Hr0 as (_ & _ & Hh0 & Ht0).
  rewrite bool_decide_eq_false_2, bool_decide_eq_true_2 in Hrm by lia. destruct Hrm as (_ & _ & Hhm & Htm).
  rewrite (Hlen 0%nat k0 H0). change (1 + m)%nat with (S m). rewrite (Hlen (S m) km H1).
  assert (Hmid : forall j, (j <= m)%nat -> Z.of_nat (length (seq 1 j ≫= chunk st)) = n * Z.of_nat j).
  { intros j. induction j as [|j IH]; intros Hj; [cbn; lia|]. rewrite seq_S, bind_app. cbn [mbind list_bind].
    rewrite app_nil_r, length_app, Nat2Z.inj_add, IH by lia. change (1 + j)%nat with (S j).
    destruct (Hdev (S j)) as (x & Hx & ([] & _ & ? & _) & Hr); [lia|]. unfold role_ok in Hr.
    rewrite !(bool_decide_eq_false_2 (S j = _)), bool_decide_eq_true_2 in Hr by lia. destruct Hr as (_ & _ & Hh & Ht).
    rewrite (Hlen _ _ Hx). lia. }
  rewrite Hmid by lia. replace (S m - 1)%nat with m by lia. lia.
Qed.

(** There is room for an enqueue, or there are elements enough for a dequeue. *)
Lemma ring_enq_room T n m st : ring T n m st -> Z.of_nat (length (queue m st)) < n * (Z.of_nat (length (parts st)) - 1) ->
  exists k, dev st m = Some k /\ (tail_index k + 1 < n \/ (S m < length (parts st))%nat).
Proof.
  intros Hr Hl. pose proof Hr as [Hm Hd He Hdev]. destruct (Hdev 0%nat) as (k0 & H0 & Hk0 & Hr0); [lia|].
  destruct (Hdev m) as (km & H1 & ([] & _ & Hn & _) & Hrm); [lia|]. exists km. split; [done|].
  rewrite (ring_length T n m st k0 km Hr H0 H1) in Hl. unfold role_ok in Hr0. rewrite bool_decide_eq_true_2 in Hr0 by done.
  destruct (decide (S m < length (parts st))%nat); [by right|left]. assert (length (parts st) = S m) as E by lia.
  rewrite E in Hl. replace (Z.of_nat (m - 1)) with (Z.of_nat (S m) - 2) in Hl by lia. nia.
Qed.

Lemma ring_deq_room T n m st : ring T n m st -> n < Z.of_nat (length (queue m st)) ->
  exists k, dev st 0 = Some k /\ (head_index k + 1 < n \/ (2 <= m)%nat).
Proof.
  intros Hr Hl. pose proof Hr as [Hm Hd He Hdev]. destruct (Hdev 0%nat) as (k0 & H0 & _ & Hr0); [lia|].
  destruct (Hdev m) as (km & H1 & _ & Hrm); [lia|]. exists k0. split; [done|].
  rewrite (ring_length T n m st k0 km Hr H0 H1) in Hl. unfold role_ok in Hrm.
  rewrite bool_decide_eq_false_2, bool_decide_eq_true_2 in Hrm by lia.
  destruct (decide (2 <= m)%nat); [by right|left]. assert (m = 1%nat) as -> by lia. change (Z.of_nat (1 - 1)) with 0 in Hl. lia.
Qed.

(** A dequeue from an empty segment: the kernel does not check for it. *)
Lemma deq_one_empty st i s x : head_index st = tail_index st -> 0 <= tail_index st < 2 ^ 30 ->
  vault st !! cell st (head_index st) = Some x ->
  exists st', deq_one st i s = Ok (st', true) /\ contents st = [] /\ contents st' = [] /\
    slots st' = <[i := mkSlot (CLEAR_REQUEST_PIM_VALID (info_bits s)) (u16 (stamp st)) x]> (slots st).
Proof.
  intros Hh Ht Hx. unfold deq_one. rewrite Hx. cbn [of_opt mbind result_bind].
  rewrite u32_small by (unfold is_u32, u32_mod; lia).
  replace (tail_index st <=? head_index st + 1) with true by (symmetry; apply Z.leb_le; lia). cbn [orb].
  eexists. split; [reflexivity|]. split; [|done]. unfold contents. by rewrite Hh, Z.sub_diag.
Qed.

(** A pass in which the first valid request ends the loop. *)
Lemma pass_stop one tid : forall n i st s st', (i <= tid < i + n)%nat -> (i + n <= length (slots st))%nat ->
  only st tid s -> one st tid s = Ok (st', true) -> pass one n i st = Ok st'.
Proof.
  induction n as [|n IH]; intros i st s st' Hi Hl Hon H1; [lia|]. pose proof Hon as (Hs & Hv & Hn). cbn [pass].
  destruct (decide (i = tid)) as [->|E].
  - rewrite Hs. cbn [of_opt mbind result_bind]. rewrite Hv. cbn [Z.eqb]. by rewrite H1.
  - specialize (Hn i E). unfold valid_at in Hn. destruct (lookup_lt_is_Some_2 (slots st) i) as [t Ht]; [lia|].
    rewrite Ht in *. cbn [of_opt mbind result_bind]. apply negb_false_iff in Hn. rewrite Hn. by apply (IH _ st s); [lia|lia| |].
Qed.

(** ** Properties *)

(** An iteration of the queue kernel.  On a segment with room an enqueuing kernel appends
    the parameters of the valid requests in the order of the slots, as many as fit; on a
    segment that is not empty a dequeuing kernel answers them with the elements from the
    front, as many as there are.  The requests served, and no others, are cleared; the
    PIM-valid bit of the last one is cleared and the kernel stops exactly if the segment
    has become full, or empty. *)
Theorem queue_kernel_iteration st : seg_ok st ->
  (op st = ENQ -> tail_index st < MAX_SEGMENT_ITEMS st ->
   let l := pass_serves st (enq_room st) in let fin := bool_decide (length l = enq_room st) in
   exists st', kernel_iter st = Ok (st', []) /\ contents st' = contents st ++ (param_at st <$> l) /\
     seg_ok st' /\ served st st' l fin /\ op st' = (if fin then OFF else ENQ)) /\
  (op st = DEQ -> head_index st < tail_index st ->
   let l := pass_serves st (deq_room st) in let fin := bool_decide (length l = deq_room st) in
   exists st', kernel_iter st = Ok (st', []) /\ contents st = (param_at st' <$> l) ++ contents st' /\
     seg_ok st' /\ served st st' l fin /\ op st' = (if fin then OFF else DEQ)).
Proof.
  intros Hok. split; intros Ho Ht l fin.
  - exists (foldl (result_of enq_one) st l). split; [exact (enq_iter st Hok Ho Ht)|]. destruct (take_facts _ (enq_room st) _ (pending_facts st (length (slots st)) ltac:(lia))) as [Hnd Hf].
    destruct (enq_run l st Hok Hnd Hf) as (H1 & H2 & _ & _ & _ & H3 & H4); [unfold l, pass_serves; rewrite length_take; lia|].
    split_and!; try done. rewrite H3, Ho. fold fin. destruct fin eqn:E; [|done]. apply bool_decide_eq_true in E.
    rewrite bool_decide_eq_false_2; [done|]. intros El. rewrite El in E. unfold enq_room in E. cbn in E. lia.
  - exists (foldl (result_of deq_one) st l). split; [exact (deq_iter st Hok Ho Ht)|]. destruct (take_facts _ (deq_room st) _ (pending_facts st (length (slots st)) ltac:(lia))) as [Hnd Hf].
    destruct (deq_run l st Hok Hnd Hf) as (H1 & H2 & _ & H3 & _ & _ & H4); [unfold l, pass_serves; rewrite length_take; lia|].
    split_and!; try done. rewrite H3, Ho. fold fin. destruct fin eqn:E; [|done]. apply bool_decide_eq_true in E.
    rewrite bool_decide_eq_false_2; [done|]. intros El. rewrite El in E. unfold deq_room in E. cbn in E. lia.
Qed.

(** The queue across the devices is a FIFO.  With N segments of n elements, the dequeues on
    one device, the enqueues on another, full segments in between and empty devices behind, an
    enqueue of a host thread completes and appends its value if there are less than n(N-1)
    elements, and a dequeue completes and returns the first element if there are more than n; a
    device that becomes full or empty hands over to the next one, and the devices keep their
    roles. *)
Theorem pim_queue_fifo T n m st f tid info : ring T n m st -> (tid < T)%nat ->
  (forall v, Z.of_nat (length (queue m st)) < n * (Z.of_nat (length (parts st)) - 1) ->
     exists st' i m', enq_turn (S (S f)) tid v info st = Ok (st', i, true) /\ ring T n m' st' /\
       length (parts st') = length (parts st) /\ queue m' st' = queue m st ++ [v]) /\
  (n < Z.of_nat (length (queue m st)) ->
     exists st' i x m', deq_turn (S (S f)) tid info st = Ok (st', i, Some x) /\ ring T n m' st' /\
       length (parts st') = length (parts st) /\ queue m st = x :: queue m' st').
Proof.
  intros Hr Ht. split.
  - intros v Hl. destruct (ring_enq_room T n m st Hr Hl) as (k & Hk & Hroom). by eapply enq_ring.
  - intros Hl. destruct (ring_deq_room T n m st Hr Hl) as (k & Hk & Hroom). by eapply deq_ring.
Qed.

(** A dequeue from an empty segment succeeds.  The kernel reads CURR_SEGMENT[HEAD_INDEX]
    before any test for emptiness: the first request in slot order is answered with the word
    that happens to be in the vault and is cleared as if it had been served. *)
Theorem queue_empty_dequeue k tid s x : op k = DEQ -> head_index k = tail_index k -> 0 <= tail_index k < 2 ^ 30 ->
  only k tid s -> vault k !! cell k (head_index k) = Some x ->
  exists k', kernel_iter k = Ok (k', []) /\ contents k = [] /\ contents k' = [] /\
    param_at k' tid = x /\ valid_at k' tid = false.
Proof.
  intros Ho Hh Ht Hon Hx. pose proof Hon as (Hs & _). destruct (deq_one_empty k tid s x Hh Ht Hx) as (k' & H1 & Hc & Hc' & Hsl).
  pose proof (lookup_lt_Some _ _ _ Hs) as Hlt. exists k'. split; [|split_and!; try done].
  - unfold kernel_iter. rewrite Ho. cbn [Z.eqb DEQ INIT ENQ Pos.eqb].
    rewrite (pass_stop deq_one tid _ 0 k s k') by (done || lia). done.
  - unfold param_at. by rewrite Hsl, list_lookup_insert_eq.
  - unfold valid_at. rewrite Hsl, list_lookup_insert_eq by done. cbn. by destruct (bits_cleared (info_bits s)) as (_ & -> & _).
Qed.

(** A late enqueue is served as a dequeue.  A request carries no operation: if a
    thread has read enq_part, and the device has become the dequeuing one when its request
    arrives there, the kernel answers it with the first element, the thread counts its
    enqueue as done, its value is nowhere in the queue and the element it took is lost. *)
Theorem queue_late_enqueue_lost T n m st tid v info f : ring T n m st -> (tid < T)%nat ->
  exists st1 st2 st3 i x,
    write_parameter st (deq_part st) tid v = Ok st1 /\
    write_info_bits st1 (deq_part st) tid (SET_REQUEST info) = Ok st2 /\
    run_kernel st2 (deq_part st) = Ok st3 /\
    poll (S f) enq_part (deq_part st) tid st3 = Ok (st3, i) /\
    settle enq_part (deq_part st) tid st3 i = Ok (st3, i, true) /\
    queue m st = x :: queue m st3.
Proof.
  intros Hring Ht. pose proof Hring as [Hm Hd He Hdev].
  destruct (Hdev 0%nat) as (k & Hk & (Hok & Hq & Hn & Hlen) & Hrole); [lia|]. unfold role_ok in Hrole.
  rewrite bool_decide_eq_true_2 in Hrole by done. destruct Hrole as (Hop & Hrun & Hhd & Htl).
  assert (Hc : parts st !! deq_part st = Some k) by (rewrite <- (idx_0 _ _ Hd); exact Hk).
  destruct (lookup_lt_is_Some_2 (slots k) tid) as [s Hs]; [lia|].
  destruct (deq_request k tid info Hok Hop ltac:(lia) Hq ltac:(lia) Hrun) as (kf & x & Hit & Hfacts).
  specialize (Hit (timestamp s) v). specialize (Hfacts (timestamp s) v). cbv zeta in Hfacts.
  set (k' := kf (timestamp s) v) in *.
  destruct Hfacts as (Hct & _ & _ & Hln' & _ & _ & _ & _ & _ & s' & Hs' & Hv' & _).
  destruct (proj1 (bind_Ok _ _ _) (proj2 (write_request st (deq_part st) tid k s info Hc Hs) v)) as (st1 & W1 & W2).
  exists st1. eexists _, (set_part st (deq_part st) k'), (info_bits s'), x.
  split; [exact W1|]. split; [exact W2|]. split; [|split; [|split]].
  - unfold run_kernel. cbn [parts set_part]. rewrite list_lookup_insert_eq by done. cbn [of_opt mbind result_bind].
    change (running (place_request _ _ _)) with (running k). rewrite Hrun, Hit. cbn [mbind result_bind]. by rewrite set_part_twice.
  - cbn [poll]. unfold read_info_bits, read_slot. cbn [parts set_part]. rewrite list_lookup_insert_eq by done.
    cbn [of_opt mbind result_bind]. rewrite Hs'. cbn [of_opt mbind result_bind]. by rewrite Hv'.
  - unfold settle, read_info_bits, read_slot. cbn [parts set_part]. rewrite list_lookup_insert_eq by done.
    cbn [of_opt mbind result_bind]. rewrite Hs'. case_bool_decide; cbn [of_opt mbind result_bind]; by rewrite Hv'.
  - rewrite queue_set_first, queue_first by lia. unfold chunk at 1. rewrite Hk. cbn. by rewrite Hct.
Qed.

(** ** Examples *)

(** Segments of two elements and two threads. *)
Definition ex_seg (o head tail x y : Z) (run : bool) (l : list qslot) : kq :=
  mkKQ o 8 BLOCK_BASE_ADDR head tail 0 (<[BLOCK_BASE_ADDR := x]> {[ BLOCK_BASE_ADDR + 4 := y ]}) l run.
Definition no_requests : list qslot := [mkSlot 0 0 0; mkSlot 0 0 0].
(** Dequeues on device 1, enqueues on device 3; device 0 is empty. *)
Definition ex_ring : pq :=
  mkPQ [ex_seg OFF 0 0 1 2 false no_requests; ex_seg DEQ 1 2 3 4 true no_requests;
        ex_seg OFF 0 2 5 6 false no_requests; ex_seg ENQ 0 1 7 8 true no_requests] 3 1.

Lemma ex_seg_ok o head tail x y run l : 0 <= head <= tail /\ tail <= 2 -> seg_ok (ex_seg o head tail x y run l).
Proof.
  intros H. split; [done|done|]. intros i Hi. change (MAX_SEGMENT_ITEMS _) with 2 in Hi.
  assert (i = 0 \/ i = 1) as [-> | ->] by lia; vm_compute; eauto.
Qed.

Lemma ex_quiet o head tail x y run : quiet (ex_seg o head tail x y run no_requests).
Proof. intros [|[|[|j]]]; reflexivity. Qed.

Lemma ex_ring_ok : ring 2 2 2 ex_ring.
Proof.
  split; [cbn; lia|cbn; lia|done|]. intros k Hk. cbn in Hk.
  assert (k = 0 \/ k = 1 \/ k = 2 \/ k = 3)%nat as [-> | [-> | [-> | ->]]] by lia;
    (eexists; split; [reflexivity|split; [split_and!; [apply ex_seg_ok; lia|apply ex_quiet|done|done]|]]); vm_compute; done.
Qed.

Definition ex_pending : list qslot := [mkSlot 3 0 20; mkSlot 3 0 21].

Lemma queue_kernel_iteration_witness :
  (exists st', kernel_iter (ex_seg ENQ 0 1 7 8 true ex_pending) = Ok (st', []) /\ contents st' = [7; 20]) /\
  exists st', kernel_iter (ex_seg DEQ 0 2 7 8 true ex_pending) = Ok (st', []) /\ param_at st' 1 = 8.
Proof.
  split.
  - destruct (queue_kernel_iteration (ex_seg ENQ 0 1 7 8 true ex_pending)) as [H _]; [apply ex_seg_ok; lia|].
    destruct H as (st' & H1 & H2 & _); [done|done|]. exists st'. split; [exact H1|exact H2].
  - destruct (queue_kernel_iteration (ex_seg DEQ 0 2 7 8 true ex_pending)) as [_ H]; [apply ex_seg_ok; lia|].
    destruct H as (st' & H1 & H2 & _); [done|done|]. exists st'. split; [exact H1|].
    vm_compute in H1. injection H1 as <-. reflexivity.
Defined.

Lemma pim_queue_fifo_witness : queue 2 ex_ring = [4; 5; 6; 7] /\
  (exists st' i m', enq_turn 2 0 9 0 ex_ring = Ok (st', i, true) /\ queue m' st' = [4; 5; 6; 7; 9]) /\
  exists st' i m', deq_turn 2 1 0 ex_ring = Ok (st', i, Some 4) /\ queue m' st' = [5; 6; 7].
Proof.
  split; [reflexivity|]. split.
  - destruct (pim_queue_fifo 2 2 2 ex_ring 0 0 0 ex_ring_ok ltac:(lia)) as [H _].
    destruct (H 9) as (st' & i & m' & H1 & _ & _ & H2); [vm_compute; reflexivity|]. exists st', i, m'. split; [exact H1|exact H2].
  - destruct (pim_queue_fifo 2 2 2 ex_ring 0 1 0 ex_ring_ok ltac:(lia)) as [_ H].
    destruct H as (st' & i & x & m' & H1 & _ & _ & H2); [vm_compute; reflexivity|]. exists st', i, m'.
    change (queue 2 ex_ring) with [4; 5; 6; 7] in H2. injection H2 as <- H2. by split.
Defined.

Lemma queue_empty_dequeue_witness :
  exists k', kernel_iter (ex_seg DEQ 0 0 7 8 true [mkSlot 3 0 0; mkSlot 0 0 0]) = Ok (k', []) /\ param_at k' 0 = 7.
Proof.
  destruct (queue_empty_dequeue (ex_seg DEQ 0 0 7 8 true [mkSlot 3 0 0; mkSlot 0 0 0]) 0 (mkSlot 3 0 0) 7)
    as (k' & H1 & _ & _ & H2 & _); [done|done|cbn; lia| |done|].
  - split; [done|]. split; [done|]. intros [|[|[|j]]] Hj; done.
  - by exists k'.
Defined.

Lemma queue_late_enqueue_lost_witness :
  exists st1 st2 st3 i x, write_parameter ex_ring 1 0 9 = Ok st1 /\ write_info_bits st1 1 0 3 = Ok st2 /\
    run_kernel st2 1 = Ok st3 /\ settle enq_part 1 0 st3 i = Ok (st3, i, true) /\ [4; 5; 6; 7] = x :: queue 2 st3.
Proof.
  destruct (queue_late_enqueue_lost 2 2 2 ex_ring 0 9 0 0 ex_ring_ok ltac:(lia))
    as (st1 & st2 & st3 & i & x & H1 & H2 & H3 & _ & H4 & H5).
  exists st1, st2, st3, i, x. split_and!; done.
Defined.
