(* ===== verification/PimQueueMain.v ===== *)
(** * The program of the PIM queue

    Models the rest of src/SMC/SW/HOST/app/multithread_pim_queue/main.cc on top of PimQueue.v:
    the start of the devices and the filling of the initial queue in [main], and the loop of
    [ops_routine] for one thread.  The random numbers are a parameter, the list of the keys in
    the order they are drawn.  One thread runs alone, and the kernel of a device makes a whole pass over its
    slots between two polls of the host.  The theorems show that [main] establishes the
    roles of the devices with the initial keys as the contents, and that the operations that a
    thread runs on it are those of a FIFO queue, if the number of initial keys is more than one segment holds and less than
    all segments but one hold.  Nothing is claimed otherwise: PimQueue.v shows what an empty segment and a request that arrives late do. *)

From S2P Require Import Prelude PimQueue.

(** ** The start of the devices *)

(** A register write to operation and MAX_SEGMENT_BYTES. *)
Definition set_max_bytes (k : kq) (b : Z) : kq :=
  mkKQ (op k) b (curr_segment k) (head_index k) (tail_index k) (stamp k) (vault k) (slots k) (running k).
Definition set_stamp (k : kq) (t : Z) : kq :=
  mkKQ (op k) (max_bytes k) (curr_segment k) (head_index k) (tail_index k) t (vault k) (slots k) (running k).

(** The kernel runs until the device sleeps: [wait_for_completion]. *)
Fixpoint wait_part (fuel : nat) (k : kq) : result kq :=
  match fuel with
  | O => NoFuel
  | S fuel' => if running k then '(k', _) ← kernel_iter k; wait_part fuel' k' else Ok k
  end.

(** The INIT command of one device. *)
Definition init_part (fuel : nat) (max : Z) (k : kq) : result kq :=
  if running k then NoFuel
  else wait_part fuel (set_running (set_max_bytes (set_op k INIT) max) true).
Definition init_parts (fuel : nat) (max : Z) (st : pq) : result pq :=
  l ← mapM (init_part fuel max) (parts st); Ok (mkPQ l 0 0).

(** ** The initial queue *)

(** One turn of the loop; enq_part grows without wrapping around. *)
Definition fill_turn (fuel : nat) (v info : Z) (st : pq) : result (pq * Z * bool) :=
  let c := enq_part st in
  st1 ← write_parameter st c 0 v;
  st2 ← write_info_bits st1 c 0 (SET_REQUEST info);
  '(st3, i) ← poll fuel (fun _ => c) c 0 st2;
  let completed := CHECK_VALID_REQUEST i =? 0 in
  if CHECK_VALID_PIM i =? 0 then
    st4 ← close_part st3 c;
    st5 ← start_part (mkPQ (parts st4) (S c) (deq_part st4)) (S c) ENQ;
    Ok (st5, i, completed)
  else Ok (st3, i, completed).

(** [todo] is INITIAL_Q_SIZE - size, [keys] the numbers drawn from here on. *)
Fixpoint fill (fuel todo : nat) (keys : list Z) (info : Z) (st : pq) : result (pq * Z) :=
  match todo, keys with
  | O, _ => Ok (st, info)
  | S _, [] => NoFuel
  | S todo', v :: keys' =>
      '(st1, i, completed) ← fill_turn fuel v info st;
      fill fuel (if (completed : bool) then todo' else todo) keys' i st1
  end.

(** [write_sreg(0, 0)] and [wait_for_completion_simple]. *)
Definition stop_part (st : pq) (c : nat) : result pq :=
  k ← of_opt (parts st !! c); close_part (set_part st c (set_op k OFF)) c.

Definition reset_stamps (st : pq) : pq :=
  mkPQ (imap (fun i k => if (i <=? enq_part st)%nat then set_stamp k 0 else k) (parts st)) (enq_part st) (deq_part st).

Definition activate (st : pq) : result pq :=
  st1 ← start_part st (enq_part st) ENQ; start_part st1 (deq_part st1) DEQ.

(** [main] up to the creation of the threads. *)
Definition main_setup (fuel : nat) (max : Z) (INITIAL_Q_SIZE : nat) (keys : list Z) (st : pq) : result pq :=
  st1 ← init_parts fuel max st;
  st2 ← start_part st1 (enq_part st1) ENQ;
  '(st3, _) ← fill fuel INITIAL_Q_SIZE keys 0 st2;
  st4 ← stop_part st3 (enq_part st3);
  activate (reset_stamps st4).

(** ** The thread *)

Inductive event := Push (v : Z) | Pop (v : Z).

(** One turn of the loop, with the operation that it completes. *)
Definition ops_turn (fuel tid op_count : nat) (key info : Z) (st : pq) : result (pq * Z * list event) :=
  if ((op_count + tid) mod 2 =? 0)%nat then
    '(st', i, completed) ← enq_turn fuel tid key info st;
    Ok (st', i, if (completed : bool) then [Push key] else [])
  else
    '(st', i, answer) ← deq_turn fuel tid info st;
    Ok (st', i, match answer with Some x => [Pop x] | None => [] end).

Fixpoint ops_routine (turns fuel tid op_count num_ops : nat) (rand_keys : list Z) (info : Z) (st : pq) : result (pq * list event) :=
  match turns with
  | O => NoFuel
  | S turns' =>
      if (op_count <? num_ops)%nat then
        key ← of_opt (rand_keys !! op_count);
        '(st1, i, es) ← ops_turn fuel tid op_count key info st;
        '(st2, l) ← ops_routine turns' fuel tid (op_count + length es) num_ops rand_keys i st1;
        Ok (st2, es ++ l)
      else Ok (st, [])
  end.

(** ** The abstract queue *)

(** The operations that a sequential queue allows, and the queue they leave. *)
Fixpoint replay (q : list Z) (es : list event) : option (list Z) :=
  match es, q with
  | [], _ => Some q
  | Push v :: es', _ => replay (q ++ [v]) es'
  | Pop v :: es', x :: q' => if bool_decide (v = x) then replay q' es' else None
  | Pop _ :: _, [] => None
  end.

(** ** Initialisation *)

(** A device that sleeps, with a vault for [n] elements. *)
Definition fresh (T : nat) (n : Z) (k : kq) : Prop :=
  running k = false /\ quiet k /\ length (slots k) = T /\
  forall i, 0 <= i < n -> is_Some (vault k !! (BLOCK_BASE_ADDR + 4 * i)).

(** The states of a device that sleeps or enqueues. *)
Definition asleep (x : kq) (t : Z) : Prop := op x = OFF /\ running x = false /\ head_index x = 0 /\ tail_index x = t.
Definition enqueuing (x : kq) (n : Z) : Prop := op x = ENQ /\ running x = true /\ head_index x = 0 /\ tail_index x < n.

Lemma init_part_ok T n f max k : fresh T n k -> max / 4 = n -> 0 < n < 2 ^ 30 ->
  exists k', init_part (S (S (S f))) max k = Ok k' /\ part_ok T n k' /\ asleep k' 0.
Proof.
  intros (Hr & Hq & Hl & Hv) Hn Hb. unfold init_part. rewrite Hr. eexists. split; [reflexivity|].
  split; [|done]. split_and!; [|exact Hq|exact Hn|exact Hl].
  split; unfold MAX_SEGMENT_ITEMS; cbn; [by rewrite Hn|lia|]. intros i Hi. apply Hv. by rewrite Hn in Hi.
Qed.

Lemma init_parts_ok T n f max st : Forall (fresh T n) (parts st) -> max / 4 = n -> 0 < n < 2 ^ 30 ->
  exists l, init_parts (S (S (S f))) max st = Ok (mkPQ l 0 0) /\ length l = length (parts st) /\
    Forall (fun x => part_ok T n x /\ asleep x 0) l.
Proof.
  intros Hf Hn Hb. unfold init_parts. assert (Hm : exists l, mapM (init_part (S (S (S f))) max) (parts st) = Ok l /\
    length l = length (parts st) /\ Forall (fun x => part_ok T n x /\ asleep x 0) l).
  { induction Hf as [|k ps Hk Hf IH]; [by exists []|]. destruct IH as (l & Hl & Hlen & Hall).
    destruct (init_part_ok T n f max k Hk Hn Hb) as (k' & H1 & H2 & H3). exists (k' :: l). cbn [mapM]. rewrite H1. sim_step.
    cbn [mbind result_bind]. rewrite Hl. cbn. split; [done|]. split; [by rewrite Hlen|]. by constructor. }
  destruct Hm as (l & -> & Hlen & Hall). by exists l.
Qed.

(** ** The filling *)

Record filled (T : nat) (n : Z) (m : nat) (st : pq) : Prop := {
  fl_m : (m < length (parts st))%nat;
  fl_enq : enq_part st = m;
  fl_deq : deq_part st = 0%nat;
  fl_part k : (k < length (parts st))%nat -> exists x, parts st !! k = Some x /\ part_ok T n x /\
    if bool_decide (k = m) then enqueuing x n else asleep x (if bool_decide (k < m)%nat then n else 0);
}.

Lemma dev_0 st k : deq_part st = 0%nat -> (k < length (parts st))%nat -> dev st k = parts st !! k.
Proof. intros Hd Hk. unfold dev. rewrite Hd, idx_small by lia. by destruct (Nat.ltb_spec (0 + k) (length (parts st))); [|lia]. Qed.

Lemma close_off st c k : parts st !! c = Some k -> op k = OFF ->
  close_part st c = Ok (set_part st c (set_running k false)).
Proof.
  intros Hk Ho. pose proof (lookup_lt_Some _ _ _ Hk) as Hc. unfold close_part, run_kernel. rewrite Hk. cbn [of_opt mbind result_bind].
  destruct (running k) eqn:E.
  - unfold kernel_iter. rewrite Ho. cbn. rewrite list_lookup_insert_eq by done. done.
  - cbn [mbind result_bind]. rewrite Hk. cbn. rewrite E. f_equal. unfold set_part.
    rewrite list_insert_id; [by destruct st|]. rewrite Hk. by destruct k; cbn in *; subst.
Qed.

Lemma start_asleep st c k o : parts st !! c = Some k -> running k = false ->
  start_part st c o = Ok (set_part st c (set_running (set_op k o) true)).
Proof. intros Hk Hr. unfold start_part. rewrite Hk. cbn. by rewrite Hr. Qed.

Lemma part_ok_registers T n k o b : part_ok T n k -> part_ok T n (set_running (set_op k o) b).
Proof. intros ([] & ? & ? & ?). by split_and!. Qed.

Lemma part_ok_stamp T n k t : part_ok T n k -> part_ok T n (set_stamp k t).
Proof. intros ([] & ? & ? & ?). by split_and!. Qed.

#[local] Hint Resolve part_ok_registers part_ok_stamp : smc.

(** The current device changes, or the next one takes over. *)
Lemma filled_set T n m st x : filled T n m st -> part_ok T n x -> enqueuing x n -> filled T n m (set_part st m x).
Proof.
  intros [Hm He Hd Hp] Hx Hx'. split; cbn [parts set_part enq_part deq_part]; rewrite ?length_insert; try done.
  intros k Hk. destruct (decide (k = m)) as [->|E].
  - exists x. rewrite list_lookup_insert_eq by done. by rewrite bool_decide_eq_true_2.
  - rewrite list_lookup_insert_ne by done. by apply Hp.
Qed.

Lemma filled_next T n m st x y : filled T n m st -> (S m < length (parts st))%nat ->
  part_ok T n x -> asleep x n -> part_ok T n y -> enqueuing y n ->
  filled T n (S m) (mkPQ (<[S m := y]> (<[m := x]> (parts st))) (S m) 0).
Proof.
  intros [Hm He Hd Hp] HS Hx Hx' Hy Hy'. split; cbn [parts enq_part deq_part]; rewrite ?length_insert; try done.
  intros k Hk. destruct (decide (k = S m)) as [->|E].
  { exists y. rewrite list_lookup_insert_eq by (by rewrite length_insert). by rewrite bool_decide_eq_true_2. }
  rewrite list_lookup_insert_ne by done. rewrite (bool_decide_eq_false_2 (k = S m)) by done. destruct (decide (k = m)) as [->|E'].
  { exists x. rewrite list_lookup_insert_eq by done. rewrite bool_decide_eq_true_2 by lia. done. }
  rewrite list_lookup_insert_ne by done. destruct (Hp k Hk) as (z & Hz & Hz1 & Hz2). exists z. split; [done|]. split; [done|].
  rewrite bool_decide_eq_false_2 in Hz2 by done. by rewrite (bool_decide_ext (k < S m)%nat (k < m)%nat) by lia.
Qed.

(** The queue after that. *)
Lemma queue_next m st x y : (S m < length (parts st))%nat -> deq_part st = 0%nat -> contents y = [] ->
  queue (S m) (mkPQ (<[S m := y]> (<[m := x]> (parts st))) (S m) 0) = (seq 0 m ≫= chunk st) ++ contents x.
Proof.
  intros Hm Hd Hy. set (st' := mkPQ _ _ _). assert (Hl : length (parts st') = length (parts st)) by (cbn; by rewrite !length_insert).
  rewrite queue_last, seq_S, bind_app. change (0 + m)%nat with m. cbn [mbind list_bind]. rewrite app_nil_r, <- app_assoc. f_equal.
  - apply bind_ext. intros j Hj. apply elem_of_seq in Hj. apply chunk_ext. rewrite !dev_0 by (done || lia). cbn.
    by rewrite !list_lookup_insert_ne by lia.
  - unfold chunk. rewrite !dev_0 by (done || lia). cbn. rewrite list_lookup_insert_eq by (rewrite length_insert; lia).
    rewrite list_lookup_insert_ne by lia. rewrite list_lookup_insert_eq by lia. cbn. by rewrite Hy, app_nil_r.
Qed.

Lemma filled_length T n m st k : filled T n m st -> parts st !! m = Some k ->
  Z.of_nat (length (queue m st)) = n * Z.of_nat m + tail_index k.
Proof.
  intros [Hm He Hd Hp] Hk. rewrite queue_last, length_app, Nat2Z.inj_add.
  assert (Hmid : forall j, (j <= m)%nat -> Z.of_nat (length (seq 0 j ≫= chunk st)) = n * Z.of_nat j).
  { intros j. induction j as [|j IH]; intros Hj; [cbn; lia|]. rewrite seq_S, bind_app. cbn [mbind list_bind].
    rewrite app_nil_r, length_app, Nat2Z.inj_add, IH by lia. change (0 + j)%nat with j. unfold chunk. rewrite dev_0 by (done || lia).
    destruct (Hp j) as (x & -> & ([? ? _] & _) & Hx); [lia|]. rewrite bool_decide_eq_false_2, bool_decide_eq_true_2 in Hx by lia.
    destruct Hx as (_ & _ & Hh & Ht). cbn [from_option]. rewrite length_contents. lia. }
  rewrite Hmid by lia. unfold chunk. rewrite dev_0, Hk by done. cbn [from_option]. rewrite length_contents.
  destruct (Hp m Hm) as (x & Hx & ([? ? _] & _) & Hr). rewrite Hk in Hx. injection Hx as <-. rewrite bool_decide_eq_true_2 in Hr by done.
  destruct Hr as (_ & _ & Hh & _). lia.
Qed.

Lemma fill_turn_ok T n m st f v info : filled T n m st -> (0 < T)%nat ->
  Z.of_nat (length (queue m st)) + 1 < n * Z.of_nat (length (parts st)) ->
  exists st' i m', fill_turn (S (S f)) v info st = Ok (st', i, true) /\ filled T n m' st' /\
    length (parts st') = length (parts st) /\ queue m' st' = queue m st ++ [v].
Proof.
  intros Hfl HT Hroom. pose proof Hfl as [Hm He Hd Hp]. destruct (Hp m Hm) as (k & Hk & Hok & Hr).
  rewrite bool_decide_eq_true_2 in Hr by done. destruct Hr as (Hop & Hrun & Hhd & Htl).
  rewrite (filled_length T n m st k Hfl Hk) in Hroom.
  destruct (enq_exchange T n st m f k 0 v info (fun _ => m) Hok Hop Hrun Htl HT Hk ltac:(done))
    as (k' & i & Hex & _ & Hv' & Hp' & Hok' & Hrun' & Hop' & Hhd' & Htl' & Hct).
  apply bind_Ok in Hex as (st1 & W1 & Hex). apply bind_Ok in Hex as (st2 & W2 & W3).
  unfold fill_turn. cbv zeta. rewrite He, W1. cbn [mbind result_bind]. rewrite W2. cbn [mbind result_bind].
  rewrite W3. cbn [mbind result_bind]. rewrite Hp', Hv'.
  assert (Hch : (seq 0 m ≫= chunk st) ++ contents k' = queue m st ++ [v]).
  { rewrite Hct, app_assoc, queue_last. do 2 f_equal. unfold chunk. by rewrite dev_0, Hk. }
  destruct (bool_decide_reflect (tail_index k + 1 = n)) as [Hfull|Hnf].
  - assert (HS : (S m < length (parts st))%nat) 
      by (destruct Hok as ([] & _ & ? & _); apply Nat2Z.inj_lt, (Z.mul_lt_mono_pos_l n); lia).
    destruct (Hp (S m) HS) as (y & Hy & Hoky & Hry). rewrite !bool_decide_eq_false_2 in Hry by lia. destruct Hry as (Hy1 & Hy2 & Hy3 & Hy4).
    change (0 =? 0) with true. cbv iota. rewrite (close_off _ m k') by (done || cbn; by apply list_lookup_insert_eq).
    cbn [mbind result_bind]. rewrite set_part_twice. cbn [parts set_part deq_part].
    rewrite (start_asleep _ (S m) y ENQ) by (done || cbn; by rewrite list_lookup_insert_ne by lia). cbn [mbind result_bind]. rewrite Hd.
    eexists _, i, (S m). split; [reflexivity|]. split; [|split].
    + apply filled_next; [done|done| | | |].
      * destruct Hok' as ([] & ? & ? & ?). by split_and!.
      * split_and!; try done; cbn; lia.
      * auto with smc.
      * destruct Hok as ([] & _ & ? & _). split_and!; try done; cbn; lia.
    + cbn. by rewrite !length_insert.
    + change (set_part _ _ _) with (mkPQ (<[S m := set_running (set_op y ENQ) true]> (<[m := set_running k' false]> (parts st))) (S m) 0).
      rewrite queue_next; [exact Hch|done|done|]. unfold contents. cbn. by rewrite Hy3, Hy4.
  - change (2 =? 0) with false. cbv iota. eexists _, i, m. split; [reflexivity|]. split; [|split].
    + apply filled_set; [done|done|]. split_and!; try done; lia.
    + cbn. apply length_insert.
    + rewrite <- Hch. assert (Hi : idx (length (parts st)) (deq_part st) m = m).
      { rewrite Hd, idx_small by lia. by destruct (Nat.ltb_spec (0 + m) (length (parts st))); [|lia]. }
      rewrite <- Hi at 2. apply queue_set_last; lia.
Qed.

Lemma fill_ok T n f l : forall m st info, filled T n m st -> (0 < T)%nat ->
  Z.of_nat (length (queue m st) + length l) < n * Z.of_nat (length (parts st)) ->
  exists st' i m', fill (S (S f)) (length l) l info st = Ok (st', i) /\ filled T n m' st' /\
    length (parts st') = length (parts st) /\ queue m' st' = queue m st ++ l.
Proof.
  induction l as [|v l IH]; intros m st info Hf HT Hl.
  { exists st, info, m. split_and!; try done. by rewrite app_nil_r. }
  cbn [length fill] in *. destruct (fill_turn_ok T n m st f v info Hf HT) as (st1 & i & m1 & H1 & H2 & H3 & H4); [lia|].
  rewrite H1. cbn [mbind result_bind]. destruct (IH m1 st1 i H2 HT) as (st2 & i2 & m2 & H5 & H6 & H7 & H8).
  { rewrite H4, H3, length_app. cbn [length]. lia. }
  exists st2, i2, m2. split; [exact H5|]. split; [done|]. split; [congruence|]. by rewrite H8, H4, <- app_assoc.
Qed.

(** ** The activation *)

Lemma activate_ok T n m st : filled T n m st -> (1 <= m)%nat ->
  exists st', (st4 ← stop_part st (enq_part st); activate (reset_stamps st4)) = Ok st' /\
    ring T n m st' /\ length (parts st') = length (parts st) /\ queue m st' = queue m st.
Proof.
  intros [Hm He Hd Hp] Hm1. destruct (Hp m Hm) as (k & Hk & Hok & Hr). rewrite bool_decide_eq_true_2 in Hr by done.
  destruct (Hp 0%nat) as (z & Hz & Hokz & Hrz); [lia|]. rewrite bool_decide_eq_false_2, bool_decide_eq_true_2 in Hrz by lia.
  unfold stop_part. rewrite He, Hk. cbn [of_opt mbind result_bind].
  rewrite (close_off _ m (set_op k OFF)) by (done || cbn; by apply list_lookup_insert_eq). cbn [mbind result_bind]. rewrite set_part_twice.
  set (f := fun (i : nat) (x : kq) => if (i <=? m)%nat then set_stamp x 0 else x).
  assert (Hf : reset_stamps (set_part st m (set_running (set_op k OFF) false)) =
    mkPQ (imap f (<[m := set_running (set_op k OFF) false]> (parts st))) m 0)
    by (unfold reset_stamps; cbn; by rewrite He, Hd).
  rewrite Hf. clear Hf. unfold activate. cbn [enq_part].
  rewrite (start_asleep _ m (set_stamp (set_running (set_op k OFF) false) 0) ENQ).
  2:{ cbn. rewrite list_lookup_imap, list_lookup_insert_eq by done. cbn. unfold f. by rewrite Nat.leb_refl. }
  2:{ done. }
  cbn [mbind result_bind deq_part set_part].
  rewrite (start_asleep _ 0 (set_stamp z 0) DEQ); [| |by destruct Hrz as (_ & ? & _)].
  2:{ cbn. rewrite list_lookup_insert_ne by lia. rewrite list_lookup_imap, list_lookup_insert_ne by lia. by rewrite Hz. }
  eexists. split; [reflexivity|]. unfold set_part. cbn [parts enq_part deq_part].
  set (g := fun (i : nat) (x : kq) => if bool_decide (i = 0%nat) then set_running (set_op (set_stamp x 0) DEQ) true
     else if bool_decide (i = m) then set_running (set_op (set_stamp x 0) ENQ) true else f i x).
  match goal with |- context [mkPQ ?l m 0] => set (ps := l) end.
  assert (Hlen : length ps = length (parts st)) by (unfold ps; by rewrite !length_insert, length_imap, length_insert).
  assert (Hlook : forall i, (i < length (parts st))%nat -> ps !! i = g i <$> parts st !! i).
  { intros i Hi. unfold ps, g. destruct (decide (i = 0%nat)) as [->|E0].
    - rewrite list_lookup_insert_eq by (by rewrite length_insert, length_imap, length_insert). by rewrite Hz.
    - rewrite list_lookup_insert_ne by done. rewrite (bool_decide_eq_false_2 (i = 0%nat)) by done. destruct (decide (i = m)) as [->|E1].
      + rewrite list_lookup_insert_eq by (by rewrite length_imap, length_insert). rewrite Hk. cbn. by rewrite bool_decide_eq_true_2.
      + rewrite list_lookup_insert_ne by done. rewrite list_lookup_imap, list_lookup_insert_ne by done.
        by rewrite (bool_decide_eq_false_2 (i = m)). }
  split; [|split; [done|]].
  - split; cbn [parts enq_part deq_part]; rewrite ?Hlen; [lia|lia|rewrite idx_small by lia; by destruct (Nat.ltb_spec (0 + m) (length (parts st))); [|lia]|].
    intros i Hi. rewrite dev_0 by (done || cbn; lia). cbn [parts]. rewrite Hlook by done. destruct (Hp i Hi) as (x & -> & Hx & Hx').
    cbn. eexists. split; [reflexivity|]. split; [unfold g, f; repeat case_match; auto with smc|]. pose proof Hx as ([] & _ & ? & _).
    unfold g, f, role_ok. repeat case_bool_decide; try lia; subst; destruct Hx' as (? & ? & ? & ?); try (destruct (i <=? _)%nat);
      split_and!; try done; cbn; lia.
  - unfold queue. apply bind_ext. intros j Hj. apply elem_of_seq in Hj. unfold chunk. rewrite !dev_0 by (done || cbn; lia). cbn [parts].
    rewrite Hlook by lia. destruct (Hp j) as (x & -> & _ & _); [lia|]. cbn. unfold g, f. by repeat case_match.
Qed.

(** The start of the program: the devices have the roles that the operations rely on and the queue
    holds the initial keys in order, if they fill at least one segment but not all of them. *)
Lemma setup_ok T n f max l st : Forall (fresh T n) (parts st) -> (0 < T)%nat -> max / 4 = n -> 0 < n < 2 ^ 30 ->
  n <= Z.of_nat (length l) < n * Z.of_nat (length (parts st)) ->
  exists st' m, main_setup (S (S (S f))) max (length l) l st = Ok st' /\ ring T n m st' /\
    length (parts st') = length (parts st) /\ queue m st' = l.
Proof.
  intros Hf HT Hn Hb Hl. destruct (init_parts_ok T n f max st Hf Hn Hb) as (ps & H1 & Hlen & Hall).
  assert (HN : (0 < length ps)%nat) by (destruct (length ps) eqn:E; [rewrite <- Hlen in Hl; lia|lia]).
  destruct (lookup_lt_is_Some_2 ps 0 HN) as [k Hk]. pose proof (Forall_lookup_1 _ _ _ _ Hall Hk) as (Hok & Ho & Hr & Hh & Ht).
  unfold main_setup. rewrite H1. cbn [mbind result_bind enq_part]. rewrite (start_asleep _ 0 k ENQ) by done. cbn [mbind result_bind].
  set (st2 := set_part _ _ _). assert (Hf2 : filled T n 0 st2).
  { split; cbn; rewrite ?length_insert; try done. intros i Hi. destruct (decide (i = 0%nat)) as [->|E].
    - rewrite list_lookup_insert_eq by done. eexists. split; [reflexivity|]. split; [auto with smc|]. split_and!; try done. cbn. lia.
    - rewrite list_lookup_insert_ne by done. destruct (lookup_lt_is_Some_2 ps i Hi) as [x Hx]. exists x. split; [done|].
      pose proof (Forall_lookup_1 _ _ _ _ Hall Hx) as (Hokx & Hax). split; [done|]. by rewrite !bool_decide_eq_false_2 by lia. }
  assert (Hq2 : queue 0 st2 = []).
  { unfold queue. cbn [seq mbind list_bind]. rewrite app_nil_r. unfold chunk. rewrite dev_0 by (done || cbn; by rewrite length_insert). cbn.
    rewrite list_lookup_insert_eq by done. cbn. unfold contents. cbn. by rewrite Hh, Ht. }
  assert (Hl2 : length (parts st2) = length (parts st)) by (cbn; by rewrite length_insert).
  destruct (fill_ok T n (S f) l 0 st2 0 Hf2 HT) as (st3 & i & m & H3 & Hf3 & Hl3 & Hq3); [rewrite Hq2, Hl2; cbn [length]; lia|].
  rewrite H3. cbn [mbind result_bind]. rewrite Hq2, app_nil_l in Hq3.
  assert (Hm : (1 <= m)%nat).
  { destruct m as [|m]; [|lia]. pose proof Hf3 as [Hm3 He3 Hd3 Hp3]. destruct (Hp3 0%nat Hm3) as (x & Hx & _ & _ & _ & _ & Htl).
    pose proof (filled_length T n 0 st3 x Hf3 Hx) as HL. rewrite Hq3 in HL. lia. }
  destruct (activate_ok T n m st3 Hf3 Hm) as (st' & H4 & H5 & H6 & H7). exists st', m. split; [exact H4|]. split; [done|].
  split; [congruence|]. congruence.
Qed.

(** ** The operations of a thread *)

Lemma replay_events_app es1 es2 : forall q, replay q (es1 ++ es2) = replay q es1 ≫= fun q' => replay q' es2.
Proof. induction es1 as [|[v|v] es1 IH]; intros q; cbn; [done|apply IH|]. destruct q; [done|]. by case_bool_decide. Qed.

Lemma ops_turn_ok T n m st f tid c key info : ring T n m st -> (tid < T)%nat ->
  (if ((c + tid) mod 2 =? 0)%nat then Z.of_nat (length (queue m st)) < n * (Z.of_nat (length (parts st)) - 1)
   else n < Z.of_nat (length (queue m st))) ->
  exists st' i e m', ops_turn (S (S f)) tid c key info st = Ok (st', i, [e]) /\ ring T n m' st' /\
    length (parts st') = length (parts st) /\ replay (queue m st) [e] = Some (queue m' st') /\
    length (queue m' st') = if ((c + tid) mod 2 =? 0)%nat then S (length (queue m st)) else Nat.pred (length (queue m st)).
Proof.
  intros Hr Ht. unfold ops_turn. destruct ((c + tid) mod 2 =? 0)%nat; intros Hl.
  - destruct (ring_enq_room T n m st Hr Hl) as (k & Hk & Hroom).
    destruct (enq_ring T n m st f tid key info k Hr Ht Hk Hroom) as (st' & i & m' & H1 & H2 & H3 & H4).
    rewrite H1. cbn [mbind result_bind]. exists st', i, (Push key), m'. split_and!; try done; [by rewrite H4|].
    rewrite H4, length_app. cbn. lia.
  - destruct (ring_deq_room T n m st Hr Hl) as (k & Hk & Hroom).
    destruct (deq_ring T n m st f tid info k Hr Ht Hk Hroom) as (st' & i & x & m' & H1 & H2 & H3 & H4).
    rewrite H1. cbn [mbind result_bind]. exists st', i, (Pop x), m'. split_and!; try done; rewrite H4; [|done].
    cbn. by rewrite bool_decide_eq_true_2.
Qed.

Lemma ops_routine_turn d f tid c num keys info st key : (c < num)%nat -> keys !! c = Some key ->
  ops_routine (S d) f tid c num keys info st =
    '(st1, i, es) ← ops_turn f tid c key info st;
    '(st2, l) ← ops_routine d f tid (c + length es) num keys i st1; Ok (st2, es ++ l).
Proof. intros Hc Hk. cbn [ops_routine]. apply Nat.ltb_lt in Hc. by rewrite Hc, Hk. Qed.

(** [L] is the number of elements before an enqueue. *)
Lemma ops_routine_ok T n f tid num keys L : (num <= length keys)%nat -> (tid < T)%nat ->
  forall d c m st info, (c + d = num)%nat -> ring T n m st ->
  n <= Z.of_nat L < n * (Z.of_nat (length (parts st)) - 1) -> length (queue m st) = (L + (c + tid) mod 2)%nat ->
  exists st' es m', ops_routine (S d) (S (S f)) tid c num keys info st = Ok (st', es) /\ ring T n m' st' /\
    replay (queue m st) es = Some (queue m' st') /\ length es = d.
Proof.
  intros Hk Ht. induction d as [|d IH]; intros c m st info Hc Hr HL Hq.
  { exists st, [], m. cbn [ops_routine]. destruct (Nat.ltb_spec c num); [lia|]. by split_and!. }
  destruct (lookup_lt_is_Some_2 keys c) as [key Hkey]; [lia|]. rewrite (ops_routine_turn _ _ _ _ _ _ _ _ key) by (done || lia).
  assert (Hpar : ((c + 1 + tid) mod 2 = 1 - (c + tid) mod 2)%nat).
  { replace (c + 1 + tid)%nat with (c + tid + 1)%nat by lia. rewrite <- Nat.Div0.add_mod_idemp_l.
    pose proof (Nat.mod_upper_bound (c + tid) 2). destruct ((c + tid) mod 2)%nat as [|[|]]; [done|done|lia]. }
  destruct (ops_turn_ok T n m st f tid c key info Hr Ht) as (st1 & i & e & m1 & H1 & H2 & H3 & H4 & H5).
  { rewrite Hq. destruct (Nat.eqb_spec ((c + tid) mod 2) 0) as [E|E]; lia. }
  rewrite H1. cbn [mbind result_bind]. destruct (IH (c + length [e])%nat m1 st1 i) as (st2 & es & m2 & H6 & H7 & H8 & H9);
    [cbn; lia|done|by rewrite H3| |].
  { rewrite H5, Hq. cbn [length]. rewrite Hpar. pose proof (Nat.mod_upper_bound (c + tid) 2).
    destruct (Nat.eqb_spec ((c + tid) mod 2) 0) as [E|E]; lia. }
  rewrite H6. cbn [mbind result_bind]. exists st2, ([e] ++ es), m2. split_and!; try done; [|rewrite length_app, H9; done].
  rewrite replay_events_app, H4. exact H8.
Qed.

(** ** Properties *)

(** C6: The whole program for one thread that runs alone, the kernel of a device making a whole pass over its slots between two polls of the thread.  After [main] has filled the queue with the initial keys
    [l], [ops_routine] of a thread runs its [num] operations to the end, alternating enqueues
    and dequeues, and the operations with their results are a run of a sequential FIFO
    queue that starts with [l], for every number of operations, the devices being
    reused in a cycle.  The condition is that the number of initial keys is more than the [n] elements of a segment, so that the head and the tail are
    on different devices, and less than what all devices but one hold, so that a fresh one is always left; with fewer or more keys the order of a queue is not claimed. *)
Theorem pim_queue_program T n f max l st tid num keys : Forall (fresh T n) (parts st) -> (tid < T)%nat ->
  max / 4 = n -> 0 < n < 2 ^ 30 -> n < Z.of_nat (length l) < n * (Z.of_nat (length (parts st)) - 1) ->
  (num <= length keys)%nat ->
  exists st1 st2 es m, main_setup (S (S (S f))) max (length l) l st = Ok st1 /\
    ops_routine (S num) (S (S f)) tid 0 num keys 0 st1 = Ok (st2, es) /\
    length es = num /\ ring T n m st2 /\ replay l es = Some (queue m st2).
Proof.
  intros Hf Ht Hn Hb Hl Hk. destruct (setup_ok T n f max l st Hf ltac:(lia) Hn Hb) as (st1 & m & H1 & H2 & H3 & H4); [nia|].
  pose proof (Nat.mod_upper_bound (0 + tid) 2 ltac:(lia)) as Hp.
  destruct (ops_routine_ok T n f tid num keys (length l - (0 + tid) mod 2) Hk Ht num 0 m st1 0)
    as (st2 & es & m2 & H5 & H6 & H7 & H8); [done|done|rewrite H3; lia|rewrite H4; lia|].
  exists st1, st2, es, m2. rewrite H4 in H7. by split_and!.
Qed.

(** ** Examples *)

(** Four sleeping devices with room for two elements. *)
Definition ex_fresh : pq :=
  let k := mkKQ 0 0 0 0 0 0 (<[BLOCK_BASE_ADDR := 0]> {[ BLOCK_BASE_ADDR + 4 := 0 ]}) no_requests false in mkPQ [k; k; k; k] 0 0.

Lemma ex_fresh_ok : Forall (fresh 2 2) (parts ex_fresh).
Proof.
  repeat constructor; cbn; try done; try (intros [|[|[|j]]]; reflexivity);
    intros i Hi; assert (i = 0 \/ i = 1) as [-> | ->] by lia; vm_compute; eauto.
Qed.

Lemma pim_queue_program_witness :
  exists st1 st2 es m, main_setup 3 8 3 [10; 11; 12] ex_fresh = Ok st1 /\
    ops_routine 8 2 1 0 7 [1; 2; 3; 4; 5; 6; 7] 0 st1 = Ok (st2, es) /\ replay [10; 11; 12] es = Some (queue m st2).
Proof.
  destruct (pim_queue_program 2 2 0 8 [10; 11; 12] ex_fresh 1 7 [1; 2; 3; 4; 5; 6; 7] ex_fresh_ok)
    as (st1 & st2 & es & m & H1 & H2 & _ & _ & H3); [lia|done|lia|cbn; lia|cbn; lia|].
  exists st1, st2, es, m. by split_and!.
Defined.
