(* ===== verification/Handshake.v ===== *)
(** * The handshake between the host and the resident code of the device

    Models [start_computation] and [wait_for_completion] of
    src/SMC/SW/HOST/api/pim_api.cc, the main loop of src/SMC/SW/PIM/resident/resident.c
    with [new_command_received], [execute_command] and [command_done] of utils.h, and what
    a write to the interrupt register does to the processor of the device
    (ethz_pim_memory.cc).  Every access to the status or the command register is a step,
    and the steps of the two sides interleave freely.  The theorems show that the
    assertions of the resident code never fail and every command is executed exactly once
    before the host goes on, that a command given to a sleeping device is completed, and
    that a wake-up before the device sleeps is lost. *)

From S2P Require Import Prelude.

(** ** Registers *)

Definition PIM_COMMAND_NOP : Z := 0x4E.         (* N *)
Definition PIM_COMMAND_HALT : Z := 0x48.        (* H *)
Definition PIM_COMMAND_DEMO : Z := 0x44.        (* D *)
Definition PIM_COMMAND_RUN_KERNEL : Z := 0x4B.  (* K *)
Definition PIM_STATUS_SLEEP : Z := 0x53.        (* S *)
Definition PIM_STATUS_BUSY : Z := 0x42.         (* B *)
Definition PIM_STATUS_DONE : Z := 0x44.         (* D *)

(** ** Program points *)

(** The host: outside, polling for SLEEP, giving the command, waking the device up,
    started, polling for DONE, giving NOP. *)
Inductive host_pc :=
  | H_idle
  | H_check_sleep (cmd : Z)
  | H_give (cmd : Z)
  | H_wake (cmd : Z)
  | H_started (cmd : Z)
  | H_check_done (cmd : Z)
  | H_nop (cmd : Z).

(** The device: before [wfi], suspended by it, the test of the command register and the
    assertion of [new_command_received], setting BUSY, the switch of [execute_command],
    running a command, the assertions of [command_done], setting DONE, waiting for NOP,
    clearing the interrupt, setting SLEEP.  [P_error]: [pim_error] was called, which makes
    the simulator exit. *)
Inductive pim_pc :=
  | P_wfi | P_suspended | P_command | P_assert_sleep | P_busy | P_switch | P_run (cmd : Z)
  | P_assert_busy | P_assert_command | P_done | P_wait | P_cli | P_sleep | P_error.

(** [irq] is the pending interrupt; [starts] and [runs] record the commands given and
    executed, latest first. *)
Record hs := mkHS {
  status_reg : Z; command_reg : Z; irq : bool; host : host_pc; pim : pim_pc;
  starts : list Z; runs : list Z;
}.

Definition at_host (st : hs) (h : host_pc) : hs :=
  mkHS (status_reg st) (command_reg st) (irq st) h (pim st) (starts st) (runs st).
Definition at_pim (st : hs) (p : pim_pc) : hs :=
  mkHS (status_reg st) (command_reg st) (irq st) (host st) p (starts st) (runs st).
Definition put_status (st : hs) (v : Z) : hs :=
  mkHS v (command_reg st) (irq st) (host st) (pim st) (starts st) (runs st).
Definition put_command (st : hs) (v : Z) : hs :=
  mkHS (status_reg st) v (irq st) (host st) (pim st) (starts st) (runs st).
Definition put_irq (st : hs) (b : bool) : hs :=
  mkHS (status_reg st) (command_reg st) b (host st) (pim st) (starts st) (runs st).

(** A write to PIM_INTR: [postInterrupt], which activates a suspended processor, and at
    once [clearInterrupt]. *)
Definition interrupt (st : hs) : hs :=
  put_irq (match pim st with P_suspended => at_pim st P_command | _ => st end) false.

(** One step of the host inside [start_computation] or [wait_for_completion]. *)
Definition host_next (st : hs) : option hs :=
  match host st with
  | H_idle => None
  | H_check_sleep cmd =>
      Some (if status_reg st =? PIM_STATUS_SLEEP then at_host st (H_give cmd) else st)
  | H_give cmd =>
      let st1 := at_host (put_command st cmd) (H_wake cmd) in
      Some (mkHS (status_reg st1) (command_reg st1) (irq st1) (host st1) (pim st1)
                 (cmd :: starts st1) (runs st1))
  | H_wake cmd => Some (at_host (interrupt st) (H_started cmd))
  | H_started cmd => Some (at_host st (H_check_done cmd))
  | H_check_done cmd =>
      Some (if status_reg st =? PIM_STATUS_DONE then at_host st (H_nop cmd) else st)
  | H_nop cmd => Some (at_host (put_command st PIM_COMMAND_NOP) H_idle)
  end.

(** One step of the device; [b] is the pending interrupt that a run leaves behind. *)
Definition pim_next (b : bool) (st : hs) : option hs :=
  match pim st with
  | P_wfi => Some (at_pim st (if irq st then P_command else P_suspended))
  | P_suspended => None
  | P_command =>
      Some (at_pim st (if command_reg st =? PIM_COMMAND_NOP then P_error else P_assert_sleep))
  | P_assert_sleep =>
      Some (at_pim st (if status_reg st =? PIM_STATUS_SLEEP then P_busy else P_error))
  | P_busy => Some (at_pim (put_status st PIM_STATUS_BUSY) P_switch)
  | P_switch =>
      let c := command_reg st in
      Some (at_pim st (if (c =? PIM_COMMAND_DEMO) || (c =? PIM_COMMAND_RUN_KERNEL) then P_run c
                       else P_error))
  | P_run cmd =>
      let st1 := put_irq (at_pim st P_assert_busy) b in
      Some (mkHS (status_reg st1) (command_reg st1) (irq st1) (host st1) (pim st1) (starts st1)
                 (cmd :: runs st1))
  | P_assert_busy =>
      Some (at_pim st (if status_reg st =? PIM_STATUS_BUSY then P_assert_command else P_error))
  | P_assert_command =>
      Some (at_pim st (if command_reg st =? PIM_COMMAND_NOP then P_error else P_done))
  | P_done => Some (at_pim (put_status st PIM_STATUS_DONE) P_wait)
  | P_wait => Some (if command_reg st =? PIM_COMMAND_NOP then at_pim st P_cli else st)
  | P_cli => Some (at_pim (put_irq st false) P_sleep)
  | P_sleep => Some (at_pim (put_status st PIM_STATUS_SLEEP) P_wfi)
  | P_error => None
  end.

(** The host starts a computation when it is outside. *)
Inductive hs_step : hs -> hs -> Prop :=
  | hs_start st cmd : host st = H_idle ->
      cmd = PIM_COMMAND_RUN_KERNEL \/ cmd = PIM_COMMAND_DEMO ->
      hs_step st (at_host st (H_check_sleep cmd))
  | hs_host st st' : host_next st = Some st' -> hs_step st st'
  | hs_pim b st st' : pim_next b st = Some st' -> hs_step st st'.

(** After [initialize_registers]. *)
Definition hs_init : hs :=
  mkHS PIM_STATUS_SLEEP PIM_COMMAND_NOP false H_idle P_wfi [] [].

(** ** The invariant *)

Definition host_cmd (h : host_pc) : option Z :=
  match h with
  | H_idle | H_check_sleep _ | H_give _ => None
  | H_wake c | H_started c | H_check_done c | H_nop c => Some c
  end.
(** The command the host is busy with, given or not. *)
Definition legal_host (h : host_pc) : Prop :=
  match h with
  | H_idle => True
  | H_check_sleep c | H_give c | H_wake c | H_started c | H_check_done c | H_nop c =>
      c = PIM_COMMAND_RUN_KERNEL \/ c = PIM_COMMAND_DEMO
  end.
Definition running (h : host_pc) : bool :=
  match h with H_started _ | H_check_done _ => true | _ => false end.

(** What the two program points imply of each other, of the status register and of the
    records. *)
Definition points_ok (st : hs) : Prop :=
  match pim st with
  | P_wfi | P_suspended =>
      status_reg st = PIM_STATUS_SLEEP /\ irq st = false /\
      match host st with
      | H_idle | H_check_sleep _ | H_give _ => runs st = starts st
      | H_wake c | H_started c | H_check_done c => c :: runs st = starts st
      | H_nop _ => False
      end
  | P_command | P_assert_sleep | P_busy =>
      status_reg st = PIM_STATUS_SLEEP /\ running (host st) = true /\
      exists c, host_cmd (host st) = Some c /\ c :: runs st = starts st
  | P_switch =>
      status_reg st = PIM_STATUS_BUSY /\ running (host st) = true /\
      exists c, host_cmd (host st) = Some c /\ c :: runs st = starts st
  | P_run c =>
      status_reg st = PIM_STATUS_BUSY /\ running (host st) = true /\
      host_cmd (host st) = Some c /\ c :: runs st = starts st
  | P_assert_busy | P_assert_command | P_done =>
      status_reg st = PIM_STATUS_BUSY /\ running (host st) = true /\ runs st = starts st
  | P_wait =>
      status_reg st = PIM_STATUS_DONE /\ runs st = starts st /\
      match host st with H_give _ | H_wake _ => False | _ => True end
  | P_cli =>
      status_reg st = PIM_STATUS_DONE /\ runs st = starts st /\
      match host st with H_idle | H_check_sleep _ => True | _ => False end
  | P_sleep =>
      status_reg st = PIM_STATUS_DONE /\ runs st = starts st /\ irq st = false /\
      match host st with H_idle | H_check_sleep _ => True | _ => False end
  | P_error => False
  end.

Definition hs_inv (st : hs) : Prop :=
  legal_host (host st) /\ command_reg st = default PIM_COMMAND_NOP (host_cmd (host st)) /\ points_ok st.

Lemma legal_cmd c : c = PIM_COMMAND_RUN_KERNEL \/ c = PIM_COMMAND_DEMO -> c <> PIM_COMMAND_NOP.
Proof. by intros [->| ->]. Qed.

Lemma hs_inv_step st st' : hs_inv st -> hs_step st st' -> hs_inv st'.
Proof.
  intros (Hl & Hc & Hp) Hs. destruct Hs as [st cmd Hi Hcmd|st st' H|b st st' H].
  - destruct st as [sr cr iq h p ss rs]. simpl in *. subst h. by split_and!.
  - destruct st as [sr cr iq h p ss rs]. unfold host_next in H. simpl in *. unfold hs_inv, points_ok in *.
    destruct h as [|c|c|c|c|c|c]; simpl in *; simplify_eq;
      try (case_match eqn:E; try apply Z.eqb_eq in E); destruct p; simpl in *;
      repeat match goal with H : _ /\ _ |- _ => destruct H | H : ex _ |- _ => destruct H end;
      simplify_eq/=; try done; try (split_and!; eauto; done); try (by split_and!; eauto).
  - destruct st as [sr cr iq h p ss rs]. unfold pim_next in H. simpl in *. unfold hs_inv, points_ok in *.
    destruct p as [| | | | | |c0| | | | | | |]; simpl in *; simplify_eq;
      destruct h as [|c|c|c|c|c|c]; simpl in *;
      repeat match goal with H : _ /\ _ |- _ => destruct H | H : ex _ |- _ => destruct H end;
      simplify_eq/=; try done;
      try (pose proof (legal_cmd _ Hl) as Hn; apply Z.eqb_neq in Hn; rewrite ?Hn; simpl);
      try (by split_and!; eauto).
  all: destruct Hl as [->| ->]; by split_and!; eauto.
Qed.

Lemma hs_inv_reachable st : rtc hs_step hs_init st -> hs_inv st.
Proof.
  intros H. eapply (rtc_ind_r hs_inv hs_init); [|..|exact H].
  - by split_and!.
  - intros y z _ Hs Hy. by eapply hs_inv_step.
Qed.

(** [n] steps of the device alone. *)
Fixpoint pim_run (bs : list bool) (st : hs) : option hs :=
  match bs with [] => Some st | b :: bs' => pim_next b st ≫= pim_run bs' end.

(** A woken device executes the command and sets DONE. *)
Lemma pim_serves c h ss rs b1 b2 b3 b4 b5 b6 b7 b8 :
  c = PIM_COMMAND_RUN_KERNEL \/ c = PIM_COMMAND_DEMO ->
  pim_run [b1; b2; b3; b4; b5; b6; b7; b8] (mkHS PIM_STATUS_SLEEP c false h P_command ss rs) =
  Some (mkHS PIM_STATUS_DONE c b5 h P_wait ss (c :: rs)).
Proof. by intros [->| ->]. Qed.

(** After NOP it goes back to sleep. *)
Lemma pim_sleeps b h ss rs b1 b2 b3 b4 :
  pim_run [b1; b2; b3; b4] (mkHS PIM_STATUS_DONE PIM_COMMAND_NOP b h P_wait ss rs) =
  Some (mkHS PIM_STATUS_SLEEP PIM_COMMAND_NOP false h P_suspended ss rs).
Proof. done. Qed.

(** ** Properties *)

(** C29: The handshake is safe.  In every reachable state, whatever the interleaving, no
    assertion of the resident code has failed and no illegal command was met; the
    commands executed are those given, in order, or all of them but the last one, which
    is not executed yet; and when the host is outside, all of them were executed. *)
Theorem handshake_exactly_once st :
  rtc hs_step hs_init st ->
  pim st <> P_error /\
  (runs st = starts st \/ exists c, starts st = c :: runs st) /\
  (host st = H_idle -> runs st = starts st).
Proof.
  intros (_ & _ & Hp)%hs_inv_reachable. unfold points_ok in Hp. destruct st as [sr cr iq h p ss rs]. simpl in *.
  destruct p; simpl in *; try done;
    repeat match goal with H : _ /\ _ |- _ => destruct H | H : ex _ |- _ => destruct H end;
    (split; [done|]); destruct h; simpl in *; simplify_eq; try done; (split; [eauto|done]).
Qed.

(** A command given to a sleeping device is completed.  If the device is suspended when
    the host wakes it up, the device alone executes the command and sets DONE; the host
    then sees it and gives NOP, and the device alone goes back to sleep, with the command
    recorded as executed. *)
Theorem handshake_completes st c bs1 bs2 :
  rtc hs_step hs_init st -> host st = H_wake c -> pim st = P_suspended ->
  length bs1 = 8%nat -> length bs2 = 4%nat ->
  exists st1 st2 st3 st4 st5 st6,
    host_next st = Some st1 /\ pim_run bs1 st1 = Some st2 /\
    host_next st2 = Some st3 /\ host_next st3 = Some st4 /\ host_next st4 = Some st5 /\
    host st5 = H_idle /\ pim_run bs2 st5 = Some st6 /\
    status_reg st6 = PIM_STATUS_SLEEP /\ pim st6 = P_suspended /\ runs st6 = c :: runs st.
Proof.
  intros (Hl & Hc & Hp)%hs_inv_reachable Hh Hs L1 L2. destruct st as [sr cr iq h p ss rs]. simpl in *. subst h p.
  unfold points_ok in Hp. simpl in *. destruct Hp as (-> & -> & E). subst cr.
  do 8 (destruct bs1 as [|? bs1]; [done|]). destruct bs1; [|done].
  do 4 (destruct bs2 as [|? bs2]; [done|]). destruct bs2; [|done].
  do 2 eexists. exists (mkHS PIM_STATUS_DONE c b3 (H_check_done c) P_wait ss (c :: rs)).
  exists (mkHS PIM_STATUS_DONE c b3 (H_nop c) P_wait ss (c :: rs)).
  exists (mkHS PIM_STATUS_DONE PIM_COMMAND_NOP b3 H_idle P_wait ss (c :: rs)). eexists.
  split; [reflexivity|]. split; [by apply pim_serves|]. do 4 (split; [reflexivity|]).
  split; [apply pim_sleeps|]. done.
Qed.

(** A lost wake-up.  SLEEP is set before the device executes [wfi].  If the host sees it
    and triggers the interrupt in between, the interrupt is cleared before the device
    sleeps: the host then polls for DONE and the device is suspended with the command
    unread, and no step leads out of this state. *)
Theorem handshake_lost_wakeup :
  exists st, rtc hs_step hs_init st /\
    host st = H_check_done PIM_COMMAND_RUN_KERNEL /\ pim st = P_suspended /\ runs st = [] /\
    forall st', rtc hs_step st st' -> st' = st.
Proof.
  set (k := PIM_COMMAND_RUN_KERNEL).
  exists (mkHS PIM_STATUS_SLEEP k false (H_check_done k) P_suspended [k] []). split_and!; try done.
  - do 5 (eapply rtc_l; [first [by apply (hs_start _ k); [|left]|by apply hs_host]|]).
    eapply rtc_l; [by apply (hs_pim false)|]. apply rtc_refl.
  - intros st' H. remember (mkHS _ _ _ _ _ _ _) as st eqn:Est. induction H as [|x y z Hs _ IH]; [done|].
    subst x. assert (Hy : y = mkHS PIM_STATUS_SLEEP k false (H_check_done k) P_suspended [k] [])
      by (inversion Hs as [? ? E|? ? E|? ? ? E]; [discriminate E|vm_compute in E; by simplify_eq|discriminate E]).
    rewrite <- Hy. by apply IH.
Qed.

(** ** Instances of the properties *)

(** The device sleeps, then the host starts a kernel. *)
Definition hs_demo : hs :=
  mkHS PIM_STATUS_SLEEP PIM_COMMAND_RUN_KERNEL false (H_wake PIM_COMMAND_RUN_KERNEL) P_suspended
       [PIM_COMMAND_RUN_KERNEL] [].

Lemma hs_demo_reachable : rtc hs_step hs_init hs_demo.
Proof.
  eapply rtc_l; [by apply (hs_pim false)|]. eapply rtc_l; [by apply (hs_start _ PIM_COMMAND_RUN_KERNEL); [|left]|].
  do 2 (eapply rtc_l; [by apply hs_host|]). apply rtc_refl.
Qed.

Lemma handshake_exactly_once_witness :
  pim hs_demo <> P_error /\ starts hs_demo = [PIM_COMMAND_RUN_KERNEL].
Proof.
  split; [|reflexivity]. apply (handshake_exactly_once hs_demo). exact hs_demo_reachable.
Defined.

Lemma handshake_completes_witness :
  exists st6, runs st6 = [PIM_COMMAND_RUN_KERNEL] /\ pim st6 = P_suspended.
Proof.
  destruct (handshake_completes hs_demo PIM_COMMAND_RUN_KERNEL (replicate 8 true) (replicate 4 false))
    as (st1 & st2 & st3 & st4 & st5 & st6 & _ & _ & _ & _ & _ & _ & _ & _ & H1 & H2).
  - exact hs_demo_reachable.
  - reflexivity.
  - reflexivity.
  - reflexivity.
  - reflexivity.
  - exists st6. split; [exact H2|exact H1].
Defined.
