(* ===== verification/PimApi.v ===== *)
(** * The host's access to the device: registers, request slots and kernel images

    Models the accessors of src/SMC/SW/HOST/api/pim_api.cc (class PIMAPI) on the bytes of
    the mapped device, the loader [offload_kernel] of a kernel image, and the script
    src/SMC/UTILS/dump_hex.py that writes such images.  The theorems show that the
    accessors of the request slots implement the fields of the slot records that the
    kernels use (PimSkip.v), that registers and vectors round-trip, and that loading the
    text that the script writes puts the bytes of the binary at their addresses. *)

From Stdlib Require Import Ascii String.
From S2P Require Import Prelude PimSkip.

(** ** The mapped device *)

(** The bytes at their offsets from [pim_va]; an access outside the map is undefined. *)
Abbreviation device := (gmap Z Z).

Definition ldb (m : device) (a : Z) : result Z := of_opt (m !! a).
Definition stb (m : device) (a v : Z) : result device :=
  _ ← of_opt (m !! a); Ok (<[a := u8 v]> m).

(** [n] bytes, lowest first. *)
Fixpoint ldn (m : device) (a : Z) (n : nat) : result Z :=
  match n with
  | O => Ok 0
  | S n' => b ← ldb m a; r ← ldn m (a + 1) n'; Ok (b + 256 * r)
  end.
Fixpoint stn (m : device) (a v : Z) (n : nat) : result device :=
  match n with
  | O => Ok m
  | S n' => m1 ← stb m a v; stn m1 (a + 1) (v / 256) n'
  end.

(** [memcpy] between the device and a buffer. *)
Fixpoint copy_to (m : device) (a : Z) (l : list Z) : result device :=
  match l with [] => Ok m | b :: l' => m1 ← stb m a b; copy_to m1 (a + 1) l' end.
Fixpoint copy_from (m : device) (a : Z) (n : nat) : result (list Z) :=
  match n with
  | O => Ok []
  | S n' => b ← ldb m a; l ← copy_from m (a + 1) n'; Ok (b :: l)
  end.

(** ** Registers and request slots *)

Definition REQUEST_SLOT_SIZE : Z := 8.
Definition INFO_BITS_OFFSET : Z := 0.
Definition RANDOM_LEVEL_OFFSET : Z := 1.
Definition TIMESTAMP_OFFSET : Z := 2.
Definition PARAMETER_OFFSET : Z := 4.

Section api.
(** The offsets of the registers, and the size of the vector register, which the build
    takes from the resident code. *)
Context (PIM_VREG PIM_SREG PIM_STATUS_REG PIM_COMMAND_REG PIM_M5_REG PIM_INTR_REG : Z).
Context (PIM_VREG_SIZE : nat).

Definition write_vreg (m : device) (value : list Z) : result device := copy_to m PIM_VREG value.
Definition read_vreg (m : device) : result (list Z) := copy_from m PIM_VREG PIM_VREG_SIZE.
Definition write_sreg (m : device) (index value : Z) : result device :=
  stn m (PIM_SREG + 4 * index) value 4.
Definition read_sreg (m : device) (index : Z) : result Z := ldn m (PIM_SREG + 4 * index) 4.
Definition write_byte (m : device) (offset data : Z) : result device := stb m offset data.
Definition read_byte (m : device) (offset : Z) : result Z := ldb m offset.
Definition check_status (m : device) : result Z := read_byte m PIM_STATUS_REG.
Definition give_command (m : device) (command : Z) : result device := write_byte m PIM_COMMAND_REG command.
Definition give_m5_command (m : device) (command : Z) : result device := write_byte m PIM_M5_REG command.
Definition wake_up (m : device) : result device := write_byte m PIM_INTR_REG 1.
Definition record_time_stamp (m : device) (ID : Z) : result device := give_m5_command m (u8 (0x30 + ID)).

Definition slot_field (slot off : Z) : Z := PIM_VREG + slot * REQUEST_SLOT_SIZE + off.
Definition write_info_bits (m : device) (infobits slot : Z) : result device :=
  stn m (slot_field slot INFO_BITS_OFFSET) infobits 2.
Definition write_skiplist_info_bits (m : device) (infobits slot : Z) : result device :=
  stn m (slot_field slot INFO_BITS_OFFSET) infobits 1.
Definition write_skiplist_random_level (m : device) (level slot : Z) : result device :=
  stn m (slot_field slot RANDOM_LEVEL_OFFSET) level 1.
Definition read_info_bits (m : device) (slot : Z) : result Z := ldn m (slot_field slot INFO_BITS_OFFSET) 2.
Definition read_skiplist_info_bits (m : device) (slot : Z) : result Z :=
  ldn m (slot_field slot INFO_BITS_OFFSET) 1.
Definition read_timestamp (m : device) (slot : Z) : result Z := ldn m (slot_field slot TIMESTAMP_OFFSET) 2.
Definition write_parameter (m : device) (parameter slot : Z) : result device :=
  stn m (slot_field slot PARAMETER_OFFSET) parameter 4.
Definition read_parameter (m : device) (slot : Z) : result Z := ldn m (slot_field slot PARAMETER_OFFSET) 4.
End api.

(** ** Kernel images *)

Abbreviation text := (list ascii).
Definition txt (s : string) : text := list_ascii_of_string s.
Definition code (c : ascii) : Z := Z.of_nat (nat_of_ascii c).
Definition chr (z : Z) : ascii := ascii_of_nat (Z.to_nat z).

(** White space as [isspace] has it. *)
Definition is_space (c : ascii) : bool := ((9 <=? code c) && (code c <=? 13)) || (code c =? 32).
Definition newline : ascii := chr 10.

(** [std::getline]: the lines of a file. *)
Fixpoint lines_go (t acc : text) : list text :=
  match t with
  | [] => match acc with [] => [] | _ => [reverse acc] end
  | c :: t' => if decide (c = newline) then reverse acc :: lines_go t' [] else lines_go t' (c :: acc)
  end.
Definition lines (t : text) : list text := lines_go t [].

(** [iss >> term]: the words of a line. *)
Fixpoint terms_go (t acc : text) : list text :=
  match t with
  | [] => match acc with [] => [] | _ => [reverse acc] end
  | c :: t' =>
      if is_space c then
        match acc with [] => terms_go t' [] | _ => reverse acc :: terms_go t' [] end
      else terms_go t' (c :: acc)
  end.
Definition terms (t : text) : list text := terms_go t [].

(** The value of a digit of base up to 16. *)
Definition digit_val (c : ascii) : option Z :=
  let z := code c in
  if (48 <=? z) && (z <=? 57) then Some (z - 48)
  else if (97 <=? z) && (z <=? 102) then Some (z - 87)
  else if (65 <=? z) && (z <=? 70) then Some (z - 55)
  else None.

(** The number that the digits up to the first other character form after [v]. *)
Fixpoint scan_digits (base : Z) (t : text) (v : Z) : Z :=
  match t with
  | [] => v
  | c :: t' =>
      match digit_val c with
      | Some d => if d <? base then scan_digits base t' (base * v + d) else v
      | None => v
      end
  end.

(** An optional sign. *)
Definition split_sign (t : text) : Z * text :=
  match t with
  | c :: t' => if code c =? 45 then (-1, t') else if code c =? 43 then (1, t') else (1, t)
  | [] => (1, t)
  end.

(** [atoi]; a value that is no [int] is undefined behaviour. *)
Definition atoi (t : text) : result Z :=
  let '(s, t') := split_sign t in
  let v := s * scan_digits 10 t' 0 in
  if (- 2 ^ 31 <=? v) && (v <=? INT_MAX) then Ok v else UB.

(** [strtol] with base 16, which saturates. *)
Definition strip_0x (t : text) : text :=
  match t with
  | c :: x :: d :: t' =>
      if (code c =? 48) && ((code x =? 120) || (code x =? 88)) && bool_decide (is_Some (digit_val d))
      then d :: t' else t
  | _ => t
  end.
Definition strtol16 (t : text) : Z :=
  let '(s, t') := split_sign t in
  let v := s * scan_digits 16 (strip_0x t') 0 in
  Z.min INT_MAX (Z.max (- 2 ^ 31) v).

(** The variables of [offload_kernel]; load_size exists in debug builds only. *)
Record loader := mkLoader {
  ld_mem : device; load_offset : Z; load_size : Z; num_bytes : Z; stat_offload_size : Z;
}.

Section loader.
Context (DEBUG_API : bool).

(** ASSERT_DBG; a program that exits here does not return from the call, which [UB] stands for. *)
Definition assert_dbg (cond : bool) : result unit := if DEBUG_API && negb cond then UB else Ok tt.

(** The loop over the terms of a line.  When no word follows @ADDR or @SIZE, [term] keeps
    its value. *)
Fixpoint load_terms (fuel : nat) (ts : list text) (st : loader) : result loader :=
  match fuel with
  | O => NoFuel
  | S fuel' =>
      match ts with
      | [] => Ok st
      | t :: ts' =>
          if decide (t = txt "@ADDR") then
            a ← atoi (head_or t ts');
            load_terms fuel' (tail ts')
              (mkLoader (ld_mem st) (u32 a) (load_size st) (num_bytes st) (stat_offload_size st))
          else if decide (t = txt "@SIZE") then
            if DEBUG_API then
              z ← atoi (head_or t ts');
              load_terms fuel' (tail ts')
                (mkLoader (ld_mem st) (load_offset st) (u32 z) (num_bytes st) (stat_offload_size st))
            else load_terms fuel' (tail ts') st
          else if decide (t = txt "@END") then
            _ ← assert_dbg (num_bytes st =? load_size st);
            load_terms fuel' ts' (mkLoader (ld_mem st) (load_offset st) (load_size st) 0 (stat_offload_size st))
          else
            m ← write_byte (ld_mem st) (load_offset st) (u8 (strtol16 t));
            load_terms fuel' ts'
              (mkLoader m (u32 (load_offset st + 1)) (load_size st) (u32 (num_bytes st + 1))
                        (u32 (stat_offload_size st + 1)))
      end
  end.

Fixpoint load_lines (ls : list text) (st : loader) : result loader :=
  match ls with
  | [] => Ok st
  | l :: ls' => st1 ← load_terms (S (List.length l)) (terms l) st; load_lines ls' st1
  end.

(** [offload_kernel] on the text of the file; [stat0] is the statistics counter. *)
Definition offload_kernel (m : device) (stat0 : Z) (t : text) : result loader :=
  load_lines (lines t) (mkLoader m UINT32_MAX UINT32_MAX 0 stat0).
End loader.

(** ** The writer of images *)

(** A digit 0-9a-f, and [b.encode("hex")]. *)
Definition digit (d : Z) : ascii := chr (if d <? 10 then 48 + d else 87 + d).
Definition hex2 (b : Z) : text := [digit (b / 16); digit (b mod 16)].

(** [str] of a number. *)
Fixpoint dec_go (fuel : nat) (n : Z) (acc : text) : text :=
  match fuel with
  | O => acc
  | S fuel' =>
      let acc' := digit (n mod 10) :: acc in
      if n <? 10 then acc' else dec_go fuel' (n / 10) acc'
  end.
Definition dec (n : Z) : text := dec_go (S (Z.to_nat (Z.log2 n))) n [].

(** The loop that reads the file byte by byte: CODE and count. *)
Fixpoint dump_loop (src : list Z) (index O S : Z) (acc : text) (count : Z) : text * Z :=
  match src with
  | [] => (acc, count)
  | b :: src' =>
      let '(acc1, count1) :=
        if O <=? index then (acc ++ hex2 b ++ txt " ", count + 1) else (acc, count) in
      if O + S - 1 <=? index then (acc1, count1)
      else dump_loop src' (index + 1) O S acc1 count1
  end.

(** What the script appends for a file [src], an offset in it, an address and a size; [None]
    if the size does not match. *)
Definition dump_hex (src : list Z) (O A S : Z) : option text :=
  let '(CODE, count) := dump_loop src 0 O S [] 0 in
  if count =? S then
    Some (txt "@ADDR " ++ dec A ++ [newline] ++ txt "@SIZE " ++ dec S ++ [newline] ++
          CODE ++ txt "@END" ++ [newline])
  else None.

(** ** Digits and numbers *)

Lemma digit_facts d : 0 <= d < 16 ->
  digit_val (digit d) = Some d /\ is_space (digit d) = false /\ digit d <> newline /\
  code (digit d) <> 64 /\ code (digit d) <> 45 /\ code (digit d) <> 43 /\
  code (digit d) <> 120 /\ code (digit d) <> 88.
Proof.
  intros Hd. assert (Hc : d ∈ seqZ 0 16) by (apply elem_of_seqZ; lia).
  revert Hc. vm_compute seqZ. rewrite !elem_of_cons.
  intros H. repeat (destruct H as [->|H]; [by vm_compute|]). set_solver.
Qed.

Lemma scan_digit base d t v : 0 <= d < base -> base <= 16 ->
  scan_digits base (digit d :: t) v = scan_digits base t (base * v + d).
Proof.
  intros Hd Hb. destruct (digit_facts d ltac:(lia)) as [E _]. cbn [scan_digits]. rewrite E.
  by rewrite (proj2 (Z.ltb_lt d base)) by lia.
Qed.

Lemma scan_dec fuel : forall n acc, 0 <= n < 10 ^ Z.of_nat fuel ->
  scan_digits 10 (dec_go fuel n acc) 0 = scan_digits 10 acc n.
Proof.
  induction fuel as [|fuel IH]; intros n acc Hn; [simpl in Hn; by replace n with 0 by lia|].
  cbn [dec_go]. pose proof (Z.mod_pos_bound n 10 ltac:(lia)). destruct (Z.ltb_spec n 10).
  - rewrite scan_digit by lia. f_equal. rewrite Z.mod_small; lia.
  - rewrite IH.
    + rewrite scan_digit by lia. f_equal. pose proof (Z.div_mod n 10). lia.
    + rewrite Nat2Z.inj_succ, Z.pow_succ_r in Hn by lia. split; [apply Z.div_pos; lia|].
      apply Z.div_lt_upper_bound; lia.
Qed.

Lemma dec_go_chars fuel : forall n acc, 0 <= n -> exists ds,
  dec_go fuel n acc = ds ++ acc /\ Forall (fun c => exists d, 0 <= d < 10 /\ c = digit d) ds /\
  (fuel <> 0%nat -> ds <> []).
Proof.
  induction fuel as [|fuel IH]; intros n acc Hn; [by exists []|].
  cbn [dec_go]. pose proof (Z.mod_pos_bound n 10 ltac:(lia)).
  assert (Hd : exists d, 0 <= d < 10 /\ digit (n mod 10) = digit d) by eauto.
  destruct (n <? 10); [exists [digit (n mod 10)]; split_and!; [done|by repeat constructor|done]|].
  destruct (IH (n / 10) (digit (n mod 10) :: acc)) as (ds & -> & Hds & _); [apply Z.div_pos; lia|].
  exists (ds ++ [digit (n mod 10)]). rewrite <- app_assoc. split_and!; [done|apply Forall_app; by repeat constructor|].
  intros _. by destruct ds.
Qed.

Lemma dec_chars n : 0 <= n ->
  dec n <> [] /\ Forall (fun c => exists d, 0 <= d < 10 /\ c = digit d) (dec n).
Proof.
  intros Hn. unfold dec. destruct (dec_go_chars (S (Z.to_nat (Z.log2 n))) n [] Hn) as (ds & -> & Hds & Hne).
  rewrite app_nil_r. split; [by apply Hne|done].
Qed.

Lemma atoi_dec n : 0 <= n <= INT_MAX -> atoi (dec n) = Ok n.
Proof.
  intros Hn. destruct (dec_chars n ltac:(lia)) as [Hne Hds]. unfold atoi.
  destruct (dec n) as [|c t] eqn:E; [done|]. apply Forall_cons in Hds as [(d & Hd & ->) _].
  destruct (digit_facts d ltac:(lia)) as (_ & _ & _ & _ & H1 & H2 & _). cbn [split_sign].
  rewrite (proj2 (Z.eqb_neq _ 45)), (proj2 (Z.eqb_neq _ 43)) by done. rewrite <- E. unfold dec. rewrite scan_dec.
  - cbn [scan_digits]. rewrite Z.mul_1_l. rewrite (proj2 (Z.leb_le _ _)) by lia.
    by rewrite (proj2 (Z.leb_le n INT_MAX)) by lia.
  - split; [lia|]. rewrite Nat2Z.inj_succ, Z2Nat.id by apply Z.log2_nonneg.
    destruct (decide (n = 0)) as [->|]; [done|]. pose proof (Z.log2_spec n ltac:(lia)) as [_ Hu].
    eapply Z.lt_le_trans; [exact Hu|]. apply Z.pow_le_mono_l. lia.
Qed.

Lemma strtol_hex2 b : 0 <= b < 256 -> u8 (strtol16 (hex2 b)) = b.
Proof.
  intros Hb. pose proof (Z.mod_pos_bound b 16 ltac:(lia)) as Hm.
  assert (Hq : 0 <= b / 16 < 16) by (split; [apply Z.div_pos; lia|apply Z.div_lt_upper_bound; lia]).
  destruct (digit_facts (b / 16) Hq) as (_ & _ & _ & _ & H1 & H2 & _). unfold strtol16, hex2. cbn [split_sign].
  rewrite (proj2 (Z.eqb_neq _ 45)), (proj2 (Z.eqb_neq _ 43)) by done. cbn [strip_0x].
  rewrite !scan_digit by lia. cbn [scan_digits]. pose proof (Z.div_mod b 16).
  rewrite Z.mul_1_l, Z.max_r, Z.min_r by (unfold INT_MAX; lia). unfold u8. rewrite Z.mod_small; lia.
Qed.

(** ** Lines and terms *)

Lemma lines_cons l rest : Forall (fun c => c <> newline) l -> lines (l ++ [newline] ++ rest) = l :: lines rest.
Proof.
  intros Hl. unfold lines. assert (H : forall acc, lines_go (l ++ newline :: rest) acc = (reverse acc ++ l) :: lines_go rest []).
  { induction Hl as [|c l Hc _ IH]; intros acc; cbn [app lines_go].
    - by rewrite decide_True, app_nil_r.
    - rewrite decide_False by done. rewrite IH, reverse_cons. by rewrite <- app_assoc. }
  by rewrite H.
Qed.

Abbreviation word := (fun w : text => w <> [] /\ Forall (fun c => is_space c = false) w).

Lemma terms_word w acc rest : Forall (fun c => is_space c = false) w ->
  terms_go (w ++ rest) acc = terms_go rest (reverse w ++ acc).
Proof.
  intros Hw. revert acc. induction Hw as [|c w Hc _ IH]; intros acc; cbn [app terms_go]; [done|].
  rewrite Hc, IH, reverse_cons. by rewrite <- app_assoc.
Qed.

Lemma terms_cons w c rest : word w -> is_space c = true -> terms (w ++ c :: rest) = w :: terms rest.
Proof.
  intros [Hne Hw] Hc. unfold terms. rewrite terms_word, app_nil_r by done. cbn [terms_go]. rewrite Hc.
  destruct (reverse w) eqn:E; [apply (f_equal reverse) in E; by rewrite reverse_involutive in E|]. rewrite <- E, reverse_involutive. done.
Qed.

Lemma terms_one w : word w -> terms w = [w].
Proof.
  intros [Hne Hw]. unfold terms. rewrite <- (app_nil_r w) at 1. rewrite terms_word, app_nil_r by done. cbn [terms_go].
  destruct (reverse w) eqn:E; [apply (f_equal reverse) in E; by rewrite reverse_involutive in E|]. by rewrite <- E, reverse_involutive.
Qed.

Lemma dec_word n : 0 <= n -> word (dec n).
Proof.
  intros Hn. destruct (dec_chars n Hn) as [Hne Hds]. split; [done|]. eapply Forall_impl; [exact Hds|].
  simpl. intros c (d & Hd & ->). by destruct (digit_facts d ltac:(lia)) as (_ & ? & _).
Qed.

Lemma hex2_chars b : 0 <= b < 256 -> Forall (fun c => exists d, 0 <= d < 16 /\ c = digit d) (hex2 b).
Proof.
  intros Hb. pose proof (Z.mod_pos_bound b 16 ltac:(lia)).
  assert (0 <= b / 16 < 16) by (split; [apply Z.div_pos; lia|apply Z.div_lt_upper_bound; lia]).
  repeat constructor; eauto.
Qed.
Lemma hex2_word b : 0 <= b < 256 -> word (hex2 b).
Proof.
  intros Hb. split; [done|]. eapply Forall_impl; [by apply hex2_chars|].
  simpl. intros c (d & Hd & ->). by destruct (digit_facts d Hd) as (_ & ? & _).
Qed.

(** The bytes as the script writes them. *)
Definition hex_line (bs : list Z) : text := bs ≫= fun b => hex2 b ++ txt " ".

Lemma hex_line_cons b bs : hex_line (b :: bs) = hex2 b ++ chr 32 :: hex_line bs.
Proof. unfold hex_line. cbn. done. Qed.

Lemma terms_hex bs rest : Forall (fun b => 0 <= b < 256) bs ->
  terms (hex_line bs ++ rest) = (hex2 <$> bs) ++ terms rest.
Proof.
  induction 1 as [|b bs Hb _ IH]; [done|]. rewrite hex_line_cons, <- app_assoc. cbn [app fmap list_fmap].
  rewrite terms_cons; [by rewrite IH|by apply hex2_word|done].
Qed.

Lemma hex_line_no_newline bs : Forall (fun b => 0 <= b < 256) bs -> Forall (fun c => c <> newline) (hex_line bs).
Proof.
  induction 1 as [|b bs Hb _ IH]; [constructor|]. rewrite hex_line_cons. apply Forall_app. split.
  - eapply Forall_impl; [by apply hex2_chars|]. simpl. intros c (d & Hd & ->). by destruct (digit_facts d Hd) as (_ & _ & ? & _).
  - by constructor.
Qed.

(** The section of an image. *)
Definition section_text (A S : Z) (bs : list Z) : text :=
  txt "@ADDR " ++ dec A ++ [newline] ++ txt "@SIZE " ++ dec S ++ [newline] ++
  hex_line bs ++ txt "@END" ++ [newline].

Lemma section_lines A S bs rest : 0 <= A -> 0 <= S -> Forall (fun b => 0 <= b < 256) bs ->
  lines (section_text A S bs ++ rest) =
  (txt "@ADDR " ++ dec A) :: (txt "@SIZE " ++ dec S) :: (hex_line bs ++ txt "@END") :: lines rest.
Proof.
  intros HA HS Hbs. unfold section_text. rewrite <- !app_assoc.
  assert (Hdec : forall n, 0 <= n -> Forall (fun c => c <> newline) (dec n)).
  { intros n Hn. eapply Forall_impl; [apply (dec_chars n Hn)|]. simpl. intros c (d & Hd & ->).
    by destruct (digit_facts d ltac:(lia)) as (_ & _ & ? & _). }
  rewrite (app_assoc (txt "@ADDR ")), lines_cons by (apply Forall_app; split; [by repeat constructor|by apply Hdec]).
  rewrite (app_assoc (txt "@SIZE ")), lines_cons by (apply Forall_app; split; [by repeat constructor|by apply Hdec]).
  rewrite (app_assoc (hex_line bs)), lines_cons; [done|].
  apply Forall_app. split; [by apply hex_line_no_newline|by repeat constructor].
Qed.

(** ** Bytes *)

Lemma stb_ok m a v : is_Some (m !! a) -> stb m a v = Ok (<[a := u8 v]> m).
Proof. intros [x Hx]. unfold stb. by rewrite Hx. Qed.

Lemma u8_small v : 0 <= v < 256 -> u8 v = v.
Proof. intros H. unfold u8. by rewrite Z.mod_small. Qed.

Lemma copy_to_ok l : forall m a, Forall (fun b => 0 <= b < 256) l ->
  (forall i, a <= i < a + Z.of_nat (length l) -> is_Some (m !! i)) ->
  exists m', copy_to m a l = Ok m' /\ dom m' = dom m /\
    (forall i b, l !! i = Some b -> m' !! (a + Z.of_nat i) = Some b) /\
    (forall x, ~ a <= x < a + Z.of_nat (length l) -> m' !! x = m !! x).
Proof.
  induction l as [|b l IH]; intros m a Hb Hm; [by exists m|]. cbn [copy_to].
  apply Forall_cons in Hb as [Hb0 Hb]. cbn [length] in Hm. rewrite Nat2Z.inj_succ in Hm.
  pose proof (Hm a ltac:(lia)) as Ha. rewrite stb_ok, u8_small by done. cbn [mbind result_bind].
  destruct (IH (<[a := b]> m) (a + 1) Hb) as (m' & Hrun & Hdom & Hin & Hout).
  { intros i Hi. rewrite lookup_insert_ne by lia. apply Hm. lia. }
  exists m'. split; [done|]. split_and!.
  - rewrite Hdom. apply dom_insert_lookup_L. done.
  - intros [|i] c Hi; simpl in Hi.
    + injection Hi as ->. rewrite Z.add_0_r, Hout by lia. apply lookup_insert_eq.
    + replace (a + Z.of_nat (S i)) with (a + 1 + Z.of_nat i) by lia. by apply Hin.
  - intros x Hx. cbn [length] in Hx. rewrite Hout by lia. apply lookup_insert_ne. lia.
Qed.

Lemma copy_from_ok l : forall m a, (forall i b, l !! i = Some b -> m !! (a + Z.of_nat i) = Some b) ->
  copy_from m a (length l) = Ok l.
Proof.
  induction l as [|b l IH]; intros m a H; [done|]. cbn [length copy_from]. unfold ldb.
  pose proof (H 0%nat b eq_refl) as H0. rewrite Z.add_0_r in H0. rewrite H0. cbn [of_opt mbind result_bind].
  rewrite IH; [done|]. intros i c Hi. replace (a + 1 + Z.of_nat i) with (a + Z.of_nat (S i)) by lia. by apply H.
Qed.

(** ** The loader *)

Section loading.
Context (dbg : bool).
#[local] Notation load_terms := (load_terms dbg).
#[local] Notation load_lines := (load_lines dbg).

Lemma hex2_not_key b : 0 <= b < 256 -> hex2 b <> txt "@ADDR" /\ hex2 b <> txt "@SIZE" /\ hex2 b <> txt "@END".
Proof. done. Qed.

Lemma load_hex bs : forall fuel rest st, Forall (fun b => 0 <= b < 256) bs ->
  (forall i, load_offset st <= i < load_offset st + Z.of_nat (length bs) -> is_Some (ld_mem st !! i)) ->
  0 <= load_offset st -> load_offset st + Z.of_nat (length bs) < u32_mod ->
  exists m', copy_to (ld_mem st) (load_offset st) bs = Ok m' /\
    load_terms (length bs + fuel) ((hex2 <$> bs) ++ rest) st =
    load_terms fuel rest
      (mkLoader m' (load_offset st + Z.of_nat (length bs)) (load_size st) (if decide (bs = []) then num_bytes st else u32 (num_bytes st + Z.of_nat (length bs)))
         (if decide (bs = []) then stat_offload_size st else u32 (stat_offload_size st + Z.of_nat (length bs)))).
Proof.
  induction bs as [|b bs IH]; intros fuel rest st Hb Hm H0 Hl.
  { exists (ld_mem st). destruct st. simpl. by rewrite Z.add_0_r. }
  apply Forall_cons in Hb as [Hb0 Hb]. cbn [length] in Hm, Hl. rewrite Nat2Z.inj_succ in Hm, Hl.
  cbn [copy_to length Nat.add fmap list_fmap app PimApi.load_terms].
  pose proof (Hm (load_offset st) ltac:(lia)) as Ha.
  destruct (hex2_not_key b Hb0) as (K1 & K2 & K3).
  rewrite (decide_False (P := hex2 b = _)) by done. rewrite (decide_False (P := hex2 b = _)) by done.
  rewrite (decide_False (P := hex2 b = _)) by done. unfold write_byte. rewrite strtol_hex2 by done.
  rewrite !stb_ok, !u8_small by done. cbn [mbind result_bind].
  set (st1 := mkLoader _ _ _ _ _).
  assert (Hoff : load_offset st1 = load_offset st + 1) by (apply u32_small; unfold is_u32; lia).
  destruct (IH fuel rest st1) as (m' & Hc & Hrun); try done.
  { intros i Hi. rewrite Hoff in Hi. cbn [st1 ld_mem]. rewrite lookup_insert_ne by lia. apply Hm. lia. }
  { lia. } { lia. }
  rewrite Hoff in Hc. exists m'. split; [exact Hc|]. cbn [length Nat.add] in Hrun. rewrite Hrun.
  f_equal. rewrite Hoff. destruct (decide (b :: bs = [])) as [?|_]; [done|].
  cbn [st1 num_bytes stat_offload_size]. rewrite !Nat2Z.inj_succ. f_equal; [lia|..].
  all: case_decide as E; [subst; simpl; f_equal; lia|].
  all: unfold u32; rewrite Zplus_mod_idemp_l; f_equal; lia.
Qed.

(** The steps of the loop over the terms. *)
Lemma load_nil fuel st : (0 < fuel)%nat -> load_terms fuel [] st = Ok st.
Proof. destruct fuel; [lia|done]. Qed.
Lemma load_addr fuel a n ts st : atoi a = Ok n ->
  load_terms (S fuel) (txt "@ADDR" :: a :: ts) st =
  load_terms fuel ts (mkLoader (ld_mem st) (u32 n) (load_size st) (num_bytes st) (stat_offload_size st)).
Proof.
  intros H. cbn [PimApi.load_terms]. rewrite (decide_True (P := txt "@ADDR" = txt "@ADDR")) by reflexivity.
  cbn [head_or tail]. by rewrite H.
Qed.
Lemma load_size_term fuel a n ts st : atoi a = Ok n ->
  load_terms (S fuel) (txt "@SIZE" :: a :: ts) st =
  load_terms fuel ts (mkLoader (ld_mem st) (load_offset st) (if dbg then u32 n else load_size st) (num_bytes st) (stat_offload_size st)).
Proof.
  intros H. cbn [PimApi.load_terms]. rewrite (decide_False (P := txt "@SIZE" = txt "@ADDR")) by discriminate.
  rewrite (decide_True (P := txt "@SIZE" = txt "@SIZE")) by reflexivity. cbn [head_or tail]. rewrite H. by destruct dbg, st.
Qed.
(** The assertion at the end of a section. *)
Lemma load_end fuel ts st : (dbg = true -> num_bytes st = load_size st) -> load_terms (S fuel) (txt "@END" :: ts) st =
  load_terms fuel ts (mkLoader (ld_mem st) (load_offset st) (load_size st) 0 (stat_offload_size st)).
Proof.
  intros Hn. cbn [PimApi.load_terms]. rewrite (decide_False (P := txt "@END" = txt "@ADDR")) by discriminate.
  rewrite (decide_False (P := txt "@END" = txt "@SIZE")) by discriminate.
  rewrite (decide_True (P := txt "@END" = txt "@END")) by reflexivity. unfold assert_dbg. destruct dbg; [|done]. by rewrite (Hn eq_refl), Z.eqb_refl.
Qed.

Lemma load_section A S bs ls st : 0 <= A -> S = Z.of_nat (length bs) -> 0 < S -> A + S <= INT_MAX -> num_bytes st = 0 ->
  Forall (fun b => 0 <= b < 256) bs -> (forall i, A <= i < A + S -> is_Some (ld_mem st !! i)) ->
  exists m', copy_to (ld_mem st) A bs = Ok m' /\
    load_lines ((txt "@ADDR " ++ dec A) :: (txt "@SIZE " ++ dec S) :: (hex_line bs ++ txt "@END") :: ls) st =
    load_lines ls (mkLoader m' (A + S) (if dbg then S else load_size st) 0 (u32 (stat_offload_size st + S))).
Proof.
  intros HA -> HS Hmax Hnb Hbs Hm. set (n := Z.of_nat (length bs)) in *. unfold INT_MAX in Hmax.
  assert (T1 : terms (txt "@ADDR " ++ dec A) = [txt "@ADDR"; dec A]).
  { change (txt "@ADDR " ++ dec A) with (txt "@ADDR" ++ chr 32 :: dec A).
    rewrite terms_cons, terms_one; [done|by apply dec_word|by split; [|repeat constructor]|done]. }
  assert (T2 : terms (txt "@SIZE " ++ dec n) = [txt "@SIZE"; dec n]).
  { change (txt "@SIZE " ++ dec n) with (txt "@SIZE" ++ chr 32 :: dec n).
    rewrite terms_cons, terms_one; [done|apply dec_word; lia|by split; [|repeat constructor]|done]. }
  assert (T3 : terms (hex_line bs ++ txt "@END") = (hex2 <$> bs) ++ [txt "@END"]).
  { rewrite terms_hex, terms_one; [done|by split; [|repeat constructor]|done]. }
  destruct (load_hex bs (S (S (length (hex_line bs ++ txt "@END") - length bs - 1))) [txt "@END"]
    (mkLoader (ld_mem st) A (if dbg then n else load_size st) (num_bytes st) (stat_offload_size st))) as (m' & Hc & Hh);
    cbn [load_offset ld_mem] in *; try done; [unfold u32_mod; lia|].
  assert (Hlen : (length bs <= length (hex_line bs))%nat).
  { clear. induction bs as [|b bs IH]; [done|]. rewrite hex_line_cons, length_app. cbn [length]. lia. }
  exists m'. split; [done|]. cbn [PimApi.load_lines]. rewrite T1, (load_addr _ _ A) by (apply atoi_dec; unfold INT_MAX; lia).
  rewrite load_nil by (rewrite length_app; simpl; lia). cbn [mbind result_bind].
  rewrite u32_small by (unfold is_u32, u32_mod; lia). rewrite T2, (load_size_term _ _ n) by (apply atoi_dec; unfold INT_MAX; lia).
  rewrite load_nil by (rewrite length_app; simpl; lia). cbn [mbind result_bind ld_mem load_offset PimApi.load_size num_bytes stat_offload_size].
  rewrite (u32_small n) by (unfold is_u32, u32_mod; lia). rewrite T3.
  replace (S (length (hex_line bs ++ txt "@END"))) with
    (length bs + S (S (length (hex_line bs ++ txt "@END") - length bs - 1)))%nat
    by (rewrite length_app; simpl; lia).
  rewrite Hh. cbn [load_offset PimApi.load_size num_bytes stat_offload_size]. rewrite !decide_False by (by intros ->).
  rewrite load_end, load_nil by (lia || (intros ->; cbn [num_bytes PimApi.load_size]; rewrite Hnb; apply u32_small; unfold is_u32, u32_mod; lia)). done.
Qed.

End loading.

(** A section of an image: the address and the bytes. *)
Abbreviation sect := (Z * list Z)%type.
Definition sect_ok (m : device) (s : sect) : Prop :=
  0 <= s.1 /\ s.2 <> [] /\ s.1 + Z.of_nat (length s.2) <= INT_MAX /\ Forall (fun b => 0 <= b < 256) s.2 /\
  forall i, s.1 <= i < s.1 + Z.of_nat (length s.2) -> is_Some (m !! i).

Definition image (ss : list sect) : text :=
  ss ≫= fun s => section_text s.1 (Z.of_nat (length s.2)) s.2.

(** The sections copied one after the other. *)
Fixpoint place (m : device) (ss : list sect) : result device :=
  match ss with [] => Ok m | s :: ss' => m1 ← copy_to m s.1 s.2; place m1 ss' end.

Lemma sect_ok_dom m m' s : dom m' = dom m -> sect_ok m s -> sect_ok m' s.
Proof.
  intros Hd (H1 & H2 & H3 & H4 & H5). split_and!; try done. intros i Hi.
  apply elem_of_dom. rewrite Hd. apply elem_of_dom. by apply H5.
Qed.

Lemma load_image dbg ss : forall st, Forall (sect_ok (ld_mem st)) ss -> num_bytes st = 0 ->
  exists st', load_lines dbg (lines (image ss)) st = Ok st' /\ place (ld_mem st) ss = Ok (ld_mem st') /\
    (ss <> [] -> num_bytes st' = 0 /\
     stat_offload_size st' = u32 (stat_offload_size st + Z.of_nat (length (concat ss.*2)))).
Proof.
  induction ss as [|[A bs] ss IH]; intros st Hok Hnb; [by exists st|].
  apply Forall_cons in Hok as [Hs Hok]. pose proof Hs as (H1 & H2 & H3 & H4 & H5). cbn [fst snd] in *.
  unfold image. cbn [mbind list_bind fst snd]. rewrite section_lines by (try done; lia). fold (image ss).
  assert (Hl : 0 < Z.of_nat (length bs)) by (destruct bs; [done|simpl; lia]).
  destruct (load_section dbg A (Z.of_nat (length bs)) bs (lines (image ss)) st) as (m' & Hc & Hrun); try done.
  destruct (copy_to_ok bs (ld_mem st) A H4 H5) as (m1 & Hc1 & Hd & _). rewrite Hc in Hc1. injection Hc1 as <-.
  rewrite Hrun. destruct (IH (mkLoader m' (A + Z.of_nat (length bs)) (if dbg then Z.of_nat (length bs) else load_size st) 0
    (u32 (stat_offload_size st + Z.of_nat (length bs))))) as (st' & Hl' & Hp & Hst); [|done|].
  { eapply Forall_impl; [exact Hok|]. intros s. by apply sect_ok_dom. }
  exists st'. split; [exact Hl'|]. cbn [place fst snd]. rewrite Hc. cbn [mbind result_bind]. split; [done|].
  intros _. destruct ss as [|s ss].
  - injection Hl' as <-. cbn. rewrite app_nil_r. done.
  - destruct Hst as [-> ->]; [done|]. split; [done|]. cbn [fmap list_fmap snd concat stat_offload_size].
    unfold u32. rewrite Zplus_mod_idemp_l. f_equal. rewrite (length_app bs), Nat2Z.inj_add. lia.
Qed.

(** Sections that do not overlap can be read back. *)
Definition disjoint_from (s t : sect) : Prop :=
  s.1 + Z.of_nat (length s.2) <= t.1 \/ t.1 + Z.of_nat (length t.2) <= s.1.

Lemma place_read ss : forall m m' s, place m ss = Ok m' -> Forall (sect_ok m) ss ->
  ForallOrdPairs disjoint_from ss -> s ∈ ss ->
  forall i b, s.2 !! i = Some b -> m' !! (s.1 + Z.of_nat i) = Some b.
Proof.
  assert (Hkeep : forall l m m' s i b, place m l = Ok m' -> Forall (sect_ok m) l ->
    Forall (disjoint_from s) l -> s.2 !! i = Some b -> m' !! (s.1 + Z.of_nat i) = m !! (s.1 + Z.of_nat i)).
  { intros l. induction l as [|t l IH]; intros m m' s i b Hp Hok Hd Hi; cbn [place] in Hp; [by injection Hp as <-|].
    apply Forall_cons in Hok as [Ht Hok]. apply Forall_cons in Hd as [Hst Hd]. pose proof Ht as (_ & _ & _ & Hb & Hm).
    destruct (copy_to_ok t.2 m t.1 Hb Hm) as (m1 & Hc & Hdm & _ & Hout). rewrite Hc in Hp. cbn [mbind result_bind] in Hp.
    rewrite (IH m1 m' s i b); try done; [|eapply Forall_impl; [exact Hok|]; intros; by eapply sect_ok_dom].
    apply Hout. apply lookup_lt_Some in Hi. unfold disjoint_from in Hst. lia. }
  induction ss as [|t ss IH]; intros m m' s Hp Hok Hd Hs i b Hi; [set_solver|]. cbn [place] in Hp.
  apply Forall_cons in Hok as [Ht Hok]. pose proof Ht as (_ & _ & _ & Hb & Hm).
  destruct (copy_to_ok t.2 m t.1 Hb Hm) as (m1 & Hc & Hdm & Hin & _). rewrite Hc in Hp. cbn [mbind result_bind] in Hp.
  inversion Hd as [|? ? Hd1 Hd2]; subst.
  assert (Hok1 : Forall (sect_ok m1) ss) by (eapply Forall_impl; [exact Hok|]; intros; by eapply sect_ok_dom).
  apply elem_of_cons in Hs as [->|Hs]; [|by eapply IH].
  rewrite (Hkeep ss m1 m' t i b); try done. by apply Hin.
Qed.

(** ** The script *)

Lemma dump_loop_in src : forall index O S acc count, O <= index <= O + S - 1 ->
  let l := take (Z.to_nat (O + S - index)) src in
  dump_loop src index O S acc count = (acc ++ hex_line l, count + Z.of_nat (length l)).
Proof.
  induction src as [|b src IH]; intros index O S acc count Hi; cbn [dump_loop].
  - rewrite take_nil. simpl. by rewrite app_nil_r, Z.add_0_r.
  - rewrite (proj2 (Z.leb_le O index)) by lia.
    replace (Z.to_nat (O + S - index)) with (Datatypes.S (Z.to_nat (O + S - (index + 1)))) by lia.
    cbn [take]. rewrite hex_line_cons. cbn [length]. rewrite Nat2Z.inj_succ.
    destruct (Z.leb_spec (O + S - 1) index).
    + replace (Z.to_nat (O + S - (index + 1))) with 0%nat by lia. cbn [take length]. done.
    + rewrite IH by lia. cbv zeta. f_equal; [|lia]. rewrite <- !app_assoc. done.
Qed.

Lemma dump_loop_spec src : forall index O S, 0 <= index <= O -> 1 <= S ->
  let l := take (Z.to_nat S) (drop (Z.to_nat (O - index)) src) in
  dump_loop src index O S [] 0 = (hex_line l, Z.of_nat (length l)).
Proof.
  induction src as [|b src IH]; intros index O S Hi HS; [by rewrite drop_nil, take_nil|].
  destruct (decide (index = O)) as [->|Hne].
  - rewrite dump_loop_in by lia. rewrite Z.sub_diag. cbn [Z.to_nat drop].
    by replace (O + S - O) with S by lia.
  - cbn [dump_loop]. destruct (Z.leb_spec O index); [lia|]. destruct (Z.leb_spec (O + S - 1) index); [lia|].
    rewrite IH by lia. by replace (Z.to_nat (O - index)) with (Datatypes.S (Z.to_nat (O - (index + 1)))) by lia.
Qed.

(** The script accepts a size that the file has, and writes the bytes of that part. *)
Lemma dump_hex_spec src O A S : 0 <= O -> 1 <= S -> O + S <= Z.of_nat (length src) ->
  dump_hex src O A S = Some (section_text A S (take (Z.to_nat S) (drop (Z.to_nat O) src))).
Proof.
  intros HO HS Hlen. unfold dump_hex. rewrite dump_loop_spec by lia. cbv zeta. rewrite Z.sub_0_r.
  rewrite length_take, length_drop. rewrite (proj2 (Z.eqb_eq _ S)) by lia. done.
Qed.

(** ** Words *)

Lemma ldn_stn n : forall m a v, (forall i, a <= i < a + Z.of_nat n -> is_Some (m !! i)) ->
  exists m', stn m a v n = Ok m' /\ dom m' = dom m /\ ldn m' a n = Ok (v mod 256 ^ Z.of_nat n) /\
    forall x, ~ a <= x < a + Z.of_nat n -> m' !! x = m !! x.
Proof.
  induction n as [|n IH]; intros m a v Hm.
  { exists m. split_and!; try done. cbn. by rewrite Z.mod_1_r. }
  rewrite Nat2Z.inj_succ in Hm |- *. pose proof (Hm a ltac:(lia)) as Ha. cbn [stn ldn].
  rewrite stb_ok by done. cbn [mbind result_bind].
  destruct (IH (<[a := u8 v]> m) (a + 1) (v / 256)) as (m' & Hs & Hd & Hl & Ho).
  { intros i Hi. rewrite lookup_insert_ne by lia. apply Hm. lia. }
  exists m'. split; [done|]. split_and!.
  - rewrite Hd. by apply dom_insert_lookup_L.
  - unfold ldb. rewrite Ho, lookup_insert_eq by lia. cbn [of_opt mbind result_bind]. rewrite Hl.
    cbn [mbind result_bind]. f_equal. unfold u8. rewrite Z.pow_succ_r by lia.
    rewrite Z.rem_mul_r by (try lia; apply Z.pow_pos_nonneg; lia). done.
  - intros x Hx. rewrite Ho by lia. apply lookup_insert_ne. lia.
Qed.

Lemma ldn_ext n : forall m m' a, (forall i, a <= i < a + Z.of_nat n -> m' !! i = m !! i) -> ldn m' a n = ldn m a n.
Proof.
  induction n as [|n IH]; intros m m' a H; [done|]. rewrite Nat2Z.inj_succ in H. cbn [ldn]. unfold ldb.
  rewrite H by lia. rewrite (IH m m'); [done|]. intros i Hi. apply H. lia.
Qed.

(** ** Request slots *)

Section slots.
Context (PIM_VREG : Z).

(** The slot record of the skip-list kernel at its place in the vector register. *)
Definition slot_at (m : device) (i : Z) : result request_slot :=
  b ← ldn m (slot_field PIM_VREG i INFO_BITS_OFFSET) 1;
  l ← ldn m (slot_field PIM_VREG i RANDOM_LEVEL_OFFSET) 1;
  t ← ldn m (slot_field PIM_VREG i TIMESTAMP_OFFSET) 2;
  p ← ldn m (slot_field PIM_VREG i PARAMETER_OFFSET) 4;
  Ok (mkReqSlot b l t p).

Definition slots_mapped (m : device) (num : Z) : Prop :=
  forall a, PIM_VREG <= a < PIM_VREG + num * REQUEST_SLOT_SIZE -> is_Some (m !! a).

(** A store of [n] bytes at the offset [off] of slot [i] changes this field only. *)
Lemma field_store m num i off v n :
  slots_mapped m num -> 0 <= i < num -> 0 <= off -> off + Z.of_nat n <= 8 ->
  exists m', stn m (slot_field PIM_VREG i off) v n = Ok m' /\ slots_mapped m' num /\
    ldn m' (slot_field PIM_VREG i off) n = Ok (v mod 256 ^ Z.of_nat n) /\
    forall j off' n', 0 <= off' -> off' + Z.of_nat n' <= 8 ->
      i <> j \/ off' + Z.of_nat n' <= off \/ off + Z.of_nat n <= off' ->
      ldn m' (slot_field PIM_VREG j off') n' = ldn m (slot_field PIM_VREG j off') n'.
Proof.
  intros Hm Hi Hoff Hn. unfold slot_field, slots_mapped, REQUEST_SLOT_SIZE in *.
  destruct (ldn_stn n m (PIM_VREG + i * 8 + off) v) as (m' & Hs & Hd & Hl & Ho).
  { intros a Ha. apply Hm. lia. }
  exists m'. split_and!; try done.
  - intros a Ha. apply elem_of_dom. rewrite Hd. apply elem_of_dom. by apply Hm.
  - intros j off' n' H1 H2 H3. apply ldn_ext. intros x Hx. apply Ho. lia.
Qed.
End slots.

(** ** Properties *)

(** C31: A kernel image round-trips.  The script writes, for parts of binary files that are not empty, sections
    with their addresses.  If the sections end at most at INT_MAX, lie in the mapped device and do not overlap, the loader, in a build with
    or without its assertions, reads the text of any number of them to the end (in a debug build the number of bytes of each section is the size announced for it), and each part
    can then be read back from its address in the device.  The size that the statistics report is the number of bytes. *)
Theorem kernel_image_round_trip dbg m stat0 (parts : list (list Z * Z * Z * Z)) :
  Forall (fun '(src, off, A, sz) => 0 <= off /\ 1 <= sz /\ off + sz <= Z.of_nat (length src) /\
    0 <= A /\ A + sz <= INT_MAX /\ Forall (fun b => 0 <= b < 256) src /\
    forall i, A <= i < A + sz -> is_Some (m !! i)) parts ->
  ForallOrdPairs (fun '(_, _, A, sz) '(_, _, A', sz') => A + sz <= A' \/ A' + sz' <= A) parts ->
  exists texts st,
    Forall2 (fun '(src, off, A, sz) t => dump_hex src off A sz = Some t) parts texts /\
    offload_kernel dbg m stat0 (concat texts) = Ok st /\
    Forall (fun '(src, off, A, sz) => copy_from (ld_mem st) A (Z.to_nat sz) =
      Ok (take (Z.to_nat sz) (drop (Z.to_nat off) src))) parts /\
    (parts <> [] -> stat_offload_size st = u32 (stat0 + foldr (fun '(_, _, _, sz) n => sz + n) 0 parts)).
Proof.
  intros Hok Hd. set (ss := (fun '(src, off, A, sz) => (A, take (Z.to_nat sz) (drop (Z.to_nat off) src))) <$> parts : list sect).
  assert (Hlen : forall (src : list Z) off sz, 0 <= off -> 1 <= sz -> off + sz <= Z.of_nat (length src) ->
    Z.of_nat (length (take (Z.to_nat sz) (drop (Z.to_nat off) src))) = sz).
  { intros src off sz ? ? ?. rewrite length_take, length_drop. lia. }
  assert (Hss : Forall (sect_ok m) ss).
  { unfold ss. rewrite Forall_fmap. eapply Forall_impl; [exact Hok|]. intros [[[src off] A] sz] (H1 & H2 & H3 & H4 & H5 & H6 & H7).
    pose proof (Hlen src off sz H1 H2 H3) as Hl. unfold sect_ok. cbn [fst snd compose]. rewrite Hl. split_and!; try done.
    - intros E. rewrite E in Hl. simpl in Hl. lia.
    - by apply Forall_take, Forall_drop. }
  assert (Hdd : ForallOrdPairs disjoint_from ss).
  { unfold ss. clear Hss ss. induction Hd as [|p parts Hp _ IH]; [constructor|]. apply Forall_cons in Hok as [Hp0 Hok].
    cbn [fmap list_fmap]. constructor; [|by apply IH]. rewrite Forall_fmap. rewrite Forall_forall in Hp, Hok |- *.
    intros q Hq. specialize (Hp q Hq). specialize (Hok q Hq).
    destruct p as [[[src off] A] sz], q as [[[src' off'] A'] sz']. cbn [compose]. unfold disjoint_from. cbn [fst snd].
    destruct Hp0 as (? & ? & ? & _), Hok as (? & ? & ? & _). rewrite !Hlen by done. lia. }
  exists ((fun s => section_text s.1 (Z.of_nat (length s.2)) s.2) <$> ss).
  destruct (load_image dbg ss (mkLoader m UINT32_MAX UINT32_MAX 0 stat0) Hss eq_refl) as (st & Hrun & Hp & Hst).
  exists st. split_and!.
  - unfold ss. rewrite Forall2_fmap_r, Forall2_fmap_r. apply Forall_Forall2_diag.
    eapply Forall_impl; [exact Hok|]. intros [[[src off] A] sz] (H1 & H2 & H3 & _). cbn [fst snd].
    rewrite dump_hex_spec by done. f_equal. unfold section_text. cbn [fst snd]. by rewrite Hlen.
  - unfold offload_kernel. rewrite <- Hrun. do 2 f_equal. clear. unfold image. induction ss as [|s ss IH]; [done|].
    cbn [fmap list_fmap concat mbind list_bind]. by rewrite IH.
  - apply Forall_forall. intros [[[src off] A] sz] Hin. rewrite Forall_forall in Hok.
    destruct (Hok _ Hin) as (H1 & H2 & H3 & _). set (bs := take _ _).
    pose proof (Hlen src off sz H1 H2 H3) as Hl. fold bs in Hl.
    replace (Z.to_nat sz) with (length bs) by lia. apply copy_from_ok.
    apply (place_read ss m _ (A, bs) Hp Hss Hdd). unfold ss. apply list_elem_of_fmap. by exists (src, off, A, sz).
  - intros Hne. destruct Hst as [_ ->]; [by destruct parts|]. f_equal. f_equal. unfold ss. clear -Hok Hlen.
    induction Hok as [|[[[src off] A] sz] parts (H1 & H2 & H3 & _) _ IH]; [done|].
    cbn [fmap list_fmap concat foldr snd]. rewrite (length_app (take _ _)), Nat2Z.inj_add, IH, Hlen by done. done.
Qed.

(** The accessors of the request slots implement the fields of the slot records.  On
    mapped slots, reading the bits, the timestamp or the parameter of a slot gives the
    field of its record; writing the bits, the level or the parameter sets this field,
    cut to its width, and changes no other slot. *)
Theorem slot_accessors_fields V m num i s :
  slots_mapped V m num -> 0 <= i < num -> slot_at V m i = Ok s ->
  read_skiplist_info_bits V m i = Ok (info_bits s) /\ read_timestamp V m i = Ok (timestamp s) /\
  read_parameter V m i = Ok (parameter s) /\
  (forall b, exists m', write_skiplist_info_bits V m b i = Ok m' /\ slots_mapped V m' num /\
     slot_at V m' i = Ok (set_info s (u8 b)) /\ forall j, i <> j -> slot_at V m' j = slot_at V m j) /\
  (forall l, exists m', write_skiplist_random_level V m l i = Ok m' /\ slots_mapped V m' num /\
     slot_at V m' i = Ok (set_level s (u8 l)) /\ forall j, i <> j -> slot_at V m' j = slot_at V m j) /\
  (forall p, exists m', write_parameter V m p i = Ok m' /\ slots_mapped V m' num /\
     slot_at V m' i = Ok (set_param s (u32 p)) /\ forall j, i <> j -> slot_at V m' j = slot_at V m j).
Proof.
  intros Hm Hi Hs. unfold slot_at in Hs.
  apply bind_Ok in Hs as (b0 & Hb0 & Hs). apply bind_Ok in Hs as (l0 & Hl0 & Hs).
  apply bind_Ok in Hs as (t0 & Ht0 & Hs). apply bind_Ok in Hs as (p0 & Hp0 & [= <-]).
  split; [done|]. split; [done|]. split; [done|].
  unfold write_skiplist_info_bits, write_skiplist_random_level, write_parameter, slot_at.
  unfold INFO_BITS_OFFSET, RANDOM_LEVEL_OFFSET, TIMESTAMP_OFFSET, PARAMETER_OFFSET in *. split_and!; intros v.
  - destruct (field_store V m num i 0 v 1 Hm Hi) as (m' & Hw & Hm' & Hr & Ho); [lia..|].
    exists m'. split_and!; try done.
    + rewrite Hr. cbn [mbind result_bind]. rewrite !Ho by lia. by rewrite Hl0, Ht0, Hp0.
    + intros j Hj. by rewrite !Ho by lia.
  - destruct (field_store V m num i 1 v 1 Hm Hi) as (m' & Hw & Hm' & Hr & Ho); [lia..|].
    exists m'. split_and!; try done.
    + rewrite (Ho i 0 1%nat) by lia. rewrite Hb0. cbn [mbind result_bind]. rewrite Hr. cbn [mbind result_bind].
      rewrite !Ho by lia. by rewrite Ht0, Hp0.
    + intros j Hj. by rewrite !Ho by lia.
  - destruct (field_store V m num i 4 v 4 Hm Hi) as (m' & Hw & Hm' & Hr & Ho); [lia..|].
    exists m'. split_and!; try done.
    + rewrite (Ho i 0 1%nat), (Ho i 1 1%nat), (Ho i 2 2%nat) by lia. rewrite Hb0, Hl0, Ht0.
      cbn [mbind result_bind]. rewrite Hr. done.
    + intros j Hj. by rewrite !Ho by lia.
Qed.

(** The scalar and vector registers round-trip. *)
Lemma sreg_round_trip PIM_SREG m i v :
  (forall a, PIM_SREG + 4 * i <= a < PIM_SREG + 4 * i + 4 -> is_Some (m !! a)) ->
  exists m', write_sreg PIM_SREG m i v = Ok m' /\ read_sreg PIM_SREG m' i = Ok (u32 v) /\
    forall j, i <> j -> read_sreg PIM_SREG m' j = read_sreg PIM_SREG m j.
Proof.
  intros Hm. destruct (ldn_stn 4 m (PIM_SREG + 4 * i) v Hm) as (m' & Hs & _ & Hl & Ho).
  exists m'. split_and!; try done. intros j Hj. apply ldn_ext. intros x Hx. apply Ho. lia.
Qed.

Lemma vreg_round_trip PIM_VREG m l : Forall (fun b => 0 <= b < 256) l ->
  (forall a, PIM_VREG <= a < PIM_VREG + Z.of_nat (length l) -> is_Some (m !! a)) ->
  exists m', write_vreg PIM_VREG m l = Ok m' /\ read_vreg PIM_VREG (length l) m' = Ok l.
Proof.
  intros Hb Hm. destruct (copy_to_ok l m PIM_VREG Hb Hm) as (m' & Hs & _ & Hin & _).
  exists m'. split; [done|]. by apply copy_from_ok.
Qed.

(** ** Instances of the properties *)

Definition api_demo_mem : device := list_to_map ((fun k => (Z.of_nat k, 0)) <$> seq 0 64).

Lemma api_demo_mapped a : 0 <= a < 64 -> is_Some (api_demo_mem !! a).
Proof.
  intros Ha. apply elem_of_dom. unfold api_demo_mem. rewrite dom_list_to_map_L, elem_of_list_to_set.
  rewrite <- list_fmap_compose. apply list_elem_of_fmap. exists (Z.to_nat a). split; [simpl; lia|].
  apply elem_of_seq. lia.
Qed.

Lemma kernel_image_round_trip_witness :
  exists texts st, offload_kernel true api_demo_mem 0 (concat texts) = Ok st /\
    copy_from (ld_mem st) 16 3 = Ok [222; 173; 190] /\ copy_from (ld_mem st) 40 1 = Ok [7].
Proof.
  destruct (kernel_image_round_trip true api_demo_mem 0 [([1; 222; 173; 190; 2], 1, 16, 3); ([7], 0, 40, 1)])
    as (texts & st & _ & Hrun & Hr & _).
  - apply Forall_cons. split; [|apply Forall_cons; split; [|constructor]];
      (split; [lia|split; [lia|split; [cbn; lia|split; [lia|split; [vm_compute; discriminate|]]]]]);
      (split; [repeat constructor; lia|intros; apply api_demo_mapped; lia]).
  - repeat constructor; lia.
  - apply Forall_cons in Hr as [H1 Hr]. apply Forall_cons in Hr as [H2 _]. exists texts, st.
    split; [exact Hrun|]. split; [exact H1|exact H2].
Defined.

Lemma slot_accessors_fields_witness :
  exists m', write_parameter 8 api_demo_mem 77 2 = Ok m' /\ slot_at 8 m' 2 = Ok (mkReqSlot 0 0 0 77) /\
    slot_at 8 m' 1 = slot_at 8 api_demo_mem 1.
Proof.
  destruct (slot_accessors_fields 8 api_demo_mem 4 2 (mkReqSlot 0 0 0 0)) as (_ & _ & _ & _ & _ & H).
  - intros a Ha. apply api_demo_mapped. unfold REQUEST_SLOT_SIZE in Ha. lia.
  - lia.
  - vm_compute. reflexivity.
  - destruct (H 77) as (m' & Hw & _ & Hs & Ho). exists m'. split; [exact Hw|]. split; [exact Hs|apply Ho; lia].
Defined.
