(* ===== verification/ByteMem.v ===== *)
(** * Memories of bytes

    The memory that the components of the simulator share: bytes at addresses, little-endian
    words of 32 bits, and blocks of bytes ([memcpy]).  The lemmas are the load-after-store
    equations the other files use. *)

From S2P Require Import Prelude.

(** ** Memories and words *)

(** The bytes at their addresses; an access outside the map is undefined. *)
Abbreviation bytes := (gmap Z Z).

Definition ld32 (m : bytes) (a : Z) : sim Z :=
  b0 ← elem (m !! a); b1 ← elem (m !! (a + 1)); b2 ← elem (m !! (a + 2)); b3 ← elem (m !! (a + 3));
  Done (b0 + 256 * (b1 + 256 * (b2 + 256 * b3))).
Definition st32 (m : bytes) (a v : Z) : sim bytes :=
  _ ← elem (m !! a); _ ← elem (m !! (a + 1)); _ ← elem (m !! (a + 2)); _ ← elem (m !! (a + 3));
  Done (<[a := v mod 256]> (<[a + 1 := v / 2 ^ 8 mod 256]> (<[a + 2 := v / 2 ^ 16 mod 256]>
       (<[a + 3 := v / 2 ^ 24 mod 256]> m)))).

(** ** Words *)

Lemma ld32_ext m m' a : (forall k, 0 <= k < 4 -> m !! (a + k) = m' !! (a + k)) -> ld32 m a = ld32 m' a.
Proof.
  intros H. unfold ld32. pose proof (H 0 ltac:(lia)) as H0. rewrite Z.add_0_r in H0.
  by rewrite H0, !H by lia.
Qed.

Lemma st32_inv m a v m' : st32 m a v = Done m' ->
  m' = <[a := v mod 256]> (<[a + 1 := v / 2 ^ 8 mod 256]> (<[a + 2 := v / 2 ^ 16 mod 256]>
       (<[a + 3 := v / 2 ^ 24 mod 256]> m))).
Proof. unfold st32. intros H. by destruct (m !! a), (m !! (a + 1)), (m !! (a + 2)), (m !! (a + 3)); simplify_eq/=. Qed.

Lemma st32_total m a u v : ld32 m a = Done u -> exists m', st32 m a v = Done m'.
Proof.
  unfold ld32, st32. intros H. destruct (m !! a), (m !! (a + 1)), (m !! (a + 2)), (m !! (a + 3));
    simplify_eq/=; eauto.
Qed.

Lemma st32_other m a v m' b : st32 m a v = Done m' -> b < a \/ a + 4 <= b -> m' !! b = m !! b.
Proof. intros ->%st32_inv H. by rewrite !lookup_insert_ne by lia. Qed.

Lemma ld32_other m a v m' b : st32 m a v = Done m' -> b + 4 <= a \/ a + 4 <= b -> ld32 m' b = ld32 m b.
Proof. intros H Hb. apply ld32_ext. intros k Hk. apply (st32_other _ _ _ _ _ H). lia. Qed.

Lemma ld32_store m a v m' : st32 m a v = Done m' -> ld32 m' a = Done (u32 v).
Proof.
  intros ->%st32_inv. unfold u32, u32_mod.
  set (m1 := <[a + 3 := _]> m). set (m2 := <[a + 2 := _]> m1). set (m3 := <[a + 1 := _]> m2).
  set (m4 := <[a := _]> m3).
  assert (H0 : m4 !! a = Some (v mod 256)) by apply lookup_insert_eq.
  assert (H1 : m4 !! (a + 1) = Some (v / 2 ^ 8 mod 256)).
  { unfold m4. rewrite lookup_insert_ne by lia. apply lookup_insert_eq. }
  assert (H2 : m4 !! (a + 2) = Some (v / 2 ^ 16 mod 256)).
  { unfold m4, m3. rewrite !lookup_insert_ne by lia. apply lookup_insert_eq. }
  assert (H3 : m4 !! (a + 3) = Some (v / 2 ^ 24 mod 256)).
  { unfold m4, m3, m2. rewrite !lookup_insert_ne by lia. apply lookup_insert_eq. }
  unfold ld32. rewrite H0, H1, H2, H3. cbn. f_equal. Z.to_euclidean_division_equations. lia.
Qed.

Lemma ld32_same m a v m' : is_u32 v -> st32 m a v = Done m' -> ld32 m' a = Done v.
Proof. intros Hv H. rewrite <- (u32_small v Hv). by apply (ld32_store m). Qed.

(** ** Blocks of bytes *)

(** [memcpy] from and to memory. *)
Fixpoint load (m : bytes) (a : Z) (n : nat) : sim (list Z) :=
  match n with
  | O => Done []
  | S n' => b ← elem (m !! a); l ← load m (a + 1) n'; Done (b :: l)
  end.
Fixpoint store (m : bytes) (a : Z) (l : list Z) : sim bytes :=
  match l with
  | [] => Done m
  | b :: l' => _ ← elem (m !! a); store (<[a := b]> m) (a + 1) l'
  end.

(** The little-endian number that bytes form, and the bytes of a number. *)
Fixpoint word_of (l : list Z) : Z := match l with [] => 0 | b :: l' => b + 256 * word_of l' end.
Fixpoint bytes_word (n : nat) (v : Z) : list Z :=
  match n with O => [] | S n' => v mod 256 :: bytes_word n' (v / 256) end.

Lemma length_bytes_word n : forall v, length (bytes_word n v) = n.
Proof. induction n; intros v; simpl; auto. Qed.

Lemma word_of_bytes n : forall v, 0 <= v < 256 ^ Z.of_nat n -> word_of (bytes_word n v) = v.
Proof.
  induction n as [|n IH]; intros v Hv; [simpl in *; lia|]. cbn [bytes_word word_of].
  rewrite Nat2Z.inj_succ, Z.pow_succ_r in Hv by lia.
  rewrite IH; [pose proof (Z.div_mod v 256); lia|]. split; [apply Z.div_pos; lia|].
  apply Z.div_lt_upper_bound; lia.
Qed.

(** Every byte from [a] on for [n] bytes is there. *)
Definition mapped (m : bytes) (a n : Z) : Prop := forall k, 0 <= k < n -> is_Some (m !! (a + k)).

Lemma mapped_tail m a n : mapped m a n -> mapped m (a + 1) (n - 1).
Proof. intros H k Hk. replace (a + 1 + k) with (a + (k + 1)) by lia. apply H. lia. Qed.

Lemma mapped_insert m a n b v : mapped m a n -> mapped (<[b := v]> m) a n.
Proof.
  intros H k Hk. destruct (decide (a + k = b)) as [->|E].
  - rewrite lookup_insert_eq. eauto.
  - rewrite lookup_insert_ne by congruence. by apply H.
Qed.

Lemma store_ok l : forall m a, mapped m a (Z.of_nat (length l)) ->
  exists m', store m a l = Done m' /\ (forall b, is_Some (m !! b) -> is_Some (m' !! b)) /\
    (forall b, b < a \/ a + Z.of_nat (length l) <= b -> m' !! b = m !! b) /\
    forall i b, l !! i = Some b -> m' !! (a + Z.of_nat i) = Some b.
Proof.
  induction l as [|x l IH]; intros m a Hm.
  - exists m. split; [done|]. split; [done|]. split; [done|]. intros i b. by rewrite lookup_nil.
  - pose proof (Hm 0 ltac:(simpl; lia)) as [y Hy]. rewrite Z.add_0_r in Hy.
    destruct (IH (<[a := x]> m) (a + 1)) as (m' & H1 & H2 & H3 & H4).
    { apply mapped_insert. apply mapped_tail in Hm. intros k Hk. apply Hm. simpl. lia. }
    exists m'. cbn [store]. rewrite Hy. split; [exact H1|]. split_and!.
    + intros b Hb. apply H2. destruct (decide (b = a)) as [->|].
      * rewrite lookup_insert_eq. eauto.
      * by rewrite lookup_insert_ne by congruence.
    + intros b Hb. simpl in Hb. rewrite H3 by lia. apply lookup_insert_ne. lia.
    + intros [|i] b Hl; simpl in Hl.
      * injection Hl as <-. rewrite Z.add_0_r, H3 by lia. apply lookup_insert_eq.
      * replace (a + Z.of_nat (S i)) with (a + 1 + Z.of_nat i) by lia. by apply H4.
Qed.

Lemma load_ok n : forall m a l, length l = n ->
  (forall i b, l !! i = Some b -> m !! (a + Z.of_nat i) = Some b) -> load m a n = Done l.
Proof.
  induction n as [|n IH]; intros m a [|x l] Hl H; try discriminate; [done|]. cbn [load].
  pose proof (H 0%nat x eq_refl) as H0. rewrite Z.add_0_r in H0. rewrite H0. cbn [elem mbind sim_bind].
  rewrite (IH m (a + 1) l); [done|by injection Hl|].
  intros i b Hi. replace (a + 1 + Z.of_nat i) with (a + Z.of_nat (S i)) by lia. by apply H.
Qed.

Lemma load_ext n : forall m m' a, (forall k, 0 <= k < Z.of_nat n -> m !! (a + k) = m' !! (a + k)) ->
  load m a n = load m' a n.
Proof.
  induction n as [|n IH]; intros m m' a H; [done|]. cbn [load].
  pose proof (H 0 ltac:(lia)) as H0. rewrite Z.add_0_r in H0. rewrite H0.
  rewrite (IH m m' (a + 1)); [done|]. intros k Hk. replace (a + 1 + k) with (a + (k + 1)) by lia. apply H. lia.
Qed.

Lemma load_mapped n : forall m a, mapped m a (Z.of_nat n) -> exists l, load m a n = Done l /\ length l = n.
Proof.
  induction n as [|n IH]; intros m a Hm; [by exists []|].
  pose proof (Hm 0 ltac:(lia)) as [y Hy]. rewrite Z.add_0_r in Hy.
  destruct (IH m (a + 1)) as (l & Hl & Hlen).
  { apply mapped_tail in Hm. intros k Hk. apply Hm. lia. }
  exists (y :: l). cbn [load]. rewrite Hy. cbn [elem mbind sim_bind]. rewrite Hl. simpl. auto.
Qed.

Lemma store_frame l : forall m a m', store m a l = Done m' ->
  forall b, b < a \/ a + Z.of_nat (length l) <= b -> m' !! b = m !! b.
Proof.
  induction l as [|x l IH]; intros m a m' H b Hb; cbn [store] in H; sim_inv; [done|].
  cbn [length] in Hb. rewrite (IH _ _ _ H) by lia. apply lookup_insert_ne. lia.
Qed.

Lemma load_inv n : forall m a l, load m a n = Done l ->
  length l = n /\ mapped m a (Z.of_nat n) /\ forall i b, l !! i = Some b -> m !! (a + Z.of_nat i) = Some b.
Proof.
  induction n as [|n IH]; intros m a l H; cbn [load] in H; sim_inv.
  - split; [done|]. split; [intros k Hk; lia|]. intros i b. by rewrite lookup_nil.
  - destruct (IH _ _ _ E0) as (H1 & H2 & H3). split; [by f_equal/=|]. split.
    + intros k Hk. destruct (decide (k = 0)) as [->|]; [rewrite Z.add_0_r; eauto|].
      replace (a + k) with (a + 1 + (k - 1)) by lia. apply H2. lia.
    + intros [|i] b Hb; simpl in Hb; [injection Hb as <-; by rewrite Z.add_0_r|].
      replace (a + Z.of_nat (S i)) with (a + 1 + Z.of_nat i) by lia. by apply H3.
Qed.

(** A store over bytes that can be loaded, and the load after it. *)
Lemma store_load m a l l' : load m a (length l') = Done l ->
  exists m', store m a l' = Done m' /\ load m' a (length l') = Done l' /\
    forall b, b < a \/ a + Z.of_nat (length l') <= b -> m' !! b = m !! b.
Proof.
  intros H. destruct (load_inv _ _ _ _ H) as (_ & Hm & _).
  destruct (store_ok l' m a Hm) as (m' & H1 & _ & H3 & H4). exists m'. split; [done|]. split; [|done].
  by apply load_ok.
Qed.

Lemma bytes_word_of l : Forall (fun b => 0 <= b < 256) l -> bytes_word (length l) (word_of l) = l.
Proof.
  induction 1 as [|b l Hb _ IH]; [done|]. cbn [length bytes_word word_of].
  rewrite (Z.mul_comm 256), Z.mod_add, Z.mod_small, Z.div_add, Z.div_small, Z.add_0_l, IH by lia. done.
Qed.

Lemma bytes_word_mod n : forall v, bytes_word n (v mod 256 ^ Z.of_nat n) = bytes_word n v.
Proof.
  induction n as [|n IH]; intros v; [done|]. cbn [bytes_word].
  rewrite Nat2Z.inj_succ, Z.pow_succ_r by lia. f_equal.
  - rewrite Z.rem_mul_r, Z.mul_comm, Z.mod_add, Z.mod_mod by lia. done.
  - rewrite Z.rem_mul_r, Z.mul_comm, Z.div_add by lia. rewrite (Z.div_small (v mod 256)) by (apply Z.mod_pos_bound; lia).
    apply IH.
Qed.

Lemma word_of_bound l : Forall (fun b => 0 <= b < 256) l -> 0 <= word_of l < 256 ^ Z.of_nat (length l).
Proof.
  induction 1 as [|b l Hb _ IH]; [simpl; lia|]. cbn [word_of length].
  rewrite Nat2Z.inj_succ, Z.pow_succ_r by lia. lia.
Qed.
