(* ===== verification/Coprocessor.v ===== *)
(** * The floating-point coprocessor of the PIM device

    Models [run_coprocessor_32b] and [run_coprocessor_64b] of
    src/SMC/GEM5/gem5/src/mem/ethz_pim_memory.cc: the commands that read the scalar
    registers as single-precision numbers and the page-rank step over nodes in the vector
    register.  [float] and [double] are the IEEE formats of the Standard Library's
    SpecFloat; a NaN is always written with the same bits.  The theorems show that the bits
    of a number round-trip and what the page-rank step computes. *)

From Stdlib Require Import Floats.SpecFloat.
From S2P Require Import Prelude ByteMem.

(** ** Single precision *)

Definition f32 (u : Z) : spec_float :=
  let s := Z.testbit u 31 in
  let e := Z.land (Z.shiftr u 23) 255 in
  let m := Z.land u (2 ^ 23 - 1) in
  if e =? 255 then (if m =? 0 then S754_infinity s else S754_nan)
  else if e =? 0 then
    match m with Zpos p => S754_finite s p (-149) | _ => S754_zero s end
  else
    match m + 2 ^ 23 with Zpos p => S754_finite s p (e - 150) | _ => S754_nan end.

Definition bits32 (f : spec_float) : Z :=
  let sign (s : bool) := if s then 2 ^ 31 else 0 in
  match f with
  | S754_zero s => sign s
  | S754_infinity s => sign s + 255 * 2 ^ 23
  | S754_nan => 255 * 2 ^ 23 + 2 ^ 22
  | S754_finite s m e =>
      if Zpos m <? 2 ^ 23 then sign s + Zpos m
      else sign s + (e + 150) * 2 ^ 23 + (Zpos m - 2 ^ 23)
  end.

(** A [double] cut to a [float]. *)
Definition to_float (f : spec_float) : spec_float :=
  match f with
  | S754_finite s m e => binary_normalize 24 128 (if s then Zneg m else Zpos m) e s
  | _ => f
  end.

Definition fadd := SFadd 24 128.
Definition fsub := SFsub 24 128.
Definition fmul := SFmul 24 128.
Definition fdiv := SFdiv 24 128.
(** [(float)u], and [(uint32_t)f], undefined when the value is out of range. *)
Definition float_of_u32 (u : Z) : spec_float := binary_normalize 24 128 u 0 false.
Definition u32_of_float (f : spec_float) : sim Z :=
  match f with
  | S754_zero _ => Done 0
  | S754_finite s m e =>
      let v := Z.shiftl (Zpos m) e in
      if s then (if v =? 0 then Done 0 else Wild)
      else if v <? u32_mod then Done v else Wild
  | _ => Wild
  end.
Definition fzero : spec_float := S754_zero false.
Definition fone : spec_float := float_of_u32 1.
(** The [double] constants 1000000.0 and 0.15. *)
Definition d_million : spec_float := S754_finite false 1000000 0.
Definition d_015 : spec_float := S754_finite false 5404319552844595 (-55).

Definition fabs_cpp (f : spec_float) : spec_float := if SFleb fzero f then f else SFopp f.
Definition to_fixed (f : spec_float) : spec_float := to_float (SFmul 53 1024 f d_million).

(** ** The commands *)

Section coprocessor.
(** PIM_SREG_ADDR, PIM_ADDRESS_BASE and the place of the vector register. *)
Context (sreg base vreg vreg_size : Z).

Definition sreg_at (i : Z) : Z := sreg + 4 * i.
Definition getf (m : bytes) (a : Z) : sim spec_float := u ← ld32 m a; Done (f32 u).
Definition setf (m : bytes) (a : Z) (f : spec_float) : sim bytes := st32 m a (bits32 f).

(** [node_pr_32] at [a]: page_rank, next_rank and three more words. *)
Definition node_size : Z := 20.

(** The loop of CMD_CUSTOM_PR1 over [count] nodes. *)
Fixpoint pr_loop (count : nat) (m : bytes) (a : Z) (fresh_rank diff : spec_float)
  : sim (bytes * spec_float) :=
  match count with
  | O => Done (m, diff)
  | S count' =>
      next ← getf m (a + 4);
      page ← getf m a;
      let f := fsub next page in
      let f' := if SFltb f fzero then SFopp f else f in
      m1 ← setf m a next;
      m2 ← setf m1 (a + 4) fresh_rank;
      pr_loop count' m2 (a + node_size) fresh_rank (fadd diff f')
  end.

Definition run_coprocessor_32b (m : bytes) (cmd : Z) : sim bytes :=
  let S0 := sreg_at 0 in let S1 := sreg_at 1 in let S2 := sreg_at 2 in let S3 := sreg_at 3 in
  let binary (op : spec_float -> spec_float -> spec_float) (dst : Z) :=
    op0 ← getf m S0; op1 ← getf m S1; setf m dst (op op0 op1) in
  if cmd =? 0 then Done m                                              (* CMD_NOP *)
  else if cmd =? 1 then u ← ld32 m S0; setf m S1 (float_of_u32 u)      (* CMD_TO_FLOAT *)
  else if cmd =? 9 then                                                (* CMD_TO_FIXED *)
    f ← getf m S0; u ← u32_of_float (to_fixed f); st32 m S1 u
  else if cmd =? 2 then binary fdiv S2                                 (* CMD_FDIV *)
  else if cmd =? 3 then binary fmul S2                                 (* CMD_FMUL *)
  else if cmd =? 4 then binary (fun x y => if SFltb y x then fone else fzero) S2  (* CMD_FCMP *)
  else if cmd =? 6 then binary fsub S2                                 (* CMD_FSUB *)
  else if cmd =? 5 then binary fadd S1                                 (* CMD_FACC *)
  else if cmd =? 7 then op0 ← getf m S0; setf m S1 (fabs_cpp op0)      (* CMD_FABS *)
  else if cmd =? 8 then op0 ← getf m S0; Done m                        (* CMD_FPRINT *)
  else if cmd =? 10 then                                               (* CMD_CUSTOM_PR1 *)
    p ← ld32 m S0; count ← ld32 m S1; NODES ← ld32 m S2;
    let addr := p + base in
    _ ← check (vreg <=? addr);
    _ ← check (addr <? vreg + vreg_size);
    '(m1, diff) ← pr_loop (Z.to_nat count) m addr
                    (to_float (SFdiv 53 1024 d_015 (float_of_u32 NODES))) fzero;
    setf m1 S3 diff
  else Halt.

Definition run_coprocessor_64b (m : bytes) (cmd : Z) : sim bytes :=
  if cmd =? 0 then Done m else Halt.
End coprocessor.

(** ** Bits *)

Lemma f32_parts u : is_u32 u ->
  let e := u / 2 ^ 23 mod 256 in let m := u mod 2 ^ 23 in
  Z.testbit u 31 = (2 ^ 31 <=? u) /\ Z.land (Z.shiftr u 23) 255 = e /\ Z.land u (2 ^ 23 - 1) = m /\
  u = (if 2 ^ 31 <=? u then 2 ^ 31 else 0) + e * 2 ^ 23 + m /\ 0 <= m < 2 ^ 23 /\ 0 <= e < 256.
Proof.
  intros Hu. unfold is_u32, u32_mod in Hu. cbv zeta. split_and!.
  - destruct (Z.leb_spec (2 ^ 31) u).
    + replace u with (u - 2 ^ 31 + 1 * 2 ^ 31) by lia. rewrite Z.testbit_true by lia.
      rewrite Z.div_add, (Z.div_small (u - 2 ^ 31)) by lia. done.
    + rewrite Z.testbit_false by lia. rewrite Z.div_small by lia. done.
  - change 255 with (Z.ones 8). rewrite Z.land_ones, Z.shiftr_div_pow2 by lia. done.
  - change (2 ^ 23 - 1) with (Z.ones 23). by rewrite Z.land_ones by lia.
  - assert (E : u / 2 ^ 23 / 256 = if 2 ^ 31 <=? u then 1 else 0).
    { rewrite Z.div_div by lia. change (2 ^ 23 * 256) with (2 ^ 31). destruct (Z.leb_spec (2 ^ 31) u).
      - symmetry. apply (Z.div_unique u (2 ^ 31) 1 (u - 2 ^ 31)); lia.
      - by rewrite Z.div_small by lia. }
    pose proof (Z.div_mod u (2 ^ 23) ltac:(lia)). pose proof (Z.div_mod (u / 2 ^ 23) 256 ltac:(lia)) as H2.
    rewrite E in H2. destruct (2 ^ 31 <=? u); lia.
  - apply Z.mod_pos_bound. lia.
  - apply Z.mod_pos_bound. lia.
  - apply Z.mod_pos_bound. lia.
  - apply Z.mod_pos_bound. lia.
Qed.

(** The bits of a number that is no NaN. *)
Lemma bits32_f32 u : is_u32 u -> f32 u <> S754_nan -> bits32 (f32 u) = u.
Proof.
  intros Hu. destruct (f32_parts u Hu) as (Hs & He & Hm & Eu & Rm & Re). unfold f32. rewrite Hs, He, Hm.
  set (e := u / 2 ^ 23 mod 256) in *. set (m := u mod 2 ^ 23) in *. set (s := 2 ^ 31 <=? u) in *.
  destruct (Z.eqb_spec e 255) as [E|E].
  - destruct (Z.eqb_spec m 0) as [E0|]; [|done]. intros _. cbn [bits32]. destruct s; lia.
  - destruct (Z.eqb_spec e 0) as [E0|E0].
    + destruct m as [|p|p] eqn:Em; [intros _; cbn [bits32]; destruct s; lia| |lia]. intros _. cbn [bits32].
      destruct (Z.ltb_spec (Z.pos p) (2 ^ 23)); [|lia]. destruct s; lia.
    + destruct (m + 2 ^ 23) as [|p|p] eqn:Em; [lia| |lia]. intros _. cbn [bits32].
      destruct (Z.ltb_spec (Z.pos p) (2 ^ 23)); [lia|]. destruct s; lia.
Qed.

(** ** The page-rank step *)

(** The nodes at [a], as the words of their page_rank and next_rank. *)
Definition nodes_at (m : bytes) (a : Z) (l : list (Z * Z)) : Prop :=
  forall i p n, l !! i = Some (p, n) ->
    ld32 m (a + node_size * Z.of_nat i) = Done p /\ ld32 m (a + node_size * Z.of_nat i + 4) = Done n.

Definition rank_diff (p n : Z) : spec_float :=
  let f := fsub (f32 n) (f32 p) in if SFltb f fzero then SFopp f else f.
Definition total_diff (l : list (Z * Z)) (d : spec_float) : spec_float :=
  foldl (fun d '(p, n) => fadd d (rank_diff p n)) d l.

(** The word of a [float] in memory. *)
Definition float_word (f : spec_float) : Z := u32 (bits32 f).

(** A rank that is a number. *)
Definition rank_ok (pn : Z * Z) : Prop := is_u32 (snd pn) /\ f32 (snd pn) <> S754_nan.

Lemma nodes_at_tail m a x l : nodes_at m a (x :: l) -> nodes_at m (a + node_size) l.
Proof.
  intros H i p n Hi. replace (a + node_size + node_size * Z.of_nat i) with (a + node_size * Z.of_nat (S i)) by lia.
  by apply H.
Qed.

Lemma nodes_at_frame m m' a l :
  (forall b, a <= b < a + node_size * Z.of_nat (length l) -> m' !! b = m !! b) ->
  nodes_at m a l -> nodes_at m' a l.
Proof.
  intros Hf H i p n Hi. destruct (H i p n Hi) as [H1 H2]. unfold node_size in *. apply lookup_lt_Some in Hi.
  rewrite <- H1, <- H2. split; apply ld32_ext; intros k Hk; apply Hf; lia.
Qed.

Lemma pr_loop_spec fr l : forall m a d, Forall rank_ok l -> nodes_at m a l ->
  exists m', pr_loop (length l) m a fr d = Done (m', total_diff l d) /\
    nodes_at m' a ((fun pn => (snd pn, float_word fr)) <$> l) /\
    forall b, b < a \/ a + node_size * Z.of_nat (length l) <= b -> m' !! b = m !! b.
Proof.
  induction l as [|[p n] l IH]; intros m a d Hok Hn.
  { exists m. split; [done|]. split; [intros i p n; by destruct i|done]. }
  inversion_clear Hok as [|? ? [Hn32 Hnan] Hok']. simpl in Hn32, Hnan.
  destruct (Hn 0%nat p n eq_refl) as [Hp0 Hn0]. unfold node_size in Hp0, Hn0. rewrite Z.mul_0_r, Z.add_0_r in Hp0, Hn0.
  destruct (st32_total m a p n Hp0) as [m1 H1].
  assert (H1n : ld32 m1 (a + 4) = Done n) by (rewrite (ld32_other _ _ _ _ _ H1) by lia; done).
  destruct (st32_total m1 (a + 4) n (bits32 fr) H1n) as [m2 H2].
  assert (Hfix : forall b, a + node_size <= b \/ b < a -> m2 !! b = m !! b).
  { unfold node_size. intros b Hb. rewrite (st32_other _ _ _ _ _ H2), (st32_other _ _ _ _ _ H1) by lia. done. }
  destruct (IH m2 (a + node_size) (fadd d (rank_diff p n)) Hok') as (m3 & H3 & Hat & Hout).
  { eapply nodes_at_frame; [|exact (nodes_at_tail _ _ _ _ Hn)]. intros b Hb. apply Hfix. unfold node_size in *. lia. }
  exists m3. split_and!.
  - cbn [pr_loop length]. unfold getf, setf. rewrite Hn0. cbn [mbind sim_bind]. rewrite Hp0. cbn [mbind sim_bind].
    rewrite (bits32_f32 n), H1 by done. cbn [mbind sim_bind]. rewrite H2. exact H3.
  - intros [|i] p' n' Hi; simpl in Hi.
    + injection Hi as <- <-. unfold node_size. rewrite Z.mul_0_r, Z.add_0_r. unfold node_size in Hout.
      assert (E : forall b, b < a + 20 -> m3 !! b = m2 !! b) by (intros b Hb; apply Hout; lia).
      rewrite (ld32_ext m3 m2 a), (ld32_ext m3 m2 (a + 4)) by (intros k Hk; apply E; lia). split.
      * rewrite (ld32_other _ _ _ _ _ H2) by lia. by apply (ld32_same m).
      * by apply (ld32_store m1).
    + destruct (Hat i p' n' Hi) as [E1 E2].
      replace (a + node_size * Z.of_nat (S i)) with (a + node_size + node_size * Z.of_nat i) by lia. done.
  - intros b Hb. cbn [length] in Hb. unfold node_size in *. rewrite Hout by lia. apply Hfix. lia.
Qed.

(** ** Properties *)

(** The page-rank step of the coprocessor.  With the address, number and total of the
    nodes in the scalar registers, nodes inside the vector register whose next ranks are
    numbers, and scalar registers outside the nodes, the command makes every node's
    page_rank its next_rank, its next_rank 0.15 / NODES, leaves in the fourth scalar
    register the sum of the absolute changes, and changes nothing else. *)
Theorem page_rank_step sreg base vreg vreg_size m p NODES w l :
  ld32 m (sreg_at sreg 0) = Done p -> ld32 m (sreg_at sreg 1) = Done (Z.of_nat (length l)) ->
  ld32 m (sreg_at sreg 2) = Done NODES -> ld32 m (sreg_at sreg 3) = Done w ->
  vreg <= p + base < vreg + vreg_size -> nodes_at m (p + base) l -> Forall rank_ok l ->
  sreg + 16 <= p + base \/ p + base + node_size * Z.of_nat (length l) <= sreg ->
  let fresh_rank := float_word (to_float (SFdiv 53 1024 d_015 (float_of_u32 NODES))) in
  exists m', run_coprocessor_32b sreg base vreg vreg_size m 10 = Done m' /\
    nodes_at m' (p + base) ((fun pn => (snd pn, fresh_rank)) <$> l) /\
    ld32 m' (sreg_at sreg 3) = Done (float_word (total_diff l fzero)) /\
    forall b, (b < p + base \/ p + base + node_size * Z.of_nat (length l) <= b) ->
      (b < sreg_at sreg 3 \/ sreg_at sreg 3 + 4 <= b) -> m' !! b = m !! b.
Proof.
  intros H0 H1 H2 H3 Hv Hn Hok Hd fresh_rank.
  destruct (pr_loop_spec (to_float (SFdiv 53 1024 d_015 (float_of_u32 NODES))) l m (p + base) fzero Hok Hn) as (m1 & Hr & Hat & Hout).
  assert (H3' : ld32 m1 (sreg_at sreg 3) = Done w).
  { rewrite <- H3. apply ld32_ext. intros k Hk. apply Hout. unfold sreg_at. lia. }
  destruct (st32_total m1 _ w (bits32 (total_diff l fzero)) H3') as [m' Hs]. exists m'. split_and!.
  - unfold run_coprocessor_32b. cbn [Z.eqb Pos.eqb]. rewrite H0. cbn [mbind sim_bind]. rewrite H1. cbn [mbind sim_bind].
    rewrite H2. cbn [mbind sim_bind]. rewrite (proj2 (Z.leb_le vreg (p + base))), (proj2 (Z.ltb_lt (p + base) (vreg + vreg_size))) by lia.
    cbn [mbind sim_bind check]. rewrite Nat2Z.id, Hr. exact Hs.
  - eapply nodes_at_frame; [|exact Hat]. rewrite length_fmap. intros b Hb. apply (st32_other _ _ _ _ _ Hs).
    unfold sreg_at. lia.
  - by apply (ld32_store m1).
  - intros b Hb Hb'. rewrite (st32_other _ _ _ _ _ Hs) by lia. by apply Hout.
Qed.

(** ** Instances of the properties *)

(** Two nodes at offset 0x40, with ranks 1.0, 0.5 and 0.25, 1.0, of a graph of ten. *)
Definition pr_words : list (Z * Z) :=
  [(0x10, 0x40); (0x14, 2); (0x18, 10); (0x1c, 0); (0x40, 0x3f800000); (0x44, 0x3f000000);
   (0x54, 0x3e800000); (0x58, 0x3f800000)].
Definition pr_demo : bytes :=
  foldr (fun '(a, v) m => <[a := v mod 256]> (<[a + 1 := v / 2 ^ 8 mod 256]>
           (<[a + 2 := v / 2 ^ 16 mod 256]> (<[a + 3 := v / 2 ^ 24 mod 256]> m)))) ∅ pr_words.
Definition pr_nodes : list (Z * Z) := [(0x3f800000, 0x3f000000); (0x3e800000, 0x3f800000)].

Lemma page_rank_step_witness :
  exists m', run_coprocessor_32b 0x10 0 0x40 0x100 pr_demo 10 = Done m' /\
    nodes_at m' (0x40 + 0) [(0x3f000000, 0x3c75c28f); (0x3f800000, 0x3c75c28f)] /\
    ld32 m' 0x1c = Done 0x3fa00000.
Proof.
  destruct (page_rank_step 0x10 0 0x40 0x100 pr_demo 0x40 10 0 pr_nodes) as (m' & H1 & H2 & H3 & _).
  - vm_compute. reflexivity.
  - vm_compute. reflexivity.
  - vm_compute. reflexivity.
  - vm_compute. reflexivity.
  - lia.
  - intros [|[|i]] p n Hi; simplify_eq/=; split; vm_compute; reflexivity.
  - repeat constructor; try (vm_compute; congruence); vm_compute; discriminate.
  - left. lia.
  - exists m'. split; [exact H1|]. split; [exact H2|]. etransitivity; [exact H3|]. vm_compute. reflexivity.
Defined.
