(* ===== verification/AbstractMem.v ===== *)
(** * Memories of the simulator: accesses, exclusive monitor, atomic HMC commands

    Models [AbstractMemory] of src/SMC/GEM5/gem5/src/mem/abstract_mem.cc and abstract_mem.hh
    (the base class of the vaults and of the memory of the PIM device) with the table of
    memory commands of packet.cc.  The theorems show that load-locked and
    store-conditional accesses are atomic, what the atomic HMC commands of the device
    compute, and an access that the exclusive monitor misses.  Per-master statistics are
    left out. *)

From Stdlib Require Import Floats.SpecFloat.
From S2P Require Import Prelude ByteMem Coprocessor PimTask Tlb.

(** ** Commands *)

Inductive MemCmd :=
  | InvalidCmd | ReadReq | ReadResp | ReadRespWithInvalidate | WriteReq | WriteResp | Writeback
  | SoftPFReq | HardPFReq | SoftPFResp | HardPFResp | WriteInvalidateReq | WriteInvalidateResp
  | UpgradeReq | SCUpgradeReq | UpgradeResp | SCUpgradeFailReq | UpgradeFailResp | ReadExReq
  | ReadExResp | LoadLockedReq | StoreCondReq | StoreCondFailReq | StoreCondResp | SwapReq
  | SwapResp | MessageReq | MessageResp | InvalidDestError | BadAddressError
  | FunctionalReadError | FunctionalWriteError | PrintReq | FlushReq | InvalidationReq.
#[export] Instance MemCmd_eq_dec : EqDecision MemCmd.
Proof. solve_decision. Defined.

Inductive Attribute :=
  | IsRead | IsWrite | IsUpgrade | IsInvalidate | NeedsExclusive | IsRequest | IsResponse
  | NeedsResponse | IsSWPrefetch | IsHWPrefetch | IsLlsc | HasData | IsError | IsPrint | IsFlush.
#[export] Instance Attribute_eq_dec : EqDecision Attribute.
Proof. solve_decision. Defined.

(** [commandInfo]: the attributes of a command and its response. *)
Definition commandInfo (c : MemCmd) : list Attribute * MemCmd :=
  match c with
  | InvalidCmd => ([], InvalidCmd)
  | ReadReq => ([IsRead; IsRequest; NeedsResponse], ReadResp)
  | ReadResp => ([IsRead; IsResponse; HasData], InvalidCmd)
  | ReadRespWithInvalidate => ([IsRead; IsResponse; HasData; IsInvalidate], InvalidCmd)
  | WriteReq => ([IsWrite; NeedsExclusive; IsRequest; NeedsResponse; HasData], WriteResp)
  | WriteResp => ([IsWrite; NeedsExclusive; IsResponse], InvalidCmd)
  | Writeback => ([IsWrite; NeedsExclusive; IsRequest; HasData], InvalidCmd)
  | SoftPFReq => ([IsRead; IsRequest; IsSWPrefetch; NeedsResponse], SoftPFResp)
  | HardPFReq => ([IsRead; IsRequest; IsHWPrefetch; NeedsResponse], HardPFResp)
  | SoftPFResp => ([IsRead; IsResponse; IsSWPrefetch; HasData], InvalidCmd)
  | HardPFResp => ([IsRead; IsResponse; IsHWPrefetch; HasData], InvalidCmd)
  | WriteInvalidateReq =>
      ([IsWrite; NeedsExclusive; IsInvalidate; IsRequest; HasData; NeedsResponse], WriteInvalidateResp)
  | WriteInvalidateResp => ([IsWrite; NeedsExclusive; IsResponse], InvalidCmd)
  | UpgradeReq => ([IsInvalidate; NeedsExclusive; IsUpgrade; IsRequest; NeedsResponse], UpgradeResp)
  | SCUpgradeReq =>
      ([IsInvalidate; NeedsExclusive; IsUpgrade; IsLlsc; IsRequest; NeedsResponse], UpgradeResp)
  | UpgradeResp => ([NeedsExclusive; IsUpgrade; IsResponse], InvalidCmd)
  | SCUpgradeFailReq =>
      ([IsRead; NeedsExclusive; IsInvalidate; IsLlsc; IsRequest; NeedsResponse], UpgradeFailResp)
  | UpgradeFailResp => ([IsRead; NeedsExclusive; IsResponse; HasData], InvalidCmd)
  | ReadExReq => ([IsRead; NeedsExclusive; IsInvalidate; IsRequest; NeedsResponse], ReadExResp)
  | ReadExResp => ([IsRead; NeedsExclusive; IsResponse; HasData], InvalidCmd)
  | LoadLockedReq => ([IsRead; IsLlsc; IsRequest; NeedsResponse], ReadResp)
  | StoreCondReq => ([IsWrite; NeedsExclusive; IsLlsc; IsRequest; NeedsResponse; HasData], StoreCondResp)
  | StoreCondFailReq =>
      ([IsWrite; NeedsExclusive; IsLlsc; IsRequest; NeedsResponse; HasData], StoreCondResp)
  | StoreCondResp => ([IsWrite; NeedsExclusive; IsLlsc; IsResponse], InvalidCmd)
  | SwapReq => ([IsRead; IsWrite; NeedsExclusive; IsRequest; HasData; NeedsResponse], SwapResp)
  | SwapResp => ([IsRead; IsWrite; NeedsExclusive; IsResponse; HasData], InvalidCmd)
  | MessageReq => ([IsWrite; IsRequest; NeedsResponse; HasData], MessageResp)
  | MessageResp => ([IsWrite; IsResponse], InvalidCmd)
  | InvalidDestError => ([IsResponse; IsError], InvalidCmd)
  | BadAddressError => ([IsResponse; IsError], InvalidCmd)
  | FunctionalReadError => ([IsRead; IsResponse; IsError], InvalidCmd)
  | FunctionalWriteError => ([IsWrite; IsResponse; IsError], InvalidCmd)
  | PrintReq => ([IsRequest; IsPrint], InvalidCmd)
  | FlushReq => ([IsRequest; IsFlush; NeedsExclusive], InvalidCmd)
  | InvalidationReq => ([NeedsExclusive; IsInvalidate; IsRequest], InvalidCmd)
  end.

Definition testCmdAttrib (c : MemCmd) (a : Attribute) : bool := bool_decide (a ∈ fst (commandInfo c)).
Definition responseCommand (c : MemCmd) : MemCmd := snd (commandInfo c).

(** ** Packets and memories *)

(** A packet with its request: [k_paddr] is the address of the request, which stays the same
    when the address of the packet is remapped; [k_extra] is the extra data. *)
Record mpkt := mkMPkt {
  k_cmd : MemCmd;
  k_addr : Z;
  k_data : list Z;
  k_inhibited : bool;
  k_hmc : hmc;
  k_operand : Z;
  k_paddr : Z;
  k_context : Z;
  k_extra : Z;
  k_condswap : bool;
  k_ifetch : bool;
}.

Definition k_size (p : mpkt) : Z := Z.of_nat (length (k_data p)).
Definition set_cmd (p : mpkt) (c : MemCmd) : mpkt :=
  mkMPkt c (k_addr p) (k_data p) (k_inhibited p) (k_hmc p) (k_operand p) (k_paddr p) (k_context p)
         (k_extra p) (k_condswap p) (k_ifetch p).
Definition set_data (p : mpkt) (l : list Z) : mpkt :=
  mkMPkt (k_cmd p) (k_addr p) l (k_inhibited p) (k_hmc p) (k_operand p) (k_paddr p) (k_context p)
         (k_extra p) (k_condswap p) (k_ifetch p).
Definition clear_hmc (p : mpkt) : mpkt :=
  mkMPkt (k_cmd p) (k_addr p) (k_data p) (k_inhibited p) HMC_NONE (k_operand p) (k_paddr p)
         (k_context p) (k_extra p) (k_condswap p) (k_ifetch p).
Definition setExtraData (p : mpkt) (v : Z) : mpkt :=
  mkMPkt (k_cmd p) (k_addr p) (k_data p) (k_inhibited p) (k_hmc p) (k_operand p) (k_paddr p)
         (k_context p) v (k_condswap p) (k_ifetch p).

Definition k_is (a : Attribute) (p : mpkt) : bool := testCmdAttrib (k_cmd p) a.

(** [Packet::makeResponse] *)
Definition make_response (p : mpkt) : sim mpkt :=
  _ ← check (k_is NeedsResponse p);
  _ ← check (k_is IsRequest p);
  Done (set_cmd p (responseCommand (k_cmd p))).

Record LockedAddr := mkLocked { l_addr : Z; l_context : Z }.
Definition mask (paddr : Z) : Z := Z.ldiff paddr 15.

(** [pmem] is absent for a memory without storage. *)
Record amem := mkMem {
  am_range : AddrRange;
  pmem : option bytes;
  lockedAddrList : list LockedAddr;
  atomic_inc_count : Z;
  atomic_fadd_count : Z;
  atomic_min_count : Z;
}.

Definition set_pmem (st : amem) (m : bytes) : amem :=
  mkMem (am_range st) (Some m) (lockedAddrList st) (atomic_inc_count st) (atomic_fadd_count st)
        (atomic_min_count st).
Definition set_locked (st : amem) (l : list LockedAddr) : amem :=
  mkMem (am_range st) (pmem st) l (atomic_inc_count st) (atomic_fadd_count st) (atomic_min_count st).
Definition add_counts (st : amem) (i f n : Z) : amem :=
  mkMem (am_range st) (pmem st) (lockedAddrList st) (atomic_inc_count st + i)
        (atomic_fadd_count st + f) (atomic_min_count st + n).

Definition isSubset (a b : AddrRange) : bool := (r_start b <=? r_start a) && (r_end a <=? r_end b).

(** ** The exclusive monitor *)

(** [trackLoadLocked] *)
Fixpoint modify_lock (l : list LockedAddr) (ctx paddr : Z) : option (list LockedAddr) :=
  match l with
  | [] => None
  | i :: l' =>
      if l_context i =? ctx then Some (mkLocked paddr (l_context i) :: l')
      else l'' ← modify_lock l' ctx paddr; Some (i :: l'')
  end.
Definition trackLoadLocked (st : amem) (p : mpkt) : amem :=
  let paddr := mask (k_paddr p) in
  set_locked st (match modify_lock (lockedAddrList st) (k_context p) paddr with
                 | Some l => l
                 | None => mkLocked paddr (k_context p) :: lockedAddrList st
                 end).

(** [checkLockedAddrList]: the answer, and the contexts that are woken up. *)
Definition holds_lock (l : list LockedAddr) (ctx paddr : Z) : bool :=
  existsb (fun i => (l_addr i =? paddr) && (l_context i =? ctx)) l.
Definition checkLockedAddrList (st : amem) (p : mpkt) : amem * mpkt * bool * list Z :=
  let paddr := mask (k_paddr p) in
  let isLLSC := k_is IsLlsc p in
  let allowStore := if isLLSC then holds_lock (lockedAddrList st) (k_context p) paddr else true in
  let p1 := if isLLSC then setExtraData p (if allowStore then 1 else 0) else p in
  if allowStore then
    (set_locked st (filter (fun i => l_addr i <> paddr) (lockedAddrList st)), p1, true,
     l_context <$> filter (fun i => l_addr i = paddr) (lockedAddrList st))
  else (st, p1, false, []).

Definition writeOK (st : amem) (p : mpkt) : amem * mpkt * bool * list Z :=
  match lockedAddrList st with
  | [] =>
      let isLLSC := k_is IsLlsc p in
      (st, if isLLSC then setExtraData p 0 else p, negb isLLSC, [])
  | _ => checkLockedAddrList st p
  end.

(** ** Accesses *)

(** The atomic HMC commands on the bytes at [a]; [s] is the size of the packet. *)
Definition hmc_access (st : amem) (m : bytes) (cmd : hmc) (a s operand : Z) : sim amem :=
  match cmd with
  | HMC_CMD_INC =>
      if s =? 4 then
        l ← load m a 4; m1 ← store m a (bytes_word 4 (word_of l + 1));
        Done (add_counts (set_pmem st m1) 1 0 0)
      else if s =? 8 then
        l ← load m a 8; m1 ← store m a (bytes_word 8 (word_of l + 1));
        Done (add_counts (set_pmem st m1) 1 0 0)
      else Halt
  | HMC_CMD_FADD =>
      l ← load m a 4;
      m1 ← store m a (bytes_word 4 (bits32 (fadd (f32 (word_of l)) (f32 (u32 operand)))));
      Done (add_counts (set_pmem st m1) 0 1 0)
  | HMC_CMD_MIN =>
      if s =? 4 then
        l ← load m a 4;
        let n := u32 operand in
        m1 ← (if n <? word_of l then store m a (bytes_word 4 n) else Done m);
        Done (add_counts (set_pmem st m1) 0 0 1)
      else Halt
  | HMC_NONE => Done st
  end.

Definition swap_access (st : amem) (p : mpkt) : sim (amem * mpkt) :=
  match pmem st with
  | None => Halt
  | Some m =>
      old ← load m (k_addr p) (length (k_data p));
      overwrite ← (if k_condswap p then
                     if k_size p =? 8 then Done (bool_decide (old = bytes_word 8 (k_extra p)))
                     else if k_size p =? 4 then Done (bool_decide (old = bytes_word 4 (k_extra p)))
                     else Halt
                   else Done true);
      m1 ← (if (overwrite : bool) then store m (k_addr p) (k_data p) else Done m);
      _ ← check (negb (k_ifetch p));
      Done (set_pmem st m1, set_data p old)
  end.

Definition read_access (st : amem) (p : mpkt) : sim (amem * mpkt) :=
  _ ← check (negb (k_is IsWrite p));
  let st1 := if k_is IsLlsc p then trackLoadLocked st p else st in
  match pmem st with
  | Some m => l ← load m (k_addr p) (length (k_data p)); Done (st1, set_data p l)
  | None => Done (st1, p)
  end.

Definition write_access (st : amem) (p : mpkt) : sim (amem * mpkt * list Z) :=
  let '(st1, p1, ok, woken) := writeOK st p in
  if (ok : bool) then
    r ← match pmem st1 with
        | None => Done (st1, p1)
        | Some m =>
            match k_hmc p1 with
            | HMC_NONE => m1 ← store m (k_addr p1) (k_data p1); Done (set_pmem st1 m1, p1)
            | cmd =>
                st2 ← hmc_access st1 m cmd (k_addr p1) (k_size p1) (k_operand p1);
                Done (st2, clear_hmc p1)
            end
        end;
    _ ← check (negb (k_ifetch p1));
    Done (r, woken)
  else Done (st1, p1, woken).

(** [AbstractMemory::access]: the memory, the packet, and the contexts woken up. *)
Definition access (st : amem) (p : mpkt) : sim (amem * mpkt * list Z) :=
  _ ← check (isSubset (mkRange (k_addr p) (u64 (k_addr p + k_size p - 1))) (am_range st));
  if k_inhibited p then Done (st, p, [])
  else
    '(st1, p1, woken) ←
      (if bool_decide (k_cmd p = SwapReq) then r ← swap_access st p; Done (r, [])
       else if k_is IsRead p then r ← read_access st p; Done (r, [])
       else if k_is IsWrite p then write_access st p
       else if k_is IsInvalidate p then Done (st, p, [])
       else Halt);
    p2 ← (if k_is NeedsResponse p1 then make_response p1 else Done p1);
    Done (st1, p2, woken).

(** [AbstractMemory::functionalAccess]; printing is left out. *)
Definition functionalAccess (st : amem) (p : mpkt) : sim (amem * mpkt) :=
  _ ← check (isSubset (mkRange (k_addr p) (u64 (k_addr p + k_size p - 1))) (am_range st));
  if k_is IsRead p then
    p1 ← match pmem st with
         | Some m => l ← load m (k_addr p) (length (k_data p)); Done (set_data p l)
         | None => Done p
         end;
    p2 ← make_response p1; Done (st, p2)
  else if k_is IsWrite p then
    st1 ← match pmem st with
          | Some m => m1 ← store m (k_addr p) (k_data p); Done (set_pmem st m1)
          | None => Done st
          end;
    p2 ← make_response p; Done (st1, p2)
  else if k_is IsPrint p then Done (st, p)
  else Halt.

(** ** Reservations *)

(** Context [x] holds a reservation of the granule [g]. *)
Definition reserved (st : amem) (x g : Z) : Prop := mkLocked g x ∈ lockedAddrList st.
(** One reservation per context. *)
Definition monitor_ok (st : amem) : Prop := NoDup (l_context <$> lockedAddrList st).

Definition is_ll (p : mpkt) : bool :=
  negb (k_inhibited p) && negb (bool_decide (k_cmd p = SwapReq)) && k_is IsRead p && k_is IsLlsc p.
Definition is_store (p : mpkt) : bool :=
  negb (k_inhibited p) && negb (bool_decide (k_cmd p = SwapReq)) && negb (k_is IsRead p) && k_is IsWrite p.
(** The packet is a store that the monitor takes for a store into the granule [g]: it compares the address of the request, not that of the packet, and it does not look
    at swaps; a store-conditional stores if it holds its reservation. *)
Definition monitored_store (st : amem) (p : mpkt) (g : Z) : bool :=
  is_store p && (mask (k_paddr p) =? g) &&
  (negb (k_is IsLlsc p) || holds_lock (lockedAddrList st) (k_context p) g).

Lemma holds_lock_iff l x g : holds_lock l x g = true <-> mkLocked g x ∈ l.
Proof.
  unfold holds_lock. rewrite existsb_exists. split.
  - intros ([a c] & Hin & H). apply andb_true_iff in H as [H1%Z.eqb_eq H2%Z.eqb_eq]. simpl in *. subst.
    by apply list_elem_of_In.
  - intros H. exists (mkLocked g x). split; [by apply list_elem_of_In|]. simpl. by rewrite !Z.eqb_refl.
Qed.

Lemma modify_lock_spec l ctx a l' : NoDup (l_context <$> l) -> modify_lock l ctx a = Some l' ->
  l_context <$> l' = l_context <$> l /\
  forall x g, mkLocked g x ∈ l' <-> if decide (x = ctx) then g = a else mkLocked g x ∈ l.
Proof.
  revert l'. induction l as [|[b c] l IH]; intros l' Hnd H; [discriminate|].
  cbn in Hnd. apply NoDup_cons in Hnd as [Hc Hnd]. cbn [modify_lock l_context] in H.
  assert (Hx : forall g, mkLocked g c ∉ l).
  { intros g Hg. apply Hc. apply list_elem_of_fmap. exists (mkLocked g c). auto. }
  destruct (Z.eqb_spec c ctx) as [->|Hne].
  - injection H as <-. split; [done|]. intros x g. case_decide as E; rewrite !elem_of_cons; split.
    + subst. intros [H|H]; [congruence|by apply Hx in H].
    + intros ->. left. congruence.
    + intros [H|H]; [congruence|by right].
    + intros [H|H]; [congruence|by right].
  - apply bind_Some in H as (l'' & H1 & [= <-]). destruct (IH l'' Hnd H1) as [E1 E2].
    split; [cbn; by rewrite E1|]. intros x g. rewrite elem_of_cons, E2. case_decide as E; rewrite ?elem_of_cons.
    + split; [intros [H|H]; congruence|by right].
    + done.
Qed.

Lemma modify_lock_none l ctx a : modify_lock l ctx a = None -> ctx ∉ (l_context <$> l).
Proof.
  induction l as [|[b c] l IH]; intros H; [set_solver|]. cbn [modify_lock l_context] in H.
  destruct (Z.eqb_spec c ctx); [discriminate|]. destruct (modify_lock l ctx a); [discriminate|].
  cbn. rewrite not_elem_of_cons. auto.
Qed.

Lemma track_spec st p : monitor_ok st ->
  monitor_ok (trackLoadLocked st p) /\
  forall x g, reserved (trackLoadLocked st p) x g <->
    if decide (x = k_context p) then g = mask (k_paddr p) else reserved st x g.
Proof.
  unfold monitor_ok, reserved, trackLoadLocked. cbn [set_locked lockedAddrList]. intros Hnd.
  destruct (modify_lock _ _ _) as [l'|] eqn:E.
  - destruct (modify_lock_spec _ _ _ _ Hnd E) as [E1 E2]. rewrite E1. done.
  - pose proof (modify_lock_none _ _ _ E) as Hn. split; [by constructor|].
    intros x g. rewrite elem_of_cons. case_decide as Hx; split.
    + subst. intros [H|H]; [congruence|]. exfalso. apply Hn, list_elem_of_fmap. by exists (mkLocked g (k_context p)).
    + intros ->. left. congruence.
    + intros [H|H]; [congruence|done].
    + by right.
Qed.

Lemma writeOK_spec st p st' p' ok w : monitor_ok st -> writeOK st p = (st', p', ok, w) ->
  ok = negb (k_is IsLlsc p) || holds_lock (lockedAddrList st) (k_context p) (mask (k_paddr p)) /\
  monitor_ok st' /\ pmem st' = pmem st /\ am_range st' = am_range st /\
  p' = (if k_is IsLlsc p then setExtraData p (if ok then 1 else 0) else p) /\
  forall x h, reserved st' x h <-> reserved st x h /\ ~ (ok = true /\ h = mask (k_paddr p)).
Proof.
  intros Hm H. set (g := mask (k_paddr p)). unfold writeOK in H. destruct (lockedAddrList st) as [|k l] eqn:El.
  { injection H as <- <- <- <-. cbn. rewrite orb_false_r. split_and!; try done.
    - destruct (k_is IsLlsc p); done.
    - intros x h. unfold reserved. rewrite El. set_solver. }
  unfold checkLockedAddrList in H. rewrite El in H. fold g in H.
  set (ok' := if k_is IsLlsc p then holds_lock (k :: l) (k_context p) g else true) in H.
  assert (Hok : ok' = negb (k_is IsLlsc p) || holds_lock (k :: l) (k_context p) g)
    by (unfold ok'; by destruct (k_is IsLlsc p)).
  destruct ok' eqn:Eo; injection H as <- <- <- <-; split_and!; try done.
  - unfold monitor_ok in *. cbn [set_locked lockedAddrList]. rewrite El in Hm.
    eapply sublist_NoDup; [exact Hm|]. apply fmap_sublist, sublist_filter.
  - intros x h. unfold reserved. cbn [set_locked lockedAddrList]. rewrite list_elem_of_filter, El. cbn. naive_solver.
  - intros x h. naive_solver.
Qed.

(** One access and the reservations. *)
Lemma access_inv st p st' p' w : access st p = Done (st', p', w) ->
  (k_inhibited p = true /\ st' = st /\ p' = p) \/
  (k_inhibited p = false /\ exists p1,
    ((k_cmd p = SwapReq /\ swap_access st p = Done (st', p1)) \/
     (k_cmd p <> SwapReq /\ k_is IsRead p = true /\ read_access st p = Done (st', p1)) \/
     (k_cmd p <> SwapReq /\ k_is IsRead p = false /\ k_is IsWrite p = true /\
      write_access st p = Done (st', p1, w)) \/
     (k_cmd p <> SwapReq /\ k_is IsRead p = false /\ k_is IsWrite p = false /\ st' = st /\ p1 = p)) /\
    p' = if k_is NeedsResponse p1 then set_cmd p1 (responseCommand (k_cmd p1)) else p1).
Proof.
  unfold access. intros H. apply bind_Done in H as (u & _ & H).
  destruct (k_inhibited p) eqn:Ei; [left; sim_inv; done|]. right. split; [done|].
  apply bind_Done in H as ([[s1 p1] w1] & H1 & H). cbn beta iota in H.
  apply bind_Done in H as (p2 & H2 & H). injection H as -> -> ->. exists p1. split.
  - destruct (bool_decide (k_cmd p = SwapReq)) eqn:Es; [apply bool_decide_eq_true in Es|apply bool_decide_eq_false in Es].
    { left. sim_inv. done. }
    destruct (k_is IsRead p) eqn:Er; [right; left; sim_inv; done|].
    destruct (k_is IsWrite p) eqn:Ew; [right; right; left; done|].
    destruct (k_is IsInvalidate p) eqn:Ev; [|discriminate]. right. right. right. sim_inv. done.
  - destruct (k_is NeedsResponse p1) eqn:En; [|by sim_inv]. unfold make_response in H2. rewrite En in H2.
    cbn [check mbind sim_bind] in H2. by sim_inv.
Qed.

Lemma hmc_access_locks st m c a s o st' : hmc_access st m c a s o = Done st' ->
  lockedAddrList st' = lockedAddrList st.
Proof. destruct c; cbn [hmc_access]; intros H; repeat case_match; sim_inv; done. Qed.

Lemma write_access_locks st p st' p1 w : write_access st p = Done (st', p1, w) ->
  exists st1 p2 ok, writeOK st p = (st1, p2, ok, w) /\ lockedAddrList st' = lockedAddrList st1 /\
    k_extra p1 = k_extra p2 /\ (ok = false -> st' = st1).
Proof.
  unfold write_access. destruct (writeOK st p) as [[[st1 p2] ok] w1] eqn:E. intros H.
  exists st1, p2, ok. destruct ok; [|injection H as <- <- <-; done].
  apply bind_Done in H as ([st2 p3] & H1 & H). sim_inv. split_and!; try done.
  - destruct (pmem st1); [|by sim_inv]. destruct (k_hmc p2); sim_inv; try done; by eapply hmc_access_locks.
  - destruct (pmem st1); [|by sim_inv]. destruct (k_hmc p2); sim_inv; done.
Qed.

Lemma access_monitor st p st' p' w : monitor_ok st -> access st p = Done (st', p', w) ->
  monitor_ok st' /\
  forall x g, reserved st' x g <->
    if decide (is_ll p = true /\ x = k_context p) then g = mask (k_paddr p)
    else reserved st x g /\ monitored_store st p g = false.
Proof.
  intros Hm H. apply access_inv in H as [(Hi & -> & _)|(Hi & p1 & H & _)]; unfold is_ll, monitored_store, is_store; rewrite Hi.
  { cbn. split; [done|]. intros x g. rewrite decide_False by naive_solver. naive_solver. }
  cbn [negb andb]. destruct H as [[Hs H]|[(Hs & Hr & H)|[(Hs & Hr & Hw & H)|(Hs & Hr & Hw & -> & ->)]]].
  - rewrite bool_decide_eq_true_2 by done. cbn. unfold swap_access in H. destruct (pmem st) as [m|]; [|done]. sim_inv.
    split; [done|]. intros x g. rewrite decide_False by naive_solver. unfold reserved. naive_solver.
  - rewrite bool_decide_eq_false_2, Hr by done. cbn [negb andb]. unfold read_access in H. sim_inv.
    assert (st' = if k_is IsLlsc p then trackLoadLocked st p else st) as -> by (destruct (pmem st); by sim_inv).
    destruct (k_is IsLlsc p).
    + destruct (track_spec st p Hm) as [H1 H2]. split; [done|]. intros x g. rewrite H2.
      destruct (decide (x = k_context p)); [rewrite decide_True by done|rewrite decide_False by naive_solver]; naive_solver.
    + split; [done|]. intros x g. rewrite decide_False by naive_solver. naive_solver.
  - rewrite bool_decide_eq_false_2, Hr, Hw by done. cbn [negb andb].
    destruct (write_access_locks _ _ _ _ _ H) as (st1 & p2 & ok & Ho & Hl & _).
    destruct (writeOK_spec _ _ _ _ _ _ Hm Ho) as (Eo & Hm1 & _ & _ & _ & Hres).
    split; [unfold monitor_ok in *; by rewrite Hl|]. intros x h. rewrite decide_False by naive_solver.
    unfold reserved in *. rewrite Hl, Hres.
    destruct (Z.eqb_spec (mask (k_paddr p)) h) as [<-|]; cbn [andb]; [rewrite <- Eo; destruct ok; naive_solver|naive_solver].
  - rewrite bool_decide_eq_false_2, Hr, Hw by done. cbn [negb andb]. split; [done|]. intros x g.
    rewrite decide_False by naive_solver. naive_solver.
Qed.

(** ** Accesses and the bytes *)

Lemma mask_div a : mask a = a / 16 * 16.
Proof.
  unfold mask. change 15 with (Z.ones 4). rewrite Z.ldiff_ones_r by lia.
  by rewrite Z.shiftl_mul_pow2, Z.shiftr_div_pow2 by lia.
Qed.

(** A packet whose request has the address of the packet and that stays inside a granule;
    atomic HMC commands work on four bytes at least. *)
Definition tame (p : mpkt) : Prop :=
  k_cmd p <> SwapReq /\ k_paddr p = k_addr p /\ 0 < k_size p /\
  mask (k_addr p + k_size p - 1) = mask (k_addr p) /\ (k_hmc p <> HMC_NONE -> 4 <= k_size p).

Lemma tame_range p b : tame p -> k_addr p <= b < k_addr p + k_size p -> mask b = mask (k_paddr p).
Proof.
  intros (_ & -> & Hs & Hm & _) Hb. rewrite !mask_div in *. f_equal.
  pose proof (Z.div_le_mono (k_addr p) b 16 ltac:(lia) ltac:(lia)).
  pose proof (Z.div_le_mono b (k_addr p + k_size p - 1) 16 ltac:(lia) ltac:(lia)). lia.
Qed.

Lemma hmc_access_frame st m c a s o st' : hmc_access st m c a s o = Done st' -> c <> HMC_NONE -> 4 <= s ->
  exists m', pmem st' = Some m' /\ forall b, b < a \/ a + s <= b -> m' !! b = m !! b.
Proof.
  intros H Hc Hs. destruct c; [done| | |]; cbn [hmc_access] in H.
  - destruct (Z.eqb_spec s 4) as [->|]; [|destruct (Z.eqb_spec s 8) as [->|]; [|done]]; sim_inv; eexists;
      (split; [reflexivity|]); intros b Hb; eapply store_frame; [eassumption|by rewrite length_bytes_word|eassumption|by rewrite length_bytes_word].
  - sim_inv. eexists. split; [reflexivity|]. intros b Hb. eapply store_frame; [eassumption|]. rewrite length_bytes_word. lia.
  - destruct (Z.eqb_spec s 4) as [->|]; [|done]. apply bind_Done in H as (l & Hl & H). cbv zeta in H.
    apply bind_Done in H as (m1 & Hm1 & H). sim_inv. eexists. split; [reflexivity|]. intros b Hb.
    destruct (_ <? _); [|by sim_inv]. eapply store_frame; [eassumption|]. by rewrite length_bytes_word.
Qed.

(** An access that does not store into the granule leaves its bytes alone. *)
Lemma access_bytes st p st' p' w m g : monitor_ok st -> tame p -> access st p = Done (st', p', w) ->
  pmem st = Some m -> monitored_store st p g = false ->
  exists m', pmem st' = Some m' /\ forall b, mask b = g -> m' !! b = m !! b.
Proof.
  intros Hm Ht H Hp Hst. apply access_inv in H as [(_ & -> & _)|(Hi & p1 & H & _)]; [eauto|].
  destruct H as [[Hs _]|[(Hs & Hr & H)|[(Hs & Hr & Hw & H)|(Hs & Hr & Hw & -> & ->)]]]; [by destruct Ht| | |eauto].
  - unfold read_access in H. rewrite Hp in H. sim_inv. exists m. split; [|done]. by destruct (k_is IsLlsc p).
  - unfold monitored_store, is_store in Hst. rewrite Hi, bool_decide_eq_false_2, Hr, Hw in Hst by done. cbn [negb andb] in Hst.
    unfold write_access in H. destruct (writeOK st p) as [[[st1 p2] ok] w1] eqn:E.
    destruct (writeOK_spec _ _ _ _ _ _ Hm E) as (Eo & _ & Hp1 & _ & Hp2 & _). rewrite Hp in Hp1.
    destruct ok; [|injection H as <- <- <-; eauto].
    assert (Hg : mask (k_paddr p) <> g).
    { intros <-. rewrite Z.eqb_refl in Hst. cbn [andb] in Hst. congruence. }
    assert (Hout : forall b, mask b = g -> b < k_addr p \/ k_addr p + k_size p <= b).
    { intros b Hb. destruct (decide (k_addr p <= b < k_addr p + k_size p)) as [Hin|]; [|lia].
      by rewrite (tame_range p b Ht Hin) in Hb. }
    assert (k_addr p2 = k_addr p /\ k_data p2 = k_data p /\ k_hmc p2 = k_hmc p) as (Ea & Ed & Eh)
      by (rewrite Hp2; by destruct (k_is IsLlsc p)).
    apply bind_Done in H as ([st2 p3] & H1 & H). sim_inv. rewrite Hp1, Ea, Ed, Eh in H1.
    destruct Ht as (_ & _ & _ & _ & H4). unfold k_size in *. rewrite Ed in H1.
    destruct (k_hmc p) eqn:Ec.
    { sim_inv. eexists. split; [reflexivity|]. intros b Hb. eapply store_frame; [eassumption|]. by apply Hout. }
    all: apply bind_Done in H1 as (st3 & H1 & H2); sim_inv;
      destruct (hmc_access_frame _ _ _ _ _ _ _ H1) as (m' & Hm' & Hf); [done|by apply H4|];
      exists m'; split; [done|]; intros b Hb; apply Hf; by apply Hout.
Qed.

(** A run of accesses; the trace has every packet with the memory it found. *)
Fixpoint access_all (ps : list mpkt) (st : amem) : sim (amem * list (amem * mpkt)) :=
  match ps with
  | [] => Done (st, [])
  | p :: ps' =>
      '(st1, _, _) ← access st p;
      '(st2, tr) ← access_all ps' st1;
      Done (st2, (st, p) :: tr)
  end.

Lemma access_all_monitor x g : forall ps st st' tr m, monitor_ok st -> access_all ps st = Done (st', tr) ->
  Forall (fun p => is_ll p && (k_context p =? x) = false) ps -> pmem st = Some m ->
  monitor_ok st' /\
  (reserved st' x g <-> reserved st x g /\ Forall (fun sp => monitored_store (fst sp) (snd sp) g = false) tr) /\
  (Forall tame ps -> Forall (fun sp => monitored_store (fst sp) (snd sp) g = false) tr ->
   exists m', pmem st' = Some m' /\ forall b, mask b = g -> m' !! b = m !! b).
Proof.
  induction ps as [|p ps IH]; intros st st' tr m Hm H Hll Hp.
  { injection H as <- <-. split; [done|]. split; [|eauto]. split; [intros ?; by split; [|constructor]|by intros [? _]]. }
  cbn [access_all] in H. apply bind_Done in H as ([[st1 p1] w] & H1 & H). cbn beta iota in H.
  apply bind_Done in H as ([st2 tr'] & H2 & H). injection H as <- <-.
  inversion_clear Hll as [|? ? Hl1 Hl2].
  destruct (access_monitor _ _ _ _ _ Hm H1) as [Hm1 Hr1]. specialize (Hr1 x g). rewrite decide_False in Hr1.
  2:{ intros [Ea Eb]. rewrite Ea, Eb, Z.eqb_refl in Hl1. done. }
  assert (Hmem : exists m1, pmem st1 = Some m1).
  { apply access_inv in H1 as [(_ & -> & _)|(_ & q & H1 & _)]; [eauto|].
    destruct H1 as [[_ H1]|[(_ & _ & H1)|[(_ & _ & _ & H1)|(_ & _ & _ & -> & _)]]]; [| | |eauto].
    - unfold swap_access in H1. rewrite Hp in H1. sim_inv. eauto.
    - unfold read_access in H1. rewrite Hp in H1. sim_inv. by destruct (k_is IsLlsc p); eauto.
    - unfold write_access in H1. destruct (writeOK st p) as [[[s q1] ok] w'] eqn:E.
      destruct (writeOK_spec _ _ _ _ _ _ Hm E) as (_ & _ & Hs & _). rewrite Hp in Hs. destruct ok; [|injection H1 as <- <- <-; eauto].
      rewrite Hs in H1. apply bind_Done in H1 as ([s2 q2] & H3 & H1). sim_inv.
      destruct (k_hmc q1); sim_inv; [eauto| | |]; cbn [hmc_access] in *; repeat case_match; sim_inv; eauto. }
  destruct Hmem as [m1 Hp1]. destruct (IH _ _ _ _ Hm1 H2 Hl2 Hp1) as (Hm2 & Hr2 & Hb2).
  split; [done|]. split.
  - rewrite Hr2, Hr1, Forall_cons. cbn [fst snd]. tauto.
  - intros Ht Hs. apply Forall_cons in Ht as [Ht1 Ht2]. apply Forall_cons in Hs as [Hs1 Hs2]. cbn [fst snd] in Hs1.
    destruct (Hb2 Ht2 Hs2) as (m' & Hm' & Hb). destruct (access_bytes _ _ _ _ _ _ _ Hm Ht1 H1 Hp Hs1) as (m1' & Hp1' & Hb1).
    rewrite Hp1 in Hp1'. injection Hp1' as <-. exists m'. split; [done|]. intros b E. by rewrite Hb, Hb1.
Qed.

(** ** Properties *)

(** C12: Load-locked and store-conditional.  After a load-locked of a context and any accesses
    that are no load-locked of the same context, a store-conditional of the context to the
    same granule succeeds if and only if none of the accesses was a store, other than a swap, whose request has an address in the granule (a store-conditional that fails is none).
    If moreover the accesses were no swaps, stayed inside their granules and had packets with the addresses of
    their requests, then success implies that every byte of the granule is still what it was at the load.  Without these conditions it does not: the monitor does not see swaps and stores that
    were remapped on their way. *)
Theorem store_conditional_exclusive st0 ll st1 r1 w1 ps st2 tr sc st3 r3 w3 m0 g :
  monitor_ok st0 -> pmem st0 = Some m0 ->
  is_ll ll = true -> mask (k_paddr ll) = g -> access st0 ll = Done (st1, r1, w1) ->
  Forall (fun p => is_ll p && (k_context p =? k_context ll) = false) ps ->
  access_all ps st1 = Done (st2, tr) ->
  is_store sc = true -> k_is IsLlsc sc = true -> k_context sc = k_context ll ->
  mask (k_paddr sc) = g -> access st2 sc = Done (st3, r3, w3) ->
  (k_extra r3 = 1 <-> Forall (fun sp => monitored_store (fst sp) (snd sp) g = false) tr) /\
  (k_extra r3 = 1 -> Forall tame ps ->
   exists m2, pmem st2 = Some m2 /\ forall b, mask b = g -> m2 !! b = m0 !! b).
Proof.
  intros Hm0 Hp0 Hll Hg H1 Hps H2 Hst Hsc Hctx Hg' H3.
  destruct (access_monitor _ _ _ _ _ Hm0 H1) as [Hm1 Hr1].
  specialize (Hr1 (k_context ll) g). rewrite decide_True in Hr1 by done.
  assert (Hp1 : pmem st1 = Some m0).
  { unfold is_ll in Hll. rewrite !andb_true_iff, !negb_true_iff in Hll. destruct Hll as [[[Hi Hs] Hr] Hl].
    apply bool_decide_eq_false in Hs. apply access_inv in H1 as [(Hi' & _)|(_ & q & H1 & _)]; [congruence|].
    destruct H1 as [[? _]|[(_ & _ & H1)|[(_ & Hr' & _)|(_ & Hr' & _)]]]; [done| |congruence|congruence].
    unfold read_access in H1. rewrite Hp0, Hl in H1. by sim_inv. }
  destruct (access_all_monitor (k_context ll) g _ _ _ _ _ Hm1 H2 Hps Hp1) as (Hm2 & Hr2 & Hb2).
  assert (Hx : k_extra r3 = if holds_lock (lockedAddrList st2) (k_context sc) g then 1 else 0).
  { unfold is_store in Hst. rewrite !andb_true_iff, !negb_true_iff in Hst. destruct Hst as [[[Hi Hs] Hr] Hw].
    apply bool_decide_eq_false in Hs. apply access_inv in H3 as [(Hi' & _)|(_ & q & H3 & ->)]; [congruence|].
    destruct H3 as [[? _]|[(_ & Hr' & _)|[(_ & _ & _ & H3)|(_ & _ & Hw' & _)]]]; [done|congruence| |congruence].
    destruct (write_access_locks _ _ _ _ _ H3) as (s & p2 & ok & Ho & _ & He & _).
    destruct (writeOK_spec _ _ _ _ _ _ Hm2 Ho) as (Eo & _ & _ & _ & Ep & _).
    rewrite Hsc, Hg' in Eo. cbn [negb orb] in Eo. rewrite <- Eo, Ep, Hsc in *.
    destruct (k_is NeedsResponse q); cbn [set_cmd k_extra setExtraData] in *; done. }
  assert (Hiff : k_extra r3 = 1 <-> Forall (fun sp => monitored_store (fst sp) (snd sp) g = false) tr).
  { rewrite Hx, Hctx. pose proof (holds_lock_iff (lockedAddrList st2) (k_context ll) g) as Hh.
    unfold reserved in Hr2 at 1. rewrite Hr2, Hr1 in Hh. destruct (holds_lock (lockedAddrList st2) (k_context ll) g).
    - split; [intros _; apply (proj1 Hh eq_refl)|reflexivity].
    - split; [intros E; discriminate E|]. intros F. by discriminate (proj2 Hh (conj (eq_sym Hg) F)). }
  split; [done|]. intros He Ht. apply Hb2; [done|]. by apply Hiff.
Qed.

(** ** Atomic HMC commands of the processor *)

(** The packet of the TLB as the memory sees it; [paddr] and [ctx] are of its request. *)
Definition to_mem (c : tlb_conf) (p : packet) (paddr ctx : Z) : mpkt :=
  mkMPkt (if p_write p then WriteReq else ReadReq) (p_addr p)
         (p_data p ≫= bytes_word (Z.to_nat (Tlb.pim_arch c / 8))) (p_inhibited p) (ATOMIC_HMC_COMMAND p)
         (ATOMIC_HMC_OPERAND p) paddr ctx 0 false false.

Definition hmc_register (c : tlb_conf) (cmd : hmc) : Z :=
  match cmd with
  | HMC_CMD_INC => HMC_ATOMIC_INCR c
  | HMC_CMD_FADD => HMC_ATOMIC_FADD c
  | HMC_CMD_MIN => HMC_ATOMIC_IMIN c
  | HMC_NONE => 0
  end.
Definition hmc_registers_ok (c : tlb_conf) : Prop :=
  NoDup [0; HMC_ATOMIC_INCR c; HMC_ATOMIC_FADD c; HMC_ATOMIC_IMIN c; HMC_OPERAND c;
         PIM_DTLB_IDEAL_REFILL_REG c].

(** What a command makes of a word. *)
Definition hmc_result (cmd : hmc) (w operand : Z) : Z :=
  match cmd with
  | HMC_CMD_INC => u32 (w + 1)
  | HMC_CMD_FADD => float_word (fadd (f32 w) (f32 (u32 operand)))
  | HMC_CMD_MIN => Z.min w (u32 operand)
  | HMC_NONE => w
  end.

Lemma hmc_check c st p cmd t : hmc_registers_ok c -> Tlb.pim_arch c = 32 -> cmd <> HMC_NONE ->
  p_addr p = hmc_register c cmd -> p_write p = true -> p_size p = 4 -> p_data p = [t] -> 0 < t < u32_mod ->
  exists operand, check_hmc_command c st p = Done (st, set_hmc p cmd operand, t) /\
    (cmd <> HMC_CMD_INC -> operand = hmc_operand st).
Proof.
  intros Hn Ha Hc Hp Hw Hs Hd Ht. unfold hmc_registers_ok in Hn. rewrite !NoDup_cons, !not_elem_of_cons in Hn.
  destruct_and! Hn.
  assert (Hb : forall o, hmc_branch c p cmd o = Done (set_hmc p cmd o, t, false)).
  { intros o. unfold hmc_branch, hmc_target, data_word. rewrite Hs, Ha, Hd. cbn [check mbind sim_bind lookup list_lookup elem].
    change (4 =? 32 / 8) with true. cbn [check mbind sim_bind]. change (32 =? 32) with true. cbn beta iota.
    rewrite u32_small by (unfold is_u32; lia). destruct (Z.eqb_spec t NO_ADDR) as [E|]; [unfold NO_ADDR, u64_mod, u32_mod in *; lia|].
    cbn [negb check mbind sim_bind]. destruct (Z.eqb_spec t 0); [lia|]. done. }
  exists (match cmd with HMC_CMD_INC => ATOMIC_HMC_OPERAND p | _ => hmc_operand st end). split; [|by destruct cmd].
  unfold check_hmc_command. rewrite Hp, Hw.
  destruct cmd; [done| | |]; cbn [hmc_register];
    repeat (rewrite Z.eqb_refl || (rewrite (proj2 (Z.eqb_neq _ _)) by congruence)); cbn [andb];
    rewrite Hb; sim_step; done.
Qed.

Lemma bytes_word_u32 v : bytes_word 4 (u32 v) = bytes_word 4 v.
Proof. apply (bytes_word_mod 4). Qed.

(** A command on a word of memory. *)
Lemma hmc_access_word st m cmd a l operand : cmd <> HMC_NONE ->
  load m a 4 = Done l -> Forall (fun b => 0 <= b < 256) l ->
  exists st' m', hmc_access st m cmd a 4 operand = Done st' /\ pmem st' = Some m' /\
    load m' a 4 = Done (bytes_word 4 (hmc_result cmd (word_of l) operand)) /\
    forall b, b < a \/ a + 4 <= b -> m' !! b = m !! b.
Proof.
  intros Hc Hl Hb. destruct (load_inv _ _ _ _ Hl) as (Hlen & _).
  assert (Hst : forall v, exists m', store m a (bytes_word 4 v) = Done m' /\
            load m' a 4 = Done (bytes_word 4 v) /\ forall b, b < a \/ a + 4 <= b -> m' !! b = m !! b)
    by (intros v; apply (store_load m a l (bytes_word 4 v)); exact Hl).
  destruct cmd; [done| | |]; cbn [hmc_access hmc_result].
  - destruct (Hst (word_of l + 1)) as (m' & H1 & H2 & H3). change (4 =? 4) with true. cbn beta iota. rewrite Hl.
    cbn [mbind sim_bind]. rewrite H1. cbn [mbind sim_bind]. rewrite bytes_word_u32. eauto 10.
  - destruct (Hst (bits32 (fadd (f32 (word_of l)) (f32 (u32 operand))))) as (m' & H1 & H2 & H3). rewrite Hl.
    cbn [mbind sim_bind]. rewrite H1. cbn [mbind sim_bind]. unfold float_word. rewrite bytes_word_u32. eauto 10.
  - change (4 =? 4) with true. cbn beta iota. rewrite Hl. cbn [mbind sim_bind]. cbv zeta.
    destruct (Z.ltb_spec (u32 operand) (word_of l)) as [E|E].
    + destruct (Hst (u32 operand)) as (m' & H1 & H2 & H3). rewrite H1. cbn [mbind sim_bind].
      rewrite Z.min_r by lia. eauto 10.
    + cbn [mbind sim_bind]. rewrite Z.min_l, <- Hlen, bytes_word_of by (lia || done). eexists _, m.
      split; [reflexivity|]. by rewrite Hlen.
Qed.

Lemma hmc_access_write st m cmd p l : cmd <> HMC_NONE -> pmem st = Some m -> k_cmd p = WriteReq ->
  k_inhibited p = false -> k_ifetch p = false -> k_hmc p = cmd -> k_size p = 4 ->
  isSubset (mkRange (k_addr p) (u64 (k_addr p + 3))) (am_range st) = true ->
  load m (k_addr p) 4 = Done l -> Forall (fun b => 0 <= b < 256) l ->
  exists st' p' w m', access st p = Done (st', p', w) /\ pmem st' = Some m' /\
    load m' (k_addr p) 4 = Done (bytes_word 4 (hmc_result cmd (word_of l) (k_operand p))) /\
    forall b, b < k_addr p \/ k_addr p + 4 <= b -> m' !! b = m !! b.
Proof.
  intros Hc Hp Hw Hi Hf Hh Hs Hr Hl Hb. destruct p as [c0 a0 d0 i0 h0 o0 pa0 x0 e0 s0 f0]. simpl in *. subst.
  unfold access. cbn [k_addr k_size k_inhibited k_cmd]. rewrite Hs.
  replace (a0 + 4 - 1) with (a0 + 3) by lia. rewrite Hr. cbn [check mbind sim_bind].
  unfold k_is at 1 2 3. cbn [k_cmd]. rewrite bool_decide_eq_false_2 by done.
  change (testCmdAttrib WriteReq IsRead) with false. change (testCmdAttrib WriteReq IsWrite) with true. cbn beta iota.
  unfold write_access. destruct (writeOK st _) as [[[st1 p1] ok] w1] eqn:Eo.
  assert (ok = true /\ p1 = mkMPkt WriteReq a0 d0 false cmd o0 pa0 x0 e0 s0 false /\ pmem st1 = Some m) as (-> & -> & Hp1).
  { unfold writeOK, checkLockedAddrList, k_is in Eo. cbn [k_cmd k_paddr k_context] in Eo.
    change (testCmdAttrib WriteReq IsLlsc) with false in Eo. cbn [negb] in Eo.
    destruct (lockedAddrList st); injection Eo as <- <- <- <-; done. }
  rewrite Hp1. cbn [k_hmc k_addr k_operand k_ifetch]. rewrite Hs.
  destruct (hmc_access_word st1 m cmd a0 l o0 Hc Hl Hb) as (st' & m' & H1 & H2 & H3 & H4).
  destruct cmd; [done| | |]; rewrite H1; cbn [mbind sim_bind check k_ifetch clear_hmc negb]; cbn beta iota;
    eexists st', _, w1, m'; (split; [reflexivity|done]).
Qed.

(** C32: The atomic commands of the device.  In atomic mode, a 32-bit processor that writes the address of a
    word of its data to one of the command registers makes the memory
    execute the command on the word at the physical address: increment, minimum with or
    floating-point addition of the operand register; every other byte is unchanged.  The rule for the word must be in the TLB (on a miss the simulator stops, see [tlb_hmc_atomic_miss] of Tlb.v) and the
    word in the range of the memory. *)
Theorem hmc_command_executed c mem phys tbl vstart ptr r0 r0' now st cmd t op mm m l ctx :
  device_ok c mem phys tbl vstart ptr r0 -> tlb_inv c tbl vstart ptr r0 r0' st ->
  hmc_registers_ok c -> Tlb.pim_arch c = 32 -> cmd <> HMC_NONE ->
  0 < t -> in_data c phys vstart t -> is_Some (find_rule (originalRanges st) t 0) ->
  let a := translate c phys vstart t in
  pmem mm = Some m -> load m a 4 = Done l -> Forall (fun b => 0 <= b < 256) l ->
  isSubset (mkRange a (u64 (a + 3))) (am_range mm) = true ->
  let p := mkPkt (hmc_register c cmd) true 4 [t] true false false HMC_NONE op [] in
  exists st' q p', recvAtomic c now mem st p = Done (st', [MasterReq q], p') /\
    exists mm' q' w m', access mm (to_mem c q (hmc_register c cmd) ctx) = Done (mm', q', w) /\
      pmem mm' = Some m' /\
      load m' a 4 = Done (bytes_word 4 (hmc_result cmd (word_of l) (hmc_operand st))) /\
      forall b, b < a \/ a + 4 <= b -> m' !! b = m !! b.
Proof.
  intros Hdv Hi Hreg Harch Hc Ht0 Ht [x Hx] a Hp Hl Hb Hr p.
  pose proof (dv_vstart _ _ _ _ _ _ _ Hdv) as [Hv0 Hv1].
  pose proof (translate_bound c mem phys tbl vstart ptr r0 Hdv t Ht) as Htb. fold a in Htb.
  assert (Ht32 : 0 < t < u32_mod) by (unfold in_data in Ht; lia).
  destruct (hmc_check c st p cmd t Hreg Harch Hc eq_refl eq_refl eq_refl eq_refl Ht32) as (o & Hck & Ho).
  destruct (remap_data c mem phys tbl vstart ptr r0 r0' Hdv now st t Hi Ht) as (s1 & _ & _ & _ & Hrs1).
  rewrite Hx in Hrs1. fold a in Hrs1.
  exists s1, (setAddr (set_hmc p cmd o) a). eexists. split.
  { unfold recvAtomic. cbn [p_addr p].
    assert ((hmc_register c cmd =? PIM_DTLB_IDEAL_REFILL_REG c) = false) as ->.
    { apply Z.eqb_neq. unfold hmc_registers_ok in Hreg. rewrite !NoDup_cons, !not_elem_of_cons in Hreg.
      destruct_and! Hreg. destruct cmd; cbn; congruence. }
    rewrite andb_false_r. fold p. rewrite Hck. sim_step. destruct (Z.eqb_spec t 0); [lia|].
    rewrite Hrs1. sim_step.
    destruct (Z.eqb_spec a NO_ADDR); [unfold NO_ADDR, u64_mod, u32_mod in *; lia|]. reflexivity. }
  destruct (hmc_access_write mm m cmd (to_mem c (setAddr (set_hmc p cmd o) a) (hmc_register c cmd) ctx) l)
    as (mm' & q' & w & m' & H1 & H2 & H3 & H4); try done.
  { unfold k_size, to_mem, set_hmc, p. cbn [k_data p_data setAddr]. by rewrite Harch. }
  exists mm', q', w, m'. split; [done|]. split; [done|]. split; [|done].
  cbn [k_addr k_operand to_mem setAddr p_addr] in H3. rewrite H3. f_equal. f_equal.
  destruct cmd; [done|done|..]; cbn [hmc_result ATOMIC_HMC_OPERAND set_hmc p]; by rewrite Ho.
Qed.

(** ** Instances of the properties *)

(** A memory of 32 bytes at [base] that are all zero. *)
Definition zero_mem (base : Z) : amem :=
  mkMem (mkRange base (base + 31)) (Some (list_to_map ((fun i => (base + i, 0)) <$> seqZ 0 32))) [] 0 0 0.
Definition mem_packet (cmd : MemCmd) (a : Z) (data : list Z) (paddr ctx : Z) : mpkt :=
  mkMPkt cmd a data false HMC_NONE 0 paddr ctx 0 false false.
Definition final (r : sim (amem * mpkt * list Z)) : amem :=
  match r with Done (st, _, _) => st | _ => zero_mem 0 end.

(** A store of another context to another granule does no harm. *)
Definition ll_packet : mpkt := mem_packet LoadLockedReq 4 [0; 0; 0; 0] 4 1.
Definition other_packet : mpkt := mem_packet WriteReq 20 [1; 2; 3; 4] 20 2.
Definition sc_packet : mpkt := mem_packet StoreCondReq 4 [7; 0; 0; 0] 4 1.
Definition after_ll : amem := final (access (zero_mem 0) ll_packet).
Definition after_other : amem := final (access after_ll other_packet).

Lemma store_conditional_exclusive_witness :
  exists r3 m2, access after_other sc_packet = Done (final (access after_other sc_packet), r3, [1]) /\
    k_extra r3 = 1 /\ pmem after_other = Some m2 /\ m2 !! 4 = Some 0.
Proof.
  destruct (store_conditional_exclusive (zero_mem 0) ll_packet after_ll
             (set_cmd ll_packet ReadResp) [] [other_packet] after_other [(after_ll, other_packet)]
             sc_packet (final (access after_other sc_packet))
             (setExtraData (set_cmd sc_packet StoreCondResp) 1) [1]
             (default ∅ (pmem (zero_mem 0))) 0) as [_ H].
  - constructor.
  - reflexivity.
  - reflexivity.
  - reflexivity.
  - vm_compute. reflexivity.
  - by repeat constructor.
  - vm_compute. reflexivity.
  - reflexivity.
  - reflexivity.
  - reflexivity.
  - reflexivity.
  - vm_compute. reflexivity.
  - destruct H as (m2 & H1 & H2).
    + reflexivity.
    + repeat constructor; discriminate || (intros H0; by destruct H0) || reflexivity.
    + exists (setExtraData (set_cmd sc_packet StoreCondResp) 1), m2. split; [vm_compute; reflexivity|].
      split; [reflexivity|]. split; [exact H1|]. rewrite (H2 4 eq_refl). vm_compute. reflexivity.
Defined.

(** The increment of the word 0x800000ff at 0x2010, which lies at 0x80010. *)
Definition word_mem : amem :=
  mkMem (mkRange 0x80000 0x8001f) (Some (list_to_map (zip [0x80010; 0x80011; 0x80012; 0x80013] [255; 0; 0; 128])))
        [] 0 0 0.

Lemma hmc_command_executed_witness :
  exists st' q p', recvAtomic demo_conf 9 demo_mem demo_loaded
      (mkPkt 0x200 true 4 [0x2010] true false false HMC_NONE 0 []) = Done (st', [MasterReq q], p') /\
    exists mm' q' w m', access word_mem (to_mem demo_conf q 0x200 1) = Done (mm', q', w) /\
      pmem mm' = Some m' /\ load m' 0x80010 4 = Done [0; 1; 0; 128].
Proof.
  destruct (hmc_command_executed demo_conf demo_mem demo_frames_list demo_slices 0x2000 0x5000 demo_r0
              demo_r0' 9 demo_loaded HMC_CMD_INC 0x2010 0 word_mem (default ∅ (pmem word_mem)) [255; 0; 0; 128] 1)
    as (st' & q & p' & H1 & mm' & q' & w & m' & H2 & H3 & H4 & _).
  - exact demo_device.
  - exact demo_loaded_inv.
  - apply (bool_decide_unpack _). vm_compute. exact I.
  - reflexivity.
  - discriminate.
  - lia.
  - apply demo_in_data. lia.
  - vm_compute. eauto.
  - reflexivity.
  - vm_compute. reflexivity.
  - repeat constructor; lia.
  - vm_compute. reflexivity.
  - exists st', q, p'. split; [exact H1|]. exists mm', q', w, m'. split; [exact H2|]. split; [exact H3|].
    exact H4.
Defined.

(** The monitor compares the addresses of requests.  A store that was remapped on its way,
    as every store of the PIM processor is, changes a reserved word and the
    store-conditional still succeeds. *)
Example remapped_store_unnoticed :
  let st1 := final (access (zero_mem 0x80000) (mem_packet LoadLockedReq 0x80004 [0; 0; 0; 0] 0x80004 1)) in
  let st2 := final (access st1 (mem_packet WriteReq 0x80004 [9; 0; 0; 0] 0x2004 2)) in
  (m ← pmem st2; m !! 0x80004) = Some 9 /\
  exists st3 r w, access st2 (mem_packet StoreCondReq 0x80004 [1; 0; 0; 0] 0x80004 1) = Done (st3, r, w) /\
    k_extra r = 1.
Proof. split; [vm_compute; reflexivity|]. do 3 eexists. split; vm_compute; reflexivity. Qed.
