(* ===== verification/PimMemory.v ===== *)
(** * The memory of the PIM device and its registers

    Models [ethz_PIMMemory] of src/SMC/GEM5/gem5/src/mem/ethz_pim_memory.cc: the dispatch of
    the writes to the registers of the device (console, error, interrupt, slice table, DMA,
    coprocessor, simulator commands) in [recvAtomic], on top of the memory of
    AbstractMem.v, the TLB of Tlb.v, the DMA engine of PimDma.v and the coprocessor of
    Coprocessor.v, and the macro DMA_REQUEST of the resident code.  The theorems show
    that the register writes of DMA_REQUEST make the engine transfer the requested bytes,
    that no transfer of the device ever leaves the vector register, and that a second
    command without a new address stops the simulation.  Messages on the simulator's own
    console are left out. *)

From S2P Require Import Prelude ByteMem Coprocessor PimTask Tlb AbstractMem PimDma.

(** ** Parameters and state *)

Record pim_conf := mkPimConf {
  PIM_ADDRESS_BASE : Z;
  PIM_DEBUG_ADDR : Z;
  PIM_ERROR_ADDR : Z;
  PIM_INTR_ADDR : Z;
  PIM_SLICETABLE_ADDR : Z;
  PIM_SLICECOUNT_ADDR : Z;
  PIM_SLICEVSTART_ADDR : Z;
  PIM_M5_ADDR : Z;
  PIM_M5_D1_ADDR : Z;
  PIM_M5_D2_ADDR : Z;
  PIM_VREG_ADDR : Z;
  PIM_VREG_SIZE : Z;
  PIM_SREG_ADDR : Z;
  PIM_DTLB_IDEAL_REFILL_ADDR : Z;
  PIM_DMA_MEM_ADDR_ADDR : Z;
  PIM_DMA_SPM_ADDR_ADDR : Z;
  PIM_DMA_NUMBYTES_ADDR : Z;
  PIM_DMA_COMMAND_ADDR : Z;
  PIM_DMA_STATUS_ADDR : Z;
  PIM_DMA_CLI_ADDR : Z;
  PIM_COPROCESSOR_CMD_ADDR : Z;
  HMC_ATOMIC_INCR_ADDR : Z;
}.

(** The TLB of the device is the one of the engine. *)
Record pimmem := mkPIM {
  base_mem : amem;
  engine : dma;
  _dma_num_bytes : Z;
  _dma_mem_addr : Z;
  _dma_spm_addr : Z;
  prev_time_stamp : Z;
  prev_time_stamp_id : Z;
  enable_packet_log : bool;
}.

Definition set_base (st : pimmem) (m : amem) : pimmem :=
  mkPIM m (engine st) (_dma_num_bytes st) (_dma_mem_addr st) (_dma_spm_addr st) (prev_time_stamp st)
        (prev_time_stamp_id st) (enable_packet_log st).
Definition set_engine (st : pimmem) (d : dma) : pimmem :=
  mkPIM (base_mem st) d (_dma_num_bytes st) (_dma_mem_addr st) (_dma_spm_addr st) (prev_time_stamp st)
        (prev_time_stamp_id st) (enable_packet_log st).
Definition set_dma_regs (st : pimmem) (n m s : Z) : pimmem :=
  mkPIM (base_mem st) (engine st) n m s (prev_time_stamp st) (prev_time_stamp_id st) (enable_packet_log st).
Definition set_stamp (st : pimmem) (t id : Z) : pimmem :=
  mkPIM (base_mem st) (engine st) (_dma_num_bytes st) (_dma_mem_addr st) (_dma_spm_addr st) t id
        (enable_packet_log st).
Definition set_log (st : pimmem) (b : bool) : pimmem :=
  mkPIM (base_mem st) (engine st) (_dma_num_bytes st) (_dma_mem_addr st) (_dma_spm_addr st)
        (prev_time_stamp st) (prev_time_stamp_id st) b.

(** The constructor; [_dma_spm_addr] is not initialised: [spm0] is whatever it holds. *)
Definition ethz_PIMMemory (m : amem) (d : dma) (spm0 : Z) : pimmem := mkPIM m d 0 0 spm0 0 63 false.

(** What a register write does outside the device. *)
Inductive pevent :=
  | Console (c : Z)
  | PostIRQ
  | ClearIRQ
  | StatsDump (id diff : Z)
  | FlushRange (first last : Z)
  | Dma (a : daction).

(** PIM_M5_REG values *)
Definition PIM_ENABLE_PACKET_LOG : Z := 76.
Definition PIM_DISABLE_PACKET_LOG : Z := 68.
Definition PIM_TIME_STAMP : Z := 48.
Definition PIM_TIME_STAMP_MAX : Z := 57.
Definition PIM_HOST_CACHE_FLUSH_HACK : Z := 70.
Definition PIM_EXIT_GEM5 : Z := 88.
Definition PIM_M5_IGNORE : Z := 73.

Section device.
(** [c] has the parameters the device shares with its TLB, [mem] is the main memory, [timing]
    the mode of the system and [now] the tick. *)
Context (k : pim_conf) (c : tlb_conf) (mem : Z -> Z) (timing : bool) (now : Z).

(** ** Helpers *)

Definition host_bytes (st : pimmem) : sim bytes := elem (pmem (base_mem st)).

Definition __read_mem_1word (st : pimmem) (address : Z) : sim Z :=
  m ← host_bytes st;
  l ← load m address (if Tlb.pim_arch c =? 32 then 4 else 8);
  Done (word_of l).
Definition __write_mem_1byte (st : pimmem) (address value : Z) : sim pimmem :=
  m ← host_bytes st; m1 ← store m address [value]; Done (set_base st (set_pmem (base_mem st) m1)).

Definition ask_host_to_flush_the_caches (st : pimmem) : sim (pimmem * list pevent) :=
  s ← __read_mem_1word st (PIM_M5_D1_ADDR k);
  e ← __read_mem_1word st (PIM_M5_D2_ADDR k);
  Done (st, [FlushRange s e]).

(** The status bytes that the engine writes into the memory. *)
Fixpoint status_writes (acts : list daction) (st : pimmem) : sim pimmem :=
  match acts with
  | [] => Done st
  | WriteStatus v :: acts' =>
      st1 ← __write_mem_1byte st (PIM_DMA_STATUS_ADDR k) (u8 v); status_writes acts' st1
  | _ :: acts' => status_writes acts' st
  end.

(** [*pkt->getPtr<uint8_t>()] of a packet of one byte, and a word of the device. *)
Definition get8 (p : mpkt) : sim Z := _ ← check (k_size p =? 1); elem (head (k_data p)).
Definition getw (p : mpkt) : sim Z := _ ← check (k_size p =? Tlb.pim_arch c / 8); Done (word_of (k_data p)).

Definition set_tlb (st : pimmem) (t : tlb) : pimmem := set_engine st (set_dtlb (engine st) t).

(** ** The registers *)

(** PIM_DMA_COMMAND *)
Definition dma_command (st : pimmem) (cmd : Z) : sim (pimmem * list pevent) :=
  if cmd =? 0 then Done (st, [])
  else
    _ ← check (negb (_dma_num_bytes st =? 0));
    _ ← check (negb (_dma_mem_addr st =? 0));
    _ ← check timing;
    let spm := u64 (_dma_spm_addr st + PIM_ADDRESS_BASE k) in
    let st1 := set_dma_regs st (_dma_num_bytes st) (_dma_mem_addr st) spm in
    if (spm <? PIM_VREG_ADDR k) || (PIM_VREG_ADDR k + PIM_VREG_SIZE k <? u64 (spm + _dma_num_bytes st))
    then Halt
    else
      let dir := Z.land cmd 128 =? 0 in
      '(d, acts) ← initiate c now mem timing dir (engine st1) spm (_dma_mem_addr st1)
                     (_dma_num_bytes st1) (Z.land cmd 127);
      st2 ← status_writes acts (set_engine st1 d);
      Done (st2, map Dma acts).

(** PIM_DMA_CLI *)
Definition cli_command (st : pimmem) (cmd : Z) : sim (pimmem * list pevent) :=
  if cmd =? 0 then Done (st, []) else acts ← wait_on_resource cmd; Done (st, map Dma acts).

(** PIM_COPROCESSOR_CMD *)
Definition coprocessor_command (st : pimmem) (cmd : Z) : sim (pimmem * list pevent) :=
  m ← host_bytes st;
  m1 ← (if Tlb.pim_arch c =? 32
        then run_coprocessor_32b (PIM_SREG_ADDR k) (PIM_ADDRESS_BASE k) (PIM_VREG_ADDR k) (PIM_VREG_SIZE k) m cmd
        else run_coprocessor_64b m cmd);
  Done (set_base st (set_pmem (base_mem st) m1), []).

(** PIM_M5_REG *)
Definition m5_command (st : pimmem) (CMD : Z) : sim (pimmem * list pevent) :=
  if (PIM_TIME_STAMP <=? CMD) && (CMD <=? PIM_TIME_STAMP_MAX) then
    Done (set_stamp st now CMD, [StatsDump CMD (now - prev_time_stamp st)])
  else if CMD =? PIM_ENABLE_PACKET_LOG then Done (set_log st true, [])
  else if CMD =? PIM_DISABLE_PACKET_LOG then Done (set_log st false, [])
  else if CMD =? PIM_EXIT_GEM5 then Halt
  else if CMD =? PIM_HOST_CACHE_FLUSH_HACK then ask_host_to_flush_the_caches st
  else if CMD =? PIM_M5_IGNORE then Done (st, [])
  else Halt.

(** The first chain of tests of [recvAtomic]. *)
Definition register_write (st : pimmem) (p : mpkt) : sim (pimmem * list pevent) :=
  let a := k_addr p in
  let t := dtlb (engine st) in
  if a =? PIM_DEBUG_ADDR k then
    cc ← get8 p; Done (st, if (cc =? 13) then [] else [Console cc])
  else if a =? PIM_ERROR_ADDR k then
    code ← get8 p; if code =? 0 then Done (st, []) else Halt
  else if a =? PIM_INTR_ADDR k then
    v ← get8 p; Done (st, if v =? 0 then [] else [PostIRQ; ClearIRQ])
  else if a =? PIM_SLICETABLE_ADDR k then
    v ← getw p; Done (set_tlb st (set_slices t v (PIM_SLICECOUNT t) (PIM_SLICEVSTART t)), [])
  else if a =? PIM_SLICECOUNT_ADDR k then
    v ← getw p; Done (set_tlb st (set_slices t (PIM_SLICETABLE_PTR t) v (PIM_SLICEVSTART t)), [])
  else if a =? PIM_SLICEVSTART_ADDR k then
    v ← getw p; Done (set_tlb st (set_slices t (PIM_SLICETABLE_PTR t) (PIM_SLICECOUNT t) v), [])
  else if a =? PIM_DMA_NUMBYTES_ADDR k then
    v ← getw p; Done (set_dma_regs st v (_dma_mem_addr st) (_dma_spm_addr st), [])
  else if a =? PIM_DMA_MEM_ADDR_ADDR k then
    v ← getw p; Done (set_dma_regs st (_dma_num_bytes st) v (_dma_spm_addr st), [])
  else if a =? PIM_DMA_SPM_ADDR_ADDR k then
    v ← getw p; Done (set_dma_regs st (_dma_num_bytes st) (_dma_mem_addr st) v, [])
  else if a =? PIM_COPROCESSOR_CMD_ADDR k then
    cmd ← get8 p; coprocessor_command st cmd
  else if a =? PIM_DMA_COMMAND_ADDR k then cmd ← get8 p; dma_command st cmd
  else if a =? PIM_DMA_CLI_ADDR k then
    cmd ← get8 p; cli_command st cmd
  else if a =? HMC_ATOMIC_INCR_ADDR k then
    v ← getw p; _ ← check (v =? 0); Done (st, [])
  else Done (st, []).

(** The second chain. *)
Definition m5_write (st : pimmem) (p : mpkt) : sim (pimmem * list pevent) :=
  if k_addr p =? PIM_DTLB_IDEAL_REFILL_ADDR k then Halt
  else if k_addr p =? PIM_M5_ADDR k then CMD ← get8 p; m5_command st CMD
  else Done (st, []).

(** [ethz_PIMMemory::recvAtomic] *)
Definition recvAtomic (st : pimmem) (p : mpkt) : sim (pimmem * mpkt * list pevent) :=
  '(st2, evs) ←
    (if k_is IsWrite p then
       '(st1, e1) ← register_write st p;
       '(st2, e2) ← m5_write st1 p;
       Done (st2, e1 ++ e2)
     else Done (st, []));
  '(m, q, _) ← access (base_mem st2) p;
  Done (set_base st2 m, q, evs).
End device.

(** ** What every firing of the engine keeps *)

Lemma request_update (P : DMARequest -> Prop) l i r : Forall P l -> P r -> Forall P (<[i := r]> l).
Proof. intros Hl Hr. by apply Forall_insert. Qed.

(** [P] of the requests and [Q] of the actions, if the transfers keep them. *)
Lemma nextState_keeps (P : DMARequest -> Prop) (Q : daction -> Prop) c now mem timing st st' acts :
  (forall r, P r -> P (mark_issued r)) ->
  (forall s r s' a, state_transfer s r = Done (s', a) -> P r -> Forall P (requests s) ->
     Forall P (requests s') /\ Forall Q a) ->
  Q ScheduleNext -> Q PostInterrupt ->
  nextState c now mem timing st = Done (st', acts) -> Forall P (requests st) ->
  Forall P (requests st') /\ Forall Q acts.
Proof.
  intros HP HT HQ1 HQ2. unfold nextState. intros H Hb. set (empty := bool_decide _) in *.
  set (st1 := if empty then _ else st) in *.
  assert (Hb1 : Forall P (requests st1)) by (unfold st1; destruct empty; exact Hb).
  clearbody st1. clear Hb. apply bind_Done in H as (curr & Hc & H).
  apply bind_Done in H as ([st2 acts'] & Hm & H).
  assert (Hb2 : Forall P (requests st2) /\ Forall Q acts').
  { destruct (current_state st1).
    - destruct empty; sim_inv; [done|]. destruct (first_unissued _ _ =? -1); done.
    - destruct curr as [r|]; [|done]. destruct (current_request st1 r Hc) as (i & Hi & Hr).
      pose proof (Forall_lookup_1 _ _ _ _ Hb1 Hr) as Hin. sim_inv. split; [|done]. unfold state_refill in *.
      destruct (mem_vstart r <? mem_vend r); sim_inv; (apply request_update; [exact Hb1|by apply HP]).
    - destruct curr as [r|]; [|done]. destruct (current_request st1 r Hc) as (i & Hi & Hr).
      apply (HT st1 r); [done| |done]. by eapply Forall_lookup_1. }
  destruct Hb2 as [Hb2 Ha]. destruct empty; sim_inv; (split; [exact Hb2|]); apply Forall_app; split; try done;
    by repeat constructor.
Qed.

(** The direction of the transfers. *)
Definition dir_is (dir : bool) (a : daction) : Prop :=
  match a with DmaAction rw _ _ _ => rw = dir | _ => True end.

Lemma nextState_dir dir c now mem timing st st' acts :
  nextState c now mem timing st = Done (st', acts) -> Forall (fun r => RW r = dir) (requests st) ->
  Forall (fun r => RW r = dir) (requests st') /\ Forall (dir_is dir) acts.
Proof.
  apply nextState_keeps; [done| |done|done]. intros s r s' a H Hr Hall. unfold state_transfer in H.
  do 5 (apply bind_Done in H as (? & _ & H)). apply bind_Done in H as ([r2 more] & Hn & H). cbn beta iota in H.
  injection H as <- <-. split; [|by repeat constructor]. apply request_update; [exact Hall|].
  unfold nextSubRequest in Hn. apply bind_Done in Hn as (? & _ & Hn).
  destruct (_ <=? _); injection Hn as <- <-; exact Hr.
Qed.

Lemma dma_steps_dir dir c mem timing n : forall clk st st' acts,
  dma_steps c mem timing clk n st = Done (st', acts) -> Forall (fun r => RW r = dir) (requests st) ->
  Forall (dir_is dir) acts.
Proof.
  induction n as [|n IH]; intros clk st st' acts H Hall; cbn [dma_steps] in H; [by injection H as <- <-|].
  apply bind_Done in H as ([st1 a1] & H1 & H). cbn beta iota in H.
  apply bind_Done in H as ([st2 a2] & H2 & H). injection H as <- <-.
  destruct (nextState_dir _ _ _ _ _ _ _ _ H1 Hall) as [Hr Ha]. apply Forall_app. split; [done|]. by eapply IH.
Qed.

(** ** Transfers stay inside the vector register *)

Section vreg.
Context (vlo vhi : Z).

(** The rest of a request. *)
Definition req_in (r : DMARequest) : Prop :=
  0 <= mem_vstart r <= mem_vend r /\ mem_vend r < 2 ^ 34 /\
  vlo <= vreg_ptr r /\ vreg_ptr r + (mem_vend r - mem_vstart r + 1) <= vhi.
Definition act_in (a : daction) : Prop :=
  match a with DmaAction _ _ len vr => vlo <= vr /\ 0 <= len /\ vr + len <= vhi | _ => True end.

Lemma u64_succ x y : u64 x = u64 y -> u64 (x + 1) = u64 (y + 1).
Proof. unfold u64. intros H. rewrite <- (Z.add_mod_idemp_l x), <- (Z.add_mod_idemp_l y), H by (unfold u64_mod; lia). done. Qed.

Lemma u64_bound x : 0 <= u64 x < 2 ^ 64.
Proof. apply Z.mod_pos_bound. reflexivity. Qed.

Lemma slice_vend_bound t a e : slice_vend t a = Done e -> 0 <= e < 2 ^ 64.
Proof. unfold slice_vend. destruct (find_rule _ _ _) as [[? r]|]; intros H; [|done]. sim_inv. apply u64_bound. Qed.

Lemma state_transfer_in st r st' acts : state_transfer st r = Done (st', acts) ->
  req_in r -> Forall req_in (requests st) -> Forall req_in (requests st') /\ Forall act_in acts.
Proof.
  unfold state_transfer. intros H (Hs & He & Hv1 & Hv2) Hall.
  apply bind_Done in H as (pstart & _ & H). apply bind_Done in H as (e & Hse & H).
  apply slice_vend_bound in Hse. cbv zeta in H.
  set (vend := if mem_vend r <? e then mem_vend r else e) in *.
  assert (Hvend : 0 <= vend <= mem_vend r) by (unfold vend; destruct (Z.ltb_spec (mem_vend r) e); lia).
  apply bind_Done in H as (pend & _ & H). apply bind_Done in H as ([] & Hck & H). apply check_Done, Z.eqb_eq in Hck.
  apply bind_Done in H as ([] & _ & H). apply bind_Done in H as ([r2 more] & Hn & H). cbn beta iota in H.
  assert (Hu : u64 (vend + 1) = vend + 1) by (apply Z.mod_small; unfold u64_mod; lia).
  unfold nextSubRequest in Hn. rewrite Hu in Hn. apply bind_Done in Hn as ([] & Hle & Hn).
  apply check_Done, Z.leb_le in Hle. cbn [mem_vstart mem_vend add_range] in Hle, Hn.
  injection H as <- <-. split.
  - apply request_update; [exact Hall|]. cbn [add_range mem_vstart mem_vend vreg_ptr] in *.
    destruct (Z.leb_spec (mem_vend r) (vend + 1)); injection Hn as <- <-; unfold req_in; cbn; lia.
  - constructor; [|constructor]. cbn [act_in].
    assert (Hlen : u64 (pend - pstart + 1) = vend - mem_vstart r + 1).
    { rewrite (u64_succ _ _ Hck). apply Z.mod_small. unfold u64_mod. lia. }
    rewrite Hlen. lia.
Qed.

Lemma nextState_in c now mem timing st st' acts :
  nextState c now mem timing st = Done (st', acts) -> Forall req_in (requests st) ->
  Forall req_in (requests st') /\ Forall act_in acts.
Proof. apply nextState_keeps; [done|exact state_transfer_in|done|done]. Qed.

Lemma initiate_in c now mem timing dir st vreg vaddr n res st' acts :
  initiate c now mem timing dir st vreg vaddr n res = Done (st', acts) ->
  Forall req_in (requests st) -> 0 <= vaddr < 2 ^ 32 -> 0 < n < 2 ^ 32 -> vlo <= vreg -> vreg + n <= vhi ->
  Forall req_in (requests st') /\ Forall act_in acts.
Proof.
  intros H Hall Hv Hn H1 H2. unfold initiate in H.
  assert (Hnew : req_in (DMARequest_new vreg vaddr n dir res)).
  { unfold req_in, DMARequest_new, u64. cbn. rewrite Z.mod_small by (unfold u64_mod; lia). lia. }
  apply bind_Done in H as ([] & _ & H). apply bind_Done in H as ([] & _ & H). cbv zeta in H.
  destruct (next_state_scheduled _).
  - sim_inv. split; [by constructor|]. repeat constructor.
  - apply bind_Done in H as ([st3 a3] & H3 & H). sim_inv. apply nextState_in in H3; [|by constructor].
    destruct H3 as [H3 H4]. split; [done|]. by constructor.
Qed.

Lemma handle_packet_in suspended st a n st' acts :
  handle_packet suspended st a n = Done (st', acts) -> Forall req_in (requests st) ->
  Forall req_in (requests st') /\ Forall act_in acts.
Proof.
  unfold handle_packet. destruct (matches _ _ _) as [|i [|? ?]]; try done. intros H Hi.
  apply bind_Done in H as (r & Hr & H). apply elem_Done in Hr. apply bind_Done in H as ([] & _ & H).
  assert (H1 : Forall req_in (<[i := add_completed r n]> (requests st))).
  { apply request_update; [done|]. by apply (Forall_lookup_1 _ _ _ _ Hi) in Hr. }
  destruct (_ =? _); [|by sim_inv]. apply bind_Done in H as ([] & _ & H). sim_inv. split.
  - by apply Forall_delete.
  - destruct suspended; repeat constructor.
Qed.
End vreg.

(** ** The device with its engine *)

(** What can happen: an access to the memory, a firing of the engine's event, a response
    to the engine, the return of a done event, and changes of the TLB by the processor. *)
Inductive pim_next (k : pim_conf) (c : tlb_conf) (mem : Z -> Z) (timing : bool)
  : pimmem -> list pevent -> pimmem -> Prop :=
  | next_access now st p st' q evs :
      Forall (fun b => 0 <= b < 256) (k_data p) ->
      recvAtomic k c mem timing now st p = Done (st', q, evs) -> pim_next k c mem timing st evs st'
  | next_event now st d acts st' :
      nextState c now mem timing (engine st) = Done (d, acts) ->
      status_writes k acts (set_engine st d) = Done st' -> pim_next k c mem timing st (map Dma acts) st'
  | next_reply suspended st a n d acts st' :
      handle_packet suspended (engine st) a n = Done (d, acts) ->
      status_writes k acts (set_engine st d) = Done st' -> pim_next k c mem timing st (map Dma acts) st'
  | next_free_event st : pim_next k c mem timing st [] (set_engine st (dma_done (engine st)))
  | next_refill st t : pim_next k c mem timing st [] (set_tlb st t).

Inductive pim_run (k : pim_conf) (c : tlb_conf) (mem : Z -> Z) (timing : bool)
  : pimmem -> list pevent -> pimmem -> Prop :=
  | run_nil st : pim_run k c mem timing st [] st
  | run_cons st e st1 es st2 :
      pim_next k c mem timing st e st1 -> pim_run k c mem timing st1 es st2 ->
      pim_run k c mem timing st (e ++ es) st2.

(** Addresses far from the end of the address space. *)
Record conf_ok (k : pim_conf) : Prop := {
  ck_base : 0 <= PIM_ADDRESS_BASE k < 2 ^ 62;
  ck_vreg : 0 <= PIM_VREG_ADDR k;
  ck_size : 0 <= PIM_VREG_SIZE k;
  ck_end : PIM_VREG_ADDR k + PIM_VREG_SIZE k < 2 ^ 62;
}.

Section safety.
Context (k : pim_conf) (c : tlb_conf) (mem : Z -> Z) (timing : bool).
Context (Hk : conf_ok k) (Harch : Tlb.pim_arch c = 32).

Local Abbreviation vlo := (PIM_VREG_ADDR k).
Local Abbreviation vhi := (PIM_VREG_ADDR k + PIM_VREG_SIZE k).

(** The registers of the engine fit, and so do its requests. *)
Definition regs_ok (st : pimmem) : Prop :=
  0 <= _dma_num_bytes st < 2 ^ 32 /\ 0 <= _dma_mem_addr st < 2 ^ 32 /\
  0 <= _dma_spm_addr st < 2 ^ 62.
Definition dev_inv (st : pimmem) : Prop := Forall (req_in vlo vhi) (requests (engine st)) /\ regs_ok st.
Definition event_in (e : pevent) : Prop := match e with Dma a => act_in vlo vhi a | _ => True end.

Lemma events_in acts : Forall (act_in vlo vhi) acts -> Forall event_in (map Dma acts).
Proof. induction 1; simpl; constructor; auto. Qed.

Lemma status_writes_inv acts : forall st st', status_writes k acts st = Done st' ->
  engine st' = engine st /\ (regs_ok st -> regs_ok st').
Proof.
  induction acts as [|a acts IH]; intros st st' H; cbn [status_writes] in H; [by sim_inv|].
  destruct a; try (by apply IH). apply bind_Done in H as (st1 & H1 & H). apply IH in H as [Ha Hb].
  unfold __write_mem_1byte in H1. sim_inv. simpl in *. split; [done|]. intros Hr. apply Hb. exact Hr.
Qed.

Lemma getw_bound p v : Forall (fun b => 0 <= b < 256) (k_data p) -> getw c p = Done v -> 0 <= v < 2 ^ 32.
Proof.
  intros Hb H. unfold getw in H. rewrite Harch in H. apply bind_Done in H as ([] & H1 & H).
  apply check_Done, Z.eqb_eq in H1. unfold k_size in H1. sim_inv.
  pose proof (word_of_bound _ Hb) as Hw. rewrite H1 in Hw. exact Hw.
Qed.

Lemma dma_command_in now st cmd st' evs : dma_command k c mem timing now st cmd = Done (st', evs) ->
  dev_inv st -> dev_inv st' /\ Forall event_in evs.
Proof.
  destruct Hk as [Hb1 Hb2 Hb3 Hb4]. intros H Hd. pose proof Hd as [Hq (Hn & Hm & Hs)]. unfold dma_command in H.
  destruct (cmd =? 0); [injection H as <- <-; by split|].
  apply bind_Done in H as ([] & H1 & H). apply check_Done, negb_true_iff, Z.eqb_neq in H1.
  apply bind_Done in H as ([] & _ & H). apply bind_Done in H as ([] & _ & H). cbv zeta in H.
  assert (Hu : u64 (_dma_spm_addr st + PIM_ADDRESS_BASE k) = _dma_spm_addr st + PIM_ADDRESS_BASE k)
    by (apply Z.mod_small; unfold u64_mod; lia).
  assert (Hu2 : u64 (_dma_spm_addr st + PIM_ADDRESS_BASE k + _dma_num_bytes st) =
                _dma_spm_addr st + PIM_ADDRESS_BASE k + _dma_num_bytes st)
    by (apply Z.mod_small; unfold u64_mod; lia).
  rewrite Hu, Hu2 in H.
  destruct (Z.ltb_spec (_dma_spm_addr st + PIM_ADDRESS_BASE k) (PIM_VREG_ADDR k)) as [|E1]; [done|].
  destruct (Z.ltb_spec vhi (_dma_spm_addr st + PIM_ADDRESS_BASE k + _dma_num_bytes st)) as [|E2]; [done|].
  cbn [orb] in H. apply bind_Done in H as ([d acts] & Hi & H). cbn beta iota in H.
  apply bind_Done in H as (st2 & Hw & H). injection H as <- <-.
  cbn [_dma_mem_addr _dma_num_bytes set_dma_regs engine] in Hi.
  destruct (initiate_in vlo vhi _ _ _ _ _ _ _ _ _ _ _ _ Hi Hq) as [H2 H3]; [lia|lia|lia|lia|].
  apply status_writes_inv in Hw as [He Hr]. split; [|by apply events_in]. split.
  - rewrite He. exact H2.
  - apply Hr. repeat split; simpl; lia.
Qed.

Lemma register_write_in now st p st' evs : Forall (fun b => 0 <= b < 256) (k_data p) ->
  register_write k c mem timing now st p = Done (st', evs) -> dev_inv st -> dev_inv st' /\ Forall event_in evs.
Proof.
  intros Hb H Hd. pose proof Hd as [Hq (Hn & Hm & Hs)]. unfold register_write in H. cbv zeta in H.
  repeat match goal with
  | H : (if ?b then _ else _) = Done _ |- _ => destruct b
  | H : getw _ _ ≫= _ = Done _ |- _ =>
      let v := fresh "v" in let Hv := fresh "Hv" in
      apply bind_Done in H as (v & Hv & H); apply (getw_bound _ _ Hb) in Hv
  | H : get8 _ ≫= _ = Done _ |- _ => apply bind_Done in H as (? & _ & H)
  end; try done.
  all: try (eapply dma_command_in; [eassumption|exact Hd]).
  all: try (injection H as <- <-; split; [split; [exact Hq|repeat split; simpl; lia]|]; repeat case_match; repeat constructor).
  - unfold coprocessor_command in H. sim_inv. by split.
  - unfold cli_command, wait_on_resource in H. destruct (x =? 0); [injection H as <- <-; by split|].
    destruct (x =? 0xFF); [|done]. injection H as <- <-. split; [done|]. by repeat constructor.
  - apply bind_Done in H as ([] & _ & H). injection H as <- <-. by split.
Qed.

Lemma m5_write_in now st p st' evs : m5_write k c now st p = Done (st', evs) ->
  dev_inv st -> dev_inv st' /\ Forall event_in evs.
Proof.
  intros H Hd. unfold m5_write, m5_command, ask_host_to_flush_the_caches in H.
  repeat match goal with
  | H : (if ?b then _ else _) = Done _ |- _ => destruct b
  | H : _ ≫= _ = Done _ |- _ => apply bind_Done in H as (? & _ & H)
  end; try done; injection H as <- <-; (split; [exact Hd|repeat constructor]).
Qed.

Lemma pim_next_in st evs st' : pim_next k c mem timing st evs st' -> dev_inv st ->
  dev_inv st' /\ Forall event_in evs.
Proof.
  intros Hn Hd. destruct Hn as [now st p st' q evs Hb H|now st d acts st' H Hw|s st a n d acts st' H Hw|st|st t].
  - unfold recvAtomic in H. apply bind_Done in H as ([st2 e2] & H2 & H). cbn beta iota in H.
    apply bind_Done in H as ([[m q'] w] & _ & H). injection H as <- <- <-.
    cut (dev_inv st2 /\ Forall event_in e2); [done|]. destruct (k_is IsWrite p); [|injection H2 as <- <-; by split].
    apply bind_Done in H2 as ([st1 e1] & H1 & H2). cbn beta iota in H2.
    apply bind_Done in H2 as ([st3 e3] & H3 & H2). injection H2 as <- <-.
    destruct (register_write_in _ _ _ _ _ Hb H1 Hd) as [Hd1 He1].
    destruct (m5_write_in _ _ _ _ _ H3 Hd1) as [Hd3 He3]. split; [done|]. by apply Forall_app.
  - destruct Hd as [Hq Hr]. destruct (nextState_in vlo vhi _ _ _ _ _ _ _ H Hq) as [H1 H2].
    apply status_writes_inv in Hw as [He Hr']. split; [|by apply events_in]. split; [by rewrite He|by apply Hr'].
  - destruct Hd as [Hq Hr]. destruct (handle_packet_in vlo vhi _ _ _ _ _ _ H Hq) as [H1 H2].
    apply status_writes_inv in Hw as [He Hr']. split; [|by apply events_in]. split; [by rewrite He|by apply Hr'].
  - by split.
  - by split.
Qed.
End safety.

(** ** Properties *)

(** C11: The DMA engine is confined to the vector register.  Whatever is written to the
    registers of a 32-bit device, whatever the TLB holds, and however register accesses, events of the engine and responses
    interleave, every transfer the engine starts reads or writes only bytes of the vector
    register of the device. *)
Theorem dma_confined k c mem timing m d spm0 evs st' b rw pa len vr :
  conf_ok k -> Tlb.pim_arch c = 32 -> requests d = [] -> 0 <= spm0 < 2 ^ 62 ->
  pim_run k c mem timing (ethz_PIMMemory m d spm0) evs st' ->
  In (Dma (DmaAction rw pa len vr)) evs -> vr <= b < vr + len ->
  PIM_VREG_ADDR k <= b < PIM_VREG_ADDR k + PIM_VREG_SIZE k.
Proof.
  intros Hk Ha Hd Hs Hr Hin Hb.
  assert (Hi : dev_inv k (ethz_PIMMemory m d spm0)).
  { split; [simpl; by rewrite Hd|]. repeat split; simpl; lia. }
  revert Hi Hin. induction Hr as [st|st e st1 es st2 Hn _ IH]; [done|]. intros Hi Hin.
  destruct (pim_next_in k c mem timing Hk Ha _ _ _ Hn Hi) as [Hi1 He]. apply in_app_iff in Hin as [Hin|Hin]; [|by apply IH].
  rewrite List.Forall_forall in He. specialize (He _ Hin). cbn in He. lia.
Qed.

(** ** The macro DMA_REQUEST *)

Definition reg_packet (a : Z) (data : list Z) : mpkt :=
  mkMPkt WriteReq a data false HMC_NONE 0 a 0 0 false false.
Definition PIM_DMA_WRITE : Z := 128.
Definition DMA_REQUEST (k : pim_conf) (MA SA NB CM RES : Z) : list mpkt :=
  [reg_packet (PIM_DMA_MEM_ADDR_ADDR k) (bytes_word 4 MA);
   reg_packet (PIM_DMA_SPM_ADDR_ADDR k) (bytes_word 4 SA);
   reg_packet (PIM_DMA_NUMBYTES_ADDR k) (bytes_word 4 NB);
   reg_packet (PIM_DMA_COMMAND_ADDR k) [Z.lor CM RES]].

Fixpoint recv_all (k : pim_conf) (c : tlb_conf) (mem : Z -> Z) (timing : bool) (now : Z)
    (ps : list mpkt) (st : pimmem) : sim (pimmem * list pevent) :=
  match ps with
  | [] => Done (st, [])
  | p :: ps' =>
      '(st1, _, e1) ← recvAtomic k c mem timing now st p;
      '(st2, e2) ← recv_all k c mem timing now ps' st1;
      Done (st2, e1 ++ e2)
  end.

(** The registers, in the order of the tests of [recvAtomic]; no two are the same. *)
Definition registers (k : pim_conf) : list Z :=
  [PIM_DEBUG_ADDR k; PIM_ERROR_ADDR k; PIM_INTR_ADDR k; PIM_SLICETABLE_ADDR k; PIM_SLICECOUNT_ADDR k;
   PIM_SLICEVSTART_ADDR k; PIM_DMA_NUMBYTES_ADDR k; PIM_DMA_MEM_ADDR_ADDR k; PIM_DMA_SPM_ADDR_ADDR k;
   PIM_COPROCESSOR_CMD_ADDR k; PIM_DMA_COMMAND_ADDR k; PIM_DMA_CLI_ADDR k; HMC_ATOMIC_INCR_ADDR k;
   PIM_DTLB_IDEAL_REFILL_ADDR k; PIM_M5_ADDR k].

(** [n] bytes at [a] can be accessed. *)
Definition room (mm : amem) (a n : Z) : Prop :=
  (exists m, pmem mm = Some m /\ mapped m a n) /\
  isSubset (mkRange a (u64 (a + n - 1))) (am_range mm) = true.

Lemma access_store mm p : k_cmd p = WriteReq -> k_inhibited p = false -> k_hmc p = HMC_NONE ->
  k_ifetch p = false -> room mm (k_addr p) (k_size p) ->
  exists mm' q w, access mm p = Done (mm', q, w) /\ forall a n, room mm a n -> room mm' a n.
Proof.
  intros Hc Hi Hh Hf [(m & Hp & Hm) Hr]. destruct p as [c0 a0 d0 i0 h0 o0 pa0 x0 e0 s0 f0]. simpl in *. subst.
  unfold access. cbn [k_addr k_inhibited k_cmd]. rewrite Hr. cbn [check mbind sim_bind].
  unfold k_is at 1 2 3. cbn [k_cmd]. rewrite bool_decide_eq_false_2 by done.
  change (testCmdAttrib WriteReq IsRead) with false. change (testCmdAttrib WriteReq IsWrite) with true. cbn beta iota.
  unfold write_access. destruct (writeOK mm _) as [[[st1 p1] ok] w1] eqn:Eo.
  assert (ok = true /\ p1 = mkMPkt WriteReq a0 d0 false HMC_NONE o0 pa0 x0 e0 s0 false /\ pmem st1 = Some m /\
          am_range st1 = am_range mm) as (-> & -> & Hp1 & Hr1).
  { unfold writeOK, checkLockedAddrList, k_is in Eo. cbn [k_cmd k_paddr k_context] in Eo.
    change (testCmdAttrib WriteReq IsLlsc) with false in Eo. cbn [negb] in Eo.
    destruct (lockedAddrList mm); injection Eo as <- <- <- <-; done. }
  rewrite Hp1. cbn [k_hmc k_addr k_data].
  destruct (store_ok d0 m a0 Hm) as (m' & H1 & H2 & _). rewrite H1. cbn [mbind sim_bind check k_ifetch negb].
  cbn beta iota. eexists _, _, w1. split; [reflexivity|]. intros a n [(m2 & Hp2 & Hm2) Hr2]. split.
  - exists m'. split; [done|]. intros j Hj. apply H2. rewrite Hp in Hp2. injection Hp2 as <-. by apply Hm2.
  - cbn. by rewrite Hr1.
Qed.

Lemma room_sub mm a n n' : 0 < n' <= n -> 0 <= a -> a + n < 2 ^ 64 -> room mm a n -> room mm a n'.
Proof.
  intros Hn Ha0 Ha [(m & Hp & Hm) Hr]. split.
  - exists m. split; [done|]. intros j Hj. apply Hm. lia.
  - unfold isSubset in *. cbn [r_start r_end] in *. apply andb_true_iff in Hr as [H1 H2]. rewrite H1. cbn [andb].
    apply Z.leb_le in H2. apply Z.leb_le. unfold u64 in *. rewrite Z.mod_small in * by (unfold u64_mod; lia). lia.
Qed.

(** Two registers at different places of the list. *)
Lemma reg_neq k i j a b : NoDup (registers k) -> registers k !! i = Some a -> registers k !! j = Some b ->
  i <> j -> (a =? b) = false.
Proof. intros Hn Ha Hb Hij. apply Z.eqb_neq. intros ->. apply Hij. by eapply NoDup_lookup. Qed.

(** Decides the tests of [recvAtomic] for the register at place [j]. *)
Ltac reg_tests Hn j :=
  let go i := (try rewrite (reg_neq _ j i _ _ Hn eq_refl eq_refl ltac:(discriminate))) in
  go 0%nat; go 1%nat; go 2%nat; go 3%nat; go 4%nat; go 5%nat; go 6%nat; go 7%nat; go 8%nat; go 9%nat;
  go 10%nat; go 11%nat; go 12%nat; go 13%nat; go 14%nat; rewrite ?Z.eqb_refl.

Section request.
Context (k : pim_conf) (c : tlb_conf) (mem : Z -> Z) (now : Z).
Context (Hreg : NoDup (registers k)) (Harch : Tlb.pim_arch c = 32).

(** The memory write after the dispatch. *)
Lemma recv_register timing st j a data st1 evs :
  registers k !! j = Some a -> (j < 13)%nat ->
  register_write k c mem timing now st (reg_packet a data) = Done (st1, evs) ->
  room (base_mem st1) a (Z.of_nat (length data)) ->
  exists mm q, recvAtomic k c mem timing now st (reg_packet a data) = Done (set_base st1 mm, q, evs) /\
    forall b n, room (base_mem st1) b n -> room mm b n.
Proof.
  intros Hj Hlt H1 Hr.
  destruct (access_store (base_mem st1) (reg_packet a data)) as (mm & q & w & Ha & Hrm); try done.
  exists mm, q. split; [|done]. unfold recvAtomic. change (k_is IsWrite (reg_packet a data)) with true. cbn beta iota.
  rewrite H1. sim_step. unfold m5_write. cbn [k_addr reg_packet].
  rewrite (reg_neq k j 13 a _ Hreg Hj eq_refl), (reg_neq k j 14 a _ Hreg Hj eq_refl) by lia.
  sim_step. fold (reg_packet a data). rewrite Ha. cbn. by rewrite app_nil_r.
Qed.

Lemma getw_word a v : 0 <= v < 2 ^ 32 -> getw c (reg_packet a (bytes_word 4 v)) = Done v.
Proof.
  intros Hv. unfold getw. rewrite Harch. cbn [check mbind sim_bind k_data reg_packet].
  change (k_size _ =? 32 / 8) with true. cbn [check mbind sim_bind]. by rewrite (word_of_bytes 4).
Qed.

Lemma dma_registers timing st j v : (j = 6 \/ j = 7 \/ j = 8)%nat -> 0 <= v < 2 ^ 32 ->
  let st1 := set_dma_regs st (if bool_decide (j = 6%nat) then v else _dma_num_bytes st)
               (if bool_decide (j = 7%nat) then v else _dma_mem_addr st)
               (if bool_decide (j = 8%nat) then v else _dma_spm_addr st) in
  register_write k c mem timing now st (reg_packet (nth j (registers k) 0) (bytes_word 4 v)) = Done (st1, []).
Proof.
  intros Hj Hv st1. unfold register_write. cbn [k_addr reg_packet]. cbv zeta.
  fold (reg_packet (nth j (registers k) 0) (bytes_word 4 v)).
  destruct Hj as [->|[->| ->]]; cbn [nth registers].
  - reg_tests Hreg 6%nat. by rewrite getw_word.
  - reg_tests Hreg 7%nat. by rewrite getw_word.
  - reg_tests Hreg 8%nat. by rewrite getw_word.
Qed.

Lemma initiate_dir dir timing d vreg vaddr n res d' acts : requests d = [] ->
  initiate c now mem timing dir d vreg vaddr n res = Done (d', acts) ->
  Forall (fun r => RW r = dir) (requests d').
Proof.
  intros Hd H. unfold initiate in H. apply bind_Done in H as (? & _ & H). apply bind_Done in H as (? & _ & H).
  cbv zeta in H. cbn [requests set_requests set_resources] in H. rewrite Hd in H. destruct (next_state_scheduled _).
  - injection H as <- <-. by repeat constructor.
  - apply bind_Done in H as ([d1 a1] & H1 & H). injection H as <- <-. eapply nextState_dir; [exact H1|].
    by repeat constructor.
Qed.
End request.

(** The engine of the device is idle and its data is set up. *)
Record dma_ready (c : tlb_conf) (mem : Z -> Z) (phys : list Z) (tbl : list Slice) (vstart ptr : Z)
    (r0 r0' : AddrRange) (d : dma) : Prop := {
  rd_device : device_ok c mem phys tbl vstart ptr r0;
  rd_tlb : tlb_inv c tbl vstart ptr r0 r0' (dtlb d);
  rd_pending : pending_refills (dtlb d) = [];
  rd_requests : requests d = [];
  rd_index : current_index d = -1;
  rd_state : current_state d = DMA_STATE_IDLE;
  rd_scheduled : next_state_scheduled d = false;
  rd_resources : dma_resources d = 0;
}.

Lemma dma_start k c mem phys tbl vstart ptr r0 r0' now st CM RES :
  conf_ok k -> NoDup (registers k) -> dma_ready c mem phys tbl vstart ptr r0 r0' (engine st) ->
  (CM = 0 \/ CM = PIM_DMA_WRITE) -> 0 < RES < 128 ->
  let MA := _dma_mem_addr st in let SA := _dma_spm_addr st in let NB := _dma_num_bytes st in
  0 <= SA < 2 ^ 32 -> 2 <= NB < 2 ^ 32 -> 0 < MA ->
  PIM_VREG_ADDR k <= SA + PIM_ADDRESS_BASE k ->
  SA + PIM_ADDRESS_BASE k + NB <= PIM_VREG_ADDR k + PIM_VREG_SIZE k ->
  in_data c phys vstart MA -> in_data c phys vstart (MA + NB - 1) -> (MA + NB - 1 - vstart) mod PS c <> 0 ->
  (MA + NB - 1 - vstart) / PS c - (MA - vstart) / PS c + 1 <= Z.of_nat (free_events (engine st)) ->
  room (base_mem st) (PIM_DMA_STATUS_ADDR k) 1 ->
  exists st1, register_write k c mem true now st (reg_packet (PIM_DMA_COMMAND_ADDR k) [Z.lor CM RES]) =
      Done (st1, [Dma (WriteStatus RES); Dma ScheduleNext]) /\
    (forall b n, room (base_mem st) b n -> room (base_mem st1) b n) /\
    forall clk, exists n d acts, dma_steps c mem true clk n (engine st1) = Done (d, acts) /\
      current_state d = DMA_STATE_IDLE /\ Forall (dir_is (CM =? 0)) acts /\
      bytes_of acts = (fun i => (translate c phys vstart (MA + i), SA + PIM_ADDRESS_BASE k + i)) <$> seqZ 0 NB.
Proof.
  intros Hk Hreg [Hdv Ht Hpd Hrq Hix Hst Hsc Hrs] HCM HRES MA SA NB HSA HNB HMA Hv1 Hv2 Hin Hine Hmod Hfe Hroom.
  destruct Hk as [Hb1 Hb2 Hb3 Hb4].
  assert (Hcmd : Z.lor CM RES <> 0 /\ Z.land (Z.lor CM RES) 127 = RES /\ (Z.land (Z.lor CM RES) 128 =? 0) = (CM =? 0)).
  { assert (H127 : Z.land RES 127 = RES) by (change 127 with (Z.ones 7); rewrite Z.land_ones, Z.mod_small by lia; done).
    assert (H128 : Z.land RES 128 = 0).
    { rewrite <- H127, <- Z.land_assoc. change (Z.land 127 128) with 0. apply Z.land_0_r. }
    rewrite !Z.land_lor_distr_l, H127, H128. split_and!.
    - intros E. apply Z.lor_eq_0_iff in E. lia.
    - destruct HCM as [-> | ->]; done.
    - destruct HCM as [-> | ->]; done. }
  destruct Hcmd as (Hc0 & Hcr & Hcd).
  destruct (dma_request_served c mem phys tbl vstart ptr r0 r0' true now (CM =? 0) (engine st)
              (SA + PIM_ADDRESS_BASE k) MA NB RES) as (d1 & Hi & Hsv); try done; try lia.
  destruct Hroom as [(m & Hp & Hm) _].
  destruct (store_ok [u8 RES] m (PIM_DMA_STATUS_ADDR k) Hm) as (m1 & Hs1 & Hs2 & _).
  set (stA := set_dma_regs st NB MA (SA + PIM_ADDRESS_BASE k)).
  exists (set_base (set_engine stA d1) (set_pmem (base_mem st) m1)). split_and!.
  - unfold register_write. cbn [k_addr reg_packet]. cbv zeta. reg_tests Hreg 10%nat.
    unfold get8. cbn [k_data reg_packet]. change (k_size _ =? 1) with true. cbn [check mbind sim_bind head elem].
    unfold dma_command. rewrite (proj2 (Z.eqb_neq _ 0) Hc0). fold NB MA SA.
    rewrite (proj2 (Z.eqb_neq NB 0)), (proj2 (Z.eqb_neq MA 0)) by lia. cbn [negb check mbind sim_bind]. cbv zeta.
    assert (u64 (SA + PIM_ADDRESS_BASE k) = SA + PIM_ADDRESS_BASE k) as -> by (apply Z.mod_small; unfold u64_mod; lia).
    assert (u64 (SA + PIM_ADDRESS_BASE k + NB) = SA + PIM_ADDRESS_BASE k + NB) as -> by (apply Z.mod_small; unfold u64_mod; lia).
    rewrite (proj2 (Z.ltb_ge _ _) Hv1), (proj2 (Z.ltb_ge _ _) Hv2). cbn [orb]. fold stA. rewrite Hcd, Hcr.
    change (engine stA) with (engine st). change (_dma_mem_addr stA) with MA. change (_dma_num_bytes stA) with NB.
    rewrite Hi. sim_step. cbn [status_writes]. unfold __write_mem_1byte, host_bytes.
    cbn [base_mem set_engine stA set_dma_regs]. rewrite Hp. cbn [elem mbind sim_bind]. rewrite Hs1. done.
  - intros b n [(m' & Hp' & Hm') Hr']. split; [|done]. exists m1. split; [done|]. intros j Hj. apply Hs2.
    rewrite Hp in Hp'. injection Hp' as <-. by apply Hm'.
  - intros clk. destruct (Hsv clk) as (n & d2 & acts & H1 & H2 & _ & H3). exists n, d2, acts.
    split_and!; try done. eapply dma_steps_dir; [exact H1|]. eapply initiate_dir; [|exact Hi]. done.
Qed.

(** C10: DMA_REQUEST does what it says, for a transfer of at least two bytes, inside the data and inside the vector register, whose last byte is not the first byte of a page and
    that touches no more pages than the engine has free events (a single last byte in a page is lost, [dma_last_byte_lost], and an event
    that is missing stops the simulation).  The four register writes of the macro on an idle,
    set-up device with 32-bit registers succeed and start the engine, and the firings of the engine's event then move every
    byte exactly once, in order and in the requested direction, between the physical place of
    the virtual address and the place of the scratchpad address in the vector register. *)
Theorem dma_request_macro k c mem phys tbl vstart ptr r0 r0' now st MA SA NB CM RES :
  conf_ok k -> NoDup (registers k) -> Tlb.pim_arch c = 32 ->
  dma_ready c mem phys tbl vstart ptr r0 r0' (engine st) ->
  Forall (fun a => room (base_mem st) a 4) (registers k) -> Forall (fun a => 0 <= a < 2 ^ 63) (registers k) ->
  room (base_mem st) (PIM_DMA_STATUS_ADDR k) 1 ->
  (CM = 0 \/ CM = PIM_DMA_WRITE) -> 0 < RES < 128 ->
  0 <= SA < 2 ^ 32 -> 2 <= NB < 2 ^ 32 -> 0 < MA < 2 ^ 32 ->
  PIM_VREG_ADDR k <= SA + PIM_ADDRESS_BASE k ->
  SA + PIM_ADDRESS_BASE k + NB <= PIM_VREG_ADDR k + PIM_VREG_SIZE k ->
  in_data c phys vstart MA -> in_data c phys vstart (MA + NB - 1) -> (MA + NB - 1 - vstart) mod PS c <> 0 ->
  (MA + NB - 1 - vstart) / PS c - (MA - vstart) / PS c + 1 <= Z.of_nat (free_events (engine st)) ->
  exists st', recv_all k c mem true now (DMA_REQUEST k MA SA NB CM RES) st =
      Done (st', [Dma (WriteStatus RES); Dma ScheduleNext]) /\
    forall clk, exists n d acts, dma_steps c mem true clk n (engine st') = Done (d, acts) /\
      current_state d = DMA_STATE_IDLE /\ Forall (dir_is (CM =? 0)) acts /\
      bytes_of acts = (fun i => (translate c phys vstart (MA + i), SA + PIM_ADDRESS_BASE k + i)) <$> seqZ 0 NB.
Proof.
  intros Hk Hreg Harch Hrd Hrooms Hpos Hstat HCM HRES HSA HNB HMA Hv1 Hv2 Hin Hine Hmod Hfe.
  assert (Hr : forall j a, registers k !! j = Some a -> room (base_mem st) a 4 /\ 0 <= a < 2 ^ 63).
  { intros j a Hj. split; [exact (Forall_lookup_1 _ _ _ _ Hrooms Hj)|exact (Forall_lookup_1 _ _ _ _ Hpos Hj)]. }
  destruct (Hr 6%nat _ eq_refl) as [Hr6 _]. destruct (Hr 7%nat _ eq_refl) as [Hr7 _].
  destruct (Hr 8%nat _ eq_refl) as [Hr8 _]. destruct (Hr 10%nat _ eq_refl) as [Hr10 Hp10].
  destruct (recv_register k c mem now Hreg true st 7 _ _ _ _ eq_refl ltac:(lia)
              (dma_registers k c mem now Hreg Harch true st 7 MA ltac:(lia) ltac:(lia))) as (m1 & q1 & H1 & R1); [exact Hr7|].
  match type of H1 with _ = Done (?s, _, _) => set (st1 := s) in * end.
  destruct (recv_register k c mem now Hreg true st1 8 _ _ _ _ eq_refl ltac:(lia)
              (dma_registers k c mem now Hreg Harch true st1 8 SA ltac:(lia) ltac:(lia))) as (m2 & q2 & H2 & R2); [exact (R1 _ _ Hr8)|].
  match type of H2 with _ = Done (?s, _, _) => set (st2 := s) in * end.
  destruct (recv_register k c mem now Hreg true st2 6 _ _ _ _ eq_refl ltac:(lia)
              (dma_registers k c mem now Hreg Harch true st2 6 NB ltac:(lia) ltac:(lia))) as (m3 & q3 & H3 & R3); [exact (R2 _ _ (R1 _ _ Hr6))|].
  match type of H3 with _ = Done (?s, _, _) => set (st3 := s) in * end.
  assert (HR : forall b n, room (base_mem st) b n -> room (base_mem st3) b n) by (intros b n Hb; exact (R3 _ _ (R2 _ _ (R1 _ _ Hb)))).
  destruct (dma_start k c mem phys tbl vstart ptr r0 r0' now st3 CM RES) as (st4 & H4 & R4 & Hsv); try done;
    try (change (_dma_mem_addr st3) with MA; change (_dma_spm_addr st3) with SA; change (_dma_num_bytes st3) with NB; lia);
    [by apply HR|].
  destruct (recv_register k c mem now Hreg true st3 10 _ _ _ _ eq_refl ltac:(lia) H4) as (m5 & q5 & H5 & _).
  { apply R4, HR. apply (room_sub _ _ 4); [simpl; lia|lia|lia|done]. }
  exists (set_base st4 m5). split; [|exact Hsv].
  unfold DMA_REQUEST. cbn [recv_all]. cbn [nth registers] in H1, H2, H3. rewrite H1. sim_step.
  rewrite H2. sim_step. rewrite H3. sim_step. rewrite H5. done.
Qed.

(** A second command needs a new address.  The command register adds the base of the
    device to the scratchpad address in place, so after a command that was accepted another
    one without a write to PIM_DMA_SPM_ADDR finds the address outside the vector register
    and stops the simulation, if the base is at least the size of the vector register. *)
Theorem dma_command_twice k c mem timing now now' st cmd st' evs cmd' :
  conf_ok k -> regs_ok st -> PIM_VREG_SIZE k <= PIM_ADDRESS_BASE k -> cmd <> 0 -> cmd' <> 0 ->
  dma_command k c mem timing now st cmd = Done (st', evs) ->
  dma_command k c mem timing now' st' cmd' = Halt.
Proof.
  intros [Hb1 Hb2 Hb3 Hb4] (Hn & Hm & Hs) Hsz Hc Hc' H. unfold dma_command in H.
  rewrite (proj2 (Z.eqb_neq cmd 0) Hc) in H.
  apply bind_Done in H as ([] & H1 & H). apply bind_Done in H as ([] & H2 & H). apply bind_Done in H as ([] & H3 & H).
  cbv zeta in H.
  assert (Hu : u64 (_dma_spm_addr st + PIM_ADDRESS_BASE k) = _dma_spm_addr st + PIM_ADDRESS_BASE k)
    by (apply Z.mod_small; unfold u64_mod; lia).
  rewrite Hu in H. set (spm := _dma_spm_addr st + PIM_ADDRESS_BASE k) in *.
  assert (Hu2 : u64 (spm + _dma_num_bytes st) = spm + _dma_num_bytes st)
    by (apply Z.mod_small; unfold u64_mod; lia).
  rewrite Hu2 in H. destruct (Z.ltb_spec spm (PIM_VREG_ADDR k)) as [|E1]; [done|].
  destruct (Z.ltb_spec (PIM_VREG_ADDR k + PIM_VREG_SIZE k) (spm + _dma_num_bytes st)) as [|E2]; [done|].
  cbn [orb] in H. apply bind_Done in H as ([d acts] & _ & H). cbn beta iota in H.
  apply bind_Done in H as (st2 & Hw & H). injection H as <- _.
  assert (Hst : forall acts s s', status_writes k acts s = Done s' ->
            _dma_num_bytes s' = _dma_num_bytes s /\ _dma_mem_addr s' = _dma_mem_addr s /\ _dma_spm_addr s' = _dma_spm_addr s).
  { clear. induction acts as [|a acts IH]; intros s s' H; cbn [status_writes] in H; [by sim_inv|].
    destruct a; try (by apply IH). apply bind_Done in H as (s1 & H1 & H). apply IH in H.
    unfold __write_mem_1byte in H1. sim_inv. exact H. }
  destruct (Hst _ _ _ Hw) as (E3 & E4 & E5). cbn in E3, E4, E5.
  unfold dma_command. rewrite (proj2 (Z.eqb_neq cmd' 0) Hc'), E3, E4, E5, H1, H2, H3. cbn [mbind sim_bind]. cbv zeta.
  apply check_Done, negb_true_iff, Z.eqb_neq in H1.
  assert (u64 (spm + PIM_ADDRESS_BASE k) = spm + PIM_ADDRESS_BASE k) as -> by (apply Z.mod_small; unfold u64_mod; lia).
  assert (u64 (spm + PIM_ADDRESS_BASE k + _dma_num_bytes st) = spm + PIM_ADDRESS_BASE k + _dma_num_bytes st) as ->
    by (apply Z.mod_small; unfold u64_mod; lia).
  rewrite (proj2 (Z.ltb_lt (PIM_VREG_ADDR k + PIM_VREG_SIZE k) _)) by lia. by rewrite orb_true_r.
Qed.

(** ** Instances of the properties *)

Definition demo_pim : pim_conf :=
  mkPimConf 0x1000 0x1000 0x1004 0x1008 0x100c 0x1010 0x1014 0x1018 0x101c 0x1020 0x1100 0x100 0x1024 0x1028
            0x102c 0x1030 0x1034 0x1038 0x103c 0x1040 0x1044 0x1048.
Definition demo_bytes : bytes := list_to_map ((fun a => (a, 0)) <$> seqZ 0x1000 0x100).
Definition demo_base : amem := mkMem (mkRange 0x1000 0x1fff) (Some demo_bytes) [] 0 0 0.
Definition demo_device_state : pimmem := ethz_PIMMemory demo_base (ethz_DMA demo_empty) 0.

Lemma demo_bytes_mapped a n : 0x1000 <= a -> a + n <= 0x1100 -> mapped demo_bytes a n.
Proof.
  intros H1 H2 j Hj. unfold demo_bytes. exists 0. apply elem_of_list_to_map_1.
  - rewrite <- list_fmap_compose. change (fst ∘ (fun a : Z => (a, 0))) with (fun a : Z => a).
    rewrite list_fmap_id. apply NoDup_seqZ.
  - apply list_elem_of_fmap. exists (a + j). split; [done|]. apply elem_of_seqZ. lia.
Qed.

Lemma demo_room a n : 0x1000 <= a -> a + n <= 0x1100 -> 0 < n -> room demo_base a n.
Proof.
  intros H1 H2 H3. split; [exists demo_bytes; split; [done|by apply demo_bytes_mapped]|].
  unfold isSubset. cbn [r_start r_end am_range demo_base]. unfold u64. rewrite Z.mod_small by (unfold u64_mod; lia).
  apply andb_true_iff. split; apply Z.leb_le; lia.
Qed.

Lemma demo_conf_ok : conf_ok demo_pim.
Proof. split; simpl; lia. Qed.

(** 16 bytes across a page boundary, into the vector register at offset 0x120. *)
Lemma dma_request_macro_witness :
  exists st', recv_all demo_pim demo_conf demo_mem true 1 (DMA_REQUEST demo_pim 0x2ff8 0x120 16 0 1)
      demo_device_state = Done (st', [Dma (WriteStatus 1); Dma ScheduleNext]) /\
    forall clk, exists n d acts, dma_steps demo_conf demo_mem true clk n (engine st') = Done (d, acts) /\
      length (bytes_of acts) = 16%nat.
Proof.
  destruct (dma_request_macro demo_pim demo_conf demo_mem demo_frames_list demo_slices 0x2000 0x5000 demo_r0
              demo_r0' 1 demo_device_state 0x2ff8 0x120 16 0 1) as (st' & H1 & H2).
  - exact demo_conf_ok.
  - apply (bool_decide_unpack _). vm_compute. exact I.
  - reflexivity.
  - split; try reflexivity; [exact demo_device|exact demo_empty_inv].
  - repeat (apply Forall_cons; split; [apply demo_room; simpl; lia|]). constructor.
  - repeat (apply Forall_cons; split; [simpl; lia|]). constructor.
  - apply demo_room; simpl; lia.
  - by left.
  - lia.
  - lia.
  - lia.
  - lia.
  - simpl. lia.
  - simpl. lia.
  - apply demo_in_data. lia.
  - apply demo_in_data. lia.
  - vm_compute. discriminate.
  - vm_compute. discriminate.
  - exists st'. split; [exact H1|]. intros clk. destruct (H2 clk) as (n & d & acts & H3 & _ & _ & H4).
    exists n, d, acts. split; [exact H3|]. rewrite H4. reflexivity.
Defined.

Lemma recv_all_run k c mem timing now ps : forall st st' evs,
  Forall (fun p => Forall (fun b => 0 <= b < 256) (k_data p)) ps ->
  recv_all k c mem timing now ps st = Done (st', evs) -> pim_run k c mem timing st evs st'.
Proof.
  induction ps as [|p ps IH]; intros st st' evs Hb H; cbn [recv_all] in H; [injection H as <- <-; constructor|].
  apply bind_Done in H as ([[st1 q] e1] & H1 & H). cbn beta iota in H.
  apply bind_Done in H as ([st2 e2] & H2 & H). injection H as <- <-. apply Forall_cons in Hb as [Hb1 Hb2].
  eapply run_cons; [by eapply next_access|]. by apply IH.
Qed.

Lemma run_app k c mem timing st e1 st1 e2 st2 : pim_run k c mem timing st e1 st1 ->
  pim_run k c mem timing st1 e2 st2 -> pim_run k c mem timing st (e1 ++ e2) st2.
Proof. induction 1; intros H2; [done|]. rewrite <- app_assoc. eapply run_cons; eauto. Qed.

Definition demo_requests : list mpkt := DMA_REQUEST demo_pim 0x2010 0x120 16 128 1.
Definition demo_started : pimmem :=
  match recv_all demo_pim demo_conf demo_mem true 1 demo_requests demo_device_state with
  | Done (s, _) => s
  | _ => demo_device_state
  end.
Definition fire (st : pimmem) : pimmem :=
  match nextState demo_conf 2 demo_mem true (engine st) with Done (d, _) => set_engine st d | _ => st end.

Lemma dma_confined_witness :
  exists evs st', pim_run demo_pim demo_conf demo_mem true demo_device_state evs st' /\
    In (Dma (DmaAction false 0x80010 16 0x1120)) evs /\ 0x1100 <= 0x112f < 0x1200.
Proof.
  set (evs := [Dma (WriteStatus 1); Dma ScheduleNext] ++
              (map Dma [ScheduleNext] ++ (map Dma [DmaAction false 0x80010 16 0x1120; ScheduleNext] ++ []))).
  assert (Hr : pim_run demo_pim demo_conf demo_mem true demo_device_state evs (fire (fire demo_started))).
  { apply (run_app _ _ _ _ _ _ demo_started).
    - apply (recv_all_run _ _ _ _ 1 demo_requests); [|vm_compute; reflexivity].
      repeat (apply Forall_cons; split; [vm_compute; repeat constructor; discriminate|]). constructor.
    - apply (run_cons _ _ _ _ _ _ (fire demo_started)).
      { apply (next_event _ _ _ _ 2 _ (engine (fire demo_started))); vm_compute; reflexivity. }
      apply (run_cons _ _ _ _ _ _ (fire (fire demo_started))); [|constructor].
      apply (next_event _ _ _ _ 2 _ (engine (fire (fire demo_started)))); vm_compute; reflexivity. }
  assert (Hin : In (Dma (DmaAction false 0x80010 16 0x1120)) evs) by (simpl; tauto).
  exists evs, (fire (fire demo_started)). split; [exact Hr|]. split; [exact Hin|].
  apply (dma_confined demo_pim demo_conf demo_mem true demo_base (ethz_DMA demo_empty) 0 evs
           (fire (fire demo_started)) 0x112f false 0x80010 16 0x1120).
  - exact demo_conf_ok.
  - reflexivity.
  - reflexivity.
  - lia.
  - exact Hr.
  - exact Hin.
  - lia.
Defined.

Definition twice_state : pimmem := mkPIM demo_base (ethz_DMA demo_empty) 16 0x2010 0x120 0 63 false.
Definition twice_next : pimmem :=
  match dma_command demo_pim demo_conf demo_mem true 1 twice_state 1 with Done (s, _) => s | _ => twice_state end.

Lemma dma_command_twice_witness :
  dma_command demo_pim demo_conf demo_mem true 1 twice_state 1 =
    Done (twice_next, [Dma (WriteStatus 1); Dma ScheduleNext]) /\
  dma_command demo_pim demo_conf demo_mem true 5 twice_next 2 = Halt.
Proof.
  assert (H : dma_command demo_pim demo_conf demo_mem true 1 twice_state 1 =
    Done (twice_next, [Dma (WriteStatus 1); Dma ScheduleNext])) by (vm_compute; reflexivity).
  split; [exact H|].
  apply (dma_command_twice demo_pim demo_conf demo_mem true 1 5 twice_state 1 twice_next
           [Dma (WriteStatus 1); Dma ScheduleNext] 2).
  - exact demo_conf_ok.
  - repeat split; simpl; lia.
  - simpl. lia.
  - lia.
  - lia.
  - exact H.
Defined.
